(* ===== verification/_CoqProject ===== *)
-Q . S2P
Prelude.v
GoLib.v
GoFloat.v
Json.v
Sha256.v
NostrEvent.v
NostrTags.v
Account.v
Db.v
AccountStore.v
TrustedSet.v
Zap.v
AuthorStats.v
StatsLedger.v
Dedup.v
Checkpoints.v
Backfill.v
GoNet.v
RelayURL.v
PublicDial.v
Nip11.v
Nip05.v
RelayManager.v
SearchText.v
SearchDiag.v
SearchSpell.v
SearchRank.v
SearchPage.v
TrustGraph.v
TrustRank.v
TrustStore.v
Registry.v
Followers.v
Admission.v
Discovery.v
JobQueue.v
TrustRedis.v
TrustRun.v
TrustLifecycle.v
Worker.v
CanonicalStore.v
Replaceable.v
UntrustedPurge.v
UntrustedIndex.v
Gate.v
Processor.v
