(* ===== verification/Prelude.v ===== *)
(** NostrMash: a verification library of its ingest path, its job queue, its
    account lifecycle, its statistics and retention, its relay control plane, its
    search and its trust graph.

    * The program

    NostrMash is a Nostr indexer in Go over PostgreSQL. Relay connections hand raw
    event payloads to the ingestor; the live processor validates a payload, asks
    the trust gate whether to keep it and writes it to the canonical store, which
    enqueues a derivation job in the same transaction. Workers claim jobs and
    derive projections from the stored events; retention deletes what the
    projections no longer need. Which authors are trusted comes from the account
    lifecycle, whose states workers recompute and the ingestor loads into memory,
    and from the trust graph: a refresh publishes each pubkey's distance from the
    seeds, and a run of jobs (sync, compute, neighbourhoods, promote) ranks the
    follow graph and publishes the scores.
    Checkpoints record how far each relay was read, so that a restart resumes.
    Which relays are read is decided by the control plane: discovery counts the
    relays that users list, admission scores them and keeps the tiers of the
    registry within their caps, and the published set is what the ingestor's
    reconciler connects to. Documents of relays and of NIP-05 identifiers are
    fetched from hosts that users name, with guards against private addresses.
    Readers search notes and profiles: a query is parsed, its spelling corrected
    against the hashtags in use, what the index returns is ranked, and a page is
    filtered by trust, supplemented with fresh notes and capped per author.

    * Files, and the code each one models (paths under [src/])

    - [Prelude]: results, the state-and-error monad [go], 64- and 32-bit integers,
      tactics and the lemmas shared by all files.
    - [GoLib]: what the code uses of Go's [strings], [strconv], [utf8], [hex] and
      [time]; strings are byte sequences, and the Unicode tables the Go library
      generates are the class [UnicodeTables].
    - [GoFloat]: [float64] and [sort].
    - [Json]: [encoding/json] as a byte automaton and a stack machine, decoding
      into the source's types, and its string encoder.
    - [Sha256]: [crypto/sha256].
    - [NostrEvent]: [internal/nostr/validator.go] and [types.go].
    - [NostrTags]: [internal/nostr/references.go], [address.go],
      [event_attributes.go] and [internal/eventtags/policy.go].
    - [Account], [AccountStore]: [internal/account], the tables and operations of
      [internal/store/account/account.go], and the recompute pass of
      [internal/worker/runtime/account_state.go].
    - [Db]: tables, statements and transactions.
    - [TrustedSet]: [internal/ingestor/runtime/trusted_set.go], [observation.go].
    - [Dedup]: [internal/ingestor/live/dedup_cache.go], on the element references
      of [container/list].
    - [Checkpoints]: [internal/ingestor/live/checkpoint_tracker.go],
      [resume_since_resolver.go] and [internal/store/checkpoints.go].
    - [JobQueue]: [internal/jobs]: enqueue, claim, heartbeat, settle, maintenance,
      publisher and retry delay.
    - [CanonicalStore]: [internal/store/events_canonical.go], [events_exist.go],
      [kind_census.go] and [events_invalid.go].
    - [Replaceable]: [internal/derivation/handlers_replaceable.go] and the purge of
      superseded versions in [internal/store/retention].
    - [Gate]: [internal/ingestor/live/gate.go].
    - [Processor]: [internal/ingestor/live/processor.go] and
      [internal/config/census_kinds.go].
    - [Backfill]: [internal/ingestor/backfill/runner.go].
    - [Worker]: [cmd/worker/job_runner.go].
    - [Zap], [AuthorStats], [StatsLedger]: [internal/derivation/zap_amount.go], the
      incremental statistics of authors and events, and the purge that reverses
      them before it deletes ([internal/store/retention]).
    - [Followers]: contact and relay lists, follower edges and counts
      ([internal/derivation]).
    - [UntrustedPurge], [UntrustedIndex]: the index of events by untrusted authors,
      its incremental synchronisation and the purges that read it
      ([internal/store/retention]); the one holds the operations, the other the
      proofs.
    - [SearchText], [SearchSpell], [SearchRank], [SearchDiag]:
      [internal/query/search_rank.go], the correction of queries in
      [search_apply.go], the lookup of frequencies in
      [internal/store/read/search_signals.go] and the request diagnostics of
      [internal/readmodel/search_diag.go].
    - [SearchPage]: the search for notes, from the normalisation of its parameters
      to the page ([search_service.go], [search_normalization.go],
      [search_trust.go], [trust_service.go] and [search_apply.go] of
      [internal/query]).
    - [TrustGraph], [TrustRank]: [internal/trust/neighborhoods.go], [ranking.go] and
      the graphs of [interaction_graph.go].
    - [TrustStore]: [internal/store/trust]: the hop table, the derived table of hops
      and scores, the recount of trusted followers, the discovery projections,
      seeds and trust states.
    - [TrustRedis]: [internal/trust/redis_graph.go], [seeds.go] and the Redis part
      of [runtime_neighborhoods.go].
    - [TrustRun], [TrustLifecycle]: the trigger, the job handlers and the state of
      a run ([internal/trust/runtime*.go]), the tick of the scheduler in
      [internal/app/trustworker/run.go], [interaction_graph.go] and
      [personalized.go]; the one holds the definitions and the invariant, the
      other the runs.
    - [GoNet]: [net]'s addresses. [RelayURL]: [internal/relayurl/normalize.go].
    - [PublicDial], [Nip11], [Nip05]: the outbound connections, documents and
      schedules of [internal/relaynip11] and [internal/nip05].
    - [RelayManager]: [internal/ingestor/relay].
    - [Registry], [Admission], [Discovery]: [internal/relayregistry],
      [internal/relayadmission], [internal/relaydiscovery] and the refresh cycle of
      [internal/relaycontrol].

    * How the code is represented

    A method with an error result is a [go S A]: state in, state and [Ok] or [Err]
    out; errors are their messages, wrapped as [fmt.Errorf] wraps them. A database
    is its tables, maps by primary key, with a list of faults that says which of
    the coming calls fail, so a theorem that quantifies over the database covers
    each pattern of failing statements, begins and commits; a transaction that
    fails leaves the tables as they were. An operation of one table group is
    lifted to the whole database with [zoom]. SQL statements are Rocq functions
    on the tables with their constraints, conflict clauses, orders and limits;
    where SQL leaves a choice (locked rows that a claim skips, a limit with no
    order) the choice is an argument. Concurrent callers are sequences of
    operations; where the code releases a lock in the middle of an operation (the
    checkpoint flush) the operation is split into steps that others may separate.

    Interfaces of the source are classes: [EventStore] and [CheckpointWriter] of
    the processor, [TrustedAuthors] and [TargetExistenceChecker] of the gate (its
    [RelayInfoLookup] is a function). [EventStoreSpec] and [CheckerSpec] state what
    their clients rely on; the database of [CanonicalStore] discharges both. The
    BIP-340 verifier and the Unicode tables are parameters: no theorem assumes
    anything of the verifier, it is only known to have accepted. So are
    [net/url]'s parser ([URLParser]), the resolver and the HTTP client,
    the letters and digits outside ASCII ([UnicodeClasses]), [math.Log10], [Exp] and
    [Log1p], the media flags that SQL computes from a row, advisory locks and time
    budgets of the sweeps (arguments), [sort.Slice] (some permutation, sorted when the comparison is a
    strict weak order, [SliceSort]) and the order of a map range (some permutation,
    [MapRange]). The trust part adds the order of rows without [ORDER BY]
    ([EdgeRows], [WeightRows]), the pages of Redis' [SCAN] ([RedisScan]: each key
    that stays is returned at least once), PostgreSQL's [LN] ([NaturalLog]) and the
    test for a deadlock ([DeadlockCode]); the search pages take the engine, the
    readers, bech32 and the clock as arguments. Floating point is the Standard
    Library's [SpecFloat] at 53 bits; the ranking is generic in its numbers
    ([Numbers]), with doubles and exact rationals as instances.

    Goroutines with a loop of their own (the relay loops, the worker, the NIP-05
    schedule) are state machines; their theorems quantify over every sequence of
    inputs, so over every schedule.

    * Theorems

    - Validation ([NostrEvent]): an accepted payload has the six fields in their
      formats, its id is the SHA-256 of the NIP-01 serialisation and the verifier
      accepted its signature; an event that has all this is accepted; the
      serialisation is NIP-01's wherever Go's encoder agrees with it; two accepted
      events with one id carry the same data or are a SHA-256 collision.
    - Ingest ([Processor], [Gate], [Dedup], [TrustedSet]): only admitted events
      are stored, checkpoints advance past durable or rejected payloads only, the
      cache never vouches for an event that was not stored; the enforced gate is
      given by a table of rules and the shadow gate accepts what it would reject
      but counts the same; the cache refines a bounded recency list; a refresh of
      the trusted set replaces it whole or leaves it.
    - Storage ([CanonicalStore], [Replaceable], [Checkpoints]): an insert writes
      the event, its tags and its job, or nothing; stored rows never change; the
      tags kept are those of the policy; the census counts each observation once;
      replaceable addresses converge to their latest version in any order, and
      purges remove only versions beaten at their own address; a resume cursor is
      never ahead of what the store has seen, and cursors only advance, with the
      interleaving of two flushes that drops progress.
    - Jobs ([JobQueue]): attempts never exceed their maximum, only the holder of a
      lease settles a job, a job moves along the edges of its status graph, claims
      take the oldest due jobs, and the retry delay stays in its
      bounds whatever the number of attempts.
    - Accounts ([Account], [AccountStore]): the audit rows replay to the current
      state, operator overrides win until they are cleared, a recompute pass
      settles, stronger signals never weaken a state, and what the effective
      ingest state allows.
    - Loops ([Backfill], [Worker], [RelayManager]): a backfill over relays that
      answer within the requested window terminates, and over any relays, after
      any failure, what was fetched was handled or will be requested again from
      the same cursor; the worker, under
      any schedule, keeps a decreasing measure and is never stuck, so that a fair
      one drains the queue; relays follow their lifecycle graph, waits double up
      to their maximum, and a reconciliation leaves one connection for each
      desired relay.
    - Control plane ([Registry], [Admission], [Discovery]): tiers stay within
      their caps and the lowest scores go first, a cycle of seeding, discovery
      and admission keeps every relay's row and publishes exactly the connectable
      ones, whatever fails before the refresh itself, discovery counts each user once and plans within its
      limits, the most listed relays first.
    - Outbound ([RelayURL], [PublicDial], [Nip11], [Nip05]): admitted URLs name no
      private address, document fetches dial public addresses only, what is kept
      of a document is bounded, a verified identifier was published by its domain.
    - Zaps ([Zap]): the satoshis of an invoice are exact.
    - Statistics ([StatsLedger], [Followers]): the counts of events, posts, notes
      and replies equal a recount of the stored events after any sequence of
      derivations and purges (those of engagement do not), and follower counts
      equal the number of edges.
    - Retention ([UntrustedIndex]): a purge deletes only events of authors who are
      not trusted, of the indexed kinds and past their window; a sync
      that runs to its end finds every such event, whatever earlier syncs left
      undone, as long as trust changes neither during a sync nor while authors
      are queued.
    - Search ([SearchSpell], [SearchRank]): the edit distance is exact, a correction
      is the most frequent word nearby whatever the caps and map orders on the
      way, a ranked page rearranges what matches within the author cap, and
      near-duplicates keep a representative.
    - Search pages ([SearchPage]): a page respects the limit and the author cap and
      holds only notes of its sources that match; without an engine, trusted-only
      search returns only vouched authors; and the cases where it does not.
    - Trust graph ([TrustGraph], [TrustStore]): a neighbourhood holds the pubkeys
      within its limit at their distance from the seed, the nearest first, whatever
      the map orders; a refresh of the hop table publishes each reachable pubkey at
      its distance, with the derived table, or changes nothing; the table that
      trust states are read from stays the join of hops and scores, column by
      column; a recount of trusted followers is exact.
    - Ranking ([TrustRank]): in exact arithmetic the scores sum to one; in doubles
      the ranking is ordered and holds each node once.
    - Trust runs ([TrustRedis], [TrustRun], [TrustLifecycle]): reading the graph
      back from Redis gives the graph that was written, no key is left without an
      expiry, a promote publishes all or nothing, the published scores are one
      whole ranking of one run under every sequence of jobs and faults, a run
      without faults ends with its ranking published; and the deliveries after
      which it does not.
    - Tags ([NostrTags]): reply parents, coordinates that survive a round trip,
      proof-of-work bits and the bounds of projected attributes.

    * Bounds

    Recursion is structural but for a few loops: a backfill has fuel, and
    [backfill_terminates] says how much is enough; the breadth-first search has as
    many rounds as members it may hold ([bfs_total]), the recursive query as many
    as its hop limit, after which no row is added, and the staging of a ranking as
    many batches as rows; the doubling of the NIP-05
    backoff has 16 rounds, where the code stops after twelve; the fields of an IPv6
    text are at most eight. The JSON scanner consumes bytes and the
    parser tokens, with Go's nesting limit of 10000; decimal printing uses twenty
    digits, enough for 64 bits, and the doubling of the retry delay recurses on
    the attempts. Counters and durations are kept at 64 bits, SQL integers at 32
    where the code converts.

    * Not modelled

    HTTP and WebSocket transport, logging, metrics, tracing and configuration
    loading (input and output only); the reads behind the query layer and the
    store's read-only SQL, other than the search for notes; the HTTP and
    Primal-compatible interfaces over them; relay probes; the other projections
    (profiles, references, language labels, windows) and retention sweeps
    (expired, deletion and invalid rows, ledgers, tags); the trust frontier, relay
    suggestions and scheduling of [internal/store/trust]; migrations other than
    the constraints and triggers of the tables above; context cancellation and
    timeouts, except as failing calls and as inputs of the state machines. The
    projections left out are SQL over tables that no modelled part reads; the
    search for profiles and suggestions repeats the search for notes over an
    engine and readers that are parameters here. *)

From Stdlib Require Export ZArith Lia.
From Stdlib Require Ascii String.
From stdpp Require Export base gmap strings list fin_maps sorting numbers.

#[global] Open Scope Z_scope.

(** * Notations *)

Declare Scope go_scope.
Delimit Scope go_scope with go.

(** Errors are Go's [error] values, represented by their message. *)
Abbreviation error := string (only parsing).

(** The two outcomes of a Go function with an [error] result. *)
Inductive result (A : Type) : Type :=
| Ok (a : A)
| Err (e : error).
Arguments Ok {A} a.
Arguments Err {A} e.

Definition is_ok {A} (r : result A) : bool :=
  match r with Ok _ => true | Err _ => false end.

(** [fmt.Errorf("prefix: %w", err)]. *)
Definition wrap_err {A} (prefix : string) (r : result A) : result A :=
  match r with
  | Ok a => Ok a
  | Err e => Err (prefix +:+ ": " +:+ e)
  end.

(** Computations that thread a state and may fail; a failing step keeps the
    state it had reached, as a Go function that returns early does. *)
Definition go (S A : Type) : Type := S → S * result A.

Definition go_ret {S A} (a : A) : go S A := λ s, (s, Ok a).

Definition go_fail {S A} (e : error) : go S A := λ s, (s, Err e).

Definition go_bind {S A B} (m : go S A) (k : A → go S B) : go S B := λ s,
  match m s with
  | (s', Ok a) => k a s'
  | (s', Err e) => (s', Err e)
  end.

(** [if err := m(); err != nil { return fmt.Errorf("prefix: %w", err) }]. *)
Definition go_wrap {S A} (prefix : string) (m : go S A) : go S A := λ s,
  let '(s', r) := m s in (s', wrap_err prefix r).

Definition go_modify {S} (f : S → S) : go S unit := λ s, (f s, Ok tt).

Definition go_get {S A} (f : S → A) : go S A := λ s, (s, Ok (f s)).

(** A statement guarded by a condition, [if c { m }]. *)
Definition go_when {S} (c : bool) (m : go S unit) : go S unit :=
  if c then m else go_ret tt.

Notation "x '<-' m ';;' k" := (go_bind m (λ x, k))
  (at level 100, m at next level, right associativity) : go_scope.
Notation "m ';;' k" := (go_bind m (λ _, k))
  (at level 100, right associativity) : go_scope.

(** * Machine integers *)

Definition two63 : Z := 2 ^ 63.
Definition two64 : Z := 2 ^ 64.
Definition max_int64 : Z := two63 - 1.
Definition min_int64 : Z := - two63.

(** Wrap-around of Go's [int64] (and 64-bit [int]), [int32] and [uint64]. *)
Definition i64 (z : Z) : Z := (z + two63) mod two64 - two63.
Definition i32 (z : Z) : Z := (z + 2 ^ 31) mod 2 ^ 32 - 2 ^ 31.
Definition u64 (z : Z) : Z := z mod two64.

Definition in_i64 (z : Z) : bool := (min_int64 <=? z) && (z <=? max_int64).

(** * Automation *)

Create HintDb nmash.
Create Rewrite HintDb nmash.

(** Split every [if] and [match] on a boolean or an option in the goal. *)
Ltac split_ifs :=
  repeat match goal with
    | |- context [if ?b then _ else _] => destruct b eqn:?
    end.

Ltac split_ifs_in H :=
  repeat match type of H with
    | context [if ?b then _ else _] => destruct b eqn:?
    end.

(** Turn boolean hypotheses into propositions. *)
Ltac bool_simpl :=
  repeat match goal with
    | H : (_ && _) = true |- _ => apply andb_true_iff in H; destruct H
    | H : (_ || _) = false |- _ => apply orb_false_iff in H; destruct H
    | H : negb _ = true |- _ => apply negb_true_iff in H
    | H : negb _ = false |- _ => apply negb_false_iff in H
    | H : (_ <=? _)%Z = true |- _ => apply Z.leb_le in H
    | H : (_ <=? _)%Z = false |- _ => apply Z.leb_gt in H
    | H : (_ <? _)%Z = true |- _ => apply Z.ltb_lt in H
    | H : (_ <? _)%Z = false |- _ => apply Z.ltb_ge in H
    | H : (_ =? _)%Z = true |- _ => apply Z.eqb_eq in H
    | H : (_ =? _)%Z = false |- _ => apply Z.eqb_neq in H
    | H : bool_decide _ = true |- _ => apply bool_decide_eq_true in H
    | H : bool_decide _ = false |- _ => apply bool_decide_eq_false in H
    end.

(** Case analysis on every match in the goal, closing the trivial cases. *)
Ltac crush_match :=
  repeat (case_match; simplify_eq/=; try done).

(** * Machine-integer lemmas *)

Lemma in_i64_spec z : in_i64 z = true ↔ min_int64 ≤ z ≤ max_int64.
Proof. unfold in_i64. rewrite andb_true_iff, !Z.leb_le. done. Qed.

Lemma i64_id z : min_int64 ≤ z ≤ max_int64 → i64 z = z.
Proof.
  unfold i64, min_int64, max_int64, two63, two64. intros H.
  rewrite Z.mod_small; lia.
Qed.

Lemma i32_id z : - 2 ^ 31 ≤ z < 2 ^ 31 → i32 z = z.
Proof. intros H. unfold i32. rewrite Z.mod_small; lia. Qed.

Lemma i64_range z : min_int64 ≤ i64 z ≤ max_int64.
Proof.
  unfold i64, min_int64, max_int64.
  pose proof (Z.mod_pos_bound (z + two63) two64 eq_refl).
  unfold two63, two64 in *. lia.
Qed.

Lemma u64_range z : 0 ≤ u64 z < two64.
Proof. apply Z.mod_pos_bound. done. Qed.

#[export] Hint Resolve i64_range u64_range : nmash.

(** * First-occurrence deduplication *)

(** The idiom [if _, ok := seen[x]; ok { continue }; seen[x] = struct{}{};
    out = append(out, x)] over a list. *)
Fixpoint dedup_from {A} `{Countable A} (seen : gset A) (l : list A) : list A :=
  match l with
  | [] => []
  | x :: l' =>
      if bool_decide (x ∈ seen) then dedup_from seen l'
      else x :: dedup_from ({[x]} ∪ seen) l'
  end.

Definition dedup_first {A} `{Countable A} (l : list A) : list A :=
  dedup_from ∅ l.

Section dedup.
Context {A : Type} `{Countable A}.

Lemma elem_of_dedup_from (seen : gset A) l x :
  x ∈ dedup_from seen l ↔ x ∈ l ∧ x ∉ seen.
Proof.
  revert seen. induction l as [|y l IH]; intros seen; simpl.
  { set_solver. }
  case_bool_decide as Hy.
  - rewrite IH. set_solver.
  - rewrite elem_of_cons, IH. set_unfold. destruct (decide (x = y)); naive_solver.
Qed.

Lemma NoDup_dedup_from (seen : gset A) l : NoDup (dedup_from seen l).
Proof.
  revert seen. induction l as [|y l IH]; intros seen; simpl.
  { constructor. }
  case_bool_decide; [apply IH|].
  constructor; [|apply IH]. rewrite elem_of_dedup_from. set_solver.
Qed.

Lemma elem_of_dedup_first (l : list A) x : x ∈ dedup_first l ↔ x ∈ l.
Proof. unfold dedup_first. rewrite elem_of_dedup_from. set_solver. Qed.

Lemma NoDup_dedup_first (l : list A) : NoDup (dedup_first l).
Proof. apply NoDup_dedup_from. Qed.

Lemma dedup_first_nil (l : list A) : dedup_first l = [] ↔ l = [].
Proof.
  split; [|intros ->; done]. destruct l as [|x l]; [done|].
  intros Hn. assert (x ∈ dedup_first (x :: l)) as Hx
    by (apply elem_of_dedup_first; set_solver).
  rewrite Hn in Hx. set_solver.
Qed.

Lemma dedup_from_snoc (seen : gset A) l x :
  dedup_from seen (l ++ [x])
  = dedup_from seen l ++ (if bool_decide (x ∈ seen ∨ x ∈ l) then [] else [x]).
Proof.
  revert seen. induction l as [|y l IH]; intros seen; simpl.
  - repeat case_bool_decide; set_solver.
  - case_bool_decide; rewrite IH; simpl; repeat f_equal; repeat case_bool_decide; set_solver.
Qed.

Lemma dedup_first_snoc (l : list A) x :
  dedup_first (l ++ [x]) = dedup_first l ++ (if bool_decide (x ∈ l) then [] else [x]).
Proof.
  unfold dedup_first. rewrite dedup_from_snoc. repeat case_bool_decide; set_solver.
Qed.
End dedup.

#[export] Hint Resolve NoDup_dedup_first : nmash.

Lemma filter_perm {A} (P : A → bool) l l' : l ≡ₚ l' → List.filter P l ≡ₚ List.filter P l'.
Proof.
  induction 1 as [|x l l' _ IH|x y l|l1 l2 l3 _ IH1 _ IH2]; cbn [List.filter]; [done| | |by etransitivity].
  - destruct (P x); by rewrite IH.
  - destruct (P x), (P y); try done. constructor.
Qed.
