(* ===== verification/GoLib.v ===== *)
(** The parts of Go's standard library the modelled code calls: byte strings,
    [unicode/utf8], [strings], [strconv], [encoding/hex] and [time].

    A Go [string] is a sequence of bytes: Rocq's [string], whose characters
    are bytes.  Byte-level code works on [list Z], one number per byte. *)

From S2P Require Import Prelude.

(** * Bytes *)

Fixpoint bytes (s : string) : list Z :=
  match s with
  | String.EmptyString => []
  | String.String c s' => Z.of_N (Ascii.N_of_ascii c) :: bytes s'
  end.

Fixpoint str (l : list Z) : string :=
  match l with
  | [] => String.EmptyString
  | b :: l' => String.String (Ascii.ascii_of_N (Z.to_N b)) (str l')
  end.

(** [len(s)]. *)
Definition go_len (s : string) : Z := Z.of_nat (length (bytes s)).

Definition byte_ok (b : Z) : Prop := 0 ≤ b < 256.

(** * UTF-8 *)

Definition rune_error : Z := 65533.

Definition is_cont (b : Z) : bool := (128 <=? b) && (b <=? 191).

(** The second byte the encoding allows after the lead byte [a]. *)
Definition second_ok (a b : Z) : bool :=
  if a =? 224 then (160 <=? b) && (b <=? 191)
  else if a =? 237 then (128 <=? b) && (b <=? 159)
  else if a =? 240 then (144 <=? b) && (b <=? 191)
  else if a =? 244 then (128 <=? b) && (b <=? 143)
  else is_cont b.

Definition is_lead2 (a : Z) : bool := (194 <=? a) && (a <=? 223).
Definition is_lead3 (a : Z) : bool := (224 <=? a) && (a <=? 239).
Definition is_lead4 (a : Z) : bool := (240 <=? a) && (a <=? 244).

Definition rune2 (a b : Z) : Z := (a - 192) * 64 + (b - 128).
Definition rune3 (a b c : Z) : Z := (a - 224) * 4096 + (b - 128) * 64 + (c - 128).
Definition rune4 (a b c d : Z) : Z :=
  (a - 240) * 262144 + (b - 128) * 4096 + (c - 128) * 64 + (d - 128).

(** [[]rune(s)]: each byte that starts no valid encoding is [utf8.RuneError]. *)
Fixpoint runes (l : list Z) : list Z :=
  match l with
  | [] => []
  | a :: l1 =>
      if a <? 128 then a :: runes l1
      else if is_lead2 a then
        match l1 with
        | b :: l2 => if is_cont b then rune2 a b :: runes l2
                     else rune_error :: runes l1
        | [] => rune_error :: runes l1
        end
      else if is_lead3 a then
        match l1 with
        | b :: c :: l3 => if second_ok a b && is_cont c then rune3 a b c :: runes l3
                          else rune_error :: runes l1
        | _ => rune_error :: runes l1
        end
      else if is_lead4 a then
        match l1 with
        | b :: c :: d :: l4 =>
            if second_ok a b && is_cont c && is_cont d then rune4 a b c d :: runes l4
            else rune_error :: runes l1
        | _ => rune_error :: runes l1
        end
      else rune_error :: runes l1
  end.

Definition is_surrogate (r : Z) : bool := (55296 <=? r) && (r <=? 57343).

Definition valid_rune (r : Z) : bool :=
  (0 <=? r) && (r <=? 1114111) && negb (is_surrogate r).

(** [utf8.AppendRune]. *)
Definition encode_rune (r : Z) : list Z :=
  if negb (valid_rune r) then [239; 191; 189]
  else if r <? 128 then [r]
  else if r <? 2048 then [192 + r / 64; 128 + r mod 64]
  else if r <? 65536 then [224 + r / 4096; 128 + r / 64 mod 64; 128 + r mod 64]
  else [240 + r / 262144; 128 + r / 4096 mod 64; 128 + r / 64 mod 64; 128 + r mod 64].

(** [string(runes)]. *)
Definition encode_runes (rs : list Z) : list Z := concat (map encode_rune rs).

(** [utf8.RuneCountInString]. *)
Definition rune_count (s : string) : Z := Z.of_nat (length (runes (bytes s))).

(** [string([]rune(s)[:n])]. *)
Definition take_runes (n : Z) (s : string) : string :=
  str (encode_runes (take (Z.to_nat n) (runes (bytes s)))).

(** * strings.TrimSpace *)

Definition ascii_space (b : Z) : bool :=
  (b =? 32) || ((9 <=? b) && (b <=? 13)).

(** UTF-8 encodings of the two- and three-byte code points of
    [unicode.IsSpace]: U+0085, U+00A0, U+1680, U+2000-U+200A, U+2028, U+2029,
    U+202F, U+205F and U+3000. *)
Definition space2 (a b : Z) : bool := (a =? 194) && ((b =? 133) || (b =? 160)).
Definition space3 (a b c : Z) : bool :=
  ((a =? 225) && (b =? 154) && (c =? 128))
  || ((a =? 226) && (b =? 128) &&
      (((128 <=? c) && (c <=? 138)) || (c =? 168) || (c =? 169) || (c =? 175)))
  || ((a =? 226) && (b =? 129) && (c =? 159))
  || ((a =? 227) && (b =? 128) && (c =? 128)).

Fixpoint trim_left (l : list Z) : list Z :=
  match l with
  | [] => []
  | a :: l1 =>
      if ascii_space a then trim_left l1
      else match l1 with
           | [] => l
           | b :: l2 =>
               if space2 a b then trim_left l2
               else match l2 with
                    | [] => l
                    | c :: l3 => if space3 a b c then trim_left l3 else l
                    end
           end
  end.

(** The same on a reversed string: the bytes of a code point come last first. *)
Fixpoint trim_left_rev (l : list Z) : list Z :=
  match l with
  | [] => []
  | a :: l1 =>
      if ascii_space a then trim_left_rev l1
      else match l1 with
           | [] => l
           | b :: l2 =>
               if space2 b a then trim_left_rev l2
               else match l2 with
                    | [] => l
                    | c :: l3 => if space3 c b a then trim_left_rev l3 else l
                    end
           end
  end.

Definition trim_bytes (l : list Z) : list Z := rev (trim_left_rev (rev (trim_left l))).

Definition trim_space (s : string) : string := str (trim_bytes (bytes s)).

(** * Case mapping *)

(** The Unicode tables behind [unicode.ToLower] and [unicode.SimpleFold] on
    code points outside ASCII; the ASCII rows are fixed below. *)
Class UnicodeTables := {
  unicode_lower : Z → Z;
  unicode_fold_eq : Z → Z → bool;
}.

(** ASCII only: every other code point is its own lower case. *)
Definition ascii_tables : UnicodeTables :=
  {| unicode_lower r := r; unicode_fold_eq a b := false |}.

Definition ascii_lower (b : Z) : Z := if (65 <=? b) && (b <=? 90) then b + 32 else b.

Definition ascii_upper (b : Z) : Z := if (97 <=? b) && (b <=? 122) then b - 32 else b.

Definition all_ascii (l : list Z) : bool := forallb (λ b, b <? 128) l.

Section case_mapping.
Context `{UnicodeTables}.

Definition lower_rune (r : Z) : Z := if r <? 128 then ascii_lower r else unicode_lower r.

(** [strings.ToLower]: bytewise on ASCII, else rune by rune. *)
Definition to_lower (s : string) : string :=
  if all_ascii (bytes s) then str (map ascii_lower (bytes s))
  else str (encode_runes (map lower_rune (runes (bytes s)))).

Definition fold_rune_eq (a b : Z) : bool :=
  if (a <? 128) && (b <? 128) then ascii_lower a =? ascii_lower b
  else (a =? b) || unicode_fold_eq a b.

Fixpoint fold_runes_eq (l1 l2 : list Z) : bool :=
  match l1, l2 with
  | [], [] => true
  | a :: l1', b :: l2' => fold_rune_eq a b && fold_runes_eq l1' l2'
  | _, _ => false
  end.

(** [strings.EqualFold]. *)
Definition equal_fold (s t : string) : bool :=
  fold_runes_eq (runes (bytes s)) (runes (bytes t)).
End case_mapping.

(** * strings: prefixes and splitting *)

Fixpoint has_prefix (p s : list Z) : bool :=
  match p, s with
  | [], _ => true
  | a :: p', b :: s' => (a =? b) && has_prefix p' s'
  | _ :: _, [] => false
  end.

(** [strings.Contains]. *)
Fixpoint contains (sub l : list Z) : bool :=
  has_prefix sub l || match l with [] => false | _ :: l => contains sub l end.

(** The part before the first [sep] and the part after it. *)
Fixpoint cut (sep : Z) (l : list Z) : option (list Z * list Z) :=
  match l with
  | [] => None
  | b :: l' =>
      if b =? sep then Some ([], l')
      else match cut sep l' with
           | Some (x, y) => Some (b :: x, y)
           | None => None
           end
  end.

(** [strings.SplitN(s, sep, 3)] for a one-byte separator. *)
Definition split_n3 (sep : Z) (l : list Z) : list (list Z) :=
  match cut sep l with
  | None => [l]
  | Some (x, y) =>
      match cut sep y with
      | None => [x; y]
      | Some (y1, z) => [x; y1; z]
      end
  end.

(** * strconv *)

Definition is_digit (b : Z) : bool := (48 <=? b) && (b <=? 57).

Fixpoint digits_value (acc : Z) (l : list Z) : option Z :=
  match l with
  | [] => Some acc
  | b :: l' => if is_digit b then digits_value (acc * 10 + (b - 48)) l' else None
  end.

(** [strconv.ParseInt(s, 10, 64)] and, on a 64-bit target, [strconv.Atoi]:
    [None] is a syntax or range error. *)
Definition parse_int (l : list Z) : option Z :=
  let '(neg, ds) :=
    match l with
    | 43 :: l' => (false, l')
    | 45 :: l' => (true, l')
    | _ => (false, l)
    end in
  match ds with
  | [] => None
  | _ =>
      match digits_value 0 ds with
      | Some v => let z := if neg : bool then - v else v in
                  if in_i64 z then Some z else None
      | None => None
      end
  end.

(** Decimal digits of a natural number, most significant first; [fuel] bounds
    the number of digits. *)
Fixpoint dec_digits (fuel : nat) (n : Z) : list Z :=
  match fuel with
  | O => []
  | S f => if n <? 10 then [48 + n] else dec_digits f (n / 10) ++ [48 + n mod 10]
  end.

(** [strconv.Itoa] and [%d]: an [int64] has at most 19 digits. *)
Definition itoa (z : Z) : list Z :=
  if z <? 0 then 45 :: dec_digits 20 (- z) else dec_digits 20 z.

(** * encoding/hex *)

Definition hex_digit (n : Z) : Z := if n <? 10 then 48 + n else 87 + n.

Definition hex_value (b : Z) : option Z :=
  if (48 <=? b) && (b <=? 57) then Some (b - 48)
  else if (97 <=? b) && (b <=? 102) then Some (b - 87)
  else if (65 <=? b) && (b <=? 70) then Some (b - 55)
  else None.

(** [hex.EncodeToString]. *)
Fixpoint hex_encode (l : list Z) : list Z :=
  match l with
  | [] => []
  | b :: l' => hex_digit (b / 16) :: hex_digit (b mod 16) :: hex_encode l'
  end.

(** [hex.DecodeString]; [None] is an error. *)
Fixpoint hex_decode (l : list Z) : option (list Z) :=
  match l with
  | [] => Some []
  | [_] => None
  | a :: b :: l' =>
      match hex_value a, hex_value b, hex_decode l' with
      | Some x, Some y, Some r => Some (x * 16 + y :: r)
      | _, _, _ => None
      end
  end.

(** * sort.Strings *)

Definition str_le (a b : string) : Prop := String.leb a b = true.

#[export] Instance str_le_dec a b : Decision (str_le a b).
Proof. unfold str_le. apply _. Defined.

Definition sort_Strings (l : list string) : list string := merge_sort str_le l.

(** * The range of a map *)

(** A range over a map visits its entries in some order. *)
Class MapRange := {
  map_range : ∀ {A}, gmap string A → list (string * A);
  range_perm : ∀ {A} (m : gmap string A), map_range m ≡ₚ map_to_list m;
}.

(** One such order. *)
Definition list_range : MapRange := {| map_range := λ A m, map_to_list m; range_perm := λ A m, Permutation_refl _ |}.

(** A range over a [map[string]struct{}]. *)
Definition set_range `{MapRange} (s : gset string) : list string := map fst (map_range (gset_to_gmap tt s)).

(** * time *)

(** A [time.Time] is the number of nanoseconds since the zero time,
    January 1, year 1, 00:00:00 UTC. *)
Abbreviation time := Z (only parsing).

Definition time_is_zero (t : time) : bool := t =? 0.

Definition second : Z := 1000000000.

(** [Time.Unix]. *)
Definition time_unix (t : time) : Z := t / second - 62135596800.

(** [Time.Sub]: the difference saturates at the [Duration] range. *)
Definition time_sub (t u : time) : Z := Z.max min_int64 (Z.min max_int64 (t - u)).

(** * Lemmas *)

Lemma str_bytes s : str (bytes s) = s.
Proof.
  induction s as [|c s IH]; simpl; [done|].
  rewrite N2Z.id, Ascii.ascii_N_embedding, IH. done.
Qed.

Lemma bytes_range s : Forall byte_ok (bytes s).
Proof.
  induction s as [|c s IH]; simpl; constructor; [|done].
  unfold byte_ok. pose proof (Ascii.N_ascii_bounded c). lia.
Qed.

Lemma bytes_str l : Forall byte_ok l → bytes (str l) = l.
Proof.
  induction 1 as [|b l Hb _ IH]; simpl; [done|].
  unfold byte_ok in Hb.
  rewrite Ascii.N_ascii_embedding by lia. rewrite Z2N.id by lia. by rewrite IH.
Qed.

Lemma bytes_app s t : bytes (s +:+ t) = bytes s ++ bytes t.
Proof.
  induction s as [|c s IH]; [done|]. simpl. f_equal. apply IH.
Qed.

Lemma bytes_inj s t : bytes s = bytes t → s = t.
Proof. intros E. by rewrite <-(str_bytes s), <-(str_bytes t), E. Qed.

#[export] Hint Resolve bytes_range : nmash.
#[export] Hint Rewrite str_bytes : nmash.

(** Decide the condition of each [if] of the goal by linear arithmetic. *)
Ltac decide_ifs :=
  repeat match goal with
    | |- context [if ?b then _ else _] =>
        let E := fresh "E" in
        destruct b eqn:E;
        try (exfalso;
             unfold is_lead2, is_lead3, is_lead4, is_cont, second_ok in E;
             repeat (rewrite ?andb_true_iff, ?andb_false_iff, ?negb_true_iff,
                     ?negb_false_iff, ?Z.leb_le, ?Z.leb_gt, ?Z.ltb_lt, ?Z.ltb_ge,
                     ?Z.eqb_eq, ?Z.eqb_neq in E);
             lia)
    end.

Lemma valid_rune_spec r :
  valid_rune r = true ↔ (0 ≤ r ≤ 55295) ∨ (57344 ≤ r ≤ 1114111).
Proof.
  unfold valid_rune, is_surrogate.
  rewrite !andb_true_iff, negb_true_iff, andb_false_iff, !Z.leb_le, !Z.leb_gt. lia.
Qed.

(** Prove a boolean test on byte ranges by linear arithmetic. *)
Ltac range_true :=
  unfold second_ok, is_lead2, is_lead3, is_lead4, is_cont;
  repeat match goal with
    | |- context [if ?b then _ else _] => destruct b eqn:?
    end; bool_simpl;
  rewrite ?andb_true_iff, ?Z.leb_le, ?Z.ltb_lt; lia.

Lemma encode_rune_ok r : Forall byte_ok (encode_rune r).
Proof.
  unfold encode_rune, byte_ok.
  destruct (valid_rune r) eqn:V; simpl; [|repeat constructor; lia].
  apply valid_rune_spec in V.
  pose proof (Z.mod_pos_bound r 64 eq_refl).
  pose proof (Z.mod_pos_bound (r / 64) 64 eq_refl).
  pose proof (Z.mod_pos_bound (r / 4096) 64 eq_refl).
  split_ifs; bool_simpl; repeat constructor; try lia.
  all: Z.div_mod_to_equations; lia.
Qed.

Lemma encode_runes_ok rs : Forall byte_ok (encode_runes rs).
Proof.
  unfold encode_runes. induction rs as [|r rs IH]; simpl; [constructor|].
  apply Forall_app; split; [apply encode_rune_ok|done].
Qed.

(** The shapes an encoded rune can have, with the tests the decoders make. *)
Inductive rune_view (r : Z) : list Z → Prop :=
| view1 : 0 ≤ r < 128 → rune_view r [r]
| view2 a b :
    (a <? 128) = false → is_lead2 a = true → is_cont b = true → rune2 a b = r →
    128 ≤ r < 2048 → rune_view r [a; b]
| view3 a b c :
    (a <? 128) = false → is_lead2 a = false → is_lead3 a = true →
    second_ok a b && is_cont c = true → rune3 a b c = r →
    2048 ≤ r < 65536 → rune_view r [a; b; c]
| view4 a b c d :
    (a <? 128) = false → is_lead2 a = false → is_lead3 a = false → is_lead4 a = true →
    second_ok a b && is_cont c && is_cont d = true → rune4 a b c d = r →
    65536 ≤ r → rune_view r [a; b; c; d].

Lemma encode_rune_view r : valid_rune r = true → rune_view r (encode_rune r).
Proof.
  intros V. unfold encode_rune. rewrite V. simpl negb. cbv iota.
  apply valid_rune_spec in V.
  pose proof (Z.mod_pos_bound r 64 eq_refl).
  pose proof (Z.mod_pos_bound (r / 64) 64 eq_refl).
  pose proof (Z.mod_pos_bound (r / 4096) 64 eq_refl).
  pose proof (Z.div_mod r 64 ltac:(lia)).
  pose proof (Z.div_mod (r / 64) 64 ltac:(lia)).
  pose proof (Z.div_mod (r / 4096) 64 ltac:(lia)).
  assert (r / 64 / 64 = r / 4096) by (rewrite Z.div_div by lia; done).
  assert (r / 4096 / 64 = r / 262144) by (rewrite Z.div_div by lia; done).
  destruct (r <? 128) eqn:E1; bool_simpl; [constructor; lia|].
  destruct (r <? 2048) eqn:E2; bool_simpl;
    [|destruct (r <? 65536) eqn:E3; bool_simpl].
  all: constructor; rewrite ?Z.ltb_ge;
    try (unfold rune2, rune3, rune4; lia); try range_true.
  all: apply not_true_iff_false; unfold is_lead2, is_lead3;
    rewrite andb_true_iff, !Z.leb_le; lia.
Qed.

(** Reduce a decoder on the encoding of a valid rune. *)
Ltac rune_cases V :=
  destruct (encode_rune_view _ V) as [?|? ? E1 E2 E3 ?|? ? ? E1 E2 E3 E4 ?
                                      |? ? ? ? E1 E2 E3 E4 E5 ?];
  simpl; rewrite ?E1, ?E2, ?E3, ?E4, ?E5.

Lemma runes_encode_rune r l :
  valid_rune r = true → runes (encode_rune r ++ l) = r :: runes l.
Proof.
  intros V. rune_cases V; try congruence.
  rewrite (proj2 (Z.ltb_lt _ _)) by lia. done.
Qed.

Lemma runes_encode_runes rs l :
  Forall (λ r, valid_rune r = true) rs → runes (encode_runes rs ++ l) = rs ++ runes l.
Proof.
  unfold encode_runes. induction 1 as [|r rs Hr _ IH]; simpl; [done|].
  by rewrite <-app_assoc, runes_encode_rune, IH.
Qed.

Lemma rune_error_valid : valid_rune rune_error = true.
Proof. done. Qed.

(** Decoded runes are valid code points, whatever the bytes. *)
Lemma runes_valid l :
  Forall byte_ok l → Forall (λ r, valid_rune r = true) (runes l).
Proof.
  remember (length l) as n eqn:Hn. revert l Hn.
  induction n as [n IH] using lt_wf_ind. intros l -> Hl.
  destruct l as [|a l1]; [constructor|].
  apply Forall_cons_1 in Hl as [Ha Hl]. unfold byte_ok in Ha.
  assert (Hrec : ∀ l', (length l' ≤ length l1)%nat → Forall byte_ok l' →
                       Forall (λ r, valid_rune r = true) (runes l')).
  { intros l' Hle Hok. eapply IH; [|done|done]. simpl. lia. }
  assert (Hbad : Forall (λ r, valid_rune r = true) (rune_error :: runes l1)).
  { constructor; [done|]. by apply Hrec. }
  clear IH. simpl. destruct (a <? 128) eqn:E1; bool_simpl.
  { constructor; [apply valid_rune_spec; lia|]. by apply Hrec. }
  destruct (is_lead2 a) eqn:E2.
  { destruct l1 as [|b l2]; [done|]. destruct (is_cont b) eqn:Eb; [|done].
    apply Forall_cons_1 in Hl as [Hb Hl]. unfold is_lead2, is_cont in *. bool_simpl.
    constructor; [|apply Hrec; simpl; [lia|done]].
    apply valid_rune_spec. unfold rune2. lia. }
  destruct (is_lead3 a) eqn:E3.
  { destruct l1 as [|b [|c l3]]; [done..|].
    destruct (second_ok a b && is_cont c) eqn:Eb; [|done].
    apply Forall_cons_1 in Hl as [Hb Hl]. apply Forall_cons_1 in Hl as [Hc Hl].
    constructor; [|apply Hrec; simpl; [lia|done]].
    apply valid_rune_spec. unfold rune3, is_lead3, second_ok, is_cont in *.
    apply andb_true_iff in Eb as [Eb Ec].
    split_ifs_in Eb; bool_simpl; lia. }
  destruct (is_lead4 a) eqn:E4; [|done].
  destruct l1 as [|b [|c [|d l4]]]; [done..|].
  destruct (second_ok a b && is_cont c && is_cont d) eqn:Eb; [|done].
  apply Forall_cons_1 in Hl as [Hb Hl]. apply Forall_cons_1 in Hl as [Hc Hl].
  apply Forall_cons_1 in Hl as [Hd Hl].
  constructor; [|apply Hrec; simpl; [lia|done]].
  apply valid_rune_spec. unfold rune4, is_lead4, second_ok, is_cont in *.
  apply andb_true_iff in Eb as [Eb Ed]. apply andb_true_iff in Eb as [Eb Ec].
  split_ifs_in Eb; bool_simpl; lia.
Qed.

(** ** Decimal numerals *)

Lemma digits_value_app acc l1 l2 :
  digits_value acc (l1 ++ l2) =
  match digits_value acc l1 with Some v => digits_value v l2 | None => None end.
Proof.
  revert acc. induction l1 as [|b l1 IH]; intros acc; simpl; [done|].
  destruct (is_digit b); [apply IH|done].
Qed.

Lemma is_digit_48 n : 0 ≤ n < 10 → is_digit (48 + n) = true.
Proof. intros. unfold is_digit. rewrite andb_true_iff, !Z.leb_le. lia. Qed.

Lemma dec_digits_digits f n : 0 ≤ n → Forall (λ b, is_digit b = true) (dec_digits f n).
Proof.
  revert n. induction f as [|f IH]; intros n Hn; simpl; [constructor|].
  destruct (n <? 10) eqn:E; bool_simpl.
  - constructor; [apply is_digit_48; lia|constructor].
  - apply Forall_app; split; [apply IH; apply Z.div_pos; lia|].
    constructor; [apply is_digit_48; apply Z.mod_pos_bound; lia|constructor].
Qed.

Lemma dec_digits_value f n :
  0 ≤ n < 10 ^ Z.of_nat f → digits_value 0 (dec_digits f n) = Some n.
Proof.
  revert n. induction f as [|f IH]; intros n Hn.
  { simpl in *. f_equal. lia. }
  rewrite Nat2Z.inj_succ, Z.pow_succ_r in Hn by lia.
  simpl. destruct (n <? 10) eqn:E; bool_simpl.
  - simpl. rewrite is_digit_48 by lia. f_equal. lia.
  - rewrite digits_value_app, IH.
    + simpl. rewrite is_digit_48 by (apply Z.mod_pos_bound; lia).
      f_equal. pose proof (Z.div_mod n 10 ltac:(lia)). lia.
    + split; [apply Z.div_pos; lia|]. apply Z.div_lt_upper_bound; lia.
Qed.

Lemma dec_digits_cons f n : ∃ b l, dec_digits (S f) n = b :: l.
Proof.
  simpl. destruct (n <? 10); [eauto|].
  destruct (dec_digits f (n / 10)); simpl; eauto.
Qed.

(** Printing an [int64] and reading it back is the identity. *)
Lemma parse_int_itoa z : in_i64 z = true → parse_int (itoa z) = Some z.
Proof.
  intros Hz. pose proof Hz as Hr. apply in_i64_spec in Hr.
  unfold min_int64, max_int64, two63 in Hr. unfold itoa.
  destruct (z <? 0) eqn:E; bool_simpl.
  - destruct (dec_digits_cons 19 (- z)) as (b & l & Hd).
    pose proof (dec_digits_value 20 (- z)) as Hv. rewrite Hd in Hv |- *.
    unfold parse_int. rewrite Hv by lia. by rewrite Z.opp_involutive, Hz.
  - destruct (dec_digits_cons 19 z) as (b & l & Hd).
    pose proof (dec_digits_value 20 z) as Hv.
    pose proof (dec_digits_digits 20 z) as Hdig. rewrite Hd in Hv, Hdig |- *.
    specialize (Hdig ltac:(lia)). apply Forall_cons_1 in Hdig as [Hb _].
    unfold is_digit in Hb. bool_simpl.
    assert (parse_int (b :: l) = match digits_value 0 (b :: l) with
              | Some v => if in_i64 v then Some v else None | None => None end) as ->.
    { unfold parse_int. destruct b as [|p|p]; try lia.
      do 6 (try destruct p; try done; try lia). }
    rewrite Hv by lia. by rewrite Hz.
Qed.

Lemma parse_int_range l z : parse_int l = Some z → in_i64 z = true.
Proof. unfold parse_int. intros E. repeat case_match; simplify_eq; done. Qed.

(** ** Hex digits *)

Lemma hex_value_range b x : hex_value b = Some x → 0 ≤ x < 16.
Proof.
  unfold hex_value. intros E. repeat case_match; simplify_eq; bool_simpl; lia.
Qed.

(** ** Trimming is idempotent *)

Lemma trim_left_idem l : trim_left (trim_left l) = trim_left l.
Proof.
  remember (length l) as n eqn:Hn. revert l Hn.
  induction n as [n IH] using lt_wf_ind. intros l ->.
  destruct l as [|a l1]; [done|]. simpl.
  destruct (ascii_space a) eqn:E1; [eapply IH; [|reflexivity]; simpl; lia|].
  destruct l1 as [|b l2]; [simpl; by rewrite E1|].
  destruct (space2 a b) eqn:E2; [eapply IH; [|reflexivity]; simpl; lia|].
  destruct l2 as [|c l3]; [simpl; by rewrite E1, E2|].
  destruct (space3 a b c) eqn:E3; [eapply IH; [|reflexivity]; simpl; lia|].
  simpl. by rewrite E1, E2, E3.
Qed.

Lemma trim_left_rev_idem l : trim_left_rev (trim_left_rev l) = trim_left_rev l.
Proof.
  remember (length l) as n eqn:Hn. revert l Hn.
  induction n as [n IH] using lt_wf_ind. intros l ->.
  destruct l as [|a l1]; [done|]. simpl.
  destruct (ascii_space a) eqn:E1; [eapply IH; [|reflexivity]; simpl; lia|].
  destruct l1 as [|b l2]; [simpl; by rewrite E1|].
  destruct (space2 b a) eqn:E2; [eapply IH; [|reflexivity]; simpl; lia|].
  destruct l2 as [|c l3]; [simpl; by rewrite E1, E2|].
  destruct (space3 c b a) eqn:E3; [eapply IH; [|reflexivity]; simpl; lia|].
  simpl. by rewrite E1, E2, E3.
Qed.

Lemma trim_left_length l : (length (trim_left l) ≤ length l)%nat.
Proof.
  remember (length l) as n eqn:Hn. revert l Hn.
  induction n as [n IH] using lt_wf_ind. intros l ->.
  destruct l as [|a l1]; [done|]. simpl.
  destruct (ascii_space a); [pose proof (IH (length l1) ltac:(simpl; lia) l1 eq_refl); lia|].
  destruct l1 as [|b l2]; [done|].
  destruct (space2 a b); [pose proof (IH (length l2) ltac:(simpl; lia) l2 eq_refl); simpl; lia|].
  destruct l2 as [|c l3]; [done|].
  destruct (space3 a b c); [pose proof (IH (length l3) ltac:(simpl; lia) l3 eq_refl); simpl; lia|].
  done.
Qed.

(** A trimmed front stays trimmed when the back is cut. *)
Lemma trim_left_prefix p q : trim_left (p ++ q) = p ++ q → trim_left p = p.
Proof.
  destruct p as [|a p1]; [done|]. simpl. intros E.
  destruct (ascii_space a) eqn:E1.
  { pose proof (trim_left_length (p1 ++ q)) as Hl. rewrite E in Hl. simpl in Hl. lia. }
  destruct p1 as [|b p2]; [done|]. simpl in E. destruct (space2 a b) eqn:E2.
  { pose proof (trim_left_length (p2 ++ q)) as Hl. rewrite E in Hl. simpl in Hl. lia. }
  destruct p2 as [|c p3]; [done|]. simpl in E. destruct (space3 a b c) eqn:E3; [|done].
  pose proof (trim_left_length (p3 ++ q)) as Hl. rewrite E in Hl. simpl in Hl. lia.
Qed.

Lemma trim_left_rev_suffix l : ∃ p, l = p ++ trim_left_rev l.
Proof.
  remember (length l) as n eqn:Hn. revert l Hn.
  induction n as [n IH] using lt_wf_ind. intros l ->.
  destruct l as [|a l1]; [by exists []|]. simpl.
  destruct (ascii_space a).
  { destruct (IH (length l1) ltac:(simpl; lia) l1 eq_refl) as [p Hp].
    exists (a :: p). simpl. congruence. }
  destruct l1 as [|b l2]; [by exists []|]. destruct (space2 b a).
  { destruct (IH (length l2) ltac:(simpl; lia) l2 eq_refl) as [p Hp].
    exists (a :: b :: p). simpl. congruence. }
  destruct l2 as [|c l3]; [by exists []|]. destruct (space3 c b a); [|by exists []].
  destruct (IH (length l3) ltac:(simpl; lia) l3 eq_refl) as [p Hp].
  exists (a :: b :: c :: p). simpl. congruence.
Qed.

Lemma trim_bytes_idem l : trim_bytes (trim_bytes l) = trim_bytes l.
Proof.
  unfold trim_bytes. set (r := trim_left_rev (rev (trim_left l))).
  destruct (trim_left_rev_suffix (rev (trim_left l))) as [p Hp]. fold r in Hp.
  apply (f_equal (@rev Z)) in Hp. rewrite rev_involutive, rev_app_distr in Hp.
  rewrite (trim_left_prefix (rev r) (rev p)) by (by rewrite <-Hp, trim_left_idem).
  rewrite rev_involutive. unfold r. by rewrite trim_left_rev_idem.
Qed.

Lemma trim_left_suffix l : ∃ p, l = p ++ trim_left l.
Proof.
  remember (length l) as n eqn:Hn. revert l Hn.
  induction n as [n IH] using lt_wf_ind. intros l ->.
  destruct l as [|a l1]; [by exists []|]. simpl.
  destruct (ascii_space a).
  { destruct (IH (length l1) ltac:(simpl; lia) l1 eq_refl) as [p Hp].
    exists (a :: p). simpl. congruence. }
  destruct l1 as [|b l2]; [by exists []|]. destruct (space2 a b).
  { destruct (IH (length l2) ltac:(simpl; lia) l2 eq_refl) as [p Hp].
    exists (a :: b :: p). simpl. congruence. }
  destruct l2 as [|c l3]; [by exists []|]. destruct (space3 a b c); [|by exists []].
  destruct (IH (length l3) ltac:(simpl; lia) l3 eq_refl) as [p Hp].
  exists (a :: b :: c :: p). simpl. congruence.
Qed.

Lemma trim_bytes_ok l : Forall byte_ok l → Forall byte_ok (trim_bytes l).
Proof.
  intros Hl. unfold trim_bytes. apply Forall_rev.
  destruct (trim_left_suffix l) as [p Hp]. rewrite Hp in Hl.
  apply Forall_app in Hl as [_ Hl]. apply Forall_rev in Hl.
  destruct (trim_left_rev_suffix (rev (trim_left l))) as [q Hq].
  rewrite Hq in Hl. by apply Forall_app in Hl as [_ Hl].
Qed.

Lemma trim_space_idem s : trim_space (trim_space s) = trim_space s.
Proof.
  unfold trim_space. rewrite bytes_str by apply trim_bytes_ok, bytes_range.
  by rewrite trim_bytes_idem.
Qed.

(** ** Printable ASCII: nothing to trim *)

Definition visible (b : Z) : Prop := 33 ≤ b ≤ 126.

Lemma visible_not_space a b c :
  visible a → visible b → visible c →
  ascii_space a = false ∧ space2 a b = false ∧ space2 b a = false ∧
  space3 a b c = false ∧ space3 c b a = false.
Proof.
  unfold visible, ascii_space, space2, space3. intros Ha Hb Hc.
  repeat match goal with |- context [?x =? ?y] => rewrite (proj2 (Z.eqb_neq x y)) by lia end.
  rewrite (proj2 (Z.leb_gt a 13)) by lia. by rewrite andb_false_r.
Qed.

Lemma trim_left_visible l : Forall visible l → trim_left l = l ∧ trim_left_rev l = l.
Proof.
  intros Hl. destruct Hl as [|a l Ha Hl]; [done|].
  destruct (visible_not_space a a a Ha Ha Ha) as (E & _). simpl. rewrite E.
  destruct Hl as [|b l Hb Hl]; [done|].
  destruct (visible_not_space a b a Ha Hb Ha) as (_ & E1 & E2 & _). rewrite E1, E2.
  destruct Hl as [|c l Hc Hl]; [done|].
  destruct (visible_not_space a b c Ha Hb Hc) as (_ & _ & _ & E3 & E4). by rewrite E3, E4.
Qed.

Lemma trim_bytes_visible l : Forall visible l → trim_bytes l = l.
Proof.
  intros Hl. unfold trim_bytes. rewrite (proj1 (trim_left_visible l Hl)).
  rewrite (proj2 (trim_left_visible (rev l) ltac:(by apply Forall_rev))). apply rev_involutive.
Qed.

Lemma visible_byte l : Forall visible l → Forall byte_ok l.
Proof. apply List.Forall_impl. unfold visible, byte_ok. lia. Qed.

Lemma visible_ascii l : Forall visible l → all_ascii l = true.
Proof.
  intros Hl. apply forallb_forall. rewrite List.Forall_forall in Hl. intros b Hb.
  apply Z.ltb_lt. specialize (Hl b Hb). unfold visible in Hl. lia.
Qed.

Lemma has_prefix_app p l r : has_prefix (p ++ l) (p ++ r) = has_prefix l r.
Proof. induction p as [|b p IH]; simpl; [done|]. by rewrite Z.eqb_refl. Qed.

Lemma itoa_visible z : Forall visible (itoa z).
Proof.
  assert (∀ n, 0 ≤ n → Forall visible (dec_digits 20 n)) as Hd.
  { intros n Hn. eapply List.Forall_impl; [|by apply (dec_digits_digits 20)].
    unfold is_digit, visible. intros b Hb. bool_simpl. lia. }
  unfold itoa. destruct (z <? 0) eqn:E; bool_simpl.
  - constructor; [unfold visible; lia|]. apply Hd. lia.
  - by apply Hd.
Qed.

(** * Order of strings *)

Lemma leb_trans a b c : String.leb a b = true → String.leb b c = true → String.leb a c = true.
Proof.
  unfold String.leb. revert b c. induction a as [|x a IH]; intros [|y b] [|z c]; cbn; try done.
  specialize (IH b c). unfold Ascii.compare in *.
  destruct (N.compare_spec (Ascii.N_of_ascii x) (Ascii.N_of_ascii y)) as [E1|L1|L1]; try done;
    destruct (N.compare_spec (Ascii.N_of_ascii y) (Ascii.N_of_ascii z)) as [E2|L2|L2]; try done;
    destruct (N.compare_spec (Ascii.N_of_ascii x) (Ascii.N_of_ascii z)); try done; lia.
Qed.

Lemma ltb_leb a b : String.ltb a b = negb (String.leb b a).
Proof.
  unfold String.ltb, String.leb. rewrite (String.compare_antisym b a). by destruct (String.compare a b).
Qed.

#[export] Instance str_le_trans : Transitive str_le.
Proof. intros a b c. apply leb_trans. Qed.

#[export] Instance str_le_total : Total str_le.
Proof. intros a b. apply String.leb_total. Qed.

#[export] Instance str_le_antisymm : AntiSymm (=) str_le.
Proof. intros a b Ha Hb. by apply String.leb_antisym. Qed.

Lemma set_range_perm `{MapRange} (s : gset string) : set_range s ≡ₚ elements s.
Proof.
  unfold set_range. rewrite range_perm. change (map ?f ?l) with (f <$> l).
  apply NoDup_Permutation; [apply NoDup_fst_map_to_list|apply NoDup_elements|]. intros x. rewrite elem_of_elements, list_elem_of_fmap. split.
  - intros ([y []] & -> & Hy%elem_of_map_to_list). by apply lookup_gset_to_gmap_Some in Hy as [Hy _].
  - intros Hx. exists (x, tt). split; [done|]. apply elem_of_map_to_list, lookup_gset_to_gmap_Some. done.
Qed.

Lemma sort_Strings_perm l : sort_Strings l ≡ₚ l.
Proof. apply merge_sort_Permutation. Qed.

Lemma sort_Strings_sorted l : StronglySorted str_le (sort_Strings l).
Proof. apply Sorted_StronglySorted, Sorted_merge_sort; apply _. Qed.

(** Sorting forgets the order it starts from. *)
Lemma sort_Strings_unique l l' : l ≡ₚ l' → sort_Strings l = sort_Strings l'.
Proof.
  intros Hp. apply (StronglySorted_unique str_le); [apply sort_Strings_sorted..|]. by rewrite !sort_Strings_perm.
Qed.

Lemma elem_of_sort_Strings x l : x ∈ sort_Strings l ↔ x ∈ l.
Proof. by rewrite sort_Strings_perm. Qed.

Lemma ltb_irrefl a : String.ltb a a = false.
Proof. rewrite ltb_leb. by destruct (String.leb_total a a) as [->| ->]. Qed.

Lemma ltb_total a b : String.ltb a b = false → String.ltb b a = false → a = b.
Proof. rewrite !ltb_leb, !negb_false_iff. intros. by apply String.leb_antisym. Qed.

Lemma ltb_trans a b c : String.ltb a b = true → String.ltb b c = true → String.ltb a c = true.
Proof.
  rewrite !ltb_leb, !negb_true_iff. intros Hab Hbc. destruct (String.leb c a) eqn:Hca; [|done].
  destruct (String.leb_total a b) as [Hl|Hl]; [|congruence].
  by rewrite (leb_trans c a b Hca Hl) in Hbc.
Qed.
