(* ===== verification/GoFloat.v ===== *)
(** What the code uses of Go's [float64] and of [sort]: binary64 numbers are
    those of the Standard Library's [SpecFloat], with their order; a sort is some
    permutation, sorted when the comparison is a strict weak order, with an
    insertion sort as the instance the examples run. *)

From Stdlib Require Import SpecFloat.
From S2P Require Import Prelude GoLib.

(** * Floating point *)

Abbreviation f64 := spec_float.

Definition f64_add : f64 → f64 → f64 := SFadd 53 1024.
Definition f64_sub : f64 → f64 → f64 := SFsub 53 1024.
Definition f64_mul : f64 → f64 → f64 := SFmul 53 1024.
Definition f64_div : f64 → f64 → f64 := SFdiv 53 1024.
Definition f64_opp : f64 → f64 := SFopp.

(** [m * 2 ^ e], rounded. *)
Definition f64_lit (m e : Z) : f64 := binary_normalize 53 1024 m e false.
Definition f64_of_Z (z : Z) : f64 := f64_lit z 0.

(** The literal [a / b]: a quotient of exact numbers is rounded once. *)
Definition f64_ratio (a b : Z) : f64 := f64_div (f64_of_Z a) (f64_of_Z b).

Definition f64_lt (a b : f64) : bool := SFltb a b.
Definition f64_le (a b : f64) : bool := SFleb a b.
Definition f64_ne (a b : f64) : bool := negb (SFeqb a b).

#[export] Instance spec_float_eq_dec : EqDecision f64.
Proof. solve_decision. Defined.

Definition is_nan (a : f64) : bool := match a with S754_nan => true | _ => false end.

(** PostgreSQL orders NaN above all other numbers. *)
Definition pg_compare (a b : f64) : comparison :=
  match SFcompare a b with
  | Some c => c
  | None => if is_nan a then (if is_nan b then Eq else Gt) else Lt
  end.

(** ** The order of numbers *)

(** The place of a number in the order, lexicographically. *)
Definition f64_rank (a : f64) : Z * Z * Z :=
  match a with
  | S754_nan => (0, 0, 0)
  | S754_zero _ => (0, 0, 0)
  | S754_infinity s => if s then (-2, 0, 0) else (2, 0, 0)
  | S754_finite s m e => if s then (-1, - e, Z.neg m) else (1, e, Z.pos m)
  end.

Definition rank_lt (a b : Z * Z * Z) : Prop :=
  a.1.1 < b.1.1 ∨ a.1.1 = b.1.1 ∧ (a.1.2 < b.1.2 ∨ a.1.2 = b.1.2 ∧ a.2 < b.2).

Lemma f64_lt_rank a b :
  is_nan a = false → is_nan b = false → f64_lt a b = true ↔ rank_lt (f64_rank a) (f64_rank b).
Proof.
  unfold f64_lt, SFltb, rank_lt.
  destruct a as [sa|sa| |sa ma ea], b as [sb|sb| |sb mb eb]; intros Ha Hb; try discriminate;
    try (destruct sa); try (destruct sb); simpl; try (split; [intros; lia || discriminate|intros; lia || done]).
  - destruct (Z.compare_spec ea eb) as [->|?|?].
    + change (Pos.compare_cont Eq ma mb) with (Pos.compare ma mb).
      destruct (Pos.compare_spec ma mb) as [->|?|?]; simpl; split; intros; try done; lia.
    + split; [done|lia].
    + split; [lia|done].
  - destruct (Z.compare_spec ea eb) as [->|?|?].
    + change (Pos.compare_cont Eq ma mb) with (Pos.compare ma mb).
      destruct (Pos.compare_spec ma mb) as [->|?|?]; simpl; split; intros; try done; lia.
    + split; [lia|done].
    + split; [done|lia].
Qed.

Lemma f64_ne_rank a b :
  is_nan a = false → is_nan b = false → f64_ne a b = false ↔ f64_rank a = f64_rank b.
Proof.
  unfold f64_ne, SFeqb.
  destruct a as [sa|sa| |sa ma ea], b as [sb|sb| |sb mb eb]; intros Ha Hb; try discriminate;
    try (destruct sa); try (destruct sb); simpl; try (split; intros; congruence).
  - destruct (Z.compare_spec ea eb) as [->|?|?]; [|split; intros; simplify_eq; lia..].
    change (Pos.compare_cont Eq ma mb) with (Pos.compare ma mb).
    destruct (Pos.compare_spec ma mb) as [->|?|?]; simpl; split; intros; simplify_eq; try done; lia.
  - destruct (Z.compare_spec ea eb) as [->|?|?]; [|split; intros; simplify_eq; lia..].
    change (Pos.compare_cont Eq ma mb) with (Pos.compare ma mb).
    destruct (Pos.compare_spec ma mb) as [->|?|?]; simpl; split; intros; simplify_eq; try done; lia.
Qed.

(** ** Numbers that are not negative *)

Definition nonneg (a : f64) : Prop :=
  match a with S754_finite true _ _ | S754_infinity true => False | _ => True end.

Lemma nonneg_lt_zero a : nonneg a ↔ f64_lt a (f64_of_Z 0) = false.
Proof. destruct a as [[]|[]| |[]]; done. Qed.

(** Rounding keeps the sign. *)
Lemma round_nonneg m e l : nonneg (binary_round_aux 53 1024 false m e l).
Proof. unfold binary_round_aux. repeat (case_match; try done). Qed.

Lemma normalize_nonneg m e : 0 ≤ m → nonneg (binary_normalize 53 1024 m e false).
Proof.
  intros Hm. destruct m as [|p|p]; [done| |lia]. simpl. unfold binary_round. case_match. apply round_nonneg.
Qed.

Lemma nonneg_of_Z z : 0 ≤ z → nonneg (f64_of_Z z).
Proof. apply normalize_nonneg. Qed.

Lemma nonneg_add a b : nonneg a → nonneg b → nonneg (f64_add a b).
Proof.
  unfold f64_add, SFadd. destruct a as [[]|[]| |[] ma ea], b as [[]|[]| |[] mb eb]; try done.
  intros _ _. apply normalize_nonneg. cbn [cond_Zopp]. lia.
Qed.

Lemma nonneg_mul a b : nonneg a → nonneg b → nonneg (f64_mul a b).
Proof.
  unfold f64_mul, SFmul. destruct a as [[]|[]| |[] ma ea], b as [[]|[]| |[] mb eb]; try done; intros _ _; simpl; try done.
  apply round_nonneg.
Qed.

Lemma nonneg_div a b : nonneg a → f64_lt (f64_of_Z 0) b = true → nonneg (f64_div a b).
Proof.
  unfold f64_div, SFdiv. destruct a as [[]|[]| |[] ma ea], b as [[]|[]| |[] mb eb]; try done.
  intros _ _. destruct (SFdiv_core_binary _ _ _ _ _ _) as [[mz ez] lz]. apply round_nonneg.
Qed.

(** A divisor that is not negative, nor the negative zero. *)
Definition unsigned (a : f64) : Prop :=
  match a with S754_zero true | S754_finite true _ _ | S754_infinity true => False | _ => True end.

Lemma round_unsigned m e l : unsigned (binary_round_aux 53 1024 false m e l).
Proof. unfold binary_round_aux. repeat (case_match; try done). Qed.

Lemma unsigned_of_Z z : 0 ≤ z → unsigned (f64_of_Z z).
Proof.
  intros Hz. destruct z as [|p|p]; [done| |lia]. unfold f64_of_Z, f64_lit. simpl. unfold binary_round. case_match. apply round_unsigned.
Qed.

Lemma unsigned_le_zero a : f64_le a (f64_of_Z 0) = false → unsigned a.
Proof. destruct a as [[]|[]| |[]]; done. Qed.

Lemma nonneg_quot a b : nonneg a → unsigned b → nonneg (f64_div a b).
Proof.
  unfold f64_div, SFdiv. destruct a as [[]|[]| |[] ma ea], b as [[]|[]| |[] mb eb]; try done; intros _ _.
  all: destruct (SFdiv_core_binary _ _ _ _ _ _) as [[mz ez] lz]; apply round_nonneg.
Qed.

(** * Sorting *)

(** A strict weak order on the elements that satisfy [P]. *)
Record strict_weak {A} (P : A → Prop) (less : A → A → bool) : Prop := {
  sw_irrefl : ∀ x, P x → less x x = false;
  sw_trans : ∀ x y z, P x → P y → P z → less x y = true → less y z = true → less x z = true;
  sw_incomparable : ∀ x y z, P x → P y → P z → less y x = false → less z y = false → less z x = false;
}.

Class SliceSort := {
  sort_Slice : ∀ {A : Type}, (A → A → bool) → list A → list A;
  sort_perm : ∀ {A} (less : A → A → bool) l, sort_Slice less l ≡ₚ l;
  sort_sorted : ∀ {A} (P : A → Prop) (less : A → A → bool) l,
    strict_weak P less → Forall P l → StronglySorted (λ x y, less y x = false) (sort_Slice less l);
}.

Lemma sorted_split {A} (R : A → A → Prop) l n : StronglySorted R l → ∀ a b, a ∈ take n l → b ∈ drop n l → R a b.
Proof.
  intros Hs. revert n. induction Hs as [|x l Hs IH Hx]; intros [|n] a b Ha Hb; try (simpl in *; set_solver).
  cbn [take drop] in *. apply elem_of_cons in Ha as [->|Ha]; [|by eapply IH].
  rewrite List.Forall_forall in Hx. apply Hx, list_elem_of_In. rewrite <-(take_drop n l). set_solver.
Qed.

Lemma Forall_perm {A} (P : A → Prop) l l' : l ≡ₚ l' → Forall P l → Forall P l'.
Proof. intros Hp. by rewrite Hp. Qed.

(** A sort that satisfies the hypotheses on [sort.Slice]. *)
Fixpoint insert_by {A} (less : A → A → bool) (x : A) (l : list A) : list A :=
  match l with
  | [] => [x]
  | y :: l => if less y x then y :: insert_by less x l else x :: y :: l
  end.

Definition sort_by {A} (less : A → A → bool) (l : list A) : list A := foldr (insert_by less) [] l.

Lemma insert_by_perm {A} (less : A → A → bool) x l : insert_by less x l ≡ₚ x :: l.
Proof.
  induction l as [|y l IH]; simpl; [done|]. destruct (less y x); [|done]. rewrite IH. constructor.
Qed.

Lemma sort_by_perm {A} (less : A → A → bool) l : sort_by less l ≡ₚ l.
Proof. induction l as [|x l IH]; simpl; [done|]. by rewrite insert_by_perm, IH. Qed.

Lemma insert_by_sorted {A} (P : A → Prop) less (x : A) l :
  strict_weak P less → P x → Forall P l →
  StronglySorted (λ x y, less y x = false) l → StronglySorted (λ x y, less y x = false) (insert_by less x l).
Proof.
  intros W Hx. induction l as [|y l IH]; intros Hl Hs; simpl; [by repeat constructor|].
  inversion Hl as [|? ? Hy Hl']; subst. inversion Hs as [|? ? Hs' Hyl]; subst. destruct (less y x) eqn:E.
  - constructor; [by apply IH|]. eapply Forall_perm; [symmetry; apply insert_by_perm|]. constructor; [|done].
    destruct (less x y) eqn:E'; [|done]. rewrite <-(sw_irrefl P less W x Hx). symmetry. by apply (sw_trans P less W x y x).
  - constructor; [done|]. constructor; [done|]. apply List.Forall_forall. intros z Hz.
    rewrite List.Forall_forall in Hyl, Hl'. by apply (sw_incomparable P less W x y z); auto.
Qed.

Lemma sort_by_sorted {A} (P : A → Prop) (less : A → A → bool) l :
  strict_weak P less → Forall P l → StronglySorted (λ x y, less y x = false) (sort_by less l).
Proof.
  intros W. induction l as [|x l IH]; intros Hl; simpl; [constructor|]. inversion Hl as [|? ? Hx Hl']; subst.
  apply (insert_by_sorted P); [done|done| |by apply IH]. eapply Forall_perm; [symmetry; apply sort_by_perm|done].
Qed.

Definition insertion_sort : SliceSort :=
  {| sort_Slice := @sort_by; sort_perm := @sort_by_perm; sort_sorted := @sort_by_sorted |}.
