(* ===== verification/Json.v ===== *)
(** Go's [encoding/json], as far as the event validator, the live processor,
    the zap decoder and the document parsers use it: [json.Valid], [json.Unmarshal] into strings,
    integers, string lists, raw-message maps and structs, and the encoder with
    [SetEscapeHTML(false)].

    As in Go the text is first scanned by a byte automaton, which needs no
    fuel; the token stream is then run through a stack machine with Go's
    nesting limit. A [json.RawMessage] is the value it denotes. *)

From S2P Require Import Prelude GoLib.

Inductive json :=
| JNull
| JBool (b : bool)
| JNum (lit : list Z)
| JStr (s : list Z)
| JArr (vs : list json)
| JObj (ms : list (list Z * json)).

Inductive token :=
| TLBrace | TRBrace | TLBrack | TRBrack | TColon | TComma
| TNull | TTrue | TFalse
| TNum (lit : list Z)
| TStr (raw : list Z).

(** * Scanner *)

Inductive num_state := NNeg | N0 | N1 | NDot | NDot0 | NE | NESign | NE0.

Inductive lex_state :=
| LTop
| LStr (acc : list Z)
| LEsc (acc : list Z)
| LHex (k : nat) (acc : list Z)
| LNum (s : num_state) (acc : list Z)
| LLit (todo : list Z) (tok : token).

Definition is_ws (c : Z) : bool := (c =? 32) || (c =? 9) || (c =? 13) || (c =? 10).

Definition is_hex (c : Z) : bool :=
  match hex_value c with Some _ => true | None => false end.

Definition num_final (s : num_state) : bool :=
  match s with N0 | N1 | NDot0 | NE0 => true | _ => false end.

Definition num_step (s : num_state) (c : Z) : option num_state :=
  let e := (c =? 101) || (c =? 69) in
  match s with
  | NNeg => if c =? 48 then Some N0
            else if (49 <=? c) && (c <=? 57) then Some N1 else None
  | N1 => if is_digit c then Some N1
          else if c =? 46 then Some NDot else if e then Some NE else None
  | N0 => if c =? 46 then Some NDot else if e then Some NE else None
  | NDot => if is_digit c then Some NDot0 else None
  | NDot0 => if is_digit c then Some NDot0 else if e then Some NE else None
  | NE => if (c =? 43) || (c =? 45) then Some NESign
          else if is_digit c then Some NE0 else None
  | NESign => if is_digit c then Some NE0 else None
  | NE0 => if is_digit c then Some NE0 else None
  end.

(** A byte read outside strings, numbers and literals. *)
Definition top_step (c : Z) : option (list token * lex_state) :=
  if is_ws c then Some ([], LTop)
  else if c =? 123 then Some ([TLBrace], LTop)
  else if c =? 125 then Some ([TRBrace], LTop)
  else if c =? 91 then Some ([TLBrack], LTop)
  else if c =? 93 then Some ([TRBrack], LTop)
  else if c =? 58 then Some ([TColon], LTop)
  else if c =? 44 then Some ([TComma], LTop)
  else if c =? 34 then Some ([], LStr [])
  else if c =? 45 then Some ([], LNum NNeg [c])
  else if c =? 48 then Some ([], LNum N0 [c])
  else if (49 <=? c) && (c <=? 57) then Some ([], LNum N1 [c])
  else if c =? 116 then Some ([], LLit [114; 117; 101] TTrue)
  else if c =? 102 then Some ([], LLit [97; 108; 115; 101] TFalse)
  else if c =? 110 then Some ([], LLit [117; 108; 108] TNull)
  else None.

Definition is_escape (c : Z) : bool :=
  (c =? 98) || (c =? 102) || (c =? 110) || (c =? 114) || (c =? 116)
  || (c =? 92) || (c =? 47) || (c =? 34).

Definition lex_step (st : lex_state) (c : Z) : option (list token * lex_state) :=
  match st with
  | LTop => top_step c
  | LStr acc =>
      if c =? 34 then Some ([TStr (rev acc)], LTop)
      else if c =? 92 then Some ([], LEsc (c :: acc))
      else if c <? 32 then None
      else Some ([], LStr (c :: acc))
  | LEsc acc =>
      if is_escape c then Some ([], LStr (c :: acc))
      else if c =? 117 then Some ([], LHex 3 (c :: acc))
      else None
  | LHex k acc =>
      if is_hex c then
        match k with
        | O => Some ([], LStr (c :: acc))
        | S k' => Some ([], LHex k' (c :: acc))
        end
      else None
  | LNum s acc =>
      match num_step s c with
      | Some s' => Some ([], LNum s' (c :: acc))
      | None =>
          if num_final s then
            match top_step c with
            | Some (ts, st') => Some (TNum (rev acc) :: ts, st')
            | None => None
            end
          else None
      end
  | LLit todo tok =>
      match todo with
      | [x] => if c =? x then Some ([tok], LTop) else None
      | x :: todo' => if c =? x then Some ([], LLit todo' tok) else None
      | [] => None
      end
  end.

(** End of input. *)
Definition lex_end (st : lex_state) : option (list token) :=
  match st with
  | LTop => Some []
  | LNum s acc => if num_final s then Some [TNum (rev acc)] else None
  | _ => None
  end.

Fixpoint lex (st : lex_state) (l : list Z) : option (list token) :=
  match l with
  | [] => lex_end st
  | c :: l' =>
      match lex_step st c with
      | None => None
      | Some (ts, st') =>
          match lex st' l' with
          | Some r => Some (ts ++ r)
          | None => None
          end
      end
  end.

(** * Unquoting *)

Definition hex4 (a b c d : Z) : option Z :=
  match hex_value a, hex_value b, hex_value c, hex_value d with
  | Some x, Some y, Some z, Some w => Some (x * 4096 + y * 256 + z * 16 + w)
  | _, _, _, _ => None
  end.

Definition unescape (c : Z) : Z :=
  if c =? 98 then 8 else if c =? 102 then 12 else if c =? 110 then 10
  else if c =? 114 then 13 else if c =? 116 then 9 else c.

Definition surrogate_pair (r1 r2 : Z) : option Z :=
  if (55296 <=? r1) && (r1 <? 56320) && (56320 <=? r2) && (r2 <? 57344)
  then Some ((r1 - 55296) * 1024 + (r2 - 56320) + 65536)
  else None.

(** The code points of a scanned string body: escapes resolved, invalid UTF-8
    and unpaired surrogates replaced by U+FFFD. *)
Fixpoint unquote_runes (l : list Z) : list Z :=
  match l with
  | [] => []
  | a :: l1 =>
      if a =? 92 then
        match l1 with
        | [] => []
        | e :: l2 =>
            if e =? 117 then
              match l2 with
              | h1 :: h2 :: h3 :: h4 :: l3 =>
                  match hex4 h1 h2 h3 h4 with
                  | None => []
                  | Some r =>
                      if is_surrogate r then
                        match l3 with
                        | x :: y :: g1 :: g2 :: g3 :: g4 :: l4 =>
                            match (if (x =? 92) && (y =? 117) then hex4 g1 g2 g3 g4 else None) with
                            | Some r2 =>
                                match surrogate_pair r r2 with
                                | Some p => p :: unquote_runes l4
                                | None => rune_error :: unquote_runes l3
                                end
                            | None => rune_error :: unquote_runes l3
                            end
                        | _ => rune_error :: unquote_runes l3
                        end
                      else r :: unquote_runes l3
                  end
              | _ => []
              end
            else unescape e :: unquote_runes l2
        end
      else if a <? 128 then a :: unquote_runes l1
      else if is_lead2 a then
        match l1 with
        | b :: l2 => if is_cont b then rune2 a b :: unquote_runes l2
                     else rune_error :: unquote_runes l1
        | [] => rune_error :: unquote_runes l1
        end
      else if is_lead3 a then
        match l1 with
        | b :: c :: l3 => if second_ok a b && is_cont c then rune3 a b c :: unquote_runes l3
                          else rune_error :: unquote_runes l1
        | _ => rune_error :: unquote_runes l1
        end
      else if is_lead4 a then
        match l1 with
        | b :: c :: d :: l4 =>
            if second_ok a b && is_cont c && is_cont d then rune4 a b c d :: unquote_runes l4
            else rune_error :: unquote_runes l1
        | _ => rune_error :: unquote_runes l1
        end
      else rune_error :: unquote_runes l1
  end.

Definition unquote (raw : list Z) : list Z := encode_runes (unquote_runes raw).

(** * Stack machine *)

Inductive frame :=
| FArr (acc : list json)
| FObj (acc : list (list Z * json)) (key : list Z).

Inductive mode :=
| MVal | MValOrClose | MKeyOrClose | MKey | MColon | MNext
| MDone (v : json).

Definition max_nesting_depth : Z := 10000.

Definition push_value (v : json) (stack : list frame) : list frame * mode :=
  match stack with
  | [] => ([], MDone v)
  | FArr acc :: s => (FArr (v :: acc) :: s, MNext)
  | FObj acc k :: s => (FObj ((k, v) :: acc) k :: s, MNext)
  end.

Definition open_frame (f : frame) (m : mode) (stack : list frame) : option (list frame * mode) :=
  if Z.of_nat (length stack) <? max_nesting_depth then Some (f :: stack, m) else None.

Definition value_step (stack : list frame) (t : token) : option (list frame * mode) :=
  match t with
  | TNull => Some (push_value JNull stack)
  | TTrue => Some (push_value (JBool true) stack)
  | TFalse => Some (push_value (JBool false) stack)
  | TNum lit => Some (push_value (JNum lit) stack)
  | TStr raw => Some (push_value (JStr (unquote raw)) stack)
  | TLBrack => open_frame (FArr []) MValOrClose stack
  | TLBrace => open_frame (FObj [] []) MKeyOrClose stack
  | _ => None
  end.

Definition close_step (stack : list frame) (t : token) : option (list frame * mode) :=
  match stack, t with
  | FArr acc :: s, TRBrack => Some (push_value (JArr (rev acc)) s)
  | FObj acc _ :: s, TRBrace => Some (push_value (JObj (rev acc)) s)
  | _, _ => None
  end.

Definition key_step (stack : list frame) (t : token) : option (list frame * mode) :=
  match stack, t with
  | FObj acc _ :: s, TStr raw => Some (FObj acc (unquote raw) :: s, MColon)
  | _, _ => None
  end.

Definition parse_step (st : list frame * mode) (t : token) : option (list frame * mode) :=
  let '(stack, m) := st in
  match m with
  | MVal => value_step stack t
  | MValOrClose =>
      match t with TRBrack => close_step stack t | _ => value_step stack t end
  | MKeyOrClose =>
      match t with TRBrace => close_step stack t | _ => key_step stack t end
  | MKey => key_step stack t
  | MColon => match t with TColon => Some (stack, MVal) | _ => None end
  | MNext =>
      match t, stack with
      | TComma, FArr _ :: _ => Some (stack, MVal)
      | TComma, FObj _ _ :: _ => Some (stack, MKey)
      | _, _ => close_step stack t
      end
  | MDone _ => None
  end.

Fixpoint parse_run (st : list frame * mode) (ts : list token) : option (list frame * mode) :=
  match ts with
  | [] => Some st
  | t :: ts' =>
      match parse_step st t with Some st' => parse_run st' ts' | None => None end
  end.

Definition parse_tokens (ts : list token) : option json :=
  match parse_run ([], MVal) ts with
  | Some (_, MDone v) => Some v
  | _ => None
  end.

(** The value of a JSON text; [None] when [json.Valid] is false. *)
Definition json_parse (l : list Z) : option json :=
  match lex LTop l with
  | Some ts => parse_tokens ts
  | None => None
  end.

(** * json.Unmarshal *)

(** Into [string], [int64] and [int], all from their zero value: [null] leaves
    the zero value in place. *)
Definition unmarshal_string (v : json) : option string :=
  match v with
  | JStr s => Some (str s)
  | JNull => Some ""
  | _ => None
  end.

Definition unmarshal_int (v : json) : option Z :=
  match v with
  | JNum lit => parse_int lit
  | JNull => Some 0
  | _ => None
  end.

(** Into [[]json.RawMessage] and [[]string]. *)
Definition unmarshal_list (v : json) : option (list json) :=
  match v with
  | JArr vs => Some vs
  | JNull => Some []
  | _ => None
  end.

Fixpoint all_some {A B} (f : A → option B) (l : list A) : option (list B) :=
  match l with
  | [] => Some []
  | x :: l' =>
      match f x, all_some f l' with
      | Some y, Some r => Some (y :: r)
      | _, _ => None
      end
  end.

Definition unmarshal_strings (v : json) : option (list string) :=
  match unmarshal_list v with
  | Some vs => all_some unmarshal_string vs
  | None => None
  end.

(** Into [map[string]json.RawMessage]: the last of several equal keys wins. *)
Definition unmarshal_object (v : json) : option (gmap string json) :=
  match v with
  | JObj ms => Some (foldl (λ m kv, <[str (kv.1) := kv.2]> m) ∅ ms)
  | JNull => Some ∅
  | _ => None
  end.

(** Struct decoding matches a member name against a field name exactly or
    under simple case folding; U+212A and U+017F fold onto K and S. *)
Definition fold_name (k : list Z) : list Z :=
  map (λ r, if r =? 8490 then 75 else if r =? 383 then 83 else ascii_upper r) (runes k).

Definition name_matches (field : string) (k : list Z) : bool :=
  bool_decide (fold_name (bytes field) = fold_name k).

(** One struct field: every matching member is decoded in order into the same
    variable, [null] leaving it unchanged; [None] is a type error. *)
Definition unmarshal_field {A} (field : string) (dec : A → json → option A) (zero : A)
    (ms : list (list Z * json)) : option A :=
  foldl (λ acc kv,
           match acc with
           | None => None
           | Some a => if name_matches field kv.1 then dec a kv.2 else Some a
           end) (Some zero) ms.

Definition decode_string (old : string) (v : json) : option string :=
  match v with JNull => Some old | _ => unmarshal_string v end.

Definition decode_int (old : Z) (v : json) : option Z :=
  match v with JNull => Some old | _ => unmarshal_int v end.

(** Into a struct with one field; [null] leaves the struct alone. *)
Definition decode_struct {A} (field : string) (dec : A → json → option A) (zero : A) (v : json)
    : option A :=
  match v with
  | JObj ms => unmarshal_field field dec zero ms
  | JNull => Some zero
  | _ => None
  end.

Definition unmarshal_struct {A} (field : string) (dec : A → json → option A) (zero : A) (raw : string)
    : option A :=
  match json_parse (bytes raw) with
  | Some v => decode_struct field dec zero v
  | None => None
  end.

(** * Encoder *)

Definition quote_ascii (a : Z) : list Z :=
  if (a =? 34) || (a =? 92) then [92; a]
  else if a =? 8 then [92; 98]
  else if a =? 12 then [92; 102]
  else if a =? 10 then [92; 110]
  else if a =? 13 then [92; 114]
  else if a =? 9 then [92; 116]
  else if a <? 32 then [92; 117; 48; 48; hex_digit (a / 16); hex_digit (a mod 16)]
  else [a].

Definition escape_fffd : list Z := [92; 117; 102; 102; 102; 100].

(** A rune of three bytes: U+2028 and U+2029 are always escaped. *)
Definition quote_rune3 (a b c : Z) : list Z :=
  let r := rune3 a b c in
  if (r =? 8232) || (r =? 8233)
  then [92; 117; 50; 48; 50; hex_digit (r mod 16)]
  else [a; b; c].

Fixpoint quote_body (l : list Z) : list Z :=
  match l with
  | [] => []
  | a :: l1 =>
      if a <? 128 then quote_ascii a ++ quote_body l1
      else if is_lead2 a then
        match l1 with
        | b :: l2 => if is_cont b then [a; b] ++ quote_body l2
                     else escape_fffd ++ quote_body l1
        | [] => escape_fffd ++ quote_body l1
        end
      else if is_lead3 a then
        match l1 with
        | b :: c :: l3 => if second_ok a b && is_cont c then quote_rune3 a b c ++ quote_body l3
                          else escape_fffd ++ quote_body l1
        | _ => escape_fffd ++ quote_body l1
        end
      else if is_lead4 a then
        match l1 with
        | b :: c :: d :: l4 =>
            if second_ok a b && is_cont c && is_cont d then [a; b; c; d] ++ quote_body l4
            else escape_fffd ++ quote_body l1
        | _ => escape_fffd ++ quote_body l1
        end
      else escape_fffd ++ quote_body l1
  end.

Definition quote (l : list Z) : list Z := 34 :: quote_body l ++ [34].

Fixpoint sep_concat {A} (sep : list A) (ls : list (list A)) : list A :=
  match ls with
  | [] => []
  | [x] => x
  | x :: ls' => x ++ sep ++ sep_concat sep ls'
  end.

Fixpoint json_encode (v : json) : list Z :=
  match v with
  | JNull => [110; 117; 108; 108]
  | JBool true => [116; 114; 117; 101]
  | JBool false => [102; 97; 108; 115; 101]
  | JNum lit => lit
  | JStr s => quote s
  | JArr vs => 91 :: sep_concat [44] (map json_encode vs) ++ [93]
  | JObj ms => 123 :: sep_concat [44] (map (λ kv, quote kv.1 ++ 58 :: json_encode kv.2) ms) ++ [125]
  end.

(** * Evaluation *)

(** [json.Marshal]: the encoder with the characters of HTML escaped. *)
Definition escape_html (l : list Z) : list Z :=
  flat_map (λ b, if b =? 60 then bytes "\u003c" else if b =? 62 then bytes "\u003e" else if b =? 38 then bytes "\u0026" else [b]) l.

Definition json_Marshal (v : json) : string := str (escape_html (json_encode v)).

(** Text with single quotes written for double quotes. *)
Definition qtext (s : string) : list Z :=
  map (λ b, if b =? 39 then 34 else b) (bytes s).

Example parse_example :
  json_parse (qtext " { 'a' : [1, -2.5e+3, 'x\u0041\n'], 'b': null, 'b' :true } ")
  = Some (JObj [(bytes "a", JArr [JNum (bytes "1"); JNum (bytes "-2.5e+3");
                                  JStr [120; 65; 10]]);
                (bytes "b", JNull); (bytes "b", JBool true)]).
Proof. vm_compute. reflexivity. Qed.

Example parse_surrogates :
  json_parse (qtext "'\ud83d\ude00\ud83d\n'")
  = Some (JStr ([240; 159; 152; 128] ++ [239; 191; 189] ++ [10])).
Proof. vm_compute. reflexivity. Qed.

Example parse_rejects :
  map (λ t, json_parse (qtext t))
    ["01"; "1 2"; "[1,]"; "{'a':1,}"; "{'a' 1}"; "'\x'"; "-"; "tru"; ""; "[1}"; "1.e3"]
  = repeat None 11.
Proof. vm_compute. reflexivity. Qed.

(** * Round trip *)

(** ** Scanning in pieces *)

Fixpoint lex_steps (st : lex_state) (l : list Z) : option (list token * lex_state) :=
  match l with
  | [] => Some ([], st)
  | c :: l' =>
      match lex_step st c with
      | None => None
      | Some (ts, st') =>
          match lex_steps st' l' with
          | Some (ts', st'') => Some (ts ++ ts', st'')
          | None => None
          end
      end
  end.

Lemma lex_app st l1 l2 ts st' :
  lex_steps st l1 = Some (ts, st') →
  lex st (l1 ++ l2) = match lex st' l2 with Some r => Some (ts ++ r) | None => None end.
Proof.
  revert st ts. induction l1 as [|c l1 IH]; intros st ts; simpl.
  { intros [= <- <-]. by destruct (lex st l2). }
  destruct (lex_step st c) as [[ts1 st1]|]; [|done].
  destruct (lex_steps st1 l1) as [[ts2 st2]|] eqn:E; [|done].
  intros [= <- <-]. rewrite (IH _ _ E).
  destruct (lex st2 l2); [|done]. by rewrite app_assoc.
Qed.

Lemma lex_steps_app st l1 l2 ts st' :
  lex_steps st l1 = Some (ts, st') →
  lex_steps st (l1 ++ l2) =
  match lex_steps st' l2 with Some (r, st'') => Some (ts ++ r, st'') | None => None end.
Proof.
  revert st ts. induction l1 as [|c l1 IH]; intros st ts; simpl.
  { intros [= <- <-]. by destruct (lex_steps st l2) as [[??]|]. }
  destruct (lex_step st c) as [[ts1 st1]|]; [|done].
  destruct (lex_steps st1 l1) as [[ts2 st2]|] eqn:E; [|done].
  intros [= <- <-]. rewrite (IH _ _ E).
  destruct (lex_steps st2 l2) as [[??]|]; [|done]. by rewrite app_assoc.
Qed.

(** ** Strings *)

Definition utf8_ok (s : list Z) : Prop :=
  Forall byte_ok s ∧ encode_runes (runes s) = s.

Definition quote_rune (r : Z) : list Z :=
  if r <? 128 then quote_ascii r
  else if (r =? 8232) || (r =? 8233) then [92; 117; 50; 48; 50; hex_digit (r mod 16)]
  else encode_rune r.

Lemma quote_body_rune r l :
  valid_rune r = true → quote_body (encode_rune r ++ l) = quote_rune r ++ quote_body l.
Proof.
  intros V. unfold quote_rune. rune_cases V.
  - rewrite (proj2 (Z.ltb_lt _ _)) by lia. done.
  - rewrite (proj2 (Z.ltb_ge _ _)), (proj2 (Z.eqb_neq r 8232)),
      (proj2 (Z.eqb_neq r 8233)) by lia. done.
  - rewrite (proj2 (Z.ltb_ge _ _)) by lia. unfold quote_rune3. subst r.
    destruct (_ || _); done.
  - rewrite (proj2 (Z.ltb_ge _ _)), (proj2 (Z.eqb_neq r 8232)),
      (proj2 (Z.eqb_neq r 8233)) by lia. done.
Qed.

(** The escapes the encoder writes for one ASCII character are read back. *)
Lemma ascii_codes (P : Z → Prop) :
  Forall P (seqZ 0 128) → ∀ r, 0 ≤ r < 128 → P r.
Proof.
  intros H r Hr. rewrite Forall_forall in H. apply H.
  apply list_elem_of_In, elem_of_seqZ. lia.
Qed.

Lemma lex_quote_ascii r acc :
  0 ≤ r < 128 →
  lex_steps (LStr acc) (quote_ascii r) = Some ([], LStr (rev (quote_ascii r) ++ acc)).
Proof.
  intros Hr. revert r Hr acc.
  apply (ascii_codes (λ r, ∀ acc, _)). repeat constructor.
Qed.

Lemma unquote_quote_ascii r l :
  0 ≤ r < 128 → unquote_runes (quote_ascii r ++ l) = r :: unquote_runes l.
Proof.
  intros Hr. revert r Hr l.
  apply (ascii_codes (λ r, ∀ l, _)). repeat constructor.
Qed.

Lemma lex_step_high acc c : 128 ≤ c → lex_step (LStr acc) c = Some ([], LStr (c :: acc)).
Proof.
  intros Hc. simpl.
  rewrite (proj2 (Z.eqb_neq c 34)), (proj2 (Z.eqb_neq c 92)), (proj2 (Z.ltb_ge c 32)) by lia.
  done.
Qed.

Lemma lex_quote_rune r acc :
  valid_rune r = true →
  lex_steps (LStr acc) (quote_rune r) = Some ([], LStr (rev (quote_rune r) ++ acc)).
Proof.
  intros V. unfold quote_rune.
  destruct (r <? 128) eqn:E; bool_simpl.
  { apply lex_quote_ascii. apply valid_rune_spec in V. lia. }
  destruct ((r =? 8232) || (r =? 8233)) eqn:E2.
  { apply orb_true_iff in E2 as [->%Z.eqb_eq| ->%Z.eqb_eq]; done. }
  assert (Hhigh : Forall (λ b, 128 ≤ b) (encode_rune r)).
  { destruct (encode_rune_view _ V);
      unfold second_ok, is_lead2, is_lead3, is_lead4, is_cont in *; [lia|..].
    all: repeat match goal with
           | H : context [if ?b then _ else _] |- _ => destruct b eqn:?
           end; bool_simpl; repeat constructor; lia. }
  clear -Hhigh. revert acc. induction Hhigh as [|b l Hb _ IH]; intros acc; [done|].
  cbn [lex_steps]. rewrite lex_step_high by done. rewrite IH. simpl. by rewrite <-app_assoc.
Qed.

Lemma unquote_quote_rune r l :
  valid_rune r = true → unquote_runes (quote_rune r ++ l) = r :: unquote_runes l.
Proof.
  intros V. unfold quote_rune.
  destruct (r <? 128) eqn:E; bool_simpl.
  { apply unquote_quote_ascii. apply valid_rune_spec in V. lia. }
  destruct ((r =? 8232) || (r =? 8233)) eqn:E2'.
  { apply orb_true_iff in E2' as [->%Z.eqb_eq| ->%Z.eqb_eq]; done. }
  rune_cases V; [lia|..];
    (rewrite (proj2 (Z.eqb_neq _ 92)) by (apply Z.ltb_ge in E1; lia)); congruence.
Qed.

Lemma utf8_ok_runes s :
  utf8_ok s → ∃ rs, s = encode_runes rs ∧ Forall (λ r, valid_rune r = true) rs.
Proof. intros [Hb He]. exists (runes s). split; [done|]. by apply runes_valid. Qed.

Lemma lex_quote_body s acc :
  utf8_ok s →
  lex_steps (LStr acc) (quote_body s) = Some ([], LStr (rev (quote_body s) ++ acc)).
Proof.
  intros (rs & -> & Hrs)%utf8_ok_runes. revert acc.
  induction Hrs as [|r rs Hr _ IH]; intros acc; [done|].
  change (encode_runes (r :: rs)) with (encode_rune r ++ encode_runes rs).
  rewrite quote_body_rune by done.
  erewrite lex_steps_app by (by apply lex_quote_rune).
  rewrite IH. simpl. by rewrite rev_app_distr, app_assoc.
Qed.

Lemma unquote_quote_body s : utf8_ok s → unquote (quote_body s) = s.
Proof.
  intros (rs & -> & Hrs)%utf8_ok_runes. unfold unquote. f_equal.
  induction Hrs as [|r rs Hr _ IH]; [done|].
  change (encode_runes (r :: rs)) with (encode_rune r ++ encode_runes rs).
  by rewrite quote_body_rune, unquote_quote_rune, IH.
Qed.

Lemma lex_quote s :
  utf8_ok s → lex_steps LTop (quote s) = Some ([TStr (quote_body s)], LTop).
Proof.
  intros Hs. unfold quote. simpl.
  erewrite lex_steps_app by (by apply lex_quote_body).
  simpl. by rewrite app_nil_r, rev_involutive.
Qed.

(** ** Numbers *)

Fixpoint num_steps (s : num_state) (l : list Z) : option num_state :=
  match l with
  | [] => Some s
  | c :: l' => match num_step s c with Some s' => num_steps s' l' | None => None end
  end.

(** [lit] is a JSON number literal. *)
Definition num_ok (lit : list Z) : Prop :=
  ∃ c l s0 s, lit = c :: l ∧ top_step c = Some ([], LNum s0 [c]) ∧
              num_steps s0 l = Some s ∧ num_final s = true.

Lemma lex_num_steps s acc l s' :
  num_steps s l = Some s' → lex_steps (LNum s acc) l = Some ([], LNum s' (rev l ++ acc)).
Proof.
  revert s acc. induction l as [|c l IH]; intros s acc; simpl.
  { by intros [= ->]. }
  destruct (num_step s c) as [s1|]; [|done]. intros E.
  rewrite (IH _ _ E). by rewrite <-app_assoc.
Qed.

Lemma num_steps_digits s l :
  (s = N1 ∨ s = NNeg ∧ l = []) → Forall (λ b, is_digit b = true) l → num_steps s l = Some s.
Proof.
  intros [->|[-> ->]]; [|done]. induction 1 as [|b l Hb _ IH]; simpl; [done|].
  by rewrite Hb.
Qed.

(** The decimal numeral of a positive number starts with a non-zero digit. *)
Lemma dec_digits_head f n :
  0 < n < 10 ^ Z.of_nat f →
  ∃ b l, dec_digits f n = b :: l ∧ 49 ≤ b ≤ 57 ∧ Forall (λ b, is_digit b = true) l.
Proof.
  revert n. induction f as [|f IH]; intros n Hn; [simpl in Hn; lia|].
  rewrite Nat2Z.inj_succ, Z.pow_succ_r in Hn by lia.
  simpl. destruct (n <? 10) eqn:E; bool_simpl.
  { exists (48 + n), []. split; [done|]. split; [lia|constructor]. }
  destruct (IH (n / 10)) as (b & l & -> & Hb & Hl).
  { split; [apply Z.div_str_pos; lia|apply Z.div_lt_upper_bound; lia]. }
  exists b, (l ++ [48 + n mod 10]). split_and!; [done|lia..|].
  apply Forall_app; split; [done|].
  repeat constructor. apply is_digit_48, Z.mod_pos_bound. lia.
Qed.

Lemma top_step_digit b : 49 ≤ b ≤ 57 → top_step b = Some ([], LNum N1 [b]).
Proof.
  intros Hb. assert (b = 49 ∨ b = 50 ∨ b = 51 ∨ b = 52 ∨ b = 53 ∨ b = 54 ∨ b = 55
                     ∨ b = 56 ∨ b = 57) as Hc by lia.
  repeat destruct Hc as [->|Hc]; subst; reflexivity.
Qed.

Lemma itoa_num_ok z : in_i64 z = true → num_ok (itoa z).
Proof.
  intros Hz%in_i64_spec. unfold min_int64, max_int64, two63 in Hz.
  unfold itoa. destruct (z <? 0) eqn:E; bool_simpl.
  - destruct (dec_digits_head 20 (- z)) as (b & l & Hd & Hb & Hl); [lia|].
    exists 45, (dec_digits 20 (- z)), NNeg, N1. rewrite Hd. split_and!; try done.
    cbn [num_steps num_step]. rewrite (proj2 (Z.eqb_neq _ _)) by lia.
    rewrite (proj2 (Z.leb_le 49 _)), (proj2 (Z.leb_le _ 57)) by lia.
    apply num_steps_digits; auto.
  - destruct (decide (z = 0)) as [->|].
    { exists 48, [], N0, N0. done. }
    destruct (dec_digits_head 20 z) as (b & l & -> & Hb & Hl); [lia|].
    exists b, l, N1, N1. split_and!; try done.
    + by apply top_step_digit.
    + apply num_steps_digits; auto.
Qed.

(** ** Values *)

Fixpoint json_tokens (v : json) : list token :=
  match v with
  | JNull => [TNull]
  | JBool true => [TTrue]
  | JBool false => [TFalse]
  | JNum lit => [TNum lit]
  | JStr s => [TStr (quote_body s)]
  | JArr vs => TLBrack :: sep_concat [TComma] (map json_tokens vs) ++ [TRBrack]
  | JObj ms =>
      TLBrace :: sep_concat [TComma]
        (map (λ kv, TStr (quote_body kv.1) :: TColon :: json_tokens kv.2) ms) ++ [TRBrace]
  end.

(** [v] has at most [n] levels of arrays and objects, number literals and
    valid UTF-8 text. *)
Fixpoint json_wf (n : nat) (v : json) : Prop :=
  match v with
  | JNull | JBool _ => True
  | JNum lit => num_ok lit
  | JStr s => utf8_ok s
  | JArr vs => match n with O => False | S n' => Forall (json_wf n') vs end
  | JObj ms =>
      match n with O => False | S n' => Forall (λ kv, utf8_ok kv.1 ∧ json_wf n' kv.2) ms end
  end.

Definition delim (c : Z) : Prop := c = 44 ∨ c = 93 ∨ c = 125.

Lemma num_step_delim s c : delim c → num_step s c = None.
Proof. intros [->|[->| ->]]; by destruct s. Qed.

Lemma lex_steps_one st c ts st' :
  lex_step st c = Some (ts, st') → lex_steps st [c] = Some (ts, st').
Proof. intros E. simpl. by rewrite E, app_nil_r. Qed.

(** Scanning a text whose scan ends at top level, then one more byte. *)
Lemma lex_then l ts c ts' st' :
  lex_steps LTop l = Some (ts, LTop) → top_step c = Some (ts', st') →
  lex_steps LTop (l ++ [c]) = Some (ts ++ ts', st').
Proof.
  intros E Hc. erewrite lex_steps_app by done.
  by rewrite (lex_steps_one LTop c ts' st').
Qed.

Lemma lex_num_then lit c ts st :
  num_ok lit → delim c → top_step c = Some (ts, st) →
  lex_steps LTop (lit ++ [c]) = Some (TNum lit :: ts, st).
Proof.
  intros (c0 & l & s0 & s & -> & Htop & Hnum & Hfin) Hc Hts.
  cbn [app lex_steps lex_step]. rewrite Htop.
  erewrite lex_steps_app by (by apply lex_num_steps).
  cbn [lex_steps lex_step]. rewrite num_step_delim, Hfin, Hts by done.
  simpl. by rewrite rev_app_distr, rev_involutive, app_nil_r.
Qed.

(** Scanning a comma-separated list whose elements scan up to a delimiter. *)
Lemma lex_sep {A} (enc : A → list Z) (toks : A → list token) (vs : list A) c ts st :
  Forall (λ v, ∀ c ts st, delim c → top_step c = Some (ts, st) →
                 lex_steps LTop (enc v ++ [c]) = Some (toks v ++ ts, st)) vs →
  delim c → top_step c = Some (ts, st) →
  lex_steps LTop (sep_concat [44] (map enc vs) ++ [c])
  = Some (sep_concat [TComma] (map toks vs) ++ ts, st).
Proof.
  intros Hvs Hc Hts. induction Hvs as [|v vs Hv _ IH].
  { simpl. rewrite Hts. by rewrite app_nil_r. }
  destruct vs as [|v2 vs]; [by apply Hv|].
  cbn [map sep_concat] in *.
  rewrite <-!app_assoc, (app_assoc (enc v)).
  erewrite lex_steps_app by (apply (Hv 44); [by left|done]).
  rewrite IH. by rewrite <-!app_assoc.
Qed.

Definition lexes_to_delim (v : json) : Prop :=
  ∀ c ts st, delim c → top_step c = Some (ts, st) →
             lex_steps LTop (json_encode v ++ [c]) = Some (json_tokens v ++ ts, st).

Lemma lex_array vs :
  Forall lexes_to_delim vs →
  lex_steps LTop (json_encode (JArr vs)) = Some (json_tokens (JArr vs), LTop).
Proof.
  intros Hvs. cbn [json_encode json_tokens lex_steps lex_step].
  change (top_step 91) with (Some ([TLBrack], LTop)); cbv iota beta.
  erewrite (lex_sep json_encode json_tokens vs 93); [done|done|by right; left|done].
Qed.

Lemma lex_object ms :
  Forall (λ kv, utf8_ok kv.1 ∧ lexes_to_delim kv.2) ms →
  lex_steps LTop (json_encode (JObj ms)) = Some (json_tokens (JObj ms), LTop).
Proof.
  intros Hms. cbn [json_encode json_tokens lex_steps lex_step].
  change (top_step 123) with (Some ([TLBrace], LTop)); cbv iota beta.
  erewrite (lex_sep (λ kv, quote kv.1 ++ 58 :: json_encode kv.2)
             (λ kv, TStr (quote_body kv.1) :: TColon :: json_tokens kv.2) ms 125);
    [done| |by right; right|done].
  revert Hms. apply Forall_impl. intros [k v] [Hk Hv] c ts st Hc Hts. cbn [fst snd] in *.
  rewrite <-app_assoc. rewrite (lex_steps_app _ _ _ _ _ (lex_quote k Hk)).
  cbn [app lex_steps lex_step].
  change (top_step 58) with (Some ([TColon], LTop)); cbv iota beta.
  by rewrite (Hv c ts st).
Qed.

Lemma lex_value n v : json_wf n v → lexes_to_delim v.
Proof.
  revert v. induction n as [|n IH]; intros v Hwf c ts st Hc Hts;
    destruct v as [|[]|lit|s|vs|ms]; simpl in Hwf; try done;
    try (by apply lex_then); try (by apply lex_num_then);
    try (apply lex_then; [by apply lex_quote|done]).
  - apply lex_then; [|done]. apply lex_array.
    revert Hwf. apply Forall_impl. done.
  - apply lex_then; [|done]. apply lex_object.
    revert Hwf. apply Forall_impl. intros ? []. auto.
Qed.

Section array_elements.
Context (n : nat) (stack : list frame) (rest : list token).
Context (IH : ∀ v stack m rest, json_wf n v →
   Z.of_nat n + Z.of_nat (length stack) ≤ max_nesting_depth →
   m = MVal ∨ m = MValOrClose →
   parse_run (stack, m) (json_tokens v ++ rest) = parse_run (push_value v stack) rest).
Context (Hdepth : Z.of_nat n + (Z.of_nat (length stack) + 1) ≤ max_nesting_depth).

Lemma parse_elements vs acc m :
  vs ≠ [] → Forall (json_wf n) vs → m = MVal ∨ m = MValOrClose →
  parse_run (FArr acc :: stack, m)
    (sep_concat [TComma] (map json_tokens vs) ++ TRBrack :: rest)
  = parse_run (push_value (JArr (rev acc ++ vs)) stack) rest.
Proof.
  intros Hne Hvs. revert acc m Hne. induction Hvs as [|v vs Hv Hvs IHvs]; [done|].
  intros acc m _ Hm. destruct vs as [|v2 vs].
  - cbn [map sep_concat]. rewrite IH; [|done|cbn [length]; lia|done].
    simpl. done.
  - cbn [map sep_concat]. rewrite <-!app_assoc.
    rewrite IH; [|done|cbn [length]; lia|done].
    cbn [push_value app parse_run parse_step].
    rewrite IHvs by auto. simpl. by rewrite <-app_assoc.
Qed.

Lemma parse_members ms acc k m :
  ms ≠ [] → Forall (λ kv, utf8_ok kv.1 ∧ json_wf n kv.2) ms →
  m = MKey ∨ m = MKeyOrClose →
  parse_run (FObj acc k :: stack, m)
    (sep_concat [TComma]
       (map (λ kv, TStr (quote_body kv.1) :: TColon :: json_tokens kv.2) ms)
     ++ TRBrace :: rest)
  = parse_run (push_value (JObj (rev acc ++ ms)) stack) rest.
Proof.
  intros Hne Hms. revert acc k m Hne.
  induction Hms as [|[kk v] ms [Hk Hv] Hms IHms]; [done|]. simpl in Hk, Hv.
  intros acc k m _ Hm.
  assert (Hstep : ∀ ts, parse_run (FObj acc k :: stack, m)
            (TStr (quote_body kk) :: TColon :: json_tokens v ++ ts)
          = parse_run (FObj ((kk, v) :: acc) kk :: stack, MNext) ts).
  { intros ts. destruct Hm as [-> | ->]; cbn [parse_run parse_step key_step];
      rewrite unquote_quote_body by done;
      (rewrite IH; [done|done|cbn [length]; lia|by left]). }
  destruct ms as [|kv2 ms].
  - cbn [map sep_concat]. cbn [fst snd app]. rewrite Hstep. done.
  - cbn [map sep_concat]. cbn [fst snd]. rewrite <-!app_assoc. cbn [app].
    rewrite Hstep. cbn [parse_run parse_step]. rewrite IHms by auto.
    simpl. by rewrite <-app_assoc.
Qed.
End array_elements.

Lemma parse_value n v stack m rest :
  json_wf n v →
  Z.of_nat n + Z.of_nat (length stack) ≤ max_nesting_depth →
  m = MVal ∨ m = MValOrClose →
  parse_run (stack, m) (json_tokens v ++ rest) = parse_run (push_value v stack) rest.
Proof.
  revert v stack m rest. induction n as [|n IH]; intros v stack m rest Hwf Hd Hm;
    destruct v as [|[]|lit|s|vs|ms]; simpl in Hwf; try done;
    try (by destruct Hm as [->| ->]);
    try (by destruct Hm as [->| ->]; simpl; rewrite unquote_quote_body).
  - assert (Hopen : open_frame (FArr []) MValOrClose stack
                    = Some (FArr [] :: stack, MValOrClose)).
    { unfold open_frame. rewrite (proj2 (Z.ltb_lt _ _)) by lia. done. }
    trans (parse_run (FArr [] :: stack, MValOrClose)
             (sep_concat [TComma] (map json_tokens vs) ++ TRBrack :: rest)).
    { destruct Hm as [->| ->]; cbn [json_tokens app parse_run parse_step value_step];
        rewrite Hopen, <-app_assoc; done. }
    destruct vs as [|v vs]; [done|].
    rewrite (parse_elements n) by (done || auto with lia). done.
  - assert (Hopen : open_frame (FObj [] []) MKeyOrClose stack
                    = Some (FObj [] [] :: stack, MKeyOrClose)).
    { unfold open_frame. rewrite (proj2 (Z.ltb_lt _ _)) by lia. done. }
    trans (parse_run (FObj [] [] :: stack, MKeyOrClose)
             (sep_concat [TComma]
                (map (λ kv, TStr (quote_body kv.1) :: TColon :: json_tokens kv.2) ms)
              ++ TRBrace :: rest)).
    { destruct Hm as [->| ->]; cbn [json_tokens app parse_run parse_step value_step];
        rewrite Hopen, <-app_assoc; done. }
    destruct ms as [|kv ms]; [done|].
    rewrite (parse_members n) by (done || auto with lia). done.
Qed.

Lemma lex_whole v :
  lex_steps LTop (json_encode v) = Some (json_tokens v, LTop) →
  lex LTop (json_encode v) = Some (json_tokens v).
Proof.
  intros E. rewrite <-(app_nil_r (json_encode v)), (lex_app _ _ _ _ _ E).
  simpl. by rewrite app_nil_r.
Qed.

(** A well-formed array or object, encoded and parsed, is itself. *)
Lemma json_parse_encode n v :
  json_wf n v → Z.of_nat n ≤ max_nesting_depth →
  (∃ vs, v = JArr vs) ∨ (∃ ms, v = JObj ms) →
  json_parse (json_encode v) = Some v.
Proof.
  intros Hwf Hn Hv. unfold json_parse. rewrite lex_whole.
  - unfold parse_tokens. rewrite <-(app_nil_r (json_tokens v)).
    rewrite (parse_value n) by (done || auto || (simpl; lia)). done.
  - destruct n as [|n]; [by destruct Hv as [[? ->]|[? ->]]|].
    destruct Hv as [[vs ->]|[ms ->]]; simpl in Hwf.
    + apply lex_array. revert Hwf. apply Forall_impl. eauto using lex_value.
    + apply lex_object. revert Hwf. apply Forall_impl.
      intros ? []; eauto using lex_value.
Qed.

(** * Decoded text is valid UTF-8 *)

Lemma utf8_ok_encode rs :
  Forall (λ r, valid_rune r = true) rs → utf8_ok (encode_runes rs).
Proof.
  intros Hrs. split; [apply encode_runes_ok|].
  rewrite <-(app_nil_r (encode_runes rs)) at 1.
  rewrite runes_encode_runes by done. by rewrite app_nil_r.
Qed.

Lemma hex4_range a b c d r : hex4 a b c d = Some r → 0 ≤ r < 65536.
Proof.
  unfold hex4. intros E. repeat case_match; simplify_eq.
  repeat match goal with H : hex_value _ = _ |- _ => apply hex_value_range in H end. lia.
Qed.

Lemma surrogate_pair_valid r1 r2 p :
  surrogate_pair r1 r2 = Some p → valid_rune p = true.
Proof.
  unfold surrogate_pair. intros E. case_match; simplify_eq. bool_simpl.
  apply valid_rune_spec. lia.
Qed.

Lemma unescape_valid e : byte_ok e → valid_rune (unescape e) = true.
Proof.
  unfold byte_ok, unescape. intros He. apply valid_rune_spec.
  repeat case_match; lia.
Qed.

Lemma unquote_runes_valid l :
  Forall byte_ok l → Forall (λ r, valid_rune r = true) (unquote_runes l).
Proof.
  remember (length l) as n eqn:Hn. revert l Hn.
  induction n as [n IH] using lt_wf_ind. intros l -> Hl.
  destruct l as [|a l1]; [constructor|].
  assert (Hrec : ∀ l', (length l' ≤ length l1)%nat → Forall byte_ok l' →
                       Forall (λ r, valid_rune r = true) (unquote_runes l')).
  { intros l' Hle Hok. eapply IH; [|done|done]. simpl. lia. }
  clear IH. pose proof (runes_valid _ Hl) as Hr. apply Forall_cons_1 in Hl as [Ha Hl].
  assert (Hbad : Forall (λ r, valid_rune r = true) (rune_error :: unquote_runes l1)).
  { constructor; [done|]. by apply Hrec. }
  assert (Hdrop : ∀ k, Forall (λ r, valid_rune r = true) (unquote_runes (drop k l1))).
  { intros k. apply Hrec; [rewrite length_drop; lia|by apply Forall_drop]. }
  cbn [unquote_runes]. destruct (a =? 92).
  { destruct l1 as [|e l2]; [constructor|].
    pose proof (Hdrop 1%nat) as H1. simpl in H1.
    destruct (e =? 117); [|constructor; [apply unescape_valid; by apply Forall_inv in Hl|done]].
    destruct l2 as [|h1 [|h2 [|h3 [|h4 l3]]]]; try constructor.
    pose proof (Hdrop 5%nat) as H5. simpl in H5.
    destruct (hex4 h1 h2 h3 h4) as [r|] eqn:Eh; [|constructor].
    apply hex4_range in Eh. destruct (is_surrogate r) eqn:Es.
    - assert (Forall (λ r, valid_rune r = true) (rune_error :: unquote_runes l3))
        by (constructor; done).
      destruct l3 as [|x [|y [|g1 [|g2 [|g3 [|g4 l4]]]]]]; try done.
      pose proof (Hdrop 11%nat) as H11. simpl in H11.
      destruct (if (x =? 92) && (y =? 117) then _ else _) as [r2|]; [|done].
      destruct (surrogate_pair r r2) as [p|] eqn:Ep; [|done].
      constructor; [by eapply surrogate_pair_valid|done].
    - constructor; [|done]. apply valid_rune_spec.
      unfold is_surrogate in Es. apply andb_false_iff in Es.
      rewrite !Z.leb_gt in Es. lia. }
  cbn [runes] in Hr.
  pose proof (Hdrop 0%nat) as H0. pose proof (Hdrop 1%nat) as H1.
  pose proof (Hdrop 2%nat) as H2. pose proof (Hdrop 3%nat) as H3.
  destruct (a <? 128); [apply Forall_cons_1 in Hr as [? _]; by constructor|].
  destruct (is_lead2 a).
  { destruct l1 as [|b l2]; [done|]. destruct (is_cont b); [|done].
    apply Forall_cons_1 in Hr as [? _]; by constructor. }
  destruct (is_lead3 a).
  { destruct l1 as [|b [|c l3]]; [done..|]. destruct (_ && _); [|done].
    apply Forall_cons_1 in Hr as [? _]; by constructor. }
  destruct (is_lead4 a); [|done].
  destruct l1 as [|b [|c [|d l4]]]; [done..|]. destruct (_ && _); [|done].
  apply Forall_cons_1 in Hr as [? _]; by constructor.
Qed.

Lemma unquote_utf8 raw : Forall byte_ok raw → utf8_ok (unquote raw).
Proof. intros. by apply utf8_ok_encode, unquote_runes_valid. Qed.

(** Every string of a value is valid UTF-8. *)
Fixpoint strings_ok (v : json) : Prop :=
  match v with
  | JStr s => utf8_ok s
  | JArr vs => foldr (λ v P, strings_ok v ∧ P) True vs
  | JObj ms => foldr (λ kv P, (utf8_ok kv.1 ∧ strings_ok kv.2) ∧ P) True ms
  | _ => True
  end.

Lemma foldr_Forall {A} (Q : A → Prop) l :
  foldr (λ x P, Q x ∧ P) True l ↔ Forall Q l.
Proof.
  induction l as [|x l IH]; simpl; [by split; [constructor|]|].
  rewrite IH. split; [intros []; by constructor|]. intros Hx.
  apply Forall_cons_1 in Hx. done.
Qed.

Definition tok_ok (t : token) : Prop :=
  match t with TStr raw => Forall byte_ok raw | _ => True end.

Definition lex_ok (st : lex_state) : Prop :=
  match st with
  | LStr acc | LEsc acc | LHex _ acc => Forall byte_ok acc
  | LLit _ t => tok_ok t
  | _ => True
  end.

Lemma top_step_ok c ts st : top_step c = Some (ts, st) → Forall tok_ok ts ∧ lex_ok st.
Proof.
  unfold top_step. intros E.
  repeat case_match; simplify_eq; split; repeat constructor.
Qed.

Ltac ok_auto :=
  try solve [split; repeat apply Forall_cons_2; simpl; auto using Forall_nil, Forall_cons_2, Forall_rev].

Lemma lex_step_ok st c ts st' :
  byte_ok c → lex_ok st → lex_step st c = Some (ts, st') → Forall tok_ok ts ∧ lex_ok st'.
Proof.
  intros Hc Hst. destruct st as [|acc|acc|k acc|s acc|todo tok]; simpl in *.
  - apply top_step_ok.
  - intros E. repeat case_match; simplify_eq; ok_auto.
  - intros E. repeat case_match; simplify_eq; ok_auto.
  - intros E. repeat case_match; simplify_eq; ok_auto.
  - intros E. repeat case_match; simplify_eq; ok_auto.
    all: match goal with H : top_step _ = _ |- _ => apply top_step_ok in H as [] end; ok_auto.
  - intros E. repeat case_match; simplify_eq; ok_auto.
Qed.

Lemma lex_tokens_ok st l ts :
  Forall byte_ok l → lex_ok st → lex st l = Some ts → Forall tok_ok ts.
Proof.
  intros Hl. revert st ts. induction Hl as [|c l Hc _ IH]; intros st ts Hst; simpl.
  - destruct st; simpl; intros E; repeat case_match; simplify_eq; repeat constructor.
  - destruct (lex_step st c) as [[ts1 st1]|] eqn:E; [|done].
    destruct (lex_step_ok _ _ _ _ Hc Hst E) as [H1 H2].
    destruct (lex st1 l) as [r|] eqn:E2; [|done]. intros [= <-].
    apply Forall_app; eauto.
Qed.

Definition frame_ok (f : frame) : Prop :=
  match f with
  | FArr acc => Forall strings_ok acc
  | FObj acc k => Forall (λ kv, utf8_ok kv.1 ∧ strings_ok kv.2) acc ∧ utf8_ok k
  end.

Definition pstate_ok (st : list frame * mode) : Prop :=
  Forall frame_ok st.1 ∧ match st.2 with MDone v => strings_ok v | _ => True end.

Lemma push_value_ok v stack :
  strings_ok v → Forall frame_ok stack → pstate_ok (push_value v stack).
Proof.
  intros Hv Hs. unfold pstate_ok.
  destruct Hs as [|[acc|acc k] s Hf Hs]; simpl in *; [done|..].
  - split; [|done]. constructor; [by constructor|done].
  - destruct Hf as [Hf Hk]. split; [|done]. constructor; [|done].
    split; [by constructor|done].
Qed.

Lemma utf8_ok_nil : utf8_ok [].
Proof. split; [constructor|done]. Qed.

Lemma parse_step_ok st t st' :
  pstate_ok st → tok_ok t → parse_step st t = Some st' → pstate_ok st'.
Proof.
  destruct st as [stack m]. intros [Hs Hm] Ht. simpl in Hs.
  assert (Hval : value_step stack t = Some st' → pstate_ok st').
  { destruct t; simpl; try done; intros E; simplify_eq;
      try (apply push_value_ok; simpl; try done; by apply unquote_utf8).
    all: unfold open_frame in E; case_match; simplify_eq;
      split; [constructor; [|done]|done]; simpl; try constructor; auto using utf8_ok_nil. }
  assert (Hclose : close_step stack t = Some st' → pstate_ok st').
  { destruct Hs as [|[acc|acc k] s Hf Hs]; simpl in *; try done; destruct t; try done;
      intros E; simplify_eq; apply push_value_ok; try done; simpl;
      apply foldr_Forall, Forall_rev; [done|by destruct Hf]. }
  assert (Hkey : key_step stack t = Some st' → pstate_ok st').
  { destruct Hs as [|[acc|acc k] s Hf Hs]; simpl in *; try done; destruct t; try done.
    intros E; simplify_eq. destruct Hf. split; [|done].
    constructor; [|done]. split; [done|by apply unquote_utf8]. }
  destruct m; simpl; auto.
  - destruct t; auto.
  - destruct t; auto.
  - destruct t; try done. intros [= <-]. by split.
  - destruct t; auto. destruct stack as [|[acc|acc k] s]; auto; intros [= <-]; by split.
  - done.
Qed.

(** A parsed text holds only valid UTF-8 strings. *)
Lemma json_parse_strings_ok l v :
  Forall byte_ok l → json_parse l = Some v → strings_ok v.
Proof.
  intros Hl. unfold json_parse. destruct (lex LTop l) as [ts|] eqn:E; [|done].
  apply lex_tokens_ok in E; [|done..]. unfold parse_tokens.
  assert (Hrun : ∀ st st', Forall tok_ok ts → pstate_ok st →
                           parse_run st ts = Some st' → pstate_ok st').
  { clear. induction ts as [|t ts IH]; simpl; intros st st' Hts Hst.
    { by intros [= <-]. }
    apply Forall_cons_1 in Hts as [? ?].
    destruct (parse_step st t) eqn:E; [|done].
    apply IH; [done|]. by eapply parse_step_ok. }
  destruct (parse_run ([], MVal) ts) as [[stack [| | | | | |v']]|] eqn:E2; try done.
  intros [= <-]. apply Hrun in E2; [by destruct E2|done|]. by split.
Qed.
