(* ===== verification/Sha256.v ===== *)
(** Go's [crypto/sha256] (FIPS 180-4): [sha256.Sum256] on 32-bit words. *)

From S2P Require Import Prelude GoLib.

Definition w32 (z : Z) : Z := Z.land z 4294967295.

Definition rotr (x n : Z) : Z := Z.lor (Z.shiftr x n) (w32 (Z.shiftl x (32 - n))).

Definition ch (x y z : Z) : Z := Z.lxor (Z.land x y) (Z.land (Z.lxor x 4294967295) z).
Definition maj (x y z : Z) : Z := Z.lxor (Z.lxor (Z.land x y) (Z.land x z)) (Z.land y z).
Definition big_sigma0 (x : Z) : Z := Z.lxor (Z.lxor (rotr x 2) (rotr x 13)) (rotr x 22).
Definition big_sigma1 (x : Z) : Z := Z.lxor (Z.lxor (rotr x 6) (rotr x 11)) (rotr x 25).
Definition small_sigma0 (x : Z) : Z := Z.lxor (Z.lxor (rotr x 7) (rotr x 18)) (Z.shiftr x 3).
Definition small_sigma1 (x : Z) : Z := Z.lxor (Z.lxor (rotr x 17) (rotr x 19)) (Z.shiftr x 10).

(** The constants are the first 32 bits of the fractional parts of the cube
    and square roots of the first primes, computed from that definition. *)
Definition divides_none (ps : list Z) (n : Z) : bool :=
  forallb (λ p, negb (n mod p =? 0)) ps.

Fixpoint primes_upto (fuel : nat) (n : Z) (ps : list Z) : list Z :=
  match fuel with
  | O => ps
  | S f => primes_upto f (n + 1) (if divides_none ps n then ps ++ [n] else ps)
  end.

(** The largest root whose cube is at most [n], from its [k] low bits. *)
Fixpoint cube_root (k : nat) (r n : Z) : Z :=
  match k with
  | O => r
  | S k' =>
      let r' := r + 2 ^ Z.of_nat k' in
      cube_root k' (if r' * r' * r' <=? n then r' else r) n
  end.

Definition small_primes : list Z := Eval vm_compute in primes_upto 310 2 [].

Definition round_constants : list Z :=
  Eval vm_compute in map (λ p, w32 (cube_root 40 0 (p * 2 ^ 96))) (take 64 small_primes).

Definition initial_hash : list Z :=
  Eval vm_compute in map (λ p, w32 (Z.sqrt (p * 2 ^ 64))) (take 8 small_primes).

(** [n] further schedule words after a window of the last sixteen. *)
Fixpoint schedule (n : nat) (w : list Z) : list Z :=
  match n with
  | O => []
  | S n' =>
      let next := w32 (small_sigma1 (nth 14 w 0) + nth 9 w 0
                       + small_sigma0 (nth 1 w 0) + nth 0 w 0) in
      next :: schedule n' (tail w ++ [next])
  end.

Definition round (st : list Z) (kw : Z * Z) : list Z :=
  match st with
  | [a; b; c; d; e; f; g; h] =>
      let t1 := h + big_sigma1 e + ch e f g + kw.1 + kw.2 in
      let t2 := big_sigma0 a + maj a b c in
      [w32 (t1 + t2); a; b; c; w32 (d + t1); e; f; g]
  | _ => st
  end.

Definition compress (st block : list Z) : list Z :=
  let ws := block ++ schedule 48 block in
  zip_with (λ x y, w32 (x + y)) st (foldl round st (zip round_constants ws)).

(** Big-endian 32-bit words of a byte string. *)
Fixpoint words (l : list Z) : list Z :=
  match l with
  | a :: b :: c :: d :: l' => (a * 16777216 + b * 65536 + c * 256 + d) :: words l'
  | _ => []
  end.

Fixpoint be_bytes (n : nat) (z : Z) : list Z :=
  match n with
  | O => []
  | S n' => be_bytes n' (z / 256) ++ [z mod 256]
  end.

Definition padding (len : nat) : list Z :=
  128 :: repeat 0 (Z.to_nat ((55 - Z.of_nat len) mod 64))
  ++ be_bytes 8 (Z.of_nat len * 8).

(** Hash the first [n] sixteen-word blocks of [ws]. *)
Fixpoint blocks (n : nat) (st ws : list Z) : list Z :=
  match n with
  | O => st
  | S n' => blocks n' (compress st (take 16 ws)) (drop 16 ws)
  end.

Definition sha256 (msg : list Z) : list Z :=
  let ws := words (msg ++ padding (length msg)) in
  concat (map (be_bytes 4) (blocks (length ws / 16) initial_hash ws)).

(** * FIPS 180-4 test vectors *)

Example sha256_abc :
  str (hex_encode (sha256 (bytes "abc")))
  = "ba7816bf8f01cfea414140de5dae2223b00361a396177a9cb410ff61f20015ad".
Proof. vm_compute. reflexivity. Qed.

Example sha256_empty :
  str (hex_encode (sha256 []))
  = "e3b0c44298fc1c149afbf4c8996fb92427ae41e4649b934ca495991b7852b855".
Proof. vm_compute. reflexivity. Qed.

Example sha256_two_blocks :
  str (hex_encode (sha256 (bytes "abcdbcdecdefdefgefghfghighijhijkijkljklmklmnlmnomnopnopq")))
  = "248d6a61d20638b8e5c026930c3e6039a33ce45964ff2167f6ecedd419db06c1".
Proof. vm_compute. reflexivity. Qed.

#[global] Arguments sha256 : simpl never.
