(* ===== verification/NostrEvent.v ===== *)
(** The event validator, [internal/nostr/validator.go] and [types.go]: the
    four stages from payload bytes to a canonical event.

    The BIP-340 verifier (btcec) is a parameter; SHA-256, JSON and hex are the
    standard library's and are defined in their own files. *)

From S2P Require Import Prelude GoLib Json Sha256.

(** * Data *)

Record Event := mkEvent {
  ID : string;
  Pubkey : string;
  CreatedAt : Z;
  Kind : Z;
  Tags : list (list string);
  Content : string;
  Sig : string;
}.

Inductive Stage := StageStructural | StageCanonical | StageSignature | StageSafety.

Inductive ErrorCode :=
| ErrPayloadEmpty | ErrPayloadTooLarge | ErrInvalidJSON | ErrJSONNotObject
| ErrMissingField | ErrFieldTypeInvalid | ErrIDFormatInvalid | ErrPubkeyFormatInvalid
| ErrSigFormatInvalid | ErrCreatedAtInvalid | ErrKindInvalid | ErrTagsInvalid
| ErrCanonicalIDMismatch | ErrSignatureInvalid | ErrContentControlChars | ErrContentTooLarge.

#[export] Instance Stage_eq_dec : EqDecision Stage.
Proof. solve_decision. Defined.
#[export] Instance ErrorCode_eq_dec : EqDecision ErrorCode.
Proof. solve_decision. Defined.

(** The string constant behind each code. *)
Definition code_string (c : ErrorCode) : string :=
  match c with
  | ErrPayloadEmpty => "payload_empty"
  | ErrPayloadTooLarge => "payload_too_large"
  | ErrInvalidJSON => "invalid_json"
  | ErrJSONNotObject => "json_not_object"
  | ErrMissingField => "missing_field"
  | ErrFieldTypeInvalid => "field_type_invalid"
  | ErrIDFormatInvalid => "id_format_invalid"
  | ErrPubkeyFormatInvalid => "pubkey_format_invalid"
  | ErrSigFormatInvalid => "sig_format_invalid"
  | ErrCreatedAtInvalid => "created_at_invalid"
  | ErrKindInvalid => "kind_invalid"
  | ErrTagsInvalid => "tags_invalid"
  | ErrCanonicalIDMismatch => "canonical_id_mismatch"
  | ErrSignatureInvalid => "signature_invalid"
  | ErrContentControlChars => "content_control_chars"
  | ErrContentTooLarge => "content_too_large"
  end.

Record ValidationError := mkVErr {
  Code : ErrorCode;
  Message : string;
  VStage : Stage;
}.

(** The [Error] method of a validation error, on a pointer that may be nil. *)
Definition verr_text (e : option ValidationError) : string :=
  match e with
  | None => ""
  | Some e => code_string (Code e) +:+ ": " +:+ Message e
  end.

(** [Event] and [Err] are Go pointers, [RawJSON] a slice that may be nil. *)
Record ValidationResult := mkVRes {
  REvent : option Event;
  RRawJSON : option (list Z);
  RErr : option ValidationError;
}.

Definition Valid (r : ValidationResult) : bool :=
  match RErr r, REvent r with
  | None, Some _ => true
  | _, _ => false
  end.

Record Options := mkOptions {
  MaxRawJSONBytes : Z;
  MaxContentBytes : Z;
}.

Definition withDefaults (o : Options) : Options :=
  {| MaxRawJSONBytes := if MaxRawJSONBytes o <=? 0 then 256 * 1024 else MaxRawJSONBytes o;
     MaxContentBytes := if MaxContentBytes o <=? 0 then 64 * 1024 else MaxContentBytes o |}.

(** 2100-01-01T00:00:00Z. *)
Definition MaxUnixCreatedAt : Z := 4102444800.

(** The btcec/schnorr functions the validator calls. *)
Class SchnorrLib := {
  schnorr_key : Type;
  schnorr_signature : Type;
  schnorr_parse_pubkey : list Z → option schnorr_key;
  schnorr_parse_signature : list Z → option schnorr_signature;
  schnorr_verify : schnorr_signature → list Z → schnorr_key → bool;
}.

(** Stages return either a value or a validation error. *)
Definition vres (A : Type) : Type := (A + ValidationError)%type.

Definition vfail {A} (c : ErrorCode) (msg : string) (st : Stage) : vres A :=
  inr (mkVErr c msg st).

Definition vbind {A B} (r : vres A) (k : A → vres B) : vres B :=
  match r with inl a => k a | inr e => inr e end.

Notation "'vlet' x ':=' r 'in' k" := (vbind r (λ x, k))
  (at level 10, x name, r at level 100, k at level 200) : go_scope.
Local Open Scope go_scope.

(** * Stage 2 helpers *)

Definition lower_hex_char (c : Z) : bool :=
  ((48 <=? c) && (c <=? 57)) || ((97 <=? c) && (c <=? 102)).

Definition isLowerHex (s : string) (expectedLen : Z) : bool :=
  (go_len s =? expectedLen) && forallb lower_hex_char (bytes s).

Definition parseStringField (fields : gmap string json) (name : string) : vres string :=
  match fields !! name ≫= unmarshal_string with
  | Some v => inl v
  | None => vfail ErrFieldTypeInvalid ("field " +:+ name +:+ " must be a string") StageCanonical
  end.

Definition parseInt64Field (fields : gmap string json) (name : string) : vres Z :=
  match fields !! name ≫= unmarshal_int with
  | Some v => inl v
  | None => vfail ErrFieldTypeInvalid ("field " +:+ name +:+ " must be an integer") StageCanonical
  end.

(** [int] is 64 bits wide, so decoding into it is decoding into [int64]. *)
Definition parseIntField (fields : gmap string json) (name : string) : vres Z :=
  match fields !! name ≫= unmarshal_int with
  | Some v => inl v
  | None => vfail ErrFieldTypeInvalid ("field " +:+ name +:+ " must be an integer") StageCanonical
  end.

Definition index_text (i : nat) : string := str (itoa (Z.of_nat i)).

Fixpoint parseTagList (i : nat) (l : list json) : vres (list (list string)) :=
  match l with
  | [] => inl []
  | rawTag :: l' =>
      match unmarshal_strings rawTag with
      | None =>
          vfail ErrTagsInvalid
            ("tag at index " +:+ index_text i +:+ " must be an array of strings") StageCanonical
      | Some [] =>
          vfail ErrTagsInvalid
            ("tag at index " +:+ index_text i +:+ " must contain at least one string") StageCanonical
      | Some values => vlet rest := parseTagList (S i) l' in inl (values :: rest)
      end
  end.

Definition parseTags (raw : option json) : vres (list (list string)) :=
  match raw ≫= unmarshal_list with
  | None => vfail ErrFieldTypeInvalid "field tags must be an array" StageCanonical
  | Some l => parseTagList 0 l
  end.

(** [bytes.TrimRight(b, "\n")]. *)
Fixpoint trim_right_nl (l : list Z) : list Z :=
  match l with
  | [] => []
  | c :: l' =>
      match trim_right_nl l' with
      | [] => if c =? 10 then [] else [c]
      | r => c :: r
      end
  end.

(** The array [[0, pubkey, created_at, kind, tags, content]]. *)
Definition canonical_value (pubkey : string) (createdAt kind : Z) (tags : list (list string))
    (content : string) : json :=
  JArr [JNum (itoa 0); JStr (bytes pubkey); JNum (itoa createdAt); JNum (itoa kind);
        JArr (map (λ t, JArr (map (λ s, JStr (bytes s)) t)) tags); JStr (bytes content)].

(** [enc.Encode] appends a newline, which is then trimmed. *)
Definition marshalCanonical (pubkey : string) (createdAt kind : Z) (tags : list (list string))
    (content : string) : list Z :=
  trim_right_nl (json_encode (canonical_value pubkey createdAt kind tags content) ++ [10]).

Definition event_canonical (e : Event) : list Z :=
  marshalCanonical (Pubkey e) (CreatedAt e) (Kind e) (Tags e) (Content e).

Definition parseCanonical (fields : gmap string json) : vres Event :=
  vlet id := parseStringField fields "id" in
  vlet pubkey := parseStringField fields "pubkey" in
  vlet createdAt := parseInt64Field fields "created_at" in
  vlet kind := parseIntField fields "kind" in
  vlet tags := parseTags (fields !! "tags") in
  vlet content := parseStringField fields "content" in
  vlet sig := parseStringField fields "sig" in
  if negb (isLowerHex id 64) then
    vfail ErrIDFormatInvalid "id must be 64 lowercase hex characters" StageCanonical
  else if negb (isLowerHex pubkey 64) then
    vfail ErrPubkeyFormatInvalid "pubkey must be 64 lowercase hex characters" StageCanonical
  else if negb (isLowerHex sig 128) then
    vfail ErrSigFormatInvalid "sig must be 128 lowercase hex characters" StageCanonical
  else if createdAt <? 0 then
    vfail ErrCreatedAtInvalid "created_at must be a non-negative unix timestamp" StageCanonical
  else if MaxUnixCreatedAt <? createdAt then
    vfail ErrCreatedAtInvalid "created_at is out of range for a unix timestamp" StageCanonical
  else if kind <? 0 then
    vfail ErrKindInvalid "kind must be a non-negative integer" StageCanonical
  else if 65535 <? kind then
    vfail ErrKindInvalid "kind must be <= 65535" StageCanonical
  else
    let computedID := str (hex_encode (sha256 (marshalCanonical pubkey createdAt kind tags content))) in
    if bool_decide (computedID ≠ id) then
      vfail ErrCanonicalIDMismatch "id does not match canonical event hash" StageCanonical
    else inl (mkEvent id pubkey createdAt kind tags content sig).

(** * Stages 3 and 4 *)

(** The bytes [hex.DecodeString] returns, those before the first bad pair. *)
Fixpoint hex_decode_prefix (l : list Z) : list Z :=
  match l with
  | a :: b :: l' =>
      match hex_value a, hex_value b with
      | Some x, Some y => (x * 16 + y) :: hex_decode_prefix l'
      | _, _ => []
      end
  | _ => []
  end.

Section validator.
Context `{SchnorrLib}.

Definition verifySignature (event : Event) : option ValidationError :=
  let pubBytes := hex_decode_prefix (bytes (Pubkey event)) in
  let idBytes := hex_decode_prefix (bytes (ID event)) in
  let sigBytes := hex_decode_prefix (bytes (Sig event)) in
  match schnorr_parse_pubkey pubBytes with
  | None => Some (mkVErr ErrSignatureInvalid
                    "pubkey could not be parsed for schnorr verification" StageSignature)
  | Some pubkey =>
      match schnorr_parse_signature sigBytes with
      | None => Some (mkVErr ErrSignatureInvalid
                        "sig could not be parsed for schnorr verification" StageSignature)
      | Some signature =>
          if negb (schnorr_verify signature idBytes pubkey) then
            Some (mkVErr ErrSignatureInvalid
                    "signature does not verify against id and pubkey" StageSignature)
          else None
      end
  end.

Definition disallowed_control (b : Z) : bool :=
  (b <? 32) && negb (b =? 10) && negb (b =? 13) && negb (b =? 9).

Definition checkContentSafety (event : Event) (opts : Options) : option ValidationError :=
  if MaxContentBytes opts <? go_len (Content event) then
    Some (mkVErr ErrContentTooLarge
            ("content exceeds " +:+ str (itoa (MaxContentBytes opts)) +:+ " bytes") StageSafety)
  else if existsb disallowed_control (bytes (Content event)) then
    Some (mkVErr ErrContentControlChars
            "content contains disallowed control characters" StageSafety)
  else None.

Definition required_fields : list string :=
  ["id"; "pubkey"; "created_at"; "kind"; "tags"; "content"; "sig"].

(** The first required field that is absent. *)
Fixpoint first_missing (fields : gmap string json) (keys : list string) : option string :=
  match keys with
  | [] => None
  | k :: keys' =>
      match fields !! k with
      | None => Some k
      | Some _ => first_missing fields keys'
      end
  end.

Definition structural_error (c : ErrorCode) (msg : string) : ValidationResult :=
  mkVRes None None (Some (mkVErr c msg StageStructural)).

Definition ParseAndValidate (payload : list Z) (options : Options) : ValidationResult :=
  let opts := withDefaults options in
  if Z.of_nat (length payload) =? 0 then
    structural_error ErrPayloadEmpty "payload is empty"
  else if MaxRawJSONBytes opts <? Z.of_nat (length payload) then
    structural_error ErrPayloadTooLarge
      ("payload exceeds " +:+ str (itoa (MaxRawJSONBytes opts)) +:+ " bytes")
  else
    let trimmed := trim_bytes payload in
    match json_parse trimmed with
    | None => structural_error ErrInvalidJSON "payload is not valid JSON"
    | Some v =>
        match unmarshal_object v with
        | None => structural_error ErrJSONNotObject "payload must be a JSON object"
        | Some fields =>
            match first_missing fields required_fields with
            | Some key =>
                mkVRes None (Some trimmed)
                  (Some (mkVErr ErrMissingField ("missing required field: " +:+ key) StageStructural))
            | None =>
                match parseCanonical fields with
                | inr err => mkVRes None (Some trimmed) (Some err)
                | inl event =>
                    match verifySignature event with
                    | Some err => mkVRes None (Some trimmed) (Some err)
                    | None =>
                        match checkContentSafety event opts with
                        | Some err => mkVRes None (Some trimmed) (Some err)
                        | None => mkVRes (Some event) (Some trimmed) None
                        end
                    end
                end
            end
        end
    end.
End validator.

(** * Specification *)

Section spec.
Context `{SchnorrLib}.

(** What an event must satisfy to be canonical (NIP-01, and the content
    limits of the options). *)
Record event_ok (options : Options) (e : Event) : Prop := {
  ok_id : isLowerHex (ID e) 64 = true;
  ok_pubkey : isLowerHex (Pubkey e) 64 = true;
  ok_sig : isLowerHex (Sig e) 128 = true;
  ok_created_at : 0 ≤ CreatedAt e ≤ MaxUnixCreatedAt;
  ok_kind : 0 ≤ Kind e ≤ 65535;
  ok_tags : Forall (λ t, t ≠ []) (Tags e);
  ok_hash : bytes (ID e) = hex_encode (sha256 (event_canonical e));
  ok_signature : ∃ k s,
    schnorr_parse_pubkey (hex_decode_prefix (bytes (Pubkey e))) = Some k ∧
    schnorr_parse_signature (hex_decode_prefix (bytes (Sig e))) = Some s ∧
    schnorr_verify s (hex_decode_prefix (bytes (ID e))) k = true;
  ok_content_len : go_len (Content e) ≤ MaxContentBytes (withDefaults options);
  ok_content_chars :
    Forall (λ b, 32 ≤ b ∨ b = 9 ∨ b = 10 ∨ b = 13) (bytes (Content e));
}.
End spec.

(** The text fields of an event are valid UTF-8. *)
Definition event_utf8 (e : Event) : Prop :=
  utf8_ok (bytes (ID e)) ∧ utf8_ok (bytes (Pubkey e)) ∧ utf8_ok (bytes (Content e)) ∧
  utf8_ok (bytes (Sig e)) ∧ Forall (Forall (λ s, utf8_ok (bytes s))) (Tags e).

(** The JSON object an event is written as. *)
Definition event_value (e : Event) : json :=
  JObj [(bytes "id", JStr (bytes (ID e)));
        (bytes "pubkey", JStr (bytes (Pubkey e)));
        (bytes "created_at", JNum (itoa (CreatedAt e)));
        (bytes "kind", JNum (itoa (Kind e)));
        (bytes "tags", JArr (map (λ t, JArr (map (λ s, JStr (bytes s)) t)) (Tags e)));
        (bytes "content", JStr (bytes (Content e)));
        (bytes "sig", JStr (bytes (Sig e)))].

Definition event_payload (e : Event) : list Z := json_encode (event_value e).

(** NIP-01's serialization: only these seven characters are escaped. *)
Definition nip01_char (b : Z) : list Z :=
  if b =? 10 then [92; 110] else if b =? 34 then [92; 34] else if b =? 92 then [92; 92]
  else if b =? 13 then [92; 114] else if b =? 9 then [92; 116]
  else if b =? 8 then [92; 98] else if b =? 12 then [92; 102]
  else [b].

Definition nip01_quote (s : string) : list Z :=
  34 :: concat (map nip01_char (bytes s)) ++ [34].

Definition nip01_tag (t : list string) : list Z :=
  91 :: sep_concat [44] (map nip01_quote t) ++ [93].

Definition nip01_serialize (e : Event) : list Z :=
  91 :: sep_concat [44]
    [itoa 0; nip01_quote (Pubkey e); itoa (CreatedAt e); itoa (Kind e);
     91 :: sep_concat [44] (map nip01_tag (Tags e)) ++ [93];
     nip01_quote (Content e)] ++ [93].

(** Text on which the encoder and NIP-01 agree: valid UTF-8 without control
    characters outside the seven escapes, U+2028 and U+2029. *)
Definition plain_rune (r : Z) : bool :=
  ((32 <=? r) || (r =? 8) || (r =? 9) || (r =? 10) || (r =? 12) || (r =? 13))
  && negb (r =? 8232) && negb (r =? 8233).

Definition plain_text (s : string) : Prop :=
  utf8_ok (bytes s) ∧ Forall (λ r, plain_rune r = true) (runes (bytes s)).

(** * Lemmas *)

Lemma isLowerHex_spec s n :
  isLowerHex s n = true ↔
  go_len s = n ∧ Forall (λ c, lower_hex_char c = true) (bytes s).
Proof.
  unfold isLowerHex. rewrite andb_true_iff, Z.eqb_eq, forallb_forall.
  by rewrite List.Forall_forall.
Qed.

Lemma trim_right_nl_snoc l c : c ≠ 10 → trim_right_nl (l ++ [c; 10]) = l ++ [c].
Proof.
  intros Hc. induction l as [|x l IH]; simpl.
  { by rewrite (proj2 (Z.eqb_neq c 10)). }
  rewrite IH. by destruct (l ++ [c]) eqn:E; [destruct l|].
Qed.

Lemma marshalCanonical_encode p c k t ct :
  marshalCanonical p c k t ct = json_encode (canonical_value p c k t ct).
Proof.
  unfold marshalCanonical, canonical_value. cbn [json_encode].
  match goal with |- trim_right_nl ((91 :: ?x ++ [93]) ++ [10]) = _ =>
    change (91 :: x ++ [93]) with ((91 :: x) ++ [93]) end.
  rewrite <-app_assoc. by apply trim_right_nl_snoc.
Qed.

Lemma tags_wf n tags :
  Forall (Forall (λ s, utf8_ok (bytes s))) tags →
  json_wf (S (S n)) (JArr (map (λ t, JArr (map (λ s, JStr (bytes s)) t)) tags)).
Proof.
  intros Ht. simpl. rewrite List.Forall_map. revert Ht. apply Forall_impl.
  intros t Ht. simpl. rewrite List.Forall_map. revert Ht. apply Forall_impl.
  by destruct n.
Qed.

Lemma canonical_wf p c k t ct :
  utf8_ok (bytes p) → utf8_ok (bytes ct) →
  Forall (Forall (λ s, utf8_ok (bytes s))) t → in_i64 c = true → in_i64 k = true →
  json_wf 3 (canonical_value p c k t ct).
Proof.
  intros Hp Hct Ht Hc Hk. unfold canonical_value.
  repeat apply Forall_cons_2; try apply Forall_nil_2; try done;
    try (by apply itoa_num_ok). exact (tags_wf 0 t Ht).
Qed.

Lemma itoa_inj a b : in_i64 a = true → in_i64 b = true → itoa a = itoa b → a = b.
Proof.
  intros Ha Hb E. apply parse_int_itoa in Ha, Hb. congruence.
Qed.

Lemma map_bytes_inj (t t' : list string) :
  map (λ s, JStr (bytes s)) t = map (λ s, JStr (bytes s)) t' → t = t'.
Proof.
  revert t'. induction t as [|s t IH]; intros [|s' t']; simpl; try done.
  intros [= Hs Ht]. apply bytes_inj in Hs as ->. by rewrite (IH _ Ht).
Qed.

Lemma map_tags_inj (t t' : list (list string)) :
  map (λ t, JArr (map (λ s, JStr (bytes s)) t)) t
  = map (λ t, JArr (map (λ s, JStr (bytes s)) t)) t' → t = t'.
Proof.
  revert t'. induction t as [|s t IH]; intros [|s' t']; simpl; try done.
  intros [= Hs Ht]. apply map_bytes_inj in Hs as ->. by rewrite (IH _ Ht).
Qed.

Lemma canonical_roundtrip p c k t ct :
  utf8_ok (bytes p) → utf8_ok (bytes ct) →
  Forall (Forall (λ s, utf8_ok (bytes s))) t → in_i64 c = true → in_i64 k = true →
  json_parse (json_encode (canonical_value p c k t ct)) = Some (canonical_value p c k t ct).
Proof.
  intros. apply (json_parse_encode 3); [by apply canonical_wf|done|left; by eexists].
Qed.

(** The canonical serialization determines every field it covers. *)
Lemma marshalCanonical_inj p c k t ct p' c' k' t' ct' :
  utf8_ok (bytes p) → utf8_ok (bytes ct) → Forall (Forall (λ s, utf8_ok (bytes s))) t →
  utf8_ok (bytes p') → utf8_ok (bytes ct') → Forall (Forall (λ s, utf8_ok (bytes s))) t' →
  in_i64 c = true → in_i64 k = true → in_i64 c' = true → in_i64 k' = true →
  marshalCanonical p c k t ct = marshalCanonical p' c' k' t' ct' →
  p = p' ∧ c = c' ∧ k = k' ∧ t = t' ∧ ct = ct'.
Proof.
  intros Hp Hct Ht Hp' Hct' Ht' Hc Hk Hc' Hk'. rewrite !marshalCanonical_encode. intros E.
  assert (Some (canonical_value p c k t ct) = Some (canonical_value p' c' k' t' ct')) as Hv.
  { rewrite <-!canonical_roundtrip by done. by rewrite E. }
  unfold canonical_value in Hv. injection Hv as Hp1 Hc1 Hk1 Ht1 Hct1.
  apply bytes_inj in Hp1, Hct1. apply itoa_inj in Hc1, Hk1; [|done..].
  apply map_tags_inj in Ht1. done.
Qed.

(** ** Stage inversion *)

Lemma parseStringField_inv fields name v :
  parseStringField fields name = inl v →
  ∃ j, fields !! name = Some j ∧ unmarshal_string j = Some v.
Proof.
  unfold parseStringField. destruct (fields !! name) as [j|] eqn:E; simpl; [|done].
  destruct (unmarshal_string j) eqn:E2; [|done]. intros [= ->]. eauto.
Qed.

Lemma parseTagList_inv i l tags :
  parseTagList i l = inl tags →
  Forall2 (λ j t, unmarshal_strings j = Some t ∧ t ≠ []) l tags.
Proof.
  revert i tags. induction l as [|j l IH]; intros i tags; simpl.
  { intros [= <-]. constructor. }
  destruct (unmarshal_strings j) as [[|s t]|] eqn:E; [done| |done].
  destruct (parseTagList (S i) l) as [rest|] eqn:E2; simpl; [|done].
  intros [= <-]. constructor; [done|]. by eapply IH.
Qed.

(** Everything a successful canonical stage has established. *)
Record canonical_stage (fields : gmap string json) (e : Event) : Prop := {
  cs_id : ∃ j, fields !! "id" = Some j ∧ unmarshal_string j = Some (ID e);
  cs_pubkey : ∃ j, fields !! "pubkey" = Some j ∧ unmarshal_string j = Some (Pubkey e);
  cs_content : ∃ j, fields !! "content" = Some j ∧ unmarshal_string j = Some (Content e);
  cs_sig : ∃ j, fields !! "sig" = Some j ∧ unmarshal_string j = Some (Sig e);
  cs_tags : ∃ j l, fields !! "tags" = Some j ∧ unmarshal_list j = Some l ∧
                   Forall2 (λ j t, unmarshal_strings j = Some t ∧ t ≠ []) l (Tags e);
  cs_hex : isLowerHex (ID e) 64 = true ∧ isLowerHex (Pubkey e) 64 = true ∧
           isLowerHex (Sig e) 128 = true;
  cs_range : 0 ≤ CreatedAt e ≤ MaxUnixCreatedAt ∧ 0 ≤ Kind e ≤ 65535;
  cs_hash : str (hex_encode (sha256 (event_canonical e))) = ID e;
}.

Lemma parseCanonical_inv fields e :
  parseCanonical fields = inl e → canonical_stage fields e.
Proof.
  unfold parseCanonical.
  destruct (parseStringField fields "id") as [id|] eqn:E1; cbn [vbind]; [|done].
  destruct (parseStringField fields "pubkey") as [pk|] eqn:E2; cbn [vbind]; [|done].
  destruct (parseInt64Field fields "created_at") as [ca|] eqn:E3; cbn [vbind]; [|done].
  destruct (parseIntField fields "kind") as [k|] eqn:E4; cbn [vbind]; [|done].
  destruct (parseTags (fields !! "tags")) as [tags|] eqn:E5; cbn [vbind]; [|done].
  destruct (parseStringField fields "content") as [ct|] eqn:E6; cbn [vbind]; [|done].
  destruct (parseStringField fields "sig") as [sg|] eqn:E7; cbn [vbind]; [|done].
  apply parseStringField_inv in E1, E2, E6, E7.
  unfold parseTags in E5. destruct (fields !! "tags") as [j|] eqn:Ej; simpl in E5; [|done].
  destruct (unmarshal_list j) as [l|] eqn:El; [|done]. apply parseTagList_inv in E5.
  intros E. split_ifs_in E; simplify_eq. bool_simpl.
  split; simpl; eauto 10; try done.
  match goal with H : ¬ _ ≠ _ |- _ => apply dec_stable in H; exact H end.
Qed.

Section validator_lemmas.
Context `{SchnorrLib}.

Lemma ParseAndValidate_inv payload options e :
  REvent (ParseAndValidate payload options) = Some e →
  ParseAndValidate payload options = mkVRes (Some e) (Some (trim_bytes payload)) None ∧
  Z.of_nat (length payload) ≤ MaxRawJSONBytes (withDefaults options) ∧
  ∃ v fields, json_parse (trim_bytes payload) = Some v ∧ unmarshal_object v = Some fields ∧
    canonical_stage fields e ∧ verifySignature e = None ∧
    checkContentSafety e (withDefaults options) = None.
Proof.
  unfold ParseAndValidate, structural_error.
  destruct (_ =? 0); [done|]. destruct (_ <? _) eqn:Hmax; [done|].
  destruct (json_parse (trim_bytes payload)) as [v|] eqn:Ej; [|done].
  destruct (unmarshal_object v) as [fields|] eqn:Eo; [|done].
  destruct (first_missing fields required_fields); [done|].
  destruct (parseCanonical fields) as [e'|] eqn:Ec; [|done].
  destruct (verifySignature e') eqn:Ev; [done|].
  destruct (checkContentSafety e' (withDefaults options)) eqn:Es; [done|].
  simpl. intros [= ->]. apply Z.ltb_ge in Hmax. split; [done|]. split; [done|].
  exists v, fields. split_and!; try done. by apply parseCanonical_inv.
Qed.

Lemma verifySignature_None e :
  verifySignature e = None →
  ∃ k s, schnorr_parse_pubkey (hex_decode_prefix (bytes (Pubkey e))) = Some k ∧
         schnorr_parse_signature (hex_decode_prefix (bytes (Sig e))) = Some s ∧
         schnorr_verify s (hex_decode_prefix (bytes (ID e))) k = true.
Proof.
  unfold verifySignature. intros E.
  destruct (schnorr_parse_pubkey _) as [k|]; [|done].
  destruct (schnorr_parse_signature _) as [s|]; [|done].
  split_ifs_in E; [done|]. bool_simpl. eauto.
Qed.

Lemma checkContentSafety_None e opts :
  checkContentSafety e opts = None ↔
  go_len (Content e) ≤ MaxContentBytes opts ∧
  Forall (λ b, 32 ≤ b ∨ b = 9 ∨ b = 10 ∨ b = 13) (bytes (Content e)).
Proof.
  unfold checkContentSafety. rewrite List.Forall_forall. case_match; bool_simpl.
  { split; [done|lia]. }
  destruct (existsb _ _) eqn:E.
  - apply existsb_exists in E as (b & Hb & Hd). unfold disallowed_control in Hd. bool_simpl.
    split; [done|]. intros [_ Hall]. specialize (Hall b Hb). lia.
  - split; [|done]. intros _. split; [lia|]. intros b Hb.
    destruct (decide (32 ≤ b ∨ b = 9 ∨ b = 10 ∨ b = 13)) as [|Hn]; [done|].
    enough (existsb disallowed_control (bytes (Content e)) = true) by congruence.
    apply existsb_exists. exists b. split; [done|]. unfold disallowed_control.
    rewrite !andb_true_iff, !negb_true_iff, Z.ltb_lt, !Z.eqb_neq. lia.
Qed.
End validator_lemmas.

(** ** Decoded fields are valid UTF-8 *)

Lemma unmarshal_object_ok v fields :
  strings_ok v → unmarshal_object v = Some fields →
  map_Forall (λ _ j, strings_ok j) fields.
Proof.
  destruct v as [| | | | |ms]; try done.
  { intros _ [= <-]. apply map_Forall_empty. }
  intros Hms [= <-]. simpl in Hms.
  apply (foldr_Forall (λ kv : list Z * json, utf8_ok kv.1 ∧ strings_ok kv.2)) in Hms.
  assert (Hm : map_Forall (λ _ j, strings_ok j) (∅ : gmap string json))
    by apply map_Forall_empty.
  revert Hm. generalize (∅ : gmap string json).
  induction Hms as [|[k j] ms [_ Hj] _ IH]; intros m Hm; simpl; [done|].
  apply IH. by apply map_Forall_insert_2.
Qed.

Lemma unmarshal_string_utf8 j s :
  strings_ok j → unmarshal_string j = Some s → utf8_ok (bytes s).
Proof.
  destruct j; try done; simpl; intros Hj [= <-].
  - apply utf8_ok_nil.
  - rewrite bytes_str by apply Hj. done.
Qed.

Lemma unmarshal_strings_utf8 j t :
  strings_ok j → unmarshal_strings j = Some t → Forall (λ s, utf8_ok (bytes s)) t.
Proof.
  unfold unmarshal_strings. destruct j as [| | | |vs|]; try done; simpl.
  { intros _ [= <-]. constructor. }
  intros Hvs. apply (foldr_Forall strings_ok) in Hvs. revert t.
  induction Hvs as [|v vs Hv _ IH]; intros t; simpl.
  { intros [= <-]. constructor. }
  destruct (unmarshal_string v) eqn:E; [|done].
  destruct (all_some unmarshal_string vs); [|done]. intros [= <-].
  constructor; [by eapply unmarshal_string_utf8|]. by apply IH.
Qed.

Lemma canonical_stage_utf8 fields e :
  map_Forall (λ _ j, strings_ok j) fields → canonical_stage fields e → event_utf8 e.
Proof.
  intros Hf [(j1&?&?) (j2&?&?) (j3&?&?) (j4&?&?) (j5&l&Hj5&Hl&Ht) _ _ _].
  split_and!; try (eapply unmarshal_string_utf8; [|done]; by eapply Hf).
  assert (Forall strings_ok l) as Hok.
  { specialize (Hf _ _ Hj5). destruct j5; simplify_eq/=; try constructor.
    by apply (foldr_Forall strings_ok). }
  clear Hl. induction Ht as [|j t l tags [Hs _] _ IH]; [constructor|].
  apply Forall_cons_1 in Hok as [? ?]. constructor; [|auto].
  by eapply unmarshal_strings_utf8.
Qed.

(** ** Encoded events are accepted *)

Lemma be_bytes_ok n z : Forall byte_ok (be_bytes n z).
Proof.
  revert z. induction n as [|n IH]; intros z; simpl; [constructor|].
  apply Forall_app. split; [apply IH|]. constructor; [|constructor].
  apply Z.mod_pos_bound. done.
Qed.

Lemma sha256_ok msg : Forall byte_ok (sha256 msg).
Proof.
  unfold sha256. induction (blocks _ _ _) as [|w ws IH]; cbn [map concat]; [constructor|].
  apply Forall_app. split; [apply be_bytes_ok|done].
Qed.

Lemma hex_digit_ok n : 0 ≤ n < 16 → byte_ok (hex_digit n) ∧ hex_value (hex_digit n) = Some n.
Proof.
  intros Hn.
  assert (n = 0 ∨ n = 1 ∨ n = 2 ∨ n = 3 ∨ n = 4 ∨ n = 5 ∨ n = 6 ∨ n = 7 ∨ n = 8 ∨ n = 9 ∨
          n = 10 ∨ n = 11 ∨ n = 12 ∨ n = 13 ∨ n = 14 ∨ n = 15) as Hc by lia.
  repeat (destruct Hc as [Hc|Hc]; [subst; split; done|]); subst; split; done.
Qed.

Lemma nibbles_ok b : byte_ok b → 0 ≤ b / 16 < 16 ∧ 0 ≤ b mod 16 < 16.
Proof.
  unfold byte_ok. intros. Z.div_mod_to_equations. lia.
Qed.

Lemma hex_encode_ok l : Forall byte_ok l → Forall byte_ok (hex_encode l).
Proof.
  induction 1 as [|b l Hb _ IH]; simpl; [constructor|].
  apply nibbles_ok in Hb as [Hh Hl].
  apply Forall_cons_2; [by apply hex_digit_ok|].
  apply Forall_cons_2; [by apply hex_digit_ok|done].
Qed.

(** Hex encoding is undone by decoding. *)
Lemma hex_decode_encode l : Forall byte_ok l → hex_decode (hex_encode l) = Some l.
Proof.
  induction 1 as [|b l Hb _ IH]; simpl; [done|].
  apply nibbles_ok in Hb as Hn. destruct Hn as [Hh Hl].
  rewrite (proj2 (hex_digit_ok _ Hh)), (proj2 (hex_digit_ok _ Hl)), IH. do 2 f_equal.
  rewrite (Z.div_mod b 16) at 3; lia.
Qed.

Lemma hex_encode_inj l l' :
  Forall byte_ok l → Forall byte_ok l' → hex_encode l = hex_encode l' → l = l'.
Proof.
  intros Hl Hl' E. apply hex_decode_encode in Hl, Hl'. congruence.
Qed.

Lemma event_value_wf e :
  event_utf8 e → in_i64 (CreatedAt e) = true → in_i64 (Kind e) = true →
  json_wf 3 (event_value e).
Proof.
  intros (?&?&?&?&?) ??. unfold event_value.
  repeat apply Forall_cons_2; try apply Forall_nil_2;
    (split; [split; [apply bytes_range|reflexivity]|]); try done;
    try (by apply itoa_num_ok). by apply (tags_wf 0).
Qed.

Lemma trim_left_brace l : trim_left (123 :: l) = 123 :: l.
Proof. by destruct l as [|b [|c l]]. Qed.

Lemma trim_left_rev_brace l : trim_left_rev (125 :: l) = 125 :: l.
Proof.
  destruct l as [|b [|c l]]; simpl; try done.
  - unfold space2. by rewrite andb_false_r.
  - unfold space2. rewrite andb_false_r.
    unfold space3. by rewrite !andb_false_r.
Qed.

Lemma trim_bytes_braces l : trim_bytes (123 :: l ++ [125]) = 123 :: l ++ [125].
Proof.
  unfold trim_bytes. rewrite trim_left_brace. change (123 :: l ++ [125]) with ((123 :: l) ++ [125]).
  rewrite rev_unit, trim_left_rev_brace, <-rev_unit. apply rev_involutive.
Qed.

Lemma parseTagList_complete i tags :
  Forall (λ t, t ≠ []) tags →
  parseTagList i (map (λ t, JArr (map (λ s, JStr (bytes s)) t)) tags) = inl tags.
Proof.
  intros Ht. revert i. induction Ht as [|t tags Hne _ IH]; intros i; [done|].
  cbn [map parseTagList].
  assert (unmarshal_strings (JArr (map (λ s, JStr (bytes s)) t)) = Some t) as ->.
  { clear. unfold unmarshal_strings. induction t as [|s t IHt]; [done|].
    cbn [map all_some]. simpl in *. rewrite IHt. by rewrite str_bytes. }
  destruct t; [done|]. by rewrite IH.
Qed.

Section validator_completeness.
Context `{SchnorrLib}.

(** The fields of a written event come back from the parse. *)
Lemma parseCanonical_event_value options e :
  event_ok options e →
  ∃ fields, unmarshal_object (event_value e) = Some fields ∧
    first_missing fields required_fields = None ∧ parseCanonical fields = inl e.
Proof.
  intros [Hid Hpk Hsg Hca Hk Htags Hhash _ _ _]. destruct e as [id pk ca k tags ct sg].
  unfold event_canonical in Hhash. cbn [ID Pubkey CreatedAt Kind Tags Content Sig] in *.
  eexists. split; [reflexivity|]. split; [reflexivity|].
  match goal with |- parseCanonical ?m = _ => set (fields := m) end.
  assert (fields !! "id" = Some (JStr (bytes id))) as E1 by reflexivity.
  assert (fields !! "pubkey" = Some (JStr (bytes pk))) as E2 by reflexivity.
  assert (fields !! "created_at" = Some (JNum (itoa ca))) as E3 by reflexivity.
  assert (fields !! "kind" = Some (JNum (itoa k))) as E4 by reflexivity.
  assert (fields !! "tags" = Some (JArr (map (λ t, JArr (map (λ s, JStr (bytes s)) t)) tags)))
    as E5 by reflexivity.
  assert (fields !! "content" = Some (JStr (bytes ct))) as E6 by reflexivity.
  assert (fields !! "sig" = Some (JStr (bytes sg))) as E7 by reflexivity.
  clearbody fields. unfold parseCanonical, parseStringField, parseInt64Field, parseIntField, parseTags.
  rewrite E1, E2, E3, E4, E5, E6, E7.
  cbn [mbind option_bind unmarshal_string unmarshal_int unmarshal_list vbind].
  unfold MaxUnixCreatedAt in *.
  rewrite !parse_int_itoa by (unfold in_i64, min_int64, max_int64, two63; lia).
  cbn [vbind]. rewrite parseTagList_complete, !str_bytes by done. cbn [vbind].
  rewrite Hid, Hpk, Hsg. cbn [negb].
  rewrite !(proj2 (Z.ltb_ge _ _)) by lia.
  rewrite bool_decide_eq_false_2; [done|].
  rewrite <-Hhash, str_bytes. auto.
Qed.

Lemma checks_event_ok options e :
  event_ok options e →
  verifySignature e = None ∧ checkContentSafety e (withDefaults options) = None.
Proof.
  intros [? ? ? ? ? ? ? (k & s & Hk & Hs & Hv) ? ?]. split.
  - unfold verifySignature. by rewrite Hk, Hs, Hv.
  - by apply checkContentSafety_None.
Qed.
End validator_completeness.

(** ** Agreement with NIP-01's serialization *)

Lemma nip01_high l : Forall (λ b, 128 ≤ b) l → concat (map nip01_char l) = l.
Proof.
  induction 1 as [|b l Hb _ IH]; [done|]. cbn [map concat]. rewrite IH.
  unfold nip01_char. by rewrite !(proj2 (Z.eqb_neq _ _)) by lia.
Qed.

Lemma second_ok_high a b : second_ok a b = true → 128 ≤ b.
Proof. unfold second_ok, is_cont. intros E. split_ifs_in E; bool_simpl; lia. Qed.

Lemma plain_rune_quote r :
  valid_rune r = true → plain_rune r = true →
  quote_rune r = concat (map nip01_char (encode_rune r)).
Proof.
  intros V Hp. destruct (Z.lt_ge_cases r 128) as [Hlt|Hge].
  - assert (0 ≤ r < 128) as Hr by (apply valid_rune_spec in V; lia).
    clear V Hlt. revert r Hr Hp. apply (ascii_codes (λ r, plain_rune r = true → _)).
    repeat constructor; done.
  - unfold plain_rune in Hp. bool_simpl. unfold quote_rune.
    rewrite (proj2 (Z.ltb_ge _ _)), !(proj2 (Z.eqb_neq r _)) by lia. simpl.
    symmetry. apply nip01_high. rune_cases V; [lia|..];
      unfold is_lead2, is_lead3, is_lead4, is_cont in *; bool_simpl;
      try match goal with E : second_ok _ _ = true |- _ => apply second_ok_high in E end; repeat (apply Forall_cons_2; [lia|]); apply Forall_nil_2.
Qed.

Lemma plain_quote s : plain_text s → quote (bytes s) = nip01_quote s.
Proof.
  intros [[Hb Henc] Hp]. unfold quote, nip01_quote. do 2 f_equal.
  apply runes_valid in Hb. rewrite <-Henc. unfold encode_runes.
  clear Henc. induction (runes (bytes s)) as [|r rs IH]; [done|].
  apply Forall_cons_1 in Hb as [Hr Hrs]. apply Forall_cons_1 in Hp as [Hpr Hps].
  cbn [map concat]. rewrite quote_body_rune, map_app, concat_app by done.
  rewrite plain_rune_quote by done. f_equal. by apply IH.
Qed.

Lemma map_ext_Forall {A B} (P : A → Prop) (f g : A → B) l :
  (∀ x, P x → f x = g x) → Forall P l → map f l = map g l.
Proof. intros Hfg. induction 1; simpl; f_equal; auto. Qed.

Lemma plain_tags tags :
  Forall (Forall plain_text) tags →
  map json_encode (map (λ t, JArr (map (λ s, JStr (bytes s)) t)) tags) = map nip01_tag tags.
Proof.
  intros Ht. rewrite map_map. eapply map_ext_Forall; [|done].
  intros t Hplain. cbn [json_encode]. unfold nip01_tag. do 3 f_equal. rewrite map_map.
  eapply map_ext_Forall; [|done]. apply plain_quote.
Qed.

(** * The validator's guarantees *)

(** A concrete verifier: the signature repeats the message. *)
Definition demo_schnorr : SchnorrLib := {|
  schnorr_key := list Z;
  schnorr_signature := list Z;
  schnorr_parse_pubkey k := if decide (length k = 32%nat) then Some k else None;
  schnorr_parse_signature s := if decide (length s = 64%nat) then Some s else None;
  schnorr_verify s m k := bool_decide (take 32 s = m);
|}.

Definition demo_unsigned : Event :=
  mkEvent "" (str (repeat 97 64)) 1700000000 1 [["e"; "x"]; ["t"; "rocq"]] "hello" "".

Definition demo_event : Event :=
  let id := hex_encode (sha256 (event_canonical demo_unsigned)) in
  mkEvent (str id) (Pubkey demo_unsigned) (CreatedAt demo_unsigned) (Kind demo_unsigned)
    (Tags demo_unsigned) (Content demo_unsigned) (str (id ++ id)).

Definition default_options : Options := mkOptions 0 0.

Section guarantees.
Context `{SchnorrLib}.

(** C1: An event the validator returns satisfies every NIP-01 condition and the
    content limits, the result carries no error, and the raw JSON kept with it
    is the trimmed payload. *)
Theorem validate_sound payload options e :
  REvent (ParseAndValidate payload options) = Some e →
  event_ok options e ∧
  ParseAndValidate payload options = mkVRes (Some e) (Some (trim_bytes payload)) None ∧
  Z.of_nat (length payload) ≤ MaxRawJSONBytes (withDefaults options).
Proof.
  intros Hv. apply ParseAndValidate_inv in Hv as (Hr & Hlen & v & fields & _ & _ & Hcs & Hsig & Hsafe).
  split; [|done]. destruct Hcs as [_ _ _ _ (j & l & _ & _ & Htags) (Hid & Hpk & Hsg) [Hca Hk] Hhash].
  apply verifySignature_None in Hsig. apply checkContentSafety_None in Hsafe as [Hlen' Hctl].
  split; try done.
  - clear -Htags. induction Htags as [|? ? ? ? [_ Hne] _ IH]; constructor; done.
  - rewrite <-Hhash. apply bytes_str, hex_encode_ok, sha256_ok.
Qed.

(** C39: Conversely, an event that satisfies the conditions, written as JSON
    within the size limit, is accepted, and the event returned is exactly the
    one that was written. *)
Theorem validate_complete options e :
  event_ok options e → event_utf8 e →
  Z.of_nat (length (event_payload e)) ≤ MaxRawJSONBytes (withDefaults options) →
  ParseAndValidate (event_payload e) options
  = mkVRes (Some e) (Some (event_payload e)) None.
Proof.
  intros Hok Hutf Hlen. destruct (parseCanonical_event_value options e Hok) as (fields & Ho & Hm & Hc).
  destruct (checks_event_ok options e Hok) as [Hs Hcs]. destruct Hok as [_ _ _ Hca Hk _ _ _ _ _].
  assert (trim_bytes (event_payload e) = event_payload e) as Htrim by apply trim_bytes_braces.
  assert (json_parse (event_payload e) = Some (event_value e)) as Hp.
  { apply (json_parse_encode 3); [|done|right; by eexists].
    unfold MaxUnixCreatedAt in Hca.
    apply event_value_wf; [done|unfold in_i64, min_int64, max_int64, two63; lia..]. }
  unfold ParseAndValidate. rewrite Htrim, Hp, Ho, Hm, Hc, Hs, Hcs.
  rewrite (proj2 (Z.eqb_neq _ 0)) by (unfold event_payload; simpl; lia).
  by rewrite (proj2 (Z.ltb_ge _ _)).
Qed.

(** What an accepted payload of bytes gives about its canonical form. *)
Lemma accepted_canonical payload options e :
  Forall byte_ok payload → REvent (ParseAndValidate payload options) = Some e →
  event_utf8 e ∧ str (hex_encode (sha256 (event_canonical e))) = ID e ∧
  in_i64 (CreatedAt e) = true ∧ in_i64 (Kind e) = true.
Proof.
  intros Hb Hv. apply ParseAndValidate_inv in Hv as (_ & _ & v & fields & Hp & Ho & Hcs & _).
  apply json_parse_strings_ok in Hp; [|by apply trim_bytes_ok].
  split; [eapply canonical_stage_utf8; [|done]; by eapply unmarshal_object_ok|].
  destruct Hcs as [_ _ _ _ _ _ [Hca Hk] Hhash]. unfold MaxUnixCreatedAt in Hca.
  split; [done|]. unfold in_i64, min_int64, max_int64, two63. lia.
Qed.

(** C29: Two accepted payloads with the same event id carry the same pubkey,
    timestamp, kind, tags and content, unless they exhibit a SHA-256 collision. *)
Theorem validated_id_binds p1 o1 e1 p2 o2 e2 :
  Forall byte_ok p1 → Forall byte_ok p2 →
  REvent (ParseAndValidate p1 o1) = Some e1 →
  REvent (ParseAndValidate p2 o2) = Some e2 →
  ID e1 = ID e2 →
  (Pubkey e1 = Pubkey e2 ∧ CreatedAt e1 = CreatedAt e2 ∧ Kind e1 = Kind e2 ∧
   Tags e1 = Tags e2 ∧ Content e1 = Content e2) ∨
  (event_canonical e1 ≠ event_canonical e2 ∧
   sha256 (event_canonical e1) = sha256 (event_canonical e2)).
Proof.
  intros Hp1 Hp2 H1 H2 Hid.
  destruct (accepted_canonical _ _ _ Hp1 H1) as (Hu1 & Hh1 & Hc1 & Hk1).
  destruct (accepted_canonical _ _ _ Hp2 H2) as (Hu2 & Hh2 & Hc2 & Hk2).
  assert (sha256 (event_canonical e1) = sha256 (event_canonical e2)) as Hsha.
  { apply hex_encode_inj; [apply sha256_ok..|].
    rewrite <-(bytes_str (hex_encode (sha256 (event_canonical e1)))),
      <-(bytes_str (hex_encode (sha256 (event_canonical e2))))
      by apply hex_encode_ok, sha256_ok. congruence. }
  destruct (decide (event_canonical e1 = event_canonical e2)) as [Hc|Hc]; [left|by right].
  destruct Hu1 as (_&?&?&_&?), Hu2 as (_&?&?&_&?).
  clear Hsha Hh1 Hh2 Hid H1 H2.
  unfold event_canonical in Hc. eapply marshalCanonical_inj; eauto.
Qed.
End guarantees.

(** C40: On events whose text is valid UTF-8 without U+2028, U+2029 and the
    control characters NIP-01 leaves open, the hashed serialization is
    NIP-01's, byte for byte. *)
Theorem canonical_is_nip01 e :
  plain_text (Pubkey e) → plain_text (Content e) → Forall (Forall plain_text) (Tags e) →
  event_canonical e = nip01_serialize e.
Proof.
  intros Hp Hc Ht. unfold event_canonical. rewrite marshalCanonical_encode.
  unfold canonical_value, nip01_serialize. cbn [json_encode map].
  by rewrite !plain_quote, plain_tags.
Qed.

(** The encoder escapes U+2028 where NIP-01 writes it verbatim. *)
Example canonical_differs_u2028 :
  let e := mkEvent "" "" 0 1 [] (str [226; 128; 168]) "" in
  event_utf8 e ∧ event_canonical e ≠ nip01_serialize e ∧
  event_canonical e = qtext "[0,'',0,1,[],'\u2028']".
Proof.
  split_and!; [split_and!; try apply Forall_nil_2; split; try apply bytes_range; done|by vm_compute|].
  by vm_compute.
Qed.

Example demo_accepted :
  @ParseAndValidate demo_schnorr (event_payload demo_event) default_options
  = mkVRes (Some demo_event) (Some (event_payload demo_event)) None.
Proof. vm_compute. reflexivity. Qed.

Lemma demo_event_utf8 : event_utf8 demo_event.
Proof.
  split_and!; try (split; [apply bytes_range|vm_compute; reflexivity]).
  repeat (apply Forall_cons_2; [|try apply Forall_nil_2]);
    repeat (apply Forall_cons_2 || apply Forall_nil_2); split; try apply bytes_range; done.
Qed.

Lemma demo_event_ok : @event_ok demo_schnorr default_options demo_event.
Proof.
  split; try (vm_compute; reflexivity); try (by vm_compute).
  - by repeat (apply Forall_cons_2 || apply Forall_nil_2).
  - eexists _, _. split_and!; vm_compute; reflexivity.
  - vm_compute. repeat (apply Forall_cons_2; [left; done|]). apply Forall_nil_2.
Qed.

Lemma validate_sound_witness : @event_ok demo_schnorr default_options demo_event.
Proof.
  destruct (@validate_sound demo_schnorr (event_payload demo_event) default_options demo_event)
    as [Hok _]; [vm_compute; reflexivity|exact Hok].
Defined.

Lemma validate_complete_witness :
  @ParseAndValidate demo_schnorr (event_payload demo_event) default_options
  = mkVRes (Some demo_event) (Some (event_payload demo_event)) None.
Proof.
  apply validate_complete; [exact demo_event_ok|exact demo_event_utf8|by vm_compute].
Defined.

(** The same event under another signature. *)
Definition demo_resigned : Event :=
  mkEvent (ID demo_event) (Pubkey demo_event) (CreatedAt demo_event) (Kind demo_event)
    (Tags demo_event) (Content demo_event) (str (bytes (ID demo_event) ++ repeat 48 64)).

Lemma forallb_byte_ok l : forallb (λ b, (0 <=? b) && (b <? 256)) l = true → Forall byte_ok l.
Proof.
  intros Hl. apply List.Forall_forall. intros b Hb.
  eapply forallb_forall in Hl; [|done]. unfold byte_ok. bool_simpl. lia.
Qed.

Lemma validated_id_binds_witness :
  Sig demo_event ≠ Sig demo_resigned ∧
  ((Pubkey demo_event = Pubkey demo_resigned ∧ CreatedAt demo_event = CreatedAt demo_resigned ∧
    Kind demo_event = Kind demo_resigned ∧ Tags demo_event = Tags demo_resigned ∧
    Content demo_event = Content demo_resigned) ∨
   (event_canonical demo_event ≠ event_canonical demo_resigned ∧
    sha256 (event_canonical demo_event) = sha256 (event_canonical demo_resigned))).
Proof.
  split; [vm_compute; discriminate|].
  apply (@validated_id_binds demo_schnorr (event_payload demo_event) default_options demo_event
           (32 :: event_payload demo_resigned ++ [10]) default_options demo_resigned).
  - apply forallb_byte_ok. vm_compute. reflexivity.
  - apply forallb_byte_ok. vm_compute. reflexivity.
  - vm_compute. reflexivity.
  - vm_compute. reflexivity.
  - reflexivity.
Defined.

Lemma canonical_is_nip01_witness :
  event_canonical demo_event = nip01_serialize demo_event.
Proof.
  apply canonical_is_nip01.
  - split; [split; [apply bytes_range|by vm_compute]|vm_compute; by repeat constructor].
  - split; [split; [apply bytes_range|by vm_compute]|vm_compute; by repeat constructor].
  - repeat (apply Forall_cons_2 || apply Forall_nil_2);
      (split; [split; [apply bytes_range|by vm_compute]|vm_compute; by repeat constructor]).
Defined.
