(* ===== verification/NostrTags.v ===== *)
(** Tag interpretation: NIP-10 references ([internal/nostr/references.go]),
    NIP-33 coordinates ([address.go]), the projected event attributes
    ([event_attributes.go]) and the tag persistence policy
    ([internal/eventtags/policy.go]). *)

From S2P Require Import Prelude GoLib.

(** Element [i] of a tag whose length the caller has tested. *)
Definition tag_at (tag : list string) (i : nat) : string := nth i tag "".

(** * References *)

Record ETagRef := mkRef {
  RefID : string;
  Relation : string;
  TagIndex : Z;
  RelayHint : string;
}.

Definition set_relation (r : string) (x : ETagRef) : ETagRef :=
  mkRef (RefID x) r (TagIndex x) (RelayHint x).

Section references.
Context `{UnicodeTables}.

Definition ParseRelationMarker (value : string) : option string :=
  let marker := to_lower (trim_space value) in
  if bool_decide (marker ∈ ["root"; "reply"; "mention"]) then Some marker else None.

(** One iteration of the scan: [refs] grows by at most one reference, and the
    index of an unmarked one is remembered. *)
Definition scan_tag (i : Z) (tag : list string) (st : list ETagRef * list nat)
    : list ETagRef * list nat :=
  let '(refs, unmarkedIdx) := st in
  if (length tag <? 2)%nat || negb (bool_decide (tag_at tag 0 = "e")) then st
  else
    let referenced := trim_space (tag_at tag 1) in
    if bool_decide (referenced = "") then st
    else
      let relayHint := if (2 <? length tag)%nat then trim_space (tag_at tag 2) else "" in
      let marker := if (3 <? length tag)%nat then trim_space (tag_at tag 3) else "" in
      match ParseRelationMarker marker with
      | Some relation => (refs ++ [mkRef referenced relation i relayHint], unmarkedIdx)
      | None =>
          let refs' := refs ++ [mkRef referenced "" i relayHint] in
          (refs', unmarkedIdx ++ [(length refs' - 1)%nat])
      end.

Fixpoint scan_tags (i : Z) (tags : list (list string)) (st : list ETagRef * list nat)
    : list ETagRef * list nat :=
  match tags with
  | [] => st
  | tag :: tags' => scan_tags (i + 1) tags' (scan_tag i tag st)
  end.

Definition has_relation (r : string) (x : ETagRef) : bool := bool_decide (Relation x = r).

Definition assignLegacyRelations (refs : list ETagRef) (unmarkedIdx : list nat) : list ETagRef :=
  match unmarkedIdx with
  | [] => refs
  | first :: _ =>
      let refs1 := foldl (λ rs idx, alter (set_relation "mention") idx rs) refs unmarkedIdx in
      let rootSet := existsb (has_relation "root") refs1 in
      let replySet := existsb (has_relation "reply") refs1 in
      let refs2 := if negb rootSet then alter (set_relation "root") first refs1 else refs1 in
      if negb replySet && (1 <? length unmarkedIdx)%nat
      then alter (set_relation "reply") (List.last unmarkedIdx O) refs2
      else refs2
  end.

Definition DeriveETagReferences (tags : list (list string)) : list ETagRef :=
  let '(refs, unmarkedIdx) := scan_tags 0 tags ([], []) in
  List.filter (λ ref, negb (has_relation "" ref)) (assignLegacyRelations refs unmarkedIdx).

Fixpoint FirstETagByRelation (refs : list ETagRef) (relation : string) : string :=
  match refs with
  | [] => ""
  | ref :: refs' =>
      if has_relation relation ref then RefID ref else FirstETagByRelation refs' relation
  end.

Definition ReplyParentEventID (tags : list (list string)) : string :=
  let refs := DeriveETagReferences tags in
  let parent := FirstETagByRelation refs "reply" in
  if bool_decide (parent ≠ "") then parent else FirstETagByRelation refs "root".
End references.

(** * Coordinates *)

Record AddressCoordinate := mkAddr {
  AKind : Z;
  APubkey : string;
  DTag : string;
}.

Definition address_string (a : AddressCoordinate) : string :=
  str (itoa (AKind a)) +:+ ":" +:+ APubkey a +:+ ":" +:+ DTag a.

Section addresses.
Context `{UnicodeTables}.

Definition ParseAddressCoordinate (value : string) : option AddressCoordinate :=
  match split_n3 58 (bytes (trim_space value)) with
  | [p0; p1; p2] =>
      match parse_int p0 with
      | Some kind =>
          if kind <? 0 then None
          else
            let pubkey := to_lower (trim_space (str p1)) in
            if negb (go_len pubkey =? 64) then None
            else Some (mkAddr kind pubkey (str p2))
      | None => None
      end
  | _ => None
  end.

Definition TrendingMediaKinds (format : string) : option (list Z) :=
  let f := to_lower (trim_space format) in
  if bool_decide (f = "pictures") then Some [20]
  else if bool_decide (f = "videos") then Some [21; 34235]
  else if bool_decide (f = "shorts") then Some [22; 34236]
  else None.

Definition IsIndexedNoteKind (kind : Z) : bool :=
  bool_decide (kind ∈ [1; 20; 21; 22; 30023; 30311; 34235; 34236]).
End addresses.

(** * Attributes *)

(** [ExpiresAt], [TargetKind] and [PublishedAt] are pointers. *)
Record EventAttributes := mkAttrs {
  Client : string;
  ClientPubkey : string;
  ExpiresAt : option Z;
  ContentWarning : bool;
  ContentWarningReason : string;
  ProxyProtocol : string;
  ProxyID : string;
  PowBits : Z;
  PowTarget : Z;
  TargetKind : option Z;
  Subject : string;
  HasAlt : bool;
  PublishedAt : option Z;
  ZapSplitCount : Z;
}.

Definition trimBound (value : string) (maxRunes : Z) : string :=
  let value := trim_space value in
  if bool_decide (value = "") || (maxRunes <=? 0) then ""
  else if rune_count value <=? maxRunes then value
  else take_runes maxRunes value.

(** The inner loop of the count: masks from the top bit down, until a set bit. *)
Fixpoint zero_bits_byte (masks : list Z) (b bits : Z) : Z :=
  match masks with
  | [] => bits
  | mask :: masks' =>
      if negb (Z.land b mask =? 0) then bits else zero_bits_byte masks' b (bits + 1)
  end.

Definition byte_masks : list Z := [128; 64; 32; 16; 8; 4; 2; 1].

Fixpoint zero_bits (raw : list Z) (bits : Z) : Z :=
  match raw with
  | [] => bits
  | b :: raw' =>
      if b =? 0 then zero_bits raw' (bits + 8)
      else zero_bits_byte byte_masks b bits
  end.

Definition LeadingZeroBits (eventID : string) : Z :=
  match hex_decode (bytes (trim_space eventID)) with
  | None | Some [] => 0
  | Some raw => zero_bits raw 0
  end.

Definition positive_int (s : string) : option Z :=
  match parse_int (bytes (trim_space s)) with
  | Some n => if 0 <? n then Some n else None
  | None => None
  end.

Section attributes.
Context `{UnicodeTables}.

(** One iteration of the tag loop. *)
Definition apply_tag (out : EventAttributes) (tag : list string) : EventAttributes :=
  let '(mkAttrs cl clpk ex cw cwr pp pid pb pt tk sub alt pub zs) := out in
  let t0 := tag_at tag 0 in
  let t1 := tag_at tag 1 in
  let t2 := tag_at tag 2 in
  if (length tag <? 2)%nat then
    if (length tag =? 1)%nat && bool_decide (t0 = "content-warning")
    then mkAttrs cl clpk ex true cwr pp pid pb pt tk sub alt pub zs
    else out
  else if bool_decide (t0 = "client") then
    if bool_decide (cl = "") then
      let clpk' :=
        if (3 <=? length tag)%nat then
          match ParseAddressCoordinate t2 with Some addr => APubkey addr | None => clpk end
        else clpk in
      mkAttrs (trimBound t1 64) clpk' ex cw cwr pp pid pb pt tk sub alt pub zs
    else out
  else if bool_decide (t0 = "expiration") then
    match ex with
    | None => mkAttrs cl clpk (positive_int t1) cw cwr pp pid pb pt tk sub alt pub zs
    | Some _ => out
    end
  else if bool_decide (t0 = "content-warning") then
    mkAttrs cl clpk ex true (if bool_decide (cwr = "") then trimBound t1 120 else cwr)
      pp pid pb pt tk sub alt pub zs
  else if bool_decide (t0 = "proxy") then
    if bool_decide (pid = "") then
      mkAttrs cl clpk ex cw cwr
        (if (3 <=? length tag)%nat then trimBound (to_lower t2) 32 else pp)
        (trimBound t1 160) pb pt tk sub alt pub zs
    else out
  else if bool_decide (t0 = "nonce") then
    if (pt =? 0) && (3 <=? length tag)%nat then
      match parse_int (bytes (trim_space t2)) with
      | Some n =>
          if (0 <? n) && (n <? 256)
          then mkAttrs cl clpk ex cw cwr pp pid pb n tk sub alt pub zs else out
      | None => out
      end
    else out
  else if bool_decide (t0 = "k") then
    match tk with
    | None =>
        match parse_int (bytes (trim_space t1)) with
        | Some n =>
            if (0 <=? n) && (n <=? 65535)
            then mkAttrs cl clpk ex cw cwr pp pid pb pt (Some n) sub alt pub zs else out
        | None => out
        end
    | Some _ => out
    end
  else if bool_decide (t0 = "subject") then
    if bool_decide (sub = "")
    then mkAttrs cl clpk ex cw cwr pp pid pb pt tk (trimBound t1 160) alt pub zs else out
  else if bool_decide (t0 = "alt") then
    mkAttrs cl clpk ex cw cwr pp pid pb pt tk sub true pub zs
  else if bool_decide (t0 = "published_at") then
    match pub with
    | None => mkAttrs cl clpk ex cw cwr pp pid pb pt tk sub alt (positive_int t1) zs
    | Some _ => out
    end
  else if bool_decide (t0 = "zap") then
    if bool_decide (trim_space t1 ≠ "")
    then mkAttrs cl clpk ex cw cwr pp pid pb pt tk sub alt pub (i64 (zs + 1)) else out
  else out.

Definition ParseEventAttributes (eventID : string) (tags : list (list string))
    : EventAttributes :=
  foldl apply_tag
    (mkAttrs "" "" None false "" "" "" (LeadingZeroBits eventID) 0 None "" false None 0) tags.

Definition Expired (a : EventAttributes) (nowUnix : Z) : bool :=
  match ExpiresAt a with
  | Some t => t <=? nowUnix
  | None => false
  end.
End attributes.

(** The thumbs-up and thumbs-down emoji, U+1F44D and U+1F44E. *)
Definition thumbs_up : string := str [240; 159; 145; 141].
Definition thumbs_down : string := str [240; 159; 145; 142].

Definition NormalizeReactionContent (content : string) : string :=
  let trimmed := trim_space content in
  if bool_decide (trimmed ∈ [""; "+"; thumbs_up]) then "+"
  else if bool_decide (trimmed ∈ ["-"; thumbs_down]) then "-"
  else if 32 <? rune_count trimmed then take_runes 32 trimmed
  else trimmed.

Definition ZapAmountBucket (sats : Z) : string :=
  if sats <? 21 then "lt21"
  else if sats <=? 100 then "21_100"
  else if sats <=? 1000 then "101_1k"
  else if sats <=? 10000 then "1k_10k"
  else if sats <=? 100000 then "10k_100k"
  else "gt100k".

(** * Tag persistence policy *)

Definition KindContactList : Z := 3.
Definition KindRelayList : Z := 10002.

Definition AllowedTagNames : list string :=
  ["a"; "d"; "e"; "ends"; "g"; "group"; "image"; "imeta"; "m"; "p"; "r"; "series";
   "starts"; "status"; "summary"; "t"; "thumb"; "title"; "u"; "url"; "video"; "word"].

Definition allowedTagNameSet : gset string := list_to_set AllowedTagNames.

Definition ShouldPersist (kind : Z) (tagName : string) : bool :=
  if bool_decide (tagName = "") then false
  else if bool_decide (tagName = "p") && (kind =? KindContactList) then false
  else if bool_decide (tagName = "r") && (kind =? KindRelayList) then false
  else bool_decide (tagName ∈ allowedTagNameSet).

(** * Lemmas: references *)

Section reference_spec.
Context `{UnicodeTables}.

(** The references of the e-tags before relations are assigned. *)
Definition e_tag_ref (i : Z) (tag : list string) : option ETagRef :=
  if (length tag <? 2)%nat || negb (bool_decide (tag_at tag 0 = "e")) then None
  else if bool_decide (trim_space (tag_at tag 1) = "") then None
  else
    let marker := if (3 <? length tag)%nat then trim_space (tag_at tag 3) else "" in
    Some (mkRef (trim_space (tag_at tag 1)) (default "" (ParseRelationMarker marker)) i
            (if (2 <? length tag)%nat then trim_space (tag_at tag 2) else "")).

Fixpoint e_tag_refs (i : Z) (tags : list (list string)) : list ETagRef :=
  match tags with
  | [] => []
  | tag :: tags' => option_list (e_tag_ref i tag) ++ e_tag_refs (i + 1) tags'
  end.

(** NIP-10: a marked reply wins; without one, the last of several unmarked
    references; then a marked root; then a single unmarked reference. *)
Definition thread_parent (refs : list ETagRef) : string :=
  let unmarked := List.filter (has_relation "") refs in
  if existsb (has_relation "reply") refs then FirstETagByRelation refs "reply"
  else match unmarked with
       | u :: (_ :: _) as us => RefID (List.last us u)
       | us =>
           if existsb (has_relation "root") refs then FirstETagByRelation refs "root"
           else match us with u :: _ => RefID u | [] => "" end
       end.

Definition ref_ok (x : ETagRef) : Prop :=
  RefID x ≠ "" ∧ Relation x ∈ [""; "root"; "reply"; "mention"].

Fixpoint unmarked_from (n : nat) (refs : list ETagRef) : list nat :=
  match refs with
  | [] => []
  | x :: refs' =>
      if has_relation "" x then n :: unmarked_from (S n) refs' else unmarked_from (S n) refs'
  end.

Lemma ParseRelationMarker_Some v m :
  ParseRelationMarker v = Some m → m ∈ ["root"; "reply"; "mention"].
Proof. unfold ParseRelationMarker. case_bool_decide; congruence. Qed.

Lemma e_tag_ref_ok i tag x : e_tag_ref i tag = Some x → ref_ok x.
Proof.
  unfold e_tag_ref. destruct (_ || _); [done|]. case_bool_decide as Ht; [done|].
  intros [= <-]. split; [done|]. simpl.
  destruct (ParseRelationMarker _) as [m|] eqn:E; simpl; [|set_solver].
  apply ParseRelationMarker_Some in E. set_solver.
Qed.

Lemma e_tag_refs_ok i tags : Forall ref_ok (e_tag_refs i tags).
Proof.
  revert i. induction tags as [|tag tags IH]; intros i; simpl; [constructor|].
  apply Forall_app. split; [|apply IH].
  destruct (e_tag_ref i tag) eqn:E; simpl; constructor; [|constructor].
  by eapply e_tag_ref_ok.
Qed.

Lemma unmarked_from_app n l1 l2 :
  unmarked_from n (l1 ++ l2) = unmarked_from n l1 ++ unmarked_from (n + length l1) l2.
Proof.
  revert n. induction l1 as [|x l1 IH]; intros n; simpl; [f_equal; lia|].
  rewrite IH. replace (S n + length l1)%nat with (n + S (length l1))%nat by lia.
  by destruct (has_relation "" x).
Qed.

Lemma scan_tag_spec i tag refs :
  scan_tag i tag (refs, unmarked_from 0 refs)
  = (refs ++ option_list (e_tag_ref i tag),
     unmarked_from 0 (refs ++ option_list (e_tag_ref i tag))).
Proof.
  unfold scan_tag, e_tag_ref. destruct (_ || _); [simpl; by rewrite app_nil_r|].
  case_bool_decide; [simpl; by rewrite app_nil_r|].
  destruct (ParseRelationMarker _) as [m|] eqn:E; simpl.
  - apply ParseRelationMarker_Some in E. rewrite unmarked_from_app. simpl.
    unfold has_relation. simpl. rewrite bool_decide_eq_false_2 by set_solver.
    by rewrite app_nil_r.
  - rewrite unmarked_from_app, length_app. simpl.
    by replace (length refs + 1 - 1)%nat with (length refs) by lia.
Qed.

Lemma scan_tags_spec i tags refs :
  scan_tags i tags (refs, unmarked_from 0 refs)
  = (refs ++ e_tag_refs i tags, unmarked_from 0 (refs ++ e_tag_refs i tags)).
Proof.
  revert i refs. induction tags as [|tag tags IH]; intros i refs; cbn [scan_tags e_tag_refs].
  { by rewrite app_nil_r. }
  by rewrite scan_tag_spec, IH, app_assoc.
Qed.

Definition as_mention (x : ETagRef) : ETagRef :=
  if has_relation "" x then set_relation "mention" x else x.

Lemma mention_all pre refs :
  foldl (λ rs idx, alter (set_relation "mention") idx rs) (pre ++ refs)
    (unmarked_from (length pre) refs)
  = pre ++ map as_mention refs.
Proof.
  revert pre. induction refs as [|x refs IH]; intros pre; simpl; [done|].
  unfold as_mention at 1. specialize (IH (pre ++ [as_mention x])). unfold as_mention in IH at 1 3.
  rewrite length_app, <-!app_assoc in IH. simpl in IH.
  replace (length pre + 1)%nat with (S (length pre)) in IH by lia.
  destruct (has_relation "" x) eqn:E; simpl; [|done].
  rewrite <-IH. f_equal. rewrite <-(Nat.add_0_r (length pre)) at 1.
  by rewrite alter_app_r.
Qed.

(** ** First reference with a relation *)

Lemma has_relation_spec r x : has_relation r x = true ↔ Relation x = r.
Proof. unfold has_relation. by rewrite bool_decide_eq_true. Qed.

Lemma first_alter_other refs i x r s :
  refs !! i = Some x → Relation x ≠ r → s ≠ r →
  FirstETagByRelation (alter (set_relation s) i refs) r = FirstETagByRelation refs r.
Proof.
  revert i. induction refs as [|y refs IH]; intros [|i]; simpl; try done.
  - intros [= ->] Hx Hs. unfold has_relation. simpl.
    by rewrite !bool_decide_eq_false_2.
  - intros Hi Hx Hs. destruct (has_relation r y); [done|]. by apply IH.
Qed.

Lemma first_alter_new refs i x r :
  refs !! i = Some x → existsb (has_relation r) refs = false →
  FirstETagByRelation (alter (set_relation r) i refs) r = RefID x.
Proof.
  revert i. induction refs as [|y refs IH]; intros [|i]; simpl; try done.
  - intros [= ->] _. unfold has_relation. simpl. by rewrite bool_decide_eq_true_2.
  - intros Hi Hn. apply orb_false_iff in Hn as [Hy Hn].
    change (alter (set_relation r) (S i) (y :: refs))
      with (y :: alter (set_relation r) i refs). simpl. rewrite Hy. by apply IH.
Qed.

Lemma first_none refs r :
  existsb (has_relation r) refs = false → FirstETagByRelation refs r = "".
Proof.
  induction refs as [|x refs IH]; simpl; [done|].
  intros Hn. apply orb_false_iff in Hn as [-> Hn]. auto.
Qed.

Lemma first_nonempty refs r :
  Forall ref_ok refs → existsb (has_relation r) refs = true →
  FirstETagByRelation refs r ≠ "".
Proof.
  induction 1 as [|x refs [Hx _] _ IH]; simpl; [done|].
  destruct (has_relation r x); [done|]. auto.
Qed.

Lemma first_filter refs r :
  r ≠ "" →
  FirstETagByRelation (List.filter (λ x, negb (has_relation "" x)) refs) r
  = FirstETagByRelation refs r.
Proof.
  intros Hr. induction refs as [|x refs IH]; simpl; [done|].
  destruct (has_relation "" x) eqn:E; simpl; rewrite IH; [|done].
  apply has_relation_spec in E. unfold has_relation. by rewrite bool_decide_eq_false_2 by congruence.
Qed.

(** ** Assigned relations *)

Lemma mention_relation r x :
  r ≠ "" → r ≠ "mention" → has_relation r (as_mention x) = has_relation r x.
Proof.
  intros H1 H2. unfold as_mention. destruct (has_relation "" x) eqn:E; [|done].
  apply has_relation_spec in E. unfold has_relation. simpl.
  by rewrite !bool_decide_eq_false_2 by congruence.
Qed.

Lemma existsb_mention r refs :
  r ≠ "" → r ≠ "mention" →
  existsb (has_relation r) (map as_mention refs) = existsb (has_relation r) refs.
Proof.
  intros H1 H2. induction refs as [|x refs IH]; simpl; [done|].
  by rewrite mention_relation, IH.
Qed.

Lemma RefID_mention x : RefID (as_mention x) = RefID x.
Proof. unfold as_mention. by destruct (has_relation "" x). Qed.

Lemma first_mention r refs :
  r ≠ "" → r ≠ "mention" →
  FirstETagByRelation (map as_mention refs) r = FirstETagByRelation refs r.
Proof.
  intros H1 H2. induction refs as [|x refs IH]; simpl; [done|].
  by rewrite mention_relation, IH, RefID_mention.
Qed.

(** The remembered indices are those of the unmarked references, in order. *)
Lemma unmarked_lookup pre refs :
  Forall2 (λ i x, (pre ++ refs) !! i = Some x ∧ Relation x = "")
    (unmarked_from (length pre) refs) (List.filter (has_relation "") refs).
Proof.
  revert pre. induction refs as [|x refs IH]; intros pre; simpl; [constructor|].
  specialize (IH (pre ++ [x])). rewrite <-app_assoc, length_app in IH. simpl in IH.
  replace (length pre + 1)%nat with (S (length pre)) in IH by lia.
  destruct (has_relation "" x) eqn:E; [|done]. constructor; [|done].
  split; [by rewrite list_lookup_middle|by apply has_relation_spec].
Qed.

Lemma mention_lookup refs i x :
  refs !! i = Some x → Relation x = "" →
  ∃ y, map as_mention refs !! i = Some y ∧ RefID y = RefID x ∧ Relation y = "mention".
Proof.
  intros Hi Hr. exists (as_mention x). rewrite list_lookup_fmap, Hi.
  split; [done|]. split; [apply RefID_mention|].
  unfold as_mention. by rewrite (proj2 (has_relation_spec _ _)).
Qed.

Lemma alter_root_lookup (refs : list ETagRef) i j y :
  refs !! j = Some y →
  ∃ z, alter (set_relation "root") i refs !! j = Some z ∧ RefID z = RefID y ∧
       (Relation z = Relation y ∨ Relation z = "root").
Proof.
  intros Hj. rewrite list_lookup_alter. case_decide; subst.
  - rewrite Hj. eexists. split; [done|]. auto.
  - rewrite Hj. eexists. split; [done|]. auto.
Qed.

Lemma existsb_alter_other r s i refs :
  s ≠ r → existsb (has_relation r) refs = false →
  existsb (has_relation r) (alter (set_relation s) i refs) = false.
Proof.
  intros Hs. revert i. induction refs as [|x refs IH]; intros i; simpl; [by destruct i|].
  intros Hn. apply orb_false_iff in Hn as [Hx Hn]. destruct i as [|i]; simpl.
  - rewrite Hn. unfold has_relation. simpl. by rewrite bool_decide_eq_false_2.
  - rewrite Hx. by apply IH.
Qed.

(** The last of several unmarked references becomes the reply. *)
Lemma assign_reply refs u v us :
  existsb (has_relation "reply") refs = false →
  List.filter (has_relation "") refs = u :: v :: us →
  FirstETagByRelation (assignLegacyRelations refs (unmarked_from 0 refs)) "reply"
  = RefID (List.last (u :: v :: us) u).
Proof.
  intros Hno Hf. pose proof (unmarked_lookup [] refs) as Hl. rewrite Hf in Hl. simpl in Hl.
  pose proof (mention_all [] refs) as Hm. simpl in Hm.
  unfold assignLegacyRelations.
  destruct (unmarked_from 0 refs) as [|i [|j l']]; [inversion Hl|by inversion Hl as [|????? Hl']; inversion Hl'|].
  apply Forall2_cons_1 in Hl as [[Hi Hu] Hl]. apply Forall2_cons_1 in Hl as [[Hj Hv] Hl''].
  assert (∃ k x, List.last (i :: j :: l') O = k ∧ List.last (u :: v :: us) u = x ∧
                 refs !! k = Some x ∧ Relation x = "") as (k & x & Hk & Hx & Hkx & Hr).
  { cbn [List.last]. clear -Hj Hv Hl''. revert j v Hj Hv.
    induction Hl'' as [|a b l us [Ha Hb] _ IH]; intros j v Hj Hv; [by eexists _, _|].
    destruct (IH a b Ha Hb) as (k&x&Hk&Hx&?). by exists k, x. }
  rewrite Hm. rewrite (existsb_mention "reply"), Hno by done. rewrite Hk, Hx. cbn [negb andb].
  replace (1 <? length (i :: j :: l'))%nat with true by done.
  destruct (mention_lookup _ _ _ Hkx Hr) as (y & Hy & Hid & Hrel). rewrite <-Hid.
  destruct (negb _).
  - destruct (alter_root_lookup _ i _ _ Hy) as (z & Hz & Hzid & _). rewrite <-Hzid.
    apply first_alter_new; [done|]. apply existsb_alter_other; [done|].
    by rewrite existsb_mention.
  - apply first_alter_new; [done|]. by rewrite existsb_mention.
Qed.

(** With a marked reply, or at most one unmarked reference, no reply is added. *)
Lemma assign_keeps_reply refs :
  existsb (has_relation "reply") refs = true ∨
    (length (List.filter (has_relation "") refs) ≤ 1)%nat →
  FirstETagByRelation (assignLegacyRelations refs (unmarked_from 0 refs)) "reply"
  = FirstETagByRelation refs "reply".
Proof.
  intros Hor. pose proof (unmarked_lookup [] refs) as Hl. simpl in Hl.
  pose proof (Forall2_length Hl) as Hlen. rewrite <-Hlen in Hor.
  unfold assignLegacyRelations. destruct (unmarked_from 0 refs) as [|i l] eqn:E; [done|].
  pose proof (mention_all [] refs) as Hm. simpl in Hm. rewrite E in Hm. rewrite Hm.
  rewrite (existsb_mention "reply") by done.
  assert (negb (existsb (has_relation "reply") refs) && (1 <? length (i :: l))%nat = false) as ->.
  { destruct Hor as [->|Hle]; [done|]. apply andb_false_iff. right. by apply Nat.ltb_ge. }
  destruct (List.filter (has_relation "") refs) as [|u us]; [by inversion Hl|].
  apply Forall2_cons_1 in Hl as [[Hi Hu] _].
  destruct (mention_lookup _ _ _ Hi Hu) as (y & Hy & _ & Hrel).
  rewrite <-(first_mention "reply" refs) by done.
  destruct (negb _); [|done]. eapply first_alter_other; [done|congruence|done].
Qed.

(** The first unmarked reference is the root unless a marked one exists. *)
Lemma assign_root refs :
  (length (List.filter (has_relation "") refs) ≤ 1)%nat →
  FirstETagByRelation (assignLegacyRelations refs (unmarked_from 0 refs)) "root"
  = if existsb (has_relation "root") refs then FirstETagByRelation refs "root"
    else match List.filter (has_relation "") refs with u :: _ => RefID u | [] => "" end.
Proof.
  intros Hle. pose proof (unmarked_lookup [] refs) as Hl. simpl in Hl.
  pose proof (Forall2_length Hl) as Hlen. rewrite <-Hlen in Hle.
  unfold assignLegacyRelations. destruct (unmarked_from 0 refs) as [|i l] eqn:E.
  { inversion Hl. destruct (existsb _ refs) eqn:Er; [done|]. by apply first_none. }
  pose proof (mention_all [] refs) as Hm. simpl in Hm. rewrite E in Hm. rewrite Hm.
  rewrite (proj2 (Nat.ltb_ge _ _)) by done. rewrite andb_false_r.
  rewrite (existsb_mention "root") by done.
  destruct (List.filter (has_relation "") refs) as [|u us]; [by inversion Hl|].
  apply Forall2_cons_1 in Hl as [[Hi Hu] _].
  destruct (mention_lookup _ _ _ Hi Hu) as (y & Hy & Hid & Hrel). rewrite <-Hid.
  destruct (existsb _ refs) eqn:Er; simpl; [by apply first_mention|].
  apply first_alter_new; [done|]. by rewrite existsb_mention.
Qed.

Lemma filter_ref_ok (f : ETagRef → bool) refs : Forall ref_ok refs → Forall ref_ok (List.filter f refs).
Proof. induction 1; simpl; [constructor|]. case_match; [by constructor|done]. Qed.

(** The thread parent of a note is the reference NIP-10 names: a marked
    reply; failing that the last of several positional references; failing that
    a marked root; failing that the only positional reference. Mentions never
    are. *)
Theorem ReplyParent_spec tags :
  ReplyParentEventID tags = thread_parent (e_tag_refs 0 tags).
Proof.
  unfold ReplyParentEventID, DeriveETagReferences.
  pose proof (scan_tags_spec 0 tags []) as Hs. simpl in Hs. rewrite Hs. clear Hs.
  pose proof (e_tag_refs_ok 0 tags) as Hok. revert Hok.
  generalize (e_tag_refs 0 tags). intros refs Hok. rewrite !first_filter by done.
  unfold thread_parent. destruct (existsb (has_relation "reply") refs) eqn:Er.
  { rewrite assign_keeps_reply by auto. rewrite bool_decide_eq_true_2; [done|].
    by apply first_nonempty. }
  destruct (List.filter (has_relation "") refs) as [|u [|v us]] eqn:Ef.
  1, 2: rewrite assign_keeps_reply by (rewrite Ef; simpl; auto);
    rewrite (first_none refs "reply"), bool_decide_eq_false_2 by naive_solver;
    rewrite assign_root, Ef by (rewrite Ef; simpl; lia); done.
  rewrite (assign_reply refs u v us) by done. rewrite bool_decide_eq_true_2; [done|].
  pose proof (filter_ref_ok (has_relation "") refs Hok) as Hall. rewrite Ef in Hall.
  clear -Hall. apply Forall_cons_1 in Hall as [_ Hall]. cbn [List.last].
  induction us as [|w us IH] in v, Hall |- *; apply Forall_cons_1 in Hall as [[Hv _] Hall]; [done|].
  by apply IH.
Qed.
End reference_spec.

(** * Lemmas: attributes *)

(** ** Proof of work *)

(** The big-endian value of a byte string. *)
Fixpoint be_value (l : list Z) : Z :=
  match l with
  | [] => 0
  | b :: l' => b * 2 ^ (8 * Z.of_nat (length l')) + be_value l'
  end.

Lemma be_value_range l :
  Forall byte_ok l → 0 ≤ be_value l < 2 ^ (8 * Z.of_nat (length l)).
Proof.
  induction 1 as [|b l [Hb0 Hb1] _ IH]; [done|]. cbn [be_value length].
  replace (8 * Z.of_nat (S (length l))) with (8 + 8 * Z.of_nat (length l)) by lia.
  rewrite Z.pow_add_r by lia. change (2 ^ 8) with 256. nia.
Qed.

Lemma hex_decode_ok l r : hex_decode l = Some r → Forall byte_ok r.
Proof.
  revert r. induction l as [l IH] using (induction_ltof1 _ (@length Z)). unfold ltof in IH.
  destruct l as [|a [|b l]]; intros r; simpl.
  { intros [= <-]. constructor. }
  { done. }
  destruct (hex_value a) as [x|] eqn:Ea; [|done].
  destruct (hex_value b) as [y|] eqn:Eb; [|done].
  destruct (hex_decode l) as [r'|] eqn:El; [|done]. intros [= <-].
  apply hex_value_range in Ea, Eb. constructor; [unfold byte_ok; lia|].
  eapply IH; [|done]. simpl. lia.
Qed.

Definition zero_bits_byte_check (b : Z) : bool :=
  let z := zero_bits_byte byte_masks b 0 in
  (0 <=? z) && (z <? 8) && (2 ^ (7 - z) <=? b) && (b <? 2 ^ (8 - z)).

Lemma zero_bits_byte_add masks b bits :
  zero_bits_byte masks b bits = bits + zero_bits_byte masks b 0.
Proof.
  revert bits. induction masks as [|m masks IH]; intros bits; cbn [zero_bits_byte]; [lia|].
  destruct (negb _); [lia|]. rewrite (IH (bits + 1)), (IH (0 + 1)). lia.
Qed.

Lemma zero_bits_byte_spec b :
  0 < b < 256 →
  let z := zero_bits_byte byte_masks b 0 in 0 ≤ z < 8 ∧ 2 ^ (7 - z) ≤ b < 2 ^ (8 - z).
Proof.
  intros Hb. assert (zero_bits_byte_check b = true) as Hc.
  { assert (forallb zero_bits_byte_check (seqZ 1 255) = true) as Hall by (vm_compute; reflexivity).
    eapply forallb_forall in Hall; [done|]. apply list_elem_of_In, elem_of_seqZ. lia. }
  unfold zero_bits_byte_check in Hc. cbn zeta in *. bool_simpl. lia.
Qed.

Lemma zero_bits_spec raw bits :
  Forall byte_ok raw →
  let n := 8 * Z.of_nat (length raw) in
  let z := zero_bits raw bits - bits in
  0 ≤ z ≤ n ∧ be_value raw < 2 ^ (n - z) ∧ (z < n → 2 ^ (n - z - 1) ≤ be_value raw).
Proof.
  intros Hall. revert bits. induction Hall as [|b raw Hb Hall IH]; intros bits; cbn zeta.
  { cbn [zero_bits be_value length]. rewrite Z.sub_diag. simpl. lia. }
  cbn [zero_bits be_value length]. pose proof (be_value_range _ Hall) as Hv.
  replace (8 * Z.of_nat (S (length raw))) with (8 + 8 * Z.of_nat (length raw)) by lia.
  set (m := 8 * Z.of_nat (length raw)) in *. destruct (b =? 0) eqn:E; bool_simpl.
  - subst b. specialize (IH (bits + 8)). cbn zeta in IH.
    set (z := zero_bits raw (bits + 8)) in *.
    replace (8 + m - (z - bits)) with (m - (z - (bits + 8))) by lia. lia.
  - destruct (zero_bits_byte_spec b) as [Hz Hpow]; [unfold byte_ok in Hb; lia|].
    rewrite zero_bits_byte_add. set (z := zero_bits_byte byte_masks b 0) in *.
    replace (bits + z - bits) with z by lia.
    replace (8 + m - z) with ((8 - z) + m) by lia.
    replace (8 - z + m - 1) with ((7 - z) + m) by lia.
    rewrite !Z.pow_add_r by lia. nia.
Qed.

(** [LeadingZeroBits] of a hex id is the number of leading zero bits of the
    id as a big-endian integer: the integer fits in the remaining bits, and not
    in one fewer. *)
Theorem LeadingZeroBits_spec eventID raw :
  hex_decode (bytes (trim_space eventID)) = Some raw → raw ≠ [] →
  let n := 8 * Z.of_nat (length raw) in
  let z := LeadingZeroBits eventID in
  0 ≤ z ≤ n ∧ be_value raw < 2 ^ (n - z) ∧ (z < n → 2 ^ (n - z - 1) ≤ be_value raw).
Proof.
  intros Hd Hne n z. pose proof (hex_decode_ok _ _ Hd) as Hok.
  assert (z = zero_bits raw 0 - 0) as ->.
  { unfold z, LeadingZeroBits. rewrite Hd, Z.sub_0_r. by destruct raw. }
  by apply zero_bits_spec.
Qed.

Lemma LeadingZeroBits_spec_witness :
  LeadingZeroBits "000006d8" = 21 ∧ (1752 < 2 ^ 11 ∧ 2 ^ 10 ≤ 1752).
Proof.
  pose proof (LeadingZeroBits_spec "000006d8" [0; 0; 6; 216] eq_refl ltac:(discriminate)) as Hs.
  change (LeadingZeroBits "000006d8") with 21 in *. simpl in Hs.
  destruct Hs as (_ & Hlt & Hge). split; [reflexivity|]. split; [exact Hlt|]. apply Hge. reflexivity.
Defined.

(** ** Bounds of the projected attributes *)

Lemma rune_count_take n s : 0 ≤ n → rune_count (take_runes n s) ≤ n.
Proof.
  intros Hn. unfold rune_count, take_runes. rewrite bytes_str by apply encode_runes_ok.
  rewrite <-(app_nil_r (encode_runes _)), runes_encode_runes.
  - rewrite app_nil_r, length_take. lia.
  - apply Forall_take, runes_valid, bytes_range.
Qed.

Lemma trimBound_count v n : 0 ≤ n → rune_count (trimBound v n) ≤ n.
Proof.
  intros Hn. unfold trimBound. destruct (_ || _); [done|].
  destruct (_ <=? _) eqn:E; [by bool_simpl|by apply rune_count_take].
Qed.

Lemma positive_int_spec s n : positive_int s = Some n → 0 < n.
Proof. unfold positive_int. intros E. repeat case_match; simplify_eq. by bool_simpl. Qed.

Section attribute_spec.
Context `{UnicodeTables}.

Record attributes_ok (a : EventAttributes) : Prop := {
  ao_client : rune_count (Client a) ≤ 64;
  ao_client_pubkey : ClientPubkey a = "" ∨ go_len (ClientPubkey a) = 64;
  ao_expires : ∀ t, ExpiresAt a = Some t → 0 < t;
  ao_reason : rune_count (ContentWarningReason a) ≤ 120;
  ao_protocol : rune_count (ProxyProtocol a) ≤ 32;
  ao_proxy : rune_count (ProxyID a) ≤ 160;
  ao_target : 0 ≤ PowTarget a < 256;
  ao_kind : ∀ k, TargetKind a = Some k → 0 ≤ k ≤ 65535;
  ao_subject : rune_count (Subject a) ≤ 160;
  ao_published : ∀ t, PublishedAt a = Some t → 0 < t;
}.

Lemma ParseAddressCoordinate_len v a :
  ParseAddressCoordinate v = Some a → go_len (APubkey a) = 64 ∧ 0 ≤ AKind a.
Proof.
  unfold ParseAddressCoordinate. intros E. repeat case_match; simplify_eq. bool_simpl. simpl. lia.
Qed.

Lemma apply_tag_ok a tag : attributes_ok a → attributes_ok (apply_tag a tag).
Proof.
  destruct a. intros [? Hpk ? ? ? ? ? ? ? ?]. unfold apply_tag.
  repeat case_match; simplify_eq/=; bool_simpl; split; simpl in *; intros; simplify_eq;
    eauto using positive_int_spec;
    try (by apply trimBound_count); try lia.
  right. eapply ParseAddressCoordinate_len. eassumption.
Qed.

(** Whatever tags an event carries, the attributes projected from it stay
    within the bounds of their columns: text is cut to its rune limit, the
    proof-of-work target is below 256, the target kind is a kind, and
    timestamps are positive. *)
Theorem ParseEventAttributes_bounds eventID tags :
  attributes_ok (ParseEventAttributes eventID tags).
Proof.
  unfold ParseEventAttributes.
  assert (attributes_ok (mkAttrs "" "" None false "" "" "" (LeadingZeroBits eventID) 0 None
            "" false None 0)) as Hinit by (split; simpl; try done; auto).
  revert Hinit. generalize (mkAttrs "" "" None false "" "" "" (LeadingZeroBits eventID) 0 None
            "" false None 0).
  induction tags as [|tag tags IH]; intros a Ha; simpl; [done|]. by apply IH, apply_tag_ok.
Qed.

(** ** Expiration *)

Definition expiration_value (tag : list string) : option Z :=
  if (length tag <? 2)%nat then None
  else if bool_decide (tag_at tag 0 = "expiration") then positive_int (tag_at tag 1) else None.

Lemma apply_tag_expires a tag :
  ExpiresAt (apply_tag a tag)
  = match ExpiresAt a with Some t => Some t | None => expiration_value tag end.
Proof.
  destruct a. unfold apply_tag, expiration_value. simpl.
  repeat case_match; simplify_eq/=; try done; bool_simpl; congruence.
Qed.

(** An event is expired exactly when the first of its expiration tags that
    holds a positive integer is not in the future; malformed expiration tags
    before it are ignored. *)
Theorem Expired_spec eventID tags now :
  Expired (ParseEventAttributes eventID tags) now = true ↔
  ∃ t, head (omap expiration_value tags) = Some t ∧ t ≤ now.
Proof.
  assert (∀ a, ExpiresAt (foldl apply_tag a tags)
               = match ExpiresAt a with Some t => Some t
                 | None => head (omap expiration_value tags) end) as Hex.
  { induction tags as [|tag tags IH]; intros a; simpl; [by destruct (ExpiresAt a)|].
    rewrite IH, apply_tag_expires. destruct (ExpiresAt a); [done|].
    by destruct (expiration_value tag). }
  unfold Expired, ParseEventAttributes. rewrite Hex. simpl.
  destruct (head _) as [t|]; [rewrite Z.leb_le|]; naive_solver.
Qed.
End attribute_spec.

(** * Lemmas: coordinates *)

Lemma cut_app sep x y : Forall (λ b, b ≠ sep) x → cut sep (x ++ sep :: y) = Some (x, y).
Proof.
  induction 1 as [|b x Hb _ IH]; simpl; [by rewrite Z.eqb_refl|].
  by rewrite (proj2 (Z.eqb_neq _ _)), IH.
Qed.

Definition graphic (b : Z) : Prop := 33 ≤ b < 127.

Lemma trim_left_graphic b l : graphic b → trim_left (b :: l) = b :: l.
Proof.
  intros Hb. unfold graphic in Hb. destruct l as [|c [|d l]]; simpl; unfold ascii_space, space2, space3;
    repeat rewrite (proj2 (Z.eqb_neq b _)) by lia; simpl;
    destruct (9 <=? b) eqn:E; simpl; try done;
    by rewrite (proj2 (Z.leb_gt b 13)) by lia.
Qed.

Lemma trim_left_rev_graphic b l : graphic b → trim_left_rev (b :: l) = b :: l.
Proof.
  intros Hb. unfold graphic in Hb. destruct l as [|c [|d l]]; simpl; unfold ascii_space, space2, space3;
    repeat rewrite (proj2 (Z.eqb_neq b _)) by lia;
    rewrite (proj2 (Z.leb_gt b 13)), ?(proj2 (Z.leb_gt 128 b)) by lia;
    rewrite ?andb_false_r; simpl; rewrite ?andb_false_r; done.
Qed.

(** White space is trimmed at the ends only. *)
Lemma trim_bytes_graphic l : Forall graphic l → trim_bytes l = l.
Proof.
  intros Hl. unfold trim_bytes. destruct l as [|b l]; [done|].
  rewrite trim_left_graphic by (by inversion Hl).
  apply Forall_rev in Hl. destruct (rev (b :: l)) as [|c r] eqn:E.
  - apply (f_equal (@rev Z)) in E. by rewrite rev_involutive in E.
  - rewrite trim_left_rev_graphic by (by inversion Hl). by rewrite <-E, rev_involutive.
Qed.

Definition lower_alnum (b : Z) : Prop := 48 ≤ b ≤ 57 ∨ 97 ≤ b ≤ 122.

Section address_spec.
Context `{UnicodeTables}.

Lemma to_lower_alnum s : Forall lower_alnum (bytes s) → to_lower s = s.
Proof.
  intros Hs. unfold to_lower.
  assert (all_ascii (bytes s) = true) as ->.
  { apply forallb_forall. rewrite List.Forall_forall in Hs. intros b Hb.
    specialize (Hs b Hb). unfold lower_alnum in Hs. apply Z.ltb_lt. lia. }
  rewrite <-(str_bytes s) at 2. f_equal.
  induction Hs as [|b l Hb _ IH]; simpl; [done|]. f_equal; [|done].
  unfold ascii_lower, lower_alnum in *. destruct (_ && _) eqn:E; [|done]. bool_simpl. lia.
Qed.

(** A coordinate with a kind of [int] range and a 64-character lowercase
    pubkey is parsed back from its text, whatever colons its d-tag contains, as
    long as the text has no surrounding white space. *)
Theorem address_roundtrip a :
  0 ≤ AKind a ≤ max_int64 →
  go_len (APubkey a) = 64 → Forall lower_alnum (bytes (APubkey a)) →
  trim_space (address_string a) = address_string a →
  ParseAddressCoordinate (address_string a) = Some a.
Proof.
  intros Hk Hlen Hpk Htrim. unfold ParseAddressCoordinate. rewrite Htrim. clear Htrim.
  assert (Forall (λ b, is_digit b = true) (itoa (AKind a))) as Hd.
  { unfold itoa. rewrite (proj2 (Z.ltb_ge _ _)) by lia. apply dec_digits_digits. lia. }
  assert (bytes (address_string a)
          = itoa (AKind a) ++ 58 :: bytes (APubkey a) ++ 58 :: bytes (DTag a)) as ->.
  { unfold address_string. rewrite !bytes_app, bytes_str; [done|].
    revert Hd. apply Forall_impl. unfold is_digit, byte_ok. intros. bool_simpl. lia. }
  unfold split_n3. rewrite cut_app, cut_app.
  - rewrite parse_int_itoa, (proj2 (Z.ltb_ge _ _)) by (unfold in_i64, min_int64, two63; lia).
    unfold trim_space. rewrite !str_bytes, trim_bytes_graphic, str_bytes, to_lower_alnum, Hlen.
    + by destruct a.
    + done.
    + revert Hpk. apply Forall_impl. unfold lower_alnum, graphic. lia.
  - revert Hpk. apply Forall_impl. unfold lower_alnum. lia.
  - revert Hd. apply Forall_impl. unfold is_digit. intros. bool_simpl. lia.
Qed.
End address_spec.

Lemma address_roundtrip_witness :
  let a := mkAddr 30023 (str (repeat 97 64)) "my:note" in
  @ParseAddressCoordinate ascii_tables (address_string a) = Some a.
Proof.
  apply (@address_roundtrip ascii_tables).
  - split; discriminate.
  - reflexivity.
  - repeat (apply Forall_cons_2; [right; split; discriminate|]). apply Forall_nil_2.
  - reflexivity.
Defined.

Example reply_parent_examples :
  let r := @ReplyParentEventID ascii_tables in
  r [["e"; "a"]] = "a" ∧ r [["e"; "a"]; ["e"; "b"]; ["e"; "c"]] = "c" ∧
  r [["e"; "a"; ""; "mention"]] = "" ∧
  r [["e"; "a"; ""; "root"]; ["e"; "b"]] = "a" ∧
  r [["e"; "a"; ""; "reply"]; ["e"; "b"]; ["e"; "c"]] = "a".
Proof. vm_compute. done. Qed.
