(* ===== verification/Account.v ===== *)
(** The account lifecycle, [internal/account]: the eight states, how a state is
    derived from signals ([state.go]) and how coverage is classified
    ([completeness.go]). *)

From S2P Require Import Prelude GoLib.

(** * States *)

(** [State] is a Go string type: values outside the constants exist. *)
Definition State : Type := string.

Definition StateUnknown : State := "unknown".
Definition StateObserved : State := "observed".
Definition StateCandidate : State := "candidate".
Definition StateMeaningful : State := "meaningful".
Definition StateTrusted : State := "trusted".
Definition StateTracked : State := "tracked".
Definition StateStrategic : State := "strategic".
Definition StateBlocked : State := "blocked".

Definition rank : gmap State Z :=
  list_to_map
    [(StateBlocked, -1); (StateUnknown, 0); (StateObserved, 1); (StateCandidate, 2);
     (StateMeaningful, 3); (StateTrusted, 4); (StateTracked, 5); (StateStrategic, 6)].

Definition ValidState (s : State) : bool :=
  match rank !! s with Some _ => true | None => false end.

(** Indexing a Go map yields zero for an absent key. *)
Definition Rank (s : State) : Z := default 0 (rank !! s).

Definition AtLeast (a b : State) : bool := Rank b <=? Rank a.

Definition IngestAccepted (s : State) : bool :=
  bool_decide (s ∈ [StateTracked; StateStrategic]).

Section parse.
Context `{UnicodeTables}.

Definition ParseState (s : string) : State * bool :=
  let st := trim_space (to_lower s) in
  if negb (ValidState st) then (StateUnknown, false) else (st, true).
End parse.

(** * Derivation *)

Record Signals := mkSignals {
  TrustHops : Z;
  ObservedCount : Z;
  EngagedByTrustedCount : Z;
  HasProfileMetadata : bool;
  NoteCount : Z;
}.

Record Params := mkParams {
  TrustedMaxHops : Z;
  CandidateMinObserved : Z;
  CandidateMinEngagedBy : Z;
  MeaningfulMinNotes : Z;
  MeaningfulMinEngagedBy : Z;
  ObservedMinCount : Z;
}.

Definition DefaultParams : Params :=
  {| TrustedMaxHops := 2; CandidateMinObserved := 5; CandidateMinEngagedBy := 1;
     MeaningfulMinNotes := 10; MeaningfulMinEngagedBy := 3; ObservedMinCount := 2 |}.

Definition Resolve (sig : Signals) (p : Params) : State :=
  if (0 <=? TrustHops sig) && (TrustHops sig <=? TrustedMaxHops p) then StateTrusted
  else
    let meaningful :=
      HasProfileMetadata sig && (MeaningfulMinNotes p <=? NoteCount sig)
      && (MeaningfulMinEngagedBy p <=? EngagedByTrustedCount sig) in
    if meaningful then StateMeaningful
    else
      let candidate :=
        (CandidateMinEngagedBy p <=? EngagedByTrustedCount sig)
        || (HasProfileMetadata sig && (CandidateMinObserved p <=? ObservedCount sig)) in
      if candidate then StateCandidate
      else if ObservedMinCount p <=? ObservedCount sig then StateObserved
      else StateUnknown.

Definition EffectiveState (derived override : State) (tracked : bool) : State :=
  if ValidState override && negb (bool_decide (override = "")) then override
  else
    let base := if negb (ValidState derived) then StateUnknown else derived in
    if tracked && (Rank base <? Rank StateTracked) then StateTracked else base.

(** * Completeness *)

Inductive Completeness :=
| CompletenessComplete | CompletenessPartial | CompletenessStale
| CompletenessHydrating | CompletenessNotTracked | CompletenessUnsupported.

#[export] Instance Completeness_eq_dec : EqDecision Completeness.
Proof. solve_decision. Defined.

Record CompletenessInputs := mkCompleteness {
  CState : State;
  Exists : bool;
  InFlightHydration : bool;
  LastHydratedAt : option time;
  LastSuccessfulHydrationAt : option time;
  CoverageWindowDays : option Z;
  StaleAfter : Z;
  FullCoverageDays : Z;
  CNow : time;
}.

(** [wall] is what [time.Now] returns. *)
Definition ResolveCompleteness (wall : time) (inp : CompletenessInputs) : Completeness :=
  let now := if time_is_zero (CNow inp) then wall else CNow inp in
  if InFlightHydration inp then CompletenessHydrating
  else if negb (Exists inp) || (Rank (CState inp) <? Rank StateCandidate)
  then CompletenessNotTracked
  else match LastSuccessfulHydrationAt inp with
       | None => CompletenessPartial
       | Some last =>
           if (0 <? StaleAfter inp) && (StaleAfter inp <? time_sub now last)
           then CompletenessStale
           else
             match CoverageWindowDays inp with
             | Some days =>
                 if (0 <? FullCoverageDays inp) && (days <? FullCoverageDays inp)
                 then CompletenessPartial else CompletenessComplete
             | None => CompletenessComplete
             end
       end.

(** * Lemmas *)

Lemma Resolve_cases sig p :
  Resolve sig p ∈ [StateUnknown; StateObserved; StateCandidate; StateMeaningful; StateTrusted].
Proof. unfold Resolve. repeat case_match; set_solver. Qed.

Lemma Resolve_valid sig p : ValidState (Resolve sig p) = true.
Proof. unfold Resolve. by repeat case_match. Qed.

Lemma Resolve_rank sig p : 0 ≤ Rank (Resolve sig p) ≤ 4.
Proof. unfold Resolve. repeat case_match; by vm_compute. Qed.

Lemma ValidState_spec s :
  ValidState s = true ↔
  s ∈ [StateBlocked; StateUnknown; StateObserved; StateCandidate; StateMeaningful;
       StateTrusted; StateTracked; StateStrategic].
Proof.
  unfold ValidState. split.
  - destruct (rank !! s) as [r|] eqn:E; [|done]. intros _. unfold rank in E.
    apply elem_of_list_to_map_2 in E. set_solver.
  - set_unfold. intros Hs. by repeat destruct Hs as [->|Hs]; subst.
Qed.

(** The effective state by cases: a valid override, else tracking, else the
    derived state. *)
Lemma EffectiveState_override derived override tracked :
  ValidState override = true → EffectiveState derived override tracked = override.
Proof.
  intros Hv. unfold EffectiveState. rewrite Hv, bool_decide_eq_false_2; [done|].
  by intros ->.
Qed.

Lemma EffectiveState_derived sig p override tracked :
  ValidState override = false →
  EffectiveState (Resolve sig p) override tracked
  = if tracked then StateTracked else Resolve sig p.
Proof.
  intros Hv. unfold EffectiveState. rewrite Hv, Resolve_valid. simpl.
  destruct tracked; [|done]. pose proof (Resolve_rank sig p) as Hr.
  rewrite (proj2 (Z.ltb_lt _ _)); [done|]. change (Rank StateTracked) with 5. lia.
Qed.

Lemma effective_not_blocked sig p tracked :
  EffectiveState (Resolve sig p) "" tracked ≠ StateBlocked.
Proof.
  rewrite EffectiveState_derived by done. destruct tracked; [done|].
  pose proof (Resolve_rank sig p) as Hr. intros E. rewrite E in Hr.
  change (Rank StateBlocked) with (-1) in Hr. lia.
Qed.

(** Evidence grows: every signal that counts towards a state is at least as
    strong. *)
Record more_evidence (p : Params) (s s' : Signals) : Prop := {
  me_hops : 0 ≤ TrustHops s ≤ TrustedMaxHops p → 0 ≤ TrustHops s' ≤ TrustedMaxHops p;
  me_observed : ObservedCount s ≤ ObservedCount s';
  me_engaged : EngagedByTrustedCount s ≤ EngagedByTrustedCount s';
  me_profile : HasProfileMetadata s = true → HasProfileMetadata s' = true;
  me_notes : NoteCount s ≤ NoteCount s';
}.

(** The derived state never drops when evidence grows. *)
Theorem Resolve_monotone p s s' :
  more_evidence p s s' → Rank (Resolve s p) ≤ Rank (Resolve s' p).
Proof.
  intros [Hh Ho He Hp Hn]. unfold Resolve.
  destruct (HasProfileMetadata s); [rewrite Hp by done|destruct (HasProfileMetadata s')];
    repeat match goal with
      | |- context [if ?b then _ else _] => destruct b eqn:?
      end; try (by vm_compute); exfalso;
    repeat match goal with
      | E : (_ && _) = false |- _ => apply andb_false_iff in E
      | E : (_ || _) = true |- _ => apply orb_true_iff in E
      end; bool_simpl;
    repeat match goal with
      | E : _ ∨ _ |- _ => destruct E
      end; bool_simpl; try done; lia.
Qed.

Lemma Resolve_monotone_witness :
  Rank (Resolve (mkSignals (-1) 3 0 false 0) DefaultParams)
  ≤ Rank (Resolve (mkSignals (-1) 9 1 true 4) DefaultParams).
Proof. apply Resolve_monotone. split; simpl; try done; lia. Defined.

(** An account's content is accepted at ingest exactly when its override
    says so, or, without a valid override, when it is tracked; and an account
    is blocked only by override. *)
Theorem effective_ingest_spec sig p override tracked :
  (IngestAccepted (EffectiveState (Resolve sig p) override tracked) = true ↔
   override = StateTracked ∨ override = StateStrategic ∨
   (ValidState override = false ∧ tracked = true)) ∧
  (EffectiveState (Resolve sig p) override tracked = StateBlocked ↔ override = StateBlocked).
Proof.
  destruct (ValidState override) eqn:Hv.
  - rewrite EffectiveState_override by done. split; [|done].
    unfold IngestAccepted. rewrite bool_decide_eq_true. set_solver.
  - rewrite EffectiveState_derived by done. unfold IngestAccepted. rewrite bool_decide_eq_true.
    assert (override ≠ StateTracked ∧ override ≠ StateStrategic ∧ override ≠ StateBlocked)
      as (?&?&?) by (split_and!; intros ->; done).
    pose proof (Resolve_cases sig p) as Hc. set_unfold in Hc.
    assert (Resolve sig p ≠ StateTracked ∧ Resolve sig p ≠ StateStrategic
            ∧ Resolve sig p ≠ StateBlocked) as (?&?&?)
      by (split_and!; intros E; rewrite E in Hc; by destruct_or! Hc).
    destruct tracked; set_solver.
Qed.

(** Coverage is reported complete exactly for an account of at least
    candidate rank, outside a hydration run, whose last successful hydration is
    recent enough and whose coverage window, when known, is full. *)
Theorem completeness_complete_iff wall inp :
  let now := if time_is_zero (CNow inp) then wall else CNow inp in
  ResolveCompleteness wall inp = CompletenessComplete ↔
  InFlightHydration inp = false ∧ Exists inp = true ∧ AtLeast (CState inp) StateCandidate = true ∧
  ∃ last, LastSuccessfulHydrationAt inp = Some last ∧
    (0 < StaleAfter inp → time_sub now last ≤ StaleAfter inp) ∧
    (∀ days, CoverageWindowDays inp = Some days → 0 < FullCoverageDays inp →
             FullCoverageDays inp ≤ days).
Proof.
  intros now. unfold ResolveCompleteness, AtLeast. fold now. rewrite Z.leb_le.
  destruct (InFlightHydration inp); [naive_solver|].
  destruct (Exists inp); simpl; [|naive_solver].
  destruct (Rank (CState inp) <? Rank StateCandidate) eqn:E1; bool_simpl;
    [split; [done|lia]|].
  destruct (LastSuccessfulHydrationAt inp) as [last|]; [|naive_solver].
  destruct (_ && _) eqn:E2; bool_simpl.
  { split; [done|]. intros (_ & _ & _ & l & [= <-] & Hs & _). lia. }
  apply andb_false_iff in E2.
  destruct (CoverageWindowDays inp) as [days|].
  - destruct ((0 <? FullCoverageDays inp) && _) eqn:E3; bool_simpl.
    + split; [done|]. intros (_ & _ & _ & l & _ & _ & Hd). specialize (Hd _ eq_refl). lia.
    + split; [|done]. intros _. split_and!; try done. exists last. split_and!; [done| |].
      * destruct E2; bool_simpl; lia.
      * intros d [= <-]. apply andb_false_iff in E3 as [?|?]; bool_simpl; lia.
  - split; [|done]. intros _. split_and!; try done. exists last. split_and!; [done| |done].
    destruct E2; bool_simpl; lia.
Qed.
