(* ===== verification/Db.v ===== *)
(** The database seen by the stores: tables, statements that may fail, and
    transactions (pgx's [Begin], [Commit] and the deferred [Rollback]).

    A database carries a list of faults: each statement, [Begin] and [Commit]
    takes one, and [Some e] makes that call fail with [e] and change nothing;
    past the end of the list no call fails. So a theorem that quantifies over
    the database covers every pattern of failing calls. *)

From S2P Require Import Prelude.

Record db (T : Type) := mkDb {
  tables : T;
  faults : list (option error);
}.
Arguments mkDb {T}.
Arguments tables {T}.
Arguments faults {T}.

Section db.
Context {T : Type}.

Definition next_fault (s : db T) : option error :=
  match faults s with Some e :: _ => Some e | _ => None end.

Definition next (s : db T) : db T := mkDb (tables s) (List.tl (faults s)).

(** One statement: it changes the tables and returns a value, or fails. *)
Definition stmt {A} (f : T → result (T * A)) : go (db T) A := λ s,
  match next_fault s with
  | Some e => (next s, Err e)
  | None =>
      match f (tables s) with
      | Ok (t, a) => (mkDb t (faults (next s)), Ok a)
      | Err e => (next s, Err e)
      end
  end.

Definition exec (f : T → T) : go (db T) unit := stmt (λ t, Ok (f t, tt)).

Definition query {A} (f : T → A) : go (db T) A := stmt (λ t, Ok (t, f t)).

(** A transaction: what [m] did is kept only if [m] and the commit succeed. *)
Definition tx {A} (beginMsg commitMsg : string) (m : go (db T) A) : go (db T) A := λ s,
  match next_fault s with
  | Some e => (next s, Err (beginMsg +:+ ": " +:+ e))
  | None =>
      match m (next s) with
      | (s', Err e) => (mkDb (tables s) (faults s'), Err e)
      | (s', Ok a) =>
          match next_fault s' with
          | Some e => (mkDb (tables s) (faults (next s')), Err (commitMsg +:+ ": " +:+ e))
          | None => (next s', Ok a)
          end
      end
  end.

(** A transaction that fails leaves the tables alone. *)
Lemma tx_atomic {A} b c (m : go (db T) A) s s' e :
  tx b c m s = (s', Err e) → tables s' = tables s.
Proof.
  unfold tx. destruct (next_fault s); [by intros [= <- _]|].
  destruct (m (next s)) as [s1 [a|e1]].
  - destruct (next_fault s1); by intros [= <- _].
  - by intros [= <- _].
Qed.

(** ** Preservation *)

(** [m] keeps [P] of the tables, whether it succeeds or fails. *)
Definition keeps {A} (P : T → Prop) (m : go (db T) A) : Prop :=
  ∀ s, P (tables s) → P (tables (m s).1).

Lemma keeps_ret {A} P (a : A) : keeps P (go_ret a).
Proof. by intros s. Qed.

Lemma keeps_fail {A} P e : keeps P (@go_fail _ A e).
Proof. by intros s. Qed.

Lemma keeps_bind {A B} P (m : go (db T) A) (k : A → go (db T) B) :
  keeps P m → (∀ a, keeps P (k a)) → keeps P (go_bind m k).
Proof.
  intros Hm Hk s Hs. unfold go_bind. specialize (Hm s Hs).
  destruct (m s) as [s' [a|e]]; [by apply Hk|done].
Qed.

Lemma keeps_wrap {A} P p (m : go (db T) A) : keeps P m → keeps P (go_wrap p m).
Proof.
  intros Hm s Hs. unfold go_wrap. specialize (Hm s Hs). by destruct (m s).
Qed.

Lemma keeps_stmt {A} P (f : T → result (T * A)) :
  (∀ t t' a, P t → f t = Ok (t', a) → P t') → keeps P (stmt f).
Proof.
  intros Hf s Hs. unfold stmt. destruct (next_fault s); [done|].
  destruct (f (tables s)) as [[t a]|e] eqn:E; [by eapply Hf|done].
Qed.

Lemma keeps_exec P (f : T → T) : (∀ t, P t → P (f t)) → keeps P (exec f).
Proof. intros Hf. apply keeps_stmt. intros t t' a Ht [= <- _]. auto. Qed.

Lemma keeps_query {A} P (f : T → A) : keeps P (query f).
Proof. apply keeps_stmt. by intros t t' a Ht [= <- _]. Qed.

Lemma keeps_tx {A} P b c (m : go (db T) A) : keeps P m → keeps P (tx b c m).
Proof.
  intros Hm s Hs. unfold tx. destruct (next_fault s); [done|].
  specialize (Hm (next s) Hs). destruct (m (next s)) as [s' [a|e]]; [|done].
  destruct (next_fault s'); [exact Hs|exact Hm].
Qed.

Lemma keeps_when P (c : bool) (m : go (db T) unit) : keeps P m → keeps P (go_when c m).
Proof. destruct c; [done|]. intros _. apply keeps_ret. Qed.
End db.

#[export] Hint Resolve keeps_ret keeps_fail keeps_query keeps_tx keeps_wrap keeps_when : nmash.

(** Split a preservation goal along the program's structure. *)
Ltac keeps_step :=
  repeat match goal with
    | |- keeps _ (go_ret _) => apply keeps_ret
    | |- keeps _ (go_fail _) => apply keeps_fail
    | |- keeps _ (tx _ _ _) => apply keeps_tx
    | |- keeps _ (go_wrap _ _) => apply keeps_wrap
    | |- keeps _ (go_when _ _) => apply keeps_when
    | |- keeps _ (query _) => apply keeps_query
    | |- keeps _ (go_bind _ _) => apply keeps_bind; [|intros]
    | |- keeps _ (let x := _ in _) => cbv zeta
    | |- keeps _ (if ?b then _ else _) => destruct b eqn:?
    | |- keeps _ (match ?x with _ => _ end) => destruct x eqn:?
    end.

(** * Inversion of successful runs *)

Section inversion.
Context {T : Type}.

Lemma bind_ok {S A B} (m : go S A) (k : A → go S B) s s' b :
  go_bind m k s = (s', Ok b) → ∃ s1 a, m s = (s1, Ok a) ∧ k a s1 = (s', Ok b).
Proof. unfold go_bind. destruct (m s) as [s1 [a|e]]; [eauto|done]. Qed.

Lemma wrap_ok {S A} p (m : go S A) s s' a :
  go_wrap p m s = (s', Ok a) → m s = (s', Ok a).
Proof. unfold go_wrap. destruct (m s) as [s1 [x|e]]; simpl; congruence. Qed.

Lemma stmt_ok {A} (f : T → result (T * A)) s s' a :
  stmt f s = (s', Ok a) → f (tables s) = Ok (tables s', a).
Proof.
  unfold stmt. destruct (next_fault s); [done|].
  destruct (f (tables s)) as [[t x]|e]; [|done]. by intros [= <- <-].
Qed.

Lemma exec_ok (f : T → T) s s' u : exec f s = (s', Ok u) → tables s' = f (tables s).
Proof. intros E. apply stmt_ok in E. congruence. Qed.

Lemma query_ok {A} (f : T → A) s s' a :
  query f s = (s', Ok a) → tables s' = tables s ∧ a = f (tables s).
Proof. intros E. apply stmt_ok in E. by injection E. Qed.

Lemma tx_ok {A} b c (m : go (db T) A) s s' a :
  tx b c m s = (s', Ok a) →
  ∃ s1 s2, tables s1 = tables s ∧ m s1 = (s2, Ok a) ∧ tables s' = tables s2.
Proof.
  unfold tx. destruct (next_fault s); [done|].
  destruct (m (next s)) as [s1 [x|e]] eqn:E; [|done].
  destruct (next_fault s1); [done|]. intros [= <- <-]. by exists (next s), s1.
Qed.

(** ** Outcomes, whether or not a call fails *)

Lemma stmt_cases {A} (f : T → result (T * A)) s :
  tables (stmt f s).1 = tables s ∨
  ∃ a, f (tables s) = Ok (tables (stmt f s).1, a).
Proof.
  unfold stmt. destruct (next_fault s); [by left|].
  destruct (f (tables s)) as [[t a]|e]; [right; by exists a|by left].
Qed.

Lemma tx_cases {A} b c (m : go (db T) A) s :
  (tables (tx b c m s).1 = tables s ∧ is_ok (tx b c m s).2 = false) ∨
  ∃ s1 a, tables s1 = tables s ∧ (m s1).2 = Ok a ∧ (tx b c m s).2 = Ok a ∧
    tables (tx b c m s).1 = tables (m s1).1.
Proof.
  unfold tx. destruct (next_fault s); [by left|].
  destruct (m (next s)) as [s1 [x|e]] eqn:E; [|by left].
  destruct (next_fault s1); [by left|]. right. exists (next s), x. by rewrite E.
Qed.

Lemma wrap_fst {S A} p (m : go S A) s : (go_wrap p m s).1 = (m s).1.
Proof. unfold go_wrap. by destruct (m s). Qed.

(** Without pending faults every call goes through. *)
Lemma stmt_clean {A} (f : T → result (T * A)) t t' a :
  f t = Ok (t', a) → stmt f (mkDb t []) = (mkDb t' [], Ok a).
Proof. intros E. unfold stmt. simpl. by rewrite E. Qed.

Lemma exec_clean (f : T → T) t : exec f (mkDb t []) = (mkDb (f t) [], Ok tt).
Proof. done. Qed.

Lemma tx_clean {A} b c (m : go (db T) A) t t' a :
  m (mkDb t []) = (mkDb t' [], Ok a) → tx b c m (mkDb t []) = (mkDb t' [], Ok a).
Proof.
  intros E. unfold tx. change (next (mkDb t [])) with (mkDb t []). simpl. by rewrite E.
Qed.

Lemma bind_clean {S A B} (m : go S A) (k : A → go S B) s s1 a :
  m s = (s1, Ok a) → go_bind m k s = k a s1.
Proof. intros E. unfold go_bind. by rewrite E. Qed.

Lemma wrap_clean {S A} p (m : go S A) s s1 a :
  m s = (s1, Ok a) → go_wrap p m s = (s1, Ok a).
Proof. intros E. unfold go_wrap. by rewrite E. Qed.
End inversion.

(** Take a successful run apart, call by call. *)
Ltac go_inv :=
  repeat match goal with
    | H : go_bind _ _ _ = (_, Ok _) |- _ =>
        apply bind_ok in H; destruct H as (? & ? & ? & H)
    | H : go_wrap _ _ _ = (_, Ok _) |- _ => apply wrap_ok in H
    | H : exec _ _ = (_, Ok _) |- _ => apply exec_ok in H
    | H : query _ _ = (_, Ok _) |- _ => apply query_ok in H; destruct H
    | H : stmt _ _ = (_, Ok _) |- _ => apply stmt_ok in H
    | H : tx _ _ _ _ = (_, Ok _) |- _ => apply tx_ok in H; destruct H as (? & ? & ? & H & ?)
    | H : go_ret _ _ = (_, Ok _) |- _ => injection H; clear H; intros; subst
    | H : go_fail _ _ = (_, Ok _) |- _ => discriminate H
    end.

(** ** Calls that only read, and calls that fail without a trace *)

Definition reads {T A} (m : go (db T) A) : Prop := ∀ s, tables (m s).1 = tables s.

Definition atomic {T A} (m : go (db T) A) : Prop := ∀ s s' e, m s = (s', Err e) → tables s' = tables s.

Section atomic.
Context {T : Type}.

Lemma reads_stmt {A} (f : T → result (T * A)) : (∀ t t' a, f t = Ok (t', a) → t' = t) → reads (stmt f).
Proof. intros Hf s. destruct (stmt_cases f s) as [->|[a E]]; [done|]. by apply Hf in E. Qed.

Lemma reads_query {A} (f : T → A) : reads (query f).
Proof. apply reads_stmt. congruence. Qed.

Lemma reads_wrap {A} p (m : go (db T) A) : reads m → reads (go_wrap p m).
Proof. intros Hm s. by rewrite wrap_fst. Qed.

Lemma reads_ret {A} (a : A) : reads (T := T) (go_ret a).
Proof. done. Qed.

Lemma reads_fail {A} e : reads (T := T) (A := A) (go_fail e).
Proof. done. Qed.

Lemma reads_bind {A B} (m : go (db T) A) (k : A → go (db T) B) : reads m → (∀ a, reads (k a)) → reads (go_bind m k).
Proof. intros Hm Hk s. unfold go_bind. specialize (Hm s). destruct (m s) as [s1 [a|e]]; [|done]. simpl in Hm. by rewrite Hk. Qed.

Lemma reads_ok {A} (m : go (db T) A) s s' r : reads m → m s = (s', r) → tables s' = tables s.
Proof. intros Hm E. specialize (Hm s). by rewrite E in Hm. Qed.

Lemma atomic_reads {A} (m : go (db T) A) : reads m → atomic m.
Proof. intros Hm s s' e E. by apply (reads_ok m s s' (Err e)). Qed.

Lemma atomic_bind {A B} (m : go (db T) A) (k : A → go (db T) B) : reads m → (∀ a, atomic (k a)) → atomic (go_bind m k).
Proof.
  intros Hm Hk s s' e. unfold go_bind. specialize (Hm s). destruct (m s) as [s1 [a|e1]]; simpl in Hm; [|by intros [= <- _]].
  intros E. by rewrite (Hk a s1 s' e E).
Qed.

Lemma atomic_tx {A} b c (m : go (db T) A) : atomic (tx b c m).
Proof. intros s s' e. apply tx_atomic. Qed.
End atomic.

#[export] Hint Resolve reads_query reads_wrap reads_ret reads_fail reads_bind atomic_reads atomic_bind atomic_tx : nmash.

(** ** A transaction that may end without a commit *)

(** [m] says with what it commits; [None] leaves the rollback to the deferred call. *)
Definition tx_if {T A X} (beginMsg : string) (commitMsg : X → string) (m : go (db T) (option X * A)) : go (db T) A := λ s,
  match next_fault s with
  | Some e => (next s, Err (beginMsg +:+ ": " +:+ e))
  | None =>
      match m (next s) with
      | (s', Err e) => (mkDb (tables s) (faults s'), Err e)
      | (s', Ok (None, a)) => (mkDb (tables s) (faults s'), Ok a)
      | (s', Ok (Some x, a)) =>
          match next_fault s' with
          | Some e => (mkDb (tables s) (faults (next s')), Err (commitMsg x +:+ ": " +:+ e))
          | None => (next s', Ok a)
          end
      end
  end.

Lemma tx_if_ok {T A X} b (c : X → string) (m : go (db T) (option X * A)) s s' a :
  tx_if b c m s = (s', Ok a) →
  ∃ s1 s2 o, tables s1 = tables s ∧ m s1 = (s2, Ok (o, a)) ∧ tables s' = match o with Some _ => tables s2 | None => tables s end.
Proof.
  unfold tx_if. destruct (next_fault s); [done|]. destruct (m (next s)) as [s2 [[[x|] a']|e]] eqn:E; [| |done].
  - destruct (next_fault s2); [done|]. intros [= <- <-]. by exists (next s), s2, (Some x).
  - intros [= <- <-]. by exists (next s), s2, None.
Qed.

Lemma tx_if_atomic {T A X} b (c : X → string) (m : go (db T) (option X * A)) : atomic (tx_if b c m).
Proof.
  intros s s' e. unfold tx_if. destruct (next_fault s); [by intros [= <- _]|].
  destruct (m (next s)) as [s2 [[[x|] a']|e']]; [destruct (next_fault s2); by intros [= <- _]|done|by intros [= <- _]].
Qed.

(** ** pgx.BeginFunc: a transaction whose own errors are returned as they are *)

Definition begin_func {T A} (m : go (db T) A) : go (db T) A := λ s,
  match next_fault s with
  | Some e => (next s, Err e)
  | None =>
      match m (next s) with
      | (s', Err e) => (mkDb (tables s) (faults s'), Err e)
      | (s', Ok a) =>
          match next_fault s' with
          | Some e => (mkDb (tables s) (faults (next s')), Err e)
          | None => (next s', Ok a)
          end
      end
  end.

Lemma begin_func_cases {T A} (m : go (db T) A) s :
  (tables (begin_func m s).1 = tables s ∧ is_ok (begin_func m s).2 = false) ∨
  ∃ s1 a, tables s1 = tables s ∧ (m s1).2 = Ok a ∧ (begin_func m s).2 = Ok a ∧
    tables (begin_func m s).1 = tables (m s1).1.
Proof.
  unfold begin_func. destruct (next_fault s); [by left|].
  destruct (m (next s)) as [s1 [x|e]] eqn:E; [|by left].
  destruct (next_fault s1); [by left|]. right. exists (next s), x. by rewrite E.
Qed.

(** ** A store that is one part of the database *)

Definition zoom {T U A} (get : T → U) (put : U → T → T) (m : go (db U) A) : go (db T) A := λ s,
  let '(s', r) := m (mkDb (get (tables s)) (faults s)) in
  (mkDb (put (tables s') (tables s)) (faults s'), r).

Lemma zoom_tables {T U A} get put (m : go (db U) A) (s : db T) :
  tables (zoom get put m s).1 = put (tables (m (mkDb (get (tables s)) (faults s))).1) (tables s) ∧
  (zoom get put m s).2 = (m (mkDb (get (tables s)) (faults s))).2.
Proof. unfold zoom. by destruct (m _). Qed.

Lemma keeps_zoom {T U A} get put (m : go (db U) A) (P : T → Prop) (Q : U → Prop) :
  (∀ t, P t → Q (get t)) → (∀ t u, P t → Q u → P (put u t)) → keeps Q m → keeps P (zoom get put m).
Proof.
  intros Hget Hput Hm s Hs. destruct (zoom_tables get put m s) as [-> _].
  apply Hput; [done|]. apply Hm. simpl. by apply Hget.
Qed.

Lemma zoom_ok {T U A} get put (m : go (db U) A) (s s' : db T) a :
  zoom get put m s = (s', Ok a) →
  ∃ u, m (mkDb (get (tables s)) (faults s)) = (u, Ok a) ∧ tables s' = put (tables u) (tables s).
Proof.
  unfold zoom. destruct (m _) as [u r]. intros [= <- ->]. by exists u.
Qed.
