(* ===== verification/AccountStore.v ===== *)
(** The account-state store, [internal/store/account/account.go] with its
    statements [queries/account.sql], and the recompute pass of
    [internal/worker/runtime/account_state.go].

    The [account_states] table is a map from its primary key; the audit table
    is a list in insertion order. [now] is the transaction time. *)

From S2P Require Import Prelude GoLib Db Account.
Local Open Scope go_scope.

(** * Tables *)

Record AccountRow := mkAccountRow {
  a_state : string;
  a_derived : string;
  a_override : option string;
  a_first_seen : time;
  a_first_tracked : option time;
  a_last_observed : time;
  a_observed : Z;
  a_last_hydrated : option time;
  a_last_success : option time;
  a_oldest_note : option time;
  a_newest_note : option time;
  a_engagement_checked : option time;
  a_window_days : option Z;
  a_updated : time;
  a_version : Z;
}.

Record Transition := mkTransition {
  t_id : Z;
  t_pubkey : string;
  t_from : string;
  t_to : string;
  t_reason : option string;
  t_source : string;
  t_created : time;
}.

(** The signal columns of the joined trust and profile projections. *)
Record AccountTables := mkAccountTables {
  account_states : gmap string AccountRow;
  transitions : list Transition;
  next_id : Z;
  trust_hops : gmap string Z;
  has_profile : gset string;
  note_counts : gmap string Z;
}.

Definition with_accounts (f : gmap string AccountRow → gmap string AccountRow)
    (t : AccountTables) : AccountTables :=
  mkAccountTables (f (account_states t)) (transitions t) (next_id t) (trust_hops t)
    (has_profile t) (note_counts t).

(** The row constraints of migration 000052. *)
Definition row_valid (r : AccountRow) : bool :=
  ValidState (a_state r) && ValidState (a_derived r)
  && match a_override r with Some o => ValidState o | None => true end.

(** [UPDATE account_states SET ... WHERE pubkey = ...]. *)
Definition update_row (pubkey : string) (f : AccountRow → AccountRow) (t : AccountTables)
    : result (AccountTables * unit) :=
  match account_states t !! pubkey with
  | None => Ok (t, tt)
  | Some r =>
      if row_valid (f r) then Ok (with_accounts (insert pubkey (f r)) t, tt)
      else Err "violates check constraint"
  end.

(** * Statements *)

Definition ApplyAccountStateUpdate (now : time) (derived effective pubkey : string)
    : AccountTables → result (AccountTables * unit) :=
  update_row pubkey (λ r,
    mkAccountRow effective derived (a_override r) (a_first_seen r) (a_first_tracked r)
      (a_last_observed r) (a_observed r) (a_last_hydrated r) (a_last_success r)
      (a_oldest_note r) (a_newest_note r) (a_engagement_checked r) (a_window_days r)
      now (a_version r + 1)).

Definition fresh_row (now : time) (state : string) (tracked : option time) (count : Z) : AccountRow :=
  mkAccountRow state "unknown" None now tracked now count None None None None None None now 0.

(** [INSERT ... ON CONFLICT (pubkey) DO NOTHING]. *)
Definition insert_if_absent (pubkey : string) (r : AccountRow) (t : AccountTables) : AccountTables :=
  match account_states t !! pubkey with
  | Some _ => t
  | None => with_accounts (insert pubkey r) t
  end.

Definition InsertUnknownAccountState (now : time) (pubkey : string) : AccountTables → AccountTables :=
  insert_if_absent pubkey (fresh_row now "unknown" None 0).

Definition InsertTrackedAccountState (now : time) (pubkey : string) : AccountTables → AccountTables :=
  insert_if_absent pubkey (fresh_row now "tracked" (Some now) 0).

Definition ApplyAccountManualOverride (now : time) (override : option string)
    (effective pubkey : string) : AccountTables → result (AccountTables * unit) :=
  update_row pubkey (λ r,
    mkAccountRow effective (a_derived r) override (a_first_seen r) (a_first_tracked r)
      (a_last_observed r) (a_observed r) (a_last_hydrated r) (a_last_success r)
      (a_oldest_note r) (a_newest_note r) (a_engagement_checked r) (a_window_days r)
      now (a_version r + 1)).

Definition promoted_state (r : AccountRow) : string :=
  match a_override r with
  | Some _ => a_state r
  | None => if bool_decide (a_state r ∈ ["tracked"; "strategic"]) then a_state r else "tracked"
  end.

Definition PromoteUpdate (now : time) (pubkey : string)
    : AccountTables → result (AccountTables * unit) :=
  update_row pubkey (λ r,
    mkAccountRow (promoted_state r) (a_derived r) (a_override r) (a_first_seen r)
      (Some (default now (a_first_tracked r))) (a_last_observed r) (a_observed r)
      (a_last_hydrated r) (a_last_success r) (a_oldest_note r) (a_newest_note r)
      (a_engagement_checked r) (a_window_days r) now (a_version r + 1)).

(** [COALESCE(new, old)]. *)
Definition coalesce {A} (new old : option A) : option A :=
  match new with Some _ => new | None => old end.

Definition CoverageUpdate (now : time) (hydrated success oldest newest engagement : option time)
    (window : option Z) (pubkey : string) : AccountTables → result (AccountTables * unit) :=
  update_row pubkey (λ r,
    mkAccountRow (a_state r) (a_derived r) (a_override r) (a_first_seen r) (a_first_tracked r)
      (a_last_observed r) (a_observed r) (coalesce hydrated (a_last_hydrated r))
      (coalesce success (a_last_success r)) (coalesce oldest (a_oldest_note r))
      (coalesce newest (a_newest_note r)) (coalesce engagement (a_engagement_checked r))
      (coalesce window (a_window_days r)) now (a_version r)).

Definition InsertTransition (now : time) (pubkey from to : string) (reason : option string)
    (source : string) (t : AccountTables) : AccountTables :=
  mkAccountTables (account_states t)
    (transitions t ++ [mkTransition (next_id t) pubkey from to reason source now])
    (next_id t + 1) (trust_hops t) (has_profile t) (note_counts t).

(** The rows a purge deletes: the oldest ids before the cutoff, at most [limit]. *)
Definition purge (cutoff : time) (limit : nat) (rows : list Transition) : list Transition :=
  let doomed := map t_id (take limit (List.filter (λ r, t_created r <? cutoff) rows)) in
  List.filter (λ r, negb (bool_decide (t_id r ∈ doomed))) rows.

(** * Store operations *)

Section store.
Context `{UnicodeTables}.

Definition norm_pubkey (p : string) : string := to_lower (trim_space p).

(** [if pubkey == "" return error]. *)
Definition require_pubkey {A} (pubkey : string) (k : string → go (db AccountTables) A)
    : go (db AccountTables) A :=
  let pubkey := norm_pubkey pubkey in
  if bool_decide (pubkey = "") then go_fail "pubkey is required" else k pubkey.

Definition insertAccountStateTransition (now : time) (pubkey from to source reason : string)
    : go (db AccountTables) unit :=
  let reasonArg := if bool_decide (trim_space reason ≠ "") then Some reason else None in
  go_wrap "insert account state transition"
    (exec (InsertTransition now pubkey from to reasonArg source)).

(** One row of the multi-row upsert; [BIGINT] addition fails on overflow. *)
Definition observe_row (now : time) (acc : result (gmap string AccountRow)) (kv : string * Z)
    : result (gmap string AccountRow) :=
  match acc with
  | Err e => Err e
  | Ok m =>
      match m !! kv.1 with
      | None => Ok (<[kv.1 := fresh_row now "unknown" None (kv.2)]> m)
      | Some r =>
          if in_i64 (a_observed r + kv.2) then
            Ok (<[kv.1 :=
              mkAccountRow (a_state r) (a_derived r) (a_override r) (a_first_seen r)
                (a_first_tracked r) now (a_observed r + kv.2) (a_last_hydrated r)
                (a_last_success r) (a_oldest_note r) (a_newest_note r)
                (a_engagement_checked r) (a_window_days r) (a_updated r) (a_version r)]> m)
          else Err "bigint out of range"
      end
  end.

(** A row proposed twice by one upsert is an error of the statement. *)
Definition observe_rows (now : time) (rows : list (string * Z)) (t : AccountTables)
    : result (AccountTables * unit) :=
  if negb (bool_decide (NoDup (map fst rows))) then
    Err "ON CONFLICT DO UPDATE command cannot affect row a second time"
  else match foldl (observe_row now) (Ok (account_states t)) rows with
       | Ok m => Ok (with_accounts (λ _, m) t, tt)
       | Err e => Err e
       end.

Definition BatchIncrementAccountObservations (now : time) (deltas : gmap string Z)
    : go (db AccountTables) unit :=
  let rows :=
    List.filter (λ kv, negb (bool_decide (kv.1 = "")) && (0 <? kv.2))
      (map (λ kv, (norm_pubkey kv.1, kv.2)) (map_to_list deltas)) in
  match rows with
  | [] => go_ret tt
  | _ => go_wrap "batch increment account observations" (stmt (observe_rows now rows))
  end.

Definition ApplyAccountState (now : time) (pubkey fromState derived effective source reason : string)
    : go (db AccountTables) unit :=
  require_pubkey pubkey (λ pubkey,
    tx "begin apply account state" "commit apply account state" (
      go_wrap "update account state" (stmt (ApplyAccountStateUpdate now derived effective pubkey)) ;;
      go_when (negb (bool_decide (effective = fromState)))
        (insertAccountStateTransition now pubkey fromState effective source reason))).

Definition SetAccountManualOverride (now : time) (pubkey override reason : string)
    : go (db AccountTables) string :=
  require_pubkey pubkey (λ pubkey,
    tx "begin set override" "commit set override" (
      row <- go_wrap "load account for override" (query (λ t, account_states t !! pubkey)) ;;
      pd <- (match row with
             | None =>
                 go_wrap "insert account for override" (exec (InsertUnknownAccountState now pubkey)) ;;
                 go_ret ("unknown", "unknown")
             | Some r => go_ret (a_state r, a_derived r)
             end) ;;
      let '(prev, derived) := pd in
      let override := norm_pubkey override in
      let effective := if bool_decide (override = "") then derived else override in
      let overrideArg := if bool_decide (override = "") then None else Some override in
      go_wrap "apply override" (stmt (ApplyAccountManualOverride now overrideArg effective pubkey)) ;;
      go_when (negb (bool_decide (effective = prev)))
        (insertAccountStateTransition now pubkey prev effective "manual" reason) ;;
      go_ret prev)).

Definition PromoteAccountToTracked (now : time) (pubkey reason : string)
    : go (db AccountTables) string :=
  require_pubkey pubkey (λ pubkey,
    tx "begin promote" "commit promote" (
      go_wrap "insert account for promote" (exec (InsertTrackedAccountState now pubkey)) ;;
      row <- go_wrap "load account for promote"
               (stmt (λ t, match account_states t !! pubkey with
                           | Some r => Ok (t, r)
                           | None => Err "no rows in result set"
                           end)) ;;
      let prev := a_state row in
      let hasOverride := match a_override row with Some _ => true | None => false end in
      go_wrap "promote account" (stmt (PromoteUpdate now pubkey)) ;;
      go_when (negb hasOverride && negb (bool_decide (prev = "tracked"))
               && negb (bool_decide (prev = "strategic")))
        (insertAccountStateTransition now pubkey prev "tracked" "hydration" reason) ;;
      go_ret prev)).

Definition UpdateAccountCoverage (now : time) (pubkey : string)
    (hydrated success oldest newest engagement : option time) (window : option Z)
    : go (db AccountTables) unit :=
  require_pubkey pubkey (λ pubkey,
    go_wrap "update account coverage"
      (stmt (CoverageUpdate now hydrated success oldest newest engagement (i32 <$> window) pubkey))).

(** [None] is the zero-valued row with [Exists] false. *)
Definition GetAccountState (pubkey : string) : go (db AccountTables) (option AccountRow) :=
  require_pubkey pubkey (λ pubkey,
    go_wrap "get account state" (query (λ t, account_states t !! pubkey))).

Definition loadPubkeysByStates (states : list string) : go (db AccountTables) (list string) :=
  go_wrap "load pubkeys by state"
    (query (λ t, map fst (List.filter (λ kv, bool_decide (a_state kv.2 ∈ states))
                            (map_to_list (account_states t))))).

Definition LoadIngestAcceptPubkeys : go (db AccountTables) (list string) :=
  loadPubkeysByStates ["tracked"; "strategic"].

Definition LoadBlockedPubkeys : go (db AccountTables) (list string) :=
  loadPubkeysByStates ["blocked"].

Definition PurgeAccountStateTransitionsOlderThan (cutoff : time) (limit : Z)
    : go (db AccountTables) Z :=
  let limit := if limit <=? 0 then 5000 else limit in
  go_wrap "purge account state transitions"
    (stmt (λ t,
       if i32 limit <? 0 then Err "LIMIT must not be negative"
       else
         let kept := purge cutoff (Z.to_nat (i32 limit)) (transitions t) in
         Ok (mkAccountTables (account_states t) kept (next_id t) (trust_hops t) (has_profile t)
               (note_counts t), Z.of_nat (length (transitions t) - length kept)))).

(** * Recompute pass *)

Record AccountSignalRow := mkSignalRow {
  s_pubkey : string;
  s_trust_hops : Z;
  s_observed : Z;
  s_profile : bool;
  s_notes : Z;
  s_state : string;
  s_derived : string;
  s_override : option string;
  s_tracked : bool;
}.

(** The join of [ListAccountSignalsForRecompute], for one row. *)
Definition signal_row (t : AccountTables) (kv : string * AccountRow) : AccountSignalRow :=
  let '(pubkey, a) := kv in
  mkSignalRow pubkey (default (-1) (trust_hops t !! pubkey)) (a_observed a)
    (bool_decide (pubkey ∈ has_profile t)) (default 0 (note_counts t !! pubkey))
    (a_state a) (a_derived a) (a_override a)
    (match a_first_tracked a with Some _ => true | None => false end).

(** Oldest first; rows with equal [updated_at] come in key order. *)
Definition updated_le (x y : string * AccountRow) : Prop := a_updated x.2 ≤ a_updated y.2.

#[local] Instance updated_le_dec x y : Decision (updated_le x y) := Z.le_dec _ _.

Definition ListAccountSignalsForRecompute (limit : Z) (staleBefore : time)
    : go (db AccountTables) (list AccountSignalRow) :=
  let limit := if limit <=? 0 then 500 else limit in
  go_wrap "list account signals"
    (query (λ t,
       map (signal_row t)
         (take (Z.to_nat limit)
            (merge_sort updated_le
               (List.filter (λ kv, time_is_zero staleBefore || (a_updated kv.2 <? staleBefore))
                  (map_to_list (account_states t))))))).

Definition row_derived (row : AccountSignalRow) : State :=
  Resolve (mkSignals (s_trust_hops row) (s_observed row) 0 (s_profile row) (s_notes row)) DefaultParams.

Definition row_override (row : AccountSignalRow) : State :=
  match s_override row with
  | None => ""
  | Some o => let '(parsed, ok) := ParseState o in if ok : bool then parsed else ""
  end.

Definition row_effective (row : AccountSignalRow) : State :=
  EffectiveState (row_derived row) (row_override row) (s_tracked row).

(** One iteration of the recompute loop: a failing update is logged and skipped. *)
Definition recompute_row (now : time) (row : AccountSignalRow) (s : db AccountTables)
    : db AccountTables :=
  if bool_decide (row_derived row = s_derived row) && bool_decide (row_effective row = s_state row)
  then s
  else (ApplyAccountState now (s_pubkey row) (s_state row) (row_derived row) (row_effective row)
          "derived" "recompute" s).1.

Definition recomputeAccountStatesOnce (now : time) (batchSize : Z) (staleBefore : time)
    (s : db AccountTables) : db AccountTables :=
  match ListAccountSignalsForRecompute batchSize staleBefore s with
  | (s', Err _) => s'
  | (s', Ok signals) => foldl (λ st row, recompute_row now row st) s' signals
  end.
End store.

(** * Lemmas *)

Section account_store_lemmas.
Context `{UnicodeTables}.

(** Every stored row satisfies the table's constraints. *)
Definition accounts_wf (t : AccountTables) : Prop :=
  map_Forall (λ _ r, row_valid r = true) (account_states t).

(** What no operation undoes on a row. *)
Record row_le (r r' : AccountRow) : Prop := {
  le_tracked : ∀ x, a_first_tracked r = Some x → a_first_tracked r' = Some x;
  le_version : a_version r ≤ a_version r';
  le_observed : a_observed r ≤ a_observed r';
  le_first_seen : a_first_seen r' = a_first_seen r;
}.

Definition accounts_grow (t t' : AccountTables) : Prop :=
  ∀ pk r, account_states t !! pk = Some r →
    ∃ r', account_states t' !! pk = Some r' ∧ row_le r r'.

#[local] Instance row_le_preorder : PreOrder row_le.
Proof.
  split.
  - intros r. by split.
  - intros r1 r2 r3 [H1 H2 H3 H4] [K1 K2 K3 K4]. split; [auto|lia|lia|congruence].
Qed.

Lemma accounts_grow_refl t : accounts_grow t t.
Proof. intros pk r Hr. exists r. by split. Qed.

Lemma accounts_grow_trans t1 t2 t3 :
  accounts_grow t1 t2 → accounts_grow t2 t3 → accounts_grow t1 t3.
Proof.
  intros H12 H23 pk r Hr. destruct (H12 pk r Hr) as (r2 & Hr2 & Hle).
  destruct (H23 pk r2 Hr2) as (r3 & Hr3 & Hle'). exists r3. split; [done|]. by etrans.
Qed.

Lemma insert_grow t pk r' :
  (∀ r, account_states t !! pk = Some r → row_le r r') →
  accounts_grow t (with_accounts (insert pk r') t).
Proof.
  intros Hle pk' r Hr. simpl. destruct (decide (pk = pk')) as [->|Hne].
  - rewrite lookup_insert_eq. eauto.
  - rewrite lookup_insert_ne by done. exists r. by split.
Qed.

(** The invariant the operations keep, from a fixed earlier state on. *)
Definition history (t0 t : AccountTables) : Prop := accounts_wf t ∧ accounts_grow t0 t.

Lemma update_row_history t0 t pk f t' u :
  (∀ r, row_le r (f r)) → history t0 t → update_row pk f t = Ok (t', u) → history t0 t'.
Proof.
  intros Hf [Hwf Hg]. unfold update_row. destruct (account_states t !! pk) as [r|] eqn:E.
  - destruct (row_valid (f r)) eqn:Hv; [|done]. intros [= <-]. split.
    + by apply map_Forall_insert_2.
    + eapply accounts_grow_trans; [done|]. apply insert_grow. intros r' Hr'. simplify_eq. done.
  - by intros [= <-].
Qed.

Lemma insert_if_absent_history t0 t pk r :
  row_valid r = true → history t0 t → history t0 (insert_if_absent pk r t).
Proof.
  intros Hv [Hwf Hg]. unfold insert_if_absent. destruct (account_states t !! pk) eqn:E; [done|].
  split; [by apply map_Forall_insert_2|]. eapply accounts_grow_trans; [done|].
  apply insert_grow. congruence.
Qed.

Lemma observe_rows_history t0 t now rows t' u :
  Forall (λ kv, 0 < kv.2) rows → history t0 t → observe_rows now rows t = Ok (t', u) →
  history t0 t'.
Proof.
  intros Hpos Hh. unfold observe_rows. destruct (negb _); [done|].
  destruct (foldl _ _ _) as [m|e] eqn:E; [|done]. intros [= <-].
  change (account_states t) with (account_states (with_accounts (λ _, account_states t) t)) in E.
  assert (history t0 (with_accounts (λ _, account_states t) t)) as Hh' by exact Hh.
  clear Hh. revert E Hh'. generalize (account_states t). clear -Hpos. simpl.
  induction Hpos as [|[pk n] rows Hn _ IH]; intros acc E [Hwf Hg]; simpl in *.
  { simplify_eq. by split. }
  destruct (acc !! pk) as [r|] eqn:Er.
  - destruct (in_i64 _) eqn:Ei.
    + eapply IH; [exact E|]. split.
      * apply map_Forall_insert_2; [|done]. by apply Hwf in Er.
      * eapply accounts_grow_trans; [done|].
        apply (insert_grow (with_accounts (λ _, acc) t)). simpl. intros r' Hr'. simplify_eq.
        split; simpl; auto; lia.
    + exfalso. clear -E. induction rows as [|[] rows IH]; simpl in E; [done|auto].
  - eapply IH; [exact E|]. split.
    + by apply map_Forall_insert_2.
    + eapply accounts_grow_trans; [done|].
      apply (insert_grow (with_accounts (λ _, acc) t)). simpl. congruence.
Qed.

Lemma keeps_require_pubkey {A} P pk (k : string → go (db AccountTables) A) :
  (∀ pk, keeps P (k pk)) → keeps P (require_pubkey pk k).
Proof. intros Hk. unfold require_pubkey. keeps_step. apply Hk. Qed.

Lemma keeps_update t0 pk f :
  (∀ r, row_le r (f r)) → keeps (history t0) (stmt (update_row pk f)).
Proof. intros Hf. apply keeps_stmt. intros. by eapply update_row_history. Qed.

Lemma keeps_transition t0 now pk from to source reason :
  keeps (history t0) (insertAccountStateTransition now pk from to source reason).
Proof. unfold insertAccountStateTransition. keeps_step. by apply keeps_exec. Qed.

Ltac row_le_solve :=
  let r := fresh in intros r; split; simpl; auto; try lia; intros ? ->; done.

Lemma ApplyAccountState_history t0 now pk from derived eff source reason :
  keeps (history t0) (ApplyAccountState now pk from derived eff source reason).
Proof.
  apply keeps_require_pubkey. intros pk'. keeps_step.
  - apply keeps_update. row_le_solve.
  - apply keeps_transition.
Qed.

Lemma SetAccountManualOverride_history t0 now pk ov reason :
  keeps (history t0) (SetAccountManualOverride now pk ov reason).
Proof.
  apply keeps_require_pubkey. intros pk'. keeps_step;
    try apply keeps_transition; try (apply keeps_update; row_le_solve).
  apply keeps_exec. intros t. by apply insert_if_absent_history.
Qed.

Lemma PromoteAccountToTracked_history t0 now pk reason :
  keeps (history t0) (PromoteAccountToTracked now pk reason).
Proof.
  apply keeps_require_pubkey. intros pk'. keeps_step;
    try apply keeps_transition; try (apply keeps_update; row_le_solve).
  - apply keeps_exec. intros t. by apply insert_if_absent_history.
  - apply keeps_stmt. intros t t1 row1 Ht E. case_match; by simplify_eq.
Qed.

Lemma UpdateAccountCoverage_history t0 now pk h s o n e w :
  keeps (history t0) (UpdateAccountCoverage now pk h s o n e w).
Proof.
  apply keeps_require_pubkey. intros pk'. keeps_step. apply keeps_update. row_le_solve.
Qed.

Lemma BatchIncrement_history t0 now deltas :
  keeps (history t0) (BatchIncrementAccountObservations now deltas).
Proof.
  unfold BatchIncrementAccountObservations. set (rows := List.filter _ _).
  assert (Forall (λ kv, 0 < kv.2) rows) as Hpos.
  { apply List.Forall_forall. intros kv Hkv. apply filter_In in Hkv as [_ Hkv]. by bool_simpl. }
  clearbody rows. destruct rows as [|kv rows]; keeps_step.
  apply keeps_stmt. intros t t' u Ht E. by eapply observe_rows_history.
Qed.

Lemma Purge_history t0 cutoff limit :
  keeps (history t0) (PurgeAccountStateTransitionsOlderThan cutoff limit).
Proof.
  unfold PurgeAccountStateTransitionsOlderThan. keeps_step.
  apply keeps_stmt. intros t t' a Ht. destruct (_ <? 0); [done|]. by intros [= <- _].
Qed.

Lemma recompute_row_history t0 now row s :
  history t0 (tables s) → history t0 (tables (recompute_row now row s)).
Proof.
  intros Hs. unfold recompute_row. destruct (_ && _); [done|]. by apply ApplyAccountState_history.
Qed.

(** ** Successful runs *)

Lemma require_pubkey_ok {A} pk (k : string → go (db AccountTables) A) s s' a :
  require_pubkey pk k s = (s', Ok a) →
  norm_pubkey pk ≠ "" ∧ k (norm_pubkey pk) s = (s', Ok a).
Proof. unfold require_pubkey. by case_bool_decide. Qed.

Lemma update_row_ok pk f t t' u r :
  account_states t !! pk = Some r → update_row pk f t = Ok (t', u) →
  row_valid (f r) = true ∧ t' = with_accounts (insert pk (f r)) t.
Proof.
  unfold update_row. intros ->. destruct (row_valid (f r)); [|done]. by intros [= <-].
Qed.

(** The audit rows an operation adds. *)
Definition audit (t : AccountTables) (now : time) (pk from to source reason : string)
    : list Transition :=
  if bool_decide (to = from) then []
  else [mkTransition (next_id t) pk from to
          (if bool_decide (trim_space reason ≠ "") then Some reason else None) source now].

Lemma transition_ok now pk from to source reason s s' u :
  insertAccountStateTransition now pk from to source reason s = (s', Ok u) →
  account_states (tables s') = account_states (tables s) ∧
  transitions (tables s') = transitions (tables s) ++
    [mkTransition (next_id (tables s)) pk from to
       (if bool_decide (trim_space reason ≠ "") then Some reason else None) source now].
Proof. unfold insertAccountStateTransition. intros. go_inv. match goal with E : tables s' = _ |- _ => by rewrite E end. Qed.

(** The trailing conditional transition of an operation. *)
Lemma audit_ok now pk from to source reason s s' u :
  go_when (negb (bool_decide (to = from)))
    (insertAccountStateTransition now pk from to source reason) s = (s', Ok u) →
  account_states (tables s') = account_states (tables s) ∧
  transitions (tables s') = transitions (tables s) ++ audit (tables s) now pk from to source reason.
Proof.
  unfold audit. case_bool_decide; simpl.
  - intros. go_inv. by rewrite app_nil_r.
  - apply transition_ok.
Qed.

Lemma ApplyAccountState_ok now pk from derived eff source reason s s' u r :
  ApplyAccountState now pk from derived eff source reason s = (s', Ok u) →
  account_states (tables s) !! norm_pubkey pk = Some r →
  ∃ r', account_states (tables s') = <[norm_pubkey pk := r']> (account_states (tables s)) ∧
    a_state r' = eff ∧ a_derived r' = derived ∧ a_override r' = a_override r ∧
    a_first_tracked r' = a_first_tracked r ∧ a_observed r' = a_observed r ∧
    transitions (tables s') = transitions (tables s) ++
      audit (tables s) now (norm_pubkey pk) from eff source reason.
Proof.
  intros E Hr. apply require_pubkey_ok in E as [_ E]. go_inv.
  match goal with E : ApplyAccountStateUpdate _ _ _ _ _ = _, Ht : tables _ = tables s |- _ =>
    rewrite Ht in E; eapply update_row_ok in E as [_ Hx]; [|exact Hr] end.
  apply audit_ok in E as [Ha Htr]. rewrite Hx in Ha, Htr.
  match goal with Ht : tables s' = _ |- _ => rewrite Ht end.
  eexists. split; [exact Ha|]. split_and!; done.
Qed.

Lemma SetAccountManualOverride_ok now pk ov reason s s' prev r :
  SetAccountManualOverride now pk ov reason s = (s', Ok prev) →
  account_states (tables s) !! norm_pubkey pk = Some r →
  let o := norm_pubkey ov in
  let eff := if bool_decide (o = "") then a_derived r else o in
  prev = a_state r ∧
  ∃ r', account_states (tables s') = <[norm_pubkey pk := r']> (account_states (tables s)) ∧
    a_state r' = eff ∧ a_derived r' = a_derived r ∧
    a_override r' = (if bool_decide (o = "") then None else Some o) ∧
    a_first_tracked r' = a_first_tracked r ∧ row_valid r' = true ∧
    transitions (tables s') = transitions (tables s) ++
      audit (tables s) now (norm_pubkey pk) (a_state r) eff "manual" reason.
Proof.
  intros E Hr. apply require_pubkey_ok in E as [_ E]. go_inv. cbv zeta in *.
  match goal with Hq : _ = account_states (tables ?x) !! _, Ht : tables ?x = tables s |- _ =>
    rewrite Ht, Hr in Hq; subst end.
  go_inv.
  match goal with E : ApplyAccountManualOverride _ _ _ _ (tables ?x) = _ |- _ =>
    assert (tables x = tables s) as Hx by congruence; rewrite Hx in E;
    eapply update_row_ok in E as [Hv E]; [|exact Hr]; rename E into Ha end.
  match goal with E : go_when _ _ _ = _ |- _ => apply audit_ok in E as [Hs Htr] end.
  rewrite Ha in Hs, Htr.
  match goal with Ht : tables s' = _ |- _ => rewrite Ht end.
  split; [done|]. eexists. split; [exact Hs|]. split_and!; done.
Qed.

(** ** Runs without faults *)

Lemma update_row_clean pk f t r :
  account_states t !! pk = Some r → row_valid (f r) = true →
  update_row pk f t = Ok (with_accounts (insert pk (f r)) t, tt).
Proof. unfold update_row. by intros -> ->. Qed.

Definition audited (now : time) (pk from to source reason : string) (t : AccountTables)
    : AccountTables :=
  if bool_decide (to = from) then t
  else InsertTransition now pk from to
         (if bool_decide (trim_space reason ≠ "") then Some reason else None) source t.

Lemma audit_clean now pk from to source reason t :
  go_when (negb (bool_decide (to = from)))
    (insertAccountStateTransition now pk from to source reason) (mkDb t [])
  = (mkDb (audited now pk from to source reason t) [], Ok tt).
Proof.
  unfold audited. case_bool_decide; [done|]. apply wrap_clean, exec_clean.
Qed.

Lemma ApplyAccountState_clean now pk from derived eff source reason t r :
  norm_pubkey pk ≠ "" → account_states t !! norm_pubkey pk = Some r → row_valid r = true →
  ValidState derived = true → ValidState eff = true →
  ∃ t', ApplyAccountState now pk from derived eff source reason (mkDb t []) = (mkDb t' [], Ok tt) ∧
    trust_hops t' = trust_hops t ∧ has_profile t' = has_profile t ∧ note_counts t' = note_counts t.
Proof.
  intros Hpk Hr Hv Hd He. unfold ApplyAccountState, require_pubkey.
  rewrite bool_decide_eq_false_2 by done. unfold row_valid in Hv. bool_simpl.
  eexists. split.
  - apply tx_clean. erewrite bind_clean; [|apply wrap_clean, stmt_clean; apply update_row_clean; [done|]].
    + apply audit_clean.
    + unfold row_valid. simpl. by rewrite He, Hd.
  - unfold audited. by case_bool_decide.
Qed.

Lemma SetAccountManualOverride_clean now pk ov reason t r :
  norm_pubkey pk ≠ "" → account_states t !! norm_pubkey pk = Some r → row_valid r = true →
  ValidState (norm_pubkey ov) = true →
  ∃ t', SetAccountManualOverride now pk ov reason (mkDb t []) = (mkDb t' [], Ok (a_state r)).
Proof.
  intros Hpk Hr Hv Ho. unfold SetAccountManualOverride, require_pubkey.
  rewrite bool_decide_eq_false_2 by done. unfold row_valid in Hv. bool_simpl.
  eexists. apply tx_clean. erewrite bind_clean; [|apply wrap_clean, stmt_clean; reflexivity].
  rewrite Hr. erewrite bind_clean; [|reflexivity]. cbv zeta beta iota.
  erewrite bind_clean; [|apply wrap_clean, stmt_clean; apply update_row_clean; [exact Hr|]].
  - erewrite bind_clean; [reflexivity|]. apply audit_clean.
  - unfold row_valid. simpl. rewrite !bool_decide_eq_false_2 by (intros E; by rewrite E in Ho).
    rewrite Ho. match goal with E : ValidState (a_derived r) = true |- _ => by rewrite E end.
Qed.

(** ** Settled rows *)

(** The stored row agrees with what the recompute pass derives for it. *)
Definition settled (t : AccountTables) (pk : string) (r : AccountRow) : Prop :=
  row_derived (signal_row t (pk, r)) = a_derived r ∧
  row_effective (signal_row t (pk, r)) = a_state r.

Lemma valid_parses o : ValidState o = true → ParseState o = (o, true).
Proof.
  intros Hv. apply ValidState_spec in Hv. set_unfold in Hv.
  by repeat destruct Hv as [->|Hv]; subst.
Qed.

Lemma EffectiveState_valid d o b : ValidState (EffectiveState d o b) = true.
Proof.
  unfold EffectiveState. destruct (ValidState o) eqn:Eo; simpl.
  - case_match; [done|]. destruct (ValidState d) eqn:Ed; simpl; case_match; done.
  - destruct (ValidState d) eqn:Ed; simpl; case_match; done.
Qed.

Lemma row_derived_valid row : ValidState (row_derived row) = true.
Proof. apply Resolve_valid. Qed.

Lemma recompute_row_settled now row s :
  row_derived row = s_derived row → row_effective row = s_state row → recompute_row now row s = s.
Proof.
  intros H1 H2. unfold recompute_row. by rewrite !bool_decide_eq_true_2.
Qed.
End account_store_lemmas.

(** * Sequences of operations *)

Inductive AccountOp :=
| OpObserve (now : time) (deltas : gmap string Z)
| OpApply (now : time) (pubkey from derived effective source reason : string)
| OpOverride (now : time) (pubkey override reason : string)
| OpPromote (now : time) (pubkey reason : string)
| OpCoverage (now : time) (pubkey : string) (h s o n e : option time) (w : option Z)
| OpPurge (cutoff : time) (limit : Z)
| OpRecompute (now : time) (batchSize : Z) (staleBefore : time).

Section account_guarantees.
Context `{UnicodeTables}.

Definition run_op (s : db AccountTables) (op : AccountOp) : db AccountTables :=
  match op with
  | OpObserve now deltas => (BatchIncrementAccountObservations now deltas s).1
  | OpApply now pk f d e src rs => (ApplyAccountState now pk f d e src rs s).1
  | OpOverride now pk o rs => (SetAccountManualOverride now pk o rs s).1
  | OpPromote now pk rs => (PromoteAccountToTracked now pk rs s).1
  | OpCoverage now pk h su o n e w => (UpdateAccountCoverage now pk h su o n e w s).1
  | OpPurge c l => (PurgeAccountStateTransitionsOlderThan c l s).1
  | OpRecompute now b st => recomputeAccountStatesOnce now b st s
  end.

Lemma recompute_once_history t0 now b st s :
  history t0 (tables s) → history t0 (tables (recomputeAccountStatesOnce now b st s)).
Proof.
  intros Hs. unfold recomputeAccountStatesOnce.
  destruct (ListAccountSignalsForRecompute b st s) as [s' [rows|e]] eqn:E.
  - assert (history t0 (tables s')) as Hs'.
    { change s' with (s', Ok rows).1. rewrite <-E. unfold ListAccountSignalsForRecompute.
      apply keeps_wrap; [apply keeps_query|done]. }
    clear E. revert s' Hs'. induction rows as [|row rows IH]; intros s' Hs'; simpl; [done|].
    by apply IH, recompute_row_history.
  - change s' with (s', Err e : result (list AccountSignalRow)).1. rewrite <-E.
    unfold ListAccountSignalsForRecompute. apply keeps_wrap; [apply keeps_query|done].
Qed.

(** C17: Whatever sequence of store operations runs, with whatever statements
    failing, the rows stay within the table's constraints and no account is
    lost, un-tracked, or made younger; its version and observation count never
    decrease. *)
Theorem account_history s ops :
  accounts_wf (tables s) →
  accounts_wf (tables (foldl run_op s ops)) ∧
  accounts_grow (tables s) (tables (foldl run_op s ops)).
Proof.
  intros Hwf. assert (history (tables s) (tables s)) as Hh by (split; [done|apply accounts_grow_refl]).
  revert Hh. generalize (tables s) at 1 3 as t0. intros t0. clear Hwf. revert s.
  induction ops as [|op ops IH]; intros s Hh; simpl; [exact Hh|]. apply IH.
  destruct op; simpl; revert s Hh.
  - apply BatchIncrement_history.
  - apply ApplyAccountState_history.
  - apply SetAccountManualOverride_history.
  - apply PromoteAccountToTracked_history.
  - apply UpdateAccountCoverage_history.
  - apply Purge_history.
  - intros s0 Hh. by apply recompute_once_history.
Qed.

(** A manual override always wins: on success the account's state is the
    override, the previous state is returned, tracking is untouched, no other
    account changes, and exactly a change of state is audited. *)
Theorem override_wins now pk ov reason s s' prev r :
  SetAccountManualOverride now pk ov reason s = (s', Ok prev) →
  account_states (tables s) !! norm_pubkey pk = Some r → norm_pubkey ov ≠ "" →
  prev = a_state r ∧ ValidState (norm_pubkey ov) = true ∧
  ∃ r', account_states (tables s') = <[norm_pubkey pk := r']> (account_states (tables s)) ∧
    a_state r' = norm_pubkey ov ∧ a_override r' = Some (norm_pubkey ov) ∧
    a_first_tracked r' = a_first_tracked r ∧
    transitions (tables s') = transitions (tables s) ++
      audit (tables s) now (norm_pubkey pk) (a_state r) (norm_pubkey ov) "manual" reason.
Proof.
  intros E Hr Ho. destruct (SetAccountManualOverride_ok _ _ _ _ _ _ _ _ E Hr)
    as (Hp & r' & Hs & H1 & H2 & H3 & H4 & H5 & H6).
  rewrite bool_decide_eq_false_2 in H1, H3, H6 by done.
  split; [done|]. split.
  - unfold row_valid in H5. bool_simpl. congruence.
  - exists r'. split_and!; done.
Qed.

(** Clearing the override of a tracked account stores the derived state:
    the account loses its tracked state although it is still tracked, so its
    content is refused at ingest until the next recompute pass. *)
Theorem clear_override_drops_tracked now pk reason s s' prev r x sig p :
  SetAccountManualOverride now pk "" reason s = (s', Ok prev) →
  account_states (tables s) !! norm_pubkey pk = Some r →
  a_first_tracked r = Some x → a_derived r = Resolve sig p →
  ∃ r', account_states (tables s') !! norm_pubkey pk = Some r' ∧
    a_override r' = None ∧ a_first_tracked r' = Some x ∧
    IngestAccepted (a_state r') = false ∧
    EffectiveState (a_derived r') "" true = StateTracked.
Proof.
  intros E Hr Hx Hd. destruct (SetAccountManualOverride_ok _ _ _ _ _ _ _ _ E Hr)
    as (Hp & r' & Hs & H1 & H2 & H3 & H4 & H5 & H6).
  assert (norm_pubkey "" = "") as Hn by done.
  rewrite Hn, bool_decide_eq_true_2 in H1, H3 by done.
  exists r'. rewrite Hs, lookup_insert_eq. split_and!; try done; [congruence| |].
  - rewrite H1, Hd. pose proof (Resolve_cases sig p) as Hc. unfold IngestAccepted.
    apply bool_decide_eq_false_2. intros Hin. set_unfold. destruct_or! Hin; rewrite Hin in Hc;
      by destruct_or! Hc.
  - rewrite H2, Hd. by apply EffectiveState_derived.
Qed.

(** A recompute of a row that nobody changed in between settles it: the
    stored state is the effective state of the stored override, tracking and
    freshly derived state, and a second pass changes nothing. *)
Theorem recompute_settles now now' pk r t :
  norm_pubkey pk = pk → pk ≠ "" → accounts_wf t → account_states t !! pk = Some r →
  let s1 := recompute_row now (signal_row t (pk, r)) (mkDb t []) in
  ∃ r1, account_states (tables s1) !! pk = Some r1 ∧ settled (tables s1) pk r1 ∧
    a_override r1 = a_override r ∧
    recompute_row now' (signal_row (tables s1) (pk, r1)) s1 = s1.
Proof.
  intros Hn Hne Hwf Hr s1. specialize (Hwf pk r Hr). set (row := signal_row t (pk, r)) in *.
  destruct (decide (row_derived row = s_derived row ∧ row_effective row = s_state row)) as [Hd|Hd].
  - destruct Hd as [Hd He].
    assert (s1 = mkDb t []) as -> by (by apply recompute_row_settled). exists r.
    split_and!; try done. by apply recompute_row_settled.
  - destruct (ApplyAccountState_clean now pk (s_state row) (row_derived row) (row_effective row)
      "derived" "recompute" t r) as (t' & E & E1 & E2 & E3);
      rewrite ?Hn; auto using row_derived_valid, EffectiveState_valid; [apply EffectiveState_valid|].
    assert (s1 = mkDb t' []) as ->.
    { unfold s1, recompute_row. destruct (_ && _) eqn:Eb; [bool_simpl; tauto|].
      unfold row at 1. cbn [signal_row s_pubkey]. by rewrite E. }
    eapply ApplyAccountState_ok in E as (r1 & Hs & H1 & H2 & H3 & H4 & H5 & _); [|by rewrite Hn].
    cbn [tables] in *. exists r1. rewrite Hn in Hs.
    assert (account_states t' !! pk = Some r1) as Hr1 by (by rewrite Hs, lookup_insert_eq).
    assert (signal_row t' (pk, r1)
            = mkSignalRow pk (s_trust_hops row) (s_observed row) (s_profile row) (s_notes row)
                (row_effective row) (row_derived row) (s_override row) (s_tracked row)) as Hrow.
    { unfold signal_row, row. simpl. by rewrite E1, E2, E3, H1, H2, H3, H4, H5. }
    assert (settled t' pk r1) as Hset.
    { unfold settled. rewrite Hrow, H1, H2. done. }
    split_and!; try done. apply recompute_row_settled; apply Hset.
Qed.

(** A recompute pass that read a row before an administrator blocked the
    account, and writes after, undoes the block: the override is stored but the
    state is the stale one, which the ingest gate reads as not blocked. *)
Theorem stale_recompute_unblocks now now' pk r t :
  norm_pubkey pk = pk → pk ≠ "" → accounts_wf t → account_states t !! pk = Some r →
  a_override r = None → ¬ settled t pk r →
  let row := signal_row t (pk, r) in
  let s1 := (SetAccountManualOverride now pk "blocked" "" (mkDb t [])).1 in
  let s2 := recompute_row now' row s1 in
  ∃ r2, account_states (tables s2) !! pk = Some r2 ∧ a_override r2 = Some StateBlocked ∧
    a_state r2 = row_effective row ∧ a_state r2 ≠ StateBlocked.
Proof.
  intros Hn Hne Hwf Hr Ho Hns row s1 s2. specialize (Hwf pk r Hr).
  assert (norm_pubkey "blocked" = "blocked") as Hb by done.
  destruct (SetAccountManualOverride_clean now pk "blocked" "" t r) as (t1 & E1);
    rewrite ?Hn; try done.
  assert (s1 = mkDb t1 []) as Hs1 by (unfold s1; by rewrite E1).
  eapply SetAccountManualOverride_ok in E1 as (_ & r1 & Hm1 & H1 & H2 & H3 & H4 & H5 & _);
    [|by rewrite Hn]. rewrite Hb, bool_decide_eq_false_2 in H1, H3 by done. rewrite Hn in Hm1.
  cbn [tables] in Hm1.
  assert (account_states t1 !! pk = Some r1) as Hr1 by (by rewrite Hm1, lookup_insert_eq).
  destruct (ApplyAccountState_clean now' pk (s_state row) (row_derived row) (row_effective row)
    "derived" "recompute" t1 r1) as (t2 & E2 & _);
    rewrite ?Hn; auto using row_derived_valid; [apply EffectiveState_valid|].
  assert (s2 = mkDb t2 []) as ->.
  { unfold s2, recompute_row. rewrite Hs1. destruct (_ && _) eqn:Eb.
    - bool_simpl. exfalso. by apply Hns.
    - unfold row at 1. cbn [signal_row s_pubkey]. by rewrite E2. }
  eapply ApplyAccountState_ok in E2 as (r2 & Hm2 & K1 & K2 & K3 & _); [|by rewrite Hn].
  exists r2. cbn [tables] in *. rewrite Hm2, Hn, lookup_insert_eq.
  split_and!; [done|by rewrite K3, H3|done|]. rewrite K1. unfold row_effective, row_override, row.
  cbn [signal_row s_override]. rewrite Ho.
  apply effective_not_blocked.
Qed.

(** The recompute pass never passes the engagement count on, so no account
    is ever derived as meaningful. *)
Theorem recompute_never_meaningful row : row_derived row ≠ StateMeaningful.
Proof.
  unfold row_derived, Resolve. simpl. rewrite andb_false_r. repeat case_match; done.
Qed.
End account_guarantees.

(** * Evaluation *)

Definition demo_row (state derived : string) (override : option string) (tracked : option time)
    : AccountRow :=
  mkAccountRow state derived override 1 tracked 1 7 None None None None None None 1 0.

Definition demo_tables (r : AccountRow) : AccountTables :=
  mkAccountTables {[ "ab" := r ]} [] 1 {[ "ab" := 1 ]} ∅ ∅.

Lemma demo_wf r : row_valid r = true → accounts_wf (demo_tables r).
Proof. intros Hr. by apply map_Forall_singleton. Qed.

Lemma account_history_witness :
  let r := demo_row "candidate" "candidate" None None in
  let ops := [OpPromote 5 "AB" "asked"; OpOverride 6 "ab" "blocked" ""; OpObserve 7 {[ "cd" := 2 ]};
              OpRecompute 8 10 0; OpOverride 9 "ab" "" ""; OpPurge 100 1] in
  accounts_grow (demo_tables r)
    (tables (foldl (@run_op ascii_tables) (mkDb (demo_tables r) [None; Some "timeout"]) ops)).
Proof.
  intros r ops.
  apply (@account_history ascii_tables (mkDb (demo_tables r) [None; Some "timeout"]) ops).
  by apply demo_wf.
Defined.

Lemma override_wins_witness :
  let r := demo_row "tracked" "candidate" None (Some 3) in
  let run := @SetAccountManualOverride ascii_tables 9 "AB" " Blocked " "spam" (mkDb (demo_tables r) []) in
  ∃ r', account_states (tables run.1) !! "ab" = Some r' ∧ a_state r' = "blocked" ∧
    length (transitions (tables run.1)) = 1%nat.
Proof.
  intros r run.
  destruct (@override_wins ascii_tables 9 "AB" " Blocked " "spam" (mkDb (demo_tables r) [])
              run.1 "tracked" r) as (_ & _ & r' & Hm & Hst & _ & _ & Htr).
  - vm_compute. reflexivity.
  - vm_compute. reflexivity.
  - vm_compute. discriminate.
  - exists r'. rewrite Hm, Hst, Htr. split_and!; vm_compute; reflexivity.
Defined.

Lemma clear_override_drops_tracked_witness :
  let r := demo_row "strategic" "candidate" (Some "strategic") (Some 3) in
  let run := @SetAccountManualOverride ascii_tables 9 "ab" "" "" (mkDb (demo_tables r) []) in
  ∃ r', account_states (tables run.1) !! "ab" = Some r' ∧ a_override r' = None ∧
    a_first_tracked r' = Some 3 ∧ IngestAccepted (a_state r') = false ∧
    EffectiveState (a_derived r') "" true = StateTracked.
Proof.
  intros r run.
  apply (@clear_override_drops_tracked ascii_tables 9 "ab" "" (mkDb (demo_tables r) []) run.1
           "strategic" r 3 (mkSignals (-1) 9 0 true 0) DefaultParams); vm_compute; reflexivity.
Defined.

Lemma recompute_settles_witness :
  let r := demo_row "unknown" "unknown" None None in
  let t := demo_tables r in
  let s1 := @recompute_row ascii_tables 4 (signal_row t ("ab", r)) (mkDb t []) in
  ∃ r1, account_states (tables s1) !! "ab" = Some r1 ∧ @settled ascii_tables (tables s1) "ab" r1 ∧
    a_override r1 = None ∧
    @recompute_row ascii_tables 5 (signal_row (tables s1) ("ab", r1)) s1 = s1.
Proof.
  intros r t s1. apply (@recompute_settles ascii_tables 4 5 "ab" r t).
  - vm_compute. reflexivity.
  - discriminate.
  - by apply demo_wf.
  - vm_compute. reflexivity.
Defined.

Lemma stale_recompute_unblocks_witness :
  let r := demo_row "unknown" "unknown" None None in
  let t := demo_tables r in
  let s1 := (@SetAccountManualOverride ascii_tables 4 "ab" "blocked" "" (mkDb t [])).1 in
  let s2 := @recompute_row ascii_tables 5 (signal_row t ("ab", r)) s1 in
  ∃ r2, account_states (tables s2) !! "ab" = Some r2 ∧ a_override r2 = Some StateBlocked ∧
    a_state r2 = @row_effective ascii_tables (signal_row t ("ab", r)) ∧ a_state r2 ≠ StateBlocked.
Proof.
  intros r t s1 s2. apply (@stale_recompute_unblocks ascii_tables 4 5 "ab" r t).
  - vm_compute. reflexivity.
  - discriminate.
  - by apply demo_wf.
  - vm_compute. reflexivity.
  - reflexivity.
  - intros [Hd _]. vm_compute in Hd. discriminate.
Defined.
