(* ===== verification/TrustedSet.v ===== *)
(** The ingestor's in-memory views: the trusted-author set
    ([internal/ingestor/runtime/trusted_set.go]) and the observation buffer
    ([observation.go]).

    Receivers and loaders are pointers that may be nil, hence [option]. *)

From S2P Require Import Prelude GoLib.

(** * Trusted authors *)

Record TrustedAuthorSet := mkTrusted {
  maxHops : Z;
  members : gset string;
  blocked : gset string;
  loaded : bool;
  lastRefreshAt : time;
}.

(** What one refresh is told by its loader: the trusted pubkeys within
    [maxHops], and, for a loader that also knows account states, the accepted
    and the blocked pubkeys. Each load may fail on its own. *)
Record Loader := mkLoader {
  LoadTrusted : Z → result (list string);
  AccountStates : option (result (list string) * result (list string));
}.

Definition NewTrustedAuthorSet (maxHops : Z) : TrustedAuthorSet :=
  mkTrusted (if maxHops <? 0 then 0 else maxHops) ∅ ∅ false 0.

Section trusted_set.
Context `{UnicodeTables}.

Definition norm (p : string) : string := to_lower (trim_space p).

Definition lookup_in (sel : TrustedAuthorSet → gset string) (t : option TrustedAuthorSet)
    (pubkey : string) : bool :=
  match t with
  | None => false
  | Some t =>
      if bool_decide (norm pubkey = "") then false else bool_decide (norm pubkey ∈ sel t)
  end.

Definition TBlocked : option TrustedAuthorSet → string → bool := lookup_in blocked.
Definition TContains : option TrustedAuthorSet → string → bool := lookup_in members.

Definition TLoaded (t : option TrustedAuthorSet) : bool :=
  match t with None => false | Some t => loaded t end.

Definition TSize (t : option TrustedAuthorSet) : Z :=
  match t with None => 0 | Some t => Z.of_nat (size (members t)) end.

Definition TLastRefreshAt (t : option TrustedAuthorSet) : time :=
  match t with None => 0 | Some t => lastRefreshAt t end.

(** The loop that adds each non-empty normalized pubkey to a set. *)
Definition add_all (acc : gset string) (pubkeys : list string) : gset string :=
  foldl (λ acc p, if bool_decide (norm p = "") then acc else {[norm p]} ∪ acc) acc pubkeys.

Definition Refresh (now : time) (t : option TrustedAuthorSet) (loader : option Loader)
    : option TrustedAuthorSet * result unit :=
  match t, loader with
  | None, _ => (t, Err "trusted author set is nil")
  | Some _, None => (t, Err "trusted author loader is nil")
  | Some s, Some l =>
      match LoadTrusted l (maxHops s) with
      | Err e => (t, Err e)
      | Ok pubkeys =>
          let m0 := add_all ∅ pubkeys in
          let '(m, b) :=
            match AccountStates l with
            | None => (m0, ∅)
            | Some (accept, blk) =>
                (match accept with Ok a => add_all m0 a | Err _ => m0 end,
                 match blk with Ok k => add_all ∅ k | Err _ => ∅ end)
            end in
          (Some (mkTrusted (maxHops s) m b true now), Ok tt)
      end
  end.

Lemma add_all_spec acc l p :
  p ∈ add_all acc l ↔ p ∈ acc ∨ (p ≠ "" ∧ ∃ q, q ∈ l ∧ norm q = p).
Proof.
  unfold add_all. revert acc. induction l as [|q l IH]; intros acc; simpl; [set_solver|].
  rewrite IH. case_bool_decide as Hq; set_solver.
Qed.

(** The pubkeys a successful refresh must accept. *)
Definition accepted_by (l : Loader) (hops : Z) (p : string) : Prop :=
  (∃ keys q, LoadTrusted l hops = Ok keys ∧ q ∈ keys ∧ norm q = p) ∨
  (∃ keys blk q, AccountStates l = Some (Ok keys, blk) ∧ q ∈ keys ∧ norm q = p).

(** A refresh either fails and leaves the set untouched, or succeeds and
    the set then contains exactly the trusted pubkeys and those of the accepted
    account states, compared up to case and white space; once loaded, a set
    stays loaded. *)
Theorem Refresh_spec now s l :
  match Refresh now (Some s) (Some l) with
  | (t, Err e) => t = Some s ∧ LoadTrusted l (maxHops s) = Err e
  | (t, Ok _) =>
      (∀ p, TContains t p = true ↔ norm p ≠ "" ∧ accepted_by l (maxHops s) (norm p)) ∧
      TLoaded t = true ∧ TLastRefreshAt t = now
  end.
Proof.
  unfold Refresh. destruct (LoadTrusted l (maxHops s)) as [keys|e] eqn:E; [|done].
  destruct (AccountStates l) as [[accept blk]|] eqn:Ea; (split; [|done]); intros p;
    unfold TContains, lookup_in, accepted_by; simpl; rewrite E, Ea;
    (destruct (bool_decide (norm p = "")) eqn:Ep; bool_simpl; [naive_solver|]);
    rewrite bool_decide_eq_true.
  - destruct accept as [a|e].
    + rewrite !add_all_spec. set_unfold. split.
      * intros [[[]|(_ & q & Hq & Hn)]|(_ & q & Hq & Hn)]; (split; [done|]);
          [left|right]; eauto 10.
      * intros [_ [(k & q & [= <-] & Hq & Hn)|(k & b & q & [= <- <-] & Hq & Hn)]]; eauto 10.
    + rewrite add_all_spec. set_unfold. split.
      * intros [[]|(_ & q & Hq & Hn)]. split; [done|]. left. eauto 10.
      * intros [_ [(k & q & [= <-] & Hq & Hn)|(k & b & q & [=] & _)]]. eauto 10.
  - rewrite add_all_spec. set_unfold. split.
    + intros [[]|(_ & q & Hq & Hn)]. split; [done|]. left. eauto 10.
    + intros [_ [(k & q & [= <-] & Hq & Hn)|(k & b & q & [=] & _)]]. eauto 10.
Qed.

(** When the trusted load succeeds but the load of the blocked pubkeys
    fails, the refresh reports success and every previously blocked author is
    unblocked. *)
Theorem Refresh_blocked_failure now s l keys accept e p :
  LoadTrusted l (maxHops s) = Ok keys → AccountStates l = Some (accept, Err e) →
  TBlocked (Some s) p = true →
  ∃ t, Refresh now (Some s) (Some l) = (t, Ok tt) ∧ TBlocked t p = false.
Proof.
  intros Hk Ha _. unfold Refresh. rewrite Hk, Ha. eexists. split; [done|].
  unfold TBlocked, lookup_in. simpl. by case_match.
Qed.
End trusted_set.

Lemma Refresh_blocked_failure_witness :
  let s := mkTrusted 2 {[ "ok" ]} {[ "spam" ]} true 5 in
  let l := mkLoader (λ _, Ok ["ok"]) (Some (Ok [], Err "timeout")) in
  @TBlocked ascii_tables (Some s) "SPAM" = true ∧
  ∃ t, @Refresh ascii_tables 9 (Some s) (Some l) = (t, Ok tt) ∧
       @TBlocked ascii_tables t "SPAM" = false.
Proof.
  intros s l. split; [vm_compute; reflexivity|].
  apply (@Refresh_blocked_failure ascii_tables 9 s l ["ok"] (Ok []) "timeout" "SPAM");
    vm_compute; reflexivity.
Defined.

(** * Observations *)

Record ObservationBuffer := mkObs {
  counts : gmap string Z;
  maxKeys : Z;
}.

Definition NewObservationBuffer (maxKeys : Z) : ObservationBuffer := mkObs ∅ maxKeys.

Section observations.
Context `{UnicodeTables}.

Definition Observe (b : ObservationBuffer) (pubkey : string) : ObservationBuffer :=
  let pubkey := norm pubkey in
  if bool_decide (pubkey = "") then b
  else
    match counts b !! pubkey with
    | None =>
        if (0 <? maxKeys b) && (maxKeys b <=? Z.of_nat (size (counts b))) then b
        else mkObs (<[pubkey := i64 (0 + 1)]> (counts b)) (maxKeys b)
    | Some n => mkObs (<[pubkey := i64 (n + 1)]> (counts b)) (maxKeys b)
    end.

(** [drain] returns nil for an empty buffer. *)
Definition drain (b : ObservationBuffer) : ObservationBuffer * option (gmap string Z) :=
  if decide (counts b = ∅) then (b, None)
  else (mkObs ∅ (maxKeys b), Some (counts b)).

(** One flush: what was drained is handed to the store; if the store fails,
    nothing is put back. [persist] is the outcome of the store call. *)
Definition flush (b : ObservationBuffer) (persist : gmap string Z → result unit)
    : ObservationBuffer * option (gmap string Z * bool) :=
  match drain b with
  | (b', None) => (b', None)
  | (b', Some deltas) => (b', Some (deltas, is_ok (persist deltas)))
  end.

(** The keys observed, in order. *)
Definition observed_keys (ps : list string) : list string :=
  List.filter (λ p, negb (bool_decide (p = ""))) (map norm ps).

Definition occurrences (p : string) (l : list string) : Z :=
  Z.of_nat (length (List.filter (λ q, bool_decide (q = p)) l)).

(** The keys a buffer keeps: the first [maxKeys] distinct ones. *)
Definition kept_keys (maxKeys : Z) (ks : list string) : list string :=
  if 0 <? maxKeys then take (Z.to_nat maxKeys) (dedup_first ks) else dedup_first ks.

Definition buffer_inv (ks : list string) (b : ObservationBuffer) : Prop :=
  ∀ k, counts b !! k
       = if bool_decide (k ∈ kept_keys (maxKeys b) ks) then Some (occurrences k ks) else None.

Lemma NoDup_kept_keys n ks : NoDup (kept_keys n ks).
Proof.
  unfold kept_keys. destruct (0 <? n); [|apply NoDup_dedup_first].
  eapply sublist_NoDup; [apply NoDup_dedup_first|apply sublist_take].
Qed.

Lemma kept_keys_elem n ks k : k ∈ kept_keys n ks → k ∈ ks.
Proof.
  unfold kept_keys. destruct (0 <? n); intros Hk.
  - apply elem_of_take in Hk as (i & Hi & _).
    by eapply elem_of_dedup_first, list_elem_of_lookup_2.
  - by apply elem_of_dedup_first.
Qed.

Lemma buffer_inv_size ks b :
  buffer_inv ks b → size (counts b) = length (kept_keys (maxKeys b) ks).
Proof.
  intros Hinv. rewrite <-(size_dom (D := gset string)).
  assert (dom (counts b) = (list_to_set (kept_keys (maxKeys b) ks) : gset string)) as ->.
  { apply set_eq. intros k. rewrite elem_of_dom, elem_of_list_to_set, (Hinv k).
    case_bool_decide; naive_solver. }
  apply size_list_to_set, NoDup_kept_keys.
Qed.

Lemma occurrences_snoc k ks x :
  occurrences k (ks ++ [x]) = occurrences k ks + (if bool_decide (x = k) then 1 else 0).
Proof.
  unfold occurrences. rewrite List.filter_app, length_app. simpl. case_bool_decide; simpl; lia.
Qed.

Lemma occurrences_bound k ks : 0 ≤ occurrences k ks ≤ Z.of_nat (length ks).
Proof. unfold occurrences. pose proof (filter_length_le (λ q, bool_decide (q = k)) ks). lia. Qed.

Lemma occurrences_absent k ks : k ∉ ks → occurrences k ks = 0.
Proof.
  unfold occurrences. induction ks as [|x ks IH]; intros Hk; simpl; [done|].
  rewrite not_elem_of_cons in Hk. rewrite bool_decide_eq_false_2 by naive_solver. naive_solver.
Qed.

(** A buffer with a free slot keeps every key seen so far. *)
Lemma kept_keys_free n ks :
  n ≤ 0 ∨ Z.of_nat (length (kept_keys n ks)) < n → kept_keys n ks = dedup_first ks.
Proof.
  unfold kept_keys. destruct (0 <? n) eqn:E; bool_simpl; [|done].
  intros [?|Hl]; [lia|]. rewrite length_take in Hl. apply take_ge. lia.
Qed.

Lemma kept_keys_snoc n ks x :
  kept_keys n (ks ++ [x])
  = if bool_decide (x ∈ kept_keys n ks) || ((0 <? n) && (n <=? Z.of_nat (length (kept_keys n ks))))
    then kept_keys n ks else kept_keys n ks ++ [x].
Proof.
  destruct (bool_decide (x ∈ kept_keys n ks)) eqn:Ex; bool_simpl; simpl.
  { apply kept_keys_elem in Ex. unfold kept_keys. rewrite dedup_first_snoc.
    by rewrite bool_decide_eq_true_2, app_nil_r. }
  destruct (_ && _) eqn:Ef; bool_simpl.
  - unfold kept_keys in *. rewrite (proj2 (Z.ltb_lt _ _)) in * by done.
    rewrite length_take in *. rewrite dedup_first_snoc, take_app_le by lia. done.
  - assert (n ≤ 0 ∨ Z.of_nat (length (kept_keys n ks)) < n) as Hfree
      by (apply andb_false_iff in Ef as [?|?]; bool_simpl; lia).
    rewrite (kept_keys_free n ks Hfree) in *. rewrite elem_of_dedup_first in Ex.
    pose proof (dedup_first_snoc ks x) as Hs. rewrite bool_decide_eq_false_2 in Hs by done.
    rewrite <-Hs. unfold kept_keys. destruct (0 <? n) eqn:En; bool_simpl; [|done].
    apply take_ge. rewrite Hs, length_app. simpl. lia.
Qed.

Lemma Observe_inv ks b p :
  buffer_inv ks b → norm p ≠ "" → Z.of_nat (length ks) < max_int64 →
  buffer_inv (ks ++ [norm p]) (Observe b p) ∧ maxKeys (Observe b p) = maxKeys b.
Proof.
  intros Hinv Hp Hlen. unfold Observe. rewrite bool_decide_eq_false_2 by done.
  pose proof (buffer_inv_size _ _ Hinv) as Hsize. generalize (norm p). intros x.
  pose proof (Hinv x) as Hx. pose proof (kept_keys_snoc (maxKeys b) ks x) as Hsn.
  rewrite Hsize. destruct (bool_decide (x ∈ kept_keys (maxKeys b) ks)) eqn:Ex; rewrite Hx.
  - split; [|done]. intros k. simpl in *. rewrite Hsn. bool_simpl.
    pose proof (occurrences_bound x ks). rewrite occurrences_snoc.
    destruct (decide (x = k)) as [<-|Hne].
    + rewrite lookup_insert_eq, !bool_decide_eq_true_2 by done.
      rewrite i64_id; [done|]. unfold min_int64, max_int64, two63 in *. lia.
    + rewrite lookup_insert_ne, (Hinv k) by done.
      rewrite (bool_decide_eq_false_2 (x = k)) by done. by rewrite Z.add_0_r.
  - simpl in Hsn. bool_simpl. destruct (_ && _) eqn:Ef; (split; [|done]); intros k; simpl;
      rewrite Hsn, occurrences_snoc.
    + rewrite (Hinv k). case_bool_decide as Hk; [|done].
      rewrite bool_decide_eq_false_2 by (intros ->; done). by rewrite Z.add_0_r.
    + assert (maxKeys b ≤ 0 ∨ Z.of_nat (length (kept_keys (maxKeys b) ks)) < maxKeys b) as Hfree
        by (apply andb_false_iff in Ef as [?|?]; bool_simpl; lia).
      assert (x ∉ ks) as Hnew by (by rewrite (kept_keys_free _ _ Hfree), elem_of_dedup_first in Ex).
      destruct (decide (x = k)) as [<-|Hne].
      * rewrite lookup_insert_eq, occurrences_absent, !bool_decide_eq_true_2 by set_solver. done.
      * rewrite lookup_insert_ne, (Hinv k), (bool_decide_eq_false_2 (x = k)), Z.add_0_r by done.
        repeat case_bool_decide; set_solver.
Qed.

(** After any sequence of observations a buffer holds exactly the first
    [maxKeys] distinct normalized pubkeys (all of them when it is unbounded),
    each with the number of times it was observed. *)
Theorem Observe_counts cap ps k :
  Z.of_nat (length ps) ≤ max_int64 →
  counts (foldl Observe (NewObservationBuffer cap) ps) !! k
  = if bool_decide (k ∈ kept_keys cap (observed_keys ps))
    then Some (occurrences k (observed_keys ps)) else None.
Proof.
  intros Hlen.
  enough (buffer_inv (observed_keys ps) (foldl Observe (NewObservationBuffer cap) ps) ∧
          maxKeys (foldl Observe (NewObservationBuffer cap) ps) = cap) as [Hi Hm]
    by (specialize (Hi k); by rewrite Hm in Hi).
  induction ps as [|p ps IH] using rev_ind.
  { split; [|done]. intros k'. unfold kept_keys, observed_keys. simpl.
    destruct (0 <? cap); [by destruct (Z.to_nat cap)|done]. }
  rewrite length_app in Hlen. simpl in Hlen. destruct IH as [Hi Hm]; [lia|].
  rewrite foldl_app. cbn [foldl]. unfold observed_keys in *.
  rewrite map_app, List.filter_app. simpl.
  destruct (decide (norm p = "")) as [Hp|Hp].
  - rewrite bool_decide_eq_true_2 by done. simpl. rewrite app_nil_r.
    unfold Observe. rewrite bool_decide_eq_true_2 by done. done.
  - rewrite bool_decide_eq_false_2 by done. simpl.
    destruct (Observe_inv _ _ p Hi Hp) as [Hi' Hm']; [|by rewrite Hm'].
    pose proof (filter_length_le (λ q, negb (bool_decide (q = ""))) (map norm ps)) as Hle.
    rewrite length_map in Hle. lia.
Qed.

(** A flush hands every buffered count to the store and empties the buffer,
    whether the store accepts it or not; an empty buffer makes no store call. *)
Theorem flush_drains b persist :
  let '(b', sent) := flush b persist in
  counts b' = ∅ ∧ maxKeys b' = maxKeys b ∧
  (counts b = ∅ → sent = None) ∧
  (counts b ≠ ∅ → sent = Some (counts b, is_ok (persist (counts b)))).
Proof.
  unfold flush, drain. destruct (decide (counts b = ∅)) as [He|He]; simpl; naive_solver.
Qed.
End observations.

Lemma Observe_counts_witness :
  counts (foldl (@Observe ascii_tables) (NewObservationBuffer 2) ["A"; "b"; " a"; "c"; ""]) !! "a"
  = Some 2.
Proof.
  rewrite (@Observe_counts ascii_tables 2 ["A"; "b"; " a"; "c"; ""] "a") by (vm_compute; discriminate).
  vm_compute. reflexivity.
Defined.
