(* ===== verification/Zap.v ===== *)
(** Zap receipts, [internal/derivation/zap_amount.go] with the helpers
    [firstTagValue] and [parseZapAmountSats] of [handlers_helpers.go]: who paid
    a kind-9735 receipt and how many satoshis it carries, from its amount tag,
    from the zap request in its description or from its BOLT11 invoice. *)

From S2P Require Import Prelude GoLib Json.

(** * Decoding into slices *)

(** A Go slice with the elements of its backing array: a decoder that meets the
    same member again decodes into the elements that are already there, those
    past the current length included. *)
Record slice (A : Type) := mkSlice {
  backing : list A;
  slen : nat;
}.
Arguments mkSlice {A} backing slen.
Arguments backing {A} s.
Arguments slen {A} s.

Definition nil_slice {A} : slice A := mkSlice [] 0.

Definition elems {A} (s : slice A) : list A := take (slen s) (backing s).

Fixpoint decode_elems {A} (zero : A) (dec : A → json → option A) (old : list A) (vs : list json)
    : option (list A) :=
  match vs with
  | [] => Some old
  | v :: vs =>
      let '(a, rest) := match old with [] => (zero, []) | a :: rest => (a, rest) end in
      match dec a v, decode_elems zero dec rest vs with
      | Some b, Some r => Some (b :: r)
      | _, _ => None
      end
  end.

(** An empty array and [null] replace the slice by an empty one. *)
Definition decode_slice {A} (zero : A) (dec : A → json → option A) (old : slice A) (v : json)
    : option (slice A) :=
  match v with
  | JNull | JArr [] => Some nil_slice
  | JArr vs =>
      match decode_elems zero dec (backing old) vs with
      | Some l => Some (mkSlice l (length vs))
      | None => None
      end
  | _ => None
  end.

(** * Tags *)

Fixpoint firstTagValue (tags : list (list string)) (tagName : string) : string :=
  match tags with
  | [] => ""
  | (t0 :: t1 :: _) :: tags =>
      if bool_decide (t0 = tagName) && negb (bool_decide (trim_space t1 = "")) then trim_space t1
      else firstTagValue tags tagName
  | _ :: tags => firstTagValue tags tagName
  end.

Definition parseZapAmountSats (raw : string) : Z :=
  let raw := trim_space raw in
  if bool_decide (raw = "") then 0
  else match parse_int (bytes raw) with
       | None => 0
       | Some amount =>
           if amount <=? 0 then 0
           else if 1000 <=? amount then Z.quot amount 1000
           else amount
       end.

(** * BOLT11 *)

(** [strings.LastIndexByte]. *)
Fixpoint last_index_from (i : Z) (b : Z) (l : list Z) : Z :=
  match l with
  | [] => -1
  | c :: l => let r := last_index_from (i + 1) b l in
              if r =? -1 then (if c =? b then i else -1) else r
  end.

Definition last_index (b : Z) (l : list Z) : Z := last_index_from 0 b l.

(** [strings.Count] of a byte, and [strings.TrimLeft] of a byte. *)
Definition count_byte (b : Z) (l : list Z) : Z := Z.of_nat (length (List.filter (Z.eqb b) l)).

Fixpoint trim_left_byte (b : Z) (l : list Z) : list Z :=
  match l with
  | [] => []
  | c :: l' => if c =? b then trim_left_byte b l' else l
  end.

Definition decimalDigits (s : list Z) : bool := forallb is_digit s.

Definition splitBolt11Decimal (raw : list Z) : option (list Z * list Z) :=
  if bool_decide (raw = []) || (1 <? count_byte 46 raw) then None
  else
    let '(whole, frac) := match cut 46 raw with Some p => p | None => (raw, []) end in
    if bool_decide (whole = []) && bool_decide (frac = []) then None
    else
      let whole := if bool_decide (whole = []) then [48] else whole in
      if negb (decimalDigits whole) || negb (decimalDigits frac) then None
      else Some (whole, frac).

(** [big.Int] is exact; [Quo] truncates. *)
Definition bolt11DecimalToSats (raw : list Z) (num den : Z) : Z :=
  if (num <=? 0) || (den <=? 0) then 0
  else match splitBolt11Decimal raw with
       | None => 0
       | Some (whole, frac) =>
           let digits := trim_left_byte 48 (whole ++ frac) in
           if bool_decide (digits = []) || (30 <? Z.of_nat (length digits)) then 0
           else match digits_value 0 digits with
                | None => 0
                | Some value =>
                    let scale := 10 ^ Z.of_nat (length frac) * den in
                    if scale =? 0 then 0
                    else
                      let value := Z.quot (value * num) scale in
                      if negb (in_i64 value) || (value <=? 0) then 0 else value
                end
       end.

Definition bolt11SatsScale (mult : Z) : Z * Z :=
  if mult =? 109 then (100000, 1)
  else if mult =? 117 then (100, 1)
  else if mult =? 110 then (1, 10)
  else if mult =? 112 then (1, 10000)
  else (100000000, 1).

Definition is_multiplier (b : Z) : bool := (b =? 109) || (b =? 117) || (b =? 110) || (b =? 112).

(** The amount part of the human-readable prefix, without its network. *)
Definition hrp_amount (hrp : list Z) : option (list Z) :=
  if has_prefix (bytes "lnbcrt") hrp then Some (drop 6 hrp)
  else if has_prefix (bytes "lnbc") hrp then Some (drop 4 hrp)
  else if has_prefix (bytes "lntb") hrp then Some (drop 4 hrp)
  else None.

(** The amount and its multiplier (0 when there is none), [None] when nothing
    is left to parse. *)
Definition split_multiplier (amount : list Z) : option (list Z * Z) :=
  match list.last amount with
  | None => None
  | Some b =>
      if is_multiplier b then
        let amount := take (length amount - 1) amount in
        if bool_decide (amount = []) then None else Some (amount, b)
      else Some (amount, 0)
  end.

Section zap.
Context `{UnicodeTables}.

Definition parseBolt11AmountSats (invoice : string) : Z :=
  let invoice := trim_space invoice in
  if bool_decide (invoice = "") then 0
  else
    let sep := last_index 49 (bytes invoice) in
    if sep <=? 0 then 0
    else
      let hrp := bytes (to_lower (str (take (Z.to_nat sep) (bytes invoice)))) in
      match hrp_amount hrp with
      | None => 0
      | Some amount =>
          match split_multiplier amount with
          | None => 0
          | Some (amount, mult) =>
              let '(num, den) := bolt11SatsScale mult in
              bolt11DecimalToSats amount num den
          end
      end.

(** * Amount *)

Definition decode_tags : slice (slice string) → json → option (slice (slice string)) :=
  decode_slice nil_slice (decode_slice "" decode_string).

Definition descriptionZapAmountSats (raw : string) : Z :=
  let raw := trim_space raw in
  if bool_decide (raw = "") then 0
  else match unmarshal_struct "tags" decode_tags nil_slice raw with
       | None => 0
       | Some tags => parseZapAmountSats (firstTagValue (map elems (elems tags)) "amount")
       end.

(** The loop over the description tags. *)
Fixpoint description_sats (tags : list (list string)) : Z :=
  match tags with
  | [] => 0
  | (t0 :: t1 :: _) :: tags =>
      if bool_decide (t0 = "description") && (0 <? descriptionZapAmountSats t1)
      then descriptionZapAmountSats t1
      else description_sats tags
  | _ :: tags => description_sats tags
  end.

Definition zapReceiptAmountSats (tags : list (list string)) : Z :=
  let sats := parseZapAmountSats (firstTagValue tags "amount") in
  if 0 <? sats then sats
  else
    let sats := description_sats tags in
    if 0 <? sats then sats
    else
      let sats := parseBolt11AmountSats (firstTagValue tags "bolt11") in
      if 0 <? sats then sats else 0.

(** * Sender *)

Definition hex_rune (r : Z) : bool :=
  ((48 <=? r) && (r <=? 57)) || ((97 <=? r) && (r <=? 102)) || ((65 <=? r) && (r <=? 70)).

Definition canonicalHexPubkey (value : string) : string :=
  let value := trim_space value in
  if negb (go_len value =? 64) then ""
  else if forallb hex_rune (runes (bytes value)) then to_lower value
  else "".

Fixpoint description_sender (tags : list (list string)) : string :=
  match tags with
  | [] => ""
  | (t0 :: t1 :: _) :: tags =>
      let pubkey :=
        if bool_decide (t0 = "description") then
          match unmarshal_struct "pubkey" decode_string "" t1 with
          | Some p => canonicalHexPubkey p
          | None => ""
          end
        else "" in
      if bool_decide (pubkey = "") then description_sender tags else pubkey
  | _ :: tags => description_sender tags
  end.

Definition zapReceiptSender (receiptPubkey : string) (tags : list (list string)) : string :=
  let receiptPubkey := trim_space receiptPubkey in
  let fromRequest := description_sender tags in
  if negb (bool_decide (fromRequest = "")) then fromRequest
  else
    let fromP := canonicalHexPubkey (firstTagValue tags "P") in
    if negb (bool_decide (fromP = "")) then fromP
    else
      let own := canonicalHexPubkey receiptPubkey in
      if negb (bool_decide (own = "")) then own
      else receiptPubkey.
End zap.

(** * The source's test tables *)

Section tests.
#[local] Existing Instance ascii_tables.

Example bolt11_table :
  map parseBolt11AmountSats
    ["lnbc210n1pw"; "lnbc250n1pw"; "lnbc10u1pw"; "lnbc2.5u1pw"; "lnbc1pw"; "LNBC210N1PW"; "lnbc11pw";
     "lnbc1m1pw"; "lntb1u1pw"; "lnbcrt10u1pw"; "lnbc10000p1pw"; "lnbc1p1pw"; "lnbc10x1pw";
     "not-an-invoice"; ""]
  = [21; 25; 1000; 250; 0; 21; 100000000; 100000; 100; 1000; 1; 0; 0; 0; 0].
Proof. vm_compute. reflexivity. Qed.

(** The JSON text of an object with one member. *)
Definition object1 (k : string) (v : json) : string := str (json_encode (JObj [(bytes k, v)])).

Definition request (msats : string) : string :=
  object1 "tags" (JArr [JArr [JStr (bytes "amount"); JStr (bytes msats)]]).

Example amount_table :
  map zapReceiptAmountSats
    [[["amount"; "21000"]; ["bolt11"; "lnbc250n1pw"]; ["description"; request "999000"]];
     [["bolt11"; "lnbc210n1pw"]; ["description"; request "25000"]];
     [["p"; "receiver"]; ["bolt11"; "lnbc210n1pwgood"]; ["description"; request ""]];
     [["p"; "receiver"]; ["bolt11"; "lnbc1pwzero"]; ["description"; "x"]]]
  = [21; 25; 21; 0].
Proof. vm_compute. reflexivity. Qed.

(** Amount tags are millisatoshis, but below 1000 they are taken as satoshis. *)
Example small_amounts : map parseZapAmountSats ["999"; "1000"; "-5"; "x"] = [999; 1; 0; 0].
Proof. vm_compute. reflexivity. Qed.
End tests.

(** * Exactness of the invoice amount *)

Lemma last_index_absent i b l : 0 ≤ i → Forall (λ c, c ≠ b) l → last_index_from i b l = -1.
Proof.
  intros Hi Hl. revert i Hi. induction Hl as [|c l Hc Hl IH]; intros i Hi; simpl; [done|].
  rewrite IH by lia. by rewrite (proj2 (Z.eqb_neq c b)).
Qed.

Lemma last_index_sep i b p d :
  0 ≤ i → Forall (λ c, c ≠ b) d → last_index_from i b (p ++ b :: d) = i + Z.of_nat (length p).
Proof.
  revert i. induction p as [|c p IH]; intros i Hi Hd; cbn [last_index_from app length].
  - rewrite last_index_absent by (done || lia). simpl. rewrite Z.eqb_refl. lia.
  - rewrite IH by (done || lia). rewrite (proj2 (Z.eqb_neq _ (-1))) by lia. lia.
Qed.

(** * Digits *)

Definition all_digits (l : list Z) : Prop := Forall (λ b, is_digit b = true) l.

Lemma is_digit_spec b : is_digit b = true ↔ 48 ≤ b ≤ 57.
Proof. unfold is_digit. rewrite andb_true_iff, !Z.leb_le. lia. Qed.

Lemma decimalDigits_spec l : decimalDigits l = true ↔ all_digits l.
Proof. unfold decimalDigits, all_digits. rewrite forallb_forall, List.Forall_forall. done. Qed.

Lemma digits_value_total acc l : all_digits l → ∃ v, digits_value acc l = Some v.
Proof.
  intros Hl. revert acc. induction Hl as [|b l Hb _ IH]; intros acc; simpl; [by eexists|].
  rewrite Hb. apply IH.
Qed.

Lemma digits_value_bounds acc l v :
  0 ≤ acc → digits_value acc l = Some v →
  acc * 10 ^ Z.of_nat (length l) ≤ v < (acc + 1) * 10 ^ Z.of_nat (length l).
Proof.
  revert acc. induction l as [|b l IH]; intros acc Hacc Hv; simpl in Hv.
  { injection Hv as <-. simpl. lia. }
  destruct (is_digit b) eqn:Eb; [|done]. apply is_digit_spec in Eb.
  apply IH in Hv; [|lia]. cbn [length]. rewrite Nat2Z.inj_succ, Z.pow_succ_r by lia.
  pose proof (Z.pow_pos_nonneg 10 (Z.of_nat (length l)) ltac:(lia) ltac:(lia)). nia.
Qed.

Lemma trim_zeros_value l : digits_value 0 (trim_left_byte 48 l) = digits_value 0 l.
Proof.
  induction l as [|b l IH]; simpl; [done|]. destruct (b =? 48) eqn:E; [|done].
  apply Z.eqb_eq in E. subst b. rewrite IH. done.
Qed.

Lemma trim_zeros_digits l : all_digits l → all_digits (trim_left_byte 48 l).
Proof. intros Hl. induction Hl; simpl; [constructor|]. destruct (_ =? _); [done|]. by constructor. Qed.

Lemma trim_zeros_head b l l' : trim_left_byte 48 l = b :: l' → b ≠ 48.
Proof.
  induction l as [|c l IH]; simpl; [done|]. destruct (c =? 48) eqn:E; [done|].
  intros [= -> ->]. by apply Z.eqb_neq.
Qed.

(** The digit limit is a bound on the value. *)
Lemma significant_digits l v :
  all_digits l → digits_value 0 l = Some v →
  let d := trim_left_byte 48 l in
  (d = [] ↔ v = 0) ∧ (30 < Z.of_nat (length d) ↔ 10 ^ 30 ≤ v).
Proof.
  intros Hl Hv d. rewrite <-trim_zeros_value in Hv. fold d in Hv.
  destruct d as [|b d'] eqn:Ed.
  { simpl in Hv. injection Hv as <-. split; [done|]. simpl. lia. }
  pose proof (trim_zeros_head _ _ _ Ed) as Hb. pose proof (trim_zeros_digits l Hl) as Hd.
  fold d in Hd. rewrite Ed in Hd. inversion Hd as [|? ? Hb' _]; subst. apply is_digit_spec in Hb'.
  cbn [digits_value] in Hv. rewrite (proj2 (is_digit_spec b)) in Hv by done.
  apply digits_value_bounds in Hv; [|lia]. cbn [length]. rewrite Nat2Z.inj_succ.
  set (n := Z.of_nat (length d')) in *. assert (0 ≤ n) by lia.
  pose proof (Z.pow_pos_nonneg 10 n ltac:(lia) ltac:(lia)). split; [split; [done|nia]|]. split; intros Hn.
  - assert (10 ^ 30 ≤ 10 ^ n) by (apply Z.pow_le_mono_r; lia). nia.
  - destruct (decide (30 < Z.succ n)) as [|Hle]; [done|]. exfalso.
    assert (10 ^ (n + 1) ≤ 10 ^ 30) as Hp by (apply Z.pow_le_mono_r; lia).
    rewrite Z.pow_add_r in Hp by lia. nia.
Qed.

Lemma decimal_to_sats whole frac num den raw v :
  0 < num → 0 < den → all_digits whole → all_digits frac →
  splitBolt11Decimal raw = Some (whole, frac) → digits_value 0 (whole ++ frac) = Some v →
  bolt11DecimalToSats raw num den =
    let sats := v * num / (10 ^ Z.of_nat (length frac) * den) in
    if (v <? 10 ^ 30) && (sats <=? max_int64) then sats else 0.
Proof.
  intros Hnum Hden Hw Hf Hs Hv. unfold bolt11DecimalToSats.
  rewrite (proj2 (Z.leb_gt num 0)), (proj2 (Z.leb_gt den 0)), Hs by lia. cbn [orb].
  destruct (significant_digits (whole ++ frac) v) as [Hz Hlen]; [by apply Forall_app|done|].
  rewrite trim_zeros_value, Hv. set (d := trim_left_byte 48 (whole ++ frac)) in *.
  pose proof (digits_value_bounds 0 _ _ ltac:(lia) Hv) as Hv0. rewrite Z.mul_0_l in Hv0.
  pose proof (Z.pow_pos_nonneg 10 (Z.of_nat (length frac)) ltac:(lia) ltac:(lia)) as Hp.
  set (scale := 10 ^ Z.of_nat (length frac) * den). assert (0 < scale) by (unfold scale; nia).
  cbv zeta. fold scale. assert (0 ≤ v * num / scale) by (apply Z.div_pos; nia).
  destruct (30 <? Z.of_nat (length d)) eqn:E30; bool_simpl.
  { rewrite orb_true_r, (proj2 (Z.ltb_ge v _)); [done|]. by apply Hlen. }
  assert (v < 10 ^ 30) as Hlt.
  { destruct (decide (10 ^ 30 ≤ v)) as [Hge|]; [|lia]. apply Hlen in Hge. lia. }
  rewrite (proj2 (Z.ltb_lt v _)) by done. rewrite orb_false_r. cbn [andb].
  case_bool_decide as Hd.
  { apply Hz in Hd. subst v. rewrite Z.mul_0_l, Z.div_0_l by lia. by destruct (_ <=? _). }
  rewrite (proj2 (Z.eqb_neq scale 0)), Z.quot_div_nonneg by nia.
  unfold in_i64. rewrite (proj2 (Z.leb_le min_int64 _)) by (unfold min_int64, two63; lia). cbn [andb].
  destruct (v * num / scale <=? max_int64); simpl; [|done].
  destruct (_ <=? 0) eqn:E; bool_simpl; lia.
Qed.

(** * Invoices *)

(** The prefixes of mainnet, testnet and regtest, and the multipliers of BOLT11. *)
Inductive network := Mainnet | Testnet | Regtest.

Inductive multiplier := Whole | Milli | Micro | Nano | Pico.

Definition network_prefix (n : network) : list Z :=
  match n with Mainnet => bytes "lnbc" | Testnet => bytes "lntb" | Regtest => bytes "lnbcrt" end.

Definition multiplier_text (m : multiplier) : list Z :=
  match m with Whole => [] | Milli => [109] | Micro => [117] | Nano => [110] | Pico => [112] end.

(** Satoshis per unit: a bitcoin is 10^8 satoshis, and a unit 10^-k bitcoins. *)
Definition unit_exponent (m : multiplier) : Z :=
  match m with Whole => 0 | Milli => 3 | Micro => 6 | Nano => 9 | Pico => 12 end.

Definition decimal_text (whole frac : list Z) : list Z :=
  whole ++ match frac with [] => [] | _ => 46 :: frac end.

Definition hrp_text (n : network) (whole frac : list Z) (m : multiplier) : list Z :=
  network_prefix n ++ decimal_text whole frac ++ multiplier_text m.

Definition invoice_text (n : network) (whole frac : list Z) (m : multiplier) (data : list Z) : list Z :=
  hrp_text n whole frac m ++ 49 :: data.

Lemma Forall_check (P : Z → Prop) (f : Z → bool) l :
  (∀ b, f b = true → P b) → forallb f l = true → Forall P l.
Proof. intros Hf Hl. rewrite forallb_forall in Hl. apply List.Forall_forall. auto. Qed.

Lemma visible_check b : (33 <=? b) && (b <=? 126) = true → visible b.
Proof. unfold visible. intros E. bool_simpl. lia. Qed.

Lemma digits_visible l : all_digits l → Forall visible l.
Proof. apply List.Forall_impl. intros b Hb%is_digit_spec. unfold visible. lia. Qed.

Lemma decimal_visible whole frac :
  all_digits whole → all_digits frac → Forall visible (decimal_text whole frac).
Proof.
  intros Hw Hf. apply Forall_app. split; [by apply digits_visible|].
  destruct frac; [constructor|]. constructor; [unfold visible; lia|by apply digits_visible].
Qed.

Lemma hrp_visible n whole frac m :
  all_digits whole → all_digits frac → Forall visible (hrp_text n whole frac m).
Proof.
  intros Hw Hf. unfold hrp_text. rewrite !Forall_app. split_and!.
  - by apply (Forall_check _ _ _ visible_check); destruct n.
  - by apply decimal_visible.
  - by apply (Forall_check _ _ _ visible_check); destruct m.
Qed.

Lemma upper_visible b : visible b → visible (ascii_upper b).
Proof. unfold visible, ascii_upper. destruct ((97 <=? b) && (b <=? 122)) eqn:E; bool_simpl; lia. Qed.

Definition not_upper (b : Z) : Prop := b < 65 ∨ 90 < b.

Lemma not_upper_check b : (b <? 65) || (90 <? b) = true → not_upper b.
Proof. unfold not_upper. rewrite orb_true_iff, !Z.ltb_lt. done. Qed.

Lemma lower_id b : not_upper b → ascii_lower b = b.
Proof. unfold not_upper, ascii_lower. destruct ((65 <=? b) && (b <=? 90)) eqn:E; bool_simpl; lia. Qed.

Lemma lower_upper b : not_upper b → ascii_lower (ascii_upper b) = b.
Proof.
  unfold not_upper, ascii_upper, ascii_lower. intros Hb.
  destruct ((97 <=? b) && (b <=? 122)) eqn:E.
  - bool_simpl. rewrite (proj2 (Z.leb_le 65 _)), (proj2 (Z.leb_le _ 90)) by lia. simpl. lia.
  - destruct ((65 <=? b) && (b <=? 90)) eqn:E'; bool_simpl; lia.
Qed.

Lemma map_id_on {A} (f : A → A) (P : A → Prop) l : (∀ a, P a → f a = a) → Forall P l → map f l = l.
Proof. intros Hf Hl. induction Hl; simpl; [done|]. by rewrite Hf, IHHl. Qed.

Lemma hrp_not_upper n whole frac m :
  all_digits whole → all_digits frac → Forall not_upper (hrp_text n whole frac m).
Proof.
  assert (∀ l, all_digits l → Forall not_upper l) as Hd.
  { intros l. apply List.Forall_impl. intros b Hb%is_digit_spec. unfold not_upper. lia. }
  intros Hw Hf. unfold hrp_text, decimal_text. rewrite !Forall_app. split_and!.
  - by apply (Forall_check _ _ _ not_upper_check); destruct n.
  - by apply Hd.
  - destruct frac; [constructor|]. constructor; [unfold not_upper; lia|by apply Hd].
  - by apply (Forall_check _ _ _ not_upper_check); destruct m.
Qed.

Lemma hrp_amount_text n whole frac m :
  whole ≠ [] → all_digits whole →
  hrp_amount (hrp_text n whole frac m) = Some (decimal_text whole frac ++ multiplier_text m).
Proof.
  intros Hne Hw. destruct whole as [|b whole]; [done|]. inversion Hw as [|? ? Hb _]; subst.
  apply is_digit_spec in Hb. assert ((114 =? b) = false) as E by (apply Z.eqb_neq; lia).
  assert (∀ r, has_prefix [114; 116] (b :: r) = false) as Hr by (intros r; cbn [has_prefix]; by rewrite E).
  unfold hrp_amount, hrp_text. destruct n; cbn [network_prefix]; try reflexivity.
  change (bytes "lnbcrt") with (bytes "lnbc" ++ [114; 116]). rewrite has_prefix_app.
  unfold decimal_text. cbn [app]. rewrite Hr. reflexivity.
Qed.

Lemma digit_not_multiplier b : is_digit b = true → is_multiplier b = false.
Proof.
  rewrite is_digit_spec. intros Hb. unfold is_multiplier.
  by rewrite !(proj2 (Z.eqb_neq b _)) by lia.
Qed.

Lemma decimal_last whole frac :
  whole ≠ [] → all_digits whole → all_digits frac →
  ∃ l b, decimal_text whole frac = l ++ [b] ∧ is_digit b = true.
Proof.
  intros Hne Hw Hf. unfold decimal_text. destruct frac as [|c frac].
  - destruct (exists_last Hne) as (l & b & ->). exists l, b. rewrite app_nil_r. split; [done|].
    apply Forall_app in Hw as [_ Hb]. by inversion Hb.
  - destruct (exists_last (l := c :: frac)) as (l & b & E); [done|]. rewrite E in *.
    exists (whole ++ 46 :: l), b. split; [by rewrite <-app_assoc|].
    apply Forall_app in Hf as [_ Hb]. by inversion Hb.
Qed.

Definition multiplier_code (m : multiplier) : Z := match multiplier_text m with [b] => b | _ => 0 end.

Lemma split_multiplier_text whole frac m :
  whole ≠ [] → all_digits whole → all_digits frac →
  split_multiplier (decimal_text whole frac ++ multiplier_text m)
  = Some (decimal_text whole frac, multiplier_code m).
Proof.
  intros Hne Hw Hf. destruct (decimal_last whole frac Hne Hw Hf) as (l & b & E & Hb).
  assert (decimal_text whole frac ≠ []) as Hnn by (rewrite E; by destruct l).
  unfold split_multiplier. destruct (multiplier_text m) as [|c t] eqn:Em.
  - rewrite app_nil_r. rewrite E at 1. rewrite last_snoc, digit_not_multiplier by done.
    by destruct m.
  - assert (t = [] ∧ is_multiplier c = true ∧ multiplier_code m = c) as (-> & Hc & Hm).
    { unfold multiplier_code. destruct m; try discriminate Em; injection Em as <- <-; done. }
    rewrite last_snoc, Hc, length_app, Nat.add_sub, take_app_length. rewrite bool_decide_eq_false_2 by done.
    by rewrite Hm.
Qed.

Lemma cut_absent sep l : Forall (λ b, b ≠ sep) l → cut sep l = None.
Proof. intros Hl. induction Hl as [|b l Hb _ IH]; simpl; [done|]. by rewrite (proj2 (Z.eqb_neq b sep)), IH. Qed.

Lemma cut_present sep l r : Forall (λ b, b ≠ sep) l → cut sep (l ++ sep :: r) = Some (l, r).
Proof.
  intros Hl. induction Hl as [|b l Hb _ IH]; simpl; [by rewrite Z.eqb_refl|].
  by rewrite (proj2 (Z.eqb_neq b sep)), IH.
Qed.

Lemma digits_not l x : all_digits l → x < 48 ∨ 57 < x → Forall (λ b, b ≠ x) l.
Proof. intros Hl Hx. eapply List.Forall_impl; [|exact Hl]. intros b Hb%is_digit_spec. lia. Qed.

Lemma count_absent b l : Forall (λ c, c ≠ b) l → List.filter (Z.eqb b) l = [].
Proof. intros Hl. induction Hl as [|c l Hc _ IH]; simpl; [done|]. by rewrite (proj2 (Z.eqb_neq b c)). Qed.

Lemma split_decimal_text whole frac :
  whole ≠ [] → all_digits whole → all_digits frac →
  splitBolt11Decimal (decimal_text whole frac) = Some (whole, frac).
Proof.
  intros Hne Hw Hf. unfold splitBolt11Decimal, count_byte.
  assert (decimal_text whole frac ≠ []) as Hnn by (unfold decimal_text; by destruct whole).
  rewrite bool_decide_eq_false_2 by done.
  assert ((1 <? Z.of_nat (length (List.filter (Z.eqb 46) (decimal_text whole frac)))) = false) as Hc.
  { apply Z.ltb_ge. unfold decimal_text. rewrite filter_app, count_absent by (apply digits_not; [done|lia]).
    destruct frac as [|c frac]; [done|]. cbn [List.filter app]. rewrite Z.eqb_refl.
    change (if 46 =? c then c :: List.filter (Z.eqb 46) frac else List.filter (Z.eqb 46) frac)
      with (List.filter (Z.eqb 46) (c :: frac)).
    rewrite count_absent; [done|]. apply digits_not; [done|lia]. }
  rewrite Hc. cbn [orb].
  assert (match cut 46 (decimal_text whole frac) with Some p => p | None => (decimal_text whole frac, []) end
          = (whole, frac)) as ->.
  { unfold decimal_text. destruct frac as [|c frac].
    - rewrite app_nil_r, cut_absent; [done|]. apply digits_not; [done|lia].
    - rewrite cut_present; [done|]. apply digits_not; [done|lia]. }
  cbv beta iota zeta. rewrite !(bool_decide_eq_false_2 (whole = [])) by done. cbn [andb].
  rewrite (proj2 (decimalDigits_spec whole)), (proj2 (decimalDigits_spec frac)) by done. done.
Qed.

Lemma scale_cancel v p num den base e :
  0 < p → 0 < den → 0 < e → num * e = base * den → v * num / (p * den) = v * base / (p * e).
Proof.
  intros Hp Hd He Heq. rewrite <-(Z.div_mul_cancel_r (v * num) (p * den) e) by nia.
  rewrite <-(Z.div_mul_cancel_r (v * base) (p * e) den) by nia.
  f_equal; [rewrite <-!Z.mul_assoc; by f_equal|ring].
Qed.

Lemma scale_of m :
  let '(num, den) := bolt11SatsScale (multiplier_code m) in
  0 < num ∧ 0 < den ∧ num * 10 ^ unit_exponent m = 10 ^ 8 * den.
Proof. by destruct m. Qed.

Section exact.
Context `{UnicodeTables}.

Lemma parse_hrp (hrp data low : list Z) :
  Forall visible hrp → hrp ≠ [] → Forall (λ b, visible b ∧ b ≠ 49) data → map ascii_lower hrp = low →
  parseBolt11AmountSats (str (hrp ++ 49 :: data)) =
  match hrp_amount low with
  | None => 0
  | Some amount =>
      match split_multiplier amount with
      | None => 0
      | Some (amount, mult) => let '(num, den) := bolt11SatsScale mult in bolt11DecimalToSats amount num den
      end
  end.
Proof.
  intros Hh Hne Hd <-. assert (Forall visible (hrp ++ 49 :: data)) as Hv.
  { apply Forall_app. split; [done|]. constructor; [unfold visible; lia|].
    eapply List.Forall_impl; [|exact Hd]. by intros ? [? _]. }
  unfold parseBolt11AmountSats, trim_space.
  rewrite (bytes_str (hrp ++ 49 :: data)), trim_bytes_visible by (done || by apply visible_byte).
  rewrite bool_decide_eq_false_2.
  2:{ intros E. apply (f_equal bytes) in E. rewrite bytes_str in E by (by apply visible_byte). by destruct hrp. }
  cbv zeta. rewrite (bytes_str (hrp ++ 49 :: data)) by (by apply visible_byte).
  unfold last_index. rewrite last_index_sep; [|lia|eapply List.Forall_impl; [|exact Hd]; by intros ? [_ ?]].
  rewrite (proj2 (Z.leb_gt _ 0)) by (destruct hrp; [done|]; simpl; lia).
  rewrite Z.add_0_l, Nat2Z.id, take_app_length. unfold to_lower.
  rewrite (bytes_str hrp) by (by apply visible_byte). rewrite visible_ascii by done.
  rewrite bytes_str; [done|].
  apply List.Forall_forall. intros x Hx. apply in_map_iff in Hx as (y & <- & Hy).
  rewrite List.Forall_forall in Hh. specialize (Hh y Hy). unfold visible, byte_ok, ascii_lower in *.
  destruct ((65 <=? y) && (y <=? 90)) eqn:E; bool_simpl; lia.
Qed.

(** The amount read from a BOLT11 invoice is exact: for each network, any
    decimal amount with any number of fraction digits, each multiplier and any
    data part, in lower or upper case, the result is the amount in satoshis
    rounded down; it is 0 exactly where that is below one satoshi, does not fit
    an int64, or has more than thirty significant digits. *)
Theorem bolt11_amount_exact (n : network) (whole frac : list Z) (m : multiplier) (data : list Z) (upper : bool) :
  whole ≠ [] → all_digits whole → all_digits frac → Forall (λ b, visible b ∧ b ≠ 49) data →
  let hrp := hrp_text n whole frac m in
  ∃ v, digits_value 0 (whole ++ frac) = Some v ∧
  parseBolt11AmountSats (str ((if upper then map ascii_upper hrp else hrp) ++ 49 :: data)) =
    let sats := v * 10 ^ 8 / (10 ^ Z.of_nat (length frac) * 10 ^ unit_exponent m) in
    if (v <? 10 ^ 30) && (sats <=? max_int64) then sats else 0.
Proof.
  intros Hne Hw Hf Hd hrp. destruct (digits_value_total 0 (whole ++ frac)) as [v Hv]; [by apply Forall_app|].
  exists v. split; [done|]. pose proof (hrp_visible n whole frac m Hw Hf) as Hvis.
  pose proof (hrp_not_upper n whole frac m Hw Hf) as Hnu. fold hrp in Hvis, Hnu.
  assert (hrp ≠ []) as Hh by (unfold hrp, hrp_text; by destruct n).
  rewrite (parse_hrp _ _ hrp); [|..|done|].
  2:{ destruct upper; [|done]. apply Forall_map. eapply List.Forall_impl; [|exact Hvis]. apply upper_visible. }
  2:{ destruct upper; [|done]. by destruct hrp. }
  2:{ destruct upper; [rewrite map_map|]; eapply map_id_on; eauto using lower_upper, lower_id. }
  unfold hrp. rewrite hrp_amount_text, split_multiplier_text by done.
  pose proof (scale_of m) as Hs. destruct (bolt11SatsScale (multiplier_code m)) as [num den].
  destruct Hs as (Hnum & Hden & Hs).
  assert (0 < 10 ^ unit_exponent m) as He by (by destruct m).
  pose proof (Z.pow_pos_nonneg 10 (Z.of_nat (length frac)) ltac:(lia) ltac:(lia)) as Hp.
  rewrite (decimal_to_sats whole frac num den _ v) by (done || by apply split_decimal_text).
  cbv zeta. by rewrite (scale_cancel v _ num den (10 ^ 8) (10 ^ unit_exponent m)).
Qed.
End exact.

Lemma bolt11_amount_exact_witness :
  @parseBolt11AmountSats ascii_tables (str (map ascii_upper (hrp_text Mainnet [50] [53] Micro) ++ 49 :: [112; 119]))
  = 250.
Proof.
  destruct (@bolt11_amount_exact ascii_tables Mainnet [50] [53] Micro [112; 119] true) as (v & Hv & Hp).
  - discriminate.
  - repeat constructor.
  - repeat constructor.
  - repeat constructor; (apply visible_check; reflexivity) || discriminate.
  - injection Hv as <-. rewrite Hp. reflexivity.
Defined.
