(* ===== verification/AuthorStats.v ===== *)
(** Incremental author statistics, [internal/derivation/projection_incremental_stats.go],
    and the purge that takes an event out of them again
    ([internal/store/retention/retention.go], [reverseAndDeleteTx]).

    Each projection of an event is applied once, by a claim in a ledger, and
    undone once, by the removal of the claim. The SQL that reads media flags off
    the text of a note is a parameter; the columns that only record a derivation
    version are left out. Counters are unbounded where the database would report
    an overflow, and a time has a date. *)

From S2P Require Import Prelude GoLib Json Db NostrTags Zap.

Local Open Scope go_scope.

(** * Tables *)

Record EventRow := mkEventRow {
  ev_pubkey : string;
  ev_kind : Z;
  ev_created : Z;
  ev_raw : string;
  ev_tag_names : list string;
}.

Record MediaFlags := mkFlags {
  hasImage : bool;
  hasVideo : bool;
  hasLink : bool;
  hasArticle : bool;
  attachmentCount : Z;
}.

Record ZapRow := mkZapRow {
  z_sender : string;
  z_receiver : option string;
  z_amount : Z;
}.

Record ProfileRow := mkProfile {
  follower_count : Z;
  following_count : Z;
  trusted_follower_count : Z;
  note_count : Z;
  reply_count : Z;
  media_count : Z;
  long_form_note_count : Z;
  zap_received_count : Z;
  sats_zapped : Z;
  content_zap_count : Z;
  recent_activity_at : option Z;
  time_joined : option Z;
}.

(** The counters of [author_activity_daily]. *)
Record Daily := mkDaily {
  d_post : Z;
  d_note : Z;
  d_reply : Z;
  d_received : Z;
  d_given : Z;
  d_msats : Z;
}.

(** The counters of [author_media_daily]. *)
Record Media := mkMedia {
  m_total : Z;
  m_image : Z;
  m_video : Z;
  m_link : Z;
  m_article : Z;
  m_text : Z;
  m_attachments : Z;
}.

(** The counters of [author_hourly_activity]. *)
Record Hourly := mkHourly {
  h_post : Z;
  h_note : Z;
  h_reply : Z;
  h_received : Z;
  h_reply_received : Z;
  h_reaction_received : Z;
  h_repost_received : Z;
  h_zap_received : Z;
  h_msats : Z;
  h_authored : Z;
}.

(** A date is a day number; a slot of a date has a weekday and an hour. *)
Abbreviation day_key := (string * Z)%type.
Abbreviation slot_key := (string * Z * Z * Z)%type.

Record stat_tables := mkStats {
  events : gmap string EventRow;
  applied_stat_deltas : gset (string * string);
  profile_public_stats : gmap string ProfileRow;
  author_activity_daily : gmap day_key Daily;
  author_hashtag_daily : gmap (day_key * string) Z;
  author_media_daily : gmap day_key Media;
  author_hourly_activity : gmap slot_key Hourly;
  recent_activity : gmap string Z;
  event_hashtags : gmap string (list string);
  note_discovery_stats : gmap string MediaFlags;
  zap_receipts : gmap string ZapRow;
  replaceable_state : gmap string Z;
}.

Definition set_ledger (l : gset (string * string)) (t : stat_tables) : stat_tables :=
  mkStats (events t) l (profile_public_stats t) (author_activity_daily t) (author_hashtag_daily t) (author_media_daily t)
    (author_hourly_activity t) (recent_activity t) (event_hashtags t) (note_discovery_stats t) (zap_receipts t) (replaceable_state t).

Definition set_profiles (m : gmap string ProfileRow) (t : stat_tables) : stat_tables :=
  mkStats (events t) (applied_stat_deltas t) m (author_activity_daily t) (author_hashtag_daily t) (author_media_daily t)
    (author_hourly_activity t) (recent_activity t) (event_hashtags t) (note_discovery_stats t) (zap_receipts t) (replaceable_state t).

Definition set_daily (m : gmap day_key Daily) (t : stat_tables) : stat_tables :=
  mkStats (events t) (applied_stat_deltas t) (profile_public_stats t) m (author_hashtag_daily t) (author_media_daily t)
    (author_hourly_activity t) (recent_activity t) (event_hashtags t) (note_discovery_stats t) (zap_receipts t) (replaceable_state t).

Definition set_hashtags (m : gmap (day_key * string) Z) (t : stat_tables) : stat_tables :=
  mkStats (events t) (applied_stat_deltas t) (profile_public_stats t) (author_activity_daily t) m (author_media_daily t)
    (author_hourly_activity t) (recent_activity t) (event_hashtags t) (note_discovery_stats t) (zap_receipts t) (replaceable_state t).

Definition set_media (m : gmap day_key Media) (t : stat_tables) : stat_tables :=
  mkStats (events t) (applied_stat_deltas t) (profile_public_stats t) (author_activity_daily t) (author_hashtag_daily t) m
    (author_hourly_activity t) (recent_activity t) (event_hashtags t) (note_discovery_stats t) (zap_receipts t) (replaceable_state t).

Definition set_hourly (m : gmap slot_key Hourly) (t : stat_tables) : stat_tables :=
  mkStats (events t) (applied_stat_deltas t) (profile_public_stats t) (author_activity_daily t) (author_hashtag_daily t)
    (author_media_daily t) m (recent_activity t) (event_hashtags t) (note_discovery_stats t) (zap_receipts t) (replaceable_state t).

Definition set_recent (m : gmap string Z) (t : stat_tables) : stat_tables :=
  mkStats (events t) (applied_stat_deltas t) (profile_public_stats t) (author_activity_daily t) (author_hashtag_daily t)
    (author_media_daily t) (author_hourly_activity t) m (event_hashtags t) (note_discovery_stats t) (zap_receipts t) (replaceable_state t).

Definition set_replaceable (m : gmap string Z) (t : stat_tables) : stat_tables :=
  mkStats (events t) (applied_stat_deltas t) (profile_public_stats t) (author_activity_daily t) (author_hashtag_daily t)
    (author_media_daily t) (author_hourly_activity t) (recent_activity t) (event_hashtags t) (note_discovery_stats t) (zap_receipts t) m.

(** * The ledger *)

Definition statDeltaProfilePublicStats : string := "profile_public_stats".
Definition statDeltaAuthorActivityDaily : string := "author_activity_daily".
Definition statDeltaAuthorHashtagDaily : string := "author_hashtag_daily".
Definition statDeltaAuthorMediaDaily : string := "author_media_daily".
Definition statDeltaAuthorHourlyActivity : string := "author_hourly_activity".

Definition claimStatDeltaTx (eventID projection : string) : go (db stat_tables) bool :=
  go_wrap ("claim stat delta " +:+ eventID +:+ "/" +:+ projection) (stmt (λ t,
    Ok (set_ledger ({[(eventID, projection)]} ∪ applied_stat_deltas t) t,
        negb (bool_decide ((eventID, projection) ∈ applied_stat_deltas t))))).

Definition unclaimStatDeltaTx (eventID projection : string) : go (db stat_tables) bool :=
  go_wrap ("unclaim stat delta " +:+ eventID +:+ "/" +:+ projection) (stmt (λ t,
    Ok (set_ledger (applied_stat_deltas t ∖ {[(eventID, projection)]}) t,
        bool_decide ((eventID, projection) ∈ applied_stat_deltas t)))).

(** The active derivation version, which only goes into a column. *)
Definition resolveDerivationWriteVersion (name : string) : go (db stat_tables) unit :=
  go_wrap ("load active derivation version " +:+ name) (query (λ _, tt)).

(** * Facts *)

(** [GREATEST(x, 0)]. *)
Definition at_least0 (x : Z) : Z := Z.max x 0.

Definition date_of (createdAt : Z) : Z := createdAt / 86400.
Definition weekday_of (createdAt : Z) : Z := (date_of createdAt + 4) mod 7.
Definition hour_of (createdAt : Z) : Z := createdAt mod 86400 / 3600.

Definition lookupEventPubkeyTx (eventID : string) : go (db stat_tables) (option string) :=
  go_wrap ("lookup event pubkey " +:+ eventID) (query (λ t, ev_pubkey <$> events t !! eventID)).

Section stats.
Context `{UnicodeTables}.

(** The media flags of a note, from its text and tags. *)
Context (noteMediaFlags : EventRow → MediaFlags).

Fixpoint firstReferencedEventID (tags : list (list string)) : string :=
  match tags with
  | [] => ""
  | (t0 :: t1 :: _) :: tags =>
      if bool_decide (t0 = "e") && negb (bool_decide (trim_space t1 = "")) then trim_space t1 else firstReferencedEventID tags
  | _ :: tags => firstReferencedEventID tags
  end.

Definition replyTargetFromTags (tags : list (list string)) : bool * string :=
  let parent := ReplyParentEventID tags in
  if bool_decide (parent = "") then (false, "") else (true, parent).

Definition decode_event_tags (raw : string) : option (list (list string)) :=
  match unmarshal_struct "tags" decode_tags nil_slice raw with
  | Some tags => Some (map elems (elems tags))
  | None => None
  end.

Definition loadEventTags (eventID : string) : go (db stat_tables) (list (list string)) :=
  raw <- go_wrap "load raw event for derivation" (stmt (λ t,
    match events t !! eventID with Some e => Ok (t, ev_raw e) | None => Err "no rows in result set" end)) ;;
  match decode_event_tags raw with Some tags => go_ret tags | None => go_fail "decode event tags" end.

Definition loadEventTagsTx (eventID : string) : go (db stat_tables) (list (list string)) :=
  raw <- go_wrap "load raw event for incremental stats reversal" (query (λ t, ev_raw <$> events t !! eventID)) ;;
  match raw with
  | None => go_ret []
  | Some raw => match decode_event_tags raw with Some tags => go_ret tags | None => go_fail "decode event tags for incremental stats reversal" end
  end.

(** * Profile counters *)

Definition profileMediaDeltaTx (eventID : string) (kind : Z) : go (db stat_tables) Z :=
  if (kind =? 20) || (kind =? 21) || (kind =? 22) then go_ret 1
  else if kind =? 1 then
    flags <- go_wrap "load note media flags" (query (λ t,
      match events t !! eventID with Some e => noteMediaFlags e | None => mkFlags false false false false 0 end)) ;;
    if hasImage flags || hasVideo flags then go_ret 1
    else
      imeta <- go_wrap "check imeta tag" (query (λ t,
        match events t !! eventID with
        | Some e => existsb (λ n, bool_decide (to_lower n = "imeta")) (ev_tag_names e)
        | None => false
        end)) ;;
      go_ret (if imeta : bool then 1 else 0)
  else go_ret 0.

Definition adjustProfileZapCountersTx (pubkey : string) (received sats sent : Z) : go (db stat_tables) unit :=
  if (received =? 0) && (sats =? 0) && (sent =? 0) then go_ret tt
  else go_wrap ("adjust zap profile counters for " +:+ pubkey) (exec (λ t,
    let m := profile_public_stats t in
    set_profiles (<[pubkey :=
      match m !! pubkey with
      | Some r => mkProfile (follower_count r) (following_count r) (trusted_follower_count r) (note_count r) (reply_count r)
                    (media_count r) (long_form_note_count r) (at_least0 (zap_received_count r + received))
                    (at_least0 (sats_zapped r + sats)) (at_least0 (content_zap_count r + sent)) (recent_activity_at r) (time_joined r)
      | None => mkProfile 0 0 0 0 0 0 0 (at_least0 received) (at_least0 sats) (at_least0 sent) None None
      end]> m) t)).

(** [NULLIF(x, '')]. *)
Definition null_if_empty (x : option string) : option string := if bool_decide (x = Some "") then None else x.

Definition applyZapProfileCountersTx (eventID eventPubkey : string) (sign : Z) : go (db stat_tables) unit :=
  z <- go_wrap "load zap receipt for profile stats" (query (λ t, zap_receipts t !! eventID)) ;;
  match z with
  | None => go_ret tt
  | Some z =>
      let sender := trim_space (z_sender z) in
      let sender := if bool_decide (sender = "") then trim_space eventPubkey else sender in
      let sats := i64 (z_amount z * sign) in
      match null_if_empty (z_receiver z) with
      | Some receiver =>
          if bool_decide (receiver = sender) then adjustProfileZapCountersTx sender sign sats sign
          else adjustProfileZapCountersTx sender 0 0 sign ;; adjustProfileZapCountersTx receiver sign sats 0
      | None => adjustProfileZapCountersTx sender 0 0 sign
      end
  end.

Definition note_delta (kind : Z) (isReply : bool) : Z := if (kind =? 1) && negb isReply then 1 else 0.
Definition reply_delta (kind : Z) (isReply : bool) : Z := if (kind =? 1) && isReply then 1 else 0.

Definition earlier (old : option Z) (new : Z) : option Z :=
  match old with Some o => if new <? o then Some new else Some o | None => Some new end.

Definition bump_profile (note reply media createdAt : Z) (r : ProfileRow) : ProfileRow :=
  mkProfile (follower_count r) (following_count r) (trusted_follower_count r) (at_least0 (note_count r + note))
    (at_least0 (reply_count r + reply)) (at_least0 (media_count r + media)) (long_form_note_count r) (zap_received_count r)
    (sats_zapped r) (content_zap_count r) (Some (Z.max (default 0 (recent_activity_at r)) createdAt))
    (earlier (time_joined r) createdAt).

Definition applyIncrementalProfilePublicStatsTx (eventID pubkey : string) (kind createdAt : Z) (isReply : bool)
    : go (db stat_tables) unit :=
  claimed <- claimStatDeltaTx eventID statDeltaProfilePublicStats ;;
  if negb claimed then go_ret tt
  else
    resolveDerivationWriteVersion "profile_public_stats" ;;
    media <- profileMediaDeltaTx eventID kind ;;
    let note := note_delta kind isReply in
    let reply := reply_delta kind isReply in
    go_wrap "apply profile public stats delta" (exec (λ t,
      let m := profile_public_stats t in
      set_profiles (<[pubkey :=
        match m !! pubkey with
        | Some r => bump_profile note reply media createdAt r
        | None => mkProfile 0 0 0 note reply media 0 0 0 0 (Some createdAt) (Some createdAt)
        end]> m) t)) ;;
    go_when (kind =? 9735) (applyZapProfileCountersTx eventID pubkey 1).

Definition drop_profile (note reply media : Z) (r : ProfileRow) : ProfileRow :=
  mkProfile (follower_count r) (following_count r) (trusted_follower_count r) (at_least0 (note_count r - note))
    (at_least0 (reply_count r - reply)) (at_least0 (media_count r - media)) (long_form_note_count r) (zap_received_count r)
    (sats_zapped r) (content_zap_count r) (recent_activity_at r) (time_joined r).

Definition with_joined (joined : option Z) (r : ProfileRow) : ProfileRow :=
  mkProfile (follower_count r) (following_count r) (trusted_follower_count r) (note_count r) (reply_count r) (media_count r)
    (long_form_note_count r) (zap_received_count r) (sats_zapped r) (content_zap_count r) (recent_activity_at r) joined.

(** [SELECT MIN(created_at) FROM events WHERE pubkey = ... AND id <> ...]. *)
Definition min_created (pubkey : string) (but : option string) (es : gmap string EventRow) : option Z :=
  foldr (λ (e : string * EventRow) acc,
    if bool_decide (ev_pubkey e.2 = pubkey) && negb (bool_decide (Some e.1 = but)) then earlier acc (ev_created e.2) else acc)
    None (map_to_list es).

Definition drop_long_form (r : ProfileRow) : ProfileRow :=
  mkProfile (follower_count r) (following_count r) (trusted_follower_count r) (note_count r) (reply_count r) (media_count r)
    (at_least0 (long_form_note_count r - 1)) (zap_received_count r) (sats_zapped r) (content_zap_count r) (recent_activity_at r) (time_joined r).

Definition drop_media (r : ProfileRow) : ProfileRow :=
  mkProfile (follower_count r) (following_count r) (trusted_follower_count r) (note_count r) (reply_count r)
    (at_least0 (media_count r - 1)) (long_form_note_count r) (zap_received_count r) (sats_zapped r) (content_zap_count r)
    (recent_activity_at r) (time_joined r).

(** [DELETE FROM replaceable_state] of one event, for some kinds. *)
Definition delete_current (eventID : string) (kinds : list Z) : go (db stat_tables) bool :=
  stmt (λ t,
    match replaceable_state t !! eventID with
    | Some k => if bool_decide (k ∈ kinds) then Ok (set_replaceable (delete eventID (replaceable_state t)) t, true) else Ok (t, false)
    | None => Ok (t, false)
    end).

Definition reverseLongFormIfCurrentTx (eventID pubkey : string) : go (db stat_tables) unit :=
  gone <- go_wrap "check current long-form address" (delete_current eventID [30023]) ;;
  if negb gone then go_ret tt
  else
    resolveDerivationWriteVersion "profile_public_stats" ;;
    go_wrap "reverse long-form note count" (exec (λ t,
      set_profiles (alter drop_long_form pubkey (profile_public_stats t)) t)).

Definition reverseAddressableMediaIfCurrentTx (eventID pubkey : string) : go (db stat_tables) unit :=
  gone <- go_wrap "check current addressable media" (delete_current eventID [34235; 34236]) ;;
  if negb gone then go_ret tt
  else
    resolveDerivationWriteVersion "profile_public_stats" ;;
    go_wrap "reverse addressable media count" (exec (λ t,
      set_profiles (alter drop_media pubkey (profile_public_stats t)) t)).

Definition reverseIncrementalProfilePublicStatsTx (eventID pubkey : string) (kind createdAt : Z) (isReply : bool)
    : go (db stat_tables) unit :=
  unclaimed <- unclaimStatDeltaTx eventID statDeltaProfilePublicStats ;;
  (if negb unclaimed then go_ret tt
   else
     resolveDerivationWriteVersion "profile_public_stats" ;;
     media <- profileMediaDeltaTx eventID kind ;;
     go_wrap "reverse profile public stats delta" (exec (λ t,
       set_profiles (alter (drop_profile (note_delta kind isReply) (reply_delta kind isReply) media) pubkey (profile_public_stats t)) t)) ;;
     go_wrap "reverse profile time_joined" (exec (λ t,
       set_profiles (alter (λ r, if bool_decide (time_joined r = Some createdAt)
                                 then with_joined (min_created pubkey (Some eventID) (events t)) r else r) pubkey (profile_public_stats t)) t)) ;;
     go_when (kind =? 9735) (applyZapProfileCountersTx eventID pubkey (-1))) ;;
  go_when (kind =? 30023) (reverseLongFormIfCurrentTx eventID pubkey) ;;
  go_when ((kind =? 34235) || (kind =? 34236)) (reverseAddressableMediaIfCurrentTx eventID pubkey).

(** * Daily activity *)

Definition daily_zero : Daily := mkDaily 0 0 0 0 0 0.

Abbreviation daily_delta := (string * Daily)%type.

(** The author of an event that another one answers, if known and not its own. *)
Definition other_author (pubkey : string) (target : option string) : option string :=
  match target with
  | Some p => if bool_decide (p = "") || bool_decide (p = pubkey) then None else Some p
  | None => None
  end.

Definition computeActivityDailyDeltas (pubkey : string) (kind : Z) (isReply : bool) (replyTarget : string)
    (tags : list (list string)) : go (db stat_tables) (list daily_delta) :=
  if kind =? 1 then
    let own given := (pubkey, mkDaily 1 (if isReply then 0 else 1) (if isReply then 1 else 0) 0 given 0) in
    if isReply && negb (bool_decide (replyTarget = "")) then
      target <- lookupEventPubkeyTx replyTarget ;;
      match other_author pubkey target with
      | Some p => go_ret [own 1; (p, mkDaily 0 0 0 1 0 0)]
      | None => go_ret [own 0]
      end
    else go_ret [own 0]
  else if (kind =? 6) || (kind =? 7) then
    let targetID := firstReferencedEventID tags in
    if bool_decide (targetID = "") then go_ret []
    else
      target <- lookupEventPubkeyTx targetID ;;
      match other_author pubkey target with
      | Some p => go_ret [(pubkey, mkDaily 0 0 0 0 1 0); (p, mkDaily 0 0 0 1 0 0)]
      | None => go_ret []
      end
  else if kind =? 9735 then
    let sender := zapReceiptSender pubkey tags in
    let receiver := firstTagValue tags "p" in
    if bool_decide (receiver = "") || bool_decide (receiver = sender) then go_ret []
    else go_ret [(sender, mkDaily 0 0 0 0 1 0); (receiver, mkDaily 0 0 0 1 0 (i64 (zapReceiptAmountSats tags * 1000)))]
  else go_ret [].

Definition negateActivityDailyDelta (d : daily_delta) : daily_delta :=
  let c := d.2 in
  (d.1, mkDaily (- d_post c) (- d_note c) (- d_reply c) (- d_received c) (- d_given c) (- d_msats c)).

Definition daily_add (c d : Daily) : Daily :=
  mkDaily (at_least0 (d_post c + d_post d)) (at_least0 (d_note c + d_note d)) (at_least0 (d_reply c + d_reply d))
    (at_least0 (d_received c + d_received d)) (at_least0 (d_given c + d_given d)) (at_least0 (d_msats c + d_msats d)).

#[local] Instance Daily_eq_dec : EqDecision Daily.
Proof. solve_decision. Defined.

(** Insert the counters as they are, or add them to the row's, not below zero. *)
Definition upsertAuthorActivityDailyDeltaTx (date : Z) (d : daily_delta) : go (db stat_tables) unit :=
  if bool_decide (d.1 = "") then go_ret tt
  else if bool_decide (d.2 = daily_zero) then go_ret tt
  else go_wrap ("upsert author_activity_daily delta for " +:+ d.1) (exec (λ t,
    let m := author_activity_daily t in
    set_daily (<[(d.1, date) := match m !! (d.1, date) with Some c => daily_add c d.2 | None => d.2 end]> m) t)).

Fixpoint go_each {A S} (f : A → go S unit) (l : list A) : go S unit :=
  match l with
  | [] => go_ret tt
  | x :: l => f x ;; go_each f l
  end.

Definition applyIncrementalAuthorActivityDailyTx (eventID pubkey : string) (kind createdAt : Z) (isReply : bool)
    (replyTarget : string) (tags : list (list string)) : go (db stat_tables) unit :=
  deltas <- computeActivityDailyDeltas pubkey kind isReply replyTarget tags ;;
  if bool_decide (deltas = []) then go_ret tt
  else
    claimed <- claimStatDeltaTx eventID statDeltaAuthorActivityDaily ;;
    if negb claimed then go_ret tt
    else
      resolveDerivationWriteVersion "author_activity_daily" ;;
      go_each (upsertAuthorActivityDailyDeltaTx (date_of createdAt)) deltas.

Definition reverseIncrementalAuthorActivityDailyTx (eventID pubkey : string) (kind createdAt : Z) (isReply : bool)
    (replyTarget : string) (tags : list (list string)) : go (db stat_tables) unit :=
  unclaimed <- unclaimStatDeltaTx eventID statDeltaAuthorActivityDaily ;;
  if negb unclaimed then go_ret tt
  else
    deltas <- computeActivityDailyDeltas pubkey kind isReply replyTarget tags ;;
    if bool_decide (deltas = []) then go_ret tt
    else
      resolveDerivationWriteVersion "author_activity_daily" ;;
      go_each (λ d, upsertAuthorActivityDailyDeltaTx (date_of createdAt) (negateActivityDailyDelta d)) deltas.

(** * Hashtags and media by day *)

Definition loadEventHashtagsTx (eventID : string) : go (db stat_tables) (list string) :=
  go_wrap "load event hashtags for incremental daily" (query (λ t, default [] (event_hashtags t !! eventID))).

Definition applyIncrementalAuthorHashtagDailyTx (eventID pubkey : string) (kind createdAt : Z) : go (db stat_tables) unit :=
  if negb (kind =? 1) then go_ret tt
  else
    hashtags <- loadEventHashtagsTx eventID ;;
    if bool_decide (hashtags = []) then go_ret tt
    else
      claimed <- claimStatDeltaTx eventID statDeltaAuthorHashtagDaily ;;
      if negb claimed then go_ret tt
      else go_each (λ h, go_wrap "upsert author_hashtag_daily" (exec (λ t,
        let k := ((pubkey, date_of createdAt), h) in
        let m := author_hashtag_daily t in
        set_hashtags (<[k := match m !! k with Some n => at_least0 (n + 1) | None => 1 end]> m) t))) hashtags.

Definition reverseIncrementalAuthorHashtagDailyTx (eventID pubkey : string) (kind createdAt : Z) : go (db stat_tables) unit :=
  if negb (kind =? 1) then go_ret tt
  else
    unclaimed <- unclaimStatDeltaTx eventID statDeltaAuthorHashtagDaily ;;
    if negb unclaimed then go_ret tt
    else
      hashtags <- loadEventHashtagsTx eventID ;;
      go_each (λ h, go_wrap "reverse author_hashtag_daily" (exec (λ t,
        set_hashtags (alter (λ n, at_least0 (n - 1)) ((pubkey, date_of createdAt), h) (author_hashtag_daily t)) t))) hashtags.

Definition one_if (b : bool) : Z := if b then 1 else 0.

Definition media_of (f : MediaFlags) : Media :=
  mkMedia 1 (one_if (hasImage f)) (one_if (hasVideo f)) (one_if (hasLink f)) (one_if (hasArticle f))
    (one_if (negb (hasImage f) && negb (hasVideo f) && negb (hasLink f) && negb (hasArticle f))) (attachmentCount f).

Definition media_add (sign : Z) (c d : Media) : Media :=
  mkMedia (at_least0 (m_total c + sign * m_total d)) (at_least0 (m_image c + sign * m_image d))
    (at_least0 (m_video c + sign * m_video d)) (at_least0 (m_link c + sign * m_link d))
    (at_least0 (m_article c + sign * m_article d)) (at_least0 (m_text c + sign * m_text d))
    (at_least0 (m_attachments c + sign * m_attachments d)).

Definition loadNoteDiscoveryMediaFlagsTx (eventID : string) : go (db stat_tables) (option MediaFlags) :=
  go_wrap "load note_discovery_stats for media daily" (query (λ t, note_discovery_stats t !! eventID)).

Definition applyIncrementalAuthorMediaDailyTx (eventID pubkey : string) (kind createdAt : Z) : go (db stat_tables) unit :=
  if negb (kind =? 1) then go_ret tt
  else
    flags <- loadNoteDiscoveryMediaFlagsTx eventID ;;
    match flags with
    | None => go_ret tt
    | Some f =>
        claimed <- claimStatDeltaTx eventID statDeltaAuthorMediaDaily ;;
        if negb claimed then go_ret tt
        else go_wrap "upsert author_media_daily" (exec (λ t,
          let k := (pubkey, date_of createdAt) in
          let m := author_media_daily t in
          set_media (<[k := match m !! k with Some c => media_add 1 c (media_of f) | None => media_of f end]> m) t))
    end.

Definition reverseIncrementalAuthorMediaDailyTx (eventID pubkey : string) (kind createdAt : Z) : go (db stat_tables) unit :=
  if negb (kind =? 1) then go_ret tt
  else
    unclaimed <- unclaimStatDeltaTx eventID statDeltaAuthorMediaDaily ;;
    if negb unclaimed then go_ret tt
    else
      flags <- loadNoteDiscoveryMediaFlagsTx eventID ;;
      match flags with
      | None => go_ret tt
      | Some f => go_wrap "reverse author_media_daily" (exec (λ t,
          set_media (alter (λ c, media_add (-1) c (media_of f)) (pubkey, date_of createdAt) (author_media_daily t)) t))
      end.

(** * Hourly activity *)

Abbreviation hourly_delta := (string * Hourly)%type.

Definition author_tick (post note reply : Z) : Hourly := mkHourly post note reply 0 0 0 0 0 0 1.

Definition computeHourlyActivityDeltas (pubkey : string) (kind : Z) (isReply : bool) (replyTarget : string)
    (tags : list (list string)) : go (db stat_tables) (list hourly_delta) :=
  let tick := (pubkey, author_tick 0 0 0) in
  if kind =? 1 then
    let own := (pubkey, author_tick 1 (if isReply then 0 else 1) (if isReply then 1 else 0)) in
    if isReply && negb (bool_decide (replyTarget = "")) then
      target <- lookupEventPubkeyTx replyTarget ;;
      match other_author pubkey target with
      | Some p => go_ret [own; (p, mkHourly 0 0 0 1 1 0 0 0 0 0)]
      | None => go_ret [own]
      end
    else go_ret [own]
  else if (kind =? 6) || (kind =? 7) then
    let targetID := firstReferencedEventID tags in
    if bool_decide (targetID = "") then go_ret [tick]
    else
      target <- lookupEventPubkeyTx targetID ;;
      match other_author pubkey target with
      | Some p => go_ret [tick; (p, if kind =? 7 then mkHourly 0 0 0 1 0 1 0 0 0 0 else mkHourly 0 0 0 1 0 0 1 0 0 0)]
      | None => go_ret [tick]
      end
  else if kind =? 9735 then
    let sender := zapReceiptSender pubkey tags in
    let receiver := firstTagValue tags "p" in
    if bool_decide (receiver = "") || bool_decide (receiver = sender) then go_ret [tick]
    else go_ret [tick; (receiver, mkHourly 0 0 0 1 0 0 0 1 (i64 (zapReceiptAmountSats tags * 1000)) 0)]
  else go_ret [tick].

Definition negateHourlyActivityDelta (d : hourly_delta) : hourly_delta :=
  let c := d.2 in
  (d.1, mkHourly (- h_post c) (- h_note c) (- h_reply c) (- h_received c) (- h_reply_received c) (- h_reaction_received c)
          (- h_repost_received c) (- h_zap_received c) (- h_msats c) (- h_authored c)).

Definition hourly_add (c d : Hourly) : Hourly :=
  mkHourly (at_least0 (h_post c + h_post d)) (at_least0 (h_note c + h_note d)) (at_least0 (h_reply c + h_reply d))
    (at_least0 (h_received c + h_received d)) (at_least0 (h_reply_received c + h_reply_received d))
    (at_least0 (h_reaction_received c + h_reaction_received d)) (at_least0 (h_repost_received c + h_repost_received d))
    (at_least0 (h_zap_received c + h_zap_received d)) (at_least0 (h_msats c + h_msats d)) (at_least0 (h_authored c + h_authored d)).

Definition slot_of (pubkey : string) (createdAt : Z) : slot_key := (pubkey, date_of createdAt, weekday_of createdAt, hour_of createdAt).

Definition upsertAuthorHourlyActivityDeltaTx (createdAt : Z) (d : hourly_delta) : go (db stat_tables) unit :=
  if bool_decide (d.1 = "") then go_ret tt
  else go_wrap ("upsert author_hourly_activity for " +:+ d.1) (exec (λ t,
    let k := slot_of d.1 createdAt in
    let m := author_hourly_activity t in
    set_hourly (<[k := match m !! k with Some c => hourly_add c d.2 | None => d.2 end]> m) t)).

Definition applyIncrementalAuthorHourlyActivityTx (eventID pubkey : string) (kind createdAt : Z) (isReply : bool)
    (replyTarget : string) (tags : list (list string)) : go (db stat_tables) unit :=
  deltas <- computeHourlyActivityDeltas pubkey kind isReply replyTarget tags ;;
  if bool_decide (deltas = []) then go_ret tt
  else
    claimed <- claimStatDeltaTx eventID statDeltaAuthorHourlyActivity ;;
    if negb claimed then go_ret tt
    else go_each (upsertAuthorHourlyActivityDeltaTx createdAt) deltas.

Definition reverseIncrementalAuthorHourlyActivityTx (eventID pubkey : string) (kind createdAt : Z) (isReply : bool)
    (replyTarget : string) (tags : list (list string)) : go (db stat_tables) unit :=
  unclaimed <- unclaimStatDeltaTx eventID statDeltaAuthorHourlyActivity ;;
  if negb unclaimed then go_ret tt
  else
    deltas <- computeHourlyActivityDeltas pubkey kind isReply replyTarget tags ;;
    go_each (λ d, upsertAuthorHourlyActivityDeltaTx createdAt (negateHourlyActivityDelta d)) deltas.

(** * Recency for discovery *)

Definition recency_targets (pubkey : string) (kind : Z) (isReply : bool) (replyTarget : string)
    (tags : list (list string)) : go (db stat_tables) (list string) :=
  let of_event id :=
    target <- lookupEventPubkeyTx id ;;
    match target with
    | Some p => if bool_decide (p = "") then go_ret [pubkey] else go_ret [pubkey; p]
    | None => go_ret [pubkey]
    end in
  if kind =? 1 then if isReply && negb (bool_decide (replyTarget = "")) then of_event replyTarget else go_ret [pubkey]
  else if (kind =? 6) || (kind =? 7) then
    let targetID := firstReferencedEventID tags in
    if bool_decide (targetID = "") then go_ret [pubkey] else of_event targetID
  else if kind =? 9735 then
    let receiver := firstTagValue tags "p" in
    go_ret (if bool_decide (receiver = "") then [pubkey] else [pubkey; receiver])
  else go_ret [pubkey].

Fixpoint touch_targets (seen : list string) (createdAt : Z) (targets : list string) : go (db stat_tables) unit :=
  match targets with
  | [] => go_ret tt
  | target :: targets =>
      let target := trim_space target in
      if bool_decide (target = "") || bool_decide (target ∈ seen) then touch_targets seen createdAt targets
      else
        go_wrap ("upsert profile discovery recent activity for " +:+ target) (exec (λ t,
          let m := recent_activity t in
          set_recent (<[target := match m !! target with Some old => Z.max old createdAt | None => createdAt end]> m) t)) ;;
        touch_targets (target :: seen) createdAt targets
  end.

Definition applyIncrementalProfileDiscoveryRecentActivityTx (pubkey : string) (kind createdAt : Z) (isReply : bool)
    (replyTarget : string) (tags : list (list string)) : go (db stat_tables) unit :=
  targets <- recency_targets pubkey kind isReply replyTarget tags ;;
  touch_targets [] createdAt targets.

(** * Applying and reversing an event *)

Record flags := mkSwitches {
  incrementalProfilePublicStats : bool;
  incrementalAuthorActivityDaily : bool;
  incrementalProfileDiscoveryStats : bool;
}.

Definition apply_all (h : flags) (eventID : string) (e : EventRow) (tags : list (list string)) : go (db stat_tables) unit :=
  let '(isReply, target) := replyTargetFromTags tags in
  let pubkey := ev_pubkey e in
  let kind := ev_kind e in
  let createdAt := ev_created e in
  go_when (incrementalProfilePublicStats h) (applyIncrementalProfilePublicStatsTx eventID pubkey kind createdAt isReply) ;;
  go_when (incrementalAuthorActivityDaily h)
    (applyIncrementalAuthorActivityDailyTx eventID pubkey kind createdAt isReply target tags ;;
     applyIncrementalAuthorHashtagDailyTx eventID pubkey kind createdAt ;;
     applyIncrementalAuthorMediaDailyTx eventID pubkey kind createdAt ;;
     applyIncrementalAuthorHourlyActivityTx eventID pubkey kind createdAt isReply target tags) ;;
  go_when (incrementalProfileDiscoveryStats h)
    (applyIncrementalProfileDiscoveryRecentActivityTx pubkey kind createdAt isReply target tags).

Definition ApplyIncrementalAuthorStats (h : flags) (eventID : string) : go (db stat_tables) unit :=
  if negb (incrementalProfilePublicStats h) && negb (incrementalAuthorActivityDaily h) && negb (incrementalProfileDiscoveryStats h)
  then go_ret tt
  else
    let eventID := trim_space eventID in
    if bool_decide (eventID = "") then go_fail "event id is required"
    else
      e <- go_wrap "load event for incremental stats" (query (λ t, events t !! eventID)) ;;
      match e with
      | None => go_ret tt
      | Some e =>
          tags <- loadEventTags eventID ;;
          tx "begin incremental stats tx" "commit incremental stats tx" (apply_all h eventID e tags)
      end.

Definition ReverseIncrementalAuthorStatsTx (eventID : string) : go (db stat_tables) unit :=
  let eventID := trim_space eventID in
  if bool_decide (eventID = "") then go_ret tt
  else
    e <- go_wrap "load event for incremental stats reversal" (query (λ t, events t !! eventID)) ;;
    match e with
    | None => go_ret tt
    | Some e =>
        tags <- loadEventTagsTx eventID ;;
        let '(isReply, target) := replyTargetFromTags tags in
        let pubkey := ev_pubkey e in
        let kind := ev_kind e in
        let createdAt := ev_created e in
        reverseIncrementalProfilePublicStatsTx eventID pubkey kind createdAt isReply ;;
        reverseIncrementalAuthorActivityDailyTx eventID pubkey kind createdAt isReply target tags ;;
        reverseIncrementalAuthorHashtagDailyTx eventID pubkey kind createdAt ;;
        reverseIncrementalAuthorMediaDailyTx eventID pubkey kind createdAt ;;
        reverseIncrementalAuthorHourlyActivityTx eventID pubkey kind createdAt isReply target tags
    end.

Definition RefreshProfileTimeJoinedTx (pubkeys : list string) : go (db stat_tables) unit :=
  if bool_decide (pubkeys = []) then go_ret tt
  else
    resolveDerivationWriteVersion "profile_public_stats" ;;
    go_wrap "refresh profile time_joined" (exec (λ t,
      set_profiles (map_imap (λ p r, Some (if bool_decide (p ∈ pubkeys) then with_joined (min_created p None (events t)) r else r))
        (profile_public_stats t)) t)).

(** * The purge *)

(** [DELETE FROM events], with what refers to the rows. *)
Definition delete_events (ids : list string) (t : stat_tables) : stat_tables :=
  let keep {A} (m : gmap string A) : gmap string A := filter (λ b, b.1 ∉ ids) m in
  mkStats (keep (events t)) (applied_stat_deltas t) (profile_public_stats t) (author_activity_daily t) (author_hashtag_daily t)
    (author_media_daily t) (author_hourly_activity t) (recent_activity t) (keep (event_hashtags t)) (keep (note_discovery_stats t))
    (keep (zap_receipts t)) (keep (replaceable_state t)).

Definition authors_of (ids : list string) (t : stat_tables) : list string :=
  elements (list_to_set (omap (λ id, ev_pubkey <$> events t !! id) ids) : gset string).

(** With the reverser set. The result is the number of events deleted. *)
Definition reverseAndDeleteTx (ids : list string) : go (db stat_tables) Z :=
  if bool_decide (ids = []) then go_ret 0
  else
    pubkeys <- go_wrap "load pubkeys for time_joined refresh" (query (authors_of ids)) ;;
    go_each (λ id, go_wrap ("reverse incremental stats for " +:+ id) (ReverseIncrementalAuthorStatsTx id)) ids ;;
    deleted <- go_wrap "delete events by id" (stmt (λ t,
      Ok (delete_events ids t, Z.of_nat (size (filter (λ b, b.1 ∈ ids) (events t)))))) ;;
    RefreshProfileTimeJoinedTx pubkeys ;;
    go_ret deleted.

(** A purge of chosen events: [guardedWithTx] around it. *)
Definition purge (ids : list string) : go (db stat_tables) Z :=
  tx "begin retention tx" "commit retention tx"
    (go_wrap "set retention statement_timeout" (query (λ _, tt)) ;;
     go_wrap "set retention lock_timeout" (query (λ _, tt)) ;;
     reverseAndDeleteTx ids).
End stats.
