(* ===== verification/StatsLedger.v ===== *)
(** The ledger of incremental author statistics: what the counters of
    [AuthorStats] count, over any sequence of applications and purges with
    failures, and the cases in which a reversal does not undo an application. *)

From S2P Require Import Prelude GoLib Json Db NostrTags Zap AuthorStats.

(** * What the counters count *)

(** The counters whose contributions depend on the event alone. *)
Inductive counter :=
| CNotes (p : string)
| CReplies (p : string)
| CDayPosts (p : string) (date : Z)
| CDayNotes (p : string) (date : Z)
| CDayReplies (p : string) (date : Z)
| CHourEvents (p : string) (date dow hour : Z)
| CHourPosts (p : string) (date dow hour : Z)
| CHourNotes (p : string) (date dow hour : Z)
| CHourReplies (p : string) (date dow hour : Z).

Definition col {K A} `{Lookup K A M} (f : A → Z) (m : M) (k : K) : Z := match m !! k with Some r => f r | None => 0 end.

Definition value (t : stat_tables) (c : counter) : Z :=
  match c with
  | CNotes p => col note_count (profile_public_stats t) p
  | CReplies p => col reply_count (profile_public_stats t) p
  | CDayPosts p d => col d_post (author_activity_daily t) (p, d)
  | CDayNotes p d => col d_note (author_activity_daily t) (p, d)
  | CDayReplies p d => col d_reply (author_activity_daily t) (p, d)
  | CHourEvents p d w h => col h_authored (author_hourly_activity t) (p, d, w, h)
  | CHourPosts p d w h => col h_post (author_hourly_activity t) (p, d, w, h)
  | CHourNotes p d w h => col h_note (author_hourly_activity t) (p, d, w, h)
  | CHourReplies p d w h => col h_reply (author_hourly_activity t) (p, d, w, h)
  end.

(** The projection that keeps a counter, and its author. *)
Definition projection (c : counter) : string :=
  match c with
  | CNotes _ | CReplies _ => statDeltaProfilePublicStats
  | CDayPosts _ _ | CDayNotes _ _ | CDayReplies _ _ => statDeltaAuthorActivityDaily
  | _ => statDeltaAuthorHourlyActivity
  end.

Definition author (c : counter) : string :=
  match c with
  | CNotes p | CReplies p | CDayPosts p _ | CDayNotes p _ | CDayReplies p _
  | CHourEvents p _ _ _ | CHourPosts p _ _ _ | CHourNotes p _ _ _ | CHourReplies p _ _ _ => p
  end.

Section invariant.
Context `{UnicodeTables}.
Context (noteMediaFlags : EventRow → MediaFlags).

(** Stored rows are determined by their id. *)
Context (source : string → EventRow).

Definition tags_of (e : EventRow) : list (list string) := default [] (decode_event_tags (ev_raw e)).

Definition is_reply (e : EventRow) : bool := (replyTargetFromTags (tags_of e)).1.

Definition at_slot (e : EventRow) (p : string) (date dow hour : Z) : bool :=
  bool_decide (slot_of (ev_pubkey e) (ev_created e) = (p, date, dow, hour)).

Definition at_day (e : EventRow) (p : string) (date : Z) : bool :=
  bool_decide ((ev_pubkey e, date_of (ev_created e)) = (p, date)).

(** Whether an event counts. *)
Definition counts (c : counter) (e : EventRow) : bool :=
  let note := (ev_kind e =? 1) && negb (is_reply e) in
  let reply := (ev_kind e =? 1) && is_reply e in
  match c with
  | CNotes p => bool_decide (ev_pubkey e = p) && note
  | CReplies p => bool_decide (ev_pubkey e = p) && reply
  | CDayPosts p d => at_day e p d && (ev_kind e =? 1)
  | CDayNotes p d => at_day e p d && note
  | CDayReplies p d => at_day e p d && reply
  | CHourEvents p d w h => at_slot e p d w h
  | CHourPosts p d w h => at_slot e p d w h && (ev_kind e =? 1)
  | CHourNotes p d w h => at_slot e p d w h && note
  | CHourReplies p d w h => at_slot e p d w h && reply
  end.

(** Claims of a projection by events that count. *)
Definition claims (l : gset (string * string)) (c : counter) : gset (string * string) :=
  filter (λ x, x.2 = projection c ∧ counts c (source x.1) = true) l.

Definition total (l : gset (string * string)) (c : counter) : Z := Z.of_nat (size (claims l c)).

Definition ledgered : list string :=
  [statDeltaProfilePublicStats; statDeltaAuthorActivityDaily; statDeltaAuthorHashtagDaily; statDeltaAuthorMediaDaily;
   statDeltaAuthorHourlyActivity].

Record stats_ok (t : stat_tables) : Prop := {
  so_source : ∀ id e, events t !! id = Some e → e = source id ∧ trim_space id = id ∧ id ≠ "";
  so_live : ∀ id p, p ∈ ledgered → (id, p) ∈ applied_stat_deltas t → is_Some (events t !! id);
  so_kind : ∀ id p, p ∈ [statDeltaAuthorHashtagDaily; statDeltaAuthorMediaDaily] → (id, p) ∈ applied_stat_deltas t →
    ev_kind (source id) = 1;
  so_count : ∀ c, author c ≠ "" → value t c = total (applied_stat_deltas t) c;
}.

Lemma total_nonneg l c : 0 ≤ total l c.
Proof. unfold total. lia. Qed.

Lemma claims_claim l c id X :
  claims ({[(id, X)]} ∪ l) c
  = if bool_decide (projection c = X) && counts c (source id) then {[(id, X)]} ∪ claims l c else claims l c.
Proof.
  apply set_eq. intros x. assert (x ∈ claims ({[(id, X)]} ∪ l) c ↔ (x.2 = projection c ∧ counts c (source x.1) = true) ∧ (x = (id, X) ∨ x ∈ l)) as ->
    by (unfold claims; by rewrite elem_of_filter, elem_of_union, elem_of_singleton).
  assert (x ∈ claims l c ↔ (x.2 = projection c ∧ counts c (source x.1) = true) ∧ x ∈ l) as Hl by (unfold claims; by rewrite elem_of_filter).
  destruct (bool_decide (projection c = X) && counts c (source id)) eqn:E.
  - apply andb_true_iff in E as [E1 E2]. apply bool_decide_eq_true in E1. rewrite elem_of_union, elem_of_singleton, Hl.
    split; [tauto|]. intros [->|?]; [|tauto]. simpl. by rewrite E1, E2; auto.
  - rewrite Hl. split; [|tauto]. intros [[H1 H2] [->|Hx]]; [|tauto]. simpl in *. rewrite H2, bool_decide_eq_true_2 in E by done. done.
Qed.

Lemma total_claim l c id X :
  (id, X) ∉ l → total ({[(id, X)]} ∪ l) c = total l c + one_if (bool_decide (projection c = X) && counts c (source id)).
Proof.
  intros Hn. unfold total. rewrite claims_claim. destruct (_ && _); cbn [one_if]; [|lia].
  rewrite size_union, size_singleton by (unfold claims; set_solver). lia.
Qed.

Lemma total_unclaim l c id X :
  (id, X) ∈ l → total l c = total (l ∖ {[(id, X)]}) c + one_if (bool_decide (projection c = X) && counts c (source id)).
Proof.
  intros Hin. rewrite <-(total_claim (l ∖ {[(id, X)]}) c id X) by set_solver.
  f_equal. apply set_eq. intros x. destruct (decide (x = (id, X))); set_solver.
Qed.

(** ** Effects *)

(** The contribution of an event, once it is claimed for [X]. *)
Definition part (c : counter) (X : string) (e : EventRow) : Z := one_if (bool_decide (projection c = X) && counts c e).

Record applied_once (X id : string) (t t' : stat_tables) : Prop := {
  ao_events : events t' = events t;
  ao_cases :
    (applied_stat_deltas t' = applied_stat_deltas t ∧ ∀ c, author c ≠ "" → value t' c = value t c) ∨
    (((id, X) ∉ applied_stat_deltas t) ∧ applied_stat_deltas t' = {[(id, X)]} ∪ applied_stat_deltas t ∧
     ∀ c, author c ≠ "" → 0 ≤ value t c → value t' c = value t c + part c X (source id));
}.

Record reversed_once (X id : string) (t t' : stat_tables) : Prop := {
  ro_events : events t' = events t;
  ro_cases :
    (((id, X) ∉ applied_stat_deltas t) ∧ applied_stat_deltas t' = applied_stat_deltas t ∧
     ∀ c, author c ≠ "" → value t' c = value t c) ∨
    ((id, X) ∈ applied_stat_deltas t ∧ applied_stat_deltas t' = applied_stat_deltas t ∖ {[(id, X)]} ∧
     ∀ c, author c ≠ "" → part c X (source id) ≤ value t c → value t' c = value t c - part c X (source id));
}.

Lemma part_range c X e : 0 ≤ part c X e ≤ 1.
Proof. unfold part, one_if. destruct (_ && _); lia. Qed.

Lemma applied_once_ok X id t t' :
  is_Some (events t !! id) → (X ∈ [statDeltaAuthorHashtagDaily; statDeltaAuthorMediaDaily] → ev_kind (source id) = 1) →
  applied_once X id t t' → stats_ok t → stats_ok t'.
Proof.
  intros Hid HX [He Hc] [S L K C]. destruct Hc as [[El Hv]|(Hn & El & Hv)].
  - split; rewrite ?He, ?El; try done. intros c Ha. rewrite Hv by done. by apply C.
  - split; rewrite ?He, ?El; [done| | |].
    + intros id' p Hp Hin. apply elem_of_union in Hin as [Hin|Hin]; [|by eapply L].
      apply elem_of_singleton in Hin as [= -> ->]. done.
    + intros id' p Hp Hin. apply elem_of_union in Hin as [Hin|Hin]; [|by eapply K].
      apply elem_of_singleton in Hin as [= -> ->]. auto.
    + intros c Ha. pose proof (C c Ha) as Hc. pose proof (total_nonneg (applied_stat_deltas t) c).
      rewrite Hv by (done || lia). rewrite total_claim by done. unfold part. lia.
Qed.

Lemma reversed_once_ok X id t t' :
  reversed_once X id t t' → stats_ok t → stats_ok t' ∧ ((id, X) ∉ applied_stat_deltas t') ∧ applied_stat_deltas t' ⊆ applied_stat_deltas t.
Proof.
  intros [He Hc] [S L K C]. destruct Hc as [(Hn & El & Hv)|(Hin & El & Hv)].
  - split_and!; [|by rewrite El|by rewrite El]. split; rewrite ?He, ?El; try done. intros c Ha. rewrite Hv by done. by apply C.
  - split_and!; [|rewrite El; set_solver|rewrite El; set_solver]. split; rewrite ?He, ?El; [done| | |].
    + intros id' p Hp Hi. apply (L id' p Hp). set_solver.
    + intros id' p Hp Hi. apply (K id' p Hp). set_solver.
    + intros c Ha. pose proof (total_unclaim _ c id X Hin) as Ht. pose proof (C c Ha) as Hc.
      pose proof (total_nonneg (applied_stat_deltas t ∖ {[(id, X)]}) c). unfold part in *. rewrite Hv; [lia|done|lia].
Qed.


(** ** The projections, one by one *)

Lemma claim_ok id X s s' b :
  claimStatDeltaTx id X s = (s', Ok b) →
  tables s' = set_ledger ({[(id, X)]} ∪ applied_stat_deltas (tables s)) (tables s) ∧
  b = negb (bool_decide ((id, X) ∈ applied_stat_deltas (tables s))).
Proof. unfold claimStatDeltaTx. intros E. go_inv. by injection E as -> <-. Qed.

Lemma unclaim_ok id X s s' b :
  unclaimStatDeltaTx id X s = (s', Ok b) →
  tables s' = set_ledger (applied_stat_deltas (tables s) ∖ {[(id, X)]}) (tables s) ∧
  b = bool_decide ((id, X) ∈ applied_stat_deltas (tables s)).
Proof. unfold unclaimStatDeltaTx. intros E. go_inv. by injection E as -> <-. Qed.

Lemma version_ok n s s' u : resolveDerivationWriteVersion n s = (s', Ok u) → tables s' = tables s.
Proof. unfold resolveDerivationWriteVersion. intros E. by go_inv. Qed.

Lemma lookup_author_ok id s s' a :
  lookupEventPubkeyTx id s = (s', Ok a) → tables s' = tables s ∧ a = ev_pubkey <$> events (tables s) !! id.
Proof. unfold lookupEventPubkeyTx. intros E. by go_inv. Qed.

Lemma media_delta_ok id kind s s' d :
  profileMediaDeltaTx noteMediaFlags id kind s = (s', Ok d) → tables s' = tables s.
Proof.
  unfold profileMediaDeltaTx. intros E. destruct (_ || _ || _); [by go_inv|]. destruct (kind =? 1); [|by go_inv].
  apply bind_ok in E as (s1 & f & E1 & E2). go_inv. destruct (hasImage f || hasVideo f); [by go_inv|].
  apply bind_ok in E2 as (s2 & b & E2 & E3). go_inv. congruence.
Qed.

(** A change that no ledgered counter shows. *)
Record quiet (t t' : stat_tables) : Prop := {
  qu_events : events t' = events t;
  qu_ledger : applied_stat_deltas t' = applied_stat_deltas t;
  qu_value : ∀ c, value t' c = value t c;
}.

Lemma quiet_same t : quiet t t.
Proof. done. Qed.

Lemma quiet_trans t1 t2 t3 : quiet t1 t2 → quiet t2 t3 → quiet t1 t3.
Proof. intros [A1 B1 C1] [A2 B2 C2]. split; [congruence|congruence|]. intros c. by rewrite C2, C1. Qed.

Lemma quiet_profiles m t :
  (∀ p, col note_count m p = col note_count (profile_public_stats t) p ∧ col reply_count m p = col reply_count (profile_public_stats t) p) →
  quiet t (set_profiles m t).
Proof. intros Hm. split; [done|done|]. intros c. destruct c; simpl; try done; apply Hm. Qed.

Lemma col_insert {K A} `{Countable K} (f : A → Z) (m : gmap K A) k r k' :
  col f (<[k := r]> m) k' = if bool_decide (k' = k) then f r else col f m k'.
Proof. unfold col. case_bool_decide; [subst; by rewrite lookup_insert_eq|by rewrite lookup_insert_ne]. Qed.

Lemma col_alter {K A} `{Countable K} (f : A → Z) g (m : gmap K A) k k' :
  col f (alter g k m) k' = if bool_decide (k' = k) then match m !! k with Some r => f (g r) | None => 0 end else col f m k'.
Proof.
  unfold col. case_bool_decide; [subst; rewrite lookup_alter_eq; by destruct (m !! k)|by rewrite lookup_alter_ne].
Qed.

Lemma adjust_zaps_ok pk a b c s s' u :
  adjustProfileZapCountersTx pk a b c s = (s', Ok u) → quiet (tables s) (tables s').
Proof.
  unfold adjustProfileZapCountersTx. intros E. destruct (_ && _ && _); [go_inv; apply quiet_same|]. go_inv. rewrite E.
  apply quiet_profiles. intros p. rewrite !col_insert. unfold col.
  case_bool_decide; [subst; by destruct (profile_public_stats (tables s) !! pk)|done].
Qed.

Lemma zaps_ok id pk sign s s' u :
  applyZapProfileCountersTx id pk sign s = (s', Ok u) → quiet (tables s) (tables s').
Proof.
  unfold applyZapProfileCountersTx. intros E. apply bind_ok in E as (s1 & z & E1 & E2). go_inv.
  rewrite <-H0. destruct z as [z|]; [|go_inv; apply quiet_same]. cbv zeta in E2.
  destruct (null_if_empty (z_receiver z)) as [r|]; [|by apply adjust_zaps_ok in E2].
  case_bool_decide; [by apply adjust_zaps_ok in E2|]. go_inv.
  eapply quiet_trans; eapply adjust_zaps_ok; eassumption.
Qed.

Lemma when_ok {S} b (m : go S unit) s s' u : go_when b m s = (s', Ok u) → (b = true ∧ m s = (s', Ok u)) ∨ (b = false ∧ s' = s).
Proof. unfold go_when. destruct b; [by left|]. intros [= <- _]. by right. Qed.

Lemma ledger_self id X t : (id, X) ∈ applied_stat_deltas t → set_ledger ({[(id, X)]} ∪ applied_stat_deltas t) t = t.
Proof. intros Hin. replace ({[(id, X)]} ∪ applied_stat_deltas t) with (applied_stat_deltas t) by set_solver. by destruct t. Qed.

Lemma ledger_out id X t : (id, X) ∉ applied_stat_deltas t → set_ledger (applied_stat_deltas t ∖ {[(id, X)]}) t = t.
Proof. intros Hin. replace (applied_stat_deltas t ∖ {[(id, X)]}) with (applied_stat_deltas t) by set_solver. by destruct t. Qed.

Lemma nothing_applied X id t t' : t' = t → applied_once X id t t'.
Proof. intros ->. split; [done|]. by left. Qed.

Lemma nothing_reversed X id t t' : ((id, X) ∉ applied_stat_deltas t) → t' = t → reversed_once X id t t'.
Proof. intros Hn ->. split; [done|]. by left. Qed.

Lemma note_part p e : part (CNotes p) statDeltaProfilePublicStats e = if bool_decide (p = ev_pubkey e) then note_delta (ev_kind e) (is_reply e) else 0.
Proof.
  unfold part, counts, note_delta. simpl. rewrite (bool_decide_ext (ev_pubkey e = p) (p = ev_pubkey e)) by (split; congruence).
  case_bool_decide; simpl; [|done]. by destruct (ev_kind e =? 1), (is_reply e).
Qed.

Lemma reply_part p e : part (CReplies p) statDeltaProfilePublicStats e = if bool_decide (p = ev_pubkey e) then reply_delta (ev_kind e) (is_reply e) else 0.
Proof.
  unfold part, counts, reply_delta. simpl. rewrite (bool_decide_ext (ev_pubkey e = p) (p = ev_pubkey e)) by (split; congruence).
  case_bool_decide; simpl; [|done]. by destruct (ev_kind e =? 1), (is_reply e).
Qed.

Lemma part_other c X e : projection c ≠ X → part c X e = 0.
Proof. intros Hne. unfold part. by rewrite bool_decide_eq_false_2. Qed.

Lemma delta_range k b : 0 ≤ note_delta k b ≤ 1 ∧ 0 ≤ reply_delta k b ≤ 1.
Proof. unfold note_delta, reply_delta. destruct (_ && _), (_ && _); lia. Qed.

Lemma apply_profile_once id e s s' u :
  e = source id →
  applyIncrementalProfilePublicStatsTx noteMediaFlags id (ev_pubkey e) (ev_kind e) (ev_created e) (is_reply e) s = (s', Ok u) →
  applied_once statDeltaProfilePublicStats id (tables s) (tables s').
Proof.
  intros -> E. set (e := source id) in *. unfold applyIncrementalProfilePublicStatsTx in E.
  apply bind_ok in E as (s1 & b & E1 & E). apply claim_ok in E1 as [T1 ->].
  case_bool_decide as Hin; cbn [negb] in E.
  { go_inv. apply nothing_applied. rewrite T1. by apply ledger_self. }
  apply bind_ok in E as (s2 & ? & E2 & E). apply version_ok in E2.
  apply bind_ok in E as (s3 & media & E3 & E). apply media_delta_ok in E3. cbv zeta in E.
  apply bind_ok in E as (s4 & ? & E4 & E). go_inv. rewrite E3, E2, T1 in E4. clear E3 E2 T1.
  assert (quiet (tables s4) (tables s')) as Hz.
  { apply when_ok in E as [[_ E]|[_ ->]]; [by apply zaps_ok in E|apply quiet_same]. }
  destruct Hz as [He Hl Hz]. rewrite E4 in He, Hl. split; [done|]. right. split_and!; [done|done|].
  intros c Hc Hv. rewrite Hz, E4. destruct (delta_range (ev_kind e) (is_reply e)) as [R1 R2].
  destruct c as [p|p| | | | | | |]; try (rewrite part_other by done; simpl; lia).
  - rewrite note_part. simpl in *. rewrite col_insert. unfold col in Hv |- *. fold e. case_bool_decide; [subst p|lia].
    destruct (profile_public_stats (tables s) !! ev_pubkey e); simpl; unfold at_least0; lia.
  - rewrite reply_part. simpl in *. rewrite col_insert. unfold col in Hv |- *. fold e. case_bool_decide; [subst p|lia].
    destruct (profile_public_stats (tables s) !! ev_pubkey e); simpl; unfold at_least0; lia.
Qed.

Lemma quiet_alter g k t :
  (∀ r, note_count (g r) = note_count r ∧ reply_count (g r) = reply_count r) →
  quiet t (set_profiles (alter g k (profile_public_stats t)) t).
Proof.
  intros Hg. apply quiet_profiles. intros p. rewrite !col_alter. unfold col. case_bool_decide; [subst|done].
  destruct (profile_public_stats t !! k) as [r|]; [apply Hg|done].
Qed.

Lemma quiet_replaceable m t : quiet t (set_replaceable m t).
Proof. split; [done|done|]. by intros []. Qed.

Lemma delete_current_ok id ks s s' b : delete_current id ks s = (s', Ok b) → quiet (tables s) (tables s').
Proof.
  unfold delete_current. intros E. go_inv. destruct (replaceable_state (tables s) !! id) as [k|].
  - case_bool_decide; injection E as <- _; [apply quiet_replaceable|apply quiet_same].
  - injection E as <- _. apply quiet_same.
Qed.

Lemma current_ok (msg1 msg2 : string) id ks g pk s s' u :
  (∀ r, note_count (g r) = note_count r ∧ reply_count (g r) = reply_count r) →
  (gone <- go_wrap msg1 (delete_current id ks) ;;
   if negb gone then go_ret tt
   else resolveDerivationWriteVersion "profile_public_stats" ;;
        go_wrap msg2 (exec (λ t, set_profiles (alter g pk (profile_public_stats t)) t)))%go s = (s', Ok u) →
  quiet (tables s) (tables s').
Proof.
  intros Hg E. apply bind_ok in E as (s1 & b & E1 & E). go_inv. apply delete_current_ok in E1.
  destruct b; cbn [negb] in E; [|by go_inv]. apply bind_ok in E as (s2 & ? & E2 & E). apply version_ok in E2. go_inv.
  eapply quiet_trans; [exact E1|]. rewrite E, E2. by apply quiet_alter.
Qed.

Lemma current_reversals_ok id pk kind s s' u :
  (go_when (kind =? 30023) (reverseLongFormIfCurrentTx id pk) ;;
   go_when ((kind =? 34235) || (kind =? 34236)) (reverseAddressableMediaIfCurrentTx id pk))%go s = (s', Ok u) →
  quiet (tables s) (tables s').
Proof.
  intros E. apply bind_ok in E as (s1 & ? & E1 & E2). eapply quiet_trans.
  - apply when_ok in E1 as [[_ E1]|[_ ->]]; [|apply quiet_same]. by eapply current_ok, E1.
  - apply when_ok in E2 as [[_ E2]|[_ ->]]; [|apply quiet_same]. by eapply current_ok, E2.
Qed.

Lemma reversed_quiet X id t t1 t2 : reversed_once X id t t1 → quiet t1 t2 → reversed_once X id t t2.
Proof.
  intros [He Hc] [Qe Ql Qv]. split; [congruence|].
  destruct Hc as [(Hn & El & Hv)|(Hin & El & Hv)]; [left|right]; (split_and!; [done|congruence|]); intros c; rewrite Qv; auto.
Qed.

Lemma reverse_profile_once id e s s' u :
  e = source id →
  reverseIncrementalProfilePublicStatsTx noteMediaFlags id (ev_pubkey e) (ev_kind e) (ev_created e) (is_reply e) s = (s', Ok u) →
  reversed_once statDeltaProfilePublicStats id (tables s) (tables s').
Proof.
  intros -> E. set (e := source id) in *. unfold reverseIncrementalProfilePublicStatsTx in E.
  apply bind_ok in E as (s1 & b & E1 & E). apply unclaim_ok in E1 as [T1 ->].
  apply bind_ok in E as (s6 & ? & E6 & E). apply current_reversals_ok in E.
  eapply reversed_quiet; [|exact E]. clear E.
  case_bool_decide as Hin; cbn [negb] in E6.
  2:{ go_inv. apply nothing_reversed; [done|]. rewrite T1. by apply ledger_out. }
  apply bind_ok in E6 as (s2 & ? & E2 & E). apply version_ok in E2.
  apply bind_ok in E as (s3 & media & E3 & E). apply media_delta_ok in E3.
  apply bind_ok in E as (s4 & ? & E4 & E). apply bind_ok in E as (s5 & ? & E5 & E). go_inv. rewrite E3, E2, T1 in E4.
  assert (quiet (tables s4) (tables s6)) as Hz.
  { eapply quiet_trans; [|apply when_ok in E as [[_ E]|[_ ->]]; [by apply zaps_ok in E|apply quiet_same]].
    rewrite E5. apply quiet_alter. intros r. by case_bool_decide. }
  destruct Hz as [He Hl Hz]. rewrite E4 in He, Hl. split; [done|]. right. split_and!; [done|done|].
  intros c Hc. rewrite Hz, E4. destruct (delta_range (ev_kind e) (is_reply e)) as [R1 R2].
  destruct c as [p|p| | | | | | |]; try (rewrite part_other by done; simpl; lia).
  - rewrite note_part. simpl in *. rewrite col_alter. unfold col. fold e. case_bool_decide; [subst p|lia].
    destruct (profile_public_stats (tables s) !! ev_pubkey e); simpl; unfold at_least0; lia.
  - rewrite reply_part. simpl in *. rewrite col_alter. unfold col. fold e. case_bool_decide; [subst p|lia].
    destruct (profile_public_stats (tables s) !! ev_pubkey e); simpl; unfold at_least0; lia.
Qed.

(** *** Rows by day *)

(** What a change of a row contributes to a counter. *)
Definition day_part (date : Z) (c : counter) (d : string * Daily) : Z :=
  match c with
  | CDayPosts p k => if bool_decide ((p, k) = (d.1, date)) then d_post d.2 else 0
  | CDayNotes p k => if bool_decide ((p, k) = (d.1, date)) then d_note d.2 else 0
  | CDayReplies p k => if bool_decide ((p, k) = (d.1, date)) then d_reply d.2 else 0
  | _ => 0
  end.

(** A sequence of changes that never takes a counter below zero. *)
Fixpoint never_below {A} (f : A → Z) (v : Z) (l : list A) : Prop :=
  match l with
  | [] => True
  | x :: l => 0 ≤ v + f x ∧ never_below f (v + f x) l
  end.

Definition sum {A} (f : A → Z) (l : list A) : Z := foldr (λ x acc, f x + acc) 0 l.

(** A change of counters by the parts [f c]. *)
Record shifted {A} (f : counter → A → Z) (l : list A) (t t' : stat_tables) : Prop := {
  sh_events : events t' = events t;
  sh_ledger : applied_stat_deltas t' = applied_stat_deltas t;
  sh_value : ∀ c, author c ≠ "" → never_below (f c) (value t c) l → value t' c = value t c + sum (f c) l;
}.

Lemma each_shifted {A} (f : counter → A → Z) (m : A → go (db stat_tables) unit) l :
  (∀ x s s' u, m x s = (s', Ok u) → shifted f [x] (tables s) (tables s')) →
  ∀ s s' u, go_each m l s = (s', Ok u) → shifted f l (tables s) (tables s').
Proof.
  intros Hm. induction l as [|x l IH]; intros s s' u E; cbn [go_each] in E.
  - go_inv. split; [done|done|]. intros c _ _. simpl. lia.
  - apply bind_ok in E as (s1 & ? & E1 & E2). apply Hm in E1 as [A1 B1 C1]. apply IH in E2 as [A2 B2 C2].
    split; [congruence|congruence|]. intros c Hc Hn. cbn [never_below] in Hn. destruct Hn as [H0 Hn].
    assert (value (tables s1) c = value (tables s) c + f c x) as E1.
    { rewrite C1; [simpl; lia|done|]. simpl. done. }
    rewrite C2; [rewrite E1; cbn [sum foldr]; unfold sum; lia|done|by rewrite E1].
Qed.

Lemma day_upsert_value (f : Daily → Z) (old : option Daily) (d : Daily) (v : Z) :
  (∀ a b, f (daily_add a b) = at_least0 (f a + f b)) →
  v = match old with Some c => f c | None => 0 end → 0 ≤ v + f d →
  f (match old with Some c => daily_add c d | None => d end) = v + f d.
Proof. intros Hf -> Hn. destruct old; [rewrite Hf; unfold at_least0; lia|lia]. Qed.

Lemma daily_upsert_shifted date d s s' u :
  upsertAuthorActivityDailyDeltaTx date d s = (s', Ok u) → shifted (day_part date) [d] (tables s) (tables s').
Proof.
  unfold upsertAuthorActivityDailyDeltaTx. intros E. case_bool_decide as H1.
  { go_inv. split; [done|done|]. intros c Hc _. simpl.
    assert (day_part date c d = 0) as ->; [|lia].
    destruct c; try done; simpl in Hc |- *; (case_bool_decide as Hk; [injection Hk as -> ->; congruence|done]). }
  case_bool_decide as H2.
  { go_inv. split; [done|done|]. intros c Hc _. simpl. assert (day_part date c d = 0) as ->; [|lia].
    destruct d as [q d]. simpl in H2. subst d. destruct c; try done; simpl; by case_bool_decide. }
  go_inv. rewrite E. split; [done|done|]. intros c Hc Hn. cbn [never_below] in Hn. destruct Hn as [Hn _]. cbn [sum foldr].
  rewrite Z.add_0_r. destruct c as [p|p|p k|p k|p k|p k w h|p k w h|p k w h|p k w h]; simpl in *; try lia;
    rewrite col_insert; (case_bool_decide as Hk; [|lia]); rewrite Hk in Hn |- *; unfold col in *;
    by apply day_upsert_value.
Qed.

(** The part of a delta that is not about the author's own posts. *)
Definition day_blank (d : string * Daily) : Prop := d_post d.2 = 0 ∧ d_note d.2 = 0 ∧ d_reply d.2 = 0.

Definition day_own (pubkey : string) (isReply : bool) (given : Z) : string * Daily :=
  (pubkey, mkDaily 1 (if isReply then 0 else 1) (if isReply then 1 else 0) 0 given 0).

Lemma daily_compute_ok pubkey kind isReply target tags s s' ds :
  computeActivityDailyDeltas pubkey kind isReply target tags s = (s', Ok ds) →
  tables s' = tables s ∧
  if kind =? 1 then ∃ g rest, ds = day_own pubkey isReply g :: rest ∧ Forall day_blank rest else Forall day_blank ds.
Proof.
  unfold computeActivityDailyDeltas. destruct (kind =? 1).
  - cbv zeta. destruct (isReply && _).
    + intros E. apply bind_ok in E as (s1 & a & E1 & E). apply lookup_author_ok in E1 as [E1 _].
      destruct (other_author pubkey a) as [p|]; go_inv; (split; [done|]).
      * exists 1. eexists. split; [reflexivity|]. by repeat constructor.
      * exists 0. eexists. split; [reflexivity|]. constructor.
    + intros E. go_inv. split; [done|]. exists 0. eexists. split; [reflexivity|]. constructor.
  - destruct (_ || _).
    + cbv zeta. case_bool_decide; intros E; [go_inv; split; [done|constructor]|].
      apply bind_ok in E as (s1 & a & E1 & E). apply lookup_author_ok in E1 as [E1 _].
      destruct (other_author pubkey a) as [p|]; go_inv; (split; [done|]); by repeat constructor.
    + destruct (kind =? 9735).
      * cbv zeta. destruct (_ || _); intros E; go_inv; (split; [done|]); by repeat constructor.
      * intros E. go_inv. split; [done|constructor].
Qed.

(** The author's part of an event, by day. *)
Lemma own_part c e g : author c ≠ "" → ev_kind e = 1 →
  day_part (date_of (ev_created e)) c (day_own (ev_pubkey e) (is_reply e) g) = part c statDeltaAuthorActivityDaily e.
Proof.
  intros Hc Hk. unfold part. destruct c as [p|p|p k|p k|p k|p k w h|p k w h|p k w h|p k w h]; try done; cbn [day_part counts projection];
    rewrite Hk; cbn [Z.eqb Pos.eqb andb day_own fst snd]; unfold at_day;
    rewrite (bool_decide_ext ((p, k) = (ev_pubkey e, date_of (ev_created e))) ((ev_pubkey e, date_of (ev_created e)) = (p, k))) by (split; congruence);
    destruct (bool_decide ((ev_pubkey e, date_of (ev_created e)) = (p, k))), (is_reply e); reflexivity.
Qed.

Lemma other_part c e : ev_kind e ≠ 1 → part c statDeltaAuthorActivityDaily e = 0.
Proof.
  intros Hk. unfold part. destruct c as [p|p|p k|p k|p k|p k w h|p k w h|p k w h|p k w h]; try done; cbn [counts projection];
    rewrite (proj2 (Z.eqb_neq _ _) Hk), ?andb_false_r; reflexivity.
Qed.

(** A claim with the changes it gates, and its removal. *)
Lemma applied_by_list {A} X id (f : counter → A → Z) ds t t' :
  ((id, X) ∉ applied_stat_deltas t) → shifted f ds (set_ledger ({[(id, X)]} ∪ applied_stat_deltas t) t) t' →
  (∀ c v, author c ≠ "" → 0 ≤ v → never_below (f c) v ds ∧ sum (f c) ds = part c X (source id)) → applied_once X id t t'.
Proof.
  intros Hn [A1 B1 C1] Hf. split; [done|]. right. split_and!; [done|done|]. intros c Hc Hv.
  assert (value (set_ledger ({[(id, X)]} ∪ applied_stat_deltas t) t) c = value t c) as Ev by (by destruct c).
  destruct (Hf c (value t c) Hc Hv) as [F1 F2]. specialize (C1 c Hc). rewrite Ev in C1. rewrite C1 by done. lia.
Qed.

Lemma reversed_by_list {A} X id (f : counter → A → Z) ds t t' :
  (id, X) ∈ applied_stat_deltas t → shifted f ds (set_ledger (applied_stat_deltas t ∖ {[(id, X)]}) t) t' →
  (∀ c v, author c ≠ "" → part c X (source id) ≤ v → never_below (f c) v ds ∧ sum (f c) ds = - part c X (source id)) →
  reversed_once X id t t'.
Proof.
  intros Hn [A1 B1 C1] Hf. split; [done|]. right. split_and!; [done|done|]. intros c Hc Hv.
  assert (value (set_ledger (applied_stat_deltas t ∖ {[(id, X)]}) t) c = value t c) as Ev by (by destruct c).
  destruct (Hf c (value t c) Hc Hv) as [F1 F2]. specialize (C1 c Hc). rewrite Ev in C1. rewrite C1 by done. lia.
Qed.

(** One element of its own and blanks after it. *)
Lemma own_then_blank {A} (f : A → Z) x rest v :
  (∀ y, y ∈ rest → f y = 0) → 0 ≤ v + f x → never_below f v (x :: rest) ∧ sum f (x :: rest) = f x.
Proof.
  intros Hr Hv. cbn [never_below sum foldr]. assert (∀ w, 0 ≤ w → never_below f w rest ∧ sum f rest = 0) as Hb.
  { clear Hv. induction rest as [|y rest IH]; intros w Hw; [done|]. cbn [never_below sum foldr].
    rewrite (Hr y) by (by left). rewrite Z.add_0_r. destruct (IH ltac:(intros; apply Hr; by right) w Hw) as [I1 I2].
    split; [done|]. unfold sum in I2. lia. }
  destruct (Hb (v + f x) Hv) as [B1 B2]. split; [done|]. unfold sum in B2. lia.
Qed.

Lemma blanks_only {A} (f : A → Z) rest v : (∀ y, y ∈ rest → f y = 0) → 0 ≤ v → never_below f v rest ∧ sum f rest = 0.
Proof.
  intros Hr Hv. induction rest as [|y rest IH]; [done|].
  destruct (own_then_blank f y rest v) as [B1 B2]; [intros; apply Hr; by right|rewrite (Hr y) by (by left); lia|].
  split; [done|]. rewrite B2. apply Hr. by left.
Qed.

Lemma blank_day_part date c d : day_blank d → day_part date c d = 0 ∧ day_part date c (negateActivityDailyDelta d) = 0.
Proof.
  intros (B1 & B2 & B3). destruct d as [q d]. simpl in *. destruct c; simpl; try done; case_bool_decide; simpl; lia.
Qed.

Lemma negate_day_part date c d : day_part date c (negateActivityDailyDelta d) = - day_part date c d.
Proof. destruct c; simpl; try done; by case_bool_decide. Qed.

Lemma day_lists e target tags s s' ds :
  computeActivityDailyDeltas (ev_pubkey e) (ev_kind e) (is_reply e) target tags s = (s', Ok ds) →
  tables s' = tables s ∧ ∀ c v, author c ≠ "" →
  let f := day_part (date_of (ev_created e)) c in
  let g := λ d, f (negateActivityDailyDelta d) in
  let x := part c statDeltaAuthorActivityDaily e in
  (0 ≤ v → never_below f v ds ∧ sum f ds = x) ∧ (x ≤ v → never_below g v ds ∧ sum g ds = - x).
Proof.
  intros E. apply daily_compute_ok in E as [T Hds]. split; [done|]. intros c v Hc. cbv zeta.
  pose proof (part_range c statDeltaAuthorActivityDaily e) as Hp. destruct (Z.eqb_spec (ev_kind e) 1) as [Hk|Hk].
  - destruct Hds as (g & rest & -> & Hb). rewrite List.Forall_forall in Hb. pose proof (own_part c e g Hc Hk) as Ho. split; intros Hv.
    + rewrite <-Ho. apply own_then_blank; [|lia]. intros y Hy. apply blank_day_part, Hb. by apply list_elem_of_In.
    + rewrite <-Ho, <-negate_day_part.
      apply (own_then_blank (λ d, day_part (date_of (ev_created e)) c (negateActivityDailyDelta d))); [|rewrite negate_day_part; lia].
      intros y Hy. apply blank_day_part, Hb. by apply list_elem_of_In.
  - rewrite List.Forall_forall in Hds. rewrite other_part in * by done. split; intros Hv; apply blanks_only; try done; intros y Hy;
      apply blank_day_part, Hds; by apply list_elem_of_In.
Qed.

Lemma apply_daily_once id e target tags s s' u :
  e = source id →
  applyIncrementalAuthorActivityDailyTx id (ev_pubkey e) (ev_kind e) (ev_created e) (is_reply e) target tags s = (s', Ok u) →
  applied_once statDeltaAuthorActivityDaily id (tables s) (tables s').
Proof.
  intros -> E. unfold applyIncrementalAuthorActivityDailyTx in E.
  apply bind_ok in E as (s1 & ds & E1 & E). apply day_lists in E1 as [T1 Hds].
  case_bool_decide as Hn; [go_inv; by apply nothing_applied|].
  apply bind_ok in E as (s2 & b & E2 & E). apply claim_ok in E2 as [T2 ->]. rewrite T1 in *.
  case_bool_decide as Hin; cbn [negb] in E. { go_inv. apply nothing_applied. rewrite T2. by apply ledger_self. }
  apply bind_ok in E as (s3 & ? & E3 & E). apply version_ok in E3.
  apply (each_shifted (day_part (date_of (ev_created (source id))))) in E; [|intros; by eapply daily_upsert_shifted].
  rewrite E3, T2 in E. eapply applied_by_list; [done|exact E|]. intros c v Hc. apply Hds, Hc.
Qed.

Lemma reverse_daily_once id e target tags s s' u :
  e = source id →
  reverseIncrementalAuthorActivityDailyTx id (ev_pubkey e) (ev_kind e) (ev_created e) (is_reply e) target tags s = (s', Ok u) →
  reversed_once statDeltaAuthorActivityDaily id (tables s) (tables s').
Proof.
  intros -> E. unfold reverseIncrementalAuthorActivityDailyTx in E.
  apply bind_ok in E as (s1 & b & E1 & E). apply unclaim_ok in E1 as [T1 ->].
  case_bool_decide as Hin; cbn [negb] in E. 2:{ go_inv. apply nothing_reversed; [done|]. rewrite T1. by apply ledger_out. }
  apply bind_ok in E as (s2 & ds & E2 & E). apply day_lists in E2 as [T2 Hds]. rewrite T1 in T2.
  set (f := λ c d, day_part (date_of (ev_created (source id))) c (negateActivityDailyDelta d)).
  assert (shifted f ds (set_ledger (applied_stat_deltas (tables s) ∖ {[(id, statDeltaAuthorActivityDaily)]}) (tables s)) (tables s')) as Hsh.
  { case_bool_decide as Hn.
    - subst ds. go_inv. rewrite T2. split; [done|done|]. intros c _ _. simpl. lia.
    - apply bind_ok in E as (s3 & ? & E3 & E). apply version_ok in E3.
      apply (each_shifted f) in E; [by rewrite E3, T2 in E|]. intros d s0 s0' u0 E0. apply daily_upsert_shifted in E0 as [A0 B0 C0]. by split. }
  eapply reversed_by_list; [done|exact Hsh|]. intros c v Hc. apply Hds, Hc.
Qed.

(** *** Rows by hour *)

Definition hour_part (createdAt : Z) (c : counter) (d : string * Hourly) : Z :=
  let here p k w h := bool_decide ((p, k, w, h) = slot_of d.1 createdAt) in
  match c with
  | CHourEvents p k w h => if here p k w h then h_authored d.2 else 0
  | CHourPosts p k w h => if here p k w h then h_post d.2 else 0
  | CHourNotes p k w h => if here p k w h then h_note d.2 else 0
  | CHourReplies p k w h => if here p k w h then h_reply d.2 else 0
  | _ => 0
  end.

Lemma hour_upsert_value (f : Hourly → Z) (old : option Hourly) (d : Hourly) (v : Z) :
  (∀ a b, f (hourly_add a b) = at_least0 (f a + f b)) →
  v = match old with Some c => f c | None => 0 end → 0 ≤ v + f d →
  f (match old with Some c => hourly_add c d | None => d end) = v + f d.
Proof. intros Hf -> Hn. destruct old; [rewrite Hf; unfold at_least0; lia|lia]. Qed.

Lemma hourly_upsert_shifted createdAt d s s' u :
  upsertAuthorHourlyActivityDeltaTx createdAt d s = (s', Ok u) → shifted (hour_part createdAt) [d] (tables s) (tables s').
Proof.
  unfold upsertAuthorHourlyActivityDeltaTx. intros E. case_bool_decide as H1.
  { go_inv. split; [done|done|]. intros c Hc _. simpl. assert (hour_part createdAt c d = 0) as ->; [|lia].
    destruct c; try done; simpl in Hc |- *; (case_bool_decide as Hk; [injection Hk as -> _ _ _; congruence|done]). }
  go_inv. rewrite E. split; [done|done|]. intros c Hc Hn. cbn [never_below] in Hn. destruct Hn as [Hn _]. cbn [sum foldr].
  rewrite Z.add_0_r. destruct c as [p|p|p k|p k|p k|p k w h|p k w h|p k w h|p k w h]; simpl in *; try lia;
    rewrite col_insert; (case_bool_decide as Hk; [|lia]); rewrite Hk in Hn |- *; unfold col in *;
    by apply hour_upsert_value.
Qed.

Definition hour_blank (d : string * Hourly) : Prop := h_post d.2 = 0 ∧ h_note d.2 = 0 ∧ h_reply d.2 = 0 ∧ h_authored d.2 = 0.

Definition hour_own (pubkey : string) (kind : Z) (isReply : bool) : string * Hourly :=
  (pubkey, if kind =? 1 then author_tick 1 (if isReply then 0 else 1) (if isReply then 1 else 0) else author_tick 0 0 0).

Lemma hourly_compute_ok pubkey kind isReply target tags s s' ds :
  computeHourlyActivityDeltas pubkey kind isReply target tags s = (s', Ok ds) →
  tables s' = tables s ∧ ∃ rest, ds = hour_own pubkey kind isReply :: rest ∧ Forall hour_blank rest.
Proof.
  unfold computeHourlyActivityDeltas, hour_own. cbv zeta. destruct (kind =? 1).
  - destruct (isReply && _).
    + intros E. apply bind_ok in E as (s1 & a & E1 & E). apply lookup_author_ok in E1 as [E1 _].
      destruct (other_author pubkey a) as [p|]; go_inv; (split; [done|]); eexists; (split; [reflexivity|]); by repeat constructor.
    + intros E. go_inv. split; [done|]. eexists. split; [reflexivity|]. constructor.
  - destruct (_ || _).
    + case_bool_decide; intros E; [go_inv; split; [done|]; eexists; split; [reflexivity|constructor]|].
      apply bind_ok in E as (s1 & a & E1 & E). apply lookup_author_ok in E1 as [E1 _].
      destruct (other_author pubkey a) as [p|]; go_inv; (split; [done|]); eexists; (split; [reflexivity|]); repeat constructor;
        by destruct (kind =? 7).
    + destruct (kind =? 9735).
      * destruct (_ || _); intros E; go_inv; (split; [done|]); eexists; (split; [reflexivity|]); by repeat constructor.
      * intros E. go_inv. split; [done|]. eexists. split; [reflexivity|constructor].
Qed.

Lemma own_hour_part c e :
  hour_part (ev_created e) c (hour_own (ev_pubkey e) (ev_kind e) (is_reply e)) = part c statDeltaAuthorHourlyActivity e.
Proof.
  unfold part. destruct c as [p|p|p k|p k|p k|p k w h|p k w h|p k w h|p k w h]; try done; cbn [hour_part counts projection];
    unfold hour_own, at_slot; cbn [fst snd];
    rewrite (bool_decide_ext ((p, k, w, h) = slot_of (ev_pubkey e) (ev_created e)) (slot_of (ev_pubkey e) (ev_created e) = (p, k, w, h)))
      by (split; congruence);
    destruct (bool_decide (slot_of (ev_pubkey e) (ev_created e) = (p, k, w, h))), (ev_kind e =? 1), (is_reply e); reflexivity.
Qed.

Lemma negate_hour_part createdAt c d : hour_part createdAt c (negateHourlyActivityDelta d) = - hour_part createdAt c d.
Proof. destruct c; simpl; try done; by case_bool_decide. Qed.

Lemma blank_hour_part createdAt c d : hour_blank d → hour_part createdAt c d = 0.
Proof. intros (B1 & B2 & B3 & B4). destruct d as [q d]. simpl in *. destruct c; simpl; try done; by case_bool_decide. Qed.

Lemma hour_lists e target tags s s' ds :
  computeHourlyActivityDeltas (ev_pubkey e) (ev_kind e) (is_reply e) target tags s = (s', Ok ds) →
  tables s' = tables s ∧ ds ≠ [] ∧ ∀ c v,
  let f := hour_part (ev_created e) c in
  let g := λ d, f (negateHourlyActivityDelta d) in
  let x := part c statDeltaAuthorHourlyActivity e in
  (0 ≤ v → never_below f v ds ∧ sum f ds = x) ∧ (x ≤ v → never_below g v ds ∧ sum g ds = - x).
Proof.
  intros E. apply hourly_compute_ok in E as (T & rest & -> & Hb). split_and!; [done|done|]. intros c v. cbv zeta.
  pose proof (part_range c statDeltaAuthorHourlyActivity e) as Hp. pose proof (own_hour_part c e) as Ho.
  rewrite List.Forall_forall in Hb. split; intros Hv.
  - rewrite <-Ho. apply own_then_blank; [|lia]. intros y Hy. apply blank_hour_part, Hb. by apply list_elem_of_In.
  - rewrite <-Ho, <-negate_hour_part.
    apply (own_then_blank (λ d, hour_part (ev_created e) c (negateHourlyActivityDelta d))); [|rewrite negate_hour_part; lia].
    intros y Hy. rewrite negate_hour_part, blank_hour_part; [done|]. apply Hb. by apply list_elem_of_In.
Qed.

Lemma apply_hourly_once id e target tags s s' u :
  e = source id →
  applyIncrementalAuthorHourlyActivityTx id (ev_pubkey e) (ev_kind e) (ev_created e) (is_reply e) target tags s = (s', Ok u) →
  applied_once statDeltaAuthorHourlyActivity id (tables s) (tables s').
Proof.
  intros -> E. unfold applyIncrementalAuthorHourlyActivityTx in E.
  apply bind_ok in E as (s1 & ds & E1 & E). apply hour_lists in E1 as (T1 & Hne & Hds).
  rewrite bool_decide_eq_false_2 in E by done.
  apply bind_ok in E as (s2 & b & E2 & E). apply claim_ok in E2 as [T2 ->]. rewrite T1 in *.
  case_bool_decide as Hin; cbn [negb] in E. { go_inv. apply nothing_applied. rewrite T2. by apply ledger_self. }
  apply (each_shifted (hour_part (ev_created (source id)))) in E; [|intros; by eapply hourly_upsert_shifted].
  rewrite T2 in E. eapply applied_by_list; [done|exact E|]. intros c v Hc. apply Hds.
Qed.

Lemma reverse_hourly_once id e target tags s s' u :
  e = source id →
  reverseIncrementalAuthorHourlyActivityTx id (ev_pubkey e) (ev_kind e) (ev_created e) (is_reply e) target tags s = (s', Ok u) →
  reversed_once statDeltaAuthorHourlyActivity id (tables s) (tables s').
Proof.
  intros -> E. unfold reverseIncrementalAuthorHourlyActivityTx in E.
  apply bind_ok in E as (s1 & b & E1 & E). apply unclaim_ok in E1 as [T1 ->].
  case_bool_decide as Hin; cbn [negb] in E. 2:{ go_inv. apply nothing_reversed; [done|]. rewrite T1. by apply ledger_out. }
  apply bind_ok in E as (s2 & ds & E2 & E). apply hour_lists in E2 as (T2 & _ & Hds). rewrite T1 in T2.
  set (f := λ c d, hour_part (ev_created (source id)) c (negateHourlyActivityDelta d)).
  apply (each_shifted f) in E; [|intros d s0 s0' u0 E0; apply hourly_upsert_shifted in E0 as [A0 B0 C0]; by split].
  rewrite T2 in E. eapply reversed_by_list; [done|exact E|]. intros c v Hc. apply Hds.
Qed.

(** *** Hashtags and media: gated, but not among the counters *)

Lemma each_quiet {A} (m : A → go (db stat_tables) unit) l :
  (∀ x s s' u, m x s = (s', Ok u) → quiet (tables s) (tables s')) →
  ∀ s s' u, go_each m l s = (s', Ok u) → quiet (tables s) (tables s').
Proof.
  intros Hm. induction l as [|x l IH]; intros s s' u E; cbn [go_each] in E; [go_inv; apply quiet_same|].
  apply bind_ok in E as (s1 & ? & E1 & E2). eapply quiet_trans; [by eapply Hm|by eapply IH].
Qed.

Lemma applied_quiet X id t t' :
  (∀ c, projection c ≠ X) → ((id, X) ∉ applied_stat_deltas t) → quiet (set_ledger ({[(id, X)]} ∪ applied_stat_deltas t) t) t' →
  applied_once X id t t'.
Proof.
  intros HX Hn [A B C]. split; [done|]. right. split_and!; [done|done|]. intros c _ _. rewrite C, part_other by done.
  destruct c; simpl; lia.
Qed.

Lemma reversed_silent X id t t' :
  (∀ c, projection c ≠ X) → (id, X) ∈ applied_stat_deltas t → quiet (set_ledger (applied_stat_deltas t ∖ {[(id, X)]}) t) t' →
  reversed_once X id t t'.
Proof.
  intros HX Hn [A B C]. split; [done|]. right. split_and!; [done|done|]. intros c _ _. rewrite C, part_other by done.
  destruct c; simpl; lia.
Qed.

Lemma not_hashtag c : projection c ≠ statDeltaAuthorHashtagDaily.
Proof. by destruct c. Qed.

Lemma not_media c : projection c ≠ statDeltaAuthorMediaDaily.
Proof. by destruct c. Qed.

Lemma quiet_hashtags m t : quiet t (set_hashtags m t).
Proof. split; [done|done|]. by intros []. Qed.

Lemma quiet_media m t : quiet t (set_media m t).
Proof. split; [done|done|]. by intros []. Qed.

Lemma apply_hashtag_once id pk kind created s s' u :
  applyIncrementalAuthorHashtagDailyTx id pk kind created s = (s', Ok u) →
  applied_once statDeltaAuthorHashtagDaily id (tables s) (tables s').
Proof.
  unfold applyIncrementalAuthorHashtagDailyTx, loadEventHashtagsTx. intros E. destruct (negb _); [go_inv; by apply nothing_applied|].
  apply bind_ok in E as (s1 & hs & E1 & E). go_inv. case_bool_decide; [go_inv; by apply nothing_applied|].
  apply bind_ok in E as (s2 & b & E2 & E). apply claim_ok in E2 as [T2 ->]. rewrite H0 in *.
  case_bool_decide as Hin; cbn [negb] in E. { go_inv. apply nothing_applied. rewrite T2. by apply ledger_self. }
  apply each_quiet in E; [|intros h s0 s0' u0 E0; go_inv; rewrite E0; apply quiet_hashtags].
  rewrite T2 in E. eapply applied_quiet; [apply not_hashtag|done|exact E].
Qed.

(** Only posts have claims for hashtags and media. *)
Lemma reverse_hashtag_once id pk kind created s s' u :
  (kind ≠ 1 → (id, statDeltaAuthorHashtagDaily) ∉ applied_stat_deltas (tables s)) →
  reverseIncrementalAuthorHashtagDailyTx id pk kind created s = (s', Ok u) →
  reversed_once statDeltaAuthorHashtagDaily id (tables s) (tables s').
Proof.
  unfold reverseIncrementalAuthorHashtagDailyTx, loadEventHashtagsTx. intros Hk E.
  destruct (Z.eqb_spec kind 1) as [Hk1|Hk1]; cbn [negb] in E; [|go_inv; by apply nothing_reversed; auto].
  apply bind_ok in E as (s1 & b & E1 & E). apply unclaim_ok in E1 as [T1 ->].
  case_bool_decide as Hin; cbn [negb] in E. 2:{ go_inv. apply nothing_reversed; [done|]. rewrite T1. by apply ledger_out. }
  apply bind_ok in E as (s2 & hs & E2 & E). go_inv.
  apply each_quiet in E; [|intros h s0 s0' u0 E0; go_inv; rewrite E0; apply quiet_hashtags].
  rewrite H0, T1 in E. eapply reversed_silent; [apply not_hashtag|done|exact E].
Qed.

Lemma apply_media_once id pk kind created s s' u :
  applyIncrementalAuthorMediaDailyTx id pk kind created s = (s', Ok u) →
  applied_once statDeltaAuthorMediaDaily id (tables s) (tables s').
Proof.
  unfold applyIncrementalAuthorMediaDailyTx, loadNoteDiscoveryMediaFlagsTx. intros E. destruct (negb _); [go_inv; by apply nothing_applied|].
  apply bind_ok in E as (s1 & f & E1 & E). go_inv. destruct f as [f|]; [|go_inv; by apply nothing_applied].
  apply bind_ok in E as (s2 & b & E2 & E). apply claim_ok in E2 as [T2 ->]. rewrite H0 in *.
  case_bool_decide as Hin; cbn [negb] in E. { go_inv. apply nothing_applied. rewrite T2. by apply ledger_self. }
  go_inv. eapply applied_quiet; [apply not_media|done|]. rewrite E, T2. apply quiet_media.
Qed.

Lemma reverse_media_once id pk kind created s s' u :
  (kind ≠ 1 → (id, statDeltaAuthorMediaDaily) ∉ applied_stat_deltas (tables s)) →
  reverseIncrementalAuthorMediaDailyTx id pk kind created s = (s', Ok u) →
  reversed_once statDeltaAuthorMediaDaily id (tables s) (tables s').
Proof.
  unfold reverseIncrementalAuthorMediaDailyTx, loadNoteDiscoveryMediaFlagsTx. intros Hk E.
  destruct (Z.eqb_spec kind 1) as [Hk1|Hk1]; cbn [negb] in E; [|go_inv; by apply nothing_reversed; auto].
  apply bind_ok in E as (s1 & b & E1 & E). apply unclaim_ok in E1 as [T1 ->].
  case_bool_decide as Hin; cbn [negb] in E. 2:{ go_inv. apply nothing_reversed; [done|]. rewrite T1. by apply ledger_out. }
  apply bind_ok in E as (s2 & f & E2 & E). go_inv. eapply reversed_silent; [apply not_media|done|].
  destruct f as [f|]; go_inv; [rewrite E, H0, T1; apply quiet_media|rewrite H0, T1; apply quiet_same].
Qed.

(** ** Whole operations *)

Lemma quiet_ok t t' : quiet t t' → stats_ok t → stats_ok t'.
Proof.
  intros [He Hl Hv] [S L K C]. split; rewrite ?He, ?Hl; try done. intros c Hc. rewrite Hv. by apply C.
Qed.

Lemma touch_quiet targets : ∀ seen created s s' u,
  touch_targets seen created targets s = (s', Ok u) → quiet (tables s) (tables s').
Proof.
  induction targets as [|p targets IH]; intros seen created s s' u E; cbn [touch_targets] in E; [go_inv; apply quiet_same|].
  cbv zeta in E. destruct (_ || _); [by eapply IH|]. apply bind_ok in E as (s1 & ? & E1 & E2). go_inv.
  eapply quiet_trans; [|by eapply IH]. rewrite E1. split; [done|done|]. by intros [].
Qed.

Lemma recency_quiet pk kind created isReply target tags s s' u :
  applyIncrementalProfileDiscoveryRecentActivityTx pk kind created isReply target tags s = (s', Ok u) → quiet (tables s) (tables s').
Proof.
  unfold applyIncrementalProfileDiscoveryRecentActivityTx, recency_targets. cbv zeta. intros E.
  apply bind_ok in E as (s1 & ts & E1 & E2). apply touch_quiet in E2.
  assert (tables s1 = tables s) as <-; [|done]. clear E2.
  assert (∀ id, (target <- lookupEventPubkeyTx id ;;
     match target with Some p => if bool_decide (p = "") then go_ret [pk] else go_ret [pk; p] | None => go_ret [pk] end)%go s = (s1, Ok ts) →
     tables s1 = tables s) as Hof.
  { intros id E. apply bind_ok in E as (s2 & a & E2 & E). apply lookup_author_ok in E2 as [E2 _].
    destruct a as [p|]; [case_bool_decide|]; go_inv; done. }
  destruct (kind =? 1); [destruct (isReply && _); [by eapply Hof|by go_inv]|].
  destruct (_ || _); [case_bool_decide; [by go_inv|by eapply Hof]|]. destruct (kind =? 9735); by go_inv.
Qed.

Lemma not_post_hashtag id pk kind created s s' u :
  kind ≠ 1 → applyIncrementalAuthorHashtagDailyTx id pk kind created s = (s', Ok u) → s' = s.
Proof. intros Hk. unfold applyIncrementalAuthorHashtagDailyTx. rewrite (proj2 (Z.eqb_neq _ _) Hk). simpl. by intros [= <- _]. Qed.

Lemma not_post_media id pk kind created s s' u :
  kind ≠ 1 → applyIncrementalAuthorMediaDailyTx id pk kind created s = (s', Ok u) → s' = s.
Proof. intros Hk. unfold applyIncrementalAuthorMediaDailyTx. rewrite (proj2 (Z.eqb_neq _ _) Hk). simpl. by intros [= <- _]. Qed.

(** An invariant together with the presence of the event. *)
Definition with_event (id : string) (t : stat_tables) : Prop := stats_ok t ∧ is_Some (events t !! id).

Lemma with_event_applied X id t t' :
  (X ∈ [statDeltaAuthorHashtagDaily; statDeltaAuthorMediaDaily] → ev_kind (source id) = 1) →
  applied_once X id t t' → with_event id t → with_event id t'.
Proof.
  intros HX Ha [Hok Hid]. split; [by eapply applied_once_ok|]. by rewrite (ao_events _ _ _ _ Ha).
Qed.

Lemma with_event_quiet id t t' : quiet t t' → with_event id t → with_event id t'.
Proof. intros Hq [Hok Hid]. split; [by eapply quiet_ok|]. by rewrite (qu_events _ _ Hq). Qed.

Lemma apply_all_ok h id tags s s' u :
  tags = tags_of (source id) → with_event id (tables s) →
  apply_all noteMediaFlags h id (source id) tags s = (s', Ok u) → with_event id (tables s').
Proof.
  intros -> Hok E. unfold apply_all in E. set (e := source id) in *.
  assert (replyTargetFromTags (tags_of e) = (is_reply e, (replyTargetFromTags (tags_of e)).2)) as Er
    by (unfold is_reply; by destruct (replyTargetFromTags (tags_of e))).
  rewrite Er in E. cbv zeta in E. set (target := (replyTargetFromTags (tags_of e)).2) in *.
  apply bind_ok in E as (s1 & ? & E1 & E). apply bind_ok in E as (s2 & ? & E2 & E3).
  assert (with_event id (tables s1)) as Hok1.
  { apply when_ok in E1 as [[_ E1]|[_ ->]]; [|done]. apply (apply_profile_once id e _ _ _ eq_refl) in E1.
    eapply with_event_applied; [|exact E1|done]. intros Hx. apply list_elem_of_In in Hx. by destruct Hx as [Hx|[Hx|[]]]. }
  assert (with_event id (tables s2)) as Hok2.
  { apply when_ok in E2 as [[_ E2]|[_ ->]]; [|done].
    apply bind_ok in E2 as (s3 & ? & E2 & E). apply bind_ok in E as (s4 & ? & E4 & E). apply bind_ok in E as (s5 & ? & E5 & E6).
    apply (apply_daily_once id e _ _ _ _ _ eq_refl) in E2.
    assert (with_event id (tables s3)) as H3.
    { eapply with_event_applied; [|exact E2|done]. intros Hx. apply list_elem_of_In in Hx. by destruct Hx as [Hx|[Hx|[]]]. }
    assert (with_event id (tables s5)) as H5.
    { destruct (decide (ev_kind e = 1)) as [Hk|Hk].
      - apply apply_hashtag_once in E4. apply apply_media_once in E5.
        eapply with_event_applied; [|exact E5|]; [done|]. eapply with_event_applied; [|exact E4|done]. done.
      - apply not_post_hashtag in E4 as ->; [|done]. by apply not_post_media in E5 as ->. }
    apply (apply_hourly_once id e _ _ _ _ _ eq_refl) in E6. eapply with_event_applied; [|exact E6|done].
    intros Hx. apply list_elem_of_In in Hx. by destruct Hx as [Hx|[Hx|[]]]. }
  apply when_ok in E3 as [[_ E3]|[_ ->]]; [|done]. apply recency_quiet in E3. by eapply with_event_quiet.
Qed.

Lemma apply_ok h id s : stats_ok (tables s) → stats_ok (tables (ApplyIncrementalAuthorStats noteMediaFlags h id s).1).
Proof.
  intros Hok. unfold ApplyIncrementalAuthorStats. destruct (_ && _ && _); [done|]. cbv zeta.
  case_bool_decide as Hne; [done|]. set (id' := trim_space id) in *.
  unfold go_bind at 1, go_wrap at 1. pose proof (stmt_cases (λ t, Ok (t, events t !! id')) s) as Hq. fold (query (λ t : stat_tables, events t !! id')) in Hq.
  destruct (query (λ t : stat_tables, events t !! id') s) as [s1 [e|err]] eqn:E1; cbn [wrap_err fst] in *.
  2:{ destruct Hq as [->|(a & [= <- _])]; done. }
  go_inv. rewrite <-H0 in Hok. destruct e as [e|]; [|done].
  assert (events (tables s1) !! id' = Some e) as He by congruence.
  destruct (so_source _ Hok id' e He) as [-> _].
  unfold go_bind at 1. destruct (loadEventTags id' s1) as [s2 [tags|err]] eqn:E2.
  - unfold loadEventTags in E2. apply bind_ok in E2 as (s3 & raw & E3 & E2). go_inv. rewrite He in E3. injection E3 as E3 <-.
    destruct (decode_event_tags (ev_raw (source id'))) as [tg|] eqn:Ed; go_inv.
    destruct (tx_cases "begin incremental stats tx" "commit incremental stats tx" (apply_all noteMediaFlags h id' (source id') tags) s2)
      as [[-> _]|(s4 & [] & T4 & R4 & _ & ->)]; [by rewrite <-E3|].
    destruct (apply_all noteMediaFlags h id' (source id') tags s4) as [s5 r5] eqn:E5. simpl in R4 |- *. subst r5.
    apply apply_all_ok in E5 as [Hok' _]; [done|by unfold tags_of; rewrite Ed|]. rewrite T4, <-E3. split; [done|]. by exists (source id').
  - change (stats_ok (tables s2)). assert (tables s2 = tables s1) as ->; [|done]. unfold loadEventTags, go_bind, go_wrap in E2.
    destruct (stmt_cases (λ t, match events t !! id' with Some e => Ok (t, ev_raw e) | None => Err "no rows in result set" end) s1) as [Hc|(a & Hc)];
      destruct (stmt _ s1) as [s3 [raw|er]]; cbn [wrap_err fst] in *.
    + destruct (decode_event_tags raw); injection E2 as <- _; done.
    + injection E2 as <- _. done.
    + rewrite He in Hc. injection Hc as Hc _. destruct (decode_event_tags raw); injection E2 as <- _; done.
    + rewrite He in Hc. injection Hc as Hc _. injection E2 as <- _. done.
Qed.

(** What reversals keep, and what they have taken out of the ledger. *)
Record taken_out (id : string) (Xs : list string) (t t' : stat_tables) : Prop := {
  to_ok : stats_ok t';
  to_events : events t' = events t;
  to_ledger : applied_stat_deltas t' ⊆ applied_stat_deltas t;
  to_gone : ∀ X, X ∈ Xs → (id, X) ∉ applied_stat_deltas t';
}.

Lemma taken_out_nil id t : stats_ok t → taken_out id [] t t.
Proof. intros Hok. split; try done. by intros X ?%not_elem_of_nil. Qed.

Lemma taken_out_step id X Xs t t1 t2 : taken_out id Xs t t1 → reversed_once X id t1 t2 → taken_out id (X :: Xs) t t2.
Proof.
  intros [O1 E1 L1 G1] Hr. pose proof (ro_events _ _ _ _ Hr) as He.
  destruct (reversed_once_ok X id t1 t2 Hr O1) as (O2 & Hn & L2). split; [done|congruence|set_solver|].
  intros Y HY. apply elem_of_cons in HY as [->|HY]; [done|]. specialize (G1 Y HY). set_solver.
Qed.

Lemma reverse_ok id s s' u :
  ReverseIncrementalAuthorStatsTx noteMediaFlags id s = (s', Ok u) → stats_ok (tables s) →
  taken_out id (if bool_decide (id = trim_space id) then ledgered else []) (tables s) (tables s').
Proof.
  intros E Hok. unfold ReverseIncrementalAuthorStatsTx in E. cbv zeta in E. set (id' := trim_space id) in *.
  case_bool_decide as Hne.
  { go_inv. case_bool_decide as Hid; [|by apply taken_out_nil]. split; try done. intros X HX Hin.
    destruct (so_live _ Hok id X HX Hin) as [e He]. destruct (so_source _ Hok id e He) as (_ & _ & ?). congruence. }
  apply bind_ok in E as (s1 & e & E1 & E). go_inv. destruct e as [e|].
  2:{ go_inv. rewrite H0. case_bool_decide as Hid; [|by apply taken_out_nil]. split; try done. intros X HX Hin.
      destruct (so_live _ Hok id X HX Hin) as [e He]. rewrite <-Hid in H1. congruence. }
  rewrite <-H0 in H1, Hok |- *. clear H0 s. destruct (so_source _ Hok id' e (eq_sym H1)) as (-> & _).
  apply bind_ok in E as (s2 & tags & E2 & E). set (e := source id') in *.
  assert (tables s2 = tables s1 ∧ tags = tags_of e) as [T2 ->].
  { unfold loadEventTagsTx in E2. apply bind_ok in E2 as (s3 & raw & E3 & E2).
    apply wrap_ok, query_ok in E3 as [T3 ->]. rewrite <-H1 in E2. simpl in E2.
    unfold tags_of. destruct (decode_event_tags (ev_raw e)) as [tg|]; [|done]. injection E2 as <- <-. done. }
  assert (replyTargetFromTags (tags_of e) = (is_reply e, (replyTargetFromTags (tags_of e)).2)) as Er
    by (unfold is_reply; by destruct (replyTargetFromTags (tags_of e))).
  rewrite Er in E. cbv zeta in E. set (target := (replyTargetFromTags (tags_of e)).2) in *.
  apply bind_ok in E as (s3 & ? & E3 & E). apply bind_ok in E as (s4 & ? & E4 & E). apply bind_ok in E as (s5 & ? & E5 & E).
  apply bind_ok in E as (s6 & ? & E6 & E7).
  apply (reverse_profile_once id' e _ _ _ eq_refl) in E3. apply (reverse_daily_once id' e _ _ _ _ _ eq_refl) in E4.
  apply (reverse_hourly_once id' e _ _ _ _ _ eq_refl) in E7. rewrite T2 in E3.
  pose proof (taken_out_step _ _ _ _ _ _ (taken_out_step _ _ _ _ _ _ (taken_out_nil id' _ Hok) E3) E4) as T4.
  apply reverse_hashtag_once in E5; [|intros Hk Hin; apply Hk; eapply (so_kind _ (to_ok _ _ _ _ T4)); [|exact Hin]; set_solver].
  pose proof (taken_out_step _ _ _ _ _ _ T4 E5) as T5.
  apply reverse_media_once in E6; [|intros Hk Hin; apply Hk; eapply (so_kind _ (to_ok _ _ _ _ T5)); [|exact Hin]; set_solver].
  pose proof (taken_out_step _ _ _ _ _ _ (taken_out_step _ _ _ _ _ _ T5 E6) E7) as [O7 V7 L7 G7].
  split; [done|done|done|]. intros X HX. case_bool_decide as Hid; [|by apply not_elem_of_nil in HX]. rewrite Hid. apply G7.
  unfold ledgered in HX. set_solver.
Qed.

Lemma reverse_each_ok ids : ∀ s s' u,
  go_each (λ id, go_wrap ("reverse incremental stats for " +:+ id) (ReverseIncrementalAuthorStatsTx noteMediaFlags id)) ids s = (s', Ok u) →
  stats_ok (tables s) →
  stats_ok (tables s') ∧ events (tables s') = events (tables s) ∧ applied_stat_deltas (tables s') ⊆ applied_stat_deltas (tables s) ∧
  (∀ id X, id ∈ ids → id = trim_space id → X ∈ ledgered → (id, X) ∉ applied_stat_deltas (tables s')).
Proof.
  induction ids as [|id ids IH]; intros s s' u E Hok; cbn [go_each] in E.
  { go_inv. split_and!; try done. by intros id X ?%not_elem_of_nil. }
  apply bind_ok in E as (s1 & ? & E1 & E2). apply wrap_ok in E1. destruct (reverse_ok id s s1 _ E1 Hok) as [O1 V1 L1 G1].
  destruct (IH s1 s' u E2 O1) as (O2 & V2 & L2 & G2). split_and!; [done|congruence|set_solver|].
  intros id' X Hin Hid HX. apply elem_of_cons in Hin as [->|Hin]; [|by apply G2].
  rewrite bool_decide_eq_true_2 in G1 by done. specialize (G1 X HX). set_solver.
Qed.

Lemma delete_events_ok ids t :
  stats_ok t → (∀ id X, id ∈ ids → id = trim_space id → X ∈ ledgered → (id, X) ∉ applied_stat_deltas t) → stats_ok (delete_events ids t).
Proof.
  intros [S L K C] Hg. split.
  - intros id e He. apply map_lookup_filter_Some in He as [He _]. by apply S.
  - intros id X HX Hin. destruct (L id X HX Hin) as [e He]. exists e. apply map_lookup_filter_Some. split; [done|]. simpl.
    intros Hd. destruct (S id e He) as (_ & Ht & _). by apply (Hg id X Hd (eq_sym Ht) HX).
  - done.
  - intros c Hc. transitivity (value t c); [by destruct c|by apply C].
Qed.

Lemma refresh_joined_quiet pks s s' u : RefreshProfileTimeJoinedTx pks s = (s', Ok u) → quiet (tables s) (tables s').
Proof.
  unfold RefreshProfileTimeJoinedTx. intros E. case_bool_decide; [go_inv; apply quiet_same|].
  apply bind_ok in E as (s1 & ? & E1 & E). apply version_ok in E1. go_inv. rewrite E, E1. apply quiet_profiles. intros p.
  unfold col. rewrite map_lookup_imap. destruct (profile_public_stats (tables s) !! p) as [r|]; [|done]. simpl. by case_bool_decide.
Qed.

Lemma purge_ok ids s : stats_ok (tables s) → stats_ok (tables (purge noteMediaFlags ids s).1).
Proof.
  intros Hok. unfold purge. destruct (tx_cases "begin retention tx" "commit retention tx"
    (go_wrap "set retention statement_timeout" (query (λ _, tt)) ;; go_wrap "set retention lock_timeout" (query (λ _, tt)) ;;
     reverseAndDeleteTx noteMediaFlags ids)%go s) as [[-> _]|(s1 & n & T1 & R1 & _ & ->)]; [done|].
  destruct (go_bind _ _ s1) as [s' r] eqn:E. simpl in R1 |- *. subst r. rewrite <-T1 in Hok.
  apply bind_ok in E as (s2 & ? & E2 & E). apply bind_ok in E as (s3 & ? & E3 & E).
  apply wrap_ok, query_ok in E2 as [T2 _]. apply wrap_ok, query_ok in E3 as [T3 _]. rewrite <-T2, <-T3 in Hok.
  unfold reverseAndDeleteTx in E. case_bool_decide; [by go_inv|].
  apply bind_ok in E as (s4 & pks & E4 & E). apply bind_ok in E as (s5 & ? & E5 & E). apply bind_ok in E as (s6 & ? & E6 & E).
  apply bind_ok in E as (s7 & ? & E & E7). injection E7 as <- _.
  apply wrap_ok, query_ok in E4 as [T4 _]. apply wrap_ok, stmt_ok in E6. injection E6 as E6 _. symmetry in E6.
  apply refresh_joined_quiet in E. eapply quiet_ok; [exact E|]. rewrite E6.
  apply reverse_each_ok in E5 as (O5 & _ & _ & G5); [|by rewrite T4]. by apply delete_events_ok.
Qed.

(** * Runs *)

Inductive stat_op :=
| OpInsert (id : string)
| OpApply (h : flags) (id : string)
| OpPurge (ids : list string)
| OpFacts (hashtags : gmap string (list string)) (media : gmap string MediaFlags) (zaps : gmap string ZapRow) (current : gmap string Z).

(** A canonical insert, and the other projections. *)
Definition insert_event (id : string) (t : stat_tables) : stat_tables :=
  if bool_decide (trim_space id = id) && negb (bool_decide (id = "")) then
    mkStats (<[id := source id]> (events t)) (applied_stat_deltas t) (profile_public_stats t) (author_activity_daily t)
      (author_hashtag_daily t) (author_media_daily t) (author_hourly_activity t) (recent_activity t) (event_hashtags t)
      (note_discovery_stats t) (zap_receipts t) (replaceable_state t)
  else t.

Definition with_facts hashtags media zaps current (t : stat_tables) : stat_tables :=
  mkStats (events t) (applied_stat_deltas t) (profile_public_stats t) (author_activity_daily t) (author_hashtag_daily t)
    (author_media_daily t) (author_hourly_activity t) (recent_activity t) hashtags media zaps current.

Definition stat_step (s : db stat_tables) (o : stat_op) : db stat_tables :=
  match o with
  | OpInsert id => (exec (insert_event id) s).1
  | OpApply h id => (ApplyIncrementalAuthorStats noteMediaFlags h id s).1
  | OpPurge ids => (purge noteMediaFlags ids s).1
  | OpFacts a b c d => (exec (with_facts a b c d) s).1
  end.

Definition stat_run (ops : list stat_op) (s : db stat_tables) : db stat_tables := foldl stat_step s ops.

Definition no_stats : stat_tables := mkStats ∅ ∅ ∅ ∅ ∅ ∅ ∅ ∅ ∅ ∅ ∅ ∅.

Lemma exec_keeps f s : stats_ok (tables s) → stats_ok (f (tables s)) → stats_ok (tables (exec f s).1).
Proof.
  intros H1 H2. unfold exec. destruct (stmt_cases (λ t, Ok (f t, tt)) s) as [->|(a & [= <- _])]; done.
Qed.

Lemma insert_event_ok id t : stats_ok t → stats_ok (insert_event id t).
Proof.
  intros Hok. unfold insert_event. destruct (bool_decide (trim_space id = id)) eqn:E1; cbn [andb]; [|done].
  destruct (bool_decide (id = "")) eqn:E2; cbn [negb]; [done|]. bool_simpl. destruct Hok as [S L K C]. split; simpl.
  - intros id' e He. destruct (decide (id' = id)) as [->|Hne]; [rewrite lookup_insert_eq in He; injection He as <-; done|].
    rewrite lookup_insert_ne in He by done. by apply S.
  - intros id' X HX Hin. destruct (decide (id' = id)) as [->|Hne]; [rewrite lookup_insert_eq; by eexists|].
    rewrite lookup_insert_ne by done. by eapply L.
  - done.
  - intros c Hc. transitivity (value t c); [by destruct c|by apply C].
Qed.

Lemma run_stats_ok ops s : stats_ok (tables s) → stats_ok (tables (stat_run ops s)).
Proof.
  revert s. induction ops as [|o ops IH]; intros s Hok; [done|]. simpl. apply IH. destruct o as [id|h id|ids|a b c d]; simpl.
  - apply exec_keeps; [done|by apply insert_event_ok].
  - by apply apply_ok.
  - by apply purge_ok.
  - apply exec_keeps; [done|]. destruct Hok as [S L K C]. by split.
Qed.

Lemma no_stats_ok : stats_ok no_stats.
Proof.
  split; simpl.
  - intros id e He. by rewrite lookup_empty in He.
  - intros id X _ Hin. by apply elem_of_empty in Hin.
  - intros id X _ Hin. by apply elem_of_empty in Hin.
  - intros c Hc. unfold total. assert (claims ∅ c = ∅) as -> by (apply set_eq; intros x; unfold claims; rewrite elem_of_filter; set_solver).
    rewrite size_empty. by destruct c.
Qed.

(** The events that a counter should count. *)
Definition live (t : stat_tables) (c : counter) : gset string :=
  dom (filter (λ b : string * EventRow, counts c b.2 = true) (events t)).

Definition claimants (t : stat_tables) (c : counter) : gset string := set_map fst (claims (applied_stat_deltas t) c).

Lemma claims_size t c : size (claimants t c) = size (claims (applied_stat_deltas t) c).
Proof.
  unfold claimants. assert (∀ x, x ∈ claims (applied_stat_deltas t) c → x.2 = projection c) as Hp.
  { intros x Hx. unfold claims in Hx. apply elem_of_filter in Hx as [[Hx _] _]. done. }
  revert Hp. generalize (claims (applied_stat_deltas t) c). intros l. induction l as [|x l Hx IH] using set_ind_L; intros Hp.
  - by rewrite set_map_empty.
  - rewrite set_map_union_L, set_map_singleton_L, !size_union, !size_singleton, IH; [done|set_solver|set_solver|].
    intros y Hy1 Hy2. apply elem_of_singleton in Hy1 as ->. apply elem_of_map in Hy2 as (y & Hy & Hin). apply Hx.
    replace x with y; [done|]. pose proof (Hp x ltac:(set_solver)). pose proof (Hp y ltac:(set_solver)).
    destruct x, y. simpl in *. congruence.
Qed.

Lemma claimants_live t c : stats_ok t → claimants t c ⊆ live t c.
Proof.
  intros [S L _ _] id Hid. unfold claimants in Hid. apply elem_of_map in Hid as ([id' X] & -> & Hx).
  unfold claims in Hx. apply elem_of_filter in Hx as [[HX Hc] Hin]. simpl in *.
  destruct (L id' X) as [e He]; [|done|]; [subst X; by destruct c; unfold ledgered; set_solver|].
  apply elem_of_dom. exists e. apply map_lookup_filter_Some. split; [done|]. simpl. destruct (S id' e He) as [-> _]. done.
Qed.

(** C11: Counters are exact: over any sequence of inserts, applications, purges and
    other projections, with any statements failing and any of the switches on,
    the note and reply counts of a profile, its posts, notes and replies of a day
    and its events, posts, notes and replies of an hour are the numbers of stored
    events that hold a claim and count there; so once every such event was
    applied they are the numbers of stored events, however often each was applied
    or purged. No other counter is claimed: the columns of engagement are not
    exact ([purged_target_keeps_engagement], [late_target_goes_negative]), and
    those of zaps, media and hashtags are not among [counter]. *)
Theorem stats_exact (ops : list stat_op) (fs : list (option error)) (c : counter) :
  let t := tables (stat_run ops (mkDb no_stats fs)) in
  author c ≠ "" →
  value t c = Z.of_nat (size (claimants t c)) ∧ claimants t c ⊆ live t c ∧
  ((∀ id, id ∈ live t c → (id, projection c) ∈ applied_stat_deltas t) → value t c = Z.of_nat (size (live t c))).
Proof.
  cbv zeta. intros Hc. set (t := tables _). assert (stats_ok t) as Hok by apply run_stats_ok, no_stats_ok.
  pose proof (claimants_live t c Hok) as Hsub. rewrite (so_count t Hok c Hc). unfold total. rewrite claims_size. split_and!; [done|done|].
  intros Hall. rewrite <-claims_size. f_equal. f_equal. apply set_eq. intros id. split; [apply Hsub|]. intros Hid.
  specialize (Hall id Hid). unfold live in Hid. apply elem_of_dom in Hid as [e He]. apply map_lookup_filter_Some in He as [He Hcnt].
  simpl in Hcnt. destruct (so_source t Hok id e He) as [-> _]. unfold claimants. apply elem_of_map. exists (id, projection c).
  split; [done|]. unfold claims. apply elem_of_filter. done.
Qed.
End invariant.

(** * Examples *)

Module StatsExample.

Existing Instance ascii_tables.

Definition no_flags (e : EventRow) : MediaFlags := mkFlags false false false false 0.

Definition raw_tags (tags : list (list string)) : string :=
  str (json_encode (JObj [(bytes "tags", JArr (map (λ tag, JArr (map (λ s, JStr (bytes s)) tag)) tags))])).

Definition reply_to (id : string) : string := raw_tags [["e"; id; ""; "reply"]].

(** A note, a reply to it by another author a day later, and a second reply. *)
Definition source (id : string) : EventRow :=
  if bool_decide (id = "a1") then mkEventRow "alice" 1 1000 (raw_tags []) []
  else if bool_decide (id = "b1") then mkEventRow "bob" 1 90000 (reply_to "a1") []
  else mkEventRow "carol" 1 90060 (reply_to "a1") [].

Definition all_on : flags := mkSwitches true true true.

Definition run (ops : list stat_op) : stat_tables := tables (stat_run no_flags source ops (mkDb no_stats [])).

Definition engagement (t : stat_tables) (p : string) (date : Z) : Z * Z :=
  match author_activity_daily t !! (p, date) with Some d => (d_received d, d_given d) | None => (0, 0) end.

Definition applied_twice : list stat_op :=
  [OpInsert "a1"; OpInsert "b1"; OpApply all_on "a1"; OpApply all_on "b1"; OpApply all_on "b1"; OpApply all_on " a1 "].

Example counted_once :
  let t := run applied_twice in
  map (value t) [CNotes "alice"; CReplies "bob"; CDayPosts "bob" 1; CHourEvents "bob" 1 5 1] = [1; 1; 1; 1] ∧
  engagement t "alice" 1 = (1, 0) ∧ engagement t "bob" 1 = (0, 1).
Proof. split_and!; vm_compute; reflexivity. Qed.

Lemma stats_exact_witness :
  let t := tables (stat_run no_flags source applied_twice (mkDb no_stats [])) in
  value t (CReplies "bob") = Z.of_nat (size (live t (CReplies "bob"))).
Proof.
  refine (proj2 (proj2 (stats_exact no_flags source applied_twice [] (CReplies "bob") ltac:(discriminate))) _).
  intros id Hid. assert (id ∈ ({["b1"]} : gset string)) as Hb.
  { assert (live (tables (stat_run no_flags source applied_twice (mkDb no_stats []))) (CReplies "bob") = {["b1"]}) as E by (vm_compute; reflexivity).
    rewrite <-E. exact Hid. }
  apply elem_of_singleton in Hb. rewrite Hb. apply (bool_decide_eq_true_1 _). vm_compute. reflexivity.
Defined.

(** Both events purged, the answered one first: its author is no longer found,
    and the engagement of both authors stays counted. *)
Example purged_target_keeps_engagement :
  let t := run [OpInsert "a1"; OpInsert "b1"; OpApply all_on "a1"; OpApply all_on "b1"; OpPurge ["a1"]; OpPurge ["b1"]] in
  size (events t) = 0%nat ∧ engagement t "alice" 1 = (1, 0) ∧ engagement t "bob" 1 = (0, 1).
Proof. split_and!; vm_compute; reflexivity. Qed.

(** A reply that was applied before the answered event came: its purge takes back
    what was never added, from a row that does not exist, *)
Example late_target_goes_negative :
  let t := run [OpInsert "b1"; OpApply all_on "b1"; OpInsert "a1"; OpApply all_on "a1"; OpPurge ["b1"]] in
  engagement t "alice" 1 = (-1, 0).
Proof. vm_compute. reflexivity. Qed.

(** or from what another reply added. *)
Example late_target_loses_engagement :
  let t := run [OpInsert "b1"; OpApply all_on "b1"; OpInsert "a1"; OpInsert "c1"; OpApply all_on "c1"; OpPurge ["b1"]] in
  events t !! "c1" = Some (source "c1") ∧ engagement t "alice" 1 = (0, 0).
Proof. split; vm_compute; reflexivity. Qed.

End StatsExample.
