(* ===== verification/Dedup.v ===== *)
(** The live ingest dedup cache, [internal/ingestor/live/dedup_cache.go]: a map
    from event ids to the elements of a doubly linked recency list
    ([container/list]), whose values are shared entries.

    List elements are references: [order] holds them front first, [heap] holds
    the entry each one points to. The specification is a bounded list of
    (id, pubkey) pairs, most recent first. *)

From S2P Require Import Prelude GoLib.

(** * Implementation *)

Definition elem : Type := nat.

Record dedupEntry := mkEntry {
  d_id : string;
  d_pubkey : string;
}.

Record dedupCache := mkCache {
  capacity : Z;
  entries : gmap string elem;
  order : list elem;
  heap : gmap elem dedupEntry;
  fresh : elem;
}.

(** A nil cache stands for a capacity that is not positive. *)
Definition newDedupCache (cap : Z) : option dedupCache :=
  if cap <=? 0 then None else Some (mkCache cap ∅ [] ∅ O).

Definition list_remove (e : elem) (l : list elem) : list elem :=
  List.filter (λ x, negb (x =? e)%nat) l.

Definition move_to_front (e : elem) (l : list elem) : list elem := e :: list_remove e l.

Definition Get (c : option dedupCache) (id : string) : option dedupCache * option string :=
  match c with
  | None => (None, None)
  | Some s =>
      match entries s !! id with
      | None => (c, None)
      | Some e =>
          (Some (mkCache (capacity s) (entries s) (move_to_front e (order s)) (heap s) (fresh s)),
           d_pubkey <$> heap s !! e)
      end
  end.

(** [order.Back()]. *)
Definition back (l : list elem) : option elem := list.last l.

Definition Add (c : option dedupCache) (id pubkey : string) : option dedupCache :=
  match c with
  | None => None
  | Some s =>
      if bool_decide (id = "") then c
      else
        match entries s !! id with
        | Some e =>
            Some (mkCache (capacity s) (entries s) (move_to_front e (order s))
                    (alter (λ v, mkEntry (d_id v) pubkey) e (heap s)) (fresh s))
        | None =>
            let '(ents, ord) :=
              if capacity s <=? Z.of_nat (length (order s)) then
                match back (order s) with
                | Some oldest =>
                    (delete (default "" (d_id <$> heap s !! oldest)) (entries s),
                     list_remove oldest (order s))
                | None => (entries s, order s)
                end
              else (entries s, order s) in
            Some (mkCache (capacity s) (<[id := fresh s]> ents) (fresh s :: ord)
                    (<[fresh s := mkEntry id pubkey]> (heap s)) (S (fresh s)))
        end
  end.

Definition Len (c : option dedupCache) : Z :=
  match c with None => 0 | Some s => Z.of_nat (length (order s)) end.

(** * Specification *)

(** Most recent first; each id at most once. *)
Definition lru : Type := list dedupEntry.

Definition lru_other (id : string) (l : lru) : lru :=
  List.filter (λ x, negb (bool_decide (d_id x = id))) l.

Definition lru_find (id : string) (l : lru) : option dedupEntry :=
  List.find (λ x, bool_decide (d_id x = id)) l.

Definition lru_get (id : string) (l : lru) : lru * option string :=
  match lru_find id l with
  | Some x => (x :: lru_other id l, Some (d_pubkey x))
  | None => (l, None)
  end.

Definition lru_add (cap : Z) (id pubkey : string) (l : lru) : lru :=
  if bool_decide (id = "") then l
  else match lru_find id l with
       | Some _ => mkEntry id pubkey :: lru_other id l
       | None => mkEntry id pubkey :: take (Z.to_nat (cap - 1)) l
       end.

(** * Refinement *)

Definition value (h : gmap elem dedupEntry) (e : elem) : dedupEntry :=
  default (mkEntry "" "") (h !! e).

Definition abs (s : dedupCache) : lru := map (value (heap s)) (order s).

Record cache_ok (s : dedupCache) : Prop := {
  co_capacity : 0 < capacity s;
  co_nodup : NoDup (order s);
  co_fresh : ∀ e, e ∈ order s → (e < fresh s)%nat;
  co_heap : ∀ e, e ∈ order s → is_Some (heap s !! e);
  co_entries : ∀ id e, entries s !! id = Some e ↔ e ∈ order s ∧ d_id (value (heap s) e) = id;
  co_size : Z.of_nat (length (order s)) ≤ capacity s;
}.

Lemma cache_ok_ids s : cache_ok s → NoDup (map d_id (abs s)).
Proof.
  intros [_ Hnd _ _ Hen _]. unfold abs. rewrite map_map.
  assert (∀ l, (∀ e, e ∈ l → e ∈ order s) → NoDup l → NoDup (map (λ e, d_id (value (heap s) e)) l))
    as Hgen; [|by apply Hgen].
  induction l as [|e l IH]; intros Hsub Hl; simpl; [constructor|].
  inversion Hl as [|? ? He Hl1]; subst. constructor; [|apply IH; set_solver].
  intros Hin. apply list_elem_of_In, in_map_iff in Hin as (e' & Hid & Hin).
  apply list_elem_of_In in Hin.
  assert (Some e' = Some e) as [= ->]; [|done].
  rewrite <-(proj2 (Hen (d_id (value (heap s) e)) e)) by set_solver.
  symmetry. apply Hen. split; [set_solver|done].
Qed.

Lemma elem_of_remove e x l : x ∈ list_remove e l ↔ x ∈ l ∧ x ≠ e.
Proof.
  unfold list_remove. rewrite !list_elem_of_In, filter_In, negb_true_iff, Nat.eqb_neq. done.
Qed.

Lemma NoDup_remove e l : NoDup l → NoDup (list_remove e l).
Proof.
  unfold list_remove. induction 1 as [|x l Hx _ IH]; simpl; [constructor|].
  destruct (negb _); [|done]. constructor; [|done].
  intros Hin. apply list_elem_of_In, filter_In in Hin as [Hin _]. by apply Hx, list_elem_of_In.
Qed.

Lemma length_remove_le e l : (length (list_remove e l) ≤ length l)%nat.
Proof. apply filter_length_le. Qed.

Lemma length_remove e l : e ∈ l → (length (list_remove e l) < length l)%nat.
Proof.
  unfold list_remove. induction l as [|x l IH]; intros He; [set_solver|]. simpl.
  destruct (x =? e)%nat eqn:E; simpl.
  - pose proof (length_remove_le e l). unfold list_remove in *. lia.
  - apply Nat.eqb_neq in E. assert (e ∈ l) by set_solver. specialize (IH H). lia.
Qed.

(** Removing an element is removing its id. *)
Lemma abs_remove s e :
  cache_ok s → e ∈ order s →
  map (value (heap s)) (list_remove e (order s)) = lru_other (d_id (value (heap s) e)) (abs s).
Proof.
  intros [_ _ _ _ Hen _] He. unfold abs, lru_other, list_remove.
  assert (∀ l, (∀ x, x ∈ l → x ∈ order s) →
    map (value (heap s)) (List.filter (λ x, negb (x =? e)%nat) l)
    = List.filter (λ x, negb (bool_decide (d_id x = d_id (value (heap s) e))))
        (map (value (heap s)) l)) as Hgen; [|by apply Hgen].
  induction l as [|x l IH]; intros Hsub; simpl; [done|].
  destruct (x =? e)%nat eqn:E; simpl.
  - apply Nat.eqb_eq in E as ->. rewrite bool_decide_eq_true_2 by done. simpl. apply IH. set_solver.
  - apply Nat.eqb_neq in E. rewrite bool_decide_eq_false_2; simpl; [f_equal; apply IH; set_solver|].
    intros Hid. apply E. assert (Some x = Some e) as [= ->]; [|done].
    rewrite <-(proj2 (Hen (d_id (value (heap s) e)) e)) by set_solver.
    symmetry. apply Hen. split; [set_solver|done].
Qed.

(** The map finds what the list holds. *)
Lemma lru_find_entries s id :
  cache_ok s →
  lru_find id (abs s) = value (heap s) <$> entries s !! id.
Proof.
  intros Hok. pose proof Hok as [_ _ _ _ Hen _].
  destruct (entries s !! id) as [e|] eqn:E; simpl.
  - apply Hen in E as [He Hid]. unfold lru_find. destruct (List.find _ _) as [x|] eqn:Ef.
    + apply find_some in Ef as [Hx Hb]. bool_simpl. unfold abs in Hx.
      apply in_map_iff in Hx as (e' & <- & He'). apply list_elem_of_In in He'.
      assert (Some e' = Some e) as [= ->]; [|done].
      rewrite <-(proj2 (Hen id e)) by done. symmetry. by apply Hen.
    + exfalso. eapply find_none in Ef; [|apply in_map, list_elem_of_In, He].
      by rewrite bool_decide_eq_true_2 in Ef.
  - unfold lru_find. destruct (List.find _ _) as [x|] eqn:Ef; [|done].
    apply find_some in Ef as [Hx Hb]. bool_simpl. unfold abs in Hx.
    apply in_map_iff in Hx as (e' & <- & He'). apply list_elem_of_In in He'.
    enough (entries s !! id = Some e') by congruence. by apply Hen.
Qed.

Lemma new_ok cap s : newDedupCache cap = Some s → cache_ok s ∧ abs s = [] ∧ capacity s = cap.
Proof.
  unfold newDedupCache. destruct (cap <=? 0) eqn:E; [done|]. intros [= <-]. bool_simpl.
  split_and!; [|done..]. split; simpl; try lia; try (constructor; fail); try set_solver.
Qed.

(** Moving an element to the front keeps the cache well formed. *)
Lemma move_ok s e h :
  cache_ok s → e ∈ order s →
  (∀ x, x ∈ order s → is_Some (h !! x) ∧ d_id (value h x) = d_id (value (heap s) x)) →
  cache_ok (mkCache (capacity s) (entries s) (move_to_front e (order s)) h (fresh s)).
Proof.
  intros [Hc Hnd Hf Hh Hen Hs] He Hv. unfold move_to_front. split; simpl.
  - done.
  - constructor; [rewrite elem_of_remove; naive_solver|by apply NoDup_remove].
  - intros x. rewrite elem_of_cons, elem_of_remove. naive_solver.
  - intros x. rewrite elem_of_cons, elem_of_remove. intros [->|[Hx _]]; by apply Hv.
  - intros id x. rewrite Hen, elem_of_cons, elem_of_remove. split.
    + intros [Hx Hid]. rewrite (proj2 (Hv x Hx)). destruct (decide (x = e)); naive_solver.
    + intros [Hx Hid]. assert (x ∈ order s) as Hin by naive_solver.
      by rewrite (proj2 (Hv x Hin)) in Hid.
  - pose proof (length_remove e (order s) He). lia.
Qed.

Lemma move_abs s e :
  cache_ok s → e ∈ order s →
  map (value (heap s)) (move_to_front e (order s))
  = value (heap s) e :: lru_other (d_id (value (heap s) e)) (abs s).
Proof. intros Hok He. unfold move_to_front. simpl. f_equal. by apply abs_remove. Qed.

Lemma Get_refines s id :
  cache_ok s →
  ∃ s', Get (Some s) id = (Some s', (lru_get id (abs s)).2) ∧ cache_ok s' ∧
        abs s' = (lru_get id (abs s)).1 ∧ capacity s' = capacity s.
Proof.
  intros Hok. unfold Get, lru_get. rewrite (lru_find_entries s id Hok).
  destruct (entries s !! id) as [e|] eqn:E; simpl; [|by exists s].
  pose proof Hok as [_ _ _ Hh Hen _]. apply Hen in E as [He Hid].
  eexists. split; [|split_and!; [apply move_ok; [done..|]; intros x Hx; split; [by apply Hh|done]| |done]].
  - f_equal. unfold value. destruct (Hh e He) as [v ->]. done.
  - unfold abs at 1. simpl order. simpl heap. rewrite move_abs by done. by rewrite Hid.
Qed.

(** Replacing the pubkey of an element changes that entry only. *)
Lemma alter_value h e pk x :
  is_Some (h !! e) →
  value (alter (λ v, mkEntry (d_id v) pk) e h) x
  = if decide (x = e) then mkEntry (d_id (value h e)) pk else value h x.
Proof.
  intros [v Hv]. unfold value. destruct (decide (x = e)) as [->|Hne].
  - by rewrite lookup_alter_eq, Hv.
  - by rewrite lookup_alter_ne.
Qed.

Lemma map_value_ext h h' l :
  (∀ x, x ∈ l → value h x = value h' x) → map (value h) l = map (value h') l.
Proof.
  intros Hext. induction l as [|x l IH]; simpl; [done|]. rewrite Hext, IH by set_solver. done.
Qed.

Lemma Add_hit_refines s id pk e :
  cache_ok s → entries s !! id = Some e →
  let s' := mkCache (capacity s) (entries s) (move_to_front e (order s))
              (alter (λ v, mkEntry (d_id v) pk) e (heap s)) (fresh s) in
  cache_ok s' ∧ abs s' = mkEntry id pk :: lru_other id (abs s).
Proof.
  intros Hok E s'. pose proof Hok as [_ _ _ Hh Hen _]. apply Hen in E as [He Hid].
  pose proof (Hh e He) as Hsome. split.
  - apply move_ok; [done|done|]. intros x Hx. split.
    + destruct (decide (x = e)) as [->|]; [rewrite lookup_alter_eq|rewrite lookup_alter_ne by done].
      * by apply fmap_is_Some.
      * by apply Hh.
    + rewrite alter_value by done. destruct (decide (x = e)) as [->|]; done.
  - unfold abs at 1. simpl. rewrite alter_value, decide_True, Hid by done. f_equal.
    rewrite <-Hid, <-abs_remove by done. apply map_value_ext.
    intros x. rewrite elem_of_remove, alter_value by done. intros [_ Hne].
    by rewrite decide_False.
Qed.

(** Eviction drops the last element. *)
Lemma remove_last l e :
  NoDup l → list.last l = Some e → list_remove e l = take (length l - 1) l.
Proof.
  intros Hnd Hl. destruct l as [|y l _] using rev_ind; [done|].
  rewrite last_snoc in Hl. injection Hl as ->.
  rewrite length_app. simpl. replace (length l + 1 - 1)%nat with (length l) by lia.
  rewrite take_app_length. unfold list_remove. rewrite List.filter_app. simpl.
  rewrite Nat.eqb_refl. simpl. rewrite app_nil_r.
  apply list.NoDup_app in Hnd as (_ & Hd & _).
  induction l as [|x l IH]; simpl; [done|].
  destruct (x =? e)%nat eqn:E; simpl.
  - apply Nat.eqb_eq in E as ->. exfalso. apply (Hd e); set_solver.
  - f_equal. apply IH. intros z Hz. apply Hd. set_solver.
Qed.

(** The state after making room for one entry. *)
Definition room (s : dedupCache) (ord : list elem) : Prop :=
  NoDup ord ∧ (∀ x, x ∈ ord → x ∈ order s) ∧ Z.of_nat (length ord) < capacity s.

Lemma insert_ok s id pk ents ord :
  cache_ok s → entries s !! id = None → room s ord →
  (∀ i e, ents !! i = Some e ↔ e ∈ ord ∧ d_id (value (heap s) e) = i) →
  let s' := mkCache (capacity s) (<[id := fresh s]> ents) (fresh s :: ord)
              (<[fresh s := mkEntry id pk]> (heap s)) (S (fresh s)) in
  cache_ok s' ∧ abs s' = mkEntry id pk :: map (value (heap s)) ord.
Proof.
  intros [Hc Hnd Hf Hh Hen Hs] Hid (Hnd' & Hsub & Hlt) Hents s'.
  assert (∀ x, x ∈ ord → x ≠ fresh s) as Hne.
  { intros x Hx ->. apply Hsub, Hf in Hx. lia. }
  assert (∀ x, x ∈ ord → value (<[fresh s := mkEntry id pk]> (heap s)) x = value (heap s) x) as Hval.
  { intros x Hx. unfold value. rewrite lookup_insert_ne; [done|]. apply not_eq_sym. auto. }
  split.
  - split; simpl.
    + done.
    + constructor; [|done]. intros Hin. by apply (Hne _ Hin).
    + intros e. rewrite elem_of_cons. intros [->|He]; [lia|]. apply Hsub, Hf in He. lia.
    + intros e. rewrite elem_of_cons. intros [->|He]; [by rewrite lookup_insert_eq|].
      rewrite lookup_insert_ne by (apply not_eq_sym; auto). auto.
    + intros i e. rewrite elem_of_cons. destruct (decide (i = id)) as [->|Hi].
      * rewrite lookup_insert_eq. split.
        -- intros [= <-]. split; [by left|]. unfold value. by rewrite lookup_insert_eq.
        -- intros [[->|He] Hd]; [done|]. rewrite Hval in Hd by done. exfalso.
           assert (entries s !! id = Some e) by (apply Hen; auto). congruence.
      * rewrite lookup_insert_ne by done. rewrite Hents. split.
        -- intros [He Hd]. split; [by right|]. by rewrite Hval.
        -- intros [[->|He] Hd]; [|by rewrite Hval in Hd].
           unfold value in Hd. rewrite lookup_insert_eq in Hd. simpl in Hd. congruence.
    + lia.
  - unfold abs. simpl. f_equal; [unfold value; by rewrite lookup_insert_eq|].
    by apply map_value_ext.
Qed.

Lemma Add_refines s id pk :
  cache_ok s →
  ∃ s', Add (Some s) id pk = Some s' ∧ cache_ok s' ∧
        abs s' = lru_add (capacity s) id pk (abs s) ∧ capacity s' = capacity s.
Proof.
  intros Hok. unfold Add, lru_add. case_bool_decide as Hid; [by exists s|].
  rewrite (lru_find_entries s id Hok). destruct (entries s !! id) as [e|] eqn:E; simpl.
  { destruct (Add_hit_refines s id pk e Hok E) as [H1 H2]. eexists. split_and!; done. }
  pose proof Hok as [Hc Hnd Hf Hh Hen Hs].
  destruct (capacity s <=? Z.of_nat (length (order s))) eqn:Ecap; bool_simpl.
  - unfold back. destruct (list.last (order s)) as [old|] eqn:El.
    2:{ apply last_None in El. rewrite El in Ecap. simpl in Ecap. lia. }
    assert (old ∈ order s) as Hold by (apply last_Some_elem_of, El).
    destruct (insert_ok s id pk (delete (d_id (value (heap s) old)) (entries s))
                (list_remove old (order s))) as [H1 H2]; [done|done| | |].
    + split_and!; [by apply NoDup_remove|intros x; rewrite elem_of_remove; tauto|].
      pose proof (length_remove old (order s) Hold). lia.
    + intros i e. rewrite elem_of_remove, lookup_delete_Some, Hen. split.
      * intros (Hi & He & Hd). split; [|done]. split; [done|]. intros ->. by apply Hi.
      * intros [[He Hne] Hd]. split_and!; try done. intros Hi. apply Hne.
        assert (Some e = Some old) as [= ->]; [|done].
        rewrite <-(proj2 (Hen i e)) by done. apply Hen. by split.
    + assert (default "" (d_id <$> heap s !! old) = d_id (value (heap s) old)) as ->.
      { unfold value. by destruct (heap s !! old). }
      eexists. split_and!; [done|exact H1| |done]. rewrite H2, (remove_last _ _ Hnd El). f_equal.
      unfold abs. rewrite <-firstn_map. f_equal. lia.
  - destruct (insert_ok s id pk (entries s) (order s)) as [H1 H2]; [done|done| |exact Hen|].
    + by split_and!.
    + eexists. split_and!; [done|exact H1| |done]. rewrite H2. f_equal. symmetry. apply take_ge.
      unfold abs. rewrite length_map. lia.
Qed.

(** * Sequences of cache operations *)

Inductive cache_op := OpGet (id : string) | OpAdd (id pubkey : string).

(** The cache after one operation, and what a lookup returned. *)
Definition cache_step (c : option dedupCache) (op : cache_op)
    : option dedupCache * option string :=
  match op with
  | OpGet id => Get c id
  | OpAdd id pk => (Add c id pk, None)
  end.

Definition lru_step (cap : Z) (l : lru) (op : cache_op) : lru * option string :=
  match op with
  | OpGet id => lru_get id l
  | OpAdd id pk => (lru_add cap id pk l, None)
  end.

Fixpoint run {S} (step : S → cache_op → S * option string) (s : S) (ops : list cache_op)
    : S * list (option string) :=
  match ops with
  | [] => (s, [])
  | op :: ops' =>
      let '(s1, out) := step s op in
      let '(s2, outs) := run step s1 ops' in (s2, out :: outs)
  end.

Lemma cache_step_refines s op :
  cache_ok s →
  ∃ s', cache_step (Some s) op = (Some s', (lru_step (capacity s) (abs s) op).2) ∧
        cache_ok s' ∧ abs s' = (lru_step (capacity s) (abs s) op).1 ∧ capacity s' = capacity s.
Proof.
  intros Hok. destruct op as [id|id pk]; cbn [cache_step lru_step fst snd].
  - by apply Get_refines.
  - destruct (Add_refines s id pk Hok) as (s' & -> & H1 & H2 & H3). by exists s'.
Qed.

Lemma run_refines s ops :
  cache_ok s →
  ∃ s', run cache_step (Some s) ops
        = (Some s', (run (lru_step (capacity s)) (abs s) ops).2) ∧
        cache_ok s' ∧ abs s' = (run (lru_step (capacity s)) (abs s) ops).1 ∧
        capacity s' = capacity s.
Proof.
  revert s. induction ops as [|op ops IH]; intros s Hok; cbn [run]; [by exists s|].
  destruct (cache_step_refines s op Hok) as (s1 & E1 & Hok1 & Habs & Hcap). rewrite E1.
  destruct (lru_step (capacity s) (abs s) op) as [l1 out]. simpl in *. subst l1.
  destruct (IH s1 Hok1) as (s2 & E2 & Hok2 & Habs2 & Hcap2). rewrite E2, <-Hcap in *.
  destruct (run (lru_step (capacity s1)) (abs s1) ops) as [l2 outs]. simpl in *.
  exists s2. split_and!; congruence.
Qed.

(** C30: The map-and-linked-list cache behaves as a bounded list ordered by
    recency: over any sequence of lookups and additions it returns the same
    answers, holds the same entries in the same order, and never exceeds its
    capacity. *)
Theorem dedup_refines cap ops :
  0 < cap →
  let c := run cache_step (newDedupCache cap) ops in
  let l := run (lru_step cap) [] ops in
  c.2 = l.2 ∧ (∃ s, c.1 = Some s ∧ abs s = l.1) ∧ Len c.1 ≤ cap.
Proof.
  intros Hcap c l. destruct (newDedupCache cap) as [s|] eqn:E.
  2:{ unfold newDedupCache in E. by rewrite (proj2 (Z.leb_gt _ _)) in E. }
  apply new_ok in E as (Hok & Habs & Hc).
  destruct (run_refines s ops Hok) as (s' & Er & Hok' & Habs' & Hcap').
  rewrite Hc in Hcap'. rewrite Hc, Habs in Er, Habs'. unfold c. rewrite Er. simpl. split; [done|]. split; [by exists s'|].
  rewrite <-Hcap'. apply Hok'.
Qed.

Lemma dedup_refines_witness :
  let ops := [OpAdd "a" "p"; OpAdd "b" "q"; OpGet "a"; OpAdd "c" "r"; OpGet "b"; OpGet "a"] in
  let c := run cache_step (newDedupCache 2) ops in
  c.2 = [None; None; Some "p"; None; None; Some "p"] ∧ Len c.1 ≤ 2.
Proof.
  intros ops c. destruct (dedup_refines 2 ops) as (H1 & _ & H3); [reflexivity|].
  split; [|exact H3]. unfold c. rewrite H1. vm_compute. reflexivity.
Defined.

(** ** Recency *)

Definition others (x : string) (l : list string) : list string :=
  List.filter (λ y, negb (bool_decide (y = x))) l.

Lemma others_absent x l : x ∉ l → others x l = l.
Proof.
  unfold others. induction l as [|y l IH]; intros Hx; simpl; [done|].
  rewrite not_elem_of_cons in Hx. rewrite bool_decide_eq_false_2 by naive_solver.
  simpl. f_equal. naive_solver.
Qed.

Lemma dedup_from_others (seen : gset string) x l :
  dedup_from ({[x]} ∪ seen) l = others x (dedup_from seen l).
Proof.
  revert seen. induction l as [|y l IH]; intros seen; simpl; [done|].
  destruct (decide (y = x)) as [->|Hne].
  - rewrite bool_decide_eq_true_2 by set_solver. case_bool_decide; [apply IH|].
    unfold others. simpl. rewrite bool_decide_eq_true_2 by done. simpl.
    change (List.filter _ _) with (others x (dedup_from ({[x]} ∪ seen) l)).
    rewrite others_absent; [done|]. rewrite elem_of_dedup_from. set_solver.
  - repeat case_bool_decide; try set_solver.
    unfold others. simpl. rewrite bool_decide_eq_false_2 by done. simpl. f_equal.
    change (List.filter _ _) with (others x (dedup_from ({[y]} ∪ seen) l)).
    rewrite <-IH. f_equal. set_solver.
Qed.

Lemma dedup_first_cons x l : dedup_first (x :: l) = x :: others x (dedup_first l).
Proof.
  unfold dedup_first. simpl. rewrite bool_decide_eq_false_2 by set_solver.
  f_equal. apply dedup_from_others.
Qed.

Lemma take_others n x D :
  NoDup D → x ∈ take (S n) D → take n (others x D) = others x (take (S n) D).
Proof.
  revert n. induction D as [|y D IH]; intros n Hnd Hx; [set_solver|].
  inversion Hnd as [|? ? Hy HD]; subst. unfold others in *. simpl in *.
  destruct (decide (y = x)) as [->|Hne].
  - rewrite bool_decide_eq_true_2 by done. simpl.
    change (List.filter _ D) with (others x D). rewrite (others_absent x D) by done.
    symmetry. apply others_absent. intros Hin. apply Hy.
    apply elem_of_take in Hin as (i & Hi & _). by eapply list_elem_of_lookup_2.
  - rewrite bool_decide_eq_false_2 by done. simpl. destruct n as [|n]; [set_solver|].
    simpl. f_equal. apply IH; [done|]. set_solver.
Qed.

Lemma take_others_absent n x D :
  x ∉ take (S n) D → take n (others x D) = take n D.
Proof.
  revert n. induction D as [|y D IH]; intros n Hx; [done|]. unfold others in *. simpl in *.
  rewrite bool_decide_eq_false_2 by set_solver. destruct n as [|n]; [done|]. simpl. f_equal.
  apply IH. set_solver.
Qed.

Lemma map_lru_other id (l : lru) : map d_id (lru_other id l) = others id (map d_id l).
Proof.
  unfold lru_other, others. induction l as [|x l IH]; simpl; [done|].
  destruct (bool_decide (d_id x = id)); simpl; [done|by f_equal].
Qed.

Lemma lru_find_none id (l : lru) : lru_find id l = None ↔ id ∉ map d_id l.
Proof.
  unfold lru_find. induction l as [|x l IH]; simpl; [set_solver|].
  case_bool_decide; set_solver.
Qed.

Lemma lru_adds n (xs : list (string * string)) :
  Forall (λ x, x.1 ≠ "") xs →
  map d_id (foldl (λ l x, lru_add (Z.of_nat (S n)) x.1 x.2 l) [] xs)
  = take (S n) (dedup_first (rev (map fst xs))).
Proof.
  induction xs as [|[id pk] xs IH] using rev_ind; intros Hne; [done|].
  apply Forall_app in Hne as [Hne Hx]. apply Forall_cons_1 in Hx as [Hx _]. simpl in Hx.
  rewrite foldl_app, map_app, rev_app_distr. cbn [foldl map fst snd rev app].
  rewrite dedup_first_cons. specialize (IH Hne). set (l := foldl _ _ _) in *.
  set (D := dedup_first (rev (map fst xs))) in *.
  assert (NoDup D) as HD by apply NoDup_dedup_first.
  unfold lru_add. rewrite bool_decide_eq_false_2 by done.
  destruct (lru_find id l) as [e|] eqn:E; cbn [map d_id take]; f_equal.
  - rewrite map_lru_other, IH. symmetry. apply take_others; [done|].
    rewrite <-IH. destruct (decide (id ∈ map d_id l)) as [|Hn]; [done|].
    apply lru_find_none in Hn. congruence.
  - apply lru_find_none in E. rewrite IH in E.
    replace (Z.to_nat (Z.of_nat (S n) - 1)) with n by lia.
    rewrite <-firstn_map, IH, take_take, take_others_absent by done. f_equal. lia.
Qed.

(** After any sequence of additions an id is found exactly when it is among
    the last [cap] distinct ids added: eviction removes the least recent only. *)
Theorem dedup_recent cap xs id :
  0 < cap → Forall (λ x, x.1 ≠ "") xs →
  is_Some (Get (foldl (λ c x, Add c x.1 x.2) (newDedupCache cap) xs) id).2 ↔
  id ∈ take (Z.to_nat cap) (dedup_first (rev (map fst xs))).
Proof.
  intros Hcap Hne. destruct (newDedupCache cap) as [s|] eqn:E.
  2:{ unfold newDedupCache in E. by rewrite (proj2 (Z.leb_gt _ _)) in E. }
  apply new_ok in E as (Hok & Habs & Hc).
  assert (∃ s', foldl (λ c x, Add c x.1 x.2) (Some s) xs = Some s' ∧ cache_ok s' ∧
     abs s' = foldl (λ l x, lru_add cap x.1 x.2 l) (abs s) xs) as (s' & Ef & Hok' & Habs').
  { clear Habs Hne. revert s Hok Hc. induction xs as [|[i p] xs IH]; intros s Hok Hc; [by exists s|].
    cbn [foldl fst snd]. destruct (Add_refines s i p Hok) as (s1 & -> & Hok1 & Habs1 & Hc1).
    destruct (IH s1 Hok1) as (s2 & E2 & Hok2 & Habs2); [congruence|]. exists s2.
    split_and!; [done|done|]. by rewrite Habs2, Habs1, Hc. }
  rewrite Ef. destruct (Get_refines s' id Hok') as (s2 & -> & _). cbn [snd].
  unfold lru_get. replace cap with (Z.of_nat (S (Z.to_nat (cap - 1)))) in Habs' |- * by lia.
  rewrite Nat2Z.id, <-lru_adds, <-Habs, <-Habs' by done.
  destruct (lru_find id (abs s')) as [e|] eqn:El; cbn [snd].
  - split; [|by eexists]. intros _. destruct (decide (id ∈ map d_id (abs s'))) as [|Hn]; [done|].
    apply lru_find_none in Hn. congruence.
  - apply lru_find_none in El. split; [by intros [? ?]|done].
Qed.

Lemma dedup_recent_witness :
  is_Some (Get (foldl (λ c x, Add c x.1 x.2) (newDedupCache 2)
                  [("a", "p"); ("b", "q"); ("a", "p2"); ("c", "r")]) "a").2.
Proof.
  apply (dedup_recent 2 [("a", "p"); ("b", "q"); ("a", "p2"); ("c", "r")] "a").
  - reflexivity.
  - repeat (apply Forall_cons_2; [discriminate|]). apply Forall_nil_2.
  - vm_compute. right. left.
Defined.
