(* ===== verification/Checkpoints.v ===== *)
(** Live ingest checkpoints: the batching tracker
    ([internal/ingestor/live/checkpoint_tracker.go]), the resume cursor
    ([resume_since_resolver.go]) and their rows ([internal/store/checkpoints.go]).

    The tracker's mutex is released around the store write of a flush, so a
    flush is three steps that other calls may separate: [flush_begin] takes the
    snapshot, the write goes to the store, [flush_end] clears the dirty mark.
    The sequential operations and the interleaving system below are built from
    the same steps. *)

From S2P Require Import Prelude GoLib.

(** * Data *)

Record IngestCheckpoint := mkCheckpoint {
  RelayURL : string;
  Mode : string;
  FilterGroup : string;
  Since : option Z;
  Until : option Z;
  Cursor : option string;
  LastEventID : option string;
  LastProgressAt : option time;
  LastConnectedAt : option time;
  LastDisconnectedAt : option time;
  EOSESeenAt : option time;
  Status : string;
  LastError : option string;
  LastErrorAt : option time;
  ReconnectCount : Z;
  UpdatedAt : time;
}.

Definition ModeLive : string := "live".
Definition CheckpointConnecting : string := "connecting".
Definition CheckpointHealthy : string := "healthy".
Definition CheckpointBackingOff : string := "backing_off".
Definition CheckpointErrored : string := "errored".
Definition CheckpointDisconnected : string := "disconnected".

(** * Store *)

(** Primary key: relay, mode, filter group. *)
Abbreviation ckey := (string * string * string)%type (only parsing).
Abbreviation cstore := (gmap ckey IngestCheckpoint) (only parsing).

(** [fault] is a failure of the query. *)
Definition GetIngestCheckpoint (fault : option error) (st : cstore)
    (relayURL mode filterGroup : string) : result (option IngestCheckpoint) :=
  let relayURL := trim_space relayURL in
  let mode := trim_space mode in
  let filterGroup := trim_space filterGroup in
  if bool_decide (relayURL = "") || bool_decide (mode = "") || bool_decide (filterGroup = "") then
    Err "relay url, mode, and filter group are required"
  else match fault with
       | Some e => Err ("select checkpoint: " +:+ e)
       | None => Ok (st !! (relayURL, mode, filterGroup))
       end.

Definition UpsertIngestCheckpoint (wall : time) (fault : option error) (st : cstore)
    (c : IngestCheckpoint) : result cstore :=
  let relayURL := trim_space (RelayURL c) in
  let mode := trim_space (Mode c) in
  let filterGroup := trim_space (FilterGroup c) in
  let status := trim_space (Status c) in
  if bool_decide (relayURL = "") || bool_decide (mode = "") || bool_decide (filterGroup = "") then
    Err "relay url, mode, and filter group are required"
  else if bool_decide (status = "") then Err "checkpoint status is required"
  else match fault with
       | Some e => Err ("upsert checkpoint: " +:+ e)
       | None =>
           let updatedAt := if time_is_zero (UpdatedAt c) then wall else UpdatedAt c in
           Ok (<[(relayURL, mode, filterGroup) :=
                   mkCheckpoint relayURL mode filterGroup (Since c) (Until c) (Cursor c)
                     (LastEventID c) (LastProgressAt c) (LastConnectedAt c)
                     (LastDisconnectedAt c) (EOSESeenAt c) status (LastError c)
                     (LastErrorAt c) (ReconnectCount c) updatedAt]> st)
       end.

(** * Tracker *)

Record relayCheckpointState := mkRelayState {
  checkpoint : IngestCheckpoint;
  lastFlush : time;
  dirty : bool;
}.

(** A flush between its two critical sections. *)
Record flight := mkFlight {
  f_relay : string;
  f_snapshot : IngestCheckpoint;
  f_written : bool;
}.

Record tracker := mkTracker {
  byRelay : gmap string relayCheckpointState;
  store : cstore;
  flights : list flight;
}.

Definition normalizeRelayState (state : string) : string :=
  if bool_decide (state = "healthy") || bool_decide (state = "lagging") then CheckpointHealthy
  else if bool_decide (state = "connecting") then CheckpointConnecting
  else if bool_decide (state = "backing_off") then CheckpointBackingOff
  else if bool_decide (state = "errored") then CheckpointErrored
  else if bool_decide (state = "disconnected") then CheckpointDisconnected
  else if bool_decide (state = "disabled") then CheckpointDisconnected
  else state.

Definition becameDisconnected (prev next : string) : bool :=
  let prev := trim_space prev in
  let next := trim_space next in
  if negb (bool_decide (prev = CheckpointHealthy)) then false
  else bool_decide (next = CheckpointErrored) || bool_decide (next = CheckpointBackingOff)
       || bool_decide (next = CheckpointDisconnected).

(** What a call observes of its environment: the clock, the clock as read when
    a relay's state is created, and a failure of the store read. *)
Record env := mkEnv {
  e_now : time;
  e_now_ensure : time;
  e_read_fault : option error;
}.

Section tracker.
Context (filterGroup : string) (flushEvery : Z).

(** [ensureRelayStateLocked]: a failing read is ignored. *)
Definition ensureRelayState (e : env) (t : tracker) (relayURL : string)
    : tracker * relayCheckpointState :=
  match byRelay t !! relayURL with
  | Some st => (t, st)
  | None =>
      let base :=
        mkCheckpoint relayURL ModeLive filterGroup None None None None None None None None
          CheckpointConnecting None None 0 (e_now_ensure e) in
      let base :=
        match GetIngestCheckpoint (e_read_fault e) (store t) relayURL ModeLive filterGroup with
        | Ok (Some existing) => existing
        | _ => base
        end in
      let st := mkRelayState base 0 false in
      (mkTracker (<[relayURL := st]> (byRelay t)) (store t) (flights t), st)
  end.

Definition put (t : tracker) (relayURL : string) (st : relayCheckpointState) : tracker :=
  mkTracker (<[relayURL := st]> (byRelay t)) (store t) (flights t).

Definition processed (c : IngestCheckpoint) (eventID : string) (createdAt now : Z)
    : IngestCheckpoint :=
  mkCheckpoint (RelayURL c) (Mode c) (FilterGroup c)
    (match Since c with
     | None => Some createdAt
     | Some s => if s <? createdAt then Some createdAt else Some s
     end)
    (Until c) (Cursor c)
    (if bool_decide (eventID = "") then LastEventID c else Some eventID)
    (Some now) (LastConnectedAt c) (LastDisconnectedAt c) (EOSESeenAt c)
    CheckpointHealthy None (LastErrorAt c) (ReconnectCount c) now.

(** The critical section of [MarkEventProcessed], and whether to flush. *)
Definition mark_locked (e : env) (t : tracker) (relayURL eventID : string) (createdAt : Z)
    : tracker * bool :=
  let eventID := trim_space eventID in
  let createdAt := if createdAt <? 0 then 0 else createdAt in
  let '(t, st) := ensureRelayState e t relayURL in
  let shouldFlush :=
    time_is_zero (lastFlush st) || (flushEvery <=? time_sub (e_now e) (lastFlush st)) in
  (put t relayURL
     (mkRelayState (processed (checkpoint st) eventID createdAt (e_now e)) (lastFlush st) true),
   shouldFlush).

Definition status_checkpoint (c : IngestCheckpoint) (state lastError : string) (now : time)
    : IngestCheckpoint :=
  let prevStatus := Status c in
  let status := normalizeRelayState state in
  let lastError := trim_space lastError in
  mkCheckpoint (RelayURL c) (Mode c) (FilterGroup c) (Since c) (Until c) (Cursor c)
    (LastEventID c) (LastProgressAt c)
    (if bool_decide (state = "healthy") then Some now else LastConnectedAt c)
    (if becameDisconnected prevStatus status || bool_decide (state = "disconnected")
     then Some now else LastDisconnectedAt c)
    (EOSESeenAt c) status
    (if bool_decide (lastError = "") then None else Some lastError)
    (if bool_decide (lastError = "") then None else Some now)
    (if bool_decide (state = "connecting") then i64 (ReconnectCount c + 1) else ReconnectCount c)
    now.

(** The critical section of [SetRelayStatus]. *)
Definition status_locked (e : env) (t : tracker) (relayURL state lastError : string) : tracker :=
  let '(t, st) := ensureRelayState e t relayURL in
  put t relayURL
    (mkRelayState (status_checkpoint (checkpoint st) state lastError (e_now e)) (lastFlush st) true).

(** First critical section of [FlushRelay]: the snapshot, when dirty. *)
Definition flush_begin (e : env) (t : tracker) (relayURL : string)
    : tracker * option IngestCheckpoint :=
  let '(t, st) := ensureRelayState e t relayURL in
  (t, if dirty st then Some (checkpoint st) else None).

(** Second critical section. *)
Definition flush_end (e : env) (t : tracker) (relayURL : string) (snapshot : IngestCheckpoint)
    : tracker :=
  let '(t, st) := ensureRelayState e t relayURL in
  put t relayURL
    (mkRelayState (checkpoint st) (e_now e)
       (if UpdatedAt snapshot <? UpdatedAt (checkpoint st) then dirty st else false)).

(** ** Sequential operations *)

(** An update reads the environment [e], the flush that follows it [ef]. *)

Definition FlushRelay (e : env) (wall : time) (writeFault : option error) (t : tracker)
    (relayURL : string) : tracker * result unit :=
  let relayURL := trim_space relayURL in
  if bool_decide (relayURL = "") then (t, Err "relay url is required")
  else
    match flush_begin e t relayURL with
    | (t, None) => (t, Ok tt)
    | (t, Some snapshot) =>
        match UpsertIngestCheckpoint wall writeFault (store t) snapshot with
        | Err err => (t, Err ("upsert live checkpoint relay " +:+ relayURL +:+ ": " +:+ err))
        | Ok st =>
            (flush_end e (mkTracker (byRelay t) st (flights t)) relayURL snapshot, Ok tt)
        end
    end.

Definition MarkEventProcessed (e ef : env) (wall : time) (writeFault : option error) (t : tracker)
    (relayURL eventID : string) (createdAt : Z) : tracker * result unit :=
  let relayURL := trim_space relayURL in
  if bool_decide (relayURL = "") then (t, Err "relay url is required")
  else
    let '(t, shouldFlush) := mark_locked e t relayURL eventID createdAt in
    if negb shouldFlush then (t, Ok tt) else FlushRelay ef wall writeFault t relayURL.

Definition SetRelayStatus (e ef : env) (wall : time) (writeFault : option error) (t : tracker)
    (relayURL state lastError : string) : tracker * result unit :=
  let relayURL := trim_space relayURL in
  if bool_decide (relayURL = "") then (t, Err "relay url is required")
  else FlushRelay ef wall writeFault (status_locked e t relayURL state lastError) relayURL.

(** Every relay is flushed; the first error is returned. *)
Fixpoint flush_relays (e : env) (wall : time) (writeFault : string → option error) (t : tracker)
    (relays : list string) (firstErr : option error) : tracker * option error :=
  match relays with
  | [] => (t, firstErr)
  | r :: relays' =>
      match FlushRelay e wall (writeFault r) t r with
      | (t', Ok _) => flush_relays e wall writeFault t' relays' firstErr
      | (t', Err err) =>
          flush_relays e wall writeFault t' relays'
            (match firstErr with None => Some err | Some _ => firstErr end)
      end
  end.

Definition FlushAll (e : env) (wall : time) (writeFault : string → option error) (t : tracker)
    : tracker * option error :=
  flush_relays e wall writeFault t (map fst (map_to_list (byRelay t))) None.

(** ** Interleavings *)

Inductive label :=
| LMark (e : env) (relayURL eventID : string) (createdAt : Z)
| LStatus (e : env) (relayURL state lastError : string)
| LFlushBegin (e : env) (relayURL : string)
| LFlushWrite (i : nat) (wall : time) (fault : option error)
| LFlushEnd (i : nat) (e : env).

Definition remove_at {A} (i : nat) (l : list A) : list A := take i l ++ drop (S i) l.

(** One atomic step of some caller; a step that names no flight, or an empty
    relay, does nothing. *)
Definition step (t : tracker) (l : label) : tracker :=
  match l with
  | LMark e r ev ca =>
      let r := trim_space r in
      if bool_decide (r = "") then t else (mark_locked e t r ev ca).1
  | LStatus e r st err =>
      let r := trim_space r in
      if bool_decide (r = "") then t else status_locked e t r st err
  | LFlushBegin e r =>
      let r := trim_space r in
      if bool_decide (r = "") then t
      else match flush_begin e t r with
           | (t, None) => t
           | (t, Some snap) => mkTracker (byRelay t) (store t) (flights t ++ [mkFlight r snap false])
           end
  | LFlushWrite i wall fault =>
      match flights t !! i with
      | Some f =>
          if f_written f then t
          else match UpsertIngestCheckpoint wall fault (store t) (f_snapshot f) with
               | Ok st => mkTracker (byRelay t) st
                            (<[i := mkFlight (f_relay f) (f_snapshot f) true]> (flights t))
               | Err _ => mkTracker (byRelay t) (store t) (remove_at i (flights t))
               end
      | None => t
      end
  | LFlushEnd i e =>
      match flights t !! i with
      | Some f =>
          if f_written f then
            let t' := flush_end e t (f_relay f) (f_snapshot f) in
            mkTracker (byRelay t') (store t') (remove_at i (flights t'))
          else t
      | None => t
      end
  end.
End tracker.

(** * Resume cursor *)

Record SinceResolution := mkSince {
  RSince : Z;
  Strategy : string;
  CheckpointSince : option Z;
  BootstrapLookbackSeconds : Z;
  OverlapSeconds : Z;
}.

Definition ResolveSince (filterGroup : string) (bootstrap overlap : Z) (now : time)
    (fault : option error) (st : cstore) (relayURL : string) : result SinceResolution :=
  match GetIngestCheckpoint fault st relayURL ModeLive filterGroup with
  | Err e => Err ("load live checkpoint: " +:+ e)
  | Ok c =>
      match c ≫= Since with
      | Some cs =>
          let since := i64 (cs - overlap) in
          let since := if since <? 0 then 0 else since in
          Ok (mkSince since "checkpoint" (Some cs) bootstrap overlap)
      | None =>
          let since := i64 (time_unix now - bootstrap) in
          let since := if since <? 0 then 0 else since in
          Ok (mkSince since "bootstrap_lookback" None bootstrap overlap)
      end
  end.

(** The checks of the two constructors. *)
Definition NewCheckpointTracker (filterGroup : string) (flushEvery : Z)
    : result (string * Z) :=
  let filterGroup := trim_space filterGroup in
  if bool_decide (filterGroup = "") then Err "filter group is required"
  else Ok (filterGroup, if flushEvery <=? 0 then 5 * second else flushEvery).

Definition NewResumeSinceResolver (filterGroup : string) (bootstrap overlap : Z)
    : result (string * Z * Z) :=
  let filterGroup := trim_space filterGroup in
  if bool_decide (filterGroup = "") then Err "filter group is required"
  else if bootstrap <=? 0 then Err "bootstrap lookback must be > 0"
  else if overlap <? 0 then Err "resume overlap must be >= 0"
  else Ok (filterGroup, bootstrap, overlap).

(** * Lemmas *)

Definition start (st : cstore) : tracker := mkTracker ∅ st [].

(** The clean row keys: a stored row carries the key it is stored under. *)
Definition row_keyed (k : ckey) (c : IngestCheckpoint) : Prop :=
  (RelayURL c, Mode c, FilterGroup c) = k.

Section tracker_lemmas.
Context (filterGroup : string) (flushEvery : Z).
Context (Hfg : trim_space filterGroup = filterGroup) (Hfg0 : filterGroup ≠ "").

Definition live_key (r : string) : ckey := (r, ModeLive, filterGroup).

Definition relay_ok (r : string) : Prop := trim_space r = r ∧ r ≠ "".

Lemma relay_ok_trim r : trim_space r ≠ "" → relay_ok (trim_space r).
Proof. intros Hr. split; [apply trim_space_idem|done]. Qed.

(** A property of checkpoints, per relay, that survives all steps when event
    processing and status changes establish it. *)
Record tracker_inv (P : string → IngestCheckpoint → Prop) (t : tracker) : Prop := {
  ti_mem : ∀ r st, byRelay t !! r = Some st → relay_ok r ∧ row_keyed (live_key r) (checkpoint st) ∧ P r (checkpoint st);
  ti_store : ∀ r c, store t !! live_key r = Some c → row_keyed (live_key r) c ∧ P r c;
  ti_flights : ∀ f, f ∈ flights t → relay_ok (f_relay f) ∧
                 row_keyed (live_key (f_relay f)) (f_snapshot f) ∧ P (f_relay f) (f_snapshot f);
}.

(** What [P] may depend on: the resume cursor only. *)
Definition since_only (P : string → IngestCheckpoint → Prop) : Prop :=
  (∀ r c c', Since c = Since c' → P r c → P r c') ∧ (∀ r c, Since c = None → P r c).

Context (P : string → IngestCheckpoint → Prop) (HP : since_only P).

Lemma Get_live r fault st :
  relay_ok r →
  GetIngestCheckpoint fault st r ModeLive filterGroup
  = match fault with Some e => Err ("select checkpoint: " +:+ e) | None => Ok (st !! live_key r) end.
Proof.
  intros [Hr Hr0]. unfold GetIngestCheckpoint. rewrite Hr, Hfg. change (trim_space ModeLive) with ModeLive.
  rewrite !bool_decide_eq_false_2 by done. done.
Qed.

Lemma ensure_inv e t r :
  tracker_inv P t → relay_ok r →
  tracker_inv P (ensureRelayState filterGroup e t r).1 ∧
  row_keyed (live_key r) (checkpoint (ensureRelayState filterGroup e t r).2) ∧
  P r (checkpoint (ensureRelayState filterGroup e t r).2).
Proof.
  intros Hinv Hr. unfold ensureRelayState. destruct (byRelay t !! r) as [st|] eqn:E.
  { split; [done|]. by apply (ti_mem _ _ Hinv). }
  rewrite (Get_live r _ _ Hr).
  set (base := match _ with Ok (Some existing) => existing | _ => _ end).
  assert (row_keyed (live_key r) base ∧ P r base) as [Hk HPb].
  { unfold base. destruct (e_read_fault e); [split; [done|]; by apply (proj2 HP)|].
    destruct (store t !! live_key r) as [c|] eqn:Es; [by apply (ti_store _ _ Hinv)|].
    split; [done|]. by apply (proj2 HP). }
  clearbody base. simpl. split; [|done]. destruct Hinv as [Hm Hs Hf]. split; simpl; [|done|done].
  intros r' st'. destruct (decide (r = r')) as [<-|Hne].
  - rewrite lookup_insert_eq. by intros [= <-].
  - rewrite lookup_insert_ne by done. apply Hm.
Qed.

Lemma put_inv t r st :
  tracker_inv P t → relay_ok r → row_keyed (live_key r) (checkpoint st) → P r (checkpoint st) →
  tracker_inv P (put t r st).
Proof.
  intros [Hm Hs Hf] Hr Hk HPc. split; simpl; [|done|done]. intros r' st'.
  destruct (decide (r = r')) as [<-|Hne].
  - rewrite lookup_insert_eq. by intros [= <-].
  - rewrite lookup_insert_ne by done. apply Hm.
Qed.

Lemma mark_inv e t r ev ca :
  tracker_inv P t → relay_ok r →
  (∀ c, P r c → P r (processed c (trim_space ev) (if ca <? 0 then 0 else ca) (e_now e))) →
  tracker_inv P (mark_locked filterGroup flushEvery e t r ev ca).1.
Proof.
  intros Hinv Hr Hpr. unfold mark_locked.
  destruct (ensure_inv e t r Hinv Hr) as (H1 & H2 & H3).
  destruct (ensureRelayState filterGroup e t r) as [t1 st]. simpl in *.
  apply put_inv; [done|done|exact H2|]. simpl. auto.
Qed.

Lemma status_inv e t r s err :
  tracker_inv P t → relay_ok r → tracker_inv P (status_locked filterGroup e t r s err).
Proof.
  intros Hinv Hr. unfold status_locked. destruct (ensure_inv e t r Hinv Hr) as (H1 & H2 & H3).
  destruct (ensureRelayState filterGroup e t r) as [t1 st]. simpl in *.
  apply put_inv; [done|done|exact H2|]. by eapply (proj1 HP); [|exact H3].
Qed.

Lemma upsert_inv t wall fault snap r st :
  tracker_inv P t → relay_ok r → row_keyed (live_key r) snap → P r snap →
  UpsertIngestCheckpoint wall fault (store t) snap = Ok st →
  (∀ r' c, st !! live_key r' = Some c → row_keyed (live_key r') c ∧ P r' c) ∧
  ∃ c, st !! live_key r = Some c ∧ Since c = Since snap.
Proof.
  intros Hinv [Hr Hr0] Hk HPs. unfold row_keyed, live_key in Hk. injection Hk as K1 K2 K3.
  unfold UpsertIngestCheckpoint. rewrite K1, K2, K3, Hr, Hfg.
  change (trim_space ModeLive) with ModeLive.
  rewrite !bool_decide_eq_false_2 by done. simpl. case_bool_decide; [done|].
  destruct fault; [done|]. intros [= <-]. unfold live_key in *. split.
  - intros r' c. destruct (decide (r = r')) as [<-|Hne].
    + rewrite lookup_insert_eq. intros [= <-]. split; [done|]. by eapply (proj1 HP); [|exact HPs].
    + rewrite lookup_insert_ne by congruence. apply (ti_store _ _ Hinv).
  - eexists. by rewrite lookup_insert_eq.
Qed.

Lemma elem_of_remove_at {A} i (l : list A) x : x ∈ remove_at i l → x ∈ l.
Proof.
  unfold remove_at. rewrite elem_of_app. intros [Hx|Hx].
  - apply elem_of_take in Hx as (j & Hj & _). by eapply list_elem_of_lookup_2.
  - apply list_elem_of_lookup in Hx as [j Hj]. rewrite lookup_drop in Hj.
    by eapply list_elem_of_lookup_2.
Qed.

Lemma step_inv t l :
  tracker_inv P t →
  (∀ e r ev ca c, l = LMark e r ev ca → P (trim_space r) c →
     P (trim_space r) (processed c (trim_space ev) (if ca <? 0 then 0 else ca) (e_now e))) →
  tracker_inv P (step filterGroup flushEvery t l).
Proof.
  intros Hinv Hmark. destruct l as [e r ev ca|e r s err|e r|i wall fault|i e]; simpl.
  - case_bool_decide as Hr; [done|]. apply mark_inv; [done|by apply relay_ok_trim|].
    intros c. by eapply Hmark.
  - case_bool_decide as Hr; [done|]. by apply status_inv; [|apply relay_ok_trim].
  - case_bool_decide as Hr; [done|]. apply relay_ok_trim in Hr.
    unfold flush_begin. destruct (ensure_inv e t _ Hinv Hr) as (H1 & H2 & H3).
    destruct (ensureRelayState filterGroup e t (trim_space r)) as [t1 st]. simpl in *.
    destruct (dirty st); [|done]. destruct H1 as [Hm Hs Hf]. split; simpl; [done|done|].
    intros f. rewrite elem_of_app, list_elem_of_singleton. intros [Hin| ->]; [auto|done].
  - destruct (flights t !! i) as [f|] eqn:Ef; [|done]. destruct (f_written f); [done|].
    assert (f ∈ flights t) as Hin by (by eapply list_elem_of_lookup_2).
    pose proof Hinv as [Hm Hs Hf]. destruct (Hf f Hin) as (Hr & Hk & HPs).
    destruct (UpsertIngestCheckpoint wall fault (store t) (f_snapshot f)) as [st|err] eqn:Eu.
    + destruct (upsert_inv t wall fault _ _ st Hinv Hr Hk HPs Eu) as [Hst _].
      split; simpl; [done|done|]. intros g Hg.
      apply list_elem_of_lookup in Hg as [j Hj]. destruct (decide (i = j)) as [<-|Hne].
      * rewrite list_lookup_insert_eq in Hj by (by eapply lookup_lt_Some).
        injection Hj as <-. done.
      * rewrite list_lookup_insert_ne in Hj by done. by eapply Hf, list_elem_of_lookup_2.
    + split; simpl; [done|done|]. intros g Hg. by eapply Hf, elem_of_remove_at.
  - destruct (flights t !! i) as [f|] eqn:Ef; [|done]. destruct (f_written f); [|done].
    assert (f ∈ flights t) as Hin by (by eapply list_elem_of_lookup_2).
    destruct (ti_flights _ _ Hinv f Hin) as (Hr & Hk & HPs).
    assert (tracker_inv P (flush_end filterGroup e t (f_relay f) (f_snapshot f))) as [Hm Hs Hf].
    { unfold flush_end. destruct (ensure_inv e t _ Hinv Hr) as (H1 & H2 & H3).
      destruct (ensureRelayState filterGroup e t (f_relay f)) as [t1 st]. simpl in *.
      by apply put_inv. }
    split; simpl; [done|done|]. intros g Hg. by eapply Hf, elem_of_remove_at.
Qed.
End tracker_lemmas.

(** * Guarantees *)

(** The cursor of a checkpoint is the one stored at the start or the
    [created_at] of an event processed from that relay. *)
Definition justified (filterGroup : string) (st0 : cstore) (ls : list label) (r : string)
    (c : IngestCheckpoint) : Prop :=
  ∀ v, Since c = Some v →
    (∃ c0, st0 !! (r, ModeLive, filterGroup) = Some c0 ∧ Since c0 = Some v) ∨
    (∃ e r' ev ca, LMark e r' ev ca ∈ ls ∧ trim_space r' = r ∧ v = Z.max 0 ca).

Lemma justified_since_only fg st0 ls : since_only (justified fg st0 ls).
Proof.
  split.
  - intros r c c' E H v Hv. apply H. congruence.
  - intros r c E v Hv. congruence.
Qed.

Lemma justified_run fg fe st0 ls :
  trim_space fg = fg → fg ≠ "" →
  (∀ r c, st0 !! (r, ModeLive, fg) = Some c → row_keyed (r, ModeLive, fg) c) →
  tracker_inv fg (justified fg st0 ls) (foldl (step fg fe) (start st0) ls).
Proof.
  intros Hfg Hfg0 Hst.
  assert (∀ pre post, ls = pre ++ post →
    tracker_inv fg (justified fg st0 ls) (foldl (step fg fe) (start st0) pre)) as Hgen.
  2:{ by apply (Hgen ls []); rewrite app_nil_r. }
  induction pre as [|l pre IH] using rev_ind; intros post Hls.
  - split; simpl; [set_solver| |set_solver].
    intros r c Hc. split; [by apply Hst|]. intros v Hv. left. by exists c.
  - rewrite foldl_app. simpl. apply step_inv; try done; [apply justified_since_only| |].
    + apply (IH (l :: post)). by rewrite Hls, <-app_assoc.
    + intros e r ev ca c -> Hj v Hv. simpl in Hv.
      assert (v = Z.max 0 ca ∨ Since c = Some v) as [->|Hc].
      { destruct (ca <? 0) eqn:Eca; bool_simpl; destruct (Since c) as [s|];
          [destruct (s <? 0) eqn:Es|..|destruct (s <? ca) eqn:Es|]; simplify_eq; bool_simpl;
          first [by right|left; lia]. }
      * right. exists e, r, ev, ca. split; [|done]. rewrite Hls. set_solver.
      * by apply Hj.
Qed.

Section guarantees.
Context (filterGroup : string) (flushEvery : Z).
Context (Hfg : trim_space filterGroup = filterGroup) (Hfg0 : filterGroup ≠ "").

(** In every interleaving of event processing, status changes and
    concurrent flushes, with any store failures, the cursor a relay resumes
    from is at most the overlap behind, and never ahead of, a [created_at]
    processed from that relay or the cursor stored before the start. *)
Theorem resume_cursor_justified (st0 : cstore) ls bootstrap overlap now r res :
  (∀ r c, st0 !! (r, ModeLive, filterGroup) = Some c → row_keyed (r, ModeLive, filterGroup) c) →
  0 ≤ overlap ≤ max_int64 → trim_space r = r →
  ResolveSince filterGroup bootstrap overlap now None
    (store (foldl (step filterGroup flushEvery) (start st0) ls)) r = Ok res →
  Strategy res = "checkpoint" →
  ∃ v, CheckpointSince res = Some v ∧
    (0 ≤ v ≤ max_int64 → RSince res = Z.max 0 (v - overlap)) ∧
    ((∃ c0, st0 !! (r, ModeLive, filterGroup) = Some c0 ∧ Since c0 = Some v) ∨
     (∃ e r' ev ca, LMark e r' ev ca ∈ ls ∧ trim_space r' = r ∧ v = Z.max 0 ca)).
Proof.
  intros Hst Hov Hr. pose proof (justified_run filterGroup flushEvery st0 ls Hfg Hfg0 Hst) as Hinv.
  set (t := foldl _ _ _) in *. unfold ResolveSince, GetIngestCheckpoint. rewrite Hr, Hfg.
  change (trim_space ModeLive) with ModeLive.
  destruct (_ || _); [done|]. destruct (store t !! (r, ModeLive, filterGroup)) as [c|] eqn:Ec;
    cbn [mbind option_bind]; [|by intros [= <-]].
  destruct (Since c) as [v|] eqn:Ev; [|by intros [= <-]].
  intros [= <-] _. exists v. split; [done|]. split.
  - intros Hv. simpl. rewrite i64_id by (unfold min_int64, max_int64, two63 in *; lia).
    destruct (_ <? 0) eqn:E; bool_simpl; lia.
  - apply (ti_store _ _ _ Hinv) in Ec as [_ Hj]. by apply Hj.
Qed.

(** The in-memory cursor of a relay never moves backwards, whatever the
    interleaving. *)
Theorem since_monotone t l r st v :
  byRelay t !! r = Some st → Since (checkpoint st) = Some v →
  ∃ st' v', byRelay (step filterGroup flushEvery t l) !! r = Some st' ∧
    Since (checkpoint st') = Some v' ∧ v ≤ v'.
Proof.
  intros Hr Hv.
  assert (∀ e r', byRelay (ensureRelayState filterGroup e t r').1 !! r = Some st) as Hens.
  { intros e r'. unfold ensureRelayState. destruct (byRelay t !! r') eqn:E; [done|]. simpl.
    rewrite lookup_insert_ne by congruence. done. }
  assert (∀ e, (ensureRelayState filterGroup e t r).2 = st) as Hsame.
  { intros e. unfold ensureRelayState. by rewrite Hr. }
  assert (∀ e r' f, (∀ c, Since c = Some v → ∃ v', Since (checkpoint (f c)) = Some v' ∧ v ≤ v') →
    let '(t1, st1) := ensureRelayState filterGroup e t r' in
    ∃ st' v', byRelay (put t1 r' (f (checkpoint st1))) !! r = Some st' ∧
      Since (checkpoint st') = Some v' ∧ v ≤ v') as Hput.
  { intros e r' f Hf. specialize (Hens e r'). specialize (Hsame e).
    destruct (ensureRelayState filterGroup e t r') as [t1 st1] eqn:E. simpl in *.
    destruct (decide (r' = r)) as [->|Hne].
    - rewrite E in Hsame. simpl in Hsame. subst st1. destruct (Hf _ Hv) as (v' & Hv' & Hle).
      eexists _, v'. by rewrite lookup_insert_eq.
    - exists st, v. by rewrite lookup_insert_ne. }
  destruct l as [e r' ev ca|e r' s err|e r'|i wall fault|i e]; simpl.
  - case_bool_decide; [by exists st, v|]. unfold mark_locked.
    set (r1 := trim_space r'). set (c1 := if ca <? 0 then 0 else ca).
    specialize (Hput e r1). destruct (ensureRelayState filterGroup e t r1) as [t1 st1]. simpl.
    apply (Hput (λ c, mkRelayState (processed c (trim_space ev) c1 (e_now e)) (lastFlush st1) true)).
    intros c Hc. simpl. rewrite Hc. destruct (v <? c1) eqn:E; bool_simpl; eexists; (split; [done|lia]).
  - case_bool_decide; [by exists st, v|]. unfold status_locked. specialize (Hput e (trim_space r')).
    destruct (ensureRelayState filterGroup e t (trim_space r')) as [t1 st1]. simpl.
    apply (Hput (λ c, mkRelayState (status_checkpoint c s err (e_now e)) (lastFlush st1) true)).
    intros c Hc. by exists v.
  - case_bool_decide; [by exists st, v|]. unfold flush_begin. specialize (Hens e (trim_space r')).
    destruct (ensureRelayState filterGroup e t (trim_space r')) as [t1 st1].
    destruct (dirty st1); simpl in *; by exists st, v.
  - destruct (flights t !! i) as [f|]; [|by exists st, v].
    destruct (f_written f); [by exists st, v|].
    destruct (UpsertIngestCheckpoint _ _ _ _); by exists st, v.
  - destruct (flights t !! i) as [f|]; [|by exists st, v].
    destruct (f_written f); [|by exists st, v]. simpl. unfold flush_end.
    specialize (Hput e (f_relay f)).
    destruct (ensureRelayState filterGroup e t (f_relay f)) as [t1 st1]. simpl.
    apply (Hput (λ c, mkRelayState c (e_now e) _)). intros c Hc. by exists v.
Qed.

(** A flush that runs undisturbed and succeeds leaves the relay clean, and
    what it persisted is the relay's checkpoint. *)
Theorem flush_persists e wall fault t r t' :
  tracker_inv filterGroup (λ _ _, True) t → trim_space r ≠ "" →
  FlushRelay filterGroup e wall fault t r = (t', Ok tt) →
  ∃ st, byRelay t' !! trim_space r = Some st ∧ dirty st = false ∧
    (∀ st0, byRelay t !! trim_space r = Some st0 → dirty st0 = true →
       checkpoint st = checkpoint st0 ∧
       ∃ c, store t' !! (trim_space r, ModeLive, filterGroup) = Some c ∧
            Since c = Since (checkpoint st) ∧ LastEventID c = LastEventID (checkpoint st)).
Proof.
  intros Hinv Hr0. pose proof (relay_ok_trim r Hr0) as Hr. unfold FlushRelay.
  rewrite bool_decide_eq_false_2 by done. unfold flush_begin.
  set (k := trim_space r) in *.
  assert (since_only (λ _ _, True)) as Htriv by done.
  destruct (ensure_inv filterGroup Hfg Hfg0 _ Htriv e t k Hinv Hr) as (H1 & H2 & _).
  assert (byRelay (ensureRelayState filterGroup e t k).1 !! k
          = Some (ensureRelayState filterGroup e t k).2 ∧
          store (ensureRelayState filterGroup e t k).1 = store t ∧
          ∀ st0, byRelay t !! k = Some st0 → (ensureRelayState filterGroup e t k).2 = st0)
    as (Hk & Hst & Hold).
  { unfold ensureRelayState. destruct (byRelay t !! k) eqn:E; simpl; [naive_solver|].
    rewrite lookup_insert_eq. naive_solver. }
  destruct (ensureRelayState filterGroup e t k) as [t1 st1]. simpl in *.
  destruct (dirty st1) eqn:Ed.
  2:{ intros [= <-]. exists st1. split_and!; [done|done|]. intros st0 E0 D0.
      rewrite (Hold _ E0) in Ed. congruence. }
  destruct (UpsertIngestCheckpoint wall fault (store t1) (checkpoint st1)) as [st|err] eqn:Eu; [|done].
  intros [= <-]. unfold flush_end, ensureRelayState. simpl. rewrite Hk. simpl.
  rewrite lookup_insert_eq. eexists. split; [done|]. simpl. rewrite Z.ltb_irrefl.
  split; [done|]. intros st0 E0 _. rewrite (Hold _ E0) in *. split; [done|].
  revert Eu. unfold UpsertIngestCheckpoint. injection H2 as K1 K2 K3. destruct Hr as [Hr _].
  rewrite K1, K2, K3, Hr, Hfg. change (trim_space ModeLive) with ModeLive.
  destruct (_ || _); [done|]. case_bool_decide; [done|]. destruct fault; [done|].
  intros [= <-]. eexists. by rewrite lookup_insert_eq.
Qed.
End guarantees.

(** ** Concurrent flushes *)

Definition at_time (n : Z) : env := mkEnv n n None.

(** Two flushes of one relay whose writes are reordered. *)
Definition reordered_flushes : list label :=
  [LMark (at_time 10) "wss://r" "e1" 100; LFlushBegin (at_time 11) "wss://r";
   LMark (at_time 12) "wss://r" "e2" 200; LFlushBegin (at_time 13) "wss://r";
   LFlushWrite 1 14 None; LFlushWrite 0 15 None;
   LFlushEnd 1 (at_time 16); LFlushEnd 0 (at_time 17)].

(** Concurrent flushes of one relay can lose progress silently: the store
    keeps the older snapshot while the tracker considers the relay clean, with
    no flush under way, so nothing rewrites it until the next event. *)
Theorem concurrent_flush_loses_progress :
  let t := foldl (step "live" 5) (start ∅) reordered_flushes in
  flights t = [] ∧
  ∃ st c, byRelay t !! "wss://r" = Some st ∧ dirty st = false ∧
    Since (checkpoint st) = Some 200 ∧
    store t !! ("wss://r", ModeLive, "live") = Some c ∧ Since c = Some 100.
Proof. vm_compute. eauto 10. Qed.

(** A failing read when the relay's state is created is ignored, and the
    stored cursor is then overwritten by the first event. *)
Example read_failure_rewinds :
  let c0 := mkCheckpoint "wss://r" ModeLive "live" (Some 900) None None None None None None None
              "healthy" None None 4 1 in
  let st0 : cstore := {[ ("wss://r", ModeLive, "live") := c0 ]} in
  let e := mkEnv 10 10 (Some "timeout") in
  let t := (MarkEventProcessed "live" 5 e (at_time 11) 12 None (start st0) "wss://r" "e1" 300).1 in
  ∃ c, store t !! ("wss://r", ModeLive, "live") = Some c ∧ Since c = Some 300 ∧ ReconnectCount c = 0.
Proof. vm_compute. eauto 10. Qed.

(** ** Witnesses *)

Lemma resume_cursor_justified_witness :
  ∃ v, v = 200 ∧
    ((∃ c0 : IngestCheckpoint, (∅ : cstore) !! ("wss://r", ModeLive, "live") = Some c0 ∧ Since c0 = Some v) ∨
     (∃ e r' ev ca, LMark e r' ev ca ∈ take 7 reordered_flushes ∧ trim_space r' = "wss://r" ∧ v = Z.max 0 ca)).
Proof.
  destruct (resume_cursor_justified "live" 5 eq_refl ltac:(discriminate) ∅
              [LMark (at_time 12) "wss://r" "e2" 200; LFlushBegin (at_time 13) "wss://r";
               LFlushWrite 0 14 None] 60 30 99 "wss://r"
              (mkSince 170 "checkpoint" (Some 200) 60 30)) as (v & Hv & _ & Hj).
  - intros r c Hc. rewrite lookup_empty in Hc. discriminate.
  - split; discriminate.
  - reflexivity.
  - vm_compute. reflexivity.
  - reflexivity.
  - injection Hv as <-. exists 200. split; [reflexivity|].
    destruct Hj as [Hj|(e & r' & ev & ca & _ & Hr & Hc)]; [left; exact Hj|right].
    exists (at_time 12), "wss://r", "e2", 200. split; [|split; reflexivity].
    vm_compute. right. right. left.
Defined.

Lemma since_monotone_witness :
  let t := foldl (step "live" 5) (start ∅) [LMark (at_time 1) "wss://r" "a" 50] in
  ∃ st' v', byRelay (step "live" 5 t (LMark (at_time 2) "wss://r" "b" 20)) !! "wss://r" = Some st' ∧
    Since (checkpoint st') = Some v' ∧ 50 ≤ v'.
Proof.
  intros t. eapply (since_monotone "live" 5); vm_compute; reflexivity.
Defined.

Lemma start_inv (fg : string) : tracker_inv fg (λ _ _, True) (start ∅).
Proof. split; simpl; [set_solver| |set_solver]. intros r c. by rewrite lookup_empty. Qed.

Lemma flush_persists_witness :
  let t := step "live" 5 (start ∅) (LMark (at_time 1) "wss://r" "e1" 100) in
  let t' := (FlushRelay "live" (at_time 2) 3 None t " wss://r").1 in
  ∃ c, store t' !! ("wss://r", ModeLive, "live") = Some c ∧ Since c = Some 100.
Proof.
  intros t t'.
  destruct (flush_persists "live" eq_refl ltac:(discriminate) (at_time 2) 3 None t " wss://r" t')
    as (st & Hst & Hd & Hp).
  - apply step_inv; [reflexivity|discriminate|done|apply start_inv|done].
  - vm_compute. discriminate.
  - vm_compute. reflexivity.
  - destruct (Hp _ eq_refl eq_refl) as (Hc & c & H1 & H2 & _). exists c. split; [exact H1|].
    rewrite H2, Hc. reflexivity.
Defined.
