(* ===== verification/Backfill.v ===== *)
(** The backfill runner, [internal/ingestor/backfill/runner.go]: paging through a
    relay's history with a persisted cursor.

    The page fetcher and the message handler are the interfaces of the source:
    any state machines [serve] and [handle]. The checkpoint rows are those of
    [Checkpoints], in a database whose calls may fail. The log is a ghost: it
    records what the runner did, newest first. The loop of a relay has fuel;
    [Theorem backfill_terminates] gives enough of it for any relay whose events
    lie in the requested window. *)

From S2P Require Import Prelude GoLib Json Db Checkpoints.
Local Open Scope go_scope.

(** * Data *)

Record PageRequest := mkRequest {
  QKinds : list Z;
  QAuthors : list string;
  QSince : option Z;
  QUntil : option Z;
  QLimit : Z;
}.

Record PageResult := mkPage {
  Events : list (list Z);
  EOSESeen : bool;
}.

Record BackfillConfig := mkBackfill {
  BRelays : list string;
  BFilterGroup : string;
  BKinds : list Z;
  BMode : string;
  BSince : option Z;
  BUntil : option Z;
  BPageLimit : Z;
  BEmptyPageMax : Z;
}.

Definition ModeBackfill : string := "backfill".
Definition CheckpointRunning : string := "running".
Definition CheckpointCompleted : string := "completed".
Definition CheckpointFailed : string := "failed".

Inductive action :=
  | ASaved (c : IngestCheckpoint)
  | AFetched (relayURL : string) (q : PageRequest) (page : PageResult)
  | AHandled (relayURL : string) (payload : list Z).

Record world (R H : Type) := mkWorld {
  w_db : db (gmap (string * string * string) IngestCheckpoint);
  w_relay : R;
  w_sink : H;
  w_ticks : nat;
  w_log : list action;
}.
Arguments mkWorld {R H}.
Arguments w_db {R H}.
Arguments w_relay {R H}.
Arguments w_sink {R H}.
Arguments w_ticks {R H}.
Arguments w_log {R H}.

(** * Helpers *)

(** [nil] or the fields of a valid configuration. *)
Definition NewRunner (cfg : BackfillConfig) : result BackfillConfig :=
  let mode := if bool_decide (trim_space (BMode cfg) = "") then ModeBackfill else BMode cfg in
  let cfg := mkBackfill (BRelays cfg) (BFilterGroup cfg) (BKinds cfg) mode (BSince cfg) (BUntil cfg)
               (BPageLimit cfg) (BEmptyPageMax cfg) in
  if negb (bool_decide (mode = ModeBackfill)) then
    Err ("mode " +:+ str [34] +:+ mode +:+ str [34] +:+ " is not implemented")
  else if BPageLimit cfg <=? 0 then Err "page limit must be > 0"
  else if BEmptyPageMax cfg <=? 0 then Err "empty page max must be > 0"
  else if bool_decide (trim_space (BFilterGroup cfg) = "") then Err "filter group is required"
  else if bool_decide (BKinds cfg = []) then Err "kinds are required"
  else match BSince cfg, BUntil cfg with
       | Some s, Some u => if u <? s then Err "since must be <= until" else Ok cfg
       | _, _ => Ok cfg
       end.

Definition extractCreatedAt (payload : list Z) : option Z :=
  match json_parse payload with
  | None => None
  | Some v =>
      match decode_struct "created_at" decode_int 0 v with
      | None => None
      | Some createdAt => if createdAt <? 0 then None else Some createdAt
      end
  end.

Definition parseCursorInt64 (cursor : option string) : option Z :=
  match cursor with
  | None => None
  | Some c => parse_int (bytes (trim_space c))
  end.

Definition formatCursor (cursor : option Z) : option string :=
  match cursor with
  | None => None
  | Some v => Some (str (itoa v))
  end.

Definition nextSince (since cursor : option Z) : option Z :=
  match cursor with
  | Some c => Some (i64 (c + 1))
  | None => since
  end.

(** The checkpoint with its status, cursor and time set. *)
Definition mark (status : string) (cursor : option string) (now : time) (c : IngestCheckpoint)
    : IngestCheckpoint :=
  mkCheckpoint (RelayURL c) (Mode c) (FilterGroup c) (Since c) (Until c) cursor (LastEventID c)
    (LastProgressAt c) (LastConnectedAt c) (LastDisconnectedAt c) (EOSESeenAt c) status
    (LastError c) (LastErrorAt c) (ReconnectCount c) now.

Definition set_eose (now : time) (c : IngestCheckpoint) : IngestCheckpoint :=
  mkCheckpoint (RelayURL c) (Mode c) (FilterGroup c) (Since c) (Until c) (Cursor c) (LastEventID c)
    (LastProgressAt c) (LastConnectedAt c) (LastDisconnectedAt c) (Some now) (Status c)
    (LastError c) (LastErrorAt c) (ReconnectCount c) (UpdatedAt c).

(** * The runner *)

Section runner.
Context {R H : Type}.
Context (serve : string → PageRequest → R → R * result PageResult).
Context (handle : string → list Z → H → H * result unit).
Context (clock : nat → time).
Context (ctxErr : nat → option error).
Context (cfg : BackfillConfig).

Definition now_fn : go (world R H) time := λ w,
  (mkWorld (w_db w) (w_relay w) (w_sink w) (S (w_ticks w)) (w_log w), Ok (clock (w_ticks w))).

Definition get_checkpoint (relayURL : string) : go (world R H) (option IngestCheckpoint) := λ w,
  (mkWorld (next (w_db w)) (w_relay w) (w_sink w) (w_ticks w) (w_log w),
   GetIngestCheckpoint (next_fault (w_db w)) (tables (w_db w)) relayURL (BMode cfg) (BFilterGroup cfg)).

Definition save (c : IngestCheckpoint) : go (world R H) unit := λ w,
  match UpsertIngestCheckpoint (clock (w_ticks w)) (next_fault (w_db w)) (tables (w_db w)) c with
  | Ok t => (mkWorld (mkDb t (faults (next (w_db w)))) (w_relay w) (w_sink w) (w_ticks w) (ASaved c :: w_log w), Ok tt)
  | Err e => (mkWorld (next (w_db w)) (w_relay w) (w_sink w) (w_ticks w) (w_log w), Err e)
  end.

Definition fetch_page (relayURL : string) (q : PageRequest) : go (world R H) PageResult := λ w,
  let '(r, res) := serve relayURL q (w_relay w) in
  (mkWorld (w_db w) r (w_sink w) (w_ticks w)
     (match res with Ok p => AFetched relayURL q p :: w_log w | Err _ => w_log w end), res).

Definition on_message (relayURL : string) (payload : list Z) : go (world R H) unit := λ w,
  let '(h, res) := handle relayURL payload (w_sink w) in
  (mkWorld (w_db w) (w_relay w) h (w_ticks w)
     (match res with Ok _ => AHandled relayURL payload :: w_log w | Err _ => w_log w end), res).

Definition ensureRunningCheckpoint (relayURL : string) : go (world R H) IngestCheckpoint :=
  existing <- go_wrap ("load checkpoint relay " +:+ relayURL) (get_checkpoint relayURL) ;;
  match (existing : option IngestCheckpoint) with
  | Some c =>
      now <- now_fn ;;
      let c := mark CheckpointRunning (Cursor c) now c in
      go_wrap ("set running checkpoint relay " +:+ relayURL) (save c) ;;
      go_ret c
  | None =>
      now <- now_fn ;;
      let c := mkCheckpoint relayURL (BMode cfg) (BFilterGroup cfg) (BSince cfg) (BUntil cfg) None None
                 None None None None CheckpointRunning None None 0 now in
      go_wrap ("create checkpoint relay " +:+ relayURL) (save c) ;;
      go_ret c
  end.

(** [persistRunning]; the updated checkpoint is the result. *)
Definition persistRunning (c : IngestCheckpoint) (cursor : option Z) : go (world R H) IngestCheckpoint :=
  now <- now_fn ;;
  let c := mark CheckpointRunning (formatCursor cursor) now c in
  go_wrap ("persist running checkpoint relay " +:+ RelayURL c) (save c) ;;
  go_ret c.

Definition markCompleted (c : IngestCheckpoint) (cursor : option Z) : go (world R H) unit :=
  now <- now_fn ;;
  let c := mark CheckpointCompleted (formatCursor cursor) now c in
  go_wrap ("persist completed checkpoint relay " +:+ RelayURL c) (save c).

Definition markFailed (c : IngestCheckpoint) (cursor : option Z) : go (world R H) unit :=
  now <- now_fn ;;
  save (mark CheckpointFailed (formatCursor cursor) now c).

(** Record the failure, whose own error is dropped, and return [e]. *)
Definition fail_with {A} (c : IngestCheckpoint) (cursor : option Z) (e : error) : go (world R H) A := λ w,
  ((markFailed c cursor w).1, Err e).

Definition max_opt (m : option Z) (v : Z) : option Z :=
  match m with
  | None => Some v
  | Some x => if x <? v then Some v else Some x
  end.

(** The loop over a page: its greatest timestamp. *)
Fixpoint deliver (relayURL : string) (c : IngestCheckpoint) (cursor maxCreatedAt : option Z)
    (events : list (list Z)) : go (world R H) (option Z) :=
  match events with
  | [] => go_ret maxCreatedAt
  | payload :: events => λ w,
      match on_message relayURL payload w with
      | (w, Err e) => fail_with c cursor ("persist page event relay " +:+ relayURL +:+ ": " +:+ e) w
      | (w, Ok _) =>
          match extractCreatedAt payload with
          | None => deliver relayURL c cursor maxCreatedAt events w
          | Some createdAt => deliver relayURL c cursor (max_opt maxCreatedAt createdAt) events w
          end
      end
  end.

Definition advance (cursor maxCreatedAt : option Z) : option Z :=
  match maxCreatedAt with
  | None => cursor
  | Some m => match cursor with
              | None => Some m
              | Some c => if c <? m then Some m else cursor
              end
  end.

Definition exceeds_until (since : option Z) : bool :=
  match BUntil cfg, since with Some u, Some s => u <? s | _, _ => false end.

Definition reached_until (cursor : option Z) : bool :=
  match BUntil cfg, cursor with Some u, Some c => u <=? c | _, _ => false end.

(** Where an iteration leaves the loop. *)
Inductive outcome :=
  | Completed
  | Next (c : IngestCheckpoint) (cursor : option Z) (emptyPages : Z).

Definition set_eose_if (b : bool) (c : IngestCheckpoint) : go (world R H) IngestCheckpoint :=
  if b then (now <- now_fn ;; go_ret (set_eose now c)) else go_ret c.

(** One iteration of the loop. *)
Definition iteration (relayURL : string) (c : IngestCheckpoint) (cursor : option Z) (emptyPages : Z)
    : go (world R H) outcome :=
  let requestSince := nextSince (BSince cfg) cursor in
  if exceeds_until requestSince then (markCompleted c cursor ;; go_ret Completed)
  else λ w,
    match fetch_page relayURL (mkRequest (BKinds cfg) [] requestSince (BUntil cfg) (BPageLimit cfg)) w with
    | (w, Err e) => fail_with c cursor ("fetch page relay " +:+ relayURL +:+ ": " +:+ e) w
    | (w, Ok page) =>
        (maxCreatedAt <- deliver relayURL c cursor None (Events page) ;;
         let cursor := advance cursor maxCreatedAt in
         c <- set_eose_if (EOSESeen page) c ;;
         c <- persistRunning c cursor ;;
         if reached_until cursor then (markCompleted c cursor ;; go_ret Completed)
         else if EOSESeen page then
           if bool_decide (Events page = []) then (markCompleted c cursor ;; go_ret Completed)
           else go_ret (Next c cursor 0)
         else if bool_decide (Events page = []) then
           if BEmptyPageMax cfg <=? emptyPages + 1 then (markCompleted c cursor ;; go_ret Completed)
           else go_ret (Next c cursor (emptyPages + 1))
         else go_ret (Next c cursor 0)) w
    end.

(** [None] when the fuel runs out. *)
Fixpoint relay_loop (fuel : nat) (relayURL : string) (c : IngestCheckpoint) (cursor : option Z)
    (emptyPages : Z) (w : world R H) : option (world R H * result unit) :=
  match fuel with
  | O => None
  | S fuel =>
      match iteration relayURL c cursor emptyPages w with
      | (w, Err e) => Some (w, Err e)
      | (w, Ok Completed) => Some (w, Ok tt)
      | (w, Ok (Next c cursor emptyPages)) => relay_loop fuel relayURL c cursor emptyPages w
      end
  end.

Definition runRelay (fuel : nat) (relayURL : string) (w : world R H) : option (world R H * result unit) :=
  match ensureRunningCheckpoint relayURL w with
  | (w, Err e) => Some (w, Err e)
  | (w, Ok c) =>
      if bool_decide (Status c = CheckpointCompleted) then Some (w, Ok tt)
      else relay_loop fuel relayURL c (parseCursorInt64 (Cursor c)) 0 w
  end.

(** [i] counts the relays visited: the context may end between two of them. *)
Fixpoint run_from (fuel i : nat) (relays : list string) (w : world R H) : option (world R H * result unit) :=
  match relays with
  | [] => Some (w, Ok tt)
  | relayURL :: relays =>
      match ctxErr i with
      | Some e => Some (w, Err e)
      | None =>
          match runRelay fuel relayURL w with
          | None => None
          | Some (w, Err e) => Some (w, Err e)
          | Some (w, Ok _) => run_from fuel (S i) relays w
          end
      end
  end.

Definition Run (fuel : nat) (w : world R H) : option (world R H * result unit) :=
  run_from fuel 0 (BRelays cfg) w.
End runner.

(** * Cursors *)

Definition cursor_ok (o : option Z) : Prop := ∀ v, o = Some v → min_int64 ≤ v < max_int64.

(** A cursor survives being written to its row and read back. *)
Lemma parse_format o : cursor_ok o → parseCursorInt64 (formatCursor o) = o.
Proof.
  intros Ho. destruct o as [v|]; [|done]. specialize (Ho v eq_refl). simpl. unfold trim_space.
  pose proof (itoa_visible v) as Hv. pose proof (visible_byte _ Hv) as Hb.
  rewrite (bytes_str (itoa v)), trim_bytes_visible, bytes_str by done.
  apply parse_int_itoa, in_i64_spec. lia.
Qed.

Lemma decode_int_range old v z :
  min_int64 ≤ old ≤ max_int64 → decode_int old v = Some z → min_int64 ≤ z ≤ max_int64.
Proof.
  intros Ho. unfold decode_int, unmarshal_int. destruct v; try done.
  - by intros [= <-].
  - intros Hp. by apply in_i64_spec, (parse_int_range _ _ Hp).
Qed.

Lemma extractCreatedAt_range p v : extractCreatedAt p = Some v → 0 ≤ v ≤ max_int64.
Proof.
  assert (min_int64 ≤ 0 ≤ max_int64) as H0 by (unfold min_int64, max_int64, two63; lia).
  unfold extractCreatedAt, decode_struct. destruct (json_parse p) as [j|]; [|done].
  destruct (match j with JNull => _ | _ => _ end) as [z|] eqn:E; [|done].
  destruct (z <? 0) eqn:Ez; [done|]. bool_simpl. intros [= <-]. split; [done|].
  destruct j as [| | | | |ms]; try done; [injection E as <-; lia|].
  unfold unmarshal_field in E.
  assert (∀ acc r, (∀ a, acc = Some a → min_int64 ≤ a ≤ max_int64) →
    foldl (λ acc kv, match acc with None => None | Some a =>
      if name_matches "created_at" kv.1 then decode_int a kv.2 else Some a end) acc ms = Some r →
    min_int64 ≤ r ≤ max_int64) as Hfold.
  { clear E Ez. induction ms as [|[k v] ms IH]; intros acc r Hacc; simpl; [by apply Hacc|].
    apply IH. intros a. destruct acc as [a0|]; [|done]. simpl.
    destruct (name_matches _ _); [apply decode_int_range; by apply Hacc|]. intros [= <-]. by apply Hacc. }
  apply (Hfold (Some 0) z); [by intros ? [= <-]|exact E].
Qed.

(** * Rows *)

Abbreviation rows := (gmap (string * string * string) IngestCheckpoint) (only parsing).

Definition key_of (c : IngestCheckpoint) : string * string * string :=
  (trim_space (RelayURL c), trim_space (Mode c), trim_space (FilterGroup c)).

Definition stored_cursor (t : rows) (k : string * string * string) : option Z :=
  match t !! k with Some row => parseCursorInt64 (Cursor row) | None => None end.

(** Every row sits at its own key, with a cursor that can be incremented. *)
Definition rows_ok (t : rows) : Prop :=
  ∀ k row, t !! k = Some row → key_of row = k ∧ cursor_ok (parseCursorInt64 (Cursor row)).

(** What one write may do at [k]. *)
Definition writes (k : string * string * string) (cur : option Z) (t t' : rows) : Prop :=
  (t' = t ∨ stored_cursor t' k = cur) ∧ (∀ k', k' ≠ k → t' !! k' = t !! k') ∧ (rows_ok t → rows_ok t').

Lemma Upsert_writes wall fault t c t' :
  UpsertIngestCheckpoint wall fault t c = Ok t' → cursor_ok (parseCursorInt64 (Cursor c)) →
  stored_cursor t' (key_of c) = parseCursorInt64 (Cursor c) ∧ writes (key_of c) (parseCursorInt64 (Cursor c)) t t'.
Proof.
  unfold UpsertIngestCheckpoint. destruct (_ || _); [done|]. case_bool_decide; [done|].
  destruct fault; [done|]. intros [= <-] Hc. unfold writes, stored_cursor, key_of.
  rewrite lookup_insert_eq. simpl. split; [done|]. split; [by right|]. split.
  - intros k' Hk. by rewrite lookup_insert_ne.
  - intros Hok k row Hr. destruct (decide (k = (trim_space (RelayURL c), trim_space (Mode c), trim_space (FilterGroup c)))) as [->|Hne].
    + rewrite lookup_insert_eq in Hr. injection Hr as <-. unfold key_of. simpl. by rewrite !trim_space_idem.
    + rewrite lookup_insert_ne in Hr by done. by apply Hok.
Qed.

Lemma writes_refl k cur t : writes k cur t t.
Proof. split; [by left|]. by split. Qed.

Lemma writes_stored k cur t t' : writes k cur t t' → stored_cursor t k = cur → stored_cursor t' k = cur.
Proof. intros [[->|Hs] _] Hc; done. Qed.

(** * Log *)

Definition fetched (l : list action) (u : string) (p : list Z) : Prop :=
  ∃ q page, AFetched u q page ∈ l ∧ p ∈ Events page.

Definition handled (l : list action) (u : string) (p : list Z) : Prop := AHandled u p ∈ l.

Definition all_handled (l : list action) : Prop := ∀ u p, fetched l u p → handled l u p.

(** Extension of a log without new pages. *)
Definition extends (l l' : list action) : Prop :=
  ∃ new, l' = new ++ l ∧ ∀ u q page, AFetched u q page ∉ new.

Lemma extends_refl l : extends l l.
Proof. exists []. split; [done|]. set_solver. Qed.

Lemma extends_trans l1 l2 l3 : extends l1 l2 → extends l2 l3 → extends l1 l3.
Proof.
  intros (n1 & -> & H1) (n2 & -> & H2). exists (n2 ++ n1). split; [by rewrite app_assoc|].
  intros u q page Hin. apply elem_of_app in Hin as [?|?]; [by eapply H2|by eapply H1].
Qed.

Lemma extends_saved l c : extends l (ASaved c :: l).
Proof. exists [ASaved c]. split; [done|]. set_solver. Qed.

Lemma extends_fetched l l' u p : extends l l' → fetched l' u p → fetched l u p.
Proof.
  intros (new & -> & Hn) (q & page & Hin & Hp). exists q, page. split; [|done].
  apply elem_of_app in Hin as [Hin|?]; [|done]. by apply Hn in Hin.
Qed.

Lemma extends_handled l l' u p : extends l l' → handled l u p → handled l' u p.
Proof. intros (new & -> & _) Hh. unfold handled. set_solver. Qed.

Lemma extends_all l l' : extends l l' → all_handled l → all_handled l'.
Proof. intros He Ha u p Hf. eapply extends_handled; [done|]. by apply Ha, (extends_fetched _ _ _ _ He). Qed.

Section steps.
Context {R H : Type}.
Context (serve : string → PageRequest → R → R * result PageResult).
Context (handle : string → list Z → H → H * result unit).
Context (clock : nat → time).
Context (cfg : BackfillConfig).

Abbreviation wld := (world R H).
Abbreviation wrows w := (tables (w_db w)).

(** A step that may write the row at [k], with cursor [cur], and fetches nothing. *)
Record quiet (k : string * string * string) (cur : option Z) (w w' : wld) : Prop := {
  q_log : extends (w_log w) (w_log w');
  q_rows : writes k cur (wrows w) (wrows w');
}.

Lemma quiet_refl k cur w : quiet k cur w w.
Proof. split; [apply extends_refl|apply writes_refl]. Qed.

Lemma save_quiet c (w w' : wld) r :
  save clock c w = (w', r) → cursor_ok (parseCursorInt64 (Cursor c)) →
  quiet (key_of c) (parseCursorInt64 (Cursor c)) w w' ∧
  (r = Ok tt → stored_cursor (wrows w') (key_of c) = parseCursorInt64 (Cursor c)).
Proof.
  unfold save. intros Hs Hc.
  destruct (UpsertIngestCheckpoint _ _ _ c) as [t|e] eqn:E; injection Hs as <- <-.
  - destruct (Upsert_writes _ _ _ _ _ E Hc) as [Hst Hw]. split; [|done].
    split; [apply extends_saved|done].
  - split; [|done]. split; [apply extends_refl|apply writes_refl].
Qed.

(** Reading the clock changes neither rows nor log. *)
Lemma tick_quiet k cur (w : wld) : quiet k cur w (now_fn clock w).1.
Proof. split; [apply extends_refl|apply writes_refl]. Qed.

Lemma mark_save_quiet status c cursor now (w w' : wld) r :
  save clock (mark status (formatCursor cursor) now c) w = (w', r) → cursor_ok cursor →
  quiet (key_of c) cursor w w' ∧ (r = Ok tt → stored_cursor (wrows w') (key_of c) = cursor).
Proof.
  intros Hs Hc. assert (parseCursorInt64 (Cursor (mark status (formatCursor cursor) now c)) = cursor) as E
    by (by apply parse_format).
  apply save_quiet in Hs; rewrite E in *; done.
Qed.

Lemma markCompleted_quiet c cursor (w w' : wld) r :
  markCompleted clock c cursor w = (w', r) → cursor_ok cursor → quiet (key_of c) cursor w w'.
Proof.
  unfold markCompleted, go_bind, now_fn, go_wrap. cbn [fst snd]. intros Hm Hc.
  destruct (save clock _ _) as [w1 r1] eqn:Es. injection Hm as <- <-.
  by apply mark_save_quiet in Es as [[? ?] _].
Qed.

Lemma completed_quiet c cursor (w w' : wld) r :
  (markCompleted clock c cursor ;; go_ret Completed)%go w = (w', r) → cursor_ok cursor →
  quiet (key_of c) cursor w w' ∧ ∀ o, r = Ok o → o = Completed.
Proof.
  unfold go_bind. destruct (markCompleted clock c cursor w) as [w1 [u|e]] eqn:Em; intros E Hc;
    injection E as <- <-; (split; [by eapply markCompleted_quiet|]); [by intros o [= <-]|done].
Qed.

Lemma fail_with_quiet {A} c cursor e (w w' : wld) (r : result A) :
  fail_with clock c cursor e w = (w', r) → cursor_ok cursor → quiet (key_of c) cursor w w' ∧ r = Err e.
Proof.
  unfold fail_with, markFailed, go_bind, now_fn. cbn [fst snd]. intros Hm Hc.
  destruct (save clock _ _) as [w1 r1] eqn:Es. injection Hm as <- <-.
  by apply mark_save_quiet in Es as [[? ?] _].
Qed.

Lemma set_eose_quiet b c (w w' : wld) r k cur :
  set_eose_if clock b c w = (w', r) →
  quiet k cur w w' ∧ ∃ c', r = Ok c' ∧ key_of c' = key_of c.
Proof.
  unfold set_eose_if. destruct b; unfold go_bind, now_fn, go_ret; intros E; injection E as <- <-.
  - split; [apply tick_quiet|]. by eexists.
  - split; [apply quiet_refl|]. by eexists.
Qed.

Lemma persistRunning_quiet c cursor (w w' : wld) r :
  persistRunning clock c cursor w = (w', r) → cursor_ok cursor →
  quiet (key_of c) cursor w w' ∧
  ∀ c', r = Ok c' → key_of c' = key_of c ∧ stored_cursor (wrows w') (key_of c) = cursor.
Proof.
  unfold persistRunning, go_bind, now_fn, go_wrap. cbn [fst snd]. intros Hm Hc.
  destruct (save clock _ _) as [w1 [u|e]] eqn:Es; injection Hm as <- <-;
    apply mark_save_quiet in Es as [[? ?] Hst]; try done.
  - split; [done|]. intros c' [= <-]. split; [done|]. destruct u. by apply Hst.
Qed.

(** * A page *)

(** The greatest timestamp of a page. *)
Definition page_max (m : option Z) (events : list (list Z)) : option Z :=
  foldl (λ m p, match extractCreatedAt p with Some v => max_opt m v | None => m end) m events.

Lemma deliver_cases url c cursor m events (w w' : wld) r :
  deliver handle clock url c cursor m events w = (w', r) → cursor_ok cursor →
  quiet (key_of c) cursor w w' ∧
  ∀ m', r = Ok m' → m' = page_max m events ∧ (∀ p, p ∈ events → handled (w_log w') url p) ∧ wrows w' = wrows w.
Proof.
  revert m w. induction events as [|p events IH]; intros m w Hd Hc; simpl in Hd.
  { injection Hd as <- <-. split; [apply quiet_refl|]. intros m' [= <-]. split; [done|]. split; [set_solver|done]. }
  unfold on_message in Hd. destruct (handle url p (w_sink w)) as [h [u|e]] eqn:Eh.
  2:{ apply fail_with_quiet in Hd as [Hq ->]; [|done]. split; [|done]. destruct Hq as [Hl Hr]. by split. }
  set (w1 := mkWorld (w_db w) (w_relay w) h (w_ticks w) (AHandled url p :: w_log w)) in *.
  assert (extends (w_log w) (w_log w1)) as He by (exists [AHandled url p]; split; [done|set_solver]).
  set (m1 := match extractCreatedAt p with Some v => max_opt m v | None => m end).
  assert (deliver handle clock url c cursor m1 events w1 = (w', r)) as Hd'.
  { unfold m1. by destruct (extractCreatedAt p). }
  clear Hd. apply IH in Hd' as [[Hl Hr] Hok]; [|done]. split; [split; [by eapply extends_trans|done]|].
  intros m' Hm'. destruct (Hok m' Hm') as (-> & Hh & Ht). split; [done|]. split; [|done].
  intros x Hx. apply elem_of_cons in Hx as [->|Hx]; [|by apply Hh].
  eapply extends_handled; [exact Hl|]. unfold handled. simpl. set_solver.
Qed.

(** The relay answers within the requested window, and its events are not
    newer than [horizon]. *)
Definition in_window (horizon : Z) : Prop :=
  ∀ url q r r' page, serve url q r = (r', Ok page) → ∀ p, p ∈ Events page →
  ∃ v, extractCreatedAt p = Some v ∧ (∀ s, QSince q = Some s → s ≤ v) ∧ v ≤ horizon.

Lemma page_max_spec m events x :
  (∀ p, p ∈ events → ∃ v, extractCreatedAt p = Some v) → page_max m events = Some x →
  (m = Some x ∨ ∃ p, p ∈ events ∧ extractCreatedAt p = Some x) ∧
  (∀ p v, p ∈ events → extractCreatedAt p = Some v → v ≤ x) ∧ (∀ y, m = Some y → y ≤ x).
Proof.
  revert m. induction events as [|p events IH]; intros m Hv; simpl.
  { intros ->. split; [by left|]. split; [set_solver|]. intros y [= ->]. lia. }
  destruct (Hv p) as [v Ev]; [set_solver|]. rewrite Ev. intros Hm.
  apply IH in Hm as (H1 & H2 & H3); [|intros; apply Hv; set_solver].
  assert (v ≤ x ∧ ∀ y, m = Some y → y ≤ x) as [Hvx Hmx].
  { destruct m as [y|]; simpl in H3; [|split; [by apply H3|done]].
    destruct (y <? v) eqn:E; bool_simpl; specialize (H3 _ eq_refl).
    - split; [done|]. intros ? [= <-]. lia.
    - split; [lia|]. by intros ? [= <-]. }
  split_and!; [|intros q u Hq Hu; apply elem_of_cons in Hq as [->|Hq]; [congruence|by eapply H2]|done].
  destruct H1 as [H1|(q & Hq & Hx)]; [|right; exists q; set_solver].
  destruct m as [y|]; simpl in H1.
  - destruct (y <? v); [|by left]. injection H1 as <-. right. exists p. set_solver.
  - injection H1 as <-. right. exists p. set_solver.
Qed.

Lemma page_max_elem m events x :
  page_max m events = Some x → m = Some x ∨ ∃ p, p ∈ events ∧ extractCreatedAt p = Some x.
Proof.
  revert m. induction events as [|p events IH]; intros m; simpl; [by left|]. intros Hm.
  apply IH in Hm as [Hm|(q & Hq & Hx)]; [|right; exists q; set_solver].
  destruct (extractCreatedAt p) as [v|] eqn:E; [|by left]. destruct m as [y|]; simpl in Hm; [destruct (y <? v); [|by left]|];
    injection Hm as <-; right; exists p; set_solver.
Qed.

Lemma page_max_some m events :
  events ≠ [] → (∀ p, p ∈ events → ∃ v, extractCreatedAt p = Some v) → ∃ x, page_max m events = Some x.
Proof.
  assert (∀ es m0, (∃ y, m0 = Some y) → (∀ p, p ∈ es → ∃ v, extractCreatedAt p = Some v) →
    ∃ x, page_max m0 es = Some x) as Hs.
  { induction es as [|p es IH]; intros m0 Hm Hv; simpl; [done|].
    destruct (Hv p) as [v Ev]; [set_solver|]. rewrite Ev. apply IH; [|intros; apply Hv; set_solver].
    destruct m0 as [y|]; simpl; [|by eexists]. destruct (y <? v); by eexists. }
  intros Hne Hv. destruct events as [|p es]; [done|]. simpl. destruct (Hv p) as [v Ev]; [set_solver|]. rewrite Ev.
  apply Hs; [|intros; apply Hv; set_solver]. destruct m as [y|]; simpl; [|by eexists]. destruct (y <? v); by eexists.
Qed.

(** * An iteration *)

(** No event is dated in the last second of 64 bits, where the cursor could not be
    incremented; nothing else is asked of the relays. *)
Definition dated_below : Prop :=
  ∀ url q r r' page, serve url q r = (r', Ok page) → ∀ p v, p ∈ Events page → extractCreatedAt p = Some v → v < max_int64.

Lemma in_window_dated horizon : horizon < max_int64 → in_window horizon → dated_below.
Proof. intros Hh Hw url q r r' page Es p v Hp Hv. destruct (Hw _ _ _ _ _ Es p Hp) as (v' & Hv' & _ & ?). rewrite Hv in Hv'. injection Hv' as <-. lia. Qed.

Context (horizon : Z).
Hypothesis dated : dated_below.

Definition url_key (url : string) : string * string * string :=
  (trim_space url, trim_space (BMode cfg), trim_space (BFilterGroup cfg)).

(** What was fetched was handled, or the stored cursor of its relay is the one it
    was requested with: the next request has the same start. If it is dated
    within the request, it is newer than that cursor. *)
Definition resumable (w : wld) : Prop :=
  ∀ u q page p, AFetched u q page ∈ w_log w → p ∈ Events page →
    handled (w_log w) u p ∨
    (QSince q = nextSince (BSince cfg) (stored_cursor (wrows w) (url_key u)) ∧
     ∀ s v, stored_cursor (wrows w) (url_key u) = Some s → extractCreatedAt p = Some v →
       (∀ x, QSince q = Some x → x ≤ v) → s < v).

Lemma all_handled_resumable w : all_handled (w_log w) → resumable w.
Proof. intros Ha u q page p Hin Hp. left. apply Ha. by exists q, page. Qed.

(** Between iterations. *)
Record loop_inv (url : string) (c : IngestCheckpoint) (cursor : option Z) (w : wld) : Prop := {
  li_key : key_of c = url_key url;
  li_cursor : cursor_ok cursor;
  li_stored : stored_cursor (wrows w) (url_key url) = cursor;
  li_rows : rows_ok (wrows w);
  li_log : all_handled (w_log w);
}.

Definition progress (cursor : option Z) (emptyPages : Z) (cursor' : option Z) (emptyPages' : Z) : Prop :=
  (emptyPages' = 0 ∧ ∃ x, cursor' = Some x ∧ x ≤ horizon ∧ ∀ y, cursor = Some y → y < x) ∨
  (cursor' = cursor ∧ emptyPages' = emptyPages + 1 ∧ emptyPages + 1 < BEmptyPageMax cfg).

Definition iteration_post (url : string) (cursor : option Z) (emptyPages : Z) (w' : wld) (r : result outcome) : Prop :=
  rows_ok (wrows w') ∧
  match r with
  | Err _ => resumable w'
  | Ok Completed => all_handled (w_log w')
  | Ok (Next c' cursor' emptyPages') =>
      loop_inv url c' cursor' w' ∧ (in_window horizon → progress cursor emptyPages cursor' emptyPages')
  end.

Lemma quiet_inv url c cursor cursor' (w w' : wld) :
  loop_inv url c cursor w → quiet (url_key url) cursor' w w' → rows_ok (wrows w') ∧ all_handled (w_log w').
Proof. intros [] [Hl (_ & _ & Hr)]. split; [by apply Hr|by eapply extends_all]. Qed.

Lemma completed_post url c cursor w w' r emptyPages cursor0 :
  (markCompleted clock c cursor ;; go_ret Completed)%go w = (w', r) → loop_inv url c cursor w →
  iteration_post url cursor0 emptyPages w' r.
Proof.
  intros Hm Hi. apply completed_quiet in Hm as [Hq Hr]; [|apply Hi]. rewrite (li_key _ _ _ _ Hi) in Hq.
  destruct (quiet_inv _ _ _ _ _ _ Hi Hq) as [Hrows Hlog]. split; [done|].
  destruct r as [o|e]; [by rewrite (Hr o eq_refl)|by apply all_handled_resumable].
Qed.

(** A page that could not be delivered is asked for again. *)
Lemma undelivered url c cursor q page (w w1 w' : wld) :
  loop_inv url c cursor w → quiet (url_key url) cursor w1 w' →
  w_log w1 = AFetched url q page :: w_log w → wrows w1 = wrows w →
  QSince q = nextSince (BSince cfg) cursor →
  rows_ok (wrows w') ∧ resumable w'.
Proof.
  intros Hi [Hl Hw] Elog Erows Eq. split; [destruct Hw as (_ & _ & Hr); apply Hr; rewrite Erows; apply Hi|].
  assert (stored_cursor (wrows w') (url_key url) = cursor) as Hst by (apply (writes_stored _ _ _ _ Hw); rewrite Erows; apply Hi).
  intros u q' page' p Hin Hp. destruct Hl as (new & El & Hnew). rewrite El, Elog in Hin |- *.
  apply elem_of_app in Hin as [Hin|Hin]; [by apply Hnew in Hin|]. apply elem_of_cons in Hin as [[= -> -> ->]|Hin].
  - right. rewrite Hst. split; [done|]. intros s v -> _ Hs. pose proof (li_cursor _ _ _ _ Hi s eq_refl) as Hc.
    specialize (Hs _ Eq). rewrite i64_id in Hs by lia. lia.
  - left. assert (handled (w_log w) u p) as Hh by (apply (li_log _ _ _ _ Hi); by exists q', page'). unfold handled in *. set_solver.
Qed.

Lemma advance_ok cursor page :
  cursor_ok cursor → (∀ p v, p ∈ Events page → extractCreatedAt p = Some v → v < max_int64) →
  let cursor' := advance cursor (page_max None (Events page)) in
  cursor_ok cursor' ∧ (Events page = [] → cursor' = cursor).
Proof.
  intros Hc Hd. cbv zeta. split; [|by intros ->]. destruct (page_max None (Events page)) as [x|] eqn:Hx; [|done].
  apply page_max_elem in Hx as [[=]|(p & Hp & Hpx)]. pose proof (Hd _ _ Hp Hpx) as Hm. pose proof (extractCreatedAt_range _ _ Hpx) as Hr.
  assert (cursor_ok (Some x)) as Hok by (intros z [= <-]; unfold min_int64, two63; lia).
  destruct cursor as [y|]; simpl; [|done]. by destruct (y <? x).
Qed.

Lemma advance_progress cursor q page :
  cursor_ok cursor → QSince q = nextSince (BSince cfg) cursor →
  (∀ p, p ∈ Events page → ∃ v, extractCreatedAt p = Some v ∧ (∀ s, QSince q = Some s → s ≤ v) ∧ v ≤ horizon) →
  Events page ≠ [] →
  ∃ x, advance cursor (page_max None (Events page)) = Some x ∧ x ≤ horizon ∧ ∀ y, cursor = Some y → y < x.
Proof.
  intros Hc Eq Hpage Hne.
  destruct (page_max_some None (Events page) Hne) as [x Hx].
  { intros p Hp. destruct (Hpage p Hp) as (v & ? & _). by exists v. }
  destruct (page_max_spec _ _ _ ltac:(intros p Hp; destruct (Hpage p Hp) as (v & ? & _); by exists v) Hx)
    as ([[=]|(p & Hp & Hpx)] & _ & _).
  destruct (Hpage p Hp) as (v & Hv & Hs & Hh). rewrite Hpx in Hv. injection Hv as <-.
  pose proof (extractCreatedAt_range _ _ Hpx) as Hr.
  assert (∀ y, cursor = Some y → y < x) as Hlt.
  { intros y ->. rewrite Eq in Hs. simpl in Hs. specialize (Hs _ eq_refl). specialize (Hc y eq_refl).
    rewrite i64_id in Hs by lia. lia. }
  assert (advance cursor (Some x) = Some x) as Ea.
  { destruct cursor as [y|]; [|done]. simpl. by rewrite (proj2 (Z.ltb_lt y x)) by (by apply Hlt). }
  rewrite Hx, Ea. by exists x.
Qed.

Lemma iteration_cases url c cursor emptyPages (w w' : wld) r :
  iteration serve handle clock cfg url c cursor emptyPages w = (w', r) → loop_inv url c cursor w →
  iteration_post url cursor emptyPages w' r.
Proof.
  intros Hit Hi. unfold iteration in Hit. cbv zeta in Hit.
  destruct (exceeds_until _ _); [by eapply completed_post|].
  set (q := mkRequest (BKinds cfg) [] (nextSince (BSince cfg) cursor) (BUntil cfg) (BPageLimit cfg)) in *.
  pose proof (li_cursor _ _ _ _ Hi) as Hc. pose proof (li_key _ _ _ _ Hi) as Hk.
  unfold fetch_page in Hit. destruct (serve url q (w_relay w)) as [rl [page|e]] eqn:Es.
  2:{ apply fail_with_quiet in Hit as [Hq ->]; [|done]. rewrite Hk in Hq.
      assert (quiet (url_key url) cursor w w') as Hq' by (destruct Hq; by split).
      destruct (quiet_inv _ _ _ _ _ _ Hi Hq') as [Hrows Hlog]. split; [done|by apply all_handled_resumable]. }
  set (w1 := mkWorld (w_db w) rl (w_sink w) (w_ticks w) (AFetched url q page :: w_log w)) in *.
  unfold go_bind at 1 in Hit.
  destruct (deliver handle clock url c cursor None (Events page) w1) as [w2 [m|e]] eqn:Ed.
  2:{ injection Hit as <- <-. apply deliver_cases in Ed as [Hq _]; [|done]. rewrite Hk in Hq.
      by eapply (undelivered url c cursor q page w w1 w2). }
  apply deliver_cases in Ed as [Hq2 Hok]; [|done]. destruct (Hok m eq_refl) as (-> & Hh & Ht2). clear Hok.
  destruct (advance_ok cursor page Hc (dated _ _ _ _ _ Es)) as [Hc' Hnil].
  pose proof (λ Hw : in_window horizon, advance_progress cursor q page Hc eq_refl (Hw _ _ _ _ _ Es)) as Hprog.
  cbv zeta in Hit. set (cursor' := advance cursor (page_max None (Events page))) in *.
  assert (all_handled (w_log w2)) as Hl2.
  { destruct Hq2 as [Hl _]. intros u p Hf. apply (extends_fetched _ _ _ _ Hl) in Hf.
    destruct Hf as (q' & page' & Hin & Hp). apply elem_of_cons in Hin as [[= -> -> ->]|Hin]; [by apply Hh|].
    eapply extends_handled; [exact Hl|]. unfold handled. simpl. apply list_elem_of_further, (li_log _ _ _ _ Hi).
    by exists q', page'. }
  assert (rows_ok (wrows w2)) as Hr2 by (rewrite Ht2; apply Hi).
  unfold go_bind at 1 in Hit. destruct (set_eose_if clock (EOSESeen page) c w2) as [w3 r3] eqn:E3.
  apply (set_eose_quiet _ _ _ _ _ (url_key url) cursor') in E3 as [[Hl3 (_ & _ & Hr3)] (c3 & -> & Hk3)].
  unfold go_bind at 1 in Hit. destruct (persistRunning clock c3 cursor' w3) as [w4 [c4|e4]] eqn:E4;
    apply persistRunning_quiet in E4 as [[Hl4 (_ & _ & Hr4)] Hp4]; try done.
  2:{ injection Hit as <- <-. split; [by apply Hr4, Hr3|].
      by apply all_handled_resumable, (extends_all _ _ Hl4), (extends_all _ _ Hl3). }
  destruct (Hp4 c4 eq_refl) as [Hk4 Hst4].
  assert (loop_inv url c4 cursor' w4) as Hi4.
  { split; [congruence|done| |by apply Hr4, Hr3|by apply (extends_all _ _ Hl4), (extends_all _ _ Hl3)].
    by rewrite <-Hk, <-Hk3. }
  destruct (reached_until cfg cursor'); [by eapply completed_post|].
  destruct (EOSESeen page); case_bool_decide as He; try (by eapply completed_post).
  - injection Hit as <- <-. split; [apply Hi4|]. split; [done|]. intros Hw. left. split; [done|by apply Hprog].
  - destruct (_ <=? _) eqn:El; [by eapply completed_post|]. bool_simpl. injection Hit as <- <-.
    split; [apply Hi4|]. split; [done|]. intros _. right. split; [by apply Hnil|done].
  - injection Hit as <- <-. split; [apply Hi4|]. split; [done|]. intros Hw. left. split; [done|by apply Hprog].
Qed.

(** * The loop *)

Definition run_post (w' : wld) (r : result unit) : Prop :=
  rows_ok (wrows w') ∧ resumable w' ∧ (r = Ok tt → all_handled (w_log w')).

Lemma loop_post fuel url c cursor emptyPages (w w' : wld) r :
  relay_loop serve handle clock cfg fuel url c cursor emptyPages w = Some (w', r) →
  loop_inv url c cursor w → run_post w' r.
Proof.
  revert c cursor emptyPages w. induction fuel as [|fuel IH]; intros c cursor emptyPages w Hl Hi; simpl in Hl; [done|].
  destruct (iteration serve handle clock cfg url c cursor emptyPages w) as [w1 r1] eqn:Eit.
  apply iteration_cases in Eit as [Hr Hpost]; [|done]. destruct r1 as [[|c1 cursor1 ep1]|e].
  - injection Hl as <- <-. split; [done|]. split; [by apply all_handled_resumable|done].
  - by eapply IH; [exact Hl|apply Hpost].
  - injection Hl as <- <-. by split.
Qed.

Definition gap (cursor : option Z) : Z :=
  match cursor with
  | None => Z.max 0 (horizon + 2 + two63)
  | Some v => Z.max 0 (horizon + 1 - v)
  end.

Lemma progress_decreases cursor ep cursor' ep' :
  cursor_ok cursor' → 0 ≤ ep < BEmptyPageMax cfg → progress cursor ep cursor' ep' →
  0 ≤ ep' < BEmptyPageMax cfg ∧
  gap cursor' * BEmptyPageMax cfg + (BEmptyPageMax cfg - ep')
    < gap cursor * BEmptyPageMax cfg + (BEmptyPageMax cfg - ep).
Proof.
  intros Hc Hep [[-> (x & -> & Hx & Hlt)]|(-> & -> & Hm)]; [|lia].
  specialize (Hc x eq_refl). unfold min_int64, two63 in Hc.
  assert (gap (Some x) + 1 ≤ gap cursor) as Hg.
  { unfold gap. destruct cursor as [y|]; [specialize (Hlt y eq_refl); lia|]. unfold two63. lia. }
  nia.
Qed.

Lemma loop_terminates fuel url c cursor emptyPages (w : wld) :
  in_window horizon → loop_inv url c cursor w → 0 ≤ emptyPages < BEmptyPageMax cfg →
  gap cursor * BEmptyPageMax cfg + (BEmptyPageMax cfg - emptyPages) ≤ Z.of_nat fuel →
  ∃ res, relay_loop serve handle clock cfg fuel url c cursor emptyPages w = Some res.
Proof.
  intros Hw. revert c cursor emptyPages w. induction fuel as [|fuel IH]; intros c cursor emptyPages w Hi Hep Hf.
  { assert (0 ≤ gap cursor) by (unfold gap; destruct cursor; lia). nia. }
  simpl. destruct (iteration serve handle clock cfg url c cursor emptyPages w) as [w1 r1] eqn:Eit.
  apply iteration_cases in Eit as [_ Hpost]; [|done]. destruct r1 as [[|c1 cursor1 ep1]|e]; [by eexists| |by eexists].
  destruct Hpost as [Hi1 Hp]. specialize (Hp Hw). apply progress_decreases in Hp as [Hep1 Hlt]; [|apply Hi1|done].
  apply IH; [done|done|lia].
Qed.

Lemma ensure_post url (w w' : wld) r :
  ensureRunningCheckpoint clock cfg url w = (w', r) → rows_ok (wrows w) → all_handled (w_log w) →
  match r with
  | Err _ => rows_ok (wrows w') ∧ all_handled (w_log w')
  | Ok c => Status c = CheckpointRunning ∧ loop_inv url c (parseCursorInt64 (Cursor c)) w'
  end.
Proof.
  intros He Hr Hl. unfold ensureRunningCheckpoint in He. unfold go_bind at 1, go_wrap at 1, get_checkpoint at 1 in He.
  destruct (GetIngestCheckpoint _ _ _ _ _) as [ex|e] eqn:Eg; [|by injection He as <- <-].
  assert (∀ c (w1 : wld) msg, wrows w1 = wrows w → w_log w1 = w_log w → key_of c = url_key url →
    cursor_ok (parseCursorInt64 (Cursor c)) → Status c = CheckpointRunning →
    (go_wrap msg (save clock c) ;; go_ret c)%go w1 = (w', r) →
    match r with
    | Err _ => rows_ok (wrows w') ∧ all_handled (w_log w')
    | Ok c => Status c = CheckpointRunning ∧ loop_inv url c (parseCursorInt64 (Cursor c)) w'
    end) as Hsave.
  { intros c w1 msg E1 E2 Hk Hc Hst Hs. unfold go_bind, go_wrap in Hs.
    destruct (save clock c w1) as [w2 [u|e]] eqn:Es; injection Hs as <- <-;
      apply save_quiet in Es as [[Hx (_ & _ & Hro)] Hsto]; try done; rewrite ?E1, ?E2 in *.
    - split; [done|]. split; [done|done|by rewrite <-Hk; destruct u; apply Hsto|by apply Hro|by eapply extends_all].
    - split; [by apply Hro|by eapply extends_all]. }
  unfold GetIngestCheckpoint in Eg. destruct (_ || _); [done|]. destruct (next_fault (w_db w)); [done|].
  injection Eg as Eg. destruct ex as [row|].
  - apply Hr in Eg as [Hkey Hcur]. unfold go_bind at 1, now_fn at 1 in He. eapply Hsave; [..|exact He]; done.
  - unfold go_bind at 1, now_fn at 1 in He. eapply Hsave; [..|exact He]; done.
Qed.

Lemma runRelay_post fuel url (w w' : wld) r :
  runRelay serve handle clock cfg fuel url w = Some (w', r) → rows_ok (wrows w) → all_handled (w_log w) →
  run_post w' r.
Proof.
  intros Hrun Hr Hl. unfold runRelay in Hrun.
  destruct (ensureRunningCheckpoint clock cfg url w) as [w1 [c|e]] eqn:Ee; apply ensure_post in Ee; try done.
  - destruct Ee as [Hs Hi]. rewrite Hs, bool_decide_eq_false_2 in Hrun by done. by eapply loop_post.
  - injection Hrun as <- <-. destruct Ee. split; [done|]. split; [by apply all_handled_resumable|done].
Qed.

(** Enough iterations for any stored cursor. *)
Definition enough_fuel : nat := Z.to_nat ((Z.max 0 (horizon + 2 + two63) + 1) * BEmptyPageMax cfg).

Lemma runRelay_terminates fuel url (w : wld) :
  in_window horizon → 0 < BEmptyPageMax cfg → rows_ok (wrows w) → all_handled (w_log w) → (enough_fuel ≤ fuel)%nat →
  ∃ res, runRelay serve handle clock cfg fuel url w = Some res.
Proof.
  intros Hw He Hr Hl Hf. unfold runRelay.
  destruct (ensureRunningCheckpoint clock cfg url w) as [w1 [c|e]] eqn:Ee; apply ensure_post in Ee; try done; [|by eexists].
  destruct Ee as [Hs Hi]. rewrite Hs, bool_decide_eq_false_2 by done. apply loop_terminates; [done|done|lia|].
  assert (gap (parseCursorInt64 (Cursor c)) ≤ Z.max 0 (horizon + 2 + two63)) as Hg.
  { pose proof (li_cursor _ _ _ _ Hi) as Hc. unfold gap. destruct (parseCursorInt64 (Cursor c)) as [v|]; [|done].
    specialize (Hc v eq_refl). unfold min_int64 in Hc. lia. }
  unfold enough_fuel in Hf. nia.
Qed.

End steps.

Section runs.
Context {R H : Type}.
Context (serve : string → PageRequest → R → R * result PageResult).
Context (handle : string → list Z → H → H * result unit).
Context (clock : nat → time).
Context (cfg : BackfillConfig).

(** C31: Backfill terminates: if the relays answer within the requested window and
    no event is newer than some horizon, a run over all relays returns, with
    success or an error, whatever the handler, the stored cursors and the pattern
    of failing store calls. *)
Theorem backfill_terminates (horizon : Z) (ctxErr : nat → option error) (fuel : nat) (w : world R H) :
  horizon < max_int64 → in_window serve horizon →
  0 < BEmptyPageMax cfg → rows_ok (tables (w_db w)) → all_handled (w_log w) → (enough_fuel cfg horizon ≤ fuel)%nat →
  ∃ res, Run serve handle clock ctxErr cfg fuel w = Some res.
Proof.
  intros Hh Hw He Hr Hl Hf. pose proof (in_window_dated serve horizon Hh Hw) as Hd. unfold Run. generalize 0%nat. revert w Hr Hl.
  induction (BRelays cfg) as [|url urls IH]; intros w Hr Hl i; simpl; [by eexists|].
  destruct (ctxErr i); [by eexists|].
  destruct (runRelay_terminates serve handle clock cfg horizon Hd fuel url w Hw He Hr Hl Hf) as [[w1 r1] E].
  rewrite E. apply (runRelay_post _ _ _ _ horizon Hd) in E as (Hr1 & _ & Hok); [|done|done]. destruct r1 as [[]|e]; [|by eexists].
  by apply IH; [|apply Hok].
Qed.

(** C32: Backfill can resume, from any relay: after any run, finished or failed in
    the middle of a page, whatever the relays answered, every event of every
    fetched page was handed to the handler or the stored cursor of its relay is
    still the one its page was requested with, so that the next run of
    the same configuration makes the request anew, and the event, if it is dated within the request, is newer
    than the cursor; a run that succeeds handed over everything it fetched. The
    one assumption on the relays is that no event is dated 2^63 - 1, which as a
    cursor could not be incremented. *)
Theorem backfill_resumable (ctxErr : nat → option error) (fuel : nat) (w w' : world R H) (r : result unit) :
  dated_below serve →
  rows_ok (tables (w_db w)) → all_handled (w_log w) → Run serve handle clock ctxErr cfg fuel w = Some (w', r) →
  resumable cfg w' ∧ (r = Ok tt → all_handled (w_log w')).
Proof.
  intros Hd Hr Hl. unfold Run. generalize 0%nat. revert w Hr Hl.
  induction (BRelays cfg) as [|url urls IH]; intros w Hr Hl i Hrun; simpl in Hrun.
  { injection Hrun as <- <-. split; [by apply all_handled_resumable|done]. }
  destruct (ctxErr i); [injection Hrun as <- <-; split; [by apply all_handled_resumable|done]|].
  destruct (runRelay serve handle clock cfg fuel url w) as [[w1 r1]|] eqn:E; [|done].
  apply (runRelay_post _ _ _ _ 0 Hd) in E as (Hr1 & Hres & Hok); [|done|done]. destruct r1 as [[]|e].
  - by eapply IH; [exact Hr1|apply Hok|exact Hrun].
  - injection Hrun as <- <-. by split.
Qed.
End runs.

(** * A NIP-01 relay *)

Module BackfillExample.

Definition matches (q : PageRequest) (p : list Z) : bool :=
  match extractCreatedAt p with
  | None => false
  | Some v =>
      match QSince q with Some s => s <=? v | None => true end
      && match QUntil q with Some u => v <=? u | None => true end
  end.

(** NIP-01: the [limit] newest events that match the filter; [history] lists the
    relay's events newest first. *)
Definition nip01_relay (history : list (list Z)) (url : string) (q : PageRequest) (r : unit)
    : unit * result PageResult :=
  (r, Ok (mkPage (take (Z.to_nat (QLimit q)) (List.filter (matches q) history)) true)).

Lemma nip01_in_window history horizon :
  (∀ p v, p ∈ history → extractCreatedAt p = Some v → v ≤ horizon) → in_window (nip01_relay history) horizon.
Proof.
  intros Hh url q r r' page [= _ <-] p Hp. simpl in Hp. apply elem_of_take in Hp as (i & Hi & _).
  apply list_elem_of_lookup_2, list_elem_of_In, filter_In in Hi as [Hin Hm].
  unfold matches in Hm. destruct (extractCreatedAt p) as [v|] eqn:E; [|done]. exists v. split; [done|].
  split; [|by apply (Hh p v); [apply list_elem_of_In|]]. intros s Hs. rewrite Hs in Hm. bool_simpl. lia.
Qed.

Definition payload (createdAt : Z) : list Z := json_encode (JObj [(bytes "created_at", JNum (itoa createdAt))]).

Definition accept (url : string) (p : list Z) (h : unit) : unit * result unit := (h, Ok tt).

(** The second message fails. *)
Definition flaky (url : string) (p : list Z) (h : nat) : nat * result unit :=
  (S h, if Nat.eqb h 1 then Err "db down" else Ok tt).

Definition ticking (n : nat) : time := Z.of_nat n + 1.

Definition never (i : nat) : option error := None.

Definition cfg2 : BackfillConfig := mkBackfill ["wss://r"] "g" [1] "backfill" None None 2 3.

Definition start {H} (h : H) : world unit H := mkWorld (mkDb ∅ []) tt h 0 [].

Abbreviation history := [payload 300; payload 200; payload 100] (only parsing).

Lemma history_horizon p v : p ∈ history → extractCreatedAt p = Some v → v ≤ 300.
Proof.
  intros Hp. assert (forallb (λ p, match extractCreatedAt p with Some v => v <=? 300 | None => true end) history = true)
    as Hf by (vm_compute; reflexivity).
  rewrite forallb_forall in Hf. apply list_elem_of_In in Hp. specialize (Hf p Hp).
  intros E. rewrite E in Hf. by apply Z.leb_le.
Qed.

Lemma empty_rows_ok : rows_ok ∅.
Proof. intros k row Hr. by rewrite lookup_empty in Hr. Qed.

Lemma empty_log_ok : all_handled [].
Proof. intros u p (q & page & Hin & _). set_solver. Qed.

Lemma backfill_terminates_witness :
  ∃ res, Run (nip01_relay history) flaky ticking never cfg2 (enough_fuel cfg2 300) (start 0%nat) = Some res.
Proof.
  apply (backfill_terminates (nip01_relay history) flaky ticking cfg2 300).
  - reflexivity.
  - apply nip01_in_window, history_horizon.
  - reflexivity.
  - apply empty_rows_ok.
  - apply empty_log_ok.
  - apply le_n.
Defined.

(** A relay that sends one page whatever it is asked for: its second event has no
    date, the third is older than any request. *)
Definition rude_page : list (list Z) := [payload 500; bytes "{}"; payload 7].
Definition rude (url : string) (q : PageRequest) (r : unit) : unit * result PageResult := (r, Ok (mkPage rude_page true)).

(** The row of a relay that was asked before. *)
Definition asked_row : IngestCheckpoint :=
  mkCheckpoint "wss://r" "backfill" "g" None None (Some "400") None None None None None "failed" None None 0 1.

Definition asked : world unit nat := mkWorld (mkDb {[("wss://r", "backfill", "g") := asked_row]} []) tt 0%nat 0 [].

Definition failed_run : world unit nat * result unit :=
  match Run rude flaky ticking never cfg2 10 asked with
  | Some res => res
  | None => (asked, Ok tt)
  end.

Lemma rude_dated : dated_below rude.
Proof.
  intros url q r r' page [= _ <-] p v Hp Hv.
  assert (forallb (λ p, match extractCreatedAt p with Some v => v <=? 500 | None => true end) rude_page = true) as Hf by (vm_compute; reflexivity).
  rewrite forallb_forall in Hf. apply list_elem_of_In in Hp. specialize (Hf p Hp). rewrite Hv in Hf. apply Z.leb_le in Hf.
  unfold max_int64, two63. lia.
Qed.

Lemma asked_rows_ok : rows_ok (tables (w_db asked)).
Proof.
  intros k row Hr. unfold asked in Hr. cbn [w_db tables] in Hr. apply lookup_singleton_Some in Hr as [<- <-]. split; [by vm_compute|].
  replace (parseCursorInt64 (Cursor asked_row)) with (Some 400) by (by vm_compute). intros v [= <-]. by vm_compute.
Qed.

(** The handler fails at the undated event: the cursor stays. *)
Lemma backfill_resumable_witness :
  is_ok failed_run.2 = false ∧ stored_cursor (tables (w_db failed_run.1)) (url_key cfg2 "wss://r") = Some 400 ∧ resumable cfg2 failed_run.1.
Proof.
  split_and!; [vm_compute; reflexivity|vm_compute; reflexivity|].
  destruct (backfill_resumable rude flaky ticking cfg2 never 10 asked failed_run.1 failed_run.2
    rude_dated asked_rows_ok empty_log_ok) as [Hres _]; [|exact Hres].
  vm_compute. reflexivity.
Defined.

Definition delivered (cfg : BackfillConfig) (fuel : nat) (w : world unit unit) (hist : list (list Z))
    : option (list Z * list (option string * string)) :=
  match Run (nip01_relay hist) accept ticking never cfg fuel w with
  | Some (w', Ok _) =>
      Some (omap (λ a, match a with AHandled _ p => extractCreatedAt p | _ => None end) (rev (w_log w')),
            map (λ kv, (Cursor kv.2, Status kv.2)) (map_to_list (tables (w_db w'))))
  | _ => None
  end.

(** The pages of a relay start at its newest events, but the cursor moves to the
    newest one: with two events per page the oldest of three is never asked for,
    and the backfill is marked completed. *)
Example backfill_skips_history :
  delivered cfg2 10 (start tt) history = Some ([300; 200], [(Some "300", "completed")]).
Proof. vm_compute. reflexivity. Qed.

(** With room for the whole history in a page everything is delivered. *)
Example backfill_one_page :
  delivered (mkBackfill ["wss://r"] "g" [1] "backfill" None None 3 3) 10 (start tt) history
  = Some ([300; 200; 100], [(Some "300", "completed")]).
Proof. vm_compute. reflexivity. Qed.

(** The row of a completed relay. *)
Definition completed_row : IngestCheckpoint :=
  mkCheckpoint "wss://r" "backfill" "g" None None (Some "300") None None None None None
    CheckpointCompleted None None 0 1.

(** A completed checkpoint is set to running before its status is read, so the
    relay is asked again: an event that came later is fetched. *)
Example completed_is_rerun :
  delivered cfg2 10 (mkWorld (mkDb {[("wss://r", "backfill", "g") := completed_row]} []) tt tt 0 [])
    (payload 400 :: history) = Some ([400], [(Some "400", "completed")]).
Proof. vm_compute. reflexivity. Qed.

End BackfillExample.
