(* ===== verification/GoNet.v ===== *)
(** Addresses of Go's [net] and [net/netip]: the text forms of IPv4 and IPv6
    addresses ([ParseIP], [IP.String]), the address classes ([IsLoopback] and the
    like), and [SplitHostPort].

    An [IP] is its bytes, 4 or 16 of them; another length prints as garbage that
    does not parse. [ParseIP] yields the 16-byte form. *)

From S2P Require Import Prelude GoLib.

Abbreviation IP := (list Z).

Definition ip_ok (ip : IP) : Prop := (length ip = 4 ∨ length ip = 16)%nat ∧ Forall byte_ok ip.

(** * Forms *)

Definition v4_prefix : list Z := replicate 10 0 ++ [255; 255].

Definition To4 (ip : IP) : option IP :=
  if (length ip =? 4)%nat then Some ip
  else if (length ip =? 16)%nat && bool_decide (take 12 ip = v4_prefix) then Some (drop 12 ip)
  else None.

Definition To16 (ip : IP) : IP := if (length ip =? 4)%nat then v4_prefix ++ ip else ip.

(** * Parsing *)

(** [parseIPv4Fields]: [val] and [digLen] of the current octet, the octets read
    so far, and whether the last byte was a dot (or there was none). *)
Fixpoint parse_ipv4_fields (s : list Z) (val : Z) (digLen : nat) (afterDot : bool) (fields : list Z)
    : option (list Z) :=
  match s with
  | [] => if (length fields <? 3)%nat then None else Some (fields ++ [val])
  | b :: s' =>
      if is_digit b then
        if (digLen =? 1)%nat && (val =? 0) then None
        else
          let val := val * 10 + (b - 48) in
          if 255 <? val then None else parse_ipv4_fields s' val (S digLen) false fields
      else if b =? 46 then
        if afterDot || match s' with [] => true | _ => false end then None
        else if (length fields =? 3)%nat then None
        else parse_ipv4_fields s' 0 0 true (fields ++ [val])
      else None
  end.

Definition parse_ipv4 (s : list Z) : option (list Z) := parse_ipv4_fields s 0 0 true [].

(** The hex number at the start of [s]: its value, its digits and what follows;
    [None] when it has more than four digits. *)
Fixpoint hex_run (s : list Z) (off : nat) (acc : Z) : option (Z * nat * list Z) :=
  match s with
  | b :: s' =>
      match hex_value b with
      | Some d => if (3 <? off)%nat then None else hex_run s' (S off) (acc * 16 + d)
      | None => Some (acc, off, s)
      end
  | [] => Some (acc, off, [])
  end.

(** The loop of [parseIPv6]: [n] fields may follow the bytes [ip]; [ellipsis] is
    where the zeros go. It yields what the loop leaves behind. *)
Fixpoint parse_fields (n : nat) (s : list Z) (ip : list Z) (ellipsis : option nat)
    : option (list Z * list Z * option nat) :=
  match n with
  | O => Some (s, ip, ellipsis)
  | S n' =>
      match hex_run s 0 0 with
      | None => None
      | Some (acc, off, rest) =>
          if (off =? 0)%nat then None
          else if match rest with b :: _ => b =? 46 | [] => false end then
            if negb (bool_decide (is_Some ellipsis)) && negb (length ip =? 12)%nat then None
            else if (16 <? length ip + 4)%nat then None
            else match parse_ipv4 s with
                 | None => None
                 | Some quad => Some ([], ip ++ quad, ellipsis)
                 end
          else
            let ip := ip ++ [acc / 256; acc mod 256] in
            match rest with
            | [] => Some ([], ip, ellipsis)
            | b :: s1 =>
                if negb (b =? 58) then None
                else match s1 with
                     | [] => None
                     | b2 :: s2 =>
                         if b2 =? 58 then
                           match ellipsis with
                           | Some _ => None
                           | None =>
                               match s2 with
                               | [] => Some ([], ip, Some (length ip))
                               | _ => parse_fields n' s2 ip (Some (length ip))
                               end
                           end
                         else parse_fields n' s1 ip ellipsis
                     end
            end
      end
  end.

(** What follows the loop: the rest must be empty and the zeros are filled in. *)
Definition finish_ipv6 (r : list Z * list Z * option nat) : option IP :=
  let '(s, ip, ellipsis) := r in
  match s with
  | _ :: _ => None
  | [] =>
      if (length ip <? 16)%nat then
        match ellipsis with
        | None => None
        | Some e => Some (take e ip ++ replicate (16 - length ip) 0 ++ drop e ip)
        end
      else match ellipsis with Some _ => None | None => Some ip end
  end.

(** [parseIPv6] of a text without a zone. *)
Definition parse_ipv6 (s : list Z) : option IP :=
  if has_prefix [58; 58] s then
    match drop 2 s with
    | [] => Some (replicate 16 0)
    | s' => parse_fields 8 s' [] (Some 0%nat) ≫= finish_ipv6
    end
  else parse_fields 8 s [] None ≫= finish_ipv6.

(** The first dot, colon or percent sign decides. *)
Fixpoint addr_kind (s : list Z) : option bool :=
  match s with
  | [] => None
  | b :: s => if b =? 46 then Some true else if b =? 58 then Some false else if b =? 37 then None else addr_kind s
  end.

(** A text with a zone ([%]) is no [IP]. *)
Definition parse_ip (s : list Z) : option IP :=
  match addr_kind s with
  | None => None
  | Some true => To16 <$> parse_ipv4 s
  | Some false => if existsb (Z.eqb 37) s then None else parse_ipv6 s
  end.

Definition ParseIP (s : string) : option IP := parse_ip (bytes s).

(** * Printing *)

Definition ipv4_string (ip : IP) : list Z :=
  match ip with
  | [a; b; c; d] => itoa a ++ 46 :: itoa b ++ 46 :: itoa c ++ 46 :: itoa d
  | _ => []
  end.

(** [appendHex]: without leading zeros. *)
Definition hex_string (x : Z) : list Z :=
  if x <? 16 then [hex_digit x]
  else if x <? 256 then [hex_digit (x / 16); hex_digit (x mod 16)]
  else if x <? 4096 then [hex_digit (x / 256); hex_digit (x / 16 mod 16); hex_digit (x mod 16)]
  else [hex_digit (x / 4096); hex_digit (x / 256 mod 16); hex_digit (x / 16 mod 16); hex_digit (x mod 16)].

(** The 16-bit groups of an address. *)
Fixpoint groups (ip : list Z) : list Z :=
  match ip with
  | a :: b :: ip => a * 256 + b :: groups ip
  | _ => []
  end.

Fixpoint zeros (gs : list Z) : nat :=
  match gs with
  | g :: gs => if g =? 0 then S (zeros gs) else 0
  | [] => 0
  end.

(** The first longest run of two or more zero groups from index [i] on, if it is
    longer than [best]: its start and length. *)
Fixpoint zero_run (gs : list Z) (i : nat) (best : nat * nat) : nat * nat :=
  match gs with
  | [] => best
  | g :: gs' =>
      let l := zeros gs in
      zero_run gs' (S i) (if (2 <=? l)%nat && (best.2 <? l)%nat then (i, l) else best)
  end.

(** Groups separated by colons. *)
Fixpoint colon_groups (gs : list Z) : list Z :=
  match gs with
  | [] => []
  | [g] => hex_string g
  | g :: gs => hex_string g ++ 58 :: colon_groups gs
  end.

Definition ipv6_string (ip : IP) : list Z :=
  let gs := groups ip in
  let '(start, len) := zero_run gs 0 (0%nat, 0%nat) in
  if (len =? 0)%nat then colon_groups gs
  else colon_groups (take start gs) ++ [58; 58] ++ colon_groups (drop (start + len) gs).

Definition ip_string (ip : IP) : list Z :=
  if (length ip =? 0)%nat then bytes "<nil>"
  else if negb ((length ip =? 4)%nat || (length ip =? 16)%nat) then 63 :: hex_encode ip
  else match To4 ip with
       | Some ip4 => ipv4_string ip4
       | None => ipv6_string ip
       end.

Definition IP_String (ip : IP) : string := str (ip_string ip).

(** * Classes *)

Definition byte_at (i : nat) (ip : IP) : Z := nth i ip 0.

(** [IP.Equal]. *)
Definition ip_equal (x y : IP) : bool := bool_decide (To16 x = To16 y).

Definition IPv4zero : IP := v4_prefix ++ [0; 0; 0; 0].
Definition IPv6unspecified : IP := replicate 16 0.
Definition IPv6loopback : IP := replicate 15 0 ++ [1].

Definition IsUnspecified (ip : IP) : bool := ip_equal ip IPv4zero || ip_equal ip IPv6unspecified.

Definition IsLoopback (ip : IP) : bool :=
  match To4 ip with
  | Some ip4 => byte_at 0 ip4 =? 127
  | None => ip_equal ip IPv6loopback
  end.

Definition IsPrivate (ip : IP) : bool :=
  match To4 ip with
  | Some ip4 =>
      (byte_at 0 ip4 =? 10)
      || ((byte_at 0 ip4 =? 172) && (Z.land (byte_at 1 ip4) 240 =? 16))
      || ((byte_at 0 ip4 =? 192) && (byte_at 1 ip4 =? 168))
  | None => (length ip =? 16)%nat && (Z.land (byte_at 0 ip) 254 =? 252)
  end.

Definition IsMulticast (ip : IP) : bool :=
  match To4 ip with
  | Some ip4 => Z.land (byte_at 0 ip4) 240 =? 224
  | None => (length ip =? 16)%nat && (byte_at 0 ip =? 255)
  end.

Definition IsLinkLocalUnicast (ip : IP) : bool :=
  match To4 ip with
  | Some ip4 => (byte_at 0 ip4 =? 169) && (byte_at 1 ip4 =? 254)
  | None => (length ip =? 16)%nat && (byte_at 0 ip =? 254) && (Z.land (byte_at 1 ip) 192 =? 128)
  end.

Definition IsLinkLocalMulticast (ip : IP) : bool :=
  match To4 ip with
  | Some ip4 => (byte_at 0 ip4 =? 224) && (byte_at 1 ip4 =? 0) && (byte_at 2 ip4 =? 0)
  | None => (length ip =? 16)%nat && (byte_at 0 ip =? 255) && (Z.land (byte_at 1 ip) 15 =? 2)
  end.

(** * Hosts and ports *)

Fixpoint last_index (b : Z) (l : list Z) : option nat :=
  match l with
  | [] => None
  | x :: l =>
      match last_index b l with
      | Some i => Some (S i)
      | None => if x =? b then Some 0%nat else None
      end
  end.

Fixpoint index (b : Z) (l : list Z) : option nat :=
  match l with
  | [] => None
  | x :: l => if x =? b then Some 0%nat else S <$> index b l
  end.

(** [net.SplitHostPort]; [None] is an error. *)
Definition split_host_port (s : list Z) : option (list Z * list Z) :=
  match last_index 58 s with
  | None => None
  | Some i =>
      let res :=
        if has_prefix [91] s then
          match index 93 s with
          | None => None
          | Some e =>
              if (e + 1 =? length s)%nat then None
              else if (e + 1 =? i)%nat then Some (take (e - 1) (drop 1 s), 1%nat, (e + 1)%nat)
              else None
          end
        else
          let host := take i s in
          if existsb (Z.eqb 58) host then None else Some (host, 0%nat, 0%nat) in
      match res with
      | None => None
      | Some (host, j, k) =>
          if existsb (Z.eqb 91) (drop j s) then None
          else if existsb (Z.eqb 93) (drop k s) then None
          else Some (host, drop (i + 1) s)
      end
  end.

Definition SplitHostPort (s : string) : option (string * string) :=
  (λ hp : list Z * list Z, (str hp.1, str hp.2)) <$> split_host_port (bytes s).

(** [net.JoinHostPort]. *)
Definition JoinHostPort (host port : string) : string :=
  if existsb (Z.eqb 58) (bytes host) || existsb (Z.eqb 37) (bytes host)
  then "[" +:+ host +:+ "]:" +:+ port else host +:+ ":" +:+ port.

(** [URL.Hostname]: the host without port and brackets. *)
Definition hostname (hostport : list Z) : list Z :=
  let host :=
    match last_index 58 hostport with
    | Some i => if forallb is_digit (drop (i + 1) hostport) then take i hostport else hostport
    | None => hostport
    end in
  if has_prefix [91] host && bool_decide (list.last host = Some 93) then take (length host - 2) (drop 1 host)
  else host.

Definition Hostname (host : string) : string := str (hostname (bytes host)).

Example parse_print :
  map (λ s, str ∘ ip_string <$> ParseIP s)
    ["1.2.3.4"; "::ffff:10.0.0.1"; "FE80::1"; "1:0:0:2:0:0:0:3"; "::"; "1::"; "::1.2.3.4"; "1:2:3:4:5:6:7:8";
     "1:2:3:4:5:6:7::"; "01.2.3.4"; "1.2.3"; "1::2::3"; "fe80::1%25eth0"; "1:2:3:4:5:6:7:8:9"; "256.1.1.1"; ":1"; "1:"]
  = [Some "1.2.3.4"; Some "10.0.0.1"; Some "fe80::1"; Some "1:0:0:2::3"; Some "::"; Some "1::"; Some "::102:304";
     Some "1:2:3:4:5:6:7:8"; Some "1:2:3:4:5:6:7:0"; None; None; None; None; None; None; None; None].
Proof. vm_compute. reflexivity. Qed.

Example split_host_ports :
  map SplitHostPort ["a:80"; "[::1]:80"; "::1:80"; "a"; "[::1]"; "[::1]80"; ":80"; "a:"]
  = [Some ("a", "80"); Some ("::1", "80"); None; None; None; None; Some ("", "80"); Some ("a", "")].
Proof. vm_compute. reflexivity. Qed.

Example hostnames :
  map Hostname ["a:80"; "[::1]:80"; "[::1]"; "a"; "a:"; "::1"] = ["a"; "::1"; "::1"; "a"; "a"; ":"].
Proof. vm_compute. reflexivity. Qed.

(** * Round trip *)

Lemma itoa_octet x :
  0 ≤ x < 256 →
  itoa x = if x <? 10 then [48 + x]
           else if x <? 100 then [48 + x / 10; 48 + x mod 10]
           else [48 + x / 100; 48 + x / 10 mod 10; 48 + x mod 10].
Proof.
  intros Hx. unfold itoa. rewrite (proj2 (Z.ltb_ge x 0)) by lia.
  change 20%nat with (S (S (S 17))). cbn [dec_digits].
  assert (x / 10 / 10 = x / 100) as E by (rewrite Z.div_div by lia; done).
  destruct (x <? 10) eqn:E1; [done|]. bool_simpl.
  destruct (x <? 100) eqn:E2; bool_simpl.
  - rewrite (proj2 (Z.ltb_lt (x / 10) 10)) by (apply Z.div_lt_upper_bound; lia). done.
  - rewrite (proj2 (Z.ltb_ge (x / 10) 10)) by (apply Z.div_le_lower_bound; lia).
    rewrite (proj2 (Z.ltb_lt (x / 10 / 10) 10)) by (rewrite E; apply Z.div_lt_upper_bound; lia). by rewrite E.
Qed.

(** A byte that may follow an octet. *)
Definition octet_end (rest : list Z) : Prop := rest = [] ∨ ∃ r, rest = 46 :: r.

Lemma digit_step b s val n a fields :
  0 ≤ b < 10 → (n = 1%nat → val ≠ 0) → val * 10 + b ≤ 255 →
  parse_ipv4_fields (48 + b :: s) val n a fields = parse_ipv4_fields s (val * 10 + b) (S n) false fields.
Proof.
  intros Hb Hz Hv. cbn [parse_ipv4_fields]. rewrite is_digit_48 by done.
  replace ((n =? 1)%nat && (val =? 0)) with false
    by (destruct (n =? 1)%nat eqn:E; [|done]; apply Nat.eqb_eq in E; symmetry; apply Z.eqb_neq; auto).
  replace (val * 10 + (48 + b - 48)) with (val * 10 + b) by lia.
  by rewrite (proj2 (Z.ltb_ge 255 (val * 10 + b))) by lia.
Qed.

Lemma parse_octet x rest fields :
  0 ≤ x < 256 → ∃ k, parse_ipv4_fields (itoa x ++ rest) 0 0 true fields = parse_ipv4_fields rest x k false fields.
Proof.
  intros Hx. rewrite itoa_octet by done.
  pose proof (Z.div_mod x 10 ltac:(lia)) as D1. pose proof (Z.mod_pos_bound x 10 ltac:(lia)) as M1.
  pose proof (Z.div_mod (x / 10) 10 ltac:(lia)) as D2. pose proof (Z.mod_pos_bound (x / 10) 10 ltac:(lia)) as M2.
  rewrite Z.div_div in D2 by lia. change (10 * 10) with 100 in D2.
  destruct (x <? 10) eqn:E1; [|destruct (x <? 100) eqn:E2]; bool_simpl; cbn [app].
  - rewrite digit_step by lia. by exists 1%nat.
  - rewrite digit_step by lia. rewrite digit_step by lia. exists 2%nat. f_equal. lia.
  - rewrite digit_step by lia. rewrite digit_step by lia. rewrite digit_step by lia. exists 3%nat. f_equal. lia.
Qed.

Lemma dot_step r val n fields :
  r ≠ [] → length fields ≠ 3%nat →
  parse_ipv4_fields (46 :: r) val n false fields = parse_ipv4_fields r 0 0 true (fields ++ [val]).
Proof.
  intros Hr Hf. cbn [parse_ipv4_fields]. change (is_digit 46) with false. change (46 =? 46) with true.
  destruct r; [done|]. simpl. by rewrite (proj2 (Nat.eqb_neq _ _) Hf).
Qed.

Lemma itoa_cons x rest : 0 ≤ x < 256 → itoa x ++ rest ≠ [].
Proof. intros Hx. rewrite itoa_octet by done. by split_ifs. Qed.

Lemma ipv4_roundtrip ip : length ip = 4%nat → Forall byte_ok ip → parse_ipv4 (ipv4_string ip) = Some ip.
Proof.
  intros Hl Hb. destruct ip as [|a [|b [|c [|d [|]]]]]; try done. unfold parse_ipv4, ipv4_string.
  inversion Hb as [|? ? Ha Hb1]; inversion Hb1 as [|? ? Hb' Hb2]; inversion Hb2 as [|? ? Hc Hb3];
    inversion Hb3 as [|? ? Hd _]; subst. clear Hb Hb1 Hb2 Hb3. unfold byte_ok in *.
  destruct (parse_octet a (46 :: itoa b ++ 46 :: itoa c ++ 46 :: itoa d) [] Ha) as [k1 ->].
  rewrite dot_step by (done || by apply itoa_cons). cbn [app].
  destruct (parse_octet b (46 :: itoa c ++ 46 :: itoa d) [a] Hb') as [k2 ->].
  rewrite dot_step by (done || by apply itoa_cons). cbn [app].
  destruct (parse_octet c (46 :: itoa d) [a; b] Hc) as [k3 ->].
  rewrite dot_step by (done || (rewrite <-(app_nil_r (itoa d)); by apply itoa_cons)). cbn [app].
  rewrite <-(app_nil_r (itoa d)). by destruct (parse_octet d [] [a; b; c] Hd) as [k4 ->].
Qed.

Lemma hex_value_digit x : 0 ≤ x < 16 → hex_value (hex_digit x) = Some x.
Proof.
  intros Hx. unfold hex_digit, hex_value. destruct (x <? 10) eqn:E; bool_simpl; split_ifs; bool_simpl; f_equal; lia.
Qed.

Definition not_hex (rest : list Z) : Prop := match rest with [] => True | b :: _ => hex_value b = None end.

Lemma hex_run_end rest n acc : not_hex rest → hex_run rest n acc = Some (acc, n, rest).
Proof. destruct rest as [|b rest]; [done|]. simpl. by intros ->. Qed.

Lemma hex_run_digit x s n acc : 0 ≤ x < 16 → (n ≤ 3)%nat → hex_run (hex_digit x :: s) n acc = hex_run s (S n) (acc * 16 + x).
Proof. intros Hx Hn. cbn [hex_run]. rewrite hex_value_digit by done. by rewrite (proj2 (Nat.ltb_ge 3 n)) by done. Qed.

Lemma hex_run_string x rest :
  0 ≤ x < 65536 → not_hex rest → ∃ k, hex_run (hex_string x ++ rest) 0 0 = Some (x, S k, rest).
Proof.
  intros Hx Hr.
  pose proof (Z.div_mod x 16 ltac:(lia)) as D1. pose proof (Z.mod_pos_bound x 16 ltac:(lia)) as M1.
  pose proof (Z.div_mod (x / 16) 16 ltac:(lia)) as D2. pose proof (Z.mod_pos_bound (x / 16) 16 ltac:(lia)) as M2.
  pose proof (Z.div_mod (x / 256) 16 ltac:(lia)) as D3. pose proof (Z.mod_pos_bound (x / 256) 16 ltac:(lia)) as M3.
  rewrite Z.div_div in D2, D3 by lia. change (16 * 16) with 256 in D2. change (256 * 16) with 4096 in D3.
  unfold hex_string. destruct (x <? 16) eqn:E1; [|destruct (x <? 256) eqn:E2; [|destruct (x <? 4096) eqn:E3]];
    bool_simpl; cbn [app]; rewrite !hex_run_digit by lia; rewrite hex_run_end by done; eexists; do 3 f_equal; lia.
Qed.

(** The bytes of 16-bit groups. *)
Definition ungroup (gs : list Z) : list Z := concat (map (λ g, [g / 256; g mod 256]) gs).

Lemma ungroup_length gs : length (ungroup gs) = (2 * length gs)%nat.
Proof. induction gs as [|g gs IH]; [done|]. unfold ungroup in *. simpl. lia. Qed.

Lemma ungroup_app gs1 gs2 : ungroup (gs1 ++ gs2) = ungroup gs1 ++ ungroup gs2.
Proof. unfold ungroup. by rewrite map_app, concat_app. Qed.

Lemma ungroup_zeros n : ungroup (replicate n 0) = replicate (2 * n) 0.
Proof.
  induction n as [|n IH]; [done|]. replace (2 * S n)%nat with (S (S (2 * n))) by lia.
  unfold ungroup in *. simpl. by rewrite IH.
Qed.

Definition group_ok (g : Z) : Prop := 0 ≤ g < 65536.

Lemma groups_spec n ip :
  length ip = (2 * n)%nat → Forall byte_ok ip →
  length (groups ip) = n ∧ Forall group_ok (groups ip) ∧ ungroup (groups ip) = ip.
Proof.
  revert ip. induction n as [|n IH]; intros ip Hl Hb.
  { destruct ip; [|done]. simpl. by repeat split. }
  destruct ip as [|a [|b ip]]; [simpl in Hl; lia..|].
  inversion Hb as [|? ? Ha Hb1]; inversion Hb1 as [|? ? Hb' Hb2]; subst. unfold byte_ok in *.
  destruct (IH ip) as (IH1 & IH2 & IH3); [simpl in Hl; lia|done|]. cbn [groups length]. split_and!; [by rewrite IH1| |].
  - constructor; [unfold group_ok; lia|done].
  - unfold ungroup in *. cbn [map concat app]. rewrite IH3.
    rewrite Z.div_add_l by lia. rewrite (Z.div_small b 256) by done. rewrite Z.add_0_r.
    rewrite Z.add_comm, Z_mod_plus_full, Z.mod_small by done. done.
Qed.

Lemma hex_string_hex x : 0 ≤ x < 65536 → Forall (λ b, is_Some (hex_value b)) (hex_string x).
Proof.
  intros Hx.
  pose proof (Z.mod_pos_bound x 16 ltac:(lia)). pose proof (Z.mod_pos_bound (x / 16) 16 ltac:(lia)).
  pose proof (Z.mod_pos_bound (x / 256) 16 ltac:(lia)).
  assert (∀ d, 0 ≤ d < 16 → is_Some (hex_value (hex_digit d))) as Hd by (intros d ?; rewrite hex_value_digit by done; by eexists).
  unfold hex_string. split_ifs; bool_simpl; repeat constructor; apply Hd; try done; try lia;
    split; try (apply Z.div_pos; lia); apply Z.div_lt_upper_bound; lia.
Qed.

Lemma hex_string_cons x : 0 ≤ x < 65536 → ∃ d l, hex_string x = d :: l ∧ is_Some (hex_value d).
Proof.
  intros Hx. pose proof (hex_string_hex x Hx) as Hh. destruct (hex_string x) as [|d l] eqn:E.
  { unfold hex_string in E. by split_ifs_in E. }
  inversion Hh; subst. by exists d, l.
Qed.

Lemma hex_not b : is_Some (hex_value b) → b ≠ 46 ∧ b ≠ 58 ∧ b ≠ 37 ∧ b ≠ 108 ∧ 0 ≤ b < 128 ∧ ascii_lower b ≠ 108.
Proof.
  intros [v Hv]. unfold hex_value in Hv. unfold ascii_lower. split_ifs_in Hv; try discriminate Hv; bool_simpl; split_and!; try lia;
    split_ifs; bool_simpl; lia.
Qed.

Lemma field_end n g ip e :
  group_ok g → parse_fields (S n) (hex_string g) ip e = Some ([], ip ++ [g / 256; g mod 256], e).
Proof.
  intros Hg. cbn [parse_fields]. destruct (hex_run_string g [] Hg) as [k Hk]; [done|]. rewrite app_nil_r in Hk.
  by rewrite Hk.
Qed.

Lemma field_colon n g b s ip e :
  group_ok g → b ≠ 58 →
  parse_fields (S n) (hex_string g ++ 58 :: b :: s) ip e = parse_fields n (b :: s) (ip ++ [g / 256; g mod 256]) e.
Proof.
  intros Hg Hb. cbn [parse_fields]. destruct (hex_run_string g (58 :: b :: s) Hg) as [k ->]; [done|].
  simpl. by rewrite (proj2 (Z.eqb_neq _ _) Hb).
Qed.

Lemma field_ellipsis n g s ip :
  group_ok g →
  parse_fields (S n) (hex_string g ++ 58 :: 58 :: s) ip None
  = let ip := ip ++ [g / 256; g mod 256] in
    match s with
    | [] => Some ([], ip, Some (length ip))
    | _ => parse_fields n s ip (Some (length ip))
    end.
Proof.
  intros Hg. cbn [parse_fields]. by destruct (hex_run_string g (58 :: 58 :: s) Hg) as [k ->].
Qed.

Lemma colon_groups_cons g gs : gs ≠ [] → colon_groups (g :: gs) = hex_string g ++ 58 :: colon_groups gs.
Proof. by destruct gs. Qed.

Lemma colon_groups_head gs : gs ≠ [] → Forall group_ok gs → ∃ d l, colon_groups gs = d :: l ∧ is_Some (hex_value d).
Proof.
  intros Hne Hg. destruct gs as [|g gs]; [done|]. inversion Hg; subst.
  destruct (hex_string_cons g) as (d & l & E & Hd); [done|]. destruct gs as [|g' gs].
  - simpl. rewrite E. by exists d, l.
  - rewrite colon_groups_cons by done. rewrite E. by eexists d, _.
Qed.

Lemma parse_colon gs n ip e :
  gs ≠ [] → (length gs ≤ n)%nat → Forall group_ok gs →
  parse_fields n (colon_groups gs) ip e = Some ([], ip ++ ungroup gs, e).
Proof.
  revert n ip. induction gs as [|g gs IH]; intros n ip Hne Hn Hg; [done|]. inversion Hg as [|? ? Hg1 Hg2]; subst.
  destruct n as [|n]; [simpl in Hn; lia|]. destruct (decide (gs = [])) as [->|Hgs]; [by apply field_end|].
  rewrite colon_groups_cons by done. destruct (colon_groups_head gs Hgs Hg2) as (d & l & E & Hd).
  rewrite E, field_colon by (done || apply hex_not, Hd). rewrite <-E, IH by (done || simpl in Hn; lia).
  by rewrite <-app_assoc.
Qed.

Lemma parse_colon_ellipsis gs n ip s :
  gs ≠ [] → (length gs ≤ n)%nat → Forall group_ok gs →
  parse_fields n (colon_groups gs ++ 58 :: 58 :: s) ip None
  = let ip := ip ++ ungroup gs in
    match s with
    | [] => Some ([], ip, Some (length ip))
    | _ => parse_fields (n - length gs) s ip (Some (length ip))
    end.
Proof.
  revert n ip. induction gs as [|g gs IH]; intros n ip Hne Hn Hg; [done|]. inversion Hg as [|? ? Hg1 Hg2]; subst.
  destruct n as [|n]; [simpl in Hn; lia|]. destruct (decide (gs = [])) as [->|Hgs].
  { cbn [colon_groups]. rewrite field_ellipsis by done. simpl. by rewrite Nat.sub_0_r. }
  rewrite colon_groups_cons by done. destruct (colon_groups_head gs Hgs Hg2) as (d & l & E & Hd).
  rewrite E, <-app_assoc. cbn [app]. rewrite field_colon by (done || apply hex_not, Hd).
  change (d :: l ++ 58 :: 58 :: s) with ((d :: l) ++ 58 :: 58 :: s). rewrite <-E, IH by (done || simpl in Hn; lia).
  cbv zeta. by rewrite <-app_assoc.
Qed.

Lemma parse_ipv6_plain s :
  match s with b :: _ => b ≠ 58 | [] => False end → parse_ipv6 s = parse_fields 8 s [] None ≫= finish_ipv6.
Proof.
  destruct s as [|b s]; [done|]. intros Hb. unfold parse_ipv6. cbn [has_prefix].
  by rewrite (proj2 (Z.eqb_neq 58 b)) by congruence.
Qed.

(** What [zero_run] finds is a run of zeros. *)
Definition run_of (gs : list Z) (r : nat * nat) : Prop :=
  r.2 = 0%nat ∨ (2 ≤ r.2)%nat ∧ (r.1 + r.2 ≤ length gs)%nat ∧ take r.2 (drop r.1 gs) = replicate r.2 0.

Lemma zeros_spec gs : (zeros gs ≤ length gs)%nat ∧ take (zeros gs) gs = replicate (zeros gs) 0.
Proof.
  induction gs as [|g gs [IH1 IH2]]; simpl; [done|]. destruct (Z.eqb_spec g 0) as [->|]; [|split; [lia|done]].
  simpl. split; [lia|]. by rewrite IH2.
Qed.

Lemma zero_run_spec gs1 gs2 best :
  run_of (gs1 ++ gs2) best → run_of (gs1 ++ gs2) (zero_run gs2 (length gs1) best).
Proof.
  revert gs1 best. induction gs2 as [|g gs2 IH]; intros gs1 best Hb; [done|]. cbn [zero_run].
  specialize (IH (gs1 ++ [g])). rewrite length_app, Nat.add_1_r, <-app_assoc in IH. apply IH.
  destruct (_ && _) eqn:E; [|done]. apply andb_prop in E as [E1 _]. apply Nat.leb_le in E1.
  destruct (zeros_spec (g :: gs2)) as [Z1 Z2]. right. cbn [fst snd]. split; [done|].
  cbn [app]. rewrite length_app, drop_app_length. split; [lia|done].
Qed.

Lemma split_run gs a l :
  (a + l ≤ length gs)%nat → take l (drop a gs) = replicate l 0 →
  gs = take a gs ++ replicate l 0 ++ drop (a + l) gs.
Proof. intros Hl Hr. rewrite <-Hr, <-drop_drop, take_drop, take_drop. done. Qed.

(** Groups, an ellipsis and groups, when some fields are left out. *)
Lemma parse_ellipsis g1 g2 l ip :
  (2 ≤ l)%nat → (length g1 + l ≤ 8)%nat → length g2 = (8 - (length g1 + l))%nat → Forall group_ok g1 → Forall group_ok g2 →
  ungroup g1 ++ replicate (2 * l) 0 ++ ungroup g2 = ip →
  parse_ipv6 (colon_groups g1 ++ [58; 58] ++ colon_groups g2) = Some ip.
Proof.
  intros H2 Hle L2 O1 O2 Gu.
  assert (∀ e, e = length (ungroup g1) → finish_ipv6 ([], ungroup g1 ++ ungroup g2, Some e) = Some ip) as Hfin.
  { intros e ->. cbn [finish_ipv6]. rewrite length_app, !ungroup_length.
    rewrite (proj2 (Nat.ltb_lt _ _)) by lia. rewrite <-ungroup_length, take_app_length, drop_app_length, ungroup_length.
    rewrite <-Gu. do 4 f_equal. lia. }
  assert (g2 = [] → ungroup g2 = []) as Hnil by (by intros ->).
  destruct (decide (g1 = [])) as [->|N1].
  - cbn [colon_groups app]. destruct (decide (g2 = [])) as [->|N2].
    { cbn [length] in *. assert (l = 8%nat) as -> by lia. by rewrite <-Gu. }
    destruct (colon_groups_head g2 N2 O2) as (d & t & E & Hd). unfold parse_ipv6. rewrite E. cbn [has_prefix drop Z.eqb]. rewrite <-E.
    rewrite parse_colon by (done || lia). cbn [mbind option_bind app]. by apply (Hfin 0%nat).
  - destruct (colon_groups_head g1 N1 O1) as (d & t & E & Hd). apply hex_not in Hd as (_ & Hd & _).
    rewrite parse_ipv6_plain by (rewrite E; done). cbn [app]. rewrite parse_colon_ellipsis by (done || lia). cbv zeta.
    destruct (decide (g2 = [])) as [->|N2].
    { cbn [colon_groups mbind option_bind app]. rewrite <-(app_nil_r (ungroup g1)) at 1. by apply Hfin. }
    destruct (colon_groups_head g2 N2 O2) as (d2 & t2 & E2 & Hd2). rewrite E2. cbv iota beta. rewrite <-E2.
    rewrite parse_colon by (done || lia). cbn [mbind option_bind app]. by apply Hfin.
Qed.

Lemma ipv6_roundtrip ip : length ip = 16%nat → Forall byte_ok ip → parse_ipv6 (ipv6_string ip) = Some ip.
Proof.
  intros Hl Hb. destruct (groups_spec 8 ip) as (Gl & Gok & Gu); [done..|]. unfold ipv6_string. cbv zeta.
  pose proof (zero_run_spec [] (groups ip) (0, 0)%nat (or_introl eq_refl)) as Hr. cbn [app length] in Hr.
  destruct (zero_run (groups ip) 0 (0, 0)%nat) as [a l]. destruct Hr as [Hz|(H2 & Hle & Hz)]; cbn [fst snd] in *.
  - subst l. cbn [Nat.eqb]. assert (groups ip ≠ []) as Hne by (intros E; by rewrite E in Gl).
    destruct (colon_groups_head (groups ip) Hne Gok) as (d & t & E & Hd). apply hex_not in Hd as (_ & Hd & _).
    rewrite parse_ipv6_plain by (rewrite E; done).
    rewrite parse_colon by (done || lia). cbn [mbind option_bind finish_ipv6 app]. rewrite Gu, Hl. done.
  - rewrite (proj2 (Nat.eqb_neq l 0)) by lia. rewrite Gl in Hle.
    pose proof (split_run _ a l ltac:(by rewrite Gl) Hz) as Hs.
    set (g1 := take a (groups ip)) in *. set (g2 := drop (a + l) (groups ip)) in *.
    assert (length g1 = a) as L1 by (unfold g1; rewrite length_take; lia).
    assert (length g2 = 8 - (a + l))%nat as L2 by (unfold g2; rewrite length_drop; lia).
    assert (Forall group_ok g1) as O1 by (by apply Forall_take).
    assert (Forall group_ok g2) as O2 by (by apply Forall_drop).
    rewrite Hs, !ungroup_app, ungroup_zeros in Gu. clear Hs Hz Gok. clearbody g1 g2.
    subst a. by apply (parse_ellipsis g1 g2 l).
Qed.

Lemma addr_kind_hex l s : Forall (λ b, is_Some (hex_value b)) l → addr_kind (l ++ s) = addr_kind s.
Proof.
  induction 1 as [|b l Hb _ IH]; [done|]. cbn [app addr_kind]. apply hex_not in Hb as (? & ? & ? & _).
  by rewrite !(proj2 (Z.eqb_neq _ _)) by done.
Qed.

Lemma no_percent_hex l : Forall (λ b, is_Some (hex_value b)) l → existsb (Z.eqb 37) l = false.
Proof.
  induction 1 as [|b l Hb _ IH]; [done|]. cbn [existsb]. apply hex_not in Hb as (? & ? & ? & _).
  by rewrite (proj2 (Z.eqb_neq 37 b)) by congruence.
Qed.

Lemma no_percent_colon gs : Forall group_ok gs → existsb (Z.eqb 37) (colon_groups gs) = false.
Proof.
  induction gs as [|g gs IH]; [done|]. intros Hg. inversion Hg as [|? ? H1 H2]; subst.
  destruct (decide (gs = [])) as [->|Hne]; [by apply no_percent_hex, hex_string_hex|].
  rewrite colon_groups_cons, existsb_app by done. cbn [existsb]. rewrite IH, no_percent_hex by (done || by apply hex_string_hex).
  done.
Qed.

Lemma addr_kind_colon gs s :
  Forall group_ok gs → addr_kind (colon_groups gs ++ 58 :: s) = Some false.
Proof.
  destruct gs as [|g gs]; [done|]. intros Hg. inversion Hg as [|? ? H1 H2]; subst.
  destruct (decide (gs = [])) as [->|Hne]; [by apply (addr_kind_hex (hex_string g)), hex_string_hex|].
  rewrite colon_groups_cons, <-app_assoc by done. by rewrite addr_kind_hex by (by apply hex_string_hex).
Qed.

Lemma ipv6_string_kind ip :
  length ip = 16%nat → Forall byte_ok ip →
  addr_kind (ipv6_string ip) = Some false ∧ existsb (Z.eqb 37) (ipv6_string ip) = false.
Proof.
  intros Hl Hb. destruct (groups_spec 8 ip) as (Gl & Gok & Gu); [done..|]. unfold ipv6_string. cbv zeta.
  destruct (zero_run (groups ip) 0 (0, 0)%nat) as [a l]. destruct (l =? 0)%nat.
  - split; [|by apply no_percent_colon]. destruct (groups ip) as [|g [|g' gs]]; [done..|].
    inversion Gok; subst. rewrite colon_groups_cons by done. by rewrite addr_kind_hex by (by apply hex_string_hex).
  - split; [by apply addr_kind_colon, Forall_take|]. rewrite !existsb_app, !no_percent_colon; [done|..].
    + by apply Forall_drop.
    + by apply Forall_take.
Qed.

Lemma itoa_digits x : 0 ≤ x < 256 → Forall (λ b, is_Some (hex_value b)) (itoa x).
Proof.
  intros Hx. assert (∀ d, 0 ≤ d < 10 → is_Some (hex_value (48 + d))) as Hd.
  { intros d ?. unfold hex_value. rewrite !(proj2 (Z.leb_le _ _)) by lia. by eexists. }
  rewrite itoa_octet by done. pose proof (Z.mod_pos_bound x 10 ltac:(lia)). pose proof (Z.mod_pos_bound (x / 10) 10 ltac:(lia)).
  split_ifs; bool_simpl; repeat constructor; apply Hd; try lia;
    split; try (apply Z.div_pos; lia); apply Z.div_lt_upper_bound; lia.
Qed.

Lemma ipv4_string_cons ip :
  length ip = 4%nat → Forall byte_ok ip → ∃ l s, ipv4_string ip = l ++ 46 :: s ∧ l ≠ [] ∧ Forall (λ b, is_Some (hex_value b)) l.
Proof.
  intros Hl Hb. destruct ip as [|a [|b [|c [|d [|]]]]]; try done. inversion Hb; subst. cbn [ipv4_string].
  eexists _, _. split; [done|]. split; [|by apply itoa_digits]. rewrite <-(app_nil_r (itoa a)). by apply itoa_cons.
Qed.

Lemma To4_spec ip ip4 : ip_ok ip → To4 ip = Some ip4 → length ip4 = 4%nat ∧ Forall byte_ok ip4 ∧ To16 ip = v4_prefix ++ ip4.
Proof.
  intros [Hl Hb]. unfold To4, To16. destruct Hl as [Hl|Hl]; rewrite Hl; cbn [Nat.eqb andb].
  - by intros [= <-].
  - case_bool_decide as Hp; [|done]. intros [= <-]. rewrite length_drop, Hl. split; [done|].
    split; [by apply Forall_drop|]. by rewrite <-Hp, take_drop.
Qed.

Lemma To16_ok ip : ip_ok ip → length (To16 ip) = 16%nat ∧ Forall byte_ok (To16 ip).
Proof.
  intros [[Hl|Hl] Hb]; unfold To16; rewrite Hl; simpl; [|by rewrite Hl].
  rewrite Hl. split; [done|]. unfold byte_ok in *. repeat (constructor; [lia|]). done.
Qed.

Lemma To4_None ip : ip_ok ip → To4 ip = None → length ip = 16%nat ∧ To16 ip = ip.
Proof. intros [[Hl|Hl] Hb]; unfold To4, To16; by rewrite Hl. Qed.

Lemma To4_To16 ip : ip_ok ip → To4 (To16 ip) = To4 ip.
Proof. intros [[Hl|Hl] Hb]; unfold To4, To16; rewrite Hl; simpl; by rewrite ?Hl. Qed.

Lemma ip_string_eq ip :
  ip_ok ip → ip_string ip = match To4 ip with Some ip4 => ipv4_string ip4 | None => ipv6_string ip end.
Proof. intros [[Hl|Hl] _]; unfold ip_string; by rewrite Hl. Qed.

(** Printing an address and parsing the text gives the address back. *)
Lemma ip_roundtrip ip : ip_ok ip → parse_ip (ip_string ip) = Some (To16 ip).
Proof.
  intros Hok. rewrite ip_string_eq by done. destruct (To4 ip) as [ip4|] eqn:E4.
  - destruct (To4_spec _ _ Hok E4) as (Hl & Hb & ->). unfold parse_ip.
    destruct (ipv4_string_cons ip4 Hl Hb) as (l & s & E & _ & Hh). rewrite E, addr_kind_hex by done. cbn [addr_kind Z.eqb].
    simpl. rewrite <-E, ipv4_roundtrip by done. simpl. unfold To16. by rewrite Hl.
  - destruct (To4_None _ Hok E4) as [Hl ->]. destruct Hok as [_ Hb]. unfold parse_ip.
    destruct (ipv6_string_kind ip Hl Hb) as [-> ->]. by apply ipv6_roundtrip.
Qed.

(** * What parses is an address *)

Lemma parse_ipv4_fields_ok s val n a fields r :
  parse_ipv4_fields s val n a fields = Some r → byte_ok val → Forall byte_ok fields → (length fields ≤ 3)%nat →
  length r = 4%nat ∧ Forall byte_ok r.
Proof.
  revert val n a fields. induction s as [|b s IH]; intros val n a fields; cbn [parse_ipv4_fields].
  - destruct (Nat.ltb_spec (length fields) 3); [done|]. intros [= <-] Hv Hf Hl. rewrite length_app. simpl. split; [lia|].
    by apply Forall_app_2, Forall_singleton.
  - destruct (is_digit b) eqn:Ed.
    + destruct (_ && _); [done|]. cbv zeta. destruct (255 <? _) eqn:E; [done|]. intros Hp Hv. apply (IH _ _ _ _ Hp).
      unfold is_digit, byte_ok in *. bool_simpl. lia.
    + destruct (b =? 46); [|done]. destruct (_ || _); [done|]. destruct (Nat.eqb_spec (length fields) 3); [done|].
      intros Hp Hv Hf Hl. apply (IH _ _ _ _ Hp); [unfold byte_ok; lia| |rewrite length_app; simpl; lia].
      by apply Forall_app_2, Forall_singleton.
Qed.

Lemma parse_ipv4_ok s r : parse_ipv4 s = Some r → length r = 4%nat ∧ Forall byte_ok r.
Proof. intros Hp. eapply parse_ipv4_fields_ok; [exact Hp|unfold byte_ok; lia|constructor|simpl; lia]. Qed.

Lemma hex_run_ok s off acc v k rest :
  hex_run s off acc = Some (v, k, rest) → (off ≤ 4)%nat → 0 ≤ acc < 16 ^ Z.of_nat off → 0 ≤ v < 65536.
Proof.
  revert off acc. induction s as [|b s IH]; intros off acc; cbn [hex_run].
  - intros [= <- <- <-] Ho Ha. split; [lia|]. assert (16 ^ Z.of_nat off ≤ 16 ^ 4) by (apply Z.pow_le_mono_r; lia). lia.
  - destruct (hex_value b) as [d|] eqn:Ed.
    + destruct (Nat.ltb_spec 3 off); [done|]. intros Hr Ho Ha. apply (IH _ _ Hr); [lia|].
      apply hex_value_range in Ed. rewrite Nat2Z.inj_succ, Z.pow_succ_r by lia. lia.
    + intros [= <- <- <-] Ho Ha. split; [lia|]. assert (16 ^ Z.of_nat off ≤ 16 ^ 4) by (apply Z.pow_le_mono_r; lia). lia.
Qed.

(** What the loop has read: at most 16 bytes, and an ellipsis among them. *)
Definition fields_ok (ip : list Z) (e : option nat) : Prop :=
  Forall byte_ok ip ∧ (length ip ≤ 16)%nat ∧ (∀ k, e = Some k → (k ≤ length ip)%nat).

Lemma fields_ok_snoc ip e acc :
  fields_ok ip e → 0 ≤ acc < 65536 → (length ip ≤ 14)%nat → fields_ok (ip ++ [acc / 256; acc mod 256]) e.
Proof.
  intros (Hb & Hl & He) Ha H14. split_and!.
  - apply Forall_app. split; [done|]. pose proof (Z.mod_pos_bound acc 256 ltac:(lia)).
    assert (0 ≤ acc / 256 < 256) by (split; [apply Z.div_pos; lia|apply Z.div_lt_upper_bound; lia]).
    by repeat (constructor; [done|]).
  - rewrite length_app. simpl. lia.
  - intros k Hk. specialize (He k Hk). rewrite length_app. lia.
Qed.

Lemma fields_ok_ellipsis ip e : fields_ok ip e → fields_ok ip (Some (length ip)).
Proof. intros (Hb & Hl & He). split_and!; [done|done|]. by intros k [= <-]. Qed.

Lemma parse_fields_ok n s ip e s' ip' e' :
  parse_fields n s ip e = Some (s', ip', e') → fields_ok ip e → (length ip + 2 * n = 16)%nat → fields_ok ip' e'.
Proof.
  revert s ip e. induction n as [|n IH]; intros s ip e; cbn [parse_fields]; [by intros [= <- <- <-]|].
  destruct (hex_run s 0 0) as [[[acc off] rest]|] eqn:Eh; [|done]. apply hex_run_ok in Eh; [|lia|done].
  destruct (off =? 0)%nat; [done|]. intros Hp Hok Hl.
  assert (fields_ok (ip ++ [acc / 256; acc mod 256]) e) as Hsnoc by (apply fields_ok_snoc; [done|done|lia]).
  assert (length (ip ++ [(acc / 256)%Z; (acc mod 256)%Z]) + 2 * n = 16)%nat as Hl' by (rewrite length_app; simpl; lia).
  revert Hp. cbv zeta. destruct rest as [|b s1]; [by intros [= <- <- <-]|]. destruct (b =? 46).
  { destruct (_ && _); [done|]. destruct (Nat.ltb_spec 16 (length ip + 4)); [done|].
    destruct (parse_ipv4 s) as [quad|] eqn:Eq; [|done]. apply parse_ipv4_ok in Eq as [Lq Bq]. intros [= <- <- <-].
    destruct Hok as (Hb & _ & He). split_and!; [by apply Forall_app|rewrite length_app; lia|].
    intros k Hk. specialize (He k Hk). rewrite length_app. lia. }
  destruct (negb (b =? 58)); [done|]. destruct s1 as [|b2 s2]; [done|]. destruct (b2 =? 58).
  - destruct e; [done|]. apply fields_ok_ellipsis in Hsnoc. destruct s2; [by intros [= <- <- <-]|].
    intros Hp. by apply (IH _ _ _ Hp).
  - intros Hp. by apply (IH _ _ _ Hp).
Qed.

Lemma finish_ipv6_ok s ip e r :
  finish_ipv6 (s, ip, e) = Some r → fields_ok ip e → length r = 16%nat ∧ Forall byte_ok r.
Proof.
  intros Hf (Hb & Hl & He). cbn [finish_ipv6] in Hf. destruct s; [|done]. destruct (Nat.ltb_spec (length ip) 16).
  - destruct e as [k|]; [|done]. injection Hf as <-. specialize (He k eq_refl).
    rewrite !length_app, length_take, length_replicate, length_drop. split; [lia|].
    repeat apply Forall_app_2; [by apply Forall_take| |by apply Forall_drop].
    apply Forall_replicate. unfold byte_ok. lia.
  - destruct e; [done|]. injection Hf as <-. split; [lia|done].
Qed.

Lemma parse_ipv6_ok s r : parse_ipv6 s = Some r → length r = 16%nat ∧ Forall byte_ok r.
Proof.
  assert (∀ s0 e, (e = None ∨ e = Some 0%nat) → parse_fields 8 s0 [] e ≫= finish_ipv6 = Some r →
            length r = 16%nat ∧ Forall byte_ok r) as Hgo.
  { intros s0 e He Hp. destruct (parse_fields 8 s0 [] e) as [[[s1 ip] e1]|] eqn:E; [|done].
    apply (finish_ipv6_ok s1 ip e1 r Hp). apply (parse_fields_ok _ _ _ _ _ _ _ E); [|done].
    split_and!; [constructor|simpl; lia|]. intros k ->. destruct He as [|[= ->]]; [done|simpl; lia]. }
  unfold parse_ipv6. destruct (has_prefix _ _); [|by apply Hgo; left]. destruct (drop 2 s) as [|b t]; [|by apply Hgo; right].
  intros [= <-]. split; [done|]. unfold byte_ok. by repeat (constructor; [lia|]).
Qed.

Lemma ParseIP_ok s ip : ParseIP s = Some ip → ip_ok ip ∧ length ip = 16%nat.
Proof.
  unfold ParseIP, parse_ip. destruct (addr_kind (bytes s)) as [[]|]; [| |done].
  - destruct (parse_ipv4 (bytes s)) as [ip4|] eqn:E; [|done]. apply parse_ipv4_ok in E as [Hl Hb].
    simpl. intros [= <-]. destruct (To16_ok ip4) as [H1 H2]; [by split; [left|]|]. by split; [split; [right|]|].
  - destruct (existsb _ _); [done|]. intros E. apply parse_ipv6_ok in E as [Hl Hb]. by split; [split; [right|]|].
Qed.

(** The text of an address has hex digits, dots and colons only. *)
Definition ip_char (b : Z) : Prop := is_Some (hex_value b) ∨ b = 46 ∨ b = 58.

Lemma ip_char_visible b : ip_char b → visible b.
Proof.
  intros [Hb|[->| ->]]; [|done..]. unfold hex_value in Hb. unfold visible. split_ifs_in Hb; bool_simpl; lia || by destruct Hb.
Qed.

Lemma hex_chars l : Forall (λ b, is_Some (hex_value b)) l → Forall ip_char l.
Proof. apply List.Forall_impl. intros b Hb. by left. Qed.

Lemma colon_groups_chars gs : Forall group_ok gs → Forall ip_char (colon_groups gs).
Proof.
  induction gs as [|g gs IH]; intros Hg; [constructor|]. inversion Hg as [|? ? H1 H2]; subst.
  destruct (decide (gs = [])) as [->|Hne]; [by apply hex_chars, hex_string_hex|]. rewrite colon_groups_cons by done.
  apply Forall_app_2; [by apply hex_chars, hex_string_hex|]. constructor; [by right; right|auto].
Qed.

Lemma ip_string_chars ip : ip_ok ip → Forall ip_char (ip_string ip).
Proof.
  intros Hok. rewrite ip_string_eq by done. destruct (To4 ip) as [ip4|] eqn:E4.
  - destruct (To4_spec _ _ Hok E4) as (Hl & Hb & _). destruct ip4 as [|a [|b [|c [|d [|]]]]]; try done.
    inversion Hb as [|? ? Ha Hb1]; inversion Hb1 as [|? ? Hb' Hb2]; inversion Hb2 as [|? ? Hc Hb3];
      inversion Hb3 as [|? ? Hd _]; subst. cbn [ipv4_string].
    assert (∀ x, byte_ok x → Forall ip_char (itoa x)) as Hx by (intros x ?; by apply hex_chars, itoa_digits).
    assert (ip_char 46) by (by right; left).
    repeat first [apply Forall_app_2; [by apply Hx|]|constructor; [done|]]. by apply Hx.
  - destruct (To4_None _ Hok E4) as [Hl _]. destruct Hok as [_ Hb]. destruct (groups_spec 8 ip) as (Gl & Gok & Gu); [done..|].
    unfold ipv6_string. cbv zeta. destruct (zero_run _ _ _) as [s l]. destruct (l =? 0)%nat; [by apply colon_groups_chars|].
    assert (ip_char 58) by (by right; right).
    apply Forall_app_2; [by apply colon_groups_chars, Forall_take|].
    apply Forall_app_2; [by repeat (constructor; [done|])|by apply colon_groups_chars, Forall_drop].
Qed.

Lemma ip_string_visible ip : ip_ok ip → Forall visible (ip_string ip).
Proof. intros Hok. eapply List.Forall_impl; [apply ip_char_visible|by apply ip_string_chars]. Qed.

Lemma bytes_IP_String ip : ip_ok ip → bytes (IP_String ip) = ip_string ip.
Proof. intros Hok. apply bytes_str, visible_byte, ip_string_visible, Hok. Qed.

Lemma ParseIP_String ip : ip_ok ip → ParseIP (IP_String ip) = Some (To16 ip).
Proof. intros Hok. unfold ParseIP. rewrite bytes_IP_String by done. by apply ip_roundtrip. Qed.

Lemma ip_string_head ip : ip_ok ip → ∃ b s, ip_string ip = b :: s ∧ 0 ≤ b < 128 ∧ ascii_lower b ≠ 108.
Proof.
  intros Hok. rewrite ip_string_eq by done. destruct (To4 ip) as [ip4|] eqn:E4.
  - destruct (To4_spec _ _ Hok E4) as (Hl & Hb & _). destruct (ipv4_string_cons ip4 Hl Hb) as (l & s & E & Hne & Hh).
    destruct l as [|b l]; [done|]. inversion Hh as [|? ? Hd _]; subst. rewrite E. apply hex_not in Hd as (_ & _ & _ & _ & Hr & Hn). by eexists b, _.
  - destruct (To4_None _ Hok E4) as [Hl _]. destruct Hok as [_ Hb]. destruct (groups_spec 8 ip) as (Gl & Gok & Gu); [done..|].
    assert (∀ gs, gs ≠ [] → Forall group_ok gs → ∃ b s, colon_groups gs = b :: s ∧ 0 ≤ b < 128 ∧ ascii_lower b ≠ 108) as Hc.
    { intros gs Hne Hg. destruct (colon_groups_head gs Hne Hg) as (d & l & E & Hd). apply hex_not in Hd as (_ & _ & _ & _ & Hr & Hn). by exists d, l. }
    unfold ipv6_string. cbv zeta. destruct (zero_run _ _ _) as [s l]. destruct (l =? 0)%nat.
    { apply Hc; [|done]. intros E. by rewrite E in Gl. }
    destruct (decide (take s (groups ip) = [])) as [->|Hne]; [by eexists 58, _|].
    destruct (Hc (take s (groups ip)) Hne ltac:(by apply Forall_take)) as (b & t & E & Hp). rewrite E. by eexists b, _.
Qed.

Lemma IP_String_not_localhost `{UnicodeTables} ip : ip_ok ip → to_lower (IP_String ip) ≠ "localhost".
Proof.
  intros Hok E. unfold to_lower in E. rewrite bytes_IP_String in E by done.
  pose proof (ip_string_visible ip Hok) as Hv. rewrite visible_ascii in E by done.
  destruct (ip_string_head ip Hok) as (b & s & Es & Hb & Hne). rewrite Es in E. cbn [map] in E.
  apply (f_equal bytes) in E. revert E. rewrite bytes_str; [by intros [= E _]|].
  rewrite Es in Hv. apply (List.Forall_map ascii_lower byte_ok (b :: s)). eapply List.Forall_impl; [|exact Hv]. intros x Hx. unfold visible in Hx.
  simpl. unfold byte_ok, ascii_lower. split_ifs; bool_simpl; lia.
Qed.
