(* ===== verification/RelayURL.v ===== *)
(** Relay URLs and the hosts behind them, [internal/relayurl/normalize.go]: the
    normal form under which relays are configured, connected and stored, its
    compact key, and the checks that keep private addresses out.

    [net/url]'s parser is a parameter: a text is refused with an error or taken
    apart into the fields the code reads. *)

From Stdlib Require Import Btauto.
From S2P Require Import Prelude GoLib Sha256 GoNet.

(** The fields of [url.URL] that are read; [HasUser] is [User != nil] and
    [PEscapedPath] the result of [EscapedPath()]. *)
Record ParsedURL := mkURL {
  PScheme : string;
  PHost : string;
  PFragment : string;
  PRawQuery : string;
  PHasUser : bool;
  PEscapedPath : string;
}.

Class URLParser := { url_Parse : string → result ParsedURL }.

(** * Hosts *)

Section hosts.
Context `{UnicodeTables}.

Definition rejectPrivateHost (hostname : string) : result unit :=
  if bool_decide (to_lower hostname = "localhost") then Err "localhost is not allowed"
  else
    let ip :=
      match ParseIP hostname with
      | Some ip => Some ip
      | None =>
          match SplitHostPort hostname with
          | Some (host, _) => ParseIP host
          | None => None
          end
      end in
    match ip with
    | Some ip =>
        if IsLoopback ip || IsPrivate ip || IsLinkLocalUnicast ip || IsLinkLocalMulticast ip
        then Err ("private/local IP address " +:+ IP_String ip +:+ " is not allowed")
        else Ok tt
    | None => Ok tt
    end.

Definition HostIsPublic (hostname : string) : result unit :=
  let host :=
    match ParseIP hostname with
    | Some ip => match To4 ip with Some ip4 => IP_String ip4 | None => hostname end
    | None => hostname
    end in
  match rejectPrivateHost host with
  | Err e => Err e
  | Ok _ =>
      match ParseIP host with
      | Some ip =>
          if IsUnspecified ip || IsMulticast ip
          then Err ("non-public IP address " +:+ IP_String ip +:+ " is not allowed")
          else Ok tt
      | None => Ok tt
      end
  end.
End hosts.

(** * URLs *)

Section normalize.
Context `{UnicodeTables} `{URLParser}.

Definition Normalize (raw : string) (requireTLS : bool) : result string :=
  match url_Parse (trim_space raw) with
  | Err e => Err ("parse: " +:+ e)
  | Ok parsed =>
      if bool_decide (PHost parsed = "") then Err "host is required"
      else if negb (bool_decide (PFragment parsed = "")) then Err "fragments are not allowed"
      else if negb (bool_decide (PRawQuery parsed = "")) then Err "query parameters are not allowed"
      else if PHasUser parsed then Err "userinfo is not allowed"
      else
        let scheme := to_lower (PScheme parsed) in
        let accept :=
          let host := to_lower (PHost parsed) in
          let path := trim_space (PEscapedPath parsed) in
          let path := if bool_decide (path = "/") then "" else path in
          Ok (scheme +:+ "://" +:+ host +:+ path) in
        if bool_decide (scheme = "wss") then accept
        else if bool_decide (scheme = "ws") then
          if requireTLS then Err "ws scheme is disallowed when TLS is required" else accept
        else Err "scheme must be ws or wss"
  end.

Definition Validate (normalized : string) (allowPrivateNetwork : bool) : result unit :=
  if bool_decide (normalized = "") then Err "empty relay URL"
  else
    match url_Parse normalized with
    | Err e => Err ("parse: " +:+ e)
    | Ok parsed =>
        let hostname := Hostname (PHost parsed) in
        if bool_decide (hostname = "") then Err "hostname is required"
        else if negb allowPrivateNetwork then rejectPrivateHost hostname
        else Ok tt
    end.

Definition NormalizePublic (raw : string) : result string :=
  match Normalize raw false with
  | Err e => Err e
  | Ok normalized =>
      match Validate normalized false with
      | Err e => Err e
      | Ok _ => Ok normalized
      end
  end.

Definition CanonicalKey (normalized : string) : string :=
  str (hex_encode (take 16 (sha256 (bytes normalized)))).
End normalize.

(** * Address blocks *)

(** Whether the first [n] bits of an address are those of [p]. *)
Fixpoint in_cidr (ip p : list Z) (n : nat) : bool :=
  match ip, p with
  | b :: ip, c :: p =>
      if (n <=? 8)%nat then b / 2 ^ (8 - Z.of_nat n) =? c / 2 ^ (8 - Z.of_nat n)
      else (b =? c) && in_cidr ip p (n - 8)
  | _, _ => true
  end.

(** A block of IPv4 addresses, in the mapped form, and one of IPv6 addresses. *)
Definition cidr4 (a b c d : Z) (n : nat) : list Z * nat := (v4_prefix ++ [a; b; c; d], (96 + n)%nat).
Definition cidr6 (a b : Z) (n : nat) : list Z * nat := (a :: b :: replicate 14 0, n).

Definition in_blocks (bs : list (list Z * nat)) (ip : IP) : bool :=
  existsb (λ b : list Z * nat, in_cidr (To16 ip) b.1 b.2) bs.

(** Loopback, private and link-local addresses of both families. *)
Definition local_blocks : list (list Z * nat) :=
  [cidr4 127 0 0 0 8; cidr4 10 0 0 0 8; cidr4 172 16 0 0 12; cidr4 192 168 0 0 16; cidr4 169 254 0 0 16;
   cidr4 224 0 0 0 24; (IPv6loopback, 128%nat); cidr6 252 0 7; cidr6 254 128 10].

(** All of them with the multicast and the unspecified addresses. *)
Definition non_public_blocks : list (list Z * nat) :=
  local_blocks ++ [cidr4 224 0 0 0 4; cidr6 255 0 8; cidr4 0 0 0 0 32; cidr6 0 0 128].

Definition public_ip (ip : IP) : Prop := in_blocks non_public_blocks ip = false.

(** Membership from the masks of the code. *)
Lemma mask_check (P : Z → bool) : forallb P (seqZ 0 256) = true → ∀ b, byte_ok b → P b = true.
Proof.
  intros Hf b Hb. rewrite forallb_forall in Hf. apply Hf, list_elem_of_In, elem_of_seqZ. unfold byte_ok in Hb. lia.
Qed.

Lemma mask_eq (f g : Z → bool) b :
  forallb (λ b, Bool.eqb (f b) (g b)) (seqZ 0 256) = true → byte_ok b → f b = g b.
Proof. intros Hf Hb. apply eqb_prop, (mask_check (λ b, Bool.eqb (f b) (g b))); done. Qed.

Lemma div_1 x : x / 2 ^ (8 - Z.of_nat 8) = x.
Proof. apply Z.div_1_r. Qed.

Lemma in_cidr_app p1 p2 r1 r2 n :
  length p1 = length p2 → (0 < n)%nat →
  in_cidr (p1 ++ r1) (p2 ++ r2) (8 * length p1 + n) = bool_decide (p1 = p2) && in_cidr r1 r2 n.
Proof.
  revert p2. induction p1 as [|b p1 IH]; intros [|c p2] Hl Hn; try done. cbn [app in_cidr length].
  rewrite (proj2 (Nat.leb_gt _ 8)) by lia. replace (8 * S (length p1) + n - 8)%nat with (8 * length p1 + n)%nat by lia.
  rewrite IH by (done || simpl in Hl; lia). destruct (Z.eqb_spec b c) as [->|Hne].
  - cbn [andb]. f_equal. apply bool_decide_ext. split; [by intros ->|by intros [= ->]].
  - rewrite (bool_decide_eq_false_2 (b :: p1 = c :: p2)); [done|]. congruence.
Qed.

Lemma cidr4_v4 ip4 a b c d n :
  (0 < n)%nat → in_cidr (v4_prefix ++ ip4) (cidr4 a b c d n).1 (cidr4 a b c d n).2 = in_cidr ip4 [a; b; c; d] n.
Proof.
  intros Hn. unfold cidr4. cbn [fst snd]. change (96 + n)%nat with (8 * length v4_prefix + n)%nat.
  by rewrite in_cidr_app, bool_decide_eq_true_2 by done.
Qed.

Lemma cidr4_v6 ip a b c d n :
  ip_ok ip → To4 ip = None → (0 < n)%nat → in_cidr ip (cidr4 a b c d n).1 (cidr4 a b c d n).2 = false.
Proof.
  intros Hok E4 Hn. destruct (To4_None ip Hok E4) as [Hl _]. unfold To4 in E4. rewrite Hl in E4. cbn [Nat.eqb andb] in E4.
  unfold cidr4. cbn [fst snd]. change (96 + n)%nat with (8 * length v4_prefix + n)%nat.
  assert (length (take 12 ip) = length v4_prefix) as Ht by (rewrite length_take, Hl; done).
  rewrite <-(take_drop 12 ip) at 1. rewrite <-Ht, in_cidr_app by (exact Ht || exact Hn).
  by destruct (bool_decide (take 12 ip = v4_prefix)).
Qed.

Definition local_class (ip : IP) : bool :=
  IsLoopback ip || IsPrivate ip || IsLinkLocalUnicast ip || IsLinkLocalMulticast ip.

Lemma bytes4 (ip : list Z) : length ip = 4%nat → ∃ a b c d, ip = [a; b; c; d].
Proof. destruct ip as [|a [|b [|c [|d [|]]]]]; try done. by exists a, b, c, d. Qed.

Lemma mask_240_16 b : byte_ok b → (Z.land b 240 =? 16) = (b / 16 =? 1).
Proof. apply (mask_eq (λ b, Z.land b 240 =? 16) (λ b, b / 16 =? 1)). reflexivity. Qed.
Lemma mask_240_224 b : byte_ok b → (Z.land b 240 =? 224) = (b / 16 =? 14).
Proof. apply (mask_eq (λ b, Z.land b 240 =? 224) (λ b, b / 16 =? 14)). reflexivity. Qed.
Lemma mask_254 b : byte_ok b → (Z.land b 254 =? 252) = (b / 2 =? 126).
Proof. apply (mask_eq (λ b, Z.land b 254 =? 252) (λ b, b / 2 =? 126)). reflexivity. Qed.
Lemma mask_192 b : byte_ok b → (Z.land b 192 =? 128) = (b / 64 =? 2).
Proof. apply (mask_eq (λ b, Z.land b 192 =? 128) (λ b, b / 64 =? 2)). reflexivity. Qed.

Lemma cidr_whole b l c m n :
  (8 ≤ n)%nat → in_cidr (b :: l) (c :: m) n = (b =? c) && (if (n =? 8)%nat then true else in_cidr l m (n - 8)).
Proof.
  intros Hn. cbn [in_cidr]. destruct (Nat.eqb_spec n 8) as [->|Hne].
  - change (2 ^ (8 - Z.of_nat 8)) with 1. by rewrite !Z.div_1_r, andb_true_r.
  - by rewrite (proj2 (Nat.leb_gt n 8)) by lia.
Qed.

Ltac cidr_bytes := rewrite !cidr_whole by lia; cbn [Nat.eqb Nat.sub].

Lemma v4_blocks ip4 :
  length ip4 = 4%nat →
  in_cidr ip4 [127; 0; 0; 0] 8 = (byte_at 0 ip4 =? 127) ∧ in_cidr ip4 [10; 0; 0; 0] 8 = (byte_at 0 ip4 =? 10) ∧
  in_cidr ip4 [172; 16; 0; 0] 12 = (byte_at 0 ip4 =? 172) && (byte_at 1 ip4 / 16 =? 1) ∧
  in_cidr ip4 [192; 168; 0; 0] 16 = (byte_at 0 ip4 =? 192) && (byte_at 1 ip4 =? 168) ∧
  in_cidr ip4 [169; 254; 0; 0] 16 = (byte_at 0 ip4 =? 169) && (byte_at 1 ip4 =? 254) ∧
  in_cidr ip4 [224; 0; 0; 0] 24 = (byte_at 0 ip4 =? 224) && (byte_at 1 ip4 =? 0) && (byte_at 2 ip4 =? 0) ∧
  in_cidr ip4 [224; 0; 0; 0] 4 = (byte_at 0 ip4 / 16 =? 14) ∧
  in_cidr ip4 [0; 0; 0; 0] 32 = bool_decide (v4_prefix ++ ip4 = To16 IPv4zero).
Proof.
  intros Hl. destruct (bytes4 ip4 Hl) as (a & b & c & d & ->). cbn [byte_at nth]. split_and!.
  1-6: cidr_bytes; by rewrite ?andb_true_r, ?andb_assoc.
  - done.
  - cidr_bytes. change (To16 IPv4zero) with (v4_prefix ++ [0; 0; 0; 0]). case_bool_decide as E.
    + apply app_inv_head in E. by injection E as -> -> -> ->.
    + destruct (Z.eqb_spec a 0) as [->|]; [|done]. destruct (Z.eqb_spec b 0) as [->|]; [|done].
      destruct (Z.eqb_spec c 0) as [->|]; [|done]. destruct (Z.eqb_spec d 0) as [->|]; done.
Qed.

(** No IPv6 block contains a mapped IPv4 address. *)
Lemma v6_blocks_v4 ip4 :
  length ip4 = 4%nat →
  in_cidr (v4_prefix ++ ip4) IPv6loopback 128 = false ∧ in_cidr (v4_prefix ++ ip4) (cidr6 252 0 7).1 7 = false ∧
  in_cidr (v4_prefix ++ ip4) (cidr6 254 128 10).1 10 = false ∧ in_cidr (v4_prefix ++ ip4) (cidr6 255 0 8).1 8 = false ∧
  in_cidr (v4_prefix ++ ip4) (cidr6 0 0 128).1 128 = false ∧ bool_decide (v4_prefix ++ ip4 = To16 IPv6unspecified) = false.
Proof. intros Hl. destruct (bytes4 ip4 Hl) as (a & b & c & d & ->). by split_and!. Qed.

Lemma v4_classes ip ip4 :
  ip_ok ip → To4 ip = Some ip4 →
  local_class ip = in_blocks local_blocks ip ∧
  local_class ip || IsUnspecified ip || IsMulticast ip = in_blocks non_public_blocks ip.
Proof.
  intros Hok E4. destruct (To4_spec _ _ Hok E4) as (Hl & Hb & E16).
  destruct (v4_blocks ip4 Hl) as (B1 & B2 & B3 & B4 & B5 & B6 & B7 & B8).
  destruct (v6_blocks_v4 ip4 Hl) as (C1 & C2 & C3 & C4 & C5 & C6).
  unfold local_class, IsLoopback, IsPrivate, IsLinkLocalUnicast, IsLinkLocalMulticast, IsMulticast, IsUnspecified, in_blocks,
    ip_equal, non_public_blocks. rewrite existsb_app. rewrite E4, E16. cbn [local_blocks existsb].
  rewrite !cidr4_v4 by lia. cbn [fst snd cidr6] in *.
  rewrite B1, B2, B3, B4, B5, B6, B7, B8, C1, C2, C3, C4, C5, C6.
  assert (byte_ok (byte_at 0 ip4) ∧ byte_ok (byte_at 1 ip4)) as [M0 M1].
  { destruct (bytes4 ip4 Hl) as (a & b & c & d & ->). by inversion Hb as [|? ? ? [|? ? ? ?]]; subst. }
  rewrite mask_240_16, mask_240_224 by done. split; btauto.
Qed.

Lemma cidr_full l m : length l = length m → l ≠ [] → in_cidr l m (8 * length l) = bool_decide (l = m).
Proof.
  revert m. induction l as [|b l IH]; intros [|c m] Hl Hne; try done. cbn [length] in *. rewrite cidr_whole by lia.
  replace (8 * S (length l) - 8)%nat with (8 * length l)%nat by lia.
  assert ((if (8 * S (length l) =? 8)%nat then true else in_cidr l m (8 * length l)) = bool_decide (l = m)) as ->.
  { destruct l as [|b' l]; [|rewrite (proj2 (Nat.eqb_neq _ 8)) by (simpl; lia); apply IH; [lia|done]].
    destruct m; [done|simpl in Hl; lia]. }
  destruct (Z.eqb_spec b c) as [->|Hbc]; [|rewrite (bool_decide_eq_false_2 (b :: l = c :: m)) by congruence; done].
  apply bool_decide_ext. split; [by intros ->|by intros [= ->]].
Qed.

Lemma v6_blocks ip :
  ip_ok ip → To4 ip = None →
  in_cidr ip IPv6loopback 128 = bool_decide (ip = IPv6loopback) ∧ in_cidr ip (cidr6 252 0 7).1 7 = (byte_at 0 ip / 2 =? 126) ∧
  in_cidr ip (cidr6 254 128 10).1 10 = (byte_at 0 ip =? 254) && (byte_at 1 ip / 64 =? 2) ∧
  in_cidr ip (cidr6 255 0 8).1 8 = (byte_at 0 ip =? 255) ∧
  in_cidr ip (cidr6 0 0 128).1 128 = bool_decide (ip = IPv6unspecified) ∧ bool_decide (ip = IPv4zero) = false ∧
  byte_ok (byte_at 0 ip) ∧ byte_ok (byte_at 1 ip).
Proof.
  intros Hok E4. destruct (To4_None _ Hok E4) as [Hl _]. destruct Hok as [_ Hb].
  assert (∀ x, length x = 16%nat → in_cidr ip x 128 = bool_decide (ip = x)) as Hx.
  { intros x Ex. replace 128%nat with (8 * length ip)%nat by (rewrite Hl; done).
    apply cidr_full; [congruence|by intros ->]. }
  rewrite !Hx by done.
  destruct ip as [|b0 [|b1 ip]]; [done..|].
  inversion Hb as [|? ? H0 Hb1]; subst. inversion Hb1 as [|? ? H1 _]; subst. cbn [byte_at nth]. split_and!; try done.
  - cbn [cidr6 fst]. rewrite cidr_whole by lia. by rewrite andb_true_r.
  - apply bool_decide_eq_false. intros E. rewrite E in E4. discriminate E4.
Qed.

Lemma v6_classes ip :
  ip_ok ip → To4 ip = None →
  local_class ip = in_blocks local_blocks ip || IsLinkLocalMulticast ip ∧
  local_class ip || IsUnspecified ip || IsMulticast ip = in_blocks non_public_blocks ip.
Proof.
  intros Hok E4. destruct (To4_None _ Hok E4) as [Hl E16].
  destruct (v6_blocks ip Hok E4) as (B1 & B2 & B3 & B4 & B5 & B6 & M0 & M1).
  unfold local_class, IsLoopback, IsPrivate, IsLinkLocalUnicast, IsLinkLocalMulticast, IsMulticast, IsUnspecified, in_blocks,
    ip_equal, non_public_blocks. rewrite existsb_app. rewrite E4, E16, Hl. cbn [local_blocks existsb].
  rewrite !cidr4_v6 by (done || lia). cbn [fst snd cidr6] in *.
  change (To16 IPv6loopback) with IPv6loopback. change (To16 IPv4zero) with IPv4zero.
  change (To16 IPv6unspecified) with IPv6unspecified. cbn [Nat.eqb].
  rewrite B1, B2, B3, B4, B5, B6, mask_254, mask_192 by done. split; btauto.
Qed.

(** The classes the code tests are the blocks. *)
Lemma non_public_classes ip :
  ip_ok ip → local_class ip || IsUnspecified ip || IsMulticast ip = in_blocks non_public_blocks ip.
Proof.
  intros Hok. destruct (To4 ip) as [ip4|] eqn:E4; [by eapply v4_classes|by apply v6_classes].
Qed.

Lemma local_classes ip : ip_ok ip → in_blocks local_blocks ip = true → local_class ip = true.
Proof.
  intros Hok Hin. destruct (To4 ip) as [ip4|] eqn:E4.
  - destruct (v4_classes ip ip4 Hok E4) as [-> _]. done.
  - destruct (v6_classes ip Hok E4) as [-> _]. by rewrite Hin.
Qed.

(** * Public hosts *)

Section public.
Context `{UnicodeTables}.

(** The two checks on an address the host name spells. *)
Lemma reject_ip h ip :
  ParseIP h = Some ip → is_ok (rejectPrivateHost h) = true → local_class ip = false.
Proof.
  intros Hp. unfold rejectPrivateHost. case_bool_decide; [done|]. rewrite Hp. fold (local_class ip).
  by destruct (local_class ip).
Qed.

(** The text that is checked spells the same address. *)
Lemma checked_text h ip :
  ParseIP h = Some ip → ParseIP (match To4 ip with Some ip4 => IP_String ip4 | None => h end) = Some ip.
Proof.
  intros Hp. destruct (ParseIP_ok h ip Hp) as [Hok Hl]. destruct (To4 ip) as [ip4|] eqn:E4; [|done].
  destruct (To4_spec _ _ Hok E4) as (L4 & B4 & E16). rewrite ParseIP_String by (split; [by left|done]). f_equal.
  unfold To16 in *. rewrite L4. rewrite Hl in E16. by symmetry.
Qed.

Lemma HostIsPublic_sound h ip : ParseIP h = Some ip → is_ok (HostIsPublic h) = true → public_ip ip.
Proof.
  intros Hp. destruct (ParseIP_ok h ip Hp) as [Hok Hl]. unfold HostIsPublic. rewrite Hp.
  pose proof (checked_text h ip Hp) as Hp'. set (h' := match To4 ip with Some _ => _ | None => _ end) in *.
  pose proof (reject_ip h' ip Hp') as Hr. destruct (rejectPrivateHost h'); [|done]. rewrite Hp'.
  unfold public_ip. rewrite <-(non_public_classes ip Hok), (Hr eq_refl). simpl. by destruct (_ || _).
Qed.

Lemma public_local ip : ip_ok ip → public_ip ip → local_class ip = false ∧ IsUnspecified ip || IsMulticast ip = false.
Proof.
  intros Hok. unfold public_ip. rewrite <-(non_public_classes ip Hok). destruct (local_class ip); [done|].
  by destruct (IsUnspecified ip), (IsMulticast ip).
Qed.

Lemma public_ip_To16 ip : ip_ok ip → public_ip (To16 ip) ↔ public_ip ip.
Proof. intros [[Hl|Hl] _]; unfold public_ip, in_blocks, To16; rewrite Hl; simpl; by rewrite ?Hl. Qed.

(** On the text of an address the check decides whether the address is public. *)
Lemma HostIsPublic_ip ip : ip_ok ip → is_ok (HostIsPublic (IP_String ip)) = true ↔ public_ip ip.
Proof.
  intros Hok. rewrite <-public_ip_To16 by done. pose proof (ParseIP_String ip Hok) as Hp. split; [by apply HostIsPublic_sound|].
  intros Hpub. destruct (ParseIP_ok _ _ Hp) as [Hok16 Hl16].
  destruct (public_local _ Hok16 Hpub) as [Hc Hm].
  assert (match To4 (To16 ip) with Some ip4 => IP_String ip4 | None => IP_String ip end = IP_String ip) as Et.
  { rewrite To4_To16 by done. destruct (To4 ip) as [ip4|] eqn:E4; [|done]. destruct (To4_spec _ _ Hok E4) as (L4 & B4 & _).
    unfold IP_String. f_equal. rewrite !ip_string_eq by (done || by split; [left|]). rewrite E4. unfold To4. by rewrite L4. }
  unfold HostIsPublic. rewrite Hp, Et. unfold rejectPrivateHost.
  rewrite bool_decide_eq_false_2 by (by apply IP_String_not_localhost). rewrite Hp. fold (local_class (To16 ip)). rewrite Hc.
  by rewrite Hm.
Qed.

Lemma reject_local h :
  is_ok (rejectPrivateHost h) = true →
  to_lower h ≠ "localhost" ∧ (∀ ip, ParseIP h = Some ip → in_blocks local_blocks ip = false).
Proof.
  intros Hr. split.
  - intros E. unfold rejectPrivateHost in Hr. by rewrite bool_decide_eq_true_2 in Hr.
  - intros ip Hp. destruct (ParseIP_ok _ _ Hp) as [Hok _]. pose proof (reject_ip h ip Hp Hr) as Hc.
    destruct (in_blocks local_blocks ip) eqn:E; [|done]. by rewrite (local_classes ip Hok E) in Hc.
Qed.

Context `{URLParser}.

(** A relay URL that passes [NormalizePublic] has a host that is not localhost
    and, when it is an address in any spelling (dotted, hexadecimal, compressed,
    with an IPv4 part), none of the loopback, private and link-local blocks
    127.0.0.0/8, 10.0.0.0/8, 172.16.0.0/12, 192.168.0.0/16, 169.254.0.0/16,
    224.0.0.0/24, ::1, fc00::/7 and fe80::/10 contains it. *)
Theorem normalize_public_rejects (raw u : string) :
  NormalizePublic raw = Ok u →
  Normalize raw false = Ok u ∧
  ∃ p, url_Parse u = Ok p ∧ Hostname (PHost p) ≠ "" ∧ to_lower (Hostname (PHost p)) ≠ "localhost" ∧
       ∀ ip, ParseIP (Hostname (PHost p)) = Some ip → in_blocks local_blocks ip = false.
Proof.
  unfold NormalizePublic. destruct (Normalize raw false) as [n|] eqn:En; [|done].
  unfold Validate. case_bool_decide; [done|]. destruct (url_Parse n) as [p|] eqn:Ep; [|done].
  case_bool_decide; [done|]. cbn [negb]. pose proof (reject_local (Hostname (PHost p))) as Hr.
  destruct (rejectPrivateHost _); [|done]. intros [= <-]. split; [done|]. exists p. split_and!; try done; by apply Hr.
Qed.
End public.

(** * Examples *)

Module HostExample.
Existing Instance ascii_tables.

Example hosts_checked :
  map (λ h, is_ok (HostIsPublic h))
    ["127.1.2.3"; "::ffff:127.0.0.1"; "0:0:0:0:0:0:0:1"; "LocalHost"; "10.0.0.1"; "172.31.0.1"; "172.32.0.1"; "fe80::1";
     "fd00::1"; "0.0.0.0"; "::"; "224.0.0.1"; "ff05::1"; "8.8.8.8"; "2606:4700::1111"; "relay.example"]
  = [false; false; false; false; false; false; true; false; false; false; false; false; false; true; true; true].
Proof. vm_compute. reflexivity. Qed.

(** A parser for [scheme://host] texts with a lower-case scheme [wss] and no other
    part. *)
Definition toy_host_byte (b : Z) : bool := negb (existsb (Z.eqb b) [35; 47; 63; 64]).

Definition toy_Parse (s : string) : result ParsedURL :=
  let l := bytes s in
  if bool_decide (take 6 l = bytes "wss://") && forallb toy_host_byte (drop 6 l)
  then Ok (mkURL "wss" (str (drop 6 l)) "" "" false "")
  else Err "not a relay".

Definition toy_parser : URLParser := {| url_Parse := toy_Parse |}.
Existing Instance toy_parser.

Lemma normalize_public_rejects_witness :
  NormalizePublic " wss://8.8.8.8:7777 " = Ok "wss://8.8.8.8:7777" ∧
  ∃ p, url_Parse "wss://8.8.8.8:7777" = Ok p ∧ to_lower (Hostname (PHost p)) ≠ "localhost".
Proof.
  assert (NormalizePublic " wss://8.8.8.8:7777 " = Ok "wss://8.8.8.8:7777") as E by (vm_compute; reflexivity).
  split; [exact E|]. destruct (normalize_public_rejects _ _ E) as (_ & p & Hp & _ & Hl & _). exists p. split; [exact Hp|exact Hl].
Defined.

(** The unspecified address, which reaches the local host, is let through. *)
Example unspecified_is_public :
  NormalizePublic "wss://0.0.0.0:7777" = Ok "wss://0.0.0.0:7777" ∧ NormalizePublic "wss://[::]" = Ok "wss://[::]" ∧
  is_ok (NormalizePublic "wss://127.0.0.1") = false.
Proof. split_and!; vm_compute; reflexivity. Qed.

End HostExample.
