(* ===== verification/PublicDial.v ===== *)
(** Outbound connections to hosts that users name: [internal/relaynip11/fetch.go]
    ([publicDialContext], [publicIP], [checkRedirect]) for relay information
    documents and [internal/nip05/fetch.go] ([newClient], [checkHost]) for
    identifier documents. Both refuse addresses that are not public; they differ
    in what they dial.

    The resolver is a parameter, a function of how many lookups came before, so
    that its answers may change. *)

From S2P Require Import Prelude GoLib GoNet RelayURL.

(** * Hosts and ports *)

Lemma last_index_app b l r : b ∉ r → last_index b (l ++ b :: r) = Some (length l).
Proof.
  intros Hr. assert (last_index b r = None) as Hn.
  { induction r as [|x r IH]; [done|]. cbn [last_index]. rewrite IH by set_solver.
    by rewrite (proj2 (Z.eqb_neq x b)) by set_solver. }
  induction l as [|x l IH]; cbn [app last_index length]; [by rewrite Hn, Z.eqb_refl|by rewrite IH].
Qed.

Lemma last_index_spec b l i : last_index b l = Some i → (b ∉ drop (S i) l) ∧ (i < length l)%nat.
Proof.
  revert i. induction l as [|x l IH]; intros i; [done|]. cbn [last_index]. destruct (last_index b l) as [k|] eqn:E.
  - intros [= <-]. destruct (IH k eq_refl). split; [done|simpl; lia].
  - destruct (Z.eqb_spec x b) as [->|]; [|done]. intros [= <-]. split; [|simpl; lia]. simpl. rewrite drop_0.
    clear IH. induction l as [|y l IH]; [set_solver|]. cbn [last_index] in E. destruct (last_index b l) eqn:El; [done|].
    destruct (Z.eqb_spec y b); [done|]. specialize (IH eq_refl). set_solver.
Qed.

Lemma index_app b l r : b ∉ l → index b (l ++ b :: r) = Some (length l).
Proof.
  induction l as [|x l IH]; intros Hb; cbn [app index length]; [by rewrite Z.eqb_refl|].
  rewrite (proj2 (Z.eqb_neq x b)) by set_solver. by rewrite IH by set_solver.
Qed.

Lemma index_spec b l i : index b l = Some i → b ∉ take i l.
Proof.
  revert i. induction l as [|x l IH]; intros i; [done|]. cbn [index]. destruct (Z.eqb_spec x b) as [->|Hne].
  - intros [= <-]. simpl. set_solver.
  - destruct (index b l) as [k|]; [|done]. intros [= <-]. specialize (IH k eq_refl). simpl. set_solver.
Qed.

Lemma existsb_eqb b l : existsb (Z.eqb b) l = true ↔ b ∈ l.
Proof.
  rewrite existsb_exists. split.
  - intros (x & Hx & E). apply Z.eqb_eq in E as <-. by apply list_elem_of_In.
  - intros Hb. exists b. split; [by apply list_elem_of_In|apply Z.eqb_refl].
Qed.

Lemma existsb_eqb_false b l : existsb (Z.eqb b) l = false ↔ b ∉ l.
Proof. rewrite <-existsb_eqb. destruct (existsb _ _); naive_solver. Qed.

(** A port as [SplitHostPort] yields it. *)
Definition port_ok (p : list Z) : Prop := (58 ∉ p) ∧ (91 ∉ p) ∧ (93 ∉ p).

Lemma not_in_drop (b : Z) j k (l : list Z) : (j ≤ k)%nat → b ∉ drop j l → b ∉ drop k l.
Proof.
  intros Hjk Hb Hk. apply Hb. replace k with (j + (k - j))%nat in Hk by lia. rewrite <-drop_drop in Hk.
  rewrite <-(take_drop (k - j) (drop j l)). set_solver.
Qed.

Lemma split_port_ok s h p : split_host_port s = Some (h, p) → port_ok p.
Proof.
  unfold split_host_port. destruct (last_index 58 s) as [i|] eqn:Ei; [|done].
  apply last_index_spec in Ei as [Hc Hi]. cbv zeta.
  assert (∀ h0 j k, (j ≤ i + 1)%nat → (k ≤ i + 1)%nat →
    (if existsb (Z.eqb 91) (drop j s) then None
     else if existsb (Z.eqb 93) (drop k s) then None else Some (h0, drop (i + 1) s)) = Some (h, p) → port_ok p) as Hfin.
  { intros h0 j k Hj Hk. destruct (existsb (Z.eqb 91) _) eqn:E1; [done|]. destruct (existsb (Z.eqb 93) _) eqn:E2; [done|].
    intros [= _ <-]. apply existsb_eqb_false in E1, E2. rewrite Nat.add_1_r in *.
    split_and!; [done|eapply not_in_drop; [|exact E1]; done|eapply not_in_drop; [|exact E2]; done]. }
  destruct (has_prefix [91] s).
  - destruct (index 93 s) as [e|]; [|done]. destruct (_ =? length s)%nat; [done|].
    destruct (Nat.eqb_spec (e + 1) i) as [<-|]; [|done]. apply Hfin; lia.
  - destruct (existsb _ (take i s)); [done|]. apply Hfin; lia.
Qed.

Lemma ip_char_not b : ip_char b → b ≠ 91 ∧ b ≠ 93 ∧ b ≠ 37.
Proof.
  intros [[v Hv]|[->| ->]]; [|lia..]. unfold hex_value in Hv. split_ifs_in Hv; try discriminate Hv; bool_simpl; lia.
Qed.

Lemma ip_string_no ip b : ip_ok ip → b = 91 ∨ b = 93 ∨ b = 37 → b ∉ ip_string ip.
Proof.
  intros Hok Hb Hin. pose proof (ip_string_chars ip Hok) as Hc. rewrite List.Forall_forall in Hc.
  apply list_elem_of_In, Hc, ip_char_not in Hin. lia.
Qed.

Lemma split_bracketed h p :
  93 ∉ h → 91 ∉ h → port_ok p → split_host_port (91 :: h ++ [93; 58] ++ p) = Some (h, p).
Proof.
  intros H93 H91 (P1 & P2 & P3). set (s := 91 :: h ++ [93; 58] ++ p).
  assert (s = (91 :: h ++ [93]) ++ 58 :: p) as E1 by (unfold s; simpl; by rewrite <-app_assoc).
  assert (s = (91 :: h ++ [93; 58]) ++ p) as E2 by (unfold s; simpl; by rewrite <-app_assoc).
  assert (last_index 58 s = Some (length h + 2)%nat) as Ei.
  { rewrite E1, last_index_app by done. simpl. rewrite length_app. simpl. f_equal. lia. }
  assert (index 93 s = Some (length h + 1)%nat) as Ee.
  { change s with ((91 :: h) ++ 93 :: 58 :: p). rewrite index_app by set_solver. simpl. f_equal. lia. }
  assert (drop (length h + 2) s = 58 :: p) as D1.
  { replace (length h + 2)%nat with (length (91 :: h ++ [93])) by (simpl; rewrite length_app; simpl; lia).
    rewrite E1. apply drop_app_length. }
  assert (drop (length h + 2 + 1) s = p) as D2.
  { replace (length h + 2 + 1)%nat with (length (91 :: h ++ [93; 58])) by (simpl; rewrite length_app; simpl; lia).
    rewrite E2. apply drop_app_length. }
  assert (drop 1 s = h ++ [93; 58] ++ p) as D3 by done.
  unfold split_host_port. rewrite Ei. change (has_prefix [91] s) with true. cbv iota zeta. rewrite Ee.
  rewrite (proj2 (Nat.eqb_neq _ (length s))) by (unfold s; simpl; rewrite !length_app; simpl; lia).
  replace (length h + 1 + 1)%nat with (length h + 2)%nat by lia. rewrite Nat.eqb_refl, D1, D2, D3.
  replace (length h + 1 - 1)%nat with (length h) by lia. rewrite take_app_length.
  by rewrite (proj2 (existsb_eqb_false 91 _)), (proj2 (existsb_eqb_false 93 _)) by set_solver.
Qed.

Lemma split_plain h p :
  93 ∉ h → 91 ∉ h → 58 ∉ h → port_ok p → split_host_port (h ++ 58 :: p) = Some (h, p).
Proof.
  intros H93 H91 H58 (P1 & P2 & P3). unfold split_host_port. rewrite last_index_app by done.
  assert (has_prefix [91] (h ++ 58 :: p) = false) as ->.
  { destruct h as [|b h]; [done|]. cbn [app has_prefix]. by rewrite (proj2 (Z.eqb_neq 91 b)) by set_solver. }
  cbv zeta. rewrite take_app_length. rewrite (proj2 (existsb_eqb_false 58 _)) by done. rewrite !drop_0.
  rewrite (proj2 (existsb_eqb_false 91 _)) by set_solver. rewrite (proj2 (existsb_eqb_false 93 _)) by set_solver.
  do 2 f_equal. rewrite Nat.add_1_r. replace (S (length h)) with (length (h ++ [58])) by (rewrite length_app; simpl; lia).
  replace (h ++ 58 :: p) with ((h ++ [58]) ++ p) by (by rewrite <-app_assoc). apply drop_app_length.
Qed.

(** Joining what was split gives it back. *)
Lemma split_join h p :
  91 ∉ bytes h → 93 ∉ bytes h → port_ok (bytes p) → SplitHostPort (JoinHostPort h p) = Some (h, p).
Proof.
  intros N1 N2 Hp. unfold SplitHostPort, JoinHostPort.
  destruct (existsb (Z.eqb 58) (bytes h) || existsb (Z.eqb 37) (bytes h)) eqn:Ec; rewrite !bytes_app.
  - change (bytes "[") with [91]. change (bytes "]:") with [93; 58].
    rewrite (split_bracketed _ _ N2 N1 Hp : split_host_port ([91] ++ _ ++ _ ++ _) = _). simpl. by rewrite !str_bytes.
  - change (bytes ":") with [58]. cbn [app]. apply orb_false_iff in Ec as [Ec _]. apply existsb_eqb_false in Ec.
    rewrite split_plain by done. simpl. by rewrite !str_bytes.
Qed.

Lemma split_host_ok s h p : split_host_port s = Some (h, p) → (91 ∉ h) ∧ (93 ∉ h).
Proof.
  unfold split_host_port. destruct (last_index 58 s) as [i|] eqn:Ei; [|done]. cbv zeta.
  assert (∀ (b : Z) j (l : list Z), b ∉ l → b ∉ take j l) as Htake.
  { intros b j l Hb Hin. apply Hb. rewrite <-(take_drop j l). set_solver. }
  destruct (has_prefix [91] s).
  - destruct (index 93 s) as [e|] eqn:Ee; [|done]. destruct (_ =? length s)%nat; [done|].
    destruct (_ =? i)%nat; [|done]. destruct (existsb _ _) eqn:E1; [done|]. destruct (existsb _ (drop (e + 1) s)) eqn:E2; [done|].
    intros [= <- <-]. apply existsb_eqb_false in E1. split; [by apply Htake|].
    apply index_spec in Ee. intros Hin. apply Ee. destruct e as [|e]; [simpl in Hin; set_solver|].
    replace (S e - 1)%nat with e in Hin by lia. rewrite take_drop_commute in Hin. cbn [Nat.add] in Hin.
    rewrite <-(take_drop 1 (take (S e) s)). set_solver.
  - destruct (existsb _ (take i s)); [done|]. rewrite !drop_0. destruct (existsb _ _) eqn:E1; [done|].
    destruct (existsb (Z.eqb 93) s) eqn:E2; [done|]. intros [= <- <-]. apply existsb_eqb_false in E1, E2. by split; apply Htake.
Qed.

Lemma split_bytes_ok s h p :
  Forall byte_ok s → split_host_port s = Some (h, p) → Forall byte_ok h ∧ Forall byte_ok p.
Proof.
  intros Hb. unfold split_host_port. destruct (last_index 58 s) as [i|]; [|done]. cbv zeta.
  destruct (has_prefix [91] s).
  - destruct (index 93 s) as [e|]; [|done]. do 2 (destruct (_ =? _)%nat; try done).
    do 2 (destruct (existsb _ _); [done|]). intros [= <- <-]. split; [by apply Forall_take, Forall_drop|by apply Forall_drop].
  - do 3 (destruct (existsb _ _); [done|]). intros [= <- <-]. split; [by apply Forall_take|by apply Forall_drop].
Qed.

Lemma SplitHostPort_parts s h p :
  SplitHostPort s = Some (h, p) → (91 ∉ bytes h) ∧ (93 ∉ bytes h) ∧ port_ok (bytes p).
Proof.
  unfold SplitHostPort. destruct (split_host_port (bytes s)) as [[h' p']|] eqn:E; [|done]. simpl. intros [= <- <-].
  destruct (split_bytes_ok _ _ _ (bytes_range s) E) as [Bh Bp]. rewrite !bytes_str by done.
  destruct (split_host_ok _ _ _ E). split_and!; [done..|by eapply split_port_ok].
Qed.

Lemma SplitHostPort_join s h p : SplitHostPort s = Some (h, p) → SplitHostPort (JoinHostPort h p) = Some (h, p).
Proof. intros E. apply SplitHostPort_parts in E as (? & ? & ?). by apply split_join. Qed.

Lemma split_join_ip ip s h p :
  ip_ok ip → SplitHostPort s = Some (h, p) → SplitHostPort (JoinHostPort (IP_String ip) p) = Some (IP_String ip, p).
Proof.
  intros Hok E. apply SplitHostPort_parts in E as (_ & _ & Hp).
  apply split_join; [rewrite bytes_IP_String by done; apply ip_string_no; [done|lia]..|done].
Qed.

(** * The dialers *)

Definition errPrivateAddress : error := "private_address".
Definition errRedirectRejected : error := "redirect_rejected".

Section dial.
Context `{UnicodeTables}.
Context (lookup : string → result (list IP)).

(** [relaynip11]: the address to connect to. *)
Definition publicIP (host : string) : result IP :=
  match ParseIP host with
  | Some ip => if is_ok (HostIsPublic (IP_String ip)) then Ok ip else Err errPrivateAddress
  | None =>
      match HostIsPublic host with
      | Err _ => Err errPrivateAddress
      | Ok _ =>
          match lookup host with
          | Err e => Err e
          | Ok ips =>
              match find (λ ip, is_ok (HostIsPublic (IP_String ip))) ips with
              | Some ip => Ok ip
              | None => match ips with [] => Err "no address for host" | _ => Err errPrivateAddress end
              end
          end
      end
  end.

(** The address given to the dialer. *)
Definition publicDialContext (addr : string) : result string :=
  match SplitHostPort addr with
  | None => Err "address"
  | Some (host, port) =>
      match publicIP host with
      | Err e => Err e
      | Ok ip => Ok (JoinHostPort (IP_String ip) port)
      end
  end.

(** [nip05]: every address of the host must be public. *)
Fixpoint all_public (ips : list IP) : result unit :=
  match ips with
  | [] => Ok tt
  | ip :: ips => match HostIsPublic (IP_String ip) with Err e => Err e | Ok _ => all_public ips end
  end.

Definition checkHost (host : string) (allowPrivate : bool) : result unit :=
  if allowPrivate then Ok tt
  else
    match HostIsPublic host with
    | Err e => Err e
    | Ok _ =>
        if bool_decide (is_Some (ParseIP host)) then Ok tt
        else
          match lookup host with
          | Err e => Err e
          | Ok [] => Err "no addresses"
          | Ok ips => all_public ips
          end
    end.

(** The [DialContext] of its client: the address given to the dialer. *)
Definition checkedDial (allowPrivate : bool) (addr : string) : result string :=
  match SplitHostPort addr with
  | None => Err "address"
  | Some (host, port) =>
      match checkHost host allowPrivate with
      | Err e => Err e
      | Ok _ => Ok (JoinHostPort host port)
      end
  end.

(** The addresses [net.Dialer] tries for an address: the literal one, or what the
    host name resolves to. *)
Definition dial_candidates (addr : string) : list IP :=
  match SplitHostPort addr with
  | None => []
  | Some (host, _) =>
      match ParseIP host with
      | Some ip => [ip]
      | None => match lookup host with Ok ips => ips | Err _ => [] end
      end
  end.
End dial.

(** [net.IP] values have 4 or 16 bytes. *)
Definition resolves_ips (lookup : string → result (list IP)) : Prop :=
  ∀ host ips, lookup host = Ok ips → Forall ip_ok ips.

(** A check for concrete addresses. *)
Lemma Forall_check4 (ips : list IP) :
  forallb (λ ip, (length ip =? 4)%nat && forallb (λ b, (0 <=? b) && (b <? 256)) ip) ips = true → Forall ip_ok ips.
Proof.
  rewrite forallb_forall. intros Hf. apply List.Forall_forall. intros ip Hin. specialize (Hf ip Hin). bool_simpl.
  split; [left; by apply Nat.eqb_eq|]. apply List.Forall_forall. intros b Hb.
  match goal with H : forallb _ ip = true |- _ => rewrite forallb_forall in H; specialize (H b Hb) end. bool_simpl. by split.
Qed.

Section theorems.
Context `{UnicodeTables}.

Lemma publicIP_ok lookup host ip :
  resolves_ips lookup → publicIP lookup host = Ok ip →
  ip_ok ip ∧ public_ip ip ∧ (ParseIP host = Some ip ∨ ∃ ips, lookup host = Ok ips ∧ ip ∈ ips).
Proof.
  intros Hres. unfold publicIP. destruct (ParseIP host) as [ip'|] eqn:Ep.
  - destruct (is_ok _) eqn:Eok; [|done]. intros [= <-]. destruct (ParseIP_ok _ _ Ep) as [Hok _].
    split_and!; [done|by apply HostIsPublic_ip|by left].
  - destruct (HostIsPublic host); [|done]. destruct (lookup host) as [ips|] eqn:El; [|done].
    destruct (find _ ips) as [ip'|] eqn:Ef; [|by destruct ips]. intros [= <-].
    apply find_some in Ef as [Hin Hp]. pose proof (Hres _ _ El) as Hok. rewrite List.Forall_forall in Hok.
    specialize (Hok _ Hin). split_and!; [done|by apply HostIsPublic_ip|]. right. exists ips. split; [done|by apply list_elem_of_In].
Qed.

(** The fetcher of relay documents connects to public addresses only: whatever
    host is named and whatever the resolver answers, then or later, every address
    the dialer may try lies outside the loopback, private, link-local, multicast and
    unspecified blocks; and when the name is no address and resolves to some
    public address, there is one it tries. *)
Theorem document_dial_public (now later : string → result (list IP)) (addr host port : string) :
  resolves_ips now → SplitHostPort addr = Some (host, port) →
  (∀ target ip, publicDialContext now addr = Ok target → ip ∈ dial_candidates later target → public_ip ip) ∧
  (∀ ips ip, ParseIP host = None → is_ok (HostIsPublic host) = true → now host = Ok ips → ip ∈ ips → public_ip ip →
     ∃ target ip', publicDialContext now addr = Ok target ∧ ip' ∈ ips ∧ dial_candidates later target = [To16 ip']).
Proof.
  intros Hres Hs. assert (∀ ip, publicIP now host = Ok ip →
    publicDialContext now addr = Ok (JoinHostPort (IP_String ip) port) ∧
    dial_candidates later (JoinHostPort (IP_String ip) port) = [To16 ip]) as Hdial.
  { intros ip Hp. destruct (publicIP_ok _ _ _ Hres Hp) as [Hok _]. unfold publicDialContext. rewrite Hs, Hp. split; [done|].
    unfold dial_candidates. rewrite (split_join_ip ip addr host port) by done. by rewrite ParseIP_String. }
  split.
  - intros target ip Ht Hin. destruct (publicIP now host) as [ip0|] eqn:Ep; [|unfold publicDialContext in Ht; by rewrite Hs, Ep in Ht].
    destruct (Hdial ip0 eq_refl) as [E1 E2]. rewrite E1 in Ht. injection Ht as <-. rewrite E2 in Hin.
    apply list_elem_of_singleton in Hin as ->. destruct (publicIP_ok _ _ _ Hres Ep) as (Hok & Hpub & _). by apply public_ip_To16.
  - intros ips ip Ep Eh El Hin Hpub. pose proof (Hres _ _ El) as Hok. rewrite List.Forall_forall in Hok.
    destruct (find (λ ip, is_ok (HostIsPublic (IP_String ip))) ips) as [ip0|] eqn:Ef.
    + assert (publicIP now host = Ok ip0) as Hp.
      { unfold publicIP. rewrite Ep. destruct (HostIsPublic host); [|done]. by rewrite El, Ef. }
      destruct (Hdial ip0 Hp) as [E1 E2]. apply find_some in Ef as [Hin0 _]. eexists _, ip0. split; [exact E1|].
      split; [by apply list_elem_of_In|done].
    + apply list_elem_of_In in Hin. pose proof (find_none _ _ Ef ip Hin) as Hf. simpl in Hf.
      by rewrite (proj2 (HostIsPublic_ip ip (Hok ip Hin)) Hpub) in Hf.
Qed.

Lemma all_public_ok ips : Forall ip_ok ips → is_ok (all_public ips) = true → Forall public_ip ips.
Proof.
  induction 1 as [|ip ips Hok _ IH]; [done|]. cbn [all_public]. pose proof (HostIsPublic_ip ip Hok) as Hi.
  destruct (HostIsPublic _); [|done]. intros Ha. constructor; [by apply Hi|auto].
Qed.

(** The fetcher of identifier documents connects to public addresses only, as
    long as a host name resolves to the same addresses when it is checked and when
    it is dialled. *)
Theorem checked_dial_public (lookup : string → result (list IP)) (addr target : string) (ip : IP) :
  resolves_ips lookup → checkedDial lookup false addr = Ok target → ip ∈ dial_candidates lookup target → public_ip ip.
Proof.
  intros Hres. unfold checkedDial. destruct (SplitHostPort addr) as [[host port]|] eqn:Es; [|done].
  destruct (checkHost lookup host false) as [?|e] eqn:Ec; [|done]. intros [= <-]. unfold dial_candidates.
  rewrite (SplitHostPort_join _ _ _ Es). unfold checkHost in Ec. destruct (ParseIP host) as [ip0|] eqn:Ep.
  - intros Hin. apply list_elem_of_singleton in Hin as ->. apply (HostIsPublic_sound host ip0 Ep). by destruct (HostIsPublic host).
  - destruct (HostIsPublic host); [|done]. rewrite bool_decide_eq_false_2 in Ec by (by intros [? ?]).
    destruct (lookup host) as [ips|] eqn:El; [|done]. intros Hin. pose proof (all_public_ok ips (Hres _ _ El)) as Ha.
    destruct ips as [|i ips]; [done|]. rewrite Ec in Ha. specialize (Ha eq_refl). rewrite List.Forall_forall in Ha.
    by apply Ha, list_elem_of_In.
Qed.
End theorems.

(** * Redirects *)

(** What is read of a request's URL. *)
Record request := mkRequest {
  rq_scheme : string;
  rq_hostname : string;
  rq_user : bool;
}.

Section redirects.
Context `{UnicodeTables}.

(** [relaynip11]; the requests made so far, oldest first. *)
Definition checkRedirect (req : request) (via : list request) : result unit :=
  if (2 <=? length via)%nat then Err errRedirectRejected
  else
    match via with
    | [] => Err errRedirectRejected
    | first :: _ =>
        let scheme := to_lower (rq_scheme req) in
        if negb (bool_decide (scheme = "https"))
           && (negb (bool_decide (scheme = "http")) || equal_fold (rq_scheme first) "https")
        then Err errRedirectRejected
        else if rq_user req || negb (equal_fold (rq_hostname req) (rq_hostname first)) then Err errRedirectRejected
        else if is_ok (HostIsPublic (rq_hostname req)) then Ok tt
        else Err errRedirectRejected
    end.

(** [nip05]. *)
Definition checkRedirect05 (allowPrivate : bool) (req : request) (via : list request) : result unit :=
  if (2 <=? length via)%nat then Err errRedirectRejected
  else if negb (bool_decide (rq_scheme req = "https")) && negb allowPrivate then Err errRedirectRejected
  else if negb allowPrivate then HostIsPublic (rq_hostname req)
  else Ok tt.

(** The requests a client makes for one fetch. *)
Inductive chain (check : request → list request → result unit) : list request → Prop :=
  | chain_first req : chain check [req]
  | chain_redirect via req : chain check via → is_ok (check req via) = true → chain check (via ++ [req]).

Lemma redirect_ok req via :
  is_ok (checkRedirect req via) = true →
  ∃ first, via = [first] ∧ equal_fold (rq_hostname req) (rq_hostname first) = true ∧ rq_user req = false ∧
           is_ok (HostIsPublic (rq_hostname req)) = true ∧
           (to_lower (rq_scheme req) = "https" ∨
            to_lower (rq_scheme req) = "http" ∧ equal_fold (rq_scheme first) "https" = false).
Proof.
  unfold checkRedirect. destruct (Nat.leb_spec 2 (length via)); [done|]. destruct via as [|first [|]]; [done| |simpl in *; lia].
  cbv zeta. destruct (negb _ && _) eqn:Es; [done|]. destruct (rq_user req) eqn:Eu; [done|].
  destruct (equal_fold (rq_hostname req) (rq_hostname first)) eqn:Ef; [|done]. cbn [orb negb].
  destruct (is_ok (HostIsPublic _)) eqn:Ep; [|done]. intros _. exists first. split_and!; try done.
  apply andb_false_iff in Es as [Es|Es]; bool_simpl; [by left|]. right. split; done.
Qed.

(** A fetch makes at most one redirect, to the same public host, without
    credentials and never from https down to http. *)
Lemma redirects_confined reqs :
  chain checkRedirect reqs →
  ∃ first, reqs = [first] ∨ ∃ second, reqs = [first; second] ∧
    equal_fold (rq_hostname second) (rq_hostname first) = true ∧ rq_user second = false ∧
    is_ok (HostIsPublic (rq_hostname second)) = true ∧
    (to_lower (rq_scheme second) = "https" ∨
     to_lower (rq_scheme second) = "http" ∧ equal_fold (rq_scheme first) "https" = false).
Proof.
  induction 1 as [req|via req Hc IH Hok]; [by exists req; left|].
  destruct (redirect_ok _ _ Hok) as (first & -> & Hrest). exists first. right. by exists req.
Qed.

Lemma redirects05_bounded reqs : chain (checkRedirect05 false) reqs → (length reqs ≤ 2)%nat.
Proof.
  induction 1 as [req|via req Hc IH Hok]; [simpl; lia|]. unfold checkRedirect05 in Hok.
  destruct (Nat.leb_spec 2 (length via)); [done|]. rewrite length_app. simpl. lia.
Qed.
End redirects.

(** * Examples *)

Module DialExample.
Existing Instance ascii_tables.

(** A name with a private and a public address, and no other name. *)
Definition mixed (host : string) : result (list IP) :=
  if bool_decide (host = "relay.example") then Ok [[10; 0; 0; 1]; [8; 8; 8; 8]] else Err "no such host".

Lemma mixed_ips : resolves_ips mixed.
Proof.
  intros host ips. unfold mixed. case_bool_decide; [|done]. intros [= <-]. apply Forall_check4. reflexivity.
Qed.

Lemma document_dial_public_witness :
  publicDialContext mixed "relay.example:443" = Ok "8.8.8.8:443" ∧
  ∀ ip, ip ∈ dial_candidates mixed "8.8.8.8:443" → public_ip ip.
Proof.
  assert (publicDialContext mixed "relay.example:443" = Ok "8.8.8.8:443") as E by (vm_compute; reflexivity).
  split; [exact E|]. intros ip Hin.
  exact (proj1 (document_dial_public mixed mixed "relay.example:443" "relay.example" "443" mixed_ips
    ltac:(vm_compute; reflexivity)) _ ip E Hin).
Defined.

Definition stable (host : string) : result (list IP) :=
  if bool_decide (host = "nostr.example") then Ok [[8; 8; 8; 8]] else Err "no such host".

Lemma stable_ips : resolves_ips stable.
Proof. intros host ips. unfold stable. case_bool_decide; [|done]. intros [= <-]. apply Forall_check4. reflexivity. Qed.

Lemma checked_dial_public_witness :
  checkedDial stable false "nostr.example:443" = Ok "nostr.example:443" ∧
  ∀ ip, ip ∈ dial_candidates stable "nostr.example:443" → public_ip ip.
Proof.
  assert (checkedDial stable false "nostr.example:443" = Ok "nostr.example:443") as E by (vm_compute; reflexivity).
  split; [exact E|]. intros ip Hin.
  exact (checked_dial_public stable "nostr.example:443" "nostr.example:443" ip stable_ips E Hin).
Defined.

(** The same name, answered differently. *)
Definition rebound (host : string) : result (list IP) :=
  if bool_decide (host = "nostr.example") then Ok [[127; 0; 0; 1]] else Err "no such host".

(** The identifier fetcher checks one answer and dials by name, so that a second
    answer reaches the loopback address; the document fetcher dials the address
    it checked. *)
Example rebinding_reaches_loopback :
  checkedDial stable false "nostr.example:443" = Ok "nostr.example:443" ∧
  dial_candidates rebound "nostr.example:443" = [[127; 0; 0; 1]] ∧ ¬ public_ip [127; 0; 0; 1] ∧
  publicDialContext stable "nostr.example:443" = Ok "8.8.8.8:443" ∧
  dial_candidates rebound "8.8.8.8:443" = [To16 [8; 8; 8; 8]].
Proof. split_and!; vm_compute; done. Qed.

End DialExample.
