(* ===== verification/Nip11.v ===== *)
(** Relay information documents, [internal/relaynip11]: what is kept of a NIP-11
    document ([document.go], [parse.go]), the fetch of one over HTTP
    ([fetch.go], [fetchURL]) and the record of its outcome ([scheduler.go],
    [fetchOne]).

    A [json.RawMessage] is the JSON value it denotes, [None] when the member is
    absent. A [float64] is a dyadic rational; the conversion of one out of range to
    [int64] wraps around, as on amd64. *)

From S2P Require Import Prelude GoLib Json GoNet RelayURL.

(** * Document *)

Record Limitation := mkLimitation {
  MaxMessageLength : option Z;
  MaxSubscriptions : option Z;
  MaxFilters : option Z;
  MaxLimit : option Z;
  MaxSubidLength : option Z;
  MaxEventTags : option Z;
  MaxContentLength : option Z;
  MinPowDifficulty : option Z;
  AuthRequired : option bool;
  PaymentRequired : option bool;
  RestrictedWrites : option bool;
  CreatedAtLowerLimit : option Z;
  CreatedAtUpperLimit : option Z;
}.

#[export] Instance Limitation_eq_dec : EqDecision Limitation.
Proof. solve_decision. Defined.

Record Fee := mkFee {
  Amount : Z;
  FUnit : string;
  Period : option Z;
  FKinds : list Z;
}.

Record Fees := mkFees {
  Admission : list Fee;
  Subscription : list Fee;
  Publication : list Fee;
}.

(** One entry of a rule's kinds: a kind or a range of kinds. *)
Inductive kind_entry := KOne (k : Z) | KRange (lo hi : Z).

Record Retention := mkRetention {
  RKinds : list kind_entry;
  RTime : option Z;
  RCount : option Z;
}.

Record Info := mkInfo {
  IName : string;
  IDescription : string;
  IIcon : string;
  IBanner : string;
  IPubkey : string;
  IContact : string;
  SupportedNIPs : list Z;
  ISoftware : string;
  IVersion : string;
  ILimitation : option Limitation;
  IFees : option Fees;
  IRetention : list Retention;
}.

Definition maxNameRunes : Z := 80.
Definition maxDescriptionRunes : Z := 2000.
Definition maxContactRunes : Z := 200.
Definition maxHTTPURLRunes : Z := 500.
Definition maxNIPs : nat := 64.
Definition maxFeeEntries : nat := 8.
Definition maxRetentionRules : nat := 16.
Definition maxKindList : nat := 32.
Definition maxLimitationValue : Z := 2 ^ 31.

(** * Numbers *)

(** A number literal: its sign, the digits before and after the point as one
    integer, and the power of ten that scales it. *)
Fixpoint lit_digits (acc : Z) (n : Z) (l : list Z) : Z * Z * list Z :=
  match l with
  | b :: l' => if is_digit b then lit_digits (acc * 10 + (b - 48)) (n + 1) l' else (acc, n, l)
  | [] => (acc, n, [])
  end.

Definition lit_decimal (lit : list Z) : bool * Z * Z :=
  let neg := has_prefix [45] lit in
  let l := if neg then drop 1 lit else lit in
  let '(ip, _, l) := lit_digits 0 0 l in
  let '(m, fr, l) := match l with
                     | b :: l' => if b =? 46 then lit_digits ip 0 l' else (ip, 0, l)
                     | [] => (ip, 0, [])
                     end in
  let e := match l with
           | _ :: l' =>
               if has_prefix [45] l' then - (lit_digits 0 0 (drop 1 l')).1.1
               else if has_prefix [43] l' then (lit_digits 0 0 (drop 1 l')).1.1
               else (lit_digits 0 0 l').1.1
           | [] => 0
           end in
  (neg, m, e - fr).

(** The quotient of two positive integers to the nearest integer, ties to even. *)
Definition div_rne (n d : Z) : Z :=
  let q := n / d in
  let r := n mod d in
  if 2 * r <? d then q
  else if d <? 2 * r then q + 1
  else if Z.even q then q else q + 1.

(** [strconv.ParseFloat] of a positive rational [n / d]: the nearest [m * 2 ^ e]
    with a 53-bit [m] and [e] at least [-1074]. *)
Definition round_float (n d : Z) : Z * Z :=
  let e0 := Z.log2 n - Z.log2 d in
  let ge := if 0 <=? e0 then d * 2 ^ e0 <=? n else d <=? n * 2 ^ (- e0) in
  let e := Z.max (-1074) ((if ge then e0 else e0 - 1) - 52) in
  ((if 0 <=? e then div_rne n (d * 2 ^ e) else div_rne (n * 2 ^ (- e)) d), e).

(** The double nearest to a literal; zero is [(0, 0)]. *)
Definition lit_float (lit : list Z) : Z * Z :=
  let '(neg, m, e) := lit_decimal lit in
  if m =? 0 then (0, 0)
  else
    let '(f, x) := if 0 <=? e then round_float (m * 10 ^ e) 1 else round_float m (10 ^ (- e)) in
    (if neg : bool then - f else f, x).

(** The integer a double is, if it is one. *)
Definition float_int (f : Z * Z) : option Z :=
  let '(m, e) := f in
  if 0 <=? e then Some (m * 2 ^ e)
  else if m mod 2 ^ (- e) =? 0 then Some (m / 2 ^ (- e)) else None.

Definition parseNonNegInt (raw : option json) : option Z :=
  match raw with
  | None | Some JNull => None
  | Some v =>
      match unmarshal_int v with
      | Some n => if 0 <=? n then Some n else None
      | None =>
          match v with
          | JNum lit =>
              match float_int (lit_float lit) with
              | Some z => if (z <? 0) || (2 ^ 63 <? z) then None else Some (i64 z)
              | None => None
              end
          | _ => None
          end
      end
  end.

Definition parseBoundedInt (raw : option json) : option Z :=
  match parseNonNegInt raw with
  | Some n => if maxLimitationValue <? n then None else Some n
  | None => None
  end.

Definition parseBoolPtr (raw : option json) : option bool :=
  match raw with Some (JBool b) => Some b | _ => None end.

Definition objectFields (raw : option json) : option (gmap string json) :=
  match raw with Some (JObj ms) => unmarshal_object (JObj ms) | _ => None end.

Definition raw_items (raw : option json) : option (list json) :=
  match raw with Some v => unmarshal_list v | None => None end.

Example numbers :
  map (λ s, parseNonNegInt (json_parse (bytes s)))
    ["7"; "-7"; "1e3"; "12.50e1"; "1.5"; "0.1e-400"; "9007199254740993.0"; "9223372036854775807"; "1e19"; "null"; "true"; "-0.0"]
  = [Some 7; None; Some 1000; Some 125; None; Some 0; Some 9007199254740992; Some 9223372036854775807; None; None; None; Some 0].
Proof. vm_compute. reflexivity. Qed.

(** Two to the 63rd is no [int64], but passes for one and comes out negative. *)
Example overflow_is_negative :
  parseNonNegInt (json_parse (bytes "9223372036854775808")) = Some min_int64 ∧
  parseBoundedInt (json_parse (bytes "9223372036854775808")) = Some min_int64.
Proof. split; vm_compute; reflexivity. Qed.

(** * Texts *)

Definition rawString (raw : option json) : string :=
  match raw with
  | None => ""
  | Some v => match unmarshal_string v with Some s => s | None => "" end
  end.

(** [utf8.DecodeRuneInString]: how many bytes the first rune takes. *)
Definition rune_size (l : list Z) : nat :=
  match l with
  | [] => 0%nat
  | a :: l1 =>
      if a <? 128 then 1%nat
      else if is_lead2 a then
        match l1 with b :: _ => if is_cont b then 2%nat else 1%nat | [] => 1%nat end
      else if is_lead3 a then
        match l1 with b :: c :: _ => if second_ok a b && is_cont c then 3%nat else 1%nat | _ => 1%nat end
      else if is_lead4 a then
        match l1 with b :: c :: d :: _ => if second_ok a b && is_cont c && is_cont d then 4%nat else 1%nat | _ => 1%nat end
      else 1%nat
  end.

(** The bytes of the first [n] runes. *)
Fixpoint rune_prefix (n : nat) (l : list Z) : list Z :=
  match n with
  | O => []
  | S n => take (rune_size l) l ++ rune_prefix n (drop (rune_size l) l)
  end.

Definition truncateRunes (value : string) (maxRunes : Z) : string :=
  if (maxRunes <=? 0) || (rune_count value <=? maxRunes) then value
  else str (rune_prefix (Z.to_nat maxRunes) (bytes value)).

Definition kept_rune (allowNewlines : bool) (r : Z) : bool :=
  ((r =? 10) && allowNewlines) || negb ((r <? 32) || (r =? 127)).

Definition cleanText (value : string) (maxRunes : Z) (allowNewlines : bool) : string :=
  let value := trim_space value in
  if bool_decide (value = "") then ""
  else
    let kept := str (encode_runes (List.filter (kept_rune allowNewlines) (runes (bytes value)))) in
    truncateRunes (trim_space kept) maxRunes.

Definition lower_hex (b : Z) : bool := is_digit b || ((97 <=? b) && (b <=? 102)).

(** * Tokens *)

Definition is_alpha (b : Z) : bool := ((65 <=? b) && (b <=? 90)) || ((97 <=? b) && (b <=? 122)).
Definition is_alnum (b : Z) : bool := is_alpha b || is_digit b.

(** [^[A-Za-z0-9][A-Za-z0-9...]{0,n}$]: the extra bytes are [., _, +] and [-],
    and [/] for software. *)
Definition token_match (extra : list Z) (n : nat) (s : string) : bool :=
  match bytes s with
  | [] => false
  | b :: l => is_alnum b && forallb (λ c, is_alnum c || existsb (Z.eqb c) extra) l && (length l <=? n)%nat
  end.

Definition softwareToken : string → bool := token_match [46; 95; 43; 47; 45] 79.
Definition versionToken : string → bool := token_match [46; 95; 43; 45] 63.

Definition feeUnit (s : string) : bool :=
  forallb is_alpha (bytes s) && (1 <=? length (bytes s))%nat && (length (bytes s) <=? 16)%nat.

Section cleaners.
Context `{UnicodeTables} `{URLParser}.

Definition cleanPubkey (value : string) : string :=
  let value := to_lower (trim_space value) in
  if negb (go_len value =? 64) then ""
  else if forallb (λ c, (negb ((c <? 48) || (57 <? c))) || negb ((c <? 97) || (102 <? c))) (runes (bytes value))
  then value else "".

Definition cleanHTTPURL (value : string) : string :=
  let value := trim_space value in
  if bool_decide (value = "") || (maxHTTPURLRunes <? rune_count value) then ""
  else
    match url_Parse value with
    | Err _ => ""
    | Ok parsed =>
        if bool_decide (PHost parsed = "") || PHasUser parsed then ""
        else
          let scheme := to_lower (PScheme parsed) in
          if negb (bool_decide (scheme = "https") || bool_decide (scheme = "http")) then ""
          else if bool_decide (Hostname (PHost parsed) = "") then ""
          else if is_ok (HostIsPublic (Hostname (PHost parsed))) then value else ""
    end.

Definition cleanSoftware (value : string) : string :=
  let value := trim_space value in
  if bool_decide (value = "") then ""
  else if contains (bytes "://") (bytes value) then cleanHTTPURL value
  else if softwareToken value then value
  else "".

Definition cleanVersion (value : string) : string :=
  let value := trim_space value in
  if versionToken value then value else "".

(** * Lists *)

(** The first [cap] results of [f] over the items: the loops stop as soon as
    [out] is full. *)
Fixpoint collect {A B} (cap : nat) (f : A → option B) (items : list A) (out : list B) : list B :=
  match items with
  | [] => out
  | x :: items =>
      if (cap <=? length out)%nat then out
      else collect cap f items (match f x with Some y => out ++ [y] | None => out end)
  end.

(** [parseNIPs] skips numbers it has seen. *)
Fixpoint collect_nips (items : list json) (out : list Z) : list Z :=
  match items with
  | [] => out
  | x :: items =>
      if (maxNIPs <=? length out)%nat then out
      else
        match parseNonNegInt (Some x) with
        | Some n => if (100000 <? n) || bool_decide (n ∈ out) then collect_nips items out
                    else collect_nips items (out ++ [n])
        | None => collect_nips items out
        end
  end.

Definition parseNIPs (raw : option json) : list Z :=
  match raw_items raw with
  | Some items => merge_sort Z.le (collect_nips items [])
  | None => []
  end.

Definition parseKindNumbers (raw : option json) : list Z :=
  match raw_items raw with
  | Some items =>
      collect maxKindList
        (λ item, match parseNonNegInt (Some item) with
                 | Some n => if 65535 <? n then None else Some n
                 | None => None
                 end) items []
  | None => []
  end.

Definition fee_entry (item : json) : option Fee :=
  match objectFields (Some item) with
  | None => None
  | Some fields =>
      match parseNonNegInt (fields !! "amount") with
      | None => None
      | Some amount =>
          let unit := rawString (fields !! "unit") in
          if negb (feeUnit unit) then None
          else
            let period := match parseNonNegInt (fields !! "period") with
                          | Some p => if p <=? maxLimitationValue then Some p else None
                          | None => None
                          end in
            Some (mkFee amount unit period (parseKindNumbers (fields !! "kinds")))
      end
  end.

Definition parseFeeList (raw : option json) : list Fee :=
  match raw_items raw with
  | Some items => collect maxFeeEntries fee_entry items []
  | None => []
  end.

Definition parseFees (raw : option json) : option Fees :=
  match objectFields raw with
  | None => None
  | Some fields =>
      let fees := mkFees (parseFeeList (fields !! "admission")) (parseFeeList (fields !! "subscription"))
                    (parseFeeList (fields !! "publication")) in
      match Admission fees, Subscription fees, Publication fees with
      | [], [], [] => None
      | _, _, _ => Some fees
      end
  end.

Definition kind_item (item : json) : option kind_entry :=
  let pair :=
    match unmarshal_list item with
    | Some [lo; hi] =>
        match parseNonNegInt (Some lo), parseNonNegInt (Some hi) with
        | Some lo, Some hi => if (hi <? lo) || (65535 <? hi) then None else Some (KRange lo hi)
        | _, _ => None
        end
    | _ => None
    end in
  match parseNonNegInt (Some item) with
  | Some n => if n <=? 65535 then Some (KOne n) else pair
  | None => pair
  end.

Definition sanitizeKinds (raw : option json) : list kind_entry :=
  match raw_items raw with
  | Some items => collect maxKindList kind_item items []
  | None => []
  end.

Definition retention_rule (item : json) : option Retention :=
  match objectFields (Some item) with
  | None => None
  | Some fields =>
      let bounded k := match parseNonNegInt (fields !! k) with
                       | Some n => if n <=? maxLimitationValue then Some n else None
                       | None => None
                       end in
      let rule := mkRetention (sanitizeKinds (fields !! "kinds")) (bounded "time") (bounded "count") in
      match RKinds rule, RTime rule, RCount rule with
      | [], None, None => None
      | _, _, _ => Some rule
      end
  end.

Definition parseRetention (raw : option json) : list Retention :=
  match raw_items raw with
  | Some items => collect maxRetentionRules retention_rule items []
  | None => []
  end.

Definition parseLimitation (raw : option json) : option Limitation :=
  match objectFields raw with
  | None => None
  | Some fields =>
      let lim :=
        mkLimitation
          (parseBoundedInt (fields !! "max_message_length")) (parseBoundedInt (fields !! "max_subscriptions"))
          (parseBoundedInt (fields !! "max_filters")) (parseBoundedInt (fields !! "max_limit"))
          (parseBoundedInt (fields !! "max_subid_length")) (parseBoundedInt (fields !! "max_event_tags"))
          (parseBoundedInt (fields !! "max_content_length")) (parseBoundedInt (fields !! "min_pow_difficulty"))
          (parseBoolPtr (fields !! "auth_required")) (parseBoolPtr (fields !! "payment_required"))
          (parseBoolPtr (fields !! "restricted_writes"))
          (parseBoundedInt (fields !! "created_at_lower_limit")) (parseBoundedInt (fields !! "created_at_upper_limit")) in
      if bool_decide (lim = mkLimitation None None None None None None None None None None None None None)
      then None else Some lim
  end.

(** * The document *)

Definition errNotJSON : error := "not_json".

Definition trim_bom (l : list Z) : list Z := if has_prefix [239; 187; 191] l then drop 3 l else l.

Definition info_of (raw : gmap string json) : Info :=
  mkInfo (cleanText (rawString (raw !! "name")) maxNameRunes false)
    (cleanText (rawString (raw !! "description")) maxDescriptionRunes true)
    (cleanHTTPURL (rawString (raw !! "icon"))) (cleanHTTPURL (rawString (raw !! "banner")))
    (cleanPubkey (rawString (raw !! "pubkey")))
    (cleanText (rawString (raw !! "contact")) maxContactRunes false)
    (parseNIPs (raw !! "supported_nips"))
    (cleanSoftware (rawString (raw !! "software"))) (cleanVersion (rawString (raw !! "version")))
    (parseLimitation (raw !! "limitation")) (parseFees (raw !! "fees")) (parseRetention (raw !! "retention")).

Definition Parse (body : list Z) : result Info :=
  let body := trim_bom (trim_bytes body) in
  if negb (has_prefix [123] body) then Err errNotJSON
  else
    match json_parse body with
    | None => Err errNotJSON
    | Some v =>
        match unmarshal_object v with
        | None => Err errNotJSON
        | Some raw => Ok (info_of raw)
        end
    end.
End cleaners.

(** * What is kept *)

(** Integers read from a document: not negative, but for the one that overflows. *)
Definition int_ok (n : Z) : Prop := 0 ≤ n ≤ max_int64 ∨ n = min_int64.

Definition text_ok (max : Z) (nl : bool) (s : string) : Prop :=
  rune_count s ≤ max ∧ Forall (λ b, 32 ≤ b ∧ b ≠ 127 ∨ nl = true ∧ b = 10) (bytes s).

Definition bounded_ok (n : option Z) : Prop := ∀ z, n = Some z → int_ok z ∧ z ≤ maxLimitationValue.

Definition limitation_ok (l : Limitation) : Prop :=
  Forall bounded_ok [MaxMessageLength l; MaxSubscriptions l; MaxFilters l; MaxLimit l; MaxSubidLength l; MaxEventTags l;
    MaxContentLength l; MinPowDifficulty l; CreatedAtLowerLimit l; CreatedAtUpperLimit l].

Definition kinds_ok (ks : list Z) : Prop := (length ks ≤ maxKindList)%nat ∧ Forall (λ k, int_ok k ∧ k ≤ 65535) ks.

Definition fee_ok (f : Fee) : Prop :=
  int_ok (Amount f) ∧ feeUnit (FUnit f) = true ∧ bounded_ok (Period f) ∧ kinds_ok (FKinds f).

Definition fee_list_ok (fs : list Fee) : Prop := (length fs ≤ maxFeeEntries)%nat ∧ Forall fee_ok fs.

Definition kind_entry_ok (e : kind_entry) : Prop :=
  match e with
  | KOne k => int_ok k ∧ k ≤ 65535
  | KRange lo hi => int_ok lo ∧ int_ok hi ∧ lo ≤ hi ≤ 65535
  end.

Definition rule_ok (r : Retention) : Prop :=
  (length (RKinds r) ≤ maxKindList)%nat ∧ Forall kind_entry_ok (RKinds r) ∧ bounded_ok (RTime r) ∧ bounded_ok (RCount r) ∧
  (RKinds r ≠ [] ∨ is_Some (RTime r) ∨ is_Some (RCount r)).

Section kept.
Context `{UnicodeTables} `{URLParser}.

Definition url_ok (s : string) : Prop :=
  s = "" ∨ rune_count s ≤ maxHTTPURLRunes ∧
  ∃ p, url_Parse s = Ok p ∧ (to_lower (PScheme p) = "https" ∨ to_lower (PScheme p) = "http") ∧ PHasUser p = false ∧
       Hostname (PHost p) ≠ "" ∧ is_ok (HostIsPublic (Hostname (PHost p))) = true.

Record info_ok (i : Info) : Prop := {
  ok_name : text_ok maxNameRunes false (IName i);
  ok_description : text_ok maxDescriptionRunes true (IDescription i);
  ok_contact : text_ok maxContactRunes false (IContact i);
  ok_icon : url_ok (IIcon i);
  ok_banner : url_ok (IBanner i);
  ok_pubkey : IPubkey i = "" ∨ go_len (IPubkey i) = 64 ∧ forallb lower_hex (bytes (IPubkey i)) = true;
  ok_nips : StronglySorted Z.lt (SupportedNIPs i) ∧ (length (SupportedNIPs i) ≤ maxNIPs)%nat ∧
            Forall (λ n, int_ok n ∧ n ≤ 100000) (SupportedNIPs i);
  ok_software : url_ok (ISoftware i) ∨ softwareToken (ISoftware i) = true;
  ok_version : IVersion i = "" ∨ versionToken (IVersion i) = true;
  ok_limitation : ∀ l, ILimitation i = Some l → limitation_ok l;
  ok_fees : ∀ f, IFees i = Some f → fee_list_ok (Admission f) ∧ fee_list_ok (Subscription f) ∧ fee_list_ok (Publication f);
  ok_retention : (length (IRetention i) ≤ maxRetentionRules)%nat ∧ Forall rule_ok (IRetention i);
}.
End kept.

Lemma parseNonNegInt_ok raw n : parseNonNegInt raw = Some n → int_ok n.
Proof.
  unfold parseNonNegInt, int_ok. intros E.
  assert (∃ v, v ≠ JNull ∧
    match unmarshal_int v with
    | Some n => if 0 <=? n then Some n else None
    | None => match v with
              | JNum lit => match float_int (lit_float lit) with
                            | Some z => if (z <? 0) || (2 ^ 63 <? z) then None else Some (i64 z)
                            | None => None
                            end
              | _ => None
              end
    end = Some n) as (v & Hv & Ev) by (destruct raw as [[]|]; try done; eexists; (split; [|exact E]); done).
  destruct (unmarshal_int v) as [m|] eqn:Eu.
  - destruct (Z.leb_spec 0 m); [|done]. injection Ev as <-. left. split; [done|].
    assert (in_i64 m = true) as Hr by (destruct v; try done; by apply parse_int_range in Eu).
    apply in_i64_spec in Hr. lia.
  - destruct v; try done. destruct (float_int _) as [z|]; [|done]. destruct ((z <? 0) || (2 ^ 63 <? z)) eqn:Ez; [done|].
    injection Ev as <-. apply orb_false_iff in Ez as [E1 E2]. bool_simpl. destruct (decide (z = 2 ^ 63)) as [->|].
    + right. reflexivity.
    + left. assert (max_int64 = 2 ^ 63 - 1) as Em by reflexivity. assert (min_int64 = - 2 ^ 63) by reflexivity.
      rewrite i64_id by lia. lia.
Qed.

Lemma parseBoundedInt_ok raw : bounded_ok (parseBoundedInt raw).
Proof.
  intros z. unfold parseBoundedInt. destruct (parseNonNegInt raw) as [n|] eqn:E; [|done].
  destruct (maxLimitationValue <? n) eqn:Eb; [done|]. intros [= <-]. bool_simpl. split; [by eapply parseNonNegInt_ok|done].
Qed.

(** The idiom of the other fields. *)
Lemma bounded_match raw (z : Z) :
  match parseNonNegInt raw with Some p => if p <=? maxLimitationValue then Some p else None | None => None end = Some z →
  int_ok z ∧ z ≤ maxLimitationValue.
Proof.
  destruct (parseNonNegInt raw) as [n|] eqn:E; [|done]. destruct (n <=? maxLimitationValue) eqn:Eb; [|done].
  intros [= <-]. bool_simpl. split; [by eapply parseNonNegInt_ok|done].
Qed.

Lemma collect_ok {A B} (P : B → Prop) cap (f : A → option B) items out :
  (∀ x y, f x = Some y → P y) → Forall P out → (length out ≤ cap)%nat →
  Forall P (collect cap f items out) ∧ (length (collect cap f items out) ≤ cap)%nat.
Proof.
  intros Hf. revert out. induction items as [|x items IH]; intros out Ho Hl; [done|]. cbn [collect].
  destruct (Nat.leb_spec cap (length out)); [done|]. destruct (f x) as [y|] eqn:E; [|by apply IH].
  apply IH; [|rewrite length_app; simpl; lia]. apply Forall_app_2; [done|]. apply Forall_singleton. by eapply Hf.
Qed.

Lemma collect_list_ok {A B} (P : B → Prop) cap (f : A → option B) (items : option (list A)) :
  (∀ x y, f x = Some y → P y) →
  (length (match items with Some l => collect cap f l [] | None => [] end) ≤ cap)%nat ∧
  Forall P (match items with Some l => collect cap f l [] | None => [] end).
Proof.
  intros Hf. destruct items as [l|]; [|split; [simpl; lia|constructor]].
  destruct (collect_ok P cap f l [] Hf) as [H1 H2]; [constructor|simpl; lia|]. done.
Qed.

Lemma parseKindNumbers_ok raw : kinds_ok (parseKindNumbers raw).
Proof.
  unfold kinds_ok, parseKindNumbers. apply collect_list_ok. intros x y. destruct (parseNonNegInt (Some x)) as [n|] eqn:E; [|done].
  destruct (65535 <? n) eqn:Eb; [done|]. intros [= <-]. bool_simpl. split; [by eapply parseNonNegInt_ok|done].
Qed.

Lemma fee_entry_ok item f : fee_entry item = Some f → fee_ok f.
Proof.
  unfold fee_entry. destruct (objectFields (Some item)) as [fields|]; [|done].
  destruct (parseNonNegInt (fields !! "amount")) as [amount|] eqn:Ea; [|done]. cbv zeta.
  destruct (feeUnit _) eqn:Eu; [|done]. intros [= <-]. split_and!; simpl.
  - by eapply parseNonNegInt_ok.
  - done.
  - intros z. apply bounded_match.
  - apply parseKindNumbers_ok.
Qed.

Lemma parseFeeList_ok raw : fee_list_ok (parseFeeList raw).
Proof. unfold fee_list_ok, parseFeeList. apply collect_list_ok. apply fee_entry_ok. Qed.

Lemma kind_item_ok item e : kind_item item = Some e → kind_entry_ok e.
Proof.
  unfold kind_item. cbv zeta. intros E.
  assert (∀ n, parseNonNegInt (Some item) = Some n → n ≤ 65535 → kind_entry_ok (KOne n)) as Hone
    by (intros n En Hn; split; [by eapply parseNonNegInt_ok|done]).
  set (pair := match unmarshal_list item with Some _ => _ | None => _ end) in E.
  assert (pair = Some e → kind_entry_ok e) as Hpair.
  { unfold pair. destruct (unmarshal_list item) as [[|lo [|hi [|]]]|]; try done.
    destruct (parseNonNegInt (Some lo)) as [l|] eqn:El; [|done]. destruct (parseNonNegInt (Some hi)) as [h|] eqn:Eh; [|done].
    destruct (_ || _) eqn:Eb; [done|]. intros [= <-]. apply orb_false_iff in Eb as [? ?]. bool_simpl.
    split_and!; [by eapply parseNonNegInt_ok|by eapply parseNonNegInt_ok|done|done]. }
  destruct (parseNonNegInt (Some item)) as [n|]; [|auto]. destruct (n <=? 65535) eqn:Eb; [|auto].
  injection E as <-. bool_simpl. by apply Hone.
Qed.

Lemma retention_rule_ok item r : retention_rule item = Some r → rule_ok r.
Proof.
  unfold retention_rule. destruct (objectFields (Some item)) as [fields|]; [|done]. cbv zeta.
  set (rule := mkRetention _ _ _). intros E.
  assert (r = rule ∧ (RKinds rule ≠ [] ∨ is_Some (RTime rule) ∨ is_Some (RCount rule))) as [-> Hne].
  { destruct (RKinds rule) eqn:E1, (RTime rule) eqn:E2, (RCount rule) eqn:E3; try discriminate E; injection E as <-; (split; [done|]); eauto. }
  destruct (collect_list_ok kind_entry_ok maxKindList kind_item (raw_items (fields !! "kinds")) kind_item_ok) as [K1 K2].
  split_and!; [exact K1|exact K2|intros z; apply bounded_match|intros z; apply bounded_match|exact Hne].
Qed.

(** ** Numbers of NIPs *)

Lemma collect_nips_ok items out :
  NoDup out → (length out ≤ maxNIPs)%nat → Forall (λ n, int_ok n ∧ n ≤ 100000) out →
  NoDup (collect_nips items out) ∧ (length (collect_nips items out) ≤ maxNIPs)%nat ∧
  Forall (λ n, int_ok n ∧ n ≤ 100000) (collect_nips items out).
Proof.
  revert out. induction items as [|x items IH]; intros out Hn Hl Hf; [done|]. cbn [collect_nips].
  destruct (Nat.leb_spec maxNIPs (length out)); [done|]. destruct (parseNonNegInt (Some x)) as [n|] eqn:E; [|by apply IH].
  destruct (100000 <? n) eqn:Eb; [by apply IH|]. cbn [orb]. case_bool_decide as Hin; [by apply IH|]. bool_simpl. apply IH.
  - apply list.NoDup_app. split_and!; [done|set_solver|apply NoDup_singleton].
  - rewrite length_app. simpl. lia.
  - apply Forall_app_2; [done|]. apply Forall_singleton. split; [by eapply parseNonNegInt_ok|done].
Qed.

Lemma strictly_sorted l : StronglySorted Z.le l → NoDup l → StronglySorted Z.lt l.
Proof.
  induction 1 as [|x l Hs IH Hx]; intros Hn; [constructor|]. inversion Hn as [|? ? Hni Hn']; subst.
  constructor; [auto|]. rewrite List.Forall_forall in *. intros y Hy. specialize (Hx y Hy).
  assert (x ≠ y) by (intros ->; by apply Hni, list_elem_of_In). lia.
Qed.

Lemma parseNIPs_ok raw :
  StronglySorted Z.lt (parseNIPs raw) ∧ (length (parseNIPs raw) ≤ maxNIPs)%nat ∧
  Forall (λ n, int_ok n ∧ n ≤ 100000) (parseNIPs raw).
Proof.
  unfold parseNIPs. destruct (raw_items raw) as [items|]; [|split_and!; [constructor|simpl; lia|constructor]].
  destruct (collect_nips_ok items []) as (Hn & Hl & Hf); [constructor|simpl; lia|constructor|].
  pose proof (merge_sort_Permutation Z.le (collect_nips items [])) as Hp. split_and!.
  - apply strictly_sorted; [|by rewrite Hp]. apply (StronglySorted_merge_sort Z.le).
  - by rewrite Hp.
  - by rewrite Hp.
Qed.

(** ** Texts *)

Lemma rune_size_le l : (rune_size l ≤ length l)%nat.
Proof.
  destruct l as [|a l1]; [done|]. cbn [rune_size].
  destruct l1 as [|b [|c [|d l4]]]; split_ifs; simpl; lia.
Qed.

(** Bytes after the lead byte [a] that do not complete an encoding. *)
Definition bad_tail (a : Z) (r : list Z) : Prop :=
  (is_lead2 a = true → ∀ b r', r = b :: r' → is_cont b = false) ∧
  (is_lead3 a = true → ∀ b c r', r = b :: c :: r' → second_ok a b && is_cont c = false) ∧
  (is_lead4 a = true → ∀ b c d r', r = b :: c :: d :: r' → second_ok a b && is_cont c && is_cont d = false).

Lemma runes_bad a r : (a <? 128) = false → bad_tail a r → runes (a :: r) = rune_error :: runes r.
Proof.
  intros Ea (H2 & H3 & H4). cbn [runes]. rewrite Ea. destruct (is_lead2 a).
  { destruct r as [|b r']; [done|]. by rewrite (H2 eq_refl b r' eq_refl). }
  destruct (is_lead3 a).
  { destruct r as [|b [|c r']]; [done..|]. by rewrite (H3 eq_refl b c r' eq_refl). }
  destruct (is_lead4 a); [|done]. destruct r as [|b [|c [|d r']]]; [done..|]. by rewrite (H4 eq_refl b c d r' eq_refl).
Qed.

Lemma bad_tail_prefix a r r' : bad_tail a r → r' `prefix_of` r → bad_tail a r'.
Proof.
  intros (H2 & H3 & H4) [k ->]. split_and!.
  - intros Hl b t ->. by eapply H2.
  - intros Hl b c t ->. by eapply H3.
  - intros Hl b c d t ->. by eapply H4.
Qed.

Lemma lead_cases a :
  (is_lead2 a = true → is_lead3 a = false ∧ is_lead4 a = false) ∧ (is_lead3 a = true → is_lead4 a = false).
Proof. unfold is_lead2, is_lead3, is_lead4. split; intros; bool_simpl; try split; apply andb_false_iff; rewrite !Z.leb_gt; lia. Qed.

(** The size of the first rune: one byte, or those of an encoding. *)
Lemma rune_size_cases a l1 :
  (a <? 128) = true ∧ rune_size (a :: l1) = 1%nat ∨
  (a <? 128) = false ∧ (rune_size (a :: l1) = 1%nat ∧ bad_tail a l1 ∨
    ∃ p l2, l1 = p ++ l2 ∧ rune_size (a :: l1) = S (length p) ∧ ∀ r, ∃ x, runes (a :: p ++ r) = x :: runes r).
Proof.
  destruct (lead_cases a) as [X2 X3]. cbn [rune_size]. destruct (a <? 128) eqn:Ea; [by left|]. right. split; [done|].
  destruct (is_lead2 a) eqn:E2; [|destruct (is_lead3 a) eqn:E3; [|destruct (is_lead4 a) eqn:E4]].
  - destruct (X2 eq_refl) as [E3 E4]. destruct l1 as [|b l2]; [left; split; [done|split_and!; intros; congruence]|].
    destruct (is_cont b) eqn:Eb.
    + right. exists [b], l2. split_and!; [done..|]. intros r. cbn [app runes]. rewrite Ea, E2, Eb. by eexists.
    + left. split; [done|]. split_and!; [by intros _ ? ? [= <- <-]|congruence..].
  - specialize (X3 eq_refl). destruct l1 as [|b [|c l3]]; [left; split; [done|split_and!; intros; congruence]..|].
    destruct (second_ok a b && is_cont c) eqn:Eb.
    + right. exists [b; c], l3. split_and!; [done..|]. intros r. cbn [app runes]. rewrite Ea, E2, E3, Eb. by eexists.
    + left. split; [done|]. split_and!; [congruence|by intros _ ? ? ? [= <- <- <-]|congruence].
  - destruct l1 as [|b [|c [|d l4]]]; [left; split; [done|split_and!; intros; congruence]..|].
    destruct (second_ok a b && is_cont c && is_cont d) eqn:Eb.
    + right. exists [b; c; d], l4. split_and!; [done..|]. intros r. cbn [app runes]. rewrite Ea, E2, E3, E4, Eb. by eexists.
    + left. split; [done|]. split_and!; [congruence..|by intros _ ? ? ? ? [= <- <- <- <-]].
  - left. split; [done|]. split_and!; congruence.
Qed.

Lemma runes_first l r :
  l ≠ [] → r `prefix_of` drop (rune_size l) l → ∃ x, runes (take (rune_size l) l ++ r) = x :: runes r.
Proof.
  intros Hne Hp. destruct l as [|a l1]; [done|].
  destruct (rune_size_cases a l1) as [[Ea Es]|[Ea [[Es Hb]|(p & l2 & -> & Es & Hr)]]]; rewrite Es in *.
  - cbn [take app runes]. rewrite take_0, Ea. by eexists.
  - cbn [take drop] in *. rewrite take_0, drop_0 in *. cbn [app]. rewrite runes_bad; [by eexists|done|by eapply bad_tail_prefix].
  - cbn [take drop] in *. rewrite take_app_length. apply Hr.
Qed.

Lemma rune_prefix_prefix n l : rune_prefix n l `prefix_of` l.
Proof.
  revert l. induction n as [|n IH]; intros l; cbn [rune_prefix]; [apply prefix_nil|].
  destruct (IH (drop (rune_size l) l)) as [k Hk]. exists k. rewrite <-app_assoc, <-Hk. by rewrite take_drop.
Qed.

Lemma rune_prefix_count n l : (length (runes (rune_prefix n l)) ≤ n)%nat.
Proof.
  revert l. induction n as [|n IH]; intros l; cbn [rune_prefix]; [simpl; lia|].
  destruct (decide (l = [])) as [->|Hne].
  - simpl. specialize (IH []). by etransitivity; [|apply Nat.le_succ_diag_r].
  - destruct (runes_first l (rune_prefix n (drop (rune_size l) l)) Hne (rune_prefix_prefix _ _)) as [x ->].
    cbn [length]. specialize (IH (drop (rune_size l) l)). lia.
Qed.

Lemma Forall_prefix {A} (P : A → Prop) l l' : l' `prefix_of` l → Forall P l → Forall P l'.
Proof. intros [k ->]. by intros [? _]%Forall_app. Qed.

Lemma Forall_trim (P : Z → Prop) l : Forall P l → Forall P (trim_bytes l).
Proof.
  intros Hf. unfold trim_bytes. destruct (trim_left_suffix l) as [p E]. rewrite E in Hf. apply Forall_app in Hf as [_ Hf].
  destruct (trim_left_rev_suffix (rev (trim_left l))) as [q E2]. apply Forall_rev in Hf. rewrite E2 in Hf.
  apply Forall_app in Hf as [_ Hf]. by apply Forall_rev.
Qed.

Lemma truncate_ok (P : Z → Prop) value max :
  0 < max → Forall P (bytes value) →
  rune_count (truncateRunes value max) ≤ max ∧ Forall P (bytes (truncateRunes value max)).
Proof.
  intros Hm Hf. unfold truncateRunes. destruct (_ || _) eqn:E.
  - apply orb_true_iff in E as [E|E]; bool_simpl; [lia|done].
  - pose proof (rune_prefix_prefix (Z.to_nat max) (bytes value)) as Hp.
    assert (Forall byte_ok (rune_prefix (Z.to_nat max) (bytes value))) as Hb by (eapply Forall_prefix; [exact Hp|apply bytes_range]).
    unfold rune_count. rewrite bytes_str by done. split; [|by eapply Forall_prefix].
    pose proof (rune_prefix_count (Z.to_nat max) (bytes value)). lia.
Qed.

Lemma kept_bytes nl r :
  valid_rune r = true → kept_rune nl r = true → Forall (λ b, 32 ≤ b ∧ b ≠ 127 ∨ nl = true ∧ b = 10) (encode_rune r).
Proof.
  intros Hv Hk. unfold kept_rune in Hk.
  assert (r < 128 → 32 ≤ r ∧ r ≠ 127 ∨ nl = true ∧ r = 10) as Ha.
  { intros _. apply orb_true_iff in Hk as [Hk|Hk]; bool_simpl; [by right|left; lia]. }
  assert (∀ a b, second_ok a b = true → 128 ≤ b) as Hs.
  { intros a b. unfold second_ok, is_cont. split_ifs; intros; bool_simpl; lia. }
  assert (∀ l, Forall (λ b, 128 ≤ b) l → Forall (λ b, 32 ≤ b ∧ b ≠ 127 ∨ nl = true ∧ b = 10) l) as Hhigh
    by (intros l; apply List.Forall_impl; intros; left; lia).
  destruct (encode_rune_view r Hv) as [?|? ? E1 _ E3 _ _|? ? ? E1 _ _ E4 _ _|? ? ? ? E1 _ _ _ E5 _ _]; clear Hk;
    [constructor; [apply Ha; lia|constructor]|apply Hhigh..]; unfold is_cont in *; bool_simpl;
    repeat (constructor; [first [lia|by eapply Hs]|]); constructor.
Qed.

Lemma cleanText_ok value max nl : 0 < max → text_ok max nl (cleanText value max nl).
Proof.
  intros Hm. unfold text_ok, cleanText. cbv zeta. case_bool_decide; [split; [unfold rune_count; simpl; lia|constructor]|].
  apply truncate_ok; [done|]. set (P := λ b, 32 ≤ b ∧ b ≠ 127 ∨ nl = true ∧ b = 10).
  set (rs := List.filter (kept_rune nl) (runes (bytes (trim_space value)))).
  unfold trim_space at 1. rewrite (bytes_str (encode_runes rs)) by apply encode_runes_ok.
  rewrite bytes_str by (apply trim_bytes_ok, encode_runes_ok). apply Forall_trim.
  assert (Forall (λ r, valid_rune r = true ∧ kept_rune nl r = true) rs) as Hrs.
  { apply List.Forall_forall. intros r Hr. apply filter_In in Hr as [Hr Hk]. split; [|done].
    pose proof (runes_valid _ (bytes_range (trim_space value))) as Hv. rewrite List.Forall_forall in Hv. by apply Hv. }
  clearbody rs. induction Hrs as [|r rs [Hv Hk] _ IH]; [constructor|]. unfold encode_runes in *. cbn [map concat].
  apply Forall_app_2; [by apply kept_bytes|done].
Qed.

Section documents.
Context `{UnicodeTables} `{URLParser}.

Lemma cleanHTTPURL_ok value : url_ok (cleanHTTPURL value).
Proof.
  unfold cleanHTTPURL, url_ok. cbv zeta. destruct (bool_decide (trim_space value = "") || _) eqn:E1; [by left|].
  apply orb_false_iff in E1 as [_ E1]. bool_simpl. destruct (url_Parse (trim_space value)) as [p|] eqn:Ep; [|by left].
  destruct (_ || PHasUser p) eqn:Eu; [by left|]. apply orb_false_iff in Eu as [_ Eu].
  destruct (negb _) eqn:Es; [by left|]. destruct (bool_decide (Hostname (PHost p) = "")) eqn:Eh; [by left|].
  destruct (is_ok _) eqn:Ei; [|by left].
  right. split; [done|]. exists p. apply negb_false_iff, orb_true_iff in Es. bool_simpl. split_and!; try done.
  destruct Es; bool_simpl; auto.
Qed.

Lemma cleanSoftware_ok value : url_ok (cleanSoftware value) ∨ softwareToken (cleanSoftware value) = true.
Proof.
  unfold cleanSoftware. cbv zeta. case_bool_decide; [by left; left|]. destruct (contains _ _); [left; apply cleanHTTPURL_ok|].
  destruct (softwareToken _) eqn:E; [by right|by left; left].
Qed.

Lemma cleanVersion_ok value : cleanVersion value = "" ∨ versionToken (cleanVersion value) = true.
Proof. unfold cleanVersion. cbv zeta. destruct (versionToken _) eqn:E; [by right|by left]. Qed.

Lemma second_ok_range a b :
  second_ok a b = true → 128 ≤ b ≤ 191 ∧ (a = 224 → 160 ≤ b) ∧ (a = 240 → 144 ≤ b).
Proof. unfold second_ok, is_cont. split_ifs; intros; bool_simpl; lia. Qed.

(** A lead byte decodes to a rune that is not ASCII. *)
Lemma high_rune a l : (a <? 128) = false → ¬ Forall (λ r, r < 128) (runes (a :: l)).
Proof.
  intros Ea Hf. cbn [runes] in Hf. rewrite Ea in Hf.
  assert (∀ r l', Forall (λ r, r < 128) (r :: l') → 128 ≤ r → False) as Hbad by (intros r l' Hr ?; inversion Hr; subst; lia).
  destruct (is_lead2 a) eqn:E2; [|destruct (is_lead3 a) eqn:E3; [|destruct (is_lead4 a) eqn:E4]].
  - destruct l as [|b l]; [by apply Hbad in Hf|]. destruct (is_cont b) eqn:Eb; apply Hbad in Hf; try done.
    unfold is_lead2, is_cont, rune2 in *. bool_simpl. lia.
  - destruct l as [|b [|c l]]; [by apply Hbad in Hf..|]. destruct (_ && _) eqn:Eb; apply Hbad in Hf; try done.
    apply andb_true_iff in Eb as [Eb Ec]. apply second_ok_range in Eb. unfold is_lead3, is_cont, rune3 in *. bool_simpl. lia.
  - destruct l as [|b [|c [|d l]]]; [by apply Hbad in Hf..|]. destruct (_ && _) eqn:Eb; apply Hbad in Hf; try done.
    apply andb_true_iff in Eb as [Eb Ed]. apply andb_true_iff in Eb as [Eb Ec]. apply second_ok_range in Eb.
    unfold is_lead4, is_cont, rune4 in *. bool_simpl. lia.
  - by apply Hbad in Hf.
Qed.

(** Bytes that decode to ASCII runes are those runes. *)
Lemma ascii_runes l : Forall byte_ok l → Forall (λ r, r < 128) (runes l) → runes l = l.
Proof.
  remember (length l) as n eqn:Hn. revert l Hn. induction n as [n IH] using lt_wf_ind. intros l -> Hb Hr.
  destruct l as [|a l1]; [done|]. inversion Hb as [|? ? Ha Hb1]; subst.
  assert ((a <? 128) = true) as Ea.
  { destruct (a <? 128) eqn:Ea; [done|]. exfalso. by apply (high_rune a l1). }
  cbn [runes] in *. rewrite Ea in *. inversion Hr; subst. f_equal. eapply IH; [|done|done|done]. simpl. lia.
Qed.

Lemma cleanPubkey_ok value :
  cleanPubkey value = "" ∨ go_len (cleanPubkey value) = 64 ∧ forallb lower_hex (bytes (cleanPubkey value)) = true.
Proof.
  unfold cleanPubkey. cbv zeta. set (v := to_lower _). destruct (go_len v =? 64) eqn:El; [|by left].
  destruct (forallb _ (runes (bytes v))) eqn:Ef; [|by left]. right. bool_simpl. split; [done|].
  rewrite forallb_forall in Ef. rewrite ascii_runes in Ef; [|apply bytes_range|].
  - apply forallb_forall. intros b Hb. specialize (Ef b Hb). unfold lower_hex, is_digit.
    apply orb_true_iff in Ef as [Ef|Ef]; bool_simpl; apply orb_true_iff; [left|right]; apply andb_true_iff; rewrite !Z.leb_le; lia.
  - apply List.Forall_forall. intros r Hr. specialize (Ef r Hr). apply orb_true_iff in Ef as [Ef|Ef]; bool_simpl; lia.
Qed.

(** Whatever a relay serves, the document kept of it is clean: texts have no
    control characters and bounded length, URLs are http or https without
    credentials on public hosts, the key is 64 lower-case hex digits, NIPs are
    sorted without duplicates, lists and numbers are within their limits, and an
    integer is not negative, unless it is the one value that overflows. *)
Theorem document_bounded (body : list Z) (info : Info) : Parse body = Ok info → info_ok info.
Proof.
  unfold Parse. cbv zeta. destruct (negb _); [done|]. destruct (json_parse _) as [v|]; [|done].
  destruct (unmarshal_object v) as [raw|]; [|done]. intros [= <-]. split; simpl.
  - by apply cleanText_ok.
  - by apply cleanText_ok.
  - by apply cleanText_ok.
  - apply cleanHTTPURL_ok.
  - apply cleanHTTPURL_ok.
  - apply cleanPubkey_ok.
  - apply parseNIPs_ok.
  - apply cleanSoftware_ok.
  - apply cleanVersion_ok.
  - intros l. unfold parseLimitation. destruct (objectFields _) as [fields|]; [|done]. cbv zeta.
    case_bool_decide; [done|]. intros [= <-]. unfold limitation_ok. simpl.
    repeat (constructor; [apply parseBoundedInt_ok|]). constructor.
  - intros f. unfold parseFees. destruct (objectFields _) as [fields|]; [|done]. cbv zeta.
    set (fees := mkFees _ _ _). intros E. assert (f = fees) as -> by (destruct (Admission fees), (Subscription fees), (Publication fees); congruence).
    split_and!; apply parseFeeList_ok.
  - unfold parseRetention. apply collect_list_ok. apply retention_rule_ok.
Qed.
End documents.

(** * Fetch *)

Definition maxDocumentBytes : Z := 64 * 1024.

(** What the HTTP client reports: the tests of [classifyTransport] that hold. *)
Inductive transport_error := TRedirect | TPrivate | TDeadline | TTimeout | TOther.

Definition classifyTransport (e : transport_error) : error :=
  match e with
  | TRedirect => "redirect_rejected"
  | TPrivate => "private_address"
  | TDeadline | TTimeout => "timeout"
  | TOther => "connect_failed"
  end.

(** A response; its body is a stream of bytes that may end in an error. *)
Record response := mkResponse {
  rs_status : Z;
  rs_content_type : string;
  rs_content_length : Z;
  rs_body : list Z;
  rs_broken : option transport_error;
}.

Definition httpStatusError (status : Z) : error :=
  if (status <? 100) || (599 <? status) then "http_error" else "http_" +:+ str (itoa status).

(** [io.ReadAll] of the first [n] bytes. *)
Definition read_limited (n : Z) (r : response) : result (list Z) :=
  if n <=? Z.of_nat (length (rs_body r)) then Ok (take (Z.to_nat n) (rs_body r))
  else match rs_broken r with
       | Some e => Err (classifyTransport e)
       | None => Ok (rs_body r)
       end.

Section fetch.
Context `{UnicodeTables} `{URLParser}.

Definition isHTML (contentType : string) : bool :=
  let t := bytes (to_lower contentType) in
  contains (bytes "text/html") t || contains (bytes "application/xhtml") t.

(** [fetchURL] of a fetcher with the limit [maxBytes], given what the client
    returned. *)
Definition fetchURL (maxBytes : Z) (r : transport_error + response) : result Info :=
  match r with
  | inl e => Err (classifyTransport e)
  | inr resp =>
      if negb (rs_status resp =? 200) then Err (httpStatusError (rs_status resp))
      else if isHTML (rs_content_type resp) then Err errNotJSON
      else
        let limit := if maxBytes <=? 0 then maxDocumentBytes else maxBytes in
        if limit <? rs_content_length resp then Err "too_large"
        else
          match read_limited (limit + 1) resp with
          | Err e => Err e
          | Ok body => if limit <? Z.of_nat (length body) then Err "too_large" else Parse body
          end
  end.

(** What a successful fetch took: a plain answer within the limit, read whole. *)
Lemma fetch_ok resp info :
  fetchURL maxDocumentBytes (inr resp) = Ok info →
  rs_status resp = 200 ∧ Z.of_nat (length (rs_body resp)) ≤ maxDocumentBytes ∧ rs_broken resp = None ∧
  Parse (rs_body resp) = Ok info.
Proof.
  unfold fetchURL. destruct (rs_status resp =? 200) eqn:Es; [|done]. bool_simpl. cbn [negb].
  destruct (isHTML _); [done|]. cbv zeta. change (maxDocumentBytes <=? 0) with false. cbv iota.
  destruct (maxDocumentBytes <? rs_content_length resp); [done|]. unfold read_limited.
  destruct (maxDocumentBytes + 1 <=? Z.of_nat (length (rs_body resp))) eqn:El.
  - bool_simpl. rewrite length_take. rewrite (proj2 (Z.ltb_lt _ _)); [done|].
    rewrite Nat.min_l by lia. unfold maxDocumentBytes in *. lia.
  - bool_simpl. destruct (rs_broken resp); [done|]. destruct (maxDocumentBytes <? _); [done|]. intros Hp. split_and!; [done|lia|done|done].
Qed.
End fetch.

(** ** The record *)

Record StoredSummary := mkSummary {
  FetchedAt : time;
  OK : bool;
  SError : string;
  SInfo : option Info;
}.

(** [fetchOne]: what is written to the registry row; nothing once the context is
    cancelled. *)
Definition fetchOne (cancelled : bool) (now : time) (fetched : result Info) : option StoredSummary :=
  if cancelled then None
  else match fetched with
       | Err code => Some (mkSummary now false (if bool_decide (code = "") then "connect_failed" else code) None)
       | Ok info => Some (mkSummary now true "" (Some info))
       end.

Definition metricOutcome (code : string) : string :=
  if bool_decide (code ∈ ["ok"; "timeout"; "connect_failed"; "private_address"; "redirect_rejected"; "too_large"; "not_json"])
  then code
  else if has_prefix (bytes "http_") (bytes code) then "http_error" else "other".

(** * Example *)

Module DocumentExample.
Existing Instance ascii_tables.
Existing Instance HostExample.toy_parser.

Definition q (s : string) : string := str [34] +:+ s +:+ str [34].

Definition body : list Z :=
  bytes ("{" +:+ q "name" +:+ ":" +:+ q " relay\u0007 " +:+ "," +:+ q "supported_nips" +:+ ":[11,1,1,1e1,-3," +:+ q "x" +:+ "],"
         +:+ q "limitation" +:+ ":{" +:+ q "max_limit" +:+ ":9223372036854775808," +:+ q "auth_required" +:+ ":true},"
         +:+ q "banner" +:+ ":" +:+ q "wss://127.0.0.1" +:+ "}").

Definition kept : Info := match Parse body with Ok i => i | Err _ => info_of ∅ end.

Lemma document_bounded_witness : Parse body = Ok kept ∧ info_ok kept.
Proof.
  assert (Parse body = Ok kept) as E by (vm_compute; reflexivity).
  split; [exact E|]. exact (document_bounded body kept E).
Defined.

(** A number that does not fit is kept as a negative limit. *)
Example kept_fields :
  IName kept = "relay" ∧ SupportedNIPs kept = [1; 10; 11] ∧ IBanner kept = "" ∧
  (MaxLimit <$> ILimitation kept) = Some (Some min_int64) ∧ (AuthRequired <$> ILimitation kept) = Some (Some true).
Proof. split_and!; vm_compute; reflexivity. Qed.

End DocumentExample.
