(* ===== verification/Nip05.v ===== *)
(** Verification of NIP-05 identifiers, [internal/nip05]: the lookup of one
    ([fetch.go], [Check]) and the schedule of lookups ([scheduler.go]) over the
    table [nip05_verifications].

    The HTTP client is a parameter that maps an endpoint to what a request for it
    yields. A lookup is between two statements on the table, so a run is a
    sequence of steps in which other steps may come in between. [w_checks] is a
    ghost: the lookups made, newest first. *)

From S2P Require Import Prelude GoLib Json GoNet RelayURL Db.

Local Open Scope go_scope.

(** * Lookup *)

Inductive Status :=
  | StatusPending | StatusVerified | StatusMismatch | StatusNotFound
  | StatusUnreachable | StatusInvalid | StatusBlocked.

#[export] Instance Status_eq_dec : EqDecision Status.
Proof. solve_decision. Defined.

Record Result := mkResult {
  RStatus : Status;
  ErrorCode : string;
}.

(** What a GET yields: no request could be built, it failed, or a status with a
    body, of which at most [maxDocumentBytes + 1] bytes are read. *)
Inductive answer :=
  | BadURL
  | ConnectFailed
  | Answer (status : Z) (body : result (list Z)).

Definition maxDocumentBytes : Z := 64 * 1024.

(** [url.QueryEscape]. *)
Definition query_byte (b : Z) : list Z :=
  if is_digit b || ((65 <=? b) && (b <=? 90)) || ((97 <=? b) && (b <=? 122)) || existsb (Z.eqb b) [45; 95; 46; 126] then [b]
  else if b =? 32 then [43]
  else [37; ascii_upper (hex_digit (b / 16)); ascii_upper (hex_digit (b mod 16))].

Definition query_escape (s : string) : string := str (concat (map query_byte (bytes s))).

(** Into [map[string]string]: members are added to the map that is there, [null]
    makes it nil. *)
Definition decode_names (old : option (gmap string string)) (v : json) : option (option (gmap string string)) :=
  match v with
  | JNull => Some None
  | JObj ms =>
      let add acc (kv : list Z * json) :=
        match acc, unmarshal_string kv.2 with
        | Some m, Some s => Some (<[str kv.1 := s]> m)
        | _, _ => None
        end in
      match foldl add (Some (match old with Some m => m | None => ∅ end)) ms with
      | Some m => Some (Some m)
      | None => None
      end
  | _ => None
  end.

(** The names a document publishes; [None] is a document that is not accepted. *)
Definition document_names (body : list Z) : option (gmap string string) :=
  match json_parse body with
  | Some v => match decode_struct "names" decode_names None v with Some names => names | None => None end
  | None => None
  end.

Section check.
Context `{UnicodeTables}.

Definition endpoint (domain local : string) : string :=
  "https://" +:+ domain +:+ "/.well-known/nostr.json?name=" +:+ query_escape local.

(** [Check] of a fetcher that refuses private hosts. *)
Definition Check (http : string → answer) (local domain pubkey : string) : Result :=
  let domain := to_lower (trim_space domain) in
  let local := trim_space local in
  let pubkey := to_lower (trim_space pubkey) in
  if bool_decide (domain = "") || bool_decide (local = "") || negb (go_len pubkey =? 64)
  then mkResult StatusInvalid "bad_identifier"
  else if negb (is_ok (HostIsPublic domain)) then mkResult StatusBlocked "private_address"
  else
    match http (endpoint domain local) with
    | BadURL => mkResult StatusInvalid "bad_url"
    | ConnectFailed => mkResult StatusUnreachable "connect_failed"
    | Answer _ (Err _) => mkResult StatusUnreachable "read_failed"
    | Answer status (Ok body) =>
        if maxDocumentBytes <? Z.of_nat (length body) then mkResult StatusInvalid "too_large"
        else if status =? 404 then mkResult StatusNotFound "404"
        else if negb (status =? 200) then mkResult StatusUnreachable ("http_" +:+ str (itoa status))
        else
          match document_names body with
          | None => mkResult StatusInvalid "bad_json"
          | Some names =>
              match names !! local with
              | None => mkResult StatusMismatch "name_missing"
              | Some published =>
                  if bool_decide (to_lower (trim_space published) = pubkey) then mkResult StatusVerified ""
                  else mkResult StatusMismatch "pubkey_mismatch"
              end
          end
    end.

Definition splitNIP05 (value : string) : option (string * string) :=
  match cut 64 (bytes (trim_space (to_lower value))) with
  | None => None
  | Some (local, domain) =>
      if bool_decide (local = []) || bool_decide (domain = []) || existsb (Z.eqb 64) domain then None
      else Some (str local, str domain)
  end.
End check.

(** * Table *)

Record row := mkRow {
  v_nip05 : string;
  v_domain : string;
  v_status : Status;
  v_checked_at : option time;
  v_next_check_at : time;
  v_failure_count : Z;
  v_last_error_code : string;
}.

Record tables05 := mkTables05 {
  verifications : gmap string row;
  profiles_latest : gmap string string;
  pending_meilisearch_syncs : gset string;
}.

Definition set_verifications (v : gmap string row) (t : tables05) : tables05 :=
  mkTables05 v (profiles_latest t) (pending_meilisearch_syncs t).

Record dueRow := mkDue {
  d_pubkey : string;
  d_nip05 : string;
  d_domain : string;
  d_failures : Z;
}.

Definition due (now : time) (r : row) : bool :=
  (v_next_check_at r <=? now) && negb (bool_decide (v_status r = StatusBlocked)).

Definition due_le (a b : string * row) : Prop := v_next_check_at a.2 ≤ v_next_check_at b.2.

#[export] Instance due_le_dec a b : Decision (due_le a b).
Proof. unfold due_le. apply _. Defined.

Definition minute : Z := 60 * second.
Definition hour : Z := 60 * minute.
Definition day : Z := 24 * hour.

Definition lease (now : time) (r : row) : row :=
  mkRow (v_nip05 r) (v_domain r) (v_status r) (v_checked_at r) (now + 2 * minute) (v_failure_count r) (v_last_error_code r).

Definition claimDue (now : time) (batch : nat) : go (db tables05) (list dueRow) :=
  stmt (λ t,
    let picked := take batch (merge_sort due_le (List.filter (λ kv, due now kv.2) (map_to_list (verifications t)))) in
    Ok (set_verifications (foldr (λ kv, alter (lease now) kv.1) (verifications t) picked) t,
        map (λ kv, mkDue kv.1 (v_nip05 kv.2) (v_domain kv.2) (v_failure_count kv.2)) picked)).

Definition markProfileSearchDirty (pubkey : string) : go (db tables05) unit :=
  exec (λ t, match profiles_latest t !! pubkey with
             | Some id => mkTables05 (verifications t) (profiles_latest t) ({[id]} ∪ pending_meilisearch_syncs t)
             | None => t
             end).

(** The wait after the failure number [failures]: the loop of [storeResult]. *)
Fixpoint backoff_loop (fuel : nat) (i failures backoff : Z) : Z :=
  match fuel with
  | O => backoff
  | S fuel =>
      if (i <? failures) && (backoff <? 30 * day) then backoff_loop fuel (i + 1) failures (backoff * 2) else backoff
  end.

(** The backoff reaches thirty days in twelve doublings. *)
Definition backoff (failures : Z) : Z :=
  let b := backoff_loop 16 1 failures (15 * minute) in
  if 30 * day <? b then 30 * day else b.

(** The status, the next check and the failures to store. *)
Definition outcome (now : time) (recheck : Z) (failures : Z) (status : Status) : Status * time * Z :=
  match status with
  | StatusVerified | StatusMismatch => (status, now + recheck, 0)
  | StatusNotFound => (status, now + 24 * hour, 0)
  | StatusInvalid => (status, now + 24 * hour, failures + 1)
  | _ =>
      let failures := failures + 1 in
      if 8 <=? failures then (StatusBlocked, now + 30 * day, failures)
      else (status, now + backoff failures, failures)
  end.

Definition storeResult (now : time) (r : dueRow) (result : Result) (recheck : Z) : go (db tables05) unit :=
  let '(status, next, failures) := outcome now recheck (d_failures r) (RStatus result) in
  previous <- stmt (λ t, match verifications t !! d_pubkey r with
                         | Some row => Ok (t, v_status row)
                         | None => Err "no rows in result set"
                         end) ;;
  exec (λ t, set_verifications
               (alter (λ row, mkRow (v_nip05 row) (v_domain row) status (Some now) next failures (ErrorCode result))
                  (d_pubkey r) (verifications t)) t) ;;
  if bool_decide (previous = status) then go_ret tt else markProfileSearchDirty (d_pubkey r).

(** The upsert of an identifier: a row for another one starts over. *)
Definition upsert_pending (now : time) (pubkey nip05 domain : string) (v : gmap string row) : gmap string row * bool :=
  match v !! pubkey with
  | Some row =>
      if bool_decide (v_nip05 row = nip05) then (v, false)
      else (<[pubkey := mkRow nip05 domain StatusPending (v_checked_at row) now 0 ""]> v, true)
  | None => (<[pubkey := mkRow nip05 domain StatusPending None now 0 ""]> v, true)
  end.

Definition SchedulePending `{UnicodeTables} (now : time) (pubkey identifier : string) : go (db tables05) unit :=
  match splitNIP05 identifier with
  | None =>
      gone <- stmt (λ t, Ok (set_verifications (delete pubkey (verifications t)) t,
                             bool_decide (is_Some (verifications t !! pubkey)))) ;;
      if gone : bool then markProfileSearchDirty pubkey else go_ret tt
  | Some (_, domain) =>
      changed <- stmt (λ t, let '(v, c) := upsert_pending now pubkey (to_lower (trim_space identifier)) domain (verifications t) in
                            Ok (set_verifications v t, c)) ;;
      if changed : bool then markProfileSearchDirty pubkey else go_ret tt
  end.

(** [parseProfileFields] yields the identifier of a profile, empty when it is
    malformed; the projection of profiles keeps the table in step with it. *)
Definition scheduleProfile (now : time) (pubkey nip05 domain : string) : go (db tables05) unit :=
  if bool_decide (nip05 = "") then exec (λ t, set_verifications (delete pubkey (verifications t)) t)
  else exec (λ t, set_verifications (upsert_pending now pubkey nip05 domain (verifications t)).1 t).

(** * Runs *)

(** A lookup: whose, of what, and the web it saw. *)
Record check := mkCheck {
  c_pubkey : string;
  c_nip05 : string;
  c_http : string → answer;
}.

(** Claimed rows with the result of their lookup, once made. *)
Record world := mkWorld {
  w_db : db tables05;
  w_claimed : list (dueRow * option Result);
  w_checks : list check;
}.

Inductive step05 :=
  | SClaim (now : time) (batch : nat)
  | SLookup (k : nat) (http : string → answer)
  | SStore (k : nat) (now : time) (recheck : Z)
  | SSchedule (now : time) (pubkey identifier : string)
  | SProfile (now : time) (pubkey nip05 domain : string).

Section run.
Context `{UnicodeTables}.

(** The lookup [runOnce] makes for a row. *)
Definition lookup_row (http : string → answer) (r : dueRow) : Result :=
  match splitNIP05 (d_nip05 r) with
  | Some (local, domain) => Check http local domain (d_pubkey r)
  | None => Check http "" (d_domain r) (d_pubkey r)
  end.

Definition step (s : step05) (w : world) : world :=
  match s with
  | SClaim now batch =>
      let '(d, r) := claimDue now batch (w_db w) in
      mkWorld d (w_claimed w ++ match r with Ok rows => map (λ row, (row, None)) rows | Err _ => [] end) (w_checks w)
  | SLookup k http =>
      match w_claimed w !! k with
      | Some (r, None) =>
          mkWorld (w_db w) (<[k := (r, Some (lookup_row http r))]> (w_claimed w))
            (mkCheck (d_pubkey r) (d_nip05 r) http :: w_checks w)
      | _ => w
      end
  | SStore k now recheck =>
      match w_claimed w !! k with
      | Some (r, Some result) =>
          mkWorld (storeResult now r result recheck (w_db w)).1 (delete k (w_claimed w)) (w_checks w)
      | _ => w
      end
  | SSchedule now pubkey identifier => mkWorld (SchedulePending now pubkey identifier (w_db w)).1 (w_claimed w) (w_checks w)
  | SProfile now pubkey nip05 domain => mkWorld (scheduleProfile now pubkey nip05 domain (w_db w)).1 (w_claimed w) (w_checks w)
  end.

Definition run (ss : list step05) (w : world) : world := foldl (λ w s, step s w) w ss.

(** Nobody changes the identifier of a row that is claimed. *)
Definition quiet (w : world) (s : step05) : Prop :=
  let keeps pubkey nip05 := Forall (λ c : dueRow * option Result, d_pubkey c.1 = pubkey → d_nip05 c.1 = nip05) (w_claimed w) in
  match s with
  | SSchedule _ pubkey identifier => is_Some (splitNIP05 identifier) → keeps pubkey (to_lower (trim_space identifier))
  | SProfile _ pubkey nip05 _ => nip05 ≠ "" → keeps pubkey nip05
  | _ => True
  end.

Fixpoint quiet_run (ss : list step05) (w : world) : Prop :=
  match ss with
  | [] => True
  | s :: ss => quiet w s ∧ quiet_run ss (step s w)
  end.

(** The domain of an identifier publishes the key under its name. *)
Definition published (http : string → answer) (nip05 pubkey : string) : Prop :=
  ∃ local domain body names key,
    splitNIP05 nip05 = Some (local, domain) ∧
    http (endpoint (to_lower (trim_space domain)) (trim_space local)) = Answer 200 (Ok body) ∧
    document_names body = Some names ∧ names !! trim_space local = Some key ∧
    to_lower (trim_space key) = to_lower (trim_space pubkey) ∧
    is_ok (HostIsPublic (to_lower (trim_space domain))) = true.

Lemma Check_verified http local domain pubkey :
  RStatus (Check http local domain pubkey) = StatusVerified →
  trim_space local ≠ "" ∧
  ∃ body names key,
    http (endpoint (to_lower (trim_space domain)) (trim_space local)) = Answer 200 (Ok body) ∧
    document_names body = Some names ∧ names !! trim_space local = Some key ∧
    to_lower (trim_space key) = to_lower (trim_space pubkey) ∧
    is_ok (HostIsPublic (to_lower (trim_space domain))) = true.
Proof.
  unfold Check. cbv zeta. destruct (_ || _) eqn:E0; [done|]. apply orb_false_iff in E0 as [E0 _]. apply orb_false_iff in E0 as [_ E0].
  destruct (is_ok (HostIsPublic _)) eqn:Eh; [|done]. cbn [negb].
  destruct (http _) as [| |status [body|e]] eqn:Ea; try done.
  destruct (maxDocumentBytes <? _); [done|]. destruct (status =? 404); [done|]. destruct (Z.eqb_spec status 200) as [->|]; [|done].
  cbn [negb]. destruct (document_names body) as [names|] eqn:En; [|done]. destruct (names !! _) as [key|] eqn:Ek; [|done].
  destruct (bool_decide (to_lower (trim_space key) = _)) eqn:Eb; [|done]. intros _. bool_simpl. split; [done|]. exists body, names, key. done.
Qed.

Lemma lookup_verified http r : RStatus (lookup_row http r) = StatusVerified → published http (d_nip05 r) (d_pubkey r).
Proof.
  unfold lookup_row, published. destruct (splitNIP05 (d_nip05 r)) as [[local domain]|] eqn:E; intros Hv.
  - apply Check_verified in Hv as (_ & body & names & key & Hrest). by exists local, domain, body, names, key.
  - apply Check_verified in Hv as [Hne _]. by destruct Hne.
Qed.

(** ** The invariant *)

Definition checked (w : world) (pubkey nip05 : string) : Prop :=
  ∃ c, c ∈ w_checks w ∧ c_pubkey c = pubkey ∧ c_nip05 c = nip05 ∧ published (c_http c) nip05 pubkey.

Definition rows_ok (w : world) (v : gmap string row) : Prop :=
  ∀ pk r, v !! pk = Some r → v_status r = StatusVerified → checked w pk (v_nip05 r).

Definition claims_ok (w : world) (v : gmap string row) : Prop :=
  Forall (λ c : dueRow * option Result,
    (∀ r, v !! d_pubkey c.1 = Some r → v_nip05 r = d_nip05 c.1) ∧
    (∀ res, c.2 = Some res → RStatus res = StatusVerified → checked w (d_pubkey c.1) (d_nip05 c.1))) (w_claimed w).

Definition world_ok (w : world) : Prop :=
  rows_ok w (verifications (tables (w_db w))) ∧ claims_ok w (verifications (tables (w_db w))).

(** A table whose rows have the identifiers and the verified marks of another. *)
Definition sub_rows (v v' : gmap string row) : Prop :=
  ∀ pk r', v' !! pk = Some r' →
    ∃ r, v !! pk = Some r ∧ v_nip05 r' = v_nip05 r ∧ (v_status r' = StatusVerified → v_status r = StatusVerified).

Lemma sub_rows_ok w v v' : sub_rows v v' → rows_ok w v ∧ claims_ok w v → rows_ok w v' ∧ claims_ok w v'.
Proof.
  intros Hsub [Hr Hc]. split.
  - intros pk r' Hr' Hs. destruct (Hsub pk r' Hr') as (r & Hlk & En & Hv). rewrite En. apply (Hr pk r Hlk). auto.
  - eapply List.Forall_impl; [|exact Hc]. intros c [H1 H2]. split; [|done]. intros r' Hr'.
    destruct (Hsub _ _ Hr') as (r & Hlk & En & _). rewrite En. auto.
Qed.

Lemma sub_rows_lease now v picked : sub_rows v (foldr (λ kv : string * row, alter (lease now) kv.1) v picked).
Proof.
  induction picked as [|[pk r] picked IH]; [intros pk r' Hr'; by exists r'|]. cbn [foldr fst]. intros pk' r' Hr'.
  destruct (decide (pk' = pk)) as [->|Hne]; [|rewrite lookup_alter_ne in Hr' by done; by apply IH].
  rewrite lookup_alter_eq in Hr'. apply fmap_Some in Hr' as (r1 & Hr1 & ->). exact (IH pk r1 Hr1).
Qed.

Definition tables_ok (w : world) (t : tables05) : Prop := rows_ok w (verifications t) ∧ claims_ok w (verifications t).

Lemma keeps_dirty w pk : keeps (tables_ok w) (markProfileSearchDirty pk).
Proof. apply keeps_exec. intros t Ht. by destruct (profiles_latest t !! pk). Qed.

Lemma outcome_verified now recheck failures s :
  (outcome now recheck failures s).1.1 = StatusVerified → s = StatusVerified.
Proof. destruct s; simpl; try done; by destruct (8 <=? _). Qed.

Lemma keeps_store w now r res recheck :
  (RStatus res = StatusVerified → checked w (d_pubkey r) (d_nip05 r)) →
  (∀ t row, tables_ok w t → verifications t !! d_pubkey r = Some row → v_nip05 row = d_nip05 r) →
  keeps (tables_ok w) (storeResult now r res recheck).
Proof.
  intros Hres Hid. unfold storeResult. pose proof (outcome_verified now recheck (d_failures r) (RStatus res)) as Ho.
  destruct (outcome _ _ _ _) as [[status next] failures]. simpl in Ho.
  apply keeps_bind; [|intros previous; apply keeps_bind; [|intros _; case_bool_decide; [apply keeps_ret|apply keeps_dirty]]].
  - apply keeps_stmt. intros t t' a Ht. destruct (verifications t !! d_pubkey r); [|done]. by intros [= <- _].
  - apply keeps_exec. intros t Ht.  destruct Ht as [Hr Hc]. split; simpl.
    + intros pk row Hrow Hs. destruct (decide (pk = d_pubkey r)) as [->|Hne].
      * rewrite lookup_alter_eq in Hrow. apply fmap_Some in Hrow as (row0 & Hrow0 & ->). simpl in *.
        rewrite (Hid t row0 (conj Hr Hc) Hrow0). auto.
      * rewrite lookup_alter_ne in Hrow by done. by apply (Hr pk).
    + eapply List.Forall_impl; [|exact Hc]. intros c [H1 H2]. split; [|done]. intros row Hrow.
      destruct (decide (d_pubkey c.1 = d_pubkey r)) as [E|Hne].
      * rewrite E, lookup_alter_eq in Hrow. apply fmap_Some in Hrow as (row0 & Hrow0 & ->). simpl. apply H1. by rewrite E.
      * rewrite lookup_alter_ne in Hrow by done. by apply H1.
Qed.

Lemma upsert_ok w now pk nip05 domain v :
  Forall (λ c : dueRow * option Result, d_pubkey c.1 = pk → d_nip05 c.1 = nip05) (w_claimed w) →
  rows_ok w v ∧ claims_ok w v →
  rows_ok w (upsert_pending now pk nip05 domain v).1 ∧ claims_ok w (upsert_pending now pk nip05 domain v).1.
Proof.
  intros Hq [Hr Hc]. assert (∀ row, v_nip05 row = nip05 → v_status row = StatusPending →
    rows_ok w (<[pk := row]> v) ∧ claims_ok w (<[pk := row]> v)) as Hins.
  { intros row En Es. split.
    - intros pk' r'. destruct (decide (pk' = pk)) as [->|Hne]; [rewrite lookup_insert_eq; intros [= <-]; by rewrite Es|].
      rewrite lookup_insert_ne by done. apply Hr.
    - unfold claims_ok in *. rewrite List.Forall_forall in *. intros c Hin. destruct (Hc c Hin) as [H1 H2]. split; [|done].
      intros r'. destruct (decide (d_pubkey c.1 = pk)) as [E|Hne].
      + rewrite E, lookup_insert_eq. intros [= <-]. rewrite En. symmetry. by apply (Hq c Hin).
      + rewrite lookup_insert_ne by done. apply H1. }
  unfold upsert_pending. destruct (v !! pk) as [row|]; [|by apply Hins]. case_bool_decide; [done|by apply Hins].
Qed.

Lemma delete_ok w pk v : rows_ok w v ∧ claims_ok w v → rows_ok w (delete pk v) ∧ claims_ok w (delete pk v).
Proof.
  apply sub_rows_ok. intros pk' r' Hr'. destruct (decide (pk' = pk)) as [->|Hne]; [by rewrite lookup_delete_eq in Hr'|].
  rewrite lookup_delete_ne in Hr' by done. by exists r'.
Qed.

Lemma keeps_schedule w now pk ident :
  quiet w (SSchedule now pk ident) → keeps (tables_ok w) (SchedulePending now pk ident).
Proof.
  intros Hq. unfold SchedulePending. simpl in Hq. destruct (splitNIP05 ident) as [[local domain]|].
  - apply keeps_bind; [|intros []; [apply keeps_dirty|apply keeps_ret]]. apply keeps_stmt. intros t t' a Ht.
    pose proof (upsert_ok w now pk (to_lower (trim_space ident)) domain _ (Hq ltac:(by eexists)) Ht) as Hu.
    destruct (upsert_pending _ _ _ _ _) as [v c]. by intros [= <- _].
  - apply keeps_bind; [|intros []; [apply keeps_dirty|apply keeps_ret]]. apply keeps_stmt. intros t t' a Ht [= <- _].
    by apply delete_ok.
Qed.

Lemma keeps_profile w now pk nip05 domain :
  quiet w (SProfile now pk nip05 domain) → keeps (tables_ok w) (scheduleProfile now pk nip05 domain).
Proof.
  intros Hq. unfold scheduleProfile. simpl in Hq. case_bool_decide.
  - apply keeps_exec. intros t Ht. by apply delete_ok.
  - apply keeps_exec. intros t Ht. by apply upsert_ok; [apply Hq|].
Qed.

Lemma checked_mono w w' pk n : (∀ c, c ∈ w_checks w → c ∈ w_checks w') → checked w pk n → checked w' pk n.
Proof. intros Hm (c & Hc & Hrest). exists c. split; [by apply Hm|done]. Qed.

(** The invariant read off the parts of a world. *)
Lemma world_ok_step w d claimed checks :
  (∀ c, c ∈ w_checks w → c ∈ checks) → tables_ok w (tables d) →
  Forall (λ c : dueRow * option Result,
    (∀ r, verifications (tables d) !! d_pubkey c.1 = Some r → v_nip05 r = d_nip05 c.1) ∧
    (∀ res, c.2 = Some res → RStatus res = StatusVerified →
       checked (mkWorld d claimed checks) (d_pubkey c.1) (d_nip05 c.1))) claimed →
  world_ok (mkWorld d claimed checks).
Proof.
  intros Hm [Hr _] Hc. split; [|exact Hc]. intros pk r Hlk Hs. eapply checked_mono; [|by apply (Hr pk r)]. exact Hm.
Qed.

Lemma claims_same w d :
  tables_ok w (tables d) → world_ok (mkWorld d (w_claimed w) (w_checks w)).
Proof. intros Ht. apply (world_ok_step w); [done|done|]. by destruct Ht. Qed.

Lemma picked_rows now batch (v : gmap string row) kv :
  kv ∈ take batch (merge_sort due_le (List.filter (λ kv, due now kv.2) (map_to_list v))) → v !! kv.1 = Some kv.2 ∧ due now kv.2 = true.
Proof.
  intros Hin. apply elem_of_take in Hin as (i & Hi & _). apply list_elem_of_lookup_2 in Hi.
  rewrite merge_sort_Permutation in Hi. apply list_elem_of_In, filter_In in Hi as [Hi Hd]. split; [|done].
  apply elem_of_map_to_list. destruct kv. by apply list_elem_of_In.
Qed.

Lemma step_claim_ok w now batch : world_ok w → world_ok (step (SClaim now batch) w).
Proof.
  intros Hw. cbn [step]. unfold claimDue, stmt. destruct (next_fault (w_db w)).
  { simpl. rewrite app_nil_r. by apply claims_same. }
  cbv zeta. set (v := verifications (tables (w_db w))). set (picked := take batch _).
  pose proof (sub_rows_lease now v picked) as Hsub. apply (world_ok_step w); [done|by eapply sub_rows_ok|].
  apply Forall_app_2.
  - destruct (sub_rows_ok w v _ Hsub Hw) as [_ Hc]. exact Hc.
  - apply List.Forall_forall. intros c Hc. apply in_map_iff in Hc as (r & <- & Hr). apply in_map_iff in Hr as (kv & <- & Hkv).
    apply list_elem_of_In, picked_rows in Hkv as [Hkv _]. split; [|done]. simpl. intros r' Hr'.
    destruct (Hsub _ _ Hr') as (r0 & Hr0 & En & _). by assert (Some r0 = Some kv.2) as [= ->] by (rewrite <-Hr0; exact Hkv).
Qed.

Lemma step_lookup_ok w k http : world_ok w → world_ok (step (SLookup k http) w).
Proof.
  intros Hw. cbn [step]. destruct (w_claimed w !! k) as [[r [res|]]|] eqn:Ek; [done| |done].
  assert (∀ c, c ∈ w_checks w → c ∈ mkCheck (d_pubkey r) (d_nip05 r) http :: w_checks w) as Hm by set_solver.
  apply (world_ok_step w); [done|exact Hw|]. destruct Hw as [Hr Hc]. unfold claims_ok in Hc.
  apply Forall_insert.
  - eapply List.Forall_impl; [|exact Hc]. intros c [H1 H2]. split; [done|]. intros res Hres Hv.
    eapply checked_mono; [exact Hm|]. by eapply H2.
  - rewrite List.Forall_forall in Hc. destruct (Hc (r, None)) as [H1 _]; [by apply list_elem_of_In, (list_elem_of_lookup_2 _ k)|].
    split; [done|]. intros res [= <-] Hv. simpl in *. exists (mkCheck (d_pubkey r) (d_nip05 r) http).
    split_and!; [set_solver|done|done|by apply lookup_verified].
Qed.

Lemma Forall_delete {A} (P : A → Prop) k (l : list A) : Forall P l → Forall P (delete k l).
Proof. intros Hf. rewrite delete_take_drop. apply Forall_app_2; [by apply Forall_take|by apply Forall_drop]. Qed.

Lemma step_store_ok w k now recheck : world_ok w → world_ok (step (SStore k now recheck) w).
Proof.
  intros Hw. cbn [step]. destruct (w_claimed w !! k) as [[r [res|]]|] eqn:Ek; [|done|done].
  pose proof (list_elem_of_lookup_2 _ _ _ Ek) as Hin. apply list_elem_of_In in Hin.
  assert (keeps (tables_ok w) (storeResult now r res recheck)) as Hk.
  { apply keeps_store.
    - intros Hv. destruct Hw as [_ Hc]. unfold claims_ok in Hc. rewrite List.Forall_forall in Hc.
      destruct (Hc _ Hin) as [_ H2]. by apply (H2 res).
    - intros t row [_ Hc] Hrow. unfold claims_ok in Hc. rewrite List.Forall_forall in Hc. destruct (Hc _ Hin) as [H1 _]. by apply H1. }
  pose proof (Hk (w_db w) Hw) as Ht. apply (world_ok_step w); [done|done|]. apply Forall_delete. by destruct Ht.
Qed.

Lemma step_ok s w : quiet w s → world_ok w → world_ok (step s w).
Proof.
  intros Hq Hw. destruct s as [now batch|k http|k now recheck|now pk ident|now pk nip05 domain].
  - by apply step_claim_ok.
  - by apply step_lookup_ok.
  - by apply step_store_ok.
  - apply claims_same. by apply (keeps_schedule w now pk ident Hq).
  - apply claims_same. by apply (keeps_profile w now pk nip05 domain Hq).
Qed.

Lemma world_run_ok ss w : quiet_run ss w → world_ok w → world_ok (run ss w).
Proof. revert w. induction ss as [|s ss IH]; intros w Hq Hw; [done|]. destruct Hq as [Hq1 Hq2]. apply IH; [done|]. by apply step_ok. Qed.

Definition empty05 (faults : list (option error)) (profiles : gmap string string) : world :=
  mkWorld (mkDb (mkTables05 ∅ profiles ∅) faults) [] [].

(** A profile shown as verified was verified: whatever claims, lookups, stores
    and new identifiers interleave, and whatever statements fail, a row marked
    verified has had a lookup of the identifier it holds, for its key, in which
    the public domain published that key under that name; provided an identifier
    is not replaced while a lookup of the old one is under way. *)
Theorem verified_was_checked (faults : list (option error)) (profiles : gmap string string) (ss : list step05)
    (pubkey : string) (r : row) :
  let w := run ss (empty05 faults profiles) in
  quiet_run ss (empty05 faults profiles) →
  verifications (tables (w_db w)) !! pubkey = Some r → v_status r = StatusVerified →
  ∃ c, c ∈ w_checks w ∧ c_pubkey c = pubkey ∧ c_nip05 c = v_nip05 r ∧ published (c_http c) (v_nip05 r) pubkey.
Proof.
  intros w Hq Hr Hs. assert (world_ok w) as [Hok _]; [|by apply (Hok pubkey r)].
  apply world_run_ok; [done|]. split; [intros pk r' Hr'; simpl in Hr'; by rewrite lookup_empty in Hr'|constructor].
Qed.
End run.

(** * Retries *)

(** After the failure number [k + 1] the wait is a quarter of an hour doubled [k]
    times; the eighth failure blocks the row. *)
Lemma retry_schedule now recheck k :
  0 ≤ k →
  outcome now recheck k StatusUnreachable
  = if k <? 7 then (StatusUnreachable, now + 15 * minute * 2 ^ k, k + 1) else (StatusBlocked, now + 30 * day, k + 1).
Proof.
  intros Hk. unfold outcome. cbv zeta. destruct (k <? 7) eqn:E; bool_simpl.
  - rewrite (proj2 (Z.leb_gt 8 (k + 1))) by lia.
    assert (k = 0 ∨ k = 1 ∨ k = 2 ∨ k = 3 ∨ k = 4 ∨ k = 5 ∨ k = 6) as Hc by lia.
    destruct Hc as [->|[->|[->|[->|[->|[->| ->]]]]]]; reflexivity.
  - by rewrite (proj2 (Z.leb_le 8 (k + 1))) by lia.
Qed.

(** Claimed rows are due and not blocked, at most [batch] of them. *)
Lemma claim_due now batch d d' rows :
  claimDue now batch d = (d', Ok rows) →
  (length rows ≤ batch)%nat ∧
  Forall (λ r, ∃ row, verifications (tables d) !! d_pubkey r = Some row ∧ v_nip05 row = d_nip05 r ∧ due now row = true) rows.
Proof.
  intros E. apply stmt_ok in E. injection E as Et <-. rewrite length_map, length_take. split; [lia|].
  apply List.Forall_forall. intros r Hr. apply in_map_iff in Hr as (kv & <- & Hkv).
  apply list_elem_of_In, picked_rows in Hkv as [Hkv Hd]. by exists kv.2.
Qed.

(** * Examples *)

Module Nip05Example.
Existing Instance ascii_tables.

Definition bob : string := "00000000000000000000000000000000000000000000000000000000000000b0".

Definition q (s : string) : string := str [34] +:+ s +:+ str [34].

(** A web where [old.example] publishes the key for [bob], and nothing else. *)
Definition web (url : string) : answer :=
  if bool_decide (url = "https://old.example/.well-known/nostr.json?name=bob")
  then Answer 200 (Ok (bytes ("{" +:+ q "names" +:+ ":{" +:+ q "bob" +:+ ":" +:+ q bob +:+ "}}")))
  else Answer 404 (Ok []).

Definition start05 : world := empty05 [] {[bob := "profile-event"]}.

Definition verify_bob : list step05 :=
  [SSchedule 0 bob "Bob@old.example"; SClaim 10 25; SLookup 0 web; SStore 0 20 (7 * day)].

Lemma verified_was_checked_witness :
  (v_status <$> verifications (tables (w_db (run verify_bob start05))) !! bob) = Some StatusVerified ∧
  ∀ r, verifications (tables (w_db (run verify_bob start05))) !! bob = Some r → v_status r = StatusVerified →
    ∃ c, c ∈ w_checks (run verify_bob start05) ∧ c_pubkey c = bob ∧ c_nip05 c = v_nip05 r ∧ published (c_http c) (v_nip05 r) bob.
Proof.
  split; [vm_compute; reflexivity|]. intros r Hr Hs.
  apply (verified_was_checked [] {[bob := "profile-event"]} verify_bob bob r); [|exact Hr|exact Hs].
  split; [intros _; constructor|]. split; [exact I|]. split; [exact I|]. split; exact I.
Defined.

(** The identifier is replaced while the old one is looked up: the result is
    stored by key alone, and the new identifier is shown as verified although
    its domain was never asked. *)
Definition replaced : list step05 :=
  [SSchedule 0 bob "bob@old.example"; SClaim 10 25; SLookup 0 web; SProfile 15 bob "ceo@bank.example" "bank.example";
   SStore 0 20 (7 * day)].

Example stale_result_verifies_new_identifier :
  let w := run replaced start05 in
  ((λ r, (v_nip05 r, v_status r, v_next_check_at r)) <$> verifications (tables (w_db w)) !! bob)
  = Some ("ceo@bank.example", StatusVerified, 20 + 7 * day) ∧
  map c_nip05 (w_checks w) = ["bob@old.example"] ∧
  lookup_row web (mkDue bob "ceo@bank.example" "bank.example" 0) = mkResult StatusNotFound "404".
Proof. split_and!; vm_compute; reflexivity. Qed.

End Nip05Example.
