(* ===== verification/RelayManager.v ===== *)
(** Relay connections, [internal/ingestor/relay]: the backoff ([backoff.go]), the
    lifecycle of a configured relay ([types.go], [manager.go]) and the dynamic
    set of connections ([reconciler.go]).

    The loop of a relay ([runRelay] with [monitorConnection], and
    [runSingleRelay] with [streamMessages]) is a state machine: its control state
    is where the code waits, and an input is what the wait delivers, a dial
    result, a message, the end of the connection, a tick, the end of a sleep or
    the end of the context. Inputs a control state does not wait for do nothing.
    [trace] is a ghost: the states a relay went through, newest first. *)

From S2P Require Import Prelude GoLib RelayURL.

(** * Backoff *)

Record boundedBackoff := mkBackoff {
  bo_initial : Z;
  bo_max : Z;
  bo_current : Z;
}.

Definition newBoundedBackoff (initial maxBackoff : Z) : boundedBackoff := mkBackoff initial maxBackoff 0.

Definition Next (b : boundedBackoff) : boundedBackoff * Z :=
  if bo_current b =? 0 then (mkBackoff (bo_initial b) (bo_max b) (bo_initial b), bo_initial b)
  else
    let next := i64 (bo_current b * 2) in
    let next := if bo_max b <? next then bo_max b else next in
    (mkBackoff (bo_initial b) (bo_max b) next, next).

Definition Reset (b : boundedBackoff) : boundedBackoff := mkBackoff (bo_initial b) (bo_max b) 0.

(** * Types *)

Inductive State :=
  | StateConnecting | StateHealthy | StateLagging | StateBackingOff
  | StateDisabled | StateErrored | StateDisconnected.

#[export] Instance State_eq_dec : EqDecision State.
Proof. solve_decision. Defined.

Record Status := mkStatus {
  URL : string;
  SState : State;
  SSince : time;
  LastProgress : time;
  SLastError : string;
  SAttempts : Z;
  SBackoff : Z;
}.

Record Config := mkConfig {
  Relays : list string;
  Allowlist : list string;
  DisabledRelays : list string;
  ConnectTimeout : Z;
  InitialBackoff : Z;
  MaxBackoff : Z;
  LagThreshold : Z;
  HasStatusSink : bool;
}.

(** * Manager *)

(** A durable status transition given to the sink; its errors are logged. *)
Record report := mkReport {
  r_url : string;
  r_state : State;
  r_error : string;
}.

Record manager := mkManager {
  relays : gmap string Status;
  ticks : nat;
  reports : list report;
  trace : list (string * State);
}.

Section config.
Context `{UnicodeTables} `{URLParser}.

Definition normalizeRelayURL (raw : string) : result string := Normalize raw false.

Definition quoted (s : string) : string := str [34] +:+ s +:+ str [34].

(** The normal forms of [urls], or the first error. *)
Fixpoint normalize_all (what : string) (urls : list string) : result (list string) :=
  match urls with
  | [] => Ok []
  | u :: urls =>
      match normalizeRelayURL u with
      | Err e => Err ("invalid " +:+ what +:+ " " +:+ quoted u +:+ ": " +:+ e)
      | Ok n => match normalize_all what urls with Ok ns => Ok (n :: ns) | Err e => Err e end
      end
  end.

(** Each of [urls] is well formed and allowed; the first problem is reported. *)
Fixpoint check_allowed (bad denied : string) (allow : gset string) (urls : list string) : result unit :=
  match urls with
  | [] => Ok tt
  | u :: urls =>
      match normalizeRelayURL u with
      | Err e => Err ("invalid " +:+ bad +:+ " " +:+ quoted u +:+ ": " +:+ e)
      | Ok n =>
          if bool_decide (n ∈ allow) then check_allowed bad denied allow urls
          else Err (denied +:+ " " +:+ quoted u +:+ " is not in allowlist")
      end
  end.

Definition validateRelayLifecycleConfig (cfg : Config) : result unit :=
  match normalize_all "allowlisted relay" (Allowlist cfg) with
  | Err e => Err e
  | Ok ns =>
      let allow := list_to_set ns : gset string in
      if negb (bool_decide (Relays cfg = [])) && bool_decide (allow = ∅) then
        Err "allowlist is required when relays are configured"
      else
        match check_allowed "relay" "relay" allow (Relays cfg) with
        | Err e => Err e
        | Ok _ => check_allowed "disabled relay" "disabled relay" allow (DisabledRelays cfg)
        end
  end.

Definition mustNormalizeURLs (urls : list string) : list string :=
  omap (λ raw, match normalizeRelayURL raw with Ok n => Some n | Err _ => None end) urls.

(** The configuration the manager keeps, and its initial statuses. *)
Definition NewManager (clock : nat → time) (cfg : Config) : result (Config * manager) :=
  let connectTimeout := if ConnectTimeout cfg <=? 0 then 10 * second else ConnectTimeout cfg in
  let initialBackoff := if InitialBackoff cfg <=? 0 then second else InitialBackoff cfg in
  let maxBackoff := if MaxBackoff cfg <=? 0 then 30 * second else MaxBackoff cfg in
  if maxBackoff <? initialBackoff then Err "initial backoff must be <= max backoff"
  else match validateRelayLifecycleConfig cfg with
       | Err e => Err e
       | Ok _ =>
           let urls := mustNormalizeURLs (Relays cfg) in
           let disabled := mustNormalizeURLs (DisabledRelays cfg) in
           let cfg := mkConfig urls (mustNormalizeURLs (Allowlist cfg)) disabled connectTimeout
                        initialBackoff maxBackoff (LagThreshold cfg) (HasStatusSink cfg) in
           let add (m : manager) (u : string) :=
             let state := if bool_decide (u ∈ disabled) then StateDisabled else StateConnecting in
             mkManager (<[u := mkStatus u state (clock (ticks m)) 0 "" 0 0]> (relays m))
               (S (ticks m)) (reports m) (trace m) in
           Ok (cfg, foldl add (mkManager ∅ 0 [] []) urls)
       end.
End config.

Section manager.
Context (clock : nat → time) (cfg : Config).

Definition now (m : manager) : time := clock (ticks m).

(** [transitionLocked] on the status of [u]. *)
Definition transition (u : string) (st : Status) (next : State) (m : manager) : manager :=
  if bool_decide (SState st = next) then mkManager (<[u := st]> (relays m)) (ticks m) (reports m) (trace m)
  else
    mkManager
      (<[u := mkStatus (URL st) next (now m) (LastProgress st) (SLastError st) (SAttempts st) (SBackoff st)]>
         (relays m))
      (S (ticks m)) (reports m) ((u, next) :: trace m).

Definition tick (m : manager) : manager := mkManager (relays m) (S (ticks m)) (reports m) (trace m).

Definition MarkProgress (u : string) (m : manager) : manager :=
  match relays m !! u with
  | None => m
  | Some st =>
      let st := mkStatus (URL st) (SState st) (SSince st) (now m) (SLastError st) (SAttempts st) (SBackoff st) in
      let m := tick m in
      if bool_decide (SState st = StateLagging) then transition u st StateHealthy m
      else mkManager (<[u := st]> (relays m)) (ticks m) (reports m) (trace m)
  end.

Definition checkLagging (u : string) (m : manager) : manager :=
  match relays m !! u with
  | None => m
  | Some st =>
      if negb (bool_decide (SState st = StateHealthy)) then m
      else if time_is_zero (LastProgress st) then m
      else if LagThreshold cfg <? time_sub (now m) (LastProgress st) then
        transition u st StateLagging (tick m)
      else tick m
  end.

Definition setConnected (u : string) (m : manager) : manager :=
  match relays m !! u with
  | None => m
  | Some st =>
      transition u (mkStatus (URL st) (SState st) (SSince st) (now m) "" (SAttempts st) 0) StateHealthy (tick m)
  end.

Definition setConnecting (u : string) (m : manager) : manager :=
  match relays m !! u with
  | None => m
  | Some st =>
      transition u (mkStatus (URL st) (SState st) (SSince st) (LastProgress st) (SLastError st) (SAttempts st + 1) 0)
        StateConnecting m
  end.

Definition setState (u : string) (state : State) (lastErr : string) (backoff : Z) (m : manager) : manager :=
  match relays m !! u with
  | None => m
  | Some st =>
      transition u (mkStatus (URL st) (SState st) (SSince st) (LastProgress st) (trim_space lastErr)
                      (SAttempts st) backoff) state m
  end.

Definition reportStatus (u : string) (state : State) (lastError : string) (m : manager) : manager :=
  if HasStatusSink cfg then mkManager (relays m) (ticks m) (mkReport u state lastError :: reports m) (trace m)
  else m.

(** ** The loop of a relay *)

(** Where [runRelay] is: at the head of its loop, in [monitorConnection] with
    the message channel open or closed, asleep, or returned. *)
Inductive control :=
  | AtDial
  | Monitoring (messagesOpen : bool)
  | Sleeping (wait : Z)
  | Returned.

Inductive input :=
  | InDial (r : result unit)
  | InMessage
  | InMessagesClosed
  | InDone (err : option error)
  | InDoneClosed
  | InTick
  | InWake
  | InCtxDone.

Record relay_loop := mkLoop {
  l_control : control;
  l_backoff : boundedBackoff;
}.

Definition start_loop : relay_loop := mkLoop AtDial (newBoundedBackoff (InitialBackoff cfg) (MaxBackoff cfg)).

(** Errored, then backing off until the wait ends. *)
Definition back_off (u errored reason : string) (l : relay_loop) (m : manager) : relay_loop * manager :=
  let m := reportStatus u StateErrored errored (setState u StateErrored errored 0 m) in
  let '(b, wait) := Next (l_backoff l) in
  let m := reportStatus u StateBackingOff reason (setState u StateBackingOff reason wait m) in
  (mkLoop (Sleeping wait) b, m).

Definition has_ticker : bool := 0 <? LagThreshold cfg.

Definition relay_step (u : string) (i : input) (l : relay_loop) (m : manager) : relay_loop * manager :=
  match l_control l, i with
  | AtDial, InCtxDone => (mkLoop Returned (l_backoff l), m)
  | AtDial, InDial r =>
      let m := reportStatus u StateConnecting "" (setConnecting u m) in
      match r with
      | Err e => back_off u e e l m
      | Ok _ =>
          let m := reportStatus u StateHealthy "" (setConnected u m) in
          (mkLoop (Monitoring true) (Reset (l_backoff l)), m)
      end
  | Monitoring _, InCtxDone => (mkLoop Returned (l_backoff l), m)
  | Monitoring true, InMessage => (l, MarkProgress u m)
  | Monitoring true, InMessagesClosed => (mkLoop (Monitoring false) (l_backoff l), m)
  | Monitoring _, InDone (Some e) => back_off u e "connection_lost" l m
  | Monitoring _, InDone None => back_off u "connection closed" "connection_lost" l m
  | Monitoring _, InDoneClosed => back_off u "connection closed" "connection_lost" l m
  | Monitoring _, InTick => if has_ticker then (l, checkLagging u m) else (l, m)
  | Sleeping _, InWake => (mkLoop AtDial (l_backoff l), m)
  | Sleeping _, InCtxDone => (mkLoop Returned (l_backoff l), m)
  | _, _ => (l, m)
  end.
End manager.

(** * All relays *)

(** The manager with the loops that [Start] began. *)
Record system := mkSystem {
  s_loops : gmap string relay_loop;
  s_mgr : manager;
}.

Inductive sys_input :=
  | Loop (u : string) (i : input)
  | Progress (u : string).

Section system.
Context (clock : nat → time) (cfg : Config).

(** [Start]: a loop for every relay that is not disabled. *)
Definition Start (m : manager) : system :=
  mkSystem ((λ _, start_loop cfg) <$> filter (λ kv : string * Status, SState kv.2 ≠ StateDisabled) (relays m)) m.

Definition sys_step (s : system) (i : sys_input) : system :=
  match i with
  | Loop u i =>
      match s_loops s !! u with
      | None => s
      | Some l =>
          let '(l, m) := relay_step clock cfg u i l (s_mgr s) in
          mkSystem (<[u := l]> (s_loops s)) m
      end
  | Progress u => mkSystem (s_loops s) (MarkProgress clock u (s_mgr s))
  end.

Definition sys_run (ins : list sys_input) (s : system) : system := foldl sys_step s ins.

(** [Snapshot]. *)
Definition Snapshot (s : system) : gmap string Status := relays (s_mgr s).

(** * Backoff bounds *)

Hypothesis initial_pos : 0 < InitialBackoff cfg.
Hypothesis initial_max : InitialBackoff cfg ≤ MaxBackoff cfg.
Hypothesis max_bound : MaxBackoff cfg < 2 ^ 62.

Record backoff_ok (b : boundedBackoff) : Prop := {
  bk_initial : bo_initial b = InitialBackoff cfg;
  bk_max : bo_max b = MaxBackoff cfg;
  bk_current : bo_current b = 0 ∨ InitialBackoff cfg ≤ bo_current b ≤ MaxBackoff cfg;
}.

Lemma Next_doubles b :
  backoff_ok b → bo_current b ≠ 0 → Z.min (MaxBackoff cfg) (bo_current b * 2) = (Next b).2.
Proof.
  intros [Hi Hm Hc] Hn. unfold Next. rewrite (proj2 (Z.eqb_neq _ _) Hn). simpl. rewrite Hm.
  assert (max_int64 = 2 * 2 ^ 62 - 1) as E1 by reflexivity. assert (min_int64 = - (2 * 2 ^ 62)) as E2 by reflexivity.
  destruct Hc as [?|Hc]; [done|]. rewrite i64_id by lia. destruct (_ <? _) eqn:E; bool_simpl; lia.
Qed.

Lemma Next_ok b :
  backoff_ok b → backoff_ok (Next b).1 ∧ bo_current (Next b).1 = (Next b).2 ∧
  InitialBackoff cfg ≤ (Next b).2 ≤ MaxBackoff cfg.
Proof.
  intros Hb. pose proof Hb as [Hi Hm Hc]. destruct (decide (bo_current b = 0)) as [E|E].
  - unfold Next. rewrite E, Z.eqb_refl. simpl. rewrite Hi. split; [|lia]. split; simpl; [done|done|right; lia].
  - pose proof (Next_doubles b Hb E) as Hd. assert (InitialBackoff cfg ≤ (Next b).2 ≤ MaxBackoff cfg) as Hr by lia.
    unfold Next in *. rewrite (proj2 (Z.eqb_neq _ _) E) in *. simpl in *. split; [|done]. split; simpl; [done|done|by right].
Qed.

Lemma Reset_ok b : backoff_ok b → backoff_ok (Reset b).
Proof. intros [Hi Hm Hc]. split; [done|done|by left]. Qed.

(** The wait after [n + 1] failures in a row. *)
Fixpoint waits (n : nat) (b : boundedBackoff) : Z :=
  match n with O => (Next b).2 | S n => waits n (Next b).1 end.

Lemma waits_spec n b :
  backoff_ok b → bo_current b ≠ 0 →
  waits n b = Z.min (MaxBackoff cfg) (bo_current b * 2 ^ (Z.of_nat n + 1)).
Proof.
  revert b. induction n as [|n IH]; intros b Hb Hn.
  - simpl. by rewrite <-(Next_doubles b).
  - simpl. destruct (Next_ok b Hb) as (Hb1 & E1 & Hr). rewrite IH by (done || lia).
    rewrite E1, <-(Next_doubles b) by done.
    replace (Z.of_nat (S n) + 1) with (1 + (Z.of_nat n + 1)) by lia. rewrite (Z.pow_add_r 2 1) by lia.
    pose proof (Z.pow_pos_nonneg 2 (Z.of_nat n + 1) ltac:(lia) ltac:(lia)) as Hp.
    change (2 ^ 1) with 2. destruct (bk_current _ Hb) as [?|Hcur]; [done|].
    revert Hp. generalize (2 ^ (Z.of_nat n + 1)). intros P HP.
    destruct (Z.le_gt_cases (MaxBackoff cfg) (bo_current b * 2)).
    + rewrite (Z.min_l (MaxBackoff cfg) (bo_current b * 2)) by done.
      assert (MaxBackoff cfg ≤ MaxBackoff cfg * P) by nia.
      assert (bo_current b * 2 ≤ bo_current b * (2 * P)) by (apply Z.mul_le_mono_nonneg_l; lia). lia.
    + rewrite (Z.min_r (MaxBackoff cfg) (bo_current b * 2)) by lia. f_equal. ring.
Qed.

Lemma waits_fresh n :
  waits n (newBoundedBackoff (InitialBackoff cfg) (MaxBackoff cfg))
  = Z.min (MaxBackoff cfg) (InitialBackoff cfg * 2 ^ Z.of_nat n).
Proof.
  destruct n as [|n]; simpl; [unfold Next; simpl; lia|].
  unfold Next. simpl. rewrite waits_spec; simpl.
  - do 3 f_equal. lia.
  - split; [done|done|right; simpl; lia].
  - lia.
Qed.

(** * Lifecycle *)

(** The edges of the lifecycle. *)
Inductive edge : State → State → Prop :=
  | e_connected : edge StateConnecting StateHealthy
  | e_refused : edge StateConnecting StateErrored
  | e_lag : edge StateHealthy StateLagging
  | e_recover : edge StateLagging StateHealthy
  | e_lost : edge StateHealthy StateErrored
  | e_lost_lagging : edge StateLagging StateErrored
  | e_wait : edge StateErrored StateBackingOff
  | e_retry : edge StateBackingOff StateConnecting.

(** [path s0 h s]: the states [h], newest first, lead from [s0] to [s]. *)
Inductive path (s0 : State) : list State → State → Prop :=
  | path_nil : path s0 [] s0
  | path_snoc h p s : path s0 h p → edge p s → path s0 (s :: h) s.

Definition history (u : string) (m : manager) : list State :=
  omap (λ p : string * State, if bool_decide (p.1 = u) then Some p.2 else None) (trace m).

(** What the control state says of the status. *)
Definition control_ok (c : control) (st : Status) : Prop :=
  match c with
  | AtDial => SState st = StateConnecting ∨ SState st = StateBackingOff
  | Monitoring _ => (SState st = StateHealthy ∨ SState st = StateLagging) ∧ SLastError st = "" ∧ SBackoff st = 0
  | Sleeping w => SState st = StateBackingOff ∧ SBackoff st = w ∧ InitialBackoff cfg ≤ w ≤ MaxBackoff cfg
  | Returned => SState st ≠ StateDisabled
  end.

(** The status of one relay: a disabled one has no loop and never moves. *)
Definition relay_ok (u : string) (s : system) (st : Status) : Prop :=
  if bool_decide (u ∈ DisabledRelays cfg) then
    s_loops s !! u = None ∧ SState st = StateDisabled ∧ history u (s_mgr s) = []
  else
    ∃ l, s_loops s !! u = Some l ∧ backoff_ok (l_backoff l) ∧ control_ok (l_control l) st ∧
         path StateConnecting (history u (s_mgr s)) (SState st).

Definition system_ok (s : system) : Prop := ∀ u st, relays (s_mgr s) !! u = Some st → relay_ok u s st.

Lemma history_ne u u' s m : u' ≠ u → history u' (mkManager (relays m) (ticks m) (reports m) ((u, s) :: trace m)) = history u' m.
Proof. intros Hne. unfold history. simpl. by rewrite bool_decide_eq_false_2 by done. Qed.

(** What an update of [u] leaves alone. *)
Record only (u : string) (m m' : manager) : Prop := {
  on_relays : ∀ u', u' ≠ u → relays m' !! u' = relays m !! u';
  on_history : ∀ u', u' ≠ u → history u' m' = history u' m;
}.

Lemma only_refl u m : only u m m.
Proof. by split. Qed.

Lemma only_trans u m1 m2 m3 : only u m1 m2 → only u m2 m3 → only u m1 m3.
Proof. intros [R1 H1] [R2 H2]. split; intros u' Hne; [by rewrite R2, R1|by rewrite H2, H1]. Qed.

(** The status and history of [u]. *)
Definition at_ (u : string) (m : manager) (st : Status) (h : list State) : Prop :=
  relays m !! u = Some st ∧ history u m = h.

Lemma transition_at u st next m :
  only u m (transition clock u st next m) ∧
  ∃ st', at_ u (transition clock u st next m) st'
           (if bool_decide (SState st = next) then history u m else next :: history u m) ∧
         SState st' = next ∧ SLastError st' = SLastError st ∧ SBackoff st' = SBackoff st ∧
         SAttempts st' = SAttempts st ∧ LastProgress st' = LastProgress st.
Proof.
  unfold transition. case_bool_decide as E.
  - split; [split; [intros u' Hne; simpl; by rewrite lookup_insert_ne|done]|].
    exists st. split_and!; try done. split; [simpl; by rewrite lookup_insert_eq|done].
  - split; [split; intros u' Hne; [simpl; by rewrite lookup_insert_ne|]|].
    + unfold history. simpl. by rewrite bool_decide_eq_false_2 by done.
    + eexists. split_and!; [split; [simpl; by rewrite lookup_insert_eq|]|done..].
      unfold history. simpl. by rewrite bool_decide_eq_true_2.
Qed.

Lemma report_frame u u' state e m :
  relays (reportStatus cfg u state e m) = relays m ∧ history u' (reportStatus cfg u state e m) = history u' m.
Proof. unfold reportStatus. by destruct (HasStatusSink cfg). Qed.

Lemma report_at u state e m st h : at_ u m st h → at_ u (reportStatus cfg u state e m) st h.
Proof. intros [H1 H2]. destruct (report_frame u u state e m) as [E1 E2]. split; congruence. Qed.

Lemma report_only u state e m : only u m (reportStatus cfg u state e m).
Proof. split; intros u' _; destruct (report_frame u u' state e m) as [E1 E2]; congruence. Qed.

Lemma setState_at u state e b m st h :
  at_ u m st h →
  only u m (setState clock u state e b m) ∧
  ∃ st', at_ u (setState clock u state e b m) st' (if bool_decide (SState st = state) then h else state :: h) ∧
         SState st' = state ∧ SLastError st' = trim_space e ∧ SBackoff st' = b.
Proof.
  intros [Hr Hh]. unfold setState. rewrite Hr.
  match goal with |- context [transition clock u ?s state m] => destruct (transition_at u s state m) as (Ho & st' & Ha & ? & ? & ? & _) end.
  split; [done|]. exists st'. rewrite Hh in Ha. by simpl in *.
Qed.

Lemma setConnecting_at u m st h :
  at_ u m st h →
  only u m (setConnecting clock u m) ∧
  ∃ st', at_ u (setConnecting clock u m) st' (if bool_decide (SState st = StateConnecting) then h else StateConnecting :: h) ∧
         SState st' = StateConnecting.
Proof.
  intros [Hr Hh]. unfold setConnecting. rewrite Hr.
  match goal with |- context [transition clock u ?s ?n m] => destruct (transition_at u s n m) as (Ho & st' & Ha & ? & _) end.
  split; [done|]. exists st'. rewrite Hh in Ha. by simpl in *.
Qed.

Lemma only_tick u m m' : only u (tick m) m' → only u m m'.
Proof. intros [R H1]. by split. Qed.

Lemma setConnected_at u m st h :
  at_ u m st h →
  only u m (setConnected clock u m) ∧
  ∃ st', at_ u (setConnected clock u m) st' (if bool_decide (SState st = StateHealthy) then h else StateHealthy :: h) ∧
         SState st' = StateHealthy ∧ SLastError st' = "" ∧ SBackoff st' = 0.
Proof.
  intros [Hr Hh]. unfold setConnected. rewrite Hr.
  match goal with |- context [transition clock u ?s ?n (tick m)] => destruct (transition_at u s n (tick m)) as (Ho & st' & Ha & ? & ? & ? & _) end.
  split; [by apply only_tick|]. exists st'. change (history u (tick m)) with (history u m) in Ha. rewrite Hh in Ha. by simpl in *.
Qed.

Lemma MarkProgress_at u m st h :
  at_ u m st h →
  only u m (MarkProgress clock u m) ∧
  ∃ st', at_ u (MarkProgress clock u m) st' (if bool_decide (SState st = StateLagging) then StateHealthy :: h else h) ∧
         SState st' = (if bool_decide (SState st = StateLagging) then StateHealthy else SState st) ∧
         SLastError st' = SLastError st ∧ SBackoff st' = SBackoff st.
Proof.
  intros [Hr Hh]. unfold MarkProgress. rewrite Hr. cbv zeta. cbn [SState]. case_bool_decide as E.
  - match goal with |- context [transition clock u ?s ?n (tick m)] => destruct (transition_at u s n (tick m)) as (Ho & st' & Ha & ? & ? & ? & _) end.
    split; [by apply only_tick|]. exists st'. change (history u (tick m)) with (history u m) in Ha. rewrite Hh in Ha. simpl in *.
    rewrite bool_decide_eq_false_2 in Ha by (by rewrite E). done.
  - split; [split; [intros u' Hne; simpl; by rewrite lookup_insert_ne|done]|].
    eexists. split_and!; [split; [simpl; by rewrite lookup_insert_eq|exact Hh]|done..].
Qed.

Lemma checkLagging_at u m st h :
  at_ u m st h →
  only u m (checkLagging clock cfg u m) ∧
  ((at_ u (checkLagging clock cfg u m) st h) ∨
   (SState st = StateHealthy ∧ ∃ st', at_ u (checkLagging clock cfg u m) st' (StateLagging :: h) ∧
      SState st' = StateLagging ∧ SLastError st' = SLastError st ∧ SBackoff st' = SBackoff st)).
Proof.
  intros Ha0. pose proof Ha0 as [Hr Hh]. unfold checkLagging. rewrite Hr. case_bool_decide as E; simpl; [|split; [apply only_refl|by left]].
  destruct (time_is_zero _); [split; [apply only_refl|by left]|]. destruct (_ <? _).
  - match goal with |- context [transition clock u ?s ?n (tick m)] => destruct (transition_at u s n (tick m)) as (Ho & st' & Ha & ? & ? & ? & _) end.
    split; [by apply only_tick|]. right. split; [done|]. exists st'. change (history u (tick m)) with (history u m) in Ha. rewrite Hh in Ha.
    rewrite bool_decide_eq_false_2 in Ha by (by rewrite E). done.
  - split; [by split|by left].
Qed.

(** After a step on [u]: the others are as before, the backoff is in bounds, and
    the status fits the control state and the path to it. *)
Definition step_ok (u : string) (m : manager) (r : relay_loop * manager) : Prop :=
  only u m r.2 ∧ backoff_ok (l_backoff r.1) ∧
  ∃ st h, at_ u r.2 st h ∧ control_ok (l_control r.1) st ∧ path StateConnecting h (SState st).

Lemma step_ok_trans u m1 m2 r : only u m1 m2 → step_ok u m2 r → step_ok u m1 r.
Proof. intros Ho (Ho2 & ? & ?). split; [by eapply only_trans|done]. Qed.

(** The relay is lost and backs off. *)
Lemma back_off_ok u errored reason l m st h :
  at_ u m st h → backoff_ok (l_backoff l) → edge (SState st) StateErrored → path StateConnecting h (SState st) →
  step_ok u m (back_off clock cfg u errored reason l m).
Proof.
  intros Ha Hb He Hp. unfold back_off. destruct (Next_ok _ Hb) as (Hb' & _ & Hw).
  destruct (Next (l_backoff l)) as [b wait]. simpl in Hb', Hw.
  destruct (setState_at u StateErrored errored 0 m st h Ha) as (O1 & st1 & A1 & S1 & _).
  rewrite bool_decide_eq_false_2 in A1 by (intros E; rewrite E in He; inversion He).
  apply (report_at u StateErrored errored) in A1.
  set (m1 := reportStatus cfg u StateErrored errored _) in *.
  assert (only u m m1) as O1' by (eapply only_trans; [exact O1|apply report_only]).
  destruct (setState_at u StateBackingOff reason wait m1 st1 _ A1) as (O2 & st2 & A2 & S2 & _ & B2).
  rewrite S1, bool_decide_eq_false_2 in A2 by done. apply (report_at u StateBackingOff reason) in A2.
  split; [eapply only_trans; [exact O1'|eapply only_trans; [exact O2|apply report_only]]|]. split; [done|].
  exists st2, (StateBackingOff :: StateErrored :: h). split; [done|]. split; [done|]. rewrite S2.
  eapply path_snoc; [|constructor]. eapply path_snoc; [exact Hp|done].
Qed.

(** A status that does not change. *)
Lemma still_ok u l m st h :
  at_ u m st h → backoff_ok (l_backoff l) → control_ok (l_control l) st → path StateConnecting h (SState st) →
  step_ok u m (l, m).
Proof. intros. split; [apply only_refl|]. split; [done|]. by exists st, h. Qed.

Lemma dial_ok u r b m st h :
  at_ u m st h → backoff_ok b → control_ok AtDial st → path StateConnecting h (SState st) →
  step_ok u m (relay_step clock cfg u (InDial r) (mkLoop AtDial b) m).
Proof.
  intros Ha Hb Hc Hp. unfold relay_step. cbn [l_control l_backoff].
  destruct (setConnecting_at u m st _ Ha) as (O1 & st1 & A1 & S1). apply (report_at u StateConnecting "") in A1.
  set (m1 := reportStatus cfg u StateConnecting "" _) in *. cbv zeta.
  assert (only u m m1) as O1' by (eapply only_trans; [exact O1|apply report_only]).
  eapply step_ok_trans; [exact O1'|].
  assert (∃ h1, at_ u m1 st1 h1 ∧ path StateConnecting h1 (SState st1)) as (h1 & A1' & P1).
  { eexists. split; [exact A1|]. rewrite S1. destruct Hc as [Hc|Hc]; rewrite Hc in *; [by rewrite bool_decide_eq_true_2|].
    rewrite bool_decide_eq_false_2 by done. eapply path_snoc; [exact Hp|constructor]. }
  destruct r as [?|e]; [|eapply back_off_ok; [exact A1'|done|rewrite S1; apply e_refused|exact P1]].
  destruct (setConnected_at u m1 st1 _ A1') as (O2 & st2 & A2 & S2 & E2 & B2).
  rewrite S1 in A2, P1. rewrite bool_decide_eq_false_2 in A2 by done. apply (report_at u StateHealthy "") in A2.
  split; [eapply only_trans; [exact O2|apply report_only]|].
  split; [by apply Reset_ok|]. exists st2, (StateHealthy :: h1). split; [done|]. split; [by split; [left|]|].
  rewrite S2. eapply path_snoc; [exact P1|constructor].
Qed.

Lemma message_ok u b m st h :
  at_ u m st h → backoff_ok b → control_ok (Monitoring true) st → path StateConnecting h (SState st) →
  step_ok u m (mkLoop (Monitoring true) b, MarkProgress clock u m).
Proof.
  intros Ha Hb (Hs & He & Hbk) Hp. destruct (MarkProgress_at u m st _ Ha) as (O1 & st1 & A1 & S1 & E1 & B1).
  split; [done|]. split; [done|]. exists st1. eexists. split; [exact A1|]. cbn [control_ok l_control fst]. rewrite E1, B1, S1.
  case_bool_decide as El; [|done]. split; [by split; [left|]|]. eapply path_snoc; [exact Hp|]. rewrite El. constructor.
Qed.

Lemma tick_ok u o b m st h :
  at_ u m st h → backoff_ok b → control_ok (Monitoring o) st → path StateConnecting h (SState st) →
  step_ok u m (mkLoop (Monitoring o) b, checkLagging clock cfg u m).
Proof.
  intros Ha Hb (Hs & He & Hbk) Hp. destruct (checkLagging_at u m st _ Ha) as (O1 & [A1|(Sh & st1 & A1 & S1 & E1 & B1)]).
  - split; [done|]. split; [done|]. by exists st, h.
  - split; [done|]. split; [done|]. exists st1. eexists. split; [exact A1|]. cbn [control_ok l_control fst]. rewrite E1, B1, S1.
    split; [by split; [right|]|]. eapply path_snoc; [exact Hp|]. rewrite Sh. constructor.
Qed.

Lemma relay_step_ok u i l m st h :
  at_ u m st h → backoff_ok (l_backoff l) → control_ok (l_control l) st → path StateConnecting h (SState st) →
  step_ok u m (relay_step clock cfg u i l m).
Proof.
  intros Ha Hb Hc Hp. destruct l as [c b]. simpl in Hb, Hc.
  assert (SState st ≠ StateDisabled → step_ok u m (mkLoop Returned b, m)) as Hret
    by (intros ?; by eapply still_ok).
  destruct c as [|o|w|].
  - destruct i; try (by eapply still_ok); [by eapply dial_ok|]. apply Hret. destruct Hc as [Hc|Hc]; by rewrite Hc.
  - assert (edge (SState st) StateErrored) as Hedge
      by (destruct Hc as ([Hs|Hs] & _); rewrite Hs; constructor).
    destruct i as [r| | |[e|]| | | |]; destruct o; try (by eapply still_ok); try (by eapply back_off_ok);
      try (by eapply message_ok).
    1-2: unfold relay_step; cbn [l_control]; destruct (has_ticker cfg); [by eapply tick_ok|by eapply still_ok].
    all: apply Hret; destruct Hc as ([Hs|Hs] & _); by rewrite Hs.
  - destruct Hc as (Hs & Hbk & Hw). destruct i; try (by eapply still_ok).
    + eapply still_ok; [exact Ha|done|by right|done].
    + apply Hret. by rewrite Hs.
  - by destruct i; eapply still_ok.
Qed.

Lemma relay_ok_only u u' s s' st :
  u' ≠ u → only u (s_mgr s) (s_mgr s') → s_loops s' !! u' = s_loops s !! u' → relay_ok u' s st → relay_ok u' s' st.
Proof.
  intros Hne [_ Hh] El Hok. unfold relay_ok in *. rewrite El, (Hh u' Hne). done.
Qed.

Lemma MarkProgress_none u m : relays m !! u = None → MarkProgress clock u m = m.
Proof. intros E. unfold MarkProgress. by rewrite E. Qed.

Lemma progress_ok u s : system_ok s → system_ok (sys_step s (Progress u)).
Proof.
  intros Hok u' st' Hst'. simpl in *. destruct (relays (s_mgr s) !! u) as [st|] eqn:Er.
  2:{ rewrite MarkProgress_none in * by done. apply (Hok u' st' Hst'). }
  destruct (MarkProgress_at u (s_mgr s) st _ ltac:(by split)) as (Ho & st1 & [A1 A2] & S1 & E1 & B1).
  destruct (decide (u' = u)) as [->|Hne].
  - rewrite A1 in Hst'. injection Hst' as <-. specialize (Hok u st Er). unfold relay_ok in *. simpl.
    rewrite A2, S1. destruct (bool_decide (u ∈ DisabledRelays cfg)).
    + destruct Hok as (? & Hs & ?). by rewrite Hs.
    + destruct Hok as (l & Hl & Hb & Hc & Hp). exists l. split; [done|]. split; [done|]. case_bool_decide as El.
      * destruct (l_control l) as [|o|w|]; cbn [control_ok] in *; rewrite ?El in Hc; try (destruct Hc; done || naive_solver).
        -- destruct Hc as (_ & He & Hbk). split; [by rewrite E1, B1; split; [left|]|]. eapply path_snoc; [exact Hp|rewrite El; constructor].
        -- split; [by rewrite S1|]. eapply path_snoc; [exact Hp|rewrite El; constructor].
      * split; [|done]. by destruct (l_control l); cbn [control_ok] in *; rewrite ?S1, ?E1, ?B1.
  - rewrite (on_relays _ _ _ Ho u' Hne) in Hst'.
    by eapply (relay_ok_only u u' s (mkSystem (s_loops s) (MarkProgress clock u (s_mgr s)))); [done|done|done|apply Hok].
Qed.

(** Loops belong to configured relays. *)
Definition loops_ok (s : system) : Prop := ∀ u, is_Some (s_loops s !! u) → is_Some (relays (s_mgr s) !! u).

Lemma loop_step_ok u i s : loops_ok s → system_ok s → system_ok (sys_step s (Loop u i)) ∧ loops_ok (sys_step s (Loop u i)).
Proof.
  intros Hl Hok. simpl. destruct (s_loops s !! u) as [l|] eqn:El; [|done].
  destruct (Hl u ltac:(by eexists)) as [st Hst]. pose proof (Hok u st Hst) as Hu. unfold relay_ok in Hu.
  case_bool_decide as Hd; [destruct Hu; congruence|]. destruct Hu as (l0 & E0 & Hb & Hc & Hp).
  rewrite El in E0. injection E0 as <-.
  pose proof (relay_step_ok u i l (s_mgr s) st _ ltac:(by split) Hb Hc Hp) as Hstep.
  destruct (relay_step clock cfg u i l (s_mgr s)) as [l' m']. destruct Hstep as (Ho & Hb' & st1 & h1 & [A1 A2] & Hc' & Hp').
  simpl in *. split.
  - intros u' st' Hst'. simpl in Hst'. destruct (decide (u' = u)) as [->|Hne].
    + rewrite A1 in Hst'. injection Hst' as <-. unfold relay_ok. simpl. rewrite bool_decide_eq_false_2 by done.
      exists l'. rewrite lookup_insert_eq, A2. done.
    + rewrite (on_relays _ _ _ Ho u' Hne) in Hst'.
      eapply (relay_ok_only u u' s); [done|done|simpl; by rewrite lookup_insert_ne|by apply Hok].
  - intros u' Hu'. simpl in *. destruct (decide (u' = u)) as [->|Hne]; [by eexists|].
    rewrite lookup_insert_ne in Hu' by done. rewrite (on_relays _ _ _ Ho u' Hne). by apply Hl.
Qed.

Lemma progress_loops u s : loops_ok s → loops_ok (sys_step s (Progress u)).
Proof.
  intros Hl u' Hu'. simpl in *. destruct (relays (s_mgr s) !! u) as [st|] eqn:Er; [|rewrite MarkProgress_none by done; by apply Hl].
  destruct (MarkProgress_at u (s_mgr s) st _ ltac:(by split)) as (Ho & st1 & [A1 _] & _).
  destruct (decide (u' = u)) as [->|Hne]; [by eexists|]. rewrite (on_relays _ _ _ Ho u' Hne). by apply Hl.
Qed.

Lemma sys_run_ok ins s : loops_ok s → system_ok s → system_ok (sys_run ins s).
Proof.
  revert s. induction ins as [|i ins IH]; intros s Hl Hok; simpl; [done|]. destruct i as [u i|u].
  - destruct (loop_step_ok u i s Hl Hok). by apply IH.
  - by apply IH; [apply progress_loops|apply progress_ok].
Qed.
End system.

(** * Start *)

Record fresh_manager (disabled : list string) (m : manager) : Prop := {
  fm_trace : trace m = [];
  fm_state : ∀ u st, relays m !! u = Some st →
    SState st = if bool_decide (u ∈ disabled) then StateDisabled else StateConnecting;
}.

Section start.
Context `{UnicodeTables} `{URLParser}.

Lemma NewManager_ok clock cfg0 cfg m :
  NewManager clock cfg0 = Ok (cfg, m) →
  0 < InitialBackoff cfg ∧ InitialBackoff cfg ≤ MaxBackoff cfg ∧ fresh_manager (DisabledRelays cfg) m ∧
  validateRelayLifecycleConfig cfg0 = Ok tt ∧ MaxBackoff cfg = (if MaxBackoff cfg0 <=? 0 then 30 * second else MaxBackoff cfg0).
Proof.
  unfold NewManager. destruct (_ <? _) eqn:El; [done|].
  destruct (validateRelayLifecycleConfig cfg0) as [[]|e] eqn:Ev; [|done]. intros Hn. injection Hn as <- <-. cbn [InitialBackoff MaxBackoff DisabledRelays].
  bool_simpl. split; [destruct (InitialBackoff cfg0 <=? 0) eqn:E; bool_simpl; unfold second; lia|].
  split; [done|]. split; [|done].
  set (dis := mustNormalizeURLs (DisabledRelays cfg0)).
  assert (∀ urls m0, fresh_manager dis m0 → fresh_manager dis (foldl (λ (m : manager) (u : string),
    mkManager (<[u := mkStatus u (if bool_decide (u ∈ dis) then StateDisabled else StateConnecting) (clock (ticks m)) 0 "" 0 0]> (relays m))
      (S (ticks m)) (reports m) (trace m)) m0 urls)) as Hf.
  { induction urls as [|u urls IH]; intros m0 Hm0; simpl; [done|]. apply IH. destruct Hm0 as [Ht Hs]. split; [done|].
    simpl. intros u' st. destruct (decide (u' = u)) as [->|Hne].
    - rewrite lookup_insert_eq. by intros [= <-].
    - rewrite lookup_insert_ne by done. apply Hs. }
  apply Hf. split; [done|]. simpl. by intros u st ?.
Qed.

Lemma start_ok cfg m :
  0 < InitialBackoff cfg → fresh_manager (DisabledRelays cfg) m →
  loops_ok (Start cfg m) ∧ system_ok cfg (Start cfg m).
Proof.
  intros Hi [Ht Hs]. split.
  - intros u [l Hl]. simpl in *. apply lookup_fmap_Some in Hl as (st & _ & Hf).
    apply map_lookup_filter_Some in Hf as [Hf _]. by eexists.
  - intros u st Hst. simpl in Hst. pose proof (Hs u st Hst) as Hstate. unfold relay_ok, history. simpl. rewrite Ht. simpl.
    case_bool_decide as Hd.
    + split_and!; [|done|done]. rewrite lookup_fmap, (proj2 (map_lookup_filter_None _ _ _)); [done|].
      right. intros st' Hst' Hn. rewrite Hst in Hst'. injection Hst' as <-. by apply Hn.
    + exists (start_loop cfg). split_and!.
      * apply lookup_fmap_Some. exists st. split; [done|]. apply map_lookup_filter_Some. split; [done|]. simpl. by rewrite Hstate.
      * split; [done|done|by left].
      * by left.
      * rewrite Hstate. constructor.
Qed.

(** C36: The lifecycle of every configured relay: whatever dials, messages, ticks,
    lost connections and cancellations happen on any relays in any order, a
    disabled relay stays disabled and is never dialled, and any other relay moves
    only along the edges of the lifecycle; as long as its loop runs, it is shown
    healthy or lagging exactly while its connection is monitored, with no error
    and no wait, and backing off, with the wait it sleeps, between the initial
    and the maximal backoff. Of a loop that was cancelled only the edges and that
    it is not shown disabled are claimed. *)
Theorem relay_lifecycle (clock : nat → time) (cfg0 cfg : Config) (m : manager) (ins : list sys_input)
    (u : string) (st : Status) :
  NewManager clock cfg0 = Ok (cfg, m) → MaxBackoff cfg < 2 ^ 62 →
  let s := sys_run clock cfg ins (Start cfg m) in
  Snapshot s !! u = Some st → relay_ok cfg u s st.
Proof.
  intros Hn Hmax s Hst. destruct (NewManager_ok _ _ _ _ Hn) as (Hi & Him & Hf & _).
  destruct (start_ok cfg m Hi Hf) as [Hl Hok].
  by apply (sys_run_ok clock cfg Hi Him Hmax ins _ Hl Hok).
Qed.
End start.

(** * Reconnect schedule *)

(** The inputs of failing dials with the sleeps between them. *)
Fixpoint failing_dials (errs : list error) : list input :=
  match errs with
  | [] => []
  | e :: errs => InDial (Err e) :: match errs with [] => [] | _ => InWake :: failing_dials errs end
  end.

Definition loop_run (clock : nat → time) (cfg : Config) (u : string) (ins : list input) (s : relay_loop * manager)
    : relay_loop * manager :=
  foldl (λ s i, relay_step clock cfg u i s.1 s.2) s ins.

Lemma failed_dial clock cfg u e b m :
  ∃ m', relay_step clock cfg u (InDial (Err e)) (mkLoop AtDial b) m = (mkLoop (Sleeping (Next b).2) (Next b).1, m').
Proof. unfold relay_step, back_off. cbn [l_control l_backoff]. destruct (Next b). by eexists. Qed.

(** Reconnects back off exponentially: after n + 1 failed dials in a row a
    relay sleeps for the initial backoff doubled n times, cut off at the maximum,
    and a dial that succeeds starts over. *)
Theorem backoff_schedule (clock : nat → time) (cfg : Config) (u : string) (e : error) (errs : list error)
    (b : boundedBackoff) (m : manager) :
  0 < InitialBackoff cfg → InitialBackoff cfg ≤ MaxBackoff cfg → MaxBackoff cfg < 2 ^ 62 →
  bo_current b = 0 → bo_initial b = InitialBackoff cfg → bo_max b = MaxBackoff cfg →
  l_control (loop_run clock cfg u (failing_dials (e :: errs)) (mkLoop AtDial b, m)).1
  = Sleeping (Z.min (MaxBackoff cfg) (InitialBackoff cfg * 2 ^ Z.of_nat (length errs))) ∧
  bo_current (l_backoff (relay_step clock cfg u (InDial (Ok tt)) (mkLoop AtDial b) m).1) = 0.
Proof.
  intros Hi Him Hm Hc Hbi Hbm. split; [|done].
  assert (b = newBoundedBackoff (InitialBackoff cfg) (MaxBackoff cfg)) as ->.
  { destruct b as [x y z]. simpl in *. by subst. }
  rewrite <-(waits_fresh cfg Hi Him Hm). clear.
  generalize (newBoundedBackoff (InitialBackoff cfg) (MaxBackoff cfg)). intros b. revert e b m.
  induction errs as [|e' errs IH]; intros e b m; destruct (failed_dial clock cfg u e b m) as [m' Em].
  - unfold loop_run, failing_dials. cbn [foldl fst snd]. by rewrite Em.
  - change (failing_dials (e :: e' :: errs)) with (InDial (Err e) :: InWake :: failing_dials (e' :: errs)).
    unfold loop_run in *. cbn [foldl fst snd]. rewrite Em. cbn [fst snd waits length]. apply (IH e').
Qed.

(** * Reconciler *)

(** Where [runSingleRelay] is: at the head of its loop, in [streamMessages],
    asleep after a failed dial or after a lost stream, or returned. *)
Inductive gcontrol := GDial | GStream | GDialSleep (wait : Z) | GStreamSleep (wait : Z) | GReturned.

Record goroutine := mkGo {
  g_url : string;
  g_cancelled : bool;
  g_control : gcontrol;
  g_backoff : boundedBackoff;
}.

Record reconciler := mkReconciler {
  managers : gmap string nat;
  goroutines : gmap nat goroutine;
  next_go : nat;
  rc_reports : list report;
}.

Record ReconcilerConfig := mkRConfig {
  PollInterval : Z;
  DrainTimeout : Z;
  FallbackURLs : list string;
  ConnectConfig : Config;
}.

Definition NewReconciler (cfg : ReconcilerConfig) : ReconcilerConfig * reconciler :=
  (mkRConfig (if PollInterval cfg <=? 0 then 30 * second else PollInterval cfg)
     (if DrainTimeout cfg <=? 0 then 10 * second else DrainTimeout cfg) (FallbackURLs cfg) (ConnectConfig cfg),
   mkReconciler ∅ ∅ 0 []).

Section reconciler.
Context `{UnicodeTables} `{URLParser}.
Context (cfg : ReconcilerConfig).

Definition startRelayLocked (r : reconciler) (relayURL : string) : reconciler :=
  mkReconciler (<[relayURL := next_go r]> (managers r))
    (<[next_go r := mkGo relayURL false GDial
         (newBoundedBackoff (InitialBackoff (ConnectConfig cfg)) (MaxBackoff (ConnectConfig cfg)))]> (goroutines r))
    (S (next_go r)) (rc_reports r).

Definition cancel_go (g : goroutine) : goroutine := mkGo (g_url g) true (g_control g) (g_backoff g).

(** [managed.cancel()] and the removal from the table. *)
Definition stop_relay (r : reconciler) (url : string) : reconciler :=
  match managers r !! url with
  | None => r
  | Some id => mkReconciler (delete url (managers r)) (alter cancel_go id (goroutines r)) (next_go r) (rc_reports r)
  end.

Definition desired_set (desired : list string) : gset string :=
  list_to_set (omap (λ u, match normalizeRelayURL u with Ok n => Some n | Err _ => None end) desired).

Definition apply_desired (want : gset string) (r : reconciler) : reconciler :=
  let r := foldl startRelayLocked r (elements (want ∖ dom (managers r))) in
  foldl stop_relay r (elements (dom (managers r) ∖ want)).

(** [desired] is what [GetDesiredActiveRelays] returned. *)
Definition reconcileOnce (desired : result (list string)) (r : reconciler) : reconciler :=
  match desired with
  | Err _ => r
  | Ok [] => if bool_decide (FallbackURLs cfg = []) then r
             else apply_desired (desired_set (FallbackURLs cfg)) r
  | Ok urls => apply_desired (desired_set urls) r
  end.

(** The end of the context of [Run] with [drainAll], as one step. *)
Definition drainAll (r : reconciler) : reconciler := foldl stop_relay r (elements (dom (managers r))).

Definition rc_report (u : string) (state : State) (lastError : string) (r : reconciler) : reconciler :=
  if HasStatusSink (ConnectConfig cfg)
  then mkReconciler (managers r) (goroutines r) (next_go r) (mkReport u state lastError :: rc_reports r)
  else r.

Definition set_go (id : nat) (g : goroutine) (r : reconciler) : reconciler :=
  mkReconciler (managers r) (<[id := g]> (goroutines r)) (next_go r) (rc_reports r).

(** One step of goroutine [id]; the end of its context is seen only once it is
    cancelled. *)
Definition go_step (id : nat) (i : input) (r : reconciler) : reconciler :=
  match goroutines r !! id with
  | None => r
  | Some g =>
      let u := g_url g in
      let to c b := set_go id (mkGo u (g_cancelled g) c b) in
      let '(b', wait) := Next (g_backoff g) in
      match g_control g, i with
      | GDial, InCtxDone =>
          if g_cancelled g then to GReturned (g_backoff g) (rc_report u StateDisconnected "reconciler_drain" r) else r
      | GDial, InDial (Err e) =>
          to (GDialSleep wait) b' (rc_report u StateErrored e (rc_report u StateConnecting "" r))
      | GDial, InDial (Ok _) =>
          to GStream (Reset (g_backoff g)) (rc_report u StateHealthy "" (rc_report u StateConnecting "" r))
      | GStream, InCtxDone => if g_cancelled g then to GReturned (g_backoff g) r else r
      | GStream, InMessagesClosed =>
          to (GStreamSleep wait) b' (rc_report u StateErrored "connection_closed" r)
      | GStream, InDone (Some e) => to (GStreamSleep wait) b' (rc_report u StateErrored e r)
      | GStream, InDone None => to (GStreamSleep wait) b' r
      | GStream, InDoneClosed =>
          to (GStreamSleep wait) b' (rc_report u StateErrored "connection_closed" r)
      | GDialSleep _, InCtxDone => if g_cancelled g then to GReturned (g_backoff g) r else r
      | GDialSleep _, InWake => to GDial (g_backoff g) r
      | GStreamSleep _, InCtxDone => if g_cancelled g then to GReturned (g_backoff g) r else r
      | GStreamSleep _, InWake =>
          if g_cancelled g then to GReturned (g_backoff g) r else to GDial (g_backoff g) r
      | _, _ => r
      end
  end.

(** [Snapshot]. *)
Definition managed_urls (r : reconciler) : list string := elements (dom (managers r)).

Inductive rec_op :=
  | OpReconcile (desired : result (list string))
  | OpGo (id : nat) (i : input)
  | OpDrain.

Definition rec_step (r : reconciler) (o : rec_op) : reconciler :=
  match o with
  | OpReconcile desired => reconcileOnce desired r
  | OpGo id i => go_step id i r
  | OpDrain => drainAll r
  end.

Definition rec_run (ops : list rec_op) (r : reconciler) : reconciler := foldl rec_step r ops.

(** * One live goroutine per managed relay *)

Record rec_ok (r : reconciler) : Prop := {
  rk_managed : ∀ u id, managers r !! u = Some id →
    ∃ g, goroutines r !! id = Some g ∧ g_url g = u ∧ g_cancelled g = false;
  rk_live : ∀ id g, goroutines r !! id = Some g → g_cancelled g = false → managers r !! g_url g = Some id;
  rk_fresh : ∀ id, is_Some (goroutines r !! id) → (id < next_go r)%nat;
  rk_returned : ∀ id g, goroutines r !! id = Some g → g_control g = GReturned → g_cancelled g = true;
}.

Lemma new_reconciler_ok : rec_ok (NewReconciler cfg).2.
Proof.
  split; simpl; [intros u id Hm|intros id g Hg|intros id [g Hg]|intros id g Hg]; by rewrite lookup_empty in *.
Qed.

Lemma start_relay_ok r u :
  rec_ok r → managers r !! u = None →
  rec_ok (startRelayLocked r u) ∧ (∀ u', managers (startRelayLocked r u) !! u' = if bool_decide (u' = u) then Some (next_go r) else managers r !! u').
Proof.
  intros [M L F T] Hn. split.
  - split; simpl.
    + intros u' id. destruct (decide (u' = u)) as [->|Hne].
      * rewrite lookup_insert_eq. intros [= <-]. rewrite lookup_insert_eq. by eexists.
      * rewrite lookup_insert_ne by done. intros Hm. destruct (M u' id Hm) as (g & Hg & ? & ?).
        exists g. rewrite lookup_insert_ne; [done|]. assert (id < next_go r)%nat by (apply F; by eexists). lia.
    + intros id g. destruct (decide (id = next_go r)) as [->|Hne].
      * rewrite lookup_insert_eq. intros [= <-] _. simpl. by rewrite lookup_insert_eq.
      * rewrite lookup_insert_ne by done. intros Hg Hc. pose proof (L id g Hg Hc) as Hm.
        rewrite lookup_insert_ne; [done|]. intros E. rewrite <-E in Hm. congruence.
    + intros id. destruct (decide (id = next_go r)) as [->|Hne]; [lia|]. rewrite lookup_insert_ne by done.
      intros Hs. apply F in Hs. lia.
    + intros id g. destruct (decide (id = next_go r)) as [->|Hne].
      * rewrite lookup_insert_eq. by intros [= <-].
      * rewrite lookup_insert_ne by done. apply T.
  - intros u'. simpl. case_bool_decide as E; [subst; by rewrite lookup_insert_eq|by rewrite lookup_insert_ne].
Qed.

Lemma stop_relay_ok r u :
  rec_ok r → rec_ok (stop_relay r u) ∧ (∀ u', managers (stop_relay r u) !! u' = if bool_decide (u' = u) then None else managers r !! u').
Proof.
  intros Hr. pose proof Hr as [M L F T]. unfold stop_relay. destruct (managers r !! u) as [id|] eqn:Em.
  2:{ split; [done|]. intros u'. case_bool_decide; by subst. }
  destruct (M u id Em) as (g & Hg & Hu & Hc). split.
  - split; simpl.
    + intros u' id'. destruct (decide (u' = u)) as [->|Hne]; [by rewrite lookup_delete_eq|].
      rewrite lookup_delete_ne by done. intros Hm. destruct (M u' id' Hm) as (g' & Hg' & Hu' & Hc').
      exists g'. rewrite lookup_alter_ne; [done|]. intros <-. rewrite Hg in Hg'. injection Hg' as <-. congruence.
    + intros id' g' Hg' Hc'. destruct (decide (id' = id)) as [->|Hne].
      * rewrite lookup_alter_eq, Hg in Hg'. injection Hg' as <-. done.
      * rewrite lookup_alter_ne in Hg' by done. pose proof (L id' g' Hg' Hc') as Hm.
        rewrite lookup_delete_ne; [done|]. intros E. rewrite <-E, Em in Hm. congruence.
    + intros id' Hs. apply F. destruct (decide (id' = id)) as [->|Hne]; [by eexists|]. by rewrite lookup_alter_ne in Hs.
    + intros id' g' Hg' Ht. destruct (decide (id' = id)) as [->|Hne].
      * rewrite lookup_alter_eq, Hg in Hg'. injection Hg' as <-. done.
      * rewrite lookup_alter_ne in Hg' by done. by apply (T id').
  - intros u'. simpl. case_bool_decide as E; [subst; by rewrite lookup_delete_eq|by rewrite lookup_delete_ne].
Qed.

Lemma stop_all_ok us r :
  rec_ok r → rec_ok (foldl stop_relay r us) ∧
  (∀ u, managers (foldl stop_relay r us) !! u = if bool_decide (u ∈ us) then None else managers r !! u).
Proof.
  revert r. induction us as [|x us IH]; intros r Hr; cbn [foldl].
  { split; [done|]. intros u. case_bool_decide; [set_solver|done]. }
  destruct (stop_relay_ok r x Hr) as [Hr1 Hm1]. destruct (IH _ Hr1) as [Hr2 Hm2]. split; [done|].
  intros u. rewrite Hm2, Hm1. repeat case_bool_decide; set_solver.
Qed.

Lemma start_all_ok us r :
  rec_ok r → NoDup us → (∀ u, u ∈ us → managers r !! u = None) → rec_ok (foldl startRelayLocked r us) ∧
  (∀ u, u ∈ us → is_Some (managers (foldl startRelayLocked r us) !! u)) ∧
  (∀ u, u ∉ us → managers (foldl startRelayLocked r us) !! u = managers r !! u).
Proof.
  revert r. induction us as [|x us IH]; intros r Hr Hnd Hn; simpl; [split; [done|set_solver]|].
  inversion Hnd as [|? ? Hx Hnd']; subst. destruct (start_relay_ok r x Hr ltac:(apply Hn; set_solver)) as [Hr1 Hm1].
  destruct (IH _ Hr1 Hnd') as (Hr2 & Hi2 & Ho2).
  { intros u Hu. rewrite Hm1, bool_decide_eq_false_2 by set_solver. apply Hn. set_solver. }
  split; [done|]. split.
  - intros u Hu. apply elem_of_cons in Hu as [->|Hu]; [|by apply Hi2].
    rewrite Ho2, Hm1, bool_decide_eq_true_2 by done. by eexists.
  - intros u Hu. rewrite Ho2, Hm1, bool_decide_eq_false_2 by set_solver. done.
Qed.

(** The connections after a reconciliation are the desired ones, and those that
    were there already are kept. *)
Lemma apply_desired_ok want r :
  rec_ok r → rec_ok (apply_desired want r) ∧ dom (managers (apply_desired want r)) = want ∧
  (∀ u id, u ∈ want → managers r !! u = Some id → managers (apply_desired want r) !! u = Some id).
Proof.
  intros Hr. unfold apply_desired. cbv zeta.
  destruct (start_all_ok (elements (want ∖ dom (managers r))) r Hr (NoDup_elements _)) as (Hr1 & Hi1 & Ho1).
  { intros u Hu. apply elem_of_elements, elem_of_difference in Hu as [_ Hu]. by apply not_elem_of_dom. }
  set (r1 := foldl startRelayLocked r _) in *.
  destruct (stop_all_ok (elements (dom (managers r1) ∖ want)) r1 Hr1) as [Hr2 Hm2]. split; [done|]. split.
  - apply set_eq. intros u. rewrite elem_of_dom, Hm2. case_bool_decide as Hin.
    + apply elem_of_elements in Hin. split; [by intros [? ?]|set_solver].
    + destruct (decide (u ∈ want)) as [Hw|Hw].
      * split; [done|]. intros _. destruct (managers r !! u) as [id|] eqn:E.
        -- rewrite Ho1 by (rewrite elem_of_elements, elem_of_difference, elem_of_dom, E; naive_solver). by rewrite E.
        -- apply Hi1. apply elem_of_elements, elem_of_difference. split; [done|]. by apply not_elem_of_dom.
      * split; [|done]. intros Hs. destruct Hin. apply elem_of_elements, elem_of_difference. by rewrite elem_of_dom.
  - intros u id Hw Hm. rewrite Hm2, bool_decide_eq_false_2 by (rewrite elem_of_elements; set_solver).
    rewrite Ho1; [done|]. rewrite elem_of_elements, elem_of_difference, elem_of_dom, Hm. naive_solver.
Qed.

Lemma set_go_ok id g g' r :
  rec_ok r → goroutines r !! id = Some g → g_url g' = g_url g → g_cancelled g' = g_cancelled g →
  (g_control g' = GReturned → g_cancelled g' = true) → rec_ok (set_go id g' r).
Proof.
  intros [M L F T] Hg Hu Hc Ht. split; simpl.
  - intros u id' Hm. destruct (M u id' Hm) as (g0 & Hg0 & ? & ?). destruct (decide (id' = id)) as [->|Hne].
    + rewrite lookup_insert_eq. exists g'. rewrite Hg in Hg0. injection Hg0 as <-. split; [done|]. split; congruence.
    + rewrite lookup_insert_ne by done. by exists g0.
  - intros id' g0. destruct (decide (id' = id)) as [->|Hne].
    + rewrite lookup_insert_eq. intros [= <-] Hcc. rewrite Hu. apply L; [done|congruence].
    + rewrite lookup_insert_ne by done. apply L.
  - intros id'. destruct (decide (id' = id)) as [->|Hne]; [intros _; apply F; by eexists|].
    rewrite lookup_insert_ne by done. apply F.
  - intros id' g0. destruct (decide (id' = id)) as [->|Hne].
    + rewrite lookup_insert_eq. by intros [= <-].
    + rewrite lookup_insert_ne by done. apply T.
Qed.

Lemma rc_report_ok u s e r : rec_ok r → rec_ok (rc_report u s e r) ∧ goroutines (rc_report u s e r) = goroutines r.
Proof. intros [M L F T]. unfold rc_report. destruct (HasStatusSink _); by split. Qed.

Lemma go_step_ok id i r : rec_ok r → rec_ok (go_step id i r).
Proof.
  intros Hr. unfold go_step. destruct (goroutines r !! id) as [g|] eqn:Eg; [|done]. cbv zeta.
  destruct (Next (g_backoff g)) as [b' wait].
  assert (∀ r' c b, rec_ok r' ∧ goroutines r' = goroutines r → (c = GReturned → g_cancelled g = true) →
    rec_ok (set_go id (mkGo (g_url g) (g_cancelled g) c b) r')) as Hset.
  { intros r' c b [Hr' Eg'] Hc. eapply set_go_ok; [done|by rewrite Eg'|done|done|done]. }
  assert (rec_ok r ∧ goroutines r = goroutines r) as Hid by done.
  assert (∀ u s e r', rec_ok r' ∧ goroutines r' = goroutines r → rec_ok (rc_report u s e r') ∧ goroutines (rc_report u s e r') = goroutines r) as Hrep.
  { intros u s e r' [Hr' Eg']. destruct (rc_report_ok u s e r' Hr') as [? E]. split; [done|congruence]. }
  destruct (g_control g) eqn:Ec; destruct i as [[?|e]| | |[e|]| | | |]; try done;
    try (destruct (g_cancelled g) eqn:Ecc; [|try done]); apply Hset; auto; done.
Qed.

Lemma reconcile_ok desired r : rec_ok r → rec_ok (reconcileOnce desired r).
Proof.
  intros Hr. destruct desired as [[|u us]|e]; simpl; [|by apply apply_desired_ok|done].
  case_bool_decide; [done|by apply apply_desired_ok].
Qed.

Lemma rec_run_ok ops r : rec_ok r → rec_ok (rec_run ops r).
Proof.
  revert r. induction ops as [|o ops IH]; intros r Hr; simpl; [done|]. apply IH.
  destruct o; simpl; [by apply reconcile_ok|by apply go_step_ok|by apply stop_all_ok].
Qed.

(** Relays with a goroutine that is neither cancelled nor done. *)
Definition served (r : reconciler) (u : string) : Prop :=
  ∃ id g, goroutines r !! id = Some g ∧ g_url g = u ∧ g_cancelled g = false ∧ g_control g ≠ GReturned.

(** Reconciliation converges: after any history of reconciliations, drains and
    connection events, a reconciliation with a nonempty desired list leaves
    exactly the relays of that list (in normal form) with a running goroutine, one
    each; relays that were managed before keep theirs; a failing provider, or an
    empty list without fallback, changes nothing. *)
Theorem reconcile_converges (ops : list rec_op) (urls : list string) (e : error) :
  let r := rec_run ops (NewReconciler cfg).2 in
  let r' := reconcileOnce (Ok urls) r in
  urls ≠ [] →
  (∀ u, served r' u ↔ u ∈ desired_set urls) ∧
  (∀ id1 id2 g1 g2, goroutines r' !! id1 = Some g1 → goroutines r' !! id2 = Some g2 →
     g_url g1 = g_url g2 → g_cancelled g1 = false → g_cancelled g2 = false → id1 = id2) ∧
  (∀ u id, u ∈ desired_set urls → managers r !! u = Some id → managers r' !! u = Some id) ∧
  reconcileOnce (Err e) r = r ∧ (FallbackURLs cfg = [] → reconcileOnce (Ok []) r = r).
Proof.
  cbv zeta. intros Hne. set (r := rec_run ops _).
  assert (rec_ok r) as Hr by (apply rec_run_ok, new_reconciler_ok).
  assert (reconcileOnce (Ok urls) r = apply_desired (desired_set urls) r) as E by (by destruct urls).
  destruct (apply_desired_ok (desired_set urls) r Hr) as ([M L F T] & Hdom & Hkeep). rewrite E. split_and!.
  - intros u. transitivity (u ∈ dom (managers (apply_desired (desired_set urls) r))); [|by rewrite Hdom].
    rewrite elem_of_dom. split.
    + intros (id & g & Hg & <- & Hc & _). rewrite (L id g Hg Hc). by eexists.
    + intros [id Hm]. destruct (M u id Hm) as (g & Hg & Hu & Hc). exists id, g. split_and!; try done.
      intros Ht. rewrite (T id g Hg Ht) in Hc. done.
  - intros id1 id2 g1 g2 Hg1 Hg2 Hu Hc1 Hc2. pose proof (L id1 g1 Hg1 Hc1) as H1. pose proof (L id2 g2 Hg2 Hc2) as H2.
    rewrite Hu in H1. congruence.
  - done.
  - done.
  - intros Hf. simpl. by rewrite Hf.
Qed.
End reconciler.

(** * Examples *)

Module RelayExample.

Existing Instance HostExample.toy_parser.
Existing Instance ascii_tables.

Definition toy_clock (n : nat) : time := 1000 + Z.of_nat n.

Definition cfg0 : Config :=
  mkConfig ["wss://A"; "wss://b"] ["wss://a"; "wss://b"] ["wss://B"] 0 0 0 5 true.

Definition started : Config * manager :=
  match NewManager toy_clock cfg0 with Ok r => r | Err _ => (cfg0, mkManager ∅ 0 [] []) end.

(** A refused dial, a connection that goes quiet and recovers, and its loss. *)
Definition eventful : list sys_input :=
  [Loop "wss://a" (InDial (Err "refused")); Loop "wss://a" InWake; Loop "wss://a" (InDial (Ok tt));
   Loop "wss://a" InTick; Progress "wss://b"; Loop "wss://a" InTick; Loop "wss://a" InTick;
   Loop "wss://a" InTick; Loop "wss://a" InTick; Loop "wss://a" InTick; Loop "wss://a" InMessage;
   Loop "wss://a" (InDone None)].

Example eventful_trace :
  rev (trace (s_mgr (sys_run toy_clock started.1 eventful (Start started.1 started.2))))
  = [("wss://a", StateErrored); ("wss://a", StateBackingOff); ("wss://a", StateConnecting);
     ("wss://a", StateHealthy); ("wss://a", StateLagging); ("wss://a", StateHealthy);
     ("wss://a", StateErrored); ("wss://a", StateBackingOff)].
Proof. vm_compute. reflexivity. Qed.

Lemma relay_lifecycle_witness :
  let s := sys_run toy_clock started.1 eventful (Start started.1 started.2) in
  is_Some (Snapshot s !! "wss://a") ∧ ∀ st, Snapshot s !! "wss://a" = Some st → relay_ok started.1 "wss://a" s st.
Proof.
  cbv zeta. split; [vm_compute; by eexists|]. intros st Hst.
  apply (relay_lifecycle toy_clock cfg0 started.1 started.2 eventful "wss://a" st); [|reflexivity|exact Hst].
  vm_compute. reflexivity.
Defined.

Lemma backoff_schedule_witness :
  l_control (loop_run toy_clock started.1 "wss://a" (failing_dials (replicate 6 "refused"))
               (start_loop started.1, started.2)).1 = Sleeping (30 * second).
Proof.
  exact (proj1 (backoff_schedule toy_clock started.1 "wss://a" "refused" (replicate 5 "refused")
    (newBoundedBackoff second (30 * second)) started.2
    ltac:(reflexivity) ltac:(vm_compute; discriminate) ltac:(reflexivity) eq_refl eq_refl eq_refl)).
Defined.

Definition rcfg : ReconcilerConfig := mkRConfig 0 0 ["wss://fallback"] cfg0.

Definition one_then_two : list rec_op :=
  [OpReconcile (Ok ["wss://a"; "nonsense"]); OpGo 0 (InDial (Ok tt)); OpReconcile (Err "down")].

Lemma reconcile_converges_witness :
  let r := reconcileOnce rcfg (Ok ["wss://A"; "wss://c"]) (rec_run rcfg one_then_two (NewReconciler rcfg).2) in
  served r "wss://a" ∧ served r "wss://c".
Proof.
  pose proof (proj1 (reconcile_converges rcfg one_then_two ["wss://A"; "wss://c"] "down" ltac:(discriminate))) as Hs.
  split; apply Hs; vm_compute; reflexivity.
Defined.

(** An empty desired list falls back on the configured relays, a list of
    malformed ones does not: every connection is dropped. *)
Example malformed_desired_drops_all :
  managed_urls (rec_run rcfg [OpReconcile (Ok [])] (NewReconciler rcfg).2) = ["wss://fallback"] ∧
  managed_urls (rec_run rcfg [OpReconcile (Ok []); OpReconcile (Ok ["nonsense"])] (NewReconciler rcfg).2) = [].
Proof. split; vm_compute; reflexivity. Qed.

(** A relay whose stream is cancelled ends without a report: the last status its
    sink was given is healthy. *)
Example cancelled_stream_stays_healthy :
  let r := rec_run rcfg [OpReconcile (Ok ["wss://a"]); OpGo 0 (InDial (Ok tt)); OpDrain; OpGo 0 InCtxDone]
             (NewReconciler rcfg).2 in
  managed_urls r = [] ∧ (g_control <$> goroutines r !! 0%nat) = Some GReturned ∧
  head (rc_reports r) = Some (mkReport "wss://a" StateHealthy "").
Proof. split_and!; vm_compute; reflexivity. Qed.

End RelayExample.
