(* ===== verification/SearchText.v ===== *)
(** The text side of search, [internal/query/search_rank.go]: how a query and a
    note are folded and split into words, the phrase operator, the tests on a
    query or a profile's name, and spelling correction.

    The regular expressions of the file are written out as matchers on code
    points; the case-insensitive ones also match U+017F for [s] and U+212A for
    [k], as Go's do. Letters and digits outside ASCII are the class
    [UnicodeClasses]. *)

From S2P Require Import Prelude GoLib GoNet RelayURL.

(** * Library functions *)

(** The code points of a string with the bytes each was decoded from. *)
Fixpoint spans (l : list Z) : list (Z * list Z) :=
  match l with
  | [] => []
  | a :: l1 =>
      if a <? 128 then (a, [a]) :: spans l1
      else if is_lead2 a then
        match l1 with
        | b :: l2 => if is_cont b then (rune2 a b, [a; b]) :: spans l2
                     else (rune_error, [a]) :: spans l1
        | [] => (rune_error, [a]) :: spans l1
        end
      else if is_lead3 a then
        match l1 with
        | b :: c :: l3 => if second_ok a b && is_cont c then (rune3 a b c, [a; b; c]) :: spans l3
                          else (rune_error, [a]) :: spans l1
        | _ => (rune_error, [a]) :: spans l1
        end
      else if is_lead4 a then
        match l1 with
        | b :: c :: d :: l4 =>
            if second_ok a b && is_cont c && is_cont d then (rune4 a b c d, [a; b; c; d]) :: spans l4
            else (rune_error, [a]) :: spans l1
        | _ => (rune_error, [a]) :: spans l1
        end
      else (rune_error, [a]) :: spans l1
  end.

(** [strings.FieldsFunc]: the maximal runs of code points that are no separator. *)
Fixpoint fields_from (sep : Z → bool) (field : list Z) (l : list (Z * list Z)) : list (list Z) :=
  match l with
  | [] => if bool_decide (field = []) then [] else [field]
  | (r, bs) :: l =>
      if sep r then if bool_decide (field = []) then fields_from sep [] l else field :: fields_from sep [] l
      else fields_from sep (field ++ bs) l
  end.

Definition FieldsFunc (sep : Z → bool) (s : string) : list string :=
  map str (fields_from sep [] (spans (bytes s))).

(** [strings.HasPrefix], [HasSuffix], [TrimPrefix], [TrimSuffix], [Contains]. *)
Definition HasPrefix (s p : string) : bool := has_prefix (bytes p) (bytes s).
Definition HasSuffix (s p : string) : bool := has_prefix (rev (bytes p)) (rev (bytes s)).
Definition TrimPrefix (s p : string) : string :=
  if HasPrefix s p then str (drop (length (bytes p)) (bytes s)) else s.
Definition TrimSuffix (s p : string) : string :=
  if HasSuffix s p then str (take (length (bytes s) - length (bytes p)) (bytes s)) else s.
Definition Contains (s sub : string) : bool := contains (bytes sub) (bytes s).

(** [strings.ContainsAny] and [strings.Trim] of ASCII characters. *)
Definition ContainsAny (s chars : string) : bool :=
  existsb (λ b, existsb (Z.eqb b) (bytes chars)) (bytes s).

Fixpoint trim_left_of (cs l : list Z) : list Z :=
  match l with
  | [] => []
  | b :: l' => if existsb (Z.eqb b) cs then trim_left_of cs l' else l
  end.

Definition Trim (s chars : string) : string :=
  str (rev (trim_left_of (bytes chars) (rev (trim_left_of (bytes chars) (bytes s))))).

(** [strings.ReplaceAll] of one byte by another. *)
Definition replace_byte (a b : Z) (l : list Z) : list Z := map (λ x, if x =? a then b else x) l.

(** [strings.Replace(s, old, new, 1)] of a text that is not empty. *)
Fixpoint replace_first (old new l : list Z) : list Z :=
  if has_prefix old l then new ++ drop (length old) l
  else match l with [] => [] | b :: l => b :: replace_first old new l end.

(** The replacement of the maximal runs of bytes of a class by one byte, which
    is [regexp.ReplaceAllString] of [[class]+]. *)
Fixpoint squeeze (cls : Z → bool) (by_ : Z) (inrun : bool) (l : list Z) : list Z :=
  match l with
  | [] => []
  | b :: l =>
      if cls b then if inrun then squeeze cls by_ true l else by_ :: squeeze cls by_ true l
      else b :: squeeze cls by_ false l
  end.

(** ** Regular expressions *)

(** [\s], and the word characters of [\b]. *)
Definition re_space (b : Z) : bool := (b =? 32) || (b =? 9) || (b =? 10) || (b =? 12) || (b =? 13).
Definition re_word (r : Z) : bool :=
  ((48 <=? r) && (r <=? 57)) || ((65 <=? r) && (r <=? 90)) || ((97 <=? r) && (r <=? 122)) || (r =? 95).

(** A lower-case letter of a case-insensitive pattern against a code point. *)
Definition re_fold (c r : Z) : bool :=
  (ascii_lower r =? c) || ((c =? 107) && (r =? 8490)) || ((c =? 115) && (r =? 383)).

(** What follows the literal [p], when the text begins with it. *)
Fixpoint re_lit (p rs : list Z) : option (list Z) :=
  match p, rs with
  | [], _ => Some rs
  | c :: p, r :: rs => if re_fold c r then re_lit p rs else None
  | _ :: _, [] => None
  end.

Fixpoint skip_spaces (rs : list Z) : list Z :=
  match rs with
  | [] => []
  | r :: rs' => if re_space r then skip_spaces rs' else rs
  end.

(** [MatchString]: the pattern matches at some position. *)
Fixpoint re_search (matches : list Z → bool) (rs : list Z) : bool :=
  matches rs || match rs with [] => false | _ :: rs => re_search matches rs end.

Definition re_lit_then (p : string) (k : list Z → bool) (rs : list Z) : bool :=
  match re_lit (bytes p) rs with Some rs => k rs | None => false end.

Definition head_is (f : Z → bool) (rs : list Z) : bool :=
  match rs with [] => false | r :: _ => f r end.

Definition priceTickerPattern (s : string) : bool :=
  re_search (λ rs,
    re_lit_then "bitcoin price" (λ _, true) rs || re_lit_then "btc price" (λ _, true) rs
    || re_lit_then "sats per usd" (λ _, true) rs
    || re_lit_then "price:" (λ rs, head_is (Z.eqb 36) (skip_spaces rs)) rs
    || re_lit_then "price:" (λ rs, head_is is_digit (skip_spaces rs)) rs) (runes (bytes s)).

Definition blockArtPattern (s : string) : bool :=
  re_search (re_lit_then "block" (λ rs, re_lit_then "art" (λ _, true) (skip_spaces rs))) (runes (bytes s)).

Definition blockRunePattern (s : string) : bool :=
  existsb (λ r, existsb (Z.eqb r) [9608; 9617; 9618; 9619; 9600; 9604; 9612; 9616; 9632; 9633; 9642; 9643])
    (runes (bytes s)).

(** [whitespacePattern.ReplaceAllString(s, " ")] and
    [digitPattern.ReplaceAllString(s, "#")]. *)
Definition whitespacePattern (s : string) : string := str (squeeze re_space 32 false (bytes s)).
Definition digitPattern (s : string) : string := str (squeeze is_digit 35 false (bytes s)).

(** [://\S+] after an optional [s]. *)
Definition after_scheme (rs : list Z) : bool :=
  let tail rs := match re_lit (bytes "://") rs with Some rs => head_is (λ r, negb (re_space r)) rs | None => false end in
  tail rs || match re_lit [115] rs with Some rs => tail rs | None => false end.

Definition url_here (rs : list Z) : bool :=
  re_lit_then "http" after_scheme rs || re_lit_then "ws" after_scheme rs.

(** [urlPattern.ReplaceAllString(s, " ")]: a match starts where no word
    character precedes and goes on to the next white space. *)
Fixpoint replace_urls (prev inurl : bool) (l : list (Z * list Z)) : list Z :=
  match l with
  | [] => []
  | (r, bs) :: l' =>
      if inurl && negb (re_space r) then replace_urls (re_word r) true l'
      else if negb prev && url_here (map fst l) then 32 :: replace_urls (re_word r) true l'
      else bs ++ replace_urls (re_word r) false l'
  end.

Definition urlPattern (s : string) : string := str (replace_urls false false (spans (bytes s))).

(** ** Letters and digits *)

(** [unicode.IsLetter] and [unicode.IsDigit] outside ASCII. *)
Class UnicodeClasses := {
  unicode_letter : Z → bool;
  unicode_digit : Z → bool;
}.

Definition IsLetter `{UnicodeClasses} (r : Z) : bool :=
  if r <? 128 then ((65 <=? r) && (r <=? 90)) || ((97 <=? r) && (r <=? 122)) else unicode_letter r.
Definition IsDigit `{UnicodeClasses} (r : Z) : bool :=
  if r <? 128 then is_digit r else unicode_digit r.

(** * Folding and words *)

Section text.
Context `{UnicodeTables} `{UnicodeClasses}.

Definition foldToken (value : string) : string := to_lower (trim_space value).

Definition foldMatchText (value : string) : string := trim_space (whitespacePattern (to_lower value)).

Definition stripQueryDecorations (raw : string) : string :=
  let value := trim_space raw in
  let value := trim_space (TrimPrefix value "nostr:") in
  let value := TrimPrefix (TrimPrefix value "@") "#" in
  Trim value (str [34]).

Definition words (value : string) : list string :=
  let fields := FieldsFunc (λ r, negb (IsLetter r) && negb (IsDigit r) && negb (r =? 35)) value in
  List.filter (λ field, negb (bool_decide (field = "")))
    (map (λ field, TrimPrefix (TrimPrefix (to_lower field) "#") "#") fields).

Definition queryTerms (raw : string) : list string := words (foldToken raw).

(** * Queries *)

Record ParsedQuery := mkParsed {
  Raw : string;
  Phrases : list string;
  Terms : list string;
  Folded : string;
}.

(** The loop over the code points of the query: whether it ends inside quotes,
    and the phrases closed so far; [b] is the open phrase. *)
Fixpoint scan_phrases (rs : list Z) (inQuote : bool) (b : list Z) (phrases : list string) : bool * list string :=
  match rs with
  | [] => (inQuote, phrases)
  | r :: rs =>
      if r =? 34 then
        if inQuote then
          let phrase := trim_space (str b) in
          let phrases := if bool_decide (phrase = "") then phrases else phrases ++ [whitespacePattern phrase] in
          scan_phrases rs false [] phrases
        else scan_phrases rs true b phrases
      else scan_phrases rs inQuote (if inQuote then b ++ encode_rune r else b) phrases
  end.

Definition unquote (s : string) : string := str (replace_byte 34 32 (bytes s)).

(** [strings.Replace(remainder, quoted phrase, " ", 1)]. *)
Definition drop_phrase (remainder phrase : string) : string :=
  str (replace_first (34 :: bytes phrase ++ [34]) [32] (bytes remainder)).

Definition ParseSearchQuery (raw : string) : ParsedQuery :=
  let raw := trim_space raw in
  if bool_decide (raw = "") then mkParsed raw [] [] (foldToken raw)
  else
    let '(inQuote, phrases) := scan_phrases (runes (bytes raw)) false [] [] in
    let text := if inQuote then unquote raw else raw in
    let phrases := if inQuote then [] else phrases in
    let remainder := unquote (foldl drop_phrase text phrases) in
    let terms := match phrases with [] => queryTerms text | _ => queryTerms remainder end in
    mkParsed raw phrases terms (foldToken raw).

Definition ContentMatchesPhrases (content : string) (phrases : list string) : bool :=
  let folded := foldMatchText content in
  forallb (λ phrase, let needle := foldMatchText phrase in bool_decide (needle = "") || Contains folded needle) phrases.

Definition IsQueryStub (content query : string) : bool :=
  let tokens := words (foldMatchText content) in
  if ((length tokens =? 0) || (2 <? length tokens))%nat then false
  else
    let qtokens := words (foldMatchText (stripQueryDecorations query)) in
    if (length qtokens =? 0)%nat then false
    else
      let allowed := List.filter (λ token, negb (bool_decide (token = ""))) (map (λ token, TrimPrefix token "#") qtokens) in
      forallb (λ token, bool_decide (TrimPrefix token "#" ∈ allowed)) tokens.

Definition is64Hex (value : string) : bool :=
  (go_len value =? 64)
  && forallb (λ r, negb (((r <? 48) || (57 <? r)) && ((r <? 97) || (102 <? r)))) (runes (bytes value)).

Definition has_url_scheme (lower : string) : bool :=
  HasPrefix lower "wss://" || HasPrefix lower "ws://" || HasPrefix lower "https://" || HasPrefix lower "http://".

Definition NameLooksLikeURLOrHex (name display : string) : bool :=
  existsb (λ value,
    let label := trim_space value in
    if bool_decide (label = "") then false
    else has_url_scheme (to_lower label) || is64Hex (to_lower label)) [name; display].

Definition CanonicalRelayHost `{URLParser} (raw : string) : option string :=
  let value := trim_space raw in
  if bool_decide (value = "") || ContainsAny value " @" then None
  else
    let lower := to_lower value in
    if has_url_scheme lower then
      match url_Parse lower with
      | Err _ => None
      | Ok parsed =>
          let host := trim_space (Hostname (PHost parsed)) in
          if bool_decide (host = "") || negb (Contains host ".") then None else Some host
      end
    else
      let host := match SplitHostPort lower with
                  | Some (h, _) => if bool_decide (h = "") then lower else h
                  | None => lower
                  end in
      let host := TrimSuffix host "." in
      if bool_decide (host = "") || negb (Contains host ".") || ContainsAny host "/?#" then None
      else if existsb (λ r, ((r <? 97) || (122 <? r)) && ((r <? 48) || (57 <? r)) && negb (r =? 46) && negb (r =? 45))
                (runes (bytes host))
      then None
      else Some host.

Definition QueryLooksLikePersonName (raw : string) : bool :=
  let tokens := words (foldToken (stripQueryDecorations raw)) in
  if ((length tokens =? 0) || (3 <? length tokens))%nat then false
  else if existsb (λ token,
            (go_len token <? 2) || (24 <? go_len token)
            || existsb (λ r, (r <? 97) || (122 <? r)) (runes (bytes token))) tokens then false
  else match tokens with
       | [token] => negb (bool_decide (token ∈ ["bitcoin"; "nostr"; "btc"; "crypto"; "ethereum"; "lightning"]))
       | _ => true
       end.

Definition containsWholeTerm (content term : string) : bool :=
  let term := foldToken term in
  if bool_decide (term = "") then false
  else existsb (λ word, bool_decide (TrimPrefix word "#" = term)) (words (foldMatchText content)).

Definition ObviousEmptyToken (raw : string) : bool :=
  let term := foldToken (trim_space raw) in
  if (go_len term <? 12) || Contains term " " then false
  else 2 <=? Z.of_nat (length (List.filter (λ r, (48 <=? r) && (r <=? 57)) (runes (bytes term)))).

Definition shouldShortCircuitQuery `{URLParser} (raw : string) : bool :=
  if negb (ObviousEmptyToken raw) then false
  else
    let term := foldToken (trim_space raw) in
    if bool_decide (term = "") || Contains term "." || is64Hex term then false
    else match CanonicalRelayHost raw with Some _ => false | None => true end.

Definition correctionMinQueryLen : Z := 5.
Definition correctionMaxRawDF : Z := 10.
Definition correctionMinTargetDF : Z := 100.
Definition correctionDFMultiple : Z := 8.

Definition QueryResultsWeak (query : string) (contents : list string) (estimatedTotal : Z) : bool :=
  let term := foldToken (stripQueryDecorations query) in
  if bool_decide (term = "") || Contains term " " || Contains query (str [34]) then false
  else if go_len term <? correctionMinQueryLen then false
  else
    let whole := Z.of_nat (length (List.filter (λ content, containsWholeTerm content term) contents)) in
    if (0 <? whole) && (25 <=? estimatedTotal) then false
    else if whole =? 0 then true
    else (estimatedTotal <? correctionMaxRawDF) && (length contents <? 5)%nat.
End text.
