(* ===== verification/SearchDiag.v ===== *)
(** The diagnostics bag of a search request, [internal/readmodel/search_diag.go]:
    timings and corpus estimates of the sections, engine scores, profile signals,
    and the decisions that are taken once per request (the correction of the
    query, and whether it is an obvious miss).

    A request without a bag is [None] where the bag is used; every operation of
    the source is then a no-op. *)

From S2P Require Import Prelude GoLib GoFloat.

Record ProfileSearchSignal := mkSignal {
  SPubkey : string;
  SName : string;
  SDisplayName : string;
  SNIP05 : string;
  SFollowerCount : Z;
  SRecentPostCount : Z;
  SRecentActivityAt : option Z;
  SBot : bool;
}.

Record SearchSectionStat := mkStat {
  Duration : Z;
  EstimatedTotal : Z;
  TotalIsEstimate : bool;
  SectionError : string;
}.

Definition no_stat : SearchSectionStat := mkStat 0 0 false "".

(** The named sections. *)
Inductive section_name := SecNotes | SecProfiles | SecHashtags | SecRelays | SecSuggest.

Definition section (name : string) : option section_name :=
  if bool_decide (name = "notes") then Some SecNotes
  else if bool_decide (name = "profiles") then Some SecProfiles
  else if bool_decide (name = "hashtags") then Some SecHashtags
  else if bool_decide (name = "relays") then Some SecRelays
  else if bool_decide (name = "suggest") then Some SecSuggest
  else None.

Record SearchDiagnostics := mkDiag {
  Sections : section_name → SearchSectionStat;
  NoteEngineScore : gmap string f64;
  ProfileSignals : gmap string ProfileSearchSignal;
  HashtagFrequency : Z;
  CorrectedQuery : string;
  CorrectionApplied : bool;
  CorrectionChecked : bool;
  SurfaceErrors : gmap string string;
  obviousMiss : bool;
  obviousMissChecked : bool;
}.

#[export] Instance section_name_eq_dec : EqDecision section_name.
Proof. solve_decision. Defined.

Definition new_diag : SearchDiagnostics := mkDiag (λ _, no_stat) ∅ ∅ 0 "" false false ∅ false false.

(** * Updates of one field *)

Definition set_section (name : section_name) (stat : SearchSectionStat) (d : SearchDiagnostics) : SearchDiagnostics :=
  mkDiag (λ n, if decide (n = name) then stat else Sections d n) (NoteEngineScore d) (ProfileSignals d) (HashtagFrequency d)
    (CorrectedQuery d) (CorrectionApplied d) (CorrectionChecked d) (SurfaceErrors d) (obviousMiss d) (obviousMissChecked d).

Definition set_scores (scores : gmap string f64) (d : SearchDiagnostics) : SearchDiagnostics :=
  mkDiag (Sections d) scores (ProfileSignals d) (HashtagFrequency d)
    (CorrectedQuery d) (CorrectionApplied d) (CorrectionChecked d) (SurfaceErrors d) (obviousMiss d) (obviousMissChecked d).

Definition set_signals (signals : gmap string ProfileSearchSignal) (d : SearchDiagnostics) : SearchDiagnostics :=
  mkDiag (Sections d) (NoteEngineScore d) signals (HashtagFrequency d)
    (CorrectedQuery d) (CorrectionApplied d) (CorrectionChecked d) (SurfaceErrors d) (obviousMiss d) (obviousMissChecked d).

(** * Operations *)

Definition AddDuration (name : string) (elapsed : Z) (d : SearchDiagnostics) : SearchDiagnostics :=
  match section name with
  | None => d
  | Some n => let stat := Sections d n in
              set_section n (mkStat (i64 (Duration stat + elapsed)) (EstimatedTotal stat) (TotalIsEstimate stat) (SectionError stat)) d
  end.

Definition ObserveTotal (name : string) (total : Z) (estimate : bool) (d : SearchDiagnostics) : SearchDiagnostics :=
  if total <=? 0 then d
  else match section name with
       | None => d
       | Some n =>
           let stat := Sections d n in
           set_section n (mkStat (Duration stat) (if EstimatedTotal stat <? total then total else EstimatedTotal stat)
                            (estimate || TotalIsEstimate stat) (SectionError stat)) d
       end.

(** [msg] is the text of an error that is not nil. *)
Definition SetSectionError (name msg : string) (d : SearchDiagnostics) : SearchDiagnostics :=
  let d := match section name with
           | None => d
           | Some n => let stat := Sections d n in
                       set_section n (mkStat (Duration stat) (EstimatedTotal stat) (TotalIsEstimate stat) msg) d
           end in
  mkDiag (Sections d) (NoteEngineScore d) (ProfileSignals d) (HashtagFrequency d)
    (CorrectedQuery d) (CorrectionApplied d) (CorrectionChecked d) (<[name := msg]> (SurfaceErrors d)) (obviousMiss d) (obviousMissChecked d).

Definition ObserveNoteScore (id : string) (score : f64) (d : SearchDiagnostics) : SearchDiagnostics :=
  if bool_decide (id = "") || f64_le score (f64_of_Z 0) then d
  else match NoteEngineScore d !! id with
       | Some prev => if f64_lt prev score then set_scores (<[id := score]> (NoteEngineScore d)) d else d
       | None => set_scores (<[id := score]> (NoteEngineScore d)) d
       end.

Definition NoteScore (id : string) (d : SearchDiagnostics) : f64 :=
  if bool_decide (id = "") then f64_of_Z 0 else default (f64_of_Z 0) (NoteEngineScore d !! id).

Definition PutProfileSignal (signal : ProfileSearchSignal) (d : SearchDiagnostics) : SearchDiagnostics :=
  if bool_decide (SPubkey signal = "") then d else set_signals (<[SPubkey signal := signal]> (ProfileSignals d)) d.

Definition ProfileSignal (pubkey : string) (d : SearchDiagnostics) : option ProfileSearchSignal :=
  if bool_decide (pubkey = "") then None else ProfileSignals d !! pubkey.

Definition SetHashtagFrequency (count : Z) (d : SearchDiagnostics) : SearchDiagnostics :=
  if count <=? 0 then d
  else if HashtagFrequency d <? count
  then mkDiag (Sections d) (NoteEngineScore d) (ProfileSignals d) count
         (CorrectedQuery d) (CorrectionApplied d) (CorrectionChecked d) (SurfaceErrors d) (obviousMiss d) (obviousMissChecked d)
  else d.

(** Whether the correction is recorded, and the bag after. *)
Definition MarkCorrection (corrected : string) (d : SearchDiagnostics) : bool * SearchDiagnostics :=
  if CorrectionChecked d then (false, d)
  else
    let applied := negb (bool_decide (corrected = "")) in
    (applied,
     mkDiag (Sections d) (NoteEngineScore d) (ProfileSignals d) (HashtagFrequency d)
       (if applied then corrected else CorrectedQuery d) (applied || CorrectionApplied d) true
       (SurfaceErrors d) (obviousMiss d) (obviousMissChecked d)).

Definition SetObviousMiss (miss : bool) (d : SearchDiagnostics) : SearchDiagnostics :=
  if obviousMissChecked d then d
  else mkDiag (Sections d) (NoteEngineScore d) (ProfileSignals d) (HashtagFrequency d)
         (CorrectedQuery d) (CorrectionApplied d) (CorrectionChecked d) (SurfaceErrors d) miss true.

Definition ObviousMiss (d : SearchDiagnostics) : bool * bool := (obviousMiss d, obviousMissChecked d).

Definition CorrectionAlreadyChecked (d : SearchDiagnostics) : bool := CorrectionChecked d.

(** The copy for logs and responses leaves the engine scores out. *)
Definition Snapshot (d : SearchDiagnostics) : SearchDiagnostics := set_scores ∅ d.

(** * Decisions are taken once *)

(** What any operation leaves of a decision that was taken. *)
Lemma correction_sticks corrected d :
  CorrectionChecked d = true → MarkCorrection corrected d = (false, d).
Proof. unfold MarkCorrection. by intros ->. Qed.

Lemma miss_sticks miss d : obviousMissChecked d = true → SetObviousMiss miss d = d.
Proof. unfold SetObviousMiss. by intros ->. Qed.
