(* ===== verification/SearchSpell.v ===== *)
(** Spelling correction of search queries: edit distance and neighbourhoods
    ([internal/query/search_rank.go]), the choice of a correction, the lookup of
    document frequencies ([internal/store/read/search_signals.go]) and the part of
    the search service that applies a correction once per request
    ([internal/query/search_apply.go]).

    The distance is proved to be the least cost of an edit script, a single
    swap of neighbours costing one; the neighbourhood to be the words at distance
    one; the correction to be the most frequent of them. *)

From S2P Require Import Prelude GoLib GoNet RelayURL Db SearchText SearchDiag.

Local Open Scope go_scope.

(** * Edit distance *)

(** The row of [cur] after its first cell: [prev] begins at the diagonal, [left]
    is the cell to the left. *)
Fixpoint dp_cells (x : Z) (br prev : list Z) (left : Z) : list Z :=
  match br, prev with
  | y :: br, diag :: (up :: _) as prev' =>
      let cost := if x =? y then 0 else 1 in
      let del := up + 1 in
      let ins := left + 1 in
      let sub := diag + cost in
      let best := del in
      let best := if ins <? best then ins else best in
      let best := if sub <? best then sub else best in
      best :: dp_cells x br prev' best
  | _, _ => []
  end.

Definition dp_row (i x : Z) (br prev : list Z) : list Z := i :: dp_cells x br prev i.

Definition row_min (row : list Z) : Z :=
  match row with [] => 0 | c :: row => foldl (λ m best, if best <? m then best else m) c row end.

(** The loop over [ar]: the last row, or [None] after a row above the maximum. *)
Fixpoint dp_rows (maxDistance i : Z) (ar br prev : list Z) : option (list Z) :=
  match ar with
  | [] => Some prev
  | x :: ar =>
      let cur := dp_row i x br prev in
      if maxDistance <? row_min cur then None else dp_rows maxDistance (i + 1) ar br cur
  end.

(** The scan for the first difference, which must be one swap of neighbours. *)
Fixpoint isAdjacentTransposition (a b : list Z) : bool :=
  match a, b with
  | x :: a, y :: b =>
      if x =? y then isAdjacentTransposition a b
      else match a, b with
           | x' :: a, y' :: b => (x =? y') && (x' =? y) && bool_decide (a = b)
           | _, _ => false
           end
  | _, _ => false
  end.

Definition damerauDistance (a b : string) (maxDistance : Z) : Z :=
  if bool_decide (a = b) then 0
  else
    let ar := runes (bytes a) in
    let br := runes (bytes b) in
    if maxDistance <? Z.abs (Z.of_nat (length ar) - Z.of_nat (length br)) then maxDistance + 1
    else
      match dp_rows maxDistance 1 ar br (seqZ 0 (Z.of_nat (length br) + 1)) with
      | None => maxDistance + 1
      | Some prev =>
          if isAdjacentTransposition ar br then 1
          else
            let dist := List.last prev 0 in
            if maxDistance <? dist then maxDistance + 1 else dist
      end.

(** * Neighbourhoods *)

Definition letters : list Z := seqZ 97 26.

(** [add] of [edits1] and [Edits]: a value that is neither empty nor the term
    nor known is appended. *)
Definition add_edit (term : string) (out : list string) (value : string) : list string :=
  if bool_decide (value = "") || bool_decide (value = term) || bool_decide (value ∈ out) then out
  else out ++ [value].

Definition of_runes (rs : list Z) : string := str (encode_runes rs).

(** The edits at position [i], in the order the loops produce them. *)
Definition edits_at (rs : list Z) (i : nat) : list (list Z) :=
  let left := take i rs in
  let right := drop (S i) rs in
  [left ++ right]
  ++ match drop i rs with x :: y :: rest => [left ++ [y; x] ++ rest] | _ => [] end
  ++ map (λ letter, left ++ [letter] ++ right) letters.

Definition inserts_at (rs : list Z) (i : nat) : list (list Z) :=
  map (λ letter, take i rs ++ [letter] ++ drop i rs) letters.

Definition edits1 (term : string) : list string :=
  let rs := runes (bytes term) in
  let values := flat_map (edits_at rs) (seq 0 (length rs)) ++ flat_map (inserts_at rs) (seq 0 (S (length rs))) in
  foldl (add_edit term) [] (map of_runes values).

(** The inner loop over [edits1(value)], which stops at 1500 values. *)
Fixpoint add_capped (term : string) (out nexts : list string) : list string :=
  match nexts with
  | [] => out
  | next :: nexts =>
      let out := add_edit term out next in
      if (1500 <=? length out)%nat then out else add_capped term out nexts
  end.

Fixpoint edits2 (term : string) (out first : list string) : list string :=
  match first with
  | [] => out
  | value :: first =>
      if (1500 <=? length out)%nat then out
      else if 1 <? Z.abs (go_len value - go_len term) then edits2 term out first
      else edits2 term (add_capped term out (edits1 value)) first
  end.

Section spelling.
Context `{UnicodeTables} `{UnicodeClasses}.

Definition Edits (term : string) (distance : Z) : list string :=
  let term := foldToken term in
  if bool_decide (term = "") || (distance <=? 0) then []
  else
    let distance := if 2 <? distance then 2 else distance in
    let first := edits1 term in
    if distance =? 1 then first
    else
      let out := foldl (add_edit term) [] first in
      if (go_len term <? 6) || (12 <? go_len term) then out
      else edits2 term out first.

(** * The choice *)

Record TermFrequency := mkTF {
  Term : string;
  DocumentFrequency : Z;
}.

(** The first loop: the distances of the entries that are frequent and near
    enough, by folded term. *)
Definition near_entry (term : string) (rawDF : Z) (candidate : TermFrequency) : option Z :=
  let neighbor := foldToken (Term candidate) in
  if bool_decide (neighbor = "") || bool_decide (neighbor = term) then None
  else if DocumentFrequency candidate <? correctionMinTargetDF then None
  else if (0 <? rawDF) && (DocumentFrequency candidate <? i64 (rawDF * correctionDFMultiple)) then None
  else
    let distance := damerauDistance term neighbor 2 in
    if (distance <=? 0) || (2 <? distance) then None
    else if (go_len term <? 8) && (1 <? distance) then None
    else Some distance.

Definition raw_distances (term : string) (rawDF : Z) (lexicon : list TermFrequency) : gmap string Z :=
  foldl (λ m candidate, match near_entry term rawDF candidate with
                        | Some d => <[foldToken (Term candidate) := d]> m
                        | None => m
                        end) ∅ lexicon.

Record choice := mkChoice {
  c_term : string;
  c_df : Z;
  c_distance : Z;
}.

Definition better (c b : choice) : bool :=
  (c_df b <? c_df c)
  || ((c_df c =? c_df b) && (c_distance c <? c_distance b))
  || ((c_df c =? c_df b) && (c_distance c =? c_distance b) && String.ltb (c_term c) (c_term b)).

Definition pick (rawDistance : gmap string Z) (best : option choice) (candidate : TermFrequency) : option choice :=
  let neighbor := foldToken (Term candidate) in
  match rawDistance !! neighbor with
  | None => best
  | Some distance =>
      let c := mkChoice neighbor (DocumentFrequency candidate) distance in
      match best with
      | None => Some c
      | Some b => if better c b then Some c else best
      end
  end.

Definition ChooseCorrection (raw : string) (rawDF : Z) (weak : bool) (lexicon : list TermFrequency) : option string :=
  let term := foldToken (stripQueryDecorations raw) in
  if negb weak || bool_decide (term = "") || Contains term " " || Contains raw (str [34]) then None
  else if (go_len term <? correctionMinQueryLen) || (correctionMaxRawDF <=? rawDF) then None
  else c_term <$> foldl (pick (raw_distances term rawDF lexicon)) None lexicon.

(** * Document frequencies *)

(** The hashtag rows of [search_documents]: popularity by [entity_id], as the
    [bigint] the statement casts it to. *)
Record search_tables := mkSearch {
  hashtag_documents : gmap string Z;
}.

(** The terms asked for: trimmed, lower-case, distinct, at most 1500. *)
Fixpoint clean_terms (cleaned terms : list string) : list string :=
  match terms with
  | [] => cleaned
  | term :: terms =>
      let term := to_lower (trim_space (TrimPrefix term "#")) in
      if bool_decide (term = "") || bool_decide (term ∈ cleaned) then clean_terms cleaned terms
      else
        let cleaned := cleaned ++ [term] in
        if (1500 <=? length cleaned)%nat then cleaned else clean_terms cleaned terms
  end.

Definition count_row (out : gmap string Z) (row : string * Z) : gmap string Z :=
  let term := to_lower (trim_space row.1) in
  if bool_decide (term = "") || (row.2 <=? 0) then out
  else if default 0 (out !! term) <? row.2 then <[term := row.2]> out else out.

Context `{MapRange} `{URLParser}.

Definition HashtagDocumentFrequencies (terms : list string) : go (db search_tables) (gmap string Z) :=
  let cleaned := clean_terms [] terms in
  match cleaned with
  | [] => go_ret ∅
  | _ =>
      rows <- go_wrap "hashtag document frequencies" (query (λ t,
        map (λ row : string * Z, (row.1, Z.max row.2 0))
          (map_range (filter (λ row : string * Z, row.1 ∈ cleaned) (hashtag_documents t)))));;
      go_ret (foldl count_row ∅ rows)
  end.

(** * Requests *)

(** A request reads the tables and may carry diagnostics. *)
Record request := mkRequest {
  store : db search_tables;
  diag : option SearchDiagnostics;
}.

Definition with_diag (f : SearchDiagnostics → SearchDiagnostics) : go request unit :=
  go_modify (λ s, mkRequest (store s) (f <$> diag s)).

(** * Correcting a query *)

(** Whether the reader offers document frequencies. *)
Variable hasFrequencies : bool.

(** Errors of the lookup, timeouts included, yield an empty map. *)
Definition lookupHashtagFreqs (terms : list string) : go request (gmap string Z) := λ s,
  if negb hasFrequencies || (length terms =? 0)%nat then (s, Ok ∅)
  else
    let '(store', r) := HashtagDocumentFrequencies terms (store s) in
    (mkRequest store' (diag s), Ok (match r with Ok freqs => freqs | Err _ => ∅ end)).

Definition noteHashtagFloor (df : Z) : go request unit :=
  if df <=? 0 then go_ret tt
  else with_diag (SetHashtagFrequency df);; with_diag (ObserveTotal "notes" df true).

Definition freq (freqs : gmap string Z) (term : string) : Z := default 0 (freqs !! term).

Definition chooseQueryCorrection (raw : string) : go request (option string) :=
  let parsed := ParseSearchQuery raw in
  match Phrases parsed, Terms parsed with
  | [], [t] =>
      let term := TrimPrefix (foldToken t) "#" in
      if bool_decide (term = "") || Contains term "." || is64Hex term || (32 <? go_len term) then go_ret None
      else
        match CanonicalRelayHost raw with
        | Some _ => go_ret None
        | None =>
            let distance := if 8 <=? go_len term then 2 else 1 in
            let candidates := term :: (if correctionMinQueryLen <=? go_len term then Edits term distance else []) in
            freqs <- lookupHashtagFreqs candidates;;
            noteHashtagFloor (freq freqs term);;
            if go_len term <? correctionMinQueryLen then go_ret None
            else
              let lexicon := map (λ e : string * Z, mkTF e.1 e.2) (map_range freqs) in
              match ChooseCorrection raw (freq freqs term) true lexicon with
              | None => go_ret None
              | Some corrected => noteHashtagFloor (freq freqs corrected);; go_ret (Some corrected)
              end
        end
  | _, _ => go_ret None
  end.

Definition prepareQuery (raw : string) : go request string :=
  let raw := trim_space raw in
  checked <- go_get (λ s, match diag s with Some d => CorrectionAlreadyChecked d | None => false end);;
  if checked : bool then go_ret raw
  else
    r <- chooseQueryCorrection raw;;
    with_diag (λ d, (MarkCorrection (default "" r) d).2);;
    go_ret (default raw r).

(** * Queries that match nothing *)

Definition noHashtagPostings (raw : string) : go request bool := λ s,
  if negb hasFrequencies then (s, Ok false)
  else
    let term := TrimPrefix (foldToken (trim_space raw)) "#" in
    if bool_decide (term = "") then (s, Ok false)
    else
      let '(store', r) := HashtagDocumentFrequencies [term] (store s) in
      (mkRequest store' (diag s), Ok (match r with Ok freqs => freq freqs term =? 0 | Err _ => false end)).

Definition queryIsObviousMiss (raw : string) : go request bool := λ s,
  match ObviousMiss <$> diag s with
  | Some (miss, true) => (s, Ok miss)
  | _ =>
      (if negb (shouldShortCircuitQuery raw) then with_diag (SetObviousMiss false);; go_ret false
       else miss <- noHashtagPostings raw;; with_diag (SetObviousMiss miss);; go_ret miss) s
  end.
End spelling.

(** * Edit scripts *)

(** [edit n a b]: [n] substitutions, deletions and insertions turn [a] into [b]. *)
Inductive edit {A} : nat → list A → list A → Prop :=
| edit_nil : edit 0 [] []
| edit_keep n x a b : edit n a b → edit n (x :: a) (x :: b)
| edit_sub n x y a b : edit n a b → edit (S n) (x :: a) (y :: b)
| edit_del n x a b : edit n a b → edit (S n) (x :: a) b
| edit_ins n y a b : edit n a b → edit (S n) a (y :: b).

#[local] Hint Constructors edit : core.

(** The least number of edits. *)
Definition distance_is {A} (a b : list A) (n : Z) : Prop :=
  (∃ k, n = Z.of_nat k ∧ edit k a b) ∧ ∀ m, edit m a b → n ≤ Z.of_nat m.

(** [a] and [b] differ by one swap of two neighbours. *)
Definition swapped {A} (a b : list A) : Prop :=
  ∃ p x y q, x ≠ y ∧ a = p ++ x :: y :: q ∧ b = p ++ y :: x :: q.

Section scripts.
Context {A : Type}.
Implicit Types (a b : list A).

Lemma edit_refl a : edit 0 a a.
Proof. induction a; auto. Qed.

Lemma edit_app n m a b a' b' : edit n a b → edit m a' b' → edit (n + m) (a ++ a') (b ++ b').
Proof. induction 1; intros; simpl; auto. Qed.

Lemma edit_rev n a b : edit n a b → edit n (rev a) (rev b).
Proof.
  induction 1; simpl; [auto|..].
  - rewrite <-(Nat.add_0_r n). by apply edit_app; auto.
  - rewrite <-Nat.add_1_r. by apply edit_app; auto.
  - rewrite <-(app_nil_r (rev b)), <-Nat.add_1_r. by apply edit_app; auto.
  - rewrite <-(app_nil_r (rev a)), <-Nat.add_1_r. by apply edit_app; auto.
Qed.

(** The last step of a script. *)
Lemma edit_snoc_inv n a b x y :
  edit n (a ++ [x]) (b ++ [y]) →
  (x = y ∧ edit n a b) ∨ ∃ m, n = S m ∧ (edit m a b ∨ edit m a (b ++ [y]) ∨ edit m (a ++ [x]) b).
Proof.
  intros E%edit_rev. rewrite !rev_app_distr in E. cbn [rev app] in E.
  assert (∀ k (l l' : list A), edit k (rev l) l' → edit k l (rev l')) as R1.
  { intros k l l' E'%edit_rev. by rewrite rev_involutive in E'. }
  assert (∀ k (l l' : list A), edit k (rev l) (rev l') → edit k l l') as R2.
  { intros k l l' E'%R1. by rewrite rev_involutive in E'. }
  inversion E as [|? ? ? ? E'|? ? ? ? ? E'|? ? ? ? E'|? ? ? ? E']; subst.
  - left. auto.
  - right. eauto.
  - right. eexists. split; [done|]. right. left. apply R2. by rewrite rev_app_distr.
  - right. eexists. split; [done|]. right. right. apply R2. by rewrite rev_app_distr.
Qed.

Lemma edit_length n a b : edit n a b → Z.abs (Z.of_nat (length a) - Z.of_nat (length b)) ≤ Z.of_nat n.
Proof. induction 1; simpl; lia. Qed.

Lemma edit_nil_l n b : edit n [] b → n = length b.
Proof. remember [] as a eqn:Ea. induction 1; simplify_eq; simpl; auto. Qed.

(** A script passes through every row of the table within its cost. *)
Lemma edit_prefix n a b i : edit n a b → ∃ j m, (m ≤ n)%nat ∧ (j ≤ length b)%nat ∧ edit m (take i a) (take j b).
Proof.
  intros E. revert i. induction E as [|n x a b E IH|n x y a b E IH|n x a b E IH|n y a b E IH]; intros i.
  - exists 0%nat, 0%nat. destruct i; simpl; auto.
  - destruct i as [|i]; [exists 0%nat, 0%nat; simpl; repeat split; auto; lia|].
    destruct (IH i) as (j & m & ? & ? & ?). exists (S j), m. simpl. repeat split; auto; lia.
  - destruct i as [|i]; [exists 0%nat, 0%nat; simpl; repeat split; auto; lia|].
    destruct (IH i) as (j & m & ? & ? & ?). exists (S j), (S m). simpl. repeat split; auto; lia.
  - destruct i as [|i]; [exists 0%nat, 0%nat; simpl; repeat split; auto; lia|].
    destruct (IH i) as (j & m & ? & ? & ?). exists j, (S m). simpl. repeat split; auto; lia.
  - destruct (IH i) as (j & m & ? & ? & ?). exists (S j), (S m). simpl. repeat split; auto; lia.
Qed.

Lemma edit_del_last n a b x : edit n a b → edit (S n) (a ++ [x]) b.
Proof. intros E. rewrite <-(app_nil_r b), <-Nat.add_1_r. by apply edit_app; auto. Qed.

Lemma edit_ins_last n a b y : edit n a b → edit (S n) a (b ++ [y]).
Proof. intros E. rewrite <-(app_nil_r a), <-Nat.add_1_r. by apply edit_app; auto. Qed.

Lemma distance_nil_l b : distance_is [] b (Z.of_nat (length b)).
Proof.
  split; [|by intros m ->%edit_nil_l]. exists (length b). split; [done|]. induction b; simpl; auto.
Qed.

Lemma distance_nil_r a : distance_is a [] (Z.of_nat (length a)).
Proof.
  split; [|intros m E%edit_length; simpl in E; lia]. exists (length a). split; [done|]. induction a; simpl; auto.
Qed.

(** The recurrence of the table. *)
Lemma distance_step a b x y (cost del ins sub : Z) :
  cost = 1 ∨ cost = 0 ∧ x = y → (cost = 1 → x ≠ y) →
  distance_is a (b ++ [y]) del → distance_is (a ++ [x]) b ins → distance_is a b sub →
  distance_is (a ++ [x]) (b ++ [y]) (Z.min (Z.min (del + 1) (ins + 1)) (sub + cost)).
Proof.
  intros Hc Hc1 [(d & -> & Ed) Ld] [(i & -> & Ei) Li] [(s & -> & Es) Ls].
  assert (∃ k, Z.of_nat s + cost = Z.of_nat k ∧ edit k (a ++ [x]) (b ++ [y])) as (k & Ek & Hk).
  { destruct Hc as [->|[-> ->]].
    - exists (s + 1)%nat. split; [lia|]. apply edit_app; auto.
    - exists (s + 0)%nat. split; [lia|]. apply edit_app; auto. }
  split.
  - destruct (Z.le_gt_cases (Z.min (Z.of_nat d + 1) (Z.of_nat i + 1)) (Z.of_nat s + cost)).
    + destruct (Z.le_gt_cases (Z.of_nat d) (Z.of_nat i)).
      * exists (S d). split; [lia|]. by apply edit_del_last.
      * exists (S i). split; [lia|]. by apply edit_ins_last.
    + exists k. split; [lia|done].
  - intros m [[-> E]|(m' & -> & [E|[E|E]])]%edit_snoc_inv.
    + specialize (Ls _ E). destruct Hc as [Hc|[-> _]]; [by destruct (Hc1 Hc)|lia].
    + specialize (Ls _ E). destruct Hc as [->|[-> _]]; lia.
    + specialize (Ld _ E). lia.
    + specialize (Li _ E). lia.
Qed.

Lemma distance_unique a b n m : distance_is a b n → distance_is a b m → n = m.
Proof.
  intros [(k & -> & Ek) Hk] [(j & -> & Ej) Hj]. specialize (Hk _ Ej). specialize (Hj _ Ek). lia.
Qed.

Lemma distance_nonneg a b n : distance_is a b n → 0 ≤ n.
Proof. intros [(k & -> & _) _]. lia. Qed.
End scripts.

(** * The table *)

(** The cells of a row are the distances of the prefixes of [br] from [a],
    those after [b]. *)
Definition row_from (a b br : list Z) (row : list Z) : Prop :=
  length row = length br ∧ ∀ j c, row !! j = Some c → distance_is a (b ++ take (S j) br) c.

Lemma dp_cells_from a b br x prev left :
  (∃ diag rest, prev = diag :: rest ∧ distance_is a b diag ∧ row_from a b br rest) →
  distance_is (a ++ [x]) b left → row_from (a ++ [x]) b br (dp_cells x br prev left).
Proof.
  revert b prev left. induction br as [|y br IH]; intros b prev left (diag & rest & -> & Hdiag & Hlen & Hrest) Hleft.
  { split; [done|]. intros j c Hj. by destruct j. }
  destruct rest as [|up rest]; [done|]. cbn [dp_cells].
  pose proof (Hrest 0%nat up eq_refl) as Hup. cbn [take] in Hup.
  set (best := if _ : bool then _ else _).
  assert (distance_is (a ++ [x]) (b ++ [y]) best) as Hbest.
  { replace best with (Z.min (Z.min (up + 1) (left + 1)) (diag + if x =? y then 0 else 1)).
    - apply distance_step; try done; destruct (Z.eqb_spec x y); auto; lia.
    - subst best. cbv zeta. repeat (case_match; bool_simpl); lia. }
  assert (row_from (a ++ [x]) (b ++ [y]) br (dp_cells x br (up :: rest) best)) as [Hl Hr].
  { apply IH; [|done]. exists up, rest. split; [done|]. split; [done|]. split; [by injection Hlen|].
    intros j c Hj. specialize (Hrest (S j) c Hj). rewrite <-app_assoc. exact Hrest. }
  split; [simpl; by rewrite Hl|]. intros [|j] c Hj; simpl in Hj.
  - injection Hj as <-. done.
  - specialize (Hr j c Hj). rewrite <-app_assoc in Hr. exact Hr.
Qed.

(** A whole row: cell [j] is the distance to the first [j] code points. *)
Definition row_ok (a br row : list Z) : Prop :=
  length row = S (length br) ∧ ∀ j c, row !! j = Some c → distance_is a (take j br) c.

Lemma row_ok_cells a br c row : row_ok a br (c :: row) ↔ distance_is a [] c ∧ row_from a [] br row.
Proof.
  split.
  - intros [Hl Hr]. split; [apply (Hr 0%nat c eq_refl)|]. split; [by injection Hl|].
    intros j d Hj. by apply (Hr (S j) d).
  - intros [Hc [Hl Hr]]. split; [simpl; by rewrite Hl|]. intros [|j] d Hj; [by injection Hj as <-|by apply Hr].
Qed.

Lemma dp_row_ok a br x prev :
  row_ok a br prev → row_ok (a ++ [x]) br (dp_row (Z.of_nat (length a) + 1) x br prev).
Proof.
  intros Hp. destruct prev as [|diag rest]; [by destruct Hp|]. apply row_ok_cells in Hp as [Hd Hr].
  assert (distance_is (a ++ [x]) [] (Z.of_nat (length a) + 1)) as Hi.
  { replace (Z.of_nat (length a) + 1) with (Z.of_nat (length (a ++ [x]))) by (rewrite length_app; simpl; lia).
    apply distance_nil_r. }
  apply row_ok_cells. split; [done|]. apply dp_cells_from; eauto 6.
Qed.

Lemma first_row_ok br : row_ok [] br (seqZ 0 (Z.of_nat (length br) + 1)).
Proof.
  split; [rewrite length_seqZ; lia|]. intros j c [-> Hj]%lookup_seqZ.
  replace (0 + Z.of_nat j) with (Z.of_nat (length (take j br))) by (rewrite length_take; lia).
  apply distance_nil_l.
Qed.

Lemma row_min_le row : ∀ c, c ∈ row → row_min row ≤ c.
Proof.
  destruct row as [|c row]; [by intros ? ?%elem_of_nil|]. unfold row_min.
  revert c. induction row as [|d row IH]; intros c e; simpl.
  - intros ->%list_elem_of_singleton. done.
  - intros He. specialize (IH (if d <? c then d else c)).
    assert (foldl (λ m best, if best <? m then best else m) (if d <? c then d else c) row ≤ if d <? c then d else c) as Hm
      by (apply IH; left).
    apply elem_of_cons in He as [->|[->|He]%elem_of_cons].
    + destruct (Z.ltb_spec d c); lia.
    + destruct (Z.ltb_spec d c); lia.
    + apply IH. by right.
Qed.

(** The loop yields the last row, unless every script costs more than the
    maximum. *)
Lemma dp_rows_ok k a ar br prev :
  row_ok a br prev →
  match dp_rows k (Z.of_nat (length a) + 1) ar br prev with
  | Some row => row_ok (a ++ ar) br row
  | None => ∀ n, edit n (a ++ ar) br → k < Z.of_nat n
  end.
Proof.
  revert a prev. induction ar as [|x ar IH]; intros a prev Hp; cbn [dp_rows]; cbv zeta.
  { by rewrite app_nil_r. }
  pose proof (dp_row_ok _ _ x _ Hp) as Hrow. destruct (Z.ltb_spec k (row_min (dp_row (Z.of_nat (length a) + 1) x br prev))) as [Hk|Hk].
  - intros n E. destruct (edit_prefix _ _ _ (S (length a)) E) as (j & m & Hm & Hj & Em).
    replace (take (S (length a)) (a ++ x :: ar)) with (a ++ [x]) in Em
      by (rewrite take_app_ge by lia; by replace (S (length a) - length a)%nat with 1%nat by lia).
    destruct Hrow as [Hl Hr].
    destruct (lookup_lt_is_Some_2 (dp_row (Z.of_nat (length a) + 1) x br prev) j) as [c Hc]; [lia|].
    destruct (Hr j c Hc) as [_ Hleast]. specialize (Hleast _ Em).
    pose proof (row_min_le _ c (list_elem_of_lookup_2 _ _ _ Hc)). lia.
  - specialize (IH (a ++ [x]) _ Hrow). rewrite length_app in IH. simpl in IH.
    replace (Z.of_nat (length a + 1) + 1) with (Z.of_nat (length a) + 1 + 1) in IH by lia.
    by rewrite <-app_assoc in IH.
Qed.

Lemma row_ok_last a br row : row_ok a br row → distance_is a br (List.last row 0).
Proof.
  intros [Hl Hr]. destruct (lookup_lt_is_Some_2 row (length br)) as [c Hc]; [lia|].
  assert (List.last row 0 = c) as ->.
  { rewrite <-(take_drop_middle row _ c Hc). 
    assert (drop (S (length br)) row = []) as -> by (apply drop_ge; lia). by rewrite last_last. }
  specialize (Hr _ _ Hc). by rewrite firstn_all in Hr.
Qed.

Lemma swapped_spec a b : isAdjacentTransposition a b = true ↔ swapped a b.
Proof.
  split.
  - revert b. induction a as [|x a IH]; intros [|y b]; simpl; try done.
    destruct (Z.eqb_spec x y) as [->|Hne].
    + intros (p & u & v & q & Hn & -> & ->)%IH. exists (y :: p), u, v, q. done.
    + destruct a as [|x' a], b as [|y' b]; try done. intros. bool_simpl. subst. exists [], y', y, b. done.
  - intros (p & x & y & q & Hn & -> & ->). induction p as [|z p IH]; simpl.
    + destruct (Z.eqb_spec x y); [done|]. rewrite !Z.eqb_refl. by rewrite bool_decide_true.
    + by rewrite Z.eqb_refl.
Qed.

Lemma swapped_edit {A} (a b : list A) : swapped a b → edit 2 a b.
Proof.
  intros (p & x & y & q & _ & -> & ->). change 2%nat with (0 + 2)%nat. apply edit_app; [apply edit_refl|].
  apply edit_sub, edit_sub, edit_refl.
Qed.

(** * The distance computed *)

Lemma distance_exists a b : ∃ d : Z, distance_is (A := Z) a b d.
Proof.
  pose proof (dp_rows_ok (Z.of_nat (length a + length b)) [] a b _ (first_row_ok b)) as Hok.
  destruct (dp_rows _ _ a b _) as [row|]; [eexists; by apply row_ok_last|].
  destruct (distance_nil_r a) as [(n & En & Ea) _]. destruct (distance_nil_l b) as [(m & Em & Eb) _].
  pose proof (edit_app _ _ _ _ _ _ Ea Eb) as E. rewrite app_nil_r in E. specialize (Hok _ E). lia.
Qed.

Lemma damerau_value a b k d :
  2 ≤ k → distance_is (runes (bytes a)) (runes (bytes b)) d →
  damerauDistance a b k
  = if isAdjacentTransposition (runes (bytes a)) (runes (bytes b)) then 1 else Z.min d (k + 1).
Proof.
  intros Hk Hd. unfold damerauDistance. cbv zeta. case_bool_decide as Hab.
  { subst b. assert (d = 0) as ->.
    { eapply distance_unique; [done|]. split; [exists 0%nat; split; [done|apply edit_refl]|lia]. }
    destruct (isAdjacentTransposition _ _) eqn:E; [|lia].
    apply swapped_spec in E as (p & x & y & q & Hn & -> & E). apply (app_inv_head p) in E. congruence. }
  assert (isAdjacentTransposition (runes (bytes a)) (runes (bytes b)) = true → d ≤ 2) as Hsw.
  { intros E%swapped_spec%swapped_edit. by apply (proj2 Hd) in E. }
  destruct (Z.ltb_spec k (Z.abs (Z.of_nat (length (runes (bytes a))) - Z.of_nat (length (runes (bytes b)))))) as [Hl|Hl].
  { destruct Hd as [(n & -> & E) _]. apply edit_length in E.
    destruct (isAdjacentTransposition _ _); [specialize (Hsw eq_refl)|]; lia. }
  pose proof (dp_rows_ok k [] (runes (bytes a)) _ _ (first_row_ok (runes (bytes b)))) as Hok. cbn [length app Z.of_nat Z.add] in Hok.
  destruct (dp_rows _ _ _ _ _) as [row|].
  - apply row_ok_last in Hok. rewrite (distance_unique _ _ _ _ Hok Hd).
    destruct (isAdjacentTransposition _ _); [done|]. destruct (Z.ltb_spec k d); lia.
  - destruct Hd as [(n & -> & E) _]. specialize (Hok _ E).
    destruct (isAdjacentTransposition _ _); [specialize (Hsw eq_refl)|]; lia.
Qed.

(** C35: the spelling distance of two queries is the least number of substituted,
    deleted and inserted code points that turn the one into the other, cut off
    just above the maximum, and one when they differ by a single swap of
    neighbours: the table, its early exits and the shortcut for equal strings
    never change the result, for every maximum of at least two. *)
Theorem damerau_distance_exact a b maxDistance :
  2 ≤ maxDistance →
  ∃ d, distance_is (runes (bytes a)) (runes (bytes b)) d
       ∧ (swapped (runes (bytes a)) (runes (bytes b)) → damerauDistance a b maxDistance = 1)
       ∧ (¬ swapped (runes (bytes a)) (runes (bytes b)) →
          damerauDistance a b maxDistance = Z.min d (maxDistance + 1)).
Proof.
  intros Hk. destruct (distance_exists (runes (bytes a)) (runes (bytes b))) as [d Hd]. exists d. split; [done|].
  rewrite (damerau_value a b maxDistance d Hk Hd). rewrite <-swapped_spec. by destruct (isAdjacentTransposition _ _).
Qed.

(** * One edit *)

Lemma edit_0_inv {A} (a b : list A) : edit 0 a b → a = b.
Proof. intros E. remember 0%nat as n eqn:En. induction E; simplify_eq; [done|]. by rewrite IHE. Qed.

Lemma edit_1_inv {A} (a b : list A) :
  edit 1 a b →
  a = b ∨ ∃ p q, (∃ x y, a = p ++ x :: q ∧ b = p ++ y :: q) ∨ (∃ x, a = p ++ x :: q ∧ b = p ++ q)
                 ∨ (∃ y, a = p ++ q ∧ b = p ++ y :: q).
Proof.
  intros E. remember 1%nat as n eqn:En. induction E as [|n x a b E IH|n x y a b E _|n x a b E _|n y a b E _]; simplify_eq.
  - destruct (IH eq_refl) as [->|(p & q & [(u & v & -> & ->)|[(u & -> & ->)|(u & -> & ->)]])]; [by left|right..];
      exists (x :: p), q; simpl; eauto 8.
  - right. apply edit_0_inv in E as ->. exists [], b. eauto 8.
  - right. apply edit_0_inv in E as ->. exists [], b. eauto 8.
  - right. apply edit_0_inv in E as ->. exists [], b. eauto 8.
Qed.

(** One deletion, swap, substitution or insertion, the new code point among
    [ls]. *)
Inductive one_edit (ls : list Z) : list Z → list Z → Prop :=
| oe_del p x q : one_edit ls (p ++ x :: q) (p ++ q)
| oe_swap p x y q : one_edit ls (p ++ x :: y :: q) (p ++ y :: x :: q)
| oe_sub p x y q : y ∈ ls → one_edit ls (p ++ x :: q) (p ++ y :: q)
| oe_ins p y q : y ∈ ls → one_edit ls (p ++ q) (p ++ y :: q).

(** All values the two loops produce. *)
Definition edit_values (rs : list Z) : list (list Z) :=
  flat_map (edits_at rs) (seq 0 (length rs)) ++ flat_map (inserts_at rs) (seq 0 (S (length rs))).

Lemma edit_values_spec rs v : v ∈ edit_values rs ↔ one_edit letters rs v.
Proof.
  unfold edit_values. rewrite elem_of_app, !list_elem_of_In, !in_flat_map. split.
  - intros [(i & Hi & Hv)|(i & Hi & Hv)].
    + apply in_seq in Hi. destruct (lookup_lt_is_Some_2 rs i) as [x Hx]; [lia|].
      rewrite <-(take_drop_middle rs i x Hx). unfold edits_at in Hv. rewrite (drop_S rs x i Hx) in Hv.
      rewrite !in_app_iff, in_map_iff in Hv. destruct Hv as [[<-|[]]|[Hv|(y & <- & Hy)]].
      * constructor.
      * destruct (drop (S i) rs) as [|y q]; [done|]. destruct Hv as [<-|[]]. simpl. constructor.
      * simpl. constructor. by apply list_elem_of_In.
    + unfold inserts_at in Hv. apply in_map_iff in Hv as (y & <- & Hy).
      rewrite <-(take_drop i rs) at 1. simpl. constructor. by apply list_elem_of_In.
  - intros [p x q|p x y q|p x y q Hy|p y q Hy].
    + left. exists (length p). rewrite length_app, in_seq. split; [simpl; lia|]. unfold edits_at.
      rewrite !in_app_iff. left. left. rewrite take_app_length, drop_app_ge by lia.
      by replace (S (length p) - length p)%nat with 1%nat by lia.
    + left. exists (length p). rewrite length_app, in_seq. split; [simpl; lia|]. unfold edits_at.
      rewrite !in_app_iff. right. left. rewrite take_app_length, drop_app_length. by left.
    + left. exists (length p). rewrite length_app, in_seq. split; [simpl; lia|]. unfold edits_at.
      rewrite !in_app_iff. right. right. rewrite take_app_length, drop_app_ge by lia.
      replace (S (length p) - length p)%nat with 1%nat by lia. apply in_map_iff. exists y. split; [done|by apply list_elem_of_In].
    + right. exists (length p). rewrite length_app, in_seq. split; [lia|]. unfold inserts_at.
      rewrite take_app_length, drop_app_length. apply in_map_iff. exists y. split; [done|by apply list_elem_of_In].
Qed.

(** * Words *)

(** A text of the letters a to z. *)
Definition word (s : string) : Prop := Forall (λ b, b ∈ letters) (bytes s).

#[export] Instance word_dec s : Decision (word s).
Proof. unfold word. apply _. Defined.

Lemma elem_of_letters b : b ∈ letters ↔ 97 ≤ b ≤ 122.
Proof. unfold letters. rewrite elem_of_seqZ. lia. Qed.

Lemma valid_letter b : b ∈ letters → valid_rune b = true.
Proof. intros Hb%elem_of_letters. apply valid_rune_spec. lia. Qed.

Lemma runes_letters l : Forall (λ b, b ∈ letters) l → runes l = l ∧ encode_runes l = l.
Proof.
  unfold encode_runes. induction 1 as [|b l Hb _ [IH1 IH2]]; [done|]. pose proof (proj1 (elem_of_letters b) Hb). simpl. split.
  - rewrite (proj2 (Z.ltb_lt b 128)) by lia. by rewrite IH1.
  - rewrite IH2. unfold encode_rune. rewrite (valid_letter b), (proj2 (Z.ltb_lt b 128)) by (done || lia). done.
Qed.

Lemma word_runes s : word s → runes (bytes s) = bytes s ∧ of_runes (bytes s) = s.
Proof. intros Hw. destruct (runes_letters _ Hw) as [E1 E2]. unfold of_runes. by rewrite E2, str_bytes. Qed.

Lemma of_runes_runes rs : Forall (λ r, valid_rune r = true) rs → runes (bytes (of_runes rs)) = rs.
Proof.
  intros Hv. unfold of_runes. rewrite bytes_str by apply encode_runes_ok.
  rewrite <-(app_nil_r (encode_runes rs)), runes_encode_runes by done. simpl. by rewrite app_nil_r.
Qed.

(** ** The neighbourhood of a word *)

Lemma elem_of_add_edits term out vs v :
  v ∈ foldl (add_edit term) out vs ↔ v ∈ out ∨ v ∈ vs ∧ v ≠ "" ∧ v ≠ term.
Proof.
  revert out. induction vs as [|w vs IH]; intros out; simpl; [set_solver|].
  rewrite IH, elem_of_cons. unfold add_edit. destruct (decide (w = "")) as [->|N1]; [rewrite bool_decide_true by done; simpl; naive_solver|].
  destruct (decide (w = term)) as [->|N2]; [rewrite (bool_decide_true (term = term)), orb_true_r by done; simpl; naive_solver|].
  rewrite !(bool_decide_false (w = _)) by done. simpl.
  case_bool_decide; rewrite ?elem_of_app, ?list_elem_of_singleton; naive_solver.
Qed.

Lemma one_edit_valid rs v :
  one_edit letters rs v → Forall (λ r, valid_rune r = true) rs → Forall (λ r, valid_rune r = true) v.
Proof.
  intros [p x q|p x y q|p x y q Hy|p y q Hy]; rewrite !Forall_app; intros [Hp Hq]; (split; [done|]);
    repeat match goal with H : Forall _ (_ :: _) |- _ => inversion_clear H end; repeat constructor; auto using valid_letter.
Qed.

(** Among words, one edit that changes the text is distance one. *)
Lemma one_edit_distance t v :
  word v → runes (bytes t) ≠ bytes v →
  one_edit letters (runes (bytes t)) (bytes v) ↔ damerauDistance t v 2 = 1.
Proof.
  intros Hv Hne. destruct (word_runes v Hv) as [Ev _].
  destruct (distance_exists (runes (bytes t)) (runes (bytes v))) as [d Hd].
  rewrite (damerau_value t v 2 d) by done. rewrite Ev in *.
  assert (1 ≤ d) as Hd1.
  { destruct Hd as [(k & -> & E) _]. destruct k; [|lia]. by apply edit_0_inv in E. }
  split.
  - intros Ho. destruct (isAdjacentTransposition _ _) eqn:Et; [done|].
    assert (edit 1 (runes (bytes t)) (bytes v)) as E.
    { destruct Ho as [p x q|p x y q|p x y q Hy|p y q Hy];
        try (change 1%nat with (0 + 1)%nat; apply edit_app; [apply edit_refl|]; eauto using edit_refl).
      destruct (decide (x = y)) as [->|Hxy]; [done|]. rewrite (proj2 (swapped_spec _ _)) in Et; [done|]. by exists p, x, y, q. }
    apply (proj2 Hd) in E. lia.
  - destruct (isAdjacentTransposition _ _) eqn:Et; intros Hm.
    + apply swapped_spec in Et as (p & x & y & q & _ & -> & ->). constructor.
    + assert (d = 1) as -> by lia. destruct Hd as [(k & Hk & E) _]. assert (k = 1)%nat as -> by lia.
      assert (∀ p y q, bytes v = p ++ y :: q → y ∈ letters) as Hin.
      { intros p y q Ep. unfold word in Hv. rewrite Ep, Forall_app in Hv. destruct Hv as [_ Hv]. by inversion Hv. }
      apply edit_1_inv in E as [?|(p & q & [(x & y & Ea & Eb)|[(x & Ea & Eb)|(y & Ea & Eb)]])]; [done|..];
        rewrite Ea, Eb; constructor; eauto.
Qed.

Lemma edits1_exact t v :
  word t → word v → v ≠ "" → v ∈ edits1 t ↔ damerauDistance t v 2 = 1.
Proof.
  intros Ht Hv Hne. destruct (word_runes t Ht) as [Et Ot], (word_runes v Hv) as [Ev Ov].
  unfold edits1. cbv zeta. fold (edit_values (runes (bytes t))). rewrite elem_of_add_edits.
  destruct (decide (v = t)) as [->|Hvt].
  { split; [set_solver|]. unfold damerauDistance. by rewrite bool_decide_true. }
  assert (runes (bytes t) ≠ bytes v) as Hrs by (rewrite Et; intros E; by apply Hvt, bytes_inj).
  rewrite <-one_edit_distance by done. rewrite <-edit_values_spec, elem_of_nil.
  change (map of_runes ?l) with (of_runes <$> l). rewrite list_elem_of_fmap. split.
  - intros [[]|((rs & -> & Hrs') & _)]. rewrite of_runes_runes in Ev; [by rewrite <-Ev|].
    apply edit_values_spec in Hrs'. eapply one_edit_valid; [done|]. apply runes_valid, bytes_range.
  - intros Hin. right. split; [|done]. exists (bytes v). done.
Qed.

Lemma edit_values_length rs : (length (edit_values rs) ≤ 54 * length rs + 26)%nat.
Proof.
  assert (∀ {A B} (f : A → list B) n (l : list A), (∀ x, length (f x) ≤ n)%nat → (length (flat_map f l) ≤ n * length l)%nat) as Hf.
  { intros A B f n l Hn. induction l as [|x l IH]; simpl; [lia|]. rewrite length_app. specialize (Hn x). lia. }
  unfold edit_values. rewrite length_app.
  assert (length (flat_map (edits_at rs) (seq 0 (length rs))) ≤ 28 * length (seq 0 (length rs)))%nat as H1.
  { apply Hf. intros i. unfold edits_at. rewrite !length_app, length_map. destruct (drop i rs) as [|x [|y l]]; simpl; lia. }
  assert (length (flat_map (inserts_at rs) (seq 0 (S (length rs)))) ≤ 26 * length (seq 0 (S (length rs))))%nat as H2.
  { apply Hf. intros i. unfold inserts_at. by rewrite length_map. }
  rewrite !length_seq in *. lia.
Qed.

Lemma add_edits_length term out vs : (length (foldl (add_edit term) out vs) ≤ length out + length vs)%nat.
Proof.
  revert out. induction vs as [|v vs IH]; intros out; simpl; [lia|]. specialize (IH (add_edit term out v)).
  assert (length (add_edit term out v) ≤ S (length out))%nat; [|lia].
  unfold add_edit. destruct (_ || _); [lia|]. rewrite length_app. simpl. lia.
Qed.

(** * The best candidate *)

Section choose.
Context `{UnicodeTables} `{UnicodeClasses}.

Lemma better_irrefl c : better c c = false.
Proof.
  unfold better. rewrite Z.ltb_irrefl, Z.ltb_irrefl, andb_false_r. simpl. rewrite ltb_leb.
  destruct (String.leb_total (c_term c) (c_term c)) as [->| ->]; by rewrite andb_false_r.
Qed.

Definition ranks_above (c b : choice) : Prop :=
  c_df b < c_df c ∨ c_df c = c_df b ∧ (c_distance c < c_distance b ∨ c_distance c = c_distance b ∧ String.ltb (c_term c) (c_term b) = true).

Lemma better_spec c b : better c b = true ↔ ranks_above c b.
Proof.
  unfold better, ranks_above. repeat rewrite ?orb_true_iff, ?andb_true_iff, ?Z.ltb_lt, ?Z.eqb_eq. tauto.
Qed.

Lemma better_trans a b c : better a b = true → better b c = true → better a c = true.
Proof.
  rewrite !better_spec. unfold ranks_above. pose proof (ltb_trans (c_term a) (c_term b) (c_term c)). intuition lia.
Qed.

Lemma better_total a b : better a b = false → better b a = false → a = b.
Proof.
  rewrite <-!not_true_iff_false, !better_spec. unfold ranks_above. intros H1 H2.
  assert (c_df a = c_df b) as E1 by lia. assert (c_distance a = c_distance b) as E2 by lia.
  assert (c_term a = c_term b) as E3.
  { apply ltb_total; apply not_true_iff_false; intros E; [apply H1|apply H2]; rewrite ?E1, ?E2; right; auto. }
  destruct a, b; simpl in *; congruence.
Qed.

(** The entries the second loop compares. *)
Definition choices (m : gmap string Z) (lexicon : list TermFrequency) : list choice :=
  omap (λ c, mkChoice (foldToken (Term c)) (DocumentFrequency c) <$> m !! foldToken (Term c)) lexicon.

Definition top (l : list choice) (best : option choice) : Prop :=
  match best with
  | None => l = []
  | Some b => b ∈ l ∧ ∀ c, c ∈ l → c = b ∨ better b c = true
  end.

Lemma pick_top m lexicon : top (choices m lexicon) (foldl (pick m) None lexicon).
Proof.
  induction lexicon as [|x lexicon IH] using rev_ind; [done|]. rewrite foldl_app. unfold choices. rewrite omap_app.
  fold (choices m lexicon). simpl. unfold pick at 1. destruct (m !! foldToken (Term x)) as [d|]; simpl.
  2:{ rewrite app_nil_r. exact IH. }
  set (c := mkChoice _ _ _). destruct (foldl (pick m) None lexicon) as [b|]; simpl in IH |- *.
  - destruct IH as [Hb Hall]. destruct (better c b) eqn:E; simpl.
    + split; [set_solver|]. intros e [He|He%list_elem_of_singleton]%elem_of_app; [|by left]. right.
      destruct (Hall e He) as [->|He']; [done|by eapply better_trans].
    + split; [set_solver|]. intros e [He|He%list_elem_of_singleton]%elem_of_app; [by apply Hall|]. subst e.
      destruct (better b c) eqn:E'; [by right|left]. by apply better_total.
  - rewrite IH. simpl. split; [set_solver|]. set_solver.
Qed.

Lemma near_distance term df c d :
  near_entry term df c = Some d → d = damerauDistance term (foldToken (Term c)) 2.
Proof. unfold near_entry. cbv zeta. repeat (case_match; try done). by intros [= ->]. Qed.

Lemma raw_distances_spec term df lexicon n d :
  raw_distances term df lexicon !! n = Some d ↔
  ∃ c, c ∈ lexicon ∧ foldToken (Term c) = n ∧ near_entry term df c = Some d.
Proof.
  induction lexicon as [|x lexicon IH] using rev_ind; unfold raw_distances; [simpl; rewrite lookup_empty; set_solver|].
  rewrite foldl_app. fold (raw_distances term df lexicon). simpl. destruct (near_entry term df x) as [e|] eqn:E.
  - destruct (decide (foldToken (Term x) = n)) as [<-|Hne].
    + rewrite lookup_insert_eq. split; [intros [= ->]; exists x; set_solver|].
      intros (c & _ & En & Ec). apply near_distance in E as ->, Ec as ->. by rewrite En.
    + rewrite lookup_insert_ne, IH by done. split; [|].
      * intros (c & Hc & ?). exists c. set_solver.
      * intros (c & [Hc|Hc%list_elem_of_singleton]%elem_of_app & En & Ec); [eauto|]. by subst.
  - rewrite IH. split.
    + intros (c & Hc & ?). exists c. set_solver.
    + intros (c & [Hc|Hc%list_elem_of_singleton]%elem_of_app & En & Ec); [eauto|]. subst. congruence.
Qed.

Lemma elem_of_choices term df lexicon c :
  c ∈ choices (raw_distances term df lexicon) lexicon ↔
  ∃ x y, x ∈ lexicon ∧ y ∈ lexicon ∧ c_term c = foldToken (Term x) ∧ foldToken (Term y) = foldToken (Term x)
         ∧ c_df c = DocumentFrequency x ∧ near_entry term df y = Some (c_distance c).
Proof.
  unfold choices. rewrite list_elem_of_omap. split.
  - intros (x & Hx & Ex). apply fmap_Some in Ex as (d & Hd & ->). apply raw_distances_spec in Hd as (y & Hy & Ey & En).
    exists x, y. done.
  - intros (x & y & Hx & Hy & Et & Eyx & Ed & En). exists x. split; [done|].
    rewrite (proj2 (raw_distances_spec term df lexicon (foldToken (Term x)) (c_distance c))) by eauto.
    simpl. f_equal. destruct c; simpl in *. congruence.
Qed.

Lemma top_unique l l' b b' : (∀ c, c ∈ l ↔ c ∈ l') → top l b → top l' b' → b = b'.
Proof.
  intros Hl. destruct b as [b|], b' as [b'|]; simpl.
  - intros [Hb Hall] [Hb' Hall']. destruct (Hall b') as [->|E]; [by apply Hl|done|].
    destruct (Hall' b) as [->|E']; [by apply Hl|done|]. pose proof (better_trans _ _ _ E E') as Ht.
    by rewrite better_irrefl in Ht.
  - intros [Hb _] ->. apply Hl in Hb. by apply elem_of_nil in Hb.
  - intros -> [Hb _]. apply Hl in Hb. by apply elem_of_nil in Hb.
  - done.
Qed.

(** The correction does not depend on the order in which the entries of the map
    of frequencies are visited. *)
Lemma choose_order raw df weak lexicon lexicon' :
  lexicon ≡ₚ lexicon' → ChooseCorrection raw df weak lexicon = ChooseCorrection raw df weak lexicon'.
Proof.
  intros Hp. unfold ChooseCorrection. cbv zeta. do 2 (case_match; [done|]). f_equal.
  eapply top_unique; [|apply pick_top..]. intros c. rewrite !elem_of_choices. by setoid_rewrite Hp.
Qed.
End choose.

(** * Words as queries *)

Lemma has_prefix_in p l b : has_prefix p l = true → b ∈ p → b ∈ l.
Proof.
  revert l. induction p as [|x p IH]; intros [|y l]; simpl; try done; [by intros _ ?%elem_of_nil|].
  intros [->%Z.eqb_eq Hp]%andb_true_iff. rewrite !elem_of_cons. naive_solver.
Qed.

Lemma contains_in p l b : contains p l = true → b ∈ p → b ∈ l.
Proof.
  induction l as [|x l IH]; simpl; rewrite orb_true_iff; intros [Hp|Hc] Hb; try done.
  - by eapply has_prefix_in.
  - by eapply has_prefix_in.
  - right. by apply IH.
Qed.

(** A byte outside a to z of a literal. *)
Ltac byte_in := first [done | lia | (apply list_elem_of_In; repeat (first [left; reflexivity | right]))].

Section words.
Context `{UnicodeTables} `{UnicodeClasses} `{URLParser}.
Implicit Types t : string.

Lemma word_not t b : word t → ¬ 97 ≤ b ≤ 122 → b ∉ bytes t.
Proof. intros Hw Hb Hin. unfold word in Hw. rewrite List.Forall_forall in Hw. apply list_elem_of_In, Hw, elem_of_letters in Hin. lia. Qed.

Lemma word_visible t : word t → Forall visible (bytes t).
Proof. apply Forall_impl. intros b ?%elem_of_letters. unfold visible. lia. Qed.

Lemma word_trim t : word t → trim_space t = t.
Proof. intros Hw. unfold trim_space. rewrite trim_bytes_visible by by apply word_visible. apply str_bytes. Qed.

Lemma word_lower t : word t → to_lower t = t.
Proof.
  intros Hw. unfold to_lower. rewrite visible_ascii by by apply word_visible. rewrite <-(str_bytes t) at 2. f_equal.
  unfold word in Hw. induction Hw as [|b l Hb _ IH]; [done|]. simpl. rewrite IH. f_equal. apply elem_of_letters in Hb.
  unfold ascii_lower. by rewrite (proj2 (Z.leb_gt b 90)), andb_false_r by lia.
Qed.

Lemma word_fold t : word t → foldToken t = t.
Proof. intros Hw. unfold foldToken. by rewrite word_trim, word_lower by (done || rewrite word_trim; done). Qed.

Lemma word_no_prefix t p b : word t → b ∈ bytes p → ¬ 97 ≤ b ≤ 122 → HasPrefix t p = false.
Proof.
  intros Hw Hb Hr. apply not_true_iff_false. intros Hp. eapply word_not; [done|done|]. by eapply has_prefix_in.
Qed.

Lemma word_no_contains t p b : word t → b ∈ bytes p → ¬ 97 ≤ b ≤ 122 → Contains t p = false.
Proof.
  intros Hw Hb Hr. apply not_true_iff_false. intros Hp. eapply word_not; [done|done|]. by eapply contains_in.
Qed.

Lemma word_trim_prefix t p b : word t → b ∈ bytes p → ¬ 97 ≤ b ≤ 122 → TrimPrefix t p = t.
Proof. intros Hw Hb Hr. unfold TrimPrefix. by erewrite word_no_prefix by done. Qed.

Lemma word_trim_hash t : word t → TrimPrefix t "#" = t.
Proof. intros Hw. apply (word_trim_prefix t "#" 35); [done|by left|lia]. Qed.

Lemma spans_letters l : Forall (λ b, b ∈ letters) l → spans l = map (λ b, (b, [b])) l.
Proof.
  induction 1 as [|b l Hb _ IH]; [done|]. apply elem_of_letters in Hb. simpl.
  by rewrite (proj2 (Z.ltb_lt b 128)), IH by lia.
Qed.

Lemma fields_letters field l :
  Forall (λ b, b ∈ letters) l → field ++ l ≠ [] →
  fields_from (λ r, negb (IsLetter r) && negb (IsDigit r) && negb (r =? 35)) field (map (λ b, (b, [b])) l) = [field ++ l].
Proof.
  intros Hl. revert field. induction Hl as [|b l Hb _ IH]; intros field Hne; cbn [map fields_from].
  - rewrite app_nil_r in *. by rewrite bool_decide_false.
  - apply elem_of_letters in Hb. assert (IsLetter b = true) as ->.
    { unfold IsLetter. rewrite (proj2 (Z.ltb_lt b 128)) by lia. apply orb_true_iff. right. apply andb_true_iff. split; apply Z.leb_le; lia. }
    simpl. rewrite IH; [by rewrite <-app_assoc|]. by destruct field.
Qed.

Lemma word_words t : word t → t ≠ "" → words t = [t].
Proof.
  intros Hw Hne. unfold words, FieldsFunc. cbv zeta. rewrite spans_letters, fields_letters.
  - cbn [map app List.filter]. rewrite str_bytes, (word_lower t), !(word_trim_hash t) by done.
    by rewrite bool_decide_false by done.
  - done.
  - intros E. apply Hne. by destruct t.
  - done.
Qed.

Lemma scan_letters l ph : Forall (λ b, b ∈ letters) l → scan_phrases l false [] ph = (false, ph).
Proof.
  induction 1 as [|b l Hb _ IH]; [done|]. apply elem_of_letters in Hb. simpl.
  rewrite (proj2 (Z.eqb_neq b 34)) by lia. done.
Qed.

Lemma word_parse t : word t → t ≠ "" → ParseSearchQuery t = mkParsed t [] [t] t.
Proof.
  intros Hw Hne. unfold ParseSearchQuery. cbv zeta. rewrite (word_trim t Hw), bool_decide_false by done.
  rewrite (proj1 (word_runes t Hw)), scan_letters by done. unfold queryTerms. by rewrite word_fold, word_words.
Qed.

Lemma trim_left_of_letters cs l : Forall (λ b, b ∈ letters) l → (∀ b, b ∈ cs → b ∉ letters) → trim_left_of cs l = l.
Proof.
  intros Hl Hcs. destruct Hl as [|b l Hb Hl]; [done|]. simpl.
  replace (existsb (Z.eqb b) cs) with false; [done|]. symmetry. apply not_true_iff_false. rewrite existsb_exists.
  intros (c & Hc & E%Z.eqb_eq). subst c. apply list_elem_of_In, Hcs in Hc. done.
Qed.

Lemma word_strip t : word t → stripQueryDecorations t = t.
Proof.
  intros Hw. unfold stripQueryDecorations. cbv zeta. rewrite (word_trim t Hw).
  rewrite (word_trim_prefix t "nostr:" 58) by byte_in.
  rewrite (word_trim t Hw), (word_trim_prefix t "@" 64), word_trim_hash by byte_in.
  unfold Trim. assert (∀ b, b ∈ bytes (str [34]) → b ∉ letters) as Hq.
  { intros b Hb. change (b ∈ [34]) in Hb. apply list_elem_of_singleton in Hb as ->. rewrite elem_of_letters. lia. }
  rewrite (trim_left_of_letters (bytes (str [34])) (bytes t) Hw Hq), trim_left_of_letters.
  - by rewrite rev_involutive, str_bytes.
  - by apply Forall_rev.
  - exact Hq.
Qed.

Lemma last_index_none b l : b ∉ l → GoNet.last_index b l = None.
Proof.
  induction l as [|x l IH]; [done|]. rewrite not_elem_of_cons. intros [Hx Hl]. simpl. rewrite IH by done.
  by rewrite (proj2 (Z.eqb_neq x b)) by done.
Qed.

Lemma word_no_host t : word t → CanonicalRelayHost t = None.
Proof.
  intros Hw. unfold CanonicalRelayHost. cbv zeta. rewrite (word_trim t Hw). destruct (_ || _); [done|].
  rewrite word_lower by done.
  assert (has_url_scheme t = false) as ->.
  { unfold has_url_scheme. erewrite !(word_no_prefix t _ 58) by byte_in. done. }
  assert (SplitHostPort t = None) as ->.
  { unfold SplitHostPort, split_host_port. rewrite last_index_none; [done|]. apply word_not; [done|lia]. }
  assert (HasSuffix t "." = false) as E.
  { apply not_true_iff_false. intros Hs. unfold HasSuffix in Hs. apply (has_prefix_in _ _ 46) in Hs; [|by left].
    rewrite list_elem_of_In, <-in_rev, <-list_elem_of_In in Hs. eapply word_not; [done| |done]. lia. }
  unfold TrimSuffix. rewrite E.
  rewrite (word_no_contains t "." 46) by byte_in. by rewrite orb_true_r.
Qed.
End words.

(** * The candidates looked up *)

Definition plain (s : string) : Prop := word s ∧ s ≠ "".

Lemma add_edit_plain t out v : word v → Forall plain out → Forall plain (add_edit t out v).
Proof.
  intros Hv Ho. unfold add_edit. destruct (_ || _) eqn:E; [done|]. bool_simpl. apply Forall_app. split; [done|].
  by repeat constructor.
Qed.

Lemma edits1_plain t : word t → Forall plain (edits1 t).
Proof.
  intros Ht. apply List.Forall_forall. intros v Hv%list_elem_of_In. unfold edits1 in Hv. cbv zeta in Hv.
  fold (edit_values (runes (bytes t))) in Hv. apply elem_of_add_edits in Hv as [[]%elem_of_nil|(Hv & Hne & _)].
  split; [|done]. change (map of_runes ?l) with (of_runes <$> l) in Hv. apply list_elem_of_fmap in Hv as (rs & -> & Hrs).
  rewrite (proj1 (word_runes t Ht)) in Hrs. apply edit_values_spec in Hrs. unfold word in *.
  assert (Forall (λ b, b ∈ letters) rs) as Hw.
  { remember (bytes t) as l eqn:El. clear El. destruct Hrs as [p x q|p x y q|p x y q Hy|p y q Hy];
      rewrite Forall_app in Ht |- *; destruct Ht as [Hp Hq]; (split; [done|]);
      repeat match goal with H : Forall _ (_ :: _) |- _ => inversion_clear H end; repeat (apply Forall_cons_2; [done|]); done. }
  unfold of_runes. rewrite (proj2 (runes_letters _ Hw)), bytes_str; [done|].
  eapply Forall_impl; [|exact Hw]. intros b Hb%elem_of_letters. unfold byte_ok. lia.
Qed.

Lemma add_capped_plain t out l : Forall plain l → Forall plain out → Forall plain (add_capped t out l).
Proof.
  intros Hl. revert out. induction Hl as [|v l [Hv _] _ IH]; intros out Ho; cbn [add_capped]; cbv zeta; [done|].
  pose proof (add_edit_plain t out v Hv Ho). case_match; [done|]. by apply IH.
Qed.

Lemma edits2_plain t out l : Forall plain l → Forall plain out → Forall plain (edits2 t out l).
Proof.
  intros Hl. revert out. induction Hl as [|v l [Hv _] _ IH]; intros out Ho; cbn [edits2]; [done|].
  case_match; [done|]. case_match; [by apply IH|]. apply IH, add_capped_plain; [by apply edits1_plain|done].
Qed.

Lemma add_edit_prefix t out v : out `prefix_of` add_edit t out v.
Proof. unfold add_edit. destruct (_ || _); [done|]. by exists [v]. Qed.

Lemma add_capped_prefix t out l : out `prefix_of` add_capped t out l.
Proof.
  revert out. induction l as [|v l IH]; intros out; cbn [add_capped]; cbv zeta; [done|].
  pose proof (add_edit_prefix t out v). case_match; [done|]. etrans; [done|apply IH].
Qed.

Lemma edits2_prefix t out l : out `prefix_of` edits2 t out l.
Proof.
  revert out. induction l as [|v l IH]; intros out; cbn [edits2]; [done|]. case_match; [done|].
  case_match; [apply IH|]. etrans; [apply add_capped_prefix|apply IH].
Qed.

Section lookup.
Context `{UnicodeTables} `{UnicodeClasses}.

(** The edits of a word begin with its neighbourhood, which is small. *)
Lemma Edits_word t d :
  word t → t ≠ "" → d = 1 ∨ d = 2 →
  Forall plain (Edits t d) ∧
  ∃ first more, Edits t d = first ++ more ∧ (length first ≤ 54 * length (bytes t) + 26)%nat
                ∧ ∀ v, v ∈ edits1 t → v ∈ first.
Proof.
  intros Ht Hne Hd. unfold Edits. cbv zeta. rewrite (word_fold t Ht), bool_decide_false by done. cbn [orb].
  rewrite (proj2 (Z.leb_gt d 0)), (proj2 (Z.ltb_ge 2 d)) by lia.
  assert (length (edits1 t) ≤ 54 * length (bytes t) + 26)%nat as Hlen.
  { unfold edits1. cbv zeta. etrans; [apply add_edits_length|]. rewrite length_map. simpl.
    fold (edit_values (runes (bytes t))). etrans; [apply edit_values_length|]. by rewrite (proj1 (word_runes t Ht)). }
  pose proof (edits1_plain t Ht) as Hp. destruct (d =? 1).
  { split; [done|]. exists (edits1 t), []. by rewrite app_nil_r. }
  set (out := foldl _ _ _).
  assert (Forall plain out) as Hout.
  { apply List.Forall_forall. intros v Hv%list_elem_of_In. subst out. apply elem_of_add_edits in Hv as [[]%elem_of_nil|(Hv & _)].
    rewrite List.Forall_forall in Hp. by apply Hp, list_elem_of_In. }
  assert ((length out ≤ 54 * length (bytes t) + 26)%nat ∧ ∀ v, v ∈ edits1 t → v ∈ out) as [Hl Hin].
  { split; [etrans; [apply add_edits_length|]; simpl; lia|]. intros v Hv. apply elem_of_add_edits. right.
    split; [done|]. unfold edits1 in Hv. apply elem_of_add_edits in Hv as [[]%elem_of_nil|(_ & ?)]. done. }
  destruct (_ || _).
  - split; [done|]. exists out, []. by rewrite app_nil_r.
  - split; [by apply edits2_plain|]. destruct (edits2_prefix t out (edits1 t)) as [more ->]. by exists out, more.
Qed.

Lemma clean_terms_plain cleaned l :
  Forall plain cleaned → Forall plain l →
  Forall plain (clean_terms cleaned l) ∧ (∀ v, v ∈ clean_terms cleaned l → v ∈ cleaned ∨ v ∈ l)
  ∧ cleaned `prefix_of` clean_terms cleaned l.
Proof.
  intros Hc Hl. revert cleaned Hc. induction Hl as [|v l [Hv Hne] _ IH]; intros cleaned Hc; cbn [clean_terms]; cbv zeta.
  { split; [done|]. split; [auto|done]. }
  rewrite word_trim_hash, word_trim, word_lower by done. rewrite (bool_decide_false (v = "")) by done. cbn [orb].
  case_bool_decide.
  { destruct (IH cleaned Hc) as (P1 & P2 & P3). split; [done|]. split; [set_solver|done]. }
  assert (Forall plain (cleaned ++ [v])) as Hc' by (apply Forall_app; split; [done|by repeat constructor]).
  case_match.
  - split; [done|]. split; [set_solver|by exists [v]].
  - destruct (IH _ Hc') as (P1 & P2 & P3). split; [done|]. split; [set_solver|]. etrans; [by exists [v]|done].
Qed.

(** What comes before the cap is looked up. *)
Lemma clean_terms_first cleaned l1 l2 v :
  Forall plain cleaned → Forall plain (l1 ++ l2) → (length cleaned + length l1 < 1500)%nat → v ∈ l1 →
  v ∈ clean_terms cleaned (l1 ++ l2).
Proof.
  revert cleaned. induction l1 as [|w l1 IH]; intros cleaned Hc Hl Hlen Hv; [by apply elem_of_nil in Hv|].
  cbn [app] in Hl |- *. inversion Hl as [|? ? [Hw Hne] Hl']; subst. cbn [clean_terms length] in *. cbv zeta.
  rewrite word_trim_hash, word_trim, word_lower by done. rewrite (bool_decide_false (w = "")) by done. cbn [orb].
  case_bool_decide as Hin.
  - apply elem_of_cons in Hv as [->|Hv]; [|apply IH; (done || lia)].
    destruct (clean_terms_plain cleaned (l1 ++ l2) Hc Hl') as (_ & _ & [k ->]). set_solver.
  - assert (Forall plain (cleaned ++ [w])) as Hc' by (apply Forall_app; split; [done|by repeat constructor]).
    assert (length (cleaned ++ [w]) = S (length cleaned)) as El by (rewrite length_app; simpl; lia).
    rewrite (proj2 (Nat.leb_gt 1500 (length (cleaned ++ [w])))) by lia.
    apply elem_of_cons in Hv as [->|Hv]; [|apply IH; (done || lia)].
    destruct (clean_terms_plain (cleaned ++ [w]) (l1 ++ l2) Hc' Hl') as (_ & _ & [k ->]). set_solver.
Qed.

(** The counts of rows with distinct plain ids. *)
Lemma count_rows_spec rows m k n :
  Forall plain (rows.*1) → NoDup (rows.*1) → (∀ x, x ∈ rows.*1 → m !! x = None) →
  foldl count_row m rows !! k = Some n ↔ m !! k = Some n ∨ (k, n) ∈ rows ∧ 0 < n.
Proof.
  revert m. induction rows as [|[x c] rows IH]; intros m Hp Hnd Hm; cbn [foldl].
  { rewrite elem_of_nil. tauto. }
  cbn [fmap list_fmap fst] in *. inversion Hp as [|? ? [Hw Hne] Hp']; subst. inversion Hnd as [|? ? Hx Hnd']; subst.
  assert (count_row m (x, c) = if c <=? 0 then m else <[x:=c]> m) as ->.
  { unfold count_row. cbn [fst snd]. rewrite word_trim, word_lower, (bool_decide_false (x = "")) by done. cbn [orb].
    rewrite (Hm x) by left. simpl. destruct (Z.leb_spec c 0); [done|]. by rewrite (proj2 (Z.ltb_lt 0 c)). }
  destruct (Z.leb_spec c 0).
  - rewrite IH by (try done; intros; apply Hm; by right). rewrite elem_of_cons. split; [naive_solver|].
    intros [?|[[[= -> ->]|?] ?]]; [auto|lia|auto].
  - rewrite IH; [|done|done|intros y Hy; rewrite lookup_insert_ne by set_solver; apply Hm; by right].
    rewrite elem_of_cons. destruct (decide (x = k)) as [->|Hk].
    + rewrite lookup_insert_eq, (Hm k) by left. split; [intros [E|[E ?]]; [simplify_eq|]; auto|].
      intros [E|[[E|E] ?]]; simplify_eq; auto.
    + rewrite lookup_insert_ne by done. naive_solver.
Qed.
End lookup.

(** * The correction of a word *)

Section correction.
Context `{UnicodeTables} `{UnicodeClasses} `{MapRange} `{URLParser}.

(** The document frequency of a hashtag: a row that is missing or negative
    counts nothing. *)
Definition df (docs : gmap string Z) (w : string) : Z := Z.max 0 (default 0 (docs !! w)).

(** Frequent enough to replace [t]. *)
Definition frequent (docs : gmap string Z) (t v : string) : Prop := 100 ≤ df docs v ∧ 8 * df docs t ≤ df docs v.

Lemma frequencies_spec cands st w n :
  Forall plain cands → cands ≠ [] → next_fault st = None →
  ∃ freqs, HashtagDocumentFrequencies cands st = (next st, Ok freqs)
           ∧ (freqs !! w = Some n ↔ w ∈ clean_terms [] cands ∧ hashtag_documents (tables st) !! w = Some n ∧ 0 < n).
Proof.
  intros Hp Hne Hf. destruct (clean_terms_plain [] cands) as (Hc & _ & _); [constructor|done|].
  unfold HashtagDocumentFrequencies. cbv zeta. destruct (clean_terms [] cands) as [|w0 ws] eqn:Ec.
  { exfalso. destruct cands as [|v cands]; [done|].
    assert (v ∈ clean_terms [] ([v] ++ cands)) as Hv by (apply clean_terms_first; simpl; try lia; [constructor|done|left]).
    simpl app in Hv. rewrite Ec in Hv. by apply elem_of_nil in Hv. }
  rewrite <-Ec in *. clear Ec. set (cl := clean_terms [] cands) in *. set (docs := hashtag_documents (tables st)).
  set (rows := map (λ row : string * Z, (row.1, Z.max row.2 0)) (map_range (filter (λ row : string * Z, row.1 ∈ cl) docs))).
  exists (foldl count_row ∅ rows). split.
  { unfold go_bind, go_wrap, query, stmt. by rewrite Hf. }
  assert (rows.*1 = (map_range (filter (λ row : string * Z, row.1 ∈ cl) docs)).*1) as E1.
  { subst rows. change (map ?f ?l) with (f <$> l). by rewrite <-list_fmap_compose. }
  assert (∀ x c, (x, c) ∈ map_range (filter (λ row : string * Z, row.1 ∈ cl) docs) ↔ docs !! x = Some c ∧ x ∈ cl) as Hr.
  { intros x c. rewrite (range_perm _), elem_of_map_to_list, map_lookup_filter_Some. done. }
  rewrite count_rows_spec, lookup_empty.
  - subst rows. change (map ?f ?l) with (f <$> l). rewrite list_elem_of_fmap. split.
    + intros [?|[([x c] & Ex & Hx) Hn]]; [done|]. simpl in Ex. injection Ex as <- ->. apply Hr in Hx as [Hx Hcl].
      split; [done|]. split; [rewrite Hx; f_equal; lia|done].
    + intros (Hcl & Hd & Hn). right. split; [|done]. exists (w, n). split; [simpl; f_equal; lia|by apply Hr].
  - rewrite E1. apply List.Forall_forall. intros x Hx%list_elem_of_In. apply list_elem_of_fmap in Hx as ([y c] & -> & Hy).
    apply Hr in Hy as [_ Hcl]. rewrite List.Forall_forall in Hc. by apply Hc, list_elem_of_In.
  - rewrite E1, range_perm. apply NoDup_fst_map_to_list.
  - intros x _. apply lookup_empty.
Qed.

Lemma near_word t raw w n d :
  plain w → 0 ≤ raw < 10 → word t →
  near_entry t raw (mkTF w n) = Some d ↔
  d = damerauDistance t w 2 ∧ 1 ≤ d ≤ 2 ∧ (go_len t < 8 → d = 1) ∧ 100 ≤ n ∧ 8 * raw ≤ n.
Proof.
  intros [Hw Hne] Hraw Ht. unfold near_entry. cbv zeta. cbn [Term DocumentFrequency]. rewrite (word_fold w Hw).
  rewrite (bool_decide_false (w = "")) by done. cbn [orb].
  unfold correctionMinTargetDF, correctionDFMultiple. rewrite i64_id by (unfold min_int64, max_int64, two63; lia).
  case_bool_decide as Heq.
  { subst w. unfold damerauDistance. rewrite bool_decide_true by done. split; [done|lia]. }
  destruct (Z.ltb_spec n 100); [split; [done|lia]|].
  destruct ((0 <? raw) && (n <? raw * 8)) eqn:Er.
  { apply andb_true_iff in Er as [?%Z.ltb_lt ?%Z.ltb_lt]. split; [done|]. intros (-> & ?). lia. }
  assert (8 * raw ≤ n) as Hn8.
  { apply andb_false_iff in Er as [?%Z.ltb_ge|?%Z.ltb_ge]; lia. }
  destruct (Z.leb_spec (damerauDistance t w 2) 0); cbn [orb]; [split; [done|intros (-> & ?); lia]|].
  destruct (Z.ltb_spec 2 (damerauDistance t w 2)); [split; [done|intros (-> & ?); lia]|].
  destruct (Z.ltb_spec (go_len t) 8), (Z.ltb_spec 1 (damerauDistance t w 2)); cbn [andb];
    (split; [intros [= <-]; repeat split; lia|]); intros (-> & ?); try done; lia.
Qed.

(** The choice among the entries of a map of plain terms. *)
Lemma choose_word t raw (freqs : gmap string Z) :
  plain t → 5 ≤ go_len t → 0 ≤ raw → (∀ w n, freqs !! w = Some n → plain w) →
  match ChooseCorrection t raw true (map (λ e : string * Z, mkTF e.1 e.2) (map_range freqs)) with
  | Some w =>
      raw < 10 ∧ ∃ n, freqs !! w = Some n ∧ near_entry t raw (mkTF w n) = Some (damerauDistance t w 2)
        ∧ ∀ v m d, freqs !! v = Some m → near_entry t raw (mkTF v m) = Some d →
          v = w ∨ m < n ∨ m = n ∧ (damerauDistance t w 2 < d ∨ damerauDistance t w 2 = d ∧ String.ltb w v = true)
  | None => raw < 10 → ∀ v m d, freqs !! v = Some m → near_entry t raw (mkTF v m) ≠ Some d
  end.
Proof.
  intros [Ht Hne] Hlen Hraw Hplain. unfold ChooseCorrection. cbv zeta. rewrite (word_strip t Ht), (word_fold t Ht).
  rewrite bool_decide_false by done. rewrite (word_no_contains t " " 32), (word_no_contains t (str [34]) 34) by byte_in.
  cbn [negb orb]. unfold correctionMinQueryLen, correctionMaxRawDF. rewrite (proj2 (Z.ltb_ge (go_len t) 5)) by done. cbn [orb].
  destruct (Z.leb_spec 10 raw); [lia|]. set (lexicon := map _ _).
  assert (∀ x, x ∈ lexicon ↔ freqs !! Term x = Some (DocumentFrequency x)) as Hlex.
  { intros [w n]. subst lexicon. change (map ?f ?l) with (f <$> l). rewrite list_elem_of_fmap. cbn [Term DocumentFrequency].
    rewrite <-elem_of_map_to_list, <-range_perm. split.
    - intros ([k c] & [= -> ->] & Hk). done.
    - intros Hk. exists (w, n). done. }
  assert (∀ c, c ∈ choices (raw_distances t raw lexicon) lexicon ↔
               freqs !! c_term c = Some (c_df c) ∧ near_entry t raw (mkTF (c_term c) (c_df c)) = Some (c_distance c)) as Hch.
  { intros c. rewrite elem_of_choices. split.
    - intros ([x xn] & [y yn] & Hx%Hlex & Hy%Hlex & E1 & E2 & E3 & E4). cbn [Term DocumentFrequency] in *.
      rewrite !word_fold in * by (eapply proj1, Hplain; done). subst. split; [congruence|]. congruence.
    - intros [Hc Hn]. exists (mkTF (c_term c) (c_df c)), (mkTF (c_term c) (c_df c)). rewrite !Hlex. cbn [Term DocumentFrequency].
      rewrite word_fold by (eapply proj1, Hplain; done). done. }
  pose proof (pick_top (raw_distances t raw lexicon) lexicon) as Htop. destruct (foldl _ None lexicon) as [b|]; cbn [fmap option_fmap option_map].
  - destruct Htop as [Hb Hall]. apply Hch in Hb as [Hb1 Hb2]. split; [done|]. exists (c_df b).
    pose proof (near_distance _ _ _ _ Hb2) as Ed. cbn [Term] in Ed. rewrite word_fold in Ed by (eapply proj1, Hplain; done).
    rewrite Ed in Hb2. split; [done|]. split; [done|]. intros v m d Hv Hd.
    destruct (Hall (mkChoice v m d)) as [E|E]; [by apply Hch|left; by rewrite <-E|right]. apply better_spec in E.
    unfold ranks_above in E. cbn [c_term c_df c_distance] in E. rewrite <-Ed. lia || tauto || naive_solver lia.
  - intros _ v m d Hv Hd. assert (mkChoice v m d ∈ choices (raw_distances t raw lexicon) lexicon) as Hin by by apply Hch.
    unfold top in Htop. rewrite Htop in Hin. by apply elem_of_nil in Hin.
Qed.
End correction.

Section service.
Context `{UnicodeTables} `{UnicodeClasses} `{MapRange} `{URLParser}.

(** A word of five to thirty-two letters: one lookup, then the choice among what
    it found. *)
Lemma choose_query_word t s :
  plain t → 5 ≤ go_len t ≤ 32 →
  ∃ s', chooseQueryCorrection true t s
        = let '(_, r) := HashtagDocumentFrequencies (t :: Edits t (if 8 <=? go_len t then 2 else 1)) (store s) in
          let freqs := match r with Ok freqs => freqs | Err _ => ∅ end in
          (s', Ok (ChooseCorrection t (freq freqs t) true (map (λ e : string * Z, mkTF e.1 e.2) (map_range freqs)))).
Proof.
  intros [Ht Hne] Hlen. unfold chooseQueryCorrection. cbv zeta. rewrite (word_parse t Ht Hne). cbn [Phrases Terms].
  rewrite (word_fold t Ht), (word_trim_hash t Ht), bool_decide_false by done.
  rewrite (word_no_contains t "." 46) by byte_in. cbn [orb].
  assert (is64Hex t = false) as ->.
  { unfold is64Hex. by rewrite (proj2 (Z.eqb_neq (go_len t) 64)) by lia. }
  cbn [orb]. rewrite (proj2 (Z.ltb_ge 32 (go_len t))) by lia. rewrite (word_no_host t Ht).
  unfold correctionMinQueryLen. rewrite (proj2 (Z.leb_le 5 (go_len t))), (proj2 (Z.ltb_ge (go_len t) 5)) by lia.
  unfold go_bind at 1, lookupHashtagFreqs. cbn [negb orb length Nat.eqb].
  destruct (HashtagDocumentFrequencies _ (store s)) as [st r]. set (freqs := match r with Ok f => f | Err _ => ∅ end).
  assert (∀ n s0, ∃ s1, noteHashtagFloor n s0 = (s1, Ok tt)) as Hfloor.
  { intros n s0. unfold noteHashtagFloor. destruct (n <=? 0); by eexists. }
  unfold go_bind at 1. destruct (Hfloor (freq freqs t) (mkRequest st (diag s))) as [s1 ->].
  destruct (ChooseCorrection _ _ _ _) as [w|]; [|by eexists].
  unfold go_bind. destruct (Hfloor (freq freqs w) s1) as [s2 ->]. by eexists.
Qed.

(** C28: the spelling correction of a search for a single word of five to
    twenty-seven letters is the most frequent hashtag in its neighbourhood. When
    the word has fewer than ten documents, the correction has at least a hundred
    and eight times as many as the word, it lies at distance one, or at distance
    two when the word has eight letters or more, and no word at distance one that
    is as frequent as required has more documents; among equals the first in
    order is taken. Without a correction there is no such word. Neither the
    generation of candidates, nor the cap of the lookup, nor the order of the
    map of results loses one. *)
Theorem correction_is_best t s :
  plain t → 5 ≤ go_len t ≤ 27 → next_fault (store s) = None →
  let docs := hashtag_documents (tables (store s)) in
  ∃ s' r, chooseQueryCorrection true t s = (s', Ok r) ∧
  match r with
  | Some w =>
      df docs t < 10 ∧ frequent docs t w
      ∧ (damerauDistance t w 2 = 1 ∨ damerauDistance t w 2 = 2 ∧ 8 ≤ go_len t)
      ∧ ∀ v, plain v → damerauDistance t v 2 = 1 → frequent docs t v →
        df docs v < df docs w ∨ df docs v = df docs w ∧ damerauDistance t w 2 = 1 ∧ String.leb w v = true
  | None => df docs t < 10 → ∀ v, plain v → damerauDistance t v 2 = 1 → ¬ frequent docs t v
  end.
Proof.
  intros Hp Hlen Hf docs. destruct (choose_query_word t s Hp ltac:(lia)) as [s' ->]. destruct (Hp) as [Ht Hne].
  set (d := if 8 <=? go_len t then 2 else 1).
  destruct (Edits_word t d Ht Hne ltac:(subst d; destruct (8 <=? go_len t); auto)) as (Hpl & first & more & Ee & Hfl & Hfirst).
  set (cands := t :: Edits t d). assert (Forall plain cands) as Hc by by constructor.
  set (freqs := match (HashtagDocumentFrequencies cands (store s)).2 with Ok freqs => freqs | Err _ => ∅ end).
  assert (∀ w n, freqs !! w = Some n ↔ w ∈ clean_terms [] cands ∧ docs !! w = Some n ∧ 0 < n) as Hfr.
  { intros w n. destruct (frequencies_spec cands (store s) w n Hc ltac:(done) Hf) as (fr & E & Hw). subst freqs. by rewrite E. }
  destruct (HashtagDocumentFrequencies cands (store s)) as [st r]. cbn [snd] in freqs. cbv beta iota zeta. fold freqs.
  destruct (clean_terms_plain [] cands ltac:(constructor) Hc) as (Hcl & _ & _).
  assert (∀ w n, freqs !! w = Some n → plain w ∧ df docs w = n) as Hin.
  { intros w n (Hw & Hd & Hn)%Hfr. rewrite List.Forall_forall in Hcl. split; [by apply Hcl, list_elem_of_In|].
    unfold df. rewrite Hd. simpl. lia. }
  assert (∀ v, v = t ∨ v ∈ first → 0 < df docs v → freqs !! v = Some (df docs v)) as Hlook.
  { intros v Hv Hd. apply Hfr. split.
    - subst cands. rewrite Ee in Hc |- *. apply (clean_terms_first [] (t :: first) more); [constructor|done| |set_solver].
      cbn [length]. unfold go_len in Hlen. lia.
    - unfold df in *. destruct (docs !! v); simpl in *; [split; [f_equal|]|]; lia. }
  assert (freq freqs t = df docs t) as Efreq.
  { unfold freq. destruct (decide (0 < df docs t)) as [Hd|Hd]; [by rewrite Hlook by auto|].
    destruct (freqs !! t) as [n|] eqn:E; [by apply Hin in E as [_ ->]|]. simpl. unfold df in *. lia. }
  rewrite Efreq. eexists _, _. split; [done|].
  assert (0 ≤ df docs t) as Hdf0 by (unfold df; lia).
  assert (∀ v, df docs t < 10 → plain v → damerauDistance t v 2 = 1 → frequent docs t v →
          freqs !! v = Some (df docs v) ∧ near_entry t (df docs t) (mkTF v (df docs v)) = Some 1) as Hnear.
  { intros v Hraw Hv Hd [Hf1 Hf2]. split.
    - apply Hlook; [right; apply Hfirst, edits1_exact; try done; apply Hv|lia].
    - apply near_word; auto; lia. }
  pose proof (choose_word t (df docs t) freqs Hp ltac:(lia) Hdf0 (λ w n E, proj1 (Hin w n E))) as Hch.
  destruct (ChooseCorrection _ _ _ _) as [w|].
  - destruct Hch as (Hraw & n & Hw & Hn & Hbest). destruct (Hin w n Hw) as [Hpw <-].
    apply near_word in Hn as (_ & Hd & Hs & Hf1 & Hf2); [|done|lia|done]. split; [done|]. split; [by split|]. split; [lia|].
    intros v Hv Hdv Hfv. destruct (Hnear v Hraw Hv Hdv Hfv) as [Hlv Hnv].
    destruct (Hbest v _ 1 Hlv Hnv) as [->|[Hlt|[Heq [Hlt|[Hd1 Hltb]]]]]; [|by left|lia|].
    + right. split; [done|]. split; [done|]. by destruct (String.leb_total w w).
    + right. split; [done|]. split; [done|]. rewrite ltb_leb in Hltb. destruct (String.leb_total w v) as [E|E]; [done|].
      by rewrite E in Hltb.
  - intros Hraw v Hv Hdv Hfv. destruct (Hnear v Hraw Hv Hdv Hfv) as [Hlv Hnv]. by apply (Hch Hraw v _ 1 Hlv).
Qed.
End service.

(** ** One correction per request *)

(** The diagnostics of a request stay with it. *)
Definition keeps_diag {A} (m : go request A) : Prop := ∀ s, diag s ≠ None → diag (m s).1 ≠ None.

Lemma diag_bind {A B} (m : go request A) (k : A → go request B) :
  keeps_diag m → (∀ a, keeps_diag (k a)) → keeps_diag (go_bind m k).
Proof.
  intros Hm Hk s Hs. unfold go_bind. specialize (Hm s Hs). destruct (m s) as [s' [a|e]]; [|done]. by apply Hk.
Qed.

Lemma diag_ret {A} (a : A) : keeps_diag (go_ret a).
Proof. by intros s Hs. Qed.

Lemma diag_with f : keeps_diag (with_diag f).
Proof. intros s Hs. simpl. by destruct (diag s). Qed.

Lemma diag_floor n : keeps_diag (noteHashtagFloor n).
Proof. unfold noteHashtagFloor. destruct (n <=? 0); eauto using diag_ret, diag_bind, diag_with. Qed.

Section once.
Context `{UnicodeTables} `{UnicodeClasses} `{MapRange} `{URLParser} (reader : bool).

Lemma diag_lookup terms : keeps_diag (lookupHashtagFreqs reader terms).
Proof.
  intros s Hs. unfold lookupHashtagFreqs. destruct (_ || _); [done|]. by destruct (HashtagDocumentFrequencies _ _).
Qed.

Lemma diag_choose raw : keeps_diag (chooseQueryCorrection reader raw).
Proof.
  unfold chooseQueryCorrection. cbv zeta.
  repeat first [apply diag_ret | apply diag_floor | apply diag_lookup | (apply diag_bind; [|intros ?]) | case_match].
Qed.

(** The query that came out is not changed by a second pass, and is not looked
    up again. *)
Lemma corrected_once raw s s' q :
  diag s ≠ None → prepareQuery reader raw s = (s', Ok q) → prepareQuery reader q s' = (s', Ok (trim_space q)).
Proof.
  intros Hd E.
  assert (match diag s' with Some d => CorrectionAlreadyChecked d | None => false end = true) as Hc.
  { unfold prepareQuery, go_bind, go_get, CorrectionAlreadyChecked in *. destruct (diag s) as [d|] eqn:Ed; [|done].
    destruct (CorrectionChecked d) eqn:Ec; [by injection E as <- _; rewrite Ed|].
    pose proof (diag_choose (trim_space raw) s) as Hk. rewrite Ed in Hk.
    destruct (chooseQueryCorrection reader (trim_space raw) s) as [s1 [r|e]]; [|done]. specialize (Hk ltac:(done)).
    injection E as <- _. simpl in *. destruct (diag s1) as [d1|]; [|done]. simpl. unfold MarkCorrection.
    destruct (CorrectionChecked d1) eqn:E2; [done|]. by destruct (bool_decide _). }
  unfold prepareQuery, go_bind, go_get. by rewrite Hc.
Qed.
End once.

(** * Examples *)

Module SpellExample.
#[local] Instance ascii_classes : UnicodeClasses := {| unicode_letter _ := false; unicode_digit _ := false |}.
#[local] Existing Instance list_range.
Existing Instance ascii_tables.
Existing Instance HostExample.toy_parser.

(** A swap counts one only on its own: with a further edit it counts two, so a
    text at two edits in Damerau's sense is out of reach. *)
Example swap_with_edit :
  map (λ b, damerauDistance "abcdefgh" b 2) ["abcdefgh"; "bacdefgh"; "abcdefgx"; "bacdefgx"; "abc"] = [0; 1; 1; 3; 3].
Proof. vm_compute. reflexivity. Qed.

(** The second round takes substitutions of substitutions, and stops in the edits
    of the first letter: two wrong letters at the end are not found. *)
Example second_round :
  (λ edits, (length edits, map (λ v, bool_decide (v ∈ edits)) ["bbbdefgh"; "abcdefxy"])) (Edits "abcdefgh" 2)
  = (1500%nat, [true; false]) ∧ damerauDistance "abcdefgh" "abcdefxy" 2 = 2.
Proof. vm_compute. done. Qed.

(** A phrase whose white space is not single blanks is matched as a phrase, and
    its words are search terms as well. *)
Example phrase_terms :
  map (λ q, (Phrases (ParseSearchQuery q), Terms (ParseSearchQuery q)))
    [str ([34] ++ bytes "new york" ++ [34] ++ bytes " pizza"); str ([34] ++ bytes "new  york" ++ [34] ++ bytes " pizza");
     str ([34] ++ bytes "new york pizza")]
  = [(["new york"], ["pizza"]); (["new york"], ["new"; "york"; "pizza"]); ([], ["new"; "york"; "pizza"])].
Proof. vm_compute. reflexivity. Qed.

(** Hosts, decorated names and long tokens. *)
Example query_kinds :
  map CanonicalRelayHost ["Relay.Damus.io:1234"; "bob@a.b"; "bitcoin"; "a.b/c"] = [Some "relay.damus.io"; None; None; None]
  ∧ map QueryLooksLikePersonName ["@jack dorsey"; "bitcoin"; "x"; "a1 b"] = [true; false; false; false]
  ∧ map ObviousEmptyToken ["qwertyuiop12"; "qwertyuiopas"; "abc 12 qwertyu"] = [true; false; false]
  ∧ IsQueryStub "#Bitcoin" "bitcoin" = true ∧ IsQueryStub "bitcoin rocks" "bitcoin" = false.
Proof. vm_compute. done. Qed.

Definition toy_docs : gmap string Z :=
  list_to_map [("bitcoin", 5000); ("bitconn", 4000); ("bitconi", 3); ("bitcorn", 9000)].
Definition toy_request : request :=
  mkRequest (mkDb (mkSearch toy_docs) []) (Some new_diag).

Lemma damerau_distance_witness :
  2 ≤ 2 ∧ ∃ d, distance_is (runes (bytes "bitconi")) (runes (bytes "bitcoin")) d
       ∧ (swapped (runes (bytes "bitconi")) (runes (bytes "bitcoin")) → damerauDistance "bitconi" "bitcoin" 2 = 1)
       ∧ (¬ swapped (runes (bytes "bitconi")) (runes (bytes "bitcoin")) →
          damerauDistance "bitconi" "bitcoin" 2 = Z.min d (2 + 1)).
Proof. split; [lia|]. apply (damerau_distance_exact "bitconi" "bitcoin" 2). lia. Defined.

Lemma correction_witness :
  (∃ s', chooseQueryCorrection true "bitconi" toy_request = (s', Ok (Some "bitcoin")))
  ∧ df toy_docs "bitconi" < 10 ∧ frequent toy_docs "bitconi" "bitcoin"
  ∧ ∀ v, plain v → damerauDistance "bitconi" v 2 = 1 → frequent toy_docs "bitconi" v →
    df toy_docs v < df toy_docs "bitcoin"
    ∨ df toy_docs v = df toy_docs "bitcoin" ∧ damerauDistance "bitconi" "bitcoin" 2 = 1 ∧ String.leb "bitcoin" v = true.
Proof.
  assert (∃ s', chooseQueryCorrection true "bitconi" toy_request = (s', Ok (Some "bitcoin"))) as [s' E].
  { eexists. vm_compute. reflexivity. }
  destruct (correction_is_best "bitconi" toy_request) as (s'' & r & E' & Hr).
  - split; [|done]. apply (bool_decide_unpack _). vm_compute. exact I.
  - vm_compute. split; discriminate.
  - reflexivity.
  - rewrite E in E'. injection E' as <- <-. destruct Hr as (H1 & H2 & _ & H3). split; [exists s'; exact E|]. exact (conj H1 (conj H2 H3)).
Defined.
End SpellExample.
