(* ===== verification/SearchRank.v ===== *)
(** Search ranking, [internal/query/search_rank.go]: the scores of notes and
    profiles, near-duplicates, the author cap and the two ranked pages.

    [math.Exp] and [math.Log1p] are parameters, as is [sort.SliceStable]; rows
    differ in their index, so that no two compare equal and stability adds
    nothing. Products and sums round separately, as they do on amd64. *)

From Stdlib Require Import SpecFloat.
From S2P Require Import Prelude GoLib GoFloat GoNet RelayURL SearchText.

(** * Rows *)

(** An exponential is not negative; the logarithm of [1 + x] is positive for
    positive [x], and NaN for NaN. *)
Class ExpLog := {
  math_exp : f64 → f64;
  math_log1p : f64 → f64;
  exp_nonneg : ∀ x, nonneg (math_exp x);
  log1p_pos : ∀ x, f64_lt (f64_of_Z 0) x = true → f64_lt (f64_of_Z 0) (math_log1p x) = true;
  log1p_nan : is_nan (math_log1p S754_nan) = true;
}.

Record NoteScoreInput := mkNote {
  ID : string;
  Pubkey : string;
  CreatedAt : Z;
  Content : string;
  ReplyCount : Z;
  RepostCount : Z;
  ReactionCount : Z;
  ZapCount : Z;
  AuthorBot : bool;
  AuthorName : string;
  AuthorDisplayName : string;
  AuthorNIP05 : string;
  EngineScore : f64;
}.

Record ProfileScoreInput := mkProfile {
  PPubkey : string;
  PName : string;
  PDisplayName : string;
  PNIP05 : string;
  PAbout : string;
  FollowerCount : Z;
  RecentPostCount : Z;
  RecentActivityAt : Z;
  PBot : bool;
}.

Record RankOptions := mkOptions {
  Now : time;
  Sort : string;
  Window : option Z;
}.

(** * Constants *)

Definition hour : Z := 3600 * second.
Definition NoteRecencyHalfLife : Z := 72 * hour.
Definition NoteAuthorCap : Z := 2.
Definition NoteAuthorCapWindow : Z := 20.
Definition profileActivityHalfLife : Z := 14 * 24 * hour.
Definition noteLexicalWeight : f64 := f64_ratio 35 100.
Definition noteRecencyWeight : f64 := f64_ratio 45 100.
Definition noteEngagementWeight : f64 := f64_ratio 20 100.
Definition queryStubMultiplier : f64 := f64_ratio 15 100.
Definition automatedMultiplier : f64 := f64_ratio 5 100.
Definition duplicateMultiplier : f64 := f64_ratio 2 100.
Definition engagementSaturation : f64 := f64_of_Z 50.

Definition half : f64 := f64_lit 1 (-1).
Definition zero : f64 := f64_of_Z 0.
Definition one : f64 := f64_of_Z 1.

(** [-math.Ln2] as a double. *)
Definition minus_ln2 : f64 := f64_lit (-6243314768165359) (-53).

(** [Duration.Seconds]. *)
Definition seconds (d : Z) : f64 :=
  f64_add (f64_of_Z (Z.quot d second)) (f64_div (f64_of_Z (Z.rem d second)) (f64_of_Z second)).

(** [time.Unix(sec, 0)]. *)
Definition of_unix (sec : Z) : time := i64 (sec + 62135596800) * second.

Definition clamp01 (value : f64) : f64 :=
  if f64_lt value zero then zero else if f64_lt one value then one else value.

Definition max64 (value floor : Z) : Z := if value <? floor then floor else value.

(** * Notes *)

Section rank.
Context `{UnicodeTables} `{UnicodeClasses} `{ExpLog}.

Definition isRSSAccount (name display : string) : bool :=
  let combined := to_lower (name +:+ " " +:+ display) in
  Contains combined "(rss feed)" || Contains combined "rss feed".

Definition isMostrBridge (nip05 : string) : bool :=
  let host := to_lower (trim_space nip05) in
  let host := match GoNet.last_index 64 (bytes host) with
              | Some at_ => str (drop (S at_) (bytes host))
              | None => host
              end in
  bool_decide (host = "mostr.pub") || HasSuffix host ".mostr.pub".

Definition noteIsAutomated (note : NoteScoreInput) (parsed : ParsedQuery) : bool :=
  AuthorBot note || isRSSAccount (AuthorName note) (AuthorDisplayName note)
  || (isMostrBridge (AuthorNIP05 note) && negb (QueryLooksLikePersonName (Raw parsed)))
  || priceTickerPattern (Content note) || blockArtPattern (Content note)
  || blockRunePattern (Content note).

(** The best match of a term among the words of the content. *)
Definition term_match (folded : string) (contentWords : list string) (term : string) : f64 :=
  let best := if Contains folded term then f64_ratio 45 100 else zero in
  foldl (λ best word,
    let word := TrimPrefix word "#" in
    if bool_decide (word = term) then one
    else if HasPrefix word term || HasPrefix term word then
      if f64_lt best (f64_ratio 65 100) then f64_ratio 65 100 else best
    else best) best contentWords.

Definition termOverlap (parsed : ParsedQuery) (content : string) : f64 :=
  let terms := match Terms parsed with [] => words (Folded parsed) | terms => terms end in
  match terms with
  | [] => zero
  | _ =>
      let folded := foldMatchText content in
      match words folded with
      | [] => zero
      | contentWords =>
          let sum := foldl (λ sum term,
            let term := TrimPrefix (foldToken term) "#" in
            if bool_decide (term = "") then sum else f64_add sum (term_match folded contentWords term)) zero terms in
          clamp01 (f64_div sum (f64_of_Z (Z.of_nat (length terms))))
      end
  end.

Definition noteLexical (parsed : ParsedQuery) (note : NoteScoreInput) : f64 :=
  if bool_decide (trim_space (Content note) = "") then
    if f64_lt zero (EngineScore note) then clamp01 (EngineScore note) else f64_ratio 55 100
  else
    let overlap := termOverlap parsed (Content note) in
    let overlap :=
      if negb (bool_decide (Phrases parsed = [])) && ContentMatchesPhrases (Content note) (Phrases parsed)
         && f64_lt overlap (f64_ratio 85 100)
      then f64_ratio 85 100 else overlap in
    if f64_lt zero overlap then overlap
    else if f64_lt zero (EngineScore note) then clamp01 (EngineScore note)
    else f64_ratio 25 100.

Definition noteRecency (createdAt : Z) (now : time) : f64 :=
  if createdAt <=? 0 then half
  else
    let age := time_sub now (of_unix createdAt) in
    let age := if age <? 0 then 0 else age in
    math_exp (f64_div (f64_mul minus_ln2 (seconds age)) (seconds NoteRecencyHalfLife)).

Definition noteEngagement (note : NoteScoreInput) : f64 :=
  let raw := f64_of_Z (i64 (ReplyCount note * 4 + RepostCount note * 3 + ReactionCount note + ZapCount note * 2)) in
  if f64_le raw zero then zero
  else
    let value := f64_div (math_log1p raw) (math_log1p engagementSaturation) in
    if f64_lt one value then one else value.

(** [now] is the caller's time, or the clock's when that is zero. *)
Definition now_or (clock now : time) : time := if time_is_zero now then clock else now.

(** [-1] for a note that misses a phrase. *)
Definition ScoreNote (clock : time) (query : string) (note : NoteScoreInput) (now : time) : f64 :=
  let now := now_or clock now in
  let parsed := ParseSearchQuery query in
  if negb (ContentMatchesPhrases (Content note) (Phrases parsed)) then f64_of_Z (-1)
  else
    let score := f64_add (f64_add (f64_mul noteLexicalWeight (noteLexical parsed note))
                                  (f64_mul noteRecencyWeight (noteRecency (CreatedAt note) now)))
                         (f64_mul noteEngagementWeight (noteEngagement note)) in
    let score := if IsQueryStub (Content note) query then f64_mul score queryStubMultiplier else score in
    if noteIsAutomated note parsed then f64_mul score automatedMultiplier else score.

Record noteRankRow := mkRow {
  note : NoteScoreInput;
  score : f64;
  idx : Z;
  demoted : bool;
  dup : bool;
}.

Definition notesHaveFeatures (notes : list NoteScoreInput) : bool :=
  existsb (λ n,
    negb (bool_decide (trim_space (Content n) = "")) || (0 <? CreatedAt n)
    || (0 <? i64 (ReplyCount n + RepostCount n + ReactionCount n + ZapCount n))
    || AuthorBot n || f64_lt zero (EngineScore n)) notes.

(** ** Near-duplicates *)

Definition withinDuplicateWindow (a b : NoteScoreInput) : bool :=
  if (CreatedAt a <=? 0) || (CreatedAt b <=? 0) then true
  else
    let delta := i64 (CreatedAt a - CreatedAt b) in
    let delta := if delta <? 0 then i64 (- delta) else delta in
    delta <=? 7 * 24 * 3600.

Definition normalizeDuplicate (content : string) : string :=
  trim_space (whitespacePattern (digitPattern (urlPattern (to_lower content)))).

Definition duplicateKey (n : NoteScoreInput) : string :=
  if bool_decide (Pubkey n = "") then ""
  else
    let normalized := normalizeDuplicate (Content n) in
    if go_len normalized <? 24 then "" else Pubkey n +:+ str [10] +:+ normalized.

Definition set_dup (r : noteRankRow) : noteRankRow := mkRow (note r) (score r) (idx r) (demoted r) true.

(** The loop of [markNearDuplicates] over the rows from index [i]; the range
    takes a copy of each row before the marks of later rounds, and only
    [note] and [score] of it are read. *)
Fixpoint mark_from (i : nat) (todo rows : list noteRankRow) (best : gmap string nat) : list noteRankRow :=
  match todo with
  | [] => rows
  | row :: todo =>
      let key := duplicateKey (note row) in
      if bool_decide (key = "") then mark_from (S i) todo rows best
      else
        match best !! key with
        | None => mark_from (S i) todo rows (<[key := i]> best)
        | Some prev =>
            match rows !! prev with
            | None => rows
            | Some p =>
                if negb (withinDuplicateWindow (note p) (note row)) then mark_from (S i) todo rows best
                else if f64_lt (score p) (score row)
                        || (negb (f64_ne (score row) (score p)) && (CreatedAt (note p) <? CreatedAt (note row)))
                then mark_from (S i) todo (alter set_dup prev rows) (<[key := i]> best)
                else mark_from (S i) todo (alter set_dup i rows) best
            end
        end
  end.

Definition markNearDuplicates (rows : list noteRankRow) : list noteRankRow := mark_from 0 rows rows ∅.

(** ** The author cap *)

Definition author_key (r : noteRankRow) : string :=
  if bool_decide (Pubkey (note r) = "") then "id:" +:+ ID (note r) else Pubkey (note r).

Definition cap_step (cap window : Z) (s : list noteRankRow * list noteRankRow * gmap string Z) (row : noteRankRow) :
  list noteRankRow * list noteRankRow * gmap string Z :=
  let '(kept, overflow, counts) := s in
  let n := default 0 (counts !! author_key row) in
  if (Z.of_nat (length kept) <? window) && (n <? cap) then (kept ++ [row], overflow, <[author_key row := n + 1]> counts)
  else (kept, overflow ++ [row], counts).

Definition applyAuthorCapRows (rows : list noteRankRow) (cap window : Z) : list noteRankRow :=
  if (cap <=? 0) || (window <=? 0) then rows
  else let '(kept, overflow, _) := foldl (cap_step cap window) ([], [], ∅) rows in kept ++ overflow.

(** ** The page of notes *)

Definition latest_less (a b : noteRankRow) : bool :=
  if negb (Bool.eqb (demoted a) (demoted b)) then negb (demoted a)
  else if negb (CreatedAt (note a) =? CreatedAt (note b)) then CreatedAt (note b) <? CreatedAt (note a)
  else idx a <? idx b.

Definition relevant_less (a b : noteRankRow) : bool :=
  if f64_ne (score a) (score b) then f64_lt (score b) (score a)
  else if negb (CreatedAt (note a) =? CreatedAt (note b)) then CreatedAt (note b) <? CreatedAt (note a)
  else idx a <? idx b.

Context `{SliceSort}.

(** The rows of the notes that keep every phrase, with their place in the input. *)
Fixpoint score_rows (clock : time) (query : string) (now : time) (i : Z) (notes : list NoteScoreInput) : list noteRankRow :=
  match notes with
  | [] => []
  | n :: notes =>
      let s := ScoreNote clock query n now in
      let rest := score_rows clock query now (i + 1) notes in
      if f64_lt s zero then rest else mkRow n s i (noteIsAutomated n (ParseSearchQuery query)) false :: rest
  end.

Definition demote_dup (r : noteRankRow) : noteRankRow :=
  if dup r then mkRow (note r) (f64_mul (score r) duplicateMultiplier) (idx r) true true else r.

Definition RankNotes (clock : time) (query : string) (notes : list NoteScoreInput) (opts : RankOptions) : list NoteScoreInput :=
  match notes with
  | [] => notes
  | _ =>
      let now := now_or clock (Now opts) in
      match notes with
      | [n] => if f64_lt (ScoreNote clock query n now) zero then [] else notes
      | _ =>
          if negb (notesHaveFeatures notes) && bool_decide (Phrases (ParseSearchQuery query) = []) then notes
          else
            let sortName := to_lower (trim_space (Sort opts)) in
            let rows := map demote_dup (markNearDuplicates (score_rows clock query now 0 notes)) in
            let rows := sort_Slice (if bool_decide (sortName = "latest") then latest_less else relevant_less) rows in
            map note (applyAuthorCapRows rows NoteAuthorCap NoteAuthorCapWindow)
      end
  end.

(** * Profiles *)

Definition ScoreProfile (clock : time) (query : string) (p : ProfileScoreInput) (now : time) : Z * f64 :=
  let now := now_or clock now in
  let foldedQuery := foldToken (stripQueryDecorations query) in
  let name := foldToken (PName p) in
  let display := foldToken (PDisplayName p) in
  let nip05 := foldToken (PNIP05 p) in
  let local := match cut 64 (bytes nip05) with Some (before, _) => str before | None => nip05 end in
  let some := negb (bool_decide (foldedQuery = "")) in
  let exact := some && (bool_decide (name = foldedQuery) || bool_decide (display = foldedQuery)
                        || bool_decide (nip05 = foldedQuery) || bool_decide (local = foldedQuery)) in
  let prefix := some && (HasPrefix name foldedQuery || HasPrefix display foldedQuery
                         || HasPrefix nip05 foldedQuery || HasPrefix local foldedQuery) in
  let contains := some && (Contains name foldedQuery || Contains display foldedQuery
                           || Contains nip05 foldedQuery || Contains (foldToken (PAbout p)) foldedQuery) in
  let tier := if NameLooksLikeURLOrHex (PName p) (PDisplayName p) then 9
              else if exact then 0 else if prefix then 1 else if contains then 2 else 3 in
  let tier := if PBot p && (tier <? 8) then tier + 5 else tier in
  let lexical := if exact then one else if prefix then f64_ratio 7 10 else if contains then f64_ratio 4 10 else f64_ratio 2 10 in
  let activity :=
    if 0 <? RecentActivityAt p then
      let age := f64_of_Z (i64 (time_unix now - RecentActivityAt p)) in
      let age := if f64_lt age zero then zero else age in
      math_exp (f64_div (f64_mul minus_ln2 age) (seconds profileActivityHalfLife))
    else zero in
  let score := f64_add (f64_add (f64_add (math_log1p (f64_of_Z (max64 (FollowerCount p) 0))) (f64_mul (f64_of_Z 3) activity)) lexical)
                 (f64_mul (f64_ratio 15 100) (math_log1p (f64_of_Z (max64 (RecentPostCount p) 0)))) in
  (tier, score).

Definition profilesHaveFeatures (profiles : list ProfileScoreInput) : bool :=
  existsb (λ p,
    negb (bool_decide (trim_space (PName p) = "")) || negb (bool_decide (trim_space (PDisplayName p) = ""))
    || negb (bool_decide (trim_space (PNIP05 p) = "")) || negb (bool_decide (trim_space (PAbout p) = ""))
    || (0 <? FollowerCount p) || (0 <? RecentPostCount p) || (0 <? RecentActivityAt p) || PBot p) profiles.

Record profileRow := mkPRow {
  profile : ProfileScoreInput;
  tier : Z;
  p_score : f64;
  p_idx : Z;
  latest : Z;
}.

Definition profile_row (clock : time) (query : string) (opts : RankOptions) (i : Z) (p : ProfileScoreInput) : profileRow :=
  let now := now_or clock (Now opts) in
  let '(t, s) := ScoreProfile clock query p now in
  let t := match Window opts with
           | Some w =>
               if (0 <? w) && (0 <? RecentActivityAt p) then
                 let cutoff := time_unix (now - w) in
                 if (RecentActivityAt p <? cutoff) && (t <? 8) then t + 3 else t
               else t
           | None => t
           end in
  mkPRow p t s i (RecentActivityAt p).

Definition latest_profile_less (a b : profileRow) : bool :=
  if negb (tier a =? tier b) then tier a <? tier b
  else if negb (latest a =? latest b) then latest b <? latest a
  else p_idx a <? p_idx b.

Definition profile_less (a b : profileRow) : bool :=
  if negb (tier a =? tier b) then tier a <? tier b
  else if f64_ne (p_score a) (p_score b) then f64_lt (p_score b) (p_score a)
  else p_idx a <? p_idx b.

Definition RankProfiles (clock : time) (query : string) (profiles : list ProfileScoreInput) (opts : RankOptions) : list ProfileScoreInput :=
  if (length profiles <=? 1)%nat || negb (profilesHaveFeatures profiles) then profiles
  else
    let sortName := to_lower (trim_space (Sort opts)) in
    let rows := imap (λ i p, profile_row clock query opts (Z.of_nat i) p) profiles in
    map profile (sort_Slice (if bool_decide (sortName = "latest") then latest_profile_less else profile_less) rows).
End rank.

(** * Scores are not negative *)

Section scores.
Context `{UnicodeTables} `{UnicodeClasses} `{ExpLog}.

Lemma pos_nonneg a : f64_lt zero a = true → nonneg a.
Proof. by destruct a as [[]|[]| |[]]. Qed.

Lemma ratio_nonneg a b : 0 ≤ a → f64_lt (f64_of_Z 0) (f64_of_Z b) = true → nonneg (f64_ratio a b).
Proof. intros Ha Hb. apply nonneg_div; [by apply nonneg_of_Z|done]. Qed.

Lemma zero_one_nonneg : nonneg zero ∧ nonneg one ∧ nonneg half.
Proof. vm_compute. done. Qed.

Lemma clamp01_nonneg a : nonneg (clamp01 a).
Proof.
  unfold clamp01. destruct zero_one_nonneg as (? & ? & _). destruct (f64_lt a zero) eqn:E; [done|].
  destruct (f64_lt one a); [done|]. by apply nonneg_lt_zero.
Qed.

Lemma noteLexical_nonneg parsed n : nonneg (noteLexical parsed n).
Proof.
  assert (∀ a, 0 ≤ a → nonneg (f64_ratio a 100)) as Hr by (intros; by apply ratio_nonneg).
  unfold noteLexical. cbv zeta. destruct (bool_decide _).
  - destruct (f64_lt zero (EngineScore n)); [apply clamp01_nonneg|apply Hr; lia].
  - match goal with |- nonneg (if f64_lt zero ?o then _ else _) => destruct (f64_lt zero o) eqn:E end; [by apply pos_nonneg|].
    destruct (f64_lt zero (EngineScore n)); [apply clamp01_nonneg|apply Hr; lia].
Qed.

Lemma noteRecency_nonneg createdAt now : nonneg (noteRecency createdAt now).
Proof. unfold noteRecency. cbv zeta. destruct (createdAt <=? 0); [apply zero_one_nonneg|apply exp_nonneg]. Qed.

Lemma noteEngagement_nonneg n : nonneg (noteEngagement n).
Proof.
  unfold noteEngagement. cbv zeta. set (raw := f64_of_Z _). destruct (f64_le raw zero) eqn:E; [apply zero_one_nonneg|].
  destruct (f64_lt one _); [apply zero_one_nonneg|]. apply nonneg_div; [|by apply log1p_pos].
  destruct (f64_lt zero raw) eqn:E'; [by apply pos_nonneg, log1p_pos|].
  assert (raw = S754_nan) as -> by (clearbody raw; by destruct raw as [[]|[]| |[]]).
  pose proof log1p_nan. by destruct (math_log1p S754_nan).
Qed.

(** Exactly the notes that miss a phrase score below zero. *)
Lemma ScoreNote_negative clock query n now :
  f64_lt (ScoreNote clock query n now) zero = negb (ContentMatchesPhrases (Content n) (Phrases (ParseSearchQuery query))).
Proof.
  assert (∀ a, 0 ≤ a → nonneg (f64_ratio a 100)) as Hr by (intros; by apply ratio_nonneg).
  assert (∀ (b : bool) s a, nonneg s → 0 ≤ a → nonneg (if b then f64_mul s (f64_ratio a 100) else s)) as Hm.
  { intros [] s a Hs Ha; [|done]. apply nonneg_mul; auto. }
  unfold ScoreNote. cbv zeta. destruct (ContentMatchesPhrases _ _); [|vm_compute; reflexivity].
  apply nonneg_lt_zero. cbn [negb]. apply Hm; [|lia]. apply Hm; [|lia].
  apply nonneg_add; [apply nonneg_add|]; apply nonneg_mul.
  - exact (Hr 35 ltac:(lia)).
  - apply noteLexical_nonneg.
  - exact (Hr 45 ltac:(lia)).
  - apply noteRecency_nonneg.
  - exact (Hr 20 ltac:(lia)).
  - apply noteEngagement_nonneg.
Qed.
End scores.

(** * Near-duplicates *)

Section duplicates.
Context `{UnicodeTables} `{UnicodeClasses}.

(** All of a row but the mark. *)
Definition core (r : noteRankRow) : NoteScoreInput * f64 * Z * bool := (note r, score r, idx r, demoted r).

Lemma alter_core (i : nat) (rows : list noteRankRow) : core <$> alter set_dup i rows = core <$> rows.
Proof. apply list_eq. intros j. rewrite !list_lookup_fmap, list_lookup_alter. case_decide; [subst|done]. by destruct (rows !! j). Qed.

Lemma mark_core i todo rows best : core <$> mark_from i todo rows best = core <$> rows.
Proof.
  revert i rows best. induction todo as [|row todo IH]; intros i rows best; cbn [mark_from]; cbv zeta; [done|].
  repeat (case_match; rewrite ?IH, ?alter_core; try done).
Qed.

Definition clean (r : noteRankRow) : Prop := is_nan (score r) = false.

(** After the rows below [i]: the entry of a key is an unmarked row of it, and a
    marked row is not above the entry of its key. *)
Record mark_inv (i : nat) (rows : list noteRankRow) (best : gmap string nat) : Prop := {
  mi_best : ∀ k b, best !! k = Some b →
    (b < i)%nat ∧ ∃ p, rows !! b = Some p ∧ dup p = false ∧ duplicateKey (note p) = k ∧ k ≠ "";
  mi_marked : ∀ j r, rows !! j = Some r → dup r = true →
    (j < i)%nat ∧ ∃ b p, best !! duplicateKey (note r) = Some b ∧ rows !! b = Some p ∧ f64_lt (score p) (score r) = false;
}.

Lemma not_lt_trans a b c :
  is_nan a = false → is_nan b = false → is_nan c = false →
  f64_lt a b = false → f64_lt b c = false → f64_lt a c = false.
Proof.
  intros Ha Hb Hc. rewrite <-!not_true_iff_false, !f64_lt_rank by done. unfold rank_lt. lia.
Qed.

Lemma alter_lookup (rows : list noteRankRow) (i j : nat) r :
  alter set_dup i rows !! j = Some r ↔ (i = j ∧ ∃ r0, rows !! j = Some r0 ∧ r = set_dup r0) ∨ (i ≠ j ∧ rows !! j = Some r).
Proof.
  rewrite list_lookup_alter. case_decide; simplify_eq; [|naive_solver]. destruct (rows !! j); simpl; naive_solver.
Qed.

Lemma clean_lookup (rows : list noteRankRow) (j : nat) r : Forall clean rows → rows !! j = Some r → is_nan (score r) = false.
Proof. intros Hc Hj. rewrite Forall_lookup in Hc. by apply (Hc j). Qed.

(** Row [i] joins as the entry of a key that has none. *)
Lemma mark_inv_first i rows best r k :
  mark_inv i rows best → rows !! i = Some r → duplicateKey (note r) = k → k ≠ "" → best !! k = None →
  mark_inv (S i) rows (<[k := i]> best).
Proof.
  intros [Hb Hm] Hi Hk Hne Hnone. split.
  - intros k' b. rewrite lookup_insert. case_decide as E.
    + intros [= <-]. subst k'. split; [lia|]. exists r. split; [done|]. split; [|done].
      destruct (dup r) eqn:Ed; [|done]. destruct (Hm i r Hi Ed). lia.
    + intros Hk'%Hb. destruct Hk' as (? & Hk'). split; [lia|done].
  - intros j x Hj Hd. destruct (Hm j x Hj Hd) as (Hlt & b & p & Hb1 & Hp & Hs). split; [lia|]. exists b, p.
    rewrite lookup_insert_ne; [done|]. intros E. rewrite <-E in Hb1. congruence.
Qed.

(** A row that changes nothing. *)
Lemma mark_inv_skip i rows best : mark_inv i rows best → mark_inv (S i) rows best.
Proof.
  intros [Hb Hm]. split.
  - intros k b Hk. destruct (Hb k b Hk). split; [lia|done].
  - intros j x Hj Hd. destruct (Hm j x Hj Hd). split; [lia|done].
Qed.

(** Row [i] is marked, the entry of its key being no worse. *)
Lemma mark_inv_drop i rows best r b p :
  mark_inv i rows best → rows !! i = Some r → best !! duplicateKey (note r) = Some b → rows !! b = Some p →
  f64_lt (score p) (score r) = false → mark_inv (S i) (alter set_dup i rows) best.
Proof.
  intros [Hb Hm] Hi Hk Hp Hs. split.
  - intros k b' Hk'. destruct (Hb k b' Hk') as (Hlt & p' & Hp' & Hrest). split; [lia|]. exists p'. split; [|done].
    apply alter_lookup. right. split; [lia|done].
  - intros j x Hj Hd. apply alter_lookup in Hj as [(<- & r0 & Hr0 & ->)|[Hne Hj]].
    + simplify_eq. split; [lia|]. exists b, p. split; [done|]. split; [|done]. apply alter_lookup. right.
      destruct (Hb _ _ Hk). split; [lia|done].
    + destruct (Hm j x Hj Hd) as (Hlt & b' & p' & Hb' & Hp' & Hs'). split; [lia|]. exists b', p'. split; [done|]. split; [|done].
      apply alter_lookup. right. destruct (Hb _ _ Hb'). split; [lia|done].
Qed.

(** Row [i] replaces the entry of its key, which is no better and is marked. *)
Lemma mark_inv_replace i rows best r b p :
  Forall clean rows → mark_inv i rows best → rows !! i = Some r → best !! duplicateKey (note r) = Some b → rows !! b = Some p →
  f64_lt (score r) (score p) = false → mark_inv (S i) (alter set_dup b rows) (<[duplicateKey (note r) := i]> best).
Proof.
  intros Hc [Hb Hm] Hi Hk Hp Hs. destruct (Hb _ _ Hk) as (Hbi & p0 & Hp0 & Hd0 & Hk0 & Hne0). simplify_eq.
  assert (alter set_dup b rows !! i = Some r) as Hi' by (apply alter_lookup; right; split; [lia|done]).
  split.
  - intros k b'. rewrite lookup_insert. case_decide as E.
    + intros [= <-]. subst k. split; [lia|]. exists r. split; [done|]. split; [|done].
      destruct (dup r) eqn:Ed; [|done]. destruct (Hm i r Hi Ed). lia.
    + intros Hk'. destruct (Hb k b' Hk') as (Hlt & p' & Hp' & Hd' & Hkey & Hne). split; [lia|]. exists p'. split; [|done].
      apply alter_lookup. right. split; [|done]. intros ->. simplify_eq; congruence.
  - intros j x Hj Hd. apply alter_lookup in Hj as [(<- & r0 & Hr0 & ->)|[Hne Hj]].
    + simplify_eq. split; [lia|]. exists i, r. simpl. by rewrite Hk0, lookup_insert_eq.
    + destruct (Hm j x Hj Hd) as (Hlt & b' & p' & Hb' & Hp' & Hs'). split; [lia|].
      destruct (decide (duplicateKey (note r) = duplicateKey (note x))) as [E|E].
      * exists i, r. rewrite E, lookup_insert_eq. split; [done|]. split; [done|]. rewrite E in Hk. simplify_eq.
        eapply not_lt_trans; [..|exact Hs|exact Hs']; by eapply clean_lookup.
      * exists b', p'. rewrite lookup_insert_ne by done. split; [done|]. split; [|done]. apply alter_lookup. right. split; [|done].
        intros ->. destruct (Hb _ _ Hb') as (_ & q & Hq & _ & Hkq & _). simplify_eq; congruence.
Qed.

Lemma clean_alter (i : nat) (rows : list noteRankRow) : Forall clean rows → Forall clean (alter set_dup i rows).
Proof.
  intros Hc. apply Forall_lookup. intros j r [(_ & r0 & Hr0 & ->)|[_ Hj]]%alter_lookup; unfold clean; simpl; by eapply clean_lookup.
Qed.

Lemma mark_from_inv i todo rows best :
  Forall clean rows → core <$> drop i rows = core <$> todo → mark_inv i rows best →
  ∃ j best', mark_inv j (mark_from i todo rows best) best'.
Proof.
  revert i rows best. induction todo as [|row todo IH]; intros i rows best Hc Ht Hinv; cbn [mark_from]; cbv zeta; [by eauto|].
  destruct (rows !! i) as [r|] eqn:Hi; [|by rewrite (drop_ge _ _ (lookup_ge_None_1 _ _ Hi)) in Ht].
  rewrite (drop_S _ _ _ Hi) in Ht. cbn [fmap list_fmap] in Ht. injection Ht as E1 E2 _ _ Ht.
  rewrite <-E1, <-E2 in *.
  assert (∀ rows', core <$> rows' = core <$> rows → core <$> drop (S i) rows' = core <$> todo) as Hdrop.
  { intros rows' E. rewrite <-Ht, !fmap_drop, E. done. }
  case_bool_decide as Hk; [by apply IH, mark_inv_skip; auto|].
  destruct (best !! duplicateKey (note r)) as [b|] eqn:Hb.
  2:{ apply IH; [done|by apply Hdrop|]. by eapply mark_inv_first. }
  destruct (rows !! b) as [p|] eqn:Hp; [|by eauto].
  destruct (withinDuplicateWindow (note p) (note r)); cbn [negb]; [|by apply IH, mark_inv_skip; auto].
  destruct (_ || _) eqn:Eb.
  - apply IH; [by apply clean_alter|apply Hdrop, alter_core|]. eapply mark_inv_replace; try done.
    apply not_true_iff_false. rewrite f64_lt_rank by by eapply clean_lookup. apply orb_true_iff in Eb as [Eb|Eb].
    + rewrite f64_lt_rank in Eb by by eapply clean_lookup. unfold rank_lt in *. lia.
    + apply andb_true_iff in Eb as [Eb%negb_true_iff _]. rewrite f64_ne_rank in Eb by by eapply clean_lookup.
      rewrite Eb. unfold rank_lt. lia.
  - apply IH; [by apply clean_alter|apply Hdrop, alter_core|]. apply orb_false_iff in Eb as [Eb _]. by eapply mark_inv_drop.
Qed.

(** near-duplicates are demoted, never dropped, and never all of them. Marking
    changes no note, score or position; a row is marked only for another one that
    stays unmarked, has the same author and the same text up to links, numbers
    and white space, and scores no less. *)
Theorem near_duplicates_represented rows :
  Forall (λ r, is_nan (score r) = false ∧ dup r = false) rows →
  let out := markNearDuplicates rows in
  core <$> out = core <$> rows ∧
  ∀ r, r ∈ out → dup r = true →
    ∃ p, p ∈ out ∧ dup p = false ∧ duplicateKey (note r) ≠ "" ∧ duplicateKey (note p) = duplicateKey (note r)
         ∧ f64_lt (score p) (score r) = false.
Proof.
  intros Hall out. split; [apply mark_core|]. subst out. unfold markNearDuplicates.
  destruct (mark_from_inv 0 rows rows ∅) as (j & best & [Hb Hm]).
  - eapply Forall_impl; [|exact Hall]. by intros r [? _].
  - by rewrite drop_0.
  - split; [by intros k b ?%lookup_empty_Some|]. intros j r Hj Hd. rewrite Forall_lookup in Hall.
    destruct (Hall _ _ Hj). congruence.
  - intros r [i Hi]%list_elem_of_lookup Hd. destruct (Hm i r Hi Hd) as (_ & b & p & Hbr & Hp & Hs).
    destruct (Hb _ _ Hbr) as (_ & p' & Hp' & Hd' & Hk' & Hne). assert (p' = p) as -> by congruence. exists p.
    split; [by apply list_elem_of_lookup; exists b|]. done.
Qed.
End duplicates.

(** * The page of notes *)

(** Rows of one author. *)
Definition author_count (k : string) (rows : list noteRankRow) : Z :=
  Z.of_nat (length (List.filter (λ r, bool_decide (author_key r = k)) rows)).

Lemma author_count_snoc k rows r :
  author_count k (rows ++ [r]) = author_count k rows + if bool_decide (author_key r = k) then 1 else 0.
Proof. unfold author_count. rewrite filter_app. simpl. destruct (bool_decide _); rewrite ?length_app; simpl; rewrite ?app_nil_r; lia. Qed.

(** The state of the loop after [rows]. *)
Record capped (cap window : Z) (rows kept overflow : list noteRankRow) (counts : gmap string Z) : Prop := {
  cp_perm : kept ++ overflow ≡ₚ rows;
  cp_counts : ∀ k, default 0 (counts !! k) = author_count k kept;
  cp_cap : ∀ k, author_count k kept ≤ cap;
  cp_window : Z.of_nat (length kept) ≤ window;
  cp_overflow : ∀ r, r ∈ overflow → Z.of_nat (length kept) = window ∨ author_count (author_key r) kept = cap;
  cp_kept_order : kept `sublist_of` rows;
  cp_overflow_order : overflow `sublist_of` rows;
}.

Lemma cap_fold cap window rows :
  0 ≤ cap → 0 ≤ window →
  let '(kept, overflow, counts) := foldl (cap_step cap window) ([], [], ∅) rows in capped cap window rows kept overflow counts.
Proof.
  intros Hc Hw. induction rows as [|row rows IH] using rev_ind.
  { simpl. split; [done|intros k; by rewrite lookup_empty|intros k; exact Hc|simpl; lia|by intros r ?%elem_of_nil|done|done]. }
  rewrite foldl_app. destruct (foldl _ _ rows) as [[kept overflow] counts]. destruct IH as [P1 P2 P3 P4 P5 P6 P7]. simpl.
  rewrite P2. destruct (_ && _) eqn:E.
  - apply andb_true_iff in E as [E1%Z.ltb_lt E2%Z.ltb_lt]. split.
    + rewrite <-app_assoc, (Permutation_app_comm [row]), app_assoc, P1. done.
    + intros k. rewrite author_count_snoc, lookup_insert. case_decide as Ek.
      * subst k. rewrite bool_decide_true by done. done.
      * rewrite bool_decide_false, P2 by done. lia.
    + intros k. rewrite author_count_snoc. specialize (P3 k). case_bool_decide; [subst k; lia|lia].
    + rewrite length_app. simpl. lia.
    + intros r Hr. rewrite author_count_snoc, length_app. simpl. destruct (P5 r Hr) as [?|Hk]; [lia|right].
      case_bool_decide as Ek; [|lia]. rewrite Ek in E2. lia.
    + by apply sublist_app.
    + by apply sublist_inserts_r.
  - split; try done.
    + rewrite app_assoc, P1. done.
    + intros r [Hr|Hr%list_elem_of_singleton]%elem_of_app; [by apply P5|]. subst r.
      apply andb_false_iff in E as [E%Z.ltb_ge|E%Z.ltb_ge]; [left; lia|right]. specialize (P3 (author_key row)). lia.
    + by apply sublist_inserts_r.
    + by apply sublist_app.
Qed.

Lemma sublist_sorted {A} (R : A → A → Prop) l k : k `sublist_of` l → StronglySorted R l → StronglySorted R k.
Proof.
  intros Hs. induction Hs as [|x k l Hs IH|x k l Hs IH]; intros Hl; [done|..]; inversion Hl as [|? ? Hl' Hx]; subst; auto.
  constructor; [auto|]. apply List.Forall_forall. intros y Hy. rewrite List.Forall_forall in Hx. apply Hx.
  apply list_elem_of_In. eapply elem_of_submseteq; [by apply list_elem_of_In|by apply sublist_submseteq].
Qed.

(** Both comparisons are orders on rows whose score is a number. *)
Lemma relevant_less_weak : strict_weak clean relevant_less.
Proof.
  assert (∀ a b, clean a → clean b → relevant_less a b = true ↔
    rank_lt (f64_rank (score b)) (f64_rank (score a)) ∨
    f64_rank (score a) = f64_rank (score b) ∧ (CreatedAt (note b) < CreatedAt (note a) ∨ CreatedAt (note a) = CreatedAt (note b) ∧ idx a < idx b)) as Hspec.
  { intros a b Ha Hb. unfold relevant_less. destruct (f64_ne (score a) (score b)) eqn:E.
    - rewrite f64_lt_rank by done. apply not_false_iff_true in E. rewrite f64_ne_rank in E by done. tauto.
    - apply f64_ne_rank in E; [|done..]. rewrite E. destruct (Z.eqb_spec (CreatedAt (note a)) (CreatedAt (note b))); cbn [negb]; rewrite Z.ltb_lt;
        (split; [intros; right; split; [done|lia]|intros [?|[_ ?]]; [unfold rank_lt in *|]; lia]). }
  split.
  - intros x Hx. apply not_true_iff_false. rewrite Hspec by done. unfold rank_lt. lia.
  - intros x y z Hx Hy Hz. rewrite !Hspec by done. destruct (f64_rank (score x)) as [[? ?] ?], (f64_rank (score y)) as [[? ?] ?], (f64_rank (score z)) as [[? ?] ?].
    unfold rank_lt. simpl. intros [?|[? ?]] [?|[? ?]]; simplify_eq; lia || (right; split; [done|lia]) || (left; lia).
  - intros x y z Hx Hy Hz. rewrite <-!not_true_iff_false, !Hspec by done.
    destruct (f64_rank (score x)) as [[a1 a2] a3] eqn:Ea, (f64_rank (score y)) as [[b1 b2] b3] eqn:Eb, (f64_rank (score z)) as [[c1 c2] c3] eqn:Ec.
    assert (∀ u1 u2 u3 v1 v2 v3 : Z, (u1, u2, u3) = (v1, v2, v3) ↔ u1 = v1 ∧ u2 = v2 ∧ u3 = v3) as Heq by naive_solver.
    rewrite !Heq. unfold rank_lt. simpl. lia.
Qed.

Lemma latest_less_weak : strict_weak (λ _, True) latest_less.
Proof.
  assert (∀ a b, latest_less a b = true ↔
    (demoted a = false ∧ demoted b = true) ∨ demoted a = demoted b ∧
      (CreatedAt (note b) < CreatedAt (note a) ∨ CreatedAt (note a) = CreatedAt (note b) ∧ idx a < idx b)) as Hspec.
  { intros a b. unfold latest_less. destruct (demoted a), (demoted b); cbn [Bool.eqb negb]; try (split; [done|naive_solver]); try tauto;
      (destruct (Z.eqb_spec (CreatedAt (note a)) (CreatedAt (note b))); cbn [negb]; rewrite Z.ltb_lt; (split; [intros; right; split; [done|lia]|intros [[? ?]|[_ ?]]; [done|lia]])). }
  split.
  - intros x _. apply not_true_iff_false. rewrite Hspec. destruct (demoted x); intros [[? ?]|[_ ?]]; try done; lia.
  - intros x y z _ _ _. rewrite !Hspec. destruct (demoted x), (demoted y), (demoted z); intros [[? ?]|[? ?]] [[? ?]|[? ?]]; try done; try (left; done); right; (split; [done|lia]).
  - intros x y z _ _ _. rewrite <-!not_true_iff_false, !Hspec. destruct (demoted x), (demoted y), (demoted z); intros H1 H2 [[? ?]|[? ?]]; try done;
      first [apply H1; left; done | apply H2; left; done | apply H1; right; split; [done|lia] | apply H2; right; split; [done|lia]| idtac].
    all: destruct (Z.lt_trichotomy (CreatedAt (note x)) (CreatedAt (note y))) as [?|[?|?]]; first [apply H1; right; split; [done|lia] | apply H2; right; split; [done|lia]].
Qed.

Section page.
Context `{UnicodeTables} `{UnicodeClasses} `{ExpLog} `{SliceSort}.

Definition matches (query : string) (n : NoteScoreInput) : bool :=
  ContentMatchesPhrases (Content n) (Phrases (ParseSearchQuery query)).

(** The rows that are sorted, and the comparison that sorts them. *)
Definition ranked_rows (clock : time) (query : string) (notes : list NoteScoreInput) (opts : RankOptions) : list noteRankRow :=
  map demote_dup (markNearDuplicates (score_rows clock query (now_or clock (Now opts)) 0 notes)).

Definition rank_less (opts : RankOptions) : noteRankRow → noteRankRow → bool :=
  if bool_decide (to_lower (trim_space (Sort opts)) = "latest") then latest_less else relevant_less.

Lemma score_rows_notes clock query now i notes :
  map note (score_rows clock query now i notes) = List.filter (matches query) notes.
Proof.
  revert i. induction notes as [|n notes IH]; intros i; simpl; [done|]. rewrite ScoreNote_negative. fold (matches query n).
  destruct (matches query n); simpl; by rewrite IH.
Qed.

Lemma ranked_rows_notes clock query notes opts :
  map note (ranked_rows clock query notes opts) = List.filter (matches query) notes.
Proof.
  unfold ranked_rows. rewrite map_map. transitivity (map (λ r, (core r).1.1.1) (markNearDuplicates (score_rows clock query (now_or clock (Now opts)) 0 notes))).
  { apply map_ext. intros r. unfold demote_dup. by destruct (dup r). }
  rewrite <-(map_map core (λ c, c.1.1.1)). change (map core ?l) with (core <$> l). unfold markNearDuplicates.
  rewrite mark_core. change (core <$> ?l) with (map core l). rewrite map_map. apply score_rows_notes.
Qed.

Lemma rank_less_weak opts : strict_weak clean (rank_less opts).
Proof.
  unfold rank_less. case_bool_decide; [|apply relevant_less_weak]. destruct latest_less_weak. split; eauto.
Qed.

(** A page, as a head and a rest of the ranked rows. *)
Lemma ranked_page clock query notes opts :
  RankNotes clock query notes opts ≡ₚ List.filter (matches query) notes ∧
  ((2 ≤ length notes)%nat → notesHaveFeatures notes = true ∨ Phrases (ParseSearchQuery query) ≠ [] →
   ∃ kept overflow, RankNotes clock query notes opts = map note (kept ++ overflow)
     ∧ kept ++ overflow ≡ₚ ranked_rows clock query notes opts
     ∧ Z.of_nat (length kept) ≤ 20
     ∧ (∀ author, author_count author kept ≤ 2)
     ∧ (∀ r, r ∈ overflow → Z.of_nat (length kept) = 20 ∨ author_count (author_key r) kept = 2)
     ∧ (Forall (λ r, is_nan (score r) = false) (ranked_rows clock query notes opts) →
        StronglySorted (λ a b, rank_less opts b a = false) kept ∧ StronglySorted (λ a b, rank_less opts b a = false) overflow)).
Proof.
  set (sorted := sort_Slice (rank_less opts) (ranked_rows clock query notes opts)).
  pose proof (cap_fold 2 20 sorted ltac:(lia) ltac:(lia)) as Hcap.
  assert (applyAuthorCapRows sorted NoteAuthorCap NoteAuthorCapWindow
          = (foldl (cap_step 2 20) ([], [], ∅) sorted).1.1 ++ (foldl (cap_step 2 20) ([], [], ∅) sorted).1.2) as Eapp.
  { unfold applyAuthorCapRows. change NoteAuthorCap with 2. change NoteAuthorCapWindow with 20. simpl orb. cbv iota.
    by destruct (foldl _ _ _) as [[? ?] ?]. }
  destruct (foldl (cap_step 2 20) ([], [], ∅) sorted) as [[kept overflow] counts]. simpl in Eapp. destruct Hcap as [P1 P2 P3 P4 P5 P6 P7].
  assert (kept ++ overflow ≡ₚ ranked_rows clock query notes opts) as Hperm.
  { rewrite P1. apply sort_perm. }
  assert (map note (kept ++ overflow) ≡ₚ List.filter (matches query) notes) as Hpage.
  { rewrite <-(ranked_rows_notes clock query notes opts). change (map note ?l) with (note <$> l). by rewrite Hperm. }
  assert ((2 ≤ length notes)%nat → notesHaveFeatures notes = true ∨ Phrases (ParseSearchQuery query) ≠ [] →
          RankNotes clock query notes opts = map note (kept ++ overflow)) as Hrank.
  { intros Hl Hf. destruct notes as [|n [|n' notes']]; [simpl in Hl; lia..|]. unfold RankNotes.
    replace (negb (notesHaveFeatures (n :: n' :: notes')) && bool_decide (Phrases (ParseSearchQuery query) = [])) with false.
    - rewrite <-Eapp. reflexivity.
    - symmetry. apply andb_false_iff. destruct Hf as [->|Hf]; [by left|right]. by apply bool_decide_eq_false. }
  split.
  - destruct notes as [|n [|n' notes']]; [done| |].
    + unfold RankNotes. rewrite ScoreNote_negative. fold (matches query n). simpl. by destruct (matches query n).
    + destruct (decide (notesHaveFeatures (n :: n' :: notes') = true ∨ Phrases (ParseSearchQuery query) ≠ [])) as [Hf|Hf].
      { rewrite Hrank by (simpl; (lia || done)). done. }
      assert (notesHaveFeatures (n :: n' :: notes') = false) as E1 by (apply not_true_iff_false; tauto).
      assert (Phrases (ParseSearchQuery query) = []) as E2 by (destruct (Phrases (ParseSearchQuery query)); [done|exfalso; apply Hf; by right]).
      unfold RankNotes. rewrite E1, E2. cbn [negb andb]. rewrite bool_decide_true by done.
      unfold matches. rewrite E2. rewrite List.forallb_filter_id; [done|]. apply forallb_forall. done.
  - intros Hl Hf. exists kept, overflow. split; [by apply Hrank|]. repeat (split; [done|]).
    intros Hnan. assert (StronglySorted (λ a b, rank_less opts b a = false) sorted) as Hs.
    { apply (sort_sorted clean); [apply rank_less_weak|exact Hnan]. }
    split; by eapply sublist_sorted.
Qed.

(** C34: a page of ranked notes is a rearrangement of the notes that contain every
    quoted phrase: none is lost, invented or repeated. When the notes are ranked
    at all (two of them, with features or a phrase), the page is a head and a
    rest, each in the order asked for, by score or by time; the head has at most
    twenty notes and at most two of one author, and a note is in the rest only
    if the head is full or already has two of its author. *)
Theorem rank_notes_page clock query notes opts :
  RankNotes clock query notes opts ≡ₚ List.filter (matches query) notes ∧
  ((2 ≤ length notes)%nat → notesHaveFeatures notes = true ∨ Phrases (ParseSearchQuery query) ≠ [] →
   ∃ kept overflow, RankNotes clock query notes opts = map note (kept ++ overflow)
     ∧ kept ++ overflow ≡ₚ ranked_rows clock query notes opts
     ∧ Z.of_nat (length kept) ≤ 20
     ∧ (∀ author, author_count author kept ≤ 2)
     ∧ (∀ r, r ∈ overflow → Z.of_nat (length kept) = 20 ∨ author_count (author_key r) kept = 2)
     ∧ (Forall (λ r, is_nan (score r) = false) (ranked_rows clock query notes opts) →
        StronglySorted (λ a b, rank_less opts b a = false) kept ∧ StronglySorted (λ a b, rank_less opts b a = false) overflow)).
Proof. apply ranked_page. Qed.
End page.

(** * Profiles *)

Lemma sorted_weaken {A} (R S : A → A → Prop) l :
  (∀ a b, R a b → S a b) → StronglySorted R l → StronglySorted S l.
Proof. intros Hrs. induction 1 as [|x l Hl IH Hx]; constructor; [done|]. eapply Forall_impl; [|exact Hx]. auto. Qed.

Section profiles.
Context `{UnicodeTables} `{UnicodeClasses} `{ExpLog} `{SliceSort}.

(** People whose name is no URL or key take the first four tiers, bots the
    middle ones, and the others the last, whatever the query. *)
Lemma profile_tiers clock query p now :
  let t := (ScoreProfile clock query p now).1 in
  if NameLooksLikeURLOrHex (PName p) (PDisplayName p) then t = 9
  else if PBot p then 5 ≤ t ≤ 8 else 0 ≤ t ≤ 3.
Proof.
  unfold ScoreProfile. cbv zeta. cbn [fst]. destruct (NameLooksLikeURLOrHex _ _); [by destruct (PBot p)|].
  match goal with |- context [if ?e then 0 else if ?p then 1 else if ?c then 2 else 3] => destruct e, p, c end;
    by destruct (PBot p).
Qed.

Definition clean_profile (r : profileRow) : Prop := is_nan (p_score r) = false.

Lemma profile_less_weak : strict_weak clean_profile profile_less.
Proof.
  assert (∀ a b, clean_profile a → clean_profile b → profile_less a b = true ↔
    tier a < tier b ∨ tier a = tier b ∧ (rank_lt (f64_rank (p_score b)) (f64_rank (p_score a)) ∨
      f64_rank (p_score a) = f64_rank (p_score b) ∧ p_idx a < p_idx b)) as Hspec.
  { intros a b Ha Hb. unfold profile_less. destruct (Z.eqb_spec (tier a) (tier b)); cbn [negb]; [|rewrite Z.ltb_lt; lia].
    destruct (f64_ne (p_score a) (p_score b)) eqn:E.
    - rewrite f64_lt_rank by done. apply not_false_iff_true in E. rewrite f64_ne_rank in E by done.
      split; [auto|]. intros [?|[_ [?|[? _]]]]; [lia|done|tauto].
    - apply f64_ne_rank in E; [|done..]. rewrite E, Z.ltb_lt. split; [auto|]. intros [?|[_ [?|[_ ?]]]]; [lia| |done].
      unfold rank_lt in *. lia. }
  assert (∀ u1 u2 u3 v1 v2 v3 : Z, (u1, u2, u3) = (v1, v2, v3) ↔ u1 = v1 ∧ u2 = v2 ∧ u3 = v3) as Heq by naive_solver.
  split.
  - intros x Hx. apply not_true_iff_false. rewrite Hspec by done. unfold rank_lt. lia.
  - intros x y z Hx Hy Hz. rewrite !Hspec by done.
    destruct (f64_rank (p_score x)) as [[a1 a2] a3], (f64_rank (p_score y)) as [[b1 b2] b3], (f64_rank (p_score z)) as [[c1 c2] c3].
    rewrite !Heq. unfold rank_lt. simpl. lia.
  - intros x y z Hx Hy Hz. rewrite <-!not_true_iff_false, !Hspec by done.
    destruct (f64_rank (p_score x)) as [[a1 a2] a3], (f64_rank (p_score y)) as [[b1 b2] b3], (f64_rank (p_score z)) as [[c1 c2] c3].
    rewrite !Heq. unfold rank_lt. simpl. lia.
Qed.

Lemma latest_profile_less_weak : strict_weak (λ _, True) latest_profile_less.
Proof.
  assert (∀ a b, latest_profile_less a b = true ↔
    tier a < tier b ∨ tier a = tier b ∧ (latest b < latest a ∨ latest a = latest b ∧ p_idx a < p_idx b)) as Hspec.
  { intros a b. unfold latest_profile_less. destruct (Z.eqb_spec (tier a) (tier b)), (Z.eqb_spec (latest a) (latest b)); cbn [negb];
      rewrite Z.ltb_lt; lia. }
  split; intros; rewrite <-?not_true_iff_false in *; rewrite ?Hspec in *; lia.
Qed.

Lemma profile_row_profile clock query opts i p : profile (profile_row clock query opts i p) = p.
Proof. unfold profile_row. by destruct (ScoreProfile clock query p (now_or clock (Now opts))). Qed.

Lemma profile_row_score clock query opts i p :
  p_score (profile_row clock query opts i p) = (ScoreProfile clock query p (now_or clock (Now opts))).2.
Proof. unfold profile_row. by destruct (ScoreProfile clock query p (now_or clock (Now opts))). Qed.

(** A page of profiles is a rearrangement of the profiles, better tiers first. *)
Lemma rank_profiles_page clock query profiles opts :
  RankProfiles clock query profiles opts ≡ₚ profiles ∧
  ((2 ≤ length profiles)%nat → profilesHaveFeatures profiles = true →
   Forall (λ p, is_nan (ScoreProfile clock query p (now_or clock (Now opts))).2 = false) profiles →
   ∃ rows, RankProfiles clock query profiles opts = map profile rows ∧ StronglySorted (λ a b, tier a ≤ tier b) rows
     ∧ ∀ r, r ∈ rows → ∃ i, r = profile_row clock query opts i (profile r)).
Proof.
  unfold RankProfiles. cbv zeta. set (rows := imap _ profiles).
  set (less := if bool_decide (to_lower (trim_space (Sort opts)) = "latest") then latest_profile_less else profile_less).
  assert (∀ r, r ∈ rows → ∃ i, r = profile_row clock query opts i (profile r) ∧ profile r ∈ profiles) as Hrows.
  { intros r [j Hj]%list_elem_of_lookup. subst rows. rewrite list_lookup_imap in Hj. apply fmap_Some in Hj as (p & Hp & ->).
    rewrite profile_row_profile. eexists. split; [done|]. apply list_elem_of_lookup. by exists j. }
  split.
  - destruct (_ || _); [done|]. change (map profile ?l) with (profile <$> l). rewrite sort_perm. subst rows.
    apply reflexive_eq, list_eq. intros j. rewrite list_lookup_fmap, list_lookup_imap.
    destruct (profiles !! j); [|done]. cbn [fmap option_fmap option_map]. by rewrite profile_row_profile.
  - intros Hl Hf Hn. rewrite Hf, (proj2 (Nat.leb_gt _ _)) by lia. cbn [negb orb]. exists (sort_Slice less rows). split; [done|].
    assert (strict_weak clean_profile less) as Hw.
    { subst less. case_bool_decide; [|apply profile_less_weak]. destruct latest_profile_less_weak. split; eauto. }
    split.
    + assert (StronglySorted (λ a b, less b a = false) (sort_Slice less rows)) as Hs.
      { apply (sort_sorted clean_profile); [done|]. apply List.Forall_forall. intros r Hr%list_elem_of_In.
        destruct (Hrows r Hr) as (i & E & Hin). rewrite List.Forall_forall in Hn. specialize (Hn (profile r) (proj1 (list_elem_of_In _ _) Hin)).
        unfold clean_profile. by rewrite E, profile_row_score. }
      eapply sorted_weaken; [|exact Hs]. intros a b Hab. subst less.
      destruct (bool_decide _); unfold latest_profile_less, profile_less in Hab;
        destruct (Z.eqb_spec (tier b) (tier a)); cbn [negb] in Hab; try lia; apply Z.ltb_ge in Hab; lia.
    + intros r Hr. rewrite sort_perm in Hr. destruct (Hrows r Hr) as (i & E & _). eauto.
Qed.
End profiles.

(** * Examples *)

Module RankExample.
#[local] Instance ascii_classes : UnicodeClasses := {| unicode_letter _ := false; unicode_digit _ := false |}.
Existing Instance ascii_tables.

#[local] Existing Instance insertion_sort.

(** Stand-ins that satisfy what is asked of [Exp] and [Log1p]. *)
#[local] Instance toy_math : ExpLog.
Proof.
  refine {| math_exp := λ _, one; math_log1p := λ x, x |}.
  - intros _. apply zero_one_nonneg.
  - done.
  - done.
Defined.

Definition post (id author content : string) (created : Z) : NoteScoreInput :=
  mkNote id author created content 0 0 0 0 false "" "" "" (f64_of_Z 0).

Definition toy_notes : list NoteScoreInput :=
  [post "1" "a" "bitcoin today" 100; post "2" "a" "bitcoin tomorrow" 200; post "3" "a" "bitcoin forever" 300;
   post "4" "b" "about bitcoin" 50; post "5" "c" "ethereum" 400].

Definition toy_query : string := str ([34] ++ bytes "bitcoin" ++ [34]).
Definition toy_options : RankOptions := mkOptions (of_unix 1000) "latest" None.

(** The third note of an author comes after the note of another, yet all three
    are among the first twenty. *)
Example author_cap_overflow :
  map ID (RankNotes 0 toy_query toy_notes toy_options) = ["3"; "2"; "4"; "1"].
Proof. vm_compute. reflexivity. Qed.

(** The later of two like notes takes the place of the earlier one. *)
Example duplicate_demoted :
  map (λ r, (ID (note r), dup r))
    (markNearDuplicates (score_rows 0 "gm" (of_unix 1000) 0
       [post "1" "a" "good morning all of nostr 1" 100; post "2" "a" "Good  morning all of nostr 2" 200;
        post "3" "a" "good morning all of nostr 3" 900000; post "4" "b" "good morning all of nostr 4" 200]))
  = [("1", true); ("2", false); ("3", false); ("4", false)].
Proof. vm_compute. reflexivity. Qed.

(** A bot that matches exactly, and a person who does not and was not active in
    the window: the bot comes first. *)
Example stale_person_behind_bot :
  map PPubkey (RankProfiles 0 "news"
    [mkProfile "person" "jack" "" "" "" 10 0 100 false; mkProfile "bot" "news" "" "" "" 0 0 990 true]
    (mkOptions (of_unix 1000) "" (Some (60 * second))))
  = ["bot"; "person"].
Proof. vm_compute. reflexivity. Qed.

Lemma rank_notes_witness :
  (2 ≤ length toy_notes)%nat ∧ notesHaveFeatures toy_notes = true ∧
  ∃ kept overflow, RankNotes 0 toy_query toy_notes toy_options = map note (kept ++ overflow)
    ∧ Z.of_nat (length kept) ≤ 20 ∧ (∀ author, author_count author kept ≤ 2)
    ∧ StronglySorted (λ a b, rank_less toy_options b a = false) kept.
Proof.
  assert (2 ≤ length toy_notes)%nat as Hl by (vm_compute; lia).
  assert (notesHaveFeatures toy_notes = true) as Hf by (vm_compute; reflexivity).
  split; [exact Hl|]. split; [exact Hf|].
  destruct (rank_notes_page 0 toy_query toy_notes toy_options) as [_ Hpage].
  destruct (Hpage Hl (or_introl Hf)) as (kept & overflow & E & _ & H1 & H2 & _ & H3). exists kept, overflow.
  split; [exact E|]. split; [exact H1|]. split; [exact H2|].
  apply H3. vm_compute. repeat constructor.
Defined.

Lemma near_duplicates_witness :
  let rows := score_rows 0 "gm" (of_unix 1000) 0
    [post "1" "a" "good morning all of nostr 1" 100; post "2" "a" "Good  morning all of nostr 2" 200] in
  Forall (λ r, is_nan (score r) = false ∧ dup r = false) rows ∧
  ∀ r, r ∈ markNearDuplicates rows → dup r = true →
    ∃ p, p ∈ markNearDuplicates rows ∧ dup p = false ∧ duplicateKey (note p) = duplicateKey (note r).
Proof.
  intros rows. assert (Forall (λ r, is_nan (score r) = false ∧ dup r = false) rows) as Hall.
  { vm_compute. repeat constructor. }
  split; [exact Hall|]. intros r Hr Hd.
  destruct (near_duplicates_represented rows Hall) as [_ Hrep]. destruct (Hrep r Hr Hd) as (p & H1 & H2 & _ & H3 & _).
  exists p. exact (conj H1 (conj H2 H3)).
Defined.
End RankExample.
