(* ===== verification/SearchPage.v ===== *)
(** Pages of note search: the normalisation of parameters and identifiers
    ([internal/query/search_service.go], [search_normalization.go]), the sources of
    a page and its supplement with recent notes, ranking, reordering and the
    author cap ([search_apply.go]), and the trust-aware scan ([search_trust.go])
    with the qualification it asks for ([trust_service.go]).

    The engine, the readers and the bech32 decoder are parameters: functions of
    the arguments of a call, with an error or rows. The clock stands still
    during a request. Texts of events are decoded by the model of
    [encoding/json]. *)

From S2P Require Import Prelude GoLib GoFloat Json GoNet RelayURL Db SearchText SearchDiag SearchSpell SearchRank.

Local Open Scope go_scope.

(** * Parameters *)

Record NotesSearchParams := mkParams {
  NQuery : string;
  NLimit : Z;
  NOffset : Z;
  NSort : string;
  NLanguage : string;
  NWindow : option Z;
  BeforeCreatedAt : Z;
  BeforeID : string;
}.

Definition with_query (p : NotesSearchParams) (q : string) : NotesSearchParams :=
  mkParams q (NLimit p) (NOffset p) (NSort p) (NLanguage p) (NWindow p) (BeforeCreatedAt p) (BeforeID p).

Definition with_slice (p : NotesSearchParams) (limit offset : Z) : NotesSearchParams :=
  mkParams (NQuery p) limit offset (NSort p) (NLanguage p) (NWindow p) (BeforeCreatedAt p) (BeforeID p).

Section params.
Context `{UnicodeTables}.

(** [languagelabel.ValidFilter]. *)
Definition ValidFilter (raw : string) : bool :=
  let raw := to_lower (trim_space raw) in
  if bool_decide (raw = "") then false
  else if bool_decide (raw = "und") || bool_decide (raw = "und-uncertain") then true
  else if (go_len raw <? 2) || (8 <? go_len raw) then false
  else forallb (λ r, (97 <=? r) && (r <=? 122)) (runes (bytes raw)).

Definition normalizeNotesSearchParams (p : NotesSearchParams) : result NotesSearchParams :=
  let query := trim_space (NQuery p) in
  let limit := if NLimit p <=? 0 then 20 else NLimit p in
  let limit := if 100 <? limit then 100 else limit in
  if NOffset p <? 0 then Err "offset must be a non-negative integer"
  else if 5000 <? NOffset p then Err "offset exceeds maximum allowed value"
  else
    let sort := to_lower (trim_space (NSort p)) in
    let sort := if bool_decide (sort = "") then "relevant" else sort in
    if negb (bool_decide (sort = "relevant") || bool_decide (sort = "latest"))
    then Err "sort must be one of: relevant, latest"
    else
      let lang := to_lower (trim_space (NLanguage p)) in
      if negb (bool_decide (lang = "")) && negb (ValidFilter lang)
      then Err (str (qtext "language must be 'und', 'und-uncertain', or a 2-8 letter code"))
      else Ok (mkParams query limit (NOffset p) sort lang (NWindow p) (BeforeCreatedAt p) (BeforeID p)).
End params.

(** * Identifiers *)

(** [bech32.DecodeNoLimit], and [bech32.ConvertBits(words, 5, 8, false)]. *)
Class Bech32 := {
  DecodeNoLimit : string → option (string * list Z);
  ConvertBits : list Z → option (list Z);
}.

Record normalizedEventIdentifier := mkEventIdentifier {
  EventID : string;
  RelayHints : list string;
  AuthorPubkey : string;
  EKind : option Z;
}.

Definition no_identifier : normalizedEventIdentifier := mkEventIdentifier "" [] "" None.

Section identifiers.
Context `{UnicodeTables} `{Bech32}.

Definition is_hex_text (s : string) : bool := match hex_decode (bytes s) with Some _ => true | None => false end.

Definition canonicalizePubkeyIdentifier (raw : string) : string :=
  let value := trim_space (to_lower raw) in
  if bool_decide (value = "") then ""
  else if (go_len value =? 64) && is_hex_text value then value
  else if negb (HasPrefix value "npub1") then ""
  else match DecodeNoLimit value with
       | Some (hrp, words) =>
           if negb (bool_decide (hrp = "npub")) then ""
           else match ConvertBits words with
                | Some decoded => if (length decoded =? 32)%nat then str (hex_encode decoded) else ""
                | None => ""
                end
       | None => ""
       end.

Definition decodeNote1 (value : string) : normalizedEventIdentifier :=
  match DecodeNoLimit value with
  | Some (hrp, words) =>
      if negb (bool_decide (hrp = "note")) then no_identifier
      else match ConvertBits words with
           | Some decoded =>
               if (length decoded =? 32)%nat then mkEventIdentifier (str (hex_encode decoded)) [] "" None else no_identifier
           | None => no_identifier
           end
  | None => no_identifier
  end.

Definition be32 (l : list Z) : Z := foldl (λ n b, n * 256 + b) 0 l.

(** One field of a [nevent]. *)
Definition tlv_field (tlvType : Z) (v : list Z) (out : normalizedEventIdentifier) : normalizedEventIdentifier :=
  if tlvType =? 0 then
    if (length v =? 32)%nat then mkEventIdentifier (str (hex_encode v)) (RelayHints out) (AuthorPubkey out) (EKind out) else out
  else if tlvType =? 1 then
    let relay := trim_space (str v) in
    if bool_decide (relay = "") then out
    else mkEventIdentifier (EventID out) (RelayHints out ++ [relay]) (AuthorPubkey out) (EKind out)
  else if tlvType =? 2 then
    if (length v =? 32)%nat then mkEventIdentifier (EventID out) (RelayHints out) (str (hex_encode v)) (EKind out) else out
  else if tlvType =? 3 then
    if (length v =? 4)%nat then mkEventIdentifier (EventID out) (RelayHints out) (AuthorPubkey out) (Some (be32 v)) else out
  else out.

(** The fields; a step takes two bytes at least, so the length is fuel enough. *)
Fixpoint tlv_fields (fuel : nat) (l : list Z) (out : normalizedEventIdentifier) : normalizedEventIdentifier :=
  match fuel, l with
  | S fuel, tlvType :: tlvLen :: l =>
      if (length l <? Z.to_nat tlvLen)%nat then out
      else tlv_fields fuel (drop (Z.to_nat tlvLen) l) (tlv_field tlvType (take (Z.to_nat tlvLen) l) out)
  | _, _ => out
  end.

Definition decodeNevent1 (value : string) : normalizedEventIdentifier :=
  match DecodeNoLimit value with
  | Some (hrp, words) =>
      if negb (bool_decide (hrp = "nevent")) then no_identifier
      else match ConvertBits words with
           | Some decoded => tlv_fields (length decoded) decoded no_identifier
           | None => no_identifier
           end
  | None => no_identifier
  end.

Definition canonicalizeEventIdentifier (raw : string) : normalizedEventIdentifier :=
  let value := trim_space (to_lower raw) in
  if bool_decide (value = "") then no_identifier
  else if (go_len value =? 64) && is_hex_text value then mkEventIdentifier value [] "" None
  else if HasPrefix value "note1" then decodeNote1 value
  else if HasPrefix value "nevent1" then decodeNevent1 value
  else no_identifier.

Record normalizedProfileSearchQuery := mkProfileQuery {
  RawQuery : string;
  NormalizedQuery : string;
  CanonicalIdentifier : string;
}.

Definition normalizeProfileSearchQuery (raw : string) : normalizedProfileSearchQuery :=
  let trimmed := trim_space raw in
  let normalized := trim_space (TrimPrefix trimmed "nostr:") in
  let normalized := trim_space (TrimPrefix normalized "@") in
  mkProfileQuery trimmed normalized (canonicalizePubkeyIdentifier normalized).
End identifiers.

(** * Events *)

Record identity := mkIdentity {
  i_id : string;
  i_pubkey : string;
  i_content : string;
  i_created : Z;
  i_reply : Z;
  i_repost : Z;
  i_reaction : Z;
  i_zap : Z;
}.

Definition no_identity : identity := mkIdentity "" "" "" 0 0 0 0 0.

(** The fields of a text; any mismatch leaves them all empty. *)
Definition eventIdentity (raw : string) : identity :=
  match json_parse (bytes raw) with
  | Some v =>
      match decode_struct "id" decode_string "" v, decode_struct "pubkey" decode_string "" v,
            decode_struct "content" decode_string "" v, decode_struct "created_at" decode_int 0 v,
            decode_struct "reply_count" decode_int 0 v, decode_struct "repost_count" decode_int 0 v,
            decode_struct "reaction_count" decode_int 0 v, decode_struct "zap_count" decode_int 0 v with
      | Some id, Some pubkey, Some content, Some created, Some reply, Some repost, Some reaction, Some zap =>
          mkIdentity id pubkey content created reply repost reaction zap
      | _, _, _, _, _, _, _, _ => no_identity
      end
  | None => no_identity
  end.

(** [json.Unmarshal(row, &envelope)] with its error dropped: a member of another
    type leaves what was there. *)
Definition note_author (raw : string) : string :=
  match json_parse (bytes raw) with
  | Some (JObj ms) =>
      foldl (λ (a : string) (kv : list Z * json), if name_matches "pubkey" kv.1 then default a (decode_string a kv.2) else a) "" ms
  | _ => ""
  end.

Record TrendingNote := mkTrending {
  TEventID : string;
  TAuthorPubkey : string;
  TCreatedAt : Z;
  TContent : string;
  TReplyCount : Z;
  TRepostCount : Z;
  TReactionCount : Z;
  TZapCount : Z;
}.

Definition trendingNotesAsEvents (rows : list TrendingNote) : list string :=
  map (λ row, json_Marshal (JObj
        [(bytes "id", JStr (bytes (TEventID row))); (bytes "pubkey", JStr (bytes (TAuthorPubkey row)));
         (bytes "created_at", JNum (itoa (TCreatedAt row))); (bytes "content", JStr (bytes (TContent row)));
         (bytes "reply_count", JNum (itoa (TReplyCount row))); (bytes "repost_count", JNum (itoa (TRepostCount row)));
         (bytes "reaction_count", JNum (itoa (TReactionCount row))); (bytes "zap_count", JNum (itoa (TZapCount row)))]))
    (List.filter (λ row, negb (bool_decide (trim_space (TEventID row) = ""))) rows).

(** The first of several events with one id; those without an id all stay. *)
Fixpoint merge_from (seen : gset string) (rows : list string) : list string :=
  match rows with
  | [] => []
  | raw :: rows =>
      let id := i_id (eventIdentity raw) in
      if bool_decide (id = "") then raw :: merge_from seen rows
      else if bool_decide (id ∈ seen) then merge_from seen rows
      else raw :: merge_from ({[id]} ∪ seen) rows
  end.

Definition mergeNoteEvents (groups : list (list string)) : list string := merge_from ∅ (concat groups).

Definition filterNotesToWindow (now : time) (rows : list string) (window : option Z) : list string :=
  match window with
  | Some w =>
      if w <=? 0 then rows
      else
        let cutoff := time_unix (now - w) in
        List.filter (λ raw, let created := i_created (eventIdentity raw) in negb ((0 <? created) && (created <? cutoff))) rows
  | None => rows
  end.

Definition notesAreFresh (now : time) (rows : list string) (within : Z) : bool :=
  existsb (λ raw, time_unix (now - within) <=? i_created (eventIdentity raw)) rows.

Record parsedNote := mkParsedNote {
  raw : string;
  input : NoteScoreInput;
}.

Definition parseNoteInputs (events : list string) : list parsedNote :=
  map (λ r, let i := eventIdentity r in
            mkParsedNote r (mkNote (i_id i) (i_pubkey i) (i_created i) (i_content i) (i_reply i) (i_repost i)
                              (i_reaction i) (i_zap i) false "" "" "" (f64_of_Z 0))) events.

(** The first unused event with the id and author of [n], and the others. *)
Fixpoint take_note (n : NoteScoreInput) (parsed : list parsedNote) : option (string * list parsedNote) :=
  match parsed with
  | [] => None
  | p :: parsed =>
      if bool_decide (ID (input p) = ID n) && bool_decide (Pubkey (input p) = Pubkey n) then Some (raw p, parsed)
      else (λ r : string * list parsedNote, (r.1, p :: r.2)) <$> take_note n parsed
  end.

Fixpoint reorderNotes (parsed : list parsedNote) (ranked : list NoteScoreInput) : list string :=
  match ranked with
  | [] => []
  | n :: ranked =>
      match take_note n parsed with
      | Some (r, parsed) => r :: reorderNotes parsed ranked
      | None => reorderNotes parsed ranked
      end
  end.

Definition event_key (raw : string) : string :=
  let i := eventIdentity raw in if bool_decide (i_pubkey i = "") then "id:" +:+ i_id i else i_pubkey i.

Fixpoint cap_page (limit cap : Z) (out : list string) (counts : gmap string Z) (events : list string) : list string :=
  match events with
  | [] => out
  | r :: events =>
      if limit <=? Z.of_nat (length out) then out
      else
        let n := default 0 (counts !! event_key r) in
        if cap <=? n then cap_page limit cap out counts events
        else cap_page limit cap (out ++ [r]) (<[event_key r := n + 1]> counts) events
  end.

Definition capAuthorPage (events : list string) (limit cap : Z) : list string :=
  let len := Z.of_nat (length events) in
  let limit := if (limit <=? 0) || (len <? limit) then len else limit in
  let cap := if cap <=? 0 then NoteAuthorCap else cap in
  cap_page limit cap [] ∅ events.

Definition paginateSearchNotes (rows : list string) (limit offset : Z) : list string :=
  take (Z.to_nat limit) (drop (Z.to_nat offset) rows).

(** * The service *)

Inductive TrustMode := TrustModeOpen | TrustModePreferTrusted | TrustModeTrustedOnly.

#[export] Instance TrustMode_eq_dec : EqDecision TrustMode.
Proof. solve_decision. Defined.

(** The arguments of a call for notes. *)
Record NotesCall := mkCall {
  call_query : string;
  call_sort : string;
  call_window : option Z;
  call_language : string;
  call_limit : Z;
  call_offset : Z;
}.

Inductive keyset_result := KeysetRows (rows : list string) | KeysetUnsupported | KeysetError (e : error).

Record EventCounts := mkCounts {
  CReply : Z;
  CRepost : Z;
  CReaction : Z;
  CZap : Z;
}.

(** The fields of a trust state that qualify an author. *)
Record TrustState := mkTrust {
  TScore : option f64;
  Qualified : bool;
  HopDistance : option Z;
}.

Record TrustQualificationPolicy := mkPolicy {
  MaxHops : Z;
  MinimumScore : f64;
}.

(** What the service is built from; an optional reader is a capability that may
    be missing. [trustRows] is the fallback of [trustStates]. *)
Record Service := mkService {
  meilisearch : option (NotesCall → result (list string));
  notesReader : option (NotesCall → result (list string));
  beforeReader : option (NotesSearchParams → keyset_result);
  contentReader : string → Z → result (list string);
  hashtagNotes : string → result (list TrendingNote);
  frequencyReader : bool;
  eventCountReader : option (list string → result (gmap string EventCounts));
  profileSignalReader : option (list string → result (gmap string ProfileSearchSignal));
  trustStates : option (list string → result (gmap string TrustState));
  trustQualification : option (list string → result (gmap string bool));
  eventByID : string → result (option string);
  searchTrustMode : TrustMode;
  searchTrustPolicy : TrustQualificationPolicy;
  searchTrustScanSize : Z;
}.

Definition noteRankPool : Z := 40.
Definition noteRecentPool : Z := 25.
Definition noteHashtagRecentPool : Z := 40.
Definition noteFreshWindow : Z := 24 * hour.

(** [unsupportedCapabilityError]. *)
Definition unsupported (feature : string) : error :=
  "query: " +:+ feature +:+ " unsupported: unsupported capability".

(** ** Trust *)

Definition normalizeUniqueStrings (values : list string) : list string :=
  dedup_first (List.filter (λ v, negb (bool_decide (v = ""))) (map trim_space values)).

Definition normalizeTrustPolicy (p : TrustQualificationPolicy) : TrustQualificationPolicy :=
  mkPolicy (if MaxHops p <? 0 then 0 else MaxHops p) (if f64_lt (MinimumScore p) zero then zero else MinimumScore p).

Definition trustStateTrusted (s : TrustState) (p : TrustQualificationPolicy) : bool :=
  if negb (Qualified s) then false
  else if match HopDistance s with Some d => (0 <? MaxHops p) && (MaxHops p <? d) | None => false end then false
  else if f64_lt zero (MinimumScore p) then
    match TScore s with Some score => negb (f64_lt score (MinimumScore p)) | None => false end
  else true.

(** The trusted flag of every pubkey asked for. *)
Definition GetTrustQualification (sv : Service) (pubkeys : list string) : result (gmap string bool) :=
  let normalized := normalizeUniqueStrings pubkeys in
  match normalized with
  | [] => Ok ∅
  | _ =>
      let fallback :=
        match trustQualification sv with
        | None => Err (unsupported "trust qualification")
        | Some reader =>
            match reader normalized with
            | Err e => Err e
            | Ok rows => Ok (list_to_map (map (λ k, (k, default false (rows !! k))) normalized))
            end
        end in
      match trustStates sv with
      | Some reader =>
          match reader normalized with
          | Ok states =>
              Ok (list_to_map (map (λ k, (k, match states !! k with
                                              | Some st => trustStateTrusted st (normalizeTrustPolicy (searchTrustPolicy sv))
                                              | None => false
                                              end)) normalized))
          | Err _ => fallback
          end
      | None => fallback
      end
  end.

Definition qualifySearchNoteBatch (sv : Service) (rows : list string) : result (list (string * bool)) :=
  match GetTrustQualification sv (map note_author rows) with
  | Err e => Err ("qualify note search candidates: " +:+ e)
  | Ok trust =>
      Ok (map (λ row, let author := note_author row in
                      (row, negb (bool_decide (author = "")) && default false (trust !! author))) rows)
  end.

Definition trustedSearchNoteRowsByMode (rows : list (string * bool)) (mode : TrustMode) : list string :=
  if negb (bool_decide (mode = TrustModePreferTrusted)) then map fst rows
  else map fst (List.filter snd rows) ++ map fst (List.filter (λ r : string * bool, negb r.2) rows).

Section service.
Context `{UnicodeTables} `{UnicodeClasses} `{ExpLog} `{SliceSort} `{MapRange} `{URLParser} `{Bech32}.
Variable sv : Service.
Variable clock : time.

(** ** Sources *)

Definition notes_call (p : NotesSearchParams) : NotesCall :=
  mkCall (NQuery p) (NSort p) (NWindow p) (NLanguage p) (NLimit p) (NOffset p).

Definition obvious_miss (q : string) : go request bool := queryIsObviousMiss (frequencyReader sv) q.

(** A value or an error, without effect. *)
Definition lift {A} (r : result A) : go request A := λ s, (s, r).

Definition from_reader (p : NotesSearchParams) : result (list string) :=
  match notesReader sv with
  | Some reader => reader (notes_call p)
  | None =>
      if bool_decide (NSort p = "relevant") && bool_decide (NWindow p = None) && (NOffset p =? 0) && bool_decide (NLanguage p = "")
      then contentReader sv (NQuery p) (NLimit p)
      else Err (unsupported "advanced notes search")
  end.

Definition searchNotesPage (p : NotesSearchParams) : go request (list string) :=
  let keyset :=
    if bool_decide (NSort p = "latest") && negb (bool_decide (trim_space (BeforeID p) = ""))
    then match beforeReader sv with Some reader => reader p | None => KeysetUnsupported end
    else KeysetUnsupported in
  match keyset with
  | KeysetRows rows => go_ret rows
  | KeysetError e => go_fail e
  | KeysetUnsupported =>
      miss <- obvious_miss (NQuery p);;
      if miss : bool then go_ret []
      else match meilisearch sv with
           | None => lift (from_reader p)
           | Some engine =>
               match engine (notes_call p) with
               | Ok rows => go_ret rows
               | Err _ =>
                   miss <- obvious_miss (NQuery p);;
                   if miss : bool then go_ret [] else lift (from_reader p)
               end
           end
  end.

(** ** The recent supplement *)

Definition has_engine : bool := match meilisearch sv with Some _ => true | None => false end.

Definition shouldMergeRecent (p : NotesSearchParams) : bool :=
  has_engine && bool_decide (NSort p = "relevant") && (NOffset p =? 0) && bool_decide (trim_space (BeforeID p) = "").

Definition ok_rows (r : result (list string)) : list string := match r with Ok rows => rows | Err _ => [] end.

Definition meiliRecentNotes (p : NotesSearchParams) : list string :=
  match meilisearch sv with
  | None => []
  | Some engine => ok_rows (engine (mkCall (NQuery p) "latest" (Some (7 * 24 * hour)) (NLanguage p) noteRecentPool 0))
  end.

Definition hashtagRecentNotes (token : string) : list string :=
  match hashtagNotes sv token with Ok rows => trendingNotesAsEvents rows | Err _ => [] end.

Definition recentNotesFromStore (p : NotesSearchParams) : list string :=
  match notesReader sv with
  | None => []
  | Some reader => ok_rows (reader (mkCall (NQuery p) "latest" (Some noteFreshWindow) (NLanguage p) noteHashtagRecentPool 0))
  end.

Definition hashtagSupplementToken (query : string) : option string :=
  let parsed := ParseSearchQuery query in
  match Phrases parsed, Terms parsed with
  | [], [t] =>
      let token := TrimPrefix (trim_space t) "#" in
      if bool_decide (token = "") || ContainsAny token "./" then None else Some token
  | _, _ => None
  end.

Definition nonempty {A} (l : list A) : bool := match l with [] => false | _ => true end.

Definition supplementFreshNotes (p : NotesSearchParams) (rows : list string) : list string :=
  if negb (shouldMergeRecent p) then rows
  else if nonempty rows && notesAreFresh clock rows noteFreshWindow then
    if match NWindow p with None => true | Some w => 7 * 24 * hour <? w end then
      let recent := meiliRecentNotes p in
      if nonempty recent then mergeNoteEvents [recent; rows] else rows
    else rows
  else
    let extra := match hashtagSupplementToken (NQuery p) with
                 | Some token => if bool_decide (trim_space (NLanguage p) = "") then hashtagRecentNotes token else []
                 | None => []
                 end in
    let merged := if nonempty extra then mergeNoteEvents [extra; rows] else rows in
    if nonempty extra && (negb (nonempty rows) || notesAreFresh clock merged noteFreshWindow) then merged
    else if negb (nonempty merged) || notesAreFresh clock merged noteFreshWindow then merged
    else
      let stored := recentNotesFromStore p in
      if nonempty stored then mergeNoteEvents [stored; merged] else merged.

(** ** Signals and ranking *)

Definition set_counts (c : EventCounts) (n : NoteScoreInput) : NoteScoreInput :=
  mkNote (ID n) (Pubkey n) (CreatedAt n) (Content n) (CReply c) (CRepost c) (CReaction c) (CZap c)
    (AuthorBot n) (AuthorName n) (AuthorDisplayName n) (AuthorNIP05 n) (EngineScore n).

Definition firstNonEmpty (a b : string) : string :=
  if negb (bool_decide (trim_space a = "")) then a else if negb (bool_decide (trim_space b = "")) then b else "".

Definition set_author (g : ProfileSearchSignal) (n : NoteScoreInput) : NoteScoreInput :=
  mkNote (ID n) (Pubkey n) (CreatedAt n) (Content n) (ReplyCount n) (RepostCount n) (ReactionCount n) (ZapCount n)
    (AuthorBot n || SBot g) (firstNonEmpty (SName g) (AuthorName n)) (firstNonEmpty (SDisplayName g) (AuthorDisplayName n))
    (firstNonEmpty (SNIP05 g) (AuthorNIP05 n)) (EngineScore n).

Definition set_engine (score : f64) (n : NoteScoreInput) : NoteScoreInput :=
  mkNote (ID n) (Pubkey n) (CreatedAt n) (Content n) (ReplyCount n) (RepostCount n) (ReactionCount n) (ZapCount n)
    (AuthorBot n) (AuthorName n) (AuthorDisplayName n) (AuthorNIP05 n) score.

Definition non_empty_strings (l : list string) : list string := dedup_first (List.filter (λ s, negb (bool_decide (s = ""))) l).

Definition loadProfileSignals (pubkeys : list string) : gmap string ProfileSearchSignal :=
  match pubkeys, profileSignalReader sv with
  | _ :: _, Some reader => match reader pubkeys with Ok rows => rows | Err _ => ∅ end
  | _, _ => ∅
  end.

(** The inputs with their counts, and with the signals of their authors. *)
Definition attach_counts (inputs : list NoteScoreInput) : list NoteScoreInput :=
  let ids := non_empty_strings (map ID inputs) in
  match ids, eventCountReader sv with
  | _ :: _, Some reader =>
      match reader ids with
      | Ok counts => map (λ n, match counts !! ID n with Some c => set_counts c n | None => n end) inputs
      | Err _ => inputs
      end
  | _, _ => inputs
  end.

Definition attachNoteSignals (inputs : list NoteScoreInput) : go request (list NoteScoreInput) :=
  let authors := loadProfileSignals (non_empty_strings (map Pubkey inputs)) in
  let inputs := attach_counts inputs in
  with_diag (λ d, foldl (λ d n, match authors !! Pubkey n with Some g => PutProfileSignal g d | None => d end) d inputs);;
  go_ret (map (λ n, match authors !! Pubkey n with Some g => set_author g n | None => n end) inputs).

(** The engine's score of a note, when it reported one. *)
Definition with_engine_score (d : option SearchDiagnostics) (n : NoteScoreInput) : NoteScoreInput :=
  match d with
  | Some d => let s := NoteScore (ID n) d in if f64_lt zero s then set_engine s n else n
  | None => n
  end.

Definition rankNoteEvents (p : NotesSearchParams) (events : list string) : go request (list string) :=
  let events := filterNotesToWindow clock events (NWindow p) in
  match events with
  | [] => go_ret []
  | _ =>
      let parsed := parseNoteInputs events in
      d <- go_get diag;;
      let inputs := map (λ q, with_engine_score d (input q)) parsed in
      let phrases := Phrases (ParseSearchQuery (NQuery p)) in
      if (1 <? length inputs)%nat && negb (notesHaveFeatures inputs) && bool_decide (phrases = []) then go_ret events
      else
        inputs <- (if notesHaveFeatures inputs || negb (bool_decide (phrases = [])) then attachNoteSignals inputs else go_ret inputs);;
        go_ret (reorderNotes parsed (RankNotes clock (NQuery p) inputs (mkOptions 0 (NSort p) (NWindow p))))
  end.

(** ** Pages *)

Definition searchNotesCollected (p : NotesSearchParams) : go request (list string) :=
  let fetch :=
    if shouldMergeRecent p && (0 <? NLimit p) && (NLimit p <? noteRankPool) then with_slice p noteRankPool (NOffset p) else p in
  rows <- searchNotesPage fetch;;
  go_ret (supplementFreshNotes p rows).

Definition finishNotePage (p : NotesSearchParams) : go request (list string) :=
  rows <- searchNotesCollected p;;
  ranked <- rankNoteEvents p rows;;
  if NOffset p =? 0 then go_ret (capAuthorPage ranked (NLimit p) NoteAuthorCap)
  else go_ret (if 0 <? NLimit p then take (Z.to_nat (NLimit p)) ranked else ranked).

(** The scan for candidates, batch by batch; a batch has one row at least, so
    the budget is fuel enough. *)
Fixpoint scan_notes (fuel : nat) (p : NotesSearchParams) (target budget fetched : Z) (candidates : list (string * bool)) :
  go request (list (string * bool)) :=
  match fuel with
  | O => go_ret candidates
  | S fuel =>
      if budget <=? fetched then go_ret candidates
      else
        let batchSize := if budget - fetched <? 100 then budget - fetched else 100 in
        batch <- searchNotesPage (with_slice p batchSize fetched);;
        match batch with
        | [] => go_ret candidates
        | _ =>
            qualified <- lift (qualifySearchNoteBatch sv batch);;
            let candidates :=
              candidates ++ (if bool_decide (searchTrustMode sv = TrustModeTrustedOnly) then List.filter snd qualified else qualified) in
            if target <=? Z.of_nat (length candidates) then go_ret candidates
            else if Z.of_nat (length batch) <? batchSize then go_ret candidates
            else scan_notes fuel p target budget (fetched + batchSize) candidates
        end
  end.

Definition target_rows (p : NotesSearchParams) : Z :=
  let target := NLimit p + NOffset p in
  let target := if target <=? 0 then NLimit p else target in
  if target <=? 0 then 20 else target.

Definition scan_budget (target : Z) : Z :=
  let budget := target * 4 in
  let budget := if searchTrustScanSize sv <? budget then searchTrustScanSize sv else budget in
  if budget <? target then target else budget.

Definition searchNotesTrustAware (p : NotesSearchParams) : go request (list string) :=
  if bool_decide (searchTrustMode sv = TrustModeOpen) || negb (bool_decide (NSort p = "relevant")) then finishNotePage p
  else match trustQualification sv with
       | None =>
           if bool_decide (searchTrustMode sv = TrustModeTrustedOnly) then go_fail (unsupported "trust qualification")
           else finishNotePage p
       | Some _ =>
           let target := target_rows p in
           let budget := scan_budget target in
           candidates <- scan_notes (Z.to_nat budget) p target budget 0 [];;
           let ordered := supplementFreshNotes p (trustedSearchNoteRowsByMode candidates (searchTrustMode sv)) in
           ranked <- rankNoteEvents p ordered;;
           if 0 <? NOffset p then go_ret (paginateSearchNotes ranked (NLimit p) (NOffset p))
           else go_ret (capAuthorPage ranked (NLimit p) NoteAuthorCap)
       end.

(** The error of a section is noted on the request. *)
Definition noting {A} (m : go request A) : go request A := λ s,
  match m s with
  | (s, Err e) => (mkRequest (store s) (SetSectionError "notes" e <$> diag s), Err e)
  | r => r
  end.

(** [SearchNotes], but for the timing it records. *)
Definition SearchNotes (params : NotesSearchParams) : go request (list string) :=
  p <- lift (normalizeNotesSearchParams params);;
  if bool_decide (NQuery p = "") then go_ret []
  else
    let stripped := trim_space (TrimPrefix (NQuery p) "nostr:") in
    let eid := canonicalizeEventIdentifier stripped in
    if negb (bool_decide (EventID eid = "")) then
      raw <- noting (lift (eventByID sv (EventID eid)));;
      go_ret (match raw with Some raw => [raw] | None => [] end)
    else
      miss <- obvious_miss (NQuery p);;
      if miss : bool then go_ret []
      else
        q <- prepareQuery (frequencyReader sv) (NQuery p);;
        if bool_decide (q = "") then go_ret []
        else noting (searchNotesTrustAware (with_query p q)).
End service.

(** * What a page is made of *)

Lemma take_note_spec n parsed r rest :
  take_note n parsed = Some (r, rest) →
  ∃ p, raw p = r ∧ ID (input p) = ID n ∧ Pubkey (input p) = Pubkey n ∧ parsed ≡ₚ p :: rest.
Proof.
  revert rest. induction parsed as [|p parsed IH]; intros rest; simpl; [done|].
  destruct (_ && _) eqn:E.
  - intros [= <- <-]. apply andb_true_iff in E as [E1%bool_decide_eq_true E2%bool_decide_eq_true]. by exists p.
  - intros Hf. apply fmap_Some in Hf as ([r' rest'] & Ht & [= -> ->]). destruct (IH _ Ht) as (q & H1 & H2 & H3 & H4).
    exists q. repeat split; auto. simpl. rewrite H4. apply perm_swap.
Qed.

(** Reordering repeats no event. *)
Lemma reorder_submseteq parsed ranked : reorderNotes parsed ranked ⊆+ map raw parsed.
Proof.
  revert parsed. induction ranked as [|n ranked IH]; intros parsed; simpl; [apply submseteq_nil_l|].
  destruct (take_note n parsed) as [[r rest]|] eqn:E; [|apply IH].
  apply take_note_spec in E as (p & <- & _ & _ & Hp). change (map raw parsed) with (raw <$> parsed). rewrite Hp.
  simpl. by apply submseteq_skip.
Qed.

(** An event that comes out was ranked. *)
Lemma reorder_ranked parsed ranked r :
  r ∈ reorderNotes parsed ranked →
  ∃ p n, p ∈ parsed ∧ n ∈ ranked ∧ raw p = r ∧ ID (input p) = ID n ∧ Pubkey (input p) = Pubkey n.
Proof.
  revert parsed. induction ranked as [|n ranked IH]; intros parsed; simpl; [by intros ?%elem_of_nil|].
  destruct (take_note n parsed) as [[r' rest]|] eqn:E.
  - apply take_note_spec in E as (p & <- & E1 & E2 & Hp). intros [->|Hr]%elem_of_cons.
    + exists p, n. repeat split; auto; [rewrite Hp|]; left.
    + destruct (IH _ Hr) as (q & m & Hq & Hm & ?). exists q, m. split; [rewrite Hp; by right|]. split; [by right|done].
  - intros Hr. destruct (IH _ Hr) as (q & m & Hq & Hm & ?). exists q, m. split; [done|]. split; [by right|done].
Qed.

Lemma merge_from_elem seen rows r : r ∈ merge_from seen rows → r ∈ rows.
Proof.
  revert seen. induction rows as [|x rows IH]; intros seen; simpl; [done|].
  repeat case_bool_decide; rewrite ?elem_of_cons; naive_solver.
Qed.

Lemma merge_elem groups r : r ∈ mergeNoteEvents groups → ∃ g, g ∈ groups ∧ r ∈ g.
Proof.
  intros Hr%merge_from_elem. apply list_elem_of_In, in_concat in Hr as (g & Hg & Hr). exists g.
  split; by apply list_elem_of_In.
Qed.

(** Merging keeps one event of an id. *)
Lemma merge_from_ids seen rows :
  NoDup (List.filter (λ id, negb (bool_decide (id = ""))) (map (λ r, i_id (eventIdentity r)) (merge_from seen rows)))
  ∧ ∀ r, r ∈ merge_from seen rows → i_id (eventIdentity r) ≠ "" → (i_id (eventIdentity r) ∉ seen).
Proof.
  revert seen. induction rows as [|x rows IH]; intros seen; simpl; [split; [constructor|by intros ? ?%elem_of_nil]|].
  case_bool_decide as E1.
  - destruct (IH seen) as [I1 I2]. cbn [map]. simpl. rewrite bool_decide_true by done. simpl. split; [done|].
    intros r [->|Hr]%elem_of_cons; [done|by apply I2].
  - case_bool_decide as E2; [apply IH|]. destruct (IH ({[i_id (eventIdentity x)]} ∪ seen)) as [I1 I2]. split.
    + cbn [map]. simpl. rewrite bool_decide_false by done. simpl. constructor; [|done].
      intros Hin%list_elem_of_In. apply filter_In in Hin as [Hin Hne]. apply in_map_iff in Hin as (r & Er & Hr).
      apply list_elem_of_In in Hr. apply negb_true_iff, bool_decide_eq_false in Hne. specialize (I2 r Hr).
      rewrite Er in I2. specialize (I2 Hne). set_solver.
    + intros r [->|Hr]%elem_of_cons; [done|]. intros Hne. specialize (I2 r Hr Hne). set_solver.
Qed.

(** The rows of one author key. *)
Definition key_count (k : string) (rows : list string) : Z :=
  Z.of_nat (length (List.filter (λ r, bool_decide (event_key r = k)) rows)).

Lemma key_count_snoc k rows r :
  key_count k (rows ++ [r]) = key_count k rows + if bool_decide (event_key r = k) then 1 else 0.
Proof. unfold key_count. rewrite filter_app. simpl. destruct (bool_decide _); rewrite ?length_app; simpl; rewrite ?app_nil_r; lia. Qed.

Lemma cap_page_spec limit cap out counts events :
  0 ≤ limit → (∀ k, default 0 (counts !! k) = key_count k out) → (∀ k, key_count k out ≤ cap) → Z.of_nat (length out) ≤ limit →
  let page := cap_page limit cap out counts events in
  Z.of_nat (length page) ≤ limit ∧ (∀ k, key_count k page ≤ cap) ∧ page ⊆+ out ++ events.
Proof.
  revert out counts. induction events as [|r events IH]; intros out counts Hl Hc Hcap Hlen; cbn [cap_page]; cbv zeta.
  { by rewrite app_nil_r. }
  destruct (Z.leb_spec limit (Z.of_nat (length out))).
  { split; [done|]. split; [done|]. apply submseteq_inserts_r. done. }
  rewrite Hc. destruct (Z.leb_spec cap (key_count (event_key r) out)).
  - destruct (IH out counts) as (P1 & P2 & P3); [done..|]. split; [done|]. split; [done|]. etrans; [exact P3|].
    apply submseteq_app; [done|]. by apply submseteq_cons.
  - destruct (IH (out ++ [r]) (<[event_key r:=key_count (event_key r) out + 1]> counts)) as (P1 & P2 & P3).
    + done.
    + intros k. rewrite key_count_snoc, lookup_insert. case_decide as E.
      * subst k. rewrite bool_decide_true by done. done.
      * rewrite bool_decide_false, Hc by done. lia.
    + intros k. rewrite key_count_snoc. specialize (Hcap k). case_bool_decide; [subst k|]; lia.
    + rewrite length_app. simpl. lia.
    + split; [done|]. split; [done|]. rewrite <-app_assoc in P3. exact P3.
Qed.

Lemma capAuthorPage_spec events limit :
  0 < limit →
  Z.of_nat (length (capAuthorPage events limit NoteAuthorCap)) ≤ limit
  ∧ (∀ k, key_count k (capAuthorPage events limit NoteAuthorCap) ≤ 2) ∧ capAuthorPage events limit NoteAuthorCap ⊆+ events.
Proof.
  intros Hl. unfold capAuthorPage. cbv zeta. change (NoteAuthorCap <=? 0) with false. cbv iota. change NoteAuthorCap with 2.
  set (lim := if _ : bool then _ else _). assert (0 ≤ lim ≤ limit) as Hlim.
  { subst lim. destruct (Z.leb_spec limit 0), (Z.ltb_spec (Z.of_nat (length events)) limit); simpl; lia. }
  destruct (cap_page_spec lim 2 [] ∅ events) as (P1 & P2 & P3).
  - lia.
  - intros k. by rewrite lookup_empty.
  - intros k. unfold key_count. simpl. lia.
  - simpl. lia.
  - split; [lia|]. done.
Qed.

(** * Trust *)

(** The readers call [a] trusted in answer to [asked]. *)
Definition vouched (sv : Service) (a : string) : Prop :=
  ∃ asked, a ∈ asked ∧
  ((∃ reader states st, trustStates sv = Some reader ∧ reader asked = Ok states ∧ states !! a = Some st
      ∧ trustStateTrusted st (normalizeTrustPolicy (searchTrustPolicy sv)) = true)
   ∨ (∃ reader rows, trustQualification sv = Some reader ∧ reader asked = Ok rows ∧ rows !! a = Some true)).

Lemma flags_lookup (f : string → bool) l a :
  (list_to_map (map (λ k, (k, f k)) l) : gmap string bool) !! a = Some true → a ∈ l ∧ f a = true.
Proof.
  intros Ha%elem_of_list_to_map_2. apply list_elem_of_In, in_map_iff in Ha as (k & [= <- <-] & Hk). by apply list_elem_of_In in Hk.
Qed.

Lemma qualification_sound sv pubkeys t a :
  GetTrustQualification sv pubkeys = Ok t → t !! a = Some true → vouched sv a.
Proof.
  unfold GetTrustQualification. cbv zeta. destruct (normalizeUniqueStrings pubkeys) as [|k ks] eqn:En; [intros [= <-]; by rewrite lookup_empty|].
  rewrite <-En. clear En. set (asked := normalizeUniqueStrings pubkeys).
  assert (match trustQualification sv with
          | Some reader => match reader asked with
                           | Ok rows => Ok (list_to_map (map (λ k, (k, default false (rows !! k))) asked))
                           | Err e => Err e
                           end
          | None => Err (unsupported "trust qualification")
          end = Ok t → t !! a = Some true → vouched sv a) as Hfall.
  { destruct (trustQualification sv) as [reader|] eqn:Eq; [|done]. destruct (reader asked) as [rows|] eqn:Er; [|done].
    intros [= <-] [Hin Hf]%flags_lookup. exists asked. split; [done|]. right. exists reader, rows. split; [done|]. split; [done|].
    by destruct (rows !! a) as [[]|]. }
  destruct (trustStates sv) as [reader|] eqn:Es; [|exact Hfall]. destruct (reader asked) as [states|] eqn:Er; [|exact Hfall].
  intros [= <-] [Hin Hf]%flags_lookup. exists asked. split; [done|]. left.
  destruct (states !! a) as [st|] eqn:Ea; [|done]. by exists reader, states, st.
Qed.

Lemma qualified_vouched sv rows q r :
  qualifySearchNoteBatch sv rows = Ok q → (r, true) ∈ q → r ∈ rows ∧ vouched sv (note_author r).
Proof.
  unfold qualifySearchNoteBatch. destruct (GetTrustQualification sv _) as [t|] eqn:Et; [|done]. intros [= <-] Hr.
  apply list_elem_of_In, in_map_iff in Hr as (x & [= -> Hb] & Hx). apply list_elem_of_In in Hx. split; [done|].
  apply andb_true_iff in Hb as [_ Hb]. destruct (t !! note_author r) as [b|] eqn:Ea; [|done]. simpl in Hb. subst b.
  by eapply qualification_sound.
Qed.

Lemma qualified_rows sv rows q r b : qualifySearchNoteBatch sv rows = Ok q → (r, b) ∈ q → r ∈ rows.
Proof.
  unfold qualifySearchNoteBatch. destruct (GetTrustQualification sv _) as [t|] eqn:Et; [|done]. intros [= <-] Hr.
  apply list_elem_of_In, in_map_iff in Hr as (x & [= -> Hb] & Hx). by apply list_elem_of_In in Hx.
Qed.

(** * Sources *)

(** [r] came from the engine, a reader or the feed of a hashtag. *)
Inductive sourced (sv : Service) (r : string) : Prop :=
| src_engine engine c rows : meilisearch sv = Some engine → engine c = Ok rows → r ∈ rows → sourced sv r
| src_reader reader c rows : notesReader sv = Some reader → reader c = Ok rows → r ∈ rows → sourced sv r
| src_keyset reader p rows : beforeReader sv = Some reader → reader p = KeysetRows rows → r ∈ rows → sourced sv r
| src_content q limit rows : contentReader sv q limit = Ok rows → r ∈ rows → sourced sv r
| src_hashtag token rows : hashtagNotes sv token = Ok rows → r ∈ trendingNotesAsEvents rows → sourced sv r.

Section pages.
Context `{UnicodeTables} `{UnicodeClasses} `{ExpLog} `{SliceSort} `{MapRange} `{URLParser} `{Bech32}.
Variable sv : Service.
Variable clock : time.

Lemma reader_sourced p rows r : from_reader sv p = Ok rows → r ∈ rows → sourced sv r.
Proof.
  unfold from_reader. destruct (notesReader sv) as [reader|] eqn:E; [intros; by eapply src_reader|].
  destruct (_ && _); [|done]. intros. by eapply src_content.
Qed.

Lemma page_sourced p s s' rows r : searchNotesPage sv p s = (s', Ok rows) → r ∈ rows → sourced sv r.
Proof.
  assert (∀ s, lift (from_reader sv p) s = (s', Ok rows) → r ∈ rows → sourced sv r) as Hread.
  { intros s0 [= _ E] Hr. by eapply reader_sourced. }
  assert (∀ s0 : request, go_ret ([] : list string) s0 = (s', Ok rows) → r ∈ rows → sourced sv r) as Hnil.
  { intros s0 [= _ <-] Hr. by apply elem_of_nil in Hr. }
  unfold searchNotesPage. cbv zeta. set (keyset := if _ : bool then _ else _).
  destruct keyset as [rows0| |e] eqn:Ek; [|intros E Hr|done].
  - intros [= _ <-] Hr. subst keyset. destruct (_ && _); [|done].
    destruct (beforeReader sv) as [reader|] eqn:E; [|done]. by eapply src_keyset.
  - apply bind_ok in E as (s1 & miss & _ & E). destruct miss; [by eapply Hnil|].
    destruct (meilisearch sv) as [engine|] eqn:Em; [|by eapply Hread].
    destruct (engine (notes_call p)) as [rows0|] eqn:Ee.
    + injection E as _ <-. by eapply src_engine.
    + apply bind_ok in E as (s2 & miss & _ & E). destruct miss; [by eapply Hnil|by eapply Hread].
Qed.

Lemma ok_rows_elem res r : r ∈ ok_rows res → ∃ rows, res = Ok rows ∧ r ∈ rows.
Proof. destruct res; simpl; [eauto|by intros ?%elem_of_nil]. Qed.

(** The supplement adds events of the sources only. *)
Lemma supplement_sourced p rows r : r ∈ supplementFreshNotes sv clock p rows → r ∈ rows ∨ sourced sv r.
Proof.
  assert (∀ x rs, (r ∈ x → sourced sv r) → (r ∈ rs → r ∈ rows ∨ sourced sv r) → r ∈ mergeNoteEvents [x; rs] → r ∈ rows ∨ sourced sv r) as Hm.
  { intros x rs Hx Hrs (g & Hg & Hr)%merge_elem. apply elem_of_cons in Hg as [->|Hg%list_elem_of_singleton]; [auto|subst g; auto]. }
  assert (r ∈ meiliRecentNotes sv p → sourced sv r) as H1m.
  { unfold meiliRecentNotes. destruct (meilisearch sv) as [engine|] eqn:E; [|by intros ?%elem_of_nil].
    intros (x & Ex & Hr)%ok_rows_elem. by eapply src_engine. }
  assert (r ∈ recentNotesFromStore sv p → sourced sv r) as H1s.
  { unfold recentNotesFromStore. destruct (notesReader sv) as [reader|] eqn:E; [|by intros ?%elem_of_nil].
    intros (x & Ex & Hr)%ok_rows_elem. by eapply src_reader. }
  assert (∀ token, r ∈ hashtagRecentNotes sv token → sourced sv r) as H1h.
  { intros token. unfold hashtagRecentNotes. destruct (hashtagNotes sv token) eqn:E; [|by intros ?%elem_of_nil].
    intros Hr. by eapply src_hashtag. }
  unfold supplementFreshNotes. cbv zeta. destruct (negb _); [auto|]. destruct (_ && _).
  { destruct (match NWindow p with None => true | Some w => _ end); [|auto]. destruct (nonempty _); [|auto]. apply Hm; auto. }
  set (extra := match hashtagSupplementToken (NQuery p) with Some _ => _ | None => _ end).
  assert (r ∈ extra → sourced sv r) as He.
  { subst extra. destruct (hashtagSupplementToken _) as [token|]; [|by intros ?%elem_of_nil].
    destruct (bool_decide _); [apply H1h|by intros ?%elem_of_nil]. }
  set (merged := if nonempty extra then _ else rows).
  assert (r ∈ merged → r ∈ rows ∨ sourced sv r) as Hmerged.
  { subst merged. destruct (nonempty extra); [apply Hm; auto|auto]. }
  destruct (_ && _); [done|]. destruct (_ || _); [done|]. destruct (nonempty (recentNotesFromStore sv p)); [apply Hm; auto|done].
Qed.

(** Ranking repeats no event, and drops the window's too old ones. *)
Lemma rank_submseteq p events s s' out : rankNoteEvents sv clock p events s = (s', Ok out) → out ⊆+ events.
Proof.
  assert (filterNotesToWindow clock events (NWindow p) ⊆+ events) as Hf.
  { unfold filterNotesToWindow. destruct (NWindow p) as [w|]; [|done]. destruct (w <=? 0); [done|].
    apply sublist_submseteq. induction events as [|x events IH]; simpl; [done|]. destruct (negb _); by constructor. }
  unfold rankNoteEvents. cbv zeta. destruct (filterNotesToWindow clock events (NWindow p)) as [|e es] eqn:Ee.
  { intros [= _ <-]. apply submseteq_nil_l. }
  rewrite <-Ee in *. clear Ee. set (evs := filterNotesToWindow clock events (NWindow p)) in *.
  intros E. apply bind_ok in E as (s1 & d & _ & E). destruct (_ && _); [by injection E as _ <-|].
  apply bind_ok in E as (s2 & inputs & _ & E). injection E as _ <-. etrans; [apply reorder_submseteq|].
  unfold parseNoteInputs. rewrite map_map. simpl. by rewrite map_id.
Qed.

Lemma rank_elem p events s s' out r : rankNoteEvents sv clock p events s = (s', Ok out) → r ∈ out → r ∈ events.
Proof. intros E Hr. eapply elem_of_submseteq; [exact Hr|by eapply rank_submseteq]. Qed.

Lemma collected_sourced p s s' rows r : searchNotesCollected sv clock p s = (s', Ok rows) → r ∈ rows → sourced sv r.
Proof.
  unfold searchNotesCollected. cbv zeta. intros E Hr. apply bind_ok in E as (s1 & rows0 & E1 & E). injection E as _ <-.
  apply supplement_sourced in Hr as [Hr|Hr]; [by eapply page_sourced|done].
Qed.

(** ** The scan *)

Definition scan_ok (c : list (string * bool)) : Prop :=
  ∀ r b, (r, b) ∈ c → sourced sv r ∧ (searchTrustMode sv = TrustModeTrustedOnly → vouched sv (note_author r)).

Lemma scan_notes_ok fuel p target budget fetched c s s' out :
  scan_ok c → scan_notes sv fuel p target budget fetched c s = (s', Ok out) → scan_ok out.
Proof.
  revert fetched c s. induction fuel as [|fuel IH]; intros fetched c s Hc E; cbn [scan_notes] in E; [by injection E as _ <-|].
  cbv zeta in E. destruct (budget <=? fetched); [by injection E as _ <-|].
  set (bs := if budget - fetched <? 100 then _ else _) in E. clearbody bs. apply bind_ok in E as (s1 & batch & E1 & E). destruct batch as [|x batch]; [by injection E as _ <-|].
  apply bind_ok in E as (s2 & q & E2 & E). injection E2 as <- Eq.
  assert (scan_ok (c ++ (if bool_decide (searchTrustMode sv = TrustModeTrustedOnly) then List.filter snd q else q))) as Hc'.
  { intros r b [Hr|Hr]%elem_of_app; [by eapply Hc|]. case_bool_decide as Em.
    - apply list_elem_of_In, filter_In in Hr as [Hr Hb]. apply list_elem_of_In in Hr. simpl in Hb. destruct b; [|done].
      destruct (qualified_vouched _ _ _ _ Eq Hr) as [Hin Hv]. split; [by eapply page_sourced|done].
    - split; [|done]. eapply page_sourced; [exact E1|]. by eapply qualified_rows. }
  destruct (target <=? _); [by injection E as _ <-|]. destruct (_ <? _); [by injection E as _ <-|]. by eapply IH.
Qed.

(** A step fetches one row at least: more fuel than the budget changes nothing. *)
Lemma scan_notes_fuel p target budget fuel1 fuel2 fetched c s :
  (Z.to_nat (budget - fetched) ≤ fuel1)%nat → (Z.to_nat (budget - fetched) ≤ fuel2)%nat →
  scan_notes sv fuel1 p target budget fetched c s = scan_notes sv fuel2 p target budget fetched c s.
Proof.
  revert fuel2 fetched c s. induction fuel1 as [|fuel1 IH]; intros fuel2 fetched c s H1f H2f.
  - destruct fuel2 as [|fuel2]; [done|]. cbn [scan_notes]. by rewrite (proj2 (Z.leb_le budget fetched)) by lia.
  - destruct fuel2 as [|fuel2]; cbn [scan_notes].
    + by rewrite (proj2 (Z.leb_le budget fetched)) by lia.
    + cbv zeta. destruct (Z.leb_spec budget fetched); [done|]. unfold go_bind.
      set (bs := if budget - fetched <? 100 then _ else _). assert (1 ≤ bs) as Hbs by (subst bs; destruct (Z.ltb_spec (budget - fetched) 100); lia).
      clearbody bs.
      destruct (searchNotesPage _ _ s) as [s1 [[|x batch]|e]]; [done| |done].
      destruct (lift _ s1) as [s2 [q|e]]; [|done]. destruct (target <=? _); [done|]. destruct (_ <? _); [done|].
      apply IH; lia.
Qed.
End pages.

(** * Phrases *)

Section phrases.
Context `{UnicodeTables} `{UnicodeClasses} `{ExpLog} `{SliceSort} `{MapRange} `{URLParser} `{Bech32}.
Variable sv : Service.
Variable clock : time.

(** What identifies a note and what it says. *)
Definition same_note (n m : NoteScoreInput) : Prop := ID n = ID m ∧ Pubkey n = Pubkey m ∧ Content n = Content m.

Lemma attach_same inputs s s' inputs' n' :
  attachNoteSignals sv inputs s = (s', Ok inputs') → n' ∈ inputs' → ∃ n, n ∈ inputs ∧ same_note n n'.
Proof.
  assert (∀ m, m ∈ attach_counts sv inputs → ∃ n, n ∈ inputs ∧ same_note n m) as Hc.
  { unfold attach_counts. cbv zeta. intros m Hm.
    assert (m ∈ inputs → ∃ n, n ∈ inputs ∧ same_note n m) as Hid by (intros Hin; by exists m).
    destruct (non_empty_strings _); [auto|]. destruct (eventCountReader sv) as [reader|]; [|auto].
    destruct (reader _) as [counts|]; [|auto]. apply list_elem_of_In, in_map_iff in Hm as (n & <- & Hn).
    apply list_elem_of_In in Hn. exists n. split; [done|]. by destruct (counts !! ID n). }
  unfold attachNoteSignals. cbv zeta. intros E Hn. apply bind_ok in E as (s1 & [] & _ & E). injection E as _ <-.
  apply list_elem_of_In, in_map_iff in Hn as (m & <- & Hm). apply list_elem_of_In in Hm.
  destruct (Hc m Hm) as (n & Hn & Hs). exists n. split; [done|]. by destruct (_ !! Pubkey m).
Qed.

Lemma parsed_elem q events :
  q ∈ parseNoteInputs events →
  raw q ∈ events ∧ ID (input q) = i_id (eventIdentity (raw q)) ∧ Pubkey (input q) = i_pubkey (eventIdentity (raw q))
  ∧ Content (input q) = i_content (eventIdentity (raw q)).
Proof. intros Hq%list_elem_of_In. apply in_map_iff in Hq as (r & <- & Hr%list_elem_of_In). done. Qed.

(** An event of a ranked page is known by the id and author of one that contains
    every phrase. *)
Lemma rank_phrases p events s s' out r :
  rankNoteEvents sv clock p events s = (s', Ok out) → r ∈ out →
  ∃ r', r' ∈ events ∧ i_id (eventIdentity r') = i_id (eventIdentity r) ∧ i_pubkey (eventIdentity r') = i_pubkey (eventIdentity r)
        ∧ ContentMatchesPhrases (i_content (eventIdentity r')) (Phrases (ParseSearchQuery (NQuery p))) = true.
Proof.
  intros E Hr. pose proof (rank_elem sv clock p events s s' out r E Hr) as Hev. revert E.
  unfold rankNoteEvents. cbv zeta. destruct (filterNotesToWindow clock events (NWindow p)) as [|e es] eqn:Ee.
  { intros [= _ <-]. by apply elem_of_nil in Hr. }
  assert (∀ x, x ∈ e :: es → x ∈ events) as Hsub.
  { intros x. rewrite <-Ee. unfold filterNotesToWindow. destruct (NWindow p) as [w|]; [|done]. destruct (w <=? 0); [done|].
    intros Hx%list_elem_of_In. apply filter_In in Hx as [Hx _]. by apply list_elem_of_In. }
  clear Ee. set (evs := e :: es) in *. intros E. apply bind_ok in E as (s1 & d & _ & E). destruct (_ && _) eqn:Eb.
  { exists r. apply andb_true_iff in Eb as [_ Eb%bool_decide_eq_true]. rewrite Eb. done. }
  apply bind_ok in E as (s2 & inputs & Ei & E). injection E as _ <-.
  apply reorder_ranked in Hr as (q & n & Hq & Hn & Hraw & Eid & Epk).
  destruct (ranked_page clock (NQuery p) inputs (mkOptions 0 (NSort p) (NWindow p))) as [Hperm _]. rewrite Hperm in Hn.
  apply list_elem_of_In, filter_In in Hn as [Hn Hmatch]. apply list_elem_of_In in Hn.
  assert (∃ m, m ∈ map (λ q, with_engine_score d (input q)) (parseNoteInputs evs) ∧ same_note m n) as (m & Hm & E1 & E2 & E3).
  { destruct (_ || _); [by eapply attach_same|]. injection Ei as _ <-. by exists n. }
  apply list_elem_of_In, in_map_iff in Hm as (q' & <- & Hq'%list_elem_of_In).
  change (q ∈ parseNoteInputs evs) in Hq. apply parsed_elem in Hq as (_ & Q1 & Q2 & _). apply parsed_elem in Hq' as (R0 & R1 & R2 & R3).
  assert (same_note (with_engine_score d (input q')) (input q')) as (W1 & W2 & W3).
  { unfold with_engine_score. destruct d as [d|]; [|done]. by destruct (f64_lt _ _). }
  exists (raw q'). split; [by apply Hsub|]. split; [congruence|]. split; [congruence|].
  unfold matches in Hmatch. by rewrite <-R3, <-W3, E3.
Qed.

(** A query with a phrase is not corrected. *)
Lemma phrase_kept reader q s s' q' :
  prepareQuery reader q s = (s', Ok q') → Phrases (ParseSearchQuery (trim_space q)) ≠ [] → q' = trim_space q.
Proof.
  unfold prepareQuery. cbv zeta. intros E Hp. apply bind_ok in E as (s1 & checked & _ & E).
  destruct checked; [by injection E as _ <-|]. apply bind_ok in E as (s2 & r & Ec & E). apply bind_ok in E as (s3 & [] & _ & E).
  injection E as _ <-. unfold chooseQueryCorrection in Ec. cbv zeta in Ec.
  destruct (Phrases (ParseSearchQuery (trim_space q))); [done|]. by injection Ec as _ <-.
Qed.
End phrases.

(** * The page of a search *)

Section search.
Context `{UnicodeTables} `{UnicodeClasses} `{ExpLog} `{SliceSort} `{MapRange} `{URLParser} `{Bech32}.
Variable sv : Service.
Variable clock : time.

(** The event identifier of a query, empty for other texts. *)
Definition query_identifier (q : string) : string :=
  EventID (canonicalizeEventIdentifier (trim_space (TrimPrefix q "nostr:"))).

Lemma noting_ok {A} (m : go request A) s s' a : noting m s = (s', Ok a) → m s = (s', Ok a).
Proof. unfold noting. destruct (m s) as [s1 [x|e]]; [done|]. intros E. by injection E. Qed.

Lemma normalize_ok params p :
  normalizeNotesSearchParams params = Ok p →
  1 ≤ NLimit p ≤ 100 ∧ 0 ≤ NOffset p ≤ 5000 ∧ trim_space (NQuery p) = NQuery p ∧ NQuery p = trim_space (NQuery params)
  ∧ (NSort p = "relevant" ∨ NSort p = "latest" ∧ to_lower (trim_space (NSort params)) = "latest").
Proof.
  unfold normalizeNotesSearchParams. cbv zeta. destruct (Z.ltb_spec (NOffset params) 0); [done|].
  destruct (Z.ltb_spec 5000 (NOffset params)); [done|].
  set (sort0 := to_lower (trim_space (NSort params))). set (sort := if bool_decide (sort0 = "") then "relevant" else sort0).
  destruct (negb (bool_decide (sort = "relevant") || bool_decide (sort = "latest"))) eqn:Es; [done|].
  destruct (_ && _); [done|]. intros [= <-]. cbn [NLimit NOffset NQuery NSort].
  split; [repeat case_match; bool_simpl; lia|]. split; [lia|]. split; [apply trim_space_idem|]. split; [done|].
  apply negb_false_iff, orb_true_iff in Es as [Es%bool_decide_eq_true|Es%bool_decide_eq_true]; [by left|right].
  split; [done|]. subst sort. by case_bool_decide.
Qed.

(** How a search ends. *)
Lemma search_cases params s s' rows :
  SearchNotes sv clock params s = (s', Ok rows) →
  ∃ p, normalizeNotesSearchParams params = Ok p ∧
  (rows = []
   ∨ (query_identifier (NQuery p) ≠ "" ∧ ∃ raw, eventByID sv (query_identifier (NQuery p)) = Ok (Some raw) ∧ rows = [raw])
   ∨ (query_identifier (NQuery p) = "" ∧ ∃ q s0 s1 s2, prepareQuery (frequencyReader sv) (NQuery p) s0 = (s1, Ok q)
        ∧ searchNotesTrustAware sv clock (with_query p q) s1 = (s2, Ok rows))).
Proof.
  unfold SearchNotes. intros E. apply bind_ok in E as (s0 & p & E0 & E). injection E0 as <- Ep. exists p. split; [done|].
  destruct (bool_decide (NQuery p = "")); [injection E as _ <-; by left|]. cbv zeta in E. fold (query_identifier (NQuery p)) in E.
  destruct (bool_decide (query_identifier (NQuery p) = "")) eqn:Ei; cbn [negb] in E.
  - apply bool_decide_eq_true in Ei. apply bind_ok in E as (s1 & miss & _ & E). destruct miss; [injection E as _ <-; by left|].
    apply bind_ok in E as (s2 & q & Eq & E). destruct (bool_decide (q = "")); [injection E as _ <-; by left|].
    apply noting_ok in E. right. right. split; [done|]. by exists q, s1, s2, s'.
  - apply bool_decide_eq_false in Ei. apply bind_ok in E as (s1 & r & Er & E). apply noting_ok in Er. injection Er as <- Er.
    injection E as _ <-. destruct r as [raw0|]; [|by left]. right. left. split; [done|]. by exists raw0.
Qed.

Lemma take_drop_submseteq {A} n k (l : list A) : take n (drop k l) ⊆+ l.
Proof. etrans; [apply sublist_submseteq, sublist_take|]. apply sublist_submseteq, sublist_drop. Qed.

(** A page is the capped head of the ranked rows, or a later slice of them. *)
Definition page_of (p : NotesSearchParams) (ranked rows : list string) : Prop :=
  (NOffset p = 0 ∧ rows = capAuthorPage ranked (NLimit p) NoteAuthorCap)
  ∨ (NOffset p ≠ 0 ∧ Z.of_nat (length rows) ≤ NLimit p ∧ rows ⊆+ ranked).

(** A page comes from ranked rows of the sources; a trusted-only scan without
    supplement has vouched for all of them. *)
Definition page_from (p : NotesSearchParams) (rows : list string) : Prop :=
  ∃ ordered ranked s1 s2, rankNoteEvents sv clock p ordered s1 = (s2, Ok ranked) ∧ (∀ r, r ∈ ordered → sourced sv r)
    ∧ page_of p ranked rows
    ∧ (searchTrustMode sv = TrustModeTrustedOnly → NSort p = "relevant" → shouldMergeRecent sv p = false →
       ∀ r, r ∈ ordered → vouched sv (note_author r)).

Lemma finish_page p s s' rows :
  0 < NLimit p → finishNotePage sv clock p s = (s', Ok rows) →
  (searchTrustMode sv = TrustModeTrustedOnly → NSort p ≠ "relevant") → page_from p rows.
Proof.
  intros Hl F Hno. unfold finishNotePage in F. apply bind_ok in F as (s1 & ordered & E1 & F). apply bind_ok in F as (s2 & ranked & E2 & F).
  exists ordered, ranked, s1, s2. split; [done|]. split; [intros r Hr; by eapply collected_sourced|].
  split; [|intros Hm Hs; by destruct (Hno Hm)].
  destruct (Z.eqb_spec (NOffset p) 0); [injection F as _ <-; by left|]. rewrite (proj2 (Z.ltb_lt 0 (NLimit p))) in F by done.
  injection F as _ <-. right. split; [done|]. split; [rewrite length_take; lia|]. apply sublist_submseteq, sublist_take.
Qed.

Lemma by_mode_elem c mode r : r ∈ trustedSearchNoteRowsByMode c mode → ∃ b, (r, b) ∈ c.
Proof.
  unfold trustedSearchNoteRowsByMode. intros Hr%list_elem_of_In.
  destruct (bool_decide _); cbn [negb] in Hr; [apply in_app_iff in Hr as [Hr|Hr]|];
    apply in_map_iff in Hr as ([x b] & <- & Hx); try apply filter_In in Hx as [Hx _]; exists b; by apply list_elem_of_In.
Qed.

Lemma trust_aware_page p s s' rows :
  0 < NLimit p → 0 ≤ NOffset p → searchNotesTrustAware sv clock p s = (s', Ok rows) → page_from p rows.
Proof.
  intros Hl Ho. unfold searchNotesTrustAware. destruct (_ || _) eqn:Eo.
  { intros E. eapply finish_page; [done|exact E|]. intros Hm Hs. by rewrite Hm, Hs in Eo. }
  destruct (trustQualification sv) as [reader|].
  2:{ destruct (bool_decide (searchTrustMode sv = TrustModeTrustedOnly)) eqn:Em; [done|]. intros E. eapply finish_page; [done|exact E|]. intros Hm. by rewrite Hm in Em. }
  cbv zeta. intros E. apply bind_ok in E as (s1 & c & Ec & E). apply bind_ok in E as (s2 & ranked & Er & E).
  assert (scan_ok sv c) as Hc by (eapply scan_notes_ok; [|exact Ec]; by intros r b ?%elem_of_nil).
  exists (supplementFreshNotes sv clock p (trustedSearchNoteRowsByMode c (searchTrustMode sv))), ranked, s1, s2.
  split; [done|]. split; [|split].
  - intros r Hr. apply supplement_sourced in Hr as [Hr|Hr]; [|done]. apply by_mode_elem in Hr as [b Hb]. by destruct (Hc r b Hb).
  - destruct (Z.ltb_spec 0 (NOffset p)); injection E as _ <-; [right|left; split; [lia|done]].
    split; [lia|]. unfold paginateSearchNotes. split; [rewrite length_take; lia|apply take_drop_submseteq].
  - intros Hm Hs Hmerge r. unfold supplementFreshNotes. cbv zeta. rewrite Hmerge. cbn [negb]. intros Hr.
    apply by_mode_elem in Hr as [b Hb]. destruct (Hc r b Hb) as [_ Hv]. auto.
Qed.

(** C27: a page of note search has at most the limit asked for, itself at most a
    hundred, and its first page at most two notes of one author. A note on it
    was returned by the engine, by a reader or by the feed of a hashtag, and
    carries the id and author of a note so returned that contains every quoted
    phrase of the query, whatever correction, supplement, trust scan and ranking
    did in between; the answer to an event identifier is the event with that
    id. *)
Theorem search_page_sound params s s' rows :
  SearchNotes sv clock params s = (s', Ok rows) →
  ∃ p, normalizeNotesSearchParams params = Ok p
  ∧ Z.of_nat (length rows) ≤ NLimit p ≤ 100
  ∧ (NOffset p = 0 → query_identifier (NQuery p) = "" → ∀ author, key_count author rows ≤ 2)
  ∧ ∀ r, r ∈ rows →
      if decide (query_identifier (NQuery p) = "") then
        sourced sv r ∧ ∃ r', sourced sv r' ∧ i_id (eventIdentity r') = i_id (eventIdentity r)
          ∧ i_pubkey (eventIdentity r') = i_pubkey (eventIdentity r)
          ∧ ContentMatchesPhrases (i_content (eventIdentity r')) (Phrases (ParseSearchQuery (NQuery p))) = true
      else eventByID sv (query_identifier (NQuery p)) = Ok (Some r).
Proof.
  intros E. destruct (search_cases _ _ _ _ E) as (p & Ep & Hc). exists p. split; [done|].
  destruct (normalize_ok _ _ Ep) as (Hlim & Hoff & Htrim & _ & _). destruct Hc as [->|[(Hid & r & Er & ->)|(Hid & q & s0 & s1 & s2 & Eq & Es)]].
  - split; [simpl; lia|]. split; [intros; unfold key_count; simpl; lia|].
    intros r Hr. apply elem_of_nil in Hr. destruct Hr.
  - split; [simpl; lia|]. split; [done|]. intros x ->%list_elem_of_singleton. by rewrite decide_False.
  - destruct (trust_aware_page (with_query p q) s1 s2 rows) as (ordered & ranked & t1 & t2 & Erank & Hsrc & Hpage & _); [simpl; lia..|done|].
    assert (Z.of_nat (length rows) ≤ NLimit p ∧ (NOffset p = 0 → ∀ k, key_count k rows ≤ 2) ∧ rows ⊆+ ranked) as (H1p & H2p & H3p).
    { destruct Hpage as [[_ ->]|(Hne & Hlen & Hsub)]; [|by split; [done|split; [|done]]].
      destruct (capAuthorPage_spec ranked (NLimit p)) as (P1 & P2 & P3); [lia|]. done. }
    split; [lia|]. split; [auto|]. intros r Hr. rewrite decide_True by done.
    assert (r ∈ ranked) as Hrk by by eapply elem_of_submseteq.
    split; [apply Hsrc; by eapply rank_elem|].
    destruct (rank_phrases sv clock _ _ _ _ _ _ Erank Hrk) as (r' & Hr' & E1 & E2 & E3). exists r'.
    split; [auto|]. split; [done|]. split; [done|]. cbn [NQuery with_query] in E3.
    destruct (Phrases (ParseSearchQuery (NQuery p))) as [|ph phs] eqn:Eph; [done|].
    rewrite (phrase_kept _ _ _ _ _ Eq) in E3 by (rewrite Htrim, Eph; done). by rewrite Htrim, Eph in E3.
Qed.

(** C26: with trusted-only search and no engine configured, every note that a
    search by relevance returns has an author for whom the trust readers
    vouched: none of the batches, the fallback of the qualification or the
    ranking lets another one in. *)
Theorem trusted_only_search params s s' rows :
  searchTrustMode sv = TrustModeTrustedOnly → meilisearch sv = None →
  to_lower (trim_space (NSort params)) ≠ "latest" → query_identifier (trim_space (NQuery params)) = "" →
  SearchNotes sv clock params s = (s', Ok rows) →
  ∀ r, r ∈ rows → vouched sv (note_author r).
Proof.
  intros Hm Hno Hsort Hid E r Hr. destruct (search_cases _ _ _ _ E) as (p & Ep & Hc).
  destruct (normalize_ok _ _ Ep) as (Hlim & Hoff & _ & Hq & Hs). rewrite Hq in Hc.
  destruct Hc as [->|[(Hid' & _)|(_ & q & s0 & s1 & s2 & Eq & Es)]]; [by apply elem_of_nil in Hr|done|].
  destruct (trust_aware_page (with_query p q) s1 s2 rows) as (ordered & ranked & t1 & t2 & Erank & _ & Hpage & Hv); [simpl; lia..|done|].
  assert (r ∈ ranked) as Hrk.
  { destruct Hpage as [[_ ->]|(_ & _ & Hsub)]; [|by eapply elem_of_submseteq].
    destruct (capAuthorPage_spec ranked (NLimit p)) as (_ & _ & P3); [lia|]. by eapply elem_of_submseteq. }
  apply Hv; [done| | |by eapply rank_elem].
  - destruct Hs as [Hs|[_ Hs]]; done.
  - unfold shouldMergeRecent, has_engine. by rewrite Hno.
Qed.
End search.

(** * Examples *)

Module PageExample.
#[local] Instance ascii_classes : UnicodeClasses := {| unicode_letter _ := false; unicode_digit _ := false |}.
#[local] Existing Instance list_range.
#[local] Existing Instance insertion_sort.
#[local] Instance no_bech32 : Bech32 := {| DecodeNoLimit _ := None; ConvertBits _ := None |}.
Existing Instance ascii_tables.
Existing Instance HostExample.toy_parser.
Existing Instance RankExample.toy_math.

Definition event (id author content : string) (created : Z) : string :=
  json_Marshal (JObj [(bytes "id", JStr (bytes id)); (bytes "pubkey", JStr (bytes author));
                      (bytes "content", JStr (bytes content)); (bytes "created_at", JNum (itoa created))]).

Definition by_relevance : list string :=
  [event "1" "friend" "gm everyone" 1000; event "2" "friend" "gm again" 900; event "3" "friend" "gm once more" 800;
   event "4" "other" "gm to all" 700].

Definition recent : list string := [event "9" "spammer" "gm buy this" 1100].

(** Searches the notes in their order, or the recent ones by time. *)
Definition toy_search (c : NotesCall) : result (list string) :=
  if bool_decide (call_sort c = "latest") then Ok recent
  else Ok (take (Z.to_nat (call_limit c)) (drop (Z.to_nat (call_offset c)) by_relevance)).

Definition toy_trust (asked : list string) : result (gmap string bool) := Ok {[ "friend" := true ]}.

Definition toy_service (engine : bool) (mode : TrustMode) : Service :=
  {| meilisearch := if engine then Some toy_search else None; notesReader := Some toy_search; beforeReader := None;
     contentReader := λ _ _, Ok []; hashtagNotes := λ _, Ok []; frequencyReader := true; eventCountReader := None;
     profileSignalReader := None; trustStates := None; trustQualification := Some toy_trust;
     eventByID := λ _, Ok None; searchTrustMode := mode; searchTrustPolicy := mkPolicy 0 zero; searchTrustScanSize := 400 |}.

Definition toy_start : request := mkRequest (mkDb (mkSearch ∅) []) (Some new_diag).

Definition search (engine : bool) (mode : TrustMode) (q sort : string) (limit offset : Z) : result (list string) :=
  match (SearchNotes (toy_service engine mode) (of_unix 1200) (mkParams q limit offset sort "" None 0 "") toy_start).2 with
  | Ok rows => Ok (map (λ r, i_id (eventIdentity r)) rows)
  | Err e => Err e
  end.

(** Without an engine only the trusted author is found; with one, the recent
    supplement adds a note that was never qualified, and so does a search by
    time. *)
Example trusted_only_pages :
  search false TrustModeTrustedOnly "gm" "" 20 0 = Ok ["1"; "2"]
  ∧ search true TrustModeTrustedOnly "gm" "" 20 0 = Ok ["9"; "1"; "2"]
  ∧ search false TrustModeTrustedOnly "gm" "latest" 20 0 = Ok ["9"].
Proof. vm_compute. done. Qed.

(** The preference for trusted authors does not survive the ranking: the note of
    another author comes first, as without it. *)
Example preference_lost :
  search false TrustModePreferTrusted "to all" "" 20 0 = Ok ["4"; "1"; "2"]
  ∧ search false TrustModeOpen "to all" "" 20 0 = Ok ["4"; "1"; "2"].
Proof. vm_compute. done. Qed.

(** Two pages of three notes: what the author cap drops from the first page is on
    no later one. *)
Example dropped_for_good :
  search false TrustModeOpen "gm" "" 3 0 = Ok ["1"; "2"] ∧ search false TrustModeOpen "gm" "" 3 3 = Ok ["4"].
Proof. vm_compute. done. Qed.

(** A phrase, an identifier that is unknown, and bad parameters. *)
Example other_searches :
  search false TrustModeOpen (str ([34] ++ bytes "GM again" ++ [34])) "" 20 0 = Ok ["2"]
  ∧ search false TrustModeOpen (str (repeat 97 64)) "" 20 0 = Ok []
  ∧ search false TrustModeOpen "gm" "oldest" 20 0 = Err "sort must be one of: relevant, latest"
  ∧ search false TrustModeOpen "gm" "" 20 5001 = Err "offset exceeds maximum allowed value".
Proof. vm_compute. done. Qed.
Definition toy_params : NotesSearchParams := mkParams "gm" 20 0 "" "" None 0 "".

Lemma toy_page :
  ∃ s', SearchNotes (toy_service false TrustModeTrustedOnly) (of_unix 1200) toy_params toy_start
        = (s', Ok [event "1" "friend" "gm everyone" 1000; event "2" "friend" "gm again" 900]).
Proof. eexists. vm_compute. reflexivity. Qed.

Lemma search_page_witness :
  ∃ s', SearchNotes (toy_service false TrustModeTrustedOnly) (of_unix 1200) toy_params toy_start
        = (s', Ok [event "1" "friend" "gm everyone" 1000; event "2" "friend" "gm again" 900])
  ∧ ∃ p, normalizeNotesSearchParams toy_params = Ok p
    ∧ (NOffset p = 0 → query_identifier (NQuery p) = "" →
       ∀ author, key_count author [event "1" "friend" "gm everyone" 1000; event "2" "friend" "gm again" 900] ≤ 2).
Proof.
  destruct toy_page as [s' E]. exists s'. split; [exact E|].
  destruct (search_page_sound (toy_service false TrustModeTrustedOnly) (of_unix 1200) toy_params toy_start s' _ E) as (p & Ep & _ & Hcap & _).
  exists p. exact (conj Ep Hcap).
Defined.

Lemma trusted_only_witness :
  vouched (toy_service false TrustModeTrustedOnly) (note_author (event "1" "friend" "gm everyone" 1000)).
Proof.
  destruct toy_page as [s' E].
  apply (trusted_only_search (toy_service false TrustModeTrustedOnly) (of_unix 1200) toy_params toy_start s'
           [event "1" "friend" "gm everyone" 1000; event "2" "friend" "gm again" 900]).
  - reflexivity.
  - reflexivity.
  - vm_compute. discriminate.
  - vm_compute. reflexivity.
  - exact E.
  - left.
Defined.
End PageExample.
