(* ===== verification/TrustGraph.v ===== *)
(** Seed neighbourhoods, [internal/trust/neighborhoods.go]: a breadth-first
    search from every seed over the follow graph, bounded in hops and in
    members. *)

From S2P Require Import Prelude GoLib GoFloat.

(** A map from a follower to the pubkeys it follows. *)
Abbreviation follow_graph := (gmap string (list string)) (only parsing).

Definition followed (adjacency : follow_graph) (p : string) : list string := default [] (adjacency !! p).

Record neighborhoodMember := mkMember {
  SeedPubkey : string;
  MemberPubkey : string;
  Hops : Z;
  Weight : f64;
}.

(** * The search *)

Definition neighborhoodWeight (hops : Z) : f64 :=
  let hops := if hops <? 0 then 0 else hops in
  f64_div (f64_of_Z 1) (f64_of_Z (hops + 1)).

Abbreviation queueItem := (string * Z)%type (only parsing).

(** The inner loop over the sorted neighbours of an item at [hops]. *)
Fixpoint visit (hops maxMembers : Z) (neighbors : list string) (visited : gmap string Z) (queue : list queueItem)
    : gmap string Z * list queueItem :=
  match neighbors with
  | [] => (visited, queue)
  | next :: neighbors =>
      let next := trim_space next in
      if bool_decide (next = "") then visit hops maxMembers neighbors visited queue
      else if bool_decide (is_Some (visited !! next)) then visit hops maxMembers neighbors visited queue
      else
        let visited := <[next := hops + 1]> visited in
        if maxMembers <=? Z.of_nat (size visited) then (visited, queue)
        else visit hops maxMembers neighbors visited (queue ++ [(next, hops + 1)])
  end.

Fixpoint bfs_loop (fuel : nat) (adjacency : follow_graph) (maxHops maxMembers : Z)
    (visited : gmap string Z) (queue : list queueItem) : option (gmap string Z) :=
  match queue with
  | [] => Some visited
  | (pubkey, hops) :: queue =>
      if negb (Z.of_nat (size visited) <? maxMembers) then Some visited
      else
        match fuel with
        | O => None
        | S fuel =>
            if maxHops <=? hops then bfs_loop fuel adjacency maxHops maxMembers visited queue
            else
              let '(visited, queue) := visit hops maxMembers (sort_Strings (followed adjacency pubkey)) visited queue in
              bfs_loop fuel adjacency maxHops maxMembers visited queue
        end
  end.

Definition member_less (a b : neighborhoodMember) : bool :=
  if negb (Hops a =? Hops b) then Hops a <? Hops b else String.ltb (MemberPubkey a) (MemberPubkey b).

Section search.
Context `{MapRange} `{SliceSort}.

Definition members_of (seed : string) (visited : gmap string Z) : list neighborhoodMember :=
  sort_Slice member_less
    (map (λ kv : string * Z, mkMember seed kv.1 kv.2 (neighborhoodWeight kv.2)) (map_range visited)).

(** [bfs_total] shows that the search ends within [maxMembers] rounds. *)
Definition bfsNeighborhood (adjacency : follow_graph) (seed : string) (maxHops maxMembers : Z)
    : list neighborhoodMember :=
  match bfs_loop (Z.to_nat maxMembers) adjacency maxHops maxMembers {[seed := 0]} [(seed, 0)] with
  | Some visited => members_of seed visited
  | None => []
  end.

Definition computeSeedNeighborhoods (adjacency : follow_graph) (seeds : gset string) (maxHops maxMembers : Z)
    : list neighborhoodMember :=
  let maxHops := if maxHops <? 0 then 0 else maxHops in
  let maxMembers := if maxMembers <=? 0 then 1 else maxMembers in
  let seedList := List.filter (λ s, negb (bool_decide (s = ""))) (map trim_space (set_range seeds)) in
  concat (map (λ seed, bfsNeighborhood adjacency seed maxHops maxMembers) (sort_Strings seedList)).
End search.

(** * Walks in the follow graph *)

(** [b] is followed by [a], after trimming. *)
Definition follows (adjacency : follow_graph) (a b : string) : Prop :=
  ∃ raw, raw ∈ followed adjacency a ∧ trim_space raw = b ∧ b ≠ "".

(** [walk E k a b]: [k] follows lead from [a] to [b]. *)
Inductive walk (E : string → string → Prop) (a : string) : Z → string → Prop :=
| walk_start : walk E a 0 a
| walk_step k b c : walk E a k b → E b c → walk E a (k + 1) c.

#[export] Hint Constructors walk : nmash.

(** The number of follows on a shortest walk. *)
Definition distance (E : string → string → Prop) (a b : string) (k : Z) : Prop :=
  walk E a k b ∧ ∀ j, walk E a j b → k ≤ j.

Lemma walk_nonneg E a k b : walk E a k b → 0 ≤ k.
Proof. induction 1; lia. Qed.

Lemma walk_inv E a k c : walk E a k c → (k = 0 ∧ c = a) ∨ ∃ b, walk E a (k - 1) b ∧ E b c.
Proof. destruct 1 as [|k b c Hw HE]; [by left|]. right. exists b. by replace (k + 1 - 1) with k by lia. Qed.

Lemma hops_unique E a b k k' : distance E a b k → distance E a b k' → k = k'.
Proof. intros [Hw Hm] [Hw' Hm']. pose proof (Hm _ Hw'). pose proof (Hm' _ Hw). lia. Qed.

(** * The search keeps a ball around the seed *)

Section bfs.
Context (adjacency : follow_graph) (seed : string) (maxHops maxMembers : Z).

Abbreviation walks := (walk (follows adjacency) seed).

(** What holds while the items at [h] hops are processed, whether or not the
    search is cut short: every visited pubkey is reached in its hops, nothing
    lies beyond the next level, and everything up to [h] hops is visited. *)
Record ball (h : Z) (V : gmap string Z) : Prop := {
  bl_walk : ∀ p k, V !! p = Some k → walks k p;
  bl_next : ∀ p k, V !! p = Some k → k ≤ h + 1;
  bl_hops : ∀ p k, V !! p = Some k → k ≤ maxHops;
  bl_full : ∀ p j, walks j p → j ≤ h → ∃ k, V !! p = Some k ∧ k ≤ j;
  bl_size : Z.of_nat (size V) ≤ maxMembers;
}.

(** The followed of [p] are visited within the next hop. *)
Definition expanded (V : gmap string Z) (p : string) (k : Z) : Prop :=
  ∀ c, follows adjacency p c → ∃ k', V !! c = Some k' ∧ k' ≤ k + 1.

(** The queue holds the rest of level [h], then the next level. *)
Record frontier (h : Z) (V : gmap string Z) (A B : list queueItem) : Prop := {
  fr_ball : ball h V;
  fr_level : Forall (λ x : queueItem, x.2 = h ∧ V !! x.1 = Some h) A;
  fr_next : Forall (λ x : queueItem, x.2 = h + 1 ∧ V !! x.1 = Some (h + 1)) B;
  fr_queued : ∀ p, V !! p = Some (h + 1) → (p, h + 1) ∈ B;
  fr_expanded : ∀ p k, V !! p = Some k → k ≤ h → (p, k) ∉ A → k < maxHops → expanded V p k;
  fr_inside : B ≠ [] → h < maxHops;
}.

Lemma ball_insert h V p :
  ball h V → V !! p = None → walks (h + 1) p → h < maxHops → Z.of_nat (size V) < maxMembers → ball h (<[p := h + 1]> V).
Proof.
  intros Hb Hp Hw Hh Hs. split.
  - intros q k Hq. apply lookup_insert_Some in Hq as [[<- <-]|[_ Hq]]; [done|]. by apply (bl_walk h V Hb).
  - intros q k Hq. apply lookup_insert_Some in Hq as [[<- <-]|[_ Hq]]; [lia|]. by apply (bl_next h V Hb q).
  - intros q k Hq. apply lookup_insert_Some in Hq as [[<- <-]|[_ Hq]]; [lia|]. by apply (bl_hops h V Hb q).
  - intros q j Hq Hj. destruct (bl_full h V Hb q j Hq Hj) as (k & Hk & ?). exists k. split; [|done].
    rewrite lookup_insert_ne; [done|congruence].
  - rewrite map_size_insert_None by done. lia.
Qed.

(** What the inner loop adds. *)
Record visited_from (h : Z) (V V' : gmap string Z) (Q Q' new : list queueItem) (ns : list string) : Prop := {
  vf_ball : ball h V';
  vf_queue : Q' = Q ++ new;
  vf_keep : V ⊆ V';
  vf_new : Forall (λ x : queueItem, x.2 = h + 1 ∧ V' !! x.1 = Some (h + 1)) new;
  vf_origin : Z.of_nat (size V') < maxMembers → ∀ p k, V' !! p = Some k → V !! p = Some k ∨ (p, k) ∈ new;
  vf_seen : Z.of_nat (size V') < maxMembers → ∀ raw, raw ∈ ns → trim_space raw ≠ "" → is_Some (V' !! trim_space raw);
  vf_measure : (length new + size V ≤ size V')%nat;
}.

Lemma visit_spec h ns V Q V' Q' :
  visit h maxMembers ns V Q = (V', Q') → ball h V → h < maxHops → Z.of_nat (size V) < maxMembers →
  (∀ raw, raw ∈ ns → trim_space raw ≠ "" → walks (h + 1) (trim_space raw)) →
  ∃ new, visited_from h V V' Q Q' new ns.
Proof.
  intros E Hb Hh Hs Hns. revert V Q E Hb Hs. induction ns as [|raw ns IH]; intros V Q E Hb Hs.
  { injection E as <- <-. exists []. split; try done; [by rewrite app_nil_r| |set_solver]. by left. }
  cbn [visit] in E. assert (∀ raw, raw ∈ ns → trim_space raw ≠ "" → walks (h + 1) (trim_space raw)) as Hns' by set_solver.
  case_bool_decide as Hne; [|case_bool_decide as Hseen].
  - destruct (IH Hns' V Q E Hb Hs) as [new Hv]. exists new. destruct Hv. split; try done.
    intros Hlt r [->|Hr]%elem_of_cons Hr'; [done|]. by apply vf_seen0.
  - destruct (IH Hns' V Q E Hb Hs) as [new Hv]. exists new. destruct Hv. split; try done.
    intros Hlt r [->|Hr]%elem_of_cons Hr'; [|by apply vf_seen0]. destruct Hseen as [k Hk]. exists k. by eapply lookup_weaken.
  - apply eq_None_not_Some in Hseen.
    assert (ball h (<[trim_space raw := h + 1]> V)) as Hb' by (apply ball_insert; try done; apply Hns; [set_solver|done]).
    assert (size (<[trim_space raw := h + 1]> V) = S (size V)) as Hsz by (by apply map_size_insert_None).
    destruct (Z.leb_spec maxMembers (Z.of_nat (size (<[trim_space raw := h + 1]> V)))) as [Hfull|Hroom].
    + injection E as <- <-. exists []. split; try done; try lia; [by rewrite app_nil_r| |simpl; lia].
      by apply insert_subseteq.
    + destruct (IH Hns' _ _ E Hb' Hroom) as [new Hv]. exists ((trim_space raw, h + 1) :: new). destruct Hv.
      assert (V' !! trim_space raw = Some (h + 1)) as Hraw by (eapply lookup_weaken; [|done]; apply lookup_insert_eq).
      split; try done.
      * by rewrite vf_queue0, <-app_assoc.
      * etransitivity; [by apply insert_subseteq|done].
      * by constructor.
      * intros Hlt p k Hp. destruct (vf_origin0 Hlt p k Hp) as [Hi|Hi]; [|right; set_solver].
        apply lookup_insert_Some in Hi as [[<- <-]|[_ Hi]]; [right; set_solver|by left].
      * intros Hlt r [->|Hr]%elem_of_cons Hr'; [by eexists|]. by apply vf_seen0.
      * simpl. lia.
Qed.

(** ** What the search returns *)

(** Every visited pubkey has its distance, nothing nearer is left out, and a
    search that is not cut short visits everything within the hops. *)
Record searched (V : gmap string Z) : Prop := {
  se_distance : ∀ p k, V !! p = Some k → distance (follows adjacency) seed p k ∧ k ≤ maxHops;
  se_nearest : ∀ p k q j, V !! p = Some k → walks j q → j < k → is_Some (V !! q);
  se_complete : Z.of_nat (size V) < maxMembers → ∀ q j, walks j q → j ≤ maxHops → is_Some (V !! q);
  se_size : Z.of_nat (size V) ≤ maxMembers;
}.

Lemma ball_minimal h V p k j : ball h V → V !! p = Some k → walks j p → k ≤ j.
Proof.
  intros Hb Hp Hw. destruct (Z.le_gt_cases j h) as [Hj|Hj].
  - destruct (bl_full h V Hb p j Hw Hj) as (k' & Hk' & ?). congruence.
  - pose proof (bl_next h V Hb p k Hp). lia.
Qed.

Lemma ball_searched h V :
  ball h V → (Z.of_nat (size V) < maxMembers → ∀ q j, walks j q → j ≤ maxHops → is_Some (V !! q)) → searched V.
Proof.
  intros Hb Hc. split; [|..|done|by apply (bl_size h V Hb)].
  - intros p k Hp. split; [|by apply (bl_hops h V Hb p)]. split; [by apply (bl_walk h V Hb)|].
    intros j Hj. by apply (ball_minimal h V p k j).
  - intros p k q j Hp Hw Hj. pose proof (bl_next h V Hb p k Hp).
    destruct (bl_full h V Hb q j Hw) as (k' & -> & _); [lia|by eexists].
Qed.

Lemma expanded_complete V :
  (∀ p k, V !! p = Some k → walks k p ∧ k ≤ maxHops) → V !! seed = Some 0 →
  (∀ p k, V !! p = Some k → k < maxHops → expanded V p k) →
  ∀ q j, walks j q → j ≤ maxHops → ∃ k, V !! q = Some k ∧ k ≤ j.
Proof.
  intros Hw Hs He q j Hq. induction Hq as [|j b c Hb IH HE]; intros Hj; [by exists 0|].
  destruct IH as (k & Hk & ?); [lia|]. destruct (He b k Hk ltac:(lia) c HE) as (k' & ? & ?). exists k'. split; [done|lia].
Qed.

Lemma ball_seed h V : ball h V → 0 ≤ h → V !! seed = Some 0.
Proof.
  intros Hb Hh. destruct (bl_full h V Hb seed 0 (walk_start _ _) Hh) as (k & Hk & ?).
  pose proof (walk_nonneg _ _ _ _ (bl_walk h V Hb seed k Hk)). by replace k with 0 in Hk by lia.
Qed.

Lemma frontier_done h V : frontier h V [] [] → 0 ≤ h → searched V.
Proof.
  intros Hf Hh. destruct Hf as [Hb _ _ Hq He _]. apply (ball_searched h); [done|]. intros _ q j Hw Hj.
  destruct (expanded_complete V) with (q := q) (j := j) as (k & -> & _); try done.
  - intros p k Hp. split; [by apply (bl_walk h V Hb)|by apply (bl_hops h V Hb p)].
  - by apply (ball_seed h).
  - intros p k Hp Hlt. apply He; try done; [|set_solver]. pose proof (bl_next h V Hb p k Hp).
    destruct (decide (k = h + 1)) as [->|]; [|lia]. specialize (Hq p Hp). set_solver.
Qed.

(** When a level is exhausted the next one starts. *)
Lemma frontier_shift h V B : frontier h V [] B → B ≠ [] → 0 ≤ h → frontier (h + 1) V B [].
Proof.
  intros [Hb _ Hn Hq He Hi] HB Hh. specialize (Hi HB). split; try done.
  - destruct Hb as [Hw Hnx Hho Hfu Hsz]. split; try done; [intros p k Hp; specialize (Hnx p k Hp); lia|].
    intros p j Hp Hj. apply walk_inv in Hp as Hp'. destruct Hp' as [[-> ->]|(b & Hwb & HE)]; [by apply Hfu|].
    destruct (Hfu b (j - 1) Hwb) as (k & Hk & ?); [lia|].
    destruct (He b k Hk ltac:(lia)) with (c := p) as (k' & ? & ?); [set_solver|lia|done|]. exists k'. split; [done|lia].
  - intros p Hp. pose proof (bl_next h V Hb p _ Hp). lia.
  - intros p k Hp Hk Hnot Hlt. destruct (decide (k = h + 1)) as [->|]; [by specialize (Hq p Hp)|]. apply He; try done; [lia|set_solver].
Qed.

(** Processing one item of the level. *)
Lemma frontier_visit h V p A B V' Q' :
  frontier h V ((p, h) :: A) B → h < maxHops → Z.of_nat (size V) < maxMembers →
  visit h maxMembers (sort_Strings (followed adjacency p)) V (A ++ B) = (V', Q') →
  (length Q' + size V ≤ length (A ++ B) + size V')%nat ∧
  (searched V' ∧ maxMembers ≤ Z.of_nat (size V') ∨ ∃ B', Q' = A ++ B' ∧ frontier h V' A B').
Proof.
  intros [Hb Hl Hn Hq He Hi] Hh Hs E. inversion Hl as [|? ? [_ Hp] HA]; subst. cbn [fst snd] in Hp.
  destruct (visit_spec h _ _ _ _ _ E Hb Hh Hs) as [new Hv].
  { intros raw Hr Hne. apply (walk_step _ _ h p); [by apply (bl_walk h V Hb)|]. exists raw.
    by rewrite elem_of_sort_Strings in Hr. }
  destruct Hv as [Hb' HQ Hk Hnew Ho Hse Hm]. split; [subst Q'; rewrite !length_app; lia|].
  destruct (Z.lt_ge_cases (Z.of_nat (size V')) maxMembers) as [Hlt|Hge]; [right|left; split; [|done]].
  2: { apply (ball_searched h); [done|]. lia. }
  exists (B ++ new). split; [by rewrite HQ, app_assoc|]. split; try done.
  - eapply Forall_impl; [|exact HA]. intros [q k] [? ?]. split; [done|]. by eapply lookup_weaken.
  - apply Forall_app. split; [|done]. eapply Forall_impl; [|exact Hn]. intros [q k] [? ?]. split; [done|]. by eapply lookup_weaken.
  - intros q Hq'. destruct (Ho Hlt q _ Hq') as [Hi'|Hi']; [specialize (Hq q Hi')|]; set_solver.
  - intros q k Hq' Hkh Hnot Hkm. destruct (decide (q = p)) as [->|Hne].
    + intros c (raw & Hr & <- & Hne). destruct (Hse Hlt raw) as [k' Hk']; [by rewrite elem_of_sort_Strings|done|].
      exists k'. split; [done|]. assert (V' !! p = Some h) as Hp' by (by eapply lookup_weaken). assert (k = h) as -> by congruence.
      by apply (bl_next h V' Hb' _ k' Hk').
    + destruct (Ho Hlt q k Hq') as [Hi'|Hi'].
      * intros c Hc. destruct (He q k Hi' Hkh) with (c := c) as (k' & ? & ?); [set_solver|done|done|].
        exists k'. split; [by eapply lookup_weaken|done].
      * rewrite List.Forall_forall in Hnew. apply list_elem_of_In, Hnew in Hi' as [? _]. cbn [snd] in *. lia.
Qed.

(** ** The loop *)

(** The rounds still needed: one per queued item and per free place. *)
Lemma bfs_loop_spec fuel h V A B :
  frontier h V A B → 0 ≤ h → Z.of_nat (length (A ++ B)) + (maxMembers - Z.of_nat (size V)) ≤ Z.of_nat fuel →
  ∃ V', bfs_loop fuel adjacency maxHops maxMembers V (A ++ B) = Some V' ∧ searched V'.
Proof.
  revert h V A B. induction fuel as [|fuel IH]; intros h V A B Hf Hh Hfuel.
  all: pose proof (bl_size h V (fr_ball h V A B Hf)) as Hsz.
  - destruct A as [|a A]; [destruct B as [|b B]|]; [|cbn [app length] in Hfuel; lia..].
    exists V. split; [done|]. by apply (frontier_done h).
  - assert (∃ h' A' B', A ++ B = A' ++ B' ∧ 0 ≤ h' ∧ frontier h' V A' B' ∧ (A' = [] → B' = [])) as (h' & A' & B' & HAB & Hh' & Hf' & Hne).
    { destruct A as [|a A]; [|by exists h, (a :: A), B]. destruct B as [|b B]; [by exists h, [], []|].
      exists (h + 1), (b :: B), []. split_and!; [by rewrite app_nil_r|lia| |done]. by apply frontier_shift. }
    rewrite HAB in Hfuel |- *. clear HAB Hf Hh h A B. destruct A' as [|[p k] A']; [rewrite (Hne eq_refl) in *; exists V; split; [done|]; by apply (frontier_done h')|].
    cbn [app bfs_loop]. assert (k = h') as ->.
    { pose proof (fr_level _ _ _ _ Hf') as Hl. by inversion Hl as [|? ? [? _] _]; subst. }
    destruct (Z.ltb_spec (Z.of_nat (size V)) maxMembers) as [Hlt|Hge]; cbn [negb].
    2: { exists V. split; [done|]. apply (ball_searched h'); [apply Hf'|]. lia. }
    destruct (Z.leb_spec maxHops h') as [Hend|Hgo].
    + apply (IH h'); [|done|cbn [app length] in Hfuel; lia]. destruct Hf' as [Hb Hl Hn Hq He Hi]. split; try done.
      * by inversion Hl.
      * intros q k Hq' Hkh Hnot Hkm. apply He; try done. intros [Heq|?]%elem_of_cons; [injection Heq as -> ->; lia|done].
    + destruct (visit _ _ _ _ _) as [V' Q'] eqn:E.
      destruct (frontier_visit h' V p A' B' V' Q' Hf' Hgo Hlt E) as (Hm & [[Hse Hfull]|(B'' & -> & Hf'')]).
      * exists V'. split; [|done]. destruct fuel, Q' as [|[q k] Q']; try done; cbn [bfs_loop].
        all: by replace (Z.of_nat (size V') <? maxMembers) with false by lia.
      * apply (IH h'); [done|done|]. cbn [app length] in Hfuel. lia.
Qed.

Lemma frontier_start : 0 ≤ maxHops → 1 ≤ maxMembers → frontier 0 {[seed := 0]} [(seed, 0)] [].
Proof.
  intros Hh Hm. split.
  - split; try (intros p k [<- <-]%lookup_singleton_Some; auto with nmash; lia).
    + intros p j Hp Hj. apply walk_nonneg in Hp as Hj'. assert (j = 0) as -> by lia.
      apply walk_inv in Hp as [[_ ->]|(b & Hb%walk_nonneg & _)]; [|lia]. exists 0. by rewrite lookup_singleton_eq.
    + rewrite map_size_singleton. lia.
  - constructor; [|constructor]. by rewrite lookup_singleton_eq.
  - constructor.
  - intros p [<- ?]%lookup_singleton_Some. lia.
  - intros p k [<- <-]%lookup_singleton_Some _ Hnot. set_solver.
  - done.
Qed.

Lemma bfs_searched :
  0 ≤ maxHops → 1 ≤ maxMembers →
  ∃ V, bfs_loop (Z.to_nat maxMembers) adjacency maxHops maxMembers {[seed := 0]} [(seed, 0)] = Some V ∧ searched V.
Proof.
  intros Hh Hm. apply (bfs_loop_spec _ 0 _ [(seed, 0)] []); [by apply frontier_start|done|].
  rewrite map_size_singleton. cbn [app length]. lia.
Qed.
End bfs.

(** * Members *)

Lemma member_less_false a b :
  member_less a b = false ↔ Hops b < Hops a ∨ (Hops a = Hops b ∧ str_le (MemberPubkey b) (MemberPubkey a)).
Proof.
  unfold member_less, str_le. destruct (Z.eqb_spec (Hops a) (Hops b)); cbn [negb].
  - rewrite ltb_leb, negb_false_iff. intuition lia.
  - rewrite Z.ltb_ge. intuition lia.
Qed.

Lemma member_less_true a b :
  member_less a b = true ↔ Hops a < Hops b ∨ (Hops a = Hops b ∧ ¬ str_le (MemberPubkey b) (MemberPubkey a)).
Proof.
  rewrite <-not_false_iff_true, member_less_false. unfold str_le. split; [|intuition lia].
  intros Hn. destruct (Z.lt_total (Hops a) (Hops b)) as [|[|]]; [by left| |exfalso; auto].
  right. split; [done|]. intros ?. apply Hn. by right.
Qed.

(** Hops first, then pubkeys. *)
Lemma member_less_weak : strict_weak (λ _, True) member_less.
Proof.
  split.
  - intros x _. apply member_less_false. right. split; [done|]. by destruct (total str_le (MemberPubkey x) (MemberPubkey x)).
  - intros x y z _ _ _. rewrite !member_less_true. intros [?|[? Hxy]] [?|[? Hyz]]; try (left; lia).
    right. split; [lia|]. intros Hzx. destruct (total str_le (MemberPubkey x) (MemberPubkey y)) as [Hl|]; [|done].
    apply Hyz. by transitivity (MemberPubkey x).
  - intros x y z _ _ _. rewrite !member_less_false. intros [?|[? Hxy]] [?|[? Hyz]]; try (left; lia).
    right. split; [lia|]. by transitivity (MemberPubkey y).
Qed.

Section members.
Context `{MapRange} `{SliceSort}.

Abbreviation member seed := (λ kv : string * Z, mkMember seed kv.1 kv.2 (neighborhoodWeight kv.2)) (only parsing).

Lemma members_perm seed V : members_of seed V ≡ₚ map (member seed) (map_to_list V).
Proof. unfold members_of. by rewrite sort_perm, range_perm. Qed.

Lemma elem_of_members seed V m : m ∈ members_of seed V ↔ ∃ p k, V !! p = Some k ∧ m = member seed (p, k).
Proof.
  rewrite members_perm. change (map ?f ?l) with (f <$> l). rewrite list_elem_of_fmap. split.
  - intros ([p k] & -> & Hk%elem_of_map_to_list). by exists p, k.
  - intros (p & k & Hk%elem_of_map_to_list & ->). by exists (p, k).
Qed.

Lemma member_pubkeys seed V q : q ∈ map MemberPubkey (members_of seed V) ↔ is_Some (V !! q).
Proof.
  change (map ?f ?l) with (f <$> l). rewrite list_elem_of_fmap. split.
  - intros (m & -> & (p & k & Hk & ->)%elem_of_members). by exists k.
  - intros [k Hk]. exists (member seed (q, k)). split; [done|]. apply elem_of_members. by exists q, k.
Qed.

Lemma members_nodup seed V : NoDup (map MemberPubkey (members_of seed V)).
Proof. rewrite members_perm, map_map. apply NoDup_fst_map_to_list. Qed.

Lemma members_length seed V : length (members_of seed V) = size V.
Proof. rewrite members_perm, length_map. apply length_map_to_list. Qed.

Lemma members_sorted seed V : StronglySorted (λ a b, member_less b a = false) (members_of seed V).
Proof. apply (sort_sorted (λ _, True)); [apply member_less_weak|]. by apply List.Forall_forall. Qed.

(** The list is a function of the visited map alone. *)
Lemma members_unique seed V l :
  l ≡ₚ map (member seed) (map_to_list V) → StronglySorted (λ a b, member_less b a = false) l → members_of seed V = l.
Proof.
  intros Hp Hs. apply (StronglySorted_unique_strong (λ a b, member_less b a = false)); [|apply members_sorted|done|by rewrite members_perm, Hp].
  intros x y Hx Hy. rewrite Hp, <-members_perm in Hy. apply elem_of_members in Hx as (p & k & _ & ->), Hy as (q & j & _ & ->).
  rewrite !member_less_false. cbn [Hops MemberPubkey fst snd]. intros [?|[-> Hq]] [?|[? Hp']]; try lia. f_equal. by apply (anti_symm str_le).
Qed.
End members.

(** * Theorems *)

Section theorems.
Context `{MapRange} `{SliceSort}.

(** C15: a neighbourhood is the nearest part of the follow graph. Its members
    are distinct, at most [maxMembers], each with the length of a shortest walk
    from the seed, within [maxHops], and the weight of that length, ordered by
    hops and then by pubkey. No pubkey is left out for one that is farther, and
    as long as the cap is not reached nothing within [maxHops] is left out. *)
Theorem neighborhood_nearest adjacency seed maxHops maxMembers (Hh : 0 ≤ maxHops) (Hm : 1 ≤ maxMembers) :
  let members := bfsNeighborhood adjacency seed maxHops maxMembers in
  let reach := walk (follows adjacency) seed in
  StronglySorted (λ a b, member_less b a = false) members ∧
  NoDup (map MemberPubkey members) ∧
  Z.of_nat (length members) ≤ maxMembers ∧
  (∀ m, m ∈ members →
    SeedPubkey m = seed ∧ Weight m = neighborhoodWeight (Hops m) ∧ Hops m ≤ maxHops ∧
    distance (follows adjacency) seed (MemberPubkey m) (Hops m)) ∧
  (∀ m q j, m ∈ members → reach j q → j < Hops m → q ∈ map MemberPubkey members) ∧
  (Z.of_nat (length members) < maxMembers → ∀ q j, reach j q → j ≤ maxHops → q ∈ map MemberPubkey members).
Proof.
  cbv zeta. unfold bfsNeighborhood. destruct (bfs_searched adjacency seed maxHops maxMembers Hh Hm) as (V & -> & [Hd Hn Hc Hs]).
  split_and!; [apply members_sorted|apply members_nodup|by rewrite members_length|..].
  - intros m (p & k & Hk & ->)%elem_of_members. destruct (Hd p k Hk). done.
  - intros m q j (p & k & Hk & ->)%elem_of_members Hq Hj. apply member_pubkeys. by eapply Hn.
  - rewrite members_length. intros Hlt q j Hq Hj. apply member_pubkeys. by eapply Hc.
Qed.

(** the search ends: within [maxMembers] rounds the queue is empty or the
    cap is reached, whatever cycles the follow graph has. *)
Theorem bfs_total adjacency seed maxHops maxMembers (Hh : 0 ≤ maxHops) (Hm : 1 ≤ maxMembers) fuel
    (Hf : (Z.to_nat maxMembers ≤ fuel)%nat) :
  is_Some (bfs_loop fuel adjacency maxHops maxMembers {[seed := 0]} [(seed, 0)]).
Proof.
  destruct (bfs_loop_spec adjacency seed maxHops maxMembers fuel 0 {[seed := 0]} [(seed, 0)] []) as (V & E & _); [by apply frontier_start|done|..].
  - rewrite map_size_singleton. cbn [app length]. lia.
  - by exists V.
Qed.
End theorems.

(** C23: which order Go visits its maps in makes no difference: two runs on the
    same graph and seeds return the same members in the same order. *)
Theorem neighborhoods_deterministic (R R' : MapRange) (S S' : SliceSort) adjacency seeds maxHops maxMembers :
  @computeSeedNeighborhoods R S adjacency seeds maxHops maxMembers = @computeSeedNeighborhoods R' S' adjacency seeds maxHops maxMembers.
Proof.
  unfold computeSeedNeighborhoods. f_equal.
  assert (∀ seed h n, @bfsNeighborhood R S adjacency seed h n = @bfsNeighborhood R' S' adjacency seed h n) as Hb.
  { intros seed h n. unfold bfsNeighborhood. destruct (bfs_loop _ _ _ _ _ _); [|done].
    apply members_unique; [apply members_perm|apply members_sorted]. }
  rewrite (List.map_ext _ _ (λ seed, Hb seed _ _)). f_equal. apply sort_Strings_unique, filter_perm, Permutation_map.
  by rewrite !set_range_perm.
Qed.

(** * Concrete searches *)

Section concrete.
#[local] Existing Instance list_range.
#[local] Existing Instance insertion_sort.

(** The graph of [TestComputeSeedNeighborhoods_BFSWeightsAndCap]. *)
Definition test_graph : follow_graph :=
  list_to_map [("seed", ["b"; " a "; ""]); ("a", ["c"; "seed"]); ("b", ["d"]); ("c", ["e"])].

Example capped_search :
  map (λ m, (MemberPubkey m, Hops m)) (bfsNeighborhood test_graph "seed" 2 4) = [("seed", 0); ("a", 1); ("b", 1); ("c", 2)].
Proof. vm_compute. reflexivity. Qed.

Lemma neighborhood_nearest_witness :
  (0 ≤ 2 ∧ 1 ≤ 4) ∧ Z.of_nat (length (bfsNeighborhood test_graph "seed" 2 4)) ≤ 4.
Proof.
  split; [done|]. pose proof (neighborhood_nearest test_graph "seed" 2 4 ltac:(done) ltac:(done)) as Hn. cbv zeta in Hn. tauto.
Defined.

Lemma bfs_total_witness :
  (0 ≤ 2 ∧ 1 ≤ 4 ∧ (Z.to_nat 4 ≤ 4)%nat) ∧ is_Some (bfs_loop 4 test_graph 2 4 {["seed" := 0]} [("seed", 0)]).
Proof. split; [done|]. apply (bfs_total test_graph "seed" 2 4); [done|done|]. vm_compute. lia. Defined.
End concrete.
