(* ===== verification/TrustRank.v ===== *)
(** Trust ranking, [internal/trust]: the iterative rank of [ranking.go], the
    graph merges and the rank comparison of [interaction_graph.go].

    The ranking is written over a class of numbers, [Numbers]: [f64_numbers] is
    the program's [float64]; [exact_numbers], the rationals, is what it would
    compute without rounding. Products and sums round separately, as they do on
    amd64. *)

From Stdlib Require Import SpecFloat QArith Qcanon.
From S2P Require Import Prelude GoLib GoFloat.
Local Open Scope Z_scope.

Class Numbers (F : Type) := {
  n_of : Z → F;
  n_ratio : Z → Z → F;
  n_add : F → F → F;
  n_sub : F → F → F;
  n_mul : F → F → F;
  n_div : F → F → F;
  n_abs : F → F;
  n_lt : F → F → bool;
  n_le : F → F → bool;
  n_eq : F → F → bool;
  n_nan : F → bool;
  n_inf : F → bool;
}.

#[export] Instance f64_numbers : Numbers f64 := {|
  n_of := f64_of_Z;
  n_ratio := f64_ratio;
  n_add := f64_add;
  n_sub := f64_sub;
  n_mul := f64_mul;
  n_div := f64_div;
  n_abs := SFabs;
  n_lt := f64_lt;
  n_le := f64_le;
  n_eq := λ a b, negb (f64_ne a b);
  n_nan := is_nan;
  n_inf := λ a, match a with S754_infinity _ => true | _ => false end;
|}.

Definition qc (z : Z) : Qc := Q2Qc (inject_Z z).

#[export] Instance exact_numbers : Numbers Qc := {|
  n_of := qc;
  n_ratio := λ a b, (qc a / qc b)%Qc;
  n_add := Qcplus;
  n_sub := Qcminus;
  n_mul := Qcmult;
  n_div := Qcdiv;
  n_abs := λ a, if Qclt_le_dec a 0 then (- a)%Qc else a;
  n_lt := λ a b, if Qclt_le_dec a b then true else false;
  n_le := λ a b, if Qclt_le_dec b a then false else true;
  n_eq := λ a b, if Qc_eq_dec a b then true else false;
  n_nan := λ _, false;
  n_inf := λ _, false;
|}.

(** * The rank *)

Record rankNode (F : Type) := mkNode {
  Pubkey : string;
  Score : F;
}.
Arguments mkNode {F}.
Arguments Pubkey {F}.
Arguments Score {F}.

Section rank.
Context {F : Type} `{Numbers F} `{MapRange} `{SliceSort}.

Abbreviation weights := (gmap string F) (only parsing).
Abbreviation weighted_graph := (gmap string (gmap string F)) (only parsing).

Definition n_zero : F := n_of 0.
Definition n_one : F := n_of 1.

(** Reading a key of a Go map. *)
Definition at_key (m : weights) (k : string) : F := default n_zero (m !! k).

Definition rankDamping : F := n_ratio 85 100.
Definition rankMaxIters : nat := 30.
Definition rankTolerance : F := n_ratio 1 1000000000.

(** A weight that is not a positive number counts as none. *)
Definition usable_mass (weight : F) : F :=
  if n_lt weight n_zero || n_nan weight || n_inf weight then n_zero else weight.

Definition normalizeTeleport (nodes : list string) (teleport : weights) : weights :=
  let n := n_of (Z.of_nat (length nodes)) in
  let '(out, mass) :=
    foldl (λ '(out, mass) node, let weight := usable_mass (at_key teleport node) in (<[node := weight]> out, n_add mass weight))
      (∅, n_zero) nodes in
  if n_le mass n_zero then foldl (λ out node, <[node := n_div n_one n]> out) out nodes
  else foldl (λ out node, <[node := n_div (at_key out node) mass]> out) out nodes.

Definition edges_of (adjacency : weighted_graph) (src : string) : list (string * F) :=
  map_range (default ∅ (adjacency !! src)).

(** An edge that carries weight within the ranked nodes. *)
Definition add_weight (nodeSet : gset string) (sum : F) (e : string * F) : F :=
  let '(dst, weight) := e in
  let dst := trim_space dst in
  if bool_decide (dst = "") || n_le weight n_zero || n_nan weight || n_inf weight then sum
  else if bool_decide (dst ∈ nodeSet) then n_add sum weight else sum.

Definition out_weight (nodeSet : gset string) (edges : list (string * F)) : F := foldl (add_weight nodeSet) n_zero edges.

(** The share of one node that an edge passes on. *)
Definition push_edge (damping score outWeight : F) (nextScores : weights) (e : string * F) : weights :=
  let '(dst, weight) := e in
  let dst := trim_space dst in
  if bool_decide (dst = "") || n_le weight n_zero then nextScores
  else match nextScores !! dst with
       | None => nextScores
       | Some v => <[dst := n_add v (n_mul (n_mul damping score) (n_div weight outWeight))]> nextScores
       end.

Definition rank_source (adjacency : weighted_graph) (damping : F) (outWeights scores : weights) (st : weights * F) (src : string) : weights * F :=
  let '(nextScores, danglingMass) := st in
  let outWeight := at_key outWeights src in
  if n_le outWeight n_zero then (nextScores, n_add danglingMass (at_key scores src))
  else (foldl (push_edge damping (at_key scores src) outWeight) nextScores (edges_of adjacency src), danglingMass).

(** One iteration. *)
Definition rank_step (adjacency : weighted_graph) (damping : F) (teleport outWeights : weights) (nodes : list string) (scores : weights) : weights :=
  let next := foldl (λ next node, <[node := n_mul (n_sub n_one damping) (at_key teleport node)]> next) ∅ nodes in
  let '(next, danglingMass) := foldl (rank_source adjacency damping outWeights scores) (next, n_zero) nodes in
  if n_lt n_zero danglingMass then
    let distribute := n_mul damping danglingMass in
    foldl (λ next node, <[node := n_add (at_key next node) (n_mul distribute (at_key teleport node))]> next) next nodes
  else next.

Definition rank_delta (nodes : list string) (scores next : weights) : F :=
  foldl (λ delta node, n_add delta (n_abs (n_sub (at_key next node) (at_key scores node)))) n_zero nodes.

Fixpoint rank_loop (iters : nat) (adjacency : weighted_graph) (damping : F) (teleport outWeights : weights) (nodes : list string) (scores : weights) : weights :=
  match iters with
  | O => scores
  | S iters =>
      let next := rank_step adjacency damping teleport outWeights nodes scores in
      if n_lt (rank_delta nodes scores next) rankTolerance then next
      else rank_loop iters adjacency damping teleport outWeights nodes next
  end.

Definition node_less (a b : rankNode F) : bool :=
  if n_eq (Score a) (Score b) then String.ltb (Pubkey a) (Pubkey b) else n_lt (Score b) (Score a).

Definition valid_damping (damping : F) : F :=
  if n_le damping n_zero || n_le n_one damping then rankDamping else damping.

Definition ComputePersonalizedRankWeighted (adjacency : weighted_graph) (nodeSet : gset string) (teleport : weights) (damping : F) : list (rankNode F) :=
  if bool_decide (nodeSet = ∅) then []
  else
    let damping := valid_damping damping in
    let nodes := sort_Strings (set_range nodeSet) in
    let normalizedTeleport := normalizeTeleport nodes teleport in
    let scores := foldl (λ scores node, <[node := at_key normalizedTeleport node]> scores) ∅ nodes in
    let outWeights := foldl (λ m src, <[src := out_weight nodeSet (edges_of adjacency src)]> m) ∅ nodes in
    let scores := rank_loop rankMaxIters adjacency damping normalizedTeleport outWeights nodes scores in
    sort_Slice node_less (map (λ node, mkNode node (at_key scores node)) nodes).

(** * Graphs *)

Definition count_edges (dsts : list string) (bucket : weights) : weights :=
  foldl (λ bucket dst,
    let dst := trim_space dst in
    if bool_decide (dst = "") then bucket else <[dst := n_add (at_key bucket dst) n_one]> bucket) bucket dsts.

Definition adjacencyToWeighted (adjacency : gmap string (list string)) : weighted_graph :=
  foldl (λ out e,
    let src := trim_space e.1 in
    if bool_decide (src = "") then out
    else <[src := count_edges e.2 (default ∅ (out !! src))]> out) ∅ (map_range adjacency).

Definition ComputePersonalizedRank (adjacency : gmap string (list string)) (nodeSet : gset string) (teleport : weights) (damping : F) : list (rankNode F) :=
  ComputePersonalizedRankWeighted (adjacencyToWeighted adjacency) nodeSet teleport damping.

Definition uniformTeleport (nodeSet : gset string) : weights :=
  gset_to_gmap (n_div n_one (n_of (Z.of_nat (size nodeSet)))) nodeSet.

Definition computeIterativeGlobalRank (adjacency : gmap string (list string)) (nodeSet : gset string) : list (rankNode F) :=
  if bool_decide (nodeSet = ∅) then []
  else ComputePersonalizedRank adjacency nodeSet (uniformTeleport nodeSet) rankDamping.

(** The merge mutates the map and the node set that it is given. *)
Definition merge_bucket (dsts : list (string * F)) (bucket : weights) (nodeSet : gset string) : weights * gset string :=
  foldl (λ '(bucket, nodeSet) e,
    let dst := trim_space e.1 in
    if bool_decide (dst = "") || n_le e.2 n_zero then (bucket, nodeSet)
    else (<[dst := n_add (at_key bucket dst) e.2]> bucket, {[dst]} ∪ nodeSet)) (bucket, nodeSet) dsts.

Definition mergeWeightedAdjacency (base extra : weighted_graph) (nodeSet : gset string) : weighted_graph * gset string :=
  foldl (λ '(base, nodeSet) e,
    let src := trim_space e.1 in
    if bool_decide (src = "") then (base, nodeSet)
    else
      let '(bucket, nodeSet) := merge_bucket (map_range e.2) (default ∅ (base !! src)) ({[src]} ∪ nodeSet) in
      (<[src := bucket]> base, nodeSet)) (base, nodeSet) (map_range extra).

(** * Comparing two rankings *)

Definition topPubkeys (ranked : list (rankNode F)) (topN : Z) : list string := map Pubkey (take (Z.to_nat topN) ranked).

Definition setOverlap (a b : list string) : Z := Z.of_nat (length (List.filter (λ v, bool_decide (v ∈ a)) b)).

Fixpoint places (i : Z) (l : list (rankNode F)) (m : weights) : weights :=
  match l with
  | [] => m
  | node :: l => places (i + 1) l (<[Pubkey node := n_of i]> m)
  end.

Definition spearmanRankCorrelation (a b : list (rankNode F)) : F :=
  if bool_decide (a = []) || bool_decide (b = []) then n_zero
  else
    let rankA := places 1 a ∅ in
    let rankB := places 1 b ∅ in
    let keys := List.filter (λ p, bool_decide (is_Some (rankB !! p))) (map fst (map_range rankA)) in
    let n := n_of (Z.of_nat (length keys)) in
    if n_lt n (n_of 2) then n_zero
    else
      let sumD2 := foldl (λ sum p, let d := n_sub (at_key rankA p) (at_key rankB p) in n_add sum (n_mul d d)) n_zero keys in
      n_sub n_one (n_div (n_mul (n_of 6) sumD2) (n_mul n (n_sub (n_mul n n) n_one))).
End rank.

(** * Folds that fill a map *)

Section fills.
Context {F : Type}.

Lemma fill_lookup (f : gmap string F → string → F) (nodes : list string) (m : gmap string F) p :
  NoDup nodes → (∀ m m' n, m !! n = m' !! n → f m n = f m' n) →
  foldl (λ m n, <[n := f m n]> m) m nodes !! p = if decide (p ∈ nodes) then Some (f m p) else m !! p.
Proof.
  intros Hn Hf. revert m. induction nodes as [|n nodes IH]; intros m; cbn [foldl]; [by rewrite decide_False by set_solver|].
  inversion Hn as [|? ? Hnot Hn']; subst. rewrite (IH Hn'). destruct (decide (p = n)) as [->|Hne].
  - rewrite (decide_False (P := n ∈ nodes)), (decide_True (P := n ∈ n :: nodes)) by set_solver. apply lookup_insert_eq.
  - rewrite lookup_insert_ne by done. destruct (decide (p ∈ nodes)).
    + rewrite decide_True by set_solver. f_equal. apply Hf. by rewrite lookup_insert_ne.
    + by rewrite decide_False by set_solver.
Qed.
End fills.

(** * Exact arithmetic: the scores are a distribution *)

Module Exact.
Local Open Scope Qc_scope.
Section exact.
Context `{MapRange} `{SliceSort}.

Abbreviation weights := (gmap string Qc) (only parsing).

Lemma mul_nonneg (a b : Qc) : 0 <= a → 0 <= b → 0 <= a * b.
Proof. intros Ha Hb. replace 0 with (0 * b) by ring. by apply Qcmult_le_compat_r. Qed.

Lemma add_nonneg (a b : Qc) : 0 <= a → 0 <= b → 0 <= a + b.
Proof. intros Ha Hb. replace 0 with (0 + 0) by ring. by apply Qcplus_le_compat. Qed.

(** The sum of a list. *)
Definition total (l : list Qc) : Qc := foldr Qcplus 0 l.

#[export] Instance total_proper : Proper (Permutation ==> eq) total.
Proof. induction 1 as [|x l l' _ IH|x y l|l1 l2 l3 _ IH1 _ IH2]; cbn [total foldr] in *; [done|by f_equal|ring|congruence]. Qed.

(** The mass that [m] puts on [nodes]. *)
Definition mass (nodes : list string) (m : weights) : Qc := total (map (at_key m) nodes).

Lemma at_insert (m : weights) k v : at_key (<[k := v]> m) k = v.
Proof. unfold at_key. by rewrite lookup_insert_eq. Qed.

Lemma at_insert_ne (m : weights) k j v : k ≠ j → at_key (<[k := v]> m) j = at_key m j.
Proof. intros. unfold at_key. by rewrite lookup_insert_ne. Qed.

Lemma mass_insert_out nodes (m : weights) k v : (k ∉ nodes) → mass nodes (<[k := v]> m) = mass nodes m.
Proof.
  induction nodes as [|n nodes IH]; intros Hk; [done|]. unfold mass in *. cbn [map total foldr] in *.
  rewrite at_insert_ne by set_solver. fold (total (map (at_key (<[k := v]> m)) nodes)). rewrite IH by set_solver. done.
Qed.

Lemma mass_insert nodes (m : weights) k v :
  NoDup nodes → k ∈ nodes → mass nodes (<[k := v]> m) = mass nodes m - at_key m k + v.
Proof.
  induction nodes as [|n nodes IH]; intros Hn Hk; [set_solver|]. inversion Hn as [|? ? Hnot Hn']; subst.
  unfold mass in *. cbn [map total foldr]. fold (total (map (at_key (<[k := v]> m)) nodes)). fold (total (map (at_key m) nodes)).
  destruct (decide (k = n)) as [->|Hne].
  - rewrite at_insert. change (total (map (at_key (<[n := v]> m)) nodes)) with (mass nodes (<[n := v]> m)). rewrite mass_insert_out by done.
    unfold mass. ring.
  - rewrite at_insert_ne by done. rewrite IH by set_solver. ring.
Qed.

Lemma mass_ext nodes (m m' : weights) : (∀ n, n ∈ nodes → at_key m n = at_key m' n) → mass nodes m = mass nodes m'.
Proof.
  intros Hm. unfold mass. f_equal. apply List.map_ext_in. intros n Hn. apply Hm. by apply list_elem_of_In.
Qed.

Lemma mass_scale nodes (m m' : weights) c : (∀ n, n ∈ nodes → at_key m n = c * at_key m' n) → mass nodes m = c * mass nodes m'.
Proof.
  induction nodes as [|n nodes IH]; intros Hm; unfold mass in *; cbn [map total foldr]; [ring|].
  fold (total (map (at_key m) nodes)). fold (total (map (at_key m') nodes)).
  rewrite (Hm n) by set_solver. rewrite IH by set_solver. ring.
Qed.

Lemma mass_nonneg nodes (m : weights) : (∀ n, n ∈ nodes → 0 <= at_key m n) → 0 <= mass nodes m.
Proof.
  induction nodes as [|n nodes IH]; intros Hm; unfold mass in *; cbn [map total foldr]; [apply Qcle_refl|].
  apply add_nonneg; [apply Hm; set_solver|]. apply IH. set_solver.
Qed.

Lemma mass_const nodes (m : weights) c : (∀ n, n ∈ nodes → at_key m n = c) → mass nodes m = qc (Z.of_nat (length nodes)) * c.
Proof.
  induction nodes as [|n nodes IH]; intros Hm; unfold mass in *; cbn [map total foldr length].
  { change (qc (Z.of_nat 0)) with 0. ring. }
  fold (total (map (at_key m) nodes)). rewrite (Hm n) by set_solver. rewrite IH by set_solver.
  replace (qc (Z.of_nat (S (length nodes)))) with (1 + qc (Z.of_nat (length nodes))); [ring|].
  apply Qc_is_canon. unfold qc. rewrite Nat2Z.inj_succ. cbn -[Qred Qplus inject_Z Z.of_nat]. rewrite !Qred_correct, <-Z.add_1_l, inject_Z_plus. reflexivity.
Qed.

Lemma qc_positive z : (0 < z)%Z → 0 < qc z.
Proof.
  intros Hz. unfold Qclt. change (inject_Z 0 < Qred (inject_Z z))%Q. by rewrite Qred_correct, <-Zlt_Qlt.
Qed.

Lemma div_nonneg a b : 0 <= a → 0 < b → 0 <= a / b.
Proof.
  intros Ha Hb. unfold Qcdiv. apply mul_nonneg; [done|]. apply Qclt_le_weak. 
  unfold Qclt. change (0 < Qred (/ b))%Q. rewrite Qred_correct. by apply Qinv_lt_0_compat.
Qed.
End exact.

Section exact_rank.
Context `{MapRange} `{SliceSort}.
Abbreviation weights := (gmap string Qc) (only parsing).

Lemma le_spec (a b : Qc) : if n_le a b then a <= b else b < a.
Proof. unfold n_le, exact_numbers. by destruct (Qclt_le_dec b a). Qed.

Lemma lt_spec (a b : Qc) : if n_lt a b then a < b else b <= a.
Proof. unfold n_lt, exact_numbers. by destruct (Qclt_le_dec a b). Qed.

(** What holds of the score map of an iteration: it has the nodes as its keys
    and no score is negative. *)
Record scores_ok (nodes : list string) (m : weights) : Prop := {
  so_keys : ∀ k, is_Some (m !! k) ↔ k ∈ nodes;
  so_nonneg : ∀ k, 0 <= at_key m k;
}.

Lemma scores_ok_add nodes (m : weights) k x :
  scores_ok nodes m → k ∈ nodes → 0 <= x → scores_ok nodes (<[k := at_key m k + x]> m).
Proof.
  intros [Hk Hn] Hin Hx. split.
  - intros j. destruct (decide (k = j)) as [<-|Hne]; [rewrite lookup_insert_eq; split; [done|by eexists]|].
    by rewrite lookup_insert_ne.
  - intros j. destruct (decide (k = j)) as [<-|Hne]; [|by rewrite at_insert_ne]. rewrite at_insert. by apply add_nonneg.
Qed.

Lemma mass_add nodes (m : weights) k x :
  NoDup nodes → k ∈ nodes → mass nodes (<[k := at_key m k + x]> m) = mass nodes m + x.
Proof. intros. rewrite mass_insert by done. ring. Qed.

(** A pass over the nodes that adds [f n] to each. *)
Lemma add_pass nodes todo (m : weights) (f : string → Qc) :
  NoDup nodes → (∀ n, n ∈ todo → n ∈ nodes) → (∀ n, n ∈ todo → 0 <= f n) → scores_ok nodes m →
  let m' := foldl (λ m n, <[n := at_key m n + f n]> m) m todo in
  scores_ok nodes m' ∧ mass nodes m' = mass nodes m + total (map f todo).
Proof.
  intros Hnd. revert m. induction todo as [|n todo IH]; intros m Hin Hf Hm; cbn [foldl map total foldr]; [split; [done|ring]|].
  fold (total (map f todo)). destruct (IH (<[n := at_key m n + f n]> m)) as [Hok ->]; [set_solver|set_solver|apply scores_ok_add; set_solver|].
  split; [done|]. rewrite mass_add by set_solver. ring.
Qed.

Lemma push_mass nodes (nodeSet : gset string) damping score outWeight edges next s :
  NoDup nodes → (∀ k, k ∈ nodes ↔ k ∈ nodeSet) → 0 <= damping → 0 <= score → 0 < outWeight → scores_ok nodes next →
  let next' := foldl (push_edge damping score outWeight) next edges in
  scores_ok nodes next' ∧
  mass nodes next' = mass nodes next + damping * score * ((foldl (add_weight nodeSet) s edges - s) / outWeight).
Proof.
  intros Hnd Hset Hd Hs Ho. revert next s. assert (outWeight ≠ 0) as Hne by (intros ->; by apply (Qclt_not_eq _ _ Ho)).
  induction edges as [|[dst w] edges IH]; intros next s Hm; cbn [foldl]; [split; [done|by field]|].
  unfold push_edge at 2 4, add_weight at 2. cbv beta zeta in IH |- *. pose proof (le_spec w n_zero) as Hw. set (t := trim_space dst).
  change (n_nan w) with false. change (n_inf w) with false. rewrite !orb_false_r.
  case_bool_decide as Ht; cbn [orb]; [by apply IH|]. destruct (n_le w n_zero); [by apply IH|].
  destruct (next !! t) as [v|] eqn:Hv.
  - assert (t ∈ nodes) as Hin by (apply (so_keys nodes next Hm); by eexists).
    rewrite bool_decide_true by (by apply Hset).
    assert (v = at_key next t) as -> by (unfold at_key; by rewrite Hv).
    change (n_add (at_key next t) ?x) with (at_key next t + x). change (n_mul (n_mul damping score) (n_div w outWeight)) with (damping * score * (w / outWeight)).
    assert (0 <= damping * score * (w / outWeight)) as Hx.
    { apply mul_nonneg; [by apply mul_nonneg|]. apply div_nonneg; [by apply Qclt_le_weak|done]. }
    destruct (IH (<[t := at_key next t + damping * score * (w / outWeight)]> next) (n_add s w)) as [Hok ->]; [by apply scores_ok_add|].
    split; [done|]. rewrite mass_add by done. change (n_add s w) with (s + w). by field.
  - rewrite bool_decide_false; [by apply IH|]. rewrite <-Hset, <-(so_keys nodes next Hm), Hv. by intros [? ?].
Qed.

Lemma sources_mass nodes (nodeSet : gset string) adjacency damping (outWeights scores : weights) todo next dangling :
  NoDup nodes → (∀ k, k ∈ nodes ↔ k ∈ nodeSet) → 0 <= damping → (∀ k, 0 <= at_key scores k) →
  (∀ src, src ∈ todo → at_key outWeights src = out_weight nodeSet (edges_of adjacency src)) →
  scores_ok nodes next → 0 <= dangling →
  let '(next', dangling') := foldl (rank_source adjacency damping outWeights scores) (next, dangling) todo in
  scores_ok nodes next' ∧ 0 <= dangling' ∧
  mass nodes next' + damping * dangling' = mass nodes next + damping * dangling + damping * mass todo scores.
Proof.
  intros Hnd Hset Hd Hs. revert next dangling. induction todo as [|src todo IH]; intros next dangling Ho Hm Hg; cbn [foldl].
  { split_and!; [done..|]. change (mass [] scores) with 0. ring. }
  change (mass (src :: todo) scores) with (at_key scores src + mass todo scores).
  unfold rank_source at 2. cbv zeta. pose proof (le_spec (at_key outWeights src) n_zero) as Hle. destruct (n_le _ _).
  - specialize (IH next (n_add dangling (at_key scores src))). destruct (foldl _ _ todo) as [next' dangling'].
    destruct IH as (Hok & Hg' & ->); [set_solver|done|by apply add_nonneg|]. split_and!; [done..|].
    change (n_add dangling (at_key scores src)) with (dangling + at_key scores src). ring.
  - destruct (push_mass nodes nodeSet damping (at_key scores src) (at_key outWeights src) (edges_of adjacency src) next 0) as [Hok Hpm]; try done.
    set (pushed := foldl (push_edge _ _ _) next _) in *.
    specialize (IH pushed dangling). destruct (foldl _ (pushed, dangling) todo) as [next' dangling'].
    destruct IH as (Hok' & Hg' & ->); [set_solver|done..|].
    split_and!; [done..|]. rewrite Hpm. change (foldl (add_weight nodeSet) 0 (edges_of adjacency src)) with (out_weight nodeSet (edges_of adjacency src)).
    rewrite (Ho src) in Hle |- * by set_solver.
    field. intros E. rewrite E in Hle. by apply (Qclt_not_eq _ _ Hle).
Qed.
End exact_rank.

Section distribution.
Context `{MapRange} `{SliceSort}.
Abbreviation weights := (gmap string Qc) (only parsing).

(** A distribution over the nodes. *)
Definition distribution (nodes : list string) (m : weights) : Prop := scores_ok nodes m ∧ mass nodes m = 1.

Lemma usable_mass_nonneg (w : Qc) : 0 <= usable_mass w.
Proof.
  unfold usable_mass. pose proof (lt_spec w n_zero) as Hw. change (n_nan w) with false. change (n_inf w) with false.
  rewrite !orb_false_r. by destruct (n_lt w n_zero); [apply Qcle_refl|].
Qed.

(** The first pass of [normalizeTeleport]. *)
Lemma teleport_pass (teleport : weights) nodes todo out m :
  NoDup (todo ++ nodes) → scores_ok nodes out → m = mass nodes out →
  let '(out', m') := foldl (λ '(out, mass) node,
      let weight := usable_mass (at_key teleport node) in (<[node := weight]> out, n_add mass weight)) (out, m) todo in
  scores_ok (rev todo ++ nodes) out' ∧ m' = mass (rev todo ++ nodes) out'.
Proof.
  revert nodes out m. induction todo as [|n todo IH]; intros nodes out m Hnd Hok ->; cbn [foldl rev app]; [done|].
  cbn [app] in Hnd. inversion Hnd as [|? ? Hnot Hnd']; subst. cbv zeta. rewrite <-app_assoc. cbn [app].
  apply IH.
  - by rewrite <-Permutation_middle.
  - destruct Hok as [Hk Hn]. split.
    + intros k. rewrite elem_of_cons, <-Hk. destruct (decide (n = k)) as [<-|Hne]; [rewrite lookup_insert_eq; split; [by left|by eexists]|].
      rewrite lookup_insert_ne by done. naive_solver.
    + intros k. destruct (decide (n = k)) as [<-|Hne]; [rewrite at_insert; apply usable_mass_nonneg|by rewrite at_insert_ne].
  - change (mass (n :: nodes) (<[n := usable_mass (at_key teleport n)]> out))
      with (at_key (<[n := usable_mass (at_key teleport n)]> out) n + mass nodes (<[n := usable_mass (at_key teleport n)]> out)).
    rewrite at_insert, mass_insert_out by set_solver. change (n_add ?a ?b) with (a + b). ring.
Qed.

Lemma mass_perm nodes nodes' (m : weights) : nodes ≡ₚ nodes' → mass nodes m = mass nodes' m.
Proof. intros Hp. unfold mass. by rewrite Hp. Qed.

Lemma scores_ok_perm nodes nodes' (m : weights) : nodes ≡ₚ nodes' → scores_ok nodes m → scores_ok nodes' m.
Proof. intros Hp [Hk Hn]. split; [|done]. intros k. by rewrite Hk, Hp. Qed.

Lemma fill_at (f : weights → string → Qc) nodes (m : weights) p :
  NoDup nodes → (∀ m m' n, m !! n = m' !! n → f m n = f m' n) →
  at_key (foldl (λ m n, <[n := f m n]> m) m nodes) p = if decide (p ∈ nodes) then f m p else at_key m p.
Proof. intros Hn Hf. unfold at_key. rewrite (fill_lookup f) by done. by destruct (decide (p ∈ nodes)). Qed.

Lemma fill_ok (f : weights → string → Qc) nodes (m : weights) :
  NoDup nodes → (∀ m m' n, m !! n = m' !! n → f m n = f m' n) → (∀ k, k ∈ nodes → 0 <= f m k) → (∀ k, is_Some (m !! k) → k ∈ nodes) →
  scores_ok nodes (foldl (λ m n, <[n := f m n]> m) m nodes).
Proof.
  intros Hn Hf Hp Hk. split.
  - intros k. rewrite (fill_lookup f) by done. destruct (decide (k ∈ nodes)); [split; [done|by eexists]|]. naive_solver.
  - intros k. rewrite fill_at by done. destruct (decide (k ∈ nodes)); [by apply Hp|]. unfold at_key.
    destruct (m !! k) as [v|] eqn:E; [destruct n; apply Hk; by eexists|apply Qcle_refl].
Qed.

Lemma teleport_distribution nodes (teleport : weights) :
  NoDup nodes → nodes ≠ [] → distribution nodes (normalizeTeleport nodes teleport).
Proof.
  intros Hnd Hne. unfold normalizeTeleport.
  pose proof (teleport_pass teleport [] nodes ∅ (n_zero (F := Qc))) as Hp. rewrite app_nil_r in Hp.
  destruct (foldl _ _ nodes) as [out m]. rewrite app_nil_r in Hp. destruct Hp as [Hok ->]; [done| |done|].
  { split; [intros k; rewrite lookup_empty; split; [by intros [? ?]|set_solver]|intros k; apply Qcle_refl]. }
  assert (rev nodes ≡ₚ nodes) as Hrev by (symmetry; apply Permutation_rev).
  rewrite (mass_perm _ _ out Hrev). apply (scores_ok_perm _ _ _ Hrev) in Hok as Hok'. clear Hok Hrev.
  pose proof (le_spec (mass nodes out) n_zero) as Hle. destruct (n_le _ _).
  - set (c := n_div n_one (n_of (Z.of_nat (length nodes)))).
    assert (0 < qc (Z.of_nat (length nodes))) as Hlen by (apply qc_positive; destruct nodes; [done|cbn; lia]).
    assert (0 <= c) as Hc by (by apply div_nonneg).
    split; [apply (fill_ok (λ _ _, c)); try done; intros k Hk; by apply Hok'|].
    rewrite (mass_const _ _ c); [unfold c; cbn [n_div n_of exact_numbers]; change n_one with 1; field; intros E; rewrite E in Hlen; by apply (Qclt_not_eq _ _ Hlen)|].
    intros k Hk. rewrite (fill_at (λ _ _, c)) by done. by rewrite decide_True.
  - change (n_zero (F := Qc)) with 0 in Hle.
    assert (∀ m m' : weights, ∀ n, m !! n = m' !! n → n_div (at_key m n) (mass nodes out) = n_div (at_key m' n) (mass nodes out)) as Hext
      by (intros ? ? ? E; unfold at_key; by rewrite E).
    split.
    + apply (fill_ok (λ out' n, n_div (at_key out' n) (mass nodes out))); [done|done| |intros k Hk; by apply Hok'].
      intros k _. apply div_nonneg; [apply Hok'|done].
    + rewrite (mass_scale _ _ out (/ mass nodes out)); [field; intros E; rewrite E in Hle; by apply (Qclt_not_eq _ _ Hle)|].
      intros k Hk. rewrite (fill_at (λ out' n, n_div (at_key out' n) (mass nodes out))) by done. rewrite decide_True by done.
      cbn [n_div exact_numbers]. unfold Qcdiv. ring.
Qed.
End distribution.

Section conservation.
Context `{MapRange} `{SliceSort}.
Abbreviation weights := (gmap string Qc) (only parsing).

Lemma total_map_mass (f : string → Qc) nodes (m : weights) : (∀ n, n ∈ nodes → at_key m n = f n) → mass nodes m = total (map f nodes).
Proof. intros Hf. unfold mass. f_equal. apply List.map_ext_in. intros n Hn. apply Hf. by apply list_elem_of_In. Qed.

Lemma step_distribution nodes (nodeSet : gset string) adjacency damping (teleport outWeights scores : weights) :
  NoDup nodes → (∀ k, k ∈ nodes ↔ k ∈ nodeSet) → 0 < damping → damping < 1 →
  (∀ src, src ∈ nodes → at_key outWeights src = out_weight nodeSet (edges_of adjacency src)) →
  distribution nodes teleport → distribution nodes scores →
  distribution nodes (rank_step adjacency damping teleport outWeights nodes scores).
Proof.
  intros Hnd Hset Hd0 Hd1 Ho [Htok Htm] [Hsok Hsm]. unfold rank_step.
  assert (0 <= damping) as Hd by (by apply Qclt_le_weak).
  assert (0 <= 1 - damping) as Hd'.
  { apply Qclt_le_weak. unfold Qcminus. by apply (proj1 (Qclt_minus_iff damping 1)). }
  change (n_sub n_one damping) with (1 - damping).
  set (base := foldl (λ next node, <[node := n_mul (1 - damping) (at_key teleport node)]> next) ∅ nodes).
  assert (scores_ok nodes base) as Hbok.
  { apply (fill_ok (λ _ n, n_mul (1 - damping) (at_key teleport n))); try done.
    - intros k _. apply mul_nonneg; [done|by apply (so_nonneg nodes teleport)].
    - intros k [v Hv]. by rewrite lookup_empty in Hv. }
  assert (mass nodes base = 1 - damping) as Hbm.
  { rewrite (mass_scale _ _ teleport (1 - damping)); [rewrite Htm; ring|]. intros k Hk. unfold base.
    rewrite (fill_at (λ _ n, n_mul (1 - damping) (at_key teleport n))) by done. by rewrite decide_True. }
  pose proof (sources_mass nodes nodeSet adjacency damping outWeights scores nodes base 0 Hnd Hset Hd (so_nonneg nodes scores Hsok) Ho Hbok (Qcle_refl 0)) as Hsrc.
  change (n_zero (F := Qc)) with 0 in *.
  destruct (foldl (rank_source _ _ _ _) (base, 0) nodes) as [next dangling]. destruct Hsrc as (Hnok & Hg & Hm).
  rewrite Hbm, Hsm in Hm. pose proof (lt_spec 0 dangling) as Hlt. destruct (n_lt 0 dangling).
  - destruct (add_pass nodes nodes next (λ n, n_mul (n_mul damping dangling) (at_key teleport n))) as [Hok' Hm']; try done.
    { intros n _. apply mul_nonneg; [by apply mul_nonneg|by apply (so_nonneg nodes teleport)]. }
    split; [exact Hok'|]. etransitivity; [exact Hm'|].
    assert (total (map (λ n, n_mul (n_mul damping dangling) (at_key teleport n)) nodes) = damping * dangling) as ->.
    { transitivity (damping * dangling * mass nodes teleport); [|rewrite Htm; ring]. unfold mass. clear. induction nodes as [|n nodes IH]; cbn [map total foldr]; [ring|].
      unfold total in IH. rewrite IH. change (n_mul (n_mul damping dangling) ?x) with (damping * dangling * x). unfold total. ring. }
    rewrite Hm. ring.
  - assert (dangling = 0) as -> by (by apply Qcle_antisym). split; [done|]. transitivity (mass nodes next + damping * 0); [ring|]. rewrite Hm. ring.
Qed.

Lemma loop_distribution iters nodes (nodeSet : gset string) adjacency damping (teleport outWeights scores : weights) :
  NoDup nodes → (∀ k, k ∈ nodes ↔ k ∈ nodeSet) → 0 < damping → damping < 1 →
  (∀ src, src ∈ nodes → at_key outWeights src = out_weight nodeSet (edges_of adjacency src)) →
  distribution nodes teleport → distribution nodes scores →
  distribution nodes (rank_loop iters adjacency damping teleport outWeights nodes scores).
Proof.
  intros Hnd Hset Hd0 Hd1 Ho Ht. revert scores. induction iters as [|iters IH]; intros scores Hs; cbn [rank_loop]; [done|]. cbv zeta.
  assert (distribution nodes (rank_step adjacency damping teleport outWeights nodes scores)) as Hs' by (by apply (step_distribution nodes nodeSet)).
  destruct (n_lt _ _); [done|]. by apply IH.
Qed.

Lemma valid_damping_range (damping : Qc) : 0 < valid_damping damping ∧ valid_damping damping < 1.
Proof.
  unfold valid_damping. pose proof (le_spec damping n_zero) as H0'. pose proof (le_spec n_one damping) as H1'.
  destruct (n_le damping n_zero); cbn [orb]; [by vm_compute|]. destruct (n_le n_one damping); [by vm_compute|]. done.
Qed.

(** C20: without rounding, a ranking is a probability distribution: whatever
    the graph, its weights, the teleport vector and the damping, every node of
    the set gets one score, no score is negative and the scores sum to 1. No
    rank leaks through dangling nodes, through edges that leave the node set
    or through a run that stops early. *)
Theorem rank_conserves_mass (adjacency : gmap string (gmap string Qc)) nodeSet teleport damping (Hne : nodeSet ≠ ∅) :
  let ranked := ComputePersonalizedRankWeighted adjacency nodeSet teleport damping in
  map Pubkey ranked ≡ₚ elements nodeSet ∧
  Forall (λ node, 0 <= Score node) ranked ∧
  total (map Score ranked) = 1.
Proof.
  cbv zeta. unfold ComputePersonalizedRankWeighted. rewrite bool_decide_false by done.
  set (nodes := sort_Strings (set_range nodeSet)).
  assert (nodes ≡ₚ elements nodeSet) as Hperm by (unfold nodes; by rewrite sort_Strings_perm, set_range_perm).
  assert (NoDup nodes) as Hnd by (rewrite Hperm; apply NoDup_elements).
  assert (∀ k, k ∈ nodes ↔ k ∈ nodeSet) as Hset by (intros k; by rewrite Hperm, elem_of_elements).
  assert (nodes ≠ []) as Hnil.
  { intros E. apply Hne. apply leibniz_equiv. intros k. rewrite <-Hset, E. set_solver. }
  pose proof (teleport_distribution nodes teleport Hnd Hnil) as Ht. set (tp := normalizeTeleport nodes teleport) in *.
  set (scores := foldl (λ scores node, <[node := at_key tp node]> scores) ∅ nodes).
  assert (distribution nodes scores) as Hs.
  { destruct Ht as [Htok Htm]. split.
    - apply (fill_ok (λ _ n, at_key tp n)); try done; [intros k _; apply Htok|intros k [v Hv]; by rewrite lookup_empty in Hv].
    - rewrite <-Htm. apply mass_ext. intros n Hn. unfold scores. rewrite (fill_at (λ _ n, at_key tp n)) by done. by rewrite decide_True. }
  destruct (valid_damping_range damping) as [Hd0 Hd1].
  set (ow := foldl (λ m src, <[src := out_weight nodeSet (edges_of adjacency src)]> m) ∅ nodes).
  assert (distribution nodes (rank_loop rankMaxIters adjacency (valid_damping damping) tp ow nodes scores)) as [Hok Hm].
  { apply (loop_distribution _ _ nodeSet); try done. intros src Hsrc. unfold ow.
    rewrite (fill_at (λ _ src, out_weight nodeSet (edges_of adjacency src))) by done. by rewrite decide_True. }
  set (final := rank_loop _ _ _ _ _ _ _) in *.
  assert (sort_Slice node_less (map (λ node, mkNode node (at_key final node)) nodes) ≡ₚ map (λ node, mkNode node (at_key final node)) nodes) as Hsort
    by apply sort_perm.
  split_and!.
  - rewrite Hsort, map_map. cbn [Pubkey]. by rewrite List.map_id.
  - rewrite Hsort. apply List.Forall_forall. intros x Hx. apply in_map_iff in Hx as (n & <- & _). apply Hok.
  - rewrite <-Hm. unfold mass. by rewrite Hsort, map_map.
Qed.
End conservation.
End Exact.

Module ExactTeleport.
Import Exact.
Local Open Scope Qc_scope.
Section uniform.
Context `{MapRange} `{SliceSort}.
Abbreviation weights := (gmap string Qc) (only parsing).

Abbreviation usable t := (λ n, usable_mass (at_key t n)) (only parsing).

Lemma teleport_fold (t : weights) nodes (out : weights) (m : Qc) :
  foldl (λ '(out, mass) node, let weight := usable_mass (at_key t node) in (<[node := weight]> out, n_add mass weight)) (out, m) nodes
  = (foldl (λ (out : weights) node, <[node := usable t node]> out) out nodes, m + total (map (usable t) nodes)).
Proof.
  revert out m. induction nodes as [|n nodes IH]; intros out m; cbn [foldl map]; [change (total []) with 0; apply (f_equal (pair _)); ring|].
  cbv zeta. rewrite IH. apply (f_equal (pair _)). change (n_add m ?x) with (m + x). change (total (?x :: ?l)) with (x + total l). ring.
Qed.

(** Every node gets the same teleport mass [c]. *)
Definition level (nodes : list string) (c : Qc) (m : weights) : Prop := ∀ k, m !! k = if decide (k ∈ nodes) then Some c else None.

Lemma fill_level nodes c (out : weights) (f : weights → string → Qc) :
  NoDup nodes → (∀ m m' n, m !! n = m' !! n → f m n = f m' n) → (∀ n, n ∈ nodes → f out n = c) → (∀ k, (k ∉ nodes) → out !! k = None) →
  level nodes c (foldl (λ m n, <[n := f m n]> m) out nodes).
Proof.
  intros Hn Hf Hc Ho k. rewrite (fill_lookup f) by done. destruct (decide (k ∈ nodes)); [by rewrite Hc|by apply Ho].
Qed.

Lemma teleport_level nodes (t : weights) c :
  NoDup nodes → nodes ≠ [] → 0 <= c → (∀ n, n ∈ nodes → usable t n = c) →
  level nodes (1 / qc (Z.of_nat (length nodes))) (normalizeTeleport nodes t).
Proof.
  intros Hn Hne Hc Hu. unfold normalizeTeleport. rewrite teleport_fold.
  set (out := foldl _ ∅ nodes). set (N := qc (Z.of_nat (length nodes))).
  assert (0 < N) as HN by (apply qc_positive; destruct nodes; [done|cbn; lia]).
  assert (level nodes c out) as Ho by (apply (fill_level nodes c ∅ (λ _, usable t)); try done; intros k _; apply lookup_empty).
  assert (total (map (usable t) nodes) = N * c) as Hm.
  { rewrite <-(total_map_mass (usable t) nodes out); [apply mass_const; intros n Hin|intros n Hin; rewrite Hu by done];
      unfold at_key; rewrite Ho; by rewrite decide_True. }
  change (n_zero (F := Qc)) with 0. rewrite Hm. pose proof (le_spec (0 + N * c) 0) as Hle. destruct (n_le _ _).
  - apply (fill_level nodes _ _ (λ _ _, n_div n_one N)); try done. intros k Hk. by rewrite Ho, decide_False.
  - assert (c ≠ 0) as Hc0 by (intros ->; apply (Qclt_not_eq _ _ Hle); ring).
    assert (N ≠ 0) as HN0 by (intros E; by apply (Qclt_not_eq _ _ HN)).
    apply (fill_level nodes _ _ (λ m n, n_div (at_key m n) (0 + N * c))); try done.
    + intros m m' n E. unfold at_key. by rewrite E.
    + intros n Hin. unfold at_key. rewrite Ho, decide_True by done. change (c / (0 + N * c) = 1 / N). field. by split.
    + intros k Hk. by rewrite Ho, decide_False.
Qed.

Lemma level_unique nodes c (m m' : weights) : level nodes c m → level nodes c m' → m = m'.
Proof. intros Hm Hm'. apply map_eq. intros k. by rewrite Hm, Hm'. Qed.

(** without rounding, a teleport vector with no mass on the ranked nodes
    (no active seed in the graph, a viewer who follows nobody in it) ranks
    exactly as the uniform vector of the global ranking. *)
Theorem seedless_rank_uniform (adjacency : gmap string (list string)) nodeSet (teleport : weights) damping
    (Hseed : ∀ n, n ∈ nodeSet → usable_mass (at_key teleport n) = 0) :
  ComputePersonalizedRank adjacency nodeSet teleport damping
  = ComputePersonalizedRank adjacency nodeSet (uniformTeleport nodeSet) damping.
Proof.
  unfold ComputePersonalizedRank, ComputePersonalizedRankWeighted. case_bool_decide as Hne; [done|]. cbv zeta.
  set (nodes := sort_Strings (set_range nodeSet)).
  assert (nodes ≡ₚ elements nodeSet) as Hperm by (unfold nodes; by rewrite sort_Strings_perm, set_range_perm).
  assert (NoDup nodes) as Hnd by (rewrite Hperm; apply NoDup_elements).
  assert (∀ k, k ∈ nodes ↔ k ∈ nodeSet) as Hset by (intros k; by rewrite Hperm, elem_of_elements).
  assert (nodes ≠ []) as Hnil.
  { intros E. apply Hne. apply leibniz_equiv. intros k. rewrite <-Hset, E. set_solver. }
  assert (normalizeTeleport nodes teleport = normalizeTeleport nodes (uniformTeleport nodeSet)) as ->; [|done].
  apply (level_unique nodes (1 / qc (Z.of_nat (length nodes)))).
  - apply (teleport_level nodes teleport 0); try done. intros n Hin. by apply Hseed, Hset.
  - set (c := n_div n_one (n_of (Z.of_nat (size nodeSet)))).
    assert (0 <= c) as Hc.
    { apply div_nonneg; [done|]. apply qc_positive. change (size nodeSet) with (length (elements nodeSet)). rewrite <-Hperm. destruct nodes; [done|cbn; lia]. }
    apply (teleport_level nodes (uniformTeleport nodeSet) c); try done. intros n Hin.
    assert (at_key (uniformTeleport nodeSet) n = c) as ->.
    { unfold at_key, uniformTeleport. rewrite lookup_gset_to_gmap, option_guard_True by (by apply Hset). done. }
    unfold usable_mass. pose proof (lt_spec c n_zero) as Hlt. change (n_nan c) with false. change (n_inf c) with false. rewrite !orb_false_r.
    destruct (n_lt c n_zero); [|done]. exfalso. by apply (Qclt_not_le _ _ Hlt).
Qed.

End uniform.
End ExactTeleport.

(** * Doubles *)

Section doubles.
Context `{MapRange} `{SliceSort}.
Abbreviation weights := (gmap string f64) (only parsing).

Definition scores_nonneg (m : weights) : Prop := ∀ k v, m !! k = Some v → nonneg v.

Lemma at_nonneg (m : weights) k : scores_nonneg m → nonneg (at_key m k).
Proof. intros Hm. unfold at_key. destruct (m !! k) as [v|] eqn:E; [by apply (Hm k)|done]. Qed.

Lemma insert_nonneg (m : weights) k v : scores_nonneg m → nonneg v → scores_nonneg (<[k := v]> m).
Proof. intros Hm Hv j w [[_ <-]|[_ Hj]]%lookup_insert_Some; [done|by apply (Hm j)]. Qed.

Lemma empty_nonneg : scores_nonneg ∅.
Proof. intros k v Hk. by rewrite lookup_empty in Hk. Qed.

Lemma fill_nonneg (f : weights → string → f64) nodes (m : weights) :
  (∀ m n, scores_nonneg m → nonneg (f m n)) → scores_nonneg m → scores_nonneg (foldl (λ m n, <[n := f m n]> m) m nodes).
Proof. intros Hf. revert m. induction nodes as [|n nodes IH]; intros m Hm; [done|]. apply IH, insert_nonneg; auto. Qed.

Lemma not_le_nonneg (w : f64) : n_le w n_zero = false → nonneg w.
Proof. by destruct w as [[]|[]| |[]]. Qed.

Lemma push_edge_nonneg damping score out (next : weights) e :
  nonneg damping → nonneg score → unsigned out → scores_nonneg next → scores_nonneg (push_edge damping score out next e).
Proof.
  intros Hd Hs Ho Hn. unfold push_edge. destruct e as [dst w]. cbv zeta. destruct (bool_decide _); [done|]. cbn [orb].
  destruct (n_le w n_zero) eqn:Hw; [done|]. apply not_le_nonneg in Hw. destruct (next !! _) as [v|] eqn:Ev; [|done].
  apply insert_nonneg; [done|]. apply nonneg_add; [by apply (Hn _ v Ev)|].
  apply nonneg_mul; [by apply nonneg_mul|by apply nonneg_quot].
Qed.

Lemma rank_source_nonneg adjacency damping (ow scores : weights) st src :
  nonneg damping → scores_nonneg scores → scores_nonneg st.1 → nonneg st.2 →
  scores_nonneg (rank_source adjacency damping ow scores st src).1 ∧ nonneg (rank_source adjacency damping ow scores st src).2.
Proof.
  intros Hd Hs Hm Hg. unfold rank_source. destruct st as [next dangling]. cbn [fst snd] in *. cbv zeta.
  destruct (n_le _ _) eqn:Ho; cbn [fst snd].
  - split; [done|]. apply nonneg_add; [done|by apply at_nonneg].
  - split; [|done]. apply unsigned_le_zero in Ho. revert next Hm. induction (edges_of adjacency src) as [|e edges IH]; intros next Hm; [done|].
    apply IH. apply push_edge_nonneg; [done|by apply at_nonneg|done|done].
Qed.

Lemma rank_step_nonneg adjacency damping (teleport ow scores : weights) nodes :
  nonneg damping → nonneg (f64_sub n_one damping) → scores_nonneg teleport → scores_nonneg scores →
  scores_nonneg (rank_step adjacency damping teleport ow nodes scores).
Proof.
  intros Hd Hd' Ht Hs. unfold rank_step. set (base := foldl _ ∅ nodes).
  assert (scores_nonneg base) as Hb.
  { apply (fill_nonneg (λ _ n, n_mul (n_sub n_one damping) (at_key teleport n))); [|apply empty_nonneg].
    intros m n _. apply nonneg_mul; [done|by apply at_nonneg]. }
  assert (∀ st, scores_nonneg st.1 → nonneg st.2 →
    scores_nonneg (foldl (rank_source adjacency damping ow scores) st nodes).1 ∧ nonneg (foldl (rank_source adjacency damping ow scores) st nodes).2) as Hfold.
  { clear base Hb. induction nodes as [|n nodes IH]; intros st H1 H2; [done|]. cbn [foldl].
    destruct (rank_source_nonneg adjacency damping ow scores st n); try done. by apply IH. }
  specialize (Hfold (base, n_zero) Hb I). destruct (foldl _ (base, n_zero) nodes) as [next dangling]. destruct Hfold as [Hn Hg].
  cbn [fst snd] in *. destruct (n_lt _ _); [|done]. cbv zeta.
  apply (fill_nonneg (λ m n, n_add (at_key m n) (n_mul (n_mul damping dangling) (at_key teleport n)))); [|done].
  intros m n Hm. apply nonneg_add; [by apply at_nonneg|]. apply nonneg_mul; [by apply nonneg_mul|by apply at_nonneg].
Qed.

Lemma usable_mass_f64 (w : f64) : nonneg (usable_mass w).
Proof. destruct w as [[]|[]| |[]]; done. Qed.

Lemma teleport_nonneg nodes (teleport : weights) : scores_nonneg (normalizeTeleport nodes teleport).
Proof.
  unfold normalizeTeleport. set (st0 := (∅ : weights, n_zero)).
  assert (∀ todo (st : weights * f64), scores_nonneg st.1 → scores_nonneg (foldl (λ '(out, mass) node,
    let weight := usable_mass (at_key teleport node) in (<[node := weight]> out, n_add mass weight)) st todo).1) as Hf.
  { induction todo as [|n todo IH]; intros [out m] Ho; [done|]. cbn [foldl]. apply IH. cbn [fst] in *. apply insert_nonneg; [done|apply usable_mass_f64]. }
  specialize (Hf nodes st0 empty_nonneg). destruct (foldl _ st0 nodes) as [out m]. cbn [fst] in Hf. destruct (n_le m n_zero) eqn:Em.
  - apply (fill_nonneg (λ _ _, n_div n_one (n_of (Z.of_nat (length nodes))))); [|done]. intros _ _ _.
    apply nonneg_quot; [done|]. apply unsigned_of_Z. lia.
  - apply (fill_nonneg (λ out' n, n_div (at_key out' n) m)); [|done]. intros m' n Hm'. apply nonneg_quot; [by apply at_nonneg|].
    by apply unsigned_le_zero.
Qed.

(** Scores in descending order, equal scores by pubkey. *)
Lemma node_less_weak : strict_weak (λ n : rankNode f64, is_nan (Score n) = false) node_less.
Proof.
  assert (∀ a b : rankNode f64, is_nan (Score a) = false → is_nan (Score b) = false → node_less a b = true ↔
    rank_lt (f64_rank (Score b)) (f64_rank (Score a)) ∨ f64_rank (Score a) = f64_rank (Score b) ∧ String.ltb (Pubkey a) (Pubkey b) = true) as Hspec.
  { intros a b Ha Hb. unfold node_less. cbn [n_eq n_lt f64_numbers]. destruct (f64_ne (Score a) (Score b)) eqn:E; cbn [negb].
    - rewrite f64_lt_rank by done. apply not_false_iff_true in E. rewrite f64_ne_rank in E by done. tauto.
    - apply f64_ne_rank in E; [|done..]. rewrite E. unfold rank_lt. intuition lia. }
  assert (∀ u1 u2 u3 v1 v2 v3 : Z, (u1, u2, u3) = (v1, v2, v3) ↔ u1 = v1 ∧ u2 = v2 ∧ u3 = v3) as Heq by naive_solver.
  split.
  - intros x Hx. apply not_true_iff_false. rewrite Hspec, ltb_irrefl by done. unfold rank_lt. intuition lia.
  - intros x y z Hx Hy Hz. rewrite !Hspec by done. destruct (f64_rank (Score x)) as [[a1 a2] a3], (f64_rank (Score y)) as [[b1 b2] b3], (f64_rank (Score z)) as [[c1 c2] c3].
    rewrite !Heq. unfold rank_lt. cbn [fst snd]. intros [?|[? Hxy]] [?|[? Hyz]]; try (left; lia). right. split; [lia|]. by eapply ltb_trans.
  - intros x y z Hx Hy Hz. rewrite <-!not_true_iff_false, !Hspec by done.
    destruct (f64_rank (Score x)) as [[a1 a2] a3], (f64_rank (Score y)) as [[b1 b2] b3], (f64_rank (Score z)) as [[c1 c2] c3].
    rewrite !Heq. unfold rank_lt. cbn [fst snd]. rewrite !ltb_leb, !negb_true_iff, <-!not_true_iff_false.
    intros H1 H2 [?|[? H3]]; [lia|]. apply H3.
    destruct (total str_le (Pubkey x) (Pubkey z)) as [|Hzx]; [done|exfalso]. unfold str_le in *. clear Hspec.
    destruct (Z.lt_trichotomy a1 b1) as [|[|]]; [lia| |lia].
    destruct (Z.lt_trichotomy a2 b2) as [|[|]]; [lia| |lia]. destruct (Z.lt_trichotomy a3 b3) as [|[|]]; [lia| |lia].
    assert (String.leb (Pubkey x) (Pubkey y) = true) as Hxy by (destruct (String.leb (Pubkey x) (Pubkey y)); [done|exfalso; apply H1; right; split; [lia|done]]).
    assert (String.leb (Pubkey y) (Pubkey z) = true) as Hyz by (destruct (String.leb (Pubkey y) (Pubkey z)); [done|exfalso; apply H2; right; split; [lia|done]]).
    apply H3. by eapply leb_trans.
Qed.
End doubles.

Section ranking.
Context `{MapRange} `{SliceSort}.

Lemma loop_nonneg iters adjacency damping (teleport ow scores : gmap string f64) nodes :
  nonneg damping → nonneg (f64_sub n_one damping) → scores_nonneg teleport → scores_nonneg scores →
  scores_nonneg (rank_loop iters adjacency damping teleport ow nodes scores).
Proof.
  intros Hd Hd' Ht. revert scores. induction iters as [|iters IH]; intros scores Hs; cbn [rank_loop]; [done|]. cbv zeta.
  destruct (n_lt _ _); [by apply rank_step_nonneg|]. by apply IH, rank_step_nonneg.
Qed.

(** C21: in doubles, with the damping every caller passes: a ranking holds each
    node of the set once, no score is negative, and unless a score is NaN the
    list descends by score, equal scores ascending by pubkey. *)
Theorem ranking_ordered (adjacency : gmap string (gmap string f64)) nodeSet teleport :
  let ranked := ComputePersonalizedRankWeighted adjacency nodeSet teleport rankDamping in
  map Pubkey ranked ≡ₚ elements nodeSet ∧
  Forall (λ node, f64_lt (Score node) (f64_of_Z 0) = false) ranked ∧
  (Forall (λ node, is_nan (Score node) = false) ranked → StronglySorted (λ a b, node_less b a = false) ranked).
Proof.
  cbv zeta. unfold ComputePersonalizedRankWeighted. case_bool_decide as Hne.
  { subst nodeSet. rewrite elements_empty. split_and!; [done|constructor|constructor]. }
  change (valid_damping rankDamping) with (rankDamping (F := f64)).
  set (nodes := sort_Strings (set_range nodeSet)). set (tp := normalizeTeleport nodes teleport). set (ow := foldl _ ∅ nodes).
  set (start := foldl _ ∅ nodes).
  assert (scores_nonneg start) as Hs.
  { apply (fill_nonneg (λ _ n, at_key tp n)); [|apply empty_nonneg]. intros _ n _. apply at_nonneg, teleport_nonneg. }
  pose proof (loop_nonneg rankMaxIters adjacency rankDamping tp ow start nodes I I (teleport_nonneg _ _) Hs) as Hn.
  set (final := rank_loop _ _ _ _ _ _ _) in *. clearbody final. set (rows := map (λ node, mkNode node (at_key final node)) nodes).
  pose proof (sort_perm node_less rows) as Hp. split_and!.
  - rewrite Hp. unfold rows. rewrite map_map, List.map_id. unfold nodes. by rewrite sort_Strings_perm, set_range_perm.
  - apply (Forall_perm _ rows); [done|]. apply List.Forall_forall. intros x Hx. apply in_map_iff in Hx as (n & <- & _).
    by apply nonneg_lt_zero, at_nonneg.
  - intros Hnan. apply (sort_sorted (λ n : rankNode f64, is_nan (Score n) = false)); [apply node_less_weak|].
    by apply (Forall_perm _ (sort_Slice node_less rows)).
Qed.
End ranking.

(** * Concrete rankings *)

Section concrete.
#[local] Existing Instance list_range.
#[local] Existing Instance insertion_sort.

Definition unit_edges (l : list (string * list string)) : gmap string (list string) := list_to_map l.

(** Two nodes that follow each other, and one that follows both. *)
Example three_nodes :
  map Pubkey (computeIterativeGlobalRank (F := f64) (unit_edges [("a", ["b"]); ("b", ["a"]); ("c", ["a"; "b"])]) {["a"; "b"; "c"]})
  = ["a"; "b"; "c"].
Proof. vm_compute. reflexivity. Qed.

Example empty_graph : computeIterativeGlobalRank (F := f64) ∅ ∅ = [].
Proof. vm_compute. reflexivity. Qed.

(** Teleport to a seed puts it above a node with more followers. *)
Example seed_first :
  map Pubkey (ComputePersonalizedRank (unit_edges [("a", ["b"]); ("c", ["b"]); ("seed", ["a"])]) {["a"; "b"; "c"; "seed"]}
                {["seed" := f64_of_Z 1]} rankDamping)
  = ["seed"; "a"; "b"; "c"].
Proof. vm_compute. reflexivity. Qed.

(** What a node passes on is divided by a sum that leaves infinite weights
    out, but infinite weights are passed on: one such edge makes every score
    infinite, and the ranking is the alphabet. *)
Theorem infinite_weight_flattens :
  let inf := S754_infinity false in
  let adjacency := {["a" := {["b" := f64_of_Z 1; "c" := inf]}; "c" := {["a" := f64_of_Z 1]}]} in
  out_weight {["a"; "b"; "c"]} (edges_of adjacency "a") = f64_of_Z 1 ∧
  ComputePersonalizedRankWeighted adjacency {["a"; "b"; "c"]} ∅ rankDamping = [mkNode "a" inf; mkNode "b" inf; mkNode "c" inf].
Proof. vm_compute. done. Qed.

(** In doubles a teleport vector without mass and the uniform one differ: ten
    times a tenth is not one. *)
Theorem seedless_rank_differs :
  let nodes := {["a"; "b"; "c"; "d"; "e"; "f"; "g"; "h"; "i"; "j"]} in
  ComputePersonalizedRank (F := f64) ∅ nodes {["absent-seed" := f64_of_Z 1]} rankDamping
  ≠ ComputePersonalizedRank ∅ nodes (uniformTeleport nodes) rankDamping.
Proof. vm_compute. congruence. Qed.

(** [TestMergeWeightedAdjacency]. *)
Example merged_weights :
  let '(merged, nodes) := mergeWeightedAdjacency (F := f64) {["a" := {["b" := f64_of_Z 1]}]}
    {["a" := {["b" := f64_of_Z 2]}; "b" := {["c" := f64_ratio 3 2]}]} {["a"; "b"]} in
  at_key (default ∅ (merged !! "a")) "b" = f64_of_Z 3 ∧ bool_decide ("c" ∈ nodes) = true.
Proof. vm_compute. done. Qed.

Lemma rank_conserves_mass_witness :
  ({["a"; "b"]} : gset string) ≠ ∅ ∧
  Exact.total (map Score (ComputePersonalizedRankWeighted (F := Qc) {["a" := {["b" := qc 1]}]} {["a"; "b"]} ∅ rankDamping)) = 1%Qc.
Proof.
  assert (({["a"; "b"]} : gset string) ≠ ∅) as Hne by (intros E; assert ("a" ∈ (∅ : gset string)) by (rewrite <-E; set_solver); set_solver).
  split; [exact Hne|]. apply (Exact.rank_conserves_mass {["a" := {["b" := qc 1]}]} {["a"; "b"]} ∅ rankDamping Hne).
Defined.

Lemma seedless_rank_uniform_witness :
  usable_mass (at_key ({["elsewhere" := qc 1]} : gmap string Qc) "a") = 0%Qc ∧
  ComputePersonalizedRank (F := Qc) (unit_edges [("a", ["b"])]) {["a"; "b"]} {["elsewhere" := qc 1]} rankDamping
  = ComputePersonalizedRank (unit_edges [("a", ["b"])]) {["a"; "b"]} (uniformTeleport {["a"; "b"]}) rankDamping.
Proof.
  split; [done|]. apply (ExactTeleport.seedless_rank_uniform (unit_edges [("a", ["b"])]) {["a"; "b"]} {["elsewhere" := qc 1]} rankDamping).
  intros n Hn. assert (n = "a" ∨ n = "b") as [->| ->] by set_solver; done.
Defined.
End concrete.
