(* ===== verification/TrustStore.v ===== *)
(** The trust store, [internal/store/trust]: the published hop table
    [trust_graph_snapshot] and the tables derived from it, trust states and
    qualification, seeds and the recount of trusted followers.

    The tables are those of migrations 000020, 000021, 000027, 000028, 000073
    and 000115. Statement timeouts and [work_mem] are statements that change
    nothing; [now()] is the time of the transaction. *)

From S2P Require Import SearchPage Prelude GoLib GoFloat Db TrustGraph.
Local Open Scope go_scope.

(** * Tables *)

Inductive RunStatus := RunPending | RunRunning | RunSucceeded | RunFailed.

Inductive RunPhase := PhaseSync | PhaseCompute | PhaseNeighborhoods | PhasePromote.

#[export] Instance RunStatus_eq_dec : EqDecision RunStatus.
Proof. solve_decision. Defined.

#[export] Instance RunPhase_eq_dec : EqDecision RunPhase.
Proof. solve_decision. Defined.

(** A row of [trust_runs]. *)
Record Run := mkRun {
  RunID : Z;
  DerivationName : string;
  TargetVersion : Z;
  Status : RunStatus;
  RunJobID : option Z;
  RunAttempts : Z;
  InputFollowerEdges : Z;
  ScoreRowsPublished : Z;
  RedisSnapshotRef : option string;
  CurrentPhase : option RunPhase;
  SyncJobID : option Z;
  ComputeJobID : option Z;
  PromoteJobID : option Z;
  PhaseStartedAt : option time;
  PhaseFinishedAt : option time;
  PhaseLastError : option string;
  RunStartedAt : option time;
  RunFinishedAt : option time;
  RunLastError : option string;
  RunCreatedAt : time;
  RunUpdatedAt : time;
}.

(** A row of [trust_scores_global], by pubkey. *)
Record ScoreRow := mkScore {
  sc_score : f64;
  sc_rank : Z;
  sc_run : Z;
  sc_name : string;
  sc_version : Z;
  sc_computed : time;
}.

(** A row of [trust_graph_snapshot], by pubkey. *)
Record SnapshotRow := mkSnapshot {
  sn_hops : Z;
  sn_seed : bool;
  sn_run : option Z;
  sn_refreshed : time;
}.

(** A row of [trust_pubkeys_latest], by pubkey. *)
Record LatestRow := mkLatest {
  lt_hops : option Z;
  lt_seed : bool;
  lt_score : option f64;
  lt_rank : option Z;
  lt_run : option Z;
  lt_computed : option time;
  lt_updated : time;
}.

(** A row of [profile_public_stats], by pubkey. *)
Record PublicStats := mkPublic {
  ps_followers : Z;
  ps_following : Z;
  ps_notes : Z;
  ps_replies : Z;
  ps_trusted : Z;
  ps_version : Z;
}.

(** A row of the two trusted discovery projections; the author is the key
    itself for profiles. *)
Record Candidate := mkCandidate {
  cd_author : string;
  cd_hops : option Z;
  cd_score : option f64;
  cd_run : option Z;
  cd_refreshed : option time;
  cd_version : Z;
  cd_projected : time;
}.

Record GraphTables := mkGraph {
  trust_seeds : gmap string bool;
  follower_edges : gset (string * string);
  trust_runs : gmap Z Run;
  trust_scores_global : gmap string ScoreRow;
  trust_graph_snapshot : gmap string SnapshotRow;
  trust_pubkeys_latest : gmap string LatestRow;
  profile_public_stats : gmap string PublicStats;
  active_stats_version : option Z;
  note_discovery_authors : gmap string string;
  discovery_profiles : gset string;
  note_candidates : gmap string Candidate;
  profile_candidates : gmap string Candidate;
  projection_state : gmap string (option time * time * Z);
}.

Definition set_seeds v t := mkGraph v (follower_edges t) (trust_runs t) (trust_scores_global t) (trust_graph_snapshot t) (trust_pubkeys_latest t) (profile_public_stats t) (active_stats_version t) (note_discovery_authors t) (discovery_profiles t) (note_candidates t) (profile_candidates t) (projection_state t).
Definition set_runs v t := mkGraph (trust_seeds t) (follower_edges t) v (trust_scores_global t) (trust_graph_snapshot t) (trust_pubkeys_latest t) (profile_public_stats t) (active_stats_version t) (note_discovery_authors t) (discovery_profiles t) (note_candidates t) (profile_candidates t) (projection_state t).
Definition set_scores v t := mkGraph (trust_seeds t) (follower_edges t) (trust_runs t) v (trust_graph_snapshot t) (trust_pubkeys_latest t) (profile_public_stats t) (active_stats_version t) (note_discovery_authors t) (discovery_profiles t) (note_candidates t) (profile_candidates t) (projection_state t).
Definition set_snapshot v t := mkGraph (trust_seeds t) (follower_edges t) (trust_runs t) (trust_scores_global t) v (trust_pubkeys_latest t) (profile_public_stats t) (active_stats_version t) (note_discovery_authors t) (discovery_profiles t) (note_candidates t) (profile_candidates t) (projection_state t).
Definition set_latest v t := mkGraph (trust_seeds t) (follower_edges t) (trust_runs t) (trust_scores_global t) (trust_graph_snapshot t) v (profile_public_stats t) (active_stats_version t) (note_discovery_authors t) (discovery_profiles t) (note_candidates t) (profile_candidates t) (projection_state t).
Definition set_stats v t := mkGraph (trust_seeds t) (follower_edges t) (trust_runs t) (trust_scores_global t) (trust_graph_snapshot t) (trust_pubkeys_latest t) v (active_stats_version t) (note_discovery_authors t) (discovery_profiles t) (note_candidates t) (profile_candidates t) (projection_state t).
Definition set_note_candidates v t := mkGraph (trust_seeds t) (follower_edges t) (trust_runs t) (trust_scores_global t) (trust_graph_snapshot t) (trust_pubkeys_latest t) (profile_public_stats t) (active_stats_version t) (note_discovery_authors t) (discovery_profiles t) v (profile_candidates t) (projection_state t).
Definition set_profile_candidates v t := mkGraph (trust_seeds t) (follower_edges t) (trust_runs t) (trust_scores_global t) (trust_graph_snapshot t) (trust_pubkeys_latest t) (profile_public_stats t) (active_stats_version t) (note_discovery_authors t) (discovery_profiles t) (note_candidates t) v (projection_state t).
Definition set_projection_state v t := mkGraph (trust_seeds t) (follower_edges t) (trust_runs t) (trust_scores_global t) (trust_graph_snapshot t) (trust_pubkeys_latest t) (profile_public_stats t) (active_stats_version t) (note_discovery_authors t) (discovery_profiles t) (note_candidates t) (profile_candidates t) v.

(** * The hop table *)

(** [btrim]: spaces at both ends. *)
Fixpoint ltrim (l : list Z) : list Z :=
  match l with
  | 32 :: l => ltrim l
  | _ => l
  end.

Definition btrim (s : string) : string := str (rev (ltrim (rev (ltrim (bytes s))))).

(** One round of the recursive part of [WITH RECURSIVE reachable]. *)
Definition reach_step (edges : gset (string * string)) (maxHops : Z) (work : gset (string * Z)) : gset (string * Z) :=
  ⋃ map (λ row : string * Z,
    if row.2 <? maxHops then set_map (λ e : string * string, (e.2, row.2 + 1)) (filter (λ e, e.1 = row.1) edges) else ∅) (elements work).

(** The rounds: the rows of a round that are new are the next round's input.
    [reach_rounds] shows that [maxHops + 1] rounds end it. *)
Fixpoint reach_loop (fuel : nat) (edges : gset (string * string)) (maxHops : Z) (work acc : gset (string * Z)) : gset (string * Z) :=
  match fuel with
  | O => acc
  | S fuel =>
      let fresh := reach_step edges maxHops work ∖ acc in
      if bool_decide (fresh = ∅) then acc else reach_loop fuel edges maxHops fresh (acc ∪ fresh)
  end.

Definition active_seeds (t : GraphTables) : gset string := dom (filter (λ kv, kv.2 = true) (trust_seeds t)).

Definition reachable (maxHops : Z) (t : GraphTables) : gset (string * Z) :=
  let start := set_map (λ s : string, (s, 0)) (active_seeds t) in
  reach_loop (S (Z.to_nat maxHops)) (follower_edges t) maxHops start start.

(** [MIN(hops)] of the rows of one pubkey. *)
Definition lower_hops (m : gmap string Z) (row : string * Z) : gmap string Z :=
  <[row.1 := match m !! row.1 with Some h => Z.min h row.2 | None => row.2 end]> m.

Definition min_hops (rows : gset (string * Z)) : gmap string Z := foldl lower_hops ∅ (elements rows).

Definition snapshot_rows (maxHops : Z) (run : option Z) (now : time) (t : GraphTables) : gmap string SnapshotRow :=
  let rows := reachable maxHops t in
  map_imap (λ p h, Some (mkSnapshot h (bool_decide ((p, 0) ∈ rows)) run now)) (min_hops rows).

Definition LargeAccountFollowerFloor : Z := 1000.

(** The keys of the upsert; the same key twice in one statement is an error. *)
Definition large_accounts (t : GraphTables) : list string :=
  List.filter (λ p, negb (bool_decide (p = "")))
    (map (λ kv : string * PublicStats, btrim kv.1)
       (map_to_list (filter (λ kv : string * PublicStats, LargeAccountFollowerFloor ≤ ps_trusted kv.2) (profile_public_stats t)))).

Definition upsert_large (run : option Z) (now : time) (m : gmap string SnapshotRow) (p : string) : gmap string SnapshotRow :=
  match m !! p with
  | None => <[p := mkSnapshot 1 false run now]> m
  | Some row => if 1 <? sn_hops row then <[p := mkSnapshot 1 (sn_seed row) (sn_run row) now]> m else m
  end.

Definition touched (m : gmap string SnapshotRow) (p : string) : bool :=
  match m !! p with None => true | Some row => 1 <? sn_hops row end.

Definition merge_large (run : option Z) (now : time) (t : GraphTables) : result (GraphTables * Z) :=
  let keys := large_accounts t in
  if bool_decide (NoDup keys) then
    Ok (set_snapshot (foldl (upsert_large run now) (trust_graph_snapshot t) keys) t,
        Z.of_nat (length (List.filter (touched (trust_graph_snapshot t)) keys)))
  else Err "ON CONFLICT DO UPDATE command cannot affect row a second time".

(** The full outer join of the hop table and the scores. *)
Definition latest_row (now : time) (snapshot : option SnapshotRow) (scores : option ScoreRow) : option LatestRow :=
  match snapshot, scores with
  | None, None => None
  | Some sn, None => Some (mkLatest (Some (sn_hops sn)) (sn_seed sn) None None (sn_run sn) (Some (sn_refreshed sn)) now)
  | None, Some sc => Some (mkLatest None false (Some (sc_score sc)) (Some (sc_rank sc)) (Some (sc_run sc)) (Some (sc_computed sc)) now)
  | Some sn, Some sc =>
      Some (mkLatest (Some (sn_hops sn)) (sn_seed sn) (Some (sc_score sc)) (Some (sc_rank sc))
              (match sn_run sn with Some r => Some r | None => Some (sc_run sc) end) (Some (sc_computed sc)) now)
  end.

Definition latest_rows (now : time) (t : GraphTables) : gmap string LatestRow :=
  merge (latest_row now) (trust_graph_snapshot t) (trust_scores_global t).

Definition RefreshTrustPubkeysLatestTx (now : time) : go (db GraphTables) unit :=
  go_wrap "lock trust_pubkeys_latest rebuild" (exec id) ;;
  go_wrap "clear trust_pubkeys_latest" (exec (set_latest ∅)) ;;
  go_wrap "rebuild trust_pubkeys_latest" (exec (λ t, set_latest (latest_rows now t) t)).

Definition setTrustHeavyStatementTimeout : go (db GraphTables) unit :=
  go_wrap "set trust statement_timeout" (exec id) ;;
  go_wrap "set trust work_mem" (exec id).

Definition RefreshTrustPubkeysLatest (now : time) : go (db GraphTables) unit :=
  tx "begin trust_pubkeys_latest refresh" "commit trust_pubkeys_latest refresh"
    (setTrustHeavyStatementTimeout ;;
     RefreshTrustPubkeysLatestTx now).

(** ** The recount of trusted followers *)

Record TrustedFollowerPolicy := mkFollowerPolicy {
  fp_hops : Z;
  fp_weight : f64;
}.

Definition normalized_policy (p : TrustedFollowerPolicy) : TrustedFollowerPolicy :=
  mkFollowerPolicy (if fp_hops p <=? 0 then 3 else fp_hops p) (if f64_lt (fp_weight p) (f64_of_Z 0) then f64_of_Z 0 else fp_weight p).

(** The follower is in the trusted audience. *)
Definition counted (p : TrustedFollowerPolicy) (latest : gmap string LatestRow) (follower : string) : bool :=
  bool_decide (pg_compare (fp_weight p) (f64_of_Z 0) = Gt)
  || match latest !! follower with
     | Some row => match lt_hops row with Some h => h <=? fp_hops p | None => false end
     | None => false
     end.

Definition counted_edges (p : TrustedFollowerPolicy) (t : GraphTables) (followed : string) : gset (string * string) :=
  filter (λ e, e.2 = followed ∧ e.1 ≠ e.2 ∧ counted p (trust_pubkeys_latest t) e.1 = true) (follower_edges t).

(** The temporary table: the groups with at least one follower. *)
Definition count_edge (m : gmap string Z) (e : string * string) : gmap string Z := <[e.2 := default 0 (m !! e.2) + 1]> m.

Definition trusted_follower_counted (p : TrustedFollowerPolicy) (t : GraphTables) : gmap string Z :=
  foldl count_edge ∅
    (elements (filter (λ e, e.1 ≠ e.2 ∧ counted p (trust_pubkeys_latest t) e.1 = true) (follower_edges t))).

Definition with_trusted (n : Z) (r : PublicStats) : PublicStats :=
  mkPublic (ps_followers r) (ps_following r) (ps_notes r) (ps_replies r) n (ps_version r).

Definition clear_absent (counts : gmap string Z) (stats : gmap string PublicStats) : gmap string PublicStats :=
  map_imap (λ p r, Some (match counts !! p with
                         | None => if negb (ps_trusted r =? 0) then with_trusted 0 r else r
                         | Some _ => r
                         end)) stats.

Definition upsert_counts (version : Z) (counts : gmap string Z) (stats : gmap string PublicStats) : gmap string PublicStats :=
  merge (λ n r, match n, r with
                | None, r => r
                | Some n, None => Some (mkPublic 0 0 0 0 n version)
                | Some n, Some r => Some (with_trusted n r)
                end) counts stats.

Definition recountTrustedFollowerCountsOnce (p : TrustedFollowerPolicy) : go (db GraphTables) unit :=
  tx "begin trusted follower recount" "commit trusted follower recount"
    (setTrustHeavyStatementTimeout ;;
     go_wrap "create trusted follower recount table" (exec id) ;;
     counts <- go_wrap "count trusted followers" (query (trusted_follower_counted p)) ;;
     go_wrap "clear trusted followers absent from the recount"
       (exec (λ t, set_stats (clear_absent counts (profile_public_stats t)) t)) ;;
     go_wrap "upsert trusted follower counts"
       (exec (λ t, set_stats (upsert_counts (default 1 (active_stats_version t)) counts (profile_public_stats t)) t))).

(** Whether an error wraps PostgreSQL's deadlock code is for [pgconn] to say. *)
Class DeadlockCode := isDeadlock : error → bool.

(** Three attempts; [cancelled n] is the context's error when it is done before
    the pause after attempt [n] ends. *)
Definition RecountTrustedFollowerCounts `{DeadlockCode} (cancelled : Z → option error) (p : TrustedFollowerPolicy) : go (db GraphTables) unit :=
  let p := normalized_policy p in
  let once := recountTrustedFollowerCountsOnce p in
  let retry (n : Z) (again : go (db GraphTables) unit) (s : db GraphTables) (r : result unit) :=
    match r with
    | Ok _ => (s, r)
    | Err e =>
        if negb (isDeadlock e) then (s, r)
        else match cancelled n with Some c => (s, Err c) | None => again s end
    end in
  λ s, let '(s, r) := once s in
       retry 1 (λ s, let '(s, r) := once s in retry 2 once s r) s r.

(** ** The discovery projections *)

(** [IS DISTINCT FROM] on doubles. *)
Definition score_distinct (a b : option f64) : bool :=
  match a, b with
  | None, None => false
  | Some x, Some y => negb (bool_decide (pg_compare x y = Eq))
  | _, _ => true
  end.

Definition candidate_for (author : string) (latest : option LatestRow) (refreshed : option time) (version : Z) (now : time) : Candidate :=
  mkCandidate author (latest ≫= lt_hops) (latest ≫= lt_score) (latest ≫= lt_run) refreshed version now.

(** The candidate differs from its row in what the projection holds. *)
Definition stale (old fresh : Candidate) : bool :=
  negb (bool_decide (cd_author old = cd_author fresh)) || negb (bool_decide (cd_hops old = cd_hops fresh))
  || score_distinct (cd_score old) (cd_score fresh) || negb (bool_decide (cd_run old = cd_run fresh))
  || negb (bool_decide (cd_version old = cd_version fresh)).

(** Candidates without a source are deleted; the others are written when they
    are new or stale. *)
Definition refresh_candidates (sources : gmap string string) (latest : gmap string LatestRow) (refreshed : option time) (version : Z) (now : time)
    (old : gmap string Candidate) : gmap string Candidate :=
  map_imap (λ k author,
    let fresh := candidate_for author (latest !! author) refreshed version now in
    Some (match old !! k with Some c => if stale c fresh then fresh else c | None => fresh end)) sources.

Definition snapshot_time (t : GraphTables) : option time :=
  map_fold (λ _ row m, Some (match m with Some x => Z.max x (sn_refreshed row) | None => sn_refreshed row end)) None (trust_graph_snapshot t).

Definition put_state (name : string) (refreshed : option time) (now : time) (version : Z) (t : GraphTables) : GraphTables :=
  set_projection_state (<[name := (refreshed, now, version)]> (projection_state t)) t.

Definition refreshTrustedNoteDiscoveryProjectionTx (now : time) (version : Z) : go (db GraphTables) unit :=
  refreshed <- go_wrap "load trust snapshot timestamp for trusted note projection" (query snapshot_time) ;;
  go_wrap "delete stale trusted note candidates"
    (exec (λ t, set_note_candidates (filter (λ kv : string * Candidate, is_Some (note_discovery_authors t !! kv.1)) (note_candidates t)) t)) ;;
  go_wrap "refresh trusted note discovery projection"
    (exec (λ t, set_note_candidates (refresh_candidates (note_discovery_authors t) (trust_pubkeys_latest t) refreshed version now (note_candidates t)) t)) ;;
  go_wrap "upsert trusted note projection state" (exec (put_state "trusted_note_discovery_candidates" refreshed now version)).

(** Profiles are their own authors. *)
Definition profile_sources (t : GraphTables) : gmap string string := map_imap (λ p _, Some p) (gset_to_gmap tt (discovery_profiles t)).

Definition refreshTrustedProfileDiscoveryProjectionTx (now : time) (version : Z) : go (db GraphTables) unit :=
  refreshed <- go_wrap "load trust snapshot timestamp for trusted profile projection" (query snapshot_time) ;;
  go_wrap "delete stale trusted profile candidates"
    (exec (λ t, set_profile_candidates (filter (λ kv : string * Candidate, kv.1 ∈ discovery_profiles t) (profile_candidates t)) t)) ;;
  go_wrap "refresh trusted profile discovery projection"
    (exec (λ t, set_profile_candidates (refresh_candidates (profile_sources t) (trust_pubkeys_latest t) refreshed version now (profile_candidates t)) t)) ;;
  go_wrap "upsert trusted profile projection state" (exec (put_state "trusted_profile_discovery_candidates" refreshed now version)).

Definition runProjectionRefresh (name : string) (refresh : Z → go (db GraphTables) unit) : go (db GraphTables) unit :=
  tx ("begin " +:+ name +:+ " projection refresh") ("commit " +:+ name +:+ " projection refresh")
    (setTrustHeavyStatementTimeout ;;
     refresh 1).

(** ** The refresh *)

(** A run comes before another in [ORDER BY finished_at DESC NULLS LAST, id DESC]. *)
Definition finished_before (a b : Run) : bool :=
  match RunFinishedAt a, RunFinishedAt b with
  | Some x, Some y => (y <? x) || ((x =? y) && (RunID b <? RunID a))
  | Some _, None => true
  | None, Some _ => false
  | None, None => RunID b <? RunID a
  end.

Definition first_run (before : Run → Run → bool) (p : Run → bool) (t : GraphTables) : option Run :=
  map_fold (λ _ r best, if p r then match best with None => Some r | Some b => if before r b then Some r else best end else best)
    None (trust_runs t).

Definition succeeded (r : Run) : bool := bool_decide (Status r = RunSucceeded).

Record SnapshotRefreshResult := mkRefresh {
  RowsUpserted : Z;
  SourceRunID : option Z;
}.

Definition refresh_snapshot_tx (maxHops : Z) (now : time) : go (db GraphTables) SnapshotRefreshResult :=
  setTrustHeavyStatementTimeout ;;
  run <- go_wrap "select latest succeeded trust run" (query (λ t, RunID <$> first_run finished_before succeeded t)) ;;
  go_wrap "clear trust graph snapshot" (exec (set_snapshot ∅)) ;;
  rows <- go_wrap "rebuild trust graph snapshot"
    (stmt (λ t, let rows := snapshot_rows maxHops run now t in Ok (set_snapshot rows t, Z.of_nat (size rows)))) ;;
  large <- go_wrap "merge large accounts into trust graph snapshot" (stmt (merge_large run now)) ;;
  RefreshTrustPubkeysLatestTx now ;;
  go_ret (mkRefresh (rows + large) run).

(** Each part after the first commits by itself; [now1] to [now3] are the times
    of the transactions. The recount's error is returned with the result. *)
Definition RefreshTrustGraphSnapshot `{DeadlockCode} (cancelled : Z → option error) (untrustedWeight : f64) (maxHops : Z) (now1 now2 now3 : time)
    : go (db GraphTables) SnapshotRefreshResult :=
  let maxHops := if maxHops <=? 0 then 3 else maxHops in
  result <- tx "begin trust graph snapshot refresh" "commit trust graph snapshot refresh" (refresh_snapshot_tx maxHops now1) ;;
  go_wrap "recount trusted followers after snapshot commit"
    (RecountTrustedFollowerCounts cancelled (mkFollowerPolicy maxHops untrustedWeight)) ;;
  runProjectionRefresh "trusted note discovery" (refreshTrustedNoteDiscoveryProjectionTx now2) ;;
  runProjectionRefresh "trusted profile discovery" (refreshTrustedProfileDiscoveryProjectionTx now3) ;;
  go_ret result.

(** * Seeds *)

Section seeds.
Context `{UnicodeTables}.

Definition normalizeSeedPubkeys (pubkeys : list string) : list string :=
  dedup_first (List.filter (λ p, negb (bool_decide (p = ""))) (map (λ p, to_lower (trim_space p)) pubkeys)).

Definition inactive (seeds : gmap string bool) (p : string) : bool := negb (bool_decide (seeds !! p = Some true)).

(** The rows the upsert writes, and their number. *)
Definition UpsertActiveSeeds (pubkeys : list string) : go (db GraphTables) Z :=
  match normalizeSeedPubkeys pubkeys with
  | [] => go_ret 0
  | normalized =>
      go_wrap "upsert active trust seeds" (stmt (λ t,
        let rows := List.filter (inactive (trust_seeds t)) normalized in
        Ok (set_seeds (foldl (λ m p, <[p := true]> m) (trust_seeds t) rows) t, Z.of_nat (length rows))))
  end.

Definition DeactivateMissingSeeds (keep : list string) : go (db GraphTables) Z :=
  let normalized := normalizeSeedPubkeys keep in
  go_wrap "deactivate missing trust seeds" (stmt (λ t,
    let drop := filter (λ kv : string * bool, kv.2 = true ∧ (kv.1 ∉ normalized)) (trust_seeds t) in
    Ok (set_seeds (((λ _, false) <$> drop) ∪ trust_seeds t) t, Z.of_nat (size drop)))).

(** The rows come in an order the query does not fix. *)
Definition LoadTrustedSnapshotPubkeys `{MapRange} (maxHops : Z) : go (db GraphTables) (list string) :=
  let maxHops := if maxHops <? 0 then 0 else maxHops in
  rows <- go_wrap "load trusted snapshot pubkeys"
    (query (λ t, map fst (List.filter (λ kv : string * SnapshotRow, sn_hops kv.2 <=? maxHops) (map_range (trust_graph_snapshot t))))) ;;
  go_ret (List.filter (λ p, negb (bool_decide (p = ""))) (map (λ p, to_lower (trim_space p)) rows)).
End seeds.

(** * States and qualification *)

Record TrustState := mkState {
  ts_pubkey : string;
  ts_score : option f64;
  ts_qualified : bool;
  ts_tier : string;
  ts_hops : option Z;
  ts_bucket : string;
  ts_rank : option Z;
  ts_computed : option time;
  ts_generation : option Z;
  ts_seed : bool;
}.

Record TrustQualification := mkQualification {
  tq_pubkey : string;
  tq_trusted : bool;
  tq_seed : bool;
  tq_hops : option Z;
  tq_score : option f64;
  tq_rank : option Z;
  tq_run : option Z;
}.

Record QualificationPolicy := mkQPolicy {
  qp_hops : Z;
  qp_score : f64;
}.

Definition normalizePubkeys (pubkeys : list string) : list string :=
  dedup_first (List.filter (λ p, negb (bool_decide (p = ""))) (map trim_space pubkeys)).

Definition normalizeTrustPolicy (p : QualificationPolicy) : QualificationPolicy :=
  mkQPolicy (if qp_hops p <? 0 then 0 else qp_hops p) (if f64_lt (qp_score p) (f64_of_Z 0) then f64_of_Z 0 else qp_score p).

Definition trustStateQualified (s : TrustState) : bool :=
  ts_seed s || bool_decide (is_Some (ts_hops s)) || bool_decide (is_Some (ts_score s)).

Definition trustStateKnown (s : TrustState) : bool :=
  trustStateQualified s || bool_decide (is_Some (ts_generation s)) || bool_decide (is_Some (ts_computed s)) || bool_decide (is_Some (ts_rank s)).

Definition trustStateTrusted (s : TrustState) (p : QualificationPolicy) : bool :=
  if ts_seed s then true
  else if negb (trustStateQualified s) then false
  else if match ts_hops s with Some h => (0 <? qp_hops p) && (qp_hops p <? h) | None => false end then false
  else if f64_lt (f64_of_Z 0) (qp_score p) then
    match ts_score s with Some score => negb (f64_lt score (qp_score p)) | None => false end
  else true.

Definition trustQualificationFromState (s : TrustState) (p : QualificationPolicy) : TrustQualification :=
  let p := normalizeTrustPolicy p in
  mkQualification (ts_pubkey s) (trustStateTrusted s p) (ts_seed s) (ts_hops s) (ts_score s) (ts_rank s) (ts_generation s).

Definition trustHopBucket (hops : option Z) : string :=
  match hops with
  | None => "unknown"
  | Some h => if h <=? 0 then "0" else if h =? 1 then "1" else if h =? 2 then "2" else if h =? 3 then "3" else "4_plus"
  end.

Definition trustTierFromState (seed : bool) (hops : option Z) : string :=
  if seed then "seed"
  else match hops with
       | None => "unknown"
       | Some h => if h <=? 1 then "core" else if h <=? 3 then "near" else "outer"
       end.

(** The state of a pubkey from its row of the left join. *)
Definition state_of (latest : gmap string LatestRow) (p : string) : TrustState :=
  let row := latest !! p in
  let hops := row ≫= lt_hops in
  let score := row ≫= lt_score in
  let seed := match row with Some r => lt_seed r | None => false end in
  mkState p score (seed || bool_decide (is_Some hops) || bool_decide (is_Some score)) (trustTierFromState seed hops) hops (trustHopBucket hops)
    (row ≫= lt_rank) (row ≫= lt_computed) (row ≫= lt_run) seed.

Definition GetTrustStates (pubkeys : list string) : go (db GraphTables) (gmap string TrustState) :=
  match normalizePubkeys pubkeys with
  | [] => go_ret ∅
  | normalized =>
      go_wrap "get trust states"
        (query (λ t, list_to_map (map (λ p, (p, state_of (trust_pubkeys_latest t) p)) normalized)))
  end.

Definition zero_state : TrustState := mkState "" None false "" None "" None None None false.

Definition GetTrustQualifications (pubkeys : list string) (p : QualificationPolicy) : go (db GraphTables) (gmap string TrustQualification) :=
  match normalizePubkeys pubkeys with
  | [] => go_ret ∅
  | normalized =>
      states <- GetTrustStates normalized ;;
      go_ret (list_to_map (map (λ k, (k, trustQualificationFromState (default zero_state (states !! k)) p)) normalized))
  end.

Definition IsTrustedAuthor (pubkey : string) (p : QualificationPolicy) : go (db GraphTables) bool :=
  let pubkey := trim_space pubkey in
  if bool_decide (pubkey = "") then go_fail "pubkey is required"
  else
    rows <- GetTrustQualifications [pubkey] p ;;
    go_ret (match rows !! pubkey with Some q => tq_trusted q | None => false end).

Definition ErrNotFound : error := "not found".

Definition GetTrustState (pubkey : string) : go (db GraphTables) TrustState :=
  let pubkey := trim_space pubkey in
  if bool_decide (pubkey = "") then go_fail "pubkey is required"
  else
    states <- GetTrustStates [pubkey] ;;
    match states !! pubkey with
    | Some s => if trustStateKnown s then go_ret s else go_fail ErrNotFound
    | None => go_fail ErrNotFound
    end.

Definition GetTrustSnapshotRefreshedAt : go (db GraphTables) (option time) :=
  go_wrap "get trust snapshot refreshed_at" (query snapshot_time).

Definition GetTrustPubkeysLatest (pubkeys : list string) : go (db GraphTables) (gmap string LatestRow) :=
  match normalizePubkeys pubkeys with
  | [] => go_ret ∅
  | normalized => go_wrap "get trust_pubkeys_latest" (query (λ t, filter (λ kv : string * LatestRow, kv.1 ∈ normalized) (trust_pubkeys_latest t)))
  end.

Definition GetTrustPubkeyLatest (pubkey : string) : go (db GraphTables) LatestRow :=
  let pubkey := trim_space pubkey in
  if bool_decide (pubkey = "") then go_fail "pubkey is required"
  else
    rows <- GetTrustPubkeysLatest [pubkey] ;;
    match rows !! pubkey with Some row => go_ret row | None => go_fail ErrNotFound end.

Definition CountRankedPubkeys : go (db GraphTables) Z :=
  go_wrap "count ranked trust pubkeys"
    (query (λ t, Z.of_nat (size (filter (λ kv : string * LatestRow, is_Some (lt_rank kv.2)) (trust_pubkeys_latest t))))).

(** ** Scores and runs *)

Definition GetTrustScore (pubkey : string) : go (db GraphTables) ScoreRow :=
  let pubkey := trim_space pubkey in
  if bool_decide (pubkey = "") then go_fail "pubkey is required"
  else
    row <- go_wrap "get trust score" (query (λ t, trust_scores_global t !! pubkey)) ;;
    match row with Some r => go_ret r | None => go_fail ErrNotFound end.

(** [ORDER BY rank ASC] leaves rows of one rank in any order. *)
Definition rank_le (a b : string * ScoreRow) : Prop := sc_rank a.2 ≤ sc_rank b.2.

#[export] Instance rank_le_dec a b : Decision (rank_le a b).
Proof. unfold rank_le. apply _. Defined.

Definition top_scores (limit : Z) (t : GraphTables) : list (string * ScoreRow) :=
  take (Z.to_nat limit) (merge_sort rank_le (map_to_list (trust_scores_global t))).

Definition ListTopTrustedPubkeys (limit : Z) : go (db GraphTables) (list (string * ScoreRow)) :=
  let limit := if limit <=? 0 then 50 else limit in
  go_wrap "list top trust scores" (query (top_scores limit)).

Definition GetTrustRun (id : Z) : go (db GraphTables) Run :=
  row <- go_wrap "scan trust run" (query (λ t, trust_runs t !! id)) ;;
  match row with Some r => go_ret r | None => go_fail ErrNotFound end.

Definition created_before (a b : Run) : Prop :=
  RunCreatedAt b < RunCreatedAt a ∨ (RunCreatedAt a = RunCreatedAt b ∧ RunID b ≤ RunID a).

#[export] Instance created_before_dec a b : Decision (created_before a b).
Proof. unfold created_before. apply _. Defined.

Definition ListTrustRuns (limit : Z) : go (db GraphTables) (list Run) :=
  let limit := if limit <=? 0 then 50 else limit in
  go_wrap "list trust runs"
    (query (λ t, take (Z.to_nat limit) (merge_sort created_before (map snd (map_to_list (trust_runs t)))))).

(** * The hop table holds shortest distances *)

Section hops.
Context (edges : gset (string * string)) (seeds : gset string) (maxHops : Z).

(** A pubkey is [k] follows away from some active seed. *)
Definition seed_walk (k : Z) (p : string) : Prop := ∃ s, s ∈ seeds ∧ walk (λ a b, (a, b) ∈ edges) s k p.

Lemma seed_walk_prefix k p : seed_walk k p → ∀ j, 0 ≤ j ≤ k → ∃ q, seed_walk j q.
Proof.
  intros (s & Hs & Hw). induction Hw as [|k b c Hw IH HE]; intros j Hj.
  - exists s. assert (j = 0) as -> by lia. exists s. split; [done|constructor].
  - destruct (decide (j = k + 1)) as [->|]; [|apply IH; lia]. exists c, s. split; [done|by econstructor].
Qed.

Lemma seed_walk_succ k q : seed_walk (k + 1) q → 0 ≤ k → ∃ p, seed_walk k p ∧ (p, q) ∈ edges.
Proof.
  intros (s & Hs & Hw) Hk. apply walk_inv in Hw as [[? _]|(b & Hb & HE)]; [lia|]. exists b. split; [|done].
  exists s. by replace (k + 1 - 1) with k in Hb by lia.
Qed.

Lemma elem_of_reach_step work q j :
  (q, j) ∈ reach_step edges maxHops work ↔ ∃ p k, (p, k) ∈ work ∧ k < maxHops ∧ (p, q) ∈ edges ∧ j = k + 1.
Proof.
  unfold reach_step. rewrite elem_of_union_list. split.
  - intros (X & HX & Hq). change (map ?f ?l) with (f <$> l) in HX. apply list_elem_of_fmap in HX as ([p k] & -> & Hp%elem_of_elements).
    cbn [fst snd] in Hq. destruct (Z.ltb_spec k maxHops); [|set_solver]. apply elem_of_map in Hq as ([a b] & [= -> ->] & [Ha He]%elem_of_filter).
    cbn [fst] in Ha. subst. by exists p, k.
  - intros (p & k & Hp & Hk & He & ->). eexists. split.
    + change (map ?f ?l) with (f <$> l). apply list_elem_of_fmap. exists (p, k). split; [done|by apply elem_of_elements].
    + cbn [fst snd]. destruct (Z.ltb_spec k maxHops); [|lia]. apply elem_of_map. exists (p, q). split; [done|]. by apply elem_of_filter.
Qed.

(** After round [i] every row up to [i] hops is there, and those of exactly
    [i] hops are the input of the next round. *)
Record round (i : Z) (work acc : gset (string * Z)) : Prop := {
  ro_work : ∀ p k, (p, k) ∈ work ↔ k = i ∧ seed_walk i p;
  ro_acc : ∀ p k, (p, k) ∈ acc ↔ 0 ≤ k ≤ i ∧ seed_walk k p;
}.

Lemma reach_rounds fuel i work acc :
  round i work acc → 0 ≤ i ≤ maxHops → maxHops - i < Z.of_nat fuel →
  ∀ p k, (p, k) ∈ reach_loop fuel edges maxHops work acc ↔ 0 ≤ k ≤ maxHops ∧ seed_walk k p.
Proof.
  revert i work acc. induction fuel as [|fuel IH]; intros i work acc Hr Hi Hf p k; [lia|]. cbn [reach_loop].
  assert (∀ q j, (q, j) ∈ reach_step edges maxHops work ∖ acc ↔ j = i + 1 ∧ i < maxHops ∧ seed_walk (i + 1) q) as Hfresh.
  { intros q j. rewrite elem_of_difference, elem_of_reach_step. split.
    - intros [(p' & k' & [-> (s & Hs & Hw)]%(ro_work _ _ _ Hr) & Hk' & He & ->) _]. split_and!; [done..|].
      exists s. split; [done|by econstructor].
    - intros (-> & Hlt & Hw). split.
      + destruct (seed_walk_succ i q Hw) as (p' & Hp' & He); [lia|]. exists p', i. split_and!; [by apply (ro_work _ _ _ Hr)|done..].
      + intros [? _]%(ro_acc _ _ _ Hr). lia. }
  case_bool_decide as He.
  - rewrite (ro_acc _ _ _ Hr). split; [intros [? ?]; split; [lia|done]|]. intros [Hk Hw]. split; [|done].
    destruct (Z.le_gt_cases k i) as [|Hgt]; [lia|exfalso]. destruct (seed_walk_prefix k p Hw (i + 1)) as [q Hq]; [lia|].
    assert ((q, i + 1) ∈ (∅ : gset (string * Z))) as Hin by (rewrite <-He; apply Hfresh; split_and!; [done|lia|done]). set_solver.
  - assert (i < maxHops) as Hlt by (apply set_choose_L in He as ([q j] & (_ & ? & _)%Hfresh); done).
    apply (IH (i + 1)); [|lia|lia]. split.
    + intros q j. rewrite Hfresh. naive_solver.
    + intros q j. rewrite elem_of_union, Hfresh, (ro_acc _ _ _ Hr). split.
      * intros [[? ?]|(-> & _ & ?)]; (split; [lia|done]).
      * intros [Hj Hw]. destruct (decide (j = i + 1)) as [->|]; [by right|left; split; [lia|done]].
Qed.
End hops.

Lemma reachable_spec maxHops t p k :
  0 ≤ maxHops → (p, k) ∈ reachable maxHops t ↔ 0 ≤ k ≤ maxHops ∧ seed_walk (follower_edges t) (active_seeds t) k p.
Proof.
  intros Hh. unfold reachable. set (start := set_map _ _).
  assert (∀ q j, (q, j) ∈ start ↔ j = 0 ∧ seed_walk (follower_edges t) (active_seeds t) 0 q) as Hs.
  { intros q j. unfold start. rewrite elem_of_map. split.
    - intros (s & [= -> ->] & Hs). split; [done|]. exists s. split; [done|constructor].
    - intros (-> & s & Hs & Hw). apply walk_inv in Hw as [[_ ->]|(b & Hb%walk_nonneg & _)]; [by exists s|lia]. }
  apply (reach_rounds _ _ _ _ 0); [|lia|lia]. split; [done|]. intros q j. rewrite Hs. split.
  - intros [-> ?]. split; [lia|done].
  - intros [Hj ?]. assert (j = 0) as -> by lia. done.
Qed.

Lemma min_hops_list l (m : gmap string Z) p :
  foldl lower_hops m l !! p = None ↔ m !! p = None ∧ ∀ k, (p, k) ∉ l.
Proof.
  revert m. induction l as [|[q j] l IH]; intros m; cbn [foldl]; [set_solver|]. rewrite IH. unfold lower_hops. cbn [fst snd].
  destruct (decide (q = p)) as [->|Hne]; [rewrite lookup_insert_eq; set_solver|]. rewrite lookup_insert_ne by done. set_solver.
Qed.

Lemma min_hops_lookup l (m : gmap string Z) p h :
  foldl lower_hops m l !! p = Some h →
  (m !! p = Some h ∨ (p, h) ∈ l) ∧ (∀ k, (p, k) ∈ l → h ≤ k) ∧ (∀ k, m !! p = Some k → h ≤ k).
Proof.
  revert m. induction l as [|[q j] l IH]; intros m; cbn [foldl].
  { intros Hm. split_and!; [by left|set_solver|]. intros k Hk. simplify_eq. lia. }
  intros (Hor & Hl & Hm)%IH. unfold lower_hops in Hor, Hm. cbn [fst snd] in Hor, Hm.
  destruct (decide (q = p)) as [->|Hne].
  - rewrite lookup_insert_eq in Hor, Hm. specialize (Hm _ eq_refl). destruct (m !! p) as [k|] eqn:Hk.
    + split_and!.
      * destruct Hor as [[= <-]|?]; [|right; set_solver]. destruct (Z.min_spec k j) as [[_ ->]|[_ ->]]; [by left|right; set_solver].
      * intros k' [[= ->]|?]%elem_of_cons; [lia|by apply Hl].
      * intros k' [= <-]. lia.
    + split_and!; [destruct Hor as [[= <-]|?]; right; set_solver| |done]. intros k' [[= ->]|?]%elem_of_cons; [lia|by apply Hl].
  - rewrite lookup_insert_ne in Hor, Hm by done. split_and!; [set_solver|set_solver|done].
Qed.

Lemma min_hops_spec rows p h : min_hops rows !! p = Some h ↔ (p, h) ∈ rows ∧ ∀ k, (p, k) ∈ rows → h ≤ k.
Proof.
  unfold min_hops. split.
  - intros (Hor & Hl & _)%min_hops_lookup. split; [destruct Hor as [Hor|]; [by rewrite lookup_empty in Hor|by apply elem_of_elements]|].
    intros k Hk. apply Hl. by apply elem_of_elements.
  - intros [Hin Hmin]. destruct (foldl lower_hops ∅ (elements rows) !! p) as [h'|] eqn:E.
    + apply min_hops_lookup in E as (Hor & Hl & _). f_equal. apply Z.le_antisymm.
      * apply Hl. by apply elem_of_elements.
      * destruct Hor as [Hor|Hor]; [by rewrite lookup_empty in Hor|]. apply Hmin. by apply elem_of_elements.
    + apply min_hops_list in E as [_ E]. exfalso. apply (E h). by apply elem_of_elements.
Qed.

(** The distance of a pubkey from the nearest active seed. *)
Definition seed_distance (t : GraphTables) (p : string) (h : Z) : Prop :=
  seed_walk (follower_edges t) (active_seeds t) h p ∧ ∀ k, seed_walk (follower_edges t) (active_seeds t) k p → h ≤ k.

Lemma seed_walk_nonneg edges seeds k p : seed_walk edges seeds k p → 0 ≤ k.
Proof. intros (s & _ & Hw). by eapply walk_nonneg. Qed.

Lemma reachable_min maxHops t p h :
  0 ≤ maxHops → min_hops (reachable maxHops t) !! p = Some h ↔ h ≤ maxHops ∧ seed_distance t p h.
Proof.
  intros Hh. rewrite min_hops_spec. setoid_rewrite (reachable_spec maxHops t p _ Hh). unfold seed_distance. split.
  - intros [[? Hw] Hmin]. split_and!; [lia|done|]. intros k Hk. destruct (Z.le_gt_cases k maxHops); [|lia].
    apply Hmin. split; [|done]. apply seed_walk_nonneg in Hk. lia.
  - intros (? & Hw & Hmin). split; [split; [apply seed_walk_nonneg in Hw; lia|done]|]. intros k [_ Hk]. by apply Hmin.
Qed.

Lemma snapshot_rows_lookup maxHops run now t p row :
  0 ≤ maxHops →
  snapshot_rows maxHops run now t !! p = Some row ↔
  ∃ h, row = mkSnapshot h (bool_decide (p ∈ active_seeds t)) run now ∧ h ≤ maxHops ∧ seed_distance t p h.
Proof.
  intros Hh. unfold snapshot_rows. rewrite map_lookup_imap, bind_Some. 
  assert (bool_decide ((p, 0) ∈ reachable maxHops t) = bool_decide (p ∈ active_seeds t)) as ->.
  { apply bool_decide_ext. rewrite reachable_spec by done. split.
    - intros (_ & s & Hs & Hw). apply walk_inv in Hw as [[_ ->]|(b & Hb%walk_nonneg & _)]; [done|lia].
    - intros Hp. split; [lia|]. exists p. split; [done|constructor]. }
  setoid_rewrite (reachable_min maxHops t p _ Hh). naive_solver.
Qed.

(** * What a refresh publishes *)

(** The rows and hops of the published table: the distance of every pubkey
    within [maxHops], and large accounts within one hop. *)
Definition publishes (maxHops : Z) (t : GraphTables) (snapshot : gmap string SnapshotRow) : Prop :=
  ∀ p h, sn_hops <$> snapshot !! p = Some h ↔
    if decide (p ∈ large_accounts t) then h = (if decide (p ∈ active_seeds t) then 0 else 1)
    else h ≤ maxHops ∧ seed_distance t p h.

Lemma upsert_other run now keys m p : (p ∉ keys) → foldl (upsert_large run now) m keys !! p = m !! p.
Proof.
  revert m. induction keys as [|k keys IH]; intros m Hp; [done|]. cbn [foldl]. rewrite IH by set_solver. unfold upsert_large.
  destruct (m !! k) as [row|]; [destruct (1 <? sn_hops row); [|done]|]; rewrite lookup_insert_ne; set_solver.
Qed.

Lemma upsert_hops run now keys m p :
  NoDup keys → p ∈ keys →
  sn_hops <$> foldl (upsert_large run now) m keys !! p = Some (match m !! p with Some row => Z.min 1 (sn_hops row) | None => 1 end).
Proof.
  revert m. induction keys as [|k keys IH]; intros m Hnd Hp; [set_solver|]. cbn [foldl]. inversion Hnd as [|? ? Hk Hnd']; subst.
  destruct (decide (p = k)) as [->|Hne].
  - rewrite upsert_other by done. unfold upsert_large. destruct (m !! k) as [row|] eqn:E; [|by rewrite lookup_insert_eq].
    destruct (Z.ltb_spec 1 (sn_hops row)); [rewrite lookup_insert_eq; cbn; f_equal; lia|rewrite E; cbn; f_equal; lia].
  - rewrite IH by set_solver. unfold upsert_large. destruct (m !! k) as [row|]; [destruct (1 <? sn_hops row); [|done]|]; by rewrite lookup_insert_ne.
Qed.

Lemma seed_distance_zero t p : seed_distance t p 0 ↔ p ∈ active_seeds t.
Proof.
  split.
  - intros [(s & Hs & Hw) _]. by apply walk_inv in Hw as [[_ ->]|(b & Hb%walk_nonneg & _)]; [|lia].
  - intros Hp. split; [exists p; split; [done|constructor]|]. intros k Hk. by eapply seed_walk_nonneg.
Qed.

Lemma seed_distance_nonneg t p h : seed_distance t p h → 0 ≤ h.
Proof. intros [Hw _]. by eapply seed_walk_nonneg. Qed.

Lemma seed_distance_unique t p h h' : seed_distance t p h → seed_distance t p h' → h = h'.
Proof. intros [Hw Hm] [Hw' Hm']. pose proof (Hm _ Hw'). pose proof (Hm' _ Hw). lia. Qed.

Lemma large_hops maxHops run now t p :
  0 ≤ maxHops →
  (match snapshot_rows maxHops run now t !! p with Some row => Z.min 1 (sn_hops row) | None => 1 end)
  = if decide (p ∈ active_seeds t) then 0 else 1.
Proof.
  intros Hh. destruct (snapshot_rows maxHops run now t !! p) as [row|] eqn:E.
  - apply snapshot_rows_lookup in E as (h & -> & _ & Hd); [|done]. cbn [sn_hops]. destruct (decide (p ∈ active_seeds t)) as [Hs|Hs].
    + apply seed_distance_zero in Hs. by rewrite (seed_distance_unique _ _ _ _ Hd Hs).
    + assert (h ≠ 0) by (intros ->; by apply Hs, seed_distance_zero). apply seed_distance_nonneg in Hd. lia.
  - destruct (decide (p ∈ active_seeds t)) as [Hs|]; [exfalso|done]. apply seed_distance_zero in Hs.
    assert (snapshot_rows maxHops run now t !! p = Some (mkSnapshot 0 (bool_decide (p ∈ active_seeds t)) run now)) as E'.
    { apply snapshot_rows_lookup; [done|]. by exists 0. }
    by rewrite E in E'.
Qed.

Lemma merged_publishes maxHops run now t u n :
  0 ≤ maxHops → trust_graph_snapshot u = snapshot_rows maxHops run now t → large_accounts u = large_accounts t →
  merge_large run now u = Ok n → publishes maxHops t (trust_graph_snapshot n.1).
Proof.
  intros Hh Hu Hl. unfold merge_large. rewrite Hl, Hu. case_bool_decide as Hnd; [|done]. intros [= <-] p h. cbn [fst set_snapshot trust_graph_snapshot].
  destruct (decide (p ∈ large_accounts t)) as [Hin|Hout].
  - rewrite upsert_hops, large_hops by done. split; [by intros [= <-]|by intros ->].
  - rewrite upsert_other by done. rewrite fmap_Some. setoid_rewrite (snapshot_rows_lookup maxHops run now t p _ Hh). split.
    + by intros (row & (h' & -> & ? & ?) & ->).
    + intros [? ?]. eexists. split; [by exists h|done].
Qed.

(** The derived table is the full outer join of the hop table and the scores:
    a pubkey has a row exactly if one of the two has, and every column but the
    row's own clock is the joined one. The run is the snapshot's before the
    scores', the time the scores' before the snapshot's. *)
Definition synced (t : GraphTables) : Prop :=
  ∀ p, (is_Some (trust_pubkeys_latest t !! p) ↔ is_Some (trust_graph_snapshot t !! p) ∨ is_Some (trust_scores_global t !! p)) ∧
       (trust_pubkeys_latest t !! p ≫= lt_hops) = sn_hops <$> trust_graph_snapshot t !! p ∧
       (trust_pubkeys_latest t !! p ≫= lt_score) = sc_score <$> trust_scores_global t !! p ∧
       (trust_pubkeys_latest t !! p ≫= lt_rank) = sc_rank <$> trust_scores_global t !! p ∧
       (match trust_pubkeys_latest t !! p with Some r => lt_seed r | None => false end)
       = (match trust_graph_snapshot t !! p with Some r => sn_seed r | None => false end) ∧
       (trust_pubkeys_latest t !! p ≫= lt_run)
       = (match trust_graph_snapshot t !! p ≫= sn_run with Some r => Some r | None => sc_run <$> trust_scores_global t !! p end) ∧
       (trust_pubkeys_latest t !! p ≫= lt_computed)
       = (match trust_scores_global t !! p with Some r => Some (sc_computed r) | None => sn_refreshed <$> trust_graph_snapshot t !! p end).

Lemma latest_synced now t : synced (set_latest (latest_rows now t) t).
Proof.
  intros p. cbn [set_latest trust_pubkeys_latest trust_graph_snapshot trust_scores_global]. unfold latest_rows. rewrite lookup_merge.
  destruct (trust_graph_snapshot t !! p) as [sn|], (trust_scores_global t !! p) as [sc|]; cbn; split_and!; try done; rewrite ?is_Some_alt; try tauto.
  by destruct (sn_run sn).
Qed.

(** The tables that trust states are read from are as in [t]. *)
Definition same_states (t u : GraphTables) : Prop :=
  trust_graph_snapshot u = trust_graph_snapshot t ∧ trust_pubkeys_latest u = trust_pubkeys_latest t ∧ trust_scores_global u = trust_scores_global t.

Lemma same_synced t u : same_states t u → synced t → synced u.
Proof. intros (Hs & Hl & Hg) Ht p. rewrite Hs, Hl, Hg. apply Ht. Qed.

Lemma latest_tx_ok now s s' u :
  RefreshTrustPubkeysLatestTx now s = (s', Ok u) → tables s' = set_latest (latest_rows now (tables s)) (tables s).
Proof.
  unfold RefreshTrustPubkeysLatestTx. intros E. go_inv. 
  match goal with E1 : tables ?a = id (tables s), E2 : tables ?b = set_latest ∅ (tables ?a), E3 : tables s' = _ |- _ => rewrite E3, E2, E1 end. done.
Qed.

Lemma timeout_ok s s' u : setTrustHeavyStatementTimeout s = (s', Ok u) → tables s' = tables s.
Proof. unfold setTrustHeavyStatementTimeout. intros E. go_inv. unfold id in *. congruence. Qed.

Lemma snapshot_tx_ok maxHops now s s' r :
  0 ≤ maxHops → refresh_snapshot_tx maxHops now s = (s', Ok r) →
  publishes maxHops (tables s) (trust_graph_snapshot (tables s')) ∧ synced (tables s').
Proof.
  intros Hh. unfold refresh_snapshot_tx. intros E. apply bind_ok in E as (s1 & u1 & E1%timeout_ok & E).
  apply bind_ok in E as (s2 & run & (E2 & _)%wrap_ok%query_ok & E).
  apply bind_ok in E as (s3 & u3 & E3%wrap_ok%exec_ok & E). apply bind_ok in E as (s4 & rows & E4%wrap_ok%stmt_ok & E).
  apply bind_ok in E as (s5 & large & E5%wrap_ok%stmt_ok & E). apply bind_ok in E as (s6 & u6 & E6%latest_tx_ok & E).
  injection E as <- _. rewrite E6. split; [|apply latest_synced]. cbn [set_latest trust_graph_snapshot].
  cbv zeta in E4. injection E4 as E4 _.
  assert (tables s3 = set_snapshot ∅ (tables s)) as E3' by congruence.
  refine (merged_publishes maxHops run now (tables s) (tables s4) _ Hh _ _ E5); rewrite <-E4, E3'; done.
Qed.

Lemma bind_cases {S A B} (m : go S A) (k : A → go S B) s :
  match m s with
  | (s1, Ok a) => go_bind m k s = k a s1
  | (s1, Err e) => go_bind m k s = (s1, Err e)
  end.
Proof. unfold go_bind. by destruct (m s) as [s1 [a|e]]. Qed.

Ltac frame_step := keeps_step; try (apply keeps_exec; intros ? (? & ? & ?); by split_and!).

Lemma recount_once_frame t p : keeps (same_states t) (recountTrustedFollowerCountsOnce p).
Proof. unfold recountTrustedFollowerCountsOnce, setTrustHeavyStatementTimeout. frame_step. Qed.

(** A property that one attempt keeps is kept by the three of them. *)
Lemma recount_keeps `{DeadlockCode} (P : GraphTables → Prop) cancelled p :
  (∀ p, keeps P (recountTrustedFollowerCountsOnce p)) → keeps P (RecountTrustedFollowerCounts cancelled p).
Proof.
  intros Hk s Hs. unfold RecountTrustedFollowerCounts. set (q := normalized_policy p).
  pose proof (Hk q s Hs) as H1. destruct (recountTrustedFollowerCountsOnce q s) as [s1 [u|e]]; cbn -[isDeadlock] in *; [done|].
  destruct (negb (isDeadlock e)); [done|]. destruct (cancelled 1); [done|].
  pose proof (Hk q s1 H1) as H2. destruct (recountTrustedFollowerCountsOnce q s1) as [s2 [u|e2]]; cbn -[isDeadlock] in *; [done|].
  destruct (negb (isDeadlock e2)); [done|]. destruct (cancelled 2); [done|]. by apply Hk.
Qed.

Lemma note_refresh_frame t now v : keeps (same_states t) (refreshTrustedNoteDiscoveryProjectionTx now v).
Proof. unfold refreshTrustedNoteDiscoveryProjectionTx. frame_step. Qed.

Lemma profile_refresh_frame t now v : keeps (same_states t) (refreshTrustedProfileDiscoveryProjectionTx now v).
Proof. unfold refreshTrustedProfileDiscoveryProjectionTx. frame_step. Qed.

Lemma run_refresh_frame t name refresh : (∀ v, keeps (same_states t) (refresh v)) → keeps (same_states t) (runProjectionRefresh name refresh).
Proof. intros Hr. unfold runProjectionRefresh, setTrustHeavyStatementTimeout. frame_step. apply Hr. Qed.

Section refresh.
Context `{DeadlockCode}.

(** What follows the publishing transaction. *)
Lemma refresh_cases cancelled w maxHops n1 n2 n3 s :
  let maxHops := if maxHops <=? 0 then 3 else maxHops in
  let t' := tables (RefreshTrustGraphSnapshot cancelled w maxHops n1 n2 n3 s).1 in
  (t' = tables s ∧ is_ok (RefreshTrustGraphSnapshot cancelled w maxHops n1 n2 n3 s).2 = false) ∨
  ∃ u, publishes maxHops (tables s) (trust_graph_snapshot u) ∧ synced u ∧ same_states u t'.
Proof.
  cbv zeta. set (h := if maxHops <=? 0 then 3 else maxHops). unfold RefreshTrustGraphSnapshot.
  assert ((if h <=? 0 then 3 else h) = h ∧ 0 ≤ h) as [-> Hh].
  { unfold h. destruct (Z.leb_spec maxHops 0); [split; [done|lia]|]. split; [|lia]. by destruct (Z.leb_spec maxHops 0); [lia|]. }
  clearbody h. cbv zeta.
  match goal with |- context [go_bind ?m ?k s] => set (rest := k); pose proof (bind_cases m rest s) as Hb end.
  destruct (tx_cases "begin trust graph snapshot refresh" "commit trust graph snapshot refresh" (refresh_snapshot_tx h n1) s) as [[Ht Hr]|(s1 & r & Hs1 & Hr & Ho & Ht)];
    destruct (tx _ _ _ s) as [s2 [r2|e]]; cbn [fst snd] in *; try done; rewrite Hb; [by left|]. right. exists (tables s2).
  injection Ho as ->. destruct (refresh_snapshot_tx h n1 s1) as [s3 r3] eqn:E. cbn [fst snd] in *. subst r3.
  destruct (snapshot_tx_ok h n1 s1 s3 r Hh E) as [Hp Hy]. rewrite Hs1, <-Ht in Hp. rewrite <-Ht in Hy.
  split_and!; [done..|].
  assert (keeps (same_states (tables s2)) (rest r)) as Hk; [|by apply Hk].
  unfold rest. keeps_step; [by apply recount_keeps, recount_once_frame|apply run_refresh_frame..].
  - intros v. apply note_refresh_frame.
  - intros v. apply profile_refresh_frame.
Qed.

(** C9: whatever call fails, a snapshot refresh publishes all or nothing: after
    an error either no table has changed, or the new hop table is live. In
    both cases the published hop of a pubkey is a whole snapshot's. On success
    the table holds, for every pubkey within [maxHops] follows of an active
    seed and no other, the length of the shortest chain of follows, except
    that large accounts are at most one hop away. Whenever the new hop table
    is live, so is the derived table that goes with it: [trust_pubkeys_latest]
    is the join of that hop table and the scores, whatever it held before. *)
Theorem snapshot_refresh_publishes cancelled w maxHops n1 n2 n3 s (Hh : 0 < maxHops) :
  let '(s', r) := RefreshTrustGraphSnapshot cancelled w maxHops n1 n2 n3 s in
  match r with
  | Ok _ => publishes maxHops (tables s) (trust_graph_snapshot (tables s')) ∧ synced (tables s')
  | Err _ => tables s' = tables s ∨ publishes maxHops (tables s) (trust_graph_snapshot (tables s')) ∧ synced (tables s')
  end.
Proof.
  pose proof (refresh_cases cancelled w maxHops n1 n2 n3 s) as Hc. cbv zeta in Hc.
  replace (maxHops <=? 0) with false in Hc by lia.
  destruct (RefreshTrustGraphSnapshot _ _ _ _ _ _ s) as [s' r]; cbn [fst snd] in Hc.
  destruct Hc as [[? ?]|(u & Hp & Hu & Hsame)]; [by destruct r; [|left]|].
  assert (synced (tables s')) by (by apply (same_synced u)). destruct Hsame as (-> & _). by destruct r; [|right].
Qed.

(** C24: trust states never drift from the tables they denormalise: if
    [trust_pubkeys_latest] is the join of the hop table and the scores, in
    its rows and in every column (hop, seed, score, rank, source run and time
    of computation; the clock of the rebuild aside), then it is after any
    snapshot refresh, any rebuild and any recount of trusted followers, the
    one that ends a refresh or one on its own, whichever of their calls
    fail. *)
Theorem states_stay_synced cancelled w maxHops n1 n2 n3 now p :
  keeps synced (RefreshTrustGraphSnapshot cancelled w maxHops n1 n2 n3) ∧ keeps synced (RefreshTrustPubkeysLatest now)
  ∧ keeps synced (RecountTrustedFollowerCounts cancelled p).
Proof.
  split_and!.
  - intros s Hs. assert (∃ h, RefreshTrustGraphSnapshot cancelled w maxHops n1 n2 n3 = RefreshTrustGraphSnapshot cancelled w (if h <=? 0 then 3 else h) n1 n2 n3) as [h ->].
    { exists maxHops. unfold RefreshTrustGraphSnapshot. by destruct (Z.leb_spec maxHops 0) as [|Hlt]; [|destruct (Z.leb_spec maxHops 0); [lia|]]. }
    destruct (refresh_cases cancelled w h n1 n2 n3 s) as [[-> _]|(u & _ & Hu & Hsame)]; [done|by apply (same_synced u)].
  - intros s Hs. unfold RefreshTrustPubkeysLatest.
    destruct (tx_cases "begin trust_pubkeys_latest refresh" "commit trust_pubkeys_latest refresh"
      (setTrustHeavyStatementTimeout ;; RefreshTrustPubkeysLatestTx now) s) as [[-> _]|(s1 & a & Hs1 & Hr & _ & ->)]; [done|].
    destruct (go_bind _ _ s1) as [s2 r] eqn:E. cbn [fst snd] in *. subst r.
    apply bind_ok in E as (s3 & u & _ & E%latest_tx_ok). rewrite E. apply latest_synced.
  - intros s Hs. apply (same_synced (tables s)); [|done]. by apply (recount_keeps _ _ _ (recount_once_frame (tables s))).
Qed.
End refresh.

(** * The recount *)

Lemma count_edges_none l (m : gmap string Z) p :
  (∀ e : string * string, e ∈ l → e.2 ≠ p) → foldl count_edge m l !! p = m !! p.
Proof.
  revert m. induction l as [|e l IH]; intros m Hl; [done|]. cbn [foldl]. rewrite IH by set_solver.
  unfold count_edge. rewrite lookup_insert_ne; [done|]. apply Hl. set_solver.
Qed.

Lemma count_edges_sum l (m : gmap string Z) p :
  default 0 (foldl count_edge m l !! p) = default 0 (m !! p) + Z.of_nat (length (filter (λ e : string * string, e.2 = p) l)).
Proof.
  revert m. induction l as [|e l IH]; intros m; cbn [foldl]; [cbn; lia|]. rewrite IH, filter_cons. unfold count_edge.
  destruct (decide (e.2 = p)) as [<-|Hne]; [rewrite lookup_insert_eq; cbn [default length]; unfold default, id; lia|].
  rewrite lookup_insert_ne by done. lia.
Qed.

(** The trusted followers of a pubkey. *)
Definition trusted_followers (p : TrustedFollowerPolicy) (t : GraphTables) (q : string) : gset string :=
  set_map fst (filter (λ e : string * string, e.2 = q ∧ e.1 ≠ e.2 ∧ counted p (trust_pubkeys_latest t) e.1 = true) (follower_edges t)).

Lemma counted_lookup p t q :
  trusted_follower_counted p t !! q =
    if decide (trusted_followers p t q = ∅) then None else Some (Z.of_nat (size (trusted_followers p t q))).
Proof.
  unfold trusted_follower_counted. set (E := filter _ (follower_edges t)).
  assert (size (trusted_followers p t q) = length (filter (λ e : string * string, e.2 = q) (elements E))) as Hsize.
  { transitivity (size (list_to_set (map fst (filter (λ e : string * string, e.2 = q) (elements E))) : gset string)).
    - f_equal. apply leibniz_equiv. intros x. unfold trusted_followers. rewrite elem_of_map, elem_of_list_to_set.
      change (map ?f ?l) with (f <$> l). rewrite list_elem_of_fmap. unfold E.
      split; intros (e & -> & He); exists e; (split; [done|]); rewrite ?list_elem_of_filter, ?elem_of_elements, !elem_of_filter in *; tauto.
    - rewrite size_list_to_set, length_map; [done|]. change (map ?f ?l) with (f <$> l). apply NoDup_fmap_2_strong.
      + intros [a b] [c d] [Hb _]%list_elem_of_filter [Hd _]%list_elem_of_filter. cbn. intros ->. cbn in *. congruence.
      + apply list.NoDup_filter, NoDup_elements. }
  pose proof (count_edges_sum (elements E) ∅ q) as Hsum. rewrite lookup_empty in Hsum.
  destruct (decide (trusted_followers p t q = ∅)) as [He|Hne].
  - rewrite count_edges_none; [apply lookup_empty|]. intros e Hin Hq.
    rewrite He, size_empty in Hsize. symmetry in Hsize. apply nil_length_inv in Hsize.
    assert (e ∈ filter (λ e : string * string, e.2 = q) (elements E)) as Hf by (by apply list_elem_of_filter).
    rewrite Hsize in Hf. set_solver.
  - destruct (foldl count_edge ∅ (elements E) !! q) as [n|]; cbn [default id] in Hsum; [f_equal; unfold default, id in Hsum; lia|].
    exfalso. apply Hne, leibniz_equiv, size_empty_inv. unfold default, id in Hsum. lia.
Qed.

Definition trusted_of (t : GraphTables) (q : string) : Z := default 0 (ps_trusted <$> profile_public_stats t !! q).

Lemma recounted_lookup version counts stats q :
  (ps_trusted <$> upsert_counts version counts (clear_absent counts stats) !! q)
  = match counts !! q, stats !! q with
    | Some n, _ => Some n
    | None, Some _ => Some 0
    | None, None => None
    end.
Proof.
  unfold upsert_counts, clear_absent. rewrite lookup_merge, map_lookup_imap.
  destruct (counts !! q) as [n|], (stats !! q) as [r|]; cbn; try done.
  destruct (Z.eqb_spec (ps_trusted r) 0) as [E|]; cbn; [by rewrite E|done].
Qed.

Lemma recount_once_ok p s s' u :
  recountTrustedFollowerCountsOnce p s = (s', Ok u) →
  let counts := trusted_follower_counted p (tables s) in
  tables s' = set_stats (upsert_counts (default 1 (active_stats_version (tables s))) counts (clear_absent counts (profile_public_stats (tables s)))) (tables s).
Proof.
  unfold recountTrustedFollowerCountsOnce. intros E. apply tx_ok in E as (s1 & s2 & H1 & E & ->).
  apply bind_ok in E as (s3 & u1 & E1%timeout_ok & E). apply bind_ok in E as (s4 & u2 & E2%wrap_ok%exec_ok & E).
  apply bind_ok in E as (s5 & counts & (E3 & ->)%wrap_ok%query_ok & E). apply bind_ok in E as (s6 & u3 & E4%wrap_ok%exec_ok & E5%wrap_ok%exec_ok).
  unfold id in E2. rewrite E5, E4, E3, E2, E1, H1. done.
Qed.

Lemma recount_ok `{DeadlockCode} cancelled p s s' :
  RecountTrustedFollowerCounts cancelled p s = (s', Ok tt) →
  ∃ s1, tables s1 = tables s ∧ recountTrustedFollowerCountsOnce (normalized_policy p) s1 = (s', Ok tt).
Proof.
  unfold RecountTrustedFollowerCounts. set (q := normalized_policy p). intros E.
  assert (∀ s s1 e, recountTrustedFollowerCountsOnce q s = (s1, Err e) → tables s1 = tables s) as Ha.
  { intros s0 s1 e. unfold recountTrustedFollowerCountsOnce. apply tx_atomic. }
  destruct (recountTrustedFollowerCountsOnce q s) as [s1 [[]|e]] eqn:E1; cbv beta iota in E.
  { exists s. by simplify_eq. }
  apply Ha in E1. destruct (negb (isDeadlock e)); [done|]. destruct (cancelled 1); [done|].
  destruct (recountTrustedFollowerCountsOnce q s1) as [s2 [[]|e2]] eqn:E2; cbv beta iota in E.
  { exists s1. by simplify_eq. }
  apply Ha in E2. destruct (negb (isDeadlock e2)); [done|]. destruct (cancelled 2); [done|].
  exists s2. split; [congruence|done].
Qed.

(** C13: after a recount that succeeds, at whichever of its three attempts,
    every pubkey's trusted follower count is the number of its followers other
    than itself that are in the trusted audience of the published graph; no
    other table and no other counter of an existing row has changed. *)
Theorem recount_is_exact `{DeadlockCode} cancelled p s s' (E : RecountTrustedFollowerCounts cancelled p s = (s', Ok tt)) :
  (∀ q, trusted_of (tables s') q = Z.of_nat (size (trusted_followers (normalized_policy p) (tables s) q))) ∧
  (∀ q r, profile_public_stats (tables s) !! q = Some r → profile_public_stats (tables s') !! q = Some (with_trusted (trusted_of (tables s') q) r)) ∧
  set_stats ∅ (tables s') = set_stats ∅ (tables s).
Proof.
  apply recount_ok in E as (s1 & H1 & E). apply recount_once_ok in E. cbv zeta in E. rewrite H1 in E. rewrite E. clear E H1.
  set (counts := trusted_follower_counted (normalized_policy p) (tables s)).
  assert (∀ q, trusted_of (set_stats (upsert_counts (default 1 (active_stats_version (tables s))) counts (clear_absent counts (profile_public_stats (tables s)))) (tables s)) q
    = Z.of_nat (size (trusted_followers (normalized_policy p) (tables s) q))) as Hq.
  { intros q. unfold trusted_of. cbn [set_stats profile_public_stats]. rewrite recounted_lookup. unfold counts. rewrite counted_lookup.
    destruct (decide _) as [He|He]; [rewrite He, size_empty|done]. by destruct (profile_public_stats (tables s) !! q). }
  split_and!; [done| |done]. intros q r Hr. rewrite Hq. cbn [set_stats profile_public_stats]. unfold upsert_counts, clear_absent.
  rewrite lookup_merge, map_lookup_imap, Hr. unfold counts. rewrite counted_lookup.
  destruct (decide _) as [He|He]; cbn; [|by destruct (Z.eqb_spec (ps_trusted r) 0)].
  rewrite He, size_empty. destruct (Z.eqb_spec (ps_trusted r) 0) as [Hz|]; cbn; [|done]. destruct r; cbn in *. by subst.
Qed.

(** * The projections are rebuilds *)

Lemma pg_compare_refl a : pg_compare a a = Eq.
Proof.
  destruct a as [[]|[]| |[] m e]; try done; unfold pg_compare; simpl; rewrite Z.compare_refl;
    change (Pos.compare_cont Eq m m) with (Pos.compare m m); by rewrite Pos.compare_refl.
Qed.

Lemma stale_refl c : stale c c = false.
Proof.
  unfold stale, score_distinct. rewrite !bool_decide_true by done. destruct (cd_score c) as [x|]; [|done]. by rewrite pg_compare_refl, bool_decide_true.
Qed.

(** The candidates are those of the sources, with the hops, the score and the
    run of the author's trust state. *)
Definition projected (sources : gmap string string) (latest : gmap string LatestRow) (version : Z) (cs : gmap string Candidate) : Prop :=
  (∀ k, is_Some (cs !! k) ↔ is_Some (sources !! k)) ∧
  (∀ k author c, sources !! k = Some author → cs !! k = Some c → ∀ refreshed now,
    stale c (candidate_for author (latest !! author) refreshed version now) = false).

Lemma refresh_projects sources latest refreshed version now old :
  projected sources latest version (refresh_candidates sources latest refreshed version now old).
Proof.
  unfold refresh_candidates. split.
  - intros k. rewrite map_lookup_imap. destruct (sources !! k) as [a|]; cbn; [|done]. split; by eexists.
  - intros k a c Hk. rewrite map_lookup_imap, Hk. cbn. intros [= <-] r n. destruct (old !! k) as [c|]; [|apply (stale_refl (candidate_for a (latest !! a) r version n))].
    destruct (stale c _) eqn:E; [apply (stale_refl (candidate_for a (latest !! a) r version n))|exact E].
Qed.

Lemma note_refresh_ok now v s s' u :
  refreshTrustedNoteDiscoveryProjectionTx now v s = (s', Ok u) →
  note_discovery_authors (tables s') = note_discovery_authors (tables s) ∧ trust_pubkeys_latest (tables s') = trust_pubkeys_latest (tables s) ∧
  projected (note_discovery_authors (tables s)) (trust_pubkeys_latest (tables s)) v (note_candidates (tables s')).
Proof.
  unfold refreshTrustedNoteDiscoveryProjectionTx. intros E. apply bind_ok in E as (s1 & r & (E1 & _)%wrap_ok%query_ok & E).
  apply bind_ok in E as (s2 & u2 & E2%wrap_ok%exec_ok & E). apply bind_ok in E as (s3 & u3 & E3%wrap_ok%exec_ok & E4%wrap_ok%exec_ok).
  rewrite E4, E3, E2, E1. split_and!; [done..|]. apply refresh_projects.
Qed.

Lemma profile_refresh_ok now v s s' u :
  refreshTrustedProfileDiscoveryProjectionTx now v s = (s', Ok u) →
  projected (profile_sources (tables s)) (trust_pubkeys_latest (tables s)) v (profile_candidates (tables s')) ∧
  note_candidates (tables s') = note_candidates (tables s) ∧ note_discovery_authors (tables s') = note_discovery_authors (tables s) ∧
  trust_pubkeys_latest (tables s') = trust_pubkeys_latest (tables s) ∧ discovery_profiles (tables s') = discovery_profiles (tables s).
Proof.
  unfold refreshTrustedProfileDiscoveryProjectionTx. intros E. apply bind_ok in E as (s1 & r & (E1 & _)%wrap_ok%query_ok & E).
  apply bind_ok in E as (s2 & u2 & E2%wrap_ok%exec_ok & E). apply bind_ok in E as (s3 & u3 & E3%wrap_ok%exec_ok & E4%wrap_ok%exec_ok).
  rewrite E4, E3, E2, E1. split_and!; [|done..]. apply refresh_projects.
Qed.

Lemma run_refresh_ok name refresh s s' u :
  runProjectionRefresh name refresh s = (s', Ok u) → ∃ s1 s2, tables s1 = tables s ∧ refresh 1 s1 = (s2, Ok u) ∧ tables s' = tables s2.
Proof.
  unfold runProjectionRefresh. intros E. apply tx_ok in E as (s1 & s2 & H1 & E & ->).
  apply bind_ok in E as (s3 & u3 & E3%timeout_ok & E). exists s3, s2. split_and!; [congruence|done..].
Qed.

(** after a refresh that succeeds the incremental upserts of the discovery
    projections have the effect of a rebuild: both projections hold exactly
    the notes and profiles that discovery ranks, each with the hops, score and
    run of its author's published trust state. *)
Theorem projections_rebuilt `{DeadlockCode} cancelled w maxHops n1 n2 n3 s s' r
    (E : RefreshTrustGraphSnapshot cancelled w maxHops n1 n2 n3 s = (s', Ok r)) :
  let t := tables s' in
  projected (note_discovery_authors t) (trust_pubkeys_latest t) 1 (note_candidates t) ∧
  projected (profile_sources t) (trust_pubkeys_latest t) 1 (profile_candidates t).
Proof.
  unfold RefreshTrustGraphSnapshot in E. cbv zeta in *. apply bind_ok in E as (s1 & r1 & _ & E). apply bind_ok in E as (s2 & u2 & _ & E).
  apply bind_ok in E as (s3 & u3 & (s4 & s5 & _ & (Ha & Hl & Hn)%note_refresh_ok & H5)%run_refresh_ok & E).
  apply bind_ok in E as (s6 & u6 & (s7 & s8 & H7 & (Hp & Hn' & Ha' & Hl' & Hd')%profile_refresh_ok & H8)%run_refresh_ok & E). injection E as <- _.
  rewrite H8. unfold profile_sources in *. rewrite Hn', Ha', Hl', Hd', H7, H5, Ha, Hl. rewrite H7, H5, Hl in Hp. done.
Qed.

(** * Two readings of the qualification policy *)

Definition query_view (s : TrustState) : SearchPage.TrustState := SearchPage.mkTrust (ts_score s) (ts_qualified s) (ts_hops s).

Definition query_policy (p : QualificationPolicy) : SearchPage.TrustQualificationPolicy := SearchPage.mkPolicy (qp_hops p) (qp_score p).

(** the store's qualification and the query layer's agree on every
    published state that is not a seed's, whatever the policy. *)
Theorem qualifications_agree latest pubkey p (Hseed : ts_seed (state_of latest pubkey) = false) :
  tq_trusted (trustQualificationFromState (state_of latest pubkey) p)
  = SearchPage.trustStateTrusted (query_view (state_of latest pubkey)) (SearchPage.normalizeTrustPolicy (query_policy p)).
Proof.
  unfold trustQualificationFromState, trustStateTrusted, SearchPage.trustStateTrusted. cbn [tq_trusted]. rewrite Hseed.
  assert (trustStateQualified (state_of latest pubkey) = SearchPage.Qualified (query_view (state_of latest pubkey))) as -> by done. done.
Qed.

(** a seed without a score is trusted by the store and not by the query
    layer, once a policy asks for a minimum score. *)
Theorem scoreless_seed_disagrees :
  let s := state_of {["seed" := mkLatest (Some 0) true None None None None 0]} "seed" in
  let p := mkQPolicy 2 (f64_ratio 1 1000) in
  tq_trusted (trustQualificationFromState s p) = true ∧
  SearchPage.trustStateTrusted (query_view s) (SearchPage.normalizeTrustPolicy (query_policy p)) = false.
Proof. vm_compute. done. Qed.

(** * Seeds *)

Section reconcile.
Context `{UnicodeTables}.

Lemma activate_lookup rows (m : gmap string bool) p :
  foldl (λ m p, <[p := true]> m) m rows !! p = if decide (p ∈ rows) then Some true else m !! p.
Proof.
  revert m. induction rows as [|q rows IH]; intros m; [done|]. cbn [foldl]. rewrite IH.
  destruct (decide (p ∈ rows)); [by rewrite decide_True by set_solver|]. destruct (decide (p = q)) as [->|Hne].
  - rewrite lookup_insert_eq, decide_True; [done|set_solver].
  - rewrite lookup_insert_ne by done. by rewrite decide_False by set_solver.
Qed.

Lemma upsert_seeds_ok pubkeys s s' n :
  UpsertActiveSeeds pubkeys s = (s', Ok n) →
  ∀ p, trust_seeds (tables s') !! p = if decide (p ∈ normalizeSeedPubkeys pubkeys) then Some true else trust_seeds (tables s) !! p.
Proof.
  unfold UpsertActiveSeeds. intros E p. destruct (normalizeSeedPubkeys pubkeys) as [|q l] eqn:En; [by injection E as <- _|].
  rewrite <-En in *. clear En. apply wrap_ok, stmt_ok in E. cbv zeta in E. injection E as E _. rewrite <-E. cbn [set_seeds trust_seeds].
  rewrite activate_lookup. set (N := normalizeSeedPubkeys pubkeys).
  assert (p ∈ List.filter (inactive (trust_seeds (tables s))) N ↔ p ∈ N ∧ trust_seeds (tables s) !! p ≠ Some true) as Hin.
  { rewrite !list_elem_of_In, filter_In. unfold inactive. case_bool_decide; naive_solver. }
  repeat destruct (decide _); try tauto. destruct (decide (trust_seeds (tables s) !! p = Some true)); tauto.
Qed.

Lemma deactivate_ok keep s s' n :
  DeactivateMissingSeeds keep s = (s', Ok n) →
  ∀ p, trust_seeds (tables s') !! p =
    if decide (p ∈ normalizeSeedPubkeys keep) then trust_seeds (tables s) !! p else (λ _, false) <$> trust_seeds (tables s) !! p.
Proof.
  unfold DeactivateMissingSeeds. intros E p. apply wrap_ok, stmt_ok in E. cbv zeta in E. injection E as E _. rewrite <-E. cbn [set_seeds trust_seeds].
  rewrite lookup_union, lookup_fmap, map_lookup_filter. destruct (trust_seeds (tables s) !! p) as [b|] eqn:Eb; [|cbn; by destruct (decide _)].
  cbn [mbind option_bind]. destruct (decide (p ∈ normalizeSeedPubkeys keep)).
  - rewrite option_guard_False by (cbn; tauto). done.
  - destruct b; [rewrite option_guard_True by done|rewrite option_guard_False by (cbn; naive_solver)]; done.
Qed.

(** reconciling the seeds, an upsert and then a deactivation with the
    configured list, leaves exactly the configured pubkeys active, trimmed and
    in lower case, whatever the table held. *)
Theorem seeds_reconciled pubkeys s s1 s2 n1 n2
    (Eup : UpsertActiveSeeds pubkeys s = (s1, Ok n1)) (Edown : DeactivateMissingSeeds pubkeys s1 = (s2, Ok n2)) :
  active_seeds (tables s2) = list_to_set (normalizeSeedPubkeys pubkeys).
Proof.
  apply leibniz_equiv. intros p. unfold active_seeds. rewrite elem_of_dom, elem_of_list_to_set.
  pose proof (upsert_seeds_ok _ _ _ _ Eup p) as Hup. pose proof (deactivate_ok _ _ _ _ Edown p) as Hdown.
  split.
  - intros [b [Hb Ht]%map_lookup_filter_Some]. cbn in Ht. subst b. rewrite Hb in Hdown. destruct (decide _); [done|].
    destruct (trust_seeds (tables s1) !! p); done.
  - intros Hp. exists true. apply map_lookup_filter_Some. split; [|done]. rewrite decide_True in Hup, Hdown by done. congruence.
Qed.
End reconcile.

(** * A concrete graph *)

Section concrete.
#[local] Existing Instance ascii_tables.
#[local] Instance no_deadlock : DeadlockCode := λ _, false.

(** Seed [s] follows [a], [a] follows [b], [b] follows [c]; [big] is a large
    account outside the hops. *)
Definition toy_graph : GraphTables :=
  mkGraph {["s" := true; "old" := false]} {[("s", "a"); ("a", "b"); ("b", "c"); ("a", "a"); ("c", "big")]} ∅
    {["a" := mkScore (f64_ratio 1 2) 1 7 "trust_scores_global" 3 0]} ∅ ∅
    {["big" := mkPublic 5000 1 0 0 2000 1; "c" := mkPublic 1 1 0 0 9 1]} None {["n1" := "a"; "n2" := "zz"]} {["a"; "c"]} ∅ ∅ ∅.

Definition toy_db : db GraphTables := mkDb toy_graph [].

Abbreviation toy_refresh := (RefreshTrustGraphSnapshot (λ _, None) (f64_of_Z 0) 2 10 11 12) (only parsing).

Example refreshed_hops :
  sn_hops <$> trust_graph_snapshot (tables (toy_refresh toy_db).1) = {["s" := 0; "a" := 1; "b" := 2; "big" := 1]}.
Proof. vm_compute. reflexivity. Qed.

Lemma snapshot_refresh_publishes_witness :
  0 < 2 ∧ publishes 2 toy_graph (trust_graph_snapshot (tables (toy_refresh toy_db).1)) ∧ synced (tables (toy_refresh toy_db).1).
Proof.
  split; [done|]. pose proof (snapshot_refresh_publishes (λ _, None) (f64_of_Z 0) 2 10 11 12 toy_db ltac:(done)) as Hp.
  assert (is_ok (toy_refresh toy_db).2 = true) as Hok by (vm_compute; reflexivity).
  destruct (RefreshTrustGraphSnapshot (λ _, None) (f64_of_Z 0) 2 10 11 12 toy_db) as [s' [r|e]]; [exact Hp|discriminate Hok].
Defined.

Abbreviation recounted := (RecountTrustedFollowerCounts (λ _, None) (mkFollowerPolicy 2 (f64_of_Z 0)) (toy_refresh toy_db).1) (only parsing).

(** [a]'s follow of itself does not count, nor does [c]'s, which is too far. *)
Lemma recount_is_exact_witness :
  recounted = (recounted.1, Ok tt) ∧ trusted_of (tables recounted.1) "c" = 1 ∧ trusted_of (tables recounted.1) "big" = 0 ∧
  trusted_of (tables recounted.1) "b" = Z.of_nat (size (trusted_followers (mkFollowerPolicy 2 (f64_of_Z 0)) (tables (toy_refresh toy_db).1) "b")).
Proof.
  assert (recounted = (recounted.1, Ok tt)) as E by (vm_compute; reflexivity).
  split; [exact E|]. split; [vm_compute; reflexivity|]. split; [vm_compute; reflexivity|].
  apply (recount_is_exact (λ _, None) (mkFollowerPolicy 2 (f64_of_Z 0)) (toy_refresh toy_db).1 recounted.1 E).
Defined.

Lemma projections_rebuilt_witness :
  toy_refresh toy_db = ((toy_refresh toy_db).1, Ok (mkRefresh 4 None)) ∧
  cd_hops <$> note_candidates (tables (toy_refresh toy_db).1) = {["n1" := Some 1; "n2" := None]} ∧
  projected (profile_sources (tables (toy_refresh toy_db).1)) (trust_pubkeys_latest (tables (toy_refresh toy_db).1)) 1 (profile_candidates (tables (toy_refresh toy_db).1)).
Proof.
  assert (toy_refresh toy_db = ((toy_refresh toy_db).1, Ok (mkRefresh 4 None))) as E by (vm_compute; reflexivity).
  split; [exact E|]. split; [vm_compute; reflexivity|].
  pose proof (projections_rebuilt (λ _, None) (f64_of_Z 0) 2 10 11 12 toy_db (toy_refresh toy_db).1 (mkRefresh 4 None) E) as [_ Hp]. exact Hp.
Defined.

Lemma qualifications_agree_witness :
  ts_seed (state_of {["a" := mkLatest (Some 3) false None None None None 0]} "a") = false ∧
  tq_trusted (trustQualificationFromState (state_of {["a" := mkLatest (Some 3) false None None None None 0]} "a") (mkQPolicy 2 (f64_of_Z 0)))
  = SearchPage.trustStateTrusted (query_view (state_of {["a" := mkLatest (Some 3) false None None None None 0]} "a"))
      (SearchPage.normalizeTrustPolicy (query_policy (mkQPolicy 2 (f64_of_Z 0)))).
Proof.
  assert (ts_seed (state_of {["a" := mkLatest (Some 3) false None None None None 0]} "a") = false) as Hs by (vm_compute; reflexivity).
  split; [exact Hs|]. apply (qualifications_agree _ "a" (mkQPolicy 2 (f64_of_Z 0)) Hs).
Defined.

Abbreviation seeded := (UpsertActiveSeeds [" Old "; "new"; "NEW"] toy_db) (only parsing).
Abbreviation pruned := (DeactivateMissingSeeds [" Old "; "new"; "NEW"] seeded.1) (only parsing).

Lemma seeds_reconciled_witness :
  seeded = (seeded.1, Ok 2) ∧ pruned = (pruned.1, Ok 1) ∧ active_seeds (tables pruned.1) = {["old"; "new"]}.
Proof.
  assert (seeded = (seeded.1, Ok 2)) as E1 by (vm_compute; reflexivity).
  assert (pruned = (pruned.1, Ok 1)) as E2 by (vm_compute; reflexivity).
  split; [exact E1|]. split; [exact E2|]. rewrite (seeds_reconciled [" Old "; "new"; "NEW"] toy_db seeded.1 pruned.1 2 1 E1 E2).
  vm_compute. reflexivity.
Defined.
End concrete.
