(* ===== verification/Registry.v ===== *)
(** The relay registry: its rows ([internal/relayregistry/types.go]) and the
    statements of its store that admission, discovery and reconciliation use
    ([internal/relayregistry/store.go]).

    A [float64] is a binary64 number of the Standard Library's [SpecFloat]. The
    table maps the key of a relay to its row; statements may fail by the faults
    of the database. Columns that no decision reads are left out. *)

From Stdlib Require Import SpecFloat.
From S2P Require Import Prelude GoLib GoFloat Db.

Local Open Scope go_scope.

(** * Rows *)

Inductive ManualPolicy := ManualPolicyNone | ManualPolicyPinned | ManualPolicyBlocked | ManualPolicyDrained.

Inductive AdmissionState :=
  | AdmissionCandidate | AdmissionProbation | AdmissionActive | AdmissionInactive
  | AdmissionBlocked | AdmissionDraining | AdmissionPinned.

#[export] Instance ManualPolicy_eq_dec : EqDecision ManualPolicy.
Proof. solve_decision. Defined.

#[export] Instance AdmissionState_eq_dec : EqDecision AdmissionState.
Proof. solve_decision. Defined.

Record RelayRecord := mkRelay {
  NormalizedURL : string;
  SourceSeed : bool;
  SourceUserList : bool;
  SourceManual : bool;
  RManualPolicy : ManualPolicy;
  RAdmissionState : AdmissionState;
  Score : f64;
  DistinctUserRefCount : Z;
  WeightedUserRefScore : f64;
  LastProbeOK : option bool;
  LastConnectOK : option bool;
  AvgConnectLatency : option f64;
  ProbeFailRate : f64;
  YieldScore : f64;
  DuplicateRatio : f64;
  BlockedRefCount : Z;
}.

(** A row with its [url_key]. *)
Abbreviation entry := (string * RelayRecord)%type.

Record ctl_tables := mkCtl {
  relay_registry : gmap string RelayRecord;
  relay_desired_set : list (list string);
}.

Definition set_registry (reg : gmap string RelayRecord) (t : ctl_tables) : ctl_tables := mkCtl reg (relay_desired_set t).

(** * Statements *)

(** A new row has the column defaults. *)
Definition new_row (url : string) (seed userList : bool) (state : AdmissionState) (refs : Z) (weighted : f64) : RelayRecord :=
  let zero := f64_of_Z 0 in
  mkRelay url seed userList false ManualPolicyNone state zero refs weighted None None None zero zero zero 0.

Definition with_policy (seed : bool) (policy : ManualPolicy) (state : AdmissionState) (url : string) (r : RelayRecord) : RelayRecord :=
  mkRelay url seed (SourceUserList r) (SourceManual r) policy state (Score r) (DistinctUserRefCount r)
    (WeightedUserRefScore r) (LastProbeOK r) (LastConnectOK r) (AvgConnectLatency r) (ProbeFailRate r) (YieldScore r)
    (DuplicateRatio r) (BlockedRefCount r).

(** An operator pin that seeding must not touch. *)
Definition ops_pin (r : RelayRecord) : bool := SourceManual r && bool_decide (RManualPolicy r = ManualPolicyPinned).

Definition held_policy (r : RelayRecord) : bool :=
  bool_decide (RManualPolicy r = ManualPolicyBlocked) || bool_decide (RManualPolicy r = ManualPolicyDrained).

Definition seed_row (url : string) (r : RelayRecord) : RelayRecord :=
  let policy := if held_policy r || ops_pin r then RManualPolicy r else ManualPolicyNone in
  let state := if held_policy r || ops_pin r then RAdmissionState r
               else if bool_decide (RAdmissionState r = AdmissionPinned) then AdmissionActive else RAdmissionState r in
  with_policy true policy state url r.

Definition UpsertSeedRelay (urlKey url : string) : go (db ctl_tables) unit :=
  go_wrap "upsert seed relay" (exec (λ t,
    let reg := relay_registry t in
    set_registry
      (<[urlKey := match reg !! urlKey with
                   | Some r => seed_row url r
                   | None => new_row url true false AdmissionActive 0 (f64_of_Z 0)
                   end]> reg) t)).

Definition unseed_row (r : RelayRecord) : RelayRecord :=
  let policy := if ops_pin r then RManualPolicy r
                else if bool_decide (RManualPolicy r = ManualPolicyPinned) then ManualPolicyNone else RManualPolicy r in
  let state := if ops_pin r then RAdmissionState r
               else if bool_decide (RAdmissionState r = AdmissionPinned) then AdmissionInactive else RAdmissionState r in
  with_policy false policy state (NormalizedURL r) r.

Definition ClearMissingSeedRelays (keep : list string) : go (db ctl_tables) unit :=
  go_wrap "clear missing seed relays" (exec (λ t,
    set_registry
      (map_imap (λ k r, Some (if SourceSeed r && negb (bool_decide (k ∈ keep)) then unseed_row r else r)) (relay_registry t)) t)).

Definition EnsureRelayExists (urlKey url : string) : go (db ctl_tables) unit :=
  go_wrap "ensure relay exists" (exec (λ t,
    let reg := relay_registry t in
    set_registry
      (<[urlKey := match reg !! urlKey with
                   | Some r => with_policy (SourceSeed r) (RManualPolicy r) (RAdmissionState r) url r
                   | None => new_row url false false AdmissionCandidate 0 (f64_of_Z 0)
                   end]> reg) t)).

Definition ListURLKeys : go (db ctl_tables) (gset string) :=
  go_wrap "list relay registry url keys" (query (λ t, dom (relay_registry t))).

Definition UpsertDiscoveredRelay (urlKey url : string) (refs : Z) (weighted : f64) : go (db ctl_tables) unit :=
  go_wrap "upsert discovered relay" (exec (λ t,
    let reg := relay_registry t in
    set_registry
      (<[urlKey := match reg !! urlKey with
                   | Some r =>
                       mkRelay (NormalizedURL r) (SourceSeed r) true (SourceManual r) (RManualPolicy r) (RAdmissionState r)
                         (Score r) refs weighted (LastProbeOK r) (LastConnectOK r) (AvgConnectLatency r) (ProbeFailRate r)
                         (YieldScore r) (DuplicateRatio r) (BlockedRefCount r)
                   | None => new_row url false true AdmissionCandidate refs weighted
                   end]> reg) t)).

Definition manual_row (policy : ManualPolicy) (r : RelayRecord) : RelayRecord :=
  mkRelay (NormalizedURL r) (SourceSeed r) (SourceUserList r) (negb (bool_decide (policy = ManualPolicyNone))) policy
    (RAdmissionState r) (Score r) (DistinctUserRefCount r) (WeightedUserRefScore r) (LastProbeOK r) (LastConnectOK r)
    (AvgConnectLatency r) (ProbeFailRate r) (YieldScore r) (DuplicateRatio r) (BlockedRefCount r).

Definition SetManualPolicy (urlKey : string) (policy : ManualPolicy) : go (db ctl_tables) unit :=
  found <- go_wrap "set manual policy" (stmt (λ t,
    Ok (set_registry (alter (manual_row policy) urlKey (relay_registry t)) t,
        bool_decide (is_Some (relay_registry t !! urlKey))))) ;;
  if found : bool then go_ret tt else go_fail ("relay " +:+ str [34] +:+ urlKey +:+ str [34] +:+ " not found in registry").

Definition admit_row (state : AdmissionState) (score : f64) (r : RelayRecord) : RelayRecord :=
  mkRelay (NormalizedURL r) (SourceSeed r) (SourceUserList r) (SourceManual r) (RManualPolicy r) state score
    (DistinctUserRefCount r) (WeightedUserRefScore r) (LastProbeOK r) (LastConnectOK r) (AvgConnectLatency r)
    (ProbeFailRate r) (YieldScore r) (DuplicateRatio r) (BlockedRefCount r).

Definition SetAdmissionState (urlKey : string) (state : AdmissionState) (score : f64) : go (db ctl_tables) unit :=
  go_wrap "set admission state" (exec (λ t, set_registry (alter (admit_row state score) urlKey (relay_registry t)) t)).

Definition UpdateProbeRollup (urlKey : string) (ok connectOK : bool) (latency : option f64) (failRate yield dup : f64)
    : go (db ctl_tables) unit :=
  go_wrap "update probe rollup" (exec (λ t,
    set_registry (alter (λ r,
      mkRelay (NormalizedURL r) (SourceSeed r) (SourceUserList r) (SourceManual r) (RManualPolicy r) (RAdmissionState r)
        (Score r) (DistinctUserRefCount r) (WeightedUserRefScore r) (Some ok) (Some connectOK) latency failRate yield dup
        (BlockedRefCount r)) urlKey (relay_registry t)) t)).

(** ** Listings *)

Record ListFilter := mkFilter {
  AdmissionStates : list AdmissionState;
  ManualPolicies : list ManualPolicy;
  Limit : Z;
}.

(** [ORDER BY score DESC, normalized_url ASC], in the byte order of the C collation. *)
Definition listed_before (a b : entry) : Prop :=
  match pg_compare (Score a.2) (Score b.2) with
  | Gt => True
  | Eq => String.leb (NormalizedURL a.2) (NormalizedURL b.2) = true
  | Lt => False
  end.

#[export] Instance listed_before_dec a b : Decision (listed_before a b).
Proof. unfold listed_before. destruct (pg_compare _ _); apply _. Defined.

Definition matches (f : ListFilter) (r : RelayRecord) : bool :=
  (bool_decide (AdmissionStates f = []) || bool_decide (RAdmissionState r ∈ AdmissionStates f))
  && (bool_decide (ManualPolicies f = []) || bool_decide (RManualPolicy r ∈ ManualPolicies f)).

Definition list_rows (f : ListFilter) (reg : gmap string RelayRecord) : list entry :=
  let limit := if Limit f <=? 0 then 500 else Limit f in
  take (Z.to_nat limit) (merge_sort listed_before (List.filter (λ e, matches f e.2) (map_to_list reg))).

Definition ListRelays (f : ListFilter) : go (db ctl_tables) (list entry) :=
  go_wrap "list relays" (query (λ t, list_rows f (relay_registry t))).

(** The relays to connect to: active or pinned, unless an operator holds them. *)
Definition connectable (r : RelayRecord) : bool :=
  (bool_decide (RAdmissionState r = AdmissionActive) || bool_decide (RAdmissionState r = AdmissionPinned))
  && negb (held_policy r).

Definition connectable_urls (reg : gmap string RelayRecord) : list string :=
  map (λ e : entry, NormalizedURL e.2) (merge_sort listed_before (List.filter (λ e, connectable e.2) (map_to_list reg))).

Definition GetActiveAndPinnedRelayURLs : go (db ctl_tables) (list string) :=
  go_wrap "get active/pinned relay urls" (query (λ t, connectable_urls (relay_registry t))).

(** Snapshots, newest first. *)
Definition PublishDesiredSet (urls : list string) : go (db ctl_tables) unit :=
  go_wrap "publish desired set" (exec (λ t, mkCtl (relay_registry t) (urls :: relay_desired_set t))).

Definition GetDesiredActiveRelays : go (db ctl_tables) (list string) :=
  go_wrap "get desired active relays" (query (λ t, match relay_desired_set t with [] => [] | urls :: _ => urls end)).

(** The counts of kind-10006 mentions, by key and by URL. *)
Definition BlockedRefCounts : go (db ctl_tables) (gmap string Z) :=
  go_wrap "load blocked relay refs" (query (λ t,
    foldl (λ m (e : entry), if 0 <? BlockedRefCount e.2 then <[NormalizedURL e.2 := BlockedRefCount e.2]> (<[e.1 := BlockedRefCount e.2]> m) else m)
      ∅ (map_to_list (relay_registry t)))).
