(* ===== verification/Followers.v ===== *)
(** Contact lists, relay lists and follower counts: the projections of kinds 3
    and 10002 ([internal/derivation/projection_replaceable_lists.go]), with the
    follower gains ([projection_follower_gain_events.go]) and the incremental
    follower counts ([projection_incremental_stats.go],
    [applyFollowerCountDeltasTx]).

    A stored list is the list its JSON text denotes. Derivation versions and
    update times are columns that nothing reads here and are left out. *)

From S2P Require Import Prelude GoLib GoFloat Json Db NostrTags Zap AuthorStats Registry.

Local Open Scope go_scope.

(** * Tables *)

Record FollowRow := mkFollow {
  followers : Z;
  followings : Z;
  trusted_followers : Z;
}.

(** A row of [contact_lists_latest] or [relay_lists_latest]. *)
Record ListRow := mkList {
  l_event : string;
  l_created : Z;
  l_items : list string;
}.

(** An edge goes from the followed to the follower, and has the list it is from. *)
Record fol_tables := mkFol {
  fo_events : gmap string EventRow;
  contact_lists_latest : gmap string ListRow;
  relay_lists_latest : gmap string ListRow;
  follower_edges : gmap (string * string) string;
  fo_ledger : gset (string * string);
  fo_profiles : gmap string FollowRow;
  follower_gain_events : gmap (string * string) Z;
  follower_loss_events : gmap (string * string) Z;
  trust_hops : gmap string (option Z);
  pending_profiles : gset string;
}.

Definition set_fo_events (v : gmap string EventRow) (t : fol_tables) : fol_tables :=
  mkFol v (contact_lists_latest t) (relay_lists_latest t) (follower_edges t) (fo_ledger t) (fo_profiles t) (follower_gain_events t) (follower_loss_events t) (trust_hops t) (pending_profiles t).

Definition set_contacts (v : gmap string ListRow) (t : fol_tables) : fol_tables :=
  mkFol (fo_events t) v (relay_lists_latest t) (follower_edges t) (fo_ledger t) (fo_profiles t) (follower_gain_events t) (follower_loss_events t) (trust_hops t) (pending_profiles t).

Definition set_relays (v : gmap string ListRow) (t : fol_tables) : fol_tables :=
  mkFol (fo_events t) (contact_lists_latest t) v (follower_edges t) (fo_ledger t) (fo_profiles t) (follower_gain_events t) (follower_loss_events t) (trust_hops t) (pending_profiles t).

Definition set_edges (v : gmap (string * string) string) (t : fol_tables) : fol_tables :=
  mkFol (fo_events t) (contact_lists_latest t) (relay_lists_latest t) v (fo_ledger t) (fo_profiles t) (follower_gain_events t) (follower_loss_events t) (trust_hops t) (pending_profiles t).

Definition set_fo_ledger (v : gset (string * string)) (t : fol_tables) : fol_tables :=
  mkFol (fo_events t) (contact_lists_latest t) (relay_lists_latest t) (follower_edges t) v (fo_profiles t) (follower_gain_events t) (follower_loss_events t) (trust_hops t) (pending_profiles t).

Definition set_fo_profiles (v : gmap string FollowRow) (t : fol_tables) : fol_tables :=
  mkFol (fo_events t) (contact_lists_latest t) (relay_lists_latest t) (follower_edges t) (fo_ledger t) v (follower_gain_events t) (follower_loss_events t) (trust_hops t) (pending_profiles t).

Definition set_gains (v : gmap (string * string) Z) (t : fol_tables) : fol_tables :=
  mkFol (fo_events t) (contact_lists_latest t) (relay_lists_latest t) (follower_edges t) (fo_ledger t) (fo_profiles t) v (follower_loss_events t) (trust_hops t) (pending_profiles t).

Definition set_losses (v : gmap (string * string) Z) (t : fol_tables) : fol_tables :=
  mkFol (fo_events t) (contact_lists_latest t) (relay_lists_latest t) (follower_edges t) (fo_ledger t) (fo_profiles t) (follower_gain_events t) v (trust_hops t) (pending_profiles t).

Definition set_pending (v : gset string) (t : fol_tables) : fol_tables :=
  mkFol (fo_events t) (contact_lists_latest t) (relay_lists_latest t) (follower_edges t) (fo_ledger t) (fo_profiles t) (follower_gain_events t) (follower_loss_events t) (trust_hops t) v.

Definition statDeltaFollowerCounts : string := "profile_public_stats_followers".
Definition statDeltaFollowerGainEvents : string := "follower_gain_events".

(** [claimStatDeltaTx] and [resolveDerivationWriteVersion] on these tables. *)
Definition claim_delta (eventID projection : string) : go (db fol_tables) bool :=
  go_wrap ("claim stat delta " +:+ eventID +:+ "/" +:+ projection) (stmt (λ t,
    Ok (set_fo_ledger ({[(eventID, projection)]} ∪ fo_ledger t) t, negb (bool_decide ((eventID, projection) ∈ fo_ledger t))))).

Definition write_version (name : string) : go (db fol_tables) unit :=
  go_wrap ("load active derivation version " +:+ name) (query (λ _, tt)).

(** * Lists *)

Definition trimmed (l : list string) : list string := List.filter (λ s, negb (bool_decide (s = ""))) (map trim_space l).

Definition trimmed_set (l : list string) : gset string := list_to_set (trimmed l).

Definition normalizeUniqueIDs (ids : list string) : list string := merge_sort str_le (remove_dups (trimmed ids)).

(** The values of one tag name. *)
Definition values_of (name : string) (tags : list (list string)) : list string :=
  normalizeUniqueIDs (trimmed (omap (λ tag,
    match tag with t0 :: t1 :: _ => if bool_decide (t0 = name) then Some t1 else None | _ => None end) tags)).

(** * Trusted followers *)

Record EngagementWeightingOptions := mkWeighting {
  TrustWeighted : bool;
  UntrustedWeight : f64;
  MaxHops : Z;
}.

Definition normalized (o : EngagementWeightingOptions) : EngagementWeightingOptions :=
  mkWeighting (TrustWeighted o) (if f64_lt (UntrustedWeight o) (f64_of_Z 0) then f64_of_Z 0 else UntrustedWeight o)
    (if MaxHops o <=? 0 then 3 else MaxHops o).

Definition followerInTrustedAudience (follower : string) (w : EngagementWeightingOptions) : go (db fol_tables) bool :=
  let w := normalized w in
  let follower := trim_space follower in
  if bool_decide (follower = "") then go_ret false
  else if f64_lt (f64_of_Z 0) (UntrustedWeight w) then go_ret true
  else
    hops <- go_wrap ("load trust hops for follower " +:+ follower) (query (λ t, trust_hops t !! follower)) ;;
    go_ret match hops with Some (Some n) => n <=? MaxHops w | _ => false end.

(** * Follower counts *)

Record delta := mkDelta {
  followerDelta : Z;
  followingDelta : Z;
  trustedFollowerDelta : Z;
}.

Definition bump (pubkey : string) (d : delta) (m : gmap string delta) : gmap string delta :=
  let pubkey := trim_space pubkey in
  if bool_decide (pubkey = "") then m
  else
    let old := default (mkDelta 0 0 0) (m !! pubkey) in
    <[pubkey := mkDelta (followerDelta old + followerDelta d) (followingDelta old + followingDelta d)
                  (trustedFollowerDelta old + trustedFollowerDelta d)]> m.

(** The changes of a list of edges that come ([sign] is 1) or go. *)
Definition edge_deltas (author : string) (trustedStep sign : Z) (m : gmap string delta) (changed : list string) : gmap string delta :=
  foldl (λ m followed,
    let trusted := if bool_decide (followed = author) then 0 else trustedStep in
    bump followed (mkDelta sign 0 (sign * trusted)) (bump author (mkDelta 0 sign 0) m)) m changed.

Definition apply_delta (pubkey : string) (d : delta) : go (db fol_tables) unit :=
  if (followerDelta d =? 0) && (followingDelta d =? 0) && (trustedFollowerDelta d =? 0) then go_ret tt
  else go_wrap ("apply follower count delta for " +:+ pubkey) (exec (λ t,
    let m := fo_profiles t in
    set_fo_profiles (<[pubkey :=
      match m !! pubkey with
      | Some r => mkFollow (at_least0 (followers r + followerDelta d)) (at_least0 (followings r + followingDelta d))
                    (at_least0 (trusted_followers r + trustedFollowerDelta d))
      | None => mkFollow (at_least0 (followerDelta d)) (at_least0 (followingDelta d)) (at_least0 (trustedFollowerDelta d))
      end]> m) t)).

Section projection.
Context `{UnicodeTables}.

Definition applyFollowerCountDeltasTx (incremental : bool) (w : EngagementWeightingOptions) (eventID author : string)
    (previousFollowed contacts : list string) : go (db fol_tables) unit :=
  if negb incremental then go_ret tt
  else
    claimed <- claim_delta eventID statDeltaFollowerCounts ;;
    if negb claimed then go_ret tt
    else
      write_version "profile_public_stats" ;;
      let prev := trimmed_set previousFollowed in
      let next := trimmed_set contacts in
      let author := trim_space author in
      inAudience <- followerInTrustedAudience author w ;;
      let trustedStep := if inAudience : bool then 1 else 0 in
      let deltas := edge_deltas author trustedStep 1 ∅ (elements (next ∖ prev)) in
      let deltas := edge_deltas author trustedStep (-1) deltas (elements (prev ∖ next)) in
      go_each (λ p, apply_delta p (default (mkDelta 0 0 0) (deltas !! p))) (merge_sort str_le (elements (dom deltas))).

Definition historicalContactListGainSkipAge : Z := 168 * 3600.

Definition recordFollowerGainEventsTx (now : Z) (eventID author : string) (previousFollowed contacts : list string) (createdAt : Z)
    : go (db fol_tables) unit :=
  claimed <- claim_delta eventID statDeltaFollowerGainEvents ;;
  if negb claimed then go_ret tt
  else
    let prev := trimmed_set previousFollowed in
    if bool_decide (prev = ∅) && (createdAt <? now - historicalContactListGainSkipAge) then go_ret tt
    else
      let gained := List.filter (λ f, negb (bool_decide (f = author)) && negb (bool_decide (f ∈ prev))) (trimmed contacts) in
      let lost := List.filter (λ f, negb (bool_decide (f = author)) && negb (bool_decide (f ∈ trimmed_set contacts))) (elements prev) in
      (if bool_decide (lost = []) then go_ret tt
       else go_wrap ("record follower loss events for " +:+ author) (exec (λ t,
         set_losses (foldl (λ m f, <[(f, author) := createdAt]> m) (follower_loss_events t) lost) t))) ;;
      if bool_decide (gained = []) then go_ret tt
      else go_wrap ("record follower gain events for " +:+ author) (exec (λ t,
        set_gains (foldl (λ m f, match m !! (f, author) with Some _ => m | None => <[(f, author) := createdAt]> m end)
          (follower_gain_events t) gained) t)).

(** * The projection of a list *)

(** Whether a list replaces the stored one. *)
Definition newer (eventID : string) (createdAt : Z) (row : ListRow) : bool :=
  (l_created row <? createdAt) || ((createdAt =? l_created row) && String.leb (l_event row) eventID).

Definition upsert_list (pubkey eventID : string) (createdAt : Z) (items : list string) (m : gmap string ListRow)
    : option (gmap string ListRow) :=
  match m !! pubkey with
  | Some row => if newer eventID createdAt row then Some (<[pubkey := mkList eventID createdAt items]> m) else None
  | None => Some (<[pubkey := mkList eventID createdAt items]> m)
  end.

Definition load_event (eventID : string) : go (db fol_tables) EventRow :=
  stmt (λ t, match fo_events t !! eventID with Some e => Ok (t, e) | None => Err "no rows in result set" end).

Definition load_tags (eventID : string) : go (db fol_tables) (list (list string)) :=
  e <- go_wrap "load raw event for derivation" (load_event eventID) ;;
  match decode_event_tags (ev_raw e) with Some tags => go_ret tags | None => go_fail "decode event tags" end.

Definition projectReplaceableListLatest (eventID : string) (requiredKind : Z) (derivationName : string)
    (buildPayload : list (list string) → list string)
    (upsert : string → string → Z → list string → go (db fol_tables) unit) : go (db fol_tables) unit :=
  let eventID := trim_space eventID in
  if bool_decide (eventID = "") then go_fail "event id is required"
  else
    e <- go_wrap ("load event for " +:+ derivationName) (load_event eventID) ;;
    if negb (ev_kind e =? requiredKind) then go_ret tt
    else
      winner <- go_wrap ("load event row for " +:+ derivationName) (load_event eventID) ;;
      tags <- load_tags eventID ;;
      let payload := buildPayload tags in
      tx "begin tx" "commit tx"
        (write_version derivationName ;;
         upsert (ev_pubkey e) eventID (ev_created winner) payload).

Definition followed_by (pubkey : string) (es : gmap (string * string) string) : list string :=
  map fst (List.filter (λ x : string * string, bool_decide (x.2 = pubkey)) (elements (dom es))).

Definition contact_upsert (incremental : bool) (w : EngagementWeightingOptions) (now : Z) (pubkey winnerID : string)
    (createdAt : Z) (contacts : list string) : go (db fol_tables) unit :=
  changed <- go_wrap "upsert contact_lists_latest" (stmt (λ t,
    match upsert_list pubkey winnerID createdAt contacts (contact_lists_latest t) with
    | Some m => Ok (set_contacts m t, true)
    | None => Ok (t, false)
    end)) ;;
  if negb changed then go_ret tt
  else
    previousFollowed <- go_wrap "load prior follower edges for author" (query (λ t, followed_by pubkey (follower_edges t))) ;;
    write_version "follower_edges" ;;
    go_wrap "delete follower edges for author" (exec (λ t,
      set_edges (filter (λ b, b.1.2 ≠ pubkey) (follower_edges t)) t)) ;;
    go_each (λ followed, go_wrap "upsert follower edge" (exec (λ t,
      set_edges (<[(followed, pubkey) := winnerID]> (follower_edges t)) t))) (trimmed contacts) ;;
    recordFollowerGainEventsTx now winnerID pubkey previousFollowed contacts createdAt ;;
    applyFollowerCountDeltasTx incremental w winnerID pubkey previousFollowed contacts ;;
    let impacted := normalizeUniqueIDs (pubkey :: previousFollowed ++ contacts) in
    if bool_decide (impacted = []) then go_ret tt
    else go_wrap "mark profile stats dirty for contact-list impacted pubkeys" (exec (λ t,
      set_pending (list_to_set impacted ∪ pending_profiles t) t)).

Definition ProjectContactListsLatest (incremental : bool) (w : EngagementWeightingOptions) (now : Z) (eventID : string)
    : go (db fol_tables) unit :=
  projectReplaceableListLatest eventID 3 "contact_lists_latest" (values_of "p") (contact_upsert incremental w now).

Definition relay_upsert (pubkey winnerID : string) (createdAt : Z) (relays : list string) : go (db fol_tables) unit :=
  go_wrap "upsert relay_lists_latest" (exec (λ t,
    match upsert_list pubkey winnerID createdAt relays (relay_lists_latest t) with Some m => set_relays m t | None => t end)).

Definition ProjectRelayListsLatest (eventID : string) : go (db fol_tables) unit :=
  projectReplaceableListLatest eventID 10002 "relay_lists_latest" (values_of "r") relay_upsert.
End projection.

(** * Deletions *)

(** [DELETE FROM events], with the rows that refer to it. *)
Definition delete_lists (ids : gset string) (t : fol_tables) : fol_tables :=
  let keep (m : gmap string ListRow) : gmap string ListRow := filter (λ b, l_event b.2 ∉ ids) m in
  mkFol (filter (λ b, b.1 ∉ ids) (fo_events t)) (keep (contact_lists_latest t)) (keep (relay_lists_latest t))
    (filter (λ b, b.2 ∉ ids) (follower_edges t)) (fo_ledger t) (fo_profiles t) (follower_gain_events t)
    (follower_loss_events t) (trust_hops t) (pending_profiles t).

(** [PruneOrphanedAppliedStatDeltas], of chosen rows that are old enough. *)
Definition prune_orphans (old : gset (string * string)) (t : fol_tables) : fol_tables :=
  set_fo_ledger (filter (λ x, x ∉ old ∨ is_Some (fo_events t !! x.1)) (fo_ledger t)) t.

(** * Order of versions *)

Definition no_later (c : Z) (i : string) (c' : Z) (i' : string) : Prop := c < c' ∨ (c = c' ∧ String.leb i i' = true).

Lemma no_later_refl c i : no_later c i c i.
Proof. right. split; [done|]. by destruct (String.leb_total i i). Qed.

Lemma no_later_trans c1 i1 c2 i2 c3 i3 : no_later c1 i1 c2 i2 → no_later c2 i2 c3 i3 → no_later c1 i1 c3 i3.
Proof. intros [?|[-> ?]] [?|[-> ?]]; [left; lia|by left|by left|right; split; [done|by eapply leb_trans]]. Qed.

Lemma no_later_antisym c i c' i' : no_later c i c' i' → no_later c' i' c i → i = i'.
Proof. intros [?|[-> ?]] [?|[? ?]]; try lia. by apply String.leb_antisym. Qed.

Lemma newer_true i c row : newer i c row = true ↔ no_later (l_created row) (l_event row) c i.
Proof.
  unfold newer, no_later. rewrite orb_true_iff, andb_true_iff, Z.ltb_lt, Z.eqb_eq. naive_solver.
Qed.

(** * Counting edges *)

Definition count (P : string * string → Prop) `{!∀ x, Decision (P x)} (D : gset (string * string)) : Z := Z.of_nat (size (filter P D)).

(** The edges of one author. *)
Definition own (a : string) (S : gset string) : gset (string * string) := set_map (λ p, (p, a)) S.

Lemma elem_of_own a S x : x ∈ own a S ↔ x.1 ∈ S ∧ x.2 = a.
Proof.
  unfold own. rewrite elem_of_map. destruct x as [p b]. simpl. split; [intros (q & [= -> ->] & ?); done|].
  intros [? ->]. by exists p.
Qed.

Lemma own_size a S : size (own a S) = size S.
Proof.
  unfold own. induction S as [|p S Hp IH] using set_ind_L; [by rewrite set_map_empty|].
  rewrite set_map_union_L, set_map_singleton_L, !size_union, !size_singleton, IH; set_solver.
Qed.

Lemma count_split (P : string * string → Prop) `{!∀ x, Decision (P x)} a D S :
  (∀ x, x ∈ D → x.2 ≠ a) → count P (D ∪ own a S) = count P D + count P (own a S).
Proof.
  intros HD. unfold count. rewrite (filter_union_L P D (own a S)), size_union
    by (intros x; rewrite !elem_of_filter, elem_of_own; intros [_ Hx] [_ [_ Ha]]; by apply (HD x)).
  apply Nat2Z.inj_add.
Qed.

Lemma count_all (P : string * string → Prop) `{!∀ x, Decision (P x)} a S :
  (∀ p, p ∈ S → P (p, a)) → count P (own a S) = Z.of_nat (size S).
Proof.
  intros HP. unfold count. rewrite <-(own_size a S). f_equal. f_equal. apply set_eq. intros [p b].
  rewrite elem_of_filter, elem_of_own. simpl. naive_solver.
Qed.

Lemma count_none (P : string * string → Prop) `{!∀ x, Decision (P x)} a S :
  (∀ p, p ∈ S → ¬ P (p, a)) → count P (own a S) = 0.
Proof.
  intros HP. unfold count. replace (filter P (own a S)) with (∅ : gset (string * string)); [by rewrite size_empty|].
  apply set_eq. intros [p b]. rewrite elem_of_filter, elem_of_own. simpl. set_solver.
Qed.

Lemma count_one (P : string * string → Prop) `{!∀ x, Decision (P x)} a S q :
  (∀ p, p ∈ S → P (p, a) ↔ p = q) → count P (own a S) = one_if (bool_decide (q ∈ S)).
Proof.
  intros HP. case_bool_decide as Hq; cbn [one_if]; [|apply count_none; naive_solver].
  unfold count. replace (filter P (own a S)) with ({[(q, a)]} : gset (string * string)); [by rewrite size_singleton|].
  apply set_eq. intros [p b]. rewrite elem_of_filter, elem_of_own, elem_of_singleton. simpl. split.
  - intros [= -> ->]. split; [by apply HP|done].
  - intros [Hp [HS ->]]. by rewrite (proj1 (HP p HS) Hp).
Qed.

(** What an exchange of sets adds and removes. *)
Lemma size_exchange (prev next : gset string) :
  Z.of_nat (size next) - Z.of_nat (size prev) = Z.of_nat (size (next ∖ prev)) - Z.of_nat (size (prev ∖ next)).
Proof.
  assert (size next = size (next ∖ prev) + size (next ∩ prev))%nat as ->.
  { rewrite <-size_union by set_solver. f_equal. apply set_eq. intros x. destruct (decide (x ∈ prev)); set_solver. }
  assert (size prev = size (prev ∖ next) + size (next ∩ prev))%nat as ->.
  { rewrite <-size_union by set_solver. f_equal. apply set_eq. intros x. destruct (decide (x ∈ next)); set_solver. }
  lia.
Qed.

Lemma one_if_exchange (prev next : gset string) q :
  one_if (bool_decide (q ∈ next)) - one_if (bool_decide (q ∈ prev))
  = one_if (bool_decide (q ∈ next ∖ prev)) - one_if (bool_decide (q ∈ prev ∖ next)).
Proof. repeat case_bool_decide; cbn [one_if]; try lia; set_solver. Qed.

(** * What a rewrite adds *)

Definition no_delta : delta := mkDelta 0 0 0.

Definition delta_of (m : gmap string delta) (q : string) : delta := default no_delta (m !! q).

Definition delta_add (d e : delta) : delta :=
  mkDelta (followerDelta d + followerDelta e) (followingDelta d + followingDelta e)
    (trustedFollowerDelta d + trustedFollowerDelta e).

(** A key as the projection writes it. *)
Definition clean (p : string) : Prop := trim_space p = p ∧ p ≠ "".

Lemma bump_spec p d m q :
  clean p → delta_of (bump p d m) q = if decide (q = p) then delta_add (delta_of m p) d else delta_of m q.
Proof.
  intros [Hp Hne]. unfold bump. rewrite Hp, bool_decide_eq_false_2 by done. unfold delta_of.
  destruct (decide (q = p)) as [->|Hq]; [by rewrite lookup_insert_eq|by rewrite lookup_insert_ne].
Qed.

(** The changes of the edges of [a] to the members of [l], as seen by [q]. *)
Definition edges_delta (a : string) (step sign : Z) (l : list string) (q : string) : delta :=
  mkDelta (sign * one_if (bool_decide (q ∈ l))) (sign * (if decide (q = a) then Z.of_nat (length l) else 0))
    (sign * (one_if (bool_decide (q ∈ l)) * (if decide (q = a) then 0 else step))).

Lemma edge_deltas_spec a step sign l m q :
  clean a → NoDup l → (∀ p, p ∈ l → clean p) →
  delta_of (edge_deltas a step sign m l) q = delta_add (delta_of m q) (edges_delta a step sign l q).
Proof.
  intros Ha. revert m. induction l as [|p l IH]; intros m Hl Hc.
  - unfold edges_delta. cbn [edge_deltas foldl length]. rewrite bool_decide_eq_false_2 by apply not_elem_of_nil.
    unfold delta_add. destruct (delta_of m q). cbn [one_if followerDelta followingDelta trustedFollowerDelta]. f_equal; destruct (decide (q = a)); ring.
  - inversion Hl as [|p' l' Hp Hl']; subst. assert (clean p) as Hcp by (apply Hc; set_solver).
    cbn [edge_deltas foldl]. fold (edge_deltas a step sign (bump p (mkDelta sign 0 (sign * (if bool_decide (p = a) then 0 else step)))
      (bump a (mkDelta 0 sign 0) m)) l). rewrite IH by (done || (intros; apply Hc; set_solver)).
    rewrite !bump_spec by done.
    assert (one_if (bool_decide (q ∈ p :: l)) = one_if (bool_decide (q = p)) + one_if (bool_decide (q ∈ l))) as E.
    { repeat case_bool_decide; cbn [one_if]; try lia; subst; set_solver. }
    unfold edges_delta. rewrite E. cbn [length]. unfold delta_add, no_delta.
    repeat case_decide; repeat case_bool_decide; try congruence; cbn [one_if followerDelta followingDelta trustedFollowerDelta];
      subst; f_equal; lia.
Qed.

(** * Writing the changes *)

Definition row_of (m : gmap string FollowRow) (q : string) : FollowRow := default (mkFollow 0 0 0) (m !! q).

Definition row_add (r : FollowRow) (d : delta) : FollowRow :=
  mkFollow (followers r + followerDelta d) (followings r + followingDelta d) (trusted_followers r + trustedFollowerDelta d).

Definition row_nonneg (r : FollowRow) : Prop := 0 ≤ followers r ∧ 0 ≤ followings r ∧ 0 ≤ trusted_followers r.

Lemma apply_delta_ok p d s s' u :
  apply_delta p d s = (s', Ok u) →
  ∃ m, tables s' = set_fo_profiles m (tables s) ∧
    (row_nonneg (row_add (row_of (fo_profiles (tables s)) p) d) → row_of m p = row_add (row_of (fo_profiles (tables s)) p) d) ∧
    ∀ q, q ≠ p → row_of m q = row_of (fo_profiles (tables s)) q.
Proof.
  unfold apply_delta. intros E. destruct (_ && _ && _) eqn:E0.
  - go_inv. exists (fo_profiles (tables s')). split; [by destruct (tables s')|]. split; [|done]. intros _.
    apply andb_true_iff in E0 as [E0 E3]. apply andb_true_iff in E0 as [E1 E2]. apply Z.eqb_eq in E1, E2, E3.
    unfold row_add. rewrite E1, E2, E3. destruct (row_of _ p). cbn. f_equal; lia.
  - go_inv. eexists. split; [exact E|]. unfold row_of, row_add, at_least0. split.
    + intros (N1 & N2 & N3). rewrite lookup_insert_eq. cbn [followers followings trusted_followers] in *.
      destruct (fo_profiles (tables s) !! p) as [r|]; cbn in *; f_equal; lia.
    + intros q Hq. by rewrite lookup_insert_ne.
Qed.

Lemma apply_deltas_ok (D : string → delta) l s s' u :
  go_each (λ p, apply_delta p (D p)) l s = (s', Ok u) → NoDup l →
  ∃ m, tables s' = set_fo_profiles m (tables s) ∧
    ∀ q, ((q ∉ l) → row_of m q = row_of (fo_profiles (tables s)) q) ∧
      (q ∈ l → row_nonneg (row_add (row_of (fo_profiles (tables s)) q) (D q)) →
       row_of m q = row_add (row_of (fo_profiles (tables s)) q) (D q)).
Proof.
  revert s. induction l as [|p l IH]; intros s E Hl; cbn [go_each] in E.
  - go_inv. exists (fo_profiles (tables s')). split; [by destruct (tables s')|]. intros q. split; [done|]. by intros ?%not_elem_of_nil.
  - inversion Hl as [|p' l' Hp Hl']; subst. apply bind_ok in E as (s1 & [] & E1 & E2).
    apply apply_delta_ok in E1 as (m1 & T1 & R1 & R1'). apply IH in E2 as (m2 & T2 & R2); [|done].
    exists m2. split; [by rewrite T2, T1|]. intros q. rewrite T1 in R2. cbn [fo_profiles set_fo_profiles] in R2.
    destruct (R2 q) as [Rout Rin]. destruct (decide (q = p)) as [->|Hqp].
    + split; [set_solver|]. intros _ Hq. rewrite Rout by done. by apply R1.
    + rewrite R1' in Rout, Rin by done. split; [intros Hq; apply Rout; set_solver|intros Hq; apply Rin; set_solver].
Qed.

(** * Effects of the steps *)

Lemma trimmed_clean l p : p ∈ trimmed l → clean p.
Proof.
  unfold trimmed. rewrite list_elem_of_In, filter_In, in_map_iff. intros [(q & <- & _) Hq].
  apply negb_true_iff, bool_decide_eq_false in Hq. split; [apply trim_space_idem|done].
Qed.

Lemma trimmed_same l : (∀ p, p ∈ l → clean p) → trimmed l = l.
Proof.
  unfold trimmed. induction l as [|p l IH]; intros Hl; [done|]. destruct (Hl p) as [Hp Hne]; [set_solver|].
  cbn [map List.filter]. rewrite Hp, bool_decide_eq_false_2 by done. cbn [negb]. rewrite IH; [done|]. intros q Hq. apply Hl. set_solver.
Qed.

Lemma unique_elem l p : p ∈ normalizeUniqueIDs l ↔ p ∈ trimmed l.
Proof. unfold normalizeUniqueIDs. by rewrite merge_sort_Permutation, elem_of_remove_dups. Qed.

Lemma values_of_clean n tags p : p ∈ values_of n tags → clean p.
Proof. unfold values_of. rewrite unique_elem. apply trimmed_clean. Qed.

Lemma values_of_nodup n tags : NoDup (values_of n tags).
Proof. unfold values_of, normalizeUniqueIDs. rewrite merge_sort_Permutation. apply NoDup_remove_dups. Qed.

Definition audience (w : EngagementWeightingOptions) (hops : gmap string (option Z)) (a : string) : bool :=
  f64_lt (f64_of_Z 0) (UntrustedWeight (normalized w))
  || match hops !! a with Some (Some n) => n <=? MaxHops (normalized w) | _ => false end.

Lemma audience_ok a w s s' b :
  clean a → followerInTrustedAudience a w s = (s', Ok b) → tables s' = tables s ∧ b = audience w (trust_hops (tables s)) a.
Proof.
  intros [Ha Hne]. unfold followerInTrustedAudience, audience. cbv zeta. rewrite Ha, bool_decide_eq_false_2 by done.
  destruct (f64_lt _ _); [intros [= <- <-]; done|]. intros E. apply bind_ok in E as (s1 & h & E1 & E2).
  apply wrap_ok, query_ok in E1 as [T1 ->]. injection E2 as <- <-. done.
Qed.

Lemma claim_delta_ok id X s s' b :
  claim_delta id X s = (s', Ok b) →
  tables s' = set_fo_ledger ({[(id, X)]} ∪ fo_ledger (tables s)) (tables s) ∧ b = negb (bool_decide ((id, X) ∈ fo_ledger (tables s))).
Proof. unfold claim_delta. intros E. go_inv. by injection E as -> <-. Qed.

Lemma write_version_ok n s s' u : write_version n s = (s', Ok u) → tables s' = tables s.
Proof. unfold write_version. intros E. by go_inv. Qed.

(** What the exchange of [prev] for [next] changes for [q]. *)
Definition rewrite_delta (a : string) (step : Z) (prev next : gset string) (q : string) : delta :=
  delta_add (edges_delta a step 1 (elements (next ∖ prev)) q) (edges_delta a step (-1) (elements (prev ∖ next)) q).

Definition trust_step (w : EngagementWeightingOptions) (hops : gmap string (option Z)) (a : string) : Z := one_if (audience w hops a).

Lemma row_add_none r : row_add r no_delta = r.
Proof. destruct r. unfold row_add, no_delta. cbn. f_equal; lia. Qed.

Lemma follower_deltas_ok w id a prev contacts s s' u :
  clean a → (∀ p, p ∈ prev → clean p) → (∀ p, p ∈ contacts → clean p) →
  applyFollowerCountDeltasTx true w id a prev contacts s = (s', Ok u) →
  let t := tables s in
  let d := rewrite_delta a (trust_step w (trust_hops t) a) (list_to_set prev) (list_to_set contacts) in
  ∃ m, tables s' = set_fo_profiles m (set_fo_ledger ({[(id, statDeltaFollowerCounts)]} ∪ fo_ledger t) t) ∧
    ((id, statDeltaFollowerCounts) ∈ fo_ledger t → m = fo_profiles t) ∧
    ((id, statDeltaFollowerCounts) ∉ fo_ledger t → (∀ q, row_nonneg (row_add (row_of (fo_profiles t) q) (d q))) →
     ∀ q, row_of m q = row_add (row_of (fo_profiles t) q) (d q)).
Proof.
  intros Ha Hprev Hcont E. cbv zeta. unfold applyFollowerCountDeltasTx in E. cbn [negb] in E.
  apply bind_ok in E as (s1 & cl & E1 & E). apply claim_delta_ok in E1 as [T1 ->].
  destruct (bool_decide ((id, statDeltaFollowerCounts) ∈ fo_ledger (tables s))) eqn:Hc; cbn [negb] in E.
  { injection E as <- _. rewrite T1. exists (fo_profiles (tables s)). split; [done|]. split; [done|]. intros Hn.
    by apply bool_decide_eq_true in Hc. }
  apply bool_decide_eq_false in Hc. apply bind_ok in E as (s2 & [] & E2 & E). apply write_version_ok in E2. cbv zeta in E.
  apply bind_ok in E as (s3 & aud & E3 & E). destruct Ha as [Ha Hane]. rewrite Ha in E, E3.
  apply audience_ok in E3 as [T3 ->]; [|done]. rewrite T1 in E2. rewrite E2 in T3, E. cbn [trust_hops set_fo_ledger] in E.
  unfold trimmed_set in E. rewrite !trimmed_same in E by done.
  change (if audience w (trust_hops (tables s)) a then 1 else 0) with (trust_step w (trust_hops (tables s)) a) in E.
  set (step := trust_step w _ a) in *. set (P := list_to_set prev : gset string) in *. set (N := list_to_set contacts : gset string) in *.
  set (D := edge_deltas a step (-1) _ _) in E.
  assert (∀ q, delta_of D q = rewrite_delta a step P N q) as HD.
  { intros q. unfold D. rewrite edge_deltas_spec, edge_deltas_spec; [|done|apply NoDup_elements|set_solver|done|apply NoDup_elements|set_solver].
    unfold rewrite_delta, delta_add, delta_of. rewrite lookup_empty. reflexivity. }
  set (K := merge_sort str_le (elements (dom D))) in E.
  assert (∀ q, q ∈ K ↔ is_Some (D !! q)) as HK.
  { intros q. unfold K. by rewrite merge_sort_Permutation, elem_of_elements, elem_of_dom. }
  assert (NoDup K) as HKn by (unfold K; rewrite merge_sort_Permutation; apply NoDup_elements).
  apply (apply_deltas_ok (delta_of D)) in E as (m & T & R); [|done]. exists m. rewrite T, T3. split; [done|]. split; [done|].
  intros _ HN q. destruct (R q) as [Rout Rin]. rewrite T3, HD in *. cbn [fo_profiles set_fo_ledger] in *.
  destruct (decide (q ∈ K)) as [Hq|Hq]; [by apply Rin|]. rewrite Rout by done.
  rewrite <-HD. unfold delta_of. destruct (D !! q) eqn:Eq; [exfalso; apply Hq, HK; by eexists|]. cbn [default]. by rewrite row_add_none.
Qed.

Lemma gains_ok now id a prev contacts created s s' u :
  recordFollowerGainEventsTx now id a prev contacts created s = (s', Ok u) →
  ∃ g l, tables s' = set_losses l (set_gains g (set_fo_ledger ({[(id, statDeltaFollowerGainEvents)]} ∪ fo_ledger (tables s)) (tables s))).
Proof.
  unfold recordFollowerGainEventsTx. intros E. apply bind_ok in E as (s1 & cl & E1 & E). apply claim_delta_ok in E1 as [T1 _].
  assert (∃ g l, tables s1 = set_losses l (set_gains g (tables s1))) as Hsame.
  { exists (follower_gain_events (tables s1)), (follower_loss_events (tables s1)). by destruct (tables s1). }
  rewrite <-T1. destruct cl; cbn [negb] in E; [|by injection E as <- _]. cbv zeta in E.
  destruct (_ && _); [by injection E as <- _|]. apply bind_ok in E as (s2 & [] & E2 & E).
  assert (∃ l, tables s2 = set_losses l (tables s1)) as [l T2].
  { clear E. case_bool_decide; [injection E2 as <-; exists (follower_loss_events (tables s1)); by destruct (tables s1)|].
    apply wrap_ok, exec_ok in E2. by eexists. }
  case_bool_decide; [injection E as <- _; exists (follower_gain_events (tables s1)), l; rewrite T2; by destruct (tables s1)|].
  apply wrap_ok, exec_ok in E. rewrite T2 in E. do 2 eexists. exact E.
Qed.

Lemma insert_edges_ok a id l s s' u :
  go_each (λ followed, go_wrap "upsert follower edge" (exec (λ t,
    set_edges (<[(followed, a) := id]> (follower_edges t)) t))) l s = (s', Ok u) →
  ∃ es, tables s' = set_edges es (tables s) ∧
    ∀ p b, es !! (p, b) = if decide (b = a ∧ p ∈ l) then Some id else follower_edges (tables s) !! (p, b).
Proof.
  revert s. induction l as [|q l IH]; intros s E; cbn [go_each] in E.
  - injection E as <- _. exists (follower_edges (tables s)). split; [by destruct (tables s)|]. intros p b. rewrite decide_False; [done|]. set_solver.
  - apply bind_ok in E as (s1 & [] & E1 & E2). apply wrap_ok, exec_ok in E1. apply IH in E2 as (es & T & R).
    exists es. split; [by rewrite T, E1|]. intros p b. rewrite R, E1. cbn [follower_edges set_edges].
    destruct (decide ((p, b) = (q, a))) as [[= -> ->]|Hne].
    + rewrite lookup_insert_eq. rewrite (decide_True (P := a = a ∧ q ∈ q :: l)) by set_solver. by case_decide.
    + rewrite lookup_insert_ne by done. repeat case_decide; try done; exfalso; set_solver.
Qed.

Lemma elem_of_followed a es p : p ∈ followed_by a es ↔ is_Some (es !! (p, a)).
Proof.
  unfold followed_by. rewrite list_elem_of_In, in_map_iff, <-elem_of_dom. split.
  - intros ([q b] & <- & Hin). apply filter_In in Hin as [Hin Hb]. apply bool_decide_eq_true in Hb. simpl in Hb. subst b.
    by apply list_elem_of_In, elem_of_elements in Hin.
  - intros Hin. exists (p, a). split; [done|]. apply filter_In. split; [by apply list_elem_of_In, elem_of_elements|by apply bool_decide_eq_true].
Qed.

(** The accepted rewrite of the list of [a]. *)
Record rewritten (w : EngagementWeightingOptions) (a id : string) (c : Z) (items : list string) (t t' : fol_tables) : Prop := {
  rw_events : fo_events t' = fo_events t;
  rw_hops : trust_hops t' = trust_hops t;
  rw_newer : ∀ row, contact_lists_latest t !! a = Some row → newer id c row = true;
  rw_list : contact_lists_latest t' = <[a := mkList id c items]> (contact_lists_latest t);
  rw_edges : ∀ p b, follower_edges t' !! (p, b) =
    if decide (b = a) then if decide (p ∈ items) then Some id else None else follower_edges t !! (p, b);
  rw_ledger : fo_ledger t' = {[(id, statDeltaFollowerCounts)]} ∪ ({[(id, statDeltaFollowerGainEvents)]} ∪ fo_ledger t);
  rw_claimed : (id, statDeltaFollowerCounts) ∈ fo_ledger t → fo_profiles t' = fo_profiles t;
  rw_counts : (id, statDeltaFollowerCounts) ∉ fo_ledger t →
    let d := rewrite_delta a (trust_step w (trust_hops t) a) (list_to_set (followed_by a (follower_edges t))) (list_to_set items) in
    (∀ q, row_nonneg (row_add (row_of (fo_profiles t) q) (d q))) →
    ∀ q, row_of (fo_profiles t') q = row_add (row_of (fo_profiles t) q) (d q);
}.

Lemma contact_upsert_ok w now a id c items s s' u :
  clean a → (∀ p, p ∈ items → clean p) → (∀ p, is_Some (follower_edges (tables s) !! (p, a)) → clean p) →
  contact_upsert true w now a id c items s = (s', Ok u) →
  tables s' = tables s ∨ rewritten w a id c items (tables s) (tables s').
Proof.
  intros Ha Hitems Hprev E. unfold contact_upsert in E. apply bind_ok in E as (s1 & ch & E1 & E). apply wrap_ok, stmt_ok in E1.
  unfold upsert_list in E1.
  assert ((ch = false ∧ tables s1 = tables s) ∨ (ch = true ∧ (∀ row, contact_lists_latest (tables s) !! a = Some row → newer id c row = true) ∧
    tables s1 = set_contacts (<[a := mkList id c items]> (contact_lists_latest (tables s))) (tables s))) as Hup.
  { destruct (contact_lists_latest (tables s) !! a) as [row|]; [destruct (newer id c row) eqn:En|]; injection E1 as <- <-.
    - right. split_and!; [done| |done]. by intros ? [= <-].
    - by left.
    - right. by split_and!. }
  clear E1. destruct Hup as [[-> T1]|(-> & Hnew & T1)]; cbn [negb] in E; [injection E as <- _; by left|]. right.
  apply bind_ok in E as (s2 & prev & E2 & E). apply wrap_ok, query_ok in E2 as [T2 ->].
  apply bind_ok in E as (s3 & [] & E3 & E). apply write_version_ok in E3.
  apply bind_ok in E as (s4 & [] & E4 & E). apply wrap_ok, exec_ok in E4.
  apply bind_ok in E as (s5 & [] & E5 & E). rewrite trimmed_same in E5 by done. apply insert_edges_ok in E5 as (es & T5 & R5).
  apply bind_ok in E as (s6 & [] & E6 & E). apply gains_ok in E6 as (g & lo & T6).
  apply bind_ok in E as (s7 & [] & E7 & E). cbv zeta in E.
  assert (tables s4 = set_edges (filter (λ b, b.1.2 ≠ a) (follower_edges (tables s)))
    (set_contacts (<[a := mkList id c items]> (contact_lists_latest (tables s))) (tables s))) as T4 by (by rewrite E4, E3, T2, T1).
  assert (follower_edges (tables s1) = follower_edges (tables s)) as Es1 by (by rewrite T1).
  apply follower_deltas_ok in E7 as (m & T7 & M1 & M2); [|done| |done].
  2: { intros p Hp. rewrite Es1, elem_of_followed in Hp. by apply Hprev. }
  rewrite Es1 in M2. rewrite T6, T5, T4 in M1, M2, T7. cbn in M1, M2, T7.
  assert (∃ ps, tables s' = set_pending ps (tables s7)) as [ps T8].
  { case_bool_decide; [injection E as <- _; exists (pending_profiles (tables s7)); by destruct (tables s7)|].
    apply wrap_ok, exec_ok in E. by eexists. }
  rewrite T8, T7. rewrite T4 in R5. cbn in R5. split; cbn; try done.
  - intros p b. rewrite R5. destruct (decide (b = a)) as [->|Hb].
    + destruct (decide (p ∈ items)); [by rewrite decide_True|]. rewrite decide_False by naive_solver.
      apply map_lookup_filter_None. right. intros x _ Hx. by apply Hx.
    + rewrite decide_False by naive_solver. destruct (follower_edges (tables s) !! (p, b)) eqn:Ee.
      * by apply map_lookup_filter_Some.
      * apply map_lookup_filter_None. by left.
  - intros Hin. apply M1. set_solver.
  - intros Hn. apply M2. intros [[=]%elem_of_singleton|?]%elem_of_union. done.
Qed.

(** * Counts of the edges *)

(** The counters of [q] that a set of edges stands for. *)
Definition counts_of (w : EngagementWeightingOptions) (hops : gmap string (option Z)) (D : gset (string * string)) (q : string) : FollowRow :=
  mkFollow (count (λ x, x.1 = q) D) (count (λ x, x.2 = q) D) (count (λ x, x.1 = q ∧ x.2 ≠ q ∧ audience w hops x.2 = true) D).

Lemma counts_nonneg w hops D q : row_nonneg (counts_of w hops D q).
Proof. unfold row_nonneg, counts_of, count. cbn. lia. Qed.

Lemma one_if_elements q (X : gset string) : one_if (bool_decide (q ∈ elements X)) = one_if (bool_decide (q ∈ X)).
Proof. f_equal. apply bool_decide_ext. apply elem_of_elements. Qed.

Lemma counts_exchange w hops a prev next D q :
  (∀ x, x ∈ D → x.2 ≠ a) →
  counts_of w hops (D ∪ own a next) q
  = row_add (counts_of w hops (D ∪ own a prev) q) (rewrite_delta a (trust_step w hops a) prev next q).
Proof.
  intros HD. unfold counts_of, row_add, rewrite_delta, edges_delta, delta_add. cbn.
  rewrite !(count_split _ a D) by done. rewrite !one_if_elements.
  pose proof (one_if_exchange prev next q) as Hone. pose proof (size_exchange prev next) as Hsize.
  rewrite !(count_one (λ x, x.1 = q) a _ q) by done. f_equal; [lia| |].
  - fold (size (next ∖ prev)) (size (prev ∖ next)). unfold size, set_size in Hsize. simpl in Hsize.
    destruct (decide (q = a)) as [->|Hq]; [rewrite !(count_all (λ x, x.2 = a) a) by done|rewrite !(count_none (λ x, x.2 = q) a) by naive_solver; lia].
    unfold size, set_size. simpl. lia.
  - unfold trust_step. destruct (decide (q = a)) as [->|Hq]; [rewrite !count_none by naive_solver; lia|].
    destruct (audience w hops a) eqn:Ea; cbn [one_if].
    + rewrite !(count_one _ a _ q) by naive_solver. lia.
    + rewrite !count_none by (cbn; intros; naive_solver congruence). lia.
Qed.

(** * The invariant *)

Section invariant.
Context `{UnicodeTables}.
Context (w : EngagementWeightingOptions).

(** Stored rows are determined by their id, and their author is a clean key. *)
Context (source : string → EventRow).
Hypothesis source_clean : ∀ id, clean (ev_pubkey (source id)).

Definition contacts_of (e : EventRow) : list string := values_of "p" (default [] (decode_event_tags (ev_raw e))).

Record lists_ok (t : fol_tables) : Prop := {
  li_events : ∀ id e, fo_events t !! id = Some e → e = source id;
  li_list : ∀ a row, contact_lists_latest t !! a = Some row →
    let e := source (l_event row) in
    is_Some (fo_events t !! l_event row) ∧ ev_pubkey e = a ∧ ev_kind e = 3 ∧ l_created row = ev_created e ∧ l_items row = contacts_of e;
  li_edges : ∀ p a i, follower_edges t !! (p, a) = Some i ↔
    ∃ row, contact_lists_latest t !! a = Some row ∧ l_event row = i ∧ p ∈ l_items row;
  li_claimed : ∀ id, (id, statDeltaFollowerCounts) ∈ fo_ledger t →
    ∃ row, contact_lists_latest t !! ev_pubkey (source id) = Some row ∧
      no_later (ev_created (source id)) id (l_created row) (l_event row);
  li_current : ∀ a row, contact_lists_latest t !! a = Some row → (l_event row, statDeltaFollowerCounts) ∈ fo_ledger t;
  li_counts : ∀ q, row_of (fo_profiles t) q = counts_of w (trust_hops t) (dom (follower_edges t)) q;
}.

(** The edges of an author. *)
Lemma previous_set t a row :
  lists_ok t → contact_lists_latest t !! a = Some row →
  (list_to_set (followed_by a (follower_edges t)) : gset string) = list_to_set (l_items row).
Proof.
  intros Hok Hrow. apply set_eq. intros p. rewrite !elem_of_list_to_set, elem_of_followed. split.
  - intros [i Hi]. apply (li_edges t Hok) in Hi as (row' & Hrow' & _ & Hp). congruence.
  - intros Hp. exists (l_event row). apply (li_edges t Hok). eauto.
Qed.

Lemma edges_split t a :
  dom (follower_edges t) = filter (λ x, x.2 ≠ a) (dom (follower_edges t)) ∪ own a (list_to_set (followed_by a (follower_edges t))).
Proof.
  apply set_eq. intros [p b]. rewrite elem_of_union, elem_of_filter, elem_of_own, elem_of_list_to_set, elem_of_followed, elem_of_dom.
  simpl. destruct (decide (b = a)) as [->|]; naive_solver.
Qed.

Lemma edges_after t t' a id c items :
  rewritten w a id c items t t' →
  dom (follower_edges t') = filter (λ x, x.2 ≠ a) (dom (follower_edges t)) ∪ own a (list_to_set items).
Proof.
  intros Hr. apply set_eq. intros [p b]. rewrite elem_of_union, elem_of_filter, elem_of_own, elem_of_list_to_set, !elem_of_dom, (rw_edges _ _ _ _ _ _ _ Hr).
  simpl. destruct (decide (b = a)) as [->|]; [destruct (decide (p ∈ items))|]; split; try naive_solver; intros; by eexists.
Qed.

Lemma rewritten_counts t t' id :
  lists_ok t → rewritten w (ev_pubkey (source id)) id (ev_created (source id)) (contacts_of (source id)) t t' →
  ∀ q, row_of (fo_profiles t') q = counts_of w (trust_hops t') (dom (follower_edges t')) q.
Proof.
  intros Hok Hr. set (a := ev_pubkey (source id)) in *. set (prev := list_to_set (followed_by a (follower_edges t)) : gset string).
  assert (∀ q, counts_of w (trust_hops t') (dom (follower_edges t')) q = row_add (row_of (fo_profiles t) q)
    (rewrite_delta a (trust_step w (trust_hops t) a) prev (list_to_set (contacts_of (source id))) q)) as Hq.
  { intros q. rewrite (edges_after _ _ _ _ _ _ Hr), (rw_hops _ _ _ _ _ _ _ Hr), (counts_exchange w _ a prev) by set_solver.
    rewrite (li_counts t Hok q). do 2 f_equal. symmetry. apply edges_split. }
  intros q. destruct (decide ((id, statDeltaFollowerCounts) ∈ fo_ledger t)) as [Hc|Hc].
  - rewrite (rw_claimed _ _ _ _ _ _ _ Hr Hc), Hq. destruct (li_claimed t Hok id Hc) as (row & Hrow & Hle).
    pose proof (rw_newer _ _ _ _ _ _ _ Hr row Hrow) as Hn. apply newer_true in Hn.
    pose proof (no_later_antisym _ _ _ _ Hle Hn) as Hid. destruct (li_list t Hok _ row Hrow) as (_ & _ & _ & _ & Hi).
    unfold prev. rewrite (previous_set t a row Hok Hrow), Hi, <-Hid.
    unfold rewrite_delta, edges_delta, delta_add. rewrite !difference_diag_L, elements_empty.
    rewrite <-(row_add_none (row_of (fo_profiles t) q)) at 1. unfold no_delta. f_equal. cbn. rewrite bool_decide_eq_false_2 by apply not_elem_of_nil.
    cbn. f_equal; destruct (decide (q = a)); lia.
  - rewrite Hq. apply (rw_counts _ _ _ _ _ _ _ Hr Hc). intros q'. fold prev. rewrite <-Hq. apply counts_nonneg.
Qed.

Lemma rewritten_ok t t' id :
  lists_ok t → is_Some (fo_events t !! id) → ev_kind (source id) = 3 →
  rewritten w (ev_pubkey (source id)) id (ev_created (source id)) (contacts_of (source id)) t t' → lists_ok t'.
Proof.
  intros Hok Hid Hk Hr. pose proof (rewritten_counts t t' id Hok Hr) as Hcnt. destruct Hok as [LE LL LD LC LU LN].
  destruct Hr as [E1 E2 E3 E4 E5 E6 _ _]. set (a := ev_pubkey (source id)) in *. split; [by rewrite E1| | | | |done].
  - intros b row. rewrite E4, E1. destruct (decide (b = a)) as [->|Hb]; [rewrite lookup_insert_eq|rewrite lookup_insert_ne by done; apply LL].
    intros [= <-]. by split_and!.
  - intros p b i. rewrite E5, E4. destruct (decide (b = a)) as [->|Hb]; [rewrite lookup_insert_eq|rewrite lookup_insert_ne by done; apply LD].
    destruct (decide (p ∈ contacts_of (source id))) as [Hp|Hp]; split.
    + intros [= <-]. eexists. split; [done|]. by split.
    + by intros (? & [= <-] & <- & ?).
    + done.
    + by intros (? & [= <-] & _ & ?).
  - intros i. rewrite E6, E4. intros Hi. destruct (decide (i = id)) as [->|Hne].
    { exists (mkList id (ev_created (source id)) (contacts_of (source id))). rewrite lookup_insert_eq. split; [done|apply no_later_refl]. }
    destruct (LC i) as (row & Hrow & Hle); [set_solver|]. destruct (decide (ev_pubkey (source i) = a)) as [Ha|Ha].
    + rewrite Ha in *. rewrite lookup_insert_eq. eexists. split; [done|]. eapply no_later_trans; [exact Hle|]. by apply newer_true, E3.
    + rewrite lookup_insert_ne by done. eauto.
  - intros b row. rewrite E4, E6. destruct (decide (b = a)) as [->|Hb]; [rewrite lookup_insert_eq|rewrite lookup_insert_ne by done].
    + intros [= <-]. cbn. set_solver.
    + intros Hrow. apply LU in Hrow. set_solver.
Qed.

Lemma load_event_ok id s s' e : load_event id s = (s', Ok e) → tables s' = tables s ∧ fo_events (tables s) !! id = Some e.
Proof. unfold load_event. intros E. apply stmt_ok in E. destruct (fo_events (tables s) !! id); [|done]. by injection E as -> ->. Qed.

Lemma load_event_reads id : reads (load_event id).
Proof. apply reads_stmt. intros t t' e. destruct (fo_events t !! id); [congruence|done]. Qed.

Lemma load_tags_reads id : reads (load_tags id).
Proof.
  apply reads_bind; [apply reads_wrap, load_event_reads|]. intros e.
  destruct (decode_event_tags (ev_raw e)); [apply reads_ret|apply reads_fail].
Qed.

Lemma project_list_atomic id kind name build up : atomic (projectReplaceableListLatest id kind name build up).
Proof.
  unfold projectReplaceableListLatest. cbv zeta. case_bool_decide; [apply atomic_reads, reads_fail|].
  apply atomic_bind; [apply reads_wrap, load_event_reads|]. intros e. destruct (negb _); [apply atomic_reads, reads_ret|].
  apply atomic_bind; [apply reads_wrap, load_event_reads|]. intros wi. apply atomic_bind; [apply load_tags_reads|]. intros tags. apply atomic_tx.
Qed.

(** A projection changes nothing, or its upsert ran to its end on a stored event. *)
Lemma project_list_cases id kind name build up s :
  let s' := (projectReplaceableListLatest id kind name build up s).1 in
  tables s' = tables s ∨
  ∃ s1 s2 e tags u, tables s1 = tables s ∧ fo_events (tables s) !! trim_space id = Some e ∧ ev_kind e = kind ∧
    decode_event_tags (ev_raw e) = Some tags ∧
    up (ev_pubkey e) (trim_space id) (ev_created e) (build tags) s1 = (s2, Ok u) ∧ tables s' = tables s2.
Proof.
  cbv zeta. destruct (projectReplaceableListLatest id kind name build up s) as [s' [u|err]] eqn:E; [|left; by eapply project_list_atomic].
  unfold projectReplaceableListLatest in E. cbv zeta in E. case_bool_decide; [done|]. set (i := trim_space id) in *. cbn [fst].
  apply bind_ok in E as (s1 & e & E1 & E). apply wrap_ok, load_event_ok in E1 as [T1 He].
  destruct (negb (ev_kind e =? kind)) eqn:Ek; [left; by injection E as <- _|]. apply negb_false_iff, Z.eqb_eq in Ek.
  apply bind_ok in E as (s2 & wi & E2 & E). apply wrap_ok, load_event_ok in E2 as [T2 Hw]. rewrite T1, He in Hw. injection Hw as <-.
  apply bind_ok in E as (s3 & tags & E3 & E). pose proof (reads_ok _ _ _ _ (load_tags_reads i) E3) as T3.
  unfold load_tags in E3. apply bind_ok in E3 as (s4 & e4 & E3 & E4). apply wrap_ok, load_event_ok in E3 as [_ He4].
  rewrite T2, T1, He in He4. injection He4 as <-. destruct (decode_event_tags (ev_raw e)) as [tg|] eqn:Ed; [|done].
  injection E4 as _ <-. apply tx_ok in E as (s5 & s6 & T5 & E & T6). apply bind_ok in E as (s7 & [] & E7 & E).
  apply write_version_ok in E7. right. exists s7, s6, e, tg, u. split_and!; try done. congruence.
Qed.

Lemma project_contacts_ok now id : keeps lists_ok (ProjectContactListsLatest true w now id).
Proof.
  intros s Hok. unfold ProjectContactListsLatest.
  destruct (project_list_cases id 3 "contact_lists_latest" (values_of "p") (contact_upsert true w now) s)
    as [->|(s1 & s2 & e & tags & u & T1 & He & Hk & Hd & Hup & ->)]; [done|].
  pose proof (li_events _ Hok _ _ He) as Hsrc. set (i := trim_space id) in *. rewrite Hsrc in Hk, Hd, Hup.
  assert (values_of "p" tags = contacts_of (source i)) as Hv by (unfold contacts_of; by rewrite Hd). rewrite Hv in Hup.
  apply contact_upsert_ok in Hup as [->|Hr]; [by rewrite T1| |apply source_clean| |].
  - rewrite T1 in Hr. eapply rewritten_ok; [done| |done|done]. by eexists.
  - intros p. apply values_of_clean.
  - intros p [j Hj]. rewrite T1 in Hj. apply (li_edges _ Hok) in Hj as (row & Hrow & _ & Hp).
    destruct (li_list _ Hok _ _ Hrow) as (_ & _ & _ & _ & Hi). rewrite Hi in Hp. by eapply values_of_clean.
Qed.

Lemma set_relays_ok m t : lists_ok t → lists_ok (set_relays m t).
Proof. intros [LE LL LD LC LU LN]. by split. Qed.

Lemma project_relays_ok id : keeps lists_ok (ProjectRelayListsLatest id).
Proof.
  intros s Hok. unfold ProjectRelayListsLatest.
  destruct (project_list_cases id 10002 "relay_lists_latest" (values_of "r") relay_upsert s)
    as [->|(s1 & s2 & e & tags & u & T1 & _ & _ & _ & Hup & ->)]; [done|].
  unfold relay_upsert in Hup. apply wrap_ok, exec_ok in Hup. rewrite Hup, T1. clear Hup. destruct (upsert_list _ _ _ _ _); [by apply set_relays_ok|done].
Qed.

(** ** Runs *)

(** The events that are the latest list of their author. *)
Definition current_lists (t : fol_tables) : gset string := map_to_set (λ _ row, l_event row) (contact_lists_latest t).

(** Steps: an insert, the projections, a purge that spares the latest lists, and
    the pruning of claims. *)
Inductive fol_op :=
| OpStore (id : string)
| OpContacts (now : Z) (id : string)
| OpRelays (id : string)
| OpDelete (ids : gset string)
| OpPrune (old : gset (string * string)).

Definition fol_step (op : fol_op) : go (db fol_tables) unit :=
  match op with
  | OpStore id => exec (λ t, match fo_events t !! id with Some _ => t | None => set_fo_events (<[id := source id]> (fo_events t)) t end)
  | OpContacts now id => ProjectContactListsLatest true w now id
  | OpRelays id => ProjectRelayListsLatest id
  | OpDelete ids => exec (λ t, delete_lists (ids ∖ current_lists t) t)
  | OpPrune old => exec (prune_orphans old)
  end.

Definition fol_run (ops : list fol_op) (s : db fol_tables) : db fol_tables := foldl (λ s op, (fol_step op s).1) s ops.

Definition no_lists (hops : gmap string (option Z)) : fol_tables := mkFol ∅ ∅ ∅ ∅ ∅ ∅ ∅ ∅ hops ∅.

Lemma current_elem t a row : contact_lists_latest t !! a = Some row → l_event row ∈ current_lists t.
Proof. intros Hrow. unfold current_lists. apply elem_of_map_to_set. eauto. Qed.

Lemma delete_lists_ok ids t : lists_ok t → lists_ok (delete_lists (ids ∖ current_lists t) t).
Proof.
  intros Hok. set (gone := ids ∖ current_lists t).
  assert (filter (λ b, l_event b.2 ∉ gone) (contact_lists_latest t) = contact_lists_latest t) as Hl.
  { apply map_filter_id. intros a row Hrow. apply current_elem in Hrow. set_solver. }
  assert (filter (λ b, b.2 ∉ gone) (follower_edges t) = follower_edges t) as He.
  { apply map_filter_id. intros [p a] i Hi. apply (li_edges t Hok) in Hi as (row & Hrow & <- & _). apply current_elem in Hrow. set_solver. }
  destruct Hok as [LE LL LD LC LU LN]. split; cbn; rewrite ?Hl, ?He; try done.
  - intros id e Hid. apply map_lookup_filter_Some in Hid as [Hid _]. by apply LE.
  - intros a row Hrow. destruct (LL a row Hrow) as ([e Hev] & Hrest). split; [|exact Hrest].
    exists e. apply map_lookup_filter_Some. split; [done|]. apply current_elem in Hrow. set_solver.
Qed.

Lemma prune_ok old t : lists_ok t → lists_ok (prune_orphans old t).
Proof.
  intros [LE LL LD LC LU LN]. split; cbn; try done.
  - intros id Hid. apply elem_of_filter in Hid as [_ Hid]. by apply LC.
  - intros a row Hrow. apply elem_of_filter. split; [|by eapply LU]. right. by apply (LL a row Hrow).
Qed.

Lemma store_ok id t :
  lists_ok t → lists_ok match fo_events t !! id with Some _ => t | None => set_fo_events (<[id := source id]> (fo_events t)) t end.
Proof.
  intros Hok. destruct (fo_events t !! id) eqn:Hid; [done|]. destruct Hok as [LE LL LD LC LU LN]. split; cbn; try done.
  - intros i e. destruct (decide (i = id)) as [->|]; [rewrite lookup_insert_eq; congruence|rewrite lookup_insert_ne by done; apply LE].
  - intros a row Hrow. destruct (LL a row Hrow) as ([e Hev] & Hrest). split; [|exact Hrest]. rewrite lookup_insert_ne; [by exists e|congruence].
Qed.

Lemma fol_step_ok op : keeps lists_ok (fol_step op).
Proof.
  destruct op; cbn [fol_step].
  - apply keeps_exec. intros t. apply store_ok.
  - apply project_contacts_ok.
  - apply project_relays_ok.
  - apply keeps_exec. intros t. apply delete_lists_ok.
  - apply keeps_exec. intros t. apply prune_ok.
Qed.

Lemma no_lists_ok hops : lists_ok (no_lists hops).
Proof.
  split; cbn; try done. intros p a i. split; [done|]. by intros (row & ? & _).
Qed.

Lemma fol_run_ok ops s : lists_ok (tables s) → lists_ok (tables (fol_run ops s)).
Proof. revert s. induction ops as [|op ops IH]; intros s Hs; [done|]. apply IH, fol_step_ok, Hs. Qed.

(** ** Counts of the lists *)

(** The authors whose latest list names [p]. *)
Definition listing (p : string) (t : fol_tables) : gset string := dom (filter (λ b, p ∈ l_items b.2) (contact_lists_latest t)).

Definition listed_by (a : string) (t : fol_tables) : list string := match contact_lists_latest t !! a with Some row => l_items row | None => [] end.

Lemma elem_of_listing p t a : a ∈ listing p t ↔ ∃ row, contact_lists_latest t !! a = Some row ∧ p ∈ l_items row.
Proof.
  unfold listing. rewrite elem_of_dom. split.
  - intros [row Hrow]. apply map_lookup_filter_Some in Hrow. eauto.
  - intros (row & Hrow & Hp). exists row. by apply map_lookup_filter_Some.
Qed.

Lemma edge_elem t p a : lists_ok t → (p, a) ∈ dom (follower_edges t) ↔ a ∈ listing p t.
Proof.
  intros Hok. rewrite elem_of_dom, elem_of_listing. split.
  - intros [i Hi]. apply (li_edges t Hok) in Hi as (row & Hrow & _ & Hp). eauto.
  - intros (row & Hrow & Hp). exists (l_event row). apply (li_edges t Hok). eauto.
Qed.

Lemma size_pairs (P : string * string → Prop) `{!∀ x, Decision (P x)} D (f : string → string * string) (S : gset string) :
  (∀ x, x ∈ D ∧ P x ↔ ∃ y, y ∈ S ∧ x = f y) → (∀ y z, f y = f z → y = z) → count P D = Z.of_nat (size S).
Proof.
  intros HD Hf. unfold count. f_equal. transitivity (size (set_map f S : gset (string * string))).
  - f_equal. apply set_eq. intros x. rewrite elem_of_filter, elem_of_map. specialize (HD x). naive_solver.
  - clear HD. induction S as [|y S Hy IH] using set_ind_L; [by rewrite set_map_empty|].
    rewrite set_map_union_L, set_map_singleton_L, !size_union, !size_singleton, IH; [done|set_solver|].
    intros x Hx1 Hx2. apply elem_of_singleton in Hx1 as ->. apply elem_of_map in Hx2 as (z & Hz & Hin). by rewrite (Hf _ _ Hz) in Hy.
Qed.

(** C12: Follower counts are exact: over any sequence of stored events, projections
    in any order and any number of times, purges that spare the latest lists and
    prunings of the ledger, with any statements failing, the followers of [p] are
    the authors whose latest contact list names it, its followings are the length
    of its own latest list, and its trusted followers are those in the trusted
    audience other than itself; and the latest list of an author is a stored
    list of that author, later than every list whose counts were taken. *)
Theorem follower_counts_exact (hops : gmap string (option Z)) (ops : list fol_op) (fs : list (option error)) (p : string) :
  let t := tables (fol_run ops (mkDb (no_lists hops) fs)) in
  let r := row_of (fo_profiles t) p in
  followers r = Z.of_nat (size (listing p t)) ∧
  followings r = Z.of_nat (length (listed_by p t)) ∧
  trusted_followers r = Z.of_nat (size (filter (λ a, a ≠ p ∧ audience w (trust_hops t) a = true) (listing p t))) ∧
  (∀ a row, contact_lists_latest t !! a = Some row →
    (∃ e, fo_events t !! l_event row = Some e ∧ ev_pubkey e = a ∧ ev_kind e = 3 ∧ l_items row = contacts_of e) ∧
    ∀ id, ev_pubkey (source id) = a → (id, statDeltaFollowerCounts) ∈ fo_ledger t →
      no_later (ev_created (source id)) id (l_created row) (l_event row)).
Proof.
  cbv zeta. set (t := tables _). assert (lists_ok t) as Hok by apply fol_run_ok, no_lists_ok.
  rewrite (li_counts t Hok p). cbn [counts_of followers followings trusted_followers]. split_and!.
  - apply (size_pairs _ _ (λ a, (p, a))); [|by intros y z [= ->]]. intros [q a]. simpl. split.
    + intros [Hin ->]. exists a. by rewrite <-edge_elem.
    + intros (a' & Ha & [= -> ->]). by rewrite edge_elem.
  - transitivity (Z.of_nat (size (list_to_set (listed_by p t) : gset string))).
    + apply (size_pairs _ _ (λ q, (q, p))); [|by intros y z [= ->]]. intros [q a]. simpl. split.
      * intros [Hin ->]. exists q. split; [|done]. apply edge_elem, elem_of_listing in Hin as (row & Hrow & Hq); [|done].
        apply elem_of_list_to_set. unfold listed_by. by rewrite Hrow.
      * intros (q' & Hq & [= -> ->]). split; [|done]. apply edge_elem, elem_of_listing; [done|]. apply elem_of_list_to_set in Hq.
        unfold listed_by in Hq. destruct (contact_lists_latest t !! p) as [row|]; [by exists row|by apply not_elem_of_nil in Hq].
    + f_equal. apply size_list_to_set. unfold listed_by. destruct (contact_lists_latest t !! p) as [row|] eqn:Hrow; [|constructor].
      destruct (li_list t Hok p row Hrow) as (_ & _ & _ & _ & ->). apply values_of_nodup.
  - apply (size_pairs _ _ (λ a, (p, a))); [|by intros y z [= ->]]. intros [q a]. simpl. split.
    + intros (Hin & -> & Ha). exists a. split; [|done]. apply elem_of_filter. by rewrite <-edge_elem.
    + intros (a' & Ha & [= -> ->]). apply elem_of_filter in Ha as [Ha Hin]. by rewrite edge_elem.
  - intros a row Hrow. destruct (li_list t Hok a row Hrow) as ([e He] & Hp & Hk & _ & Hi). split.
    + exists e. pose proof (li_events t Hok _ _ He) as ->. done.
    + intros id Ha Hc. destruct (li_claimed t Hok id Hc) as (row' & Hrow' & Hle). rewrite Ha, Hrow in Hrow'. by injection Hrow' as <-.
Qed.
End invariant.

(** * Examples *)

Module FollowerExample.

Existing Instance ascii_tables.

Definition list_tags (contacts : list string) : string :=
  str (json_encode (JObj [(bytes "tags", JArr (map (λ p, JArr [JStr (bytes "p"); JStr (bytes p)]) contacts))])).

(** Two lists of one author, the second without the first contact, and one of another. *)
Definition source (id : string) : EventRow :=
  if bool_decide (id = "a1") then mkEventRow "alice" 3 1000 (list_tags ["carol"; " dave "; "carol"]) []
  else if bool_decide (id = "a2") then mkEventRow "alice" 3 2000 (list_tags ["dave"; "erin"]) []
  else mkEventRow "bob" 3 1500 (list_tags ["dave"; "bob"]) [].

Lemma source_clean id : clean (ev_pubkey (source id)).
Proof. unfold source. repeat case_bool_decide; split; vm_compute; done. Qed.

(** Only the first author is near in the trust graph. *)
Definition hops : gmap string (option Z) := {["alice" := Some 1; "bob" := None]}.

Definition options : EngagementWeightingOptions := mkWeighting true (f64_of_Z 0) 0.

Definition run (ops : list fol_op) : fol_tables := tables (fol_run options source ops (mkDb (no_lists hops) [])).

Definition row (t : fol_tables) (p : string) : Z * Z * Z :=
  let r := row_of (fo_profiles t) p in (followers r, followings r, trusted_followers r).

Definition all_stored : list fol_op := [OpStore "a1"; OpStore "a2"; OpStore "b1"].

(** The older list comes again after the newer one, and is left. *)
Definition replayed : list fol_op :=
  all_stored ++ [OpContacts 3000 "a1"; OpContacts 3000 " a2"; OpContacts 3000 "b1"; OpContacts 3000 "a1"; OpContacts 3000 "a2"; OpDelete {["a1"]}].

Example counts_after_rewrites :
  map (row (run replayed)) ["alice"; "bob"; "carol"; "dave"; "erin"] = [(0, 2, 0); (1, 2, 0); (0, 0, 0); (2, 0, 1); (1, 0, 1)].
Proof. vm_compute. reflexivity. Qed.

Lemma follower_counts_witness :
  let t := tables (fol_run options source replayed (mkDb (no_lists hops) [None; Some "timeout"])) in
  followers (row_of (fo_profiles t) "dave") = Z.of_nat (size (listing "dave" t)).
Proof. exact (proj1 (follower_counts_exact options source source_clean hops replayed [None; Some "timeout"] "dave")). Defined.

(** Were the latest list deleted, its edges would go and the counts would stay, and
    the next list of the author would be counted on top. *)
Example deleted_list_keeps_counts :
  let t := tables (fol_run options source [OpContacts 3000 "a2"]
    (mkDb (delete_lists {["a1"]} (run (all_stored ++ [OpContacts 3000 "a1"]))) [])) in
  row t "dave" = (2, 0, 2) ∧ size (listing "dave" t) = 1%nat.
Proof. split; vm_compute; reflexivity. Qed.

(** An author who left the trusted audience unfollows: the trusted follow it once
    gave stays counted. *)
Example changed_trust_drifts :
  let t1 := run (all_stored ++ [OpContacts 3000 "a1"]) in
  let t2 := mkFol (fo_events t1) (contact_lists_latest t1) (relay_lists_latest t1) (follower_edges t1) (fo_ledger t1) (fo_profiles t1)
    (follower_gain_events t1) (follower_loss_events t1) {["alice" := Some 9]} (pending_profiles t1) in
  let t := tables (fol_run options source [OpContacts 3000 "a2"] (mkDb t2 [])) in
  row t "carol" = (0, 0, 1).
Proof. vm_compute. reflexivity. Qed.

End FollowerExample.
