(* ===== verification/Admission.v ===== *)
(** Relay admission: scores ([internal/relayadmission/scoring.go]), transitions,
    tier occupancy and caps ([internal/relayadmission/controller.go]), and the
    refresh cycle that ends in a published set of relays
    ([internal/relaycontrol/controller.go]).

    [math.Log10] and [sort.Slice] are parameters: the one is any function, the
    other any permutation that is sorted when the comparison is a strict weak
    order. Products and sums round separately, as they do on amd64. *)

From S2P Require Import Prelude GoLib GoFloat Sha256 Db RelayURL RelayManager Registry.

Local Open Scope go_scope.

(** * Library functions *)

Class Log10 := { log10 : f64 → f64 }.

(** * Scores *)

Record ScoreComponents := mkScore {
  PopularityScore : f64;
  ProbeHealthScore : f64;
  LatencyScore : f64;
  SYieldScore : f64;
  DuplicatePenalty : f64;
  FailurePenalty : f64;
  SFirstSeenShare : f64;
  SExclusiveShare : f64;
  PropagationScore : f64;
  BlockedRefPenalty : f64;
  TotalScore : f64;
}.

Record PropagationShare := mkShare {
  FirstSeen : f64;
  Exclusive : f64;
}.

Definition f0 : f64 := f64_of_Z 0.
Definition half : f64 := f64_lit 1 (-1).

(** The double nearest to 0.3. *)
Definition f0_3 : f64 := f64_lit 5404319552844595 (-54).

Definition clamp (v lo hi : f64) : f64 :=
  if f64_lt v lo then lo else if f64_lt hi v then hi else v.

(** [math.Min] of numbers that are not NaN. *)
Definition f64_min (a b : f64) : f64 := if f64_lt b a then b else a.

Definition popularityScore `{Log10} (distinctUsers : Z) : f64 :=
  if distinctUsers <=? 0 then f0
  else
    let score := f64_mul (f64_of_Z 22) (log10 (f64_add (f64_of_Z 1) (f64_of_Z distinctUsers))) in
    let score := if 1000 <=? distinctUsers then f64_add score (f64_of_Z 20) else score in
    clamp score f0 (f64_of_Z 150).

(** [ComputeScore] of a row with its propagation share and mention count. *)
Definition ComputeScore `{Log10} (r : RelayRecord) (share : PropagationShare) (blockedRefs : Z) : ScoreComponents :=
  let popularity := popularityScore (DistinctUserRefCount r) in
  let health := match LastProbeOK r with
                | Some true => f64_of_Z 20
                | _ => match LastConnectOK r with Some true => f64_of_Z 5 | _ => f0 end
                end in
  let latency := match AvgConnectLatency r with
                 | Some lat => if f64_lt lat (f64_of_Z 500) then f64_of_Z 10
                               else if f64_lt lat (f64_of_Z 2000) then f64_of_Z 5 else f0
                 | None => f0
                 end in
  let yield := clamp (f64_mul (YieldScore r) (f64_of_Z 10)) f0 (f64_of_Z 10) in
  let dup := if f64_lt half (DuplicateRatio r)
             then f64_opp (clamp (f64_mul (f64_sub (DuplicateRatio r) half) (f64_of_Z 20)) f0 (f64_of_Z 10)) else f0 in
  let fail := if f64_lt f0_3 (ProbeFailRate r)
              then f64_opp (clamp (f64_mul (ProbeFailRate r) (f64_of_Z 40)) f0 (f64_of_Z 30)) else f0 in
  let propagation := clamp (f64_add (f64_mul (FirstSeen share) (f64_of_Z 8)) (f64_mul (Exclusive share) (f64_of_Z 4)))
                       f0 (f64_of_Z 12) in
  let blocked := if 0 <? blockedRefs then f64_opp (f64_min (f64_of_Z blockedRefs) (f64_of_Z 8)) else f0 in
  let total := foldl f64_add popularity [health; latency; yield; dup; fail; propagation; blocked] in
  let total := if f64_lt total f0 then f0 else total in
  mkScore popularity health latency yield dup fail (FirstSeen share) (Exclusive share) propagation blocked total.

Definition ApplyBlockedRefs (counts : gmap string Z) (e : entry) : Z :=
  match counts !! e.1 with
  | Some n => n
  | None => match counts !! NormalizedURL e.2 with Some n => n | None => 0 end
  end.

Definition ApplyPropagationShare (shares : gmap string PropagationShare) (e : entry) : PropagationShare :=
  match shares !! NormalizedURL e.2 with
  | Some s => s
  | None => match shares !! e.1 with Some s => s | None => mkShare f0 f0 end
  end.

(** * Transitions *)

Record AdmissionConfig := mkAdmission {
  MaxTotalActive : Z;
  MaxDynamicActive : Z;
  MaxProbation : Z;
  MinScoreForProbation : f64;
  MinScoreForActive : f64;
  DemoteFailureThreshold : f64;
}.

Record tierOccupancy := mkOccupancy {
  pinned : Z;
  dynamicActive : Z;
  probation : Z;
}.

Section controller.
Context `{Log10} `{SliceSort}.
Context (cfg : AdmissionConfig).

Definition computeTransition (r : RelayRecord) (sc : ScoreComponents) : AdmissionState :=
  match RManualPolicy r with
  | ManualPolicyBlocked => AdmissionBlocked
  | ManualPolicyDrained => AdmissionDraining
  | ManualPolicyPinned => AdmissionPinned
  | ManualPolicyNone =>
      let score := TotalScore sc in
      match RAdmissionState r with
      | AdmissionCandidate => if f64_le (MinScoreForProbation cfg) score then AdmissionProbation else AdmissionCandidate
      | AdmissionProbation =>
          if f64_le (MinScoreForActive cfg) score then AdmissionActive
          else if f64_lt score (MinScoreForProbation cfg) then AdmissionCandidate else AdmissionProbation
      | AdmissionActive =>
          if f64_lt (DemoteFailureThreshold cfg) (ProbeFailRate r) then AdmissionProbation
          else if f64_lt score (MinScoreForProbation cfg) then AdmissionInactive else AdmissionActive
      | AdmissionInactive => if f64_le (MinScoreForProbation cfg) score then AdmissionProbation else AdmissionInactive
      | AdmissionPinned => AdmissionPinned
      | AdmissionBlocked => AdmissionBlocked
      | AdmissionDraining => AdmissionDraining
      end
  end.

Definition enforcementListLimit : Z := 20000.

Definition capped_tiers : ListFilter :=
  mkFilter [AdmissionActive; AdmissionPinned; AdmissionProbation] [] enforcementListLimit.

Definition count_tier (o : tierOccupancy) (e : entry) : tierOccupancy :=
  match RAdmissionState e.2 with
  | AdmissionPinned => mkOccupancy (pinned o + 1) (dynamicActive o) (probation o)
  | AdmissionActive =>
      if bool_decide (RManualPolicy e.2 = ManualPolicyPinned) then mkOccupancy (pinned o + 1) (dynamicActive o) (probation o)
      else mkOccupancy (pinned o) (dynamicActive o + 1) (probation o)
  | AdmissionProbation => mkOccupancy (pinned o) (dynamicActive o) (probation o + 1)
  | _ => o
  end.

Definition loadTierOccupancy : go (db ctl_tables) tierOccupancy :=
  relays <- ListRelays capped_tiers ;;
  go_ret (foldl count_tier (mkOccupancy 0 0 0) relays).

Definition gate (o : tierOccupancy) (current proposed : AdmissionState) : tierOccupancy * AdmissionState :=
  if bool_decide (proposed = current) then (o, proposed)
  else
    match current, proposed with
    | AdmissionProbation, AdmissionActive =>
        if (MaxTotalActive cfg <=? pinned o + dynamicActive o) || (MaxDynamicActive cfg <=? dynamicActive o) then (o, current)
        else (mkOccupancy (pinned o) (dynamicActive o + 1) (probation o - 1), proposed)
    | AdmissionCandidate, AdmissionProbation | AdmissionInactive, AdmissionProbation =>
        if MaxProbation cfg <=? probation o then (o, current)
        else (mkOccupancy (pinned o) (dynamicActive o) (probation o + 1), proposed)
    | AdmissionActive, AdmissionProbation => (mkOccupancy (pinned o) (dynamicActive o - 1) (probation o + 1), proposed)
    | AdmissionActive, _ => (mkOccupancy (pinned o) (dynamicActive o - 1) (probation o), proposed)
    | AdmissionProbation, _ => (mkOccupancy (pinned o) (dynamicActive o) (probation o - 1), proposed)
    | _, _ => (o, proposed)
    end.

(** An error that is only logged. *)
Definition go_try {S} (m : go S unit) : go S unit := λ s, ((m s).1, Ok tt).

(** The loop of [Run] over the listed relays. *)
Fixpoint transitions (shares : gmap string PropagationShare) (blocked : gmap string Z) (o : tierOccupancy)
    (relays : list entry) : go (db ctl_tables) unit :=
  match relays with
  | [] => go_ret tt
  | e :: relays =>
      let sc := ComputeScore e.2 (ApplyPropagationShare shares e) (ApplyBlockedRefs blocked e) in
      let '(o, new) := gate o (RAdmissionState e.2) (computeTransition e.2 sc) in
      (if negb (bool_decide (new = RAdmissionState e.2)) || f64_ne (TotalScore sc) (Score e.2)
       then go_try (SetAdmissionState e.1 new (TotalScore sc)) else go_ret tt) ;;
      transitions shares blocked o relays
  end.

(** * Caps *)

Definition dynamic_active (r : RelayRecord) : bool :=
  bool_decide (RAdmissionState r = AdmissionActive) && negb (bool_decide (RManualPolicy r = ManualPolicyPinned)).

Definition pinned_tier (r : RelayRecord) : bool :=
  bool_decide (RAdmissionState r = AdmissionPinned)
  || (bool_decide (RAdmissionState r = AdmissionActive) && bool_decide (RManualPolicy r = ManualPolicyPinned)).

Definition in_probation (r : RelayRecord) : bool := bool_decide (RAdmissionState r = AdmissionProbation).

Definition lower_score (a b : entry) : bool := f64_lt (Score a.2) (Score b.2).

Fixpoint demote_all (target : AdmissionState) (es : list entry) : go (db ctl_tables) unit :=
  match es with
  | [] => go_ret tt
  | e :: es => go_try (SetAdmissionState e.1 target (Score e.2)) ;; demote_all target es
  end.

Definition count (es : list entry) : Z := Z.of_nat (length es).

(** The [n] relays a cap pushes out, and the others. *)
Definition split_lowest (n : Z) (es : list entry) : list entry * list entry :=
  let sorted := sort_Slice lower_score es in
  (take (Z.to_nat n) sorted, drop (Z.to_nat n) sorted).

(** What is pushed out of the active tier by the total cap, then by the dynamic
    cap, and what is pushed out of probation. *)
Definition cap_plan (relays : list entry) : list entry * list entry * list entry :=
  let dynamic := List.filter (λ e : entry, dynamic_active e.2) relays in
  let prob := List.filter (λ e : entry, in_probation e.2) relays in
  let total := count (List.filter (λ e : entry, pinned_tier e.2) relays) + count dynamic in
  let '(out1, dynamic) :=
    if MaxTotalActive cfg <? total then split_lowest (total - MaxTotalActive cfg) dynamic else ([], dynamic) in
  let prob := prob ++ out1 in
  let '(out2, dynamic) :=
    if MaxDynamicActive cfg <? count dynamic then split_lowest (count dynamic - MaxDynamicActive cfg) dynamic else ([], dynamic) in
  let prob := prob ++ out2 in
  let out3 := if MaxProbation cfg <? count prob then (split_lowest (count prob - MaxProbation cfg) prob).1 else [] in
  (out1, out2, out3).

Definition enforceCaps : go (db ctl_tables) unit := λ s,
  match ListRelays capped_tiers s with
  | (s, Err _) => (s, Ok tt)
  | (s, Ok relays) =>
      let '(out1, out2, out3) := cap_plan relays in
      (demote_all AdmissionProbation out1 ;; demote_all AdmissionProbation out2 ;; demote_all AdmissionInactive out3) s
  end.

(** [Run], over the propagation shares of the last day. *)
Definition Run (shares : gmap string PropagationShare) : go (db ctl_tables) unit :=
  relays <- go_wrap "list relays for admission" (ListRelays (mkFilter [] [] 1000)) ;;
  occupancy <- go_wrap "load tier occupancy for admission" loadTierOccupancy ;;
  shares <- go_wrap "load relay propagation shares" (query (λ _, shares)) ;;
  blocked <- go_wrap "load blocked relay refs" BlockedRefCounts ;;
  transitions shares blocked occupancy relays ;;
  enforceCaps.

Record AdmissionProposal := mkProposal {
  ProposalKey : string;
  ProposalURL : string;
  CurrentState : AdmissionState;
  ProposedState : AdmissionState;
  ProposalScore : ScoreComponents;
  Changed : bool;
}.

Definition propose (shares : gmap string PropagationShare) (blocked : gmap string Z) (e : entry) : AdmissionProposal :=
  let sc := ComputeScore e.2 (ApplyPropagationShare shares e) (ApplyBlockedRefs blocked e) in
  let new := computeTransition e.2 sc in
  mkProposal e.1 (NormalizedURL e.2) (RAdmissionState e.2) new sc (negb (bool_decide (new = RAdmissionState e.2))).

Definition RunDryRun (shares : gmap string PropagationShare) : go (db ctl_tables) (list AdmissionProposal) :=
  relays <- go_wrap "list relays for dry-run" (ListRelays (mkFilter [] [] 1000)) ;;
  shares <- go_wrap "load relay propagation shares" (query (λ _, shares)) ;;
  blocked <- go_wrap "load blocked relay refs" BlockedRefCounts ;;
  go_ret (map (propose shares blocked) relays).
End controller.

(** * The refresh cycle *)

Section cycle.
Context `{UnicodeTables} `{URLParser} `{Log10} `{SliceSort}.
Context (cfg : AdmissionConfig).

(** The configured seeds that are well formed and allowed, with their keys. *)
Definition seed_refs (allowPrivate : bool) (seeds : list string) : list (string * string) :=
  omap (λ raw,
    match Normalize raw (negb allowPrivate) with
    | Ok n => match Validate n allowPrivate with Ok _ => Some (CanonicalKey n, n) | Err _ => None end
    | Err _ => None
    end) seeds.

Fixpoint upsert_seeds (refs : list (string * string)) : go (db ctl_tables) unit :=
  match refs with
  | [] => go_ret tt
  | (k, u) :: refs => go_try (UpsertSeedRelay k u) ;; upsert_seeds refs
  end.

Definition reconcileSeedRelays (allowPrivate : bool) (seeds : list string) : go (db ctl_tables) unit :=
  let keep := seed_refs allowPrivate seeds in
  upsert_seeds keep ;;
  go_wrap "clear missing seed relays" (ClearMissingSeedRelays (map fst keep)).

Definition PublishDesiredSetFromRegistry : go (db ctl_tables) unit :=
  urls <- go_wrap "get active/pinned urls" GetActiveAndPinnedRelayURLs ;;
  match urls with
  | [] => go_ret tt
  | _ => go_wrap "publish desired set" (PublishDesiredSet urls)
  end.

(** [runRefreshCycle]: errors are logged and the cycle goes on; [discover] is the
    discovery pass. *)
Definition runRefreshCycle (allowPrivate : bool) (seeds : list string) (discover : go (db ctl_tables) unit)
    (shares : gmap string PropagationShare) : go (db ctl_tables) unit :=
  go_try (reconcileSeedRelays allowPrivate seeds) ;;
  go_try discover ;;
  go_try (Run cfg shares) ;;
  go_try PublishDesiredSetFromRegistry.
End cycle.

(** * Sets of rows *)

Definition keys_of (P : RelayRecord → bool) (reg : gmap string RelayRecord) : gset string :=
  dom (filter (λ kv : entry, P kv.2 = true) reg).

Definition number (P : RelayRecord → bool) (reg : gmap string RelayRecord) : Z := Z.of_nat (size (keys_of P reg)).

Lemma elem_of_keys P reg k : k ∈ keys_of P reg ↔ ∃ r, reg !! k = Some r ∧ P r = true.
Proof.
  unfold keys_of. rewrite elem_of_dom. split.
  - intros [r Hr]. apply map_lookup_filter_Some in Hr as [Hr Hp]. by exists r.
  - intros (r & Hr & Hp). exists r. apply map_lookup_filter_Some. by split.
Qed.

(** The keys of the rows a predicate selects, as a list. *)
Lemma filter_entries (P : RelayRecord → bool) (reg : gmap string RelayRecord) (l : list entry) :
  l ≡ₚ List.filter (λ e : entry, P e.2) (map_to_list reg) →
  NoDup l.*1 ∧ list_to_set l.*1 = keys_of P reg ∧ (∀ e, e ∈ l ↔ reg !! e.1 = Some e.2 ∧ P e.2 = true).
Proof.
  intros Hp. assert (∀ e, e ∈ l ↔ reg !! e.1 = Some e.2 ∧ P e.2 = true) as Hel.
  { intros [k r]. rewrite Hp, list_elem_of_In, filter_In, <-list_elem_of_In, elem_of_map_to_list. done. }
  split_and!; [|apply set_eq; intros k|done].
  - rewrite Hp. pose proof (NoDup_fst_map_to_list reg) as Hn. revert Hn. generalize (map_to_list reg). clear.
    intros l. induction l as [|e l IH]; intros Hn; [constructor|]. inversion Hn as [|? ? Hni Hn']; subst. cbn [List.filter].
    destruct (P e.2); [|auto]. constructor; [|auto]. intros Hin. apply Hni. apply list_elem_of_fmap in Hin as (e' & -> & Hin).
    apply list_elem_of_fmap. exists e'. split; [done|]. apply list_elem_of_In, filter_In in Hin as [Hin _]. by apply list_elem_of_In.
  - rewrite elem_of_list_to_set, elem_of_keys, list_elem_of_fmap. split.
    + intros (e & -> & He). apply Hel in He. by exists e.2.
    + intros (r & Hr & HP). exists (k, r). split; [done|]. by apply Hel.
Qed.

Lemma count_keys (l : list entry) : NoDup l.*1 → count l = Z.of_nat (size (list_to_set l.*1 : gset string)).
Proof. intros Hn. unfold count. by rewrite size_list_to_set, length_fmap. Qed.

(** * Caps, on the listed rows *)

Section caps.
Context `{SliceSort}.
Context (cfg : AdmissionConfig).
Hypothesis total_pos : 0 ≤ MaxTotalActive cfg.
Hypothesis dynamic_pos : 0 ≤ MaxDynamicActive cfg.
Hypothesis probation_pos : 0 ≤ MaxProbation cfg.

Lemma split_lowest_perm n es : (split_lowest n es).1 ++ (split_lowest n es).2 ≡ₚ es.
Proof. unfold split_lowest. cbn [fst snd]. rewrite take_drop. apply sort_perm. Qed.

Lemma split_lowest_count n es :
  0 ≤ n → count (split_lowest n es).1 = Z.min n (count es) ∧ count (split_lowest n es).2 = Z.max 0 (count es - n).
Proof.
  intros Hn. unfold split_lowest, count. cbn [fst snd]. rewrite length_take, length_drop, (Permutation_length (sort_perm _ es)). lia.
Qed.

(** The scores of [lo] do not exceed those of [hi]. *)
Definition below (lo hi : list entry) : Prop := ∀ a b, a ∈ lo → b ∈ hi → lower_score b a = false.

Definition scored (e : entry) : Prop := is_nan (Score e.2) = false.

Lemma lower_score_weak : strict_weak scored lower_score.
Proof.
  unfold lower_score, scored. split.
  - intros x Hx. apply not_true_iff_false. rewrite f64_lt_rank by done. unfold rank_lt. lia.
  - intros x y z Hx Hy Hz. rewrite !f64_lt_rank by done. unfold rank_lt. lia.
  - intros x y z Hx Hy Hz. rewrite <-!not_true_iff_false, !f64_lt_rank by done. unfold rank_lt. lia.
Qed.

Lemma split_lowest_below n es : Forall scored es → below (split_lowest n es).1 (split_lowest n es).2.
Proof.
  intros Hs a b Ha Hb. pose proof (sort_sorted scored lower_score es lower_score_weak Hs) as Hsort.
  exact (sorted_split _ _ _ Hsort a b Ha Hb).
Qed.

(** What [cap_plan] pushes out of the active tier and of probation. *)
Record plan_ok (relays out1 out2 out3 kept keptp : list entry) : Prop := {
  po_dynamic : List.filter (λ e : entry, dynamic_active e.2) relays ≡ₚ out1 ++ out2 ++ kept;
  po_probation : List.filter (λ e : entry, in_probation e.2) relays ++ out1 ++ out2 ≡ₚ out3 ++ keptp;
  po_dynamic_cap : count kept ≤ MaxDynamicActive cfg;
  po_total_cap : count kept = 0 ∨ count (List.filter (λ e : entry, pinned_tier e.2) relays) + count kept ≤ MaxTotalActive cfg;
  po_probation_cap : count keptp ≤ MaxProbation cfg;
  po_lowest : Forall scored relays → below (out1 ++ out2) kept ∧ below out3 keptp;
}.

Lemma count_app l1 l2 : count (l1 ++ l2) = count l1 + count l2.
Proof. unfold count. rewrite length_app. lia. Qed.

Lemma count_perm l1 l2 : l1 ≡ₚ l2 → count l1 = count l2.
Proof. intros Hp. unfold count. by rewrite Hp. Qed.

Lemma count_nonneg l : 0 ≤ count l.
Proof. unfold count. lia. Qed.

Lemma cap_plan_ok relays out1 out2 out3 :
  cap_plan cfg relays = (out1, out2, out3) → ∃ kept keptp, plan_ok relays out1 out2 out3 kept keptp.
Proof.
  unfold cap_plan. cbv zeta. set (dyn := List.filter (λ e : entry, dynamic_active e.2) relays).
  set (prob := List.filter (λ e : entry, in_probation e.2) relays).
  set (pins := count (List.filter (λ e : entry, pinned_tier e.2) relays)).
  assert (∃ o1 rest, (if MaxTotalActive cfg <? pins + count dyn then split_lowest (pins + count dyn - MaxTotalActive cfg) dyn
    else ([], dyn)) = (o1, rest) ∧ dyn ≡ₚ o1 ++ rest ∧
    (count rest = 0 ∨ pins + count rest ≤ MaxTotalActive cfg) ∧ (Forall scored dyn → below o1 rest))
    as (o1 & rest & -> & Hp1 & Hc1 & Hb1).
  { pose proof (count_nonneg dyn). destruct (MaxTotalActive cfg <? _) eqn:E; bool_simpl; [|exists [], dyn; split_and!; [done|done|lia|intros _ a b Ha; set_solver]].
    set (n := pins + count dyn - MaxTotalActive cfg) in *. pose proof (split_lowest_perm n dyn) as Hp.
    pose proof (split_lowest_below n dyn) as Hb. destruct (split_lowest_count n dyn) as [_ Hc]; [lia|].
    destruct (split_lowest n dyn) as [o1 rest]. cbn [fst snd] in *.
    exists o1, rest. split_and!; [done|by symmetry|lia|done]. }
  assert (∃ o2 kept, (if MaxDynamicActive cfg <? count rest then split_lowest (count rest - MaxDynamicActive cfg) rest
    else ([], rest)) = (o2, kept) ∧ rest ≡ₚ o2 ++ kept ∧ count kept ≤ MaxDynamicActive cfg ∧
    (Forall scored rest → below o2 kept)) as (o2 & kept & -> & Hp2 & Hc2 & Hb2).
  { destruct (MaxDynamicActive cfg <? count rest) eqn:E; bool_simpl; [|exists [], rest; split_and!; [done|done|lia|intros _ a b Ha; set_solver]].
    set (n := count rest - MaxDynamicActive cfg) in *. pose proof (split_lowest_perm n rest) as Hp.
    pose proof (split_lowest_below n rest) as Hb. destruct (split_lowest_count n rest) as [_ Hc]; [lia|].
    destruct (split_lowest n rest) as [o2 kept]. cbn [fst snd] in *.
    exists o2, kept. split_and!; [done|by symmetry|lia|done]. }
  intros [= <- <- <-]. set (all := (prob ++ o1) ++ o2).
  assert (∃ keptp, all ≡ₚ (if MaxProbation cfg <? count all then (split_lowest (count all - MaxProbation cfg) all).1 else []) ++ keptp
    ∧ count keptp ≤ MaxProbation cfg ∧
    (Forall scored all →
     below (if MaxProbation cfg <? count all then (split_lowest (count all - MaxProbation cfg) all).1 else []) keptp))
    as (keptp & Hp3 & Hc3 & Hb3).
  { destruct (MaxProbation cfg <? count all) eqn:E; bool_simpl;
      [|exists all; split_and!; [done|lia|intros _ a b Ha; set_solver]].
    set (n := count all - MaxProbation cfg) in *. destruct (split_lowest_count n all) as [_ Hc]; [lia|].
    exists (split_lowest n all).2. split_and!; [symmetry; apply split_lowest_perm|lia|apply split_lowest_below]. }
  exists kept, keptp. split; fold dyn prob; try done.
  - rewrite Hp1, Hp2. done.
  - rewrite <-Hp3. unfold all. by rewrite app_assoc.
  - pose proof (count_nonneg o2). pose proof (count_perm _ _ Hp2) as Hr. rewrite count_app in Hr.
    pose proof (count_nonneg kept). destruct Hc1; [left; lia|right; fold pins; lia].
  - intros Hs. assert (∀ P, Forall scored (List.filter P relays)) as Hf.
    { intros P. rewrite List.Forall_forall in *. intros e He. apply filter_In in He as [He _]. auto. }
    assert (Forall scored dyn) as Hd by apply Hf. pose proof (Forall_perm _ _ _ Hp1 Hd) as [Ho1 Hrest]%Forall_app.
    pose proof (Forall_perm _ _ _ Hp2 Hrest) as [Ho2 _]%Forall_app. specialize (Hb1 Hd). specialize (Hb2 Hrest). split.
    + intros a b Ha Hb. apply elem_of_app in Ha as [Ha|Ha]; [apply Hb1; [done|]|by apply Hb2]. rewrite Hp2. set_solver.
    + apply Hb3. unfold all. repeat apply Forall_app_2; [apply Hf|done|done].
Qed.
End caps.

(** * Caps, on the registry *)

Definition restate (state : AdmissionState) (r : RelayRecord) : RelayRecord := admit_row state (Score r) r.

(** The states written for some entries. *)
Definition apply_state (target : AdmissionState) (es : list entry) (reg : gmap string RelayRecord) : gmap string RelayRecord :=
  foldl (λ reg (e : entry), alter (admit_row target (Score e.2)) e.1 reg) reg es.

Lemma apply_state_lookup target es reg k :
  (∀ e r, e ∈ es → reg !! e.1 = Some r → Score r = Score e.2) →
  apply_state target es reg !! k = (if bool_decide (k ∈ es.*1) then restate target else id) <$> reg !! k.
Proof.
  revert reg. induction es as [|e es IH]; intros reg Hs; cbn [apply_state foldl].
  { rewrite bool_decide_eq_false_2 by set_solver. by destruct (reg !! k). }
  change (foldl _ ?x es) with (apply_state target es x). rewrite IH.
  - destruct (decide (k = e.1)) as [->|Hne].
    + rewrite lookup_alter_eq, (bool_decide_eq_true_2 (e.1 ∈ (e :: es).*1)) by set_solver.
      destruct (reg !! e.1) as [r|] eqn:Er; [|done]. cbn [fmap option_fmap option_map]. rewrite <-(Hs e r) by (done || set_solver).
      f_equal. by destruct (bool_decide _).
    + rewrite lookup_alter_ne by done. by rewrite (bool_decide_ext (k ∈ es.*1) (k ∈ (e :: es).*1)) by set_solver.
  - intros e' r He' Hr. destruct (decide (e'.1 = e.1)) as [E|Hne].
    + rewrite E, lookup_alter_eq in Hr. apply fmap_Some in Hr as (r0 & Hr0 & ->). simpl.
      rewrite <-(Hs e r0) by (done || set_solver). apply (Hs e' r0); [set_solver|by rewrite E].
    + rewrite lookup_alter_ne in Hr by done. apply (Hs e' r); [set_solver|done].
Qed.

(** After both demotions to probation and the one to inactive. *)
Definition capped_rows (out1 out2 out3 : list entry) (reg : gmap string RelayRecord) : gmap string RelayRecord :=
  apply_state AdmissionInactive out3 (apply_state AdmissionProbation out2 (apply_state AdmissionProbation out1 reg)).

(** The listed rows are rows of the table. *)
Definition from_table (reg : gmap string RelayRecord) (es : list entry) : Prop := ∀ e, e ∈ es → reg !! e.1 = Some e.2.

Lemma apply_state_score target es reg es' :
  from_table reg es → from_table reg es' → ∀ e r, e ∈ es' → apply_state target es reg !! e.1 = Some r → Score r = Score e.2.
Proof.
  intros H1 H2 e r He. rewrite apply_state_lookup by (intros e' r' He' Hr'; rewrite (H1 e' He') in Hr'; congruence).
  rewrite (H2 e He). intros [= <-]. by destruct (bool_decide _).
Qed.

Lemma capped_rows_lookup out1 out2 out3 reg k r :
  from_table reg (out1 ++ out2 ++ out3) → reg !! k = Some r →
  capped_rows out1 out2 out3 reg !! k
  = Some (if bool_decide (k ∈ out3.*1) then restate AdmissionInactive r
          else if bool_decide (k ∈ (out1 ++ out2).*1) then restate AdmissionProbation r else r).
Proof.
  intros Hft Hr. assert (from_table reg out1 ∧ from_table reg out2 ∧ from_table reg out3) as (F1 & F2 & F3)
    by (split_and!; intros e He; apply Hft; set_solver).
  unfold capped_rows. set (reg1 := apply_state AdmissionProbation out1 reg). set (reg2 := apply_state AdmissionProbation out2 reg1).
  assert (reg1 !! k = Some (if bool_decide (k ∈ out1.*1) then restate AdmissionProbation r else r)) as E1.
  { unfold reg1. rewrite apply_state_lookup by (intros e' r' He' Hr'; rewrite (F1 e' He') in Hr'; congruence).
    rewrite Hr. by destruct (bool_decide _). }
  assert (∀ e r, e ∈ out2 → reg1 !! e.1 = Some r → Score r = Score e.2) as S2 by (by apply apply_state_score).
  assert (reg2 !! k = Some (if bool_decide (k ∈ (out1 ++ out2).*1) then restate AdmissionProbation r else r)) as E2.
  { unfold reg2. rewrite apply_state_lookup, E1 by done. cbn [fmap option_fmap option_map]. f_equal.
    assert (k ∈ (out1 ++ out2).*1 ↔ k ∈ out1.*1 ∨ k ∈ out2.*1) as Hk by (by rewrite fmap_app, elem_of_app).
    rewrite (bool_decide_ext _ _ Hk). clear -r. destruct (decide (k ∈ out1.*1)), (decide (k ∈ out2.*1));
      rewrite ?(bool_decide_eq_true_2 (k ∈ out1.*1)), ?(bool_decide_eq_true_2 (k ∈ out2.*1)),
        ?(bool_decide_eq_false_2 (k ∈ out1.*1)), ?(bool_decide_eq_false_2 (k ∈ out2.*1)) by done;
      rewrite ?(bool_decide_eq_true_2 (_ ∨ _)) by tauto; rewrite ?(bool_decide_eq_false_2 (_ ∨ _)) by tauto; done. }
  assert (∀ e r, e ∈ out3 → reg2 !! e.1 = Some r → Score r = Score e.2) as S3.
  { intros e r' He. unfold reg2. rewrite apply_state_lookup by done. unfold reg1.
    rewrite apply_state_lookup by (intros e' r0 He' Hr'; rewrite (F1 e' He') in Hr'; congruence).
    rewrite (F3 e He). intros [= <-]. by repeat destruct (bool_decide _). }
  rewrite apply_state_lookup, E2 by done. simpl. f_equal. destruct (bool_decide (k ∈ out3.*1)); [|done].
  by destruct (bool_decide (k ∈ (out1 ++ out2).*1)).
Qed.

Lemma capped_rows_none out1 out2 out3 reg k : reg !! k = None → capped_rows out1 out2 out3 reg !! k = None.
Proof.
  assert (∀ target es reg, reg !! k = None → apply_state target es reg !! k = None) as Ha.
  { intros target es. induction es as [|e es IH]; intros reg0 Hn; [done|]. apply IH.
    destruct (decide (k = e.1)) as [->|]; [by rewrite lookup_alter_eq, Hn|by rewrite lookup_alter_ne]. }
  intros Hn. by do 3 apply Ha.
Qed.

Section capped.
Context `{SliceSort}.
Context (cfg : AdmissionConfig).
Context (reg : gmap string RelayRecord) (out1 out2 out3 kept keptp : list entry).
Hypothesis dyn_perm : List.filter (λ e : entry, dynamic_active e.2) (map_to_list reg) ≡ₚ out1 ++ out2 ++ kept.
Hypothesis prob_perm : List.filter (λ e : entry, in_probation e.2) (map_to_list reg) ++ out1 ++ out2 ≡ₚ out3 ++ keptp.

Let reg' := capped_rows out1 out2 out3 reg.

Lemma dyn_entries e : e ∈ out1 ++ out2 ++ kept ↔ reg !! e.1 = Some e.2 ∧ dynamic_active e.2 = true.
Proof. by destruct (filter_entries dynamic_active reg (out1 ++ out2 ++ kept)) as (_ & _ & He). Qed.

Lemma dyn_NoDup : NoDup (out1 ++ out2 ++ kept).*1.
Proof. by destruct (filter_entries dynamic_active reg (out1 ++ out2 ++ kept)) as (Hn & _ & _). Qed.

Lemma prob_entries e :
  e ∈ out3 ++ keptp ↔ (reg !! e.1 = Some e.2 ∧ in_probation e.2 = true) ∨ e ∈ out1 ++ out2.
Proof.
  rewrite <-prob_perm, elem_of_app. destruct (filter_entries in_probation reg _ (reflexivity _)) as (_ & _ & He). by rewrite He.
Qed.

Lemma dynamic_not_probation r : dynamic_active r = true → in_probation r = false ∧ pinned_tier r = false.
Proof.
  unfold dynamic_active, in_probation, pinned_tier. intros Hd. apply andb_true_iff in Hd as [Ha Hp]. bool_simpl. rewrite Ha. split; [done|].
  by rewrite (bool_decide_eq_false_2 (RManualPolicy r = _)).
Qed.

Lemma out_dynamic e : e ∈ out1 ++ out2 → reg !! e.1 = Some e.2 ∧ dynamic_active e.2 = true.
Proof. intros He. apply dyn_entries. rewrite app_assoc. set_solver. Qed.

Lemma prob_NoDup : NoDup (out3 ++ keptp).*1.
Proof.
  rewrite <-prob_perm. destruct (filter_entries in_probation reg _ (reflexivity _)) as (Hn & _ & He).
  rewrite fmap_app. apply list.NoDup_app. split_and!; [done| |].
  - intros k Hk Hd. apply list_elem_of_fmap in Hk as (e & -> & Hk). apply list_elem_of_fmap in Hd as (e' & E & Hd).
    apply He in Hk as [Hk Hp]. apply out_dynamic in Hd as [Hd Hdyn]. rewrite <-E, Hk in Hd. injection Hd as Ed.
    apply dynamic_not_probation in Hdyn as [Hdyn _]. congruence.
  - pose proof dyn_NoDup as Hd. rewrite app_assoc, fmap_app in Hd. by apply list.NoDup_app in Hd as [Hd _].
Qed.

Lemma tables_from : from_table reg (out1 ++ out2 ++ out3).
Proof.
  intros e He. rewrite app_assoc in He. apply elem_of_app in He as [He|He]; [by apply out_dynamic|].
  assert (e ∈ out3 ++ keptp) as He' by set_solver. apply prob_entries in He' as [[He' _]|He']; [done|by apply out_dynamic].
Qed.

(** What becomes of a row. *)
Lemma row_after k r' :
  reg' !! k = Some r' →
  ∃ r, reg !! k = Some r ∧
    r' = (if bool_decide (k ∈ out3.*1) then restate AdmissionInactive r
          else if bool_decide (k ∈ (out1 ++ out2).*1) then restate AdmissionProbation r else r).
Proof.
  intros Hr'. destruct (reg !! k) as [r|] eqn:Er; [|unfold reg' in Hr'; by rewrite capped_rows_none in Hr'].
  exists r. split; [done|]. unfold reg' in Hr'. rewrite (capped_rows_lookup _ _ _ _ _ _ tables_from Er) in Hr'. congruence.
Qed.

Lemma kept_not_out e : e ∈ kept → e.1 ∉ (out1 ++ out2).*1.
Proof.
  intros He Hin. pose proof dyn_NoDup as Hn. rewrite app_assoc, fmap_app in Hn. apply list.NoDup_app in Hn as (_ & Hn & _).
  apply (Hn _ Hin). apply list_elem_of_fmap. by exists e.
Qed.

Lemma out3_tier k r : k ∈ out3.*1 → reg !! k = Some r → in_probation r = true ∨ k ∈ (out1 ++ out2).*1.
Proof.
  intros Hk Hr. apply list_elem_of_fmap in Hk as (e & -> & He). assert (e ∈ out3 ++ keptp) as He' by set_solver.
  apply prob_entries in He' as [[He' Hp]|He']; [left; congruence|right; apply list_elem_of_fmap; by exists e].
Qed.

Lemma dynamic_after : keys_of dynamic_active reg' = list_to_set kept.*1.
Proof.
  apply set_eq. intros k. rewrite elem_of_keys, elem_of_list_to_set. split.
  - intros (r' & Hr' & Hd). destruct (row_after _ _ Hr') as (r & Hr & E). destruct (bool_decide (k ∈ out3.*1)); [by subst|].
    destruct (bool_decide (k ∈ (out1 ++ out2).*1)) eqn:Ed; [by subst|]. subst r'. bool_simpl.
    assert ((k, r) ∈ out1 ++ out2 ++ kept) as Hin by (by apply dyn_entries). rewrite app_assoc in Hin.
    apply elem_of_app in Hin as [Hin|Hin]; [|apply list_elem_of_fmap; by exists (k, r)].
    destruct Ed. apply list_elem_of_fmap. by exists (k, r).
  - intros Hk. apply list_elem_of_fmap in Hk as (e & -> & He).
    assert (e ∈ out1 ++ out2 ++ kept) as Hin by set_solver. apply dyn_entries in Hin as [Hr Hd].
    pose proof (kept_not_out e He) as Hno. exists e.2. split; [|done]. unfold reg'.
    rewrite (capped_rows_lookup _ _ _ _ _ _ tables_from Hr). rewrite (bool_decide_eq_false_2 (e.1 ∈ (out1 ++ out2).*1)) by done.
    rewrite bool_decide_eq_false_2; [done|]. intros H3. destruct (out3_tier _ _ H3 Hr) as [Hp|Hp]; [|done].
    apply dynamic_not_probation in Hd as [Hd _]. congruence.
Qed.

Lemma probation_after : keys_of in_probation reg' = list_to_set keptp.*1.
Proof.
  apply set_eq. intros k. rewrite elem_of_keys, elem_of_list_to_set. split.
  - intros (r' & Hr' & Hp). destruct (row_after _ _ Hr') as (r & Hr & E).
    destruct (bool_decide (k ∈ out3.*1)) eqn:E3; [by subst|]. bool_simpl.
    assert (∃ e, e ∈ out3 ++ keptp ∧ e.1 = k) as (e & He & <-).
    { destruct (bool_decide (k ∈ (out1 ++ out2).*1)) eqn:Ed; bool_simpl.
      - apply list_elem_of_fmap in Ed as (e & -> & He). exists e. split; [|done]. apply prob_entries. by right.
      - subst r'. exists (k, r). split; [|done]. apply prob_entries. by left. }
    apply elem_of_app in He as [He|He]; [destruct E3|]; apply list_elem_of_fmap; by exists e.
  - intros Hk. apply list_elem_of_fmap in Hk as (e & -> & He).
    assert (e ∈ out3 ++ keptp) as Hin by set_solver.
    assert (e.1 ∉ out3.*1) as H3.
    { intros H3. pose proof prob_NoDup as Hn. rewrite fmap_app in Hn. apply list.NoDup_app in Hn as (_ & Hn & _).
      apply (Hn _ H3). apply list_elem_of_fmap. by exists e. }
    apply prob_entries in Hin.
    assert (reg !! e.1 = Some e.2) as Hr by (destruct Hin as [[? _]|?]; [done|by apply out_dynamic]).
    eexists. unfold reg'. rewrite (capped_rows_lookup _ _ _ _ _ _ tables_from Hr), bool_decide_eq_false_2 by done.
    split; [done|]. destruct (bool_decide (e.1 ∈ (out1 ++ out2).*1)) eqn:Ed; [done|]. bool_simpl.
    destruct Hin as [[_ Hp]|Hin]; [done|]. destruct Ed. apply list_elem_of_fmap. by exists e.
Qed.

(** Rows that no cap applies to stay as they are. *)
Lemma others_after k r :
  reg !! k = Some r → dynamic_active r = false → in_probation r = false → reg' !! k = Some r.
Proof.
  intros Hr Hd Hp. unfold reg'. rewrite (capped_rows_lookup _ _ _ _ _ _ tables_from Hr).
  assert (k ∉ (out1 ++ out2).*1) as Ho.
  { intros Ho. apply list_elem_of_fmap in Ho as (e & -> & He). apply out_dynamic in He as [He Hde]. congruence. }
  rewrite (bool_decide_eq_false_2 (k ∈ (out1 ++ out2).*1)) by done. rewrite bool_decide_eq_false_2; [done|].
  intros H3. destruct (out3_tier _ _ H3 Hr) as [?|?]; [congruence|done].
Qed.

Lemma pinned_after : keys_of pinned_tier reg' = keys_of pinned_tier reg.
Proof.
  assert (∀ r, pinned_tier r = true → dynamic_active r = false ∧ in_probation r = false) as Hpin.
  { intros r Hp. split; apply not_true_iff_false; intros Hd.
    - apply dynamic_not_probation in Hd as [_ Hd]. congruence.
    - unfold in_probation, pinned_tier in *. bool_simpl. by rewrite Hd in Hp. }
  apply set_eq. intros k. rewrite !elem_of_keys. split.
  - intros (r' & Hr' & Hp). destruct (row_after _ _ Hr') as (r & Hr & E).
    destruct (bool_decide (k ∈ out3.*1)); [by subst|]. destruct (bool_decide (k ∈ (out1 ++ out2).*1)); [by subst|]. subst. by exists r.
  - intros (r & Hr & Hp). exists r. split; [|done]. destruct (Hpin r Hp). by apply others_after.
Qed.

(** A relay pushed out of the active tier has no higher score than one kept. *)
Lemma lowest_out k1 k2 r1 r2 :
  below (out1 ++ out2) kept →
  reg !! k1 = Some r1 → dynamic_active r1 = true → k1 ∉ keys_of dynamic_active reg' →
  reg !! k2 = Some r2 → k2 ∈ keys_of dynamic_active reg' → f64_lt (Score r2) (Score r1) = false.
Proof.
  rewrite dynamic_after, !elem_of_list_to_set. intros Hb H1 D1 K1 H2 K2.
  apply list_elem_of_fmap in K2 as (e2 & -> & K2).
  assert (e2 ∈ out1 ++ out2 ++ kept) as Hin2 by set_solver. apply dyn_entries in Hin2 as [Hr2 _]. rewrite H2 in Hr2. injection Hr2 as ->.
  assert ((k1, r1) ∈ out1 ++ out2 ++ kept) as Hin by (by apply dyn_entries). rewrite app_assoc in Hin.
  apply elem_of_app in Hin as [Hin|Hin]; [by apply (Hb (k1, r1) e2)|]. destruct K1. apply list_elem_of_fmap. by exists (k1, r1).
Qed.
End capped.

(** * The theorems *)

(** The tiers are within their caps; pins are not capped, but leave no room for
    others beyond the total. *)
Definition capped (cfg : AdmissionConfig) (reg : gmap string RelayRecord) : Prop :=
  number dynamic_active reg ≤ MaxDynamicActive cfg ∧
  (number dynamic_active reg = 0 ∨ number pinned_tier reg + number dynamic_active reg ≤ MaxTotalActive cfg) ∧
  number in_probation reg ≤ MaxProbation cfg.

Record caps_ok (cfg : AdmissionConfig) : Prop := {
  cp_total : 0 ≤ MaxTotalActive cfg;
  cp_dynamic : 0 ≤ MaxDynamicActive cfg;
  cp_probation : 0 ≤ MaxProbation cfg;
}.

Definition in_tier (r : RelayRecord) : bool := matches capped_tiers r.

Lemma in_tier_spec r : in_tier r = dynamic_active r || pinned_tier r || in_probation r.
Proof.
  unfold in_tier, matches, dynamic_active, pinned_tier, in_probation, capped_tiers. simpl.
  destruct (RAdmissionState r), (RManualPolicy r); reflexivity.
Qed.

Lemma listed_all reg :
  number in_tier reg ≤ enforcementListLimit →
  list_rows capped_tiers reg ≡ₚ List.filter (λ e : entry, in_tier e.2) (map_to_list reg).
Proof.
  intros Hn. unfold list_rows. cbv zeta. change (Limit capped_tiers <=? 0) with false. cbv iota.
  rewrite take_ge; [by rewrite merge_sort_Permutation|]. rewrite merge_sort_Permutation.
  change (Limit capped_tiers) with enforcementListLimit.
  destruct (filter_entries in_tier reg _ (reflexivity _)) as (Hnd & Hs & _). unfold number in Hn. rewrite <-Hs in Hn.
  rewrite size_list_to_set, length_fmap in Hn by done. unfold in_tier in Hn. lia.
Qed.

Lemma filter_filter {A} (P Q : A → bool) l :
  (∀ x, P x = true → Q x = true) → List.filter P (List.filter Q l) = List.filter P l.
Proof.
  intros Himp. induction l as [|x l IH]; [done|]. cbn [List.filter]. destruct (Q x) eqn:EQ; cbn [List.filter]; rewrite IH; [done|].
  destruct (P x) eqn:EP; [|done]. apply Himp in EP. congruence.
Qed.

Lemma listed_tier (P : RelayRecord → bool) reg :
  number in_tier reg ≤ enforcementListLimit → (∀ r, P r = true → in_tier r = true) →
  List.filter (λ e : entry, P e.2) (list_rows capped_tiers reg) ≡ₚ List.filter (λ e : entry, P e.2) (map_to_list reg).
Proof.
  intros Hn Himp. rewrite (filter_perm _ _ _ (listed_all reg Hn)).
  rewrite (filter_filter (λ e : entry, P e.2) (λ e : entry, in_tier e.2)); [done|]. intros e. apply Himp.
Qed.

Lemma demote_all_clean target es t :
  demote_all target es (mkDb t []) = (mkDb (set_registry (apply_state target es (relay_registry t)) t) [], Ok tt).
Proof.
  revert t. induction es as [|e es IH]; intros t; [by destruct t|]. cbn [demote_all]. unfold go_bind, go_try. simpl. rewrite IH. done.
Qed.

(** The columns that the admission controller leaves alone. *)
Definition same_origin (r r' : RelayRecord) : Prop :=
  RManualPolicy r' = RManualPolicy r ∧ NormalizedURL r' = NormalizedURL r ∧ SourceSeed r' = SourceSeed r ∧ SourceManual r' = SourceManual r.

(** Rows after a pass of the controller: none is added or removed, and policies,
    URLs and origins stay. *)
Definition same_relays (reg reg' : gmap string RelayRecord) : Prop :=
  ∀ k, (reg !! k = None ∧ reg' !! k = None) ∨ (∃ r r', reg !! k = Some r ∧ reg' !! k = Some r' ∧ same_origin r r').

Lemma same_relays_refl reg : same_relays reg reg.
Proof. intros k. destruct (reg !! k) as [r|] eqn:E; [right; by exists r, r|by left]. Qed.

Lemma same_relays_trans reg1 reg2 reg3 : same_relays reg1 reg2 → same_relays reg2 reg3 → same_relays reg1 reg3.
Proof.
  intros H12 H23 k. destruct (H12 k) as [[? H2]|(r1 & r2 & H1 & H2 & P12)], (H23 k) as [[H2' ?]|(r2' & r3 & H2' & H3 & P23)];
    [by left|congruence|congruence|]. right. exists r1, r3. unfold same_origin in *. rewrite H2 in H2'. injection H2' as <-.
  destruct P12 as (? & ? & ? & ?), P23 as (? & ? & ? & ?). split_and!; congruence.
Qed.

Lemma same_relays_dom reg reg' : same_relays reg reg' → dom reg' = dom reg.
Proof.
  intros Hs. apply set_eq. intros k. rewrite !elem_of_dom.
  destruct (Hs k) as [[-> ->]|(r & r' & -> & -> & _)]; split; intros [? ?]; by eexists || done.
Qed.

Lemma same_relays_alter state score k reg : same_relays reg (alter (admit_row state score) k reg).
Proof.
  intros k'. destruct (decide (k' = k)) as [->|Hne].
  - rewrite lookup_alter_eq. destruct (reg !! k) as [r|]; [right; simpl; by eexists _, _|by left].
  - rewrite lookup_alter_ne by done. apply same_relays_refl.
Qed.

Section enforced.
Context `{SliceSort}.
Context (cfg : AdmissionConfig).
Hypothesis caps : caps_ok cfg.

(** What a cap enforcement without failures does to the registry. *)
Record enforced (reg reg' : gmap string RelayRecord) : Prop := {
  en_capped : capped cfg reg';
  en_others : ∀ k r, reg !! k = Some r → dynamic_active r = false → in_probation r = false → reg' !! k = Some r;
  en_pinned : keys_of pinned_tier reg' = keys_of pinned_tier reg;
  en_same : same_relays reg reg';
  en_scores : ∀ k r r', reg !! k = Some r → reg' !! k = Some r' → Score r' = Score r;
  en_lowest : (∀ k r, reg !! k = Some r → is_nan (Score r) = false) → ∀ k1 k2 r1 r2,
    reg !! k1 = Some r1 → dynamic_active r1 = true → k1 ∉ keys_of dynamic_active reg' →
    reg !! k2 = Some r2 → k2 ∈ keys_of dynamic_active reg' → f64_lt (Score r2) (Score r1) = false;
}.

Lemma enforceCaps_clean t :
  number in_tier (relay_registry t) ≤ enforcementListLimit →
  ∃ reg', enforceCaps cfg (mkDb t []) = (mkDb (set_registry reg' t) [], Ok tt) ∧ enforced (relay_registry t) reg'.
Proof.
  intros Hn. set (reg := relay_registry t) in *.
  destruct (cap_plan cfg (list_rows capped_tiers reg)) as [[out1 out2] out3] eqn:Ep.
  destruct caps as [C1 C2 C3]. destruct (cap_plan_ok cfg C1 C2 C3 _ _ _ _ Ep) as (kept & keptp & [P1 P2 P3 P4 P5 P6]).
  exists (capped_rows out1 out2 out3 reg). split.
  { unfold enforceCaps, ListRelays, go_wrap, query, stmt. cbn [next_fault faults tables]. fold reg. cbn [wrap_err]. rewrite Ep.
    unfold go_bind. rewrite demote_all_clean. cbv iota beta. rewrite demote_all_clean. cbv iota beta. rewrite demote_all_clean.
    destruct t as [r0 d0]. done. }
  assert (∀ r, dynamic_active r = true → in_tier r = true) as I1 by (intros r Hr; by rewrite in_tier_spec, Hr).
  assert (∀ r, in_probation r = true → in_tier r = true) as I2 by (intros r Hr; by rewrite in_tier_spec, Hr, orb_true_r).
  assert (∀ r, pinned_tier r = true → in_tier r = true) as I3 by (intros r Hr; by rewrite in_tier_spec, Hr, orb_true_r).
  rewrite (listed_tier dynamic_active reg Hn I1) in P1. rewrite (listed_tier in_probation reg Hn I2) in P2.
  assert (count (List.filter (λ e : entry, pinned_tier e.2) (list_rows capped_tiers reg)) = number pinned_tier reg) as Epin.
  { pose proof (listed_tier pinned_tier reg Hn I3) as Hp. destruct (filter_entries pinned_tier reg _ Hp) as (Hnd & Hs & _).
    rewrite count_keys by done. unfold number. by rewrite Hs. }
  assert (NoDup kept.*1 ∧ NoDup keptp.*1) as [Nk Nkp].
  { pose proof (dyn_NoDup reg out1 out2 kept P1) as Hd. pose proof (prob_NoDup reg out1 out2 out3 kept keptp P1 P2) as Hp.
    rewrite !fmap_app in *. apply list.NoDup_app in Hd as (_ & _ & Hd). apply list.NoDup_app in Hd as (_ & _ & Hd).
    by apply list.NoDup_app in Hp as (_ & _ & Hp). }
  assert (number dynamic_active (capped_rows out1 out2 out3 reg) = count kept) as Ed.
  { unfold number. rewrite (dynamic_after reg out1 out2 out3 kept keptp P1 P2). by rewrite count_keys. }
  assert (number in_probation (capped_rows out1 out2 out3 reg) = count keptp) as Epr.
  { unfold number. rewrite (probation_after reg out1 out2 out3 kept keptp P1 P2). by rewrite count_keys. }
  pose proof (pinned_after reg out1 out2 out3 kept keptp P1 P2) as Hpin. split.
  - unfold capped. unfold number at 3. rewrite Ed, Epr, Hpin. fold (number pinned_tier reg). rewrite <-Epin. done.
  - by apply (others_after reg out1 out2 out3 kept keptp P1 P2).
  - done.
  - intros k. destruct (reg !! k) as [r|] eqn:Er; [right|left; split; [done|by apply capped_rows_none]].
    exists r. eexists. split; [done|].
    rewrite (capped_rows_lookup _ _ _ _ _ _ (tables_from reg out1 out2 out3 kept keptp P1 P2) Er). split; [done|].
    by repeat destruct (bool_decide _).
  - intros k r r' Er Hr'. destruct (row_after reg out1 out2 out3 kept keptp P1 P2 k r' Hr') as (r0 & Hr & ->).
    rewrite Er in Hr. injection Hr as <-. by repeat destruct (bool_decide _).
  - intros Hs k1 k2 r1 r2. apply (lowest_out reg out1 out2 out3 kept keptp P1 P2). apply P6.
    apply List.Forall_forall. intros e He. apply list_elem_of_In in He. rewrite (listed_all reg Hn) in He.
    apply list_elem_of_In, filter_In in He as [He _]. apply list_elem_of_In in He. destruct e as [k r].
    apply elem_of_map_to_list in He. by apply (Hs k r).
Qed.
End enforced.

(** ** The cycle *)

Section cycle_lemmas.
Context `{UnicodeTables} `{URLParser} `{Log10} `{SliceSort}.
Context (cfg : AdmissionConfig).

(** What a pinned row becomes: pinned, whatever the occupancy. *)
Lemma gate_pinned o current : (gate cfg o current AdmissionPinned).2 = AdmissionPinned.
Proof. unfold gate. case_bool_decide; [done|]. by destruct current. Qed.

Lemma transitions_clean shares blocked relays : ∀ o t,
  NoDup relays.*1 → from_table (relay_registry t) relays →
  ∃ reg', transitions cfg shares blocked o relays (mkDb t []) = (mkDb (set_registry reg' t) [], Ok tt) ∧
    same_relays (relay_registry t) reg' ∧
    (∀ k, k ∉ relays.*1 → reg' !! k = relay_registry t !! k) ∧
    (∀ k r, (k, r) ∈ relays → RManualPolicy r = ManualPolicyPinned →
       ∃ r', reg' !! k = Some r' ∧ RAdmissionState r' = AdmissionPinned).
Proof.
  induction relays as [|[k r] relays IH]; intros o t Hnd Hf.
  { exists (relay_registry t). split_and!; [by destruct t|apply same_relays_refl|done|by intros ? ? ?%not_elem_of_nil]. }
  inversion Hnd as [|? ? Hk Hnd']; subst. cbn [transitions fst snd]. clear Hnd. rename Hnd' into Hnd.
  set (sc := ComputeScore _ _ _). pose proof (λ o c, gate_pinned o c) as Hg.
  destruct (gate cfg o (RAdmissionState r) (computeTransition cfg r sc)) as [o' new] eqn:Eg.
  assert (RManualPolicy r = ManualPolicyPinned → new = AdmissionPinned) as Hpin.
  { intros Hp. specialize (Hg o (RAdmissionState r)). unfold computeTransition in Eg. rewrite Hp in Eg. by rewrite Eg in Hg. }
  assert (∃ reg1, (if negb (bool_decide (new = RAdmissionState r)) || f64_ne (TotalScore sc) (Score r)
       then go_try (SetAdmissionState k new (TotalScore sc)) else go_ret tt) (mkDb t []) = (mkDb (set_registry reg1 t) [], Ok tt)
       ∧ same_relays (relay_registry t) reg1 ∧ (∀ k', k' ≠ k → reg1 !! k' = relay_registry t !! k')
       ∧ ∃ r', reg1 !! k = Some r' ∧ RAdmissionState r' = new) as (reg1 & E1 & S1 & O1 & N1).
  { assert (relay_registry t !! k = Some r) as Hr by (apply (Hf (k, r)); by left).
    destruct (negb _ || _) eqn:Ec.
    - exists (alter (admit_row new (TotalScore sc)) k (relay_registry t)). split_and!; [done|apply same_relays_alter| |].
      + intros k' Hne. by rewrite lookup_alter_ne.
      + rewrite lookup_alter_eq, Hr. by eexists.
    - exists (relay_registry t). apply orb_false_iff in Ec as [Ec _]. apply negb_false_iff, bool_decide_eq_true in Ec.
      split_and!; [by destruct t|apply same_relays_refl|done|by exists r]. }
  unfold go_bind. rewrite E1. destruct (IH o' (set_registry reg1 t) Hnd) as (reg2 & E2 & S2 & O2 & P2).
  { intros e He. simpl. rewrite O1; [apply Hf; by right|]. intros <-. apply Hk. by apply list_elem_of_fmap_2. }
  exists reg2. rewrite E2. split_and!; [by destruct t|by eapply same_relays_trans| |].
  - intros k' Hn. cbn in Hn. apply not_elem_of_cons in Hn as [Hne Hn]. rewrite O2 by done. simpl. by apply O1.
  - intros k' r' Hin Hp. apply elem_of_cons in Hin as [[= -> ->]|Hin]; [|by apply (P2 k' r')].
    destruct N1 as (r1 & Hr1 & Hs). exists r1. rewrite O2 by done. split; [done|]. rewrite Hs. by apply Hpin.
Qed.

(** Every row is in the listing without a filter, if it is among the first ones. *)
Lemma listing_rows f reg : NoDup (list_rows f reg).*1 ∧ from_table reg (list_rows f reg).
Proof.
  unfold list_rows. cbv zeta.
  destruct (filter_entries (matches f) reg (merge_sort listed_before (List.filter (λ e, matches f e.2) (map_to_list reg))))
    as (Hnd & _ & Hel); [apply merge_sort_Permutation|].
  set (n := Z.to_nat _). set (l := merge_sort _ _) in *. split.
  - rewrite fmap_take. rewrite <-(take_drop n l.*1) in Hnd. by apply list.NoDup_app in Hnd as [Hnd _].
  - intros e He. apply Hel. apply elem_of_take in He as (i & Hi & _). by apply list_elem_of_lookup_2 in Hi.
Qed.

Lemma number_dom P (reg reg' : gmap string RelayRecord) : dom reg' = dom reg → number P reg' ≤ Z.of_nat (size reg).
Proof.
  intros Hd. unfold number. rewrite <-(size_dom reg), <-Hd. apply inj_le, subseteq_size.
  intros k Hk. apply elem_of_keys in Hk as (r & Hr & _). apply elem_of_dom. by eexists.
Qed.

(** A pass of the controller without failures. *)
Record admitted (reg reg' : gmap string RelayRecord) : Prop := {
  ad_capped : capped cfg reg';
  ad_same : same_relays reg reg';
  ad_pins : ∀ k r, reg !! k = Some r → RManualPolicy r = ManualPolicyPinned →
    (k, r) ∈ list_rows (mkFilter [] [] 1000) reg ∨ pinned_tier r = true → ∃ r', reg' !! k = Some r' ∧ pinned_tier r' = true;
}.

Lemma Run_clean shares t :
  caps_ok cfg → Z.of_nat (size (relay_registry t)) ≤ enforcementListLimit →
  ∃ reg', Run cfg shares (mkDb t []) = (mkDb (set_registry reg' t) [], Ok tt) ∧ admitted (relay_registry t) reg'.
Proof.
  intros Hc Hn. unfold Run.
  erewrite bind_clean by reflexivity. erewrite bind_clean by reflexivity.
  erewrite bind_clean by reflexivity. erewrite bind_clean by reflexivity.
  destruct (listing_rows (mkFilter [] [] 1000) (relay_registry t)) as [Hnd Hft].
  match goal with |- context [transitions cfg shares ?bl ?o] =>
    destruct (transitions_clean shares bl _ o t Hnd Hft) as (reg1 & E1 & S1 & O1 & P1) end.
  rewrite (bind_clean _ _ _ _ _ E1). clear E1. destruct (enforceCaps_clean cfg Hc (set_registry reg1 t)) as (reg2 & E2 & [C2 O2 _ S2 _ _]).
  { etransitivity; [apply (number_dom _ (relay_registry t)), same_relays_dom, S1|done]. }
  exists reg2. rewrite E2. split; [by destruct t|]. split; [done|by eapply same_relays_trans|].
  intros k r Hr Hp Hin. assert (∃ r1, reg1 !! k = Some r1 ∧ RManualPolicy r1 = ManualPolicyPinned ∧ pinned_tier r1 = true) as (r1 & Hr1 & Hp1 & Ht1).
  { destruct (decide (k ∈ (list_rows (mkFilter [] [] 1000) (relay_registry t)).*1)) as [Hl|Hl].
    - apply list_elem_of_fmap in Hl as ([k' r'] & -> & Hl). pose proof (Hft _ Hl) as Hr'. cbn [fst snd] in *. assert (r' = r) as -> by congruence.
      destruct (P1 k' r Hl Hp) as (r1 & Hr1 & Hs). exists r1. split; [done|].
      destruct (S1 k') as [[? ?]|(r0 & r2 & Hr0 & Hr2 & Ho & _)]; [congruence|]. split; [congruence|]. unfold pinned_tier. by rewrite Hs.
    - exists r. destruct Hin as [Hin|Hin]; [|by rewrite O1]. destruct Hl. apply list_elem_of_fmap. by exists (k, r). }
  exists r1. split; [|done]. apply O2; [done| |]; unfold dynamic_active, in_probation, pinned_tier in *; rewrite Hp1 in *.
  - by rewrite andb_false_r.
  - by destruct (RAdmissionState r1).
Qed.

Lemma keys_subset (P Q : RelayRecord → bool) reg : (∀ r, P r = true → Q r = true) → keys_of P reg ⊆ keys_of Q reg.
Proof. intros Hpq k. rewrite !elem_of_keys. intros (r & Hr & Hp). exists r. auto. Qed.

Lemma size_union_le (X Y : gset string) : (size (X ∪ Y) ≤ size X + size Y)%nat.
Proof.
  rewrite size_union_alt. assert (size (Y ∖ X) ≤ size Y)%nat by (apply subseteq_size; set_solver). lia.
Qed.

Lemma connectable_tiers r : connectable r = true → dynamic_active r = true ∨ pinned_tier r = true.
Proof. unfold connectable, dynamic_active, pinned_tier. destruct (RAdmissionState r), (RManualPolicy r); simpl; auto. Qed.

Lemma connectable_urls_spec reg :
  Z.of_nat (length (connectable_urls reg)) ≤ number pinned_tier reg + number dynamic_active reg ∧
  (∀ u, u ∈ connectable_urls reg ↔ ∃ k r, reg !! k = Some r ∧ connectable r = true ∧ NormalizedURL r = u).
Proof.
  unfold connectable_urls.
  destruct (filter_entries connectable reg (merge_sort listed_before (List.filter (λ e, connectable e.2) (map_to_list reg))))
    as (Hnd & Hs & Hel); [apply merge_sort_Permutation|]. set (l := merge_sort _ _) in *. split.
  - rewrite length_map. change (Z.of_nat (length l)) with (count l). rewrite count_keys, Hs by done. unfold number.
    rewrite <-Nat2Z.inj_add. apply inj_le. etransitivity; [|apply size_union_le]. apply subseteq_size. intros k.
    rewrite elem_of_union, !elem_of_keys. intros (r & Hr & [Hp|Hp]%connectable_tiers); [right|left]; by exists r.
  - intros u. rewrite (list_elem_of_fmap (λ e : entry, NormalizedURL e.2)). split.
    + intros ([k r] & -> & He). apply Hel in He as [Hr Hp]. by exists k, r.
    + intros (k & r & Hr & Hp & <-). exists (k, r). split; [done|]. by apply Hel.
Qed.

Lemma publish_clean t :
  ∃ sets, PublishDesiredSetFromRegistry (mkDb t []) = (mkDb (mkCtl (relay_registry t) sets) [], Ok tt) ∧
    sets = match connectable_urls (relay_registry t) with [] => relay_desired_set t | urls => urls :: relay_desired_set t end.
Proof.
  unfold PublishDesiredSetFromRegistry, GetActiveAndPinnedRelayURLs, go_wrap, query, stmt, go_bind.
  cbn [next_fault faults tables wrap_err]. destruct (connectable_urls (relay_registry t)); eexists; split; try done. by destruct t.
Qed.
End cycle_lemmas.

Section theorems.
Context `{UnicodeTables} `{URLParser} `{Log10} `{SliceSort}.
Context (cfg : AdmissionConfig).

(** A cap enforcement on which no statement fails leaves the tiers within
    their caps; it demotes only relays of the active tier that are not pinned and
    relays in probation, of the former those with the lowest scores; policies,
    URLs, scores and every other row stay. *)
Theorem caps_enforced (t : ctl_tables) :
  caps_ok cfg → number in_tier (relay_registry t) ≤ enforcementListLimit →
  ∃ reg', enforceCaps cfg (mkDb t []) = (mkDb (set_registry reg' t) [], Ok tt) ∧ enforced cfg (relay_registry t) reg'.
Proof. intros Hc. by apply enforceCaps_clean. Qed.

(** The end of a refresh cycle, from the table [t] that seeding and discovery leave. *)
Lemma refresh_from (allowPrivate : bool) (seeds : list string) (discover : go (db ctl_tables) unit)
    (shares : gmap string PropagationShare) (s : db ctl_tables) (t : ctl_tables) :
  caps_ok cfg →
  (go_try (reconcileSeedRelays allowPrivate seeds) ;; go_try discover) s = (mkDb t [], Ok tt) →
  Z.of_nat (size (relay_registry t)) ≤ enforcementListLimit →
  ∃ t', runRefreshCycle cfg allowPrivate seeds discover shares s = (mkDb t' [], Ok tt) ∧
    let urls := connectable_urls (relay_registry t') in
    relay_desired_set t' = match urls with [] => relay_desired_set t | _ => urls :: relay_desired_set t end ∧
    capped cfg (relay_registry t') ∧ same_relays (relay_registry t) (relay_registry t') ∧
    Z.of_nat (length urls) ≤ Z.max (MaxTotalActive cfg) (number pinned_tier (relay_registry t')) ∧
    (∀ u, u ∈ urls ↔ ∃ k r, relay_registry t' !! k = Some r ∧ connectable r = true ∧ NormalizedURL r = u) ∧
    (∀ k r, relay_registry t !! k = Some r → RManualPolicy r = ManualPolicyPinned →
       (k, r) ∈ list_rows (mkFilter [] [] 1000) (relay_registry t) ∨ pinned_tier r = true → NormalizedURL r ∈ urls).
Proof.
  intros Hc E Hn. destruct (Run_clean cfg shares t Hc Hn) as (reg' & ER & [C S P]).
  destruct (publish_clean (set_registry reg' t)) as (sets & EP & Hs).
  exists (mkCtl reg' sets). destruct (connectable_urls_spec reg') as [Hlen Hel]. simpl in Hs. cbv zeta. cbn [relay_registry relay_desired_set].
  split_and!; try done.
  - unfold runRefreshCycle. unfold go_bind in E |- *. destruct (go_try (reconcileSeedRelays allowPrivate seeds) s) as [s1 [u|e]]; [|done].
    rewrite E. cbv iota beta. unfold go_try at 1. rewrite ER. cbn [fst]. unfold go_try. by rewrite EP.
  - rewrite Hs. by destruct (connectable_urls reg').
  - destruct C as (_ & C & _). destruct C as [C|C]; lia.
  - intros k r Hr Hp Hin. destruct (P k r Hr Hp Hin) as (r' & Hr' & Hst). apply Hel. exists k, r'.
    destruct (S k) as [[? ?]|(r0 & r1 & H0' & H1' & Hpol & Hurl & _)]; [congruence|].
    assert (r0 = r) as -> by congruence. assert (r1 = r') as -> by congruence. split_and!; [done| |done].
    unfold connectable, held_policy. rewrite Hpol, Hp. unfold pinned_tier in Hst. by destruct (RAdmissionState r').
Qed.

End theorems.

(** * Examples *)

Module AdmissionExample.

Existing Instance HostExample.toy_parser.
Existing Instance ascii_tables.

#[local] Existing Instance insertion_sort.

#[local] Instance toy_log : Log10 := {| log10 := λ x, x |}.

Definition toy_cfg : AdmissionConfig := mkAdmission 2 1 1 (f64_of_Z 10) (f64_of_Z 30) half.

Definition row (url : string) (policy : ManualPolicy) (state : AdmissionState) (score users : Z) : RelayRecord :=
  mkRelay url false true false policy state (f64_of_Z score) users f0 None None None f0 f0 f0 0.

(** Four active relays, one of them pinned. *)
Definition crowded : ctl_tables :=
  mkCtl (list_to_map
    [("a", row "wss://a" ManualPolicyNone AdmissionActive 40 2);
     ("b", row "wss://b" ManualPolicyNone AdmissionActive 60 3);
     ("c", row "wss://c" ManualPolicyNone AdmissionActive 20 1);
     ("p", row "wss://p" ManualPolicyPinned AdmissionActive 0 0)]) [].

Definition states (reg : gmap string RelayRecord) : list (string * AdmissionState) :=
  map (λ e : entry, (e.1, RAdmissionState e.2)) (merge_sort listed_before (map_to_list reg)).

Example crowded_run :
  let s := (Run toy_cfg ∅ (mkDb crowded [])).1 in
  states (relay_registry (tables s))
  = [("b", AdmissionActive); ("a", AdmissionProbation); ("c", AdmissionInactive); ("p", AdmissionPinned)].
Proof. vm_compute. reflexivity. Qed.

Lemma toy_caps : caps_ok toy_cfg.
Proof. split; vm_compute; discriminate. Defined.

Lemma caps_enforced_witness :
  ∃ reg', enforceCaps toy_cfg (mkDb crowded []) = (mkDb (set_registry reg' crowded) [], Ok tt) ∧
    enforced toy_cfg (relay_registry crowded) reg'.
Proof. apply (caps_enforced toy_cfg crowded); [exact toy_caps|vm_compute; discriminate]. Defined.

(** The dry run knows no caps: it proposes to keep all four relays active or
    pinned, of which [Run] keeps two. *)
Example dry_run_ignores_caps :
  map (λ p, (ProposalKey p, ProposedState p)) (match (RunDryRun toy_cfg ∅ (mkDb crowded [])).2 with Ok ps => ps | Err _ => [] end)
  = [("b", AdmissionActive); ("a", AdmissionActive); ("c", AdmissionActive); ("p", AdmissionPinned)].
Proof. vm_compute. reflexivity. Qed.

(** An operator who blocks a relay and lifts the block again: the row stays
    blocked, whatever its score. *)
Example unblocked_stays_blocked :
  let s := (SetManualPolicy "b" ManualPolicyBlocked ;; Run toy_cfg ∅ ;; SetManualPolicy "b" ManualPolicyNone ;; Run toy_cfg ∅)
             (mkDb crowded []) in
  s.2 = Ok tt ∧
  (λ r, (RManualPolicy r, RAdmissionState r)) <$> relay_registry (tables s.1) !! "b" = Some (ManualPolicyNone, AdmissionBlocked).
Proof. split; vm_compute; reflexivity. Qed.

(** A newly pinned active relay is counted as pinned, but frees a dynamic slot
    when its row becomes pinned: a relay in probation is promoted although the
    dynamic tier is full. *)
Definition newly_pinned : ctl_tables :=
  mkCtl (list_to_map
    [("b", row "wss://b" ManualPolicyNone AdmissionActive 60 3);
     ("p", row "wss://p" ManualPolicyPinned AdmissionActive 80 4);
     ("q", row "wss://q" ManualPolicyNone AdmissionProbation 40 2)]) [].

Example pin_frees_a_slot :
  let cfg := mkAdmission 9 1 9 (f64_of_Z 10) (f64_of_Z 30) half in
  let reg := relay_registry newly_pinned in
  let o := foldl count_tier (mkOccupancy 0 0 0) (list_rows capped_tiers reg) in
  let s := (transitions cfg ∅ ∅ o (list_rows (mkFilter [] [] 1000) reg) (mkDb newly_pinned [])).1 in
  o = mkOccupancy 1 1 1 ∧
  states (relay_registry (tables s)) = [("p", AdmissionPinned); ("b", AdmissionActive); ("q", AdmissionActive)].
Proof. split; vm_compute; reflexivity. Qed.

End AdmissionExample.
