(* ===== verification/Discovery.v ===== *)
(** Relay discovery ([internal/relaydiscovery/discovery.go]): the relays that
    users list, counted by distinct user, and which of them are written to the
    registry; with the two registry statements only discovery uses
    ([internal/relayregistry]); and the whole refresh cycle of
    [internal/relaycontrol/controller.go], from seeding to the published set.

    The order in which Go ranges over a map is a parameter, some permutation of
    the bindings. *)

From S2P Require Import Prelude GoLib GoFloat Json Sha256 Db RelayURL Registry Admission.

Local Open Scope go_scope.

(** * Hosts of URLs *)

Definition cut_at (sep : string) (s : string) : option (string * string) :=
  (fix go (pre l : list Z) : option (string * string) :=
     if has_prefix (bytes sep) l then Some (str (rev pre), str (drop (length (bytes sep)) l))
     else match l with [] => None | b :: l => go (b :: pre) l end) [] (bytes s).

Definition candidateHost (normalizedURL : string) : string :=
  match cut_at "://" normalizedURL with
  | None => ""
  | Some (_, rest) => match cut_at "/" rest with Some (host, _) => host | None => rest end
  end.

(** [split_part(s, sep, 1)] and [split_part(s, sep, 2)]. *)
Definition split_part1 (s sep : string) : string := match cut_at sep s with Some (p, _) => p | None => s end.
Definition split_part2 (s sep : string) : string := match cut_at sep s with Some (_, r) => split_part1 r sep | None => "" end.

Definition sql_host (url : string) : string := split_part1 (split_part2 url "://") "/".

Definition CountRelaysByHost : go (db ctl_tables) (gmap string Z) :=
  go_wrap "count relay registry hosts" (query (λ t,
    foldl (λ m (e : entry), let h := sql_host (NormalizedURL e.2) in
             if bool_decide (h = "") then m else <[h := default 0 (m !! h) + 1]> m)
      ∅ (map_to_list (relay_registry t)))).

(** * Candidates *)

Record relayCandidateAgg := mkCandidate {
  CNormalizedURL : string;
  CURLKey : string;
  DistinctUsers : Z;
  WeightedScore : f64;
}.

(** Insertion sort in place, by distinct users, descending. *)
Fixpoint sift (j : nat) (l : list relayCandidateAgg) : list relayCandidateAgg :=
  match j with
  | O => l
  | S j' =>
      match l !! j, l !! j' with
      | Some a, Some b => if DistinctUsers b <? DistinctUsers a then sift j' (<[j := b]> (<[j' := a]> l)) else l
      | _, _ => l
      end
  end.

Definition sortCandidates (l : list relayCandidateAgg) : list relayCandidateAgg :=
  foldl (λ l i, sift i l) l (seq 1 (length l - 1)).

Section plan.
Context (existing : gset string) (minDistinctUserRefs maxNewInserts maxVariantsPerHost : Z).

Definition known (c : relayCandidateAgg) : bool := bool_decide (CURLKey c ∈ existing).

(** The loop of [planDiscoveryUpserts]. *)
Fixpoint plan_loop (newInserts : Z) (hostCounts : gmap string Z) (candidates : list relayCandidateAgg)
    : list relayCandidateAgg :=
  match candidates with
  | [] => []
  | c :: cs =>
      if known c then c :: plan_loop newInserts hostCounts cs
      else if DistinctUsers c <? minDistinctUserRefs then plan_loop newInserts hostCounts cs
      else if maxNewInserts <=? newInserts then plan_loop newInserts hostCounts cs
      else
        let host := candidateHost (CNormalizedURL c) in
        if bool_decide (host = "") then plan_loop newInserts hostCounts cs
        else if (0 <? maxVariantsPerHost) && (maxVariantsPerHost <=? default 0 (hostCounts !! host))
        then plan_loop newInserts hostCounts cs
        else c :: plan_loop (newInserts + 1) (<[host := default 0 (hostCounts !! host) + 1]> hostCounts) cs
  end.
End plan.

Definition planDiscoveryUpserts (candidates : list relayCandidateAgg) (existing : gset string) (hostCounts : gmap string Z)
    (minDistinctUserRefs maxNewInserts maxVariantsPerHost : Z) : list relayCandidateAgg :=
  let maxNewInserts := if maxNewInserts <? 0 then 0 else maxNewInserts in
  plan_loop existing minDistinctUserRefs maxNewInserts maxVariantsPerHost 0 hostCounts candidates.

Section runner.
Context `{UnicodeTables} `{URLParser} `{MapRange}.

(** What is known of a relay: its URL and the users who list it. *)
Abbreviation refs := (gmap string (string * gset string)).

Definition add_relay (allowPrivate : bool) (pubkey : string) (m : refs) (raw : string) : refs :=
  match Normalize raw (negb allowPrivate) with
  | Err _ => m
  | Ok normalized =>
      match Validate normalized allowPrivate with
      | Err _ => m
      | Ok _ =>
          let urlKey := CanonicalKey normalized in
          let '(u, users) := default (normalized, ∅) (m !! urlKey) in
          <[urlKey := (u, {[pubkey]} ∪ users)]> m
      end
  end.

(** One row of a relay-list table: a pubkey and a JSON text. *)
Definition add_row (allowPrivate : bool) (m : refs) (row : string * string) : refs :=
  let pubkey := trim_space row.1 in
  if bool_decide (pubkey = "") then m
  else
    match json_parse (bytes row.2) with
    | None => m
    | Some v =>
        match unmarshal_strings v with
        | None => m
        | Some relays => foldl (add_relay allowPrivate pubkey) m relays
        end
    end.

Definition accumulateRelayLists (allowPrivate : bool) (rows : list (string * string)) (m : refs) : go (db ctl_tables) refs :=
  rows <- go_wrap "query relay lists" (query (λ _, rows)) ;;
  go_ret (foldl (add_row allowPrivate) m rows).

Definition candidate_of (b : string * (string * gset string)) : relayCandidateAgg :=
  let n := Z.of_nat (size b.2.2) in mkCandidate b.2.1 b.1 n (f64_of_Z n).

Definition aggregateRelayReferences (allowPrivate : bool) (relay_lists dm_lists : list (string * string))
    : go (db ctl_tables) (list relayCandidateAgg) :=
  m <- accumulateRelayLists allowPrivate relay_lists ∅ ;;
  m <- accumulateRelayLists allowPrivate dm_lists m ;;
  go_ret (sortCandidates (map candidate_of (map_range m))).

(** ** Hints *)

(** A row of [relay_hint_daily]. *)
Record hint := mkHint { h_day : Z; h_url : string; h_count : Z }.

Definition hint_sums (today : Z) (hints : list hint) : gmap string Z :=
  foldl (λ m h, if today - 7 <=? h_day h then <[h_url h := default 0 (m !! h_url h) + h_count h]> m else m) ∅ hints.

Definition hint_before (a b : string * Z) : Prop := b.2 < a.2 ∨ (a.2 = b.2 ∧ String.leb a.1 b.1 = true).

#[local] Instance hint_before_dec a b : Decision (hint_before a b).
Proof. unfold hint_before. apply _. Defined.

Definition hint_rows (today limit : Z) (hints : list hint) : list string :=
  map fst (take (Z.to_nat limit)
    (merge_sort hint_before (List.filter (λ b : string * Z, 3 <=? b.2) (map_to_list (hint_sums today hints))))).

Fixpoint insert_hints (urls : list string) : go (db ctl_tables) unit :=
  match urls with
  | [] => go_ret tt
  | u :: urls =>
      match Normalize u false with
      | Err _ => insert_hints urls
      | Ok n =>
          go_wrap "insert hinted relay" (exec (λ t,
            let key := CanonicalKey n in
            match relay_registry t !! key with
            | Some _ => t
            | None => set_registry (<[key := new_row n false false AdmissionCandidate 1 (f64_of_Z 1)]> (relay_registry t)) t
            end)) ;;
          insert_hints urls
      end
  end.

Definition InsertHintRelays (today : Z) (hints : list hint) (limit : Z) : go (db ctl_tables) unit :=
  let limit := if limit <=? 0 then 25 else limit in
  urls <- go_wrap "list relay hints" (query (λ _, hint_rows today limit hints)) ;;
  insert_hints urls.

(** ** The pass *)

Record DiscoveryConfig := mkDiscovery {
  Enabled : bool;
  MinDistinctUserRefs : Z;
  MaxNewCandidatesPerRun : Z;
  MaxVariantsPerHost : Z;
}.

Fixpoint upsert_all (planned : list relayCandidateAgg) : go (db ctl_tables) unit :=
  match planned with
  | [] => go_ret tt
  | c :: cs => go_try (UpsertDiscoveredRelay (CURLKey c) (CNormalizedURL c) (DistinctUsers c) (WeightedScore c)) ;; upsert_all cs
  end.

Definition insert_limit (cfg : DiscoveryConfig) : Z :=
  if MaxNewCandidatesPerRun cfg <=? 0 then 25 else MaxNewCandidatesPerRun cfg.

Definition variant_limit (cfg : DiscoveryConfig) : Z := if MaxVariantsPerHost cfg <=? 0 then 3 else MaxVariantsPerHost cfg.

Definition discover (cfg : DiscoveryConfig) (allowPrivate : bool) (relay_lists dm_lists : list (string * string))
    (today : Z) (hints : list hint) : go (db ctl_tables) unit :=
  if Enabled cfg then
    candidates <- go_wrap "aggregate relay references" (aggregateRelayReferences allowPrivate relay_lists dm_lists) ;;
    existing <- go_wrap "list existing registry relays" ListURLKeys ;;
    hostCounts <- go_wrap "count registry relays by host" CountRelaysByHost ;;
    upsert_all (planDiscoveryUpserts candidates existing hostCounts (MinDistinctUserRefs cfg) (insert_limit cfg) (variant_limit cfg)) ;;
    go_try (InsertHintRelays today hints (insert_limit cfg))
  else go_ret tt.
End runner.

(** * Sorting *)

Definition more_users (a b : relayCandidateAgg) : Prop := DistinctUsers b ≤ DistinctUsers a.

(** Insertion into the sorted part, seen from its end. *)
Fixpoint place (a : relayCandidateAgg) (rp : list relayCandidateAgg) : list relayCandidateAgg :=
  match rp with
  | [] => [a]
  | b :: rp' => if DistinctUsers b <? DistinctUsers a then b :: place a rp' else a :: rp
  end.

Lemma sift_place rp : ∀ a post,
  sift (length rp) (rev rp ++ a :: post) = rev (place a rp) ++ post.
Proof.
  induction rp as [|b rp IH]; intros a post; [done|]. cbn [rev length sift place].
  assert (length (rev rp) = length rp) as Hl by apply length_rev.
  rewrite <-app_assoc. cbn [app].
  assert ((rev rp ++ b :: a :: post) !! S (length rp) = Some a) as ->
    by (rewrite lookup_app_r, Hl by lia; by replace (S (length rp) - length rp)%nat with 1%nat by lia).
  assert ((rev rp ++ b :: a :: post) !! length rp = Some b) as ->
    by (rewrite lookup_app_r, Hl, Nat.sub_diag by lia; done).
  destruct (DistinctUsers b <? DistinctUsers a).
  - assert (<[S (length rp) := b]> (<[length rp := a]> (rev rp ++ b :: a :: post)) = rev rp ++ a :: b :: post) as ->.
    { rewrite insert_app_r_alt by lia. rewrite Hl, Nat.sub_diag. cbn [list_insert insert].
      rewrite insert_app_r_alt by lia. rewrite Hl. by replace (S (length rp) - length rp)%nat with 1%nat by lia. }
    rewrite IH. cbn [rev]. by rewrite <-app_assoc.
  - cbn [rev]. by rewrite <-!app_assoc.
Qed.

Lemma place_length a rp : length (place a rp) = S (length rp).
Proof. induction rp as [|b rp IH]; simpl; [done|]. case_match; simpl; congruence. Qed.

Lemma sift_all todo : ∀ rp,
  foldl (λ l i, sift i l) (rev rp ++ todo) (seq (length rp) (length todo)) = rev (foldl (λ rp a, place a rp) rp todo).
Proof.
  induction todo as [|a todo IH]; intros rp; simpl; [by rewrite app_nil_r|].
  rewrite sift_place. rewrite <-IH, place_length. done.
Qed.

Lemma sortCandidates_place l : sortCandidates l = rev (foldl (λ rp a, place a rp) [] l).
Proof.
  unfold sortCandidates. destruct l as [|a l]; [done|]. cbn [length foldl]. rewrite Nat.sub_1_r. cbn [pred place].
  apply (sift_all l [a]).
Qed.

Lemma place_perm a rp : place a rp ≡ₚ a :: rp.
Proof. induction rp as [|b rp IH]; simpl; [done|]. case_match; [|done]. rewrite IH. constructor. Qed.

Lemma place_sorted a rp :
  StronglySorted (flip more_users) rp → StronglySorted (flip more_users) (place a rp).
Proof.
  induction rp as [|b rp IH]; intros Hs; simpl; [by repeat constructor|]. inversion Hs as [|? ? Hs' Hb]; subst.
  destruct (Z.ltb_spec (DistinctUsers b) (DistinctUsers a)) as [Hlt|Hge].
  - constructor; [by apply IH|]. eapply Forall_perm; [symmetry; apply place_perm|]. constructor; [|done].
    unfold flip, more_users. lia.
  - constructor; [done|]. constructor; [done|]. eapply List.Forall_impl; [|exact Hb]. unfold flip, more_users. lia.
Qed.

(** Equal counts keep their order. *)
Definition with_users (n : Z) (c : relayCandidateAgg) : bool := DistinctUsers c =? n.

Lemma place_stable n a rp :
  StronglySorted (flip more_users) rp →
  List.filter (with_users n) (place a rp) = List.filter (with_users n) (a :: rp).
Proof.
  induction rp as [|b rp IH]; intros Hs; [done|]. cbn [place]. inversion Hs as [|? ? Hs' Hb]; subst.
  destruct (Z.ltb_spec (DistinctUsers b) (DistinctUsers a)) as [Hlt|Hge]; [|done].
  cbn [List.filter]. rewrite (IH Hs'). cbn [List.filter]. unfold with_users.
  destruct (Z.eqb_spec (DistinctUsers a) n), (Z.eqb_spec (DistinctUsers b) n); try done. lia.
Qed.

Lemma filter_rev {A} (P : A → bool) l : List.filter P (rev l) = rev (List.filter P l).
Proof.
  induction l as [|x l IH]; [done|]. cbn [rev List.filter]. rewrite List.filter_app, IH. cbn [List.filter].
  destruct (P x); [done|]. by rewrite app_nil_r.
Qed.

Lemma sorted_flip_rev (l : list relayCandidateAgg) :
  StronglySorted (flip more_users) l → StronglySorted more_users (rev l).
Proof.
  induction l as [|x l IH]; intros Hs; [constructor|]. inversion Hs as [|? ? Hs' Hx]; subst. cbn [rev].
  specialize (IH Hs'). assert (Forall (λ y, more_users y x) (rev l)) as Hr.
  { eapply Forall_perm; [apply Permutation_rev|done]. }
  clear -IH Hr. induction (rev l) as [|y r IHr]; simpl; [by repeat constructor|].
  inversion IH as [|? ? IH' Hy]; subst. inversion Hr as [|? ? Hyx Hr']; subst.
  constructor; [by apply IHr|]. apply Forall_app_2; [done|]. by repeat constructor.
Qed.

Lemma place_all l : ∀ rp, StronglySorted (flip more_users) rp →
  let r := foldl (λ rp a, place a rp) rp l in
  StronglySorted (flip more_users) r ∧ r ≡ₚ rev l ++ rp ∧
  (∀ n, List.filter (with_users n) r = List.filter (with_users n) (rev l ++ rp)).
Proof.
  induction l as [|a l IH]; intros rp Hs; cbv zeta; [done|]. cbn [foldl].
  destruct (IH (place a rp) (place_sorted a rp Hs)) as (S1 & P1 & F1). split_and!; [done| |].
  - rewrite P1, place_perm. cbn [rev]. by rewrite <-app_assoc.
  - intros n. rewrite F1, !List.filter_app, place_stable by done. cbn [rev]. rewrite List.filter_app, <-app_assoc.
    f_equal. cbn [List.filter]. by destruct (with_users n a).
Qed.

Lemma sortCandidates_spec l :
  StronglySorted more_users (sortCandidates l) ∧ sortCandidates l ≡ₚ l ∧
  (∀ n, List.filter (with_users n) (sortCandidates l) = List.filter (with_users n) l).
Proof.
  rewrite sortCandidates_place. destruct (place_all l [] ltac:(constructor)) as (S1 & P1 & F1). cbv zeta in *.
  set (r := foldl _ _ _) in *. split_and!.
  - by apply sorted_flip_rev.
  - by rewrite <-Permutation_rev, P1, app_nil_r, <-Permutation_rev.
  - intros n. rewrite filter_rev, F1, app_nil_r, filter_rev. by rewrite rev_involutive.
Qed.

(** * The plan *)

Section plan_lemmas.
Context (existing : gset string) (minUsers maxNew maxVar : Z).

Definition newcomers (l : list relayCandidateAgg) : list relayCandidateAgg := List.filter (λ c, negb (known existing c)) l.

Definition on_host (h : string) (l : list relayCandidateAgg) : list relayCandidateAgg :=
  List.filter (λ c, bool_decide (candidateHost (CNormalizedURL c) = h)) l.

Definition amount (l : list relayCandidateAgg) : Z := Z.of_nat (length l).

(** Entries of a host, planned ones included. *)
Definition variants (hostCounts : gmap string Z) (out : list relayCandidateAgg) (h : string) : Z :=
  default 0 (hostCounts !! h) + amount (on_host h (newcomers out)).

Definition eligible (c : relayCandidateAgg) : Prop :=
  known existing c = false ∧ minUsers ≤ DistinctUsers c ∧ candidateHost (CNormalizedURL c) ≠ "".

Definition host_full (hostCounts : gmap string Z) (out : list relayCandidateAgg) (c : relayCandidateAgg) : Prop :=
  0 < maxVar ∧ maxVar ≤ variants hostCounts out (candidateHost (CNormalizedURL c)).

(** A plan after [n] inserts. *)
Record plan_spec (n : Z) (hostCounts : gmap string Z) (cs out : list relayCandidateAgg) : Prop := {
  ps_sub : out `sublist_of` cs;
  ps_known : List.filter (known existing) out = List.filter (known existing) cs;
  ps_eligible : Forall eligible (newcomers out);
  ps_budget : n + amount (newcomers out) ≤ Z.max n maxNew;
  ps_hosts : 0 < maxVar → ∀ h, variants hostCounts out h ≤ Z.max (default 0 (hostCounts !! h)) maxVar;
  ps_maximal : ∀ c, c ∈ cs → eligible c → c ∈ out ∨ maxNew ≤ n + amount (newcomers out) ∨ host_full hostCounts out c;
  ps_popular : StronglySorted more_users cs → ∀ c d, c ∈ cs → eligible c → c ∉ out → ¬ host_full hostCounts out c →
    d ∈ newcomers out → more_users d c;
}.

Lemma newcomers_cons c l :
  newcomers (c :: l) = if known existing c then newcomers l else c :: newcomers l.
Proof. unfold newcomers. cbn [List.filter]. by destruct (known existing c). Qed.

Lemma amount_cons c l : amount (c :: l) = amount l + 1.
Proof. unfold amount. cbn [length]. lia. Qed.

Lemma amount_pos l : 0 ≤ amount l.
Proof. unfold amount. lia. Qed.

Lemma amount_zero l : amount l ≤ 0 → l = [].
Proof. unfold amount. destruct l; [done|]. cbn [length]. lia. Qed.

Lemma on_host_cons h c l :
  on_host h (c :: l) = if bool_decide (candidateHost (CNormalizedURL c) = h) then c :: on_host h l else on_host h l.
Proof. done. Qed.

(** A relay that is skipped: for its users or its host, for the budget, or for
    the variants of its host. *)
Lemma skip_spec n hc c cs out :
  known existing c = false →
  (eligible c → maxNew ≤ n ∨ (0 < maxVar ∧ maxVar ≤ default 0 (hc !! candidateHost (CNormalizedURL c)))) →
  plan_spec n hc cs out → plan_spec n hc (c :: cs) out.
Proof.
  intros Hk Hskip [Hs HK He Hb Hh Hm Hp]. pose proof (amount_pos (newcomers out)) as H0. split; try done.
  - by constructor.
  - cbn [List.filter]. by rewrite Hk.
  - intros d Hd Hel. apply elem_of_cons in Hd as [->|Hd]; [|by apply Hm]. right.
    destruct (Hskip Hel) as [Hn|[Hv1 Hv2]]; [left; lia|right]. split; [done|]. unfold variants.
    pose proof (amount_pos (on_host (candidateHost (CNormalizedURL c)) (newcomers out))). lia.
  - intros Hsort c' d Hc' Hel Hout Hnf Hd. inversion Hsort as [|? ? Hsort' Hc]; subst.
    apply elem_of_cons in Hc' as [->|Hc']; [|by eapply Hp].
    destruct (Hskip Hel) as [Hn|[Hv1 Hv2]].
    + assert (newcomers out = []) as E by (apply amount_zero; lia). rewrite E in Hd. by apply not_elem_of_nil in Hd.
    + destruct Hnf. split; [done|]. unfold variants.
      pose proof (amount_pos (on_host (candidateHost (CNormalizedURL c)) (newcomers out))). lia.
Qed.

Lemma known_spec n hc c cs out :
  known existing c = true → plan_spec n hc cs out → plan_spec n hc (c :: cs) (c :: out).
Proof.
  intros Hk [Hs HK He Hb Hh Hm Hp].
  assert (newcomers (c :: out) = newcomers out) as E by (by rewrite newcomers_cons, Hk).
  split; unfold host_full, variants in *; rewrite ?E; try done.
  - by constructor.
  - cbn [List.filter]. rewrite Hk. by f_equal.
  - intros d Hd [Hdk Hel]. apply elem_of_cons in Hd as [->|Hd]; [congruence|].
    destruct (Hm d Hd (conj Hdk Hel)) as [?|?]; [left; by right|by right].
  - intros Hsort c' d Hc' [Hck Hel] Hout. inversion Hsort; subst.
    apply elem_of_cons in Hc' as [->|Hc']; [congruence|]. apply not_elem_of_cons in Hout as [_ Hout]. by apply Hp.
Qed.

Lemma variants_step hc c l h :
  let host := candidateHost (CNormalizedURL c) in
  known existing c = false →
  variants hc (c :: l) h = variants (<[host := default 0 (hc !! host) + 1]> hc) l h.
Proof.
  cbv zeta. intros Hk. unfold variants. rewrite newcomers_cons, Hk, on_host_cons.
  case_bool_decide as Eh; [subst h; rewrite lookup_insert_eq, amount_cons; simpl; lia|by rewrite lookup_insert_ne].
Qed.

Lemma insert_spec n hc c cs out :
  let host := candidateHost (CNormalizedURL c) in
  eligible c → n < maxNew → (0 < maxVar → default 0 (hc !! host) < maxVar) →
  plan_spec (n + 1) (<[host := default 0 (hc !! host) + 1]> hc) cs out → plan_spec n hc (c :: cs) (c :: out).
Proof.
  cbv zeta. intros Hel Hn Hv [Hs HK He Hb Hh Hm Hp]. pose proof Hel as (Hk & _ & _).
  set (host := candidateHost (CNormalizedURL c)) in *. set (hc' := <[host := _]> hc) in *.
  assert (∀ h, variants hc (c :: out) h = variants hc' out h) as EV by (intros h; by apply variants_step).
  assert (newcomers (c :: out) = c :: newcomers out) as E by (by rewrite newcomers_cons, Hk).
  split; unfold host_full in *; rewrite ?E, ?amount_cons.
  - by constructor.
  - cbn [List.filter]. by rewrite Hk.
  - by constructor.
  - lia.
  - intros Hv' h. rewrite EV. specialize (Hh Hv' h). specialize (Hv Hv'). unfold hc' in Hh at 2.
    destruct (decide (h = host)) as [->|Hne]; [rewrite lookup_insert_eq in Hh; simpl in Hh; lia|].
    by rewrite lookup_insert_ne in Hh.
  - intros d Hd Hdel. rewrite EV. apply elem_of_cons in Hd as [->|Hd]; [left; by left|].
    destruct (Hm d Hd Hdel) as [?|[?|?]]; [left; by right|right; left; lia|by do 2 right].
  - intros Hsort c' d Hc' Hcel Hout. rewrite EV. intros Hnf Hd. inversion Hsort as [|? ? Hsort' Hc]; subst.
    apply not_elem_of_cons in Hout as [Hne Hout]. apply elem_of_cons in Hc' as [->|Hc']; [done|].
    apply elem_of_cons in Hd as [->|Hd]; [|by eapply Hp].
    rewrite List.Forall_forall in Hc. by apply Hc, list_elem_of_In.
Qed.

Lemma plan_loop_spec cs : ∀ n hc, plan_spec n hc cs (plan_loop existing minUsers maxNew maxVar n hc cs).
Proof.
  induction cs as [|c cs IH]; intros n hc.
  { split; try done; simpl; intros; try (by apply not_elem_of_nil in H); unfold variants, amount; simpl; lia. }
  cbn [plan_loop]. destruct (known existing c) eqn:Hk; [by apply known_spec|].
  destruct (Z.ltb_spec (DistinctUsers c) minUsers) as [Hu|Hu].
  { apply skip_spec; [done|intros (_ & ? & _); lia|apply IH]. }
  destruct (Z.leb_spec maxNew n) as [Hn|Hn]; [apply skip_spec; [done|by left|apply IH]|].
  case_bool_decide as Hh; [apply skip_spec; [done|by intros (_ & _ & ?)|apply IH]|].
  destruct (Z.ltb_spec 0 maxVar) as [Hv|Hv]; cbn [andb].
  - destruct (Z.leb_spec maxVar (default 0 (hc !! candidateHost (CNormalizedURL c)))) as [Hf|Hf];
      [apply skip_spec; [done|by right|apply IH]|apply insert_spec; [done|done|done|apply IH]].
  - apply insert_spec; [done|done|lia|apply IH].
Qed.
End plan_lemmas.

(** * Counting users *)

Section counting.
Context `{UnicodeTables} `{URLParser}.
Context (allowPrivate : bool).

(** The key under which a URL of a list is counted. *)
Definition key_of (raw : string) : option string :=
  match Normalize raw (negb allowPrivate) with
  | Err _ => None
  | Ok n => match Validate n allowPrivate with Err _ => None | Ok _ => Some (CanonicalKey n) end
  end.

Definition row_relays (row : string * string) : list string :=
  match json_parse (bytes row.2) with
  | Some v => default [] (unmarshal_strings v)
  | None => []
  end.

(** [p] names the relay with key [k] in some row. *)
Definition names (rows : list (string * string)) (p k : string) : Prop :=
  ∃ row raw, row ∈ rows ∧ trim_space row.1 = p ∧ p ≠ "" ∧ raw ∈ row_relays row ∧ key_of raw = Some k.

Definition users_of (m : gmap string (string * gset string)) (k : string) : gset string :=
  match m !! k with Some (_, us) => us | None => ∅ end.

(** Admissible URLs, each under its key, with a user at least. *)
Definition refs_ok (m : gmap string (string * gset string)) : Prop :=
  ∀ k u us, m !! k = Some (u, us) → k = CanonicalKey u ∧ Validate u allowPrivate = Ok tt ∧ us ≠ ∅.

Lemma add_relay_spec p m raw :
  refs_ok m → refs_ok (add_relay allowPrivate p m raw) ∧
  (∀ q k, q ∈ users_of (add_relay allowPrivate p m raw) k ↔ q ∈ users_of m k ∨ (q = p ∧ key_of raw = Some k)).
Proof.
  intros Hm. unfold add_relay, key_of. destruct (Normalize raw (negb allowPrivate)) as [n|e]; [|naive_solver].
  destruct (Validate n allowPrivate) as [[]|e] eqn:Ev; [|naive_solver].
  destruct (default (n, ∅) (m !! CanonicalKey n)) as [u us] eqn:Ed.
  assert (CanonicalKey n = CanonicalKey u ∧ Validate u allowPrivate = Ok tt ∧ us = users_of m (CanonicalKey n)) as (Hk & Hv & Hus).
  { unfold users_of. destruct (m !! CanonicalKey n) as [[u' us']|] eqn:Em; simpl in Ed; injection Ed as -> ->.
    - by destruct (Hm _ _ _ Em) as (? & ? & _).
    - done. }
  split.
  - intros k u' us' Hlk. destruct (decide (k = CanonicalKey n)) as [->|Hne].
    + rewrite lookup_insert_eq in Hlk. injection Hlk as <- <-. split_and!; [done|done|]. set_solver.
    + rewrite lookup_insert_ne in Hlk by done. by apply (Hm k).
  - intros q k. unfold users_of at 1. destruct (decide (k = CanonicalKey n)) as [->|Hne].
    + rewrite lookup_insert_eq, Hus, elem_of_union, elem_of_singleton. naive_solver.
    + rewrite lookup_insert_ne by done. fold (users_of m k). naive_solver.
Qed.

Lemma add_relays_spec p raws : ∀ m,
  refs_ok m → refs_ok (foldl (add_relay allowPrivate p) m raws) ∧
  (∀ q k, q ∈ users_of (foldl (add_relay allowPrivate p) m raws) k
          ↔ q ∈ users_of m k ∨ (q = p ∧ ∃ raw, raw ∈ raws ∧ key_of raw = Some k)).
Proof.
  induction raws as [|raw raws IH]; intros m Hm; cbn [foldl].
  { split; [done|]. intros q k. split; [by left|]. intros [?|(_ & raw & Hr & _)]; [done|]. by apply not_elem_of_nil in Hr. }
  destruct (add_relay_spec p m raw Hm) as [Hm1 Hu1]. destruct (IH _ Hm1) as [Hm2 Hu2]. split; [done|].
  intros q k. rewrite Hu2, Hu1. setoid_rewrite elem_of_cons. naive_solver.
Qed.

Lemma add_row_spec m row :
  refs_ok m → refs_ok (add_row allowPrivate m row) ∧
  (∀ q k, q ∈ users_of (add_row allowPrivate m row) k ↔ q ∈ users_of m k ∨ names [row] q k).
Proof.
  intros Hm. unfold names. setoid_rewrite list_elem_of_singleton. unfold add_row, row_relays. cbv zeta.
  case_bool_decide as Hp; [split; [done|naive_solver]|].
  destruct (json_parse (bytes row.2)) as [v|] eqn:Ej.
  - destruct (unmarshal_strings v) as [relays|] eqn:Eu.
    + destruct (add_relays_spec (trim_space row.1) relays m Hm) as [H1 H2]. split; [done|]. intros q k. rewrite H2. split.
      * intros [?|(-> & raw & Hr & Hk)]; [by left|right]. exists row, raw. rewrite Ej, Eu. done.
      * intros [?|(row' & raw & -> & <- & _ & Hr & Hk)]; [by left|right]. rewrite Ej, Eu in Hr. by eauto.
    + split; [done|]. intros q k. split; [by left|]. intros [?|(row' & raw & -> & _ & _ & Hr & _)]; [done|].
      rewrite Ej, Eu in Hr. by apply not_elem_of_nil in Hr.
  - split; [done|]. intros q k. split; [by left|]. intros [?|(row' & raw & -> & _ & _ & Hr & _)]; [done|].
    rewrite Ej in Hr. by apply not_elem_of_nil in Hr.
Qed.

Lemma add_rows_spec rows : ∀ m,
  refs_ok m → refs_ok (foldl (add_row allowPrivate) m rows) ∧
  (∀ q k, q ∈ users_of (foldl (add_row allowPrivate) m rows) k ↔ q ∈ users_of m k ∨ names rows q k).
Proof.
  induction rows as [|row rows IH]; intros m Hm; cbn [foldl].
  { split; [done|]. intros q k. split; [by left|]. intros [?|(row & raw & Hr & _)]; [done|]. by apply not_elem_of_nil in Hr. }
  destruct (add_row_spec m row Hm) as [Hm1 Hu1]. destruct (IH _ Hm1) as [Hm2 Hu2]. split; [done|].
  intros q k. rewrite Hu2, Hu1. unfold names. setoid_rewrite elem_of_cons. setoid_rewrite elem_of_nil. naive_solver.
Qed.

(** A candidate counts the users who name its relay on either list, each once. *)
Record counted (rows : list (string * string)) (c : relayCandidateAgg) : Prop := {
  co_key : CURLKey c = CanonicalKey (CNormalizedURL c);
  co_valid : Validate (CNormalizedURL c) allowPrivate = Ok tt;
  co_users : ∃ us : gset string, DistinctUsers c = Z.of_nat (size us) ∧ us ≠ ∅ ∧ ∀ p, p ∈ us ↔ names rows p (CURLKey c);
}.

Lemma aggregate_clean `{MapRange} relay_lists dm_lists t :
  ∃ cs, aggregateRelayReferences allowPrivate relay_lists dm_lists (mkDb t []) = (mkDb t [], Ok cs) ∧
    StronglySorted more_users cs ∧ NoDup (map CURLKey cs) ∧ Forall (counted (relay_lists ++ dm_lists)) cs ∧
    (∀ p k, names (relay_lists ++ dm_lists) p k → k ∈ map CURLKey cs).
Proof.
  eexists. split; [reflexivity|]. rewrite <-foldl_app. set (m := foldl _ _ _).
  destruct (add_rows_spec (relay_lists ++ dm_lists) ∅) as [Hok Hus]; [by intros k u us Hl; rewrite lookup_empty in Hl|].
  fold m in Hok, Hus. destruct (sortCandidates_spec (map candidate_of (map_range m))) as (Hs & Hp & _).
  assert (∀ c, c ∈ map candidate_of (map_range m) → ∃ k u us, m !! k = Some (u, us) ∧ c = candidate_of (k, (u, us))) as Hc.
  { intros c Hc. apply list_elem_of_fmap in Hc as ([k [u us]] & -> & Hin). rewrite range_perm in Hin.
    apply elem_of_map_to_list in Hin. by exists k, u, us. }
  split_and!; [done| | |].
  - change (NoDup (CURLKey <$> sortCandidates (map candidate_of (map_range m)))). rewrite Hp.
    change (NoDup (CURLKey <$> (candidate_of <$> map_range m))). rewrite <-list_fmap_compose. rewrite range_perm.
    apply (NoDup_fst_map_to_list m).
  - eapply Forall_perm; [symmetry; exact Hp|]. apply List.Forall_forall. intros c Hin. apply list_elem_of_In in Hin.
    destruct (Hc c Hin) as (k & u & us & Hm & ->). destruct (Hok k u us Hm) as (Hk & Hv & Hne).
    split; [done|done|]. exists us. split; [done|]. split; [done|]. intros p. change (CURLKey (candidate_of (k, (u, us)))) with k.
    specialize (Hus p k). unfold users_of in Hus. rewrite Hm, lookup_empty in Hus. rewrite Hus. split; [|by right].
    intros [Hin'|?]; [|done]. by apply elem_of_empty in Hin'.
  - intros p k Hn. specialize (proj2 (Hus p k) (or_intror Hn)). unfold users_of. destruct (m !! k) as [[u us]|] eqn:Em.
    + intros _. change (k ∈ CURLKey <$> sortCandidates (map candidate_of (map_range m))). rewrite Hp.
      apply list_elem_of_fmap. exists (candidate_of (k, (u, us))). split; [done|]. apply (list_elem_of_fmap_2 candidate_of).
      rewrite range_perm. by apply elem_of_map_to_list.
    + intros Hin. by apply elem_of_empty in Hin.
Qed.
End counting.

(** * The registry after a pass *)

Definition refresh_row (c : relayCandidateAgg) (r : RelayRecord) : RelayRecord :=
  mkRelay (NormalizedURL r) (SourceSeed r) true (SourceManual r) (RManualPolicy r) (RAdmissionState r)
    (Score r) (DistinctUsers c) (WeightedScore c) (LastProbeOK r) (LastConnectOK r) (AvgConnectLatency r) (ProbeFailRate r)
    (YieldScore r) (DuplicateRatio r) (BlockedRefCount r).

Definition discovered_row (c : relayCandidateAgg) : RelayRecord :=
  new_row (CNormalizedURL c) false true AdmissionCandidate (DistinctUsers c) (WeightedScore c).

Definition upsert_row (reg : gmap string RelayRecord) (c : relayCandidateAgg) : gmap string RelayRecord :=
  <[CURLKey c := match reg !! CURLKey c with Some r => refresh_row c r | None => discovered_row c end]> reg.

Lemma upsert_all_clean planned : ∀ t,
  upsert_all planned (mkDb t []) = (mkDb (set_registry (foldl upsert_row (relay_registry t) planned) t) [], Ok tt).
Proof.
  induction planned as [|c cs IH]; intros t; [by destruct t|]. cbn [upsert_all]. erewrite bind_clean by reflexivity.
  etransitivity; [apply IH|]. by destruct t.
Qed.

Lemma upserted_lookup planned : ∀ reg,
  NoDup (map CURLKey planned) →
  (∀ c, c ∈ planned → foldl upsert_row reg planned !! CURLKey c
        = Some (match reg !! CURLKey c with Some r => refresh_row c r | None => discovered_row c end)) ∧
  (∀ k, k ∉ map CURLKey planned → foldl upsert_row reg planned !! k = reg !! k).
Proof.
  induction planned as [|c cs IH]; intros reg Hnd; cbn [foldl map].
  { split; [by intros c Hc%not_elem_of_nil|done]. }
  inversion Hnd as [|? ? Hc Hnd']; subst. destruct (IH (upsert_row reg c) Hnd') as [H1 H2]. split.
  - intros d Hd. apply elem_of_cons in Hd as [->|Hd].
    + rewrite H2 by done. unfold upsert_row. by rewrite lookup_insert_eq.
    + rewrite H1 by done. unfold upsert_row. rewrite lookup_insert_ne; [done|]. intros E. apply Hc. rewrite E.
      by apply (list_elem_of_fmap_2 CURLKey).
  - intros k Hk. apply not_elem_of_cons in Hk as [Hne Hk]. rewrite H2 by done. unfold upsert_row. by rewrite lookup_insert_ne.
Qed.

(** A host and the number of its rows. *)
Definition host_rows (h : string) (reg : gmap string RelayRecord) : list entry :=
  List.filter (λ e : entry, bool_decide (sql_host (NormalizedURL e.2) = h)) (map_to_list reg).

Definition counts_hosts (reg : gmap string RelayRecord) (hc : gmap string Z) : Prop :=
  ∀ h, h ≠ "" → default 0 (hc !! h) = Z.of_nat (length (host_rows h reg)).

Lemma host_count_clean t :
  ∃ hc, CountRelaysByHost (mkDb t []) = (mkDb t [], Ok hc) ∧ counts_hosts (relay_registry t) hc.
Proof.
  eexists. split; [reflexivity|]. intros h Hh. unfold host_rows.
  enough (∀ (l : list entry) (m : gmap string Z), default 0 (foldl (λ m (e : entry), let h := sql_host (NormalizedURL e.2) in
             if bool_decide (h = "") then m else <[h := default 0 (m !! h) + 1]> m) m l !! h)
           = default 0 (m !! h) + Z.of_nat (length (List.filter (λ e : entry, bool_decide (sql_host (NormalizedURL e.2) = h)) l))) as Hg.
  { rewrite Hg, lookup_empty. done. }
  intros l. induction l as [|e l IH]; intros m; cbn [foldl List.filter length]; [lia|]. rewrite IH. clear IH.
  set (he := sql_host (NormalizedURL e.2)). cbv zeta. destruct (bool_decide (he = "")) eqn:Ee, (bool_decide (he = h)) eqn:Eh; bool_simpl.
  - congruence.
  - done.
  - rewrite Eh. rewrite lookup_insert_eq. simpl. lia.
  - by rewrite lookup_insert_ne.
Qed.

Section hints.
Context `{UnicodeTables} `{URLParser}.

(** What the hints add: new candidates only, one per hint at most. *)
Record hinted (urls : list string) (reg reg' : gmap string RelayRecord) : Prop := {
  hi_old : ∀ k r, reg !! k = Some r → reg' !! k = Some r;
  hi_new : ∀ k r, reg' !! k = Some r → reg !! k = None →
    ∃ u n, u ∈ urls ∧ Normalize u false = Ok n ∧ k = CanonicalKey n ∧ r = new_row n false false AdmissionCandidate 1 (f64_of_Z 1);
  hi_size : (size (dom reg' ∖ dom reg) ≤ length urls)%nat;
}.

Lemma insert_hints_clean urls : ∀ t,
  ∃ reg', insert_hints urls (mkDb t []) = (mkDb (set_registry reg' t) [], Ok tt) ∧ hinted urls (relay_registry t) reg'.
Proof.
  induction urls as [|u urls IH]; intros t.
  { exists (relay_registry t). split; [by destruct t|]. split; [done|intros k r Hr Hn; congruence|]. rewrite difference_diag_L, size_empty. simpl. lia. }
  cbn [insert_hints]. destruct (Normalize u false) as [n|e] eqn:En.
  2:{ destruct (IH t) as (reg' & E & [H1 H2 H3]). exists reg'. split; [done|]. split; [done| |simpl; lia].
      intros k r Hr Hn. destruct (H2 k r Hr Hn) as (u' & n & Hu & ?). exists u', n. split; [by right|done]. }
  erewrite bind_clean by reflexivity. cbv zeta. cbn [tables faults next]. destruct (relay_registry t !! CanonicalKey n) as [r0|] eqn:Er.
  - destruct (IH t) as (reg' & E & [H1 H2 H3]). exists reg'. split; [exact E|]. split; [done| |simpl; lia].
    intros k r Hr Hn. destruct (H2 k r Hr Hn) as (u' & n' & Hu & ?). exists u', n'. split; [by right|done].
  - set (row := new_row _ _ _ _ _ _). set (t1 := set_registry (<[CanonicalKey n := row]> (relay_registry t)) t).
    destruct (IH t1) as (reg' & E & [H1 H2 H3]). exists reg'. split; [etransitivity; [exact E|by destruct t]|]. simpl in H1, H2, H3.
    assert (reg' !! CanonicalKey n = Some row) as Hrow by (apply H1; by rewrite lookup_insert_eq). split.
    + intros k r Hr. apply H1. rewrite lookup_insert_ne; [done|congruence].
    + intros k r Hr Hn. destruct (decide (k = CanonicalKey n)) as [->|Hne].
      * exists u, n. split; [by left|]. split_and!; [done|done|]. unfold row in Hrow. congruence.
      * destruct (H2 k r Hr) as (u' & n' & Hu & ?); [by rewrite lookup_insert_ne|]. exists u', n'. split; [by right|done].
    + rewrite dom_insert_L in H3.
      assert (dom reg' ∖ dom (relay_registry t) ⊆ {[CanonicalKey n]} ∪ (dom reg' ∖ ({[CanonicalKey n]} ∪ dom (relay_registry t)))) as Hsub.
      { intros k. rewrite !elem_of_union, !elem_of_difference, elem_of_union, elem_of_singleton. destruct (decide (k = CanonicalKey n)); tauto. }
      apply subseteq_size in Hsub. pose proof (size_union_le {[CanonicalKey n]} (dom reg' ∖ ({[CanonicalKey n]} ∪ dom (relay_registry t)))) as Hu.
      rewrite size_singleton in Hu. cbn [length]. lia.
Qed.

Lemma hints_clean today hints limit t :
  0 < limit →
  ∃ reg', go_try (InsertHintRelays today hints limit) (mkDb t []) = (mkDb (set_registry reg' t) [], Ok tt) ∧
    hinted (hint_rows today limit hints) (relay_registry t) reg' ∧ Z.of_nat (length (hint_rows today limit hints)) ≤ limit.
Proof.
  intros Hl. destruct (insert_hints_clean (hint_rows today limit hints) t) as (reg' & E & Hh). exists reg'. split_and!; [|done|].
  - assert (InsertHintRelays today hints limit (mkDb t []) = (mkDb (set_registry reg' t) [], Ok tt)) as E'.
    { unfold InsertHintRelays. destruct (Z.leb_spec limit 0); [lia|]. erewrite bind_clean by reflexivity. exact E. }
    unfold go_try. by rewrite E'.
  - unfold hint_rows. rewrite length_map, length_take. lia.
Qed.
End hints.

(** * The pass *)

Section pass.
Context `{UnicodeTables} `{URLParser} `{MapRange}.
Context (cfg : DiscoveryConfig) (allowPrivate : bool).

(** Of a plan for the relays that users list, what the registry [reg'] shows. *)
Record discovered (rows : list (string * string)) (hints : list string) (reg reg' : gmap string RelayRecord)
    (cs out : list relayCandidateAgg) : Prop := {
  dc_counted : Forall (counted allowPrivate rows) cs;
  dc_all : ∀ p k, names allowPrivate rows p k → k ∈ map CURLKey cs;
  dc_sorted : StronglySorted more_users cs;
  dc_plan : ∃ hc, counts_hosts reg hc ∧
    plan_spec (dom reg) (MinDistinctUserRefs cfg) (insert_limit cfg) (variant_limit cfg) 0 hc cs out;
  dc_old : ∀ k r, reg !! k = Some r → ∃ r', reg' !! k = Some r' ∧
    (r' = r ∧ k ∉ map CURLKey cs ∨ ∃ c, c ∈ cs ∧ CURLKey c = k ∧ r' = refresh_row c r);
  dc_new : ∀ k r', reg' !! k = Some r' → reg !! k = None →
    (∃ c, c ∈ out ∧ CURLKey c = k ∧ r' = discovered_row c) ∨
    (∃ u n, u ∈ hints ∧ Normalize u false = Ok n ∧ k = CanonicalKey n ∧ r' = new_row n false false AdmissionCandidate 1 (f64_of_Z 1));
  dc_size : Z.of_nat (size (dom reg' ∖ dom reg)) ≤ 2 * insert_limit cfg;
}.

Lemma insert_limit_pos : 0 < insert_limit cfg.
Proof. unfold insert_limit. destruct (Z.leb_spec (MaxNewCandidatesPerRun cfg) 0); lia. Qed.

Lemma planned_new (reg : gmap string RelayRecord) out :
  NoDup (map CURLKey out) →
  dom (foldl upsert_row reg out) ∖ dom reg ⊆ list_to_set (map CURLKey (newcomers (dom reg) out)).
Proof.
  intros Hnd. destruct (upserted_lookup out reg Hnd) as [_ L2]. intros k [Hk Hn]%elem_of_difference.
  apply elem_of_list_to_set. destruct (decide (k ∈ map CURLKey out)) as [Hin|Hin].
  - apply list_elem_of_fmap in Hin as (c & -> & Hc). apply (list_elem_of_fmap_2 CURLKey). unfold newcomers.
    apply list_elem_of_In, filter_In. split; [by apply list_elem_of_In|]. unfold known. by rewrite bool_decide_eq_false_2.
  - apply elem_of_dom in Hk. rewrite L2 in Hk by done. by apply elem_of_dom in Hk.
Qed.

Lemma sublist_NoDup {A B} (f : A → B) (l1 l2 : list A) : l1 `sublist_of` l2 → NoDup (map f l2) → NoDup (map f l1).
Proof.
  induction 1 as [|x l1 l2 Hs IH|x l1 l2 Hs IH]; intros Hnd; [done| |]; inversion Hnd as [|? ? Hx Hnd']; subst; [|auto].
  cbn [map]. constructor; [|auto]. intros Hin. apply Hx. apply list_elem_of_fmap in Hin as (y & -> & Hy).
  apply (list_elem_of_fmap_2 f). by eapply elem_of_sublist.
Qed.

Lemma size_list_to_set_le (l : list string) : (size (list_to_set l : gset string) ≤ length l)%nat.
Proof.
  induction l as [|x l IH]; cbn [list_to_set length]; [done|]. etransitivity; [apply size_union_le|]. rewrite size_singleton. lia.
Qed.

Lemma discovered_clean relay_lists dm_lists today hints t :
  Enabled cfg = true →
  ∃ reg' cs out, discover cfg allowPrivate relay_lists dm_lists today hints (mkDb t []) = (mkDb (set_registry reg' t) [], Ok tt) ∧
    discovered (relay_lists ++ dm_lists) (hint_rows today (insert_limit cfg) hints) (relay_registry t) reg' cs out.
Proof.
  intros He. pose proof insert_limit_pos as Hpos.
  destruct (aggregate_clean allowPrivate relay_lists dm_lists t) as (cs & Ea & Hsort & Hnd & Hcnt & Hall).
  destruct (host_count_clean t) as (hc & Eh & Hhc).
  set (out := planDiscoveryUpserts cs (dom (relay_registry t)) hc (MinDistinctUserRefs cfg) (insert_limit cfg) (variant_limit cfg)).
  assert (plan_spec (dom (relay_registry t)) (MinDistinctUserRefs cfg) (insert_limit cfg) (variant_limit cfg) 0 hc cs out) as Hplan.
  { unfold out, planDiscoveryUpserts. destruct (Z.ltb_spec (insert_limit cfg) 0); [lia|]. apply plan_loop_spec. }
  pose proof (sublist_NoDup CURLKey _ _ (ps_sub _ _ _ _ _ _ _ _ Hplan) Hnd) as Hndo.
  set (reg1 := foldl upsert_row (relay_registry t) out).
  destruct (hints_clean today hints (insert_limit cfg) (set_registry reg1 t) Hpos) as (reg' & E' & [Ho Hnew Hsz] & Hlen).
  destruct (upserted_lookup out (relay_registry t) Hndo) as [L1 L2]. fold reg1 in L1, L2. cbn [relay_registry set_registry] in *.
  exists reg', cs, out. split.
  - unfold discover. rewrite He. erewrite bind_clean by (apply wrap_clean, Ea). erewrite bind_clean by reflexivity.
    erewrite bind_clean by (apply wrap_clean, Eh). fold out. rewrite (bind_clean _ _ _ _ _ (upsert_all_clean out t)).
    fold reg1. rewrite E'. by destruct t.
  - split; try done; [by exists hc| | |].
    + intros k r Hr. destruct (decide (k ∈ map CURLKey cs)) as [Hin|Hin].
      * apply list_elem_of_fmap in Hin as (c & -> & Hc).
        assert (c ∈ out) as Hout.
        { assert (c ∈ List.filter (known (dom (relay_registry t))) out) as Hf.
          { rewrite (ps_known _ _ _ _ _ _ _ _ Hplan). apply list_elem_of_In, filter_In. split; [by apply list_elem_of_In|].
            unfold known. apply bool_decide_eq_true_2, elem_of_dom. by exists r. }
          apply list_elem_of_In, filter_In in Hf as [Hf _]. by apply list_elem_of_In. }
        exists (refresh_row c r). split; [apply Ho; by rewrite L1, Hr|]. right. by exists c.
      * exists r. split; [|by left]. apply Ho. rewrite L2; [done|]. intros Hout. apply Hin.
        apply list_elem_of_fmap in Hout as (c & -> & Hc). apply (list_elem_of_fmap_2 CURLKey).
        eapply elem_of_sublist; [done|apply (ps_sub _ _ _ _ _ _ _ _ Hplan)].
    + intros k r' Hr' Hn. destruct (decide (k ∈ map CURLKey out)) as [Hin|Hin].
      * left. apply list_elem_of_fmap in Hin as (c & -> & Hc). exists c. split_and!; [done|done|].
        specialize (Ho (CURLKey c) (discovered_row c)). rewrite L1, Hn in Ho by done. specialize (Ho eq_refl). congruence.
      * right. apply (Hnew k r' Hr'). by rewrite L2.
    + pose proof (ps_budget _ _ _ _ _ _ _ _ Hplan) as Hb. unfold amount in Hb.
      assert (dom reg' ∖ dom (relay_registry t)
              ⊆ (dom reg' ∖ dom reg1) ∪ list_to_set (map CURLKey (newcomers (dom (relay_registry t)) out))) as Hsub.
      { intros k [Hk Hnk]%elem_of_difference. apply elem_of_union. destruct (decide (k ∈ dom reg1)) as [Hin|Hin].
        - right. apply planned_new; [done|]. by apply elem_of_difference.
        - left. by apply elem_of_difference. }
      apply subseteq_size in Hsub. pose proof (size_union_le (dom reg' ∖ dom reg1)
        (list_to_set (map CURLKey (newcomers (dom (relay_registry t)) out)))) as Hu.
      assert (size (list_to_set (map CURLKey (newcomers (dom (relay_registry t)) out)) : gset string)
              ≤ length (newcomers (dom (relay_registry t)) out))%nat as Hl.
      { rewrite <-(length_map CURLKey). apply size_list_to_set_le. }
      lia.
Qed.

(** A discovery pass on which nothing fails: every relay that some user names
    is a candidate, with the number of distinct users who name it on either of
    their lists, under an admissible URL; tracked relays are always refreshed
    and keep their state, policy and score; a new relay has enough users, a host
    with room, and no less users than any that was left out for the budget;
    new rows are candidates, at most the limit from lists and as many from
    hints. *)
Theorem discovery_pass (relay_lists dm_lists : list (string * string)) (today : Z) (hints : list hint) (t : ctl_tables) :
  Enabled cfg = true →
  ∃ reg' cs out, discover cfg allowPrivate relay_lists dm_lists today hints (mkDb t []) = (mkDb (set_registry reg' t) [], Ok tt) ∧
    discovered (relay_lists ++ dm_lists) (hint_rows today (insert_limit cfg) hints) (relay_registry t) reg' cs out.
Proof. apply discovered_clean. Qed.
End pass.

(** * The refresh cycle *)

(** What seeding may do to the origin and the policy of a row: a pin that no
    operator set is dropped when its relay is, or was, a configured seed. *)
Definition origin_kept (keep : list string) (k : string) (r r' : RelayRecord) : Prop :=
  SourceManual r' = SourceManual r ∧
  (RManualPolicy r' = RManualPolicy r ∨
   (RManualPolicy r = ManualPolicyPinned ∧ SourceManual r = false ∧ (k ∈ keep ∨ SourceSeed r = true) ∧ RManualPolicy r' = ManualPolicyNone)) ∧
  (SourceSeed r' = true → k ∈ keep ∨ SourceSeed r = true).

(** No row is lost, and new ones have no policy. *)
Definition row_step (keep : list string) (k : string) (o o' : option RelayRecord) : Prop :=
  match o, o' with
  | Some r, Some r' => origin_kept keep k r r'
  | Some _, None => False
  | None, Some r' => RManualPolicy r' = ManualPolicyNone
  | None, None => True
  end.

Definition rows_step (keep : list string) (reg reg' : gmap string RelayRecord) : Prop := ∀ k, row_step keep k (reg !! k) (reg' !! k).

(** The seeds are rows, and no other row is marked as a seed. *)
Definition seeds_marked (keep : list string) (reg : gmap string RelayRecord) : Prop :=
  (∀ k, k ∈ keep → is_Some (reg !! k)) ∧ ∀ k r, reg !! k = Some r → SourceSeed r = true ↔ k ∈ keep.

Lemma origin_refl keep k r : origin_kept keep k r r.
Proof. unfold origin_kept. auto. Qed.

Lemma rows_refl keep reg : rows_step keep reg reg.
Proof. intros k. destruct (reg !! k); [apply origin_refl|done]. Qed.

Lemma rows_trans keep reg1 reg2 reg3 : rows_step keep reg1 reg2 → rows_step keep reg2 reg3 → rows_step keep reg1 reg3.
Proof.
  intros H12 H23 k. specialize (H12 k). specialize (H23 k). unfold row_step, origin_kept in *.
  destruct (reg1 !! k) as [r1|], (reg2 !! k) as [r2|], (reg3 !! k) as [r3|]; try done.
  - destruct H12 as (M & P & S), H23 as (M' & P' & S'). split_and!; [congruence| |naive_solver].
    destruct P as [P|(P1 & P2 & P3 & P4)], P' as [P'|(P1' & P2' & P3' & P4')]; [left; congruence| |right; split_and!; [done..|congruence]|congruence].
    right. split_and!; [congruence|congruence|naive_solver|done].
  - destruct H23 as (_ & [P|(P & _)] & _); congruence.
Qed.

(** One row written, the others left. *)
Lemma rows_insert keep reg k r' :
  (∀ r, reg !! k = Some r → origin_kept keep k r r') → (reg !! k = None → RManualPolicy r' = ManualPolicyNone) →
  rows_step keep reg (<[k := r']> reg).
Proof.
  intros Ho Hn k'. destruct (decide (k' = k)) as [->|Hne].
  - rewrite lookup_insert_eq. destruct (reg !! k) as [r|]; [by apply Ho|by apply Hn].
  - rewrite lookup_insert_ne by done. destruct (reg !! k'); [apply origin_refl|done].
Qed.

Lemma same_relays_step keep reg reg' : same_relays reg reg' → rows_step keep reg reg'.
Proof.
  intros Hs k. destruct (Hs k) as [[-> ->]|(r & r' & -> & -> & Ho)]; [done|]. destruct Ho as (P & _ & S & M).
  unfold row_step, origin_kept. split_and!; [done|by left|]. rewrite S. auto.
Qed.

Lemma same_relays_marked keep reg reg' : same_relays reg reg' → seeds_marked keep reg → seeds_marked keep reg'.
Proof.
  intros Hs [Hin Hmk]. split.
  - intros k Hk. destruct (Hin k Hk) as [r Hr]. destruct (Hs k) as [[? ?]|(r0 & r' & _ & -> & _)]; [congruence|done].
  - intros k r' Hr'. destruct (Hs k) as [[? ?]|(r0 & r1 & Hr0 & Hr1 & _ & _ & S & _)]; [congruence|].
    assert (r1 = r') as -> by congruence. rewrite S. by apply Hmk.
Qed.

Lemma keeps_try {S} (P : S → Prop) (m : go (db S) unit) : keeps P m → keeps P (go_try m).
Proof. intros Hm s Hs. by apply Hm. Qed.

Lemma seed_origin keep k url r : k ∈ keep → origin_kept keep k r (seed_row url r).
Proof.
  intros Hk. unfold origin_kept, seed_row, held_policy, ops_pin. cbn. split_and!; [done| |auto].
  destruct (RManualPolicy r), (SourceManual r); cbn; auto 10.
Qed.

Lemma unseed_origin keep k r : SourceSeed r = true → origin_kept keep k r (unseed_row r).
Proof.
  intros Hs. unfold origin_kept, unseed_row, ops_pin. cbn. split_and!; [done| |done].
  destruct (RManualPolicy r), (SourceManual r); cbn; auto 10.
Qed.

Section cycle.
Context `{UnicodeTables} `{URLParser} `{MapRange} `{Log10} `{SliceSort}.
Context (dcfg : DiscoveryConfig) (acfg : AdmissionConfig) (allowPrivate : bool).

(** What each of the first two steps keeps, whatever fails. *)
Record steps_from (keep : list string) (t0 t : ctl_tables) : Prop := {
  sf_rows : rows_step keep (relay_registry t0) (relay_registry t);
  sf_sets : relay_desired_set t = relay_desired_set t0;
}.

Lemma steps_set keep t0 t reg : steps_from keep t0 t → rows_step keep (relay_registry t) reg → steps_from keep t0 (set_registry reg t).
Proof. intros [Hr Hd] Hs. split; [by eapply rows_trans|done]. Qed.

Lemma reconcile_steps seeds t0 : keeps (steps_from (map fst (seed_refs allowPrivate seeds)) t0) (reconcileSeedRelays allowPrivate seeds).
Proof.
  unfold reconcileSeedRelays. set (refs := seed_refs allowPrivate seeds). set (keep := map fst refs).
  assert (∀ l, (∀ e, e ∈ l → e.1 ∈ keep) → keeps (steps_from keep t0) (upsert_seeds l)) as Hup.
  { intros l. induction l as [|[k u] l IH]; intros Hl; cbn [upsert_seeds]; [apply keeps_ret|].
    apply keeps_bind; [|intros _; apply IH; intros e He; apply Hl; by right].
    apply keeps_try. unfold UpsertSeedRelay. apply keeps_wrap, keeps_exec. intros t Ht. apply steps_set; [done|]. apply rows_insert.
    - intros r ->. apply seed_origin, (Hl (k, u)). by left.
    - by intros ->. }
  apply keeps_bind; [apply Hup; intros e He; by apply list_elem_of_fmap_2|]. intros _. unfold ClearMissingSeedRelays.
  apply keeps_wrap, keeps_wrap, keeps_exec. intros t Ht. apply steps_set; [done|]. intros k. rewrite map_lookup_imap.
  destruct (relay_registry t !! k) as [r|]; cbn; [|done]. destruct (SourceSeed r) eqn:E; cbn; [|apply origin_refl].
  destruct (negb _); [by apply unseed_origin|apply origin_refl].
Qed.

(** A discovery pass keeps what every write of one of its rows keeps. *)
Lemma discover_keeps (P : ctl_tables → Prop) relay_lists dm_lists today hints :
  (∀ k url refs w t, P t → P (set_registry (<[k := match relay_registry t !! k with
      | Some r => mkRelay (NormalizedURL r) (SourceSeed r) true (SourceManual r) (RManualPolicy r) (RAdmissionState r)
                    (Score r) refs w (LastProbeOK r) (LastConnectOK r) (AvgConnectLatency r) (ProbeFailRate r)
                    (YieldScore r) (DuplicateRatio r) (BlockedRefCount r)
      | None => new_row url false true AdmissionCandidate refs w end]> (relay_registry t)) t)) →
  (∀ k url t, P t → relay_registry t !! k = None →
     P (set_registry (<[k := new_row url false false AdmissionCandidate 1 (f64_of_Z 1)]> (relay_registry t)) t)) →
  keeps P (discover dcfg allowPrivate relay_lists dm_lists today hints).
Proof.
  intros Hu Hh. unfold discover, aggregateRelayReferences, accumulateRelayLists, ListURLKeys, CountRelaysByHost. keeps_step.
  - match goal with |- keeps _ (upsert_all ?x) => generalize x end. intros l. induction l as [|c l IH]; cbn [upsert_all]; [apply keeps_ret|].
    apply keeps_bind; [|done]. apply keeps_try. unfold UpsertDiscoveredRelay. apply keeps_wrap, keeps_exec. intros t. apply Hu.
  - apply keeps_try. unfold InsertHintRelays. keeps_step.
    match goal with |- keeps _ (insert_hints ?x) => generalize x end. intros l. induction l as [|u l IH]; cbn [insert_hints]; [apply keeps_ret|].
    destruct (Normalize u false) as [n|e]; [|done]. apply keeps_bind; [|done]. apply keeps_wrap, keeps_exec.
    intros t Ht. cbv zeta. destruct (relay_registry t !! CanonicalKey n) eqn:E; [done|]. by apply Hh.
Qed.

Lemma discover_steps keep relay_lists dm_lists today hints t0 :
  keeps (steps_from keep t0) (discover dcfg allowPrivate relay_lists dm_lists today hints).
Proof.
  apply discover_keeps.
  - intros k url refs w t Ht. apply steps_set; [done|]. apply rows_insert; [|by intros ->]. intros r ->.
    unfold origin_kept. cbn. auto.
  - intros k url t Ht Hk. apply steps_set; [done|]. apply rows_insert; [congruence|done].
Qed.

Lemma discover_marked keep relay_lists dm_lists today hints :
  keeps (λ t, seeds_marked keep (relay_registry t)) (discover dcfg allowPrivate relay_lists dm_lists today hints).
Proof.
  assert (∀ k r' reg, seeds_marked keep reg → (∀ r, reg !! k = Some r → SourceSeed r' = SourceSeed r) →
    (reg !! k = None → SourceSeed r' = false) → seeds_marked keep (<[k := r']> reg)) as Hins.
  { intros k r' reg [Hin Hmk] Ho Hn. split.
    - intros k' Hk'. destruct (decide (k' = k)) as [->|]; [by rewrite lookup_insert_eq|]. rewrite lookup_insert_ne by done. by apply Hin.
    - intros k' r0. destruct (decide (k' = k)) as [->|]; [|rewrite lookup_insert_ne by done; apply Hmk].
      rewrite lookup_insert_eq. intros [= <-]. destruct (reg !! k) as [r|] eqn:E; [rewrite (Ho r) by done; by apply Hmk|].
      rewrite Hn by done. split; [done|]. intros Hk. apply Hin in Hk as [? ?]. congruence. }
  apply discover_keeps.
  - intros k url refs w t Ht. apply Hins; [done|by intros r ->|by intros ->].
  - intros k url t Ht Hk. apply Hins; [done|congruence|done].
Qed.

Lemma seeds_clean refs : ∀ t,
  ∃ reg, upsert_seeds refs (mkDb t []) = (mkDb (set_registry reg t) [], Ok tt) ∧
    (∀ k, k ∈ map fst refs → ∃ r, reg !! k = Some r ∧ SourceSeed r = true) ∧ (∀ k, k ∉ map fst refs → reg !! k = relay_registry t !! k).
Proof.
  induction refs as [|[k u] refs IH]; intros t.
  { exists (relay_registry t). split_and!; [by destruct t|by intros k Hk%not_elem_of_nil|done]. }
  cbn [upsert_seeds map fst]. set (row := match relay_registry t !! k with Some r => seed_row u r | None => new_row u true false AdmissionActive 0 (f64_of_Z 0) end).
  destruct (IH (set_registry (<[k := row]> (relay_registry t)) t)) as (reg & E & Hin & Hout). exists reg.
  assert (SourceSeed row = true) as Hrow by (unfold row; by destruct (relay_registry t !! k)). split_and!.
  - erewrite bind_clean by reflexivity. exact E.
  - intros k' [->|Hk']%elem_of_cons; [|by apply Hin]. destruct (decide (k ∈ map fst refs)) as [Hk|Hk]; [by apply Hin|].
    exists row. rewrite Hout by done. cbn. by rewrite lookup_insert_eq.
  - intros k' [Hne Hk']%not_elem_of_cons. rewrite Hout by done. cbn. by rewrite lookup_insert_ne.
Qed.

Lemma reconcile_marked seeds s : faults s = [] →
  let s' := (reconcileSeedRelays allowPrivate seeds s).1 in
  faults s' = [] ∧ seeds_marked (map fst (seed_refs allowPrivate seeds)) (relay_registry (tables s')).
Proof.
  destruct s as [t fs]. cbn [faults]. intros ->. unfold reconcileSeedRelays. set (refs := seed_refs allowPrivate seeds).
  destruct (seeds_clean refs t) as (reg & E & Hin & Hout). cbv zeta. rewrite (bind_clean _ _ _ _ _ E). split; [done|].
  cbn. split.
  - intros k Hk. destruct (Hin k Hk) as (r & Hr & _). rewrite map_lookup_imap, Hr. done.
  - intros k r. rewrite map_lookup_imap. destruct (decide (k ∈ map fst refs)) as [Hk|Hk].
    + destruct (Hin k Hk) as (r0 & -> & Hs). cbn. rewrite bool_decide_true, andb_false_r by done. intros [= <-]. done.
    + rewrite Hout by done. destruct (relay_registry t !! k) as [r0|]; cbn; [|done]. rewrite bool_decide_false by done. cbn.
      destruct (SourceSeed r0) eqn:E0; cbn; intros [= <-]; split; try done. congruence.
Qed.

(** The table that seeding and discovery leave, from [s]. *)
Definition before_admission (seeds : list string) (relay_lists dm_lists : list (string * string)) (today : Z) (hints : list hint)
    (s : db ctl_tables) : db ctl_tables :=
  ((go_try (reconcileSeedRelays allowPrivate seeds) ;; go_try (discover dcfg allowPrivate relay_lists dm_lists today hints)) s).1.

(** C33: A whole refresh cycle, seeding and discovery included. Whatever fails
    before admission, if nothing fails from there on and the registry then has
    at most 20000 rows:
    the published set is exactly the URLs of the active and pinned rows that no
    operator holds back, and an empty set is not published; the tiers are
    within their caps, so that the set has at most as many URLs as the total
    cap, or as there are pins; no row is lost, no new row has a policy, and
    the only policy that changes is a pin set by no operator on a relay that
    is or was a configured seed, which is dropped; without failures exactly
    the configured seeds are marked as seeds; a row with a pin policy is
    published if it is already in the pinned tier or among the first 1000 of
    the listing, so that with at most 1000 rows every operator's pin is. *)
Theorem refresh_publishes_capped (seeds : list string) (relay_lists dm_lists : list (string * string)) (today : Z) (hints : list hint)
    (shares : gmap string PropagationShare) (s : db ctl_tables) :
  let keep := map fst (seed_refs allowPrivate seeds) in
  let s1 := before_admission seeds relay_lists dm_lists today hints s in
  caps_ok acfg → faults s1 = [] → Z.of_nat (size (relay_registry (tables s1))) ≤ enforcementListLimit →
  ∃ t', runRefreshCycle acfg allowPrivate seeds (discover dcfg allowPrivate relay_lists dm_lists today hints) shares s = (mkDb t' [], Ok tt) ∧
    let urls := connectable_urls (relay_registry t') in
    relay_desired_set t' = match urls with [] => relay_desired_set (tables s) | _ => urls :: relay_desired_set (tables s) end ∧
    (∀ u, u ∈ urls ↔ ∃ k r, relay_registry t' !! k = Some r ∧ connectable r = true ∧ NormalizedURL r = u) ∧
    capped acfg (relay_registry t') ∧
    Z.of_nat (length urls) ≤ Z.max (MaxTotalActive acfg) (number pinned_tier (relay_registry t')) ∧
    rows_step keep (relay_registry (tables s)) (relay_registry t') ∧
    (faults s = [] → seeds_marked keep (relay_registry t')) ∧
    (∀ k r, relay_registry (tables s1) !! k = Some r → RManualPolicy r = ManualPolicyPinned →
       (k, r) ∈ list_rows (mkFilter [] [] 1000) (relay_registry (tables s1)) ∨ pinned_tier r = true → NormalizedURL r ∈ urls) ∧
    (Z.of_nat (size (relay_registry (tables s1))) ≤ 1000 → ∀ k r, relay_registry (tables s) !! k = Some r → ops_pin r = true →
       ∃ r', relay_registry t' !! k = Some r' ∧ NormalizedURL r' ∈ urls).
Proof.
  cbv zeta. set (keep := map fst _). set (s1 := before_admission _ _ _ _ _ s). intros Hc Hf Hn.
  assert (steps_from keep (tables s) (tables s1)) as [Hrows Hsets].
  { unfold s1, before_admission. cbn -[reconcileSeedRelays discover].
    apply discover_steps, reconcile_steps. split; [apply rows_refl|done]. }
  assert ((go_try (reconcileSeedRelays allowPrivate seeds) ;; go_try (discover dcfg allowPrivate relay_lists dm_lists today hints)) s
          = (mkDb (tables s1) [], Ok tt)) as E.
  { unfold s1, before_admission, go_bind, go_try in *. cbn [fst snd] in *. revert Hf. destruct (discover _ _ _ _ _ _ _) as [[t2 f2] r2]. cbn. by intros ->. }
  destruct (refresh_from acfg allowPrivate seeds _ shares s (tables s1) Hc E Hn) as (t' & ER & D & C & S & L & U & P).
  exists t'. rewrite <-Hsets. split_and!; try done.
  - eapply rows_trans; [done|]. by apply same_relays_step.
  - intros Hs. eapply same_relays_marked; [done|]. unfold s1, before_admission. cbn -[reconcileSeedRelays discover].
    apply discover_marked. by apply reconcile_marked.
  - intros Hsz k r Hr Hop. pose proof (Hrows k) as Hk. rewrite Hr in Hk. destruct (relay_registry (tables s1) !! k) as [r1|] eqn:Er1; [|done].
    unfold ops_pin in Hop. bool_simpl. destruct Hk as (_ & [Hp|(_ & ? & _)] & _); [|congruence].
    destruct (S k) as [[? ?]|(r2 & r' & Hr2 & Hr' & _ & Hurl & _)]; [congruence|]. exists r'. split; [done|]. rewrite Hurl.
    assert (r2 = r1) as -> by congruence. apply (P k); [done|congruence|]. left.
    unfold list_rows. cbv zeta. cbn [Limit]. change (1000 <=? 0) with false. cbv iota. rewrite take_ge.
    + rewrite merge_sort_Permutation. apply list_elem_of_In, filter_In. split; [|done]. by apply list_elem_of_In, elem_of_map_to_list.
    + rewrite merge_sort_Permutation. change (Limit _) with 1000. etransitivity; [apply filter_length_le|]. rewrite length_map_to_list. lia.
Qed.
End cycle.

(** * Examples *)

Module DiscoveryExample.

Existing Instance ascii_tables.

(** A parser for [wss://host/path] texts. *)
Definition path_Parse (s : string) : result ParsedURL :=
  let l := bytes s in
  if bool_decide (take 6 l = bytes "wss://") then
    match cut 47 (drop 6 l) with
    | Some (host, path) => Ok (mkURL "wss" (str host) "" "" false (str (47 :: path)))
    | None => Ok (mkURL "wss" (str (drop 6 l)) "" "" false "")
    end
  else Err "not a relay".

#[local] Instance path_parser : URLParser := {| url_Parse := path_Parse |}.

#[local] Existing Instance list_range.

Definition toy_discovery : DiscoveryConfig := mkDiscovery true 1 0 0.

(** A JSON list of strings without escapes. *)
Definition json_list (l : list string) : string := str (json_encode (JArr (map (λ s, JStr (bytes s)) l))).

Definition lists : list (string * string) :=
  [("alice", json_list ["wss://R.example/"; "wss://127.0.0.1"; "wss://b.example"]); ("bob", json_list ["wss://r.example"])].

Definition dm_lists : list (string * string) := [("bob", json_list ["wss://r.example"]); ("", json_list ["wss://b.example"])].

Definition hints : list hint := [mkHint 100 "wss://hint.example" 2; mkHint 99 "wss://hint.example" 1; mkHint 80 "wss://old.example" 9].

Definition empty_db : db ctl_tables := mkDb (mkCtl ∅ []) [].

Definition urls_and_users (s : db ctl_tables) : list (string * Z) :=
  map (λ e : entry, (NormalizedURL e.2, DistinctUserRefCount e.2)) (merge_sort listed_before (map_to_list (relay_registry (tables s)))).

Example discovers :
  urls_and_users (discover toy_discovery false lists dm_lists 100 hints empty_db).1
  = [("wss://b.example", 1); ("wss://hint.example", 1); ("wss://r.example", 2)].
Proof. vm_compute. reflexivity. Qed.

Lemma discovery_pass_witness :
  ∃ reg' cs out, discover toy_discovery false lists dm_lists 100 hints empty_db = (mkDb (mkCtl reg' []) [], Ok tt) ∧
    discovered toy_discovery false (lists ++ dm_lists) (hint_rows 100 25 hints) ∅ reg' cs out.
Proof. exact (discovery_pass toy_discovery false lists dm_lists 100 hints (mkCtl ∅ []) eq_refl). Defined.

#[local] Existing Instance AdmissionExample.toy_log.
#[local] Existing Instance insertion_sort.

(** An active relay, an operator's pin, and a seed that an older version pinned. *)
Definition pins : ctl_tables :=
  mkCtl (list_to_map
    [("b", AdmissionExample.row "wss://b.example" ManualPolicyNone AdmissionActive 60 3);
     ("p", manual_row ManualPolicyPinned (AdmissionExample.row "wss://p.example" ManualPolicyNone AdmissionCandidate 0 0));
     ("q", with_policy true ManualPolicyPinned AdmissionPinned "wss://q.example"
             (AdmissionExample.row "wss://q.example" ManualPolicyNone AdmissionActive 0 0))]) [].

Abbreviation toy_cycle := (runRefreshCycle AdmissionExample.toy_cfg false ["wss://seed.example"]
  (discover toy_discovery false lists dm_lists 100 hints) ∅ (mkDb pins [])) (only parsing).

Lemma refresh_publishes_capped_witness :
  ∃ t' r', toy_cycle = (mkDb t' [], Ok tt) ∧ capped AdmissionExample.toy_cfg (relay_registry t') ∧
    seeds_marked (map fst (seed_refs false ["wss://seed.example"])) (relay_registry t') ∧
    relay_registry t' !! "p" = Some r' ∧ NormalizedURL r' ∈ connectable_urls (relay_registry t').
Proof.
  destruct (refresh_publishes_capped toy_discovery AdmissionExample.toy_cfg false ["wss://seed.example"] lists dm_lists 100 hints ∅ (mkDb pins [])
    AdmissionExample.toy_caps) as (t' & E & _ & _ & C & _ & _ & M & _ & P).
  - vm_compute. reflexivity.
  - vm_compute. discriminate.
  - edestruct (P ltac:(vm_compute; discriminate) "p") as (r' & Hr' & Hu); [vm_compute; reflexivity|reflexivity|].
    exists t', r'. split_and!; [exact E|exact C|exact (M eq_refl)|exact Hr'|exact Hu].
Defined.

(** The operator's pin is published, the old seed's is gone. *)
Example cycle_publishes :
  relay_desired_set (tables toy_cycle.1) = [["wss://b.example"; "wss://p.example"]] ∧
  (RManualPolicy <$> relay_registry (tables toy_cycle.1) !! "q") = Some ManualPolicyNone.
Proof. split; vm_compute; reflexivity. Qed.

(** The cut of the code and that of the database differ on a host that ends in a
    colon, as [url.Parse] accepts it: *)
Example hosts_differ : candidateHost "wss://h://a" = "h:" ∧ sql_host "wss://h://a" = "h".
Proof. split; vm_compute; reflexivity. Qed.

(** such variants of one host escape its limit of three, pass after pass. *)
Definition colon_variants : list (string * string) :=
  [("mallory", json_list ["wss://h://1"; "wss://h://2"; "wss://h://3"; "wss://h://4"; "wss://h://5"; "wss://h://6"; "wss://h://7"])].

Example colon_variants_escape_limit :
  let pass := discover toy_discovery false colon_variants [] 100 [] in
  (length (urls_and_users (pass empty_db).1), length (urls_and_users ((pass ;; pass) empty_db).1),
   length (urls_and_users ((pass ;; pass ;; pass) empty_db).1)) = (3, 6, 7)%nat.
Proof. vm_compute. reflexivity. Qed.

(** Hints are inserted without the limit per host. *)
Example hints_escape_limit :
  let hs := map (λ p, mkHint 100 ("wss://h.example/" +:+ p) 3) ["a"; "b"; "c"; "d"; "e"] in
  length (urls_and_users (discover toy_discovery false [] [] 100 hs empty_db).1) = 5%nat.
Proof. vm_compute. reflexivity. Qed.

End DiscoveryExample.
