(* ===== verification/JobQueue.v ===== *)
(** The job queue, [internal/jobs]: [types.go], [queue.go], [queue_execution.go],
    [queue_maintenance.go], [publisher.go] and [backoff.go], over the [jobs]
    table of migrations 000007, 000019 and 000040.

    Every operation is one transaction on the table, so concurrent workers are
    sequences of operations. [FOR UPDATE SKIP LOCKED] leaves out rows that other
    transactions hold; those are the [held] argument. [pg_notify] only wakes
    pollers and is not modelled. *)

From S2P Require Import Prelude GoLib Db.
Local Open Scope go_scope.

(** * Types *)

Inductive JobStatus := StatusPending | StatusRunning | StatusSucceeded | StatusDead.

#[export] Instance JobStatus_eq_dec : EqDecision JobStatus.
Proof. solve_decision. Defined.

Record Job := mkJob {
  JobID : Z;
  JobType : string;
  WorkerPool : string;
  Payload : list Z;
  IdempotencyKey : option string;
  JStatus : JobStatus;
  Attempts : Z;
  MaxAttempts : Z;
  RunAfter : time;
  LockedAt : option time;
  LockedBy : option string;
  LastJobError : option string;
  JCreatedAt : time;
  JUpdatedAt : time;
  FinishedAt : option time;
}.

Record JobTables := mkJobTables {
  jobs : gmap Z Job;
  next_job : Z;
}.

Record EnqueueParams := mkEnqueue {
  EPJobType : string;
  EPWorkerPool : string;
  EPPayload : list Z;
  EPIdempotencyKey : string;
  EPMaxAttempts : Z;
  EPRunAfter : time;
}.

Record FailureResult := mkFailure {
  FRStatus : JobStatus;
  FRAttempts : Z;
  FRMaxAttempts : Z;
}.

Record RecoveryResult := mkRecovery {
  Recovered : Z;
  DeadLettered : Z;
}.

Definition ErrNotFound : error := "job not found".
Definition ErrJobNotOwned : error := "job is not locked by worker".
Definition staleRunningRecoveryError : string := "job lease expired / worker lost before completion".

Definition WorkerPoolDefault : string := "default".
Definition WorkerPoolLive : string := "live".
Definition WorkerPoolBackfill : string := "backfill".
Definition WorkerPoolTrust : string := "trust".
Definition JobTypeDeriveEventBundle : string := "derive_event_bundle".

Definition IsKnownWorkerPool (pool : string) : bool :=
  bool_decide (trim_space pool ∈
    [WorkerPoolDefault; WorkerPoolLive; WorkerPoolBackfill; WorkerPoolTrust]).

(** The pool override carried by a context, if any. *)
Definition WithWorkerPool (ctx : option string) (pool : string) : option string :=
  let pool := trim_space pool in
  if bool_decide (pool = "") || negb (IsKnownWorkerPool pool) then ctx else Some pool.

Definition WorkerPoolFromContext (ctx : option string) : option string :=
  match ctx with
  | None => None
  | Some pool => let pool := trim_space pool in if bool_decide (pool = "") then None else Some pool
  end.

Definition WorkerPoolForJobType (jobType : string) : string :=
  if has_prefix (bytes "trust_") (bytes (trim_space jobType)) then WorkerPoolTrust
  else WorkerPoolDefault.

(** * Statements *)

Definition set_jobs (f : gmap Z Job → gmap Z Job) (t : JobTables) : JobTables :=
  mkJobTables (f (jobs t)) (next_job t).

(** The row with a given idempotency key. *)
Definition job_with_key (key : string) (t : JobTables) : option Job :=
  snd <$> list.head (List.filter (λ kv, bool_decide (IdempotencyKey kv.2 = Some key))
                  (map_to_list (jobs t))).

Definition conflicting (key : option string) (t : JobTables) : option Job :=
  key ≫= λ k, job_with_key k t.

Definition fresh_job (now : time) (t : JobTables) (jobType pool : string) (payload : list Z)
    (key : option string) (maxAttempts : Z) (runAfter : time) : Job :=
  mkJob (next_job t) jobType pool payload key StatusPending 0 maxAttempts runAfter None None None
    now now None.

Definition insert_job (j : Job) (t : JobTables) : JobTables :=
  mkJobTables (<[JobID j := j]> (jobs t)) (next_job t + 1).

(** [ORDER BY key, id]. *)
Definition before (key : Job → Z) (a b : Job) : Prop :=
  key a < key b ∨ (key a = key b ∧ JobID a ≤ JobID b).

#[export] Instance before_dec key a b : Decision (before key a b).
Proof. unfold before. apply _. Defined.

(** [SELECT ... WHERE p ORDER BY key, id [FOR UPDATE SKIP LOCKED] LIMIT n]. *)
Definition select_jobs (p : Job → bool) (key : Job → Z) (held : gset Z) (limit : Z) (t : JobTables)
    : list Job :=
  take (Z.to_nat limit)
    (merge_sort (before key)
       (List.filter (λ j, p j && negb (bool_decide (JobID j ∈ held)))
          (map snd (map_to_list (jobs t))))).

(** [UPDATE jobs SET ... WHERE id IN rows]. *)
Definition update_jobs (f : Job → Job) (rows : list Job) (t : JobTables) : JobTables :=
  set_jobs (λ m, foldl (λ m j, <[JobID j := f j]> m) m rows) t.

(** * Operations *)

Definition Enqueue (now : time) (params : EnqueueParams) : go (db JobTables) Job :=
  let jobType := trim_space (EPJobType params) in
  if bool_decide (jobType = "") then go_fail "job type is required"
  else
    let payload := match EPPayload params with [] => bytes "{}" | p => p end in
    let maxAttempts := if EPMaxAttempts params <=? 0 then 5 else EPMaxAttempts params in
    let runAfter := if time_is_zero (EPRunAfter params) then now else EPRunAfter params in
    let key := trim_space (EPIdempotencyKey params) in
    let idempotencyKey := if bool_decide (key = "") then None else Some key in
    let pool := trim_space (EPWorkerPool params) in
    let pool := if bool_decide (pool = "") then WorkerPoolForJobType jobType else pool in
    go_wrap "enqueue job" (stmt (λ t,
      match conflicting idempotencyKey t with
      | Some j => Ok (t, j)
      | None =>
          let j := fresh_job now t jobType pool payload idempotencyKey maxAttempts runAfter in
          Ok (insert_job j t, j)
      end)).

(** [{"event_id": id}] for an id that needs no escaping, as event ids do not. *)
Definition event_job_payload (eventID : string) : list Z :=
  bytes "{" ++ 34 :: bytes "event_id" ++ 34 :: 58 :: 34 :: bytes eventID ++ 34 :: bytes "}".

Definition event_job_key (jobType eventID idempotencySuffix : string) : string :=
  let key := jobType +:+ ":" +:+ eventID in
  let suffix := trim_space idempotencySuffix in
  if bool_decide (suffix = "") then key else key +:+ ":" +:+ suffix.

Definition event_job_pool (ctx : option string) (jobType : string) : string :=
  let pool := WorkerPoolForJobType jobType in
  match WorkerPoolFromContext ctx with
  | Some override => if negb (bool_decide (pool = WorkerPoolTrust)) then override else pool
  | None => pool
  end.

(** The insert of an event job within a transaction: [DO NOTHING] on a
    conflict with an existing key. *)
Definition enqueue_event_row (now : time) (ctx : option string)
    (jobType eventID idempotencySuffix : string) (maxAttempts : Z) (t : JobTables) : JobTables :=
  let maxAttempts := if maxAttempts <=? 0 then 5 else maxAttempts in
  let key := event_job_key jobType eventID idempotencySuffix in
  match job_with_key key t with
  | Some _ => t
  | None =>
      insert_job (fresh_job now t jobType (event_job_pool ctx jobType) (event_job_payload eventID)
                    (Some key) maxAttempts now) t
  end.

Definition EnqueueEventJobTx (now : time) (ctx : option string)
    (jobType eventID idempotencySuffix : string) (maxAttempts : Z) : go (db JobTables) unit :=
  go_wrap ("enqueue " +:+ jobType +:+ " for event " +:+ eventID)
    (exec (enqueue_event_row now ctx jobType eventID idempotencySuffix maxAttempts)).

Definition claimable (now : time) (pool : string) (j : Job) : bool :=
  bool_decide (JStatus j = StatusPending) && bool_decide (WorkerPool j = pool)
  && (RunAfter j <=? now).

Definition claimed (now : time) (workerID : string) (j : Job) : Job :=
  mkJob (JobID j) (JobType j) (WorkerPool j) (Payload j) (IdempotencyKey j) StatusRunning
    (Attempts j) (MaxAttempts j) (RunAfter j) (Some now) (Some workerID) (LastJobError j)
    (JCreatedAt j) now (FinishedAt j).

Definition ClaimAvailableForPool (now : time) (held : gset Z) (workerID workerPool : string)
    (limit : Z) : go (db JobTables) (list Job) :=
  let workerID := trim_space workerID in
  let workerPool := trim_space workerPool in
  if bool_decide (workerID = "") then go_fail "worker id is required"
  else if bool_decide (workerPool = "") then go_fail "worker pool is required"
  else
    let limit := if limit <=? 0 then 1 else limit in
    tx "begin tx" "commit claim tx"
      (go_wrap "claim jobs" (stmt (λ t,
         let rows := select_jobs (claimable now workerPool) RunAfter held limit t in
         Ok (update_jobs (claimed now workerID) rows t, map (claimed now workerID) rows)))).

Definition ClaimAvailable (now : time) (held : gset Z) (workerID : string) (limit : Z)
    : go (db JobTables) (list Job) :=
  ClaimAvailableForPool now held workerID WorkerPoolDefault limit.

Definition owned (workerID : string) (j : Job) : bool :=
  bool_decide (JStatus j = StatusRunning) && bool_decide (LockedBy j = Some workerID).

Definition succeeded (now : time) (j : Job) : Job :=
  mkJob (JobID j) (JobType j) (WorkerPool j) (Payload j) (IdempotencyKey j) StatusSucceeded
    (Attempts j) (MaxAttempts j) (RunAfter j) None None None (JCreatedAt j) now (Some now).

Definition CompleteJob (now : time) (jobID : Z) (workerID : string) : go (db JobTables) unit :=
  let workerID := trim_space workerID in
  if bool_decide (workerID = "") then go_fail "worker id is required"
  else
    affected <- go_wrap "complete job" (stmt (λ t,
      match jobs t !! jobID with
      | Some j => if owned workerID j then Ok (update_jobs (succeeded now) [j] t, 1) else Ok (t, 0)
      | None => Ok (t, 0)
      end)) ;;
    if affected =? 0 then go_fail ErrJobNotOwned else go_ret tt.

(** [wall] is the worker's clock, [now] the database's. *)
Definition failed (now wall : time) (lastError : string) (retryAfter : Z) (j : Job) : Job :=
  let nextAttempts := Attempts j + 1 in
  let dead := MaxAttempts j <=? nextAttempts in
  mkJob (JobID j) (JobType j) (WorkerPool j) (Payload j) (IdempotencyKey j)
    (if dead then StatusDead else StatusPending) nextAttempts (MaxAttempts j)
    (if dead then wall else wall + retryAfter) None None (Some lastError) (JCreatedAt j) now
    (if dead then Some now else FinishedAt j).

Definition FailJob (now wall : time) (jobID : Z) (workerID lastError : string) (retryAfter : Z)
    : go (db JobTables) FailureResult :=
  let workerID := trim_space workerID in
  if bool_decide (workerID = "") then go_fail "worker id is required"
  else
    let lastError := trim_space lastError in
    let lastError := if bool_decide (lastError = "") then "unknown job error" else lastError in
    let retryAfter := if retryAfter <? 0 then 0 else retryAfter in
    tx "begin tx" "commit failure tx" (
      row <- go_wrap "load job failure state" (query (λ t,
        match jobs t !! jobID with
        | Some j => if owned workerID j then Some j else None
        | None => None
        end)) ;;
      match row with
      | None => go_fail ErrJobNotOwned
      | Some j =>
          let j' := failed now wall lastError retryAfter j in
          go_wrap "mark job failure"
            (exec (update_jobs (failed now wall lastError retryAfter) [j])) ;;
          go_ret (mkFailure (JStatus j') (Attempts j') (MaxAttempts j'))
      end).

Definition GetJobByID (jobID : Z) : go (db JobTables) Job :=
  row <- go_wrap "get job by id" (query (λ t, jobs t !! jobID)) ;;
  match row with None => go_fail ErrNotFound | Some j => go_ret j end.

Definition stale (pool : string) (olderThan : time) (j : Job) : bool :=
  bool_decide (JStatus j = StatusRunning) && bool_decide (WorkerPool j = pool)
  && match LockedAt j with Some l => l <? olderThan | None => false end.

Definition recovered (now : time) (j : Job) : Job :=
  let dead := MaxAttempts j <=? Attempts j + 1 in
  mkJob (JobID j) (JobType j) (WorkerPool j) (Payload j) (IdempotencyKey j)
    (if dead then StatusDead else StatusPending) (Attempts j + 1) (MaxAttempts j)
    (if dead then RunAfter j else now) None None (Some staleRunningRecoveryError)
    (JCreatedAt j) now (if dead then Some now else FinishedAt j).

Definition count_status (s : JobStatus) (rows : list Job) : Z :=
  Z.of_nat (length (List.filter (λ j, bool_decide (JStatus j = s)) rows)).

Definition RecoverStaleRunningJobs (now : time) (held : gset Z) (workerPool : string)
    (olderThan : time) (limit : Z) : go (db JobTables) RecoveryResult :=
  let workerPool := trim_space workerPool in
  if bool_decide (workerPool = "") then go_fail "worker pool is required"
  else if time_is_zero olderThan then go_fail "olderThan is required"
  else if limit <=? 0 then go_fail "limit must be > 0"
  else
    go_wrap "recover stale running jobs" (stmt (λ t,
      let rows := select_jobs (stale workerPool olderThan) (λ j, default 0 (LockedAt j)) held limit t in
      let rows' := map (recovered now) rows in
      Ok (update_jobs (recovered now) rows t,
          mkRecovery (count_status StatusPending rows') (count_status StatusDead rows')))).

(** January 1, 1970 UTC. *)
Definition unix_epoch : time := 62135596800 * second.

Definition finished_before (s : JobStatus) (cutoff : time) (j : Job) : bool :=
  bool_decide (JStatus j = s) && match FinishedAt j with Some f => f <? cutoff | None => false end.

Definition purgeTerminalStatus (s : JobStatus) (finishedBefore : time) (limit : Z)
    : go (db JobTables) Z :=
  go_wrap "purge terminal jobs" (stmt (λ t,
    let rows := select_jobs (finished_before s finishedBefore) (λ j, default 0 (FinishedAt j)) ∅ limit t in
    Ok (set_jobs (λ m, foldl (λ m j, delete (JobID j) m) m rows) t, Z.of_nat (length rows)))).

Definition PurgeTerminalJobs (succeededBefore deadBefore : time) (limit : Z)
    : go (db JobTables) Z :=
  if limit <=? 0 then go_fail "limit must be > 0"
  else if time_is_zero succeededBefore && time_is_zero deadBefore then
    go_fail "at least one cutoff must be provided"
  else
    let succeededBefore := if time_is_zero succeededBefore then unix_epoch else succeededBefore in
    let deadBefore := if time_is_zero deadBefore then unix_epoch else deadBefore in
    n <- purgeTerminalStatus StatusSucceeded succeededBefore limit ;;
    let remaining := limit - n in
    if remaining <=? 0 then go_ret n
    else
      m <- purgeTerminalStatus StatusDead deadBefore remaining ;;
      go_ret (n + m).

(** * Retry delay *)

Definition DefaultMaxRetryDelay : Z := 300 * second.

(** [delay *= 2] wraps around; a delay that is not positive is the cap. *)
Fixpoint double_delay (attempts : nat) (delay max : Z) : Z :=
  match attempts with
  | O => delay
  | S n =>
      let delay := i64 (delay * 2) in
      if (max <=? delay) || (delay <=? 0) then max else double_delay n delay max
  end.

(** [jitter] is the random displacement drawn for a delay. *)
Definition RetryDelay (jitter : Z → Z) (attempts : nat) (base max : Z) : Z :=
  let base := if base <=? 0 then 5 * second else base in
  let max := if max <=? 0 then DefaultMaxRetryDelay else max in
  let max := if max <? base then base else max in
  let delay := double_delay attempts base max in
  let delay := i64 (delay + jitter delay) in
  if delay <? base then base else delay.

(** * Invariant *)

Definition terminal (j : Job) : bool :=
  bool_decide (JStatus j = StatusSucceeded) || bool_decide (JStatus j = StatusDead).

(** What holds of every row: the lock belongs to running jobs, the completion
    time to finished ones, and attempts stay within the maximum. *)
Record job_ok (id : Z) (j : Job) : Prop := {
  jo_id : JobID j = id;
  jo_max : 0 < MaxAttempts j;
  jo_attempts : 0 ≤ Attempts j ≤ MaxAttempts j;
  jo_alive : JStatus j ≠ StatusDead → Attempts j < MaxAttempts j;
  jo_dead : JStatus j = StatusDead → Attempts j = MaxAttempts j;
  jo_lock : (JStatus j = StatusRunning ↔ is_Some (LockedBy j)) ∧
            (JStatus j = StatusRunning ↔ is_Some (LockedAt j));
  jo_finished : terminal j = true ↔ is_Some (FinishedAt j);
}.

Record tables_ok (t : JobTables) : Prop := {
  to_jobs : ∀ id j, jobs t !! id = Some j → job_ok id j ∧ id < next_job t;
  to_keys : ∀ id id' j j' k, jobs t !! id = Some j → jobs t !! id' = Some j' →
              IdempotencyKey j = Some k → IdempotencyKey j' = Some k → id = id';
}.

(** ** Selected rows *)

Lemma select_jobs_sound p key held limit t j :
  tables_ok t → j ∈ select_jobs p key held limit t →
  jobs t !! JobID j = Some j ∧ p j = true ∧ JobID j ∉ held.
Proof.
  intros Hok. unfold select_jobs. intros Hj. apply elem_of_take in Hj as (i & Hi & _).
  apply list_elem_of_lookup_2 in Hi. rewrite merge_sort_Permutation in Hi.
  apply list_elem_of_In, filter_In in Hi as [Hi Hp]. bool_simpl.
  apply in_map_iff in Hi as ([id j'] & <- & Hi). apply list_elem_of_In in Hi.
  apply elem_of_map_to_list in Hi as Hl. destruct (to_jobs _ Hok _ _ Hl) as [[Hid _ _ _ _ _ _] _].
  simpl in *. split_and!; [by rewrite Hid|done|done].
Qed.

Lemma select_jobs_ids p key held limit t :
  tables_ok t → NoDup (map JobID (select_jobs p key held limit t)).
Proof.
  intros Hok. unfold select_jobs. rewrite <-firstn_map.
  eapply sublist_NoDup; [|apply sublist_take].
  rewrite merge_sort_Permutation.
  assert (NoDup (map JobID (map snd (map_to_list (jobs t))))) as Hnd.
  { rewrite map_map.
    assert (map (λ x : Z * Job, JobID x.2) (map_to_list (jobs t)) = map fst (map_to_list (jobs t))) as ->.
    { apply map_ext_in. intros [id j] Hin. apply list_elem_of_In, elem_of_map_to_list in Hin.
      by destruct (to_jobs _ Hok _ _ Hin) as [[Hid _ _ _ _ _ _] _]. }
    apply NoDup_fst_map_to_list. }
  revert Hnd. generalize (map snd (map_to_list (jobs t))). intros l.
  induction l as [|j l IH]; simpl; [done|]. intros Hnd. inversion Hnd as [|? ? Hn Hnd']; subst.
  destruct (_ && _); simpl; [|auto]. constructor; [|auto]. intros Hin. apply Hn.
  apply list_elem_of_In, in_map_iff in Hin as (x & Hx & Hf). apply filter_In in Hf as [Hf _].
  apply list_elem_of_In, in_map_iff. by exists x.
Qed.

(** ** Updated rows *)

Lemma foldl_update_lookup (base m : gmap Z Job) f rows id :
  (∀ j, j ∈ rows → base !! JobID j = Some j) →
  foldl (λ m j, <[JobID j := f j]> m) m rows !! id
  = if bool_decide (id ∈ map JobID rows) then f <$> base !! id else m !! id.
Proof.
  revert m. induction rows as [|j rows IH]; intros m Hrows; cbn [foldl map].
  { by rewrite bool_decide_eq_false_2 by set_solver. }
  rewrite IH by set_solver. destruct (decide (id ∈ map JobID rows)) as [Hin|Hin].
  - rewrite !bool_decide_eq_true_2 by set_solver. done.
  - rewrite (bool_decide_eq_false_2 (id ∈ map JobID rows)) by done.
    destruct (decide (id = JobID j)) as [->|Hne].
    + rewrite bool_decide_eq_true_2 by set_solver. rewrite lookup_insert_eq, Hrows by set_solver. done.
    + rewrite bool_decide_eq_false_2 by set_solver. by rewrite lookup_insert_ne.
Qed.

Lemma update_jobs_lookup f rows t id :
  (∀ j, j ∈ rows → jobs t !! JobID j = Some j) →
  jobs (update_jobs f rows t) !! id
  = if bool_decide (id ∈ map JobID rows) then f <$> jobs t !! id else jobs t !! id.
Proof. intros Hrows. by apply foldl_update_lookup. Qed.

(** A row that was selected is the row of its id. *)
Lemma selected_row rows t id j :
  (∀ j, j ∈ rows → jobs t !! JobID j = Some j) →
  jobs t !! id = Some j → id ∈ map JobID rows → j ∈ rows.
Proof.
  intros Hrows Hj Hin. apply list_elem_of_In, in_map_iff in Hin as (x & Hx & Hf).
  apply list_elem_of_In in Hf. specialize (Hrows x Hf). rewrite Hx, Hj in Hrows. by simplify_eq.
Qed.

Lemma foldl_delete_lookup (m : gmap Z Job) (rows : list Job) id :
  foldl (λ m j, delete (JobID j) m) m rows !! id
  = if bool_decide (id ∈ map JobID rows) then None else m !! id.
Proof.
  revert m. induction rows as [|j rows IH]; intros m; cbn [foldl map].
  { by rewrite bool_decide_eq_false_2 by set_solver. }
  rewrite IH. destruct (decide (id = JobID j)) as [->|Hne].
  - rewrite lookup_delete_eq, (bool_decide_eq_true_2 (JobID j ∈ JobID j :: _)) by set_solver.
    by case_match.
  - rewrite lookup_delete_ne by done. repeat case_bool_decide; set_solver.
Qed.

(** * Lifecycle *)

(** Columns no operation changes. *)
Definition same_job (j j' : Job) : Prop :=
  JobID j' = JobID j ∧ JobType j' = JobType j ∧ WorkerPool j' = WorkerPool j ∧
  Payload j' = Payload j ∧ IdempotencyKey j' = IdempotencyKey j ∧
  MaxAttempts j' = MaxAttempts j ∧ JCreatedAt j' = JCreatedAt j.

Inductive job_step : Job → Job → Prop :=
| step_none j : job_step j j
| step_claim j j' :
    JStatus j = StatusPending → JStatus j' = StatusRunning → Attempts j' = Attempts j →
    is_Some (LockedBy j') → is_Some (LockedAt j') → FinishedAt j' = FinishedAt j →
    same_job j j' → job_step j j'
| step_succeed j j' :
    JStatus j = StatusRunning → JStatus j' = StatusSucceeded → Attempts j' = Attempts j →
    LockedBy j' = None → LockedAt j' = None → is_Some (FinishedAt j') →
    same_job j j' → job_step j j'
| step_fail j j' :
    JStatus j = StatusRunning → Attempts j' = Attempts j + 1 →
    JStatus j' = (if MaxAttempts j <=? Attempts j + 1 then StatusDead else StatusPending) →
    LockedBy j' = None → LockedAt j' = None →
    (MaxAttempts j ≤ Attempts j + 1 → is_Some (FinishedAt j')) →
    (Attempts j + 1 < MaxAttempts j → FinishedAt j' = FinishedAt j) →
    same_job j j' → job_step j j'.

Lemma job_step_ok id j j' : job_ok id j → job_step j j' → job_ok id j'.
Proof.
  intros [Hid Hmax Hatt Hal Hd [Hl1 Hl2] Hf] Hs.
  destruct Hs as [j|j j' S S' A L1 L2 F C|j j' S S' A L1 L2 F C|j j' S A S' L1 L2 F1 F2 C];
    [by split| | |]; destruct C as (C1 & _ & _ & _ & _ & C2 & _).
  - assert (terminal j = false) as Ht by (unfold terminal; by rewrite S).
    split; rewrite ?C1, ?C2, ?A, ?S'; try done; try lia.
    + intros _. apply Hal. congruence.
    + unfold terminal. rewrite S', F, <-Hf, Ht. done.
  - split; rewrite ?C1, ?C2, ?A, ?S'; try done; try lia.
    + intros _. apply Hal. congruence.
    + rewrite L1, L2. split; split; (done || intros [? [=]]).
    + unfold terminal. rewrite S'. split; [done|by intros _].
  - assert (Attempts j < MaxAttempts j) as Hlt by (apply Hal; congruence).
    assert (terminal j = false) as Ht by (unfold terminal; by rewrite S).
    destruct (MaxAttempts j <=? Attempts j + 1) eqn:E; bool_simpl;
      split; rewrite ?C1, ?C2, ?A, ?S'; try done; try lia.
    + rewrite L1, L2. split; split; (done || intros [? [=]]).
    + unfold terminal. rewrite S'. split; [intros _; by apply F1|done].
    + rewrite L1, L2. split; split; (done || intros [? [=]]).
    + unfold terminal. rewrite S', F2, <-Hf, Ht by done. done.
Qed.

(** What one operation may do to the table. *)
Record tables_step (t t' : JobTables) : Prop := {
  ts_next : next_job t ≤ next_job t';
  ts_old : ∀ id j, jobs t !! id = Some j →
    match jobs t' !! id with Some j' => job_step j j' | None => terminal j = true end;
  ts_new : ∀ id j', jobs t !! id = None → jobs t' !! id = Some j' →
    next_job t ≤ id < next_job t' ∧ job_ok id j' ∧ JStatus j' = StatusPending ∧ Attempts j' = 0 ∧
    ∀ k, IdempotencyKey j' = Some k → ∀ id2 j2, jobs t' !! id2 = Some j2 →
         IdempotencyKey j2 = Some k → id2 = id;
}.

Lemma job_step_key j j' : job_step j j' → IdempotencyKey j' = IdempotencyKey j.
Proof. by destruct 1 as [|? ? ? ? ? ? ? ? C|? ? ? ? ? ? ? ? C|? ? ? ? ? ? ? ? ? C]; [|apply C..]. Qed.

Lemma tables_step_ok t t' : tables_ok t → tables_step t t' → tables_ok t'.
Proof.
  intros Hok [Hn Ho Hnew]. split.
  - intros id j' Hj'. destruct (jobs t !! id) as [j|] eqn:Ej.
    + specialize (Ho id j Ej). rewrite Hj' in Ho. destruct (to_jobs _ Hok _ _ Ej) as [Hjo Hlt].
      split; [by eapply job_step_ok|lia].
    + destruct (Hnew id j' Ej Hj') as (Hr & Hjo & _). split; [done|lia].
  - intros id id' j j' k Hj Hj' Hk Hk'.
    destruct (jobs t !! id) as [j0|] eqn:E0.
    2:{ symmetry. by eapply (Hnew id j E0 Hj). }
    destruct (jobs t !! id') as [j0'|] eqn:E0'; [|by eapply (Hnew id' j' E0' Hj')].
    pose proof (Ho id j0 E0) as H1. pose proof (Ho id' j0' E0') as H2. rewrite Hj in H1.
    rewrite Hj' in H2. apply job_step_key in H1, H2. apply (to_keys _ Hok id id' j0 j0' k); congruence.
Qed.

Lemma tables_step_refl t : tables_step t t.
Proof.
  split; [done| |congruence]. intros id j Hj. rewrite Hj. constructor.
Qed.

Lemma update_step f rows t :
  (∀ j, j ∈ rows → jobs t !! JobID j = Some j ∧ job_step j (f j)) →
  tables_step t (update_jobs f rows t).
Proof.
  intros Hrows.
  assert (∀ j, j ∈ rows → jobs t !! JobID j = Some j) as Hr by (intros j Hj; by apply Hrows).
  split; [done| |].
  - intros id j Hj. rewrite update_jobs_lookup by done. case_bool_decide as Hin; rewrite Hj; simpl.
    + apply Hrows. by eapply selected_row.
    + constructor.
  - intros id j' Hn. rewrite update_jobs_lookup by done. rewrite Hn. by case_bool_decide.
Qed.

Lemma delete_step rows t :
  (∀ j, j ∈ rows → jobs t !! JobID j = Some j ∧ terminal j = true) →
  tables_step t (set_jobs (λ m, foldl (λ m j, delete (JobID j) m) m rows) t).
Proof.
  intros Hrows. split; [done| |]; simpl.
  - intros id j Hj. rewrite foldl_delete_lookup. case_bool_decide as Hin.
    + apply (selected_row rows t id j) in Hin; [by apply Hrows| |done].
      intros x Hx. by apply Hrows.
    + rewrite Hj. constructor.
  - intros id j' Hn. rewrite foldl_delete_lookup. rewrite Hn. by case_bool_decide.
Qed.

(** ** Each operation is a step *)

Lemma insert_step t j :
  JobID j = next_job t → job_ok (next_job t) j → JStatus j = StatusPending → Attempts j = 0 →
  (∀ k id2 j2, IdempotencyKey j = Some k → jobs t !! id2 = Some j2 → IdempotencyKey j2 ≠ Some k) →
  tables_ok t → tables_step t (insert_job j t).
Proof.
  intros Hid Hjo Hs Ha Hk Hok. unfold insert_job. rewrite Hid. split; simpl; [lia| |].
  - intros id x Hx. destruct (to_jobs _ Hok _ _ Hx) as [_ Hlt].
    rewrite lookup_insert_ne by lia. rewrite Hx. constructor.
  - intros id x Hn. destruct (decide (next_job t = id)) as [<-|Hne].
    + rewrite lookup_insert_eq. intros [= <-]. split_and!; try done; try lia.
      intros k Hk1 id2 j2. destruct (decide (next_job t = id2)) as [<-|Hne2]; [done|].
      rewrite lookup_insert_ne by done. intros Hj2 Hk2. exfalso. by eapply Hk.
    + rewrite lookup_insert_ne by done. congruence.
Qed.

Lemma fresh_job_ok now t ty pool pl key mx ra :
  0 < mx → job_ok (next_job t) (fresh_job now t ty pool pl key mx ra).
Proof.
  intros Hm. split; simpl; try done; try lia.

Qed.

(** An absent key conflicts with no row. *)
Lemma job_with_key_None k t id j :
  job_with_key k t = None → jobs t !! id = Some j → IdempotencyKey j ≠ Some k.
Proof.
  unfold job_with_key. intros Hn Hj Hk. apply fmap_None in Hn. apply head_None in Hn.
  assert ((id, j) ∈ List.filter (λ kv : Z * Job, bool_decide (IdempotencyKey kv.2 = Some k))
                      (map_to_list (jobs t))) as Hin.
  { apply list_elem_of_In, filter_In. split; [by apply list_elem_of_In, elem_of_map_to_list|].
    by apply bool_decide_eq_true. }
  rewrite Hn in Hin. set_solver.
Qed.

Lemma enqueue_row_step now ty pool pl key mx ra t :
  tables_ok t → 0 < mx → conflicting key t = None →
  tables_step t (insert_job (fresh_job now t ty pool pl key mx ra) t).
Proof.
  intros Hok Hm Hc. apply insert_step; try done; [by apply fresh_job_ok|]. simpl.
  intros k id2 j2 -> Hj2. simpl in Hc. by eapply job_with_key_None.
Qed.

Lemma Enqueue_step now params s :
  tables_ok (tables s) → tables_step (tables s) (tables (Enqueue now params s).1).
Proof.
  intros Hok. unfold Enqueue. case_bool_decide; [apply tables_step_refl|].
  rewrite wrap_fst.
  match goal with |- tables_step _ (tables (stmt ?f s).1) =>
    destruct (stmt_cases f s) as [->|[a E]]; [apply tables_step_refl|] end.
  set (t' := tables (fst _)) in *. clearbody t'. cbv beta in E.
  destruct (conflicting _ (tables s)) as [j|] eqn:Ec; injection E as <- _; [apply tables_step_refl|].
  apply enqueue_row_step; [done| |done]. destruct (_ <=? 0) eqn:Em; bool_simpl; lia.
Qed.

Lemma enqueue_event_row_step now ctx ty ev suf mx t :
  tables_ok t → tables_step t (enqueue_event_row now ctx ty ev suf mx t).
Proof.
  intros Hok. unfold enqueue_event_row. destruct (job_with_key _ t) eqn:E; [apply tables_step_refl|].
  apply enqueue_row_step; [done| |done]. destruct (_ <=? 0) eqn:Em; bool_simpl; lia.
Qed.

Lemma EnqueueEventJobTx_step now ctx ty ev suf mx s :
  tables_ok (tables s) → tables_step (tables s) (tables (EnqueueEventJobTx now ctx ty ev suf mx s).1).
Proof.
  intros Hok. unfold EnqueueEventJobTx, exec. rewrite wrap_fst.
  match goal with |- tables_step _ (tables (stmt ?f s).1) =>
    destruct (stmt_cases f s) as [->|[a E]]; [apply tables_step_refl|] end.
  injection E as E _. rewrite <-E. by apply enqueue_event_row_step.
Qed.

Lemma claimed_step now w j : JStatus j = StatusPending → job_step j (claimed now w j).
Proof. intros Hs. by apply step_claim. Qed.

Lemma succeeded_step now j : JStatus j = StatusRunning → job_step j (succeeded now j).
Proof. intros Hs. by apply step_succeed. Qed.

Lemma failed_step now wall err ra j : JStatus j = StatusRunning → job_step j (failed now wall err ra j).
Proof.
  intros Hs. apply step_fail; try done; simpl.
  - intros Hle. by rewrite (proj2 (Z.leb_le _ _)).
  - intros Hlt. by rewrite (proj2 (Z.leb_gt _ _)).
Qed.

Lemma recovered_step now j : JStatus j = StatusRunning → job_step j (recovered now j).
Proof.
  intros Hs. apply step_fail; try done; simpl.
  - intros Hle. by rewrite (proj2 (Z.leb_le _ _)).
  - intros Hlt. by rewrite (proj2 (Z.leb_gt _ _)).
Qed.

(** The claimed rows of a run, and the table it leaves. *)
Lemma Claim_cases now held w pool limit s :
  tables_ok (tables s) →
  let '(s', r) := ClaimAvailableForPool now held w pool limit s in
  (tables s' = tables s ∧ is_ok r = false) ∨
  ∃ rows, r = Ok (map (claimed now (trim_space w)) rows) ∧
    tables s' = update_jobs (claimed now (trim_space w)) rows (tables s) ∧
    NoDup (map JobID rows) ∧
    ∀ j, j ∈ rows → jobs (tables s) !! JobID j = Some j ∧ JStatus j = StatusPending ∧
         (JobID j ∉ held) ∧ WorkerPool j = trim_space pool ∧ (RunAfter j ≤ now)%Z.
Proof.
  intros Hok. unfold ClaimAvailableForPool. case_bool_decide; [by left|].
  case_bool_decide; [by left|].
  match goal with |- context [tx ?b ?c ?m s] => destruct (tx_cases b c m s) as [[E1 E2]|(s1 & a & H1 & H2 & H3 & H4)];
    destruct (tx b c m s) as [s' r] end; simpl in *; [by left|].
  right. rewrite wrap_fst in H4.
  match type of H4 with _ = tables (stmt ?f s1).1 =>
    destruct (stmt f s1) as [s2 r2] eqn:Es end. simpl in H4.
  unfold go_wrap in H2. rewrite Es in H2. destruct r2 as [rows'|e]; [|done]. simpl in H2.
  injection H2 as ->. apply stmt_ok in Es. cbv beta in Es. rewrite H1 in Es. injection Es as Et Ea.
  eexists. split; [by rewrite H3, <-Ea|]. split; [by rewrite H4, <-Et|].
  split; [by apply select_jobs_ids|]. intros j Hj.
  apply select_jobs_sound in Hj as (Hj & Hp & Hh); [|done]. unfold claimable in Hp. by bool_simpl.
Qed.

Lemma Claim_step now held w pool limit s :
  tables_ok (tables s) →
  tables_step (tables s) (tables (ClaimAvailableForPool now held w pool limit s).1).
Proof.
  intros Hok. pose proof (Claim_cases now held w pool limit s Hok) as Hc.
  destruct (ClaimAvailableForPool _ _ _ _ _ s) as [s' r]. simpl.
  destruct Hc as [[-> _]|(rows & _ & -> & _ & Hr)]; [apply tables_step_refl|].
  apply update_step. intros j Hj. destruct (Hr j Hj) as (H1 & H2 & _).
  split; [done|]. by apply claimed_step.
Qed.

Lemma Complete_step now id w s :
  tables_ok (tables s) → tables_step (tables s) (tables (CompleteJob now id w s).1).
Proof.
  intros Hok. unfold CompleteJob. case_bool_decide; [apply tables_step_refl|].
  unfold go_bind. match goal with |- context [go_wrap ?p ?m s] =>
    pose proof (wrap_fst p m s) as Hw; destruct (go_wrap p m s) as [s1 r] end. simpl in Hw.
  assert (tables_step (tables s) (tables s1)) as Hs.
  { rewrite Hw. match goal with |- tables_step _ (tables (stmt ?f s).1) =>
      destruct (stmt_cases f s) as [->|[a E]]; [apply tables_step_refl|] end.
    set (t' := tables (fst _)) in *. clearbody t'. cbv beta in E.
    destruct (jobs (tables s) !! id) as [j|] eqn:Ej; [|injection E as <- _; apply tables_step_refl].
    destruct (owned _ j) eqn:Eo; injection E as <- _; [|apply tables_step_refl].
    unfold owned in Eo. bool_simpl. apply update_step. intros x Hx.
    apply list_elem_of_singleton in Hx as ->. destruct (to_jobs _ Hok _ _ Ej) as [[Hid _ _ _ _ _ _] _].
    split; [by rewrite Hid|by apply succeeded_step]. }
  destruct r as [n|e]; [|done]. by destruct (n =? 0).
Qed.

Lemma Fail_step now wall id w err ra s :
  tables_ok (tables s) → tables_step (tables s) (tables (FailJob now wall id w err ra s).1).
Proof.
  intros Hok. unfold FailJob. case_bool_decide; [apply tables_step_refl|].
  match goal with |- context [tx ?b ?c ?m s] =>
    destruct (tx_cases b c m s) as [[-> _]|(s1 & a & H1 & H2 & _ & ->)]; [apply tables_step_refl|];
    destruct (m s1) as [s2 r2] eqn:E end. simpl in H2. subst r2. simpl.
  go_inv. destruct (jobs (tables s1) !! id) as [j|] eqn:Ej; subst; [|by go_inv].
  destruct (owned _ j) eqn:Eo; [|by go_inv]. go_inv. unfold owned in Eo. bool_simpl.
  match goal with Ht : tables _ = update_jobs _ _ _ |- _ => rewrite Ht end.
  match goal with Ht : tables ?x = tables s1 |- context [update_jobs _ _ (tables ?x)] => rewrite Ht end.
  rewrite H1 in *. apply update_step. intros y Hy.
  apply list_elem_of_singleton in Hy as ->. destruct (to_jobs _ Hok _ _ Ej) as [[Hid _ _ _ _ _ _] _].
  split; [by rewrite Hid|by apply failed_step].
Qed.

Lemma Recover_step now held pool old limit s :
  tables_ok (tables s) →
  tables_step (tables s) (tables (RecoverStaleRunningJobs now held pool old limit s).1).
Proof.
  intros Hok. unfold RecoverStaleRunningJobs.
  case_bool_decide; [apply tables_step_refl|]. destruct (time_is_zero old); [apply tables_step_refl|].
  destruct (limit <=? 0); [apply tables_step_refl|]. rewrite wrap_fst.
  match goal with |- tables_step _ (tables (stmt ?f s).1) =>
    destruct (stmt_cases f s) as [->|[a E]]; [apply tables_step_refl|] end.
  injection E as E _. rewrite <-E. apply update_step. intros j Hj.
  apply select_jobs_sound in Hj as (Hj & Hp & _); [|done]. unfold stale in Hp. bool_simpl.
  split; [done|by apply recovered_step].
Qed.

Lemma purge_rows_step st cutoff limit t :
  tables_ok t → (st = StatusSucceeded ∨ st = StatusDead) →
  let rows := select_jobs (finished_before st cutoff) (λ j, default 0 (FinishedAt j)) ∅ limit t in
  tables_step t (set_jobs (λ m, foldl (λ m j, delete (JobID j) m) m rows) t).
Proof.
  intros Hok Hst. apply delete_step. intros j Hj.
  apply select_jobs_sound in Hj as (Hj & Hp & _); [|done]. split; [done|].
  unfold finished_before in Hp. bool_simpl. unfold terminal.
  destruct Hst as [->| ->]; match goal with H : JStatus j = _ |- _ => by rewrite H end.
Qed.

Lemma purge_status_step st cutoff limit s :
  tables_ok (tables s) → (st = StatusSucceeded ∨ st = StatusDead) →
  tables_step (tables s) (tables (purgeTerminalStatus st cutoff limit s).1).
Proof.
  intros Hok Hst. unfold purgeTerminalStatus. rewrite wrap_fst.
  match goal with |- tables_step _ (tables (stmt ?f s).1) =>
    destruct (stmt_cases f s) as [->|[a E]]; [apply tables_step_refl|] end.
  injection E as E _. rewrite <-E. by apply purge_rows_step.
Qed.

(** The two passes of a purge touch no row that stays. *)
Definition deletes (t t' : JobTables) : Prop :=
  next_job t' = next_job t ∧
  ∀ id, jobs t' !! id = jobs t !! id ∨
        (jobs t' !! id = None ∧ ∃ j, jobs t !! id = Some j ∧ terminal j = true).

Lemma deletes_step t t' : deletes t t' → tables_step t t'.
Proof.
  intros [Hn Hd]. split; [lia| |].
  - intros id j Hj. destruct (Hd id) as [->|[-> (j' & Hj' & Ht)]]; [rewrite Hj; constructor|].
    by simplify_eq.
  - intros id j' Hn' Hj'. destruct (Hd id) as [E|[E _]]; congruence.
Qed.

Lemma deletes_trans t1 t2 t3 : deletes t1 t2 → deletes t2 t3 → deletes t1 t3.
Proof.
  intros [N1 D1] [N2 D2]. split; [lia|]. intros id.
  destruct (D2 id) as [->|[E2 (j & Hj & Ht)]]; [apply D1|].
  right. split; [done|]. exists j. split; [|done].
  destruct (D1 id) as [E|[E _]]; congruence.
Qed.

Lemma purge_status_deletes st cutoff limit s :
  tables_ok (tables s) → (st = StatusSucceeded ∨ st = StatusDead) →
  deletes (tables s) (tables (purgeTerminalStatus st cutoff limit s).1).
Proof.
  intros Hok Hst. pose proof (purge_status_step st cutoff limit s Hok Hst) as Hs.
  revert Hs. unfold purgeTerminalStatus. rewrite wrap_fst.
  match goal with |- context [tables (stmt ?f s).1] =>
    destruct (stmt_cases f s) as [->|[a E]] end; [intros _; split; [done|]; by left|].
  injection E as <- _. intros [_ Ho _]. split; [done|]. intros id. specialize (Ho id).
  simpl in *. rewrite foldl_delete_lookup in *. case_bool_decide; [|by left].
  destruct (jobs (tables s) !! id) as [j|]; [|by left].
  right. split; [done|]. exists j. split; [done|by apply Ho].
Qed.

Lemma Purge_deletes sb db limit s :
  tables_ok (tables s) → deletes (tables s) (tables (PurgeTerminalJobs sb db limit s).1).
Proof.
  assert (∀ t, deletes t t) as Hrefl by (intros t; split; [done|by left]).
  intros Hok. unfold PurgeTerminalJobs.
  destruct (limit <=? 0); [apply Hrefl|]. destruct (_ && _); [apply Hrefl|].
  unfold go_bind at 1.
  match goal with |- context [purgeTerminalStatus StatusSucceeded ?c limit s] =>
    pose proof (purge_status_deletes StatusSucceeded c limit s Hok (or_introl eq_refl)) as H1;
    destruct (purgeTerminalStatus StatusSucceeded c limit s) as [s1 [n|e]] end; simpl in *; [|done].
  destruct (_ <=? 0); [done|]. unfold go_bind.
  match goal with |- context [purgeTerminalStatus StatusDead ?c ?l s1] =>
    pose proof (purge_status_deletes StatusDead c l s1
      (tables_step_ok _ _ Hok (deletes_step _ _ H1)) (or_intror eq_refl)) as H2;
    destruct (purgeTerminalStatus StatusDead c l s1) as [s2 [m|e]] end; simpl in *;
  by eapply deletes_trans.
Qed.

(** * Runs of the queue *)

Inductive JobOp :=
| OpEnqueue (now : time) (params : EnqueueParams)
| OpEnqueueEvent (now : time) (ctx : option string) (jobType eventID suffix : string) (maxAttempts : Z)
| OpClaim (now : time) (held : gset Z) (workerID workerPool : string) (limit : Z)
| OpComplete (now : time) (jobID : Z) (workerID : string)
| OpFail (now wall : time) (jobID : Z) (workerID lastError : string) (retryAfter : Z)
| OpRecover (now : time) (held : gset Z) (workerPool : string) (olderThan : time) (limit : Z)
| OpPurge (succeededBefore deadBefore : time) (limit : Z).

(** The ids of the jobs handed to a worker. *)
Definition handed (r : result (list Job)) : list Z :=
  match r with Ok js => map JobID js | Err _ => [] end.

Definition run_job_op (op : JobOp) (s : db JobTables) : db JobTables * list Z :=
  match op with
  | OpEnqueue now p => ((Enqueue now p s).1, [])
  | OpEnqueueEvent now ctx ty ev suf mx => ((EnqueueEventJobTx now ctx ty ev suf mx s).1, [])
  | OpClaim now held w pool limit =>
      let '(s', r) := ClaimAvailableForPool now held w pool limit s in (s', handed r)
  | OpComplete now id w => ((CompleteJob now id w s).1, [])
  | OpFail now wall id w err ra => ((FailJob now wall id w err ra s).1, [])
  | OpRecover now held pool old limit => ((RecoverStaleRunningJobs now held pool old limit s).1, [])
  | OpPurge sb db limit => ((PurgeTerminalJobs sb db limit s).1, [])
  end.

Fixpoint run_job_ops (ops : list JobOp) (s : db JobTables) : db JobTables * list Z :=
  match ops with
  | [] => (s, [])
  | op :: ops =>
      let '(s1, ids1) := run_job_op op s in
      let '(s2, ids2) := run_job_ops ops s1 in
      (s2, ids1 ++ ids2)
  end.

Lemma run_job_op_step op s :
  tables_ok (tables s) → tables_step (tables s) (tables (run_job_op op s).1).
Proof.
  intros Hok. destruct op as [| | now held w pool limit | | | |]; simpl;
    auto using Enqueue_step, EnqueueEventJobTx_step, Complete_step, Fail_step, Recover_step.
  - pose proof (Claim_step now held w pool limit s Hok) as Hs.
    by destruct (ClaimAvailableForPool now held w pool limit s).
  - by apply deletes_step, Purge_deletes.
Qed.

Lemma run_job_ops_ok ops s :
  tables_ok (tables s) → tables_ok (tables (run_job_ops ops s).1).
Proof.
  revert s. induction ops as [|op ops IH]; intros s Hok; simpl; [done|].
  pose proof (tables_step_ok _ _ Hok (run_job_op_step op s Hok)) as H1.
  destruct (run_job_op op s) as [s1 ids1]. specialize (IH s1 H1). by destruct (run_job_ops ops s1).
Qed.

(** Claims a row may still receive. *)
Definition claims_left (o : option Job) : Z :=
  match o with
  | None => 0
  | Some j => match JStatus j with
              | StatusPending => MaxAttempts j - Attempts j
              | StatusRunning => MaxAttempts j - Attempts j - 1
              | _ => 0
              end
  end.

Definition count_id (id : Z) (ids : list Z) : Z :=
  Z.of_nat (length (List.filter (Z.eqb id) ids)).

Lemma count_id_app id l1 l2 : count_id id (l1 ++ l2) = count_id id l1 + count_id id l2.
Proof. unfold count_id. rewrite List.filter_app, length_app. lia. Qed.

Lemma count_id_NoDup id l : NoDup l → count_id id l = if bool_decide (id ∈ l) then 1 else 0%Z.
Proof.
  unfold count_id. induction 1 as [|x l Hn Hnd IH]; [by rewrite bool_decide_eq_false_2 by set_solver|].
  cbn [List.filter]. destruct (id =? x) eqn:E; bool_simpl.
  - subst x. rewrite bool_decide_eq_true_2 by set_solver.
    rewrite bool_decide_eq_false_2 in IH by done. cbn [length]. lia.
  - rewrite IH. repeat case_bool_decide; set_solver.
Qed.

Lemma claims_left_step id j j' :
  job_ok id j → job_step j j' → claims_left (Some j') ≤ claims_left (Some j).
Proof.
  intros [Hid Hmax Hatt Hal Hd _ _] Hs. unfold claims_left.
  destruct Hs as [j|j j' S S' A _ _ _ C|j j' S S' A _ _ _ C|j j' S A S' _ _ _ _ C]; [done| | |];
    destruct C as (_ & _ & _ & _ & _ & C & _); rewrite ?S, ?S', ?A, ?C in *;
    assert (Attempts j < MaxAttempts j) by (apply Hal; congruence); try lia.
  destruct (MaxAttempts j <=? Attempts j + 1) eqn:E; bool_simpl; lia.
Qed.

Lemma claims_left_nonneg id j : job_ok id j → 0 ≤ claims_left (Some j).
Proof.
  intros [Hid Hmax Hatt Hal Hd _ _]. unfold claims_left.
  destruct (JStatus j) eqn:E; try lia; assert (Attempts j < MaxAttempts j) by (apply Hal; congruence); lia.
Qed.

(** One operation spends the claims it hands out. *)
Lemma op_spends op s id :
  tables_ok (tables s) → id < next_job (tables s) →
  let '(s', ids) := run_job_op op s in
  count_id id ids + claims_left (jobs (tables s') !! id) ≤ claims_left (jobs (tables s) !! id).
Proof.
  intros Hok Hid.
  assert (∀ t', tables_step (tables s) t' →
    claims_left (jobs t' !! id) ≤ claims_left (jobs (tables s) !! id)) as Hmono.
  { intros t' [_ Ho Hnew]. destruct (jobs (tables s) !! id) as [j|] eqn:Ej.
    - specialize (Ho id j Ej). destruct (to_jobs _ Hok _ _ Ej) as [Hjo _].
      destruct (jobs t' !! id); [by eapply claims_left_step|]. by eapply claims_left_nonneg.
    - destruct (jobs t' !! id) as [j'|] eqn:Ej'; [|done].
      destruct (Hnew id j' Ej Ej') as [? _]. lia. }
  pose proof (run_job_op_step op s Hok) as Hst.
  destruct op as [| |now held w pool limit| | | |]; try (by apply Hmono in Hst; simpl in *; rewrite Z.add_0_l).
  simpl in *. pose proof (Claim_cases now held w pool limit s Hok) as Hc.
  destruct (ClaimAvailableForPool now held w pool limit s) as [s' r]. simpl in *.
  destruct Hc as [[-> Hr]|(rows & -> & Ht & Hnd & Hrows)].
  { destruct r; [done|]. simpl. by rewrite Z.add_0_l. }
  simpl. rewrite map_map. change (map (λ x, JobID (claimed _ _ x)) rows) with (map JobID rows).
  rewrite count_id_NoDup by done. rewrite Ht, update_jobs_lookup.
  2:{ intros j Hj. by apply Hrows. }
  case_bool_decide as Hin; [|lia].
  apply list_elem_of_In, in_map_iff in Hin as (j & <- & Hj). apply list_elem_of_In in Hj.
  destruct (Hrows j Hj) as (-> & Hp & _). simpl. rewrite Hp. lia.
Qed.

Lemma ops_spend ops s id :
  tables_ok (tables s) → id < next_job (tables s) →
  let '(s', ids) := run_job_ops ops s in
  count_id id ids + claims_left (jobs (tables s') !! id) ≤ claims_left (jobs (tables s) !! id).
Proof.
  revert s. induction ops as [|op ops IH]; intros s Hok Hid; simpl; [done|].
  pose proof (op_spends op s id Hok Hid) as H1. pose proof (run_job_op_step op s Hok) as Hst.
  destruct (run_job_op op s) as [s1 ids1]. simpl in Hst.
  specialize (IH s1 (tables_step_ok _ _ Hok Hst)).
  destruct (run_job_ops ops s1) as [s2 ids2]. rewrite count_id_app.
  assert (id < next_job (tables s1)) as Hid1 by (destruct Hst; lia). specialize (IH Hid1). lia.
Qed.

(** ** Selection order *)

Lemma before_total key : Total (before key).
Proof. intros a b. unfold before. lia. Qed.

Lemma before_trans key : Transitive (before key).
Proof. intros a b c. unfold before. lia. Qed.

Lemma select_jobs_first p key held limit t j :
  tables_ok t → jobs t !! JobID j = Some j → p j = true → JobID j ∉ held →
  j ∈ select_jobs p key held limit t ∨
  (Z.of_nat (length (select_jobs p key held limit t)) = Z.max 0 limit ∧
   ∀ r, r ∈ select_jobs p key held limit t → before key r j).
Proof.
  intros Hok Hj Hp Hh. unfold select_jobs. set (l := merge_sort _ _).
  assert (j ∈ l) as Hin.
  { unfold l. rewrite merge_sort_Permutation. apply list_elem_of_In, filter_In.
    rewrite Hp, bool_decide_eq_false_2 by done. split; [|done]. apply in_map_iff.
    exists (JobID j, j). split; [done|]. by apply list_elem_of_In, elem_of_map_to_list. }
  assert (StronglySorted (before key) l) as Hs.
  { apply Sorted_StronglySorted; [apply before_trans|]. apply Sorted_merge_sort, before_total. }
  clearbody l. rewrite <-(take_drop (Z.to_nat limit) l) in Hin, Hs.
  apply elem_of_app in Hin as [Hin|Hin]; [by left|]. right. split.
  - assert (drop (Z.to_nat limit) l ≠ []) as Hne by (intros E; rewrite E in Hin; set_solver).
    rewrite length_take. destruct (decide (Z.to_nat limit < length l)%nat); [lia|].
    exfalso. apply Hne, drop_ge. lia.
  - intros r Hr. clear -Hs Hr Hin. revert Hr Hs. induction (take _ l) as [|x xs IH]; simpl; [set_solver|].
    intros Hr Hs. inversion Hs as [|? ? Hs' Hf]; subst. apply elem_of_cons in Hr as [->|Hr].
    + rewrite List.Forall_forall in Hf. apply Hf, list_elem_of_In. set_solver.
    + by apply IH.
Qed.

(** * Properties of the queue *)

Definition empty_queue : JobTables := mkJobTables ∅ 1.

Lemma empty_queue_ok : tables_ok empty_queue.
Proof. split; intros *; unfold empty_queue; simpl; by rewrite lookup_empty. Qed.

(** Whatever operations run in whatever order, and whichever of their
    statements fail, every job row stays well formed: a lock exactly while the
    job runs, a completion time exactly when it is finished, attempts below the
    maximum until it is dead-lettered with exactly the maximum, and no two rows
    share an idempotency key. *)
Theorem queue_invariant (ops : list JobOp) (faults : list (option error)) :
  tables_ok (tables (run_job_ops ops (mkDb empty_queue faults)).1).
Proof. apply run_job_ops_ok. exact empty_queue_ok. Qed.

(** A job moves only pending to running, running to succeeded, and running
    to pending or dead with one more attempt spent; its type, payload, pool, key
    and attempt limit never change, and only finished jobs are ever deleted. *)
Theorem job_lifecycle (op : JobOp) (s : db JobTables) (id : Z) (j : Job) :
  tables_ok (tables s) → jobs (tables s) !! id = Some j →
  match jobs (tables (run_job_op op s).1) !! id with
  | Some j' => job_ok id j' ∧ job_step j j'
  | None => terminal j = true
  end.
Proof.
  intros Hok Hj. pose proof (run_job_op_step op s Hok) as Hs. destruct Hs as [_ Ho _].
  specialize (Ho id j Hj). destruct (jobs (tables (run_job_op op s).1) !! id) as [j'|]; [|done]. split; [|done].
  eapply job_step_ok; [|exact Ho]. by apply (to_jobs _ Hok).
Qed.

(** C16: Across any sequence of operations of any number of workers, a job is
    handed to a worker at most as many times as it has attempts left, however
    workers crash, lose their leases or report failures. *)
Theorem claims_bounded (ops : list JobOp) (s : db JobTables) (id : Z) (j : Job) :
  tables_ok (tables s) → jobs (tables s) !! id = Some j →
  count_id id (run_job_ops ops s).2 ≤ MaxAttempts j - Attempts j.
Proof.
  intros Hok Hj. destruct (to_jobs _ Hok _ _ Hj) as [Hjo Hlt].
  pose proof (ops_spend ops s id Hok Hlt) as Hs. pose proof (run_job_ops_ok ops s Hok) as Hok'.
  destruct (run_job_ops ops s) as [s' ids]. simpl in *. rewrite Hj in Hs.
  assert (0 ≤ claims_left (jobs (tables s') !! id)).
  { destruct (jobs (tables s') !! id) eqn:E; [|done]. eapply claims_left_nonneg.
    by apply (to_jobs _ Hok'). }
  assert (claims_left (Some j) ≤ MaxAttempts j - Attempts j); [|lia].
  destruct Hjo as [_ _ Hatt _ _ _ _]. unfold claims_left. destruct (JStatus j); lia.
Qed.

Lemma Claim_ok now held w pool limit s s' js :
  ClaimAvailableForPool now held w pool limit s = (s', Ok js) →
  let rows := select_jobs (claimable now (trim_space pool)) RunAfter held (Z.max 1 limit) (tables s) in
  js = map (claimed now (trim_space w)) rows ∧
  tables s' = update_jobs (claimed now (trim_space w)) rows (tables s).
Proof.
  unfold ClaimAvailableForPool. do 2 (case_bool_decide; [done|]).
  assert ((if limit <=? 0 then 1 else limit) = Z.max 1 limit) as ->
    by (destruct (limit <=? 0) eqn:E; bool_simpl; lia).
  intros Hr. go_inv. injection Hr as Ht <-.
  match goal with E1 : tables s' = _, E2 : _ = tables s |- _ => rewrite E1, <-Ht, E2 end. done.
Qed.

(** A successful claim hands out distinct pending jobs of the worker's pool
    that are due and held by nobody else, and marks them running under the
    worker's lock; a due job of that pool that is left out is not older than any
    job handed out, and then the batch is full. *)
Theorem claim_oldest_first (now : time) (held : gset Z) (w pool : string) (limit : Z)
    (s s' : db JobTables) (js : list Job) :
  tables_ok (tables s) → ClaimAvailableForPool now held w pool limit s = (s', Ok js) →
  NoDup (map JobID js) ∧
  (∀ j, j ∈ js →
     owned (trim_space w) j = true ∧ jobs (tables s') !! JobID j = Some j ∧
     (JobID j ∉ held) ∧ ∃ j0, jobs (tables s) !! JobID j = Some j0 ∧
       claimable now (trim_space pool) j0 = true ∧ j = claimed now (trim_space w) j0) ∧
  (∀ j0, jobs (tables s) !! JobID j0 = Some j0 → claimable now (trim_space pool) j0 = true →
     JobID j0 ∉ held → (∀ j, j ∈ js → JobID j ≠ JobID j0) →
     Z.of_nat (length js) = Z.max 1 limit ∧ ∀ j, j ∈ js → before RunAfter j j0).
Proof.
  intros Hok Hr. apply Claim_ok in Hr as [-> Ht]. rewrite Ht.
  set (rows := select_jobs _ _ _ _ _) in *. set (f := claimed now (trim_space w)) in *.
  assert (∀ j, j ∈ rows → jobs (tables s) !! JobID j = Some j) as Hrows.
  { intros j Hj. by eapply select_jobs_sound. }
  assert (∀ j, j ∈ map f rows → ∃ j0, j = f j0 ∧ j0 ∈ rows) as Hmap.
  { intros j Hj. apply list_elem_of_In, in_map_iff in Hj as (j0 & <- & Hj0).
    exists j0. split; [done|by apply list_elem_of_In]. }
  split_and!.
  - rewrite map_map. by apply (select_jobs_ids _ _ _ _ _ Hok).
  - intros j Hj. destruct (Hmap j Hj) as (j0 & -> & Hj0).
    pose proof Hj0 as (H1 & H2 & H3)%select_jobs_sound; [|done]. split_and!.
    + unfold owned. simpl. by rewrite !bool_decide_eq_true_2.
    + rewrite update_jobs_lookup by done. rewrite bool_decide_eq_true_2; [simpl; by rewrite H1|].
      apply list_elem_of_In, in_map_iff. exists j0. split; [done|by apply list_elem_of_In].
    + done.
    + by exists j0.
  - intros j0 H1 H2 H3 Hout. rewrite length_map.
    destruct (select_jobs_first (claimable now (trim_space pool)) RunAfter held (Z.max 1 limit)
                (tables s) j0 Hok H1 H2 H3) as [Hin|[Hlen Hb]].
    + exfalso. apply (Hout (f j0)); [|done].
      apply list_elem_of_In, in_map_iff. exists j0. split; [done|by apply list_elem_of_In].
    + split; [unfold rows; lia|]. intros j Hj. destruct (Hmap j Hj) as (j1 & -> & Hj1).
      by apply (Hb j1).
Qed.

(** A row the worker does not hold is left alone, with the ownership error. *)
Definition lease (w : string) (id : Z) (t : JobTables) : option Job :=
  match jobs t !! id with Some j => if owned w j then Some j else None | None => None end.

(** Settling without failing calls. *)
Lemma settle_clean (now wall : time) (id : Z) (w err : string) (ra : Z) (t : JobTables) :
  trim_space w ≠ "" →
  CompleteJob now id w (mkDb t []) =
    match lease (trim_space w) id t with
    | None => (mkDb t [], Err ErrJobNotOwned)
    | Some j => (mkDb (update_jobs (succeeded now) [j] t) [], Ok tt)
    end ∧
  ∃ msg delay, 0 ≤ delay ∧
  FailJob now wall id w err ra (mkDb t []) =
    match lease (trim_space w) id t with
    | None => (mkDb t [], Err ErrJobNotOwned)
    | Some j =>
        (mkDb (update_jobs (failed now wall msg delay) [j] t) [],
         Ok (mkFailure (if MaxAttempts j <=? Attempts j + 1 then StatusDead else StatusPending)
               (Attempts j + 1) (MaxAttempts j)))
    end.
Proof.
  intros Hw. unfold CompleteJob, FailJob, lease. rewrite !bool_decide_eq_false_2 by done.
  split.
  - unfold go_bind, go_wrap, stmt. simpl. destruct (jobs t !! id) as [j|]; [|done].
    by destruct (owned _ j).
  - eexists _, (if ra <? 0 then 0 else ra). split; [destruct (ra <? 0) eqn:E; bool_simpl; lia|].
    unfold tx, go_bind, go_wrap, query, exec, stmt. simpl.
    destruct (jobs t !! id) as [j|]; [|done]. by destruct (owned _ j).
Qed.

(** A worker finishes or fails a job only while it holds the job's lease;
    without it (the job was recovered, reclaimed, finished or deleted) the call
    reports that the job is not owned and changes nothing. With it, completion
    marks the row succeeded, and failure spends an attempt and dead-letters the
    job exactly when no attempt is left. *)
Theorem lease_required (now wall : time) (id : Z) (w err : string) (ra : Z) (t : JobTables) :
  trim_space w ≠ "" →
  CompleteJob now id w (mkDb t []) =
    match lease (trim_space w) id t with
    | None => (mkDb t [], Err ErrJobNotOwned)
    | Some j => (mkDb (update_jobs (succeeded now) [j] t) [], Ok tt)
    end ∧
  ∃ msg delay, 0 ≤ delay ∧
  FailJob now wall id w err ra (mkDb t []) =
    match lease (trim_space w) id t with
    | None => (mkDb t [], Err ErrJobNotOwned)
    | Some j =>
        (mkDb (update_jobs (failed now wall msg delay) [j] t) [],
         Ok (mkFailure (if MaxAttempts j <=? Attempts j + 1 then StatusDead else StatusPending)
               (Attempts j + 1) (MaxAttempts j)))
    end.
Proof. apply settle_clean. Qed.

(** ** Retry delay *)

Lemma double_delay_min n d max :
  0 < d ≤ max → max < 2 ^ 63 → double_delay n d max = Z.min max (d * 2 ^ Z.of_nat n).
Proof.
  revert d. induction n as [|n IH]; intros d Hd Hm; cbn [double_delay]; [lia|].
  assert (0 < 2 ^ Z.of_nat n) by lia.
  rewrite Nat2Z.inj_succ, Z.pow_succ_r by lia.
  destruct (decide (d * 2 < 2 ^ 63)) as [Hlt|Hge].
  - rewrite i64_id by (unfold min_int64, max_int64, two63; lia).
    destruct (_ || _) eqn:E; bool_simpl.
    + nia.
    + rewrite IH by lia. nia.
  - assert (i64 (d * 2) = d * 2 - 2 ^ 64) as ->
      by (unfold i64, two63, two64; rewrite <-(Z.mod_unique_pos _ _ 1 (d * 2 - 2 ^ 63)); lia).
    destruct (_ || _) eqn:E; bool_simpl; nia.
Qed.

(** The retry delay before jitter is base doubled once per failed attempt and
    capped at the maximum, for any number of attempts (the wrap-around of the
    doubling included); jitter moves it by at most a quarter, and the delay
    returned is never shorter than the base. *)
Theorem RetryDelay_spec (jitter : Z → Z) (attempts : nat) (base max : Z) :
  (∀ d, 0 < d → 4 * Z.abs (jitter d) ≤ d) → 0 < base ≤ max → max < 2 ^ 62 →
  let d := Z.min max (base * 2 ^ Z.of_nat attempts) in
  base ≤ RetryDelay jitter attempts base max ∧
  d - d / 4 ≤ RetryDelay jitter attempts base max ≤ d + d / 4.
Proof.
  intros Hj Hb Hm d. unfold RetryDelay.
  rewrite (proj2 (Z.leb_gt base 0)), (proj2 (Z.leb_gt max 0)), (proj2 (Z.ltb_ge max base)) by lia.
  rewrite double_delay_min by lia. fold d.
  assert (0 < 2 ^ Z.of_nat attempts) by lia. assert (base ≤ d ≤ max) by (unfold d; nia).
  specialize (Hj d ltac:(lia)). clearbody d. rewrite i64_id by (unfold min_int64, max_int64, two63; lia).
  destruct (_ <? _) eqn:E; bool_simpl; Z.to_euclidean_division_equations; lia.
Qed.

Definition fifth_less (d : Z) : Z := - (d / 5).

Lemma RetryDelay_spec_witness :
  5 * second ≤ RetryDelay fifth_less 3 (5 * second) (300 * second) ∧
  30 * second ≤ RetryDelay fifth_less 3 (5 * second) (300 * second) ≤ 50 * second.
Proof.
  assert (Hd : Z.min (300 * second) (5 * second * 2 ^ Z.of_nat 3) = 40 * second) by reflexivity.
  pose proof (RetryDelay_spec fifth_less 3 (5 * second) (300 * second)) as H.
  cbv zeta in H. rewrite Hd in H. apply H;
    [intros d Hp; unfold fifth_less; Z.to_euclidean_division_equations; lia|unfold second; lia..].
Defined.

(** *** A queue in use *)

Definition one_running : db JobTables :=
  (run_job_ops
     [OpEnqueue 5 (mkEnqueue JobTypeDeriveEventBundle "" [] "k" 2 0);
      OpEnqueue 6 (mkEnqueue JobTypeDeriveEventBundle "" [] "k2" 2 0);
      OpClaim 7 ∅ "w1" WorkerPoolDefault 1] (mkDb empty_queue [])).1.

Lemma one_running_ok : tables_ok (tables one_running).
Proof. apply run_job_ops_ok. exact empty_queue_ok. Qed.

Definition first_job : Job :=
  claimed 7 "w1" (fresh_job 5 empty_queue JobTypeDeriveEventBundle WorkerPoolDefault (bytes "{}")
                    (Some "k") 2 5).

Lemma job_lifecycle_witness :
  jobs (tables one_running) !! 1 = Some first_job ∧
  match jobs (tables (run_job_op (OpFail 8 8 1 "w1" "boom" 0) one_running).1) !! 1 with
  | Some j' => job_ok 1 j' ∧ job_step first_job j'
  | None => terminal first_job = true
  end.
Proof.
  assert (jobs (tables one_running) !! 1 = Some first_job) as H by (vm_compute; reflexivity).
  split; [exact H|]. apply job_lifecycle; [exact one_running_ok|exact H].
Defined.

Lemma claims_bounded_witness :
  count_id 1 (run_job_ops [OpFail 8 8 1 "w1" "boom" 0; OpClaim 9 ∅ "w2" WorkerPoolDefault 5]
                one_running).2 ≤ 2.
Proof.
  apply (claims_bounded _ one_running 1 first_job); [exact one_running_ok|vm_compute; reflexivity].
Defined.

Lemma claim_oldest_first_witness :
  let '(s', r) := ClaimAvailableForPool 9 ∅ "w2" WorkerPoolDefault 5 one_running in
  match r with Ok js => NoDup (map JobID js) ∧ length js = 1%nat | Err _ => False end.
Proof.
  destruct (ClaimAvailableForPool 9 ∅ "w2" WorkerPoolDefault 5 one_running) as [s' r] eqn:E.
  assert (match r with Ok js => length js = 1%nat | Err _ => False end) as Hr.
  { change r with (s', r).2. rewrite <-E. vm_compute. reflexivity. }
  destruct r as [js|e]; [|exact Hr]. split; [|exact Hr].
  apply (claim_oldest_first 9 ∅ "w2" WorkerPoolDefault 5 one_running s' js one_running_ok E).
Defined.

Lemma lease_required_witness :
  CompleteJob 9 1 "w1" (mkDb (tables one_running) []) =
  (mkDb (update_jobs (succeeded 9) [first_job] (tables one_running)) [], Ok tt).
Proof.
  assert (lease (trim_space "w1") 1 (tables one_running) = Some first_job) as Hl
    by (vm_compute; reflexivity).
  destruct (lease_required 9 9 1 "w1" "" 0 (tables one_running)) as [H _]; [vm_compute; discriminate|].
  rewrite Hl in H. exact H.
Defined.
