(* ===== verification/TrustRedis.v ===== *)
(** The Redis graph of a trust run, [internal/trust/redis_graph.go], with
    [seeds.go], [db_timeout.go] and the key writes of
    [runtime_neighborhoods.go].

    A Redis server is a map from keys to values, each with the expiry set on
    it, if any; that a key expires as time passes is left out. A pipeline is
    one [MULTI]/[EXEC]: a call that fails changes nothing, and a command on a
    key of another type fails by itself. [SCAN] returns what is there, in pages
    the server chooses. Glob characters in the configured prefix are not
    interpreted. *)

From S2P Require Import Prelude GoLib GoFloat Db JobQueue TrustGraph TrustStore.
Local Open Scope go_scope.

(** * Tables *)

Inductive rvalue := RSet (members : gset string) | RHash (fields : gmap string string) | RString (value : string).

Record rentry := mkEntry {
  re_value : rvalue;
  re_ttl : option Z;
}.

Abbreviation redis := (gmap string rentry) (only parsing).

(** A row of [trust_scores_global_stage], by run and pubkey. *)
Record StageRow := mkStage {
  sg_score : f64;
  sg_rank : Z;
  sg_name : string;
  sg_version : Z;
  sg_computed : time;
}.

(** A row of [trust_neighborhood_members], by seed and member. *)
Record MemberRow := mkMemberRow {
  mb_hops : Z;
  mb_weight : f64;
  mb_run : option Z;
  mb_computed : time;
}.

(** The tables that interaction weights are derived from. *)
Record Engagement := mkEngagement {
  event_authors : gmap string string;
  reaction_events : list (string * string);
  repost_events : list (string * string);
  zap_receipts : list (string * option string * string * Z);
  thread_edges : list (string * string * bool);
}.

Record TrustTables := mkTrustTables {
  graph : GraphTables;
  next_run : Z;
  run_jobs : JobTables;
  score_stage : gmap (Z * string) StageRow;
  neighborhood_stage : gmap (Z * string * string) (Z * f64);
  neighborhood_members : gmap (string * string) MemberRow;
  engagement : Engagement;
  interaction_weights : gmap (string * string) f64;
  redis_keys : redis;
}.

Definition set_graph (f : GraphTables → GraphTables) t := mkTrustTables (f (graph t)) (next_run t) (run_jobs t) (score_stage t) (neighborhood_stage t) (neighborhood_members t) (engagement t) (interaction_weights t) (redis_keys t).
Definition set_next_run v t := mkTrustTables (graph t) v (run_jobs t) (score_stage t) (neighborhood_stage t) (neighborhood_members t) (engagement t) (interaction_weights t) (redis_keys t).
Definition set_run_jobs v t := mkTrustTables (graph t) (next_run t) v (score_stage t) (neighborhood_stage t) (neighborhood_members t) (engagement t) (interaction_weights t) (redis_keys t).
Definition set_stage v t := mkTrustTables (graph t) (next_run t) (run_jobs t) v (neighborhood_stage t) (neighborhood_members t) (engagement t) (interaction_weights t) (redis_keys t).
Definition set_nb_stage v t := mkTrustTables (graph t) (next_run t) (run_jobs t) (score_stage t) v (neighborhood_members t) (engagement t) (interaction_weights t) (redis_keys t).
Definition set_members v t := mkTrustTables (graph t) (next_run t) (run_jobs t) (score_stage t) (neighborhood_stage t) v (engagement t) (interaction_weights t) (redis_keys t).
Definition set_weights v t := mkTrustTables (graph t) (next_run t) (run_jobs t) (score_stage t) (neighborhood_stage t) (neighborhood_members t) (engagement t) v (redis_keys t).
Definition set_redis v t := mkTrustTables (graph t) (next_run t) (run_jobs t) (score_stage t) (neighborhood_stage t) (neighborhood_members t) (engagement t) (interaction_weights t) v.

(** * Commands *)

Inductive rcmd :=
| SAdd (key : string) (members : list string)
| Expire (key : string) (ttl : Z)
| HSet (key : string) (fields : list (string * string)).

Definition wrong_type : error := "WRONGTYPE Operation against a key holding the wrong kind of value".

Definition run_cmd (cmd : rcmd) (r : redis) : redis * option error :=
  match cmd with
  | SAdd key members =>
      match r !! key with
      | None => (<[key := mkEntry (RSet (list_to_set members)) None]> r, None)
      | Some (mkEntry (RSet s) ttl) => (<[key := mkEntry (RSet (list_to_set members ∪ s)) ttl]> r, None)
      | Some _ => (r, Some wrong_type)
      end
  | Expire key ttl =>
      match r !! key with
      | None => (r, None)
      | Some e => (<[key := mkEntry (re_value e) (Some ttl)]> r, None)
      end
  | HSet key fields =>
      match r !! key with
      | None => (<[key := mkEntry (RHash (list_to_map fields)) None]> r, None)
      | Some (mkEntry (RHash h) ttl) => (<[key := mkEntry (RHash (list_to_map fields ∪ h)) ttl]> r, None)
      | Some _ => (r, Some wrong_type)
      end
  end.

(** The commands of an [EXEC] all run; the first error is returned. *)
Fixpoint run_cmds (cmds : list rcmd) (r : redis) : redis * option error :=
  match cmds with
  | [] => (r, None)
  | cmd :: cmds =>
      let '(r, e) := run_cmd cmd r in
      let '(r, e') := run_cmds cmds r in
      (r, match e with Some _ => e | None => e' end)
  end.

Definition execRedisPipe (stage : string) (cmds : list rcmd) : go (db TrustTables) unit := λ s,
  match next_fault s with
  | Some e => (next s, Err (stage +:+ ": " +:+ e))
  | None =>
      let '(r, e) := run_cmds cmds (redis_keys (tables s)) in
      (mkDb (set_redis r (tables s)) (faults (next s)), match e with None => Ok tt | Some e => Err (stage +:+ ": " +:+ e) end)
  end.

Definition smembers (r : redis) (key : string) : result (list string) :=
  match r !! key with
  | None => Ok []
  | Some (mkEntry (RSet s) _) => Ok (elements s)
  | Some _ => Err wrong_type
  end.

(** * Keys *)

Definition keyspace_prefix (prefix : string) : string :=
  let prefix := trim_space prefix in
  if bool_decide (prefix = "") then "nostrmash" else prefix.

(** [strings.ReplaceAll(ref, " ", "_")]. *)
Definition sanitizeSnapshotRef (ref : string) : string :=
  let ref := trim_space ref in
  if bool_decide (ref = "") then "snapshot" else str (map (λ b, if b =? 32 then 95 else b) (bytes ref)).

Definition runPrefix (prefix : string) (runID : Z) (ref : string) : string :=
  prefix +:+ ":trust:run:" +:+ str (itoa runID) +:+ ":" +:+ sanitizeSnapshotRef ref.

Definition runNodesKey (base : string) : string := base +:+ ":nodes".
Definition runAdjKey (base pubkey : string) : string := base +:+ ":adj:" +:+ trim_space pubkey.
Definition runRevAdjKey (base pubkey : string) : string := base +:+ ":rev_adj:" +:+ trim_space pubkey.
Definition runSeedsKey (base : string) : string := base +:+ ":seeds".
Definition runNeighborhoodKey (base seed : string) : string := base +:+ ":neighborhood:" +:+ trim_space seed.
Definition runMetaKey (base : string) : string := base +:+ ":meta".
Definition activeSnapshotKey (prefix : string) : string := prefix +:+ ":trust:active_snapshot".
Definition runScanPrefix (prefix : string) : string := prefix +:+ ":trust:run:".

Definition HasPrefix (s p : string) : bool := has_prefix (bytes p) (bytes s).

Definition redisRunKeyTTL : Z := 24 * 3600 * second.

(** * Reading Postgres *)

(** The order in which a query without [ORDER BY] returns the edges. *)
Class EdgeRows := {
  edge_rows : gset (string * string) → list (string * string);
  edge_perm : ∀ s, edge_rows s ≡ₚ elements s;
}.

(** The deferred reset runs whether or not [fn] fails; its error is dropped. *)
Definition withHeavyStatementTimeout {A} (fn : go (db TrustTables) A) : go (db TrustTables) A :=
  go_wrap "acquire trust db conn" (exec id) ;;
  go_wrap "raise trust statement_timeout" (exec id) ;;
  (λ s, let '(s, r) := fn s in ((exec id s).1, r)).

Definition active_pubkeys (t : GraphTables) : gset string :=
  list_to_set (List.filter (λ p, negb (bool_decide (p = ""))) (map trim_space (elements (active_seeds t)))).

Definition loadActiveSeeds : go (db TrustTables) (gset string) :=
  seeds <- go_wrap "list active trust seeds" (query (λ t, active_pubkeys (graph t))) ;;
  go_wrap "read trust seed rows" (exec id) ;;
  go_ret seeds.

(** An edge as the scans read it; blank pubkeys are skipped. *)
Definition scanned_edge (e : string * string) : option (string * string) :=
  let follower := trim_space e.1 in
  let followed := trim_space e.2 in
  if bool_decide (follower = "") || bool_decide (followed = "") then None else Some (follower, followed).

Definition append_edge (st : gmap string (list string) * gset string) (e : string * string) : gmap string (list string) * gset string :=
  match scanned_edge e with
  | None => st
  | Some (follower, followed) =>
      (<[follower := default [] (st.1 !! follower) ++ [followed]]> st.1, {[follower; followed]} ∪ st.2)
  end.

Definition LoadAdjacencyFromPostgres `{EdgeRows} : go (db TrustTables) (gmap string (list string) * gset string) :=
  withHeavyStatementTimeout
    (rows <- go_wrap "query follower edges for ranking" (query (λ t, edge_rows (follower_edges (graph t)))) ;;
     go_wrap "read follower edge rows for ranking" (exec id) ;;
     go_ret (foldl append_edge (∅, ∅) rows)).

(** * Writing the snapshot *)

Record sync_state := mkSync {
  sy_pipe : list rcmd;
  sy_pending : Z;
  sy_edges : Z;
  sy_nodes : gset string;
  sy_adj : gset string;
  sy_rev : gset string;
  sy_nodes_touched : bool;
}.

Definition sync_start : sync_state := mkSync [] 0 0 ∅ ∅ ∅ false.

(** The expiry is queued with the first write of a key. *)
Definition with_expiry (touched : bool) (key : string) (add : rcmd) : list rcmd :=
  if touched then [add] else [add; Expire key redisRunKeyTTL].

Definition queue_edge (base : string) (st : sync_state) (follower followed : string) : sync_state :=
  let adjKey := runAdjKey base follower in
  let revKey := runRevAdjKey base followed in
  let nodesKey := runNodesKey base in
  let cmds := with_expiry (bool_decide (follower ∈ sy_adj st)) adjKey (SAdd adjKey [followed])
              ++ with_expiry (bool_decide (followed ∈ sy_rev st)) revKey (SAdd revKey [follower])
              ++ with_expiry (sy_nodes_touched st) nodesKey (SAdd nodesKey [follower; followed]) in
  mkSync (sy_pipe st ++ cmds) (sy_pending st + Z.of_nat (length cmds)) (sy_edges st + 1) ({[follower; followed]} ∪ sy_nodes st)
    ({[follower]} ∪ sy_adj st) ({[followed]} ∪ sy_rev st) true.

Definition flushEvery : Z := 1000.

Definition flushed (st : sync_state) : sync_state :=
  mkSync [] 0 (sy_edges st) (sy_nodes st) (sy_adj st) (sy_rev st) (sy_nodes_touched st).

Fixpoint sync_rows (base : string) (rows : list (string * string)) (st : sync_state) : go (db TrustTables) sync_state :=
  match rows with
  | [] => go_ret st
  | e :: rows =>
      match scanned_edge e with
      | None => sync_rows base rows st
      | Some (follower, followed) =>
          let st := queue_edge base st follower followed in
          if flushEvery <=? sy_pending st then
            execRedisPipe "flush redis graph edge sync pipeline" (sy_pipe st) ;;
            sync_rows base rows (flushed st)
          else sync_rows base rows st
      end
  end.

Definition sync_edges `{EdgeRows} (base : string) : go (db TrustTables) sync_state :=
  rows <- go_wrap "query follower edges for redis sync" (query (λ t, edge_rows (follower_edges (graph t)))) ;;
  st <- sync_rows base rows sync_start ;;
  go_wrap "read follower edge rows for redis sync" (exec id) ;;
  go_ret st.

Record redisSyncResult := mkSyncResult {
  SnapshotRef : string;
  EdgeCount : Z;
  SeedCount : Z;
  NodeCount : Z;
}.

(** [syncedAt] is the clock, formatted. *)
Definition writeGraphSnapshot `{EdgeRows} (prefix syncedAt : string) (runID : Z) (ref : string) : go (db TrustTables) redisSyncResult :=
  let base := runPrefix prefix runID ref in
  st <- withHeavyStatementTimeout (sync_edges base) ;;
  seeds <- loadActiveSeeds ;;
  let seedVals := elements seeds in
  let seedCmds := match seedVals with
                  | [] => []
                  | _ => [SAdd (runSeedsKey base) seedVals; Expire (runSeedsKey base) redisRunKeyTTL]
                  end in
  let meta := [("run_id", str (itoa runID)); ("snapshot_ref", ref); ("edge_count", str (itoa (sy_edges st)));
               ("seed_count", str (itoa (Z.of_nat (length seedVals)))); ("synced_at", syncedAt)] in
  execRedisPipe "flush redis graph final pipeline"
    (sy_pipe st ++ seedCmds ++ [HSet (runMetaKey base) meta; Expire (runMetaKey base) redisRunKeyTTL]) ;;
  go_ret (mkSyncResult ref (sy_edges st) (Z.of_nat (length seedVals)) (Z.of_nat (size (sy_nodes st)))).

(** * Deleting keys *)

(** The pages of a full scan: every key that is there, each once or more. *)
Class RedisScan := {
  scan_pages : list string → list (list string);
  scan_covers : ∀ keys k, k ∈ concat (scan_pages keys) ↔ k ∈ keys;
}.

Definition unlink (keys : list string) (r : redis) : redis := foldl (λ r k, delete k r) r keys.

Definition unlinkBatch : nat := 512.

Definition flush_unlink (batch : list string) : go (db TrustTables) unit :=
  match batch with
  | [] => go_ret tt
  | _ => go_wrap "unlink stale trust run keys" (exec (λ t, set_redis (unlink batch (redis_keys t)) t))
  end.

(** The keys of one page; a full batch is deleted on the way. *)
Fixpoint collect_page (keep : string) (found batch : list string) : go (db TrustTables) (list string) :=
  match found with
  | [] => go_ret batch
  | key :: found =>
      if negb (bool_decide (keep = "")) && HasPrefix key keep then collect_page keep found batch
      else
        let batch := batch ++ [key] in
        if (unlinkBatch <=? length batch)%nat then
          flush_unlink batch ;;
          collect_page keep found []
        else collect_page keep found batch
  end.

Fixpoint unlink_pages (keep : string) (pages : list (list string)) (batch : list string) : go (db TrustTables) unit :=
  match pages with
  | [] => flush_unlink batch
  | found :: pages =>
      go_wrap "scan trust run keys" (exec id) ;;
      batch <- collect_page keep found batch ;;
      unlink_pages keep pages batch
  end.

(** All keys that start with [pattern], but for those that start with [keep]. *)
Definition unlinkMatching `{RedisScan} (pattern keep : string) : go (db TrustTables) unit := λ s,
  unlink_pages keep (scan_pages (List.filter (λ k, HasPrefix k pattern) (map fst (map_to_list (redis_keys (tables s)))))) [] s.

(** A call whose error is dropped. *)
Definition best_effort {A} (m : go (db TrustTables) A) : go (db TrustTables) unit := λ s, ((m s).1, Ok tt).

(** * The sync *)

Section sync.
Context `{EdgeRows} `{RedisScan}.

(** [nanos] is [time.Now().UTC().UnixNano()]. *)
Definition syncGraphToRedis (configured : bool) (redisKeyPrefix syncedAt : string) (nanos runID : Z) : go (db TrustTables) redisSyncResult :=
  if negb configured then go_fail "redis is not configured for trust runtime"
  else
    let ref := "sync-" +:+ str (itoa nanos) in
    let prefix := keyspace_prefix redisKeyPrefix in
    (λ s,
      match writeGraphSnapshot prefix syncedAt runID ref s with
      | (s, Err e) => ((best_effort (unlinkMatching (runPrefix prefix runID ref +:+ ":") "") s).1, Err e)
      | (s, Ok result) =>
          (go_wrap "set active redis trust snapshot"
             (exec (λ t, set_redis (<[activeSnapshotKey prefix := mkEntry (RString ref) (Some redisRunKeyTTL)]> (redis_keys t)) t)) ;;
           best_effort (unlinkMatching (runScanPrefix prefix) (runPrefix prefix runID ref +:+ ":")) ;;
           go_ret result) s
      end).
End sync.

(** * Reading the snapshot *)

(** One pipeline reads the sets of all nodes; without nodes there is no call. *)
Definition load_sets (base : string) (nodes : list string) (r : redis) : result (list (string * list string)) :=
  foldr (λ node acc,
    match smembers r (runAdjKey base node), acc with
    | Ok vals, Ok sets => Ok ((node, vals) :: sets)
    | Err e, _ => Err e
    | _, Err e => Err e
    end) (Ok []) nodes.

Definition not_blank (l : list string) : list string := List.filter (λ v, negb (bool_decide (v = ""))) (map trim_space l).

Definition loadAdjacencyFromRedis (configured : bool) (redisKeyPrefix : string) (runID : Z) (ref : string)
    : go (db TrustTables) (gmap string (list string) * gset string) :=
  if negb configured then go_fail "redis is not configured"
  else
    let base := runPrefix (keyspace_prefix redisKeyPrefix) runID ref in
    members <- go_wrap "load redis trust nodes"
      (stmt (λ t, match smembers (redis_keys t) (runNodesKey base) with Ok l => Ok (t, l) | Err e => Err e end)) ;;
    let nodes := remove_dups (not_blank members) in
    sets <- match nodes with
            | [] => go_ret []
            | _ => go_wrap "load redis trust adjacency"
                     (stmt (λ t, match load_sets base nodes (redis_keys t) with Ok l => Ok (t, l) | Err e => Err e end))
            end ;;
    let adj := map (λ e : string * list string, (e.1, not_blank e.2)) sets in
    go_ret (list_to_map adj, list_to_set nodes ∪ list_to_set (flat_map snd adj)).

(** * Neighbourhoods *)

(** The members of each seed, in the order they come. *)
Definition by_seed (members : list neighborhoodMember) : gmap string (list string) :=
  foldl (λ m x, <[SeedPubkey x := default [] (m !! SeedPubkey x) ++ [MemberPubkey x]]> m) ∅ members.

Definition writeNeighborhoodsToRedis `{MapRange} (configured enableRedisSync : bool) (redisKeyPrefix : string) (runID : Z) (ref : string)
    (members : list neighborhoodMember) : go (db TrustTables) unit :=
  if negb configured || negb enableRedisSync then go_ret tt
  else
    let ref := trim_space ref in
    if bool_decide (ref = "") || bool_decide (ref = "postgres-only") || bool_decide (members = []) then go_ret tt
    else
      let base := runPrefix (keyspace_prefix redisKeyPrefix) runID ref in
      execRedisPipe "write trust neighborhood redis keys"
        (flat_map (λ e : string * list string,
           [SAdd (runNeighborhoodKey base e.1) e.2; Expire (runNeighborhoodKey base e.1) redisRunKeyTTL]) (map_range (by_seed members))).

(** * Expiry *)

Definition immortal (r : redis) (k : string) : Prop := re_ttl <$> r !! k = Some None.

(** No key without an expiry that was not there before. *)
Definition no_new_immortal (r r' : redis) : Prop := ∀ k, immortal r' k → immortal r k.

Lemma run_cmds_app a b r : (run_cmds (a ++ b) r).1 = (run_cmds b (run_cmds a r).1).1.
Proof.
  revert r. induction a as [|c a IH]; intros r; [done|]. cbn [run_cmds app].
  destruct (run_cmd c r) as [r1 e]. specialize (IH r1).
  destruct (run_cmds (a ++ b) r1), (run_cmds a r1). exact IH.
Qed.

Lemma run_cmds_cons c l r : (run_cmds (c :: l) r).1 = (run_cmds l (run_cmd c r).1).1.
Proof. cbn [run_cmds]. destruct (run_cmd c r) as [r1 e]. cbn [fst]. by destruct (run_cmds l r1). Qed.

Definition cmd_key (c : rcmd) : string :=
  match c with SAdd k _ | Expire k _ | HSet k _ => k end.

Definition creates (c : rcmd) : bool := match c with Expire _ _ => false | _ => true end.

Lemma run_cmd_other c r k : k ≠ cmd_key c → (run_cmd c r).1 !! k = r !! k.
Proof.
  destruct c as [key ms|key ttl|key fs]; cbn; intros Hk; destruct (r !! key) as [[[s|h|v] ttl']|];
    cbn [fst]; rewrite ?lookup_insert_ne by done; done.
Qed.

(** A key that is there keeps its expiry through a write, and stays. *)
Lemma run_cmd_there c r k : is_Some (r !! k) → is_Some ((run_cmd c r).1 !! k) ∧ (immortal (run_cmd c r).1 k → immortal r k).
Proof.
  intros [e He]. destruct (decide (k = cmd_key c)) as [->|Hk]; [|unfold immortal; rewrite !run_cmd_other by done; by rewrite He].
  unfold immortal. destruct c as [key ms|key ttl|key fs]; cbn in *; rewrite He; destruct e as [[s|h|v] ttl'];
    cbn [fst]; rewrite ?lookup_insert_eq, ?He; cbn; split; try done; by injection 1.
Qed.

Lemma run_cmd_create c r : creates c = true → is_Some ((run_cmd c r).1 !! cmd_key c).
Proof.
  destruct c as [key ms|key ttl|key fs]; cbn; [|done|]; intros _; destruct (r !! key) as [[[s|h|v] ttl']|] eqn:E;
    cbn [fst]; rewrite ?lookup_insert_eq, ?E; done.
Qed.

Lemma run_expire key ttl r : is_Some (r !! key) → ¬ immortal (run_cmd (Expire key ttl) r).1 key.
Proof. intros [e He]. unfold immortal. cbn. rewrite He. cbn [fst]. by rewrite lookup_insert_eq. Qed.

(** The keys that a pipeline creates have their expiry by its end, given keys
    [touched] that are there. *)
Definition guarded (touched : string → Prop) (r0 r : redis) : Prop :=
  no_new_immortal r0 r ∧ ∀ k, touched k → is_Some (r !! k).

Lemma guarded_expiry (touched : string → Prop) r0 r b c (Hc : creates c = true) (Hb : b = true → touched (cmd_key c)) :
  guarded touched r0 r →
  guarded (λ k, touched k ∨ k = cmd_key c) r0 (run_cmds (with_expiry b (cmd_key c) c) r).1.
Proof.
  intros [Hn Ht].
  assert (∀ k, touched k → is_Some ((run_cmd c r).1 !! k)) as Ht' by (intros k Hk; by apply run_cmd_there, Ht).
  pose proof (run_cmd_create c r Hc) as Hcr.
  assert (∀ k, k ≠ cmd_key c → immortal (run_cmd c r).1 k → immortal r0 k) as Hn'.
  { intros k Hk. unfold immortal at 1. rewrite run_cmd_other by done. apply Hn. }
  destruct b; cbn [with_expiry]; rewrite !run_cmds_cons; cbn [run_cmds fst].
  - split; [|intros k [Hk| ->]; auto]. intros k Hk.
    destruct (decide (k = cmd_key c)) as [->|Hne]; [|auto]. apply Hn. revert Hk. apply run_cmd_there, Ht. auto.
  - split; [|intros k [Hk| ->]; by apply run_cmd_there; auto]. intros k Hk.
    destruct (decide (k = cmd_key c)) as [->|Hne]; [by destruct (run_expire (cmd_key c) redisRunKeyTTL _ Hcr)|].
    apply Hn'; [done|]. revert Hk. unfold immortal. by rewrite run_cmd_other.
Qed.

Lemma guarded_weaken (P Q : string → Prop) r0 r : (∀ k, Q k → P k) → guarded P r0 r → guarded Q r0 r.
Proof. intros H [H1 H2]. split; auto. Qed.

(** ** The sync *)

Definition touched_keys (base : string) (st : sync_state) (k : string) : Prop :=
  (∃ p, p ∈ sy_adj st ∧ k = runAdjKey base p) ∨ (∃ p, p ∈ sy_rev st ∧ k = runRevAdjKey base p)
  ∨ (sy_nodes_touched st = true ∧ k = runNodesKey base).

(** What the keys are once the queued commands have run. *)
Definition pipe_run (st : sync_state) (r : redis) : redis := (run_cmds (sy_pipe st) r).1.

Lemma queue_guarded base st follower followed r0 r :
  guarded (touched_keys base st) r0 (pipe_run st r) →
  guarded (touched_keys base (queue_edge base st follower followed)) r0 (pipe_run (queue_edge base st follower followed) r).
Proof.
  intros Hg. unfold pipe_run, queue_edge. cbn [sy_pipe]. rewrite !run_cmds_app. fold (pipe_run st r).
  apply (guarded_expiry _ _ _ (bool_decide (follower ∈ sy_adj st)) (SAdd (runAdjKey base follower) [followed])) in Hg;
    [|done|intros Hb%bool_decide_eq_true; left; eauto].
  apply (guarded_expiry _ _ _ (bool_decide (followed ∈ sy_rev st)) (SAdd (runRevAdjKey base followed) [follower])) in Hg;
    [|done|intros Hb%bool_decide_eq_true; left; right; left; eauto].
  apply (guarded_expiry _ _ _ (sy_nodes_touched st) (SAdd (runNodesKey base) [follower; followed])) in Hg;
    [|done|intros Hb; left; left; right; right; done].
  refine (guarded_weaken _ _ _ _ _ Hg). clear Hg. intros k. unfold touched_keys. cbn [sy_adj sy_rev sy_nodes_touched cmd_key].
  intros [(p & [Hp|Hp]%elem_of_union & ->)|[(p & [Hp|Hp]%elem_of_union & ->)|[_ ->]]]; [|eauto 10| |eauto 10|eauto].
  - apply elem_of_singleton in Hp as ->. eauto.
  - apply elem_of_singleton in Hp as ->. eauto.
Qed.

Lemma pipe_cases stage cmds s :
  (∃ e, execRedisPipe stage cmds s = (next s, Err e)) ∨
  ∃ r, execRedisPipe stage cmds s = (mkDb (set_redis (run_cmds cmds (redis_keys (tables s))).1 (tables s)) (faults (next s)), r)
       ∧ (r = Ok tt ↔ (run_cmds cmds (redis_keys (tables s))).2 = None).
Proof.
  unfold execRedisPipe. destruct (next_fault s); [left; eauto|]. right.
  destruct (run_cmds cmds (redis_keys (tables s))) as [r e]. cbn. eexists. split; [done|]. by destruct e.
Qed.

Lemma sync_rows_guards base rows st r0 s :
  no_new_immortal r0 (redis_keys (tables s)) → guarded (touched_keys base st) r0 (pipe_run st (redis_keys (tables s))) →
  let '(s', r) := sync_rows base rows st s in
  no_new_immortal r0 (redis_keys (tables s')) ∧ ∀ st', r = Ok st' → guarded (touched_keys base st') r0 (pipe_run st' (redis_keys (tables s'))).
Proof.
  revert st s. induction rows as [|e rows IH]; intros st s Hs Hg; cbn [sync_rows].
  - cbn. split; [done|]. by intros st' [= <-].
  - destruct (scanned_edge e) as [[a b]|]; [|by apply IH].
    pose proof (queue_guarded base st a b r0 (redis_keys (tables s)) Hg) as Hq. set (st1 := queue_edge base st a b) in *.
    destruct (flushEvery <=? sy_pending st1); [|by apply IH]. unfold go_bind.
    destruct (pipe_cases "flush redis graph edge sync pipeline" (sy_pipe st1) s) as [[e' ->]|(r & -> & _)]; [done|].
    destruct r as [u|e']; [|split; [apply Hq|done]].
    apply IH; [apply Hq|]. exact Hq.
Qed.

Definition mortal (r0 : redis) (t : TrustTables) : Prop := no_new_immortal r0 (redis_keys t).

Lemma exec_id_tables (s : db TrustTables) : tables (exec id s).1 = tables s.
Proof. unfold exec, stmt. by destruct (next_fault s). Qed.

(** The call itself runs between statements that change nothing. *)
Lemma heavy_cases {A} (fn : go (db TrustTables) A) s :
  (∃ s1 e, withHeavyStatementTimeout fn s = (s1, Err e) ∧ tables s1 = tables s) ∨
  ∃ s0 s2, tables s0 = tables s ∧ withHeavyStatementTimeout fn s = (s2, (fn s0).2) ∧ tables s2 = tables (fn s0).1.
Proof.
  unfold withHeavyStatementTimeout.
  set (m1 := go_wrap "acquire trust db conn" (exec id)). set (m2 := go_wrap "raise trust statement_timeout" (exec id)).
  assert (∀ p s, tables (go_wrap p (exec (T := TrustTables) id) s).1 = tables s) as Hid.
  { intros p s'. rewrite wrap_fst. apply exec_id_tables. }
  unfold go_bind. pose proof (Hid "acquire trust db conn" s) as H1. fold m1 in H1. destruct (m1 s) as [s1 [u|e]]; cbn in H1; [|left; eauto].
  pose proof (Hid "raise trust statement_timeout" s1) as H2. fold m2 in H2.
  destruct (m2 s1) as [s2 [u2|e]]; cbn in H2; [|left; eexists _, _; split; [done|congruence]].
  right. exists s2. destruct (fn s2) as [s3 r]. eexists. split_and!; [congruence|done|apply exec_id_tables].
Qed.

Lemma heavy_keeps {A} P (fn : go (db TrustTables) A) : keeps P fn → keeps P (withHeavyStatementTimeout fn).
Proof.
  intros Hk s Hs. destruct (heavy_cases fn s) as [(s1 & e & -> & Ht)|(s0 & s2 & Ht0 & -> & Ht)]; cbn; rewrite Ht; [done|].
  apply Hk. by rewrite Ht0.
Qed.

Lemma heavy_ok {A} (fn : go (db TrustTables) A) s s' a : withHeavyStatementTimeout fn s = (s', Ok a) →
  ∃ s0 s1, tables s0 = tables s ∧ fn s0 = (s1, Ok a) ∧ tables s' = tables s1.
Proof.
  intros E. destruct (heavy_cases fn s) as [(s1 & e & E' & _)|(s0 & s2 & Ht0 & E' & Ht)]; rewrite E in E'; [done|].
  exists s0, (fn s0).1. injection E' as -> E'. split_and!; [done| |done]. rewrite E'. by destruct (fn s0).
Qed.

Lemma reads_id p : reads (go_wrap p (exec (T := TrustTables) id)).
Proof. apply reads_wrap, reads_stmt. by intros t t' a [= <- _]. Qed.

Lemma reads_seeds : reads loadActiveSeeds.
Proof.
  unfold loadActiveSeeds. apply reads_bind; [apply reads_wrap, reads_query|]. intros seeds.
  apply reads_bind; [apply reads_id|]. intros _. apply reads_ret.
Qed.

Lemma reads_keeps {A} P (m : go (db TrustTables) A) : reads m → keeps P m.
Proof. intros Hr s Hs. by rewrite Hr. Qed.

Lemma seeds_meta_guarded (touched : string → Prop) base (vals : list string) meta r0 r :
  guarded touched r0 r →
  no_new_immortal r0 (run_cmds (match vals with [] => [] | _ => [SAdd (runSeedsKey base) vals; Expire (runSeedsKey base) redisRunKeyTTL] end
                      ++ [HSet (runMetaKey base) meta; Expire (runMetaKey base) redisRunKeyTTL]) r).1.
Proof.
  intros Hg. rewrite run_cmds_app.
  assert (guarded touched r0 (run_cmds (match vals with [] => [] | _ => [SAdd (runSeedsKey base) vals; Expire (runSeedsKey base) redisRunKeyTTL] end) r).1) as Hs.
  { destruct vals as [|v vals]; [done|].
    eapply guarded_weaken; [|exact (guarded_expiry touched r0 r false (SAdd (runSeedsKey base) (v :: vals)) eq_refl ltac:(done) Hg)]. intros k Hk. by left. }
  exact (proj1 (guarded_expiry touched r0 _ false (HSet (runMetaKey base) meta) eq_refl ltac:(done) Hs)).
Qed.

Section expiry.
Context `{EdgeRows} `{RedisScan}.

Lemma pipe_mortal r0 stage cmds s : mortal r0 (tables s) → no_new_immortal r0 (run_cmds cmds (redis_keys (tables s))).1 →
  mortal r0 (tables (execRedisPipe stage cmds s).1).
Proof. intros Hs Hc. by destruct (pipe_cases stage cmds s) as [[e ->]|(r & -> & _)]. Qed.

(** A call that ends in a state with [P]; what it returns is in [Q] with it. *)
Definition ensures {A} (P : TrustTables → Prop) (m : go (db TrustTables) A) (Q : A → TrustTables → Prop) (s : db TrustTables) : Prop :=
  P (tables (m s).1) ∧ ∀ a, (m s).2 = Ok a → Q a (tables (m s).1).

Lemma ensures_bind {A B} P (m : go (db TrustTables) A) (k : A → go (db TrustTables) B) Q R s :
  ensures P m Q s → (∀ a s1, P (tables s1) → Q a (tables s1) → ensures P (k a) R s1) → ensures P (go_bind m k) R s.
Proof.
  intros [Hp Hq] Hk. unfold ensures, go_bind. destruct (m s) as [s1 [a|e]]; cbn in *; [by apply Hk; auto|done].
Qed.

Lemma ensures_reads {A} P (m : go (db TrustTables) A) (Q : TrustTables → Prop) s : reads m → P (tables s) → Q (tables s) → ensures P m (λ _, Q) s.
Proof. intros Hr Hs Hq. split; rewrite Hr; auto. Qed.

Lemma sync_edges_guards base r0 s : mortal r0 (tables s) →
  ensures (mortal r0) (sync_edges base) (λ st t, guarded (touched_keys base st) r0 (pipe_run st (redis_keys t))) s.
Proof.
  intros Hs. unfold sync_edges.
  eapply ensures_bind; [apply (ensures_reads _ _ (λ _, True)); [apply reads_wrap, reads_query|done..]|]. intros rows s1 Hs1 _.
  apply (ensures_bind _ _ _ (λ st t, guarded (touched_keys base st) r0 (pipe_run st (redis_keys t)))).
  - pose proof (sync_rows_guards base rows sync_start r0 s1 Hs1) as Hr. unfold ensures.
    destruct (sync_rows base rows sync_start s1) as [s2 r]. apply Hr. split; [done|]. intros k [(p & Hp & _)|[(p & Hp & _)|[Hp _]]]; done.
  - intros st s2 Hs2 Hg. eapply (ensures_bind _ _ _ (λ _ t, guarded (touched_keys base st) r0 (pipe_run st (redis_keys t)))); [by apply ensures_reads; [apply reads_id|..]|]. intros u s3 Hs3 Hg3.
    split; [done|]. cbn. by intros st' [= <-].
Qed.

Lemma snapshot_mortal r0 prefix syncedAt runID ref : keeps (mortal r0) (writeGraphSnapshot prefix syncedAt runID ref).
Proof.
  intros s Hs. unfold writeGraphSnapshot. cbv zeta. set (base := runPrefix prefix runID ref).
  refine (proj1 (ensures_bind (mortal r0) _ _ (λ st t, guarded (touched_keys base st) r0 (pipe_run st (redis_keys t))) (λ _ _, True) s _ _)).
  - unfold ensures. destruct (heavy_cases (sync_edges base) s) as [(s1 & e & -> & Ht)|(s0 & s2 & Ht0 & E & Ht)].
    + split; cbn; rewrite Ht; done.
    + rewrite E. cbn [fst snd]. rewrite Ht. apply sync_edges_guards. by rewrite Ht0.
  - intros st s1 Hs1 Hg. eapply (ensures_bind _ _ _ (λ _ t, guarded (touched_keys base st) r0 (pipe_run st (redis_keys t)))); [by apply ensures_reads; [apply reads_seeds|..]|]. intros seeds s2 Hs2 Hg2. cbv zeta.
    eapply (ensures_bind _ _ _ (λ _ _, True)); [|by intros u s3 Hs3 _]. split; [|done]. apply pipe_mortal; [done|].
    rewrite run_cmds_app. eapply seeds_meta_guarded, Hg2.
Qed.

Lemma unlink_keeps r keys k : unlink keys r !! k = r !! k ∨ (k ∈ keys ∧ unlink keys r !! k = None).
Proof.
  unfold unlink. revert r. induction keys as [|x keys IH]; intros r; [by left|]. cbn.
  destruct (IH (delete x r)) as [->|[Hk ->]]; [|right; set_solver].
  destruct (decide (x = k)) as [->|Hne]; [right; rewrite lookup_delete_eq|left; by rewrite lookup_delete_ne]. set_solver.
Qed.

Lemma unlink_mortal r0 keys r : no_new_immortal r0 r → no_new_immortal r0 (unlink keys r).
Proof.
  intros Hr k Hk. apply Hr. revert Hk. unfold immortal. by destruct (unlink_keeps r keys k) as [->|[_ ->]].
Qed.

(** What deletions by [unlink] keep is kept by the scan. *)
Definition unlink_stable (keep : string) (P : TrustTables → Prop) : Prop :=
  ∀ t keys, Forall (λ k, keep ≠ "" → HasPrefix k keep = false) keys → P t → P (set_redis (unlink keys (redis_keys t)) t).

Lemma flush_unlink_keeps keep P batch : unlink_stable keep P → Forall (λ k, keep ≠ "" → HasPrefix k keep = false) batch →
  keeps P (flush_unlink batch).
Proof.
  intros HP Hb. unfold flush_unlink. destruct batch; keeps_step. apply keeps_exec. intros t Ht. by apply HP.
Qed.

Lemma collect_page_keeps keep P found batch s : unlink_stable keep P → Forall (λ k, keep ≠ "" → HasPrefix k keep = false) batch →
  P (tables s) → let '(s', r) := collect_page keep found batch s in
  P (tables s') ∧ ∀ b, r = Ok b → Forall (λ k, keep ≠ "" → HasPrefix k keep = false) b.
Proof.
  intros HP. revert batch s. induction found as [|key found IH]; intros batch s Hb Hs; cbn [collect_page].
  - cbn. split; [done|]. by intros b [= <-].
  - destruct (negb (bool_decide (keep = "")) && HasPrefix key keep) eqn:E; [by apply IH|].
    assert (Forall (λ k, keep ≠ "" → HasPrefix k keep = false) (batch ++ [key])) as Hb'.
    { apply Forall_app. split; [done|]. constructor; [|done]. intros Hne. rewrite bool_decide_eq_false_2 in E by done. exact E. }
    destruct (unlinkBatch <=? length (batch ++ [key]))%nat; [|by apply IH]. unfold go_bind.
    pose proof (flush_unlink_keeps keep P _ HP Hb' s Hs) as Hf.
    destruct (flush_unlink (batch ++ [key]) s) as [s1 [u|e]]; [by apply IH|done].
Qed.

Lemma unlink_pages_keeps keep P pages batch s : unlink_stable keep P → Forall (λ k, keep ≠ "" → HasPrefix k keep = false) batch →
  P (tables s) → P (tables (unlink_pages keep pages batch s).1).
Proof.
  intros HP. revert batch s. induction pages as [|found pages IH]; intros batch s Hb Hs; cbn [unlink_pages].
  - by apply (flush_unlink_keeps keep P).
  - unfold go_bind at 1. pose proof (reads_id "scan trust run keys" s) as Ht.
    destruct (go_wrap "scan trust run keys" (exec id) s) as [s1 [u|e]]; cbn in Ht |- *; [|by rewrite Ht]. rewrite <-Ht in Hs.
    unfold go_bind. pose proof (collect_page_keeps keep P found batch s1 HP Hb Hs) as Hc.
    destruct (collect_page keep found batch s1) as [s2 [b|e]]; destruct Hc as [Hs2 Hb2]; [|done]. apply IH; [by apply Hb2|done].
Qed.

Lemma unlinkMatching_keeps keep P pattern : unlink_stable keep P → keeps P (unlinkMatching pattern keep).
Proof. intros HP s Hs. unfold unlinkMatching. by apply (unlink_pages_keeps keep P). Qed.

Lemma best_effort_keeps {A} P (m : go (db TrustTables) A) : keeps P m → keeps P (best_effort m).
Proof. intros Hk s Hs. by apply Hk. Qed.

Lemma mortal_stable r0 keep : unlink_stable keep (mortal r0).
Proof. intros t keys _ Ht. by apply unlink_mortal. Qed.

Lemma sync_mortal r0 conf p at' nanos id : keeps (mortal r0) (syncGraphToRedis conf p at' nanos id).
Proof.
  intros s Hs. unfold syncGraphToRedis. destruct (negb conf); [done|]. cbv zeta.
  pose proof (snapshot_mortal r0 (keyspace_prefix p) at' id ("sync-" +:+ str (itoa nanos)) s Hs) as Hw.
  destruct (writeGraphSnapshot _ _ _ _ s) as [s1 [res|e]].
  - match goal with |- mortal _ (tables (?m s1).1) => assert (keeps (mortal r0) m) as Hk; [|exact (Hk s1 Hw)] end.
    keeps_step.
    + apply keeps_exec. intros t Ht k. unfold immortal. cbn [set_redis redis_keys].
      destruct (decide (activeSnapshotKey (keyspace_prefix p) = k)) as [->|Hne]; [by rewrite lookup_insert_eq|]. rewrite lookup_insert_ne by done. apply Ht.
    + apply best_effort_keeps, unlinkMatching_keeps, mortal_stable.
  - apply (best_effort_keeps (mortal r0)); [|exact Hw]. apply unlinkMatching_keeps, mortal_stable.
Qed.

Lemma neighborhoods_mortal `{MapRange} r0 conf on p id ref members : keeps (mortal r0) (writeNeighborhoodsToRedis conf on p id ref members).
Proof.
  intros s Hs. unfold writeNeighborhoodsToRedis. destruct (negb conf || negb on); [done|]. cbv zeta. destruct (_ || _); [done|].
  apply pipe_mortal; [done|]. set (base := runPrefix _ _ _).
  assert (guarded (λ _, False) r0 (redis_keys (tables s))) as Hg by done.
  revert Hg. generalize (redis_keys (tables s)). induction (map_range (by_seed members)) as [|e l IH]; intros r Hg; [apply Hg|].
  cbn [flat_map]. rewrite run_cmds_app. apply IH.
  eapply guarded_weaken; [|exact (guarded_expiry _ r0 r false (SAdd (runNeighborhoodKey base e.1) e.2) eq_refl ltac:(done) Hg)]. done.
Qed.

(** C22: The sync of the graph and the neighbourhood keys add no key without an
    expiry: whatever calls fail, a key without one after them was there without
    one before. *)
Theorem no_immortal_keys `{MapRange} conf on p at' nanos id ref members s k :
  (immortal (redis_keys (tables (syncGraphToRedis conf p at' nanos id s).1)) k → immortal (redis_keys (tables s)) k)
  ∧ (immortal (redis_keys (tables (writeNeighborhoodsToRedis conf on p id ref members s).1)) k → immortal (redis_keys (tables s)) k).
Proof.
  assert (mortal (redis_keys (tables s)) (tables s)) as Hs by (by intros k').
  split; [by apply sync_mortal|by apply neighborhoods_mortal].
Qed.
End expiry.

(** * The snapshot is the graph *)

(** The set at a key; a key that is not there is the empty set. *)
Definition set_at (r : redis) (k : string) : option (gset string) :=
  match r !! k with
  | None => Some ∅
  | Some (mkEntry (RSet s) _) => Some s
  | Some _ => None
  end.

Lemma set_at_smembers r k s : set_at r k = Some s → smembers r k = Ok (elements s).
Proof. unfold set_at, smembers. destruct (r !! k) as [[[s'|h|v] t]|]; intros [= <-]; by rewrite ?elements_empty. Qed.

Lemma set_at_expire key ttl r k : set_at (run_cmd (Expire key ttl) r).1 k = set_at r k.
Proof.
  unfold set_at. cbn. destruct (r !! key) as [[v t]|] eqn:E; [|done]. cbn.
  destruct (decide (key = k)) as [->|Hne]; [by rewrite lookup_insert_eq, E|by rewrite lookup_insert_ne by done].
Qed.

Lemma set_at_sadd key ms r s : set_at r key = Some s → set_at (run_cmd (SAdd key ms) r).1 key = Some (list_to_set ms ∪ s).
Proof.
  unfold set_at. cbn. destruct (r !! key) as [[[s'|h|v] t]|]; intros [= <-]; cbn; rewrite lookup_insert_eq; [done|].
  by rewrite union_empty_r_L.
Qed.

Lemma set_at_other c r k : k ≠ cmd_key c → set_at (run_cmd c r).1 k = set_at r k.
Proof. intros Hk. unfold set_at. by rewrite run_cmd_other. Qed.

Lemma set_at_write b c r k : k ≠ cmd_key c → set_at (run_cmds (with_expiry b (cmd_key c) c) r).1 k = set_at r k.
Proof.
  intros Hk. destruct b; cbn [with_expiry]; rewrite !run_cmds_cons; cbn [run_cmds fst]; rewrite ?set_at_expire; by apply set_at_other.
Qed.

Lemma set_at_add b key ms r s : set_at r key = Some s → set_at (run_cmds (with_expiry b key (SAdd key ms)) r).1 key = Some (list_to_set ms ∪ s).
Proof.
  intros Hs. destruct b; cbn [with_expiry]; rewrite !run_cmds_cons; cbn [run_cmds fst]; rewrite ?set_at_expire; by apply set_at_sadd.
Qed.

(** ** Keys *)

Lemma adj_inj base p q : trim_space p = p → trim_space q = q → runAdjKey base p = runAdjKey base q → p = q.
Proof. unfold runAdjKey. intros -> -> E%(inj _). by injection E. Qed.

Lemma adj_rev base p q : runAdjKey base p ≠ runRevAdjKey base q.
Proof. unfold runAdjKey, runRevAdjKey. intros E%(inj _). discriminate E. Qed.

Lemma nodes_adj base p : runNodesKey base ≠ runAdjKey base p.
Proof. unfold runNodesKey, runAdjKey. intros E%(inj _). discriminate E. Qed.

Lemma nodes_rev base p : runNodesKey base ≠ runRevAdjKey base p.
Proof. unfold runNodesKey, runRevAdjKey. intros E%(inj _). discriminate E. Qed.

Lemma base_prefix base k : HasPrefix (base +:+ ":" +:+ k) (base +:+ ":") = true.
Proof. unfold HasPrefix. rewrite !bytes_app, app_assoc, <-(app_nil_r (bytes base ++ bytes ":")) at 1. by rewrite has_prefix_app. Qed.

(** ** The edges of a scan *)

Definition scanned (rows : list (string * string)) : list (string * string) := omap scanned_edge rows.

Definition trimmed (p : string) : Prop := trim_space p = p ∧ p ≠ "".

Lemma scanned_trimmed rows a b : (a, b) ∈ scanned rows → trimmed a ∧ trimmed b.
Proof.
  unfold scanned, trimmed. intros ([x y] & _ & E)%list_elem_of_omap. revert E. unfold scanned_edge. cbn [fst snd].
  destruct (bool_decide (trim_space x = "")) eqn:Ex; [done|]. destruct (bool_decide (trim_space y = "")) eqn:Ey; [done|]. cbn.
  apply bool_decide_eq_false in Ex, Ey. intros [= <- <-]. by rewrite !trim_space_idem.
Qed.

Definition succs (edges : list (string * string)) (p : string) : list string := snd <$> List.filter (λ e, bool_decide (e.1 = p)) edges.

Definition ends (edges : list (string * string)) : gset string := list_to_set (edges.*1 ++ edges.*2).

Lemma elem_of_succs edges p q : q ∈ succs edges p ↔ (p, q) ∈ edges.
Proof.
  unfold succs. rewrite list_elem_of_fmap. setoid_rewrite list_elem_of_In. setoid_rewrite filter_In. split.
  - intros ([x y] & -> & H & E%bool_decide_eq_true). cbn in *. by subst.
  - intros H. exists (p, q). split_and!; [done..|]. by apply bool_decide_eq_true.
Qed.

Lemma elem_of_ends edges p : p ∈ ends edges ↔ ∃ q, (p, q) ∈ edges ∨ (q, p) ∈ edges.
Proof.
  unfold ends. rewrite elem_of_list_to_set, elem_of_app, !list_elem_of_fmap. split.
  - intros [([a b] & -> & H)|([a b] & -> & H)]; eauto.
  - intros (q & [H|H]); [left; by exists (p, q)|right; by exists (q, p)].
Qed.

Lemma succs_snoc edges a b p : succs (edges ++ [(a, b)]) p = succs edges p ++ (if bool_decide (a = p) then [b] else []).
Proof. unfold succs. rewrite filter_app, fmap_app. cbn. by destruct (bool_decide (a = p)). Qed.

Lemma ends_snoc edges a b : ends (edges ++ [(a, b)]) = {[a; b]} ∪ ends edges.
Proof. apply set_eq. intros x. unfold ends. rewrite !fmap_app. cbn. set_solver. Qed.

(** The keys of a run hold these edges. *)
Definition mirrors (base : string) (edges : list (string * string)) (r : redis) : Prop :=
  set_at r (runNodesKey base) = Some (ends edges)
  ∧ ∀ p, trim_space p = p → set_at r (runAdjKey base p) = Some (list_to_set (succs edges p)).

Lemma mirrors_same base edges r r' : (∀ k, HasPrefix k (base +:+ ":") = true → r' !! k = r !! k) → mirrors base edges r → mirrors base edges r'.
Proof.
  intros Hr [Hn Ha]. unfold mirrors, set_at. rewrite (Hr (runNodesKey base)) by exact (base_prefix base "nodes"). split; [exact Hn|].
  intros p Hp. rewrite (Hr (runAdjKey base p)) by exact (base_prefix base ("adj:" +:+ trim_space p)). by apply Ha.
Qed.

Lemma queue_mirrors base st a b edges r : trim_space a = a →
  mirrors base edges (pipe_run st r) → mirrors base (edges ++ [(a, b)]) (pipe_run (queue_edge base st a b) r).
Proof.
  intros Ha [Hn Hs]. unfold pipe_run, queue_edge. cbn [sy_pipe]. rewrite !run_cmds_app. fold (pipe_run st r).
  set (r1 := (run_cmds (with_expiry _ (runAdjKey base a) _) (pipe_run st r)).1).
  set (r2 := (run_cmds (with_expiry _ (runRevAdjKey base b) _) r1).1).
  assert (∀ k, k ≠ runAdjKey base a → k ≠ runRevAdjKey base b → set_at r2 k = set_at (pipe_run st r) k) as H2.
  { intros k H1 H2. unfold r2. rewrite (set_at_write _ (SAdd (runRevAdjKey base b) [a])) by done.
    unfold r1. by rewrite (set_at_write _ (SAdd (runAdjKey base a) [b])). }
  split.
  - rewrite (set_at_add _ _ _ _ (ends edges)); [f_equal; rewrite ends_snoc; set_solver|].
    rewrite H2; [exact Hn|apply nodes_adj|apply nodes_rev].
  - intros p Hp. rewrite (set_at_write _ (SAdd (runNodesKey base) [a; b])) by (cbn; apply not_eq_sym, nodes_adj).
    rewrite succs_snoc. unfold r2. rewrite (set_at_write _ (SAdd (runRevAdjKey base b) [a])) by apply adj_rev. unfold r1.
    destruct (decide (a = p)) as [<-|Hap]; [rewrite (bool_decide_eq_true_2 (a = a)) by done|rewrite (bool_decide_eq_false_2 (a = p)) by done].
    + rewrite (set_at_add _ _ _ _ (list_to_set (succs edges a))) by (by apply Hs). f_equal. set_solver.
    + rewrite app_nil_r, (set_at_write _ (SAdd (runAdjKey base a) [b])); [by apply Hs|].
      cbn. intros E. apply Hap. symmetry. by eapply adj_inj.
Qed.

Lemma sync_rows_mirrors base rows st s s' st' edges :
  mirrors base edges (pipe_run st (redis_keys (tables s))) → sync_rows base rows st s = (s', Ok st') →
  mirrors base (edges ++ scanned rows) (pipe_run st' (redis_keys (tables s'))) ∧ graph (tables s') = graph (tables s).
Proof.
  revert st s edges. induction rows as [|e rows IH]; intros st s edges Hm; cbn [sync_rows].
  - intros [= <- <-]. unfold scanned. cbn. by rewrite app_nil_r.
  - unfold scanned. cbn [omap list_omap]. fold (scanned rows).
    destruct (scanned_edge e) as [[a b]|] eqn:Ee; [|by apply IH].
    assert (trim_space a = a) as Ha.
    { assert ((a, b) ∈ scanned [e]) as H by (unfold scanned; cbn; rewrite Ee; set_solver). by apply scanned_trimmed in H as [[? _] _]. }
    pose proof (queue_mirrors base st a b edges _ Ha Hm) as Hq. set (st1 := queue_edge base st a b) in *.
    rewrite (app_assoc edges [(a, b)] (scanned rows) : edges ++ (a, b) :: scanned rows = _).
    destruct (flushEvery <=? sy_pending st1); [|by apply IH].
    intros (s1 & u & E1 & E2)%bind_ok.
    destruct (pipe_cases "flush redis graph edge sync pipeline" (sy_pipe st1) s) as [[e' E']|(r & E' & _)]; rewrite E' in E1; [done|].
    injection E1 as <- ->. apply (IH _ _ (edges ++ [(a, b)])) in E2; [exact E2|exact Hq].
Qed.

Lemma pipe_ok stage cmds s s' : execRedisPipe stage cmds s = (s', Ok tt) →
  redis_keys (tables s') = (run_cmds cmds (redis_keys (tables s))).1 ∧ graph (tables s') = graph (tables s).
Proof. destruct (pipe_cases stage cmds s) as [[e ->]|(r & -> & _)]; [done|]. by intros [= <- _]. Qed.

Section roundtrip.
Context `{EdgeRows} `{RedisScan}.

Lemma writeGraphSnapshot_mirrors prefix syncedAt runID ref s s' res :
  (∀ k, HasPrefix k (runPrefix prefix runID ref +:+ ":") = true → redis_keys (tables s) !! k = None) →
  writeGraphSnapshot prefix syncedAt runID ref s = (s', Ok res) →
  mirrors (runPrefix prefix runID ref) (scanned (edge_rows (follower_edges (graph (tables s))))) (redis_keys (tables s'))
  ∧ graph (tables s') = graph (tables s) ∧ SnapshotRef res = ref.
Proof.
  set (base := runPrefix prefix runID ref). intros Hfresh. unfold writeGraphSnapshot. cbv zeta. fold base.
  intros (s1 & st & E1 & E2)%bind_ok.
  apply heavy_ok in E1 as (s0 & s2 & Ht0 & E1 & Ht1). unfold sync_edges in E1.
  apply bind_ok in E1 as (s3 & rows & Eq%wrap_ok & E1). apply query_ok in Eq as [Ht3 ->].
  apply bind_ok in E1 as (s4 & st' & Es & E1). apply bind_ok in E1 as (s5 & u & Er%wrap_ok & [= <- <-]). apply exec_ok in Er. cbn in Er.
  assert (mirrors base [] (pipe_run sync_start (redis_keys (tables s3)))) as H0'.
  { rewrite Ht3, Ht0. unfold mirrors, pipe_run, set_at. cbn -[runNodesKey runAdjKey].
    rewrite Hfresh by exact (base_prefix base "nodes"). split; [done|].
    intros p _. by rewrite Hfresh by exact (base_prefix base ("adj:" +:+ trim_space p)). }
  destruct (sync_rows_mirrors _ _ _ _ _ _ [] H0' Es) as [Hm Hg]. cbn [app] in Hm.
  apply bind_ok in E2 as (s6 & seeds & Eseeds & E2). pose proof (reads_ok _ _ _ _ reads_seeds Eseeds) as Ht6.
  apply bind_ok in E2 as (s7 & [] & Ep & [= <- <-]). apply pipe_ok in Ep as [Hr Hg7].
  rewrite Hg7, Ht6, Ht1, Er, Hg, Ht3, Ht0. split_and!; [|done..].
  rewrite run_cmds_app in Hr. rewrite Ht6, Ht1, Er in Hr. fold (pipe_run st' (redis_keys (tables s4))) in Hr. rewrite Ht0 in Hm.
  rewrite Hr, run_cmds_app. set (r1 := pipe_run _ _) in *.
  assert (∀ k, k ≠ runSeedsKey base → k ≠ runMetaKey base → set_at (run_cmds [HSet (runMetaKey base) [("run_id", str (itoa runID)); ("snapshot_ref", ref); ("edge_count", str (itoa (sy_edges st'))); ("seed_count", str (itoa (Z.of_nat (length (elements seeds))))); ("synced_at", syncedAt)]; Expire (runMetaKey base) redisRunKeyTTL]
     (run_cmds (match elements seeds with [] => [] | _ => [SAdd (runSeedsKey base) (elements seeds); Expire (runSeedsKey base) redisRunKeyTTL] end) r1).1).1 k = set_at r1 k) as Hs.
  { intros k H1 H2. etransitivity; [exact (set_at_write false (HSet (runMetaKey base) _) _ k H2)|].
    destruct (elements seeds) as [|v vs]; [done|]. exact (set_at_write false (SAdd (runSeedsKey base) (v :: vs)) _ k H1). }
  destruct Hm as [Hn Ha]. split; [rewrite Hs; [exact Hn|..]|intros p Hp; rewrite Hs; [by apply Ha|..]];
    unfold runNodesKey, runAdjKey, runSeedsKey, runMetaKey; intros E%(inj _); discriminate E.
Qed.

(** The reaper leaves the keys of the run. *)
Definition same_under (keep : string) (t0 t : TrustTables) : Prop :=
  graph t = graph t0 ∧ ∀ k, HasPrefix k keep = true → redis_keys t !! k = redis_keys t0 !! k.

Lemma same_under_stable keep t0 : keep ≠ "" → unlink_stable keep (same_under keep t0).
Proof.
  intros Hne t keys Hk [Hg Hr]. split; [exact Hg|]. intros k Hp. rewrite <-Hr by done. cbn.
  destruct (unlink_keeps (redis_keys t) keys k) as [E|[Hin _]]; [exact E|].
  rewrite list.Forall_forall in Hk. specialize (Hk k Hin Hne). congruence.
Qed.

Lemma active_outside prefix runID ref : HasPrefix (activeSnapshotKey prefix) (runPrefix prefix runID ref +:+ ":") = false.
Proof.
  unfold HasPrefix, activeSnapshotKey, runPrefix. rewrite !bytes_app, <-app_assoc.
  induction (bytes prefix) as [|b l IH]; [done|]. cbn -[bytes]. by rewrite Z.eqb_refl.
Qed.

Lemma sync_mirrors p syncedAt nanos runID s s' res :
  (∀ k, HasPrefix k (runPrefix (keyspace_prefix p) runID ("sync-" +:+ str (itoa nanos)) +:+ ":") = true → redis_keys (tables s) !! k = None) →
  syncGraphToRedis true p syncedAt nanos runID s = (s', Ok res) →
  mirrors (runPrefix (keyspace_prefix p) runID (SnapshotRef res)) (scanned (edge_rows (follower_edges (graph (tables s))))) (redis_keys (tables s'))
  ∧ graph (tables s') = graph (tables s).
Proof.
  intros Hf. unfold syncGraphToRedis. cbn [negb]. cbv zeta. set (ref := "sync-" +:+ str (itoa nanos)) in *. set (prefix := keyspace_prefix p) in *.
  destruct (writeGraphSnapshot prefix syncedAt runID ref s) as [s1 [r|e]] eqn:E; [|done].
  apply writeGraphSnapshot_mirrors in E as (Hm & Hg & Hr); [|done].
  set (keep := runPrefix prefix runID ref +:+ ":"). intros E.
  match type of E with ?m s1 = _ => assert (keeps (same_under keep (tables s1)) m) as Hk end.
  { assert (keep ≠ "") as Hne by (unfold keep; by destruct (runPrefix prefix runID ref)).
    keeps_step; [|by apply best_effort_keeps, unlinkMatching_keeps, same_under_stable].
    apply keeps_exec. intros t [Hg1 Hr1]. split; [exact Hg1|]. intros k Hp. rewrite <-Hr1 by done. cbn.
    rewrite lookup_insert_ne; [done|]. intros <-. unfold keep in Hp. by rewrite active_outside in Hp. }
  specialize (Hk s1 (conj eq_refl (λ k _, eq_refl))).
  assert (res = r) as ->.
  { apply bind_ok in E as (s2 & u & _ & E). apply bind_ok in E as (s3 & u2 & _ & E). by injection E. }
  rewrite E in Hk. destruct Hk as [Hg2 Hk2]. cbn in Hg2, Hk2.
  rewrite Hr. split; [|congruence]. by eapply mirrors_same.
Qed.

(** ** Both readers *)

Lemma not_blank_trimmed l : Forall trimmed l → not_blank l = l.
Proof.
  unfold not_blank. induction 1 as [|x l [Hx Hne] _ IH]; [done|]. cbn. rewrite Hx, bool_decide_eq_false_2 by done. cbn. by f_equal.
Qed.

Lemma load_sets_ok base edges r nodes : mirrors base edges r → Forall trimmed nodes →
  load_sets base nodes r = Ok (map (λ p, (p, elements (list_to_set (succs edges p) : gset string))) nodes).
Proof.
  intros [_ Ha]. unfold load_sets. induction 1 as [|x l [Hx Hne] _ IH]; [done|]. cbn.
  rewrite (set_at_smembers r (runAdjKey base x) _ (Ha x Hx)). by rewrite IH.
Qed.

Lemma remove_dups_id (l : list string) : NoDup l → remove_dups l = l.
Proof. induction 1 as [|x l Hx _ IH]; [done|]. cbn. rewrite IH. by destruct (decide_rel _ x l). Qed.

Lemma load_redis p runID ref rows (t : TrustTables) : mirrors (runPrefix (keyspace_prefix p) runID ref) (scanned rows) (redis_keys t) →
  ∃ adj, loadAdjacencyFromRedis true p runID ref (mkDb t []) = (mkDb t [], Ok (adj, ends (scanned rows)))
  ∧ ∀ a b, b ∈ default [] (adj !! a) ↔ (a, b) ∈ scanned rows.
Proof.
  set (base := runPrefix _ _ _). set (edges := scanned rows). intros Hm. pose proof Hm as [Hn Ha].
  assert (Forall trimmed (elements (ends edges))) as Ht.
  { apply list.Forall_forall. intros x. rewrite elem_of_elements, elem_of_ends. intros (q & [Hx|Hx]); by apply scanned_trimmed in Hx as [? ?]. }
  set (sets := map (λ p, (p, elements (list_to_set (succs edges p) : gset string))) (elements (ends edges))).
  assert (∀ a b, b ∈ default [] ((list_to_map (map (λ e : string * list string, (e.1, not_blank e.2)) sets) : gmap string (list string)) !! a) ↔ (a, b) ∈ edges) as Hadj.
  { assert (map (λ e : string * list string, (e.1, not_blank e.2)) sets = sets) as ->.
    { unfold sets. rewrite map_map. apply map_ext_in. intros x _. cbn. f_equal. apply not_blank_trimmed, list.Forall_forall.
      intros q. rewrite elem_of_elements, elem_of_list_to_set, elem_of_succs. intros Hq%scanned_trimmed. apply Hq. }
    assert (sets.*1 = elements (ends edges)) as Hfst.
    { unfold sets. change (map ?f ?l) with (f <$> l). rewrite <-list_fmap_compose. apply list_fmap_id. }
    intros a b. destruct (decide (a ∈ ends edges)) as [Hin|Hin].
    - rewrite (proj1 (elem_of_list_to_map sets a (elements (list_to_set (succs edges a) : gset string)) ltac:(rewrite Hfst; apply NoDup_elements))).
      + cbn. by rewrite elem_of_elements, elem_of_list_to_set, elem_of_succs.
      + unfold sets. change (map ?f ?l) with (f <$> l). apply list_elem_of_fmap. exists a. split; [done|by apply elem_of_elements].
    - rewrite (proj1 (not_elem_of_list_to_map sets a)); [|by rewrite Hfst, elem_of_elements]. cbn. split; [by intros ?%not_elem_of_nil|].
      intros Hab. destruct Hin. apply elem_of_ends. eauto. }
  eexists. split; [|exact Hadj]. unfold loadAdjacencyFromRedis. cbn [negb]. cbv zeta. fold base.
  erewrite bind_clean by (apply wrap_clean, stmt_clean; by rewrite (set_at_smembers _ _ _ Hn)).
  rewrite not_blank_trimmed by done.
  rewrite remove_dups_id by apply NoDup_elements.
  erewrite bind_clean with (a := sets).
  2: { pose proof (load_sets_ok base edges (redis_keys t) _ Hm Ht) as Hl. fold sets in Hl. clear -Hl. clearbody sets. revert Hl.
       destruct (elements (ends edges)) as [|x l]; intros Hl; [by injection Hl as <-|]. apply wrap_clean, stmt_clean. by rewrite Hl. }
  cbv zeta. unfold go_ret. do 3 f_equal. apply set_eq. intros x. rewrite elem_of_union, !elem_of_list_to_set, elem_of_elements.
  split; [|auto]. intros [Hx|Hx]; [done|]. apply list_elem_of_In, in_flat_map in Hx as ([a l] & Hal & Hx).
  apply list_elem_of_In in Hx. apply in_map_iff in Hal as ([a' l'] & [= -> <-] & Hal). cbn in Hx.
  apply in_map_iff in Hal as (a2 & [= -> <-] & _).
  rewrite not_blank_trimmed in Hx.
  - rewrite elem_of_elements, elem_of_list_to_set, elem_of_succs in Hx. apply elem_of_ends. eauto.
  - apply list.Forall_forall. intros q. rewrite elem_of_elements, elem_of_list_to_set, elem_of_succs. intros Hq%scanned_trimmed. apply Hq.
Qed.

Lemma append_edges rows adj nodes :
  let st := foldl append_edge (adj, nodes) rows in
  (∀ p, default [] (st.1 !! p) = default [] (adj !! p) ++ succs (scanned rows) p) ∧ st.2 = ends (scanned rows) ∪ nodes.
Proof.
  revert adj nodes. induction rows as [|e rows IH]; intros adj nodes; cbn [foldl].
  - cbv zeta. unfold scanned, ends, succs. cbn. split; [|set_solver]. intros p. by rewrite app_nil_r.
  - cbv zeta. unfold scanned. cbn [omap list_omap]. fold (scanned rows).
    replace (append_edge (adj, nodes) e) with
      (match scanned_edge e with
       | None => (adj, nodes)
       | Some (a, b) => (<[a:=default [] (adj !! a) ++ [b]]> adj, {[a; b]} ∪ nodes)
       end) by (unfold append_edge; by destruct (scanned_edge e) as [[a b]|]).
    destruct (scanned_edge e) as [[a b]|]; [|by apply IH]. destruct (IH (<[a:=default [] (adj !! a) ++ [b]]> adj) ({[a; b]} ∪ nodes)) as [H1 H2]. cbv zeta. split.
    + intros p. rewrite H1. unfold succs. cbn [List.filter fst]. destruct (decide (a = p)) as [<-|Hne].
      * rewrite lookup_insert_eq, (bool_decide_eq_true_2 (a = a)) by done. cbn. by rewrite <-app_assoc.
      * by rewrite lookup_insert_ne, (bool_decide_eq_false_2 (a = p)) by done.
    + rewrite H2. unfold ends. cbn. set_solver.
Qed.

Lemma load_postgres (t : TrustTables) : let rows := edge_rows (follower_edges (graph t)) in
  ∃ adj, LoadAdjacencyFromPostgres (mkDb t []) = (mkDb t [], Ok (adj, ends (scanned rows)))
  ∧ ∀ p, default [] (adj !! p) = succs (scanned rows) p.
Proof.
  cbv zeta. set (rows := edge_rows _). destruct (append_edges rows ∅ ∅) as [H1 H2]. cbv zeta in H1, H2.
  exists (foldl append_edge (∅, ∅) rows).1. split.
  - unfold LoadAdjacencyFromPostgres, withHeavyStatementTimeout.
    erewrite bind_clean by (apply wrap_clean, exec_clean). erewrite bind_clean by (apply wrap_clean, exec_clean). cbn [id].
    cbv beta. erewrite bind_clean by (apply wrap_clean, stmt_clean; reflexivity). erewrite bind_clean by (apply wrap_clean, exec_clean).
    unfold go_ret. cbn. rewrite union_empty_r_L in H2. fold rows. rewrite <-H2. by destruct (foldl append_edge (∅, ∅) rows).
  - intros p. rewrite H1, lookup_empty. done.
Qed.

(** C14: A sync that succeeds under a fresh snapshot reference, whatever its
    best-effort calls did, leaves in Redis the graph of [follower_edges]: both
    readers return the same nodes, and the same followed pubkeys of each node. *)
Theorem redis_round_trip p syncedAt nanos runID s s' res
    (Hfresh : ∀ k, HasPrefix k (runPrefix (keyspace_prefix p) runID ("sync-" +:+ str (itoa nanos)) +:+ ":") = true → redis_keys (tables s) !! k = None)
    (E : syncGraphToRedis true p syncedAt nanos runID s = (s', Ok res)) :
  ∃ adj adj' nodes, (loadAdjacencyFromRedis true p runID (SnapshotRef res) (mkDb (tables s') [])).2 = Ok (adj, nodes)
    ∧ (LoadAdjacencyFromPostgres (mkDb (tables s') [])).2 = Ok (adj', nodes)
    ∧ ∀ a b, b ∈ default [] (adj !! a) ↔ b ∈ default [] (adj' !! a).
Proof.
  apply sync_mirrors in E as [Hm Hg]; [|done]. rewrite <-Hg in Hm.
  destruct (load_redis _ _ _ _ _ Hm) as (adj & E1 & H1). destruct (load_postgres (tables s')) as (adj' & E2 & H2).
  exists adj, adj', (ends (scanned (edge_rows (follower_edges (graph (tables s')))))). rewrite E1, E2. split_and!; [done..|].
  intros a b. by rewrite H1, H2, elem_of_succs.
Qed.
End roundtrip.

(** * The reaper *)

Lemma unlink_app a b r : unlink (a ++ b) r = unlink b (unlink a r).
Proof. apply foldl_app. Qed.

Definition reaped (keep : string) (keys : list string) : list string :=
  List.filter (λ k, negb (negb (bool_decide (keep = "")) && HasPrefix k keep)) keys.

Lemma set_redis_redis f t : set_redis (f (redis_keys t)) t = set_redis (f (redis_keys t)) (set_redis (redis_keys t) t).
Proof. by destruct t. Qed.

Lemma set_redis_id t : set_redis (redis_keys t) t = t.
Proof. by destruct t. Qed.

Lemma flush_unlink_clean batch t : flush_unlink batch (mkDb t []) = (mkDb (set_redis (unlink batch (redis_keys t)) t) [], Ok tt).
Proof. unfold flush_unlink. destruct batch as [|s batch]; [by cbn; rewrite set_redis_id|]. apply wrap_clean. exact (exec_clean (λ t, set_redis (unlink (s :: batch) (redis_keys t)) t) t). Qed.

(** Without failures: what is deleted at once and what is left in the batch. *)
Lemma collect_page_clean keep found batch t : ∃ del rest,
  collect_page keep found batch (mkDb t []) = (mkDb (set_redis (unlink del (redis_keys t)) t) [], Ok rest)
  ∧ del ++ rest = batch ++ reaped keep found.
Proof.
  revert batch t. induction found as [|key found IH]; intros batch t; cbn [collect_page].
  - exists [], batch. unfold reaped. cbn. by rewrite set_redis_id, app_nil_r.
  - unfold reaped. cbn [List.filter]. fold (reaped keep found).
    destruct (negb (bool_decide (keep = "")) && HasPrefix key keep); cbn [negb]; [apply IH|].
    destruct (unlinkBatch <=? length (batch ++ [key]))%nat.
    + erewrite bind_clean by apply flush_unlink_clean.
      destruct (IH [] (set_redis (unlink (batch ++ [key]) (redis_keys t)) t)) as (del & rest & E & Hl).
      exists ((batch ++ [key]) ++ del), rest. rewrite E. cbn [set_redis redis_keys]. rewrite (unlink_app (batch ++ [key]) del).
      split; [by destruct t|]. rewrite <-!app_assoc. cbn in *. by rewrite Hl.
    + destruct (IH (batch ++ [key]) t) as (del & rest & E & Hl). exists del, rest. split; [done|]. rewrite Hl, <-app_assoc. done.
Qed.

Lemma unlink_pages_clean keep pages batch t : unlink_pages keep pages batch (mkDb t []) =
  (mkDb (set_redis (unlink (batch ++ reaped keep (concat pages)) (redis_keys t)) t) [], Ok tt).
Proof.
  revert batch t. induction pages as [|found pages IH]; intros batch t; cbn [unlink_pages concat].
  - unfold reaped. cbn. rewrite app_nil_r. apply flush_unlink_clean.
  - erewrite bind_clean by (apply wrap_clean, exec_clean). cbn [id].
    destruct (collect_page_clean keep found batch t) as (del & rest & E & Hl). erewrite bind_clean by exact E.
    rewrite IH. cbn [set_redis redis_keys]. unfold reaped at 2. rewrite filter_app. fold (reaped keep found) (reaped keep (concat pages)).
    rewrite (app_assoc batch), <-Hl, <-app_assoc, (unlink_app del). by destruct t.
Qed.

Lemma unlink_none keys r k : unlink keys r !! k = if decide (k ∈ keys) then None else r !! k.
Proof.
  unfold unlink. revert r. induction keys as [|x keys IH]; intros r.
  { destruct (decide (k ∈ [])) as [Hk|Hk]; [by apply not_elem_of_nil in Hk|done]. }
  cbn. rewrite IH.
  destruct (decide (k ∈ keys)) as [Hk|Hk], (decide (k ∈ x :: keys)) as [Hx|Hx]; try done; [set_solver| |].
  - assert (k = x) as -> by set_solver. apply lookup_delete_eq.
  - apply lookup_delete_ne. set_solver.
Qed.

(** Without failing calls, exactly the keys under [pattern] and not under [keep]
    are deleted. *)
Theorem unlinkMatching_exact `{RedisScan} pattern keep t k :
  let '(s', r) := unlinkMatching pattern keep (mkDb t []) in
  r = Ok tt ∧ faults s' = [] ∧
  redis_keys (tables s') !! k = if HasPrefix k pattern && negb (negb (bool_decide (keep = "")) && HasPrefix k keep) then None else redis_keys t !! k.
Proof.
  unfold unlinkMatching. cbn [tables]. rewrite unlink_pages_clean. split_and!; [done..|]. cbn [tables redis_keys set_redis app].
  rewrite unlink_none. set (found := List.filter _ _).
  assert (k ∈ reaped keep (concat (scan_pages found)) ↔ is_Some (redis_keys t !! k) ∧ HasPrefix k pattern = true ∧ negb (negb (bool_decide (keep = "")) && HasPrefix k keep) = true) as Hin.
  { unfold reaped. rewrite list_elem_of_In, filter_In, <-list_elem_of_In, scan_covers. unfold found.
    rewrite list_elem_of_In, filter_In, <-list_elem_of_In. change (map ?f ?l) with (f <$> l). rewrite list_elem_of_fmap.
    split; [intros [[([k' e] & -> & He%elem_of_map_to_list) Hp] Hk]; eauto|].
    intros ([e He] & Hp & Hk). split_and!; [|done..]. exists (k, e). by rewrite elem_of_map_to_list. }
  destruct (decide _) as [Hd|Hd]; rewrite Hin in Hd.
  - destruct Hd as (_ & H1 & H2). by rewrite H1, H2.
  - destruct (HasPrefix k pattern && negb (negb (bool_decide (keep = "")) && HasPrefix k keep)) eqn:E; [|done]. apply andb_true_iff in E. destruct (redis_keys t !! k) eqn:Ek; [|done]. destruct Hd. eauto.
Qed.


(** * Examples *)

Section concrete.
#[local] Instance elements_rows : EdgeRows := {| edge_rows := elements; edge_perm := λ s, Permutation_refl _ |}.

Lemma one_page (keys : list string) k : k ∈ concat [keys] ↔ k ∈ keys.
Proof. cbn. by rewrite app_nil_r. Qed.

#[local] Instance one_scan : RedisScan := {| scan_pages := λ keys, [keys]; scan_covers := one_page |}.

Definition no_engagement : Engagement := mkEngagement ∅ [] [] [] [].

Definition toy_trust : TrustTables :=
  mkTrustTables
    (mkGraph {["a" := true]} {[("a", "b"); ("a", "c"); ("b", "c"); (" ", "c")]} ∅ ∅ ∅ ∅ ∅ None ∅ ∅ ∅ ∅ ∅)
    1 (mkJobTables ∅ 1) ∅ ∅ ∅ no_engagement ∅
    {["nostrmash:trust:run:1:sync-7:nodes" := mkEntry (RSet {["x"]}) None]}.

Abbreviation toy_sync nanos := (syncGraphToRedis true " " "now" nanos 2) (only parsing).

Lemma redis_round_trip_witness :
  let s' := (toy_sync 9 (mkDb toy_trust [])).1 in
  let res := mkSyncResult "sync-9" 3 1 3 in
  (redis_keys (tables s') !! "nostrmash:trust:run:1:sync-7:nodes" = None) ∧
  ∃ adj adj' nodes, (loadAdjacencyFromRedis true " " 2 (SnapshotRef res) (mkDb (tables s') [])).2 = Ok (adj, nodes)
    ∧ (LoadAdjacencyFromPostgres (mkDb (tables s') [])).2 = Ok (adj', nodes)
    ∧ ∀ a b, b ∈ default [] (adj !! a) ↔ b ∈ default [] (adj' !! a).
Proof.
  split; [by vm_compute|].
  apply (redis_round_trip " " "now" 9 2 (mkDb toy_trust []) (toy_sync 9 (mkDb toy_trust [])).1 (mkSyncResult "sync-9" 3 1 3)).
  - intros k Hk. cbn [tables redis_keys toy_trust]. apply lookup_singleton_ne. intros <-. vm_compute in Hk. discriminate Hk.
  - vm_compute. reflexivity.
Defined.

(** The expiry is queued once per attempt. A second attempt at the run that
    completes between two batches of the first reaps the first one's keys, and
    the next batch of the first brings one back without an expiry. *)
Theorem reaped_key_immortal :
  let base := runPrefix "nostrmash" 2 "sync-8" in
  let first := queue_edge base sync_start "a" "b" in
  let second := queue_edge base (flushed first) "a" "c" in
  let t1 := set_redis (pipe_run first (redis_keys toy_trust)) toy_trust in
  let '(s2, r2) := toy_sync 9 (mkDb t1 []) in
  is_ok r2 = true ∧ immortal (pipe_run second (redis_keys (tables s2))) (runAdjKey base "a").
Proof. by vm_compute. Qed.
End concrete.
