(* ===== verification/TrustRun.v ===== *)
(** The lifecycle of a trust run, [internal/trust]: [runtime.go],
    [runtime_trigger.go], [runtime_sync.go], [runtime_compute.go],
    [runtime_neighborhoods.go], [runtime_promote.go], [runtime_state.go],
    [personalized.go] and the database part of [interaction_graph.go]; the
    run scheduler is [internal/app/trustworker/run.go].

    A run is a row of [trust_runs] that four kinds of jobs move on: sync,
    compute, neighborhoods (optional) and promote; each handler enqueues the
    next job in the transaction that records its own work. Each transaction is
    atomic; what the jobs' workers do in between is other operations on the same
    tables. [now] is the time of a transaction. Statement timeouts are
    statements that change nothing, and metrics are left out. *)

From S2P Require Import SearchPage Prelude GoLib GoFloat Json Db JobQueue TrustGraph TrustRank TrustStore TrustRedis.
Local Open Scope go_scope.

(** * The runtime *)

Record Runtime := mkRuntime {
  hasRedis : bool;
  redisKeyPrefix : string;
  enableRedisSync : bool;
  enableScoreCompute : bool;
  enableNeighborhoods : bool;
  neighborhoodMaxMembers : Z;
  neighborhoodMaxHops : Z;
  enableInteractionGraph : bool;
  enableSeedTeleport : bool;
  trustedFollowerUntrustedWeight : f64;
}.

Definition NewRuntimeWithRedis (redis : bool) (prefix : string) (sync compute : bool) : Runtime :=
  mkRuntime redis (trim_space prefix) sync compute false 5000 3 false false (f64_of_Z 0).

Definition NewRuntime (sync compute : bool) : Runtime := NewRuntimeWithRedis false "nostrmash" sync compute.

Definition WithNeighborhoods (enabled : bool) (maxMembers maxHops : Z) (r : Runtime) : Runtime :=
  mkRuntime (hasRedis r) (redisKeyPrefix r) (enableRedisSync r) (enableScoreCompute r) enabled
    (if 0 <? maxMembers then maxMembers else neighborhoodMaxMembers r) (if 0 <? maxHops then maxHops else neighborhoodMaxHops r)
    (enableInteractionGraph r) (enableSeedTeleport r) (trustedFollowerUntrustedWeight r).

Definition WithInteractionGraph (enabled : bool) (r : Runtime) : Runtime :=
  mkRuntime (hasRedis r) (redisKeyPrefix r) (enableRedisSync r) (enableScoreCompute r) (enableNeighborhoods r)
    (neighborhoodMaxMembers r) (neighborhoodMaxHops r) enabled (enableSeedTeleport r) (trustedFollowerUntrustedWeight r).

Definition WithTrustedFollowerUntrustedWeight (weight : f64) (r : Runtime) : Runtime :=
  mkRuntime (hasRedis r) (redisKeyPrefix r) (enableRedisSync r) (enableScoreCompute r) (enableNeighborhoods r)
    (neighborhoodMaxMembers r) (neighborhoodMaxHops r) (enableInteractionGraph r) (enableSeedTeleport r)
    (if f64_lt weight (f64_of_Z 0) then f64_of_Z 0 else weight).

Definition WithSeedTeleport (enabled : bool) (r : Runtime) : Runtime :=
  mkRuntime (hasRedis r) (redisKeyPrefix r) (enableRedisSync r) (enableScoreCompute r) (enableNeighborhoods r)
    (neighborhoodMaxMembers r) (neighborhoodMaxHops r) (enableInteractionGraph r) enabled (trustedFollowerUntrustedWeight r).

(** * Jobs *)

Definition JobTypeTrustSyncGraphRedis : string := "trust_sync_graph_redis".
Definition JobTypeTrustComputeGlobalScore : string := "trust_compute_global_scores".
Definition JobTypeTrustComputeNeighborhoods : string := "trust_compute_neighborhoods".
Definition JobTypeTrustPromoteRun : string := "trust_promote_run".

Definition DerivationTrustScoresGlobal : string := "trust_scores_global".
Definition TrustScoresGlobalVersion : Z := 3.

(** The members of a payload; an empty snapshot reference is left out. *)
Definition run_member (runID : Z) : list Z * json := (bytes "run_id", JNum (itoa runID)).

Definition sync_payload (runID : Z) : list Z := bytes (json_Marshal (JObj [run_member runID])).

Definition run_payload (runID : Z) (ref : string) : list Z :=
  bytes (json_Marshal (JObj (run_member runID :: if bool_decide (ref = "") then [] else [(bytes "redis_snapshot_ref", JStr (bytes ref))]))).

Definition decode_run_id (payload : list Z) : option Z :=
  match json_parse payload with
  | Some v => decode_struct "run_id" decode_int 0 v
  | None => None
  end.

Definition decode_run (payload : list Z) : option (Z * string) :=
  match json_parse payload with
  | Some v =>
      match decode_struct "run_id" decode_int 0 v, decode_struct "redis_snapshot_ref" decode_string "" v with
      | Some id, Some ref => Some (id, ref)
      | _, _ => None
      end
  | None => None
  end.

Definition duplicate_key : error := "duplicate key value violates unique constraint".

Definition run_job_key (jobType : string) (runID : Z) : string := jobType +:+ ":run:" +:+ str (itoa runID).

Definition enqueueTrustJobTx (now : time) (jobType : string) (payload : list Z) (idempotencyKey : string) : go (db TrustTables) Z :=
  stmt (λ t,
    match job_with_key idempotencyKey (run_jobs t) with
    | Some _ => Err duplicate_key
    | None =>
        let j := fresh_job now (run_jobs t) jobType (WorkerPoolForJobType jobType) payload (Some idempotencyKey) 3 now in
        Ok (set_run_jobs (insert_job j (run_jobs t)) t, JobID j)
    end).

(** * Runs *)

Definition no_rows : error := "no rows in result set".

Definition update_run (f : Run → Run) (runID : Z) (t : TrustTables) : TrustTables :=
  set_graph (λ g, set_runs (alter f runID (trust_runs g)) g) t.

(** The start of a phase: the columns that every claim sets. *)
Definition begin_phase (phase : RunPhase) (now : time) (r : Run) : Run :=
  mkRun (RunID r) (DerivationName r) (TargetVersion r) (Status r) (RunJobID r) (RunAttempts r) (InputFollowerEdges r) (ScoreRowsPublished r)
    (RedisSnapshotRef r) (Some phase) (SyncJobID r) (ComputeJobID r) (PromoteJobID r) (Some now) None None
    (RunStartedAt r) (RunFinishedAt r) (RunLastError r) (RunCreatedAt r) now.

(** The columns that the sync sets with its phase. *)
Definition mark_running (ref : string) (edges : Z) (now : time) (r : Run) : Run :=
  mkRun (RunID r) (DerivationName r) (TargetVersion r) RunRunning (RunJobID r) (RunAttempts r + 1) edges (ScoreRowsPublished r)
    (Some ref) (Some PhaseSync) (SyncJobID r) (ComputeJobID r) (PromoteJobID r) (Some now) None None
    (Some now) None None (RunCreatedAt r) now.

Definition attach_sync (job : Z) (now : time) (r : Run) : Run :=
  mkRun (RunID r) (DerivationName r) (TargetVersion r) (Status r) (Some job) (RunAttempts r) (InputFollowerEdges r) (ScoreRowsPublished r)
    (RedisSnapshotRef r) (Some PhaseSync) (Some job) (ComputeJobID r) (PromoteJobID r) (Some now) None None
    (RunStartedAt r) (RunFinishedAt r) (RunLastError r) (RunCreatedAt r) now.

Definition attach_compute (job : Z) (now : time) (r : Run) : Run :=
  mkRun (RunID r) (DerivationName r) (TargetVersion r) (Status r) (Some job) (RunAttempts r) (InputFollowerEdges r) (ScoreRowsPublished r)
    (RedisSnapshotRef r) (CurrentPhase r) (SyncJobID r) (Some job) (PromoteJobID r) (PhaseStartedAt r) (PhaseFinishedAt r) (PhaseLastError r)
    (RunStartedAt r) (RunFinishedAt r) (RunLastError r) (RunCreatedAt r) now.

Definition null_if_empty (s : string) : option string := if bool_decide (s = "") then None else Some s.

Definition mark_computed (edges rows : Z) (ref : string) (promote : bool) (job : Z) (now : time) (r : Run) : Run :=
  mkRun (RunID r) (DerivationName r) (TargetVersion r) RunRunning (Some job) (RunAttempts r) edges rows
    (null_if_empty ref) (CurrentPhase r) (SyncJobID r) (ComputeJobID r) (if promote then Some job else PromoteJobID r)
    (PhaseStartedAt r) (Some now) (PhaseLastError r) (RunStartedAt r) (RunFinishedAt r) (RunLastError r) (RunCreatedAt r) now.

Definition mark_expanded (ref : string) (job : Z) (now : time) (r : Run) : Run :=
  mkRun (RunID r) (DerivationName r) (TargetVersion r) RunRunning (Some job) (RunAttempts r) (InputFollowerEdges r) (ScoreRowsPublished r)
    (null_if_empty ref) (CurrentPhase r) (SyncJobID r) (ComputeJobID r) (Some job)
    (PhaseStartedAt r) (Some now) (PhaseLastError r) (RunStartedAt r) (RunFinishedAt r) (RunLastError r) (RunCreatedAt r) now.

Definition mark_succeeded (ref : string) (now : time) (r : Run) : Run :=
  mkRun (RunID r) (DerivationName r) (TargetVersion r) RunSucceeded (RunJobID r) (RunAttempts r) (InputFollowerEdges r) (ScoreRowsPublished r)
    (match null_if_empty ref with Some ref => Some ref | None => RedisSnapshotRef r end) (CurrentPhase r) (SyncJobID r) (ComputeJobID r) (PromoteJobID r)
    (PhaseStartedAt r) (Some now) (PhaseLastError r) (RunStartedAt r) (Some now) (RunLastError r) (RunCreatedAt r) now.

Definition mark_failed (phase : RunPhase) (msg : error) (now : time) (r : Run) : Run :=
  mkRun (RunID r) (DerivationName r) (TargetVersion r) RunFailed (RunJobID r) (RunAttempts r) (InputFollowerEdges r) (ScoreRowsPublished r)
    (RedisSnapshotRef r) (Some phase) (SyncJobID r) (ComputeJobID r) (PromoteJobID r) (PhaseStartedAt r) (Some now) (Some msg)
    (RunStartedAt r) (Some now) (Some msg) (RunCreatedAt r) now.

Definition terminal (s : RunStatus) : bool := bool_decide (s = RunSucceeded) || bool_decide (s = RunFailed).

(** [DELETE ... WHERE run_id = $1]. *)
Definition drop_stage (runID : Z) (t : TrustTables) : TrustTables :=
  set_stage (filter (λ kv : Z * string * StageRow, kv.1.1 ≠ runID) (score_stage t)) t.

(** Both statements are best effort. *)
Definition markRunFailed (now : time) (runID : Z) (phase : RunPhase) (failureErr : error) : go (db TrustTables) unit :=
  best_effort (exec (update_run (mark_failed phase failureErr now) runID)) ;;
  best_effort (exec (drop_stage runID)).

Definition terminal_run (t : TrustTables) (runID : Z) : bool :=
  match trust_runs (graph t) !! runID with Some r => terminal (Status r) | None => false end.

Definition purgeTerminalStageRowsTx : go (db TrustTables) Z :=
  go_wrap "purge terminal trust score staging rows" (stmt (λ t,
    let kept := filter (λ kv : Z * string * StageRow, terminal_run t kv.1.1 = false) (score_stage t) in
    Ok (set_stage kept t, Z.of_nat (size (score_stage t)) - Z.of_nat (size kept)))).

(** [SELECT status ... FOR UPDATE]. *)
Definition lock_run (msg : string) (runID : Z) : go (db TrustTables) RunStatus :=
  row <- go_wrap msg (query (λ t, trust_runs (graph t) !! runID)) ;;
  match row with
  | None => go_fail ("trust run " +:+ str (itoa runID) +:+ " not found")
  | Some r => go_ret (Status r)
  end.

Definition GetRun (runID : Z) : go (db TrustTables) Run :=
  go_wrap "get trust run" (stmt (λ t, match trust_runs (graph t) !! runID with Some r => Ok (t, r) | None => Err no_rows end)).

(** * The trigger *)

Definition insert_run (now : time) (t : TrustTables) : TrustTables :=
  let r := mkRun (next_run t) DerivationTrustScoresGlobal TrustScoresGlobalVersion RunPending None 0 0 0 None None None None None None None None None None None now now in
  set_next_run (next_run t + 1) (set_graph (λ g, set_runs (<[next_run t := r]> (trust_runs g)) g) t).

Definition TriggerGlobalRun (now : time) : go (db TrustTables) Run :=
  runID <- tx "begin trust run tx" "commit trust run trigger"
    (runID <- go_wrap "insert trust run" (stmt (λ t, Ok (insert_run now t, next_run t))) ;;
     jobID <- go_wrap "enqueue trust sync job"
       (enqueueTrustJobTx now JobTypeTrustSyncGraphRedis (sync_payload runID) (run_job_key JobTypeTrustSyncGraphRedis runID)) ;;
     go_wrap "attach trust run job" (exec (update_run (attach_sync jobID now) runID)) ;;
     go_ret runID) ;;
  GetRun runID.

(** The scheduler's tick: no run is started while one is pending or running. *)
Definition schedule_tick (now : time) : go (db TrustTables) (option Run) :=
  active <- query (λ t, size (filter (λ kv : Z * Run, terminal (Status kv.2) = false) (trust_runs (graph t)))) ;;
  if bool_decide (active = 0%nat) then
    run <- TriggerGlobalRun now ;;
    go_ret (Some run)
  else go_ret None.

(** * Interaction weights *)

(** PostgreSQL's [LN]. *)
Class NaturalLog := pg_ln : f64 → f64.

(** The order in which a query without [ORDER BY] returns the weights. *)
Class WeightRows := {
  weight_rows : gmap (string * string) f64 → list (string * string * f64);
  weight_perm : ∀ m, weight_rows m ≡ₚ map_to_list m;
}.

Section interactions.
Context `{NaturalLog} `{WeightRows}.

Definition interactionWeightReaction : f64 := f64_of_Z 1.
Definition interactionWeightRepost : f64 := f64_of_Z 2.
Definition interactionWeightReply : f64 := f64_ratio 3 2.

(** The rows of the union: source, target and weight. *)
Definition author_rows (g : Engagement) (weight : f64) (l : list (string * string)) : list (string * string * f64) :=
  omap (λ e : string * string, author ← event_authors g !! e.2; if bool_decide (e.1 = author) then None else Some (e.1, author, weight)) l.

Definition zap_rows (g : Engagement) : list (string * string * f64) :=
  omap (λ z : string * option string * string * Z,
    let '(sender, receiver, event, sats) := z in
    dst ← match receiver with Some r => Some r | None => event_authors g !! event end;
    if bool_decide (sender = dst) then None
    else Some (sender, dst, pg_ln (f64_add (f64_of_Z 1) (f64_of_Z (Z.max sats 0))))) (zap_receipts g).

Definition reply_rows (g : Engagement) : list (string * string * f64) :=
  omap (λ e : string * string * bool,
    let '(child, parent, missing) := e in
    c ← event_authors g !! child;
    p ← event_authors g !! parent;
    if missing || bool_decide (c = p) then None else Some (c, p, interactionWeightReply)) (thread_edges g).

Definition interaction_rows (g : Engagement) : list (string * string * f64) :=
  author_rows g interactionWeightReaction (reaction_events g) ++ author_rows g interactionWeightRepost (repost_events g)
  ++ zap_rows g ++ reply_rows g.

(** [GROUP BY] with [SUM], the rows added in the order of the union. *)
Definition add_row (m : gmap (string * string) f64) (row : string * string * f64) : gmap (string * string) f64 :=
  let '(src, dst, weight) := row in
  <[(src, dst) := match m !! (src, dst) with Some w => f64_add w weight | None => weight end]> m.

Definition summed (g : Engagement) : gmap (string * string) f64 :=
  filter (λ kv, pg_compare kv.2 (f64_of_Z 0) = Gt)
    (foldl add_row ∅ (List.filter (λ row, negb (bool_decide (row.1.1 = "")) && negb (bool_decide (row.1.2 = ""))) (interaction_rows g))).

Definition RefreshInteractionEdgeWeights : go (db TrustTables) Z :=
  tx "begin interaction edge refresh" "commit interaction edge refresh"
    (go_wrap "set interaction edge statement_timeout" (exec id) ;;
     go_wrap "clear interaction edge weights" (exec (set_weights ∅)) ;;
     go_wrap "rebuild interaction edge weights"
       (stmt (λ t, let m := summed (engagement t) in Ok (set_weights m t, Z.of_nat (size m))))).

Definition load_weight (out : gmap string (gmap string f64)) (row : string * string * f64) : gmap string (gmap string f64) :=
  let '(src, dst, weight) := row in
  let src := trim_space src in
  let dst := trim_space dst in
  if bool_decide (src = "") || bool_decide (dst = "") || f64_le weight (f64_of_Z 0) || is_nan weight || n_inf weight then out
  else
    let bucket := default ∅ (out !! src) in
    <[src := <[dst := f64_add (at_key bucket dst) weight]> bucket]> out.

Definition loadInteractionWeights : go (db TrustTables) (gmap string (gmap string f64)) :=
  rows <- go_wrap "load interaction edge weights" (query (λ t, weight_rows (interaction_weights t))) ;;
  go_wrap "read interaction edge weights" (exec id) ;;
  go_ret (foldl load_weight ∅ rows).
End interactions.

(** * The phases *)

Section phases.
Context `{NaturalLog} `{WeightRows} `{MapRange} `{SliceSort} `{EdgeRows} `{RedisScan}.

Definition usable_ref (r : Runtime) (ref : string) : bool :=
  enableRedisSync r && hasRedis r && negb (bool_decide (trim_space ref = "")) && negb (bool_decide (ref = "postgres-only")).

Definition load_adjacency (r : Runtime) (runID : Z) (ref : string) : go (db TrustTables) (gmap string (list string) * gset string) :=
  if usable_ref r ref then loadAdjacencyFromRedis (hasRedis r) (redisKeyPrefix r) runID ref else LoadAdjacencyFromPostgres.

(** ** Sync *)

(** What the sync writes before its transaction: the reference and the edges. *)
Definition sync_graph (r : Runtime) (syncedAt : string) (nanos runID : Z) : go (db TrustTables) (string * Z) :=
  if enableRedisSync r then
    result <- syncGraphToRedis (hasRedis r) (redisKeyPrefix r) syncedAt nanos runID ;;
    go_ret (SnapshotRef result, EdgeCount result)
  else go_ret ("postgres-only", 0).

Definition sync_tx (now : time) (runID : Z) (snapshotRef : string) (edgeCount : Z) : go (db TrustTables) (option unit * unit) :=
  go_wrap "set trust sync statement_timeout" (exec id) ;;
  status <- lock_run "lock trust run for redis sync" runID ;;
  if terminal status then go_ret (None, tt)
  else
    followerEdges <-
      (if 0 <? edgeCount then go_ret edgeCount
       else go_wrap "count follower edges during trust redis sync" (query (λ t, Z.of_nat (size (follower_edges (graph t)))))) ;;
    go_wrap "mark trust run running after redis sync" (exec (update_run (mark_running snapshotRef followerEdges now) runID)) ;;
    computeJobID <- go_wrap "enqueue trust compute job after sync"
      (enqueueTrustJobTx now JobTypeTrustComputeGlobalScore (run_payload runID snapshotRef)
         (run_job_key JobTypeTrustComputeGlobalScore runID +:+ ":" +:+ snapshotRef)) ;;
    go_wrap "set trust run compute job id" (exec (update_run (attach_compute computeJobID now) runID)) ;;
    go_ret (Some tt, tt).

Definition executeRedisSyncRun (r : Runtime) (now : time) (syncedAt : string) (nanos runID : Z) : go (db TrustTables) unit :=
  refs <- sync_graph r syncedAt nanos runID ;;
  let '(snapshotRef, edgeCount) := refs in
  tx_if "begin trust redis sync tx" (λ _ : unit, "commit trust redis sync tx") (sync_tx now runID snapshotRef edgeCount).

(** ** Claims *)

(** [claimComputePhase] and [claimNeighborhoodsPhase]: [None] when the run is
    over. *)
Definition claim_phase (name : string) (phase : RunPhase) (now : time) (runID : Z) (ref : string) : go (db TrustTables) (option string) :=
  tx_if ("begin trust " +:+ name +:+ " claim tx") (λ _ : unit, "commit trust " +:+ name +:+ " claim tx")
    (status <- lock_run "lock trust run" runID ;;
     if terminal status then go_ret (None, None)
     else
       ref <- (if bool_decide (trim_space ref = "") then
                 go_wrap "load trust run redis snapshot ref" (query (λ t, default "" (trust_runs (graph t) !! runID ≫= RedisSnapshotRef)))
               else go_ret ref) ;;
       go_wrap ("mark trust run " +:+ name +:+ " phase") (exec (update_run (begin_phase phase now) runID)) ;;
       go_ret (Some tt, Some ref)).

Definition claimComputePhase := claim_phase "compute" PhaseCompute.
Definition claimNeighborhoodsPhase := claim_phase "neighborhoods" PhaseNeighborhoods.

(** ** Compute *)

Definition globalTeleport (r : Runtime) (nodeSet : gset string) : go (db TrustTables) (gmap string f64) :=
  if negb (enableSeedTeleport r) then go_ret (uniformTeleport nodeSet)
  else
    seeds <- loadActiveSeeds ;;
    go_ret (gset_to_gmap (f64_of_Z 1) seeds).

Definition rank_graph (r : Runtime) (adjacency : gmap string (list string)) (nodeSet : gset string) (teleport : gmap string f64)
    : go (db TrustTables) (list (rankNode f64)) :=
  if enableInteractionGraph r then
    RefreshInteractionEdgeWeights ;;
    interaction <- loadInteractionWeights ;;
    let '(weighted, nodeSet) := mergeWeightedAdjacency (adjacencyToWeighted adjacency) interaction nodeSet in
    go_ret (ComputePersonalizedRankWeighted weighted nodeSet teleport rankDamping)
  else go_ret (ComputePersonalizedRank adjacency nodeSet teleport rankDamping).

Definition insertBatch : nat := 500.

Definition stage_row (now : time) (i : Z) (node : rankNode f64) : StageRow :=
  mkStage (Score node) i DerivationTrustScoresGlobal TrustScoresGlobalVersion now.

(** One multi-row [INSERT]; a key that is taken fails the statement. *)
Fixpoint insert_stage (now : time) (runID i : Z) (rows : list (rankNode f64)) (m : gmap (Z * string) StageRow) : option (gmap (Z * string) StageRow) :=
  match rows with
  | [] => Some m
  | node :: rows =>
      match m !! (runID, Pubkey node) with
      | Some _ => None
      | None => insert_stage now runID (i + 1) rows (<[(runID, Pubkey node) := stage_row now i node]> m)
      end
  end.

(** The loop over the offsets; [stage_batches_ok] shows that the length of the
    ranking is enough fuel. *)
Fixpoint stage_batches (fuel : nat) (now : time) (runID : Z) (offset : Z) (ranked : list (rankNode f64)) : go (db TrustTables) unit :=
  match fuel, ranked with
  | S fuel, _ :: _ =>
      go_wrap ("write trust score staging rows (offset " +:+ str (itoa offset) +:+ ")") (stmt (λ t,
        match insert_stage now runID (offset + 1) (take insertBatch ranked) (score_stage t) with
        | Some m => Ok (set_stage m t, tt)
        | None => Err duplicate_key
        end)) ;;
      stage_batches fuel now runID (offset + Z.of_nat insertBatch) (drop insertBatch ranked)
  | _, _ => go_ret tt
  end.

Definition persist_tx (r : Runtime) (now : time) (runID : Z) (ref : string) (ranked : list (rankNode f64)) (followerEdges : Z)
    : go (db TrustTables) (option unit * unit) :=
  go_wrap "set trust compute statement_timeout" (exec id) ;;
  status <- lock_run "lock trust run for persist" runID ;;
  if terminal status then go_ret (None, tt)
  else
    go_wrap "clear previous trust score staging rows" (exec (drop_stage runID)) ;;
    purgeTerminalStageRowsTx ;;
    stage_batches (length ranked) now runID 0 ranked ;;
    let nextJobType := if enableNeighborhoods r then JobTypeTrustComputeNeighborhoods else JobTypeTrustPromoteRun in
    nextJobID <- go_wrap ("enqueue trust " +:+ nextJobType +:+ " job")
      (enqueueTrustJobTx now nextJobType (run_payload runID ref) (run_job_key nextJobType runID +:+ ":" +:+ ref)) ;;
    go_wrap "mark trust run computed"
      (exec (update_run (mark_computed followerEdges (Z.of_nat (length ranked)) ref (negb (enableNeighborhoods r)) nextJobID now) runID)) ;;
    go_ret (Some tt, tt).

Definition persistComputeResults (r : Runtime) (now : time) (runID : Z) (ref : string) (ranked : list (rankNode f64)) (followerEdges : Z)
    : go (db TrustTables) unit :=
  tx_if "begin trust compute persist tx" (λ _ : unit, "commit trust compute persist tx") (persist_tx r now runID ref ranked followerEdges).

Definition edge_count (adjacency : gmap string (list string)) : Z :=
  foldl (λ n e, n + Z.of_nat (length e.2)) 0 (map_range adjacency : list (string * list string)).

(** The ranking between the two transactions. *)
Definition compute_ranking (r : Runtime) (runID : Z) (ref : string) : go (db TrustTables) (list (rankNode f64) * Z) :=
  graph <- load_adjacency r runID ref ;;
  let '(adjacency, nodeSet) := graph in
  teleport <- globalTeleport r nodeSet ;;
  ranked <- rank_graph r adjacency nodeSet teleport ;;
  go_ret (ranked, edge_count adjacency).

Definition executeGlobalScoresRun (r : Runtime) (claimed persisted : time) (runID : Z) (ref : string) : go (db TrustTables) unit :=
  claim <- claimComputePhase claimed runID ref ;;
  match claim with
  | None => go_ret tt
  | Some ref =>
      result <- compute_ranking r runID ref ;;
      persistComputeResults r persisted runID ref result.1 result.2
  end.

(** ** Neighbourhoods *)

Fixpoint insert_members (runID : Z) (rows : list neighborhoodMember) (m : gmap (Z * string * string) (Z * f64)) : option (gmap (Z * string * string) (Z * f64)) :=
  match rows with
  | [] => Some m
  | x :: rows =>
      match m !! (runID, SeedPubkey x, MemberPubkey x) with
      | Some _ => None
      | None => insert_members runID rows (<[(runID, SeedPubkey x, MemberPubkey x) := (Hops x, Weight x)]> m)
      end
  end.

Fixpoint member_batches (fuel : nat) (runID : Z) (offset : Z) (members : list neighborhoodMember) : go (db TrustTables) unit :=
  match fuel, members with
  | S fuel, _ :: _ =>
      go_wrap ("write trust neighborhood staging rows (offset " +:+ str (itoa offset) +:+ ")") (stmt (λ t,
        match insert_members runID (take insertBatch members) (neighborhood_stage t) with
        | Some m => Ok (set_nb_stage m t, tt)
        | None => Err duplicate_key
        end)) ;;
      member_batches fuel runID (offset + Z.of_nat insertBatch) (drop insertBatch members)
  | _, _ => go_ret tt
  end.

Definition drop_member_stage (runID : Z) (t : TrustTables) : TrustTables :=
  set_nb_stage (filter (λ kv : Z * string * string * (Z * f64), kv.1.1.1 ≠ runID) (neighborhood_stage t)) t.

Definition persist_members_tx (now : time) (runID : Z) (ref : string) (members : list neighborhoodMember) : go (db TrustTables) (option unit * unit) :=
  go_wrap "set trust neighborhoods statement_timeout" (exec id) ;;
  status <- lock_run "lock trust run for neighborhoods persist" runID ;;
  if terminal status then go_ret (None, tt)
  else
    go_wrap "clear previous trust neighborhood staging rows" (exec (drop_member_stage runID)) ;;
    member_batches (length members) runID 0 members ;;
    promoteJobID <- go_wrap "enqueue trust promote job"
      (enqueueTrustJobTx now JobTypeTrustPromoteRun (run_payload runID ref) (run_job_key JobTypeTrustPromoteRun runID +:+ ":" +:+ ref)) ;;
    go_wrap "mark trust run neighborhoods computed" (exec (update_run (mark_expanded ref promoteJobID now) runID)) ;;
    go_ret (Some tt, tt).

Definition persistNeighborhoodResults (now : time) (runID : Z) (ref : string) (members : list neighborhoodMember) : go (db TrustTables) unit :=
  tx_if "begin trust neighborhoods persist tx" (λ _ : unit, "commit trust neighborhoods persist tx") (persist_members_tx now runID ref members).

Definition executeNeighborhoodsRun (r : Runtime) (claimed persisted : time) (runID : Z) (ref : string) : go (db TrustTables) unit :=
  if negb (enableNeighborhoods r) then go_fail "trust neighborhood compute is disabled"
  else
    claim <- claimNeighborhoodsPhase claimed runID ref ;;
    match claim with
    | None => go_ret tt
    | Some ref =>
        graph <- load_adjacency r runID ref ;;
        seeds <- loadActiveSeeds ;;
        let members := computeSeedNeighborhoods graph.1 seeds (neighborhoodMaxHops r) (neighborhoodMaxMembers r) in
        writeNeighborhoodsToRedis (hasRedis r) (enableRedisSync r) (redisKeyPrefix r) runID ref members ;;
        persistNeighborhoodResults persisted runID ref members
    end.

(** ** Promote *)

Definition publish_score (runID : Z) (row : StageRow) : ScoreRow :=
  mkScore (sg_score row) (sg_rank row) runID (sg_name row) (sg_version row) (sg_computed row).

(** The stage of a run, by pubkey. *)
Definition staged (runID : Z) (t : TrustTables) : gmap string StageRow :=
  list_to_map (omap (λ kv : Z * string * StageRow, if bool_decide (kv.1.1 = runID) then Some (kv.1.2, kv.2) else None) (map_to_list (score_stage t))).

Definition publish_scores (runID : Z) (t : TrustTables) : TrustTables :=
  set_graph (λ g, set_scores (publish_score runID <$> staged runID t) g) t.

Definition publish_members (runID : Z) (now : time) (t : TrustTables) : TrustTables :=
  set_members (list_to_map (omap (λ kv : Z * string * string * (Z * f64),
    if bool_decide (kv.1.1.1 = runID) then Some ((kv.1.1.2, kv.1.2), mkMemberRow kv.2.1 kv.2.2 (Some runID) now) else None)
    (map_to_list (neighborhood_stage t)))) t.

Definition publishNeighborhoodMembersTx (now : time) (runID : Z) : go (db TrustTables) unit :=
  go_wrap "clear previous trust neighborhood members" (exec (set_members ∅)) ;;
  go_wrap "publish staged trust neighborhood members" (exec (publish_members runID now)) ;;
  go_wrap "clear trust neighborhood staging rows after promote" (exec (drop_member_stage runID)).

(** A call on the graph tables. *)
Definition on_graph {A} (m : go (db GraphTables) A) : go (db TrustTables) A := zoom graph (λ g t, set_graph (λ _, g) t) m.

Definition promote_tx (r : Runtime) (now : time) (runID : Z) (ref : string) : go (db TrustTables) (option unit * bool) :=
  go_wrap "set trust promote statement_timeout" (exec id) ;;
  status <- lock_run "lock trust run for promote" runID ;;
  if terminal status then go_ret (None, false)
  else
    go_wrap "mark trust run promote phase" (exec (update_run (begin_phase PhasePromote now) runID)) ;;
    go_wrap "clear previous trust global scores" (exec (set_graph (set_scores ∅))) ;;
    go_wrap "publish staged trust global scores" (exec (publish_scores runID)) ;;
    on_graph (RefreshTrustPubkeysLatestTx now) ;;
    (if enableNeighborhoods r then publishNeighborhoodMembersTx now runID else go_ret tt) ;;
    go_wrap "clear trust score staging rows after promote" (exec (drop_stage runID)) ;;
    go_wrap "mark trust run succeeded in promote" (exec (update_run (mark_succeeded ref now) runID)) ;;
    go_ret (Some tt, true).

(** The recount's error is only logged. *)
Definition executePromoteRun `{DeadlockCode} (r : Runtime) (cancelled : Z → option error) (now : time) (runID : Z) (ref : string) : go (db TrustTables) unit :=
  promoted <- tx_if "begin trust promote tx" (λ _ : unit, "commit trust promote tx") (promote_tx r now runID ref) ;;
  if promoted : bool then
    best_effort (on_graph (RecountTrustedFollowerCounts cancelled
      (mkFollowerPolicy (neighborhoodMaxHops r) (trustedFollowerUntrustedWeight r))))
  else go_ret tt.

(** ** Jobs *)

(** The clock of one job: the times of its transactions, the time the sync
    writes and the nanoseconds of its reference. *)
Record JobClock := mkClock {
  jc_first : time;
  jc_second : time;
  jc_failed : time;
  jc_synced : string;
  jc_nanos : Z;
}.

(** A failed phase fails its run. The text of a decoding error is left out
    below. *)
Definition run_phase (phase : RunPhase) (failedAt : time) (runID : Z) (m : go (db TrustTables) unit) : go (db TrustTables) unit := λ s,
  match m s with
  | (s, Err e) => ((markRunFailed failedAt runID phase e s).1, Err e)
  | r => r
  end.

Definition ProcessJob `{DeadlockCode} (r : Runtime) (cancelled : Z → option error) (c : JobClock) (job : Job) : go (db TrustTables) unit :=
  let jobType := trim_space (JobType job) in
  if bool_decide (jobType = JobTypeTrustSyncGraphRedis) then
    match decode_run_id (Payload job) with
    | None => go_fail "decode trust redis sync payload"
    | Some runID =>
        if runID <=? 0 then go_fail "run_id is required in redis sync payload"
        else run_phase PhaseSync (jc_failed c) runID (executeRedisSyncRun r (jc_first c) (jc_synced c) (jc_nanos c) runID)
    end
  else if bool_decide (jobType = JobTypeTrustPromoteRun) then
    match decode_run (Payload job) with
    | None => go_fail "decode trust promote payload"
    | Some (runID, ref) =>
        if runID <=? 0 then go_fail "run_id is required in promote payload"
        else run_phase PhasePromote (jc_failed c) runID (executePromoteRun r cancelled (jc_first c) runID ref)
    end
  else if bool_decide (jobType = JobTypeTrustComputeGlobalScore) then
    if negb (enableScoreCompute r) then go_fail "trust score compute is disabled"
    else
      match decode_run (Payload job) with
      | None => go_fail "decode trust global score payload"
      | Some (runID, ref) =>
          if runID <=? 0 then go_fail "run_id is required in payload"
          else run_phase PhaseCompute (jc_failed c) runID (executeGlobalScoresRun r (jc_first c) (jc_second c) runID ref)
      end
  else if bool_decide (jobType = JobTypeTrustComputeNeighborhoods) then
    if negb (enableNeighborhoods r) then go_fail "trust neighborhood compute is disabled"
    else
      match decode_run (Payload job) with
      | None => go_fail "decode trust neighborhoods payload"
      | Some (runID, ref) =>
          if runID <=? 0 then go_fail "run_id is required in neighborhoods payload"
          else run_phase PhaseNeighborhoods (jc_failed c) runID (executeNeighborhoodsRun r (jc_first c) (jc_second c) runID ref)
      end
  else go_fail ("trust job type " +:+ JobType job +:+ " not implemented").
End phases.

(** * Comparing rankings *)

Record InteractionRankComparison := mkComparison {
  CmpNodeCount : Z;
  CmpInteractionEdgeCount : Z;
  CmpTopN : Z;
  CmpTopNOverlap : Z;
  CmpTopNOverlapRatio : f64;
  CmpSpearmanCorrelation : f64;
  CmpFollowOnlyTop : list string;
  CmpFollowInteractionTop : list string;
}.

Section compare.
Context `{WeightRows} `{MapRange} `{SliceSort} `{EdgeRows}.

Definition CompareFollowAndInteractionRanks (topN : Z) : go (db TrustTables) InteractionRankComparison :=
  let topN := if topN <=? 0 then 100 else topN in
  graph <- LoadAdjacencyFromPostgres ;;
  let '(adjacency, nodeSet) := graph in
  interaction <- loadInteractionWeights ;;
  let followOnly := computeIterativeGlobalRank (F := f64) adjacency nodeSet in
  let '(mergedWeighted, mergedNodes) := mergeWeightedAdjacency (adjacencyToWeighted adjacency) interaction nodeSet in
  let followPlus := ComputePersonalizedRankWeighted mergedWeighted mergedNodes (uniformTeleport mergedNodes) rankDamping in
  let edgeCount := foldl (λ n e, n + Z.of_nat (size e.2)) 0 (map_range interaction : list (string * gmap string f64)) in
  let followTop := topPubkeys followOnly topN in
  let mergedTop := topPubkeys followPlus topN in
  let overlap := setOverlap followTop mergedTop in
  let denom := Z.min topN (Z.min (Z.of_nat (length followTop)) (Z.of_nat (length mergedTop))) in
  go_ret (mkComparison (Z.of_nat (size nodeSet)) edgeCount topN overlap
            (if 0 <? denom then f64_ratio overlap denom else f64_of_Z 0)
            (spearmanRankCorrelation followOnly followPlus) followTop mergedTop).
End compare.

(** * The personalized ranker *)

Record PersonalizedScore := mkPersonal {
  PScorePubkey : string;
  PScoreValue : f64;
  PScoreRank : Z;
  PScoreRunID : Z;
  PScoreSource : string;
}.

Record PersonalizedRanker := mkRanker {
  rk_cached : bool;
  rk_prefix : string;
  rk_maxSeedFollows : Z;
}.

Definition NewPersonalizedRanker (maxSeedFollows : Z) : PersonalizedRanker :=
  mkRanker false "nostrmash" (if maxSeedFollows <=? 0 then 2000 else maxSeedFollows).

Definition WithRedis (cache : bool) (keyPrefix : string) (r : PersonalizedRanker) : PersonalizedRanker :=
  mkRanker cache (if negb (bool_decide (trim_space keyPrefix = "")) then trim_space keyPrefix else rk_prefix r) (rk_maxSeedFollows r).

(** The tables with the Redis cache of rankings; a cached text stands for the
    rows it encodes, and its expiry is left out. *)
Record PersonalTables := mkPersonalTables {
  pt_trust : TrustTables;
  pt_cache : gmap string (list PersonalizedScore);
}.

Definition on_trust {A} (m : go (db TrustTables) A) : go (db PersonalTables) A :=
  zoom pt_trust (λ t p, mkPersonalTables t (pt_cache p)) m.

Definition cacheKey (r : PersonalizedRanker) (runID : Z) (viewer : string) : string :=
  keyspace_prefix (rk_prefix r) +:+ ":trust:personalized:" +:+ str (itoa runID) +:+ ":" +:+ viewer.

(** A read that fails is a miss. *)
Definition readCache (r : PersonalizedRanker) (runID : Z) (viewer : string) : go (db PersonalTables) (option (list PersonalizedScore)) :=
  if negb (rk_cached r) || (runID <=? 0) then go_ret None
  else λ s,
    match query (λ t, pt_cache t !! cacheKey r runID viewer) s with
    | (s, Ok hit) => (s, Ok hit)
    | (s, Err _) => (s, Ok None)
    end.

(** A write that fails is dropped. *)
Definition writeCache (r : PersonalizedRanker) (runID : Z) (viewer : string) (scores : list PersonalizedScore) : go (db PersonalTables) unit :=
  if negb (rk_cached r) || (runID <=? 0) || bool_decide (scores = []) then go_ret tt
  else λ s, ((exec (λ t, mkPersonalTables (pt_trust t) (<[cacheKey r runID viewer := scores]> (pt_cache t))) s).1, Ok tt).

Definition truncatePersonalizedScores (scores : list PersonalizedScore) (limit : Z) : list PersonalizedScore :=
  if (limit <=? 0) || (Z.of_nat (length scores) <=? limit) then scores else take (Z.to_nat limit) scores.

Definition teleportFromFollows (follows : list string) : gmap string f64 :=
  foldl (λ out follow, let follow := trim_space follow in if bool_decide (follow = "") then out else <[follow := f64_of_Z 1]> out) ∅ follows.

Definition listFollowedPubkeys (follower : string) (limit : Z) : go (db TrustTables) (list string) :=
  rows <- go_wrap "list followed pubkeys" (query (λ t,
    take (Z.to_nat limit) (sort_Strings (map snd (elements (filter (λ e : string * string, e.1 = follower) (follower_edges (graph t)))))))) ;;
  go_wrap "read followed pubkeys" (exec id) ;;
  go_ret (not_blank rows).

(** [ORDER BY COALESCE(finished_at, updated_at) DESC, id DESC]. *)
Definition later_run (a b : Run) : bool :=
  let key r := default (RunUpdatedAt r) (RunFinishedAt r) in
  (key b <? key a) || ((key a =? key b) && (RunID b <? RunID a)).

Definition latestSucceededTrustRunID : go (db TrustTables) Z :=
  go_wrap "load latest succeeded trust run"
    (query (λ t, match first_run later_run TrustStore.succeeded (graph t) with Some r => RunID r | None => 0 end)).

Definition globalFallback (runID limit : Z) : go (db TrustTables) (list PersonalizedScore) :=
  rows <- go_wrap "list global trust scores for personalized fallback" (query (λ t, top_scores limit (graph t))) ;;
  go_wrap "read global trust score fallback" (exec id) ;;
  go_ret (map (λ e : string * ScoreRow, mkPersonal e.1 (sc_score e.2) (sc_rank e.2) runID "global_fallback") rows).

Section personal.
Context `{MapRange} `{SliceSort} `{EdgeRows}.

Fixpoint personal_rows (runID i : Z) (ranked : list (rankNode f64)) : list PersonalizedScore :=
  match ranked with
  | [] => []
  | node :: ranked => mkPersonal (Pubkey node) (Score node) i runID "personalized" :: personal_rows runID (i + 1) ranked
  end.

(** The fallback's rows, cached under the viewer's key. *)
Definition fallback_scores (r : PersonalizedRanker) (runID : Z) (viewer : string) (limit : Z) : go (db PersonalTables) (list PersonalizedScore) :=
  scores <- on_trust (globalFallback runID limit) ;;
  writeCache r runID viewer scores ;;
  go_ret scores.

Definition compute_personal (r : PersonalizedRanker) (runID : Z) (viewer : string) (limit : Z) : go (db PersonalTables) (list PersonalizedScore) :=
  follows <- on_trust (listFollowedPubkeys viewer (rk_maxSeedFollows r + 1)) ;;
  if bool_decide (follows = []) || (rk_maxSeedFollows r <? Z.of_nat (length follows)) then fallback_scores r runID viewer limit
  else
    graph <- on_trust LoadAdjacencyFromPostgres ;;
    let '(adjacency, nodeSet) := graph in
    if bool_decide (nodeSet = ∅) then fallback_scores r runID viewer limit
    else
      let teleport := <[viewer := f64_of_Z 1]> (teleportFromFollows follows) in
      let ranked := ComputePersonalizedRank adjacency nodeSet teleport rankDamping in
      let scores := personal_rows runID 1 (take (Z.to_nat limit) ranked) in
      writeCache r runID viewer scores ;;
      go_ret scores.

Definition GetRanking (r : PersonalizedRanker) (viewerPubkey : string) (limit : Z) : go (db PersonalTables) (list PersonalizedScore) :=
  let viewer := trim_space viewerPubkey in
  if bool_decide (viewer = "") then go_fail "viewer pubkey is required"
  else
    let limit := if limit <=? 0 then 50 else limit in
    runID <- on_trust latestSucceededTrustRunID ;;
    hit <- readCache r runID viewer ;;
    match hit with
    | Some cached => go_ret (truncatePersonalizedScores cached limit)
    | None => compute_personal r runID viewer limit
    end.
End personal.

(** * The payload of a run *)

(** A text that needs no escaping in JSON. *)
Definition plain (l : list Z) : Prop :=
  Forall (λ b, visible b ∧ b ≠ 34 ∧ b ≠ 92 ∧ b ≠ 38 ∧ b ≠ 60 ∧ b ≠ 62) l.

Lemma plain_visible l : plain l → Forall visible l.
Proof. apply List.Forall_impl. by intros b [Hb _]. Qed.

Lemma plain_utf8 l : plain l → utf8_ok l.
Proof.
  intros Hl. assert (runes l = l ∧ encode_runes l = l) as [Hr He].
  { induction Hl as [|b l [Hb _] _ [IHr IHe]]; [done|]. unfold visible in Hb. cbn [runes].
    rewrite (proj2 (Z.ltb_lt b 128)) by lia. rewrite IHr. split; [done|]. unfold encode_runes. cbn [map concat]. unfold encode_runes in IHe. rewrite IHe.
    unfold encode_rune. rewrite (proj2 (Z.ltb_lt b 128)) by lia.
    assert (valid_rune b = true) as ->; [|done]. unfold valid_rune, is_surrogate. rewrite (proj2 (Z.leb_gt 55296 b)) by lia. bool_simpl. lia. }
  split; [by apply visible_byte, plain_visible|]. by rewrite Hr.
Qed.

Lemma quote_plain l : plain l → quote l = 34 :: l ++ [34].
Proof.
  intros Hl. unfold quote. do 2 f_equal. induction Hl as [|b l (Hb & H1 & H2 & _) _ IH]; [done|]. cbn [quote_body]. unfold visible in Hb.
  rewrite (proj2 (Z.ltb_lt b 128)), IH by lia. unfold quote_ascii.
  rewrite (proj2 (Z.eqb_neq b 34)), (proj2 (Z.eqb_neq b 92)), (proj2 (Z.eqb_neq b 8)), (proj2 (Z.eqb_neq b 12)), (proj2 (Z.eqb_neq b 10)),
    (proj2 (Z.eqb_neq b 13)), (proj2 (Z.eqb_neq b 9)), (proj2 (Z.ltb_ge b 32)) by lia. done.
Qed.

Lemma escape_html_id l : Forall (λ b, b ≠ 60 ∧ b ≠ 62 ∧ b ≠ 38) l → escape_html l = l.
Proof.
  unfold escape_html. induction 1 as [|b l (H1 & H2 & H3) _ IH]; [done|]. cbn [flat_map].
  rewrite (proj2 (Z.eqb_neq b 60)), (proj2 (Z.eqb_neq b 62)), (proj2 (Z.eqb_neq b 38)), IH by done. done.
Qed.

Lemma itoa_plain z : plain (itoa z).
Proof.
  assert (∀ n, 0 ≤ n → plain (dec_digits 20 n)) as Hd.
  { intros n Hn. eapply List.Forall_impl; [|by apply (dec_digits_digits 20)].
    unfold is_digit, visible. intros b Hb. bool_simpl. lia. }
  unfold itoa. destruct (z <? 0) eqn:E; bool_simpl; [|by apply Hd].
  constructor; [unfold visible; lia|]. apply Hd. lia.
Qed.

Definition unescaped (l : list Z) : Prop := Forall (λ b, byte_ok b ∧ b ≠ 60 ∧ b ≠ 62 ∧ b ≠ 38) l.

Lemma plain_unescaped l : plain l → unescaped l.
Proof. apply List.Forall_impl. unfold visible, byte_ok. lia. Qed.

Lemma marshal_unescaped v : unescaped (json_encode v) → bytes (json_Marshal v) = json_encode v.
Proof.
  intros Hv. unfold json_Marshal. rewrite escape_html_id, bytes_str; [done|..]; (eapply List.Forall_impl; [|exact Hv]); cbn; tauto.
Qed.

Definition run_json (runID : Z) (ref : string) : json :=
  JObj (run_member runID :: if bool_decide (ref = "") then [] else [(bytes "redis_snapshot_ref", JStr (bytes ref))]).

Lemma run_json_text runID ref : plain (bytes ref) →
  json_encode (run_json runID ref) =
    qtext "{'run_id':" ++ itoa runID ++ (if bool_decide (ref = "") then [] else qtext ",'redis_snapshot_ref':'" ++ bytes ref ++ [34]) ++ [125].
Proof.
  intros Hr. unfold run_json, run_member. destruct (bool_decide (ref = "")); cbn -[bytes quote itoa].
  - done.
  - rewrite (quote_plain (bytes ref)) by done. generalize (itoa runID) (bytes ref). intros a b.
    change (quote (bytes "run_id")) with (qtext "'run_id'"). change (quote (bytes "redis_snapshot_ref")) with (qtext "'redis_snapshot_ref'").
    change (qtext "{'run_id':") with (123 :: qtext "'run_id'" ++ [58]).
    change (qtext ",'redis_snapshot_ref':'") with (44 :: qtext "'redis_snapshot_ref'" ++ [58; 34]).
    by repeat (rewrite <-app_assoc; cbn [app]).
Qed.

Lemma run_json_unescaped runID ref : plain (bytes ref) → unescaped (json_encode (run_json runID ref)).
Proof.
  intros Hr. rewrite run_json_text by done. unfold unescaped. rewrite !Forall_app.
  assert (∀ l, forallb (λ b, (0 <=? b) && (b <? 256) && negb (b =? 60) && negb (b =? 62) && negb (b =? 38)) l = true → unescaped l) as Hf.
  { intros l Hl. apply List.Forall_forall. intros b Hb. rewrite forallb_forall in Hl. apply Hl in Hb. unfold byte_ok. bool_simpl. lia. }
  split_and!; [by apply Hf|apply plain_unescaped, itoa_plain| |by apply Hf].
  destruct (bool_decide (ref = "")); [by constructor|]. rewrite !Forall_app. split_and!; [by apply Hf|by apply plain_unescaped|by apply Hf].
Qed.

Lemma run_json_parse runID ref : in_i64 runID = true → plain (bytes ref) → json_parse (json_encode (run_json runID ref)) = Some (run_json runID ref).
Proof.
  intros Hi Hr. apply (json_parse_encode 1); [|done|right; by eexists].
  unfold run_json, run_member. cbn -[bytes itoa]. assert (∀ s, encode_runes (runes (bytes s)) = bytes s → utf8_ok (bytes s)) as Hu by (intros s Hs; split; [apply bytes_range|done]).
  constructor; [split; [by apply Hu|by apply itoa_num_ok]|].
  destruct (bool_decide (ref = "")); [by constructor|]. constructor; [|by constructor]. split; [by apply Hu|by apply plain_utf8].
Qed.

Lemma run_json_marshal runID ref : in_i64 runID = true → plain (bytes ref) → json_parse (bytes (json_Marshal (run_json runID ref))) = Some (run_json runID ref).
Proof. intros Hi Hr. rewrite marshal_unescaped by by apply run_json_unescaped. by apply run_json_parse. Qed.

Lemma decode_run_payload runID ref : in_i64 runID = true → plain (bytes ref) → decode_run (run_payload runID ref) = Some (runID, ref).
Proof.
  intros Hi Hr. unfold decode_run, run_payload. fold (run_json runID ref). rewrite run_json_marshal by done. unfold run_json, decode_struct, unmarshal_field, run_member.
  destruct (decide (ref = "")) as [->|Hne].
  - rewrite bool_decide_eq_true_2 by done. cbn -[itoa]. by rewrite parse_int_itoa.
  - rewrite bool_decide_eq_false_2 by done. cbn -[itoa bytes name_matches].
    change (name_matches "run_id" (bytes "run_id")) with true. change (name_matches "run_id" (bytes "redis_snapshot_ref")) with false.
    change (name_matches "redis_snapshot_ref" (bytes "run_id")) with false. change (name_matches "redis_snapshot_ref" (bytes "redis_snapshot_ref")) with true.
    cbn -[itoa bytes]. by rewrite parse_int_itoa, str_bytes.
Qed.

Lemma decode_sync_payload runID : in_i64 runID = true → decode_run_id (sync_payload runID) = Some runID.
Proof.
  intros Hi. unfold decode_run_id, sync_payload.
  change [run_member runID] with (run_member runID :: if bool_decide ("" = ("" : string)) then [] else [(bytes "redis_snapshot_ref", JStr (bytes ""))]).
  fold (run_json runID ""). rewrite run_json_marshal by (done || constructor). cbn -[itoa]. by rewrite parse_int_itoa.
Qed.

(** The payload of a trust job is decoded to the run and the snapshot
    reference it was made from. *)
Theorem run_payload_round_trip runID ref (Hid : in_i64 runID = true) (Href : plain (bytes ref)) :
  decode_run (run_payload runID ref) = Some (runID, ref) ∧ decode_run_id (sync_payload runID) = Some runID.
Proof. split; [by apply decode_run_payload|by apply decode_sync_payload]. Qed.

(** * Transactions that may end without a commit *)

Lemma tx_if_cases {A X} b (c : X → string) (m : go (db TrustTables) (option X * A)) s :
  (tables (tx_if b c m s).1 = tables s
   ∧ ∀ a, (tx_if b c m s).2 = Ok a → ∃ s1 s2, tables s1 = tables s ∧ m s1 = (s2, Ok (None, a))) ∨
  ∃ s1 s2 x a, tables s1 = tables s ∧ m s1 = (s2, Ok (Some x, a)) ∧ tables (tx_if b c m s).1 = tables s2 ∧ (tx_if b c m s).2 = Ok a.
Proof.
  unfold tx_if. destruct (next_fault s); [by left|].
  destruct (m (next s)) as [s2 [[[x|] a]|e]] eqn:E; [|left|by left].
  - destruct (next_fault s2); [by left|]. right. by exists (next s), s2, x, a.
  - split; [done|]. intros a' [= <-]. by exists (next s), s2.
Qed.

Lemma tx_if_keeps {A X} (P : TrustTables → Prop) b (c : X → string) (m : go (db TrustTables) (option X * A)) :
  (∀ s s' x a, P (tables s) → m s = (s', Ok (Some x, a)) → P (tables s')) → keeps P (tx_if b c m).
Proof.
  intros Hm s Hs. destruct (tx_if_cases b c m s) as [[-> _]|(s1 & s2 & x & a & E1 & E2 & -> & _)]; [done|].
  eapply Hm; [|exact E2]. by rewrite E1.
Qed.

Lemma lock_ok msg runID s s' st : lock_run msg runID s = (s', Ok st) →
  tables s' = tables s ∧ ∃ run, trust_runs (graph (tables s)) !! runID = Some run ∧ Status run = st.
Proof.
  unfold lock_run. intros (s1 & row & [Ht ->]%wrap_ok%query_ok & E)%bind_ok.
  destruct (trust_runs (graph (tables s)) !! runID) as [run|]; [|done]. injection E as <- <-. eauto.
Qed.

(** * The stage *)

(** The rows of a ranking, from rank [i]. *)
Fixpoint ranked_rows (now : time) (i : Z) (ranked : list (rankNode f64)) : list (string * StageRow) :=
  match ranked with
  | [] => []
  | node :: ranked => (Pubkey node, stage_row now i node) :: ranked_rows now (i + 1) ranked
  end.

Lemma ranked_fst now i ranked : (ranked_rows now i ranked).*1 = map Pubkey ranked.
Proof. revert i. induction ranked as [|node l IH]; intros i; [done|]. cbn. by rewrite IH. Qed.

Lemma ranked_app now i a b : ranked_rows now i (a ++ b) = ranked_rows now i a ++ ranked_rows now (i + Z.of_nat (length a)) b.
Proof.
  revert i. induction a as [|x a IH]; intros i; cbn [ranked_rows app length].
  - by rewrite Z.add_0_r.
  - rewrite IH. do 3 f_equal. lia.
Qed.

Definition ranking_map (now : time) (ranked : list (rankNode f64)) : gmap string StageRow := list_to_map (ranked_rows now 1 ranked).

Lemma staged_lookup runID t p : staged runID t !! p = score_stage t !! (runID, p).
Proof.
  unfold staged. set (l := omap _ _).
  assert (∀ row, (p, row) ∈ l ↔ score_stage t !! (runID, p) = Some row) as Hin.
  { intros row. unfold l. rewrite list_elem_of_omap. split.
    - intros ([[r q] x] & Hx%elem_of_map_to_list & E). cbn in E. case_bool_decide; [|done]. by injection E as -> ->; subst.
    - intros Hx. exists ((runID, p), row). split; [by apply elem_of_map_to_list|]. cbn. by rewrite bool_decide_eq_true_2. }
  assert (NoDup l.*1) as Hnd.
  { unfold l. generalize (NoDup_fst_map_to_list (score_stage t)). generalize (map_to_list (score_stage t)).
    induction l0 as [|[[r q] x] l0 IH]; [intros _; constructor|]. cbn. intros [Hx Hnd]%list.NoDup_cons.
    case_bool_decide as Hr; cbn; [|by apply IH]. constructor; [|by apply IH]. intros Hq. apply Hx. subst r.
    apply list_elem_of_fmap in Hq as ([q' x'] & -> & Hq). apply list_elem_of_omap in Hq as ([[r q] y] & Hy & E).
    cbn in E. case_bool_decide; [|done]. injection E as -> ->. subst r. apply list_elem_of_fmap. by exists ((runID, q'), x'). }
  destruct (score_stage t !! (runID, p)) as [row|] eqn:E.
  - apply elem_of_list_to_map; [exact Hnd|]. by apply Hin.
  - apply not_elem_of_list_to_map. intros Hp. apply list_elem_of_fmap in Hp as ([q row] & -> & Hp). apply Hin in Hp. cbn in E. congruence.
Qed.

(** Rows inserted under a run, one by one. *)
Definition put_rows (runID : Z) (rows : list (string * StageRow)) (m : gmap (Z * string) StageRow) : gmap (Z * string) StageRow :=
  foldl (λ m (kv : string * StageRow), <[(runID, kv.1) := kv.2]> m) m rows.

Lemma put_rows_lookup (runID : Z) (rows : list (string * StageRow)) (m : gmap (Z * string) StageRow) (r : Z) (p : string) : NoDup rows.*1 →
  put_rows runID rows m !! (r, p) =
  if decide (r = runID) then match (list_to_map rows : gmap string StageRow) !! p with Some x => Some x | None => m !! (r, p) end else m !! (r, p).
Proof.
  unfold put_rows. revert m. induction rows as [|[q x] rows IH]; intros m; cbn [foldl fmap list_fmap fst snd].
  - intros _. by destruct (decide (r = runID)).
  - intros [Hq Hnd]%list.NoDup_cons. rewrite IH by done. cbn [list_to_map foldr uncurry]. destruct (decide (r = runID)) as [->|Hne].
    + cbn [fst snd]. destruct (decide (q = p)) as [->|Hqp].
      * rewrite (proj1 (not_elem_of_list_to_map rows p)) by done. by rewrite !lookup_insert_eq.
      * rewrite !lookup_insert_ne by congruence. done.
    + apply lookup_insert_ne. congruence.
Qed.

(** What one [INSERT] adds: these rows under the run, and they were not there. *)
Lemma insert_stage_ok now runID i rows m m' : insert_stage now runID i rows m = Some m' →
  m' = put_rows runID (ranked_rows now i rows) m ∧ NoDup (map Pubkey rows)
  ∧ ∀ p, p ∈ map Pubkey rows → m !! (runID, p) = None.
Proof.
  unfold put_rows. revert i m. induction rows as [|node rows IH]; intros i m; cbn [insert_stage ranked_rows foldl map].
  - intros [= <-]. split_and!; [done|constructor|]. by intros p ?%not_elem_of_nil.
  - destruct (m !! (runID, Pubkey node)) eqn:E; [done|]. intros (H1 & H2 & H3)%IH. split_and!; [done| |].
    + constructor; [|done]. intros Hin%H3. by rewrite lookup_insert_eq in Hin.
    + intros p [->|Hp]%elem_of_cons; [done|]. pose proof (H3 p Hp) as Hx.
      destruct (decide (p = Pubkey node)) as [->|Hne]; [done|]. rewrite lookup_insert_ne in Hx; [done|]. intros [=]. congruence.
Qed.

Lemma insert_stage_total now runID i rows m : NoDup (map Pubkey rows) → (∀ p, p ∈ map Pubkey rows → m !! (runID, p) = None) →
  is_Some (insert_stage now runID i rows m).
Proof.
  revert i m. induction rows as [|node rows IH]; intros i m; cbn [insert_stage map]; [eauto|].
  intros [Hn Hnd]%list.NoDup_cons Hf. rewrite Hf by set_solver. apply IH; [done|]. intros p Hp.
  rewrite lookup_insert_ne; [set_solver|]. intros [= <-]. done.
Qed.

Lemma put_rows_app runID a b m : put_rows runID (a ++ b) m = put_rows runID b (put_rows runID a m).
Proof. apply foldl_app. Qed.

Lemma ranked_lookup now i ranked p : p ∈ map Pubkey ranked → is_Some ((list_to_map (ranked_rows now i ranked) : gmap string StageRow) !! p).
Proof.
  intros Hp. destruct (list_to_map _ !! p) eqn:E; [eauto|]. apply not_elem_of_list_to_map in E. by rewrite ranked_fst in E.
Qed.

(** The loop over the offsets inserts the ranking; the rest of the tables is as
    it was. *)
Lemma stage_batches_ok fuel now runID offset ranked s s' u : (length ranked <= fuel)%nat →
  stage_batches fuel now runID offset ranked s = (s', Ok u) →
  tables s' = set_stage (put_rows runID (ranked_rows now (offset + 1) ranked) (score_stage (tables s))) (tables s)
  ∧ NoDup (map Pubkey ranked) ∧ ∀ p, p ∈ map Pubkey ranked → score_stage (tables s) !! (runID, p) = None.
Proof.
  revert offset ranked s. induction fuel as [|fuel IH]; intros offset ranked s Hf; destruct ranked as [|node ranked]; cbn [stage_batches].
  1, 3: intros [= <- _]; split_and!; [by destruct (tables s)|constructor|by intros p ?%not_elem_of_nil].
  { cbn in Hf. lia. }
  set (l := node :: ranked) in *. intros (s1 & u1 & E1%wrap_ok%stmt_ok & E2)%bind_ok. cbv zeta in E1.
  destruct (insert_stage now runID (offset + 1) (take insertBatch l) (score_stage (tables s))) as [m|] eqn:Ei; [|done].
  injection E1 as E1 _. apply insert_stage_ok in Ei as (-> & Hnd & Hfr).
  assert (length (drop insertBatch l) <= fuel)%nat as Hl.
  { rewrite length_drop. unfold l, insertBatch in *. cbn [length] in *. lia. }
  apply IH in E2 as (E2 & Hnd2 & Hfr2); [|done]. rewrite <-E1 in E2, Hfr2. cbn [score_stage set_stage] in E2, Hfr2.
  assert (∀ p, p ∈ map Pubkey (drop insertBatch l) → (p ∉ map Pubkey (take insertBatch l)) ∧ score_stage (tables s) !! (runID, p) = None) as Hfr3.
  { intros p Hp%Hfr2. rewrite put_rows_lookup in Hp by by rewrite ranked_fst. rewrite decide_True in Hp by done.
    destruct (list_to_map _ !! p) eqn:El; [done|]. split; [|done]. intros Hin. apply (ranked_lookup now (offset + 1)) in Hin as [? Hin]. congruence. }
  split_and!.
  - rewrite E2.
    assert (ranked_rows now (offset + 1) l = ranked_rows now (offset + 1) (take insertBatch l)
      ++ ranked_rows now (offset + 1 + Z.of_nat (length (take insertBatch l))) (drop insertBatch l)) as -> by by rewrite <-ranked_app, take_drop.
    rewrite put_rows_app.
    destruct (decide (length l <= insertBatch)%nat) as [Hle|Hgt].
    + rewrite (drop_ge l) by done. cbn [ranked_rows]. by destruct (tables s).
    + rewrite length_take, Nat.min_l by lia. replace (offset + 1 + Z.of_nat insertBatch) with (offset + Z.of_nat insertBatch + 1) by lia. by destruct (tables s).
  - rewrite <-(take_drop insertBatch l), map_app. apply list.NoDup_app. split_and!; [done| |done].
    intros p Hp Hp2. by apply Hfr3 in Hp2 as [? _].
  - intros p. rewrite <-(take_drop insertBatch l), map_app, elem_of_app. intros [Hp|Hp]; [by apply Hfr|by apply Hfr3].
Qed.

Lemma drop_stage_lookup runID t r p : score_stage (drop_stage runID t) !! (r, p) = if decide (r = runID) then None else score_stage t !! (r, p).
Proof.
  cbn. rewrite map_lookup_filter. destruct (score_stage t !! (r, p)); cbn; [|by destruct (decide (r = runID))].
  destruct (decide (r = runID)) as [->|Hne]; [by rewrite option_guard_False by (intros []; done)|by rewrite option_guard_True].
Qed.

(** * Rankings stay whole *)

(** Every key of a ranking is one of its nodes, with its position as rank. *)
Definition is_ranking (m : gmap string StageRow) : Prop :=
  ∃ now ranked, NoDup (map Pubkey ranked) ∧ m = ranking_map now ranked.

(** The stage of each run is a whole ranking, and so are the published scores,
    all of one run. *)
Definition rankings_ok (t : TrustTables) : Prop :=
  (∀ runID, is_ranking (staged runID t))
  ∧ ∃ runID m, is_ranking m ∧ trust_scores_global (graph t) = publish_score runID <$> m.

Definition same_rankings (t0 t : TrustTables) : Prop :=
  score_stage t = score_stage t0 ∧ trust_scores_global (graph t) = trust_scores_global (graph t0).

Lemma empty_ranking : is_ranking ∅.
Proof. exists 0, []. split; [constructor|done]. Qed.

Lemma same_rankings_ok t0 t : same_rankings t0 t → rankings_ok t0 → rankings_ok t.
Proof. intros [Hs Hg] [H1 H2]. unfold rankings_ok, staged. rewrite Hs, Hg. done. Qed.

(** A call that leaves the two tables alone keeps the rankings. *)
Lemma rankings_frame {A} (m : go (db TrustTables) A) : (∀ t0, keeps (same_rankings t0) m) → keeps rankings_ok m.
Proof. intros Hk s Hs. eapply same_rankings_ok; [|exact Hs]. by apply Hk. Qed.

Ltac rank_step := keeps_step; try (apply keeps_exec; intros ? [? ?]; split; assumption); try (apply reads_keeps; solve [auto using reads_seeds, reads_id]).

Lemma enqueue_frame t0 now ty p k : keeps (same_rankings t0) (enqueueTrustJobTx now ty p k).
Proof. apply keeps_stmt. intros t t' a Ht. destruct (job_with_key k (run_jobs t)); [done|]. by intros [= <- _]. Qed.

Lemma lock_reads msg runID : reads (lock_run msg runID).
Proof.
  unfold lock_run. apply reads_bind; [apply reads_wrap, reads_query|]. intros [run|]; [apply reads_ret|apply reads_fail].
Qed.

(** ** What only writes Redis *)

Definition redis_blind (P : TrustTables → Prop) : Prop := ∀ t r, P t → P (set_redis r t).

Lemma same_rankings_blind t0 : redis_blind (same_rankings t0).
Proof. by intros t r [H1 H2]. Qed.

Section blind.
Context (P : TrustTables → Prop) (HP : redis_blind P).

Lemma pipe_blind stage cmds : keeps P (execRedisPipe stage cmds).
Proof. intros s Hs. destruct (pipe_cases stage cmds s) as [[e ->]|(r & -> & _)]; [done|]. by apply HP. Qed.

Lemma sync_rows_blind base rows st : keeps P (sync_rows base rows st).
Proof.
  revert st. induction rows as [|e rows IH]; intros st; cbn [sync_rows]; [apply keeps_ret|].
  destruct (scanned_edge e) as [[a b]|]; [|apply IH]. cbv zeta. destruct (flushEvery <=? _); [|apply IH].
  apply keeps_bind; [apply pipe_blind|]. intros _. apply IH.
Qed.

Lemma syncGraphToRedis_blind `{EdgeRows} `{RedisScan} conf p at' nanos id : keeps P (syncGraphToRedis conf p at' nanos id).
Proof.
  intros s Hs. unfold syncGraphToRedis. destruct (negb conf); [done|]. cbv zeta.
  assert (∀ base keep, keeps P (best_effort (unlinkMatching base keep))) as Hu.
  { intros base keep. apply best_effort_keeps, unlinkMatching_keeps. intros t keys _ Ht. by apply HP. }
  assert (keeps P (writeGraphSnapshot (keyspace_prefix p) at' id ("sync-" +:+ str (itoa nanos)))) as Hw.
  { unfold writeGraphSnapshot, sync_edges. cbv zeta. keeps_step.
    - apply heavy_keeps. keeps_step; [apply sync_rows_blind|by apply keeps_exec].
    - apply reads_keeps, reads_seeds.
    - apply pipe_blind. }
  specialize (Hw s Hs). destruct (writeGraphSnapshot _ _ _ _ s) as [s1 [res|e]]; [|by apply Hu].
  match goal with |- P (tables (?m s1).1) => assert (keeps P m) as Hk; [|exact (Hk s1 Hw)] end.
  keeps_step; [|apply Hu]. apply keeps_exec. intros t Ht. by apply HP.
Qed.

Lemma writeNeighborhoods_blind `{MapRange} conf on p id ref members : keeps P (writeNeighborhoodsToRedis conf on p id ref members).
Proof.
  unfold writeNeighborhoodsToRedis. destruct (negb conf || negb on); [apply keeps_ret|]. cbv zeta. destruct (_ || _); [apply keeps_ret|apply pipe_blind].
Qed.
End blind.

Section frames.
Context `{NaturalLog} `{WeightRows} `{MapRange} `{SliceSort} `{EdgeRows} `{RedisScan}.

Lemma heavy_reads {A} (m : go (db TrustTables) A) : reads m → reads (withHeavyStatementTimeout m).
Proof.
  intros Hr s. destruct (heavy_cases m s) as [(s1 & e & -> & Ht)|(s0 & s2 & Ht0 & -> & Ht)]; cbn; rewrite Ht; [done|]. by rewrite Hr.
Qed.

Lemma postgres_reads : reads LoadAdjacencyFromPostgres.
Proof.
  apply heavy_reads. apply reads_bind; [apply reads_wrap, reads_query|]. intros rows. apply reads_bind; [apply reads_id|]. intros _. apply reads_ret.
Qed.

Lemma redis_reads conf p id ref : reads (loadAdjacencyFromRedis conf p id ref).
Proof.
  unfold loadAdjacencyFromRedis. destruct (negb conf); [apply reads_fail|]. cbv zeta.
  apply reads_bind.
  { apply reads_wrap, reads_stmt. intros t t' a. destruct (smembers _ _); [|done]. by intros [= <- _]. }
  intros members. apply reads_bind; [|intros sets; apply reads_ret].
  destruct (remove_dups _); [apply reads_ret|]. apply reads_wrap, reads_stmt. intros t t' a. destruct (load_sets _ _ _); [|done]. by intros [= <- _].
Qed.

Lemma load_reads r id ref : reads (load_adjacency r id ref).
Proof. unfold load_adjacency. destruct (usable_ref r ref); [apply redis_reads|apply postgres_reads]. Qed.

Lemma teleport_reads r nodes : reads (globalTeleport r nodes).
Proof. unfold globalTeleport. destruct (negb _); [apply reads_ret|]. apply reads_bind; [apply reads_seeds|]. intros. apply reads_ret. Qed.

Lemma weights_reads : reads loadInteractionWeights.
Proof. apply reads_bind; [apply reads_wrap, reads_query|]. intros rows. apply reads_bind; [apply reads_id|]. intros _. apply reads_ret. Qed.

Lemma rank_graph_frame t0 r adj nodes tp : keeps (same_rankings t0) (rank_graph r adj nodes tp).
Proof.
  unfold rank_graph. destruct (enableInteractionGraph r); [|apply keeps_ret].
  apply keeps_bind; [|intros _; apply keeps_bind; [apply reads_keeps, weights_reads|]].
  - unfold RefreshInteractionEdgeWeights. keeps_step; try (apply keeps_exec; by intros ? []).
    apply keeps_stmt. intros t t' n [] [= <- _]. by split.
  - intros w. destruct (mergeWeightedAdjacency _ _ _). apply keeps_ret.
Qed.

Lemma ranking_frame t0 r id ref : keeps (same_rankings t0) (compute_ranking r id ref).
Proof.
  unfold compute_ranking. apply keeps_bind; [apply reads_keeps, load_reads|]. intros [adj nodes].
  apply keeps_bind; [apply reads_keeps, teleport_reads|]. intros tp. apply keeps_bind; [apply rank_graph_frame|]. intros ranked. apply keeps_ret.
Qed.

Lemma sync_run_frame t0 r now at' nanos id : keeps (same_rankings t0) (executeRedisSyncRun r now at' nanos id).
Proof.
  unfold executeRedisSyncRun. apply keeps_bind.
  - unfold sync_graph. destruct (enableRedisSync r); [|apply keeps_ret]. apply keeps_bind; [|intros; apply keeps_ret].
    apply syncGraphToRedis_blind, same_rankings_blind.
  - intros [ref edges]. apply tx_if_keeps. intros s s' x o Hs E.
    assert (keeps (same_rankings t0) (sync_tx now id ref edges)) as Hk.
    { unfold sync_tx. keeps_step; try apply enqueue_frame; try (apply reads_keeps; apply lock_reads); apply keeps_exec; intros ? []; by split. }
    specialize (Hk s Hs). by rewrite E in Hk.
Qed.

Lemma claim_frame t0 name phase now id ref : keeps (same_rankings t0) (claim_phase name phase now id ref).
Proof.
  unfold claim_phase. apply tx_if_keeps. intros s s' x o Hs E.
  match type of E with ?m s = _ => assert (keeps (same_rankings t0) m) as Hk end.
  { keeps_step; try (apply reads_keeps; apply lock_reads). apply keeps_exec. intros ? []. by split. }
  specialize (Hk s Hs). by rewrite E in Hk.
Qed.

Lemma member_batches_frame t0 fuel id offset members : keeps (same_rankings t0) (member_batches fuel id offset members).
Proof.
  revert offset members. induction fuel as [|fuel IH]; intros offset members; destruct members; cbn [member_batches]; try apply keeps_ret.
  apply keeps_bind; [|intros _; apply IH]. apply keeps_wrap, keeps_stmt. intros t t' ? [].
  destruct (insert_members _ _ _); [|done]. intros [= <- _]. by split.
Qed.

Lemma members_frame t0 r n1 n2 id ref : keeps (same_rankings t0) (executeNeighborhoodsRun r n1 n2 id ref).
Proof.
  unfold executeNeighborhoodsRun. destruct (negb (enableNeighborhoods r)); [apply keeps_fail|].
  apply keeps_bind; [apply claim_frame|]. intros [ref'|]; [|apply keeps_ret].
  apply keeps_bind; [apply reads_keeps, load_reads|]. intros graph. apply keeps_bind; [apply reads_keeps, reads_seeds|]. intros seeds. cbv zeta.
  apply keeps_bind; [apply writeNeighborhoods_blind, same_rankings_blind|]. intros _.
  apply tx_if_keeps. intros s s' x o Hs E.
  match type of E with ?m s = _ => assert (keeps (same_rankings t0) m) as Hk end.
  { unfold persist_members_tx. keeps_step; try apply enqueue_frame; try apply member_batches_frame; try (apply reads_keeps; apply lock_reads);
      apply keeps_exec; intros ? []; by split. }
  specialize (Hk s Hs). by rewrite E in Hk.
Qed.
End frames.

(** ** The steps that change them *)

Lemma staged_ext runID t m : (∀ p, score_stage t !! (runID, p) = m !! p) → staged runID t = m.
Proof. intros Hm. apply map_eq. intros p. by rewrite staged_lookup. Qed.

Lemma staged_drop r runID t : staged r (drop_stage runID t) = if decide (r = runID) then ∅ else staged r t.
Proof.
  apply staged_ext. intros p. rewrite drop_stage_lookup. destruct (decide (r = runID)); [by rewrite lookup_empty|by rewrite staged_lookup].
Qed.

Lemma drop_rankings runID t : rankings_ok t → rankings_ok (drop_stage runID t).
Proof.
  intros [Hs Hp]. split; [|done]. intros r. rewrite staged_drop. destruct (decide (r = runID)); [apply empty_ranking|apply Hs].
Qed.

Definition purged (t : TrustTables) : gmap (Z * string) StageRow :=
  filter (λ kv : Z * string * StageRow, terminal_run t kv.1.1 = false) (score_stage t).

Lemma staged_purge r t : staged r (set_stage (purged t) t) = if terminal_run t r then ∅ else staged r t.
Proof.
  apply staged_ext. intros p. cbn [score_stage set_stage]. unfold purged. rewrite map_lookup_filter.
  destruct (terminal_run t r) eqn:E; rewrite ?lookup_empty, ?staged_lookup; destruct (score_stage t !! (r, p)) as [row|]; cbn; try done.
  - by rewrite option_guard_False by (cbn; congruence).
  - by rewrite option_guard_True.
Qed.

Lemma failed_keeps now runID phase e : keeps rankings_ok (markRunFailed now runID phase e).
Proof.
  unfold markRunFailed. apply keeps_bind; [|intros _]; apply best_effort_keeps, keeps_exec; [|apply drop_rankings].
  intros t. by apply same_rankings_ok.
Qed.

Section steps.
Context `{NaturalLog} `{WeightRows} `{MapRange} `{SliceSort} `{EdgeRows} `{RedisScan}.

(** What the persisting transaction commits. *)
Record computed (r : Runtime) (now : time) (runID : Z) (ref : string) (ranked : list (rankNode f64)) (edges : Z) (t t' : TrustTables) : Prop := {
  computed_run : ∃ run, trust_runs (graph t) !! runID = Some run ∧ terminal (Status run) = false
    ∧ trust_runs (graph t') !! runID =
        Some (mark_computed edges (Z.of_nat (length ranked)) ref (negb (enableNeighborhoods r)) (next_job (run_jobs t)) now run);
  computed_nodes : NoDup (map Pubkey ranked);
  computed_stage : staged runID t' = ranking_map now ranked;
  computed_others : ∀ run, run ≠ runID → staged run t' = if terminal_run t run then ∅ else staged run t;
  computed_scores : trust_scores_global (graph t') = trust_scores_global (graph t);
  computed_jobs : let ty := if enableNeighborhoods r then JobTypeTrustComputeNeighborhoods else JobTypeTrustPromoteRun in
    run_jobs t' = insert_job (fresh_job now (run_jobs t) ty (WorkerPoolForJobType ty) (run_payload runID ref)
      (Some (run_job_key ty runID +:+ ":" +:+ ref)) 3 now) (run_jobs t);
}.

Lemma persist_tx_ok r now runID ref ranked edges s s' o u : persist_tx r now runID ref ranked edges s = (s', Ok (Some o, u)) →
  computed r now runID ref ranked edges (tables s) (tables s').
Proof.
  unfold persist_tx. intros (s1 & u1 & E1%wrap_ok%exec_ok & E)%bind_ok. apply bind_ok in E as (s2 & st & (E2 & run & Hrun & Hst)%lock_ok & E).
  destruct (terminal st) eqn:Hter; [done|]. apply bind_ok in E as (s3 & u3 & E3%wrap_ok%exec_ok & E).
  apply bind_ok in E as (s4 & n4 & E4%wrap_ok%stmt_ok & E). apply bind_ok in E as (s5 & u5 & (E5 & Hnd & _)%stage_batches_ok & E); [|done].
  cbv zeta in E. set (ty := if enableNeighborhoods r then _ else _) in E.
  apply bind_ok in E as (s6 & job & E6%wrap_ok%stmt_ok & E). apply bind_ok in E as (s7 & u7 & E7%wrap_ok%exec_ok & [= -> _ _]).
  cbv zeta in E4. injection E4 as E4 _. fold (purged (tables s3)) in E4. cbn in E1.
  destruct (job_with_key _ (run_jobs (tables s5))); [done|]. cbv zeta in E6. injection E6 as E6 Hjob.
  assert (tables s2 = tables s) as Hs2 by congruence. rewrite E1 in Hrun.
  assert (score_stage (tables s4) = purged (drop_stage runID (tables s))) as Hst4 by (rewrite <-E4, E3, Hs2; done).
  assert (trust_runs (graph (tables s5)) = trust_runs (graph (tables s))) as Hg5 by (rewrite E5, <-E4, E3, Hs2; done).
  assert (trust_scores_global (graph (tables s5)) = trust_scores_global (graph (tables s))) as Hg5' by (rewrite E5, <-E4, E3, Hs2; done).
  assert (score_stage (tables s') = put_rows runID (ranked_rows now 1 ranked) (purged (drop_stage runID (tables s)))) as Hfinal.
  { rewrite E7, <-E6. cbn -[put_rows ranked_rows purged]. rewrite E5. cbn -[put_rows ranked_rows purged]. by rewrite Hst4. }
  assert (NoDup (ranked_rows now 1 ranked).*1) as Hnd' by by rewrite ranked_fst.
  split.
  - exists run. split; [done|]. split; [by rewrite Hst|]. rewrite E7, <-E6. cbn -[itoa]. rewrite lookup_alter_eq, Hg5, Hrun. cbn. do 2 f_equal.
    rewrite <-Hjob. by rewrite E5, <-E4, E3, Hs2.
  - done.
  - apply staged_ext. intros p. rewrite Hfinal, put_rows_lookup, decide_True by done. unfold ranking_map.
    destruct (list_to_map (ranked_rows now 1 ranked) !! p); [done|]. unfold purged. rewrite map_lookup_filter, drop_stage_lookup, decide_True by done. done.
  - intros r' Hne. transitivity (staged r' (set_stage (purged (drop_stage runID (tables s))) (drop_stage runID (tables s)))).
    + apply staged_ext. intros p. rewrite Hfinal, put_rows_lookup, decide_False by done. by rewrite staged_lookup.
    + rewrite staged_purge, staged_drop, decide_False by done. done.
  - rewrite E7, <-E6. done.
  - cbv zeta. fold ty. rewrite E7, <-E6. cbn -[insert_job fresh_job WorkerPoolForJobType run_payload run_job_key].
    rewrite E5, <-E4, E3, Hs2. done.
Qed.

Lemma computed_rankings r now runID ref ranked edges t t' : computed r now runID ref ranked edges t t' → rankings_ok t → rankings_ok t'.
Proof.
  intros [_ Hnd Hs Ho Hg _] [Hr Hp]. split; [|by rewrite Hg]. intros run. destruct (decide (run = runID)) as [->|Hne].
  - rewrite Hs. by exists now, ranked.
  - rewrite Ho by done. destruct (terminal_run t run); [apply empty_ranking|apply Hr].
Qed.

Lemma compute_keeps r n1 n2 runID ref : keeps rankings_ok (executeGlobalScoresRun r n1 n2 runID ref).
Proof.
  unfold executeGlobalScoresRun. apply keeps_bind; [apply rankings_frame; intros; apply claim_frame|]. intros [ref'|]; [|apply keeps_ret].
  apply keeps_bind; [apply rankings_frame; intros; apply ranking_frame|]. intros [ranked edges].
  apply tx_if_keeps. intros s s' x o Hs E%persist_tx_ok. by eapply computed_rankings.
Qed.

(** ** Promote *)

(** What the promoting transaction commits. *)
Record published (r : Runtime) (now : time) (runID : Z) (ref : string) (t t' : TrustTables) : Prop := {
  published_run : ∃ run, trust_runs (graph t) !! runID = Some run ∧ terminal (Status run) = false
    ∧ trust_runs (graph t') !! runID = Some (mark_succeeded ref now (begin_phase PhasePromote now run));
  published_scores : trust_scores_global (graph t') = publish_score runID <$> staged runID t;
  published_latest : synced (graph t');
  published_hops : trust_graph_snapshot (graph t') = trust_graph_snapshot (graph t);
  published_stage : ∀ run, staged run t' = if decide (run = runID) then ∅ else staged run t;
  published_members : neighborhood_members t' =
    if enableNeighborhoods r then neighborhood_members (publish_members runID now t) else neighborhood_members t;
  published_jobs : run_jobs t' = run_jobs t;
}.

Lemma members_tx_ok now runID s s' u : publishNeighborhoodMembersTx now runID s = (s', Ok u) →
  tables s' = drop_member_stage runID (publish_members runID now (tables s)).
Proof.
  unfold publishNeighborhoodMembersTx. intros (s1 & u1 & E1%wrap_ok%exec_ok & E)%bind_ok.
  apply bind_ok in E as (s2 & u2 & E2%wrap_ok%exec_ok & E%wrap_ok%exec_ok). by rewrite E, E2, E1.
Qed.

Lemma promote_tx_ok r now runID ref s s' o b : promote_tx r now runID ref s = (s', Ok (Some o, b)) →
  published r now runID ref (tables s) (tables s') ∧ b = true.
Proof.
  unfold promote_tx. intros (s1 & u1 & E1%wrap_ok%exec_ok & E)%bind_ok. apply bind_ok in E as (s2 & st & (E2 & run & Hrun & Hst)%lock_ok & E).
  destruct (terminal st) eqn:Hter; [done|]. apply bind_ok in E as (s3 & u3 & E3%wrap_ok%exec_ok & E).
  apply bind_ok in E as (s4 & u4 & E4%wrap_ok%exec_ok & E). apply bind_ok in E as (s5 & u5 & E5%wrap_ok%exec_ok & E).
  apply bind_ok in E as (s6 & u6 & (v & E6%latest_tx_ok & E6')%zoom_ok & E).
  apply bind_ok in E as (s7 & u7 & E7 & E). apply bind_ok in E as (s8 & u8 & E8%wrap_ok%exec_ok & E).
  apply bind_ok in E as (s9 & u9 & E9%wrap_ok%exec_ok & [= <- _ <-]). cbn in E1. split; [|done].
  assert (tables s2 = tables s) as Hs2 by congruence. rewrite E1 in Hrun. cbn [tables] in E6.
  set (t5 := publish_scores runID (set_graph (set_scores ∅) (update_run (begin_phase PhasePromote now) runID (tables s)))).
  assert (tables s5 = t5) as H5 by (rewrite E5, E4, E3, Hs2; done).
  assert (tables s6 = set_graph (λ g, set_latest (latest_rows now g) g) t5) as H6 by (rewrite E6', E6, H5; done).
  assert (graph (tables s7) = graph (tables s6) ∧ score_stage (tables s7) = score_stage (tables s6) ∧ run_jobs (tables s7) = run_jobs (tables s6)
    ∧ neighborhood_members (tables s7) = if enableNeighborhoods r then neighborhood_members (publish_members runID now (tables s)) else neighborhood_members (tables s)) as (H7 & H7s & H7j & H7m).
  { destruct (enableNeighborhoods r).
    - apply members_tx_ok in E7. rewrite E7, H6. done.
    - injection E7 as <- _. rewrite H6. done. }
  assert (∀ run, staged run (tables s9) = if decide (run = runID) then ∅ else staged run (tables s)) as Hstage.
  { intros r'. transitivity (staged r' (drop_stage runID (tables s7))); [by rewrite E9, E8|]. rewrite staged_drop.
    unfold staged. by rewrite H7s, H6. }
  split.
  - exists run. split; [done|]. split; [by rewrite Hst|]. rewrite E9, E8. cbn -[begin_phase mark_succeeded]. rewrite lookup_alter_eq, H7, H6.
    cbn -[begin_phase mark_succeeded]. rewrite lookup_alter_eq, Hrun. done.
  - rewrite E9, E8. cbn. by rewrite H7, H6.
  - intros p. rewrite E9, E8. cbn. rewrite H7, H6. exact (latest_synced now (graph t5) p).
  - rewrite E9, E8. cbn. by rewrite H7, H6.
  - exact Hstage.
  - rewrite E9, E8. exact H7m.
  - rewrite E9, E8. cbn. by rewrite H7j, H6.
Qed.

(** The recount writes no table but the profiles' statistics. *)
Definition stats_only (t0 t : TrustTables) : Prop := ∃ m, t = set_graph (set_stats m) t0.

Lemma stats_only_refl t : stats_only t t.
Proof. exists (profile_public_stats (graph t)). by destruct t as [[]]. Qed.

Lemma recount_stats `{DeadlockCode} t0 cancelled p : keeps (stats_only t0) (best_effort (on_graph (RecountTrustedFollowerCounts cancelled p))).
Proof.
  apply best_effort_keeps. apply (keeps_zoom _ _ _ _ (λ g, ∃ m, g = set_stats m (graph t0))).
  - intros t [m ->]. by exists m.
  - intros t u [m ->] [m' ->]. by exists m'.
  - apply recount_keeps. intros q. unfold recountTrustedFollowerCountsOnce, setTrustHeavyStatementTimeout. keeps_step; apply keeps_exec;
      intros g [m ->]; eauto; by eexists.
Qed.

(** C4: A promote publishes a run whole or does nothing. Either it leaves the
    tables as they were, or the run was not over and, in one step, its staged
    ranking has become the published scores, the derived table agrees with them,
    the run is succeeded and its stage is empty; after that only the trusted
    follower counts change. *)
Theorem promote_all_or_nothing `{DeadlockCode} r cancelled now runID ref s :
  let t := tables s in
  let t' := tables (executePromoteRun r cancelled now runID ref s).1 in
  t' = t ∨
  ((executePromoteRun r cancelled now runID ref s).2 = Ok tt ∧ ∃ u, published r now runID ref t u ∧ stats_only u t').
Proof.
  cbv zeta. unfold executePromoteRun.
  set (m := tx_if "begin trust promote tx" _ (promote_tx r now runID ref)). pose proof (bind_cases m (λ promoted : bool, if promoted then
    best_effort (on_graph (RecountTrustedFollowerCounts cancelled (mkFollowerPolicy (neighborhoodMaxHops r) (trustedFollowerUntrustedWeight r))))
    else go_ret tt) s) as Hb.
  destruct (tx_if_cases "begin trust promote tx" (λ _ : unit, "commit trust promote tx") (promote_tx r now runID ref) s)
    as [[Ht Hr]|(s1 & s2 & x & b & E1 & E2 & E3 & E4)]; [fold m in Ht, Hr|fold m in E3, E4].
  - left. destruct (m s) as [s' [b|e]]; rewrite Hb; [|exact Ht]. cbn [fst snd] in *.
    destruct (Hr b eq_refl) as (s1 & s2 & _ & E2).
    assert (b = false) as ->; [|exact Ht]. revert E2. unfold promote_tx.
    intros (s3 & u1 & _ & E)%bind_ok. apply bind_ok in E as (s4 & st & _ & E).
    destruct (terminal st); [by injection E as _ <-|]. repeat (apply bind_ok in E as (? & ? & _ & E)). done.
  - right. apply promote_tx_ok in E2 as [Hp ->]. destruct (m s) as [s' [b|e]]; [|done]. cbn [fst snd] in *. injection E4 as ->.
    rewrite Hb. split; [done|]. exists (tables s'). split; [by rewrite E3, <-E1|].
    apply recount_stats, stats_only_refl.
Qed.

Lemma published_rankings r now runID ref t t' : published r now runID ref t t' → rankings_ok t → rankings_ok t'.
Proof.
  intros [_ Hs _ _ Hst _ _] [Hr Hp]. split.
  - intros run. rewrite Hst. destruct (decide (run = runID)); [apply empty_ranking|apply Hr].
  - exists runID, (staged runID t). split; [apply Hr|done].
Qed.
End steps.

(** ** Every operation *)

Section invariant.
Context `{NaturalLog} `{WeightRows} `{MapRange} `{SliceSort} `{EdgeRows} `{RedisScan} `{DeadlockCode}.

Lemma promote_keeps r cancelled now runID ref : keeps rankings_ok (executePromoteRun r cancelled now runID ref).
Proof.
  unfold executePromoteRun. apply keeps_bind.
  - apply tx_if_keeps. intros s s' x o Hs [Hp _]%promote_tx_ok. by eapply published_rankings.
  - intros [|]; [|apply keeps_ret]. intros s Hs. destruct (recount_stats (tables s) cancelled (mkFollowerPolicy (neighborhoodMaxHops r) (trustedFollowerUntrustedWeight r)) s (stats_only_refl _)) as [m ->].
    by eapply same_rankings_ok.
Qed.

Lemma run_phase_keeps phase now runID m : keeps rankings_ok m → keeps rankings_ok (run_phase phase now runID m).
Proof.
  intros Hk s Hs. unfold run_phase. specialize (Hk s Hs). destruct (m s) as [s' [u|e]]; [done|]. by apply failed_keeps.
Qed.

Lemma process_keeps r cancelled c job : keeps rankings_ok (ProcessJob r cancelled c job).
Proof.
  unfold ProcessJob. cbv zeta. repeat match goal with
    | |- keeps _ (if ?b then _ else _) => destruct b
    | |- keeps _ (match ?x with _ => _ end) => destruct x
    | |- keeps _ (go_fail _) => apply keeps_fail
    end; apply run_phase_keeps.
  - apply rankings_frame. intros. apply sync_run_frame.
  - apply promote_keeps.
  - apply compute_keeps.
  - apply rankings_frame. intros. apply members_frame.
Qed.

Lemma trigger_keeps now : keeps rankings_ok (TriggerGlobalRun now).
Proof.
  apply rankings_frame. intros t0. unfold TriggerGlobalRun, GetRun. keeps_step; try apply enqueue_frame; try (apply keeps_exec; intros ? []; by split);
    apply keeps_stmt; intros t t' a' []; [by intros [= <- _]|]. destruct (_ !! _); [by intros [= <- _]|done].
Qed.

Lemma tick_keeps now : keeps rankings_ok (schedule_tick now).
Proof.
  unfold schedule_tick. apply keeps_bind; [apply keeps_query|]. intros n.
  destruct (bool_decide (n = 0%nat)); [|apply keeps_ret]. apply keeps_bind; [apply trigger_keeps|]. intros. apply keeps_ret.
Qed.

(** The operations on the trust tables; the last stands for the rest of the
    system, which writes neither the stage nor the published scores. *)
Inductive trust_step (t : TrustTables) : TrustTables → Prop :=
| step_tick now fs : trust_step t (tables (schedule_tick now (mkDb t fs)).1)
| step_trigger now fs : trust_step t (tables (TriggerGlobalRun now (mkDb t fs)).1)
| step_process r cancelled c job fs : trust_step t (tables (ProcessJob r cancelled c job (mkDb t fs)).1)
| step_snapshot cancelled w hops n1 n2 n3 fs :
    trust_step t (tables (on_graph (RefreshTrustGraphSnapshot cancelled w hops n1 n2 n3) (mkDb t fs)).1)
| step_other t' : same_rankings t t' → trust_step t t'.

Lemma snapshot_refresh_scores (m0 : gmap string ScoreRow) cancelled w hops n1 n2 n3 :
  keeps (λ g, trust_scores_global g = m0) (RefreshTrustGraphSnapshot cancelled w hops n1 n2 n3).
Proof.
  assert (∀ n v, keeps (λ g, trust_scores_global g = m0) (refreshTrustedNoteDiscoveryProjectionTx n v)) as Hn.
  { intros. unfold refreshTrustedNoteDiscoveryProjectionTx. keeps_step; by apply keeps_exec. }
  assert (∀ n v, keeps (λ g, trust_scores_global g = m0) (refreshTrustedProfileDiscoveryProjectionTx n v)) as Hp.
  { intros. unfold refreshTrustedProfileDiscoveryProjectionTx. keeps_step; by apply keeps_exec. }
  assert (∀ p, keeps (λ g, trust_scores_global g = m0) (recountTrustedFollowerCountsOnce p)) as Ho.
  { intros. unfold recountTrustedFollowerCountsOnce, setTrustHeavyStatementTimeout. keeps_step; by apply keeps_exec. }
  unfold RefreshTrustGraphSnapshot, runProjectionRefresh, refresh_snapshot_tx, setTrustHeavyStatementTimeout, RefreshTrustPubkeysLatestTx. keeps_step;
    try apply Hn; try apply Hp; try (by apply keeps_exec); try by apply recount_keeps.
  all: apply keeps_stmt; intros t t' a' Ht; unfold merge_large; cbv zeta; try (case_bool_decide; [|done]); by intros [= <- _].
Qed.

Lemma step_rankings t t' : trust_step t t' → rankings_ok t → rankings_ok t'.
Proof.
  intros Hs Ht. destruct Hs as [now fs|now fs|r cancelled c job fs|cancelled w hops n1 n2 n3 fs|t' Hs].
  - exact (tick_keeps now (mkDb t fs) Ht).
  - exact (trigger_keeps now (mkDb t fs) Ht).
  - exact (process_keeps r cancelled c job (mkDb t fs) Ht).
  - apply (same_rankings_ok t); [|done]. unfold on_graph.
    destruct (zoom_tables graph (λ g t, set_graph (λ _, g) t) (RefreshTrustGraphSnapshot cancelled w hops n1 n2 n3) (mkDb t fs)) as [-> _].
    split; [done|]. cbn. by apply (snapshot_refresh_scores (trust_scores_global (graph t))).
  - by eapply same_rankings_ok.
Qed.

(** C5: Whatever triggers, ticks, job deliveries, snapshot refreshes and outside
    writes follow one another from empty trust tables, and whatever calls fail
    in them, the published scores are always one whole ranking of a single run:
    its pubkeys are distinct and ranked 1, 2, 3, ... without a gap. So is the
    stage of each run. *)
Theorem published_ranking_whole t0 t
    (Hempty : score_stage t0 = ∅ ∧ trust_scores_global (graph t0) = ∅) (Hsteps : rtc trust_step t0 t) :
  (∃ runID now ranked, NoDup (map Pubkey ranked)
    ∧ trust_scores_global (graph t) = publish_score runID <$> ranking_map now ranked)
  ∧ ∀ runID, ∃ now ranked, NoDup (map Pubkey ranked) ∧ staged runID t = ranking_map now ranked.
Proof.
  assert (rankings_ok t0) as Hok.
  { destruct Hempty as [Hs Hg]. split; [intros r; unfold staged; rewrite Hs; apply empty_ranking|].
    exists 0, ∅. split; [apply empty_ranking|]. by rewrite Hg. }
  assert (rankings_ok t) as [Hs (runID & m & (now & ranked & Hnd & ->) & Hg)].
  { clear Hempty. induction Hsteps as [|x y z Hxy _ IH]; [done|]. by eapply IH, step_rankings. }
  split; [by exists runID, now, ranked|exact Hs].
Qed.
End invariant.
