(* ===== verification/TrustLifecycle.v ===== *)
(** Trust runs from end to end, over the handlers of [TrustRun]: a run without
    failing calls publishes the ranking of the follow graph, and what happens
    when jobs are delivered again, are lost, or are tried again after their run
    has failed. *)

From S2P Require Import SearchPage Prelude GoLib GoFloat Json Db JobQueue TrustGraph TrustRank TrustStore TrustRedis TrustRun.
Local Open Scope go_scope.

(** * A run from its trigger to its scores *)

Lemma job_with_key_free k t : (∀ id j, jobs t !! id = Some j → IdempotencyKey j ≠ Some k) → job_with_key k t = None.
Proof.
  intros Hk. unfold job_with_key.
  destruct (List.filter (λ kv : Z * Job, bool_decide (IdempotencyKey kv.2 = Some k)) (map_to_list (jobs t))) as [|[id j] l] eqn:E; [done|].
  assert ((id, j) ∈ List.filter (λ kv : Z * Job, bool_decide (IdempotencyKey kv.2 = Some k)) (map_to_list (jobs t))) as Hin by (rewrite E; set_solver).
  apply list_elem_of_In, filter_In in Hin as [Hin Hb%bool_decide_eq_true]. apply list_elem_of_In, elem_of_map_to_list in Hin.
  destruct (Hk id j Hin Hb).
Qed.

Lemma job_with_key_insert k j t : IdempotencyKey j ≠ Some k → job_with_key k t = None → job_with_key k (insert_job j t) = None.
Proof.
  intros Hj Ht. apply job_with_key_free. intros id j'. cbn. destruct (decide (JobID j = id)) as [<-|Hne].
  - rewrite lookup_insert_eq. by intros [= <-].
  - rewrite lookup_insert_ne by done. apply (job_with_key_None k t). exact Ht.
Qed.

(** The fixed configuration: no Redis sync, no neighbourhoods and no interaction
    graph; seed teleport may be on. *)
Record plain_runtime (r : Runtime) : Prop := {
  plain_sync : enableRedisSync r = false;
  plain_compute : enableScoreCompute r = true;
  plain_members : enableNeighborhoods r = false;
  plain_interactions : enableInteractionGraph r = false;
}.


Section run.
Context `{NaturalLog} `{WeightRows} `{MapRange} `{SliceSort} `{EdgeRows} `{RedisScan} `{DeadlockCode}.

Lemma ranked_nodes (adjacency : gmap string (list string)) nodeSet (teleport : gmap string f64) damping :
  NoDup (map Pubkey (ComputePersonalizedRank adjacency nodeSet teleport damping)).
Proof.
  unfold ComputePersonalizedRank, ComputePersonalizedRankWeighted. case_bool_decide; [constructor|]. cbv zeta.
  set (final := rank_loop _ _ _ _ _ _ _). rewrite sort_perm, map_map, List.map_id, sort_Strings_perm, set_range_perm. apply NoDup_elements.
Qed.

(** The graph, the teleport vector and the ranking of some tables. *)
Definition follow_graph_of (t : TrustTables) : gmap string (list string) * gset string :=
  foldl append_edge (∅, ∅) (edge_rows (follower_edges (graph t))).

Definition teleport_of (r : Runtime) (t : TrustTables) : gmap string f64 :=
  if enableSeedTeleport r then gset_to_gmap (f64_of_Z 1) (active_pubkeys (graph t)) else uniformTeleport (follow_graph_of t).2.

Definition ranking_of (r : Runtime) (t : TrustTables) : list (rankNode f64) :=
  ComputePersonalizedRank (follow_graph_of t).1 (follow_graph_of t).2 (teleport_of r t) rankDamping.

Lemma postgres_clean t : LoadAdjacencyFromPostgres (mkDb t []) = (mkDb t [], Ok (follow_graph_of t)).
Proof.
  unfold LoadAdjacencyFromPostgres, withHeavyStatementTimeout.
  erewrite bind_clean by (apply wrap_clean, exec_clean). erewrite bind_clean by (apply wrap_clean, exec_clean). cbn [id].
  cbv beta. erewrite bind_clean by (apply wrap_clean, stmt_clean; reflexivity). erewrite bind_clean by (apply wrap_clean, exec_clean). done.
Qed.

Lemma ranking_clean r t runID ref : plain_runtime r →
  compute_ranking r runID ref (mkDb t []) = (mkDb t [], Ok (ranking_of r t, edge_count (follow_graph_of t).1)).
Proof.
  intros [Hsync _ _ Hint]. unfold compute_ranking, load_adjacency, usable_ref. rewrite Hsync. cbn [andb].
  erewrite bind_clean by apply postgres_clean. unfold ranking_of, teleport_of. destruct (follow_graph_of t) as [adj nodes] eqn:Eg.
  assert (globalTeleport r nodes (mkDb t []) = (mkDb t [], Ok (teleport_of r t))) as Ht.
  { unfold globalTeleport, teleport_of. destruct (enableSeedTeleport r); cbn [negb]; [|by rewrite Eg].
    unfold loadActiveSeeds. erewrite bind_clean; [reflexivity|]. erewrite bind_clean by (apply wrap_clean, stmt_clean; reflexivity).
    erewrite bind_clean by (apply wrap_clean, exec_clean). done. }
  erewrite bind_clean by exact Ht. unfold rank_graph. rewrite Hint. unfold teleport_of. rewrite Eg. done.
Qed.

(** ** Each phase goes through *)

Lemma lock_clean msg runID t run : trust_runs (graph t) !! runID = Some run → lock_run msg runID (mkDb t []) = (mkDb t [], Ok (Status run)).
Proof.
  intros Hr. unfold lock_run. erewrite bind_clean by (apply wrap_clean, stmt_clean; reflexivity). by rewrite Hr.
Qed.

Lemma tx_if_clean {A X} b (c : X → string) (m : go (db TrustTables) (option X * A)) t t' x a :
  m (mkDb t []) = (mkDb t' [], Ok (Some x, a)) → tx_if b c m (mkDb t []) = (mkDb t' [], Ok a).
Proof. intros E. unfold tx_if. change (next (mkDb t [])) with (mkDb t []). cbn. by rewrite E. Qed.

Lemma enqueue_clean now ty p k t : job_with_key k (run_jobs t) = None →
  enqueueTrustJobTx now ty p k (mkDb t []) =
  (mkDb (set_run_jobs (insert_job (fresh_job now (run_jobs t) ty (WorkerPoolForJobType ty) p (Some k) 3 now) (run_jobs t)) t) [], Ok (next_job (run_jobs t))).
Proof. intros Hk. apply stmt_clean. by rewrite Hk. Qed.

Lemma batches_clean fuel now runID offset ranked t : (length ranked <= fuel)%nat → NoDup (map Pubkey ranked) →
  (∀ p, p ∈ map Pubkey ranked → score_stage t !! (runID, p) = None) →
  ∃ t', stage_batches fuel now runID offset ranked (mkDb t []) = (mkDb t' [], Ok tt).
Proof.
  revert offset ranked t. induction fuel as [|fuel IH]; intros offset ranked t Hf Hnd Hfr; destruct ranked as [|node ranked]; cbn [stage_batches]; [by eexists| |by eexists|].
  { cbn in Hf. lia. }
  set (l := node :: ranked) in *.
  assert (NoDup (map Pubkey (take insertBatch l)) ∧ NoDup (map Pubkey (drop insertBatch l)) ∧ ∀ p, p ∈ map Pubkey (take insertBatch l) → p ∉ map Pubkey (drop insertBatch l))
    as (Hn1 & Hn2 & Hdis).
  { rewrite <-(take_drop insertBatch l), map_app in Hnd. apply list.NoDup_app in Hnd as (? & ? & ?). done. }
  assert (∀ p, p ∈ map Pubkey (take insertBatch l) ∨ p ∈ map Pubkey (drop insertBatch l) → p ∈ map Pubkey l) as Hsub.
  { intros p Hp. rewrite <-(take_drop insertBatch l), map_app, elem_of_app. done. }
  destruct (insert_stage_total now runID (offset + 1) (take insertBatch l) (score_stage t)) as [m Hm]; [done|by intros p Hp; apply Hfr, Hsub; left|].
  erewrite bind_clean by (apply wrap_clean, stmt_clean; by rewrite Hm).
  apply IH; [|done|].
  - rewrite length_drop. unfold l, insertBatch in *. cbn [length] in *. lia.
  - intros p Hp. apply insert_stage_ok in Hm as (-> & Hn & _). cbn [score_stage set_stage]. rewrite put_rows_lookup, decide_True by (done || by rewrite ranked_fst).
    rewrite (proj1 (not_elem_of_list_to_map _ p)) by (rewrite ranked_fst; intros Hin; by apply (Hdis p)). apply Hfr, Hsub. by right.
Qed.

Lemma persist_clean r now runID ref ranked edges t run : plain_runtime r → NoDup (map Pubkey ranked) →
  trust_runs (graph t) !! runID = Some run → terminal (Status run) = false →
  job_with_key (run_job_key JobTypeTrustPromoteRun runID +:+ ":" +:+ ref) (run_jobs t) = None →
  ∃ t', persistComputeResults r now runID ref ranked edges (mkDb t []) = (mkDb t' [], Ok tt) ∧ computed r now runID ref ranked edges t t'.
Proof.
  intros Hr Hnd Hrun Hter Hkey.
  assert (∃ t', persist_tx r now runID ref ranked edges (mkDb t []) = (mkDb t' [], Ok (Some tt, tt))) as [t' E].
  { unfold persist_tx. erewrite bind_clean by (apply wrap_clean, exec_clean). erewrite bind_clean by by apply lock_clean. rewrite Hter.
    erewrite bind_clean by (apply wrap_clean, exec_clean). erewrite bind_clean by (apply wrap_clean, stmt_clean; reflexivity). cbn [id].
    match goal with |- context [go_bind (stage_batches _ _ _ _ _) _ (mkDb ?u [])] => destruct (batches_clean (length ranked) now runID 0 ranked u) as [t5 E5]; [done|done| |] end.
    { intros p _. cbn [score_stage set_stage]. rewrite map_lookup_filter, drop_stage_lookup, decide_True by done. done. }
    erewrite bind_clean by exact E5. cbv zeta. rewrite (plain_members r Hr). pose proof E5 as E5'. apply stage_batches_ok in E5 as (E5 & _ & _); [|done]. cbn [tables] in E5.
    erewrite bind_clean by (apply wrap_clean, enqueue_clean; rewrite E5; exact Hkey).
    erewrite bind_clean by (apply wrap_clean, exec_clean). by eexists. }
  exists t'. split; [by eapply tx_if_clean|]. by apply persist_tx_ok in E.
Qed.

Lemma trigger_clean now t : job_with_key (run_job_key JobTypeTrustSyncGraphRedis (next_run t)) (run_jobs t) = None →
  ∃ t1 run, TriggerGlobalRun now (mkDb t []) = (mkDb t1 [], Ok run)
    ∧ trust_runs (graph t1) !! next_run t = Some run ∧ Status run = RunPending
    ∧ run_jobs t1 = insert_job (fresh_job now (run_jobs t) JobTypeTrustSyncGraphRedis WorkerPoolTrust (sync_payload (next_run t))
        (Some (run_job_key JobTypeTrustSyncGraphRedis (next_run t))) 3 now) (run_jobs t)
    ∧ follower_edges (graph t1) = follower_edges (graph t) ∧ trust_seeds (graph t1) = trust_seeds (graph t).
Proof.
  intros Hk. unfold TriggerGlobalRun. set (id := next_run t) in *.
  match goal with |- context [go_bind ?m _ (mkDb t [])] => assert (∃ t1 run, m (mkDb t []) = (mkDb t1 [], Ok id)
    ∧ trust_runs (graph t1) !! id = Some run ∧ Status run = RunPending
    ∧ run_jobs t1 = insert_job (fresh_job now (run_jobs t) JobTypeTrustSyncGraphRedis WorkerPoolTrust (sync_payload id)
        (Some (run_job_key JobTypeTrustSyncGraphRedis id)) 3 now) (run_jobs t)
    ∧ follower_edges (graph t1) = follower_edges (graph t) ∧ trust_seeds (graph t1) = trust_seeds (graph t)) as (t1 & run & E & Hrun & Hrest) end.
  { eexists _, _. split.
    - apply tx_clean. erewrite bind_clean by (apply wrap_clean, stmt_clean; reflexivity).
      erewrite bind_clean by (apply wrap_clean, enqueue_clean; exact Hk). erewrite bind_clean by (apply wrap_clean, exec_clean). reflexivity.
    - cbn -[itoa sync_payload run_job_key]. split_and!; [by rewrite lookup_alter_eq, lookup_insert_eq|done..]. }
  exists t1, run. split; [|done]. erewrite bind_clean by exact E. unfold GetRun. apply wrap_clean, stmt_clean. by rewrite Hrun.
Qed.

Lemma sync_clean r now at' nanos runID t run : plain_runtime r → trust_runs (graph t) !! runID = Some run → terminal (Status run) = false →
  job_with_key (run_job_key JobTypeTrustComputeGlobalScore runID +:+ ":postgres-only") (run_jobs t) = None →
  ∃ t', executeRedisSyncRun r now at' nanos runID (mkDb t []) = (mkDb t' [], Ok tt)
    ∧ (∃ run', trust_runs (graph t') !! runID = Some run' ∧ Status run' = RunRunning)
    ∧ run_jobs t' = insert_job (fresh_job now (run_jobs t) JobTypeTrustComputeGlobalScore WorkerPoolTrust (run_payload runID "postgres-only")
        (Some (run_job_key JobTypeTrustComputeGlobalScore runID +:+ ":postgres-only")) 3 now) (run_jobs t)
    ∧ follower_edges (graph t') = follower_edges (graph t) ∧ trust_seeds (graph t') = trust_seeds (graph t).
Proof.
  intros Hr Hrun Hter Hk. unfold executeRedisSyncRun, sync_graph. rewrite (plain_sync r Hr).
  erewrite bind_clean by reflexivity. cbv beta iota.
  eexists. split.
  - apply (tx_if_clean _ _ _ _ _ tt). unfold sync_tx. erewrite bind_clean by (apply wrap_clean, exec_clean). erewrite bind_clean by by apply lock_clean. rewrite Hter.
    erewrite bind_clean by (apply wrap_clean, stmt_clean; reflexivity). erewrite bind_clean by (apply wrap_clean, exec_clean).
    erewrite bind_clean by (apply wrap_clean, enqueue_clean; exact Hk). erewrite bind_clean by (apply wrap_clean, exec_clean). reflexivity.
  - cbn -[itoa run_payload run_job_key]. split_and!; [|done..]. rewrite !lookup_alter_eq, Hrun. by eexists.
Qed.

Lemma claim_clean name phase now runID ref t run : trust_runs (graph t) !! runID = Some run → terminal (Status run) = false → trim_space ref ≠ "" →
  claim_phase name phase now runID ref (mkDb t []) = (mkDb (update_run (begin_phase phase now) runID t) [], Ok (Some ref)).
Proof.
  intros Hrun Hter Href. unfold claim_phase. apply (tx_if_clean _ _ _ _ _ tt). erewrite bind_clean by by apply lock_clean. rewrite Hter.
  rewrite bool_decide_eq_false_2 by done. erewrite bind_clean by reflexivity. erewrite bind_clean by (apply wrap_clean, exec_clean). done.
Qed.

Lemma compute_clean r n1 n2 runID ref t run : plain_runtime r → trust_runs (graph t) !! runID = Some run → terminal (Status run) = false → trim_space ref ≠ "" →
  job_with_key (run_job_key JobTypeTrustPromoteRun runID +:+ ":" +:+ ref) (run_jobs t) = None →
  ∃ t', executeGlobalScoresRun r n1 n2 runID ref (mkDb t []) = (mkDb t' [], Ok tt)
    ∧ computed r n2 runID ref (ranking_of r t) (edge_count (follow_graph_of t).1) (update_run (begin_phase PhaseCompute n1) runID t) t'.
Proof.
  intros Hr Hrun Hter Href Hk. unfold executeGlobalScoresRun.
  erewrite bind_clean by (by apply (claim_clean "compute" PhaseCompute n1 runID ref t run)). cbv beta iota.
  set (t1 := update_run (begin_phase PhaseCompute n1) runID t).
  erewrite bind_clean by by apply ranking_clean. cbn [fst snd].
  refine (persist_clean r n2 runID ref (ranking_of r t1) (edge_count (follow_graph_of t1).1) t1 (begin_phase PhaseCompute n1 run) Hr _ _ _ _); [|by cbn; rewrite lookup_alter_eq, Hrun|done|done].
  apply ranked_nodes.
Qed.

Lemma promote_clean r cancelled now runID ref t run : plain_runtime r → trust_runs (graph t) !! runID = Some run → terminal (Status run) = false →
  ∃ u, published r now runID ref t u ∧ stats_only u (tables (executePromoteRun r cancelled now runID ref (mkDb t [])).1)
    ∧ (executePromoteRun r cancelled now runID ref (mkDb t [])).2 = Ok tt.
Proof.
  intros Hr Hrun Hter.
  assert (∃ u, promote_tx r now runID ref (mkDb t []) = (mkDb u [], Ok (Some tt, true))) as [u E].
  { unfold promote_tx. erewrite bind_clean by (apply wrap_clean, exec_clean). erewrite bind_clean by by apply lock_clean. rewrite Hter.
    erewrite bind_clean by (apply wrap_clean, exec_clean). erewrite bind_clean by (apply wrap_clean, exec_clean). erewrite bind_clean by (apply wrap_clean, exec_clean).
    erewrite bind_clean by reflexivity. rewrite (plain_members r Hr). erewrite bind_clean by reflexivity.
    erewrite bind_clean by (apply wrap_clean, exec_clean). erewrite bind_clean by (apply wrap_clean, exec_clean). by eexists. }
  exists u. unfold executePromoteRun.
  erewrite bind_clean by (eapply tx_if_clean; exact E). cbv beta iota. apply promote_tx_ok in E as [Hp _]. split_and!; [exact Hp| |done].
  exact (recount_stats u cancelled _ (mkDb u []) (stats_only_refl u)).
Qed.

(** Which handler a job reaches. *)
Lemma process_sync r cancelled c job runID s : JobType job = JobTypeTrustSyncGraphRedis → decode_run_id (Payload job) = Some runID → 0 < runID →
  ProcessJob r cancelled c job s = run_phase PhaseSync (jc_failed c) runID (executeRedisSyncRun r (jc_first c) (jc_synced c) (jc_nanos c) runID) s.
Proof.
  intros Hty Hd Hid. unfold ProcessJob. rewrite Hty, Hd. change (bool_decide (trim_space JobTypeTrustSyncGraphRedis = JobTypeTrustSyncGraphRedis)) with true.
  cbv iota zeta beta. by rewrite (proj2 (Z.leb_gt runID 0)) by lia.
Qed.

Lemma process_compute r cancelled c job runID ref s : plain_runtime r → JobType job = JobTypeTrustComputeGlobalScore → decode_run (Payload job) = Some (runID, ref) → 0 < runID →
  ProcessJob r cancelled c job s = run_phase PhaseCompute (jc_failed c) runID (executeGlobalScoresRun r (jc_first c) (jc_second c) runID ref) s.
Proof.
  intros Hr Hty Hd Hid. unfold ProcessJob. rewrite Hty, Hd, (plain_compute r Hr).
  change (bool_decide (trim_space JobTypeTrustComputeGlobalScore = JobTypeTrustSyncGraphRedis)) with false.
  change (bool_decide (trim_space JobTypeTrustComputeGlobalScore = JobTypeTrustPromoteRun)) with false.
  change (bool_decide (trim_space JobTypeTrustComputeGlobalScore = JobTypeTrustComputeGlobalScore)) with true.
  cbv iota zeta beta. cbn [negb]. by rewrite (proj2 (Z.leb_gt runID 0)) by lia.
Qed.

Lemma process_promote r cancelled c job runID ref s : JobType job = JobTypeTrustPromoteRun → decode_run (Payload job) = Some (runID, ref) → 0 < runID →
  ProcessJob r cancelled c job s = run_phase PhasePromote (jc_failed c) runID (executePromoteRun r cancelled (jc_first c) runID ref) s.
Proof.
  intros Hty Hd Hid. unfold ProcessJob. rewrite Hty, Hd.
  change (bool_decide (trim_space JobTypeTrustPromoteRun = JobTypeTrustSyncGraphRedis)) with false.
  change (bool_decide (trim_space JobTypeTrustPromoteRun = JobTypeTrustPromoteRun)) with true.
  cbv iota zeta beta. by rewrite (proj2 (Z.leb_gt runID 0)) by lia.
Qed.

(** The keys of a run's jobs when it does not sync to Redis. *)
Definition postgres_keys (runID : Z) : list string :=
  [run_job_key JobTypeTrustSyncGraphRedis runID; run_job_key JobTypeTrustComputeGlobalScore runID +:+ ":postgres-only";
   run_job_key JobTypeTrustPromoteRun runID +:+ ":postgres-only"].

Lemma plain_check l :
  forallb (λ b, (33 <=? b) && (b <=? 126) && negb (b =? 34) && negb (b =? 92) && negb (b =? 38) && negb (b =? 60) && negb (b =? 62)) l = true → plain l.
Proof.
  intros Hl. apply List.Forall_forall. intros b Hb. rewrite forallb_forall in Hl. apply Hl in Hb. unfold visible. bool_simpl. lia.
Qed.

Lemma plain_postgres : plain (bytes "postgres-only").
Proof. by apply plain_check. Qed.

(** C10: A triggered run, without failing calls, reaches its end: each handler
    succeeds and leaves the job of the next, and after the third the run is
    succeeded and the published scores are the ranking of [follower_edges], the
    best node with rank 1. *)
Theorem run_publishes_ranking r cancelled now c1 c2 c3 t
    (Hr : plain_runtime r) (Hid : 0 < next_run t) (Hmax : in_i64 (next_run t) = true)
    (Hkeys : Forall (λ k, job_with_key k (run_jobs t) = None) (postgres_keys (next_run t))) :
  let n := next_job (run_jobs t) in
  ∃ t1 t2 t3 run j1 j2 j3,
    TriggerGlobalRun now (mkDb t []) = (mkDb t1 [], Ok run) ∧ jobs (run_jobs t1) !! n = Some j1
    ∧ ProcessJob r cancelled c1 j1 (mkDb t1 []) = (mkDb t2 [], Ok tt) ∧ jobs (run_jobs t2) !! (n + 1) = Some j2
    ∧ ProcessJob r cancelled c2 j2 (mkDb t2 []) = (mkDb t3 [], Ok tt) ∧ jobs (run_jobs t3) !! (n + 1 + 1) = Some j3
    ∧ let '(s4, res) := ProcessJob r cancelled c3 j3 (mkDb t3 []) in
      let g := graph (tables s4) in
      res = Ok tt ∧ (Status <$> trust_runs g !! next_run t) = Some RunSucceeded
      ∧ trust_scores_global g = publish_score (next_run t) <$> ranking_map (jc_second c2) (ranking_of r t)
      ∧ synced g.
Proof.
  set (id := next_run t) in *. cbv zeta. set (n := next_job (run_jobs t)).
  unfold postgres_keys in Hkeys. apply list.Forall_cons in Hkeys as [Hk1 Hkeys]. apply list.Forall_cons in Hkeys as [Hk2 Hkeys].
  apply list.Forall_cons in Hkeys as [Hk3 _].
  pose proof (decode_run_payload id "postgres-only" Hmax plain_postgres) as Hd. pose proof (decode_sync_payload id Hmax) as Hd0.
  destruct (trigger_clean now t Hk1) as (t1 & run & E1 & Hrun1 & Hst1 & Hj1 & He1 & Hs1). fold id in Hrun1, Hj1.
  assert (jobs (run_jobs t1) !! n = Some (fresh_job now (run_jobs t) JobTypeTrustSyncGraphRedis WorkerPoolTrust (sync_payload id) (Some (run_job_key JobTypeTrustSyncGraphRedis id)) 3 now)) as Hl1.
  { rewrite Hj1. apply lookup_insert_eq. }
  destruct (sync_clean r (jc_first c1) (jc_synced c1) (jc_nanos c1) id t1 run Hr Hrun1) as (t2 & E2 & (run2 & Hrun2 & Hst2) & Hj2 & He2 & Hs2).
  { by rewrite Hst1. }
  { rewrite Hj1. by apply job_with_key_insert. }
  assert (next_job (run_jobs t1) = n + 1) as Hn1 by by rewrite Hj1.
  assert (jobs (run_jobs t2) !! (n + 1) = Some (fresh_job (jc_first c1) (run_jobs t1) JobTypeTrustComputeGlobalScore WorkerPoolTrust (run_payload id "postgres-only") (Some (run_job_key JobTypeTrustComputeGlobalScore id +:+ ":postgres-only")) 3 (jc_first c1))) as Hl2.
  { rewrite Hj2, <-Hn1. apply lookup_insert_eq. }
  destruct (compute_clean r (jc_first c2) (jc_second c2) id "postgres-only" t2 run2 Hr Hrun2) as (t3 & E3 & Hc3).
  { by rewrite Hst2. }
  { done. }
  { rewrite Hj2. apply job_with_key_insert; [done|]. rewrite Hj1. by apply job_with_key_insert. }
  destruct Hc3 as [(run3 & Hr3 & Hter3 & Hrun3) Hnd Hstage _ _ Hj3]. cbv zeta in Hj3. rewrite (plain_members r Hr) in Hj3.
  assert (next_job (run_jobs t2) = n + 1 + 1) as Hn2 by by rewrite Hj2, <-Hn1.
  assert (∃ j3, jobs (run_jobs t3) !! (n + 1 + 1) = Some j3 ∧ JobType j3 = JobTypeTrustPromoteRun ∧ Payload j3 = run_payload id "postgres-only") as (j3 & Hl3 & Hty3 & Hp3).
  { eexists. split; [|split]. - rewrite Hj3, <-Hn2. apply lookup_insert_eq. - done. - done. }
  destruct (promote_clean r cancelled (jc_first c3) id "postgres-only" t3 _ Hr Hrun3) as (u & Hp & [m Hm] & Hres); [done|].
  exists t1, t2, t3, run. do 3 eexists. split; [exact E1|]. split; [exact Hl1|]. split.
  { rewrite (process_sync r cancelled c1 _ id) by done. unfold run_phase. by rewrite E2. }
  split; [exact Hl2|]. split.
  { rewrite (process_compute r cancelled c2 _ id "postgres-only") by done. unfold run_phase. by rewrite E3. }
  split; [exact Hl3|]. rewrite (process_promote r cancelled c3 j3 id "postgres-only") by (done || by rewrite Hp3).
  unfold run_phase. destruct (executePromoteRun r cancelled (jc_first c3) id "postgres-only" (mkDb t3 [])) as [s4 [[]|e]]; [|done]. cbn [fst snd] in *.
  destruct Hp as [(run4 & _ & _ & Hrun4) Hsc Hsy _ _ _ _]. split; [done|]. rewrite Hm. split; [|split; [|]].
  - change (trust_runs (graph (set_graph (set_stats m) u))) with (trust_runs (graph u)). by rewrite Hrun4.
  - change (trust_scores_global (graph (set_graph (set_stats m) u))) with (trust_scores_global (graph u)). rewrite Hsc, Hstage.
    assert (ranking_of r t2 = ranking_of r t) as ->; [|reflexivity].
    unfold ranking_of, teleport_of, follow_graph_of, active_pubkeys, active_seeds. by rewrite He2, He1, Hs2, Hs1.
  - exact Hsy.
Qed.
End run.

(** * Examples *)

Section concrete.
#[local] Existing Instance list_range.
#[local] Existing Instance insertion_sort.
#[local] Existing Instance elements_rows.
#[local] Existing Instance one_scan.
#[local] Instance no_log : NaturalLog := λ x, x.
#[local] Instance list_weights : WeightRows := {| weight_rows := map_to_list; weight_perm := λ m, Permutation_refl _ |}.
#[local] Instance no_deadlock : DeadlockCode := λ _, false.

Definition postgres_runtime : Runtime := NewRuntime false true.
Definition redis_runtime : Runtime := NewRuntimeWithRedis true "" true true.

Definition clock_at (n : Z) : JobClock := mkClock n (n + 1) (n + 2) "now" n.

(** One delivery of job [n], at the time [at'], with these failing calls. *)
Definition deliver (r : Runtime) (n at' : Z) (fs : list (option error)) (t : TrustTables) : TrustTables :=
  match jobs (run_jobs t) !! n with
  | Some job => tables (ProcessJob r (λ _, None) (clock_at at') job (mkDb t fs)).1
  | None => t
  end.

Definition triggered (now : Z) (t : TrustTables) : TrustTables := tables (TriggerGlobalRun now (mkDb t [])).1.

Definition status_of (runID : Z) (t : TrustTables) : option RunStatus := Status <$> trust_runs (graph t) !! runID.

Definition published_ranks (t : TrustTables) : gmap string (Z * Z) := (λ row, (sc_rank row, sc_run row)) <$> trust_scores_global (graph t).

Abbreviation computed_toy := (deliver postgres_runtime 2 30 [] (deliver postgres_runtime 1 20 [] (triggered 10 toy_trust))) (only parsing).

Lemma run_payload_round_trip_witness :
  decode_run (run_payload 7 "sync-9") = Some (7, "sync-9") ∧ decode_run_id (sync_payload 7) = Some 7.
Proof. apply (run_payload_round_trip 7 "sync-9"); [done|by apply plain_check]. Defined.

Lemma deliver_steps r n at' fs t0 t : rtc trust_step t0 t → rtc trust_step t0 (deliver r n at' fs t).
Proof.
  intros Ht. unfold deliver. destruct (jobs (run_jobs t) !! n) as [job|]; [|done]. eapply rtc_r; [exact Ht|]. apply step_process.
Qed.

Abbreviation promoted_toy := (deliver postgres_runtime 3 40 [] computed_toy) (only parsing).

Lemma published_ranking_whole_witness :
  map_to_list (published_ranks promoted_toy) ≡ₚ [("c", (1, 1)); ("b", (2, 1)); ("a", (3, 1))] ∧
  ((∃ runID now ranked, NoDup (map Pubkey ranked) ∧ trust_scores_global (graph promoted_toy) = publish_score runID <$> ranking_map now ranked)
  ∧ ∀ runID, ∃ now ranked, NoDup (map Pubkey ranked) ∧ staged runID promoted_toy = ranking_map now ranked).
Proof.
  split.
  - vm_compute. solve_Permutation.
  - apply (published_ranking_whole toy_trust promoted_toy); [done|]. do 3 apply deliver_steps. apply rtc_once, step_trigger.
Defined.

Lemma run_publishes_ranking_witness :
  let r := postgres_runtime in
  let n := next_job (run_jobs toy_trust) in
  ∃ t1 t2 t3 run j1 j2 j3,
    TriggerGlobalRun 10 (mkDb toy_trust []) = (mkDb t1 [], Ok run) ∧ jobs (run_jobs t1) !! n = Some j1
    ∧ ProcessJob r (λ _, None) (clock_at 20) j1 (mkDb t1 []) = (mkDb t2 [], Ok tt) ∧ jobs (run_jobs t2) !! (n + 1) = Some j2
    ∧ ProcessJob r (λ _, None) (clock_at 30) j2 (mkDb t2 []) = (mkDb t3 [], Ok tt) ∧ jobs (run_jobs t3) !! (n + 1 + 1) = Some j3
    ∧ let '(s4, res) := ProcessJob r (λ _, None) (clock_at 40) j3 (mkDb t3 []) in
      let g := graph (tables s4) in
      res = Ok tt ∧ (Status <$> trust_runs g !! next_run toy_trust) = Some RunSucceeded
      ∧ trust_scores_global g = publish_score (next_run toy_trust) <$> ranking_map 31 (ranking_of r toy_trust)
      ∧ synced g.
Proof.
  apply (run_publishes_ranking postgres_runtime (λ _, None) 10 (clock_at 20) (clock_at 30) (clock_at 40) toy_trust); [done..|].
  unfold postgres_keys. repeat constructor; by vm_compute.
Defined.

(** ** Redelivery *)

(** A job may be delivered again after its transaction has committed (its worker
    died before completing it). The handler then enqueues the next job under a
    key that is taken: the run fails and its stage is deleted, so the promote
    job that is already queued is skipped. *)
Theorem redelivered_compute_fails :
  let t := deliver postgres_runtime 2 50 [] computed_toy in
  status_of 1 computed_toy = Some RunRunning ∧ status_of 1 t = Some RunFailed
  ∧ published_ranks (deliver postgres_runtime 3 60 [] t) = ∅ ∧ published_ranks promoted_toy ≠ ∅.
Proof. by vm_compute. Qed.

(** [markRunFailed] does not look at the status: a delivery of the promote job
    of a succeeded run whose [Begin] fails turns the run into a failed one. *)
Theorem succeeded_run_fails :
  let t := deliver postgres_runtime 3 50 [Some "connection refused"] promoted_toy in
  status_of 1 promoted_toy = Some RunSucceeded ∧ status_of 1 t = Some RunFailed ∧ published_ranks t = published_ranks promoted_toy.
Proof. by vm_compute. Qed.

(** A sync that fails makes its run fail, yet its job is tried again. When the
    next run has begun by then, the second attempt, whose own run is over, has
    already reaped that run's keys: the compute job finds no node, and an empty
    ranking is published. *)
Theorem retried_sync_empties_scores :
  let failed := deliver redis_runtime 4 20 [Some "connection refused"] (triggered 10 promoted_toy) in
  let started := tables (schedule_tick 30 (mkDb failed [])).1 in
  let synced := deliver redis_runtime 5 40 [] started in
  let finish t := deliver redis_runtime 7 80 [] (deliver redis_runtime 6 70 [] t) in
  status_of 2 failed = Some RunFailed ∧ status_of 3 synced = Some RunRunning
  ∧ size (published_ranks (finish synced)) = 3%nat
  ∧ (let t := finish (deliver redis_runtime 4 60 [] synced) in status_of 3 t = Some RunSucceeded ∧ published_ranks t = ∅).
Proof. by vm_compute. Qed.

(** A trust job whose workers are lost three times is dead, but nothing ends its
    run: it stays pending, and the scheduler never starts another. *)
Definition lost (at' : Z) (t : TrustTables) : TrustTables :=
  let jt := tables (ClaimAvailableForPool at' ∅ "w" WorkerPoolTrust 1 (mkDb (run_jobs t) [])).1 in
  set_run_jobs (tables (RecoverStaleRunningJobs (at' + 10) ∅ WorkerPoolTrust (at' + 5) 10 (mkDb jt [])).1) t.

Theorem dead_job_blocks_scheduler now :
  let t := lost 60 (lost 40 (lost 20 (triggered 10 toy_trust))) in
  JStatus <$> jobs (run_jobs t) !! 1 = Some StatusDead ∧ status_of 1 t = Some RunPending
  ∧ (schedule_tick now (mkDb t [])).2 = Ok None.
Proof. by vm_compute. Qed.

(** ** The ranking cache *)

(** The rows are cached after the cut to the caller's limit, under a key without
    it: a later caller that asks for more gets no more than those. *)
Theorem cached_ranking_short :
  let ranker := WithRedis true "" (NewPersonalizedRanker 0) in
  let s := mkDb (mkPersonalTables promoted_toy ∅) [] in
  let '(s1, r1) := GetRanking ranker "a" 1 s in
  let '(_, r2) := GetRanking ranker "a" 3 s1 in
  let '(_, r3) := GetRanking ranker "a" 3 s in
  let count (r : result (list PersonalizedScore)) := match r with Ok l => length l | Err _ => O end in
  count r1 = 1%nat ∧ count r2 = 1%nat ∧ count r3 = 3%nat.
Proof. by vm_compute. Qed.
End concrete.
