(* ===== verification/Worker.v ===== *)
(** The worker's claim loop, [cmd/worker/job_runner.go], over the job queue.

    The loop claims a batch, hands its jobs to a buffered channel and starts
    over; [concurrency] goroutines take jobs from the channel, run the handler
    and settle the job. The loop and the goroutines are a state machine whose
    events any scheduler may order: a claim, a send, a receive, the end of a
    job, the cancellation of the context and its observation by the loop. An
    event that is not enabled does nothing. *)

From S2P Require Import Prelude GoLib Db JobQueue.
Local Open Scope go_scope.

(** * Goroutines *)

(** What a handler does: return, return an error, or panic. *)
Inductive handler_outcome :=
  | HandlerOk
  | HandlerErr (e : error)
  | HandlerPanic (value : string).

(** [runJobWithRecovery] and [failure.FromPanic]. *)
Definition runJobWithRecovery (o : handler_outcome) : result unit :=
  match o with
  | HandlerOk => Ok tt
  | HandlerErr e => Err e
  | HandlerPanic v => Err ("panic: " +:+ v)
  end.

(** The body of a worker goroutine for one job; settling errors are logged. *)
Definition execute_job (now wall : time) (jitter : Z → Z) (retryDelay : Z) (workerID : string)
    (o : handler_outcome) (job : Job) (s : db JobTables) : db JobTables :=
  match runJobWithRecovery o with
  | Ok _ => (CompleteJob now (JobID job) workerID s).1
  | Err e =>
      let backoff := RetryDelay jitter (Z.to_nat (Attempts job)) retryDelay DefaultMaxRetryDelay in
      (FailJob now wall (JobID job) workerID e backoff s).1
  end.

(** * The loop *)

Record worker := mkWorker {
  q_db : db JobTables;
  batch : list Job;
  chan : list Job;
  busy : list Job;
  ctx_done : bool;
  looping : bool;
}.

Inductive event :=
  | EvClaim (now : time) (held : gset Z)
  | EvSend
  | EvReceive
  | EvFinish (i : nat) (now wall : time) (jitter : Z → Z) (o : handler_outcome)
  | EvCancel
  | EvStop.

Section claim_loop.
Context (workerID workerPool : string) (batchSize retryDelay : Z) (concurrency : nat).

Definition workers : nat := if (Nat.eqb concurrency 0) then 1 else concurrency.

Definition capacity : nat := (Z.to_nat batchSize * workers)%nat.

Definition start_worker (s : db JobTables) : worker := mkWorker s [] [] [] false true.

(** The result tells whether a job moved. *)
Definition worker_step (ev : event) (w : worker) : worker * bool :=
  match ev with
  | EvClaim now held =>
      if looping w && negb (ctx_done w) && bool_decide (batch w = []) then
        match ClaimAvailableForPool now held workerID workerPool batchSize (q_db w) with
        | (s, Ok js) => (mkWorker s js (chan w) (busy w) (ctx_done w) (looping w), negb (bool_decide (js = [])))
        | (s, Err _) => (mkWorker s (batch w) (chan w) (busy w) (ctx_done w) (looping w), false)
        end
      else (w, false)
  | EvSend =>
      match batch w with
      | j :: rest =>
          if looping w && (Nat.ltb (length (chan w)) capacity) then
            (mkWorker (q_db w) rest (chan w ++ [j]) (busy w) (ctx_done w) (looping w), true)
          else (w, false)
      | [] => (w, false)
      end
  | EvReceive =>
      match chan w with
      | j :: rest =>
          if Nat.ltb (length (busy w)) workers then
            (mkWorker (q_db w) (batch w) rest (busy w ++ [j]) (ctx_done w) (looping w), true)
          else (w, false)
      | [] => (w, false)
      end
  | EvFinish i now wall jitter o =>
      match busy w !! i with
      | Some j =>
          (mkWorker (execute_job now wall jitter retryDelay workerID o j (q_db w))
             (batch w) (chan w) (delete i (busy w)) (ctx_done w) (looping w), true)
      | None => (w, false)
      end
  | EvCancel => (mkWorker (q_db w) (batch w) (chan w) (busy w) true (looping w), false)
  | EvStop =>
      if looping w && ctx_done w then
        (mkWorker (q_db w) [] (chan w) (busy w) (ctx_done w) false, negb (bool_decide (batch w = [])))
      else (w, false)
  end.

Fixpoint worker_run (evs : list event) (w : worker) : worker * nat :=
  match evs with
  | [] => (w, 0%nat)
  | ev :: evs =>
      let '(w1, fired) := worker_step ev w in
      let '(w2, n) := worker_run evs w1 in
      (w2, (if fired then 1 else 0) + n)%nat
  end.
End claim_loop.

(** * Settling *)

Lemma owned_running w j : owned w j = true → JStatus j = StatusRunning ∧ LockedBy j = Some w.
Proof. unfold owned. intros Ho. by bool_simpl. Qed.

Lemma Complete_cases now id w s :
  tables (CompleteJob now id w s).1 = tables s ∨
  ∃ j, jobs (tables s) !! id = Some j ∧ owned (trim_space w) j = true ∧
       tables (CompleteJob now id w s).1 = update_jobs (succeeded now) [j] (tables s).
Proof.
  unfold CompleteJob. case_bool_decide; [by left|]. unfold go_bind.
  match goal with |- context [go_wrap ?p ?m s] =>
    pose proof (wrap_fst p m s) as Hw; destruct (go_wrap p m s) as [s1 r] end. simpl in Hw.
  assert (∀ (n : Z), tables ((if n =? 0 then go_fail ErrJobNotOwned else go_ret tt : go (db JobTables) unit) s1).1 = tables s1) as Hn
    by (intros n; by destruct (n =? 0)).
  assert (tables s1 = tables s ∨ ∃ j, jobs (tables s) !! id = Some j ∧ owned (trim_space w) j = true ∧
    tables s1 = update_jobs (succeeded now) [j] (tables s)) as Hc.
  { rewrite Hw. match goal with |- context [stmt ?f s] => destruct (stmt_cases f s) as [->|[a E]]; [by left|] end.
    set (t' := tables (fst _)) in *. clearbody t'. cbv beta in E.
    destruct (jobs (tables s) !! id) as [j|] eqn:Ej; [|injection E as <- _; by left].
    destruct (owned _ j) eqn:Eo; injection E as <- _; [right; by exists j|by left]. }
  destruct r as [n|e]; [|done]. by rewrite Hn.
Qed.

Lemma Fail_cases now wall id w err ra s :
  tables (FailJob now wall id w err ra s).1 = tables s ∨
  ∃ j msg delay, jobs (tables s) !! id = Some j ∧ owned (trim_space w) j = true ∧
    tables (FailJob now wall id w err ra s).1 = update_jobs (failed now wall msg delay) [j] (tables s).
Proof.
  unfold FailJob. case_bool_decide; [by left|].
  match goal with |- context [tx ?b ?c ?m s] =>
    destruct (tx_cases b c m s) as [[-> _]|(s1 & a & H1 & H2 & _ & ->)]; [by left|];
    destruct (m s1) as [s2 r2] eqn:E end. simpl in H2. subst r2. simpl.
  go_inv. destruct (jobs (tables s1) !! id) as [j|] eqn:Ej; subst; [|by go_inv].
  destruct (owned _ j) eqn:Eo; [|by go_inv]. go_inv. right. rewrite H1 in *.
  match goal with Ht : tables s2 = update_jobs _ _ (tables ?x), Hx : tables ?x = tables s |- _ => rewrite Hx in Ht end.
  do 3 eexists. split; [done|]. split; [done|]. eassumption.
Qed.

(** A settled row: done, or pending again with one attempt less. *)
Record settles (j j' : Job) : Prop := {
  se_id : JobID j' = JobID j;
  se_pool : WorkerPool j' = WorkerPool j;
  se_running : JStatus j' ≠ StatusRunning;
  se_left : claims_left (Some j') ≤ claims_left (Some j);
}.

Lemma succeeded_settles now id j : job_ok id j → JStatus j = StatusRunning → settles j (succeeded now j).
Proof.
  intros Hok Hr. split; try done. by apply (claims_left_nonneg id).
Qed.

Lemma failed_settles now wall msg ra id j :
  job_ok id j → JStatus j = StatusRunning → settles j (failed now wall msg ra j).
Proof.
  intros Hok Hr. split; try done.
  - simpl. by destruct (_ <=? _).
  - pose proof (claims_left_nonneg id j Hok) as Hn. revert Hn. unfold claims_left. simpl. rewrite Hr.
    destruct (_ <=? _); simpl; lia.
Qed.

Lemma execute_cases now wall jitter rd w o job s :
  tables_ok (tables s) →
  let s' := execute_job now wall jitter rd w o job s in
  tables s' = tables s ∨
  ∃ j f, jobs (tables s) !! JobID job = Some j ∧ owned (trim_space w) j = true ∧ settles j (f j) ∧
         tables s' = update_jobs f [j] (tables s).
Proof.
  intros Hok. cbv zeta. unfold execute_job. destruct (runJobWithRecovery o) as [u|e].
  - destruct (Complete_cases now (JobID job) w s) as [->|(j & Hj & Ho & ->)]; [by left|right].
    exists j, (succeeded now). split_and!; try done.
    apply (succeeded_settles _ (JobID job)); [by apply (to_jobs _ Hok)|by apply (owned_running _ _ Ho)].
  - match goal with |- context [FailJob now wall _ w e ?ra s] =>
      destruct (Fail_cases now wall (JobID job) w e ra s) as [->|(j & msg & d & Hj & Ho & ->)]; [by left|right] end.
    exists j, (failed now wall msg d). split_and!; try done.
    apply (failed_settles _ _ _ _ (JobID job)); [by apply (to_jobs _ Hok)|by apply (owned_running _ _ Ho)].
Qed.

(** Without failing calls a leased job is settled. *)
Lemma execute_clean now wall jitter rd w o job t :
  tables_ok t → trim_space w ≠ "" → jobs t !! JobID job = Some job → owned (trim_space w) job = true →
  ∃ f, settles job (f job) ∧
       execute_job now wall jitter rd w o job (mkDb t []) = mkDb (update_jobs f [job] t) [].
Proof.
  intros Hok Hw Hj Ho. pose proof (to_jobs _ Hok _ _ Hj) as [Hjo _]. destruct (owned_running _ _ Ho) as [Hr _].
  unfold execute_job. destruct (runJobWithRecovery o) as [u|e].
  - destruct (settle_clean now wall (JobID job) w "" 0 t Hw) as [E _].
    unfold lease in E. rewrite Hj, Ho in E. rewrite E.
    exists (succeeded now). split; [by eapply succeeded_settles|done].
  - match goal with |- context [FailJob now wall _ w e ?ra _] =>
      destruct (settle_clean now wall (JobID job) w e ra t Hw) as (_ & msg & d & _ & E) end.
    unfold lease in E. rewrite Hj, Ho in E. rewrite E.
    exists (failed now wall msg d). split; [by eapply failed_settles|done].
Qed.

(** * Work left *)

Fixpoint sumZ (f : Z → Z) (l : list Z) : Z :=
  match l with [] => 0 | x :: l => f x + sumZ f l end.

Lemma sumZ_le f g l : (∀ x, x ∈ l → f x ≤ g x) → sumZ f l ≤ sumZ g l.
Proof.
  induction l as [|x l IH]; intros Hle; simpl; [done|].
  specialize (IH ltac:(set_solver)). specialize (Hle x ltac:(set_solver)). lia.
Qed.

Lemma sumZ_add f g l : sumZ (λ x, f x + g x) l = sumZ f l + sumZ g l.
Proof. induction l as [|x l IH]; simpl; [done|]. rewrite IH. lia. Qed.

Lemma sumZ_indicator x l : NoDup l → x ∈ l → sumZ (λ y, if y =? x then 1 else 0) l = 1.
Proof.
  intros Hnd. induction Hnd as [|y l Hn Hnd IH]; intros Hin; [set_solver|]. simpl.
  destruct (y =? x) eqn:E; bool_simpl.
  - subst y. assert (sumZ (λ y, if y =? x then 1 else 0) l = 0) as ->; [|done].
    clear -Hn. induction l as [|z l IH]; simpl; [done|]. rewrite IH by set_solver.
    by rewrite (proj2 (Z.eqb_neq z x)) by set_solver.
  - rewrite IH by set_solver. done.
Qed.

Lemma sumZ_count ids l : NoDup l → (∀ x, x ∈ ids → x ∈ l) → sumZ (λ id, count_id id ids) l = Z.of_nat (length ids).
Proof.
  intros Hnd. induction ids as [|x ids IH]; intros Hsub.
  { clear. induction l as [|y l IH]; simpl; [done|]. rewrite IH. done. }
  assert (∀ id, count_id id (x :: ids) = (if id =? x then 1 else 0) + count_id id ids) as Hc.
  { intros id. unfold count_id. cbn [List.filter]. destruct (id =? x); cbn [length]; lia. }
  assert (sumZ (λ id, count_id id (x :: ids)) l = sumZ (λ id, (if id =? x then 1 else 0) + count_id id ids) l) as ->.
  { clear -Hc. induction l as [|y l IH]; simpl; [done|]. by rewrite Hc, IH. }
  rewrite sumZ_add, sumZ_indicator, IH by set_solver. cbn [length]. lia.
Qed.

Definition inflight (w : worker) : list Job := batch w ++ chan w ++ busy w.

Abbreviation wtables w := (tables (q_db w)).

(** Claims the rows [ids] may still receive, and the moves of the jobs at hand. *)
Definition work_left (ids : list Z) (w : worker) : Z :=
  4 * sumZ (λ id, claims_left (jobs (wtables w) !! id)) ids
  + 3 * Z.of_nat (length (batch w)) + 2 * Z.of_nat (length (chan w)) + Z.of_nat (length (busy w)).

Section claim_loop_facts.
Context (workerID workerPool : string) (batchSize retryDelay : Z) (concurrency : nat).

Abbreviation stepw := (worker_step workerID workerPool batchSize retryDelay concurrency).
Abbreviation runw := (worker_run workerID workerPool batchSize retryDelay concurrency).

(** The jobs at hand are distinct rows, as stored, under the worker's lease. *)
Record worker_inv (ids : list Z) (w : worker) : Prop := {
  wi_ok : tables_ok (wtables w);
  wi_ids : ∀ id, is_Some (jobs (wtables w) !! id) ↔ id ∈ ids;
  wi_nodup : NoDup (map JobID (inflight w));
  wi_leased : ∀ j, j ∈ inflight w →
    jobs (wtables w) !! JobID j = Some j ∧ owned (trim_space workerID) j = true ∧
    WorkerPool j = trim_space workerPool;
}.

(** Jobs move between the loop, the channel and the goroutines. *)
Lemma worker_inv_move ids w w' :
  worker_inv ids w → q_db w' = q_db w → inflight w' ≡ₚ inflight w → worker_inv ids w'.
Proof.
  intros [Ho Hi Hn Hl] Ed Hp. split; rewrite ?Ed; try done.
  - by rewrite Hp.
  - intros j Hj. rewrite Hp in Hj. by apply Hl.
Qed.

Lemma sublist_map {A B} (f : A → B) l k : sublist l k → sublist (map f l) (map f k).
Proof. induction 1; simpl; by constructor. Qed.

Lemma worker_inv_drop ids w w' :
  worker_inv ids w → q_db w' = q_db w → sublist (inflight w') (inflight w) → worker_inv ids w'.
Proof.
  intros [Ho Hi Hn Hl] Ed Hp. split; rewrite ?Ed; try done.
  - eapply sublist_NoDup; [exact Hn|]. by apply sublist_map.
  - intros j Hj. apply Hl. by eapply elem_of_sublist.
Qed.

Lemma update_dom f rows t id :
  (∀ j, j ∈ rows → jobs t !! JobID j = Some j) →
  is_Some (jobs (update_jobs f rows t) !! id) ↔ is_Some (jobs t !! id).
Proof.
  intros Hr. rewrite update_jobs_lookup by done. case_bool_decide; [|done]. by rewrite fmap_is_Some.
Qed.

Lemma claim_inv ids now held w s' js :
  NoDup ids → worker_inv ids w → batch w = [] →
  ClaimAvailableForPool now held workerID workerPool batchSize (q_db w) = (s', Ok js) →
  let w' := mkWorker s' js (chan w) (busy w) (ctx_done w) (looping w) in
  worker_inv ids w' ∧ work_left ids w' + Z.of_nat (length js) ≤ work_left ids w.
Proof.
  intros Hnd Hi Hb Hc. pose proof Hi as [Ho Hids Hn Hl].
  pose proof (Claim_cases now held workerID workerPool batchSize (q_db w) Ho) as Hcase.
  pose proof (Claim_step now held workerID workerPool batchSize (q_db w) Ho) as Hst.
  pose proof (λ id, op_spends (OpClaim now held workerID workerPool batchSize) (q_db w) id Ho) as Hsp.
  simpl in Hsp. rewrite Hc in Hcase, Hst, Hsp.
  destruct Hcase as [[_ [=]]|(rows & [= ->] & Ht & Hrn & Hrows)].
  assert (∀ j, j ∈ rows → jobs (wtables w) !! JobID j = Some j) as Hr by (intros j Hj; by apply Hrows).
  assert (map JobID (map (claimed now (trim_space workerID)) rows) = map JobID rows) as Eid by (by rewrite map_map).
  assert (∀ j j', j ∈ rows → j' ∈ chan w ++ busy w → JobID j ≠ JobID j') as Hdis.
  { intros j j' Hj Hj' E. destruct (Hrows j Hj) as (H1 & H2 & _).
    destruct (Hl j') as (H3 & H4 & _); [unfold inflight; set_solver|].
    apply owned_running in H4 as [H4 _]. congruence. }
  cbv zeta. split; [split|].
  - by eapply tables_step_ok.
  - intros id. simpl. rewrite Ht, update_dom by done. apply Hids.
  - unfold inflight in *. rewrite Hb in Hn. simpl in *. rewrite map_app, Eid. apply list.NoDup_app. split_and!; [done| |done].
    intros x Hx Hx'. apply list_elem_of_In, in_map_iff in Hx as (j & <- & Hj).
    apply list_elem_of_In, in_map_iff in Hx' as (j' & E & Hj'). symmetry in E.
    apply list_elem_of_In in Hj, Hj'. by apply (Hdis j j').
  - intros j Hj. unfold inflight in Hj. simpl in *. rewrite Ht, update_jobs_lookup by done.
    apply elem_of_app in Hj as [Hj|Hj].
    + apply list_elem_of_In, in_map_iff in Hj as (j0 & <- & Hj0). simpl.
      rewrite bool_decide_eq_true_2 by (apply list_elem_of_In; by apply in_map). apply list_elem_of_In in Hj0.
      destruct (Hrows j0 Hj0) as (H1 & H2 & _ & H4 & _). rewrite H1. split; [done|]. split; [|done].
      unfold owned. simpl. by rewrite !bool_decide_eq_true_2.
    + destruct (Hl j) as (H1 & H2 & H3); [unfold inflight; set_solver|].
      rewrite bool_decide_eq_false_2; [done|]. intros Hin.
      apply list_elem_of_In, in_map_iff in Hin as (j' & E & Hj'). apply list_elem_of_In in Hj'.
      by apply (Hdis j' j).
  - unfold work_left. simpl. rewrite Hb. simpl.
    assert (sumZ (λ id, count_id id (map JobID rows)) ids + sumZ (λ id, claims_left (jobs (tables s') !! id)) ids
            ≤ sumZ (λ id, claims_left (jobs (wtables w) !! id)) ids) as Hsum.
    { rewrite <-sumZ_add. apply sumZ_le. intros id Hid. rewrite <-Eid. apply Hsp.
      apply Hids in Hid as [j Hj]. by apply (to_jobs _ Ho _ _ Hj). }
    rewrite sumZ_count in Hsum.
    2:{ done. }
    2:{ intros x Hx. apply list_elem_of_In, in_map_iff in Hx as (j & <- & Hj). apply Hids.
        exists j. by apply Hr, list_elem_of_In. }
    rewrite !length_map in *. lia.
Qed.

(** A settled row that is no longer at hand. *)
Lemma settled_inv ids w w' j f :
  worker_inv ids w → jobs (wtables w) !! JobID j = Some j → (∀ x, x ∈ inflight w → JobID x ≠ JobID j) →
  tables_ok (wtables w') → wtables w' = update_jobs f [j] (wtables w) → inflight w' = inflight w →
  worker_inv ids w'.
Proof.
  intros [Ho Hids Hn Hl] Hj Hdis Hok Et Ei.
  assert (∀ r, r ∈ [j] → jobs (wtables w) !! JobID r = Some r) as Hr by (intros r ->%list_elem_of_singleton; done).
  split; [done| |by rewrite Ei|].
  - intros id. rewrite Et, update_dom by done. apply Hids.
  - intros x Hx. rewrite Ei in Hx. pose proof (Hdis x Hx) as Hne. rewrite Et, update_jobs_lookup by done.
    rewrite bool_decide_eq_false_2 by (simpl; set_solver). by apply Hl.
Qed.

Lemma settled_left ids t t' j f :
  jobs t !! JobID j = Some j → settles j (f j) → t' = update_jobs f [j] t →
  sumZ (λ id, claims_left (jobs t' !! id)) ids ≤ sumZ (λ id, claims_left (jobs t !! id)) ids.
Proof.
  intros Hj [_ _ _ S4] ->. apply sumZ_le. intros id _. rewrite update_jobs_lookup.
  2:{ by intros r ->%list_elem_of_singleton. }
  case_bool_decide as Hin; [|done]. simpl in Hin. apply list_elem_of_singleton in Hin as ->. by rewrite Hj.
Qed.

Lemma execute_ok now wall jitter o j s :
  tables_ok (tables s) → tables_ok (tables (execute_job now wall jitter retryDelay workerID o j s)).
Proof.
  intros Hok. unfold execute_job. destruct (runJobWithRecovery o); (eapply tables_step_ok; [exact Hok|]).
  - by apply Complete_step.
  - by apply Fail_step.
Qed.

(** Taking job [i] from its goroutine. *)
Definition without (i : nat) (w : worker) : worker :=
  mkWorker (q_db w) (batch w) (chan w) (delete i (busy w)) (ctx_done w) (looping w).

Lemma without_inv ids i w j :
  worker_inv ids w → busy w !! i = Some j →
  worker_inv ids (without i w) ∧ j ∈ inflight w ∧ (∀ x, x ∈ inflight (without i w) → JobID x ≠ JobID j) ∧
  work_left ids (without i w) + 1 = work_left ids w ∧ inflight w ≡ₚ j :: inflight (without i w).
Proof.
  intros Hi Hb. assert (inflight w ≡ₚ j :: inflight (without i w)) as Hp.
  { unfold inflight, without. simpl. rewrite (delete_Permutation _ _ _ Hb) at 1.
    by rewrite !app_assoc, <-Permutation_middle. }
  split_and!; [| | | |done].
  - eapply worker_inv_drop; [exact Hi|done|]. unfold inflight, without. simpl.
    do 2 (apply sublist_app; [done|]). apply sublist_delete.
  - rewrite Hp. set_solver.
  - intros x Hx E. pose proof (wi_nodup _ _ Hi) as Hn. rewrite Hp in Hn. simpl in Hn.
    inversion Hn as [|? ? Hni _]; subst. apply Hni. rewrite <-E.
    apply list_elem_of_In, in_map. by apply list_elem_of_In.
  - unfold work_left, without. simpl. rewrite length_delete by (by eexists). apply lookup_lt_Some in Hb. lia.
Qed.

Lemma finish_inv ids i now wall jitter o w j :
  worker_inv ids w → busy w !! i = Some j →
  let w' := mkWorker (execute_job now wall jitter retryDelay workerID o j (q_db w))
              (batch w) (chan w) (delete i (busy w)) (ctx_done w) (looping w) in
  worker_inv ids w' ∧ work_left ids w' + 1 ≤ work_left ids w.
Proof.
  intros Hi Hb. destruct (without_inv ids i w j Hi Hb) as (Hi1 & Hin & Hdis & Hwl & _). cbv zeta.
  pose proof (wi_ok _ _ Hi) as Ho. destruct (wi_leased _ _ Hi j Hin) as (Hj & _).
  destruct (execute_cases now wall jitter retryDelay workerID o j (q_db w) Ho) as [Et|(j0 & f & Hj0 & _ & Hs & Et)].
  - split.
    + destruct Hi1 as [Ho1 Hids1 Hn1 Hl1]. split; simpl; rewrite ?Et; done.
    + rewrite <-Hwl. unfold work_left, without. simpl. rewrite Et. lia.
  - rewrite Hj in Hj0. injection Hj0 as <-. split.
    + eapply (settled_inv ids (without i w) _ j f); try done. simpl. by apply execute_ok.
    + rewrite <-Hwl. unfold work_left. simpl.
      pose proof (settled_left ids _ _ j f Hj Hs Et) as Hsum. lia.
Qed.

Lemma Claim_err now held s s' e :
  tables_ok (tables s) → ClaimAvailableForPool now held workerID workerPool batchSize s = (s', Err e) → tables s' = tables s.
Proof.
  intros Hok Hc. pose proof (Claim_cases now held workerID workerPool batchSize s Hok) as H. rewrite Hc in H.
  by destruct H as [[? _]|(? & [=] & _)].
Qed.

Lemma stepw_inv ids ev w :
  NoDup ids → worker_inv ids w →
  let '(w', fired) := stepw ev w in
  worker_inv ids w' ∧ work_left ids w' + (if fired then 1 else 0) ≤ work_left ids w.
Proof.
  intros Hnd Hi. assert (worker_inv ids w ∧ work_left ids w + 0 ≤ work_left ids w) as Hid by (split; [done|lia]).
  destruct ev as [now held| | |i now wall jitter o| |]; simpl.
  - destruct (_ && _) eqn:Ec; [|done]. bool_simpl.
    destruct (ClaimAvailableForPool now held workerID workerPool batchSize (q_db w)) as [s' [js|e]] eqn:E.
    + destruct (claim_inv ids now held w s' js Hnd Hi ltac:(done) E) as [Hi' Hw]. split; [done|].
      destruct js; simpl in *; lia.
    + apply Claim_err in E; [|apply Hi]. destruct Hi as [Ho Hids Hn Hl]. split; [split; simpl; rewrite ?E; done|].
      unfold work_left. simpl. rewrite E. lia.
  - destruct (batch w) as [|j rest] eqn:Eb; [done|]. destruct (_ && _); [|done]. split.
    + eapply worker_inv_move; [exact Hi|done|]. unfold inflight. simpl. rewrite Eb. simpl.
      rewrite <-(app_assoc (chan w)). simpl. by rewrite <-Permutation_middle, (app_assoc rest), <-Permutation_middle, app_assoc.
    + unfold work_left. simpl. rewrite Eb, length_app. simpl. lia.
  - destruct (chan w) as [|j rest] eqn:Ec; [done|]. destruct (Nat.ltb _ _); [|done]. split.
    + eapply worker_inv_move; [exact Hi|done|]. unfold inflight. simpl. rewrite Ec. simpl.
      apply Permutation_app_head. rewrite app_assoc. by rewrite <-Permutation_cons_append.
    + unfold work_left. simpl. rewrite Ec, length_app. simpl. lia.
  - destruct (busy w !! i) as [j|] eqn:Eb; [|done]. by apply finish_inv.
  - split; [by eapply worker_inv_move|]. unfold work_left. simpl. lia.
  - destruct (_ && _); [|done]. split.
    + eapply worker_inv_drop; [exact Hi|done|]. unfold inflight. simpl. by apply sublist_inserts_l.
    + unfold work_left. simpl. destruct (batch w) eqn:Eb; simpl; lia.
Qed.

Lemma run_inv ids evs w :
  NoDup ids → worker_inv ids w →
  let '(w', n) := runw evs w in
  worker_inv ids w' ∧ work_left ids w' + Z.of_nat n ≤ work_left ids w.
Proof.
  intros Hnd. revert w. induction evs as [|ev evs IH]; intros w Hi; simpl; [split; [done|lia]|].
  pose proof (stepw_inv ids ev w Hnd Hi) as Hs. destruct (stepw ev w) as [w1 fired]. destruct Hs as [Hi1 H1].
  specialize (IH w1 Hi1). destruct (runw evs w1) as [w2 n]. destruct IH as [Hi2 H2]. split; [done|].
  destruct fired; lia.
Qed.


Lemma work_left_nonneg ids w : tables_ok (wtables w) → 0 ≤ work_left ids w.
Proof.
  intros Ho. assert (0 ≤ sumZ (λ id, claims_left (jobs (wtables w) !! id)) ids); [|unfold work_left; lia].
  induction ids as [|id ids IH]; simpl; [done|].
  destruct (jobs (wtables w) !! id) as [j|] eqn:E; [|simpl; lia].
  pose proof (claims_left_nonneg id j (proj1 (to_jobs _ Ho _ _ E))). lia.
Qed.

(** * Progress *)

Hypothesis worker_named : trim_space workerID ≠ "".
Hypothesis pool_named : trim_space workerPool ≠ "".
Hypothesis batch_pos : 0 < batchSize.

Abbreviation pool := (trim_space workerPool).

Lemma Claim_clean now held t :
  let rows := select_jobs (claimable now pool) RunAfter held batchSize t in
  ClaimAvailableForPool now held workerID workerPool batchSize (mkDb t [])
  = (mkDb (update_jobs (claimed now (trim_space workerID)) rows t) [],
     Ok (map (claimed now (trim_space workerID)) rows)).
Proof.
  cbv zeta. unfold ClaimAvailableForPool. rewrite !bool_decide_eq_false_2 by done.
  by rewrite (proj2 (Z.leb_gt batchSize 0)) by done.
Qed.

(** The loop runs, no call fails, and each running job of the pool is at hand. *)
Record live (w : worker) : Prop := {
  lv_loop : looping w = true;
  lv_ctx : ctx_done w = false;
  lv_db : faults (q_db w) = [];
  lv_all : ∀ id j, jobs (wtables w) !! id = Some j → JStatus j = StatusRunning → WorkerPool j = pool →
    id ∈ map JobID (inflight w);
}.

Lemma live_move w w' :
  live w → q_db w' = q_db w → looping w' = true → ctx_done w' = false → inflight w' ≡ₚ inflight w → live w'.
Proof. intros [L1 L2 L3 L4] Ed El Ec Hp. split; rewrite ?Ed; try done. by setoid_rewrite Hp. Qed.

Lemma step_live ids ev w :
  worker_inv ids w → live w → ev ≠ EvCancel → live (stepw ev w).1.
Proof.
  intros Hi Hv Hne. pose proof Hv as [L1 L2 L3 L4]. destruct w as [[t fs] b c d cd lp]. simpl in *. subst.
  destruct ev as [now held| | |i now wall jitter o| |]; try done.
  - unfold worker_step. cbn [looping ctx_done batch chan busy q_db negb andb].
    case_bool_decide as Hb; [|done]. subst b. rewrite Claim_clean. cbv zeta beta iota. cbn [fst].
    set (rows := select_jobs _ _ _ _ _).
    assert (∀ j, j ∈ rows → jobs t !! JobID j = Some j) as Hr.
    { intros j Hj. by apply (select_jobs_sound _ _ _ _ _ _ (wi_ok _ _ Hi)) in Hj as (? & _). }
    split; try done. cbn [tables q_db]. intros id j. rewrite update_jobs_lookup by done. unfold inflight. simpl. rewrite map_app, map_map.
    change (map (λ x, JobID (claimed _ _ x)) rows) with (map JobID rows).
    case_bool_decide as Hin; intros Hj Hs Hp; [by apply elem_of_app; left|apply elem_of_app; right].
    apply (L4 id j Hj Hs Hp).
  - simpl. destruct b as [|j rest]; [done|]. destruct (Nat.ltb _ _); [|done]. cbn [fst].
    eapply live_move; [exact Hv|done..|]. unfold inflight. simpl. rewrite <-(app_assoc c). simpl.
    by rewrite <-Permutation_middle, (app_assoc rest), <-Permutation_middle, app_assoc.
  - simpl. destruct c as [|j rest]; [done|]. destruct (Nat.ltb _ _); [|done]. cbn [fst].
    eapply live_move; [exact Hv|done..|]. unfold inflight. simpl.
    apply Permutation_app_head. rewrite app_assoc. by rewrite <-Permutation_cons_append.
  - simpl. destruct (d !! i) as [j|] eqn:Eb; [|done]. cbn [fst].
    destruct (without_inv ids i _ j Hi Eb) as (_ & Hin & _ & _ & Hperm).
    destruct (wi_leased _ _ Hi j Hin) as (Hj & Ho & _). cbn [tables q_db] in Hj.
    destruct (execute_clean now wall jitter retryDelay workerID o j t (wi_ok _ _ Hi) worker_named Hj Ho) as (f & Hs & ->).
    split; try done. cbn [tables q_db]. intros id x. rewrite update_jobs_lookup by (by intros r ->%list_elem_of_singleton).
    case_bool_decide as Hid; intros Hx Hst Hp.
    + simpl in Hid. apply list_elem_of_singleton in Hid as ->. rewrite Hj in Hx. injection Hx as <-.
      by destruct (se_running _ _ Hs).
    + specialize (L4 id x Hx Hst Hp). rewrite Hperm in L4. simpl in L4, Hid. set_solver.
Qed.

Lemma run_live ids evs w :
  NoDup ids → worker_inv ids w → live w → (EvCancel ∉ evs) → live (runw evs w).1.
Proof.
  intros Hnd. revert w. induction evs as [|ev evs IH]; intros w Hi Hv Hn; simpl; [done|].
  pose proof (stepw_inv ids ev w Hnd Hi) as Hs. pose proof (step_live ids ev w Hi Hv ltac:(set_solver)) as Hv1.
  destruct (stepw ev w) as [w1 fired]. destruct Hs as [Hi1 _]. specialize (IH w1 Hi1 Hv1 ltac:(set_solver)).
  by destruct (runw evs w1).
Qed.

Definition finished (t : JobTables) : Prop :=
  ∀ id j, jobs t !! id = Some j → WorkerPool j = pool → terminal j = true.

(** While a job of the pool is not finished, some job can move. *)
Lemma can_move ids w now id j :
  worker_inv ids w → live w → jobs (wtables w) !! id = Some j → WorkerPool j = pool → terminal j = false →
  (JStatus j = StatusPending → RunAfter j ≤ now) →
  ∃ ev, ev ≠ EvCancel ∧ (stepw ev w).2 = true.
Proof.
  intros Hi [L1 L2 L3 L4] Hj Hp Ht Hdue. destruct w as [[t fs] b c d cd lp]. simpl in *. subst.
  destruct d as [|x d]; [|by exists (EvFinish 0 now now (λ z, z) HandlerOk)].
  destruct c as [|x c].
  2:{ exists EvReceive. split; [done|]. simpl. unfold workers. by destruct concurrency. }
  destruct b as [|x b].
  2:{ exists EvSend. split; [done|]. simpl. unfold capacity, workers.
      assert (0 < Z.to_nat batchSize * (if Nat.eqb concurrency 0 then 1 else concurrency))%nat as Hc
        by (destruct concurrency; simpl; lia).
      by rewrite (proj2 (Nat.ltb_lt _ _) Hc). }
  exists (EvClaim now ∅). split; [done|]. unfold worker_step. cbn [looping ctx_done batch negb andb q_db].
  rewrite bool_decide_eq_true_2 by done. rewrite Claim_clean. cbv zeta beta iota. cbn [snd].
  assert (JStatus j = StatusPending) as Hs.
  { unfold terminal in Ht. destruct (JStatus j) eqn:E; try done. exfalso.
    specialize (L4 id j Hj E Hp). set_solver. }
  pose proof (to_jobs _ (wi_ok _ _ Hi) _ _ Hj) as [Hjo _]. pose proof (jo_id _ _ Hjo) as Hid. subst id.
  destruct (select_jobs_first (claimable now pool) RunAfter ∅ batchSize t j (wi_ok _ _ Hi) Hj) as [Hin|[Hlen _]].
  - unfold claimable. rewrite !bool_decide_eq_true_2 by done. simpl. by apply Z.leb_le, Hdue.
  - set_solver.
  - destruct (select_jobs _ _ _ _ _); [set_solver|done].
  - destruct (select_jobs _ _ _ _ _); [simpl in Hlen; lia|done].
Qed.

(** The moves a table may still cost. *)
Definition work (t : JobTables) : Z :=
  4 * sumZ (λ id, claims_left (jobs t !! id)) (map fst (map_to_list (jobs t))).

Lemma worker_start_inv t :
  tables_ok t → worker_inv (map fst (map_to_list (jobs t))) (start_worker (mkDb t [])).
Proof.
  intros Ho. split; simpl; [done| |constructor|set_solver].
  intros id. split.
  - intros [j Hj]. apply list_elem_of_In, in_map_iff. exists (id, j). split; [done|].
    by apply list_elem_of_In, elem_of_map_to_list.
  - intros Hin. apply list_elem_of_In, in_map_iff in Hin as ([x j] & <- & Hin).
    exists j. by apply list_elem_of_In, elem_of_map_to_list in Hin.
Qed.

(** C19: A worker drains its queue: without failing calls and before shutdown, the
    jobs move at most four times per claim they have left, in whatever order
    claims, sends, receives and job ends are scheduled and whatever the handlers
    do; and while a job of the pool is neither succeeded nor dead, and the pending
    ones are due, some move is possible. So every job ends. *)
Theorem worker_drains (t : JobTables) (evs : list event) (now : time) :
  tables_ok t →
  (∀ id j, jobs t !! id = Some j → WorkerPool j = pool → JStatus j ≠ StatusRunning) →
  EvCancel ∉ evs →
  let '(w, moves) := runw evs (start_worker (mkDb t [])) in
  Z.of_nat moves ≤ work t ∧
  ((∀ id j, jobs (wtables w) !! id = Some j → WorkerPool j = pool → JStatus j = StatusPending → RunAfter j ≤ now) →
   finished (wtables w) ∨ ∃ ev, ev ≠ EvCancel ∧ (stepw ev w).2 = true).
Proof.
  intros Ho Hrun Hn. set (ids := map fst (map_to_list (jobs t))).
  assert (NoDup ids) as Hnd by apply NoDup_fst_map_to_list.
  pose proof (worker_start_inv t Ho) as Hi. fold ids in Hi.
  assert (live (start_worker (mkDb t []))) as Hv.
  { split; try done. intros id j Hj Hs Hp. by destruct (Hrun id j Hj Hp). }
  pose proof (run_inv ids evs _ Hnd Hi) as Hinv. pose proof (run_live ids evs _ Hnd Hi Hv Hn) as Hlive.
  destruct (runw evs (start_worker (mkDb t []))) as [w moves]. destruct Hinv as [Hiw Hw]. simpl in Hlive. split.
  - pose proof (work_left_nonneg ids w (wi_ok _ _ Hiw)). unfold work. fold ids.
    unfold work_left at 2 in Hw. simpl in Hw. lia.
  - intros Hdue.
    destruct (decide (Forall (λ kv : Z * Job, WorkerPool kv.2 = pool → terminal kv.2 = true) (map_to_list (jobs (wtables w)))))
      as [Hall|Hnot].
    + left. intros id j Hj Hp. rewrite List.Forall_forall in Hall.
      apply (Hall (id, j)); [|done]. by apply list_elem_of_In, elem_of_map_to_list.
    + right. apply not_Forall_Exists in Hnot; [|apply _]. apply List.Exists_exists in Hnot as ([id j] & Hin & Hc).
      apply list_elem_of_In, elem_of_map_to_list in Hin. simpl in Hc.
      destruct (decide (WorkerPool j = pool)) as [Hp|]; [|tauto].
      destruct (terminal j) eqn:Et; [tauto|]. eapply can_move; [done|done|exact Hin|done|done|]. by apply (Hdue id).
Qed.
End claim_loop_facts.

(** A queue with two due jobs, one of which always fails. *)
Definition two_jobs : JobTables :=
  mkJobTables
    (list_to_map [(1, mkJob 1 "a" "default" [] None StatusPending 0 2 5 None None None 1 1 None);
                  (2, mkJob 2 "b" "default" [] None StatusPending 0 2 5 None None None 1 1 None)]) 3.

Definition drain_events : list event :=
  [EvClaim 10 ∅; EvSend; EvSend; EvReceive; EvReceive;
   EvFinish 1 11 11 (λ _, 0) (HandlerPanic "boom"); EvFinish 0 12 12 (λ _, 0) HandlerOk;
   EvClaim 1000000000000 ∅; EvSend; EvReceive; EvFinish 0 13 13 (λ _, 0) (HandlerErr "again")].

Example drained :
  let '(w, moves) := worker_run "w" "default" 10 second 2 drain_events (start_worker (mkDb two_jobs [])) in
  (map (λ kv, (kv.1, JStatus kv.2, LastJobError kv.2)) (map_to_list (jobs (tables (q_db w)))), moves)
  = ([(2, StatusDead, Some "again"); (1, StatusSucceeded, None)], 11%nat).
Proof. vm_compute. reflexivity. Qed.

Lemma two_jobs_ok : tables_ok two_jobs.
Proof.
  assert (∀ id j, jobs two_jobs !! id = Some j → (id = 1 ∨ id = 2) ∧ JobID j = id ∧
    j = mkJob id (JobType j) "default" [] None StatusPending 0 2 5 None None None 1 1 None) as Hrow.
  { intros id j Hj. apply elem_of_list_to_map in Hj; [|repeat constructor; set_solver].
    apply elem_of_cons in Hj as [[= -> ->]|Hj]; [by split_and!; [left|..]|].
    apply list_elem_of_singleton in Hj as [= -> ->]. by split_and!; [right|..]. }
  split.
  - intros id j Hj. destruct (Hrow id j Hj) as (Hid & Hjid & ->). split; [|simpl; lia].
    split; simpl; [done|lia|lia|lia|done| |by split; [|intros [? ?]]].
    split; by split; [|intros [? ?]].
  - intros id id' j j' k Hj _ Hk. destruct (Hrow id j Hj) as (_ & _ & E). rewrite E in Hk. done.
Qed.

Lemma worker_drains_witness :
  Z.of_nat (worker_run "w" "default" 10 second 2 drain_events (start_worker (mkDb two_jobs []))).2 ≤ work two_jobs.
Proof.
  pose proof (worker_drains "w" "default" 10 second 2 ltac:(discriminate) ltac:(discriminate) ltac:(reflexivity)
    two_jobs drain_events 0 two_jobs_ok) as H.
  destruct (worker_run "w" "default" 10 second 2 drain_events (start_worker (mkDb two_jobs []))) as [w moves].
  apply H.
  - intros id j Hj _. apply elem_of_list_to_map in Hj; [|repeat constructor; set_solver].
    apply elem_of_cons in Hj as [[= -> ->]|Hj]; [done|]. by apply list_elem_of_singleton in Hj as [= -> ->].
  - unfold drain_events. set_solver.
Defined.
