(* ===== verification/CanonicalStore.v ===== *)
(** The canonical store, [internal/store]: [events_canonical.go] (canonical
    inserts, relay provenance, tag expansion), [events_exist.go] (existence
    checks of the ingest gate), [kind_census.go] (count-only kinds) and
    [events_invalid.go] (quarantine), over the tables of migrations 000002 to
    000005, 000008 and 000121.

    Each table group is a record of its own, and an operation on one group is
    lifted to the whole database with [zoom]. A new canonical event enqueues its
    derivation job in the same transaction, on the tables of [JobQueue]. The
    trigger-maintained column [is_first_seen] of [event_relays] is not modelled. *)


From S2P Require Import Prelude GoLib Db NostrTags JobQueue.
Local Open Scope go_scope.

(** * Rows *)

(** [model.Event]: the canonical row. *)
Record CanonicalEvent := mkCanonical {
  CID : string;
  CPubkey : string;
  CCreatedAt : Z;
  CKind : Z;
  CSig : string;
  CContent : string;
  CRawJSON : list Z;
  CFirstSeenAt : time;
  CInsertedAt : time;
}.

(** [model.EventTag]. *)
Record EventTag := mkTag {
  TEventID : string;
  TagName : string;
  TagIndex : Z;
  ValueIndex : Z;
  TValue : string;
}.

#[export] Instance EventTag_eq_dec : EqDecision EventTag.
Proof. solve_decision. Defined.

(** A row of [event_relays], by event id and relay. A row of
    [replaceable_state], by kind, pubkey and d-tag, is the current event's id
    and timestamp. *)
Record EventRelay := mkSighting {
  RelaySeenAt : time;
  RelayPubkey : string;
}.

(** [model.InvalidEvent]; the payload column is nullable. *)
Record InvalidEvent := mkInvalid {
  SourceRelay : string;
  IErrorCode : string;
  IErrorMessage : string;
  RawPayload : option (list Z);
  ISeenAt : time;
}.

Record EventTables := mkEventTables {
  events : gmap string CanonicalEvent;
  event_tags : gmap (string * Z * Z) (string * string);
  event_relays : gmap (string * string) EventRelay;
  replaceable_state : gmap (Z * string * string) (string * Z);
  job_tables : JobTables;
}.

(** [kind_census_events] (kind, pubkey, created_at, day), [kind_author_daily]
    and [kind_activity_daily] (event count, unique authors). *)
Record CensusTables := mkCensus {
  census_events : gmap string (Z * string * Z * Z);
  census_authors : gset (Z * Z * string);
  census_activity : gmap (Z * Z) (Z * Z);
}.

Record InvalidTables := mkInvalidTables {
  invalid_events : gmap Z InvalidEvent;
  next_invalid : Z;
}.

Record StoreTables := mkStore {
  st_events : EventTables;
  st_census : CensusTables;
  st_invalid : InvalidTables;
}.

Definition set_events_tbl (f : gmap string CanonicalEvent → gmap string CanonicalEvent) (t : EventTables) :=
  mkEventTables (f (events t)) (event_tags t) (event_relays t) (replaceable_state t) (job_tables t).
Definition set_tags (f : gmap (string * Z * Z) (string * string) → gmap (string * Z * Z) (string * string))
    (t : EventTables) :=
  mkEventTables (events t) (f (event_tags t)) (event_relays t) (replaceable_state t) (job_tables t).
Definition set_relays (f : gmap (string * string) EventRelay → gmap (string * string) EventRelay)
    (t : EventTables) :=
  mkEventTables (events t) (event_tags t) (f (event_relays t)) (replaceable_state t) (job_tables t).
Definition set_job_tables (j : JobTables) (t : EventTables) :=
  mkEventTables (events t) (event_tags t) (event_relays t) (replaceable_state t) j.

(** * Canonical inserts *)

(** The inner loop of the expansion, from value index [vi]. *)
Fixpoint expand_values (eventID tagName : string) (tagIndex vi : Z) (values : list string)
    : list EventTag :=
  match values with
  | [] => []
  | v :: values =>
      mkTag eventID tagName tagIndex vi v :: expand_values eventID tagName tagIndex (vi + 1) values
  end.

Fixpoint expand_from (eventID : string) (kind tagIndex : Z) (tags : list (list string))
    : list EventTag :=
  match tags with
  | [] => []
  | tag :: tags =>
      match tag with
      | [] => []
      | tagName :: values =>
          if negb (ShouldPersist kind tagName) then []
          else expand_values eventID tagName tagIndex 0 values
      end ++ expand_from eventID kind (tagIndex + 1) tags
  end.

Definition ExpandEventTags (eventID : string) (kind : Z) (tags : list (list string)) : list EventTag :=
  expand_from eventID kind 0 tags.

(** [NewQueuePublisher(maxAttempts)], and the job it enqueues. *)
Definition NewQueuePublisher (maxAttempts : Z) : Z := if maxAttempts <=? 0 then 5 else maxAttempts.

Definition PublishCanonicalEventJobsTx (maxAttempts : Z) (now : time) (ctx : option string)
    (eventID : string) : go (db JobTables) unit :=
  let eventID := trim_space eventID in
  if bool_decide (eventID = "") then go_fail "event id is required"
  else EnqueueEventJobTx now ctx JobTypeDeriveEventBundle eventID "" maxAttempts.

(** [INSERT INTO events ... ON CONFLICT (id) DO UPDATE SET first_seen_at = LEAST(...)];
    the result tells whether the row is new. *)
Definition upsert_event (e : CanonicalEvent) (t : EventTables) : EventTables * bool :=
  match events t !! CID e with
  | None => (set_events_tbl <[CID e := e]> t, true)
  | Some old =>
      (set_events_tbl <[CID e :=
         mkCanonical (CID old) (CPubkey old) (CCreatedAt old) (CKind old) (CSig old) (CContent old)
           (CRawJSON old) (Z.min (CFirstSeenAt old) (CFirstSeenAt e)) (CInsertedAt old)]> t, false)
  end.

(** [ON CONFLICT (event_id, tag_index, value_index) DO NOTHING]. *)
Definition insert_tag (t : EventTables) (tag : EventTag) : EventTables :=
  let key := (TEventID tag, i32 (TagIndex tag), i32 (ValueIndex tag)) in
  match event_tags t !! key with
  | Some _ => t
  | None => set_tags <[key := (TagName tag, TValue tag)]> t
  end.

(** The upsert of a sighting; [event_id] references [events]. *)
Definition upsert_sighting (eventID relayURL : string) (seenAt : time) (pubkey : string)
    (t : EventTables) : result (EventTables * unit) :=
  match events t !! eventID with
  | None => Err "violates foreign key constraint"
  | Some _ =>
      let seenAt := match event_relays t !! (eventID, relayURL) with
                    | Some old => Z.min (RelaySeenAt old) seenAt
                    | None => seenAt
                    end in
      Ok (set_relays <[(eventID, relayURL) := mkSighting seenAt pubkey]> t, tt)
  end.

(** [publisher] is the store's job publisher, if configured. *)
Definition InsertCanonicalEventWithResult (publisher : option Z) (now : time) (ctx : option string)
    (event : CanonicalEvent) (tags : list (list string)) (relayURL : string) (relaySeenAt : time)
    : go (db EventTables) bool :=
  if bool_decide (trim_space (CID event) = "") then go_fail "event id is required"
  else if bool_decide (trim_space relayURL = "") then go_fail "relay url is required"
  else
    let firstSeenAt := if time_is_zero (CFirstSeenAt event) then now else CFirstSeenAt event in
    let insertedAt := if time_is_zero (CInsertedAt event) then now else CInsertedAt event in
    let relaySeenAt := if time_is_zero relaySeenAt then firstSeenAt else relaySeenAt in
    let expandedTags := ExpandEventTags (CID event) (CKind event) tags in
    let row := mkCanonical (CID event) (CPubkey event) (CCreatedAt event) (CKind event) (CSig event)
                 (CContent event) (CRawJSON event) firstSeenAt insertedAt in
    tx "begin tx" "commit tx" (
      inserted <- go_wrap "upsert event" (stmt (λ t, Ok (upsert_event row t))) ;;
      go_when (negb (bool_decide (expandedTags = [])))
        (go_wrap "insert event tags" (exec (λ t, foldl insert_tag t expandedTags))) ;;
      go_wrap "upsert event relay"
        (stmt (upsert_sighting (CID event) relayURL relaySeenAt (CPubkey event))) ;;
      (if (inserted : bool) then
         match publisher with
         | None => go_fail "canonical event job publisher is not configured"
         | Some maxAttempts =>
             zoom job_tables set_job_tables
               (PublishCanonicalEventJobsTx maxAttempts now ctx (CID event))
         end
       else go_ret tt) ;;
      go_ret inserted).

Definition InsertCanonicalEvent (publisher : option Z) (now : time) (ctx : option string)
    (event : CanonicalEvent) (tags : list (list string)) (relayURL : string) (relaySeenAt : time)
    : go (db EventTables) unit :=
  InsertCanonicalEventWithResult publisher now ctx event tags relayURL relaySeenAt ;; go_ret tt.

Definition InsertEventRelayProvenance (now : time) (eventID relayURL : string) (seenAt : time)
    (pubkey : string) : go (db EventTables) unit :=
  if bool_decide (trim_space eventID = "") then go_fail "event id is required"
  else if bool_decide (trim_space relayURL = "") then go_fail "relay url is required"
  else
    let seenAt := if time_is_zero seenAt then now else seenAt in
    go_wrap "upsert event relay provenance" (stmt (upsert_sighting eventID relayURL seenAt pubkey)).

(** * Existence checks *)

Definition EventsExist (ids : list string) : go (db EventTables) bool :=
  let normalized := dedup_first (List.filter (λ id, negb (bool_decide (id = ""))) (map trim_space ids)) in
  match normalized with
  | [] => go_ret false
  | _ => go_wrap "check events exist"
           (query (λ t, existsb (λ id, bool_decide (is_Some (events t !! id))) normalized))
  end.

Definition eventExists (eventID : string) : go (db EventTables) bool :=
  go_wrap "check event existence" (query (λ t, bool_decide (is_Some (events t !! eventID)))).

(** The loop over the addresses keeps the first of each rendered coordinate. *)
Fixpoint distinct_addresses (seen : list string) (addresses : list AddressCoordinate)
    : list AddressCoordinate :=
  match addresses with
  | [] => []
  | addr :: rest =>
      let key := address_string addr in
      if bool_decide (key ∈ seen) then distinct_addresses seen rest
      else addr :: distinct_addresses (key :: seen) rest
  end.

Definition ReplaceableAddressesExist (addresses : list AddressCoordinate) : go (db EventTables) bool :=
  match addresses with
  | [] => go_ret false
  | _ =>
      let addrs := distinct_addresses [] addresses in
      go_wrap "check replaceable addresses exist" (query (λ t,
        existsb (λ a, bool_decide (is_Some (replaceable_state t !! (i32 (AKind a), APubkey a, DTag a)))) addrs))
  end.

(** * Count-only kinds *)

(** The days are UTC days since the epoch. *)
Definition unix_day (createdAt : Z) : Z := createdAt / 86400.

Definition bumpKindActivityTx (pubkey : string) (kind day : Z) : go (db CensusTables) unit :=
  unique <- go_wrap "insert kind author" (stmt (λ t,
    if bool_decide ((day, kind, pubkey) ∈ census_authors t) then Ok (t, 0)
    else Ok (mkCensus (census_events t) ({[(day, kind, pubkey)]} ∪ census_authors t) (census_activity t), 1))) ;;
  go_wrap "upsert kind activity" (exec (λ t,
    mkCensus (census_events t) (census_authors t)
      (match census_activity t !! (day, kind) with
       | None => <[(day, kind) := (1, unique)]> (census_activity t)
       | Some (n, u) => <[(day, kind) := (n + 1, u + unique)]> (census_activity t)
       end))).

Definition RecordKindCensus (eventID pubkey : string) (kind createdAt : Z) : go (db CensusTables) bool :=
  begin_func (
    let day := unix_day createdAt in
    affected <- go_wrap "insert kind census event" (stmt (λ t,
      match census_events t !! eventID with
      | Some _ => Ok (t, 0)
      | None => Ok (mkCensus (<[eventID := (kind, pubkey, createdAt, day)]> (census_events t))
                      (census_authors t) (census_activity t), 1)
      end)) ;;
    if affected =? 0 then go_ret false
    else bumpKindActivityTx pubkey kind day ;; go_ret true).

(** * Quarantine *)

Definition errorCodesWithoutPayload : list string := ["content_too_large"; "payload_too_large"].

Definition InsertInvalidEvent (now : time) (invalid : InvalidEvent) : go (db InvalidTables) unit :=
  if bool_decide (trim_space (IErrorCode invalid) = "") then
    go_fail "invalid event error_code is required"
  else if bool_decide (trim_space (IErrorMessage invalid) = "") then
    go_fail "invalid event error_message is required"
  else
    let seenAt := if time_is_zero (ISeenAt invalid) then now else ISeenAt invalid in
    let rawPayload := if bool_decide (IErrorCode invalid ∈ errorCodesWithoutPayload) then None
                      else RawPayload invalid in
    go_wrap "insert invalid event" (exec (λ t,
      mkInvalidTables
        (<[next_invalid t := mkInvalid (SourceRelay invalid) (IErrorCode invalid)
                               (IErrorMessage invalid) rawPayload seenAt]> (invalid_events t))
        (next_invalid t + 1))).

(** [ORDER BY seen_at ASC, id ASC]. *)
Definition older (a b : Z * InvalidEvent) : Prop :=
  ISeenAt a.2 < ISeenAt b.2 ∨ (ISeenAt a.2 = ISeenAt b.2 ∧ a.1 ≤ b.1).

#[export] Instance older_dec a b : Decision (older a b).
Proof. unfold older. apply _. Defined.

Definition select_invalid (p : InvalidEvent → bool) (limit : Z) (t : InvalidTables)
    : list (Z * InvalidEvent) :=
  take (Z.to_nat limit)
    (merge_sort older (List.filter (λ r, p r.2) (map_to_list (invalid_events t)))).

Definition PurgeInvalidEventsOlderThan (cutoff : time) (limit : Z) : go (db InvalidTables) Z :=
  if time_is_zero cutoff then go_fail "cutoff is required"
  else if limit <=? 0 then go_fail "limit must be > 0"
  else go_wrap "purge invalid events" (stmt (λ t,
    let rows := select_invalid (λ r, ISeenAt r <? cutoff) limit t in
    Ok (mkInvalidTables (foldl (λ m r, delete r.1 m) (invalid_events t) rows) (next_invalid t),
        Z.of_nat (length rows)))).

Definition drop_payload (r : InvalidEvent) : InvalidEvent :=
  mkInvalid (SourceRelay r) (IErrorCode r) (IErrorMessage r) None (ISeenAt r).

Definition TrimInvalidEventPayloadsOlderThan (cutoff : time) (limit : Z) : go (db InvalidTables) Z :=
  if time_is_zero cutoff then go_fail "cutoff is required"
  else if limit <=? 0 then go_fail "limit must be > 0"
  else go_wrap "trim invalid event payloads" (stmt (λ t,
    let rows := select_invalid (λ r, (ISeenAt r <? cutoff) && bool_decide (is_Some (RawPayload r))) limit t in
    Ok (mkInvalidTables (foldl (λ m r, <[r.1 := drop_payload r.2]> m) (invalid_events t) rows)
          (next_invalid t),
        Z.of_nat (length rows)))).

(** * Tag expansion *)

Lemma elem_of_expand_values id name ti vi values tag :
  tag ∈ expand_values id name ti vi values ↔
  ∃ k v, values !! k = Some v ∧ tag = mkTag id name ti (vi + Z.of_nat k) v.
Proof.
  revert vi. induction values as [|v values IH]; intros vi; simpl.
  - split; [set_solver|by intros (k & v & Hk & _)].
  - rewrite elem_of_cons, IH. split.
    + intros [->|(k & v' & Hk & ->)].
      * exists 0%nat, v. split; [done|]. f_equal. lia.
      * exists (S k), v'. split; [done|]. f_equal. lia.
    + intros ([|k] & v' & Hk & ->); simpl in Hk.
      * left. simplify_eq. f_equal. lia.
      * right. exists k, v'. split; [done|]. f_equal. lia.
Qed.

Lemma elem_of_expand_from id kind ti tags tag :
  tag ∈ expand_from id kind ti tags ↔
  ∃ i name values k v, tags !! i = Some (name :: values) ∧ ShouldPersist kind name = true ∧
    values !! k = Some v ∧ tag = mkTag id name (ti + Z.of_nat i) (Z.of_nat k) v.
Proof.
  revert ti. induction tags as [|tg tags IH]; intros ti; cbn [expand_from].
  { split; [set_solver|by intros (i & ? & ? & ? & ? & Hi & _)]. }
  rewrite elem_of_app, IH. split.
  - intros [Hin|(i & name & vs & k & v & Hi & Hp & Hk & ->)].
    + destruct tg as [|name vs]; [set_solver|].
      destruct (ShouldPersist kind name) eqn:Ep; simpl in Hin; [|set_solver].
      apply elem_of_expand_values in Hin as (k & v & Hk & ->).
      exists 0%nat, name, vs, k, v. split_and!; try done. f_equal; lia.
    + exists (S i), name, vs, k, v. split_and!; try done. f_equal. lia.
  - intros ([|i] & name & vs & k & v & Hi & Hp & Hk & ->); simpl in Hi.
    + left. simplify_eq. rewrite Hp. simpl. apply elem_of_expand_values.
      exists k, v. split; [done|]. f_equal; lia.
    + right. exists i, name, vs, k, v. split_and!; try done. f_equal. lia.
Qed.

Lemma elem_of_ExpandEventTags id kind tags tag :
  tag ∈ ExpandEventTags id kind tags ↔
  ∃ i name values k v, tags !! i = Some (name :: values) ∧ ShouldPersist kind name = true ∧
    values !! k = Some v ∧ tag = mkTag id name (Z.of_nat i) (Z.of_nat k) v.
Proof. unfold ExpandEventTags. rewrite elem_of_expand_from. done. Qed.

Lemma expand_id id kind tags tag : tag ∈ ExpandEventTags id kind tags → TEventID tag = id.
Proof. intros (i & ? & ? & ? & ? & _ & _ & _ & ->)%elem_of_ExpandEventTags. done. Qed.

(** * What one insert does *)

Definition tag_key (tag : EventTag) : string * Z * Z :=
  (TEventID tag, i32 (TagIndex tag), i32 (ValueIndex tag)).

(** The other tables do not change. *)
Definition only_tags (t t' : EventTables) : Prop :=
  events t' = events t ∧ event_relays t' = event_relays t ∧
  replaceable_state t' = replaceable_state t ∧ job_tables t' = job_tables t.

Lemma insert_tag_spec t tag :
  only_tags t (insert_tag t tag) ∧
  (∀ k, event_tags (insert_tag t tag) !! k
        = match event_tags t !! k with
          | Some x => Some x
          | None => if bool_decide (k = tag_key tag) then Some (TagName tag, TValue tag) else None
          end).
Proof.
  unfold insert_tag. fold (tag_key tag). destruct (event_tags t !! tag_key tag) eqn:E.
  - split; [done|]. intros k. case_bool_decide; subst; [by rewrite E|]. by destruct (event_tags t !! k).
  - split; [done|]. intros k. simpl. case_bool_decide; subst.
    + by rewrite lookup_insert_eq, E.
    + rewrite lookup_insert_ne by done. by destruct (event_tags t !! k).
Qed.

(** The first tag of a list with a given key. *)
Definition tag_at_key (k : string * Z * Z) (l : list EventTag) : option (string * string) :=
  (λ tag, (TagName tag, TValue tag)) <$> List.find (λ tag, bool_decide (k = tag_key tag)) l.

Lemma insert_tags_spec l t :
  only_tags t (foldl insert_tag t l) ∧
  (∀ k, event_tags (foldl insert_tag t l) !! k
        = match event_tags t !! k with Some x => Some x | None => tag_at_key k l end).
Proof.
  revert t. induction l as [|tag l IH]; intros t; cbn [foldl].
  { split; [done|]. intros k. by destruct (event_tags t !! k). }
  destruct (insert_tag_spec t tag) as [H1 H2]. destruct (IH (insert_tag t tag)) as [H3 H4].
  unfold only_tags in *. split; [intuition congruence|]. intros k. rewrite H4, H2.
  destruct (event_tags t !! k); [done|]. unfold tag_at_key. cbn [List.find].
  by case_bool_decide.
Qed.

(** The tables after a successful insert of [row]. *)
Definition inserted_tables (maxAttempts : Z) (now : time) (ctx : option string) (row : CanonicalEvent)
    (tags : list (list string)) (relayURL : string) (seenAt : time) (t : EventTables) : EventTables :=
  let '(t1, inserted) := upsert_event row t in
  let t2 := foldl insert_tag t1 (ExpandEventTags (CID row) (CKind row) tags) in
  let seen := match event_relays t2 !! (CID row, relayURL) with
              | Some old => Z.min (RelaySeenAt old) seenAt | None => seenAt end in
  let t3 := set_relays <[(CID row, relayURL) := mkSighting seen (CPubkey row)]> t2 in
  if inserted then
    set_job_tables (enqueue_event_row now ctx JobTypeDeriveEventBundle (trim_space (CID row)) ""
                      maxAttempts (job_tables t3)) t3
  else t3.

Definition row_of (now : time) (event : CanonicalEvent) : CanonicalEvent :=
  mkCanonical (CID event) (CPubkey event) (CCreatedAt event) (CKind event) (CSig event)
    (CContent event) (CRawJSON event)
    (if time_is_zero (CFirstSeenAt event) then now else CFirstSeenAt event)
    (if time_is_zero (CInsertedAt event) then now else CInsertedAt event).

Lemma upsert_event_spec row t :
  let '(t', inserted) := upsert_event row t in
  inserted = bool_decide (events t !! CID row = None) ∧
  event_tags t' = event_tags t ∧ event_relays t' = event_relays t ∧
  replaceable_state t' = replaceable_state t ∧ job_tables t' = job_tables t ∧
  (∀ id, id ≠ CID row → events t' !! id = events t !! id) ∧
  events t' !! CID row = Some
    (match events t !! CID row with
     | None => row
     | Some old => mkCanonical (CID old) (CPubkey old) (CCreatedAt old) (CKind old) (CSig old)
                     (CContent old) (CRawJSON old) (Z.min (CFirstSeenAt old) (CFirstSeenAt row))
                     (CInsertedAt old)
     end).
Proof.
  unfold upsert_event. destruct (events t !! CID row) as [old|]; simpl;
    (split_and!; try done; try (by rewrite lookup_insert_eq); intros id Hid; by rewrite lookup_insert_ne).
Qed.

Lemma tags_written l s s' u :
  go_when (negb (bool_decide (l = []))) (go_wrap "insert event tags"
    (exec (λ t, foldl insert_tag t l))) s = (s', Ok u) →
  tables s' = foldl insert_tag (tables s) l.
Proof.
  case_bool_decide; simpl; [|intros H1; by go_inv]. subst l. simpl. by intros [= <- _].
Qed.

Lemma sighting_written id relay seen pk t t' u :
  upsert_sighting id relay seen pk t = Ok (t', u) →
  t' = set_relays <[(id, relay) :=
         mkSighting (match event_relays t !! (id, relay) with
                     | Some old => Z.min (RelaySeenAt old) seen | None => seen end) pk]> t.
Proof. unfold upsert_sighting. destruct (events t !! id); [|done]. by intros [= <- _]. Qed.

Lemma Insert_ok publisher now ctx event tags relayURL seenAt s s' inserted :
  InsertCanonicalEventWithResult publisher now ctx event tags relayURL seenAt s = (s', Ok inserted) →
  inserted = bool_decide (events (tables s) !! CID event = None) ∧
  ∃ maxAttempts, (inserted = true → publisher = Some maxAttempts ∧ trim_space (CID event) ≠ "") ∧
    tables s' = inserted_tables maxAttempts now ctx (row_of now event) tags relayURL
      (if time_is_zero seenAt then CFirstSeenAt (row_of now event) else seenAt) (tables s).
Proof.
  unfold InsertCanonicalEventWithResult. do 2 (case_bool_decide; [done|]). fold (row_of now event).
  intros Hr. go_inv.
  match goal with H : go_when _ _ _ = _ |- _ => rename H into Htags end.
  match goal with H : upsert_sighting _ _ _ _ _ = _ |- _ => rename H into Hsee end.
  match goal with H : (if inserted then _ else _) _ = _ |- _ => rename H into Hjob end.
  match goal with H : Ok (upsert_event _ _) = _ |- _ => injection H as Hup end.
  match goal with H : tables x = tables s |- _ => rewrite H in Hup end.
  apply tags_written in Htags.
  pose proof (upsert_event_spec (row_of now event) (tables s)) as Hspec. rewrite Hup in Hspec.
  destruct Hspec as (Hins & _). split; [done|].
  apply sighting_written in Hsee.
  destruct inserted.
  - destruct publisher as [mx|]; [|done]. exists mx. split; [done|].
    apply zoom_ok in Hjob as (u & Hu & Ht). unfold PublishCanonicalEventJobsTx in Hu.
    rewrite bool_decide_eq_false_2 in Hu by done. unfold EnqueueEventJobTx in Hu. go_inv.
    unfold inserted_tables. rewrite Hup. cbn [CID CKind CPubkey CFirstSeenAt row_of] in *.
    rewrite <-Htags, <-Hsee. rewrite H2, Ht. f_equal. done.
  - exists 0. split; [done|]. go_inv. unfold inserted_tables. rewrite Hup. cbn [CID CKind CPubkey CFirstSeenAt row_of] in *.
    rewrite <-Htags, <-Hsee. done.
Qed.

Lemma Insert_err publisher now ctx event tags relayURL seenAt s s' e :
  InsertCanonicalEventWithResult publisher now ctx event tags relayURL seenAt s = (s', Err e) →
  tables s' = tables s.
Proof.
  unfold InsertCanonicalEventWithResult. do 2 (case_bool_decide; [by intros [= <- _]|]).
  apply tx_atomic.
Qed.

(** The columns of an event never change, apart from an earlier first sighting. *)
Record same_event (e e' : CanonicalEvent) : Prop := {
  se_id : CID e' = CID e;
  se_pubkey : CPubkey e' = CPubkey e;
  se_created : CCreatedAt e' = CCreatedAt e;
  se_kind : CKind e' = CKind e;
  se_sig : CSig e' = CSig e;
  se_content : CContent e' = CContent e;
  se_raw : CRawJSON e' = CRawJSON e;
  se_inserted : CInsertedAt e' = CInsertedAt e;
  se_seen : CFirstSeenAt e' ≤ CFirstSeenAt e;
}.

#[export] Instance same_event_preorder : PreOrder same_event.
Proof.
  split; [by intros e; split|]. intros e1 e2 e3 [] []. split; congruence || lia.
Qed.

(** The invariant of the event tables: rows under their own id, tags and
    sightings of stored events only, and a well-formed queue. *)
Record store_ok (t : EventTables) : Prop := {
  so_id : ∀ id e, events t !! id = Some e → CID e = id;
  so_tags : ∀ id i v x, event_tags t !! (id, i, v) = Some x → is_Some (events t !! id);
  so_relays : ∀ id r x, event_relays t !! (id, r) = Some x → is_Some (events t !! id);
  so_jobs : tables_ok (job_tables t);
}.

Section inserted.
Variables (mx : Z) (now : time) (ctx : option string) (row : CanonicalEvent)
  (tags : list (list string)) (relay : string) (seen : time) (t : EventTables).
Let t' := inserted_tables mx now ctx row tags relay seen t.

(** What [inserted_tables] does to each table. *)
Lemma inserted_events :
  (∀ id, id ≠ CID row → events t' !! id = events t !! id) ∧
  ∃ e', events t' !! CID row = Some e' ∧
    match events t !! CID row with
    | None => e' = row
    | Some e => same_event e e' ∧ CFirstSeenAt e' = Z.min (CFirstSeenAt e) (CFirstSeenAt row)
    end.
Proof.
  pose proof (upsert_event_spec row t) as Hs. unfold t', inserted_tables.
  destruct (upsert_event row t) as [t1 ins]. destruct Hs as (_ & _ & _ & _ & _ & Ho & Hr).
  destruct (insert_tags_spec (ExpandEventTags (CID row) (CKind row) tags) t1) as [(He & _) _].
  assert (∀ u : EventTables, events u = events t1 →
    (∀ id, id ≠ CID row → events u !! id = events t !! id) ∧
    ∃ e', events u !! CID row = Some e' ∧
      match events t !! CID row with
      | None => e' = row
      | Some e => same_event e e' ∧ CFirstSeenAt e' = Z.min (CFirstSeenAt e) (CFirstSeenAt row)
      end) as Hgen.
  { intros u ->. split; [done|]. rewrite Hr. eexists. split; [done|].
    destruct (events t !! CID row) as [old|]; [|done]. split; [|done]. split; simpl; (done || lia). }
  destruct ins; apply Hgen; simpl; exact He.
Qed.

Lemma inserted_tags k :
  event_tags t' !! k
  = match event_tags t !! k with
    | Some x => Some x | None => tag_at_key k (ExpandEventTags (CID row) (CKind row) tags) end.
Proof.
  pose proof (upsert_event_spec row t) as Hs. unfold t', inserted_tables.
  destruct (upsert_event row t) as [t1 ins]. destruct Hs as (_ & Ht & _).
  destruct (insert_tags_spec (ExpandEventTags (CID row) (CKind row) tags) t1) as [_ Hk].
  rewrite <-Ht. destruct ins; simpl; apply Hk.
Qed.

Lemma inserted_relays :
  event_relays t' = <[(CID row, relay) :=
    mkSighting (match event_relays t !! (CID row, relay) with
                | Some old => Z.min (RelaySeenAt old) seen | None => seen end) (CPubkey row)]>
    (event_relays t).
Proof.
  pose proof (upsert_event_spec row t) as Hs. unfold t', inserted_tables.
  destruct (upsert_event row t) as [t1 ins]. destruct Hs as (_ & _ & Ht & _).
  destruct (insert_tags_spec (ExpandEventTags (CID row) (CKind row) tags) t1) as [(_ & Hr & _) _].
  rewrite <-Ht. destruct ins; simpl; by rewrite Hr.
Qed.

Lemma inserted_jobs :
  job_tables t' = if bool_decide (events t !! CID row = None) then
    enqueue_event_row now ctx JobTypeDeriveEventBundle (trim_space (CID row)) "" mx (job_tables t)
  else job_tables t.
Proof.
  pose proof (upsert_event_spec row t) as Hs. unfold t', inserted_tables.
  destruct (upsert_event row t) as [t1 ins]. destruct Hs as (-> & _ & _ & _ & Hj & _).
  destruct (insert_tags_spec (ExpandEventTags (CID row) (CKind row) tags) t1) as [(_ & _ & _ & Hj2) _].
  rewrite <-Hj. case_bool_decide; simpl; by rewrite Hj2.
Qed.

Lemma inserted_events_mono id e :
  events t !! id = Some e → ∃ e', events t' !! id = Some e' ∧ same_event e e'.
Proof.
  intros He. destruct inserted_events as [Ho (e' & He' & Hm)].
  destruct (decide (id = CID row)) as [->|Hne].
  - rewrite He in Hm. exists e'. split; [done|apply Hm].
  - exists e. rewrite Ho by done. by split.
Qed.

Lemma inserted_ok : store_ok t → store_ok t'.
Proof.
  intros [Hid Htg Hrl Hjb]. destruct inserted_events as [Ho (e' & He' & Hm)].
  assert (∀ id, is_Some (events t !! id) → is_Some (events t' !! id)) as Hmono.
  { intros id [e He]. destruct (inserted_events_mono id e He) as (e1 & H1 & _). by exists e1. }
  split.
  - intros id e He. destruct (decide (id = CID row)) as [->|Hne].
    + assert (e = e') as -> by congruence. destruct (events t !! CID row) as [e0|] eqn:E0.
      * destruct Hm as [[Hc _ _ _ _ _ _ _ _] _]. rewrite Hc. by apply Hid.
      * by subst.
    + rewrite Ho in He by done. by apply Hid.
  - intros id i v x Hx. rewrite inserted_tags in Hx.
    destruct (event_tags t !! (id, i, v)) eqn:E; [by eapply Hmono, Htg|].
    unfold tag_at_key in Hx. destruct (List.find _ _) as [tag|] eqn:Ef; [|done].
    apply find_some in Ef as [Hin Hk]. bool_simpl. apply list_elem_of_In, expand_id in Hin.
    assert (id = CID row) as -> by (unfold tag_key in *; congruence). rewrite He'. by eexists.
  - intros id r x Hx. rewrite inserted_relays in Hx.
    destruct (decide ((CID row, relay) = (id, r))) as [[= <- <-]|Hne].
    + rewrite He'. by eexists.
    + rewrite lookup_insert_ne in Hx by done. by eapply Hmono, Hrl.
  - rewrite inserted_jobs. case_bool_decide; [|done].
    eapply tables_step_ok; [done|]. by apply enqueue_event_row_step.
Qed.
End inserted.

(** * Runs of the store *)

Inductive StoreOp :=
| OpInsert (publisher : option Z) (now : time) (ctx : option string) (event : CanonicalEvent)
    (tags : list (list string)) (relayURL : string) (relaySeenAt : time)
| OpSighting (now : time) (eventID relayURL : string) (seenAt : time) (pubkey : string)
| OpJob (op : JobOp).

Definition run_store_op (op : StoreOp) (s : db EventTables) : db EventTables :=
  match op with
  | OpInsert pb now ctx ev tags relay seen =>
      (InsertCanonicalEventWithResult pb now ctx ev tags relay seen s).1
  | OpSighting now id relay seen pk => (InsertEventRelayProvenance now id relay seen pk s).1
  | OpJob op => (zoom job_tables set_job_tables
                   (λ u, let '(u', ids) := run_job_op op u in (u', Ok ids)) s).1
  end.

Lemma Insert_cases publisher now ctx event tags relayURL seenAt s :
  let s' := (InsertCanonicalEventWithResult publisher now ctx event tags relayURL seenAt s).1 in
  tables s' = tables s ∨
  ∃ mx seen, tables s' = inserted_tables mx now ctx (row_of now event) tags relayURL seen (tables s).
Proof.
  destruct (InsertCanonicalEventWithResult publisher now ctx event tags relayURL seenAt s)
    as [s' [b|e]] eqn:E; simpl.
  - right. apply Insert_ok in E as (_ & mx & _ & ->). by do 2 eexists.
  - left. by eapply Insert_err.
Qed.

Lemma Sighting_cases now id relay seen pk s :
  let s' := (InsertEventRelayProvenance now id relay seen pk s).1 in
  tables s' = tables s ∨
  (is_Some (events (tables s) !! id) ∧
   ∃ x, tables s' = set_relays <[(id, relay) := x]> (tables s)).
Proof.
  unfold InsertEventRelayProvenance. do 2 (case_bool_decide; [by left|]). rewrite wrap_fst.
  match goal with |- context [stmt ?f s] => destruct (stmt_cases f s) as [->|[a E]]; [by left|] end.
  right. pose proof E as Hw. apply sighting_written in Hw. cbv zeta. rewrite Hw.
  unfold upsert_sighting in E. destruct (events (tables s) !! id); [|done].
  split; [by eexists|]. by eexists.
Qed.

Lemma run_store_op_ok op s : store_ok (tables s) → store_ok (tables (run_store_op op s)).
Proof.
  intros Hok. destruct op as [pb now ctx ev tags relay seen|now id relay seen pk|jop]; cbn [run_store_op].
  - destruct (Insert_cases pb now ctx ev tags relay seen s) as [->|(mx & sn & ->)]; [done|].
    by apply inserted_ok.
  - destruct (Sighting_cases now id relay seen pk s) as [->|[Hi (x & ->)]]; [done|].
    destruct Hok as [Hid Htg Hrl Hjb]. split; try done. intros id' r' y. simpl.
    destruct (decide ((id, relay) = (id', r'))) as [[= <- <-]|Hne]; [done|].
    rewrite lookup_insert_ne by done. apply Hrl.
  - destruct (zoom_tables job_tables set_job_tables
      (λ u, let '(u', ids) := run_job_op jop u in (u', Ok ids)) s) as [-> _].
    destruct Hok as [Hid Htg Hrl Hjb]. split; try done. cbn [set_job_tables job_tables].
    pose proof (run_job_op_step jop (mkDb (job_tables (tables s)) (faults s)) Hjb) as Hst.
    destruct (run_job_op _ _). by eapply tables_step_ok.
Qed.

Lemma run_store_op_events op s id e :
  events (tables s) !! id = Some e →
  ∃ e', events (tables (run_store_op op s)) !! id = Some e' ∧ same_event e e'.
Proof.
  intros He. destruct op as [pb now ctx ev tags relay seen|now id' relay seen pk|jop]; cbn [run_store_op].
  - destruct (Insert_cases pb now ctx ev tags relay seen s) as [->|(mx & sn & ->)]; [by exists e|].
    by apply inserted_events_mono.
  - destruct (Sighting_cases now id' relay seen pk s) as [->|[Hi (x & ->)]]; by exists e.
  - destruct (zoom_tables job_tables set_job_tables
      (λ u, let '(u', ids) := run_job_op jop u in (u', Ok ids)) s) as [-> _]. by exists e.
Qed.

(** * Properties of the event tables *)

Definition run_store_ops (ops : list StoreOp) (s : db EventTables) : db EventTables :=
  foldl (λ s op, run_store_op op s) s ops.

Definition empty_events : EventTables := mkEventTables ∅ ∅ ∅ ∅ empty_queue.

Lemma empty_events_ok : store_ok empty_events.
Proof. split; try apply empty_queue_ok; intros *; simpl; by rewrite lookup_empty. Qed.

Lemma run_store_ops_ok ops s : store_ok (tables s) → store_ok (tables (run_store_ops ops s)).
Proof.
  unfold run_store_ops. revert s. induction ops as [|op ops IH]; intros s Hok; simpl; [done|].
  by apply IH, run_store_op_ok.
Qed.

Definition derive_key (eventID : string) : string :=
  event_job_key JobTypeDeriveEventBundle (trim_space eventID) "".

Lemma job_with_key_Some k t id j :
  jobs t !! id = Some j → IdempotencyKey j = Some k → is_Some (job_with_key k t).
Proof.
  intros Hj Hk. destruct (job_with_key k t) eqn:E; [by eexists|].
  exfalso. by eapply job_with_key_None.
Qed.

Lemma enqueue_event_row_key now ctx ty ev suf mx t :
  is_Some (job_with_key (event_job_key ty ev suf) (enqueue_event_row now ctx ty ev suf mx t)).
Proof.
  unfold enqueue_event_row. destruct (job_with_key (event_job_key ty ev suf) t) eqn:E;
    [rewrite E; by eexists|].
  eapply job_with_key_Some; [apply lookup_insert_eq|done].
Qed.

(** C3: A canonical insert is all or nothing. If any statement, the missing job
    publisher or the commit fails, no table changes. If it succeeds, it reports
    exactly whether the id was new, and the event row, every tag row the policy
    keeps, the relay sighting and, for a new event, its derivation job are all
    there, while every other event, tag and sighting is as it was. *)
Theorem insert_canonical_atomic (publisher : option Z) (now : time) (ctx : option string)
    (event : CanonicalEvent) (tags : list (list string)) (relayURL : string) (seenAt : time)
    (s : db EventTables) :
  let '(s', r) := InsertCanonicalEventWithResult publisher now ctx event tags relayURL seenAt s in
  let t := tables s in let t' := tables s' in
  match r with
  | Err _ => t' = t
  | Ok inserted =>
      inserted = bool_decide (events t !! CID event = None) ∧
      is_Some (events t' !! CID event) ∧
      (∀ id, id ≠ CID event → events t' !! id = events t !! id) ∧
      (∀ tag, tag ∈ ExpandEventTags (CID event) (CKind event) tags →
         is_Some (event_tags t' !! tag_key tag)) ∧
      (∀ k, k.1.1 ≠ CID event → event_tags t' !! k = event_tags t !! k) ∧
      is_Some (event_relays t' !! (CID event, relayURL)) ∧
      (∀ k, k ≠ (CID event, relayURL) → event_relays t' !! k = event_relays t !! k) ∧
      (if inserted then is_Some (job_with_key (derive_key (CID event)) (job_tables t'))
       else job_tables t' = job_tables t)
  end.
Proof.
  destruct (InsertCanonicalEventWithResult publisher now ctx event tags relayURL seenAt s)
    as [s' [inserted|e]] eqn:E; cbv zeta; [|by eapply Insert_err].
  apply Insert_ok in E as (Hins & mx & _ & ->).
  match goal with |- context [inserted_tables ?a ?b ?c ?d ?e ?f ?g ?h] =>
    destruct (inserted_events a b c d e f g h) as [Ho (e' & He' & _)];
    pose proof (inserted_tags a b c d e f g h) as Ht;
    rewrite (inserted_relays a b c d e f g h), (inserted_jobs a b c d e f g h) end.
  cbn [CID CKind row_of] in *.
  split_and!; try done.
  - intros tag Htag. rewrite Ht. destruct (event_tags (tables s) !! tag_key tag) eqn:Etag; [by eexists|].
    unfold tag_at_key. destruct (List.find _ _) as [x|] eqn:Ef; [by eexists|].
    exfalso. pose proof (find_none _ _ Ef tag (proj1 (list_elem_of_In _ _) Htag)) as Hn.
    cbv beta in Hn. by rewrite bool_decide_eq_true_2 in Hn.
  - intros k Hk. rewrite Ht. destruct (event_tags (tables s) !! k) eqn:Ek; [done|].
    unfold tag_at_key. destruct (List.find _ _) as [x|] eqn:Ef; [|done].
    apply find_some in Ef as [Hin Hx]. bool_simpl. apply list_elem_of_In, expand_id in Hin.
    exfalso. apply Hk. subst k. done.
  - rewrite lookup_insert_eq. by eexists.
  - intros k Hk. by rewrite lookup_insert_ne by congruence.
  - rewrite <-Hins. destruct inserted; [|done]. apply enqueue_event_row_key.
Qed.

(** Under every sequence of canonical inserts, relay sightings and queue
    operations, with any of their statements failing, each event row sits under
    its own id, tag and sighting rows only refer to stored events, and the queue
    keeps its invariant. *)
Theorem store_integrity (ops : list StoreOp) (faults : list (option error)) :
  store_ok (tables (run_store_ops ops (mkDb empty_events faults))).
Proof. apply run_store_ops_ok. exact empty_events_ok. Qed.

(** Once stored, an event is never overwritten: whatever is ingested later,
    even under the same id, its author, time, kind, signature, content and raw
    JSON stay, and its first sighting only moves earlier. *)
Theorem stored_event_immutable (ops : list StoreOp) (s : db EventTables) (id : string)
    (e : CanonicalEvent) :
  events (tables s) !! id = Some e →
  ∃ e', events (tables (run_store_ops ops s)) !! id = Some e' ∧ same_event e e'.
Proof.
  unfold run_store_ops. revert s e. induction ops as [|op ops IH]; intros s e He; simpl.
  { exists e. by split. }
  destruct (run_store_op_events op s id e He) as (e1 & He1 & H1).
  destruct (IH _ _ He1) as (e2 & He2 & H2). exists e2. split; [done|by transitivity e1].
Qed.

(** Indexes that fit the [int] columns. *)
Definition tags_fit (tags : list (list string)) : Prop :=
  Z.of_nat (length tags) < 2 ^ 31 ∧ ∀ tag, tag ∈ tags → Z.of_nat (length tag) < 2 ^ 31.

Lemma expanded_key id kind tags tag :
  tags_fit tags → tag ∈ ExpandEventTags id kind tags → tag_key tag = (id, TagIndex tag, ValueIndex tag).
Proof.
  intros [Hl Ht] (i & name & vs & k & v & Hi & Hp & Hk & ->)%elem_of_ExpandEventTags.
  unfold tag_key. simpl. apply lookup_lt_Some in Hi as Hil. apply lookup_lt_Some in Hk as Hkl.
  specialize (Ht _ (list_elem_of_lookup_2 _ _ _ Hi)). simpl in Ht. rewrite !i32_id by lia. done.
Qed.

(** For a new event the tag index holds exactly the values of the tags the
    persistence policy keeps, each under its tag and value position. *)
Theorem stored_tags_exact (publisher : option Z) (now : time) (ctx : option string)
    (event : CanonicalEvent) (tags : list (list string)) (relayURL : string) (seenAt : time)
    (s s' : db EventTables) (i k : nat) (name v : string) :
  store_ok (tables s) → tags_fit tags →
  InsertCanonicalEventWithResult publisher now ctx event tags relayURL seenAt s = (s', Ok true) →
  event_tags (tables s') !! (CID event, Z.of_nat i, Z.of_nat k) = Some (name, v) ↔
  ∃ values, tags !! i = Some (name :: values) ∧ ShouldPersist (CKind event) name = true ∧
            values !! k = Some v.
Proof.
  intros Hok Hfit E. apply Insert_ok in E as (Hins & mx & _ & ->). symmetry in Hins. bool_simpl.
  rewrite inserted_tags. cbn [CID CKind row_of].
  assert (event_tags (tables s) !! (CID event, Z.of_nat i, Z.of_nat k) = None) as ->.
  { destruct (event_tags (tables s) !! _) eqn:Et; [|done]. apply (so_tags _ Hok) in Et as [? ?].
    congruence. }
  unfold tag_at_key. destruct (List.find _ _) as [tag|] eqn:Ef; simpl.
  - apply find_some in Ef as [Hin Hx]. bool_simpl. apply list_elem_of_In in Hin.
    pose proof (expanded_key _ _ _ _ Hfit Hin) as Hkey.
    apply elem_of_ExpandEventTags in Hin as (i' & n' & vs & k' & v' & Hi & Hp & Hk & ->).
    simpl in *. rewrite Hkey in *. simplify_eq. split.
    + intros [= <- <-]. by exists vs.
    + intros (values & Hi' & _ & Hk'). by simplify_eq.
  - split; [done|]. intros (values & Hi & Hp & Hk). exfalso.
    assert (mkTag (CID event) name (Z.of_nat i) (Z.of_nat k) v
              ∈ ExpandEventTags (CID event) (CKind event) tags) as Hin.
    { apply elem_of_ExpandEventTags. by do 5 eexists. }
    pose proof (find_none _ _ Ef _ (proj1 (list_elem_of_In _ _) Hin)) as Hn.
    cbv beta in Hn. rewrite bool_decide_eq_true_2 in Hn; [done|]. by rewrite (expanded_key _ _ _ _ Hfit Hin).
Qed.

(** * Properties of the census *)

Definition row_kind_day (r : Z * string * Z * Z) : Z * Z := (r.2, r.1.1.1).

Record census_ok (t : CensusTables) : Prop := {
  co_count : ∀ dk, fst (default (0, 0) (census_activity t !! dk))
                   = Z.of_nat (size (filter (λ kv, row_kind_day kv.2 = dk) (census_events t)));
  co_unique : ∀ dk, snd (default (0, 0) (census_activity t !! dk))
                    = Z.of_nat (size (filter (λ a : Z * Z * string, a.1 = dk) (census_authors t)));
  co_authors : ∀ d k pk, (d, k, pk) ∈ census_authors t ↔
                 ∃ id c, census_events t !! id = Some (k, pk, c, d);
}.

Definition counted (eventID pubkey : string) (kind createdAt : Z) (t : CensusTables) : CensusTables :=
  let day := unix_day createdAt in
  let fresh := negb (bool_decide ((day, kind, pubkey) ∈ census_authors t)) in
  let '(n, u) := default (0, 0) (census_activity t !! (day, kind)) in
  mkCensus (<[eventID := (kind, pubkey, createdAt, day)]> (census_events t))
    ({[(day, kind, pubkey)]} ∪ census_authors t)
    (<[(day, kind) := (n + 1, u + if fresh then 1 else 0)]> (census_activity t)).

Lemma Census_cases id pk kind c s :
  let '(s', r) := RecordKindCensus id pk kind c s in
  match r with
  | Err _ => tables s' = tables s
  | Ok inserted =>
      inserted = bool_decide (census_events (tables s) !! id = None) ∧
      tables s' = if inserted then counted id pk kind c (tables s) else tables s
  end.
Proof.
  unfold RecordKindCensus.
  match goal with |- context [begin_func ?m s] =>
    destruct (begin_func_cases m s) as [[H1 H2]|(s1 & a & H1 & H2 & H3 & H4)];
    destruct (begin_func m s) as [s' r]; cbn [fst snd] in *;
      [destruct r; [discriminate H2|exact H1]|];
    destruct (m s1) as [s2 r2] eqn:E end.
  cbn [fst snd] in *. subst. go_inv. rewrite H1 in *.
  match goal with H : match census_events (tables s) !! id with _ => _ end = _ |- _ => rename H into Hi end.
  destruct (census_events (tables s) !! id) as [old|] eqn:Eid.
  - injection Hi as Ht <-. cbn [Z.eqb] in *. go_inv. rewrite bool_decide_eq_false_2 by done. split; [done|congruence].
  - injection Hi as Ht <-. cbn [Z.eqb] in *. go_inv. rewrite bool_decide_eq_true_2 by done.
    split; [done|]. unfold bumpKindActivityTx in *. go_inv. rewrite <-Ht in *. simpl in *.
    rewrite H4. unfold counted.
    match goal with H : (if bool_decide _ then _ else _) = _ |- _ => rename H into Ha end.
    case_bool_decide as Hin; injection Ha as Hc <-;
      match goal with H : tables _ = mkCensus _ _ _ |- _ => rewrite H end; rewrite <-Hc; simpl;
      destruct (census_activity (tables s) !! (unix_day c, kind)) as [[n u]|]; simpl; f_equal;
      try (f_equal; f_equal; lia); set_solver.
Qed.

Lemma counted_ok id pk kind c t :
  census_events t !! id = None → census_ok t → census_ok (counted id pk kind c t).
Proof.
  intros Hid [Hc Hu Ha]. unfold counted. set (d := unix_day c).
  pose proof (Hc (d, kind)) as Hcd. pose proof (Hu (d, kind)) as Hud.
  destruct (default (0, 0) (census_activity t !! (d, kind))) as [n u] eqn:En. simpl in Hcd, Hud.
  split; simpl.
  - intros dk. rewrite map_filter_insert. simpl.
    change (row_kind_day (kind, pk, c, d)) with (d, kind). case_decide as Hdk.
    + subst dk. rewrite lookup_insert_eq, map_size_insert_None; [simpl; lia|].
      apply map_lookup_filter_None. by left.
    + rewrite lookup_insert_ne, delete_id by done. apply Hc.
  - intros dk. rewrite filter_union_L. destruct (decide ((d, kind) = dk)) as [Hdk|Hdk].
    + rewrite (filter_singleton_True_L (λ a : Z * Z * string, a.1 = dk)) by done.
      subst dk. rewrite lookup_insert_eq. simpl. case_bool_decide as Hin; simpl.
      * rewrite subseteq_union_1_L; [lia|]. by apply singleton_subseteq_l, elem_of_filter.
      * rewrite size_union, size_singleton; [lia|].
        apply disjoint_singleton_l. by intros [_ ?]%elem_of_filter.
    + rewrite lookup_insert_ne, (filter_singleton_False_L (λ a : Z * Z * string, a.1 = dk)),
        union_empty_l_L by done. apply Hu.
    + apply _.
  - intros d' k' pk'. rewrite elem_of_union, elem_of_singleton, Ha. split.
    + intros [[= -> -> ->]|(id' & c' & Hi)].
      * exists id, c. by rewrite lookup_insert_eq.
      * exists id', c'. rewrite lookup_insert_ne; [done|congruence].
    + intros (id' & c' & Hi). destruct (decide (id = id')) as [<-|Hne].
      * rewrite lookup_insert_eq in Hi. left. by simplify_eq.
      * rewrite lookup_insert_ne in Hi by done. right. by exists id', c'.
Qed.

Definition run_census (ops : list (string * string * Z * Z)) (s : db CensusTables) : db CensusTables :=
  foldl (λ s op, let '(id, pk, kind, c) := op in (RecordKindCensus id pk kind c s).1) s ops.

(** However often events are reported and however their transactions fail,
    the daily counters agree with the census rows: an event id is counted once,
    under its day and kind, and each author once per day and kind. *)
Theorem census_counts (ops : list (string * string * Z * Z)) (faults : list (option error)) :
  census_ok (tables (run_census ops (mkDb (mkCensus ∅ ∅ ∅) faults))).
Proof.
  assert (census_ok (mkCensus ∅ ∅ ∅)) as H0.
  { split; simpl; intros *.
    - rewrite lookup_empty, map_filter_empty, map_size_empty. done.
    - rewrite lookup_empty, filter_empty_L by apply _. by rewrite size_empty.
    - split; [set_solver|]. intros (? & ? & H). by rewrite lookup_empty in H. }
  unfold run_census. change (mkCensus ∅ ∅ ∅) with (tables (mkDb (mkCensus ∅ ∅ ∅) faults)) in H0.
  revert H0. generalize (mkDb (mkCensus ∅ ∅ ∅) faults). intros s.
  revert s. induction ops as [|[[[id pk] kind] c] ops IH]; intros s Hs; simpl; [done|].
  apply IH. pose proof (Census_cases id pk kind c s) as Hc.
  destruct (RecordKindCensus id pk kind c s) as [s' [ins|e]]; cbn [fst]; [|by rewrite Hc].
  destruct Hc as [Hi ->]. destruct ins; [|done]. symmetry in Hi. bool_simpl. by apply counted_ok.
Qed.

(** * Properties of the existence checks *)

Lemma EventsExist_clean ids t :
  ∃ b, EventsExist ids (mkDb t []) = (mkDb t [], Ok b) ∧
  (b = true ↔ ∃ id, id ∈ ids ∧ trim_space id ≠ "" ∧ is_Some (events t !! trim_space id)).
Proof.
  unfold EventsExist.
  set (l := List.filter _ _).
  assert (∀ x, x ∈ l ↔ ∃ id, id ∈ ids ∧ trim_space id ≠ "" ∧ trim_space id = x) as Hl.
  { intros x. unfold l. rewrite list_elem_of_In, filter_In, in_map_iff. split.
    - intros [(id & <- & Hin) Hne]. bool_simpl. exists id. by rewrite list_elem_of_In.
    - intros (id & Hin & Hne & <-). rewrite bool_decide_eq_false_2 by done.
      split; [|done]. exists id. by rewrite <-list_elem_of_In. }
  clearbody l. destruct (dedup_first l) as [|y ys] eqn:Ed.
  - exists false. split; [done|]. split; [done|]. intros (id & Hin & Hne & _).
    assert (l = []) as -> by (by apply dedup_first_nil). exfalso.
    assert (trim_space id ∈ []) by (apply Hl; by exists id). set_solver.
  - rewrite <-Ed. clear Ed y ys. eexists. split; [unfold go_wrap, query, stmt; simpl; reflexivity|].
    rewrite existsb_exists. split.
    + intros (x & Hx & Hs). bool_simpl. apply list_elem_of_In in Hx.
      apply elem_of_dedup_first, Hl in Hx as (id & Hin & Hne & <-). by exists id.
    + intros (id & Hin & Hne & Hs). exists (trim_space id). split.
      * apply list_elem_of_In, elem_of_dedup_first, Hl. by exists id.
      * by apply bool_decide_eq_true.
Qed.

(** ** A store in use *)

Definition sample_event : CanonicalEvent :=
  mkCanonical "e1" "alice" 100 1 "sig" "hello" [] 7 7.

Definition sample_tags : list (list string) := [["p"; "bob"]; ["client"; "x"]; ["t"; "nostr"; "go"]].

Definition sample_insert (s : db EventTables) : db EventTables * result bool :=
  InsertCanonicalEventWithResult (Some 5) 7 None sample_event sample_tags "wss://r" 7 s.

Definition one_event : db EventTables := (sample_insert (mkDb empty_events [])).1.

Lemma stored_event_immutable_witness :
  ∃ e', events (tables (run_store_ops
          [OpInsert (Some 5) 9 None (mkCanonical "e1" "mallory" 1 1 "" "bye" [] 3 9) [] "wss://r2" 9]
          one_event)) !! "e1" = Some e' ∧ same_event sample_event e'.
Proof. apply stored_event_immutable. vm_compute. reflexivity. Defined.

Lemma stored_tags_exact_witness :
  event_tags (tables one_event) !! ("e1", 2, 1) = Some ("t", "go").
Proof.
  apply (stored_tags_exact (Some 5) 7 None sample_event sample_tags "wss://r" 7
           (mkDb empty_events []) one_event 2 1 "t" "go").
  - exact empty_events_ok.
  - split; [vm_compute; reflexivity|]. intros tag Ht.
    repeat (apply elem_of_cons in Ht as [->|Ht]; [vm_compute; reflexivity|]). by apply elem_of_nil in Ht.
  - unfold one_event. destruct (sample_insert (mkDb empty_events [])) as [s' r] eqn:E.
    assert (r = Ok true) as ->.
    { change r with (s', r).2. rewrite <-E. vm_compute. reflexivity. }
    exact E.
  - exists ["nostr"; "go"]. split; [reflexivity|]. split; vm_compute; reflexivity.
Defined.

(** An event that was purged and is seen again is inserted as new, but the
    finished derivation job of its first life still holds the idempotency key,
    so nothing is left to derive it. *)
Definition forgotten_event : db EventTables :=
  mkDb (mkEventTables ∅ ∅ ∅ ∅
          (mkJobTables {[1 := succeeded 8 (fresh_job 7 empty_queue JobTypeDeriveEventBundle "default" []
                                             (Some (derive_key "e1")) 5 7)]} 2)) [].

Example reingest_enqueues_nothing :
  let '(s', r) := sample_insert forgotten_event in
  r = Ok true ∧
  List.filter (λ kv : Z * Job, bool_decide (JStatus kv.2 = StatusPending))
    (map_to_list (jobs (job_tables (tables s')))) = [].
Proof. vm_compute. split; reflexivity. Qed.
