(* ===== verification/Replaceable.v ===== *)
(** Replaceable events: the latest-wins derivation
    ([internal/derivation/handlers_replaceable.go]), the trigger that queues
    displaced winners (migrations 000114 and 000123), and the purge of superseded
    versions ([internal/store/retention/events_retention_replaceable.go] and its
    query).

    The state is the canonical store's tables with the purge queue, the profile
    counters the derivation bumps and the active derivation versions. Text is
    compared bytewise, as a C collation (and every collation on hex ids) does. *)

From S2P Require Import Prelude GoLib Db NostrTags JobQueue CanonicalStore.
Local Open Scope go_scope.

(** * Text order *)

Fixpoint bytes_ltb (a b : list Z) : bool :=
  match a, b with
  | _, [] => false
  | [], _ :: _ => true
  | x :: a, y :: b => (x <? y) || ((x =? y) && bytes_ltb a b)
  end.

Definition str_ltb (s t : string) : bool := bytes_ltb (bytes s) (bytes t).

(** * Tables *)

Record ProfileStats := mkStats {
  follower_count : Z;
  following_count : Z;
  note_count : Z;
  reply_count : Z;
  media_count : Z;
  long_form_note_count : Z;
  stats_version : Z;
}.

Record DeriveTables := mkDerive {
  d_store : EventTables;
  d_purge : gmap string Z;
  d_stats : gmap string ProfileStats;
  d_versions : gmap string Z;
}.

(** An address (kind, pubkey, d-tag), and a version (timestamp, id) of it. *)
Abbreviation address := (Z * string * string)%type (only parsing).
Abbreviation version := (Z * string)%type (only parsing).

Definition set_state (f : gmap address (string * Z) → gmap address (string * Z)) (t : EventTables)
    : EventTables :=
  mkEventTables (events t) (event_tags t) (event_relays t) (f (replaceable_state t)) (job_tables t).

(** [INSERT ... ON CONFLICT (event_id) DO NOTHING] into the purge queue. *)
Definition enqueue_purge (id : string) (createdAt : Z) (q : gmap string Z) : gmap string Z :=
  match q !! id with Some _ => q | None => <[id := createdAt]> q end.

(** * Derivation *)

Definition isReplaceableKind (kind : Z) : bool :=
  if (kind =? 0) || (kind =? 3) then true
  else if (10000 <=? kind) && (kind <? 20000) then true
  else (30000 <=? kind) && (kind <? 40000).

(** [ORDER BY et.tag_index ASC]. *)
Definition index_le (a b : Z * string) : Prop := a.1 ≤ b.1.

#[export] Instance index_le_dec a b : Decision (index_le a b).
Proof. unfold index_le. apply _. Defined.

(** The value of the first d-tag of an event, or the empty string. *)
Definition d_tag_rows (t : EventTables) (id : string) : list (Z * string) :=
  merge_sort index_le
    (omap (λ kv : (string * Z * Z) * (string * string),
             let '((eid, ti, vi), (name, value)) := kv in
             if bool_decide (eid = id) && bool_decide (name = "d") && (0 <=? ti) && (vi =? 0)
             then Some (ti, value) else None)
       (map_to_list (event_tags t))).

Definition d_tag_of (t : EventTables) (id : string) : string :=
  match d_tag_rows t id with [] => "" | (_, v) :: _ => v end.

(** [EXCLUDED.created_at > created_at OR (equal AND EXCLUDED.event_id > event_id)]. *)
Definition beats (new old : version) : bool :=
  (old.1 <? new.1) || ((new.1 =? old.1) && str_ltb old.2 new.2).

Definition other_address (a : address) (id : string) (t : EventTables) : bool :=
  existsb (λ kv : address * (string * Z), negb (bool_decide (kv.1 = a)) && bool_decide (kv.2.1 = id))
    (map_to_list (replaceable_state t)).

(** Writing a winner: the row references its event, an event wins one address
    only, and the trigger queues the displaced winner and takes the new one off
    the queue. *)
Definition write_winner (a : address) (id : string) (createdAt : Z) (old : option (string * Z))
    (t : DeriveTables) : result DeriveTables :=
  match events (d_store t) !! id with
  | None => Err "violates foreign key constraint"
  | Some _ =>
      if other_address a id (d_store t) then Err "violates unique constraint"
      else
        let queued := match old with
                      | Some (oldID, oldCreated) =>
                          if bool_decide (oldID = id) then d_purge t
                          else enqueue_purge oldID oldCreated (d_purge t)
                      | None => d_purge t
                      end in
        Ok (mkDerive (set_state <[a := (id, createdAt)]> (d_store t)) (delete id queued)
              (d_stats t) (d_versions t))
  end.

(** The upsert; the result tells whether the address is new. *)
Definition upsert_winner (a : address) (id : string) (createdAt : Z) (t : DeriveTables)
    : result (DeriveTables * bool) :=
  match replaceable_state (d_store t) !! a with
  | None =>
      match write_winner a id createdAt None t with Ok t' => Ok (t', true) | Err e => Err e end
  | Some (old, oldCreated) =>
      if beats (createdAt, id) (oldCreated, old) then
        match write_winner a id createdAt (Some (old, oldCreated)) t with
        | Ok t' => Ok (t', false)
        | Err e => Err e
        end
      else Ok (t, false)
  end.

(** A version that does not hold its address is queued. *)
Definition queue_loser (a : address) (id : string) (createdAt : Z) (t : DeriveTables) : DeriveTables :=
  match replaceable_state (d_store t) !! a with
  | Some (w, _) => if bool_decide (w = id) then t
                   else mkDerive (d_store t) (enqueue_purge id createdAt (d_purge t)) (d_stats t) (d_versions t)
  | None => mkDerive (d_store t) (enqueue_purge id createdAt (d_purge t)) (d_stats t) (d_versions t)
  end.

Definition DerivationProfilePublicStats : string := "profile_public_stats".

(** [resolveDerivationWriteVersion] without an override: the active version. *)
Definition resolveDerivationWriteVersion (name : string) : go (db DeriveTables) Z :=
  go_wrap ("load active derivation version " +:+ str [34] +:+ name +:+ str [34]
           +:+ " (ensure EnsureRegisteredDerivations ran at startup)")
    (stmt (λ t, match d_versions t !! name with
                | Some v => Ok (t, v)
                | None => Err "no rows in result set"
                end)).

Definition bump_media (version : Z) (o : option ProfileStats) : ProfileStats :=
  match o with
  | None => mkStats 0 0 0 0 1 0 version
  | Some s => mkStats (follower_count s) (following_count s) (note_count s) (reply_count s)
                (media_count s + 1) (long_form_note_count s) version
  end.

Definition bump_articles (version : Z) (o : option ProfileStats) : ProfileStats :=
  match o with
  | None => mkStats 0 0 0 0 0 1 version
  | Some s => mkStats (follower_count s) (following_count s) (note_count s) (reply_count s)
                (media_count s) (long_form_note_count s + 1) version
  end.

Definition bump_stats (msg pubkey : string) (bump : Z → option ProfileStats → ProfileStats)
    : go (db DeriveTables) unit :=
  writeVersion <- resolveDerivationWriteVersion DerivationProfilePublicStats ;;
  go_wrap msg (exec (λ t,
    mkDerive (d_store t) (d_purge t)
      (<[pubkey := bump writeVersion (d_stats t !! pubkey)]> (d_stats t)) (d_versions t))).

(** [incremental] is the handlers' [incrementalProfilePublicStats]. *)
Definition UpdateReplaceableState (incremental : bool) (eventID : string) : go (db DeriveTables) unit :=
  let eventID := trim_space eventID in
  if bool_decide (eventID = "") then go_fail "event id is required"
  else
    row <- go_wrap "load event for replaceable derivation" (stmt (λ t,
      match events (d_store t) !! eventID with
      | Some e => Ok (t, (e, d_tag_of (d_store t) eventID))
      | None => Err "no rows in result set"
      end)) ;;
    let '(event, dTag) := (row : CanonicalEvent * string) in
    if negb (isReplaceableKind (CKind event)) then go_ret tt
    else
      let a := (CKind event, CPubkey event, dTag) in
      tx "begin tx" "commit replaceable derivation tx" (
        isNewAddress <- go_wrap "upsert replaceable state"
                          (stmt (upsert_winner a eventID (CCreatedAt event))) ;;
        go_wrap "queue losing replaceable" (exec (queue_loser a eventID (CCreatedAt event))) ;;
        go_when (isNewAddress && ((CKind event =? 34235) || (CKind event =? 34236)) && incremental)
          (bump_stats "increment addressable media count" (CPubkey event) bump_media) ;;
        go_when (isNewAddress && (CKind event =? 30023) && incremental)
          (bump_stats "increment long-form note count" (CPubkey event) bump_articles)).

(** * Purge *)

Definition supersededReplaceableKinds : list Z :=
  [0; 3; 10000; 10001; 10002; 10003; 10006; 10007; 10009; 10012; 10015; 10019; 10030; 10050; 10063;
   30000; 30002; 30004; 30005; 30008; 30009; 30015; 30023; 30311; 30315; 34235; 34236;
   39000; 39001; 39002; 39003].

(** The event's derivation job may still run, or died recently. *)
Definition job_pins (deadGraceBefore : time) (id : string) (t : JobTables) : bool :=
  match job_with_key ("derive_event_bundle:" +:+ id) t with
  | None => false
  | Some j =>
      bool_decide (JStatus j = StatusPending) || bool_decide (JStatus j = StatusRunning)
      || (bool_decide (JStatus j = StatusDead) && (deadGraceBefore <? JUpdatedAt j))
  end.

(** [ORDER BY p.created_at ASC, p.event_id ASC]. *)
Definition queue_le (a b : string * Z) : Prop :=
  a.2 < b.2 ∨ (a.2 = b.2 ∧ str_ltb b.1 a.1 = false).

#[export] Instance queue_le_dec a b : Decision (queue_le a b).
Proof. unfold queue_le. apply _. Defined.

Definition purge_candidates (supersededBefore deadGraceBefore : time) (limit : Z) (t : DeriveTables)
    : list string :=
  take (Z.to_nat limit) (map fst (merge_sort queue_le
    (List.filter (λ p : string * Z,
       match events (d_store t) !! p.1 with
       | Some e => bool_decide (CKind e ∈ supersededReplaceableKinds)
                   && (CFirstSeenAt e <? supersededBefore)
                   && negb (job_pins deadGraceBefore p.1 (job_tables (d_store t)))
       | None => false
       end) (map_to_list (d_purge t))))).

(** [DELETE FROM events] with its cascades. *)
Definition delete_events (ids : list string) (t : EventTables) : EventTables :=
  mkEventTables
    (filter (λ kv, kv.1 ∉ ids) (events t))
    (filter (λ kv, kv.1.1.1 ∉ ids) (event_tags t))
    (filter (λ kv, kv.1.1 ∉ ids) (event_relays t))
    (filter (λ kv, kv.2.1 ∉ ids) (replaceable_state t))
    (job_tables t).

(** The queue rows whose event is gone that the statement drops: its [LIMIT] has
    no order, so [pick] says which rows the database takes. *)
Definition gone_rows (pick : gset string) (limit : Z) (t : DeriveTables) : list string :=
  take (Z.to_nat limit)
    (List.filter (λ id, bool_decide (events (d_store t) !! id = None) && bool_decide (id ∈ pick))
       (map fst (map_to_list (d_purge t)))).

Definition purge_statement (pick : gset string) (supersededBefore deadGraceBefore : time) (limit : Z)
    (t : DeriveTables) : result (DeriveTables * Z) :=
  if limit <? 0 then Err "LIMIT must not be negative"
  else
    let ids := purge_candidates supersededBefore deadGraceBefore limit t in
    let gone := gone_rows pick limit t in
    Ok (mkDerive (delete_events ids (d_store t))
          (filter (λ kv, (kv.1 ∉ ids) ∧ (kv.1 ∉ gone)) (d_purge t)) (d_stats t) (d_versions t),
        Z.of_nat (length ids)).

(** [guarded]: a transaction with its own statement and lock timeouts. *)
Definition guarded {A} (m : go (db DeriveTables) A) : go (db DeriveTables) A :=
  tx "begin retention tx" "commit retention tx" (
    go_wrap "set retention statement_timeout" (exec (λ t, t)) ;;
    go_wrap "set retention lock_timeout" (exec (λ t, t)) ;;
    m).

Definition PurgeSupersededReplaceableEvents (pick : gset string) (supersededBefore deadGraceBefore : time)
    (limit : Z) : go (db DeriveTables) Z :=
  if limit <=? 0 then go_fail "limit must be > 0"
  else if time_is_zero supersededBefore then go_fail "supersededBefore is required"
  else if time_is_zero deadGraceBefore then go_fail "deadGraceBefore is required"
  else
    go_wrap "purge superseded replaceable events"
      (guarded (stmt (purge_statement pick supersededBefore deadGraceBefore (i32 limit)))).

(** * Order of versions *)

Lemma bytes_ltb_irrefl a : bytes_ltb a a = false.
Proof. induction a as [|x a IH]; simpl; [done|]. rewrite Z.ltb_irrefl, Z.eqb_refl, IH. done. Qed.

Lemma bytes_ltb_trans a b c : bytes_ltb a b = true → bytes_ltb b c = true → bytes_ltb a c = true.
Proof.
  revert b c. induction a as [|x a IH]; intros [|y b] [|z c]; simpl; try done.
  rewrite !orb_true_iff, !andb_true_iff, !Z.ltb_lt, !Z.eqb_eq.
  intros [?|[-> ?]] [?|[-> ?]]; [left; lia|by left|by left|right; eauto].
Qed.

Lemma bytes_ltb_total a b : bytes_ltb a b = false → bytes_ltb b a = false → a = b.
Proof.
  revert b. induction a as [|x a IH]; intros [|y b]; simpl; try done.
  rewrite !orb_false_iff, !andb_false_iff, !Z.ltb_ge, !Z.eqb_neq.
  intros [H1 H2] [H3 H4]. assert (x = y) as -> by lia. f_equal. apply IH; tauto.
Qed.

Lemma beats_irrefl v : beats v v = false.
Proof.
  unfold beats, str_ltb. by rewrite Z.ltb_irrefl, Z.eqb_refl, bytes_ltb_irrefl.
Qed.

Lemma beats_trans u v w : beats u v = true → beats v w = true → beats u w = true.
Proof.
  unfold beats, str_ltb. rewrite !orb_true_iff, !andb_true_iff, !Z.ltb_lt, !Z.eqb_eq.
  intros [?|[? ?]] [?|[? ?]]; [left; lia..|]. right. split; [lia|]. by eapply bytes_ltb_trans.
Qed.

Lemma beats_total u v : u ≠ v → beats u v = false → beats v u = true.
Proof.
  destruct u as [c i], v as [c' i']. unfold beats, str_ltb. simpl. intros Hne.
  rewrite orb_false_iff, andb_false_iff, orb_true_iff, andb_true_iff, Z.ltb_ge, Z.ltb_lt, Z.eqb_neq, Z.eqb_eq.
  intros [H1 H2]. destruct (decide (c = c')) as [->|]; [|left; lia]. right. split; [done|].
  destruct H2 as [?|H2]; [done|]. destruct (bytes_ltb (bytes i) (bytes i')) eqn:E; [done|].
  destruct Hne. f_equal. by apply bytes_inj, bytes_ltb_total.
Qed.

(** * One derivation *)

(** The address and version an event stands for. *)
Definition version_of (t : EventTables) (id : string) : option (address * version) :=
  e ← events t !! id;
  if isReplaceableKind (CKind e) then Some ((CKind e, CPubkey e, d_tag_of t id), (CCreatedAt e, id))
  else None.

(** The row of an address as a version. *)
Definition row_version (r : string * Z) : version := (r.2, r.1).

(** Only the state rows change. *)
Definition same_events (t t' : EventTables) : Prop :=
  events t' = events t ∧ event_tags t' = event_tags t ∧ event_relays t' = event_relays t ∧
  job_tables t' = job_tables t.

Lemma same_events_version t t' id : same_events t t' → version_of t' id = version_of t id.
Proof.
  intros (He & Ht & _). unfold version_of, d_tag_of, d_tag_rows. by rewrite He, Ht.
Qed.

(** What a derivation of version [v] at [a] does to the rows and the queue. *)
Definition row_after (v : version) (o : option (string * Z)) : string * Z :=
  match o with
  | Some r => if beats v (row_version r) then (v.2, v.1) else r
  | None => (v.2, v.1)
  end.

Lemma write_winner_ok a id c old t t' :
  write_winner a id c old t = Ok t' →
  d_store t' = set_state <[a := (id, c)]> (d_store t) ∧
  is_Some (events (d_store t) !! id) ∧
  (∀ x, is_Some (d_purge t' !! x) → x ≠ id ∧ (is_Some (d_purge t !! x) ∨ ∃ oc, old = Some (x, oc))).
Proof.
  unfold write_winner. destruct (events (d_store t) !! id) eqn:Ee; [|done].
  destruct (other_address a id (d_store t)); [done|]. intros [= <-]. simpl.
  split; [done|]. split; [by eexists|]. intros x.
  destruct (decide (x = id)) as [->|Hne]; [rewrite lookup_delete_eq; by intros [? ?]|].
  rewrite lookup_delete_ne by done. intros Hx. split; [done|].
  destruct old as [[o oc]|]; [|by left]. case_bool_decide; [by left|].
  unfold enqueue_purge in Hx. destruct (d_purge t !! o) eqn:Eo; [by left|].
  destruct (decide (x = o)) as [->|Hxo]; [right; by exists oc|].
  rewrite lookup_insert_ne in Hx by done. by left.
Qed.

Lemma queue_loser_ok a id c t :
  d_store (queue_loser a id c t) = d_store t ∧
  ∀ x, is_Some (d_purge (queue_loser a id c t) !! x) →
    is_Some (d_purge t !! x) ∨ (x = id ∧ ∀ r, replaceable_state (d_store t) !! a = Some r → r.1 ≠ id).
Proof.
  assert (∀ x, is_Some (enqueue_purge id c (d_purge t) !! x) → is_Some (d_purge t !! x) ∨ x = id) as Hq.
  { intros x. unfold enqueue_purge. destruct (d_purge t !! id); [by left|].
    destruct (decide (x = id)) as [->|Hne]; [by right|]. rewrite lookup_insert_ne by done. by left. }
  unfold queue_loser. destruct (replaceable_state (d_store t) !! a) as [[w wc]|] eqn:E.
  - case_bool_decide; [split; [done|]; by left|]. split; [done|]. simpl. intros x Hx.
    destruct (Hq x Hx) as [?| ->]; [by left|]. right. split; [done|]. by intros r [= <-].
  - split; [done|]. simpl. intros x Hx. destruct (Hq x Hx) as [?| ->]; [by left|]. right. by split.
Qed.

Record derive_effect (a : address) (v : version) (t t' : DeriveTables) : Prop := {
  de_events : same_events (d_store t) (d_store t');
  de_row : replaceable_state (d_store t') !! a = Some (row_after v (replaceable_state (d_store t) !! a));
  de_other : ∀ a', a' ≠ a → replaceable_state (d_store t') !! a' = replaceable_state (d_store t) !! a';
  de_queue : ∀ x, is_Some (d_purge t' !! x) →
    is_Some (d_purge t !! x) ∨
    (∃ old, replaceable_state (d_store t) !! a = Some old ∧ x = old.1 ∧ beats v (row_version old) = true) ∨
    (x = v.2 ∧ (row_after v (replaceable_state (d_store t) !! a)).1 ≠ x);
}.

Lemma derive_rows a id c t t1 b :
  upsert_winner a id c t = Ok (t1, b) → derive_effect a (c, id) t (queue_loser a id c t1).
Proof.
  intros Hu. destruct (queue_loser_ok a id c t1) as [Hd Hq].
  assert (same_events (d_store t) (d_store t1) ∧
    replaceable_state (d_store t1) !! a = Some (row_after (c, id) (replaceable_state (d_store t) !! a)) ∧
    (∀ a', a' ≠ a → replaceable_state (d_store t1) !! a' = replaceable_state (d_store t) !! a') ∧
    ∀ x, is_Some (d_purge t1 !! x) → is_Some (d_purge t !! x) ∨
      ∃ old, replaceable_state (d_store t) !! a = Some old ∧ x = old.1 ∧ beats (c, id) (row_version old) = true)
    as (H1 & H2 & H3 & H4).
  { unfold upsert_winner in Hu.
    destruct (replaceable_state (d_store t) !! a) as [[old oc]|] eqn:Er.
    - unfold row_after, row_version. simpl. destruct (beats (c, id) (oc, old)) eqn:Eb.
      + destruct (write_winner a id c (Some (old, oc)) t) as [t'|] eqn:Ew; [|done].
        injection Hu as <- _. apply write_winner_ok in Ew as (-> & _ & Hp). split_and!.
        * done.
        * simpl. by rewrite lookup_insert_eq.
        * intros a' Ha'. simpl. by rewrite lookup_insert_ne.
        * intros x Hx. destruct (Hp x Hx) as [_ [?|(oc' & [= <- <-])]]; [by left|]. right. by exists (old, oc).
      + injection Hu as <- _. split_and!; try done. by left.
    - destruct (write_winner a id c None t) as [t'|] eqn:Ew; [|done].
      injection Hu as <- _. apply write_winner_ok in Ew as (-> & _ & Hp). split_and!.
      * done.
      * simpl. by rewrite lookup_insert_eq.
      * intros a' Ha'. simpl. by rewrite lookup_insert_ne.
      * intros x Hx. destruct (Hp x Hx) as [_ [?|(oc' & [=])]]. by left. }
  split; rewrite ?Hd; try done. intros x Hx. destruct (Hq x Hx) as [Hx'|[-> Hn]].
  - destruct (H4 x Hx') as [?|?]; [by left|right; by left].
  - right. right. split; [done|]. by apply Hn.
Qed.

Lemma bump_stats_ok msg pk bump s s' u :
  bump_stats msg pk bump s = (s', Ok u) →
  d_store (tables s') = d_store (tables s) ∧ d_purge (tables s') = d_purge (tables s).
Proof.
  unfold bump_stats, resolveDerivationWriteVersion. intros Hr. go_inv.
  match goal with H : match d_versions (tables s) !! _ with _ => _ end = _ |- _ =>
    destruct (d_versions (tables s) !! DerivationProfilePublicStats); [|done]; injection H as Ht _ end.
  match goal with H : tables s' = _ |- _ => rewrite H end. by rewrite <-Ht.
Qed.

Lemma when_bump_ok c msg pk bump s s' u :
  go_when c (bump_stats msg pk bump) s = (s', Ok u) →
  d_store (tables s') = d_store (tables s) ∧ d_purge (tables s') = d_purge (tables s).
Proof. destruct c; simpl; [apply bump_stats_ok|]. by intros [= <- _]. Qed.

Lemma derive_effect_frame a v t t1 t2 :
  d_store t2 = d_store t1 → d_purge t2 = d_purge t1 → derive_effect a v t t1 → derive_effect a v t t2.
Proof. intros E1 E2 []. split; by rewrite ?E1, ?E2. Qed.

(** A derivation that succeeds moves its address to the newer version; one
    that fails changes no row. *)
Lemma Update_cases inc id s :
  let '(s', r) := UpdateReplaceableState inc id s in
  let t := tables s in let t' := tables s' in
  match r with
  | Err _ => t' = t
  | Ok _ =>
      match version_of (d_store t) (trim_space id) with
      | None => t' = t
      | Some (a, v) => derive_effect a v t t'
      end
  end.
Proof.
  destruct (UpdateReplaceableState inc id s) as [s' r] eqn:E. cbv zeta.
  unfold UpdateReplaceableState in E. case_bool_decide; [by injection E as <- <-|].
  unfold go_bind at 1 in E.
  match type of E with context [go_wrap ?m ?f s] =>
    pose proof (wrap_fst m f s) as Hw; destruct (go_wrap m f s) as [s1 [[e d]|err]] eqn:El end; simpl in Hw.
  2:{ injection E as <- <-. rewrite Hw.
      match goal with |- tables (stmt ?f s).1 = _ => destruct (stmt_cases f s) as [->|[x Hx]]; [done|] end.
      destruct (events (d_store (tables s)) !! trim_space id); [|done]. by injection Hx as ->. }
  clear Hw. go_inv. destruct (events (d_store (tables s)) !! trim_space id) as [e'|] eqn:Ee; [|done].
  injection El as Ht He Hdt. subst e d.
  unfold version_of. rewrite Ee. simpl. destruct (isReplaceableKind (CKind e')).
  2:{ simpl in E. injection E as <- <-. by rewrite Ht. }
  cbn [negb] in E. destruct r as [u|err]; [|apply tx_atomic in E; congruence].
  go_inv.
  match goal with H : upsert_winner _ _ _ _ = _ |- _ => rename H into Hup end.
  repeat match goal with H : go_when _ (bump_stats _ _ _) _ = (_, Ok _) |- _ => apply when_bump_ok in H as [? ?] end.
  apply derive_rows in Hup.
  match goal with H : tables ?x = tables s1 |- _ => rewrite H, <-Ht in Hup end. eapply derive_effect_frame; [| |exact Hup].
  - congruence.
  - congruence.
Qed.

(** * Latest wins, in any order *)

Fixpoint run_derive (ops : list (bool * string)) (s : db DeriveTables) : db DeriveTables * list string :=
  match ops with
  | [] => (s, [])
  | (inc, id) :: ops =>
      let '(s1, r) := UpdateReplaceableState inc id s in
      let '(s2, oks) := run_derive ops s1 in
      (s2, (if is_ok r then [trim_space id] else []) ++ oks)
  end.

(** The versions of an address among some events. *)
Definition versions_at (t : EventTables) (a : address) (ids : list string) : list version :=
  omap (λ id, match version_of t id with
              | Some (a', v) => if bool_decide (a' = a) then Some v else None
              | None => None
              end) ids.

(** The current row and the versions derived. *)
Definition candidates (t : EventTables) (a : address) (ids : list string) : list version :=
  match replaceable_state t !! a with Some r => [row_version r] | None => [] end ++ versions_at t a ids.

Definition latest (cs : list version) (o : option (string * Z)) : Prop :=
  match o with
  | None => cs = []
  | Some r => row_version r ∈ cs ∧ ∀ v, v ∈ cs → v = row_version r ∨ beats (row_version r) v = true
  end.

Lemma latest_unique cs cs' o o' : (∀ v, v ∈ cs ↔ v ∈ cs') → latest cs o → latest cs' o' → o = o'.
Proof.
  intros Heq. destruct o as [[w c]|], o' as [[w' c']|]; simpl; unfold row_version; simpl.
  - intros [H1 H2] [H3 H4]. apply Heq in H1. apply Heq in H3. f_equal.
    destruct (H2 _ H3) as [[= -> ->]|B1]; [done|]. destruct (H4 _ H1) as [[= -> ->]|B2]; [done|].
    pose proof (beats_trans _ _ _ B1 B2) as B. by rewrite beats_irrefl in B.
  - intros [H1 _] ->. apply Heq in H1. set_solver.
  - intros -> [H1 _]. apply Heq in H1. set_solver.
  - done.
Qed.

Lemma row_after_dominates v o :
  (row_version (row_after v o) = v ∨ o = Some (row_after v o)) ∧
  (v = row_version (row_after v o) ∨ beats (row_version (row_after v o)) v = true) ∧
  (∀ r, o = Some r → row_version r = row_version (row_after v o) ∨
                     beats (row_version (row_after v o)) (row_version r) = true).
Proof.
  destruct v as [c i]. unfold row_after, row_version. destruct o as [[w wc]|]; simpl.
  - destruct (beats (c, i) (wc, w)) eqn:E; simpl.
    + split_and!; [by left|by left|]. intros r [= <-]. by right.
    + split_and!; [by right| |intros r [= <-]; by left].
      destruct (decide ((c, i) = (wc, w))) as [?|Hne]; [by left|right; by apply beats_total].
  - split_and!; [by left|by left|done].
Qed.

Lemma latest_step (pre rest : list version) v o r' x :
  (pre = match o with Some r => [row_version r] | None => [] end) →
  r' = row_after v o → latest (row_version r' :: rest) x → latest (pre ++ v :: rest) x.
Proof.
  intros -> -> Hl. destruct (row_after_dominates v o) as (D1 & D2 & D3).
  set (r' := row_after v o) in *. clearbody r'.
  destruct x as [r|]; [|discriminate Hl]. destruct Hl as [Hin Hdom]. split.
  - apply elem_of_cons in Hin as [->|Hin]; [|set_solver].
    destruct D1 as [->|Ho]; [set_solver|]. rewrite Ho. set_solver.
  - assert (∀ u, u = row_version r' ∨ beats (row_version r') u = true →
      u = row_version r ∨ beats (row_version r) u = true) as Hvia.
    { intros u Hu. destruct (Hdom (row_version r')) as [<-|Hb]; [set_solver|done|].
      right. destruct Hu as [->|Hu]; [done|]. by eapply beats_trans. }
    intros u Hu. apply elem_of_app in Hu as [Hu|Hu].
    + destruct o as [r0|]; [|set_solver]. apply list_elem_of_singleton in Hu as ->. apply Hvia. by apply D3.
    + apply elem_of_cons in Hu as [->|Hu]; [by apply Hvia|]. apply Hdom. set_solver.
Qed.

Lemma versions_at_same t t' a ids : same_events t t' → versions_at t' a ids = versions_at t a ids.
Proof.
  intros Hs. unfold versions_at. apply list_omap_ext, Forall_Forall2_diag, List.Forall_forall.
  intros id _. by rewrite (same_events_version t t' id Hs).
Qed.

Lemma run_derive_latest ops s a :
  let '(s', oks) := run_derive ops s in
  same_events (d_store (tables s)) (d_store (tables s')) ∧
  latest (candidates (d_store (tables s)) a oks) (replaceable_state (d_store (tables s')) !! a).
Proof.
  revert s. induction ops as [|[inc id] ops IH]; intros s; simpl.
  { split; [done|]. unfold candidates, versions_at. simpl. rewrite app_nil_r.
    destruct (replaceable_state _ !! a) as [r|]; [|done]. split; [set_solver|].
    intros v Hv. left. set_solver. }
  pose proof (Update_cases inc id s) as Hu. destruct (UpdateReplaceableState inc id s) as [s1 r].
  specialize (IH s1). destruct (run_derive ops s1) as [s2 oks]. cbv zeta in Hu.
  destruct r as [u|e]; simpl.
  2:{ by rewrite <-Hu. }
  destruct (version_of (d_store (tables s)) (trim_space id)) as [[a0 v]|] eqn:Ev.
  2:{ rewrite Hu in IH. unfold candidates, versions_at in *. simpl. by rewrite Ev. }
  destruct Hu as [Hse Hrow Hoth _]. destruct IH as [Hse2 Hl]. split.
  { unfold same_events in *. intuition congruence. }
  unfold candidates in *. rewrite (versions_at_same _ _ _ _ Hse) in Hl.
  unfold versions_at. simpl. rewrite Ev. case_bool_decide as Ha.
  - subst a0. rewrite Hrow in Hl. simpl in Hl.
    eapply latest_step; [reflexivity|reflexivity|exact Hl].
  - rewrite Hoth in Hl by done. exact Hl.
Qed.

(** C38: Latest wins, whatever the order: after any derivations of any events, in
    any order, repeated or failing, each replaceable address holds the version
    with the greatest timestamp (and id) among its previous row and the versions
    derived; so two runs that derive the same events end in the same state. *)
Theorem replaceable_converges (ops ops' : list (bool * string)) (s s0 : db DeriveTables) :
  tables s0 = tables s →
  let '(s', oks) := run_derive ops s in
  let '(s0', oks') := run_derive ops' s0 in
  (∀ a, latest (candidates (d_store (tables s)) a oks) (replaceable_state (d_store (tables s')) !! a)) ∧
  ((∀ id, id ∈ oks ↔ id ∈ oks') →
   replaceable_state (d_store (tables s')) = replaceable_state (d_store (tables s0'))).
Proof.
  intros Heq. pose proof (run_derive_latest ops s) as H1. pose proof (run_derive_latest ops' s0) as H2.
  destruct (run_derive ops s) as [s' oks], (run_derive ops' s0) as [s0' oks'].
  split; [intros a; by apply (H1 a)|]. intros Hoks. apply map_eq. intros a.
  eapply latest_unique; [|by apply (H1 a)|by apply (H2 a)]. rewrite Heq. intros v.
  unfold candidates, versions_at. rewrite !elem_of_app, !list_elem_of_omap. by setoid_rewrite Hoks.
Qed.

(** * The first d-tag *)

Lemma index_le_total : Total index_le.
Proof. intros a b. unfold index_le. lia. Qed.

Lemma index_le_trans : Transitive index_le.
Proof. intros a b c. unfold index_le. lia. Qed.

Lemma elem_of_d_tag_rows t id ti v :
  (ti, v) ∈ d_tag_rows t id ↔ 0 ≤ ti ∧ event_tags t !! (id, ti, 0) = Some ("d", v).
Proof.
  unfold d_tag_rows. rewrite merge_sort_Permutation, list_elem_of_omap. split.
  - intros ([[[eid ti'] vi] [name value]] & Hin & Hf). apply elem_of_map_to_list in Hin.
    destruct (_ && _) eqn:E; [|done]. bool_simpl. by simplify_eq.
  - intros [Hti Hl]. exists ((id, ti, 0), ("d", v)). split; [by apply elem_of_map_to_list|].
    rewrite !bool_decide_eq_true_2 by done. by rewrite (proj2 (Z.leb_le _ _)).
Qed.

(** The d-tag of an event depends on its own tag rows only. *)
Lemma d_tag_of_ext t t' id :
  (∀ ti, event_tags t' !! (id, ti, 0) = event_tags t !! (id, ti, 0)) → d_tag_of t' id = d_tag_of t id.
Proof.
  intros Hext.
  assert (∀ x, x ∈ d_tag_rows t' id ↔ x ∈ d_tag_rows t id) as Hin.
  { intros [ti v]. by rewrite !elem_of_d_tag_rows, Hext. }
  assert (∀ u, StronglySorted index_le (d_tag_rows u id)) as Hs.
  { intros u. apply Sorted_StronglySorted; [apply index_le_trans|]. apply Sorted_merge_sort, index_le_total. }
  pose proof (Hs t) as H1. pose proof (Hs t') as H2. unfold d_tag_of.
  destruct (d_tag_rows t' id) as [|[ti' v'] l'] eqn:E'; destruct (d_tag_rows t id) as [|[ti v] l] eqn:E.
  - done.
  - exfalso. assert ((ti, v) ∈ []) by (apply Hin; set_solver). set_solver.
  - exfalso. assert ((ti', v') ∈ []) by (apply Hin; set_solver). set_solver.
  - assert ((ti', v') ∈ (ti, v) :: l) as Ha by (apply Hin; set_solver).
    assert ((ti, v) ∈ (ti', v') :: l') as Hb by (apply Hin; set_solver).
    assert (ti = ti') as ->.
    { inversion H1 as [|? ? _ F1]; subst. inversion H2 as [|? ? _ F2]; subst.
      rewrite List.Forall_forall in F1, F2.
      apply elem_of_cons in Ha as [[= -> ->]|Ha]; [done|]. apply elem_of_cons in Hb as [[= -> ->]|Hb]; [done|].
      apply list_elem_of_In in Ha, Hb. apply F1 in Ha. apply F2 in Hb. unfold index_le in *. simpl in *. lia. }
    rewrite <-E in Ha. apply elem_of_d_tag_rows in Ha as [_ Ha].
    assert ((ti', v) ∈ d_tag_rows t id) as Hc by (rewrite E; set_solver).
    apply elem_of_d_tag_rows in Hc as [_ Hc]. congruence.
Qed.

(** * Superseded versions *)

(** Every row is held by a stored event of that address and version, and every
    queued event that is still stored is beaten by the holder of its address. *)
Record superseded_ok (t : DeriveTables) : Prop := {
  su_rows : ∀ a r, replaceable_state (d_store t) !! a = Some r →
    version_of (d_store t) r.1 = Some (a, row_version r);
  su_queue : ∀ x a v, is_Some (d_purge t !! x) → version_of (d_store t) x = Some (a, v) →
    ∃ r, replaceable_state (d_store t) !! a = Some r ∧ beats (row_version r) v = true;
}.

Lemma version_of_id t id a v : version_of t id = Some (a, v) → v.2 = id.
Proof.
  unfold version_of. destruct (events t !! id); [|done]. simpl. by destruct (isReplaceableKind _); [intros [= _ <-]|].
Qed.

Lemma row_version_inj r r' : row_version r = row_version r' → r = r'.
Proof. destruct r, r'. unfold row_version. simpl. congruence. Qed.

Lemma row_after_version v o :
  row_after v o = (v.2, v.1) ∨ o = Some (row_after v o).
Proof. unfold row_after. destruct o as [r|]; [|by left]. destruct (beats _ _); [by left|by right]. Qed.

Lemma derive_superseded a v id t t' :
  version_of (d_store t) id = Some (a, v) → derive_effect a v t t' → superseded_ok t → superseded_ok t'.
Proof.
  intros Hv [Hse Hrow Hoth Hq] [Hr Hs].
  pose proof (version_of_id _ _ _ _ Hv) as Hid. destruct (row_after_dominates v (replaceable_state (d_store t) !! a))
    as (D1 & D2 & D3). split.
  - intros a' r Hr'. rewrite (same_events_version _ _ _ Hse). destruct (decide (a' = a)) as [->|Hne].
    + rewrite Hrow in Hr'. injection Hr' as <-.
      destruct (row_after_version v (replaceable_state (d_store t) !! a)) as [E|E]; [|by apply Hr].
      rewrite E. destruct v as [c i]. simpl in *. subst i. exact Hv.
    + rewrite Hoth in Hr' by done. by apply Hr.
  - intros x ax vx Hx Hvx. rewrite (same_events_version _ _ _ Hse) in Hvx.
    destruct (Hq x Hx) as [Hx'|[(old & Ho & -> & Hb)|[-> Hn]]].
    + destruct (Hs x ax vx Hx' Hvx) as (r & Hr1 & Hr2). destruct (decide (ax = a)) as [->|Hne].
      * rewrite Hrow. eexists. split; [done|]. destruct (D3 r Hr1) as [<-|Hb]; [done|by eapply beats_trans].
      * exists r. by rewrite Hoth.
    + rewrite (Hr a old Ho) in Hvx. injection Hvx as <- <-. rewrite Hrow. eexists. split; [done|].
      unfold row_after. rewrite Ho, Hb. by destruct v.
    + rewrite Hid, Hv in Hvx. injection Hvx as <- <-. rewrite Hrow. eexists. split; [done|].
      destruct D2 as [E|?]; [|done]. exfalso. apply Hn. symmetry. exact (f_equal snd E).
Qed.

Lemma superseded_kinds_replaceable k : k ∈ supersededReplaceableKinds → isReplaceableKind k = true.
Proof.
  assert (forallb isReplaceableKind supersededReplaceableKinds = true) as H by reflexivity.
  rewrite forallb_forall in H. intros Hk. by apply H, list_elem_of_In.
Qed.

Lemma elem_of_candidates sb dg limit t id :
  id ∈ purge_candidates sb dg limit t →
  is_Some (d_purge t !! id) ∧ job_pins dg id (job_tables (d_store t)) = false ∧
  ∃ e a v, events (d_store t) !! id = Some e ∧ CFirstSeenAt e < sb ∧ version_of (d_store t) id = Some (a, v).
Proof.
  unfold purge_candidates. intros Hin. apply elem_of_take in Hin as (i & Hi & _).
  apply list_elem_of_lookup_2, list_elem_of_In, in_map_iff in Hi as ([x c] & <- & Hx).
  apply list_elem_of_In in Hx. rewrite merge_sort_Permutation in Hx.
  apply list_elem_of_In, filter_In in Hx as [Hx Hp]. apply list_elem_of_In, elem_of_map_to_list in Hx.
  simpl in *. destruct (events (d_store t) !! x) as [e|] eqn:Ee; [|done]. bool_simpl.
  split; [by eexists|]. split; [done|]. exists e. unfold version_of. rewrite Ee. simpl.
  rewrite superseded_kinds_replaceable by done. by do 2 eexists.
Qed.

Lemma delete_events_lookup ids t id :
  events (delete_events ids t) !! id = if bool_decide (id ∈ ids) then None else events t !! id.
Proof.
  simpl. case_bool_decide.
  - apply map_lookup_filter_None. right. intros x _ Hn. by apply Hn.
  - destruct (events t !! id) eqn:E.
    + apply map_lookup_filter_Some. by split.
    + apply map_lookup_filter_None. by left.
Qed.

Lemma delete_events_version ids t id :
  id ∉ ids → version_of (delete_events ids t) id = version_of t id.
Proof.
  intros Hn. unfold version_of. rewrite delete_events_lookup, bool_decide_eq_false_2 by done.
  destruct (events t !! id); [|done]. simpl. rewrite (d_tag_of_ext t (delete_events ids t)); [done|].
  intros ti. simpl. destruct (event_tags t !! (id, ti, 0)) eqn:E.
  - apply map_lookup_filter_Some. by split.
  - apply map_lookup_filter_None. by left.
Qed.

(** * Purges *)

(** What a purge may do: nothing, or delete queued events that no job pins. *)
Record purge_effect (sb dg : time) (t t' : DeriveTables) (ids : list string) : Prop := {
  pe_ids : ∀ id, id ∈ ids → id ∈ purge_candidates sb dg (Z.of_nat (length ids)) t;
  pe_store : d_store t' = delete_events ids (d_store t);
  pe_queue : ∀ x, is_Some (d_purge t' !! x) → is_Some (d_purge t !! x) ∧ x ∉ ids;
}.

Lemma take_length_self {A} n (l : list A) : take (length (take n l)) l = take n l.
Proof. rewrite length_take. destruct (decide (n ≤ length l)%nat); [by rewrite Nat.min_l|].
  rewrite Nat.min_r by lia. rewrite !take_ge by lia. done. Qed.

Lemma purge_statement_ok pick sb dg limit t t' n :
  purge_statement pick sb dg limit t = Ok (t', n) →
  ∃ ids, n = Z.of_nat (length ids) ∧ n ≤ limit ∧ purge_effect sb dg t t' ids.
Proof.
  unfold purge_statement. destruct (limit <? 0) eqn:El; [done|]. bool_simpl.
  intros [= <- <-]. exists (purge_candidates sb dg limit t). split; [done|]. split.
  { unfold purge_candidates. rewrite length_take. lia. }
  split; [|done|].
  - intros id Hin. unfold purge_candidates at 1. rewrite Nat2Z.id. unfold purge_candidates at 1.
    rewrite take_length_self. exact Hin.
  - simpl. intros x [y Hy]. apply map_lookup_filter_Some in Hy as (Hy & Hn & _). split; [by eexists|done].
Qed.

Lemma Purge_cases pick sb dg limit s :
  let '(s', r) := PurgeSupersededReplaceableEvents pick sb dg limit s in
  match r with
  | Err _ => tables s' = tables s
  | Ok n => ∃ ids, n = Z.of_nat (length ids) ∧ n ≤ i32 limit ∧ purge_effect sb dg (tables s) (tables s') ids
  end.
Proof.
  destruct (PurgeSupersededReplaceableEvents pick sb dg limit s) as [s' r] eqn:E.
  unfold PurgeSupersededReplaceableEvents in E.
  destruct (limit <=? 0); [by injection E as <- <-|].
  destruct (time_is_zero sb); [by injection E as <- <-|].
  destruct (time_is_zero dg); [by injection E as <- <-|].
  destruct r as [n|e].
  - unfold guarded in E. go_inv.
    match goal with H : purge_statement _ _ _ _ _ = _ |- _ => apply purge_statement_ok in H end.
    repeat match goal with H : tables ?a = tables ?b |- _ => rewrite H in *; clear H end. done.
  - unfold go_wrap in E. destruct (guarded _ s) as [s1 [n|e']] eqn:Eg; [done|].
    injection E as <- _. by apply tx_atomic in Eg.
Qed.

Lemma beats_neq u v : beats u v = true → u ≠ v.
Proof. intros H ->. by rewrite beats_irrefl in H. Qed.

(** A queued version never holds its address, so a purge keeps every holder. *)
Lemma purge_keeps_rows sb dg t t' ids :
  purge_effect sb dg t t' ids → superseded_ok t →
  replaceable_state (d_store t') = replaceable_state (d_store t).
Proof.
  intros [Hids Hst _] [Hr Hs]. rewrite Hst. simpl. apply map_filter_id. intros a r Ha Hin. simpl in Hin.
  destruct (elem_of_candidates _ _ _ _ _ (Hids _ Hin)) as (Hq & _).
  destruct (Hs _ _ _ Hq (Hr a r Ha)) as (r' & Hr' & Hb). apply beats_neq in Hb. congruence.
Qed.

Lemma purge_superseded sb dg t t' ids :
  purge_effect sb dg t t' ids → superseded_ok t → superseded_ok t'.
Proof.
  intros He Hok. pose proof (purge_keeps_rows _ _ _ _ _ He Hok) as Hrows.
  destruct He as [Hids Hst Hq]. destruct Hok as [Hr Hs]. split.
  - intros a r Ha. rewrite Hrows in Ha. rewrite Hst, delete_events_version; [by apply Hr|].
    intros Hin. destruct (elem_of_candidates _ _ _ _ _ (Hids _ Hin)) as (Hqr & _).
    destruct (Hs _ _ _ Hqr (Hr a r Ha)) as (r' & Hr' & Hb). apply beats_neq in Hb. congruence.
  - intros x a v Hx Hv. destruct (Hq x Hx) as [Hx' Hn]. rewrite Hrows.
    rewrite Hst, delete_events_version in Hv by done. by apply (Hs x).
Qed.

(** * Derivations and purges, interleaved *)

Inductive ReplOp :=
  | OpDerive (incremental : bool) (eventID : string)
  | OpPurge (pick : gset string) (supersededBefore deadGraceBefore : time) (limit : Z).

Definition repl_op (o : ReplOp) (s : db DeriveTables) : db DeriveTables :=
  match o with
  | OpDerive inc id => (UpdateReplaceableState inc id s).1
  | OpPurge pick sb dg limit => (PurgeSupersededReplaceableEvents pick sb dg limit s).1
  end.

Definition repl_run (ops : list ReplOp) (s : db DeriveTables) : db DeriveTables :=
  fold_left (λ s o, repl_op o s) ops s.

(** Holders only move up, and an event is kept or beaten at its own address. *)
Record advances (t t' : DeriveTables) : Prop := {
  ad_rows : ∀ a r, replaceable_state (d_store t) !! a = Some r →
    ∃ r', replaceable_state (d_store t') !! a = Some r' ∧ (r' = r ∨ beats (row_version r') (row_version r) = true);
  ad_plain : ∀ id, version_of (d_store t) id = None → events (d_store t') !! id = events (d_store t) !! id
    ∧ version_of (d_store t') id = None;
  ad_versions : ∀ id a v, version_of (d_store t) id = Some (a, v) →
    (events (d_store t') !! id = events (d_store t) !! id ∧ version_of (d_store t') id = Some (a, v)) ∨
    (events (d_store t') !! id = None ∧
     ∃ r, replaceable_state (d_store t') !! a = Some r ∧ beats (row_version r) v = true);
}.

Lemma advances_refl t : advances t t.
Proof. split; [intros a r Hr; exists r; by split; [|left]|done|by left]. Qed.

Lemma version_of_None t id : events t !! id = None → version_of t id = None.
Proof. intros E. unfold version_of. by rewrite E. Qed.

Lemma advances_trans t1 t2 t3 : advances t1 t2 → advances t2 t3 → advances t1 t3.
Proof.
  intros [R1 N1 V1] [R2 N2 V2].
  assert (∀ a r v, replaceable_state (d_store t2) !! a = Some r → beats (row_version r) v = true →
    ∃ r', replaceable_state (d_store t3) !! a = Some r' ∧ beats (row_version r') v = true) as Hup.
  { intros a r v Hr Hb. destruct (R2 a r Hr) as (r' & Hr' & [->|Hb']); [by exists r|].
    exists r'. split; [done|]. by eapply beats_trans. }
  split.
  - intros a r Hr. destruct (R1 a r Hr) as (r2 & Hr2 & [->|Hb]); [by apply R2|].
    destruct (Hup _ _ _ Hr2 Hb) as (r3 & ? & ?). exists r3. by split; [|right].
  - intros id Hv. destruct (N1 id Hv) as [E1 Hv2]. destruct (N2 id Hv2) as [E2 Hv3]. split; [congruence|done].
  - intros id a v Hv. destruct (V1 id a v Hv) as [[E1 Hv2]|(E1 & r & Hr & Hb)].
    + rewrite <-E1. by apply V2.
    + right. destruct (N2 id (version_of_None _ _ E1)) as [E2 _]. split; [congruence|]. by apply (Hup a r).
Qed.

Lemma derive_advances a v t t' : derive_effect a v t t' → advances t t'.
Proof.
  intros [Hse Hrow Hoth _]. destruct (row_after_dominates v (replaceable_state (d_store t) !! a)) as (_ & _ & D3).
  split.
  - intros a' r Hr. destruct (decide (a' = a)) as [->|Hne].
    + eexists. split; [exact Hrow|]. destruct (D3 r Hr) as [E|E]; [left; by apply row_version_inj|by right].
    + exists r. rewrite Hoth by done. by split; [|left].
  - intros id Hv. rewrite (same_events_version _ _ _ Hse). by destruct Hse as [-> _].
  - intros id a' v' Hv. left. rewrite (same_events_version _ _ _ Hse). by destruct Hse as [-> _].
Qed.

Lemma purge_advances sb dg t t' ids : purge_effect sb dg t t' ids → superseded_ok t → advances t t'.
Proof.
  intros He Hok. pose proof (purge_keeps_rows _ _ _ _ _ He Hok) as Hrows.
  destruct He as [Hids Hst _]. destruct Hok as [_ Hs]. split.
  - intros a r Hr. rewrite Hrows. exists r. by split; [|left].
  - intros id Hv. assert (id ∉ ids) as Hn.
    { intros Hin. destruct (elem_of_candidates _ _ _ _ _ (Hids _ Hin)) as (_ & _ & e & a & v & _ & _ & Hv').
      congruence. }
    rewrite Hst, delete_events_lookup, delete_events_version, bool_decide_eq_false_2; done.
  - intros id a v Hv. rewrite Hst, delete_events_lookup. case_bool_decide as Hin.
    + right. split; [done|]. rewrite <-Hst, Hrows. destruct (elem_of_candidates _ _ _ _ _ (Hids _ Hin)) as (Hq & _).
      by apply (Hs id).
    + left. by rewrite delete_events_version.
Qed.

Lemma repl_op_advances o s :
  superseded_ok (tables s) → superseded_ok (tables (repl_op o s)) ∧ advances (tables s) (tables (repl_op o s)).
Proof.
  intros Hok. assert (∀ t, t = tables s → superseded_ok t ∧ advances (tables s) t) as Hsame.
  { intros t ->. split; [done|apply advances_refl]. }
  destruct o as [inc id|pick sb dg limit]; simpl.
  - pose proof (Update_cases inc id s) as Hu. destruct (UpdateReplaceableState inc id s) as [s' [u|e]]; [|by apply Hsame].
    cbv zeta in Hu. destruct (version_of _ (trim_space id)) as [[a v]|] eqn:Ev; [|by apply Hsame].
    split; [by eapply derive_superseded|by eapply derive_advances].
  - pose proof (Purge_cases pick sb dg limit s) as Hp.
    destruct (PurgeSupersededReplaceableEvents pick sb dg limit s) as [s' [n|e]]; [|by apply Hsame].
    destruct Hp as (ids & _ & _ & He). split; [by eapply purge_superseded|by eapply purge_advances].
Qed.

(** C37: Purging loses nothing but beaten versions: over any run of derivations
    and purges, with any grace windows, limits and failing statements, the holder
    of an address is always a stored event and only moves to newer versions, every
    event that is not replaceable stays, and an event that went missing was beaten
    at its own (kind, pubkey, d-tag) address by the version now held there. *)
Theorem purge_keeps_latest (ops : list ReplOp) (s : db DeriveTables) :
  superseded_ok (tables s) →
  superseded_ok (tables (repl_run ops s)) ∧ advances (tables s) (tables (repl_run ops s)).
Proof.
  revert s. induction ops as [|o ops IH]; intros s Hok; simpl; [split; [done|apply advances_refl]|].
  destruct (repl_op_advances o s Hok) as [Hok1 Ha1]. destruct (IH _ Hok1) as [Hok2 Ha2].
  split; [done|]. by eapply advances_trans.
Qed.

(** * A concrete run *)

Module ReplaceableExample.

(** Two metadata events of one author, the second newer, a third that ties with
    the second, one with a d-tag, and a note. *)
Definition ev (id : string) (kind createdAt : Z) : CanonicalEvent :=
  mkCanonical id "p" createdAt kind "" "" [] 1 1.

Definition t0 : DeriveTables :=
  mkDerive
    (mkEventTables
       (list_to_map [("m1", ev "m1" 0 100); ("m2", ev "m2" 0 200); ("m3", ev "m3" 0 200);
                     ("md", ev "md" 0 150); ("n", ev "n" 1 100); ("v1", ev "v1" 34235 10)])
       (list_to_map [(("md", 0, 0), ("d", "x")); (("v1", 0, 0), ("d", "clip"))]) ∅ ∅
       (mkJobTables ∅ 1))
    ∅ ∅ (list_to_map [("profile_public_stats", 7)]).

Definition s0 : db DeriveTables := mkDb t0 [].

Definition derives : list ReplOp :=
  map (OpDerive true) ["m3"; "n"; " m1 "; "md"; "m2"; "v1"; "missing"].

Definition final : DeriveTables := tables (repl_run (derives ++ [OpPurge ∅ 5 5 10]) s0).

Lemma t0_ok : superseded_ok t0.
Proof. split; [done|]. intros x a v [? Hx]. discriminate Hx. Qed.

(** The tie of m2 and m3 goes to the greater id, the d-tagged event keeps an
    address of its own, the losers are purged and everything else stays; the
    first video at its address is counted. *)
Example final_state :
  replaceable_state (d_store final) !! (0, "p", "") = Some ("m3", 200) ∧
  replaceable_state (d_store final) !! (0, "p", "x") = Some ("md", 150) ∧
  map (λ id, bool_decide (is_Some (events (d_store final) !! id))) ["m1"; "m2"; "m3"; "md"; "n"; "v1"]
    = [false; false; true; true; true; true] ∧
  d_purge final = ∅ ∧
  (media_count <$> d_stats final !! "p") = Some 1.
Proof. split_and!; vm_compute; reflexivity. Qed.

(** The grace window keeps an event seen recently. *)
Example grace_keeps :
  is_Some (events (d_store (tables (repl_run (derives ++ [OpPurge ∅ 1 5 10]) s0))) !! "m1").
Proof. vm_compute. by eexists. Qed.

Lemma purge_keeps_latest_witness :
  superseded_ok (tables s0) ∧ superseded_ok (tables (repl_run derives s0)) ∧
  advances (tables s0) (tables (repl_run derives s0)).
Proof. split; [exact t0_ok|]. exact (purge_keeps_latest derives s0 t0_ok). Defined.

Definition orderA : list (bool * string) := [(true, "m1"); (true, "m2"); (true, "m3"); (true, "md")].
Definition orderB : list (bool * string) := [(false, "m3"); (false, "md"); (false, "m1"); (false, "m2"); (true, "m1")].

Lemma replaceable_converges_witness :
  replaceable_state (d_store (tables (run_derive orderA s0).1))
  = replaceable_state (d_store (tables (run_derive orderB s0).1)).
Proof.
  pose proof (replaceable_converges orderA orderB s0 s0 eq_refl) as H.
  assert ((run_derive orderA s0).2 = ["m1"; "m2"; "m3"; "md"]) as EA by (vm_compute; reflexivity).
  assert ((run_derive orderB s0).2 = ["m3"; "md"; "m1"; "m2"; "m1"]) as EB by (vm_compute; reflexivity).
  destruct (run_derive orderA s0) as [sA oksA], (run_derive orderB s0) as [sB oksB].
  destruct H as [_ H]. apply H. cbn [snd] in EA, EB. subst. set_solver.
Defined.

End ReplaceableExample.
