(* ===== verification/UntrustedPurge.v ===== *)
(** Retention of events by author and by age
    ([internal/store/retention/untrusted_purge_sync.go],
    [events_retention_untrusted.go], [events_retention.go]): the index of events
    of untrusted authors, which syncs page into it by kind and by author, and the
    purges that delete events and take their statistics back.

    Times are microseconds. The advisory lock and the time budget of a sync are
    arguments: whether the lock was free, and how many rounds of its loops come
    before the deadline. *)

From S2P Require Import Prelude GoLib Json Db NostrTags JobQueue Replaceable Zap AuthorStats.

Local Open Scope go_scope.

(** * Tables *)

Record PurgeRow := mkRow {
  r_pubkey : string;
  r_kind : Z;
  r_created : Z;
  r_seen : Z;
}.

Abbreviation cursor := (Z * string)%type.

Record purge_tables := mkPurge {
  stats : stat_tables;
  first_seen : gmap string Z;
  thread_edges : gset string;
  trust_graph_snapshot : gset string;
  bundle_jobs : JobTables;
  purge_candidates_index : gmap string PurgeRow;
  purge_deferred : gmap string (PurgeRow * Z);
  trusted_mirror : gset string;
  author_resync : gmap string cursor;
  kind_cursor : gmap Z cursor;
}.

(** New statistics and events; what refers to an event goes with it. *)
Definition set_stats (u : stat_tables) (t : purge_tables) : purge_tables :=
  mkPurge u (filter (λ b, is_Some (AuthorStats.events u !! b.1)) (first_seen t))
    (filter (λ id, is_Some (AuthorStats.events u !! id)) (thread_edges t)) (trust_graph_snapshot t) (bundle_jobs t)
    (purge_candidates_index t) (purge_deferred t) (trusted_mirror t) (author_resync t) (kind_cursor t).

Definition set_index (c : gmap string PurgeRow) (d : gmap string (PurgeRow * Z)) (t : purge_tables) : purge_tables :=
  mkPurge (stats t) (first_seen t) (thread_edges t) (trust_graph_snapshot t) (bundle_jobs t) c d (trusted_mirror t) (author_resync t) (kind_cursor t).

Definition set_mirror (m : gset string) (t : purge_tables) : purge_tables :=
  mkPurge (stats t) (first_seen t) (thread_edges t) (trust_graph_snapshot t) (bundle_jobs t) (purge_candidates_index t) (purge_deferred t)
    m (author_resync t) (kind_cursor t).

Definition set_resync (r : gmap string cursor) (t : purge_tables) : purge_tables :=
  mkPurge (stats t) (first_seen t) (thread_edges t) (trust_graph_snapshot t) (bundle_jobs t) (purge_candidates_index t) (purge_deferred t)
    (trusted_mirror t) r (kind_cursor t).

Definition set_cursors (k : gmap Z cursor) (t : purge_tables) : purge_tables :=
  mkPurge (stats t) (first_seen t) (thread_edges t) (trust_graph_snapshot t) (bundle_jobs t) (purge_candidates_index t) (purge_deferred t)
    (trusted_mirror t) (author_resync t) k.

Definition set_snapshot (s : gset string) (t : purge_tables) : purge_tables :=
  mkPurge (stats t) (first_seen t) (thread_edges t) s (bundle_jobs t) (purge_candidates_index t) (purge_deferred t)
    (trusted_mirror t) (author_resync t) (kind_cursor t).

(** A stored event. *)
Definition row_at (t : purge_tables) (id : string) : option PurgeRow :=
  match AuthorStats.events (stats t) !! id, first_seen t !! id with
  | Some e, Some seen => Some (mkRow (ev_pubkey e) (ev_kind e) (ev_created e) seen)
  | _, _ => None
  end.

Definition rows (t : purge_tables) : list (string * PurgeRow) :=
  omap (λ id, match row_at t id with Some r => Some (id, r) | None => None end) (elements (dom (AuthorStats.events (stats t)))).

(** * Orders *)

Definition key_lt (a b : cursor) : bool := (a.1 <? b.1) || ((a.1 =? b.1) && String.ltb a.2 b.2).

Definition by_seen (x : string * PurgeRow) : cursor := (r_seen x.2, x.1).
Definition by_created (x : string * PurgeRow) : cursor := (r_created x.2, x.1).

Definition key_le {A} (key : A → cursor) (x y : A) : Prop := key_lt (key y) (key x) = false.

#[export] Instance key_le_dec {A} (key : A → cursor) x y : Decision (key_le key x y).
Proof. unfold key_le. apply _. Defined.

(** [ORDER BY key LIMIT n] of the rows that satisfy [p]. *)
Definition page_of {A} (key : A → cursor) (limit : nat) (p : A → bool) (l : list A) : list A :=
  take limit (merge_sort (key_le key) (List.filter p l)).

(** * Syncs *)

Definition untrustedPurgeKinds : list Z :=
  [1; 4; 5; 8; 9; 11; 20; 21; 22; 1063; 1068; 1984; 1985; 9041; 9802;
   10000; 10001; 10003; 10006; 10007; 10009; 10012; 10015; 10019; 10030; 10050; 10063;
   30000; 30002; 30004; 30005; 30008; 30009; 30015; 30023; 30311; 30315; 34235; 34236].

Definition untrustedPurgePageSize : nat := 2000.

(** [olderThan.Unix()], and [to_timestamp]. *)
Definition unix (time : Z) : Z := time / 1000000.
Definition to_timestamp (seconds : Z) : Z := seconds * 1000000.

Definition is_thread_reply (t : purge_tables) (id : string) (r : PurgeRow) : bool := (r_kind r =? 1) && bool_decide (id ∈ thread_edges t).

Definition untrusted (t : purge_tables) (pubkey : string) : bool := negb (bool_decide (pubkey ∈ trust_graph_snapshot t)).

Definition snapshot_present (t : purge_tables) : bool := negb (bool_decide (trust_graph_snapshot t = ∅)).

Definition untrustedSnapshotPresent : go (db purge_tables) bool := go_wrap "check trust snapshot" (query snapshot_present).

(** What refers to trusted authors goes, and the authors who left the snapshot are
    queued, from the start unless they already are. *)
Definition diff_mirror (t : purge_tables) : purge_tables :=
  let s := trust_graph_snapshot t in
  let removed : gmap string cursor := gset_to_gmap (-1, "") (trusted_mirror t ∖ s) in
  set_mirror ((trusted_mirror t ∩ s) ∪ s) (set_resync (author_resync t ∪ removed)
    (set_index (filter (λ b, r_pubkey b.2 ∉ s) (purge_candidates_index t)) (filter (λ b, r_pubkey b.2.1 ∉ s) (purge_deferred t)) t)).

Definition diffUntrustedTrustMirror : go (db purge_tables) unit := go_wrap "diff untrusted trust mirror" (exec diff_mirror).

Definition rows_map {A} (f : PurgeRow → A) (l : list (string * PurgeRow)) : gmap string A := list_to_map (map (λ x, (x.1, f x.2)) l).

Definition eligible_at (r : PurgeRow) : Z := Z.max (r_seen r) (to_timestamp (r_created r)).

(** The page, with the eligible rows of it put into the index: the ones that are
    [old] as candidates, the others deferred; rows already there stay. *)
Definition index_page (eligible old : string * PurgeRow → bool) (page : list (string * PurgeRow)) (t : purge_tables) : purge_tables :=
  let good := List.filter eligible page in
  set_index (purge_candidates_index t ∪ rows_map id (List.filter old good))
    (purge_deferred t ∪ rows_map (λ r, (r, eligible_at r)) (List.filter (λ x, negb (old x)) good)) t.

Definition indexable (t : purge_tables) (x : string * PurgeRow) : bool := untrusted t (r_pubkey x.2) && negb (is_thread_reply t x.1 x.2).

Definition author_page (limit : nat) (pubkey : string) (from : cursor) (t : purge_tables) : list (string * PurgeRow) :=
  page_of by_created limit (λ x, bool_decide (r_pubkey x.2 = pubkey) && bool_decide (r_kind x.2 ∈ untrustedPurgeKinds)
                                 && key_lt from (by_created x)) (rows t).

Definition is_old (olderThan : Z) (x : string * PurgeRow) : bool := (r_created x.2 <? unix olderThan) && (r_seen x.2 <? olderThan).

Definition scan_author (limit : nat) (pubkey : string) (from : cursor) (olderThan : Z) : go (db purge_tables) (list (string * PurgeRow)) :=
  stmt (λ t, let page := author_page limit pubkey from t in Ok (index_page (indexable t) (is_old olderThan) page t, page)).

(** The first author in the queue. *)
Definition first_resync (t : purge_tables) : option (string * cursor) :=
  head (merge_sort (key_le (λ x : string * cursor, (0, x.1))) (map_to_list (author_resync t))).

Definition resyncOneUntrustedAuthor (limit : nat) (olderThan : Z) : go (db purge_tables) bool :=
  tx_if "begin untrusted author resync" (λ trusted : bool, if trusted then "commit retrusted author resync" else "commit untrusted author resync")
    (next <- go_wrap "load untrusted author resync" (query first_resync) ;;
     match next with
     | None => go_ret (None, false)
     | Some (pubkey, from) =>
         trusted <- go_wrap "check resync author trust" (query (λ t, bool_decide (pubkey ∈ trust_graph_snapshot t))) ;;
         if trusted : bool then
           go_wrap "drop retrusted author resync" (exec (λ t, set_resync (delete pubkey (author_resync t)) t)) ;;
           go_ret (Some true, true)
         else
           scanned <- go_wrap ("resync untrusted author " +:+ pubkey) (scan_author limit pubkey from olderThan) ;;
           (if (length scanned <? limit)%nat then
              go_wrap "finish untrusted author resync" (exec (λ t, set_resync (delete pubkey (author_resync t)) t))
            else match list.last scanned with
                 | None => go_wrap "finish untrusted author resync" (exec (λ t, set_resync (delete pubkey (author_resync t)) t))
                 | Some x => go_wrap "advance untrusted author resync" (exec (λ t,
                     set_resync (alter (λ _, by_created x) pubkey (author_resync t)) t))
                 end) ;;
           go_ret (Some false, true)
     end).

(** * Promotion of deferred rows *)

Abbreviation deferred_row := (string * (PurgeRow * Z))%type.

Definition by_eligible (x : deferred_row) : cursor := (x.2.2, x.1).

Definition due_rows (limit : nat) (olderThan : Z) (t : purge_tables) : list deferred_row :=
  page_of by_eligible limit (λ x, x.2.2 <=? olderThan) (map_to_list (purge_deferred t)).

Definition promotable (olderThan : Z) (t : purge_tables) (x : deferred_row) : bool :=
  snapshot_present t && untrusted t (r_pubkey x.2.1) && is_old olderThan (x.1, x.2.1) && negb (is_thread_reply t x.1 x.2.1).

Definition settled (olderThan : Z) (t : purge_tables) (x : deferred_row) : bool :=
  snapshot_present t
  && (promotable olderThan t x || bool_decide (is_Some (purge_candidates_index t !! x.1))
      || negb (untrusted t (r_pubkey x.2.1)) || is_thread_reply t x.1 x.2.1).

Definition promote (limit : nat) (olderThan : Z) (t : purge_tables) : purge_tables * nat :=
  let due := due_rows limit olderThan t in
  let gone := List.filter (settled olderThan t) due in
  (set_index (purge_candidates_index t ∪ list_to_map (map (λ x, (x.1, x.2.1)) (List.filter (promotable olderThan t) due)))
     (filter (λ b, b.1 ∉ map fst gone) (purge_deferred t)) t, length gone).

Definition promoteDeferredUntrusted (limit : nat) (olderThan : Z) : go (db purge_tables) nat :=
  go_wrap "promote deferred untrusted events" (stmt (λ t, Ok (promote limit olderThan t))).

(** * Pages of a kind *)

Definition kind_page (limit : nat) (kind : Z) (from : cursor) (olderThan : Z) (t : purge_tables) : list (string * PurgeRow) :=
  page_of by_seen limit (λ x, (r_kind x.2 =? kind) && key_lt from (by_seen x) && (r_seen x.2 <? olderThan)) (rows t).

Definition scan_kind (limit : nat) (kind : Z) (from : cursor) (olderThan : Z) : go (db purge_tables) (list (string * PurgeRow)) :=
  stmt (λ t, let page := kind_page limit kind from olderThan t in
    Ok (index_page (λ x, snapshot_present t && indexable t x) (λ x, r_created x.2 <? unix olderThan) page t, page)).

Definition backfillUntrustedKindPage (limit : nat) (kind olderThan : Z) : go (db purge_tables) bool :=
  tx_if "begin untrusted kind backfill" (λ _ : unit, "commit untrusted kind backfill")
    (from <- go_wrap ("load untrusted kind cursor " +:+ str (itoa kind)) (stmt (λ t,
       match kind_cursor t !! kind with Some c => Ok (t, c) | None => Err "no rows in result set" end)) ;;
     scanned <- go_wrap ("backfill untrusted kind " +:+ str (itoa kind)) (scan_kind limit kind from olderThan) ;;
     match list.last scanned with
     | None => go_ret (None, false)
     | Some x =>
         go_wrap ("advance untrusted kind cursor " +:+ str (itoa kind)) (exec (λ t,
           set_cursors (alter (λ _, by_seen x) kind (kind_cursor t)) t)) ;;
         go_ret (Some tt, (length scanned =? limit)%nat)
     end).

(** * A sync *)

(** Each loop has the rounds left before the deadline, and leaves what it did not
    use; no rounds are left for the rest when the snapshot is found empty. *)
Fixpoint resync_authors (limit : nat) (olderThan : Z) (rounds : nat) : go (db purge_tables) (option nat) :=
  match rounds with
  | O => go_ret (Some O)
  | S rounds =>
      present <- untrustedSnapshotPresent ;;
      if negb present then go_ret None
      else
        progressed <- resyncOneUntrustedAuthor limit olderThan ;;
        if progressed : bool then resync_authors limit olderThan rounds else go_ret (Some rounds)
  end.

Fixpoint promote_deferred (limit : nat) (olderThan : Z) (rounds : nat) : go (db purge_tables) (option nat) :=
  match rounds with
  | O => go_ret (Some O)
  | S rounds =>
      present <- untrustedSnapshotPresent ;;
      if negb present then go_ret None
      else
        n <- promoteDeferredUntrusted limit olderThan ;;
        if (n <? limit)%nat then go_ret (Some rounds) else promote_deferred limit olderThan rounds
  end.

Fixpoint backfill_kind (limit : nat) (olderThan kind : Z) (rounds : nat) : go (db purge_tables) (option nat) :=
  match rounds with
  | O => go_ret (Some O)
  | S rounds =>
      present <- untrustedSnapshotPresent ;;
      if negb present then go_ret None
      else
        full <- backfillUntrustedKindPage limit kind olderThan ;;
        if full : bool then backfill_kind limit olderThan kind rounds else go_ret (Some rounds)
  end.

Fixpoint backfill_kinds (limit : nat) (olderThan : Z) (kinds : list Z) (rounds : nat) : go (db purge_tables) (option nat) :=
  match kinds with
  | [] => go_ret (Some rounds)
  | kind :: kinds =>
      left <- backfill_kind limit olderThan kind rounds ;;
      match left with None => go_ret None | Some rounds => backfill_kinds limit olderThan kinds rounds end
  end.

(** The result is the rounds left, [None] when the sync had nothing to do. *)
Definition syncUntrustedPurgeCandidates (limit : nat) (locked : bool) (rounds : nat) (olderThan : Z) : go (db purge_tables) (option nat) :=
  go_wrap "acquire untrusted purge sync conn" (query (λ _, tt)) ;;
  locked <- go_wrap "lock untrusted purge sync" (query (λ _, locked)) ;;
  if negb locked then go_ret None
  else
    go_wrap "set untrusted purge sync statement_timeout" (query (λ _, tt)) ;;
    present <- untrustedSnapshotPresent ;;
    if negb present then go_ret None
    else
      diffUntrustedTrustMirror ;;
      left <- resync_authors limit olderThan rounds ;;
      match left with
      | None => go_ret None
      | Some rounds =>
          left <- promote_deferred limit olderThan rounds ;;
          match left with
          | None => go_ret None
          | Some rounds => backfill_kinds limit olderThan untrustedPurgeKinds rounds
          end
      end.

(** * Purges *)

Section purges.
Context `{UnicodeTables}.
Context (noteMediaFlags : EventRow → MediaFlags).

(** [guardedWithTx]. *)
Definition guarded_tx {A} (m : go (db purge_tables) A) : go (db purge_tables) A :=
  tx "begin retention tx" "commit retention tx"
    (go_wrap "set retention statement_timeout" (query (λ _, tt)) ;;
     go_wrap "set retention lock_timeout" (query (λ _, tt)) ;;
     m).

Definition reverse_and_delete (ids : list string) : go (db purge_tables) Z := zoom stats set_stats (reverseAndDeleteTx noteMediaFlags ids).

(** A query with a [LIMIT] of 32 bits. *)
Definition limited {A} (limit : Z) (f : nat → purge_tables → A) : go (db purge_tables) A :=
  stmt (λ t, if i32 limit <? 0 then Err "LIMIT must not be negative" else Ok (t, f (Z.to_nat (i32 limit)) t)).

Definition drop_reply_candidates (t : purge_tables) : purge_tables :=
  set_index (filter (λ b, is_thread_reply t b.1 b.2 = false) (purge_candidates_index t)) (purge_deferred t) t.

Definition selectUntrustedAuthorEventCandidates (olderThan deadGraceBefore : Z) (limit : nat) (t : purge_tables) : list string :=
  map fst (page_of by_created limit (λ x, is_old olderThan x && snapshot_present t && indexable t x
                                          && negb (job_pins deadGraceBefore x.1 (bundle_jobs t)))
    (map_to_list (purge_candidates_index t))).

Definition purge_untrusted_tx (olderThan deadGraceBefore limit : Z) : go (db purge_tables) Z :=
  guarded_tx
    (go_wrap "drop untrusted reply candidates" (exec drop_reply_candidates) ;;
     ids <- go_wrap "select untrusted author event candidates" (limited limit (selectUntrustedAuthorEventCandidates olderThan deadGraceBefore)) ;;
     deleted <- reverse_and_delete ids ;;
     if bool_decide (ids = []) then go_ret deleted
     else
       go_wrap "drop purged untrusted candidates" (exec (λ t,
         set_index (filter (λ b, b.1 ∉ ids) (purge_candidates_index t)) (purge_deferred t) t)) ;;
       go_wrap "drop purged untrusted deferred" (exec (λ t,
         set_index (purge_candidates_index t) (filter (λ b, b.1 ∉ ids) (purge_deferred t)) t)) ;;
       go_ret deleted).

(** The times are given; the limit is an [int]. *)
Definition PurgeUntrustedAuthorEvents (page : nat) (locked : bool) (rounds : nat) (olderThan deadGraceBefore limit : Z)
    : go (db purge_tables) Z :=
  if limit <=? 0 then go_fail "limit must be > 0"
  else
    go_wrap "sync untrusted purge candidates" (syncUntrustedPurgeCandidates page locked rounds olderThan) ;;
    go_wrap "purge untrusted author events" (purge_untrusted_tx olderThan deadGraceBefore limit).

Definition expiredEngagementKinds : list Z := [6; 7; 1018; 1059; 1311; 9321; 9735].

Definition selectExpiredEngagementEventCandidates (createdBefore deadGraceBefore : Z) (limit : nat) (t : purge_tables) : list string :=
  map fst (page_of by_created limit (λ x, bool_decide (r_kind x.2 ∈ expiredEngagementKinds) && (r_created x.2 <? unix createdBefore)
                                          && negb (job_pins deadGraceBefore x.1 (bundle_jobs t))) (rows t)).

Definition PurgeExpiredEngagementEvents (createdBefore deadGraceBefore limit : Z) : go (db purge_tables) Z :=
  if limit <=? 0 then go_fail "limit must be > 0"
  else
    go_wrap "purge expired engagement events" (guarded_tx
      (ids <- go_wrap "select expired engagement event candidates"
         (limited limit (selectExpiredEngagementEventCandidates createdBefore deadGraceBefore)) ;;
       reverse_and_delete ids)).
End purges.
