(* ===== verification/UntrustedIndex.v ===== *)
(** The index of untrusted authors, over any sequence of stored events, changes
    of trust, syncs and purges: what a purge deletes, and what a sync finds; with
    the cases in which events stay out of the index or are purged too early. *)

From S2P Require Import Prelude GoLib Json Db NostrTags JobQueue Replaceable Zap AuthorStats UntrustedPurge.

(** * Orders and pages *)

Lemma key_lt_spec a b : key_lt a b = true ↔ a.1 < b.1 ∨ (a.1 = b.1 ∧ String.leb b.2 a.2 = false).
Proof.
  unfold key_lt. rewrite orb_true_iff, andb_true_iff, Z.ltb_lt, Z.eqb_eq, ltb_leb, negb_true_iff. done.
Qed.

Lemma key_lt_false a b : key_lt a b = false ↔ b.1 < a.1 ∨ (a.1 = b.1 ∧ String.leb b.2 a.2 = true).
Proof.
  rewrite <-not_true_iff_false, key_lt_spec. destruct (String.leb b.2 a.2); split; intros; try (right; split; [lia|done]); try lia; naive_solver lia.
Qed.

Lemma key_lt_irrefl a : key_lt a a = false.
Proof. apply key_lt_false. right. split; [done|]. by destruct (String.leb_total a.2 a.2). Qed.

Lemma key_nlt_trans a b c : key_lt b a = false → key_lt c b = false → key_lt c a = false.
Proof.
  rewrite !key_lt_false. intros [?|[? ?]] [?|[? ?]]; try (left; lia). right. split; [lia|]. by eapply leb_trans.
Qed.

Lemma key_lt_antisym a b : key_lt a b = false → key_lt b a = false → a = b.
Proof.
  rewrite !key_lt_false. intros [?|[? ?]] [?|[? ?]]; try lia. destruct a, b. simpl in *. f_equal; [done|]. by apply String.leb_antisym.
Qed.

Lemma key_lt_le a b : key_lt a b = true → key_lt b a = false.
Proof.
  intros E. destruct (key_lt b a) eqn:E'; [|done]. apply key_lt_spec in E, E'. destruct E as [?|[? E]], E' as [?|[? E']]; try lia.
  destruct (String.leb_total a.2 b.2); congruence.
Qed.

Lemma key_lt_trans a b c : key_lt a b = true → key_lt b c = true → key_lt a c = true.
Proof.
  intros E1 E2. destruct (key_lt a c) eqn:E; [done|]. apply key_lt_le in E1 as L1.
  rewrite (key_nlt_trans c a b E L1) in E2. done.
Qed.

#[export] Instance key_le_total {A} (key : A → cursor) : Total (key_le key).
Proof.
  intros x y. unfold key_le. destruct (key_lt (key y) (key x)) eqn:E; [right; by apply key_lt_le|by left].
Qed.

#[export] Instance key_le_trans {A} (key : A → cursor) : Transitive (key_le key).
Proof. intros x y z. unfold key_le. apply key_nlt_trans. Qed.

(** What a page holds, and that it leaves out only what comes after it. *)
Section pages.
Context {A : Type} (key : A → cursor) (limit : nat) (p : A → bool) (l : list A).

Lemma elem_of_page x : x ∈ page_of key limit p l → x ∈ l ∧ p x = true.
Proof.
  unfold page_of. intros Hx. apply elem_of_take in Hx as (i & Hi & _). apply list_elem_of_lookup_2 in Hi.
  rewrite merge_sort_Permutation in Hi. by apply list_elem_of_In, filter_In in Hi as [?%list_elem_of_In ?].
Qed.

Lemma page_length : (length (page_of key limit p l) ≤ limit)%nat.
Proof. unfold page_of. rewrite length_take. lia. Qed.

Lemma page_rest x y : x ∈ l → p x = true → y ∈ page_of key limit p l → x ∈ page_of key limit p l ∨ key_le key y x.
Proof.
  intros Hx Hp Hy. unfold page_of in *. set (q := merge_sort (key_le key) (List.filter p l)) in *.
  assert (x ∈ q) as Hxq by (unfold q; rewrite merge_sort_Permutation; apply list_elem_of_In, filter_In; split; [by apply list_elem_of_In|done]).
  rewrite <-(take_drop limit q), elem_of_app in Hxq. destruct Hxq as [Hxq|Hxq]; [by left|]. right.
  assert (StronglySorted (key_le key) q) as Hs by (apply Sorted_StronglySorted; [apply _|]; apply (Sorted_merge_sort (key_le key))).
  rewrite <-(take_drop limit q) in Hs. by eapply StronglySorted_app_1_elem_of.
Qed.

Lemma page_short x : x ∈ l → p x = true → (length (page_of key limit p l) < limit)%nat → x ∈ page_of key limit p l.
Proof.
  intros Hx Hp Hlen. unfold page_of in *. rewrite length_take in Hlen. rewrite take_ge by lia. rewrite merge_sort_Permutation.
  apply list_elem_of_In, filter_In. split; [by apply list_elem_of_In|done].
Qed.

Lemma page_before x y : x ∈ page_of key limit p l → list.last (page_of key limit p l) = Some y → key_lt (key y) (key x) = false.
Proof.
  intros Hx Hy. unfold page_of in *. set (q := merge_sort (key_le key) (List.filter p l)) in *.
  assert (StronglySorted (key_le key) q) as Hs by (apply Sorted_StronglySorted; [apply _|]; apply (Sorted_merge_sort (key_le key))).
  rewrite <-(take_drop limit q) in Hs. apply StronglySorted_app_1_l in Hs. apply last_Some in Hy as [l' Hl]. rewrite Hl in Hx, Hs.
  apply elem_of_app in Hx as [Hx|Hx]; [by apply (StronglySorted_app_1_elem_of _ _ _ x y Hs Hx); set_solver|].
  apply list_elem_of_singleton in Hx as ->. apply key_lt_irrefl.
Qed.

(** What is left out comes after the last row of the page. *)
Lemma page_last x y : x ∈ l → p x = true → list.last (page_of key limit p l) = Some y →
  (∀ z, z ∈ l → key z = key x → z = x) → x ∈ page_of key limit p l ∨ key_lt (key y) (key x) = true.
Proof.
  intros Hx Hp Hy Hinj. assert (y ∈ page_of key limit p l) as Hyp by (apply last_Some in Hy as [l' ->]; set_solver).
  destruct (page_rest x y Hx Hp Hyp) as [|Hle]; [by left|]. destruct (key_lt (key y) (key x)) eqn:E; [by right|]. left.
  apply elem_of_page in Hyp as Hyl. rewrite <-(Hinj y); [done|by apply Hyl|]. by apply key_lt_antisym.
Qed.
End pages.

(** * Stored rows *)

Lemma elem_of_rows t id r : (id, r) ∈ rows t ↔ row_at t id = Some r.
Proof.
  unfold rows. rewrite list_elem_of_omap. split.
  - intros (i & _ & E). destruct (row_at t i) eqn:Er; [|done]. by injection E as -> ->.
  - intros E. exists id. rewrite E. split; [|done]. apply elem_of_elements, elem_of_dom. unfold row_at in E.
    destruct (AuthorStats.events (stats t) !! id); [by eexists|done].
Qed.

Lemma rows_key t (x z : string * PurgeRow) : x ∈ rows t → z ∈ rows t → z.1 = x.1 → z = x.
Proof. destruct x, z. rewrite !elem_of_rows. simpl. intros ? ? ->. congruence. Qed.

Lemma rows_map_lookup {A} (f : PurgeRow → A) l id v : rows_map f l !! id = Some v → ∃ r, (id, r) ∈ l ∧ v = f r.
Proof.
  unfold rows_map. intros E. apply elem_of_list_to_map_2, list_elem_of_fmap in E as ([i r] & [= -> ->] & Hin). by exists r.
Qed.

Lemma rows_map_dom {A} (f : PurgeRow → A) l id r : (id, r) ∈ l → id ∈ dom (rows_map f l).
Proof.
  intros Hin. unfold rows_map. rewrite dom_list_to_map_L, elem_of_list_to_set, list_elem_of_fmap. exists (id, f r). split; [done|].
  apply list_elem_of_fmap. by exists (id, r).
Qed.

(** * The index covers the stored events *)

Section coverage.

(** Stored rows are determined by their id, and no event is dated before 1970. *)
Context (source : string → EventRow).
Hypothesis source_created : ∀ id, 0 ≤ ev_created (source id).

(** Whether other sweeps delete events too. *)
Context (foreign : bool).

Definition of_source (id : string) (r : PurgeRow) : Prop :=
  r_pubkey r = ev_pubkey (source id) ∧ r_kind r = ev_kind (source id) ∧ r_created r = ev_created (source id).

(** A row of the index: of a kind that is purged, and seen no later than the event
    that is stored, which is the one it was made for unless others delete. *)
Record indexed (clock : Z) (t : purge_tables) (id : string) (r : PurgeRow) : Prop := {
  in_source : of_source id r;
  in_kind : r_kind r ∈ untrustedPurgeKinds;
  in_clock : r_seen r ≤ clock;
  in_seen : ∀ s, first_seen t !! id = Some s → r_seen r ≤ s;
  in_live : foreign = false → first_seen t !! id = Some (r_seen r);
}.

(** Where a stored event is looked for: past the cursor of its kind, in the index,
    among the events of an author of the mirror, or of one in the queue. *)
Inductive covered (t : purge_tables) (id : string) (r : PurgeRow) : Prop :=
| CovAhead c : kind_cursor t !! r_kind r = Some c → key_lt c (r_seen r, id) = true → covered t id r
| CovCandidate : is_Some (purge_candidates_index t !! id) → covered t id r
| CovDeferred : is_Some (purge_deferred t !! id) → covered t id r
| CovMirror : r_pubkey r ∈ trusted_mirror t → covered t id r
| CovQueue c : author_resync t !! r_pubkey r = Some c → key_lt c (r_created r, id) = true → covered t id r.

Record index_ok (clock : Z) (t : purge_tables) : Prop := {
  ix_events : ∀ id e, AuthorStats.events (stats t) !! id = Some e → e = source id;
  ix_rows : ∀ id, is_Some (first_seen t !! id) → is_Some (AuthorStats.events (stats t) !! id);
  ix_seen : ∀ id s, first_seen t !! id = Some s → s ≤ clock;
  ix_candidate : ∀ id r, purge_candidates_index t !! id = Some r → indexed clock t id r;
  ix_deferred : ∀ id r el, purge_deferred t !! id = Some (r, el) → indexed clock t id r ∧ el = eligible_at r;
  ix_cursor : ∀ k, k ∈ untrustedPurgeKinds → ∃ c, kind_cursor t !! k = Some c ∧ c.1 < clock;
  ix_covered : ∀ id r, row_at t id = Some r → r_kind r ∈ untrustedPurgeKinds → is_thread_reply t id r = false → covered t id r;
}.

(** A sync changes the index and the cursors only. *)
Record mid (clock : Z) (t0 t : purge_tables) : Prop := {
  md_stats : stats t = stats t0;
  md_seen : first_seen t = first_seen t0;
  md_threads : thread_edges t = thread_edges t0;
  md_snapshot : trust_graph_snapshot t = trust_graph_snapshot t0;
  md_present : snapshot_present t0 = true;
  md_mirror : trusted_mirror t = trust_graph_snapshot t0;
  md_index : index_ok clock t;
}.

Lemma row_at_source clock t id r : index_ok clock t → row_at t id = Some r → of_source id r ∧ first_seen t !! id = Some (r_seen r).
Proof.
  intros Hix. unfold row_at. destruct (AuthorStats.events (stats t) !! id) as [e|] eqn:He; [|done].
  destruct (first_seen t !! id) as [s|]; [|done]. intros [= <-]. apply (ix_events _ _ Hix) in He as ->. done.
Qed.

Lemma row_at_same t t' id : stats t' = stats t → first_seen t' = first_seen t → row_at t' id = row_at t id.
Proof. unfold row_at. by intros -> ->. Qed.

Lemma row_indexed clock t id r : index_ok clock t → row_at t id = Some r → r_kind r ∈ untrustedPurgeKinds → indexed clock t id r.
Proof.
  intros Hix Hr Hk. apply (row_at_source clock) in Hr as [Hsrc Hseen]; [|done].
  split; [done|done|by eapply (ix_seen _ _ Hix)| |done]. rewrite Hseen. by intros s [= <-].
Qed.

Lemma indexed_same clock t t' id r : first_seen t' = first_seen t → indexed clock t id r → indexed clock t' id r.
Proof. intros E [H1 H2 H3 H4 H5]. split; try done; by rewrite E. Qed.

(** More of the index, fewer queued events and later cursors, as long as what they
    pass is in the index. *)
Lemma index_step clock t t' :
  index_ok clock t → stats t' = stats t → first_seen t' = first_seen t → thread_edges t' = thread_edges t →
  (∀ id r, purge_candidates_index t' !! id = Some r → purge_candidates_index t !! id = Some r ∨
     (row_at t id = Some r ∧ r_kind r ∈ untrustedPurgeKinds) ∨ ∃ el, purge_deferred t !! id = Some (r, el)) →
  (∀ id r el, purge_deferred t' !! id = Some (r, el) → purge_deferred t !! id = Some (r, el) ∨
     ((row_at t id = Some r ∧ r_kind r ∈ untrustedPurgeKinds) ∧ el = eligible_at r)) →
  (∀ k, k ∈ untrustedPurgeKinds → ∃ c, kind_cursor t' !! k = Some c ∧ c.1 < clock) →
  (∀ id r, row_at t id = Some r → r_kind r ∈ untrustedPurgeKinds → is_thread_reply t id r = false → covered t id r → covered t' id r) →
  index_ok clock t'.
Proof.
  intros Hix Es Ef Et Hc Hd Hk Hcov. pose proof Hix as [XE XR XS XC XD XK XV].
  split; [by rewrite Es|by rewrite Ef, Es|by rewrite Ef| | |done|].
  - intros id r Hr. apply (indexed_same clock t); [done|]. destruct (Hc id r Hr) as [Hr'|[[Hr' Hkd]|[el Hr']]]; [by apply XC|by apply row_indexed|].
    by destruct (XD id r el Hr').
  - intros id r el Hr. destruct (Hd id r el Hr) as [Hr'|[[Hr' Hkd] ->]].
    + destruct (XD id r el Hr') as [? ->]. split; [|done]. by apply (indexed_same clock t).
    + split; [|done]. apply (indexed_same clock t); [done|]. by apply row_indexed.
  - intros id r. rewrite (row_at_same t t') by done. intros Hr Hkind Hrep.
    assert (is_thread_reply t id r = false) as Hrep' by (unfold is_thread_reply in *; by rewrite Et in Hrep). auto.
Qed.

(** ** Pages into the index *)

Lemma index_page_candidates eligible old page t id r :
  purge_candidates_index (index_page eligible old page t) !! id = Some r →
  purge_candidates_index t !! id = Some r ∨ (id, r) ∈ page.
Proof.
  cbn. intros Hr. apply lookup_union_Some_raw in Hr as [Hr|[_ Hr]]; [by left|]. right.
  apply rows_map_lookup in Hr as (r' & Hin & ->). apply list_elem_of_In, filter_In in Hin as [Hin _]. apply filter_In in Hin as [Hin _].
  by apply list_elem_of_In.
Qed.

Lemma index_page_deferred eligible old page t id r el :
  purge_deferred (index_page eligible old page t) !! id = Some (r, el) →
  purge_deferred t !! id = Some (r, el) ∨ ((id, r) ∈ page ∧ old (id, r) = false ∧ el = eligible_at r).
Proof.
  cbn. intros Hr. apply lookup_union_Some_raw in Hr as [Hr|[_ Hr]]; [by left|]. right.
  apply rows_map_lookup in Hr as (r' & Hin & [= -> ->]). apply list_elem_of_In, filter_In in Hin as [Hin Ho]. apply filter_In in Hin as [Hin _].
  apply negb_true_iff in Ho. split_and!; [by apply list_elem_of_In|done|done].
Qed.

Lemma index_page_grows eligible old page t id r : covered t id r → covered (index_page eligible old page t) id r.
Proof.
  intros [c Hk Hlt|[v Hv]|[v Hv]|Hm|c Hq Hlt].
  - by eapply CovAhead.
  - apply CovCandidate. exists v. by apply lookup_union_Some_l.
  - apply CovDeferred. exists v. by apply lookup_union_Some_l.
  - by apply CovMirror.
  - by eapply CovQueue.
Qed.

Definition in_index (t : purge_tables) (id : string) : Prop := is_Some (purge_candidates_index t !! id) ∨ is_Some (purge_deferred t !! id).

Lemma in_index_covered t id r : in_index t id → covered t id r.
Proof. intros [Hc|Hd]; [by apply CovCandidate|by apply CovDeferred]. Qed.

Lemma index_page_in eligible old page t id r :
  (id, r) ∈ page → eligible (id, r) = true → in_index (index_page eligible old page t) id.
Proof.
  intros Hin He. assert ((id, r) ∈ List.filter eligible page) as Hg by (apply list_elem_of_In, filter_In; split; [by apply list_elem_of_In|done]).
  destruct (old (id, r)) eqn:Ho; [left|right]; apply elem_of_dom; cbn; rewrite dom_union_L; apply elem_of_union_r, rows_map_dom with r;
    apply list_elem_of_In, filter_In; (split; [by apply list_elem_of_In|]); [done|by rewrite Ho].
Qed.

Lemma covered_resync q t id r :
  covered t id r →
  (∀ c, author_resync t !! r_pubkey r = Some c → key_lt c (r_created r, id) = true → covered (set_resync q t) id r) →
  covered (set_resync q t) id r.
Proof.
  intros [c Hk Hlt|Hv|Hv|Hm|c Hq Hlt] Hqueue; [by eapply CovAhead|by apply CovCandidate|by apply CovDeferred|by apply CovMirror|by eapply Hqueue].
Qed.

Lemma covered_cursors k t id r :
  covered t id r →
  (∀ c, kind_cursor t !! r_kind r = Some c → key_lt c (r_seen r, id) = true → covered (set_cursors k t) id r) →
  covered (set_cursors k t) id r.
Proof.
  intros [c Hk Hlt|Hv|Hv|Hm|c Hq Hlt] Hcur; [by eapply Hcur|by apply CovCandidate|by apply CovDeferred|by apply CovMirror|by eapply CovQueue].
Qed.

Context (limit : nat).
Hypothesis limit_pos : (0 < limit)%nat.

(** A page of one author: what it passes goes into the index. *)
Lemma author_page_step clock t0 t pubkey from olderThan q :
  mid clock t0 t → author_resync t !! pubkey = Some from → (pubkey ∉ trust_graph_snapshot t) →
  let page := author_page limit pubkey from t in
  ((length page < limit)%nat ∧ q = delete pubkey (author_resync t) ∨
   ∃ x, list.last page = Some x ∧ q = alter (λ _, by_created x) pubkey (author_resync t)) →
  mid clock t0 (set_resync q (index_page (indexable t) (is_old olderThan) page t)).
Proof.
  intros [Es Ef Et Esn Ep Em Hix] Hq Hun page Hnext. split; try done.
  assert (∀ id r, (id, r) ∈ page → row_at t id = Some r ∧ r_kind r ∈ untrustedPurgeKinds) as Hpage.
  { intros id r Hx. apply elem_of_page in Hx as [Hx Hp]. split; [by apply elem_of_rows|]. apply andb_true_iff in Hp as [Hp _].
    by apply andb_true_iff in Hp as [_ Hp%bool_decide_eq_true]. }
  apply (index_step clock t); try done.
  - intros id r Hr. apply index_page_candidates in Hr as [Hr|Hr]; [by left|]. right. left. by apply Hpage.
  - intros id r el Hr. apply index_page_deferred in Hr as [Hr|(Hr & _ & ->)]; [by left|]. right. split; [by apply Hpage|done].
  - apply (ix_cursor _ _ Hix).
  - intros id r Hr Hk Hrep Hcov. apply covered_resync; [by apply index_page_grows|]. cbn [author_resync index_page set_index].
    intros c Hc Hlt. destruct (decide (r_pubkey r = pubkey)) as [Hp|Hp].
    + rewrite Hp, Hq in Hc. injection Hc as <-. assert ((id, r) ∈ rows t) as Hrow by by apply elem_of_rows.
      assert (bool_decide (r_pubkey r = pubkey) && bool_decide (r_kind r ∈ untrustedPurgeKinds) && key_lt from (by_created (id, r)) = true) as Hpr
        by (rewrite !bool_decide_eq_true_2 by done; exact Hlt).
      assert ((id, r) ∈ page → covered (set_resync q (index_page (indexable t) (is_old olderThan) page t)) id r) as Hin.
      { intros Hin. apply in_index_covered. apply (index_page_in (indexable t) (is_old olderThan) page t id r Hin).
        unfold indexable, untrusted. cbn [fst snd]. by rewrite Hp, bool_decide_eq_false_2, Hrep. }
      destruct Hnext as [[Hlen _]|(x & Hlast & ->)]; [by apply Hin, page_short|].
      destruct (page_last by_created limit _ (rows t) (id, r) x Hrow Hpr Hlast) as [Hin'|Hafter]; [|by apply Hin|].
      * intros z Hz Hkey. apply (rows_key t); [done|done|]. unfold by_created in Hkey. congruence.
      * apply CovQueue with (by_created x); [|exact Hafter]. cbn [author_resync set_resync]. rewrite Hp, lookup_alter_eq, Hq. done.
    + apply CovQueue with c; [|done]. cbn [author_resync set_resync].
      destruct Hnext as [[_ ->]|(x & _ & ->)]; [by rewrite lookup_delete_ne|by rewrite lookup_alter_ne].
Qed.

(** ** The steps of a sync *)

Lemma head_merge_sort_nil (m : gmap string cursor) : head (merge_sort (key_le (λ x : string * cursor, (0, x.1))) (map_to_list m)) = None → m = ∅.
Proof.
  intros Hh. apply map_to_list_empty_iff, Permutation_nil_r. rewrite <-(merge_sort_Permutation (key_le (λ x : string * cursor, (0, x.1)))).
  by destruct (merge_sort _ _).
Qed.

Lemma first_resync_some t p c : first_resync t = Some (p, c) → author_resync t !! p = Some c.
Proof.
  unfold first_resync. intros Hh. apply elem_of_map_to_list. rewrite <-(merge_sort_Permutation (key_le (λ x : string * cursor, (0, x.1)))).
  destruct (merge_sort _ _); [done|]. injection Hh as ->. left.
Qed.

Lemma drop_retrusted clock t0 t p : mid clock t0 t → p ∈ trust_graph_snapshot t → mid clock t0 (set_resync (delete p (author_resync t)) t).
Proof.
  intros [Es Ef Et Esn Ep Em Hix] Hp. split; try done. apply (index_step clock t); try done; [naive_solver|naive_solver|apply (ix_cursor _ _ Hix)|].
  intros id r Hr Hk Hrep Hcov. apply covered_resync; [done|]. intros c Hc Hlt. destruct (decide (r_pubkey r = p)) as [Hrp|Hne].
  - apply CovMirror. cbn. by rewrite Em, <-Esn, Hrp.
  - apply CovQueue with c; [|done]. cbn. by rewrite lookup_delete_ne.
Qed.

(** What a transaction that commits leaves, an interrupted one does too. *)
Lemma tx_if_kept {A X} (P : purge_tables → Prop) b (c : X → string) (m : go (db purge_tables) (option X * A)) :
  (∀ s s' a, P (tables s) → tx_if b c m s = (s', Ok a) → P (tables s')) → keeps P (tx_if b c m).
Proof.
  intros Hk s Hs. destruct (tx_if b c m s) as [s' [a|e]] eqn:E; cbn; [by eapply Hk|]. by apply tx_if_atomic in E as ->.
Qed.

Lemma resync_one_ok clock t0 olderThan s s' b :
  mid clock t0 (tables s) → resyncOneUntrustedAuthor limit olderThan s = (s', Ok b) →
  mid clock t0 (tables s') ∧ (b = false → author_resync (tables s') = ∅).
Proof.
  intros Hm E. unfold resyncOneUntrustedAuthor in E. apply tx_if_ok in E as (s1 & s2 & o & T1 & E & T2). rewrite <-T1 in Hm, T2.
  apply bind_ok in E as (s3 & nx & E3 & E). apply wrap_ok, query_ok in E3 as [T3 ->].
  destruct (first_resync (tables s1)) as [[p from]|] eqn:Hf.
  2: { injection E as _ <- <-. rewrite T2. split; [done|]. intros _. by apply head_merge_sort_nil. }
  apply first_resync_some in Hf. apply bind_ok in E as (s4 & tr & E4 & E). apply wrap_ok, query_ok in E4 as [T4 ->].
  rewrite T3 in T4, E. case_bool_decide as Htr.
  - apply bind_ok in E as (s5 & [] & E5 & E). apply wrap_ok, exec_ok in E5. injection E as <- <- <-. rewrite T2, E5, T4.
    split; [by apply drop_retrusted|done].
  - apply bind_ok in E as (s5 & page & E5 & E). apply wrap_ok, stmt_ok in E5. rewrite T4 in E5. injection E5 as E5 <-. symmetry in E5.
    apply bind_ok in E as (s6 & [] & E6 & E). injection E as <- <- <-. rewrite T2. split; [|done].
    destruct (length _ <? limit)%nat eqn:Hlen.
    + apply Nat.ltb_lt in Hlen. apply wrap_ok, exec_ok in E6. rewrite E6, E5. apply author_page_step; [done|done|done|]. left. split; [done|]. done.
    + apply Nat.ltb_ge in Hlen. destruct (list.last _) as [x|] eqn:Hlast.
      * apply wrap_ok, exec_ok in E6. rewrite E6, E5. apply author_page_step; [done|done|done|]. right. by exists x.
      * apply last_None in Hlast. rewrite Hlast in Hlen. cbn in Hlen. lia.
Qed.

Definition no_early (olderThan : Z) (t : purge_tables) : Prop :=
  ∀ id r el, purge_deferred t !! id = Some (r, el) → to_timestamp (unix olderThan) ≤ el.

Lemma early_old olderThan id r : eligible_at r < to_timestamp (unix olderThan) → is_old olderThan (id, r) = true.
Proof.
  unfold eligible_at, is_old, to_timestamp, unix. cbn [snd]. intros Hlt. pose proof (Z.mul_div_le olderThan 1000000 ltac:(lia)).
  apply andb_true_iff. rewrite !Z.ltb_lt. lia.
Qed.

Lemma due_elem olderThan t x : x ∈ due_rows limit olderThan t → purge_deferred t !! x.1 = Some x.2.
Proof. intros Hx. apply elem_of_page in Hx as [Hx _]. apply elem_of_map_to_list. by destruct x. Qed.

Lemma early_settled clock t0 olderThan t id r :
  mid clock t0 t → eligible_at r < to_timestamp (unix olderThan) → settled olderThan t (id, (r, eligible_at r)) = true.
Proof.
  intros Hm He. unfold settled, promotable. cbn [fst snd].
  assert (snapshot_present t = true) as -> by (unfold snapshot_present; rewrite (md_snapshot _ _ _ Hm); apply (md_present _ _ _ Hm)).
  rewrite (early_old olderThan id r He). cbn [andb]. destruct (untrusted t (r_pubkey r)), (is_thread_reply t id r); cbn; by rewrite ?orb_true_r.
Qed.

Lemma promote_mid clock t0 olderThan t : mid clock t0 t → mid clock t0 (promote limit olderThan t).1.
Proof.
  intros Hm. pose proof Hm as [Es Ef Et Esn Ep Em Hix]. split; try done. cbn [promote fst].
  set (due := due_rows limit olderThan t). set (gone := List.filter (settled olderThan t) due). apply (index_step clock t); try done.
  - intros id r Hr. apply lookup_union_Some_raw in Hr as [Hr|[_ Hr]]; [by left|]. right. right.
    apply elem_of_list_to_map_2, list_elem_of_fmap in Hr as ([i [r' el]] & [= -> ->] & Hin).
    apply list_elem_of_In, filter_In in Hin as [Hin _]. apply list_elem_of_In, due_elem in Hin. by exists el.
  - intros id r el Hr. apply map_lookup_filter_Some in Hr as [Hr _]. by left.
  - apply (ix_cursor _ _ Hix).
  - intros id r Hr Hk Hrep [c Hc Hlt|[v Hv]|[[rd el] Hd]|Hmir|c Hq Hlt].
    + by eapply CovAhead.
    + apply CovCandidate. exists v. by apply lookup_union_Some_l.
    + destruct (decide (id ∈ map fst gone)) as [Hg|Hg].
      2: { apply CovDeferred. exists (rd, el). by apply map_lookup_filter_Some. }
      apply list_elem_of_In, in_map_iff in Hg as ([i [r' el']] & Hi & Hg). simpl in Hi. subst i. apply filter_In in Hg as [Hdue Hset].
      apply list_elem_of_In in Hdue. pose proof (due_elem _ _ _ Hdue) as Hd'. cbn [fst snd] in Hd'. rewrite Hd in Hd'. injection Hd' as <- <-.
      destruct (in_source _ _ _ _ (proj1 (ix_deferred _ _ Hix id rd el Hd))) as (Hp & Hkd & _). apply (row_at_source clock) in Hr as [(Hp' & Hk' & _) _]; [|done].
      unfold settled in Hset. cbn [fst snd] in Hset. apply andb_true_iff in Hset as [_ Hset].
      apply orb_true_iff in Hset as [Hset|Hset]; [apply orb_true_iff in Hset as [Hset|Hset]; [apply orb_true_iff in Hset as [Hset|Hset]|]|].
      * apply CovCandidate. apply elem_of_dom. cbn. rewrite dom_union_L, dom_list_to_map_L. apply elem_of_union_r, elem_of_list_to_set, list_elem_of_fmap.
        exists (id, rd). split; [done|]. apply list_elem_of_fmap. exists (id, (rd, el)). split; [done|].
        apply list_elem_of_In, filter_In. split; [by apply list_elem_of_In|done].
      * apply bool_decide_eq_true in Hset as [v Hv]. apply CovCandidate. exists v. by apply lookup_union_Some_l.
      * apply CovMirror. cbn. rewrite Em, <-Esn, Hp', <-Hp. unfold untrusted in Hset. by apply negb_true_iff, negb_false_iff, bool_decide_eq_true in Hset.
      * exfalso. unfold is_thread_reply in *. rewrite Hkd, <-Hk' in Hset. congruence.
    + by apply CovMirror.
    + by eapply CovQueue.
Qed.

Lemma promote_early clock t0 olderThan t :
  mid clock t0 t → ((promote limit olderThan t).2 < limit)%nat → no_early olderThan (promote limit olderThan t).1.
Proof.
  intros Hm Hn id r el Hr. cbn [promote fst snd] in *. set (due := due_rows limit olderThan t) in *. set (gone := List.filter (settled olderThan t) due) in *.
  apply map_lookup_filter_Some in Hr as [Hr Hng]. cbn in Hng. pose proof (md_index _ _ _ Hm) as Hix.
  destruct (decide (el < to_timestamp (unix olderThan))) as [Hlt|]; [exfalso|lia].
  destruct (ix_deferred _ _ Hix id r el Hr) as [_ ->].
  assert (∀ x, x ∈ due → x.2.2 < to_timestamp (unix olderThan) → settled olderThan t x = true) as Hset.
  { intros [i [ri eli]] Hx Hxl. apply due_elem in Hx. cbn [fst snd] in *. destruct (ix_deferred _ _ Hix _ _ _ Hx) as [_ ->].
    by eapply early_settled. }
  assert ((eligible_at r <=? olderThan) = true) as Hdue.
  { apply Z.leb_le. unfold to_timestamp, unix in Hlt. pose proof (Z.mul_div_le olderThan 1000000 ltac:(lia)). lia. }
  assert ((id, (r, eligible_at r)) ∉ due) as Hnd.
  { intros Hin. apply Hng. apply list_elem_of_In, in_map_iff. exists (id, (r, eligible_at r)). split; [done|]. apply filter_In.
    split; [by apply list_elem_of_In|]. by apply Hset. }
  assert (∀ x, x ∈ due → x.2.2 < to_timestamp (unix olderThan)) as Hall.
  { intros x Hx. destruct (page_rest by_eligible limit (λ x, x.2.2 <=? olderThan) (map_to_list (purge_deferred t)) (id, (r, eligible_at r)) x) as [Hin|Hle];
      [by apply elem_of_map_to_list|done|exact Hx|by apply Hnd in Hin|]. unfold key_le in Hle. apply key_lt_false in Hle. cbn in Hle. lia. }
  assert (length due = limit) as Hfull.
  { pose proof (page_length by_eligible limit (λ x, x.2.2 <=? olderThan) (map_to_list (purge_deferred t))) as Hle. fold (due_rows limit olderThan t) in Hle. fold due in Hle.
    destruct (decide (length due = limit)%nat); [done|]. exfalso. apply Hnd, page_short; [by apply elem_of_map_to_list|done|]. fold (due_rows limit olderThan t). fold due. lia. }
  assert (gone = due) as Hg.
  { unfold gone. assert (∀ x, x ∈ due → settled olderThan t x = true) as Hs by (intros x Hx; by apply Hset, Hall). clear -Hs.
    induction due as [|x l IH]; [done|]. cbn. rewrite Hs by set_solver. f_equal. apply IH. intros y Hy. apply Hs. set_solver. }
  rewrite Hg in Hn. lia.
Qed.

Lemma promote_one_ok clock t0 olderThan s s' n :
  mid clock t0 (tables s) → promoteDeferredUntrusted limit olderThan s = (s', Ok n) →
  mid clock t0 (tables s') ∧ author_resync (tables s') = author_resync (tables s) ∧ ((n < limit)%nat → no_early olderThan (tables s')).
Proof.
  intros Hm E. unfold promoteDeferredUntrusted in E. apply wrap_ok, stmt_ok in E.
  assert (promote limit olderThan (tables s) = (tables s', n)) as E' by congruence. clear E.
  assert (tables s' = (promote limit olderThan (tables s)).1 ∧ n = (promote limit olderThan (tables s)).2) as [-> ->] by (by rewrite E').
  split_and!; [by apply promote_mid|done|]. by eapply promote_early.
Qed.

(** The events of a kind that a sync looked at. *)
Definition done_kind (olderThan : Z) (t : purge_tables) (k : Z) : Prop :=
  ∀ id r c, row_at t id = Some r → r_kind r = k → r_seen r < olderThan → kind_cursor t !! k = Some c → key_lt c (r_seen r, id) = false.

Lemma kind_page_step clock t0 t kind from olderThan x :
  mid clock t0 t → olderThan ≤ clock → kind ∈ untrustedPurgeKinds → kind_cursor t !! kind = Some from →
  let page := kind_page limit kind from olderThan t in
  list.last page = Some x →
  mid clock t0 (set_cursors (alter (λ _, by_seen x) kind (kind_cursor t))
    (index_page (λ x, snapshot_present t && indexable t x) (λ x, r_created x.2 <? unix olderThan) page t)).
Proof.
  intros [Es Ef Et Esn Ep Em Hix] Hclock Hkind Hfrom page Hlast. split; try done.
  assert (∀ id r, (id, r) ∈ page → row_at t id = Some r ∧ r_kind r ∈ untrustedPurgeKinds) as Hpage.
  { intros id r Hy. apply elem_of_page in Hy as [Hy Hp]. split; [by apply elem_of_rows|]. apply andb_true_iff in Hp as [Hp _].
    apply andb_true_iff in Hp as [Hp _]. apply Z.eqb_eq in Hp. cbn in Hp. by rewrite Hp. }
  assert (x ∈ page) as Hxp by (apply last_Some in Hlast as [l' ->]; set_solver).
  apply (index_step clock t); try done.
  - intros id r Hr. apply index_page_candidates in Hr as [Hr|Hr]; [by left|]. right. left. by apply Hpage.
  - intros id r el Hr. apply index_page_deferred in Hr as [Hr|(Hr & _ & ->)]; [by left|]. right. split; [by apply Hpage|done].
  - intros k Hk. cbn. destruct (ix_cursor _ _ Hix k Hk) as (c & Hc & Hlt). destruct (decide (k = kind)) as [->|Hne].
    + exists (by_seen x). rewrite lookup_alter_eq, Hc. split; [done|]. apply elem_of_page in Hxp as [_ Hp].
      apply andb_true_iff in Hp as [_ Hp]. apply Z.ltb_lt in Hp. cbn. lia.
    + exists c. by rewrite lookup_alter_ne.
  - intros id r Hr Hk Hrep Hcov. apply covered_cursors; [by apply index_page_grows|]. cbn [kind_cursor index_page set_index].
    intros c Hc Hlt. destruct (decide (r_kind r = kind)) as [Hrk|Hrk].
    2: { apply CovAhead with c; [|done]. cbn. by rewrite lookup_alter_ne. }
    rewrite Hrk, Hfrom in Hc. injection Hc as <-. assert ((id, r) ∈ rows t) as Hrow by by apply elem_of_rows.
    destruct (Z_lt_dec (r_seen r) olderThan) as [Hseen|Hseen].
    + destruct (page_last by_seen limit (λ x, (r_kind x.2 =? kind) && key_lt from (by_seen x) && (r_seen x.2 <? olderThan)) (rows t) (id, r) x Hrow)
        as [Hin|Hafter]; [|exact Hlast| | |].
      * cbn [snd]. rewrite Hrk, Z.eqb_refl. apply Z.ltb_lt in Hseen. rewrite Hseen. cbn [andb]. by rewrite andb_true_r.
      * intros z Hz Hkey. apply (rows_key t); [done|done|]. unfold by_seen in Hkey. congruence.
      * destruct (decide (r_pubkey r ∈ trust_graph_snapshot t)) as [Htr|Htr]; [apply CovMirror; cbn; by rewrite Em, <-Esn|].
        apply in_index_covered.
        apply (index_page_in (λ x, snapshot_present t && indexable t x) (λ x, r_created x.2 <? unix olderThan) page t id r Hin).
        unfold indexable, untrusted, snapshot_present. cbn [fst snd]. rewrite Hrep, (bool_decide_eq_false_2 (_ ∈ _)) by done.
        rewrite Esn. unfold snapshot_present in Ep. by rewrite Ep.
      * apply CovAhead with (by_seen x); [|done]. cbn. by rewrite Hrk, lookup_alter_eq, Hfrom.
    + apply CovAhead with (by_seen x); [cbn; by rewrite Hrk, lookup_alter_eq, Hfrom|].
      apply key_lt_spec. left. cbn. apply elem_of_page in Hxp as [_ Hp]. apply andb_true_iff in Hp as [_ Hp]. apply Z.ltb_lt in Hp. lia.
Qed.

(** What the later parts of a sync keep of the earlier ones. *)
Record same_queue (olderThan : Z) (kind : Z) (t t' : purge_tables) : Prop := {
  sq_resync : author_resync t' = author_resync t;
  sq_early : no_early olderThan t → no_early olderThan t';
  sq_cursor : ∀ k, k ≠ kind → kind_cursor t' !! k = kind_cursor t !! k;
}.

Lemma same_queue_refl olderThan kind t : same_queue olderThan kind t t.
Proof. by split. Qed.

Lemma same_queue_trans olderThan kind t1 t2 t3 :
  same_queue olderThan kind t1 t2 → same_queue olderThan kind t2 t3 → same_queue olderThan kind t1 t3.
Proof. intros [Q1 E1 C1] [Q2 E2 C2]. split; [congruence|auto|]. intros k Hk. by rewrite C2, C1. Qed.

Lemma kind_page_ok clock t0 olderThan kind s s' full :
  mid clock t0 (tables s) → olderThan ≤ clock → kind ∈ untrustedPurgeKinds → backfillUntrustedKindPage limit kind olderThan s = (s', Ok full) →
  mid clock t0 (tables s') ∧ same_queue olderThan kind (tables s) (tables s') ∧ (full = false → done_kind olderThan (tables s') kind).
Proof.
  intros Hm Hclock Hkind E. unfold backfillUntrustedKindPage in E. apply tx_if_ok in E as (s1 & s2 & o & T1 & E & T2). rewrite <-T1 in Hm, T2 |- *.
  apply bind_ok in E as (s3 & from & E3 & E). apply wrap_ok, stmt_ok in E3.
  destruct (kind_cursor (tables s1) !! kind) as [c|] eqn:Hc; [|done]. injection E3 as T3 ->.
  apply bind_ok in E as (s4 & page & E4 & E). apply wrap_ok, stmt_ok in E4. rewrite <-T3 in E4. injection E4 as E4 Ep. symmetry in E4.
  set (t := tables s1) in *.
  assert (∀ id r, row_at t id = Some r → r_kind r = kind → r_seen r < olderThan → key_lt from (r_seen r, id) = true →
    (id, r) ∈ rows t ∧ (r_kind (id, r).2 =? kind) && key_lt from (by_seen (id, r)) && (r_seen (id, r).2 <? olderThan) = true) as Hpred.
  { intros id r Hr Hrk Hs Hlt. split; [by apply elem_of_rows|]. cbn [snd]. rewrite Hrk, Z.eqb_refl. unfold by_seen. cbn [fst snd]. rewrite Hlt. by apply Z.ltb_lt. }
  destruct (list.last page) as [x|] eqn:Hlast.
  - apply bind_ok in E as (s5 & [] & E5 & E). apply wrap_ok, exec_ok in E5. injection E as <- <- <-. rewrite E4 in E5. cbn in T2. rewrite T2, E5.
    rewrite <-Ep in Hlast. split_and!; [exact (kind_page_step clock t0 t kind from olderThan x Hm Hclock Hkind Hc Hlast)| |].
    + split; [done| |].
      * intros Hne id r el Hr. apply index_page_deferred in Hr as [Hr|(_ & Ho & ->)]; [by eapply Hne|].
        apply Z.ltb_ge in Ho. cbn in Ho. unfold eligible_at, to_timestamp. lia.
      * intros k Hk. cbn. by rewrite lookup_alter_ne.
    + intros Hshort id r c' Hr Hrk Hs. cbn. rewrite lookup_alter_eq, Hc. intros [= <-].
      change (row_at t id = Some r) in Hr. apply Nat.eqb_neq in Hshort. rewrite <-Ep in Hshort.
      destruct (key_lt from (r_seen r, id)) eqn:Hlt.
      * destruct (Hpred id r Hr Hrk Hs Hlt) as [Hrow Hp]. pose proof (page_length by_seen limit
          (λ x, (r_kind x.2 =? kind) && key_lt from (by_seen x) && (r_seen x.2 <? olderThan)) (rows t)) as Hle.
        assert ((id, r) ∈ kind_page limit kind from olderThan t) as Hin by (apply page_short; [done|done|]; unfold kind_page in *; lia).
        by apply (page_before by_seen limit _ _ (id, r) x Hin Hlast).
      * assert (x ∈ kind_page limit kind from olderThan t) as Hx by (apply last_Some in Hlast as [l' Hl]; rewrite Hl; set_solver).
        apply elem_of_page in Hx as [_ Hx]. apply andb_true_iff in Hx as [Hx _]. apply andb_true_iff in Hx as [_ Hx]. apply key_lt_le in Hx.
        by eapply key_nlt_trans.
  - injection E as <- <- <-. cbn in T2. rewrite T2. split_and!; [done|apply same_queue_refl|]. intros _ id r c' Hr Hrk Hs. rewrite Hc. intros [= <-].
    destruct (key_lt from (r_seen r, id)) eqn:Hlt; [|done]. destruct (Hpred id r Hr Hrk Hs Hlt) as [Hrow Hp].
    assert ((id, r) ∈ kind_page limit kind from olderThan t) as Hin.
    { apply page_short; [done|done|]. fold (kind_page limit kind from olderThan t). rewrite Ep. apply last_None in Hlast. rewrite Hlast. cbn. lia. }
    rewrite Ep in Hin. apply last_None in Hlast. rewrite Hlast in Hin. by apply not_elem_of_nil in Hin.
Qed.

Lemma present_ok s s' b : untrustedSnapshotPresent s = (s', Ok b) → tables s' = tables s ∧ b = snapshot_present (tables s).
Proof. unfold untrustedSnapshotPresent. intros E. by apply wrap_ok, query_ok in E. Qed.

Lemma resync_authors_ok clock t0 olderThan rounds : ∀ s s' n,
  mid clock t0 (tables s) → resync_authors limit olderThan rounds s = (s', Ok (Some (S n))) →
  mid clock t0 (tables s') ∧ author_resync (tables s') = ∅.
Proof.
  induction rounds as [|rounds IH]; intros s s' n Hm E; cbn [resync_authors] in E; [done|].
  apply bind_ok in E as (s1 & b & E1 & E). apply present_ok in E1 as [T1 ->]. destruct (negb _); [done|]. rewrite <-T1 in Hm.
  apply bind_ok in E as (s2 & pr & E2 & E). apply (resync_one_ok clock t0) in E2 as [Hm2 Hend]; [|done].
  destruct pr; [by eapply IH|]. injection E as <- _. split; [done|by apply Hend].
Qed.

Lemma promote_deferred_ok clock t0 olderThan rounds : ∀ s s' n,
  mid clock t0 (tables s) → promote_deferred limit olderThan rounds s = (s', Ok (Some (S n))) →
  mid clock t0 (tables s') ∧ author_resync (tables s') = author_resync (tables s) ∧ no_early olderThan (tables s').
Proof.
  induction rounds as [|rounds IH]; intros s s' n Hm E; cbn [promote_deferred] in E; [done|].
  apply bind_ok in E as (s1 & b & E1 & E). apply present_ok in E1 as [T1 ->]. destruct (negb _); [done|]. rewrite <-T1 in Hm |- *.
  apply bind_ok in E as (s2 & k & E2 & E). apply (promote_one_ok clock t0) in E2 as (Hm2 & Hq & Hend); [|done].
  destruct (k <? limit)%nat eqn:Hk.
  - injection E as <- _. apply Nat.ltb_lt in Hk. auto.
  - apply IH in E as (Hm3 & Hq3 & He); [|done]. split_and!; [done|congruence|done].
Qed.

Lemma backfill_kind_ok clock t0 olderThan kind rounds : ∀ s s' n,
  mid clock t0 (tables s) → olderThan ≤ clock → kind ∈ untrustedPurgeKinds →
  backfill_kind limit olderThan kind rounds s = (s', Ok (Some (S n))) →
  mid clock t0 (tables s') ∧ same_queue olderThan kind (tables s) (tables s') ∧ done_kind olderThan (tables s') kind.
Proof.
  induction rounds as [|rounds IH]; intros s s' n Hm Hc Hk E; cbn [backfill_kind] in E; [done|].
  apply bind_ok in E as (s1 & b & E1 & E). apply present_ok in E1 as [T1 ->]. destruct (negb _); [done|]. rewrite <-T1 in Hm |- *.
  apply bind_ok in E as (s2 & full & E2 & E). apply (kind_page_ok clock t0) in E2 as (Hm2 & Hq & Hend); [|done|done|done].
  destruct full.
  - apply IH in E as (Hm3 & Hq3 & Hd); [|done|done|done]. split_and!; [done|by eapply same_queue_trans|done].
  - injection E as <- _. auto.
Qed.

Lemma backfill_kinds_spent olderThan kinds s s' n : backfill_kinds limit olderThan kinds 0 s = (s', Ok (Some n)) → n = 0%nat.
Proof.
  revert s. induction kinds as [|k kinds IH]; intros s E; cbn [backfill_kinds] in E; [by injection E|].
  apply bind_ok in E as (s1 & l & E1 & E). cbn [backfill_kind] in E1. injection E1 as <- <-. by apply IH in E.
Qed.

Lemma done_kind_same clock t0 olderThan t t' k :
  mid clock t0 t → mid clock t0 t' → kind_cursor t' !! k = kind_cursor t !! k → done_kind olderThan t k → done_kind olderThan t' k.
Proof.
  intros M1 M2 Hk Hd id r c. rewrite Hk, (row_at_same t t'); [apply Hd| |].
  - by rewrite (md_stats _ _ _ M2), (md_stats _ _ _ M1).
  - by rewrite (md_seen _ _ _ M2), (md_seen _ _ _ M1).
Qed.

Lemma backfill_kinds_ok clock t0 olderThan kinds : ∀ rounds s s' n,
  mid clock t0 (tables s) → olderThan ≤ clock → (∀ k, k ∈ kinds → k ∈ untrustedPurgeKinds) → NoDup kinds →
  author_resync (tables s) = ∅ → no_early olderThan (tables s) →
  backfill_kinds limit olderThan kinds rounds s = (s', Ok (Some (S n))) →
  mid clock t0 (tables s') ∧ author_resync (tables s') = ∅ ∧ no_early olderThan (tables s') ∧
  (∀ k, k ∈ kinds → done_kind olderThan (tables s') k) ∧ (∀ k, (k ∉ kinds) → kind_cursor (tables s') !! k = kind_cursor (tables s) !! k).
Proof.
  induction kinds as [|kind kinds IH]; intros rounds s s' n Hm Hc Hk Hnd Hr He E; cbn [backfill_kinds] in E.
  { injection E as <- _. split_and!; try done. by intros k ?%not_elem_of_nil. }
  inversion Hnd as [|x l Hnk Hnd']; subst. apply bind_ok in E as (s1 & left & E1 & E). destruct left as [[|left]|]; [|..|done].
  { by apply backfill_kinds_spent in E. }
  apply (backfill_kind_ok clock t0) in E1 as (Hm1 & [Hq1 He1 Hc1] & Hd1); [|done|done|apply Hk; set_solver].
  apply IH in E as (Hm2 & Hr2 & He2 & Hd2 & Hc2); [|done|done|intros k ?; apply Hk; set_solver|done|by rewrite Hq1|auto].
  split_and!; [done|done|done| |].
  - intros k Hin. destruct (decide (k = kind)) as [->|Hne]; [|apply Hd2; set_solver].
    apply (done_kind_same clock t0 olderThan (tables s1)); [done|done|by apply Hc2|done].
  - intros k Hin. rewrite Hc2, Hc1 by set_solver. done.
Qed.

(** Between syncs the queue is empty, or the mirror is the snapshot: a sync that
    was interrupted can go on. *)
Definition queue_ok (t : purge_tables) : Prop := author_resync t = ∅ ∨ trusted_mirror t = trust_graph_snapshot t.

Lemma diff_mirror_mid clock t :
  index_ok clock t → queue_ok t → snapshot_present t = true → mid clock t (diff_mirror t).
Proof.
  intros Hix Hr Hp. set (s := trust_graph_snapshot t). assert (trusted_mirror t ∩ s ∪ s = s) as Hs by set_solver.
  split; try done. apply (index_step clock t); try done.
  - intros id r Hc. apply map_lookup_filter_Some in Hc as [Hc _]. by left.
  - intros id r el Hd. apply map_lookup_filter_Some in Hd as [Hd _]. by left.
  - apply (ix_cursor _ _ Hix).
  - intros id r Hrow Hk Hrep Hcov. destruct (decide (r_pubkey r ∈ s)) as [Hin|Hin]; [apply CovMirror; cbn; set_solver|].
    pose proof (row_at_source _ _ _ _ Hix Hrow) as [Hsrc _]. destruct Hcov as [c Hc Hlt|[v Hv]|[[v el] Hv]|Hm|c Hq Hlt].
    + by eapply CovAhead.
    + apply CovCandidate. exists v. apply map_lookup_filter_Some. split; [done|]. cbn.
      destruct (in_source _ _ _ _ (ix_candidate _ _ Hix id v Hv)) as [-> _]. by destruct Hsrc as [<- _].
    + apply CovDeferred. exists (v, el). apply map_lookup_filter_Some. split; [done|]. cbn.
      destruct (in_source _ _ _ _ (proj1 (ix_deferred _ _ Hix id v el Hv))) as [-> _]. by destruct Hsrc as [<- _].
    + destruct Hr as [Hr|Hr]; [|rewrite Hr in Hm; by apply Hin in Hm].
      apply CovQueue with (-1, ""); [cbn; rewrite Hr, (left_id_L ∅ (∪)); apply lookup_gset_to_gmap_Some; set_solver|].
      apply key_lt_spec. left. cbn. destruct Hsrc as (_ & _ & ->). pose proof (source_created id). lia.
    + apply CovQueue with c; [|done]. cbn. by apply lookup_union_Some_l.
Qed.

Lemma untrusted_kinds_nodup : NoDup untrustedPurgeKinds.
Proof. apply (bool_decide_eq_true_1 _). vm_compute. reflexivity. Qed.

(** A sync that ends before its deadline: the index is complete up to the second
    of its horizon. *)
Lemma sync_ok clock locked rounds olderThan s s' n :
  index_ok clock (tables s) → queue_ok (tables s) → olderThan ≤ clock →
  syncUntrustedPurgeCandidates limit locked rounds olderThan s = (s', Ok (Some (S n))) →
  mid clock (tables s) (tables s') ∧ author_resync (tables s') = ∅ ∧ no_early olderThan (tables s') ∧
  ∀ k, k ∈ untrustedPurgeKinds → done_kind olderThan (tables s') k.
Proof.
  intros Hix Hr Hc E. unfold syncUntrustedPurgeCandidates in E.
  apply bind_ok in E as (s1 & ? & E1 & E). apply wrap_ok, query_ok in E1 as [T1 _].
  apply bind_ok in E as (s2 & lk & E2 & E). apply wrap_ok, query_ok in E2 as [T2 ->]. destruct locked; cbn [negb] in E; [|done].
  apply bind_ok in E as (s3 & ? & E3 & E). apply wrap_ok, query_ok in E3 as [T3 _].
  apply bind_ok in E as (s4 & p & E4 & E). apply present_ok in E4 as [T4 ->].
  destruct (snapshot_present (tables s3)) eqn:Hp; cbn [negb] in E; [|done].
  apply bind_ok in E as (s5 & [] & E5 & E). unfold diffUntrustedTrustMirror in E5. apply wrap_ok, exec_ok in E5.
  assert (tables s4 = tables s) as T by congruence. assert (tables s3 = tables s) as T' by congruence. rewrite T in E5. rewrite T' in Hp.
  pose proof (diff_mirror_mid clock (tables s) Hix Hr Hp) as Hm. rewrite <-E5 in Hm.
  apply bind_ok in E as (s6 & l1 & E6 & E). destruct l1 as [[|l1]|]; [|..|done].
  { apply bind_ok in E as (s7 & l2 & E7 & E). cbn [promote_deferred] in E7. injection E7 as <- <-. by apply backfill_kinds_spent in E. }
  apply (resync_authors_ok clock (tables s)) in E6 as [Hm6 Hr6]; [|done].
  apply bind_ok in E as (s7 & l2 & E7 & E). destruct l2 as [[|l2]|]; [|..|done]; [by apply backfill_kinds_spent in E|].
  apply (promote_deferred_ok clock (tables s)) in E7 as (Hm7 & Hr7 & He7); [|done].
  apply (backfill_kinds_ok clock (tables s)) in E as (Hm8 & Hr8 & He8 & Hd8 & _); [|done|done|done|apply untrusted_kinds_nodup|congruence|done].
  done.
Qed.

Lemma sync_complete clock locked rounds olderThan s s' n id r :
  index_ok clock (tables s) → queue_ok (tables s) → olderThan ≤ clock →
  syncUntrustedPurgeCandidates limit locked rounds olderThan s = (s', Ok (Some (S n))) →
  row_at (tables s) id = Some r → r_kind r ∈ untrustedPurgeKinds → is_thread_reply (tables s) id r = false →
  (r_pubkey r ∉ trust_graph_snapshot (tables s)) → r_created r < unix olderThan → r_seen r < to_timestamp (unix olderThan) →
  is_Some (purge_candidates_index (tables s') !! id).
Proof.
  intros Hix Hr Hc E Hrow Hk Hrep Hun Hcr Hseen. apply (sync_ok clock) in E as (Hm & Hq & He & Hd); [|done|done|done].
  pose proof (md_index _ _ _ Hm) as Hix'. assert (row_at (tables s') id = Some r) as Hrow'.
  { by rewrite (row_at_same (tables s)) by (apply (md_stats _ _ _ Hm) || apply (md_seen _ _ _ Hm)). }
  assert (r_seen r < olderThan) as Hlt by (unfold to_timestamp, unix in Hseen; pose proof (Z.mul_div_le olderThan 1000000 ltac:(lia)); lia).
  destruct (ix_covered _ _ Hix' id r Hrow' Hk) as [c Hcu Hahead|Hcand|[[rd el] Hdef]|Hmir|c Hqu _].
  - unfold is_thread_reply in *. by rewrite (md_threads _ _ _ Hm).
  - by rewrite (Hd (r_kind r) Hk id r c Hrow' eq_refl Hlt Hcu) in Hahead.
  - done.
  - exfalso. pose proof (He id rd el Hdef) as Hel. destruct (ix_deferred _ _ Hix' id rd el Hdef) as [[(_ & _ & Hcs) _ _ Hs _] ->].
    apply (row_at_source clock) in Hrow' as [(_ & _ & Hcs') Hfs]; [|done]. specialize (Hs _ Hfs). unfold eligible_at in Hel.
    rewrite Hcs, <-Hcs' in Hel. unfold to_timestamp in *. lia.
  - by rewrite (md_mirror _ _ _ Hm) in Hmir.
  - rewrite Hq in Hqu. by rewrite lookup_empty in Hqu.
Qed.

(** A sync that is interrupted, by its deadline, by a statement that fails or by an
    empty snapshot, leaves the index as a sync in progress has it. *)
Lemma resync_authors_keeps clock t0 olderThan rounds : keeps (mid clock t0) (resync_authors limit olderThan rounds).
Proof.
  induction rounds as [|rounds IH]; cbn [resync_authors]; [apply keeps_ret|]. unfold untrustedSnapshotPresent. keeps_step; [|done].
  apply tx_if_kept. intros s s' o Hm E. by apply (resync_one_ok clock t0) in E as [? _].
Qed.

Lemma promote_deferred_keeps clock t0 olderThan rounds : keeps (mid clock t0) (promote_deferred limit olderThan rounds).
Proof.
  induction rounds as [|rounds IH]; cbn [promote_deferred]; [apply keeps_ret|]. unfold untrustedSnapshotPresent, promoteDeferredUntrusted.
  keeps_step; [|done]. apply keeps_stmt. intros t t' n Hm [= <- _]. by apply (promote_mid clock t0 olderThan).
Qed.

Lemma backfill_kinds_keeps clock t0 olderThan kinds :
  olderThan ≤ clock → (∀ k, k ∈ kinds → k ∈ untrustedPurgeKinds) → ∀ rounds, keeps (mid clock t0) (backfill_kinds limit olderThan kinds rounds).
Proof.
  intros Hc. induction kinds as [|k kinds IH]; intros Hk rounds; cbn [backfill_kinds]; [apply keeps_ret|].
  apply keeps_bind; [|intros [left|]; [apply IH; set_solver|apply keeps_ret]].
  induction rounds as [|rounds IHr]; cbn [backfill_kind]; [apply keeps_ret|]. unfold untrustedSnapshotPresent. keeps_step; [|done].
  apply tx_if_kept. intros s s' o Hm E. by apply (kind_page_ok clock t0) in E as [? _]; [| | |apply Hk; set_solver].
Qed.

Lemma bind_kept {A B} (P : purge_tables → Prop) (m : go (db purge_tables) A) (k : A → go (db purge_tables) B) s :
  P (tables (m s).1) → (∀ s1 a, m s = (s1, Ok a) → P (tables (k a s1).1)) → P (tables (go_bind m k s).1).
Proof. unfold go_bind. intros Hm Hk. destruct (m s) as [s1 [a|e]]; [by apply Hk|done]. Qed.

(** After a query the tables are the same. *)
Lemma query_kept {A B} (P : purge_tables → Prop) p (f : purge_tables → A) (k : A → go (db purge_tables) B) s :
  P (tables s) → (∀ s1, tables s1 = tables s → P (tables (k (f (tables s)) s1).1)) → P (tables (go_bind (go_wrap p (query f)) k s).1).
Proof.
  intros Hs Hk. apply bind_kept; [by apply keeps_wrap; [apply keeps_query|]|]. intros s1 a [E ->]%wrap_ok%query_ok. by apply Hk.
Qed.

Lemma sync_keeps clock locked rounds olderThan s :
  index_ok clock (tables s) → queue_ok (tables s) → olderThan ≤ clock →
  let t' := tables (syncUntrustedPurgeCandidates limit locked rounds olderThan s).1 in
  t' = tables s ∨ mid clock (tables s) t'.
Proof.
  intros Hix Hq Hc. cbv zeta. set (t := tables s) in *. assert (tables s = t) as Hs by done.
  set (P := λ u, u = t ∨ mid clock t u). change (P (tables (syncUntrustedPurgeCandidates limit locked rounds olderThan s).1)).
  unfold syncUntrustedPurgeCandidates, untrustedSnapshotPresent.
  apply query_kept; [by left|]. intros s1 E1. apply query_kept; [left; congruence|]. intros s2 E2.
  destruct (negb locked); [left; cbn; congruence|]. apply query_kept; [left; congruence|]. intros s3 E3.
  apply query_kept; [left; congruence|]. intros s4 E4. destruct (snapshot_present (tables s3)) eqn:Hp; [|left; cbn; congruence].
  assert (tables s3 = t) as T3 by congruence. assert (tables s4 = t) as T4 by congruence. rewrite T3 in Hp. cbn [negb].
  pose proof (diff_mirror_mid clock t Hix Hq Hp) as Hm. apply bind_kept.
  { unfold diffUntrustedTrustMirror. rewrite wrap_fst. unfold exec. destruct (stmt_cases (λ u, Ok (diff_mirror u, ())) s4) as [->|[a [= <-]]]; [by left|].
    right. by rewrite T4. }
  intros s5 [] E5%wrap_ok%exec_ok. rewrite T4 in E5. rewrite <-E5 in Hm. right.
  refine (keeps_bind (mid clock t) _ _ (resync_authors_keeps clock t olderThan rounds) _ s5 Hm). intros [left|]; [|apply keeps_ret].
  apply keeps_bind; [apply promote_deferred_keeps|]. intros [left'|]; [|apply keeps_ret]. by apply backfill_kinds_keeps.
Qed.

(** ** Deletions *)

Context `{UnicodeTables}.
Context (noteMediaFlags : EventRow → MediaFlags).

Lemma keeps_each {T A} (P : T → Prop) (f : A → go (db T) unit) l : (∀ x, keeps P (f x)) → keeps P (go_each f l).
Proof. intros Hf. induction l as [|x l IH]; cbn [go_each]; [apply keeps_ret|]. apply keeps_bind; [apply Hf|by intros]. Qed.

(** Taking statistics back leaves the events. *)
Lemma reverse_keeps E id : keeps (λ u, AuthorStats.events u = E) (ReverseIncrementalAuthorStatsTx noteMediaFlags id).
Proof.
  unfold ReverseIncrementalAuthorStatsTx, loadEventTagsTx, reverseIncrementalProfilePublicStatsTx, reverseIncrementalAuthorActivityDailyTx,
    reverseIncrementalAuthorHashtagDailyTx, reverseIncrementalAuthorMediaDailyTx, reverseIncrementalAuthorHourlyActivityTx,
    computeActivityDailyDeltas, computeHourlyActivityDeltas, reverseLongFormIfCurrentTx, reverseAddressableMediaIfCurrentTx,
    applyZapProfileCountersTx, adjustProfileZapCountersTx, upsertAuthorActivityDailyDeltaTx, upsertAuthorHourlyActivityDeltaTx,
    AuthorStats.resolveDerivationWriteVersion, unclaimStatDeltaTx, profileMediaDeltaTx, lookupEventPubkeyTx, loadEventHashtagsTx,
    loadNoteDiscoveryMediaFlagsTx, delete_current.
  repeat (keeps_step; try apply keeps_each; intros); try (apply keeps_exec; by intros);
    apply keeps_stmt; intros ? ? ? Ht Hst; repeat case_match; by simplify_eq.
Qed.

Lemma reverse_and_delete_ok ids s s' n :
  reverseAndDeleteTx noteMediaFlags ids s = (s', Ok n) →
  AuthorStats.events (tables s') = filter (λ b, b.1 ∉ ids) (AuthorStats.events (tables s)).
Proof.
  unfold reverseAndDeleteTx. intros E. case_bool_decide as Hids.
  { injection E as <- _. subst ids. symmetry. apply map_filter_id. intros. apply not_elem_of_nil. }
  apply bind_ok in E as (s1 & pks & E1 & E). apply wrap_ok, query_ok in E1 as [T1 _].
  apply bind_ok in E as (s2 & [] & E2 & E). apply bind_ok in E as (s3 & d & E3 & E). apply wrap_ok, stmt_ok in E3. injection E3 as E3 _.
  apply bind_ok in E as (s4 & [] & E4 & E). injection E as <- _.
  assert (AuthorStats.events (tables s2) = AuthorStats.events (tables s1)) as H2.
  { pose proof (keeps_each (λ u, AuthorStats.events u = AuthorStats.events (tables s1))
      (λ id, go_wrap ("reverse incremental stats for " +:+ id) (ReverseIncrementalAuthorStatsTx noteMediaFlags id)) ids
      (λ id, keeps_wrap _ _ _ (reverse_keeps _ id)) s1 eq_refl) as Hk. by rewrite E2 in Hk. }
  assert (AuthorStats.events (tables s4) = AuthorStats.events (tables s3)) as H4.
  { unfold RefreshProfileTimeJoinedTx in E4. case_bool_decide; [by injection E4 as <-|].
    apply bind_ok in E4 as (s5 & ? & E5 & E4). unfold AuthorStats.resolveDerivationWriteVersion in E5. apply wrap_ok, query_ok in E5 as [T5 _].
    apply wrap_ok, exec_ok in E4. rewrite E4. cbn. by rewrite T5. }
  by rewrite H4, <-E3, <-T1, <-H2.
Qed.

Lemma delete_rows_ok ids s s' n :
  reverse_and_delete noteMediaFlags ids s = (s', Ok n) →
  ∃ u, tables s' = set_stats u (tables s) ∧ AuthorStats.events u = filter (λ b, b.1 ∉ ids) (AuthorStats.events (stats (tables s))).
Proof.
  unfold reverse_and_delete. intros E. apply zoom_ok in E as (u & E & T). apply reverse_and_delete_ok in E. by exists (tables u).
Qed.

(** What an index keeps when events go. *)
Lemma row_at_deleted (ids : list string) u t id r :
  AuthorStats.events u = filter (λ b, b.1 ∉ ids) (AuthorStats.events (stats t)) →
  row_at (set_stats u t) id = Some r ↔ row_at t id = Some r ∧ (id ∉ ids).
Proof.
  intros Hu. unfold row_at. cbn. rewrite Hu, map_lookup_filter. destruct (AuthorStats.events (stats t) !! id) as [e|] eqn:He; cbn; [|split; [done|by intros [? _]]].
  destruct (decide (id ∈ ids)) as [Hin|Hin].
  - rewrite option_guard_False by naive_solver. split; [done|]. by intros [_ ?].
  - rewrite option_guard_True by done. cbn. assert (filter (λ b, is_Some (filter (λ b0 : string * EventRow, b0.1 ∉ ids) (AuthorStats.events (stats t)) !! b.1)) (first_seen t) !! id = first_seen t !! id) as ->.
    { destruct (first_seen t !! id) as [x|] eqn:Hx.
      - apply map_lookup_filter_Some. split; [done|]. cbn. exists e. by apply map_lookup_filter_Some.
      - apply map_lookup_filter_None. by left. }
    by destruct (first_seen t !! id); naive_solver.
Qed.

Lemma deleted_ok clock (ids : list string) u c d t :
  index_ok clock t → AuthorStats.events u = filter (λ b, b.1 ∉ ids) (AuthorStats.events (stats t)) →
  (∀ id r, c !! id = Some r → purge_candidates_index t !! id = Some r) →
  (∀ id v, d !! id = Some v → purge_deferred t !! id = Some v) →
  (foreign = false → ∀ id, id ∈ ids → c !! id = None ∧ d !! id = None) →
  (∀ id r, row_at t id = Some r → (id ∉ ids) → is_thread_reply t id r = false →
     (is_Some (purge_candidates_index t !! id) → is_Some (c !! id)) ∧ (is_Some (purge_deferred t !! id) → is_Some (d !! id))) →
  index_ok clock (set_index c d (set_stats u t)).
Proof.
  intros Hix Hu Hc Hd Hgone Hkeep. pose proof Hix as [XE XR XS XC XD XK XV].
  assert (∀ id s, first_seen (set_index c d (set_stats u t)) !! id = Some s → first_seen t !! id = Some s) as Hfs.
  { cbn. intros id s Hs. by apply map_lookup_filter_Some in Hs as [Hs _]. }
  assert (∀ id r, (is_Some (c !! id) ∨ is_Some (d !! id)) → indexed clock t id r → indexed clock (set_index c d (set_stats u t)) id r) as Hin.
  { intros id r Hor [H1 H2 H3 H4 H5]. split; try done; [by intros s Hs; apply H4, Hfs|]. intros Hf. specialize (H5 Hf). cbn.
    apply map_lookup_filter_Some. split; [done|]. cbn. destruct (XR id) as [e He]; [by eexists|]. exists e. rewrite Hu. apply map_lookup_filter_Some.
    split; [done|]. cbn. intros Hid. destruct (Hgone Hf id Hid) as [E1 E2]. rewrite E1, E2 in Hor. by destruct Hor as [[? ?]|[? ?]]. }
  split.
  - intros id e He. cbn in He. rewrite Hu in He. apply map_lookup_filter_Some in He as [He _]. by apply XE.
  - intros id [s Hs]. cbn in Hs. by apply map_lookup_filter_Some in Hs as [_ Hs].
  - intros id s Hs. by apply (XS id), Hfs.
  - intros id r Hr. cbn in Hr. apply Hin; [left; by eexists|]. by apply XC, Hc.
  - intros id r el Hr. cbn in Hr. destruct (XD id r el (Hd _ _ Hr)) as [? ->]. split; [|done]. apply Hin; [right; by eexists|done].
  - exact XK.
  - intros id r Hr Hk Hrep. assert (row_at (set_stats u t) id = Some r) as Hr' by exact Hr.
    apply row_at_deleted with (ids := ids) in Hr' as [Hrow Hni]; [|done].
    assert (is_thread_reply t id r = false) as Hrep'.
    { unfold is_thread_reply in *. cbn in Hrep. destruct (r_kind r =? 1); [|done]. cbn in *. apply bool_decide_eq_false. apply bool_decide_eq_false in Hrep.
      intros Hth. apply Hrep. apply elem_of_filter. split; [|done]. unfold row_at in Hr. cbn in Hr. destruct (AuthorStats.events u !! id); [by eexists|done]. }
    destruct (Hkeep id r Hrow Hni Hrep') as [K1 K2]. destruct (XV id r Hrow Hk Hrep') as [cu Hcu Hlt|Hca|Hde|Hm|cu Hq Hlt].
    + by eapply CovAhead.
    + by apply CovCandidate, K1.
    + by apply CovDeferred, K2.
    + by apply CovMirror.
    + by eapply CovQueue.
Qed.

(** ** The purges *)

Lemma guarded_cases {A} (m : go (db purge_tables) A) s :
  tables (guarded_tx m s).1 = tables s ∨
  ∃ s1 s2 a, tables s1 = tables s ∧ m s1 = (s2, Ok a) ∧ tables (guarded_tx m s).1 = tables s2.
Proof.
  unfold guarded_tx. destruct (tx_cases "begin retention tx" "commit retention tx" (go_wrap "set retention statement_timeout" (query (λ _, tt)) ;;
    go_wrap "set retention lock_timeout" (query (λ _, tt)) ;; m)%go s) as [[-> _]|(s1 & a & T1 & R & _ & ->)]; [by left|]. right.
  destruct (go_bind _ _ s1) as [s2 r] eqn:E. simpl in R |- *. subst r.
  apply bind_ok in E as (s3 & ? & E3 & E). apply wrap_ok, query_ok in E3 as [T3 _].
  apply bind_ok in E as (s4 & ? & E4 & E). apply wrap_ok, query_ok in E4 as [T4 _]. exists s4, s2, a. split_and!; [congruence|done|done].
Qed.

Definition reply_free (t : purge_tables) : gmap string PurgeRow := filter (λ b, is_thread_reply t b.1 b.2 = false) (purge_candidates_index t).

(** A purge of untrusted authors that changes something deletes chosen candidates. *)
Lemma purge_untrusted_cases olderThan dg n s :
  let t := tables s in
  let t' := tables (purge_untrusted_tx noteMediaFlags olderThan dg n s).1 in
  t' = t ∨
  ∃ (ids : list string) u, AuthorStats.events u = filter (λ b, b.1 ∉ ids) (AuthorStats.events (stats t)) ∧
    (∀ id, id ∈ ids → ∃ r, purge_candidates_index t !! id = Some r ∧ is_old olderThan (id, r) = true ∧ snapshot_present t = true ∧
       indexable t (id, r) = true ∧ job_pins dg id (bundle_jobs t) = false) ∧
    t' = set_index (filter (λ b, b.1 ∉ ids) (reply_free t)) (filter (λ b, b.1 ∉ ids) (purge_deferred t)) (set_stats u t).
Proof.
  cbv zeta. unfold purge_untrusted_tx. destruct (guarded_cases (go_wrap "drop untrusted reply candidates" (exec drop_reply_candidates) ;;
     ids <- go_wrap "select untrusted author event candidates" (limited n (selectUntrustedAuthorEventCandidates olderThan dg)) ;;
     deleted <- reverse_and_delete noteMediaFlags ids ;;
     if bool_decide (ids = []) then go_ret deleted
     else
       go_wrap "drop purged untrusted candidates" (exec (λ t,
         set_index (filter (λ b, b.1 ∉ ids) (purge_candidates_index t)) (purge_deferred t) t)) ;;
       go_wrap "drop purged untrusted deferred" (exec (λ t,
         set_index (purge_candidates_index t) (filter (λ b, b.1 ∉ ids) (purge_deferred t)) t)) ;;
       go_ret deleted)%go s) as [->|(s1 & s2 & a & T1 & E & ->)]; [by left|]. right. rewrite <-T1. set (t := tables s1) in *.
  apply bind_ok in E as (s3 & [] & E3 & E). apply wrap_ok, exec_ok in E3.
  apply bind_ok in E as (s4 & ids & E4 & E). apply wrap_ok, stmt_ok in E4. destruct (i32 n <? 0); [done|]. injection E4 as T4 Hids.
  apply bind_ok in E as (s5 & d & E5 & E). apply delete_rows_ok in E5 as (u & T5 & Hu). rewrite <-T4, E3 in T5, Hu. cbn in Hu.
  exists ids, u. split; [exact Hu|]. split.
  - intros id Hid. rewrite <-Hids, E3 in Hid. apply list_elem_of_In, in_map_iff in Hid as ([i r] & Hi & Hx). simpl in Hi. subst i.
    apply list_elem_of_In, elem_of_page in Hx as [Hx Hp]. apply elem_of_map_to_list, map_lookup_filter_Some in Hx as [Hx _].
    apply andb_true_iff in Hp as [Hp Hj]. apply negb_true_iff in Hj. apply andb_true_iff in Hp as [Hp Hi]. apply andb_true_iff in Hp as [Ho Hs].
    by exists r.
  - case_bool_decide as Hnil.
    + injection E as <- _. rewrite T5. subst ids. rewrite Hnil. rewrite !map_filter_id by (intros; apply not_elem_of_nil). reflexivity.
    + apply bind_ok in E as (s6 & [] & E6 & E). apply wrap_ok, exec_ok in E6. apply bind_ok in E as (s7 & [] & E7 & E). apply wrap_ok, exec_ok in E7.
      injection E as <- _. by rewrite E7, E6, T5.
Qed.

Lemma purge_untrusted_ok clock olderThan dg n s :
  index_ok clock (tables s) → queue_ok (tables s) →
  let t' := tables (purge_untrusted_tx noteMediaFlags olderThan dg n s).1 in
  index_ok clock t' ∧ queue_ok t'.
Proof.
  cbv zeta. intros Hix Hr. destruct (purge_untrusted_cases olderThan dg n s) as [->|(ids & u & Hu & Hids & ->)]; [done|]. split; [|done].
  apply (deleted_ok clock ids); [done|done| | | |].
  - intros id r Hc. apply map_lookup_filter_Some in Hc as [Hc _]. by apply map_lookup_filter_Some in Hc as [Hc _].
  - intros id v Hd. by apply map_lookup_filter_Some in Hd as [Hd _].
  - intros _ id Hid. split; apply map_lookup_filter_None; right; intros v _ Hv; by apply Hv.
  - intros id r Hrow Hni Hrep. split.
    + intros [rc Hc]. exists rc. apply map_lookup_filter_Some. split; [|done]. apply map_lookup_filter_Some. split; [done|]. cbn.
      pose proof (in_source _ _ _ _ (ix_candidate _ _ Hix id rc Hc)) as (_ & Hk & _). apply (row_at_source clock) in Hrow as [(_ & Hk' & _) _]; [|done].
      unfold is_thread_reply in *. by rewrite Hk, <-Hk'.
    + intros [v Hd]. exists v. by apply map_lookup_filter_Some.
Qed.

Lemma kinds_apart k : k ∈ expiredEngagementKinds → (k ∉ untrustedPurgeKinds).
Proof.
  intros Hk. assert (Forall (λ k, k ∉ untrustedPurgeKinds) expiredEngagementKinds) as Hall by (apply (bool_decide_eq_true_1 _); vm_compute; reflexivity).
  rewrite List.Forall_forall in Hall. by apply Hall, list_elem_of_In.
Qed.

Lemma purge_engagement_ok clock createdBefore dg n s :
  index_ok clock (tables s) → queue_ok (tables s) →
  let t' := tables (PurgeExpiredEngagementEvents noteMediaFlags createdBefore dg n s).1 in
  index_ok clock t' ∧ queue_ok t'.
Proof.
  cbv zeta. intros Hix Hr. unfold PurgeExpiredEngagementEvents. destruct (n <=? 0); [done|]. rewrite wrap_fst.
  destruct (guarded_cases (ids <- go_wrap "select expired engagement event candidates" (limited n (selectExpiredEngagementEventCandidates createdBefore dg)) ;;
    reverse_and_delete noteMediaFlags ids)%go s) as [->|(s1 & s2 & a & T1 & E & ->)]; [done|]. rewrite <-T1 in Hix, Hr. set (t := tables s1) in *.
  apply bind_ok in E as (s3 & ids & E3 & E). apply wrap_ok, stmt_ok in E3. destruct (i32 n <? 0); [done|]. injection E3 as T3 Hids.
  apply delete_rows_ok in E as (u & -> & Hu). rewrite <-T3 in Hu |- *. split; [|done].
  enough (index_ok clock (set_index (purge_candidates_index t) (purge_deferred t) (set_stats u t))) as Hok by exact Hok.
  apply (deleted_ok clock ids); try done. intros _ id Hid. rewrite <-Hids in Hid. apply list_elem_of_In, in_map_iff in Hid as ([i r] & Hi & Hx). simpl in Hi. subst i.
  apply list_elem_of_In, elem_of_page in Hx as [Hx Hp]. apply elem_of_rows, (row_at_source clock) in Hx as [(_ & Hk & _) _]; [|done].
  apply andb_true_iff in Hp as [Hp _]. apply andb_true_iff in Hp as [Hp _]. apply bool_decide_eq_true in Hp. cbn in Hp. apply kinds_apart in Hp.
  split; apply eq_None_not_Some; intros [v Hv]; apply Hp; rewrite Hk.
  - pose proof (ix_candidate _ _ Hix _ _ Hv) as [(_ & <- & _) ? _ _ _]. done.
  - destruct v as [rv el]. pose proof (proj1 (ix_deferred _ _ Hix _ _ _ Hv)) as [(_ & <- & _) ? _ _ _]. done.
Qed.

(** ** Runs *)

Definition store_event (id : string) (now : Z) (t : purge_tables) : purge_tables :=
  let u := stats t in
  mkPurge (mkStats (<[id := source id]> (AuthorStats.events u)) (applied_stat_deltas u) (profile_public_stats u) (author_activity_daily u)
      (author_hashtag_daily u) (author_media_daily u) (author_hourly_activity u) (recent_activity u) (event_hashtags u)
      (note_discovery_stats u) (zap_receipts u) (AuthorStats.replaceable_state u))
    (<[id := now]> (first_seen t)) (thread_edges t) (trust_graph_snapshot t) (bundle_jobs t) (purge_candidates_index t) (purge_deferred t)
    (trusted_mirror t) (author_resync t) (kind_cursor t).

Definition set_threads (th : gset string) (t : purge_tables) : purge_tables :=
  mkPurge (stats t) (first_seen t) th (trust_graph_snapshot t) (bundle_jobs t) (purge_candidates_index t) (purge_deferred t)
    (trusted_mirror t) (author_resync t) (kind_cursor t).

Definition put_jobs (j : JobTables) (t : purge_tables) : purge_tables :=
  mkPurge (stats t) (first_seen t) (thread_edges t) (trust_graph_snapshot t) j (purge_candidates_index t) (purge_deferred t)
    (trusted_mirror t) (author_resync t) (kind_cursor t).

(** Steps, at a time: events are stored, threads and jobs projected, trust changes
    between syncs while no author is queued, syncs run under any limit of rounds,
    with any failures and to any outcome, purges run with any failures, and other
    sweeps delete events if they may. An interrupted sync leaves its queue: until
    another sync has emptied it, the snapshot is the one the queue was made for. *)
Inductive purge_step : Z * purge_tables → Z * purge_tables → Prop :=
| StepStore clock now t id :
    clock ≤ now → AuthorStats.events (stats t) !! id = None → purge_step (clock, t) (now, store_event id now t)
| StepThread clock t id : purge_step (clock, t) (clock, set_threads ({[id]} ∪ thread_edges t) t)
| StepTrust clock t s : author_resync t = ∅ → purge_step (clock, t) (clock, set_snapshot s t)
| StepJobs clock t j : purge_step (clock, t) (clock, put_jobs j t)
| StepDelete clock t ids : foreign = true → purge_step (clock, t) (clock, set_stats (AuthorStats.delete_events ids (stats t)) t)
| StepSync clock t locked rounds olderThan fs :
    olderThan ≤ clock → purge_step (clock, t) (clock, tables (syncUntrustedPurgeCandidates limit locked rounds olderThan (mkDb t fs)).1)
| StepPurge clock t olderThan dg k fs :
    purge_step (clock, t) (clock, tables (purge_untrusted_tx noteMediaFlags olderThan dg k (mkDb t fs)).1)
| StepEngagement clock t createdBefore dg k fs :
    purge_step (clock, t) (clock, tables (PurgeExpiredEngagementEvents noteMediaFlags createdBefore dg k (mkDb t fs)).1).

Definition no_purge : purge_tables :=
  mkPurge (mkStats ∅ ∅ ∅ ∅ ∅ ∅ ∅ ∅ ∅ ∅ ∅ ∅) ∅ ∅ ∅ empty_queue ∅ ∅ ∅ ∅ (list_to_map (map (λ k, (k, (0, ""))) untrustedPurgeKinds)).

Definition reachable (x : Z * purge_tables) : Prop := rtc purge_step (1, no_purge) x.

Definition run_ok (x : Z * purge_tables) : Prop := index_ok x.1 x.2 ∧ queue_ok x.2.

Lemma store_event_ok clock now t id :
  clock ≤ now → AuthorStats.events (stats t) !! id = None → index_ok clock t → index_ok now (store_event id now t).
Proof.
  intros Hle Hnew Hix. pose proof Hix as [XE XR XS XC XD XK XV].
  assert (first_seen t !! id = None) as Hfs.
  { apply eq_None_not_Some. intros Hs. apply XR in Hs. rewrite Hnew in Hs. by destruct Hs. }
  assert (∀ i r, indexed clock t i r → indexed now (store_event id now t) i r) as Hin.
  { intros i r [H1 H2 H3 H4 H5]. split; try done; [lia| |].
    - cbn. intros s. destruct (decide (i = id)) as [->|]; [rewrite lookup_insert_eq; intros [= <-]; lia|rewrite lookup_insert_ne by done; apply H4].
    - intros Hf. specialize (H5 Hf). cbn. rewrite lookup_insert_ne; [done|congruence]. }
  split; cbn.
  - intros i e. destruct (decide (i = id)) as [->|]; [rewrite lookup_insert_eq; congruence|rewrite lookup_insert_ne by done; apply XE].
  - intros i. destruct (decide (i = id)) as [->|]; [rewrite !lookup_insert_eq; by eexists|rewrite !lookup_insert_ne by done; apply XR].
  - intros i s. destruct (decide (i = id)) as [->|]; [rewrite lookup_insert_eq; by intros [= <-]|rewrite lookup_insert_ne by done; intros Hs; apply XS in Hs; lia].
  - intros i r Hr. by apply Hin, XC.
  - intros i r el Hr. destruct (XD i r el Hr) as [? ->]. auto.
  - intros k Hk. destruct (XK k Hk) as (c & Hc & Hlt). exists c. split; [done|lia].
  - intros i r. unfold row_at. cbn. destruct (decide (i = id)) as [->|Hne].
    + rewrite !lookup_insert_eq. intros [= <-] Hk _. destruct (XK _ Hk) as (c & Hc & Hlt). apply CovAhead with c; [done|].
      apply key_lt_spec. left. cbn. lia.
    + rewrite !lookup_insert_ne by done. intros Hr Hk Hrep.
      destruct (XV i r) as [cu Hcu Hlt|Hca|Hde|Hm|cu Hq Hlt]; [exact Hr|done|exact Hrep|by eapply CovAhead|by apply CovCandidate|by apply CovDeferred|by apply CovMirror|by eapply CovQueue].
Qed.

Lemma more_threads_ok clock t id : index_ok clock t → index_ok clock (set_threads ({[id]} ∪ thread_edges t) t).
Proof.
  intros [XE XR XS XC XD XK XV]. split; try done.
  - intros i r Hr. destruct (XC i r Hr). by split.
  - intros i r el Hr. destruct (XD i r el Hr) as [[] ->]. by split.
  - intros i r Hr Hk Hrep. assert (is_thread_reply t i r = false) as Hrep'.
    { unfold is_thread_reply in *. cbn in Hrep. destruct (r_kind r =? 1); [|done]. cbn in *. apply bool_decide_eq_false. apply bool_decide_eq_false in Hrep. set_solver. }
    destruct (XV i r Hr Hk Hrep') as [cu Hcu Hlt|Hca|Hde|Hm|cu Hq Hlt]; [by eapply CovAhead|by apply CovCandidate|by apply CovDeferred|by apply CovMirror|by eapply CovQueue].
Qed.

Lemma same_index_ok clock t t' :
  stats t' = stats t → first_seen t' = first_seen t → thread_edges t' = thread_edges t → purge_candidates_index t' = purge_candidates_index t →
  purge_deferred t' = purge_deferred t → trusted_mirror t' = trusted_mirror t → author_resync t' = author_resync t → kind_cursor t' = kind_cursor t →
  index_ok clock t → index_ok clock t'.
Proof.
  intros E1 E2 E3 E4 E5 E6 E7 E8 Hix. apply (index_step clock t); rewrite ?E4, ?E5, ?E8; try done.
  - intros id r Hr. by left.
  - intros id r el Hr. by left.
  - apply (ix_cursor _ _ Hix).
  - intros id r _ _ _ [cu Hcu Hlt|Hca|Hde|Hm|cu Hq Hlt];
      [apply CovAhead with cu; [by rewrite E8|done]|apply CovCandidate; by rewrite E4|apply CovDeferred; by rewrite E5|apply CovMirror; by rewrite E6|apply CovQueue with cu; [by rewrite E7|done]].
Qed.

Lemma purge_step_ok x y : purge_step x y → run_ok x → run_ok y.
Proof.
  intros [clock now t id Hle Hnew|clock t id|clock t s He|clock t j|clock t ids Hf|clock t locked rounds olderThan fs Hle|clock t olderThan dg k fs|clock t cb dg k fs] [Hix Hr]; cbn [fst snd] in *.
  - split; [by apply (store_event_ok clock)|done].
  - split; [by apply more_threads_ok|done].
  - split; [by apply (same_index_ok clock t)|by left].
  - split; [by apply (same_index_ok clock t)|done].
  - split; [|done]. enough (index_ok clock (set_index (purge_candidates_index t) (purge_deferred t) (set_stats (AuthorStats.delete_events ids (stats t)) t))) as Hok by exact Hok.
    apply (deleted_ok clock ids); try done. rewrite Hf. done.
  - destruct (sync_keeps clock locked rounds olderThan (mkDb t fs) Hix Hr Hle) as [->|Hm]; [done|]. split; [apply (md_index _ _ _ Hm)|].
    right. exact (eq_trans (md_mirror _ _ _ Hm) (eq_sym (md_snapshot _ _ _ Hm))).
  - by apply purge_untrusted_ok.
  - by apply purge_engagement_ok.
Qed.

Lemma fresh_cursor k : k ∈ untrustedPurgeKinds → kind_cursor no_purge !! k = Some (0, "").
Proof.
  intros Hk. unfold no_purge, kind_cursor. apply elem_of_list_to_map_1'; [|apply list_elem_of_fmap; by exists k].
  intros y Hy. by apply list_elem_of_fmap in Hy as (k' & [= -> ->] & _).
Qed.

Lemma no_purge_ok : run_ok (1, no_purge).
Proof.
  split; [|by left]. split; try done.
  - by intros id [s Hs].
  - intros k Hk. exists (0, ""). split; [by apply fresh_cursor|done].
Qed.

Lemma reachable_ok x : reachable x → run_ok x.
Proof. intros Hr. unfold reachable in Hr. pose proof no_purge_ok as H0. induction Hr as [|x y z Hxy _ IH]; [done|]. apply IH. by eapply purge_step_ok. Qed.

(** C8: The purge of untrusted authors is safe: in every reachable state, after
    any purges and interrupted syncs, and whatever fails, an event it deletes was written by an author outside a snapshot that is
    not empty, is of a purged kind and no reply in a thread, is dated before the
    horizon, has no derivation job that may still run, and was indexed when it had
    been seen for longer than the horizon; if no other sweep deletes events, the
    deleted event itself had been stored that long. *)
Theorem untrusted_purge_safe (clock : Z) (t : purge_tables) (olderThan deadGraceBefore n : Z) (fs : list (option error)) (id : string) (r : PurgeRow) :
  reachable (clock, t) →
  let t' := tables (purge_untrusted_tx noteMediaFlags olderThan deadGraceBefore n (mkDb t fs)).1 in
  row_at t id = Some r → row_at t' id = None →
  trust_graph_snapshot t ≠ ∅ ∧ (r_pubkey r ∉ trust_graph_snapshot t) ∧ r_kind r ∈ untrustedPurgeKinds ∧
  is_thread_reply t id r = false ∧ r_created r < unix olderThan ∧ job_pins deadGraceBefore id (bundle_jobs t) = false ∧
  (∃ c, purge_candidates_index t !! id = Some c ∧ r_seen c < olderThan) ∧ (foreign = false → r_seen r < olderThan).
Proof.
  cbv zeta. intros Hreach Hrow Hgone. destruct (reachable_ok _ Hreach) as [Hix _]. cbn [fst snd] in Hix.
  destruct (purge_untrusted_cases olderThan deadGraceBefore n (mkDb t fs)) as [Ht|(ids & u & Hu & Hids & Ht)]; cbn [tables] in *; rewrite Ht in Hgone; [congruence|].
  assert (id ∈ ids) as Hid.
  { destruct (decide (id ∈ ids)) as [|Hni]; [done|]. exfalso.
    assert (row_at (set_stats u t) id = Some r) as Hr by (by apply (row_at_deleted ids)). change (row_at (set_stats u t) id = None) in Hgone. congruence. }
  destruct (Hids id Hid) as (c & Hc & Ho & Hs & Hi & Hj). pose proof (ix_candidate _ _ Hix id c Hc) as [(Hp & Hk & Hcr) Hkind _ _ Hlive].
  apply (row_at_source clock) in Hrow as [(Hp' & Hk' & Hcr') Hseen]; [|done].
  apply andb_true_iff in Ho as [Ho1 Ho2]. apply Z.ltb_lt in Ho1, Ho2. cbn in Ho1, Ho2. apply andb_true_iff in Hi as [Hi1 Hi2].
  apply negb_true_iff in Hs, Hi1, Hi2. apply bool_decide_eq_false in Hs, Hi1. cbn in Hi1, Hi2.
  split_and!; [done|by rewrite Hp', <-Hp|by rewrite Hk', <-Hk| |by rewrite Hcr', <-Hcr|done|by exists c|].
  - unfold is_thread_reply in *. by rewrite Hk', <-Hk.
  - intros Hf. specialize (Hlive Hf). rewrite Hseen in Hlive. injection Hlive as ->. done.
Qed.

(** C25: The index of untrusted authors is complete: after a sync that ends before
    its deadline without a failing statement, each stored event of a purged kind
    that is no reply, whose author is outside the snapshot and that is dated and
    was seen before the second of the horizon, is a candidate. The state before
    it is any that [reachable] admits: events stored, threads, jobs and
    purges with any failures, and earlier syncs that were interrupted
    at any point, by the deadline or by a failure, and left a part of their work.
    Stored events are those of their ids, dated no earlier than 1970 as validation
    has it, and a page holds at least one row.
    The snapshot may change any number of times, but not during a sync and not
    while authors whom an interrupted sync has left are still queued; without the
    one or the other condition events can stay out for good
    ([trusted_between_diff_and_page], [requeue_keeps_position]). *)
Theorem untrusted_index_complete (clock : Z) (t : purge_tables) (olderThan : Z) (locked : bool) (rounds : nat) (fs : list (option error))
    (s' : db purge_tables) (n : nat) (id : string) (r : PurgeRow) :
  reachable (clock, t) → olderThan ≤ clock →
  syncUntrustedPurgeCandidates limit locked rounds olderThan (mkDb t fs) = (s', Ok (Some (S n))) →
  row_at t id = Some r → r_kind r ∈ untrustedPurgeKinds → is_thread_reply t id r = false → (r_pubkey r ∉ trust_graph_snapshot t) →
  r_created r < unix olderThan → r_seen r < to_timestamp (unix olderThan) →
  is_Some (purge_candidates_index (tables s') !! id).
Proof.
  intros Hreach Hle E. destruct (reachable_ok _ Hreach) as [Hix Hr]. by apply (sync_complete clock locked rounds olderThan (mkDb t fs) s' n).
Qed.
End coverage.

(** * Examples *)

Module UntrustedExample.

Existing Instance ascii_tables.

Definition no_flags (e : EventRow) : MediaFlags := mkFlags false false false false 0.

(** Notes of one author. *)
Definition source (id : string) : EventRow := mkEventRow "eve" 1 (Z.of_nat (String.length id)) "{}" [].

Lemma source_created id : 0 ≤ ev_created (source id).
Proof. cbn. lia. Qed.

Definition day : Z := 86400 * 1000000.

Definition stored : purge_tables :=
  set_snapshot {["alice"]} (store_event source "n333" 30 (store_event source "n22" 20 (store_event source "n1" 10 no_purge))).

Definition sync (rounds : nat) (olderThan : Z) (fs : list (option error)) (t : purge_tables) : db purge_tables * result (option nat) :=
  syncUntrustedPurgeCandidates 2 true rounds olderThan (mkDb t fs).

Definition candidate_ids (t : purge_tables) : list string := merge_sort (key_le (λ id, (0, id))) (elements (dom (purge_candidates_index t))).

Definition synced : purge_tables := tables (sync 100 day [] stored).1.

Lemma stored_reachable : reachable source false 2 no_flags (day, store_event source "later" day stored).
Proof.
  unfold reachable. eapply rtc_l; [apply (StepStore source false 2 no_flags 1 10 no_purge "n1"); [lia|reflexivity]|].
  eapply rtc_l; [apply (StepStore source false 2 no_flags 10 20 _ "n22"); [lia|reflexivity]|].
  eapply rtc_l; [apply (StepStore source false 2 no_flags 20 30 _ "n333"); [lia|reflexivity]|].
  eapply rtc_l; [apply (StepTrust source false 2 no_flags 30 _ {["alice"]}); reflexivity|].
  eapply rtc_l; [apply (StepStore source false 2 no_flags 30 day _ "later"); [unfold day; lia|reflexivity]|]. apply rtc_refl.
Defined.

Definition with_later : purge_tables := store_event source "later" day stored.

(** The author has left the snapshot, and the sync stopped after one page. *)
Definition retrusted : purge_tables := tables (sync 100 day [] (set_snapshot {["alice"; "eve"]} with_later)).1.
Definition interrupted : purge_tables := tables (sync 1 day [] (set_snapshot {["alice"]} retrusted)).1.

Lemma interrupted_reachable : reachable source false 2 no_flags (day, interrupted).
Proof.
  eapply rtc_r; [|apply (StepSync source false 2 no_flags day (set_snapshot {["alice"]} retrusted) true 1 day []); lia].
  eapply rtc_r; [|apply (StepTrust source false 2 no_flags day retrusted {["alice"]}); vm_compute; reflexivity].
  eapply rtc_r; [|apply (StepSync source false 2 no_flags day (set_snapshot {["alice"; "eve"]} with_later) true 100 day []); lia].
  eapply rtc_r; [exact stored_reachable|]. apply (StepTrust source false 2 no_flags day with_later {["alice"; "eve"]}); reflexivity.
Defined.

(** The next sync goes on with the queued author. *)
Lemma untrusted_index_complete_witness :
  author_resync interrupted ≠ ∅ ∧ purge_candidates_index interrupted !! "n333" = None ∧
  is_Some (purge_candidates_index (tables (sync 100 day [] interrupted).1) !! "n333").
Proof.
  split_and!; [by vm_compute|by vm_compute|].
  apply (untrusted_index_complete source source_created false 2 ltac:(lia) no_flags day interrupted day true 100 [] (sync 100 day [] interrupted).1 56
    "n333" (mkRow "eve" 1 4 30)).
  - exact interrupted_reachable.
  - lia.
  - vm_compute. reflexivity.
  - reflexivity.
  - apply (bool_decide_eq_true_1 _). vm_compute. reflexivity.
  - vm_compute. reflexivity.
  - apply (bool_decide_eq_true_1 _). vm_compute. reflexivity.
  - vm_compute. reflexivity.
  - vm_compute. reflexivity.
Defined.

Definition purged (t : purge_tables) (olderThan : Z) : purge_tables := tables (purge_untrusted_tx no_flags olderThan olderThan 2 (mkDb t [])).1.

(** The two oldest events go, the third waits for the next batch. *)
Example purge_takes_oldest :
  let t := purged synced day in
  candidate_ids synced = ["n1"; "n22"; "n333"] ∧ candidate_ids t = ["n333"] ∧ map fst (rows t) = ["n333"].
Proof. split_and!; vm_compute; reflexivity. Qed.

Lemma untrusted_purge_safe_witness :
  let r := mkRow "eve" 1 2 10 in
  (r_pubkey r ∉ trust_graph_snapshot (tables (sync 100 day [] with_later).1)) ∧ r_seen r < day.
Proof.
  set (t := tables (sync 100 day [] with_later).1). set (r := mkRow "eve" 1 2 10).
  assert (reachable source false 2 no_flags (day, t)) as Hreach.
  { eapply rtc_r; [exact stored_reachable|].
    apply (StepSync source false 2 no_flags day with_later true 100 day []). lia. }
  assert (row_at t "n1" = Some r) as Hrow by (vm_compute; reflexivity).
  assert (row_at (tables (purge_untrusted_tx no_flags day day 2 (mkDb t [])).1) "n1" = None) as Hgone by (vm_compute; reflexivity).
  destruct (untrusted_purge_safe source source_created false 2 ltac:(lia) no_flags day t day day 2 [] "n1" r Hreach Hrow Hgone) as (_ & Hp & _ & _ & _ & _ & _ & Hs).
  split; [exact Hp|exact (Hs eq_refl)].
Defined.

(** A sync that stops after one page of a queued author, and one that fails after
    its diff while the author is trusted again: when the author leaves once more
    the queue still has the old position, and what came before it is not found. *)
Example requeue_keeps_position :
  let t1 := tables (sync 100 day [] (set_snapshot {["alice"; "eve"]} stored)).1 in
  let t2 := tables (sync 1 day [] (set_snapshot {["alice"]} t1)).1 in
  let t3 := tables (sync 100 day [None; None; None; None; None; Some "timeout"] (set_snapshot {["alice"; "eve"]} t2)).1 in
  let t4 := tables (sync 100 day [] (set_snapshot {["alice"]} t3)).1 in
  candidate_ids t2 = ["n1"; "n22"] ∧ candidate_ids t4 = ["n333"] ∧ author_resync t4 = ∅ ∧
  candidate_ids (tables (sync 100 (2 * day) [] t4).1) = ["n333"].
Proof. split_and!; vm_compute; reflexivity. Qed.

(** An author who is trusted only while the kinds are paged is passed and is never
    in the mirror. *)
Example trusted_between_diff_and_page :
  let t1 := tables (diffUntrustedTrustMirror (mkDb stored [])).1 in
  let t2 := tables (backfill_kinds 2 day untrustedPurgeKinds 100 (mkDb (set_snapshot {["alice"; "eve"]} t1) [])).1 in
  candidate_ids (tables (sync 100 (2 * day) [] (set_snapshot {["alice"]} t2)).1) = [].
Proof. vm_compute. reflexivity. Qed.

(** A candidate that another sweep deletes stays in the index: the event, stored
    again from a relay, is purged at once. *)
Example stale_candidate_purges_anew :
  let t1 := set_stats (AuthorStats.delete_events ["n1"] (stats synced)) synced in
  let t2 := store_event source "n1" (10 * day) t1 in
  row_at t2 "n1" = Some (mkRow "eve" 1 2 (10 * day)) ∧ row_at (purged t2 day) "n1" = None.
Proof. split; vm_compute; reflexivity. Qed.

End UntrustedExample.
