(* ===== verification/Gate.v ===== *)
(** The trust gate of live ingest, [internal/ingestor/live/gate.go]: which valid
    events are persisted, by kind, author, recipients and targets.

    The gate's collaborators are the interfaces the code names: [TrustedAuthors]
    (membership of the trusted set), [TargetExistenceChecker] (store lookups,
    which read and may fail) and [RelayInfoLookup]. The trusted-author set of
    [TrustedSet] and the database of [CanonicalStore] are the instances;
    [CheckerSpec] states what the store promises to the gate. *)

From S2P Require Import Prelude GoLib Db NostrTags TrustedSet JobQueue CanonicalStore.
Local Open Scope go_scope.

(** * Interfaces *)

Class TrustedAuthors (A : Type) := {
  Contains : A → string → bool;
  Loaded : A → bool;
}.

Class TargetExistenceChecker (S : Type) := {
  check_events : list string → go S bool;
  check_addresses : list AddressCoordinate → go S bool;
}.

(** The NIP-11 pubkey of a relay, if it publishes one. *)
Definition RelayInfoLookup : Type := string → result (option string).

#[export] Instance trusted_set_authors `{UnicodeTables} : TrustedAuthors (option TrustedAuthorSet) := {
  Contains := TContains;
  Loaded := TLoaded;
}.

#[export] Instance store_checker : TargetExistenceChecker (db EventTables) := {
  check_events := EventsExist;
  check_addresses := ReplaceableAddressesExist;
}.

(** * Decisions *)

Definition TrustGateModeOpen : string := "open".
Definition TrustGateModeTrustedOnly : string := "trusted_only".

Inductive GateLabel :=
| gateDecisionAccept | gateDecisionRejectUntrustedAuthor | gateDecisionRejectMissingTarget
| gateDecisionRejectBlockedAuthor | gateDecisionShadowReject | gateDecisionFailClosed.

#[export] Instance GateLabel_eq_dec : EqDecision GateLabel.
Proof. solve_decision. Defined.

Record gateDecision := mkDecision {
  accept : bool;
  kindLabel : string;
  decision : GateLabel;
}.

Definition isAuthorGatedKind (kind : Z) : bool :=
  bool_decide (kind ∈
    [1; 4; 5; 8; 9; 11; 20; 21; 22; 1063; 1068; 1984; 1985; 9041; 9802;
     10000; 10001; 10003; 10006; 10007; 10009; 10012; 10015; 10019; 10030; 10050; 10063;
     30000; 30002; 30004; 30005; 30008; 30009; 30015; 30023; 30311; 30315; 34235; 34236]).

Definition isRelayMetadataKind (kind : Z) : bool := (39000 <=? kind) && (kind <=? 39003).

Definition isEngagementKind (kind : Z) : bool :=
  bool_decide (kind ∈ [6; 7; 16; 1018; 1311; 9735]).

Definition gateKindLabel (kind : Z) : string :=
  if bool_decide (kind ∈ [0; 3; 10002]) then "open_kind"
  else if isAuthorGatedKind kind || isEngagementKind kind || isRelayMetadataKind kind
          || (kind =? 1059) || (kind =? 1111) || (kind =? 9321) then str (itoa kind)
  else "other".

(** * Tags *)

Section gate.
Context `{UnicodeTables}.

(** The values of the tags with a given name, parsed by [f], first of each key. *)
Fixpoint addressCoordinates_from (seen : list string) (name : string) (tags : list (list string))
    : list AddressCoordinate :=
  match tags with
  | [] => []
  | tag :: tags =>
      if (length tag <? 2)%nat || negb (bool_decide (tag_at tag 0 = name))
      then addressCoordinates_from seen name tags
      else match ParseAddressCoordinate (tag_at tag 1) with
           | None => addressCoordinates_from seen name tags
           | Some addr =>
               let key := address_string addr in
               if bool_decide (key ∈ seen) then addressCoordinates_from seen name tags
               else addr :: addressCoordinates_from (key :: seen) name tags
           end
  end.

Definition addressCoordinates (tags : list (list string)) (name : string) : list AddressCoordinate :=
  addressCoordinates_from [] name tags.

Fixpoint exactTagValues_from (seen : list string) (name : string) (tags : list (list string))
    : list string :=
  match tags with
  | [] => []
  | tag :: tags =>
      if (length tag <? 2)%nat || negb (bool_decide (tag_at tag 0 = name))
      then exactTagValues_from seen name tags
      else
        let value := trim_space (tag_at tag 1) in
        if bool_decide (value = "") then exactTagValues_from seen name tags
        else if bool_decide (value ∈ seen) then exactTagValues_from seen name tags
        else value :: exactTagValues_from (value :: seen) name tags
  end.

Definition exactTagValues (tags : list (list string)) (name : string) : list string :=
  exactTagValues_from [] name tags.

Definition allETagValues (tags : list (list string)) : list string := exactTagValues_from [] "e" tags.

Fixpoint firstETagValue (tags : list (list string)) : string :=
  match tags with
  | [] => ""
  | tag :: tags =>
      if (length tag <? 2)%nat || negb (bool_decide (tag_at tag 0 = "e")) then firstETagValue tags
      else
        let v := trim_space (tag_at tag 1) in
        if bool_decide (v = "") then firstETagValue tags else v
  end.

Definition engagementTargetIDs (kind : Z) (tags : list (list string)) : list string :=
  if bool_decide (kind ∈ [9735; 9321; 1018]) then
    let id := firstETagValue tags in if bool_decide (id = "") then [] else [id]
  else if bool_decide (kind ∈ [6; 7; 16]) then allETagValues tags
  else [].

Definition nip22RootTargets (tags : list (list string)) : list string * list AddressCoordinate :=
  (exactTagValues tags "E", addressCoordinates tags "A").

Definition replyParentTargetIDs (tags : list (list string)) : list string :=
  let parent := ReplyParentEventID tags in
  if bool_decide (parent = "") then [] else [parent].

(** * Evaluation *)

Context {A S : Type} `{!TrustedAuthors A} `{!TargetExistenceChecker S}.
Context (trustedAuthors : A) (relayInfo : option RelayInfoLookup).

(** A would-be rejection: enforced, or recorded in shadow. *)
Definition rejected (kindLabel : string) (label : GateLabel) (enforce : bool) : gateDecision :=
  if enforce then mkDecision false kindLabel label else mkDecision true kindLabel gateDecisionShadowReject.

Definition accepted (kindLabel : string) : gateDecision := mkDecision true kindLabel gateDecisionAccept.

Definition is_accept (d : gateDecision) : bool := bool_decide (decision d = gateDecisionAccept).

(** A lookup error counts as a hit. *)
Definition replyParentExists (tags : list (list string)) : S → S * bool := λ s,
  match replyParentTargetIDs tags with
  | [] => (s, false)
  | ids => match check_events ids s with
           | (s', Err _) => (s', true)
           | (s', Ok exists_) => (s', exists_)
           end
  end.

Definition evaluateRelayMetadataGate (kindLabel pubkey relayURL : string) (enforce : bool)
    : gateDecision :=
  let reject := rejected kindLabel gateDecisionRejectUntrustedAuthor enforce in
  match relayInfo with
  | None => reject
  | Some lookup =>
      if bool_decide (trim_space relayURL = "") then reject
      else match lookup relayURL with
           | Ok (Some infoPubkey) =>
               if equal_fold (trim_space infoPubkey) (trim_space pubkey) then accepted kindLabel
               else reject
           | _ => reject
           end
  end.

Definition evaluateRecipientGate (kindLabel : string) (tags : list (list string)) (enforce : bool)
    : gateDecision :=
  match exactTagValues tags "p" with
  | [] => rejected kindLabel gateDecisionRejectMissingTarget enforce
  | recipients =>
      if negb (Loaded trustedAuthors) then rejected kindLabel gateDecisionFailClosed enforce
      else if existsb (Contains trustedAuthors) recipients then accepted kindLabel
      else rejected kindLabel gateDecisionRejectUntrustedAuthor enforce
  end.

Definition evaluateAuthorGate (kindLabel pubkey : string) (enforce : bool) : gateDecision :=
  if negb (Loaded trustedAuthors) then rejected kindLabel gateDecisionFailClosed enforce
  else if Contains trustedAuthors pubkey then accepted kindLabel
  else rejected kindLabel gateDecisionRejectUntrustedAuthor enforce.

(** [None] stands for handled = false. *)
Definition evaluateTargetExistsGate (kindLabel : string) (ids : list string) (enforce : bool)
    : S → S * option gateDecision := λ s,
  match ids with
  | [] => (s, None)
  | _ =>
      match check_events ids s with
      | (s', Err _) => (s', Some (accepted kindLabel))
      | (s', Ok true) => (s', Some (accepted kindLabel))
      | (s', Ok false) => (s', Some (rejected kindLabel gateDecisionRejectMissingTarget enforce))
      end
  end.

(** The address half of [evaluateAnyTarget]. *)
Definition evaluateAddresses (kindLabel : string) (addrs : list AddressCoordinate) (enforce : bool)
    : S → S * gateDecision := λ s,
  match addrs with
  | [] => (s, rejected kindLabel gateDecisionRejectMissingTarget enforce)
  | _ =>
      match check_addresses addrs s with
      | (s', Err _) => (s', accepted kindLabel)
      | (s', Ok true) => (s', accepted kindLabel)
      | (s', Ok false) => (s', rejected kindLabel gateDecisionRejectMissingTarget enforce)
      end
  end.

Definition evaluateAnyTarget (kindLabel : string) (ids : list string)
    (addrs : list AddressCoordinate) (enforce : bool) : S → S * option gateDecision := λ s,
  match ids, addrs with
  | [], [] => (s, None)
  | _, _ =>
      let '(s1, o) := evaluateTargetExistsGate kindLabel ids enforce s in
      match o with
      | Some d => if is_accept d then (s1, Some d)
                  else let '(s2, d2) := evaluateAddresses kindLabel addrs enforce s1 in (s2, Some d2)
      | None => let '(s2, d2) := evaluateAddresses kindLabel addrs enforce s1 in (s2, Some d2)
      end
  end.

(** A known target accepts; otherwise [fallback] decides. *)
Definition target_or (kindLabel : string) (ids : list string) (addrs : list AddressCoordinate)
    (enforce : bool) (fallback : gateDecision) : S → S * gateDecision := λ s,
  let '(s1, o) := evaluateAnyTarget kindLabel ids addrs enforce s in
  match o with
  | Some d => if is_accept d then (s1, d) else (s1, fallback)
  | None => (s1, fallback)
  end.

(** Only a known target accepts. *)
Definition target_only (kindLabel : string) (ids : list string) (addrs : list AddressCoordinate)
    (enforce : bool) : S → S * gateDecision := λ s,
  let '(s1, o) := evaluateAnyTarget kindLabel ids addrs enforce s in
  (s1, default (rejected kindLabel gateDecisionRejectMissingTarget enforce) o).

Definition evaluateGate (gateMode : string) (kind : Z) (pubkey : string) (tags : list (list string))
    (relayURL : string) : S → S * gateDecision := λ s,
  let kindLabel := gateKindLabel kind in
  let enforce := bool_decide (gateMode = TrustGateModeTrustedOnly) in
  if kind =? 1 then
    let '(s1, found) := replyParentExists tags s in
    if found then (s1, accepted kindLabel) else (s1, evaluateAuthorGate kindLabel pubkey enforce)
  else if kind =? 1059 then (s, evaluateRecipientGate kindLabel tags enforce)
  else if kind =? 9321 then
    target_or kindLabel (engagementTargetIDs kind tags) (addressCoordinates tags "a") enforce
      (evaluateRecipientGate kindLabel tags enforce) s
  else if isRelayMetadataKind kind then
    (s, evaluateRelayMetadataGate kindLabel pubkey relayURL enforce)
  else if kind =? 1311 then target_only kindLabel [] (addressCoordinates tags "a") enforce s
  else if kind =? 1111 then
    let '(ids, addrs) := nip22RootTargets tags in
    target_or kindLabel ids addrs enforce (evaluateAuthorGate kindLabel pubkey enforce) s
  else if isAuthorGatedKind kind then (s, evaluateAuthorGate kindLabel pubkey enforce)
  else if isEngagementKind kind then
    target_only kindLabel (engagementTargetIDs kind tags)
      (if kind =? 16 then addressCoordinates tags "a" else []) enforce s
  else (s, accepted kindLabel).
End gate.

(** * Shadow mode *)

(** What shadow mode records against what enforcement does. *)
Record shadows (d d' : gateDecision) : Prop := {
  sh_accept : accept d = true;
  sh_label : kindLabel d' = kindLabel d;
  sh_same : decision d = gateDecisionAccept → d' = d;
  sh_reject : decision d ≠ gateDecisionAccept →
    decision d = gateDecisionShadowReject ∧ accept d' = false ∧ decision d' ≠ gateDecisionAccept;
}.

Definition shadows_run {S} (r r' : S * gateDecision) : Prop := r.1 = r'.1 ∧ shadows r.2 r'.2.

Lemma rejected_shadows l label :
  label ≠ gateDecisionAccept → shadows (rejected l label false) (rejected l label true).
Proof. by split. Qed.

Lemma accepted_shadows l : shadows (accepted l) (accepted l).
Proof. by split. Qed.

#[export] Hint Resolve rejected_shadows accepted_shadows : nmash.

Lemma shadows_is_accept d d' : shadows d d' → is_accept d = is_accept d'.
Proof.
  intros [_ _ Hs Hr]. unfold is_accept. case_bool_decide as E.
  - rewrite (Hs E). by rewrite bool_decide_eq_true_2.
  - destruct (Hr E) as (_ & _ & ?). by rewrite bool_decide_eq_false_2.
Qed.

Section shadow.
Context `{UnicodeTables} {A S : Type} `{!TrustedAuthors A} `{!TargetExistenceChecker S}.
Context (authors : A) (info : option RelayInfoLookup).

Lemma metadata_shadows l pk relay :
  shadows (evaluateRelayMetadataGate info l pk relay false)
          (evaluateRelayMetadataGate info l pk relay true).
Proof.
  unfold evaluateRelayMetadataGate. repeat case_match; by auto with nmash.
Qed.

Lemma recipient_shadows l tags :
  shadows (evaluateRecipientGate authors l tags false) (evaluateRecipientGate authors l tags true).
Proof. unfold evaluateRecipientGate. repeat case_match; by auto with nmash. Qed.

Lemma author_shadows l pk :
  shadows (evaluateAuthorGate authors l pk false) (evaluateAuthorGate authors l pk true).
Proof. unfold evaluateAuthorGate. repeat case_match; by auto with nmash. Qed.

Lemma addresses_shadow l addrs (s : S) :
  shadows_run (evaluateAddresses l addrs false s) (evaluateAddresses l addrs true s).
Proof.
  unfold evaluateAddresses. destruct addrs; [split; by auto with nmash|].
  destruct (check_addresses _ s) as [s' [[]|]]; split; by auto with nmash.
Qed.

Definition shadows_opt (r r' : S * option gateDecision) : Prop :=
  r.1 = r'.1 ∧ match r.2, r'.2 with
               | None, None => True | Some d, Some d' => shadows d d' | _, _ => False end.

Lemma any_target_shadow l ids addrs (s : S) :
  shadows_opt (evaluateAnyTarget l ids addrs false s) (evaluateAnyTarget l ids addrs true s).
Proof.
  unfold evaluateAnyTarget.
  assert (∀ s1 : S, shadows_opt
    (let '(s2, d2) := evaluateAddresses l addrs false s1 in (s2, Some d2))
    (let '(s2, d2) := evaluateAddresses l addrs true s1 in (s2, Some d2))) as Ha.
  { intros s1. pose proof (addresses_shadow l addrs s1) as Hs.
    by destruct (evaluateAddresses l addrs false s1), (evaluateAddresses l addrs true s1). }
  destruct ids as [|id ids].
  - destruct addrs; [done|]. simpl. apply Ha.
  - simpl. destruct (check_events (id :: ids) s) as [s1 [[]|e]]; simpl; try apply Ha;
      split; by auto with nmash.
Qed.

Lemma target_or_shadow l ids addrs d d' (s : S) :
  shadows d d' → shadows_run (target_or l ids addrs false d s) (target_or l ids addrs true d' s).
Proof.
  intros Hd. unfold target_or. pose proof (any_target_shadow l ids addrs s) as [H1 H2].
  destruct (evaluateAnyTarget l ids addrs false s) as [s1 [x|]],
    (evaluateAnyTarget l ids addrs true s) as [s2 [y|]]; simpl in *; subst; try done.
  rewrite <-(shadows_is_accept _ _ H2). by destruct (is_accept x).
Qed.

Lemma target_only_shadow l ids addrs (s : S) :
  shadows_run (target_only l ids addrs false s) (target_only l ids addrs true s).
Proof.
  unfold target_only. pose proof (any_target_shadow l ids addrs s) as [H1 H2].
  destruct (evaluateAnyTarget l ids addrs false s) as [s1 [x|]],
    (evaluateAnyTarget l ids addrs true s) as [s2 [y|]]; simpl in *; by subst.
Qed.

(** Shadow mode is faithful: in any mode but trusted_only the gate accepts
    every event, and it records a shadow rejection exactly for the events that
    trusted_only would reject in the same state, store errors included. *)
Theorem gate_shadow_faithful (mode : string) (kind : Z) (pubkey : string)
    (tags : list (list string)) (relayURL : string) (s : S) :
  mode ≠ TrustGateModeTrustedOnly →
  let d := (evaluateGate authors info mode kind pubkey tags relayURL s).2 in
  let e := (evaluateGate authors info TrustGateModeTrustedOnly kind pubkey tags relayURL s).2 in
  accept d = true ∧ kindLabel d = kindLabel e ∧
  (decision d = gateDecisionShadowReject ↔ accept e = false) ∧
  (decision d = gateDecisionAccept ↔ accept e = true).
Proof.
  intros Hm. cbv zeta.
  assert (shadows_run (evaluateGate authors info mode kind pubkey tags relayURL s)
            (evaluateGate authors info TrustGateModeTrustedOnly kind pubkey tags relayURL s)) as [_ Hs].
  { unfold evaluateGate. rewrite (bool_decide_eq_false_2 (mode = _)) by done.
    rewrite bool_decide_eq_true_2 by done.
    repeat case_match; try (split; simpl; by auto using metadata_shadows, recipient_shadows,
      author_shadows, accepted_shadows);
    auto using target_or_shadow, target_only_shadow, recipient_shadows, author_shadows. }
  destruct Hs as [Ha Hl Hsame Hrej].
  destruct (decide (decision (evaluateGate authors info mode kind pubkey tags relayURL s).2
                    = gateDecisionAccept)) as [E|E].
  - rewrite (Hsame E), Ha, E. done.
  - destruct (Hrej E) as (E1 & E2 & E3). rewrite Ha, Hl, E1, E2. done.
Qed.
End shadow.

(** * Coordinates as keys *)

Definition addr_wf (a : AddressCoordinate) : Prop := in_i64 (AKind a) = true ∧ 0 ≤ AKind a ∧ go_len (APubkey a) = 64.

Lemma address_string_bytes a :
  0 ≤ AKind a →
  bytes (address_string a) = itoa (AKind a) ++ 58 :: bytes (APubkey a) ++ 58 :: bytes (DTag a)
  ∧ Forall (λ b, b ≠ 58) (itoa (AKind a)).
Proof.
  intros Hk.
  assert (Forall (λ b, is_digit b = true) (itoa (AKind a))) as Hd.
  { unfold itoa. rewrite (proj2 (Z.ltb_ge _ _)) by lia. apply dec_digits_digits. lia. }
  split.
  - unfold address_string. rewrite !bytes_app, bytes_str; [done|].
    revert Hd. apply Forall_impl. unfold is_digit, byte_ok. intros. bool_simpl. lia.
  - revert Hd. apply Forall_impl. unfold is_digit. intros. bool_simpl. lia.
Qed.

(** Well-formed coordinates are determined by their text. *)
Lemma address_string_inj a b : addr_wf a → addr_wf b → address_string a = address_string b → a = b.
Proof.
  intros (Ha & Ka & La) (Hb & Kb & Lb) E. apply (f_equal bytes) in E.
  destruct (address_string_bytes a Ka) as [Ea Fa]. destruct (address_string_bytes b Kb) as [Eb Fb].
  rewrite Ea, Eb in E. apply (f_equal (cut 58)) in E. rewrite !cut_app in E by done.
  injection E as Ei Er. apply (f_equal parse_int) in Ei. rewrite !parse_int_itoa in Ei by done.
  apply app_inj_1 in Er as [Ep Ed]; [|unfold go_len in *; lia].
  injection Ed as Ed. apply bytes_inj in Ep, Ed. destruct a, b. simpl in *. congruence.
Qed.

(** Dropping repeated texts drops no coordinate. *)
Lemma elem_of_distinct_addresses seen l a :
  (∀ x, x ∈ l → addr_wf x) → addr_wf a →
  a ∈ distinct_addresses seen l ↔ a ∈ l ∧ address_string a ∉ seen.
Proof.
  intros Hl Ha. revert seen. induction l as [|b l IH]; intros seen; simpl; [set_solver|].
  specialize (IH ltac:(set_solver)). case_bool_decide as Hb.
  - rewrite IH. split; [set_solver|]. intros [Hin Hn]. split; [|done].
    apply elem_of_cons in Hin as [->|Hin]; [done|done].
  - rewrite elem_of_cons, IH. split.
    + intros [->|[Hin Hn]]; set_solver.
    + intros [Hin Hn]. destruct (decide (address_string a = address_string b)) as [E|E].
      * left. apply address_string_inj; [done| |done]. apply Hl. set_solver.
      * right. set_solver.
Qed.

Lemma AddressesExist_clean addrs t :
  (∀ a, a ∈ addrs → addr_wf a) →
  ∃ b, ReplaceableAddressesExist addrs (mkDb t []) = (mkDb t [], Ok b) ∧
  (b = true ↔ ∃ a, a ∈ addrs ∧ is_Some (replaceable_state t !! (i32 (AKind a), APubkey a, DTag a))).
Proof.
  intros Hwf. unfold ReplaceableAddressesExist. destruct addrs as [|a0 addrs].
  - exists false. split; [done|]. split; [done|]. intros (a & Ha & _). set_solver.
  - set (l := a0 :: addrs) in *. clearbody l.
    eexists. split; [unfold go_wrap, query, stmt; simpl; reflexivity|].
    rewrite existsb_exists. split.
    + intros (x & Hx & Hs). bool_simpl. apply list_elem_of_In in Hx.
      assert (∀ seen l', x ∈ distinct_addresses seen l' → x ∈ l') as Hsub.
      { intros seen l'. revert seen. induction l' as [|b l' IH]; intros seen; simpl; [done|].
        case_bool_decide; [by intros ?%IH; set_solver|].
        rewrite !elem_of_cons. intros [->|?%IH]; auto. }
      apply Hsub in Hx. by exists x.
    + intros (a & Hin & Hs). exists a. split; [|by apply bool_decide_eq_true].
      apply list_elem_of_In, elem_of_distinct_addresses; [done|by apply Hwf|]. set_solver.
Qed.

(** * Tag values *)

Definition named (name : string) (tag : list string) : Prop :=
  (2 ≤ length tag)%nat ∧ tag_at tag 0 = name.

Lemma named_dec name tag :
  (length tag <? 2)%nat || negb (bool_decide (tag_at tag 0 = name)) = false ↔ named name tag.
Proof.
  unfold named. rewrite orb_false_iff, negb_false_iff, bool_decide_eq_true, Nat.ltb_ge. done.
Qed.

(** [v] is a value of the tags named [name]. *)
Definition tag_value (tags : list (list string)) (name v : string) : Prop :=
  v ≠ "" ∧ ∃ tag, tag ∈ tags ∧ named name tag ∧ trim_space (tag_at tag 1) = v.

Lemma elem_of_exactTagValues_from seen name tags v :
  v ∈ exactTagValues_from seen name tags ↔ tag_value tags name v ∧ v ∉ seen.
Proof.
  unfold tag_value. revert seen. induction tags as [|tag tags IH]; intros seen; simpl; [set_solver|].
  destruct (_ || _) eqn:En.
  - assert (¬ named name tag) as Hn by (rewrite <-named_dec; congruence). rewrite IH. set_solver.
  - apply named_dec in En. case_bool_decide as H1; [rewrite IH; set_solver|].
    case_bool_decide as H2; [rewrite IH; set_solver|].
    rewrite elem_of_cons, IH. destruct (decide (v = trim_space (tag_at tag 1))); set_solver.
Qed.

Lemma elem_of_exactTagValues name tags v : v ∈ exactTagValues tags name ↔ tag_value tags name v.
Proof. unfold exactTagValues. rewrite elem_of_exactTagValues_from. set_solver. Qed.

Section tag_addresses.
Context `{UnicodeTables}.

Definition tag_address (tags : list (list string)) (name : string) (a : AddressCoordinate) : Prop :=
  ∃ tag, tag ∈ tags ∧ named name tag ∧ ParseAddressCoordinate (tag_at tag 1) = Some a.

Lemma parsed_wf v a : ParseAddressCoordinate v = Some a → addr_wf a.
Proof.
  intros E. destruct (ParseAddressCoordinate_len v a E) as [Hl Hk]. split; [|done].
  unfold ParseAddressCoordinate in E. repeat case_match; simplify_eq. simpl. by eapply parse_int_range.
Qed.

Lemma elem_of_addressCoordinates_from seen name tags a :
  a ∈ addressCoordinates_from seen name tags ↔ tag_address tags name a ∧ address_string a ∉ seen.
Proof.
  unfold tag_address. revert seen. induction tags as [|tag tags IH]; intros seen; simpl; [set_solver|].
  destruct (_ || _) eqn:En.
  - assert (¬ named name tag) as Hn by (rewrite <-named_dec; congruence). rewrite IH. set_solver.
  - apply named_dec in En. destruct (ParseAddressCoordinate (tag_at tag 1)) as [b|] eqn:Eb.
    2:{ rewrite IH. split; [set_solver|]. intros [(tg & Ht & Hn & Hp) Hs]. split; [|done].
        apply elem_of_cons in Ht as [->|Ht]; [congruence|]. by exists tg. }
    case_bool_decide as Hb.
    + rewrite IH. split; [set_solver|]. intros [(tg & Ht & Hn & Hp) Hs]. split; [|done].
      apply elem_of_cons in Ht as [->|Ht]; [congruence|]. by exists tg.
    + rewrite elem_of_cons, IH. split.
      * intros [->|[Hx Hs]]; [|set_solver]. split; [|done]. exists tag. set_solver.
      * intros [(tg & Ht & Hn & Hp) Hs].
        destruct (decide (address_string a = address_string b)) as [E|E].
        -- left. by apply address_string_inj; [eapply parsed_wf..|].
        -- right. split; [|set_solver]. apply elem_of_cons in Ht as [->|Ht]; [congruence|]. by exists tg.
Qed.

Lemma elem_of_addressCoordinates name tags a :
  a ∈ addressCoordinates tags name ↔ tag_address tags name a.
Proof. unfold addressCoordinates. rewrite elem_of_addressCoordinates_from. set_solver. Qed.
End tag_addresses.

(** * What the store promises to the gate *)

(** In a healthy state the lookups succeed, change nothing and tell whether one
    of the ids is stored, or one of the addresses has a current event. *)
Class CheckerSpec (S : Type) `{TargetExistenceChecker S} := {
  healthy : S → Prop;
  stored : S → string → Prop;
  current : S → AddressCoordinate → Prop;
  check_events_spec ids s : healthy s →
    ∃ b, check_events ids s = (s, Ok b) ∧ (b = true ↔ ∃ id, id ∈ ids ∧ stored s id);
  check_addresses_spec addrs s : healthy s → (∀ a, a ∈ addrs → addr_wf a) →
    ∃ b, check_addresses addrs s = (s, Ok b) ∧ (b = true ↔ ∃ a, a ∈ addrs ∧ current s a);
}.

#[export] Program Instance store_checker_spec : CheckerSpec (db EventTables) := {
  healthy s := faults s = [];
  stored s id := trim_space id ≠ "" ∧ is_Some (events (tables s) !! trim_space id);
  current s a := is_Some (replaceable_state (tables s) !! (i32 (AKind a), APubkey a, DTag a));
}.
Next Obligation.
  intros ids [t f]. simpl. intros ->. apply EventsExist_clean.
Qed.
Next Obligation.
  intros addrs [t f]. simpl. intros ->. apply AddressesExist_clean.
Qed.

Section enforced.
Context `{UnicodeTables} {A S : Type} `{!TrustedAuthors A} `{Spec : CheckerSpec S}.
Context (authors : A) (info : option RelayInfoLookup).

Definition trusted (p : string) : Prop := Loaded authors = true ∧ Contains authors p = true.

Definition recipient_trusted (tags : list (list string)) : Prop :=
  ∃ p, tag_value tags "p" p ∧ trusted p.

Definition relay_vouches (pubkey relayURL : string) : Prop :=
  ∃ lookup pk, info = Some lookup ∧ trim_space relayURL ≠ "" ∧ lookup relayURL = Ok (Some pk) ∧
    equal_fold (trim_space pk) (trim_space pubkey) = true.

Definition refers_to_stored (s : S) (tags : list (list string)) (name : string) : Prop :=
  ∃ v, tag_value tags name v ∧ stored s v.

Definition refers_to_current (s : S) (tags : list (list string)) (name : string) : Prop :=
  ∃ a, tag_address tags name a ∧ current s a.

Definition first_target_stored (s : S) (tags : list (list string)) : Prop :=
  firstETagValue tags ≠ "" ∧ stored s (firstETagValue tags).

(** The admission policy, kind by kind. *)
Definition admits (s : S) (kind : Z) (pubkey : string) (tags : list (list string)) (relayURL : string)
    : Prop :=
  if kind =? 1 then
    (ReplyParentEventID tags ≠ "" ∧ stored s (ReplyParentEventID tags)) ∨ trusted pubkey
  else if kind =? 1059 then recipient_trusted tags
  else if kind =? 9321 then
    first_target_stored s tags ∨ refers_to_current s tags "a" ∨ recipient_trusted tags
  else if isRelayMetadataKind kind then relay_vouches pubkey relayURL
  else if kind =? 1311 then refers_to_current s tags "a"
  else if kind =? 1111 then
    refers_to_stored s tags "E" ∨ refers_to_current s tags "A" ∨ trusted pubkey
  else if isAuthorGatedKind kind then trusted pubkey
  else if (kind =? 6) || (kind =? 7) then refers_to_stored s tags "e"
  else if kind =? 16 then refers_to_stored s tags "e" ∨ refers_to_current s tags "a"
  else if (kind =? 9735) || (kind =? 1018) then first_target_stored s tags
  else True.

(** ** The parts of the gate under enforcement *)

Lemma author_gate_spec l pk : accept (evaluateAuthorGate authors l pk true) = true ↔ trusted pk.
Proof.
  unfold evaluateAuthorGate, trusted. destruct (Loaded authors); simpl; [|naive_solver].
  destruct (Contains authors pk); naive_solver.
Qed.

Lemma recipient_gate_spec l tags :
  accept (evaluateRecipientGate authors l tags true) = true ↔ recipient_trusted tags.
Proof.
  unfold evaluateRecipientGate, recipient_trusted, trusted.
  destruct (exactTagValues tags "p") as [|r rs] eqn:E.
  { split; [done|]. intros (p & Hp & _). apply elem_of_exactTagValues in Hp.
    rewrite E in Hp. set_solver. }
  destruct (Loaded authors); simpl negb; cbv iota; [|naive_solver]. rewrite <-E. clear E r rs.
  destruct (existsb (Contains authors) (exactTagValues tags "p")) eqn:Ex; simpl.
  - split; [|done]. intros _. apply existsb_exists in Ex as (p & Hp & Hc).
    apply list_elem_of_In, elem_of_exactTagValues in Hp. by exists p.
  - split; [done|]. intros (p & Hp & _ & Hc). exfalso. apply elem_of_exactTagValues, list_elem_of_In in Hp.
    assert (existsb (Contains authors) (exactTagValues tags "p") = true); [|congruence].
    apply existsb_exists. by exists p.
Qed.

Lemma metadata_gate_spec l pk relay :
  accept (evaluateRelayMetadataGate info l pk relay true) = true ↔ relay_vouches pk relay.
Proof.
  unfold evaluateRelayMetadataGate, relay_vouches. destruct info as [lookup|]; [|naive_solver].
  case_bool_decide as Hr; [split; [done|]; intros (? & ? & _ & Hn & _); by destruct Hn|]. destruct (lookup relay) as [[ip|]|e] eqn:El;
    [|split; [done|]; intros (lk & p & [= <-] & _ & E & _); congruence..].
  destruct (equal_fold _ _) eqn:Ef; [split; [|done]; intros _; by exists lookup, ip|].
  split; [done|]. intros (lk & p & [= <-] & _ & E & Hf). rewrite El in E. simplify_eq. congruence.
Qed.

Definition any_known (s : S) (ids : list string) (addrs : list AddressCoordinate) : Prop :=
  (∃ id, id ∈ ids ∧ stored s id) ∨ (∃ a, a ∈ addrs ∧ current s a).

Lemma any_target_spec l ids addrs s :
  healthy s → (∀ a, a ∈ addrs → addr_wf a) →
  match evaluateAnyTarget l ids addrs true s with
  | (s', None) => s' = s ∧ ¬ any_known s ids addrs
  | (s', Some d) => s' = s ∧ is_accept d = accept d ∧ (accept d = true ↔ any_known s ids addrs)
  end.
Proof.
  intros Hh Hwf. unfold evaluateAnyTarget, any_known.
  assert (∀ P : Prop, (P → False) →
    match (let '(s2, d2) := evaluateAddresses l addrs true s in (s2, Some d2)) with
    | (s', None) => s' = s ∧ ¬ (P ∨ ∃ a, a ∈ addrs ∧ current s a)
    | (s', Some d) => s' = s ∧ is_accept d = accept d ∧
                      (accept d = true ↔ P ∨ ∃ a, a ∈ addrs ∧ current s a)
    end) as Ha.
  { intros P HP. unfold evaluateAddresses. destruct addrs as [|a0 al].
    { simpl. split_and!; try done. split; [done|]. intros [|(a & ? & _)]; [done|set_solver]. }
    destruct (check_addresses_spec (a0 :: al) s Hh Hwf) as (b & -> & Hb).
    destruct b; simpl; (split_and!; [done..|]); intuition congruence. }
  destruct ids as [|id ids].
  { destruct addrs as [|a0 al]; [|apply Ha; set_solver]. split; [done|]. intros [(?&?&_)|(?&?&_)]; set_solver. }
  unfold evaluateTargetExistsGate. destruct (check_events_spec (id :: ids) s Hh) as (b & -> & Hb).
  destruct b; simpl.
  - split_and!; try done. split; [|done]. intros _. left. by apply Hb.
  - apply Ha. intros Hx. apply Hb in Hx. done.
Qed.

Lemma target_or_spec l ids addrs d s :
  healthy s → (∀ a, a ∈ addrs → addr_wf a) →
  accept (target_or l ids addrs true d s).2 = true ↔ any_known s ids addrs ∨ accept d = true.
Proof.
  intros Hh Hwf. unfold target_or. pose proof (any_target_spec l ids addrs s Hh Hwf) as Hs.
  destruct (evaluateAnyTarget l ids addrs true s) as [s1 [x|]].
  - destruct Hs as (-> & Hx & Hk). rewrite Hx. destruct (accept x) eqn:Ex; simpl; intuition congruence.
  - destruct Hs as (-> & Hk). simpl. tauto.
Qed.

Lemma target_only_spec l ids addrs s :
  healthy s → (∀ a, a ∈ addrs → addr_wf a) →
  accept (target_only l ids addrs true s).2 = true ↔ any_known s ids addrs.
Proof.
  intros Hh Hwf. unfold target_only. pose proof (any_target_spec l ids addrs s Hh Hwf) as Hs.
  destruct (evaluateAnyTarget l ids addrs true s) as [s1 [x|]]; simpl.
  - by destruct Hs as (-> & Hx & Hk).
  - destruct Hs as (-> & Hk). split; [done|tauto].
Qed.

Lemma reply_parent_spec tags s :
  healthy s →
  replyParentExists tags s = (s, true) ∧
    (ReplyParentEventID tags ≠ "" ∧ stored s (ReplyParentEventID tags)) ∨
  replyParentExists tags s = (s, false) ∧
    ¬ (ReplyParentEventID tags ≠ "" ∧ stored s (ReplyParentEventID tags)).
Proof.
  intros Hh. unfold replyParentExists, replyParentTargetIDs. case_bool_decide as Hp; [right; naive_solver|].
  destruct (check_events_spec [ReplyParentEventID tags] s Hh) as (b & -> & Hb).
  setoid_rewrite list_elem_of_singleton in Hb. destruct b; [left|right]; naive_solver.
Qed.

(** ** Targets as tags *)

Lemma addresses_wf tags name a : a ∈ addressCoordinates tags name → addr_wf a.
Proof. intros (tg & _ & _ & Hp)%elem_of_addressCoordinates. by eapply parsed_wf. Qed.

Lemma known_addresses s tags name :
  (∃ a, a ∈ addressCoordinates tags name ∧ current s a) ↔ refers_to_current s tags name.
Proof. unfold refers_to_current. by setoid_rewrite elem_of_addressCoordinates. Qed.

Lemma known_values s tags name :
  (∃ v, v ∈ exactTagValues tags name ∧ stored s v) ↔ refers_to_stored s tags name.
Proof. unfold refers_to_stored. by setoid_rewrite elem_of_exactTagValues. Qed.

Lemma known_first s tags :
  (∃ v, v ∈ (if bool_decide (firstETagValue tags = "") then [] else [firstETagValue tags]) ∧ stored s v)
  ↔ first_target_stored s tags.
Proof.
  unfold first_target_stored. case_bool_decide; [set_solver|].
  setoid_rewrite list_elem_of_singleton. naive_solver.
Qed.
End enforced.

Section policy.
Context `{UnicodeTables} {A S : Type} `{!TrustedAuthors A} `{Spec : CheckerSpec S}.
Context (authors : A) (info : option RelayInfoLookup).

Lemma engagement_policy l kind pubkey relayURL tags s :
  healthy s → isEngagementKind kind = true → kind ≠ 1311 →
  accept (target_only l (engagementTargetIDs kind tags)
            (if kind =? 16 then addressCoordinates tags "a" else []) true s).2 = true
  ↔ admits authors info s kind pubkey tags relayURL.
Proof.
  intros Hh Hk Hn. unfold isEngagementKind in Hk. apply bool_decide_eq_true in Hk.
  rewrite target_only_spec; [|done|intros a; destruct (kind =? 16); [apply addresses_wf|set_solver]].
  unfold any_known, engagementTargetIDs, allETagValues. fold (exactTagValues tags "e").
  repeat (apply elem_of_cons in Hk as [->|Hk];
    [ repeat first [rewrite bool_decide_eq_true_2 by set_solver | rewrite bool_decide_eq_false_2 by set_solver];
      cbn [Z.eqb Pos.eqb]; rewrite ?known_first, ?known_values, ?known_addresses;
      unfold admits, isAuthorGatedKind, isRelayMetadataKind; cbn [Z.eqb Pos.eqb Z.leb Z.compare Pos.compare Pos.compare_cont andb];
      try rewrite (bool_decide_eq_false_2 (_ ∈ _)) by set_solver; cbn [orb]; set_solver|]).
  set_solver.
Qed.

(** C18: In trusted_only mode, with the store answering, the gate accepts exactly
    the events the admission policy names: by kind, those of a trusted author, to
    a trusted recipient, vouched for by their relay, or referring to stored
    content; a trusted set that never loaded trusts nobody, and kinds outside
    the policy always pass. *)
Theorem gate_enforced_spec (kind : Z) (pubkey : string) (tags : list (list string))
    (relayURL : string) (s : S) :
  healthy s →
  accept (evaluateGate authors info TrustGateModeTrustedOnly kind pubkey tags relayURL s).2 = true
  ↔ admits authors info s kind pubkey tags relayURL.
Proof.
  intros Hh. unfold evaluateGate. rewrite bool_decide_eq_true_2 by done.
  assert (kind ≠ 1311 → isEngagementKind kind = true →
    accept (target_only (gateKindLabel kind) (engagementTargetIDs kind tags)
      (if kind =? 16 then addressCoordinates tags "a" else []) true s).2 = true
    ↔ admits authors info s kind pubkey tags relayURL) as Heng
    by (intros; by apply engagement_policy).
  revert Heng. unfold admits.
  destruct (kind =? 1) eqn:E1.
  { intros _. destruct (reply_parent_spec tags s Hh) as [[-> Hp]|[-> Hp]]; simpl; [tauto|].
    rewrite author_gate_spec. tauto. }
  destruct (kind =? 1059) eqn:E2; [intros _; apply recipient_gate_spec|].
  destruct (kind =? 9321) eqn:E3.
  { intros _. bool_simpl. subst kind. rewrite target_or_spec, recipient_gate_spec; [|done|apply addresses_wf].
    unfold any_known, engagementTargetIDs. rewrite bool_decide_eq_true_2 by set_solver.
    cbv zeta. rewrite known_first, known_addresses. tauto. }
  destruct (isRelayMetadataKind kind) eqn:E4; [intros _; apply metadata_gate_spec|].
  destruct (kind =? 1311) eqn:E5.
  { intros _. rewrite target_only_spec; [|done|apply addresses_wf].
    unfold any_known. rewrite known_addresses. set_solver. }
  destruct (kind =? 1111) eqn:E6.
  { intros _. unfold nip22RootTargets. rewrite target_or_spec, author_gate_spec; [|done|apply addresses_wf].
    unfold any_known. rewrite known_values, known_addresses. tauto. }
  destruct (isAuthorGatedKind kind) eqn:E7; [intros _; apply author_gate_spec|].
  bool_simpl. destruct (isEngagementKind kind) eqn:E8; [intros Heng; by apply Heng|].
  intros _. unfold isEngagementKind in E8. apply bool_decide_eq_false in E8.
  rewrite (proj2 (Z.eqb_neq kind 6)), (proj2 (Z.eqb_neq kind 7)), (proj2 (Z.eqb_neq kind 16)),
    (proj2 (Z.eqb_neq kind 9735)), (proj2 (Z.eqb_neq kind 1018)) by set_solver. done.
Qed.
End policy.

(** ** The gate over the store *)

Definition alice_trusted : option TrustedAuthorSet := Some (mkTrusted 3 {["alice"]} ∅ true 1).

(** A stranger's reaction to a stored note passes. *)
Lemma gate_enforced_spec_witness :
  @admits ascii_tables _ _ (@trusted_set_authors ascii_tables) _ _ alice_trusted None one_event 7 "carol"
    [["e"; "e1"]] "wss://r".
Proof.
  apply (@gate_enforced_spec ascii_tables _ _ (@trusted_set_authors ascii_tables) _ store_checker_spec
           alice_trusted None 7 "carol" [["e"; "e1"]] "wss://r" one_event);
    vm_compute; reflexivity.
Defined.

(** A stranger's root note is recorded as a shadow rejection in open mode. *)
Lemma gate_shadow_faithful_witness :
  let d := (@evaluateGate ascii_tables _ _ (@trusted_set_authors ascii_tables) store_checker
              alice_trusted None TrustGateModeOpen 1 "carol" [] "wss://r" one_event).2 in
  accept d = true ∧ decision d = gateDecisionShadowReject.
Proof.
  destruct (@gate_shadow_faithful ascii_tables _ _ (@trusted_set_authors ascii_tables) store_checker
              alice_trusted None TrustGateModeOpen 1 "carol" [] "wss://r" one_event)
    as (Ha & _ & Hs & _); [discriminate|].
  split; [exact Ha|]. apply Hs. vm_compute. reflexivity.
Defined.

(** The kind of an address is truncated to 32 bits for the lookup, so a
    coordinate of kind 2^32 + 30023 finds the stored article of kind 30023. *)
Example address_kind_truncated :
  i32 (2 ^ 32 + 30023) = 30023 ∧
  (ReplaceableAddressesExist [mkAddr (2 ^ 32 + 30023) "pk" "d"]
     (mkDb (mkEventTables ∅ ∅ ∅ {[(30023, "pk", "d") := ("e1", 7)]} empty_queue) [])).2 = Ok true.
Proof. vm_compute. split; reflexivity. Qed.
