(* ===== verification/Processor.v ===== *)
(** The live ingest processor, [internal/ingestor/live/processor.go], and the
    count-only kinds of [internal/config/census_kinds.go]: the path of a relay
    payload through the duplicate cache, validation, the blocked-author drop,
    the census, the trust gate and the expiration check into the store.

    The store and the checkpoint writer are the interfaces [EventStore] and
    [CheckpointWriter] of the source; [EventStoreSpec] states what the processor
    relies on, the theorems are proved against it, and the database of
    [CanonicalStore] discharges it. The validator's signature library and the
    Unicode tables are parameters, as in [NostrEvent] and [NostrTags]. Logging,
    metrics and tracing are left out. *)

From S2P Require Import Prelude GoLib Json Sha256 NostrEvent NostrTags TrustedSet Db JobQueue.
From S2P Require Import CanonicalStore Dedup Gate.
Local Open Scope go_scope.

(** * Census kinds *)

Definition dvmRequestKinds : list Z :=
  [5000; 5001; 5002; 5050; 5100; 5200; 5201; 5202; 5250;
   5300; 5301; 5302; 5303; 5400; 5500; 5900; 5901; 5905; 5970].

Definition censusKindSet : gset Z :=
  list_to_set
    ([1222; 1244; 1617; 1621; 10166; 30166; 30402; 30617; 30818;
      30040; 30041; 31922; 31923; 31925; 7000]
     ++ dvmRequestKinds ++ map (λ request, request + 1000) dvmRequestKinds ++ seqZ 9000 23).

Definition CensusKinds : list Z := merge_sort Z.le (elements censusKindSet).

Definition IsCensusKind (kind : Z) : bool := bool_decide (kind ∈ censusKindSet).

(** * Interfaces *)

Class EventStore (D : Type) := {
  es_insert : time → CanonicalEvent → list (list string) → string → time → go D bool;
  es_invalid : time → InvalidEvent → go D unit;
  es_provenance : time → string → string → time → string → go D unit;
  es_census : string → string → Z → Z → go D bool;
}.

Class CheckpointWriter (W : Type) := {
  cw_mark : string → string → Z → go W unit;
}.

(** * The processor *)

Record Counters := mkCounters {
  CValid : Z;
  CDuplicate : Z;
  CInvalid : Z;
  CGated : Z;
}.

Record Processor (A W : Type) := mkProcessor {
  validateOpts : Options;
  checkpointWriter : option W;
  counters : Counters;
  gateMode : string;
  trustedAuthors : option A;
  relayInfo : option RelayInfoLookup;
  blockedAuthors : option (string → bool);
  observationSink : option ObservationBuffer;
  dedup : option dedupCache;
}.
Arguments mkProcessor {A W}.
Arguments validateOpts {A W}.
Arguments checkpointWriter {A W}.
Arguments counters {A W}.
Arguments gateMode {A W}.
Arguments trustedAuthors {A W}.
Arguments relayInfo {A W}.
Arguments blockedAuthors {A W}.
Arguments observationSink {A W}.
Arguments dedup {A W}.

Section processor.
Context `{UnicodeTables} `{SchnorrLib}.
Context {A W D : Type} `{!TrustedAuthors A} `{!CheckpointWriter W}.
Context `{!EventStore D} `{!TargetExistenceChecker D}.

Abbreviation proc := (Processor A W) (only parsing).

Definition NewProcessor (opts : Options) : proc :=
  mkProcessor opts None (mkCounters 0 0 0 0) "" None None None None None.

Definition SetCheckpointWriter (w : option W) (p : proc) : proc :=
  mkProcessor (validateOpts p) w (counters p) (gateMode p) (trustedAuthors p) (relayInfo p)
    (blockedAuthors p) (observationSink p) (dedup p).

Definition SetTrustGate (mode : string) (trusted : option A) (p : proc) : proc :=
  mkProcessor (validateOpts p) (checkpointWriter p) (counters p) (to_lower (trim_space mode)) trusted
    (relayInfo p) (blockedAuthors p) (observationSink p) (dedup p).

Definition SetRelayInfo (lookup : option RelayInfoLookup) (p : proc) : proc :=
  mkProcessor (validateOpts p) (checkpointWriter p) (counters p) (gateMode p) (trustedAuthors p) lookup
    (blockedAuthors p) (observationSink p) (dedup p).

Definition SetBlockedAuthors (blocked : option (string → bool)) (p : proc) : proc :=
  mkProcessor (validateOpts p) (checkpointWriter p) (counters p) (gateMode p) (trustedAuthors p)
    (relayInfo p) blocked (observationSink p) (dedup p).

Definition SetObservationSink (sink : option ObservationBuffer) (p : proc) : proc :=
  mkProcessor (validateOpts p) (checkpointWriter p) (counters p) (gateMode p) (trustedAuthors p)
    (relayInfo p) (blockedAuthors p) sink (dedup p).

Definition set_dedup (c : option dedupCache) (p : proc) : proc :=
  mkProcessor (validateOpts p) (checkpointWriter p) (counters p) (gateMode p) (trustedAuthors p)
    (relayInfo p) (blockedAuthors p) (observationSink p) c.

Definition SetDedupCache (size : Z) (p : proc) : proc := set_dedup (newDedupCache size) p.

Definition set_counters (f : Counters → Counters) (p : proc) : proc :=
  mkProcessor (validateOpts p) (checkpointWriter p) (f (counters p)) (gateMode p) (trustedAuthors p)
    (relayInfo p) (blockedAuthors p) (observationSink p) (dedup p).

Definition Snapshot (p : proc) : Counters := counters p.

(** The counters are [atomic.Uint64]. *)
Definition add_valid (c : Counters) := mkCounters (u64 (CValid c + 1)) (CDuplicate c) (CInvalid c) (CGated c).
Definition add_dupe (c : Counters) := mkCounters (CValid c) (u64 (CDuplicate c + 1)) (CInvalid c) (CGated c).
Definition add_invalid (c : Counters) := mkCounters (CValid c) (CDuplicate c) (u64 (CInvalid c + 1)) (CGated c).
Definition add_gated (c : Counters) := mkCounters (CValid c) (CDuplicate c) (CInvalid c) (u64 (CGated c + 1)).

(** * Steps *)

(** The processor together with its store. *)
Abbreviation live := (proc * D)%type (only parsing).

Definition on_proc (f : proc → proc) : go live unit := go_modify (λ s, (f s.1, s.2)).

(** A call on the store; the error, if any, is wrapped. *)
Definition on_store {X} (msg : string) (m : go D X) : go live X := λ s,
  let '(d, r) := m s.2 in ((s.1, d), wrap_err msg r).

(** [if p.checkpointWriter != nil { MarkEventProcessed(...) }]. *)
Definition mark (msg relayURL eventID : string) (createdAt : Z) : go live unit := λ s,
  match checkpointWriter s.1 with
  | None => (s, Ok tt)
  | Some w =>
      let '(w', r) := cw_mark relayURL eventID createdAt w in
      ((SetCheckpointWriter (Some w') s.1, s.2), wrap_err msg r)
  end.

Definition observe (pubkey : string) (p : proc) : proc :=
  match observationSink p with
  | None => p
  | Some sink => SetObservationSink (Some (Observe sink pubkey)) p
  end.

(** [json.Unmarshal] into [dedupProbe]; [None] is an error. *)
Definition dedupProbe (payload : list Z) : option (string * Z) :=
  match json_parse payload with
  | Some (JObj ms) =>
      match unmarshal_field "id" decode_string "" ms, unmarshal_field "created_at" decode_int 0 ms with
      | Some id, Some createdAt => Some (id, createdAt)
      | _, _ => None
      end
  | Some JNull => Some ("", 0)
  | _ => None
  end.

(** [None] stands for handled = false. *)
Definition handleCachedDuplicate (now : time) (relayURL : string) (payload : list Z) (seenAt : time)
    : live → live * option (result unit) := λ s,
  match dedup s.1 with
  | None => (s, None)
  | Some _ =>
      match dedupProbe payload with
      | None => (s, None)
      | Some (id, createdAt) =>
          if bool_decide (id = "") then (s, None)
          else
            let '(c, hit) := Get (dedup s.1) id in
            let s := (set_dedup c s.1, s.2) in
            match hit with
            | None => (s, None)
            | Some pubkey =>
                let '(s', r) :=
                  (on_proc (observe pubkey) ;;
                   on_store "store duplicate provenance" (es_provenance now id relayURL seenAt pubkey) ;;
                   mark "persist live checkpoint (cached duplicate)" relayURL id createdAt ;;
                   on_proc (set_counters add_dupe)) s in
                (s', Some r)
            end
      end
  end.

Definition is_blocked (p : proc) (pubkey : string) : bool :=
  match blockedAuthors p with Some blocked => blocked pubkey | None => false end.

(** The gate, if enabled: the state after its lookups and whether the event passes. *)
Definition gate_passes (relayURL : string) (e : Event) : live → live * bool := λ s,
  match trustedAuthors s.1 with
  | None => (s, true)
  | Some trusted =>
      let '(d, dec) := evaluateGate trusted (relayInfo s.1) (gateMode s.1) (Kind e) (Pubkey e) (Tags e)
                         relayURL s.2 in
      ((s.1, d), accept dec)
  end.

Definition expired_at (seenAt : time) (e : Event) : bool :=
  Expired (ParseEventAttributes (ID e) (Tags e)) (time_unix seenAt).

Definition canonical_row (seenAt : time) (raw : list Z) (e : Event) : CanonicalEvent :=
  mkCanonical (ID e) (Pubkey e) (CreatedAt e) (Kind e) (Sig e) (Content e) raw seenAt seenAt.

(** The tail of [Handle]: the insert, the checkpoint, the cache, the count. *)
Definition persist (now : time) (relayURL : string) (seenAt : time) (raw : list Z) (e : Event)
    : go live unit :=
  let event := canonical_row seenAt raw e in
  inserted <- on_store "store canonical event" (es_insert now event (Tags e) relayURL seenAt) ;;
  mark "persist live checkpoint" relayURL (CID event) (CCreatedAt event) ;;
  on_proc (λ p, set_dedup (Add (dedup p) (CID event) (CPubkey event)) p) ;;
  on_proc (set_counters (if (inserted : bool) then add_valid else add_dupe)).

(** [Handle] on a payload that validated as [e]. *)
Definition handle_valid (now : time) (relayURL : string) (seenAt : time) (raw : list Z) (e : Event)
    : go live unit := λ s,
  let s := (observe (Pubkey e) s.1, s.2) in
  if is_blocked s.1 (Pubkey e) then
    (on_proc (set_counters add_gated) ;;
     mark "persist live checkpoint (blocked)" relayURL (ID e) (CreatedAt e)) s
  else if IsCensusKind (Kind e) then
    (on_store "record kind census" (es_census (ID e) (Pubkey e) (Kind e) (CreatedAt e)) ;;
     mark "persist live checkpoint (census)" relayURL (ID e) (CreatedAt e)) s
  else
    let '(s, pass) := gate_passes relayURL e s in
    if negb pass then
      (on_proc (set_counters add_gated) ;;
       mark "persist live checkpoint (gated)" relayURL (ID e) (CreatedAt e)) s
    else if expired_at seenAt e then
      mark "persist live checkpoint (expired)" relayURL (ID e) (CreatedAt e) s
    else persist now relayURL seenAt raw e s.

Definition safeJSONPayload (raw : option (list Z)) : option (list Z) :=
  match raw with Some (b :: l) => Some (b :: l) | _ => None end.

Definition handle_invalid (now : time) (relayURL : string) (seenAt : time) (result : ValidationResult)
    : go live unit :=
  on_proc (set_counters add_invalid) ;;
  on_store "store invalid event" (es_invalid now
    (mkInvalid relayURL (match RErr result with Some err => code_string (Code err) | None => "" end)
       (verr_text (RErr result)) (safeJSONPayload (RRawJSON result)) seenAt)).

Definition Handle (now : time) (relayURL : string) (payload : list Z) : go live unit := λ s,
  let seenAt := now in
  let '(s, handled) := handleCachedDuplicate now relayURL payload seenAt s in
  match handled with
  | Some r => (s, r)
  | None =>
      let result := ParseAndValidate payload (validateOpts s.1) in
      match RErr result, REvent result with
      | None, Some e => handle_valid now relayURL seenAt (default [] (RRawJSON result)) e s
      | _, _ => handle_invalid now relayURL seenAt result s
      end
  end.
End processor.

(** * What the processor relies on *)

(** Equal columns, apart from the two clock columns. *)
Record same_columns (e row : CanonicalEvent) : Prop := {
  sc_id : CID row = CID e;
  sc_pubkey : CPubkey row = CPubkey e;
  sc_created : CCreatedAt row = CCreatedAt e;
  sc_kind : CKind row = CKind e;
  sc_sig : CSig row = CSig e;
  sc_content : CContent row = CContent e;
  sc_raw : CRawJSON row = CRawJSON e;
}.

Class EventStoreSpec (D : Type) `{EventStore D} `{TargetExistenceChecker D} := {
  stored_event : D → string → option CanonicalEvent;
  (** An insert touches its own id only, never overwrites a stored event, and
      on success the event is stored and the result tells whether it is new. *)
  es_insert_spec now ev tags relay seen d :
    let '(d', r) := es_insert now ev tags relay seen d in
    (∀ id, id ≠ CID ev → stored_event d' id = stored_event d id) ∧
    match stored_event d (CID ev) with
    | Some old => ∃ row, stored_event d' (CID ev) = Some row ∧ same_event old row
    | None => stored_event d' (CID ev) = None ∨
              ∃ row, stored_event d' (CID ev) = Some row ∧ same_columns ev row
    end ∧
    match r with
    | Ok inserted => is_Some (stored_event d' (CID ev)) ∧ (inserted = true ↔ stored_event d (CID ev) = None)
    | Err _ => True
    end;
  (** The other calls do not touch events. *)
  es_invalid_frame now inv d id : stored_event (es_invalid now inv d).1 id = stored_event d id;
  es_provenance_frame now eid relay seen pk d id :
    stored_event (es_provenance now eid relay seen pk d).1 id = stored_event d id;
  es_census_frame eid pk kind c d id : stored_event (es_census eid pk kind c d).1 id = stored_event d id;
  es_check_frame ids d id : stored_event (check_events ids d).1 id = stored_event d id;
  es_check_addr_frame addrs d id : stored_event (check_addresses addrs d).1 id = stored_event d id;
}.

Section gate_frame.
Context `{UnicodeTables} {A D : Type} `{!TrustedAuthors A} `{Spec : EventStoreSpec D}.

(** The gate only reads the store. *)
Lemma evaluateGate_frame (authors : A) info mode kind pk tags relay (d : D) id :
  stored_event (evaluateGate authors info mode kind pk tags relay d).1 id = stored_event d id.
Proof.
  assert (∀ l addrs enf (d : D),
    stored_event (evaluateAddresses l addrs enf d).1 id = stored_event d id) as Ha.
  { intros l addrs enf d0. unfold evaluateAddresses. destruct addrs as [|a al]; [done|].
    pose proof (es_check_addr_frame (a :: al) d0 id) as Hf.
    by destruct (check_addresses (a :: al) d0) as [d1 [[]|]]. }
  assert (∀ l ids addrs enf (d : D),
    stored_event (evaluateAnyTarget l ids addrs enf d).1 id = stored_event d id) as Hany.
  { intros l ids addrs enf d0. unfold evaluateAnyTarget, evaluateTargetExistsGate.
    pose proof (λ d, Ha l addrs enf d) as Ha'. destruct ids as [|i ids].
    - destruct addrs as [|a al]; [done|]. cbn beta iota. specialize (Ha' d0).
      by destruct (evaluateAddresses l (a :: al) enf d0).
    - pose proof (es_check_frame (i :: ids) d0 id) as Hf.
      destruct (check_events (i :: ids) d0) as [d1 [[]|]]; try done. simpl in Hf.
      specialize (Ha' d1). cbn beta iota. destruct (is_accept _); [done|].
      destruct (evaluateAddresses l addrs enf d1). simpl in *. congruence. }
  assert (∀ l ids addrs enf x (d : D),
    stored_event (target_or l ids addrs enf x d).1 id = stored_event d id) as Hor.
  { intros l ids addrs enf x d0. unfold target_or. pose proof (Hany l ids addrs enf d0) as Hf.
    destruct (evaluateAnyTarget l ids addrs enf d0) as [d1 [y|]]; [by destruct (is_accept y)|done]. }
  assert (∀ l ids addrs enf (d : D),
    stored_event (target_only l ids addrs enf d).1 id = stored_event d id) as Honly.
  { intros l ids addrs enf d0. unfold target_only. pose proof (Hany l ids addrs enf d0) as Hf.
    by destruct (evaluateAnyTarget l ids addrs enf d0) as [d1 y]. }
  unfold evaluateGate. destruct (kind =? 1).
  { unfold replyParentExists. destruct (replyParentTargetIDs tags) as [|i ids]; [done|].
    pose proof (es_check_frame (i :: ids) d id) as Hf.
    by destruct (check_events (i :: ids) d) as [d1 [[]|]]. }
  destruct (kind =? 1059); [done|]. destruct (kind =? 9321); [apply Hor|].
  destruct (isRelayMetadataKind kind); [done|]. destruct (kind =? 1311); [apply Honly|].
  destruct (kind =? 1111); [apply Hor|]. destruct (isAuthorGatedKind kind); [done|].
  destruct (isEngagementKind kind); [apply Honly|done].
Qed.
End gate_frame.

Section guarantees.
Context `{UnicodeTables} `{SchnorrLib}.
Context {A W D : Type} `{!TrustedAuthors A} `{!CheckpointWriter W} `{Spec : EventStoreSpec D}.

Abbreviation live := (Processor A W * D)%type (only parsing).

(** ** Steps and the store *)

Definition same_store (d d' : D) : Prop := ∀ id, stored_event d' id = stored_event d id.

(** No step of the processor changes its configuration. *)
Definition same_config (p p' : Processor A W) : Prop :=
  validateOpts p' = validateOpts p ∧ gateMode p' = gateMode p ∧ trustedAuthors p' = trustedAuthors p ∧
  relayInfo p' = relayInfo p ∧ blockedAuthors p' = blockedAuthors p.

Lemma mark_store msg relay id c (s : live) :
  (mark msg relay id c s).1.2 = s.2 ∧ same_config s.1 (mark msg relay id c s).1.1 ∧
  dedup (mark msg relay id c s).1.1 = dedup s.1.
Proof.
  unfold mark. destruct (checkpointWriter s.1) as [w|]; [|done]. by destruct (cw_mark relay id c w).
Qed.

Lemma observe_config pk (p : Processor A W) :
  same_config p (observe pk p) ∧ dedup (observe pk p) = dedup p ∧
  checkpointWriter (observe pk p) = checkpointWriter p.
Proof. unfold observe. by destruct (observationSink p). Qed.

Lemma gate_passes_spec relay e (s : live) :
  (gate_passes relay e s).1.1 = s.1 ∧ same_store s.2 (gate_passes relay e s).1.2.
Proof.
  unfold gate_passes. destruct (trustedAuthors s.1) as [t|]; [|by split].
  pose proof (evaluateGate_frame t (relayInfo s.1) (gateMode s.1) (Kind e) (Pubkey e) (Tags e) relay s.2) as Hf.
  by destruct (evaluateGate _ _ _ _ _ _ _ s.2) as [d x].
Qed.

(** The gate's verdict depends on the configuration and the store only. *)
Lemma gate_passes_config relay e (p p' : Processor A W) (d : D) :
  same_config p p' → (gate_passes relay e (p', d)).2 = (gate_passes relay e (p, d)).2.
Proof.
  intros (_ & Hm & Ht & Hi & _). unfold gate_passes. simpl. rewrite Ht, Hi, Hm.
  destruct (trustedAuthors p); [|done]. by destruct (evaluateGate _ _ _ _ _ _ _ d).
Qed.

(** A checkpoint mark changes the writer only. *)
Ltac mark_step :=
  match goal with |- context [mark ?m ?r ?i ?c ?st] =>
    pose proof (mark_store m r i c st) as (Hd & Hc & Hdd);
    destruct (mark m r i c st) as [s1 r1]; cbn [fst snd] in * end.

Ltac config_trans := unfold same_config in *; simpl in *; intuition congruence.

(** ** The fresh path *)

(** What an event must pass to reach the store. *)
Record admitted (relay : string) (seen : time) (s : live) (e : Event) : Prop := {
  ad_unblocked : is_blocked s.1 (Pubkey e) = false;
  ad_kept : IsCensusKind (Kind e) = false;
  ad_gate : (gate_passes relay e s).2 = true;
  ad_fresh : expired_at seen e = false;
}.

Lemma persist_cases now relay seen raw e (s : live) :
  let '(s', r) := persist now relay seen raw e s in
  let '(d, ri) := es_insert now (canonical_row seen raw e) (Tags e) relay seen s.2 in
  s'.2 = d ∧ same_config s.1 s'.1 ∧
  match ri with
  | Err _ => checkpointWriter s'.1 = checkpointWriter s.1 ∧ dedup s'.1 = dedup s.1
  | Ok _ => dedup s'.1 = dedup s.1 ∨ dedup s'.1 = Add (dedup s.1) (ID e) (Pubkey e)
  end.
Proof.
  unfold persist, go_bind, on_store.
  destruct (es_insert now (canonical_row seen raw e) (Tags e) relay seen s.2) as [d [b|err]]; simpl; [|done].
  mark_step. destruct r1.
  - split_and!; try done. right. by rewrite Hdd.
  - split_and!; try done. by left.
Qed.

Lemma handle_valid_cases now relay seen raw e (s : live) :
  let '(s', r) := handle_valid now relay seen raw e s in
  same_config s.1 s'.1 ∧
  ((same_store s.2 s'.2 ∧ dedup s'.1 = dedup s.1 ∧ ¬ admitted relay seen s e) ∨
   (admitted relay seen s e ∧ ∃ d1, same_store s.2 d1 ∧
      let '(d, ri) := es_insert now (canonical_row seen raw e) (Tags e) relay seen d1 in
      s'.2 = d ∧
      match ri with
      | Err _ => checkpointWriter s'.1 = checkpointWriter s.1 ∧ dedup s'.1 = dedup s.1
      | Ok _ => dedup s'.1 = dedup s.1 ∨ dedup s'.1 = Add (dedup s.1) (ID e) (Pubkey e)
      end)).
Proof.
  unfold handle_valid. destruct (observe_config (Pubkey e) s.1) as (Hoc & Hod & How).
  set (p1 := observe (Pubkey e) s.1) in *. clearbody p1. cbn [fst snd].
  assert (is_blocked p1 (Pubkey e) = is_blocked s.1 (Pubkey e)) as ->.
  { unfold is_blocked. by destruct Hoc as (_ & _ & _ & _ & ->). }
  destruct (is_blocked s.1 (Pubkey e)) eqn:Eb.
  { unfold go_bind, on_proc, go_modify. cbn [fst snd].
    mark_step.
    split; [config_trans|]. left. rewrite Hd, Hdd.
    split_and!; [done|done|]. intros [Hn _ _ _]. congruence. }
  destruct (IsCensusKind (Kind e)) eqn:Ec.
  { unfold go_bind, on_store. cbn [fst snd].
    pose proof (es_census_frame (ID e) (Pubkey e) (Kind e) (CreatedAt e) s.2) as Hf.
    destruct (es_census _ _ _ _ s.2) as [d [b|err]]; simpl.
    2:{ split; [done|]. left. split_and!; [done..|]. intros [_ Hn _ _]. congruence. }
    mark_step.
    split; [config_trans|]. left. rewrite Hd, Hdd.
    split_and!; [done|done|]. intros [_ Hn _ _]. congruence. }
  pose proof (gate_passes_spec relay e (p1, s.2)) as [Hg1 Hg2].
  pose proof (gate_passes_config relay e s.1 p1 s.2 Hoc) as Hg3.
  replace (s.1, s.2) with s in Hg3 by by destruct s.
  destruct (gate_passes relay e (p1, s.2)) as [[p2 d2] pass]. cbn [fst snd] in Hg1, Hg2, Hg3. subst p2 pass.
  destruct (gate_passes relay e s).2 eqn:Eg; simpl negb; cbv iota.
  2:{ unfold go_bind, on_proc, go_modify. cbn [fst snd].
    mark_step.
    split; [config_trans|]. left. rewrite Hd, Hdd.
    split_and!; [done|done|]. intros [_ _ Hn _]. congruence. }
  destruct (expired_at seen e) eqn:Ee.
  { mark_step.
    split; [config_trans|]. left. rewrite Hd, Hdd.
    split_and!; [done|done|]. intros [_ _ _ Hn]. congruence. }
  pose proof (persist_cases now relay seen raw e (p1, d2)) as Hp.
  destruct (persist now relay seen raw e (p1, d2)) as [s' r]. cbn [fst snd] in Hp.
  destruct (es_insert now (canonical_row seen raw e) (Tags e) relay seen d2) as [d ri] eqn:Ei.
  destruct Hp as (Hp1 & Hp2 & Hp3).
  split; [config_trans|]. right. split; [done|].
  exists d2. split; [done|]. rewrite Ei. split; [done|].
  destruct ri; [by rewrite <-Hod|]. by rewrite <-Hod, <-How.
Qed.

(** ** The cached path *)

Lemma cached_cases now relay payload seen (s : live) :
  let '(s', o) := handleCachedDuplicate now relay payload seen s in
  same_config s.1 s'.1 ∧ same_store s.2 s'.2 ∧
  (dedup s'.1 = dedup s.1 ∨ ∃ id, dedup s'.1 = (Get (dedup s.1) id).1) ∧
  match o with
  | None => s'.2 = s.2 ∧ checkpointWriter s'.1 = checkpointWriter s.1
  | Some _ => ∃ id c pk, dedupProbe payload = Some (id, c) ∧ (Get (dedup s.1) id).2 = Some pk
  end.
Proof.
  unfold handleCachedDuplicate. destruct (dedup s.1) as [ch|] eqn:Edd; [|split_and!; by auto].
  destruct (dedupProbe payload) as [[id c]|]; [|split_and!; by auto].
  case_bool_decide; [split_and!; by auto|].
  destruct (Get (Some ch) id) as [c' [pk|]] eqn:Eg.
  2:{ split_and!; try done. right. exists id. by rewrite Eg. }
  unfold go_bind, on_proc, go_modify, on_store. cbn [fst snd].
  destruct (observe_config pk (set_dedup c' s.1)) as (Hoc & Hod & How).
  set (p1 := observe pk (set_dedup c' s.1)) in *. clearbody p1.
  pose proof (es_provenance_frame now id relay seen pk s.2) as Hf.
  destruct (es_provenance now id relay seen pk s.2) as [d [u|err]]; cbn [fst snd wrap_err].
  2:{ split_and!; try done; [right; exists id; by rewrite Eg, Hod|exists id, c, pk; by rewrite Eg]. }
  mark_step. destruct r1.
  - split_and!; [config_trans|by rewrite Hd| |].
    + right. exists id. rewrite Eg. simpl. by rewrite Hdd, Hod.
    + exists id, c, pk. by rewrite Eg.
  - split_and!; [config_trans|by rewrite Hd| |].
    + right. exists id. rewrite Eg. simpl. by rewrite Hdd, Hod.
    + exists id, c, pk. by rewrite Eg.
Qed.

(** ** One payload *)

Lemma admitted_config relay seen p p' (d : D) e :
  same_config p p' → admitted relay seen (p', d) e → admitted relay seen (p, d) e.
Proof.
  intros Hc [Hb Hk Hg Hx]. split; try done.
  - revert Hb. unfold is_blocked. simpl. by destruct Hc as (_ & _ & _ & _ & ->).
  - by rewrite <-(gate_passes_config relay e p p' d Hc).
Qed.

Lemma ParseAndValidate_raw payload options e :
  REvent (ParseAndValidate payload options) = Some e →
  RErr (ParseAndValidate payload options) = None ∧
  RRawJSON (ParseAndValidate payload options) = Some (trim_bytes payload).
Proof. intros Hv. apply ParseAndValidate_inv in Hv as (-> & _). done. Qed.

(** What handling one payload does: the store keeps its events, or it gains
    the validated and admitted event. *)
Lemma Handle_cases now relay payload (s : live) :
  let '(s', r) := Handle now relay payload s in
  same_config s.1 s'.1 ∧
  ((same_store s.2 s'.2 ∧ (dedup s'.1 = dedup s.1 ∨ ∃ id, dedup s'.1 = (Get (dedup s.1) id).1) ∧
    (checkpointWriter s'.1 = checkpointWriter s.1 ∨
     (∃ id c pk, dedupProbe payload = Some (id, c) ∧ (Get (dedup s.1) id).2 = Some pk) ∨
     ∃ e, REvent (ParseAndValidate payload (validateOpts s.1)) = Some e ∧ ¬ admitted relay now s e)) ∨
   ∃ e d1 c1, REvent (ParseAndValidate payload (validateOpts s.1)) = Some e ∧ admitted relay now s e ∧
     same_store s.2 d1 ∧ (c1 = dedup s.1 ∨ ∃ id, c1 = (Get (dedup s.1) id).1) ∧
     let '(d, ri) := es_insert now (canonical_row now (trim_bytes payload) e) (Tags e) relay now d1 in
     s'.2 = d ∧
     match ri with
     | Err _ => checkpointWriter s'.1 = checkpointWriter s.1 ∧ dedup s'.1 = c1
     | Ok _ => dedup s'.1 = c1 ∨ dedup s'.1 = Add c1 (ID e) (Pubkey e)
     end).
Proof.
  unfold Handle. pose proof (cached_cases now relay payload now s) as Hc.
  destruct (handleCachedDuplicate now relay payload now s) as [[p1 d1] o]. cbn [fst snd] in *.
  destruct Hc as (Hcfg & Hst & Hdd & Ho). destruct o as [r|].
  { split; [done|]. left. split_and!; [done..|]. right. by left. }
  destruct Ho as [-> Hw]. assert (validateOpts p1 = validateOpts s.1) as -> by apply Hcfg.
  destruct (REvent (ParseAndValidate payload (validateOpts s.1))) as [e|] eqn:Ev.
  - destruct (ParseAndValidate_raw _ _ _ Ev) as [-> ->]. simpl default.
    pose proof (handle_valid_cases now relay now (trim_bytes payload) e (p1, s.2)) as Hv.
    destruct (handle_valid now relay now (trim_bytes payload) e (p1, s.2)) as [s' r]. cbn [fst snd] in Hv.
    destruct Hv as (Hcfg' & Hv). split; [config_trans|].
    assert (admitted relay now (p1, s.2) e ↔ admitted relay now s e) as Hadm.
    { replace s with (s.1, s.2) at 2 by by destruct s. split; apply admitted_config; [done|].
      config_trans. }
    destruct Hv as [(Hq1 & Hq2 & Hq3)|(Had & d2 & Hq1 & Hq2)].
    + left. split_and!; [done|by rewrite Hq2|]. right. right. exists e. split; [done|by rewrite <-Hadm].
    + right. exists e, d2, (dedup p1). split_and!; [done|by apply Hadm|done|done|].
      destruct (es_insert _ _ _ _ _ d2) as [d ri]. by rewrite <-Hw.
  - assert (∃ s' r, handle_invalid now relay now (ParseAndValidate payload (validateOpts s.1)) (p1, s.2)
              = (s', r) ∧ same_config p1 s'.1 ∧ same_store s.2 s'.2 ∧ dedup s'.1 = dedup p1 ∧
                checkpointWriter s'.1 = checkpointWriter p1) as (s' & r & Hinv & Hi1 & Hi2 & Hi3 & Hi4).
    { unfold handle_invalid, go_bind, on_proc, go_modify, on_store. cbn [fst snd].
      match goal with |- context [es_invalid ?n ?i ?d] => pose proof (es_invalid_frame n i d) as Hf;
        destruct (es_invalid n i d) as [d' r'] end. do 2 eexists. split; [done|].
      split_and!; try done. }
    assert ((match RErr (ParseAndValidate payload (validateOpts s.1)) with
             | Some _ | None => handle_invalid now relay now (ParseAndValidate payload (validateOpts s.1)) (p1, s.2)
             end) = (s', r)) as -> by by destruct (RErr _).
    split; [config_trans|]. left. split_and!; [done|by rewrite Hi3|]. left. congruence.
Qed.

(** C2: Only admitted events are ever stored: if handling a payload adds a row,
    the payload validated as an event with that id, its author is not blocked,
    its kind is not count-only, the trust gate lets it pass, it has not expired,
    and the row carries its verified fields. *)
Theorem only_admitted_stored (now : time) (relay : string) (payload : list Z) (s s' : live)
    (r : result unit) (id : string) (row : CanonicalEvent) :
  Handle now relay payload s = (s', r) →
  stored_event s.2 id = None → stored_event s'.2 id = Some row →
  ∃ e, REvent (ParseAndValidate payload (validateOpts s.1)) = Some e ∧ ID e = id ∧
       admitted relay now s e ∧ same_columns (canonical_row now (trim_bytes payload) e) row.
Proof.
  intros E Hn Hs. pose proof (Handle_cases now relay payload s) as Hc. rewrite E in Hc.
  destruct Hc as [_ [[Hst _]|(e & d1 & c1 & Hv & Ha & Hd1 & _ & Hi)]].
  { rewrite Hst in Hs. congruence. }
  exists e. pose proof (es_insert_spec now (canonical_row now (trim_bytes payload) e) (Tags e) relay now d1) as Hsp.
  destruct (es_insert _ _ _ _ _ d1) as [d ri]. destruct Hi as [Hd _]. rewrite Hd in Hs. destruct Hsp as (Ho & Hrow & _).
  simpl in Ho, Hrow. destruct (decide (id = ID e)) as [->|Hne].
  - rewrite Hd1, Hn in Hrow. destruct Hrow as [Hx|(row' & Hx & Hsc)]; [congruence|].
    split_and!; try done. congruence.
  - rewrite Ho, Hd1 in Hs by done. congruence.
Qed.

(** C7: The resume cursor only moves past a payload that is accounted for: when
    handling a payload advances the checkpoint, its event was already known to
    the duplicate cache, or the payload validated and its event was dropped by
    policy or is now in the store. A failed insert never advances it. *)
Theorem progress_is_durable (now : time) (relay : string) (payload : list Z) (s s' : live)
    (r : result unit) :
  Handle now relay payload s = (s', r) → checkpointWriter s'.1 ≠ checkpointWriter s.1 →
  (∃ id c pk, dedupProbe payload = Some (id, c) ∧ (Get (dedup s.1) id).2 = Some pk) ∨
  ∃ e, REvent (ParseAndValidate payload (validateOpts s.1)) = Some e ∧
       (¬ admitted relay now s e ∨ is_Some (stored_event s'.2 (ID e))).
Proof.
  intros E Hw. pose proof (Handle_cases now relay payload s) as Hc. rewrite E in Hc.
  destruct Hc as [_ [(_ & _ & [Hx|[Hx|(e & Hv & Hx)]])|(e & d1 & c1 & Hv & Ha & Hd1 & _ & Hi)]];
    [done|by left|right; exists e; by auto|].
  right. exists e. split; [done|]. right.
  pose proof (es_insert_spec now (canonical_row now (trim_bytes payload) e) (Tags e) relay now d1) as Hsp.
  destruct (es_insert _ _ _ _ _ d1) as [d [b|err]]; [|by destruct Hi as (_ & ? & _)].
  destruct Hi as [-> _]. by destruct Hsp as (_ & _ & ? & _).
Qed.

(** ** The duplicate cache over a run *)

(** Some payload validated as an event with this id and author. *)
Definition vouched (id pubkey : string) : Prop :=
  ∃ payload opts e, REvent (ParseAndValidate payload opts) = Some e ∧ ID e = id ∧ Pubkey e = pubkey.

Definition entries_sound (d : D) (c : option dedupCache) : Prop :=
  match c with
  | None => True
  | Some c => cache_ok c ∧ ∀ en, en ∈ abs c →
      vouched (d_id en) (d_pubkey en) ∧ is_Some (stored_event d (d_id en))
  end.

Lemma elem_of_lru_other id l en : en ∈ lru_other id l → en ∈ l.
Proof. unfold lru_other. rewrite !list_elem_of_In, filter_In. by intros [? _]. Qed.

Lemma lru_find_Some id l en : lru_find id l = Some en → en ∈ l ∧ d_id en = id.
Proof.
  unfold lru_find. intros Hf. apply find_some in Hf as [Hin Hid]. bool_simpl.
  by rewrite list_elem_of_In.
Qed.

Lemma elem_of_lru_get id l en : en ∈ (lru_get id l).1 → en ∈ l.
Proof.
  unfold lru_get. destruct (lru_find id l) as [x|] eqn:E; simpl; [|done].
  apply lru_find_Some in E as [Hx _]. rewrite elem_of_cons.
  intros [->|Hin]; [done|by eapply elem_of_lru_other].
Qed.

Lemma elem_of_lru_add cap id pk l en : en ∈ lru_add cap id pk l → en = mkEntry id pk ∨ en ∈ l.
Proof.
  unfold lru_add. case_bool_decide; [by right|]. destruct (lru_find id l); rewrite elem_of_cons;
    (intros [->|Hin]; [by left|right]); [by eapply elem_of_lru_other|].
  apply elem_of_take in Hin as (i & Hi & _). by eapply list_elem_of_lookup_2.
Qed.

Lemma entries_sound_get d c id : entries_sound d c → entries_sound d (Get c id).1.
Proof.
  destruct c as [c|]; [|done]. intros [Hok Hen].
  destruct (Get_refines c id Hok) as (c' & -> & Hok' & Habs & _). simpl. split; [done|].
  intros en Hin. apply Hen. rewrite Habs in Hin. by eapply elem_of_lru_get.
Qed.

Lemma entries_sound_add d c id pk :
  vouched id pk → is_Some (stored_event d id) → entries_sound d c → entries_sound d (Add c id pk).
Proof.
  intros Hv Hs. destruct c as [c|]; [|done]. intros [Hok Hen].
  destruct (Add_refines c id pk Hok) as (c' & -> & Hok' & Habs & _). simpl. split; [done|].
  intros en Hin. rewrite Habs in Hin. apply elem_of_lru_add in Hin as [->|Hin]; [done|by apply Hen].
Qed.

Lemma entries_sound_mono d d' c :
  (∀ id, is_Some (stored_event d id) → is_Some (stored_event d' id)) →
  entries_sound d c → entries_sound d' c.
Proof.
  intros Hm. destruct c as [c|]; [|done]. intros [Hok Hen]. split; [done|].
  intros en Hin. destruct (Hen en Hin) as [Hv Hs]. split; [done|by apply Hm].
Qed.

Lemma insert_mono now ev tags relay seen (d : D) id :
  is_Some (stored_event d id) →
  is_Some (stored_event (es_insert now ev tags relay seen d).1 id).
Proof.
  intros Hs. pose proof (es_insert_spec now ev tags relay seen d) as Hsp.
  destruct (es_insert now ev tags relay seen d) as [d' r]. destruct Hsp as (Ho & Hrow & _). simpl.
  destruct (decide (id = CID ev)) as [->|Hne]; [|by rewrite Ho].
  destruct Hs as [x Hx]. rewrite Hx in Hrow. destruct Hrow as (row & -> & _). by eexists.
Qed.

Lemma Handle_sound now relay payload (s : live) :
  entries_sound s.2 (dedup s.1) →
  entries_sound (Handle now relay payload s).1.2 (dedup (Handle now relay payload s).1.1).
Proof.
  intros Hs. pose proof (Handle_cases now relay payload s) as Hc.
  destruct (Handle now relay payload s) as [s' r]. cbn [fst].
  destruct Hc as [_ [(Hst & Hdd & _)|(e & d1 & c1 & Hv & _ & Hd1 & Hc1 & Hi)]].
  - apply (entries_sound_mono s.2); [intros id; by rewrite Hst|].
    destruct Hdd as [->|(id & ->)]; [done|by apply entries_sound_get].
  - assert (entries_sound s.2 c1) as H0c by (destruct Hc1 as [->|(id & ->)]; [done|by apply entries_sound_get]).
    pose proof (insert_mono now (canonical_row now (trim_bytes payload) e) (Tags e) relay now d1) as Hm.
    pose proof (es_insert_spec now (canonical_row now (trim_bytes payload) e) (Tags e) relay now d1) as Hsp.
    destruct (es_insert _ _ _ _ _ d1) as [d ri]. simpl in Hm. destruct Hi as [-> Hi].
    assert (entries_sound d c1) as Hd.
    { apply (entries_sound_mono s.2); [|done]. intros id Hid. apply Hm. by rewrite Hd1. }
    destruct ri as [b|err]; [|by destruct Hi as [_ ->]].
    destruct Hi as [->| ->]; [done|]. apply entries_sound_add; [|by apply Hsp|done].
    by exists payload, (validateOpts s.1), e.
Qed.

(** A stream of payloads: time, relay, bytes. *)
Definition run_handle (stream : list (time * string * list Z)) (s : live) : live :=
  foldl (λ s x, let '(now, relay, payload) := x in (Handle now relay payload s).1) s stream.

(** C6: The duplicate cache is never poisoned: after any stream of payloads,
    hostile ones included, an id is found in it only if its event is in the
    store, and the author it is found with signed an event with that id. *)
Theorem cache_never_poisoned (stream : list (time * string * list Z)) (p : Processor A W) (d : D)
    (size : Z) (id pubkey : string) :
  let s := run_handle stream (SetDedupCache size p, d) in
  (Get (dedup s.1) id).2 = Some pubkey → vouched id pubkey ∧ is_Some (stored_event s.2 id).
Proof.
  cbv zeta. assert (entries_sound d (dedup (SetDedupCache size p))) as H0s.
  { simpl. destruct (newDedupCache size) as [c|] eqn:E; [|done].
    destruct (new_ok size c E) as (Hok & Habs & _). split; [done|]. rewrite Habs. set_solver. }
  change d with (SetDedupCache size p, d).2 in H0s at 1. revert H0s.
  change (dedup (SetDedupCache size p)) with (dedup (SetDedupCache size p, d).1).
  generalize (SetDedupCache size p, d). intros s Hs.
  assert (entries_sound (run_handle stream s).2 (dedup (run_handle stream s).1)) as Hr.
  { unfold run_handle. revert s Hs. induction stream as [|[[now relay] pl] stream IH]; intros s Hs; simpl; [done|].
    by apply IH, Handle_sound. }
  destruct (dedup (run_handle stream s).1) as [c|]; [|done]. destruct Hr as [Hok Hen].
  destruct (Get_refines c id Hok) as (c' & -> & _). simpl. unfold lru_get.
  destruct (lru_find id (abs c)) as [x|] eqn:Ef; [|done]. intros [= <-].
  apply lru_find_Some in Ef as [Hx <-]. by apply Hen.
Qed.
End guarantees.

(** * The database as the processor's store *)

Definition put_events (t : EventTables) (s : StoreTables) : StoreTables :=
  mkStore t (st_census s) (st_invalid s).
Definition put_census (t : CensusTables) (s : StoreTables) : StoreTables :=
  mkStore (st_events s) t (st_invalid s).
Definition put_invalid (t : InvalidTables) (s : StoreTables) : StoreTables :=
  mkStore (st_events s) (st_census s) t.

(** [publisher] and [ctx] are the store's job publisher and the worker pool of
    the ingest context. *)
#[export] Instance pg_store (publisher : option Z) (ctx : option string) : EventStore (db StoreTables) := {
  es_insert now ev tags relay seen :=
    zoom st_events put_events (InsertCanonicalEventWithResult publisher now ctx ev tags relay seen);
  es_invalid now inv := zoom st_invalid put_invalid (InsertInvalidEvent now inv);
  es_provenance now id relay seen pk :=
    zoom st_events put_events (InsertEventRelayProvenance now id relay seen pk);
  es_census id pk kind c := zoom st_census put_census (RecordKindCensus id pk kind c);
}.

#[export] Instance pg_checker : TargetExistenceChecker (db StoreTables) := {
  check_events ids := zoom st_events put_events (EventsExist ids);
  check_addresses addrs := zoom st_events put_events (ReplaceableAddressesExist addrs);
}.

Lemma query_frame {T X} msg (f : T → X) (s : db T) : tables (go_wrap msg (query f) s).1 = tables s.
Proof. rewrite wrap_fst. unfold query, stmt. by destruct (next_fault s). Qed.

#[export] Program Instance pg_store_spec publisher ctx :
  @EventStoreSpec (db StoreTables) (pg_store publisher ctx) pg_checker := {
  stored_event s id := events (st_events (tables s)) !! id;
}.
Next Obligation.
  intros publisher ctx now ev tags relay seen d. simpl.
  destruct (zoom st_events put_events _ d) as [d' r] eqn:E. unfold zoom in E.
  set (s0 := mkDb (st_events (tables d)) (faults d)) in *.
  destruct (InsertCanonicalEventWithResult publisher now ctx ev tags relay seen s0) as [s1 r1] eqn:Ei.
  injection E as <- <-. simpl.
  assert (∀ mx sn, tables s1 = inserted_tables mx now ctx (row_of now ev) tags relay sn (tables s0) →
    (∀ id, id ≠ CID ev → events (tables s1) !! id = events (tables s0) !! id) ∧
    match events (tables s0) !! CID ev with
    | Some old => ∃ row, events (tables s1) !! CID ev = Some row ∧ same_event old row
    | None => events (tables s1) !! CID ev = None ∨
              ∃ row, events (tables s1) !! CID ev = Some row ∧ same_columns ev row
    end) as Hins.
  { intros mx sn ->. destruct (inserted_events mx now ctx (row_of now ev) tags relay sn (tables s0))
      as [Ho (e' & He' & Hm)]. split; [done|]. cbn [CID row_of] in *.
    destruct (events (tables s0) !! CID ev); [exists e'; split; [done|apply Hm]|].
    right. exists e'. by subst e'. }
  destruct r1 as [b|err].
  - apply Insert_ok in Ei as (Hb & mx & _ & Ht). destruct (Hins _ _ Ht) as [H1 H2].
    split; [done|]. split; [done|]. split.
    + rewrite Ht. destruct (inserted_events mx now ctx (row_of now ev) tags relay
        (if time_is_zero seen then CFirstSeenAt (row_of now ev) else seen) (tables s0)) as [_ (e' & He' & _)].
      cbn [CID row_of] in He'. rewrite He'. by eexists.
    + rewrite Hb. by rewrite bool_decide_eq_true.
  - apply Insert_err in Ei. rewrite Ei. simpl. split; [done|]. split; [|done].
    destruct (events (st_events (tables d)) !! CID ev) as [old|]; [|by left]. by exists old.
Qed.
Next Obligation.
  intros. simpl. destruct (zoom_tables st_invalid put_invalid (InsertInvalidEvent now inv) d) as [-> _]. done.
Qed.
Next Obligation.
  intros. simpl.
  destruct (zoom_tables st_events put_events (InsertEventRelayProvenance now eid relay seen pk) d) as [-> _].
  simpl. destruct (Sighting_cases now eid relay seen pk (mkDb (st_events (tables d)) (faults d)))
    as [->|[_ (x & ->)]]; done.
Qed.
Next Obligation.
  intros. simpl. destruct (zoom_tables st_census put_census (RecordKindCensus eid pk kind c) d) as [-> _]. done.
Qed.
Next Obligation.
  intros. simpl. destruct (zoom_tables st_events put_events (EventsExist ids) d) as [-> _].
  unfold EventsExist. destruct (dedup_first _); [done|]. by rewrite query_frame.
Qed.
Next Obligation.
  intros. simpl. destruct (zoom_tables st_events put_events (ReplaceableAddressesExist addrs) d) as [-> _].
  unfold ReplaceableAddressesExist. destruct addrs; [done|]. by rewrite query_frame.
Qed.

(** * A processor at work *)

(** A checkpoint writer that records its calls. *)
#[export] Instance log_writer : CheckpointWriter (list (string * string * Z)) := {
  cw_mark relay id c w := (w ++ [(relay, id, c)], Ok tt);
}.

Section demo.
#[local] Existing Instance ascii_tables.
#[local] Existing Instance demo_schnorr.

Abbreviation demo_live :=
  (Processor (option TrustedAuthorSet) (list (string * string * Z)) * db StoreTables)%type (only parsing).

Abbreviation demo_handle :=
  (@Handle ascii_tables demo_schnorr (option TrustedAuthorSet) (list (string * string * Z))
     (db StoreTables) _ _ (pg_store (Some 5) None) pg_checker).

Definition empty_store : db StoreTables :=
  mkDb (mkStore empty_events (mkCensus ∅ ∅ ∅) (mkInvalidTables ∅ 1)) [].

Definition demo_proc : Processor (option TrustedAuthorSet) (list (string * string * Z)) :=
  SetCheckpointWriter (Some []) (NewProcessor default_options).

Definition demo_start : demo_live := (SetDedupCache 8 demo_proc, empty_store).

Definition demo_payload : list Z := event_payload demo_event.

Definition demo_stored : demo_live := (demo_handle 5 "wss://r" demo_payload demo_start).1.

Lemma only_admitted_stored_witness :
  ∃ e, REvent (ParseAndValidate demo_payload default_options) = Some e ∧ ID e = ID demo_event ∧
       @admitted _ _ _ _ _ pg_checker "wss://r" 5 demo_start e ∧
       same_columns (canonical_row 5 (trim_bytes demo_payload) e) (canonical_row 5 demo_payload demo_event).
Proof.
  apply (@only_admitted_stored _ _ _ _ _ _ _ (pg_store (Some 5) None) pg_checker (pg_store_spec (Some 5) None)
           5 "wss://r" demo_payload demo_start demo_stored (demo_handle 5 "wss://r" demo_payload demo_start).2).
  - unfold demo_stored. apply surjective_pairing.
  - reflexivity.
  - vm_compute. reflexivity.
Defined.

Lemma progress_is_durable_witness :
  checkpointWriter demo_stored.1 = Some [("wss://r", ID demo_event, CreatedAt demo_event)] ∧
  ((∃ id c pk, dedupProbe demo_payload = Some (id, c) ∧ (Get (dedup demo_start.1) id).2 = Some pk) ∨
   ∃ e, REvent (ParseAndValidate demo_payload (validateOpts demo_start.1)) = Some e ∧
        (¬ @admitted _ _ _ _ _ pg_checker "wss://r" 5 demo_start e ∨
         is_Some (@stored_event _ _ _ (pg_store_spec (Some 5) None) demo_stored.2 (ID e)))).
Proof.
  split; [vm_compute; reflexivity|].
  apply (@progress_is_durable _ _ _ _ _ _ _ (pg_store (Some 5) None) pg_checker (pg_store_spec (Some 5) None)
           5 "wss://r" demo_payload demo_start demo_stored (demo_handle 5 "wss://r" demo_payload demo_start).2).
  - unfold demo_stored. apply surjective_pairing.
  - vm_compute. discriminate.
Defined.

Lemma cache_never_poisoned_witness :
  vouched (ID demo_event) (Pubkey demo_event).
Proof.
  destruct (@cache_never_poisoned _ _ _ _ _ _ _ (pg_store (Some 5) None) pg_checker
              (pg_store_spec (Some 5) None) [(5, "wss://r", demo_payload)] demo_proc empty_store 8
              (ID demo_event) (Pubkey demo_event)) as [Hv _].
  - vm_compute. reflexivity.
  - exact Hv.
Defined.

(** A cached duplicate skips the blocked-author drop: after its author is
    blocked, another sighting of the event is still recorded. *)
Example cached_duplicate_of_blocked_author :
  let s := (SetBlockedAuthors (Some (λ _, true)) demo_stored.1, demo_stored.2) in
  let '(s', r) := demo_handle 6 "wss://other" demo_payload s in
  r = Ok tt ∧ counters s'.1 = mkCounters 1 1 0 0 ∧
  event_relays (st_events (tables s'.2)) !! (ID demo_event, "wss://other")
  = Some (mkSighting 6 (Pubkey demo_event)).
Proof. vm_compute. split_and!; reflexivity. Qed.

(** The cache outlives the row: once retention has deleted the event, every
    further sighting fails on the foreign key and the event is not stored again. *)
Example cached_duplicate_of_purged_event :
  let s := (demo_stored.1, empty_store) in
  let '(s', r) := demo_handle 6 "wss://r" demo_payload s in
  r = Err "store duplicate provenance: upsert event relay provenance: violates foreign key constraint" ∧
  events (st_events (tables s'.2)) = ∅.
Proof. vm_compute. split; reflexivity. Qed.
End demo.
